(* ===== verification/_CoqProject ===== *)
-Q . S2P
Prelude.v
RustText.v
RustPath.v
Posix.v
Json.v
JsonPrinter.v
Tokio.v
Outbound.v
OutboundChannel.v
OutboundInvariant.v
OutboundWriter.v
OutboundWriterFacts.v
OutboundClaims.v
RpcScope.v
FairExecution.v
FairExecutionFacts.v
RpcDispatch.v
RpcDispatchInvariant.v
RpcDispatchMoves.v
RpcDispatchHistory.v
RpcDispatchLiveness.v
RpcDispatchClaims.v
HumanInteraction.v
FileChangeError.v
FileChangeDigest.v
ApplyPatchWire.v
ApplyPatchBranches.v
ApplyPatchClaims.v
TraceSanitizer.v
TraceItems.v
FileChangeModel.v
FileChangeBinding.v
FileChangePlanner.v
FileChangePlannerFacts.v
BoundIo.v
BoundIoFacts.v
BoundIoEffects.v
FileChangeCommitter.v
FileChangeRecordFacts.v
FileChangeCommitFacts.v
FileChangeRetry.v
FileChangeClaims.v
TraceProjection.v
TraceProjectionFacts.v
TraceValidation.v
TraceHistory.v
ProjectedHistory.v
ModelContext.v
TraceRecorder.v
TraceRecorderFacts.v
TraceClaims.v
CommandTypes.v
ShellLexer.v
ShellLexerFacts.v
ShellProgram.v
CommandTargets.v
CommandAllowlist.v
CommandRisk.v
Permissions.v
CommandPolicy.v
CommandPolicyFacts.v
CommandSafety.v
CommandClaims.v
KeyedAdmission.v
KeyedAdmissionFacts.v
CommandTranscript.v
OutputCapture.v
OutputCaptureFacts.v
OutputCaptureClaims.v
CommandTranscriptFacts.v
ToolFailureGuard.v
ToolFailureGuardFacts.v
ProviderCooldown.v
ProviderCooldownFacts.v
Chrono.v
AutomationSchedule.v
AutomationNormal.v
AutomationGrid.v
AutomationWalks.v
AutomationClaims.v
