(* ===== verification/Prelude.v ===== *)
(** * Captain Who: verification of the Rust core

    Captain Who is a desktop agent.  Its Rust workspace ([src/crates/]) has a
    core that decides what a model's tool calls may do ([core/src/]), a server
    that runs conversations concurrently ([core-server/src/]), and adapters for
    storage, model providers and the desktop.  This library models the parts of
    the core that stand between a model and the machine of its user, the
    bookkeeping that keeps conversations apart, and the two ends of the connection
    between the server and the desktop:

    - the command policy ([core/src/command/]): every shell command a model
      proposes is lexed, its programs are resolved and classified, and the
      findings decide whether it runs, asks a person, or is refused;
    - permission ceilings ([core/src/protocol/session.rs]), which the policy
      takes as an argument and which nested agents narrow;
    - command output ([core/src/command/output_capture.rs],
      [core/src/command/transcript.rs]): how the output of a command that was
      allowed is drained, how private paths are replaced in it while it streams, and
      the bounded records that are kept of it;
    - the conversation trace ([core/src/conversation_trace/],
      [core/src/conversation_trace_projection.rs]): what a turn did, as the
      runtime records it while it runs, as it is projected into the history that
      is kept, and as it is checked whenever it is persisted;
    - file changes ([core/src/tools/apply_patch/], [core/src/file_change/]): which
      requests to change files are well formed, what plan a request gets, and how
      a plan is published on a file system that others use, that fails, and on
      which the process may die;
    - the tool failure guard ([core/src/runtime/tool_failure_guard.rs]), which
      stops a model from repeating a call that fails;
    - the cooldown of model providers ([core/src/llm/provider_cooldown.rs]), by
      which requests share a provider's rate limits;
    - the schedules of automations
      ([core-server/src/application/automation/schedule.rs]): what a recurring
      task may say and when it runs next;
    - resource admission ([core-server/src/application/agent/keyed_admission.rs]),
      the coordinator that serialises work on the same conversation;
    - the request dispatcher ([core-server/src/transport/bounded_dispatch.rs],
      [bounded_dispatch_resources.rs],
      [core-server/src/application/agent/rpc_resources.rs]), which takes the
      requests of the desktop, decides which may run beside each other and in what
      order, and bounds how many wait and run;
    - the outbound queue and the writer of the connection
      ([core-server/src/transport/outbound.rs], [outbound_writer.rs]), by which
      responses and notifications go back.

    A request comes in through the dispatcher; its handler may start a turn, whose
    tool calls pass the guard, the policy and the permissions, take their
    conversation from the coordinator, and run a command or commit a file change;
    the recorder keeps what was done, and the events of the turn leave through the
    outbound queue.

    ** Files

    Shared:
    - [Prelude]: the error monad for [Result], the [while_loop] combinator,
      list and option lemmas, [u64_max], tactics and the [captain] hint
      database.
    - [RustText]: [char], [str] and [String].  A char is its Unicode scalar
      value (N), a [str] the list of its chars; byte lengths are written out
      ([len_utf8], [byte_len]); the order of strings; the UTF-8 bytes of text, which
      the digests are taken of; [sort] and [dedup] and the ordered sets they make.
    - [RustPath]: [std::path] on Unix, components and their comparison.
    - [Chrono]: the calendar library as the interface [Chrono], its documented
      behaviour as [ChronoLaws]; [gregorian] is an instance of both, at which the
      theorems about schedules are used.

    Command policy, in the order the source calls it:
    - [CommandTypes]: the enums and structs of [types.rs], [session.rs] and
      [office_command.rs] that the policy reads and returns.
    - [ShellLexer] ([lexer.rs], and the two redirection scanners of
      [policy.rs]): [lex_command] keeps its local variables in the record
      [LexState]; each arm of its [match] is one definition on that record
      ([lex_single_quoted], [lex_heredoc], ...); [lex_step] is one pass of the
      loop and [lex_finish] what comes after it.
    - [ShellProgram] ([lexer.rs]): [effective_program] and the shell options.
    - [CommandTargets] ([risk.rs], [segment.rs]): operands, devices, protected
      directories, lexical path normalisation.
    - [CommandAllowlist] ([allowlist.rs]): the closed option grammars.
    - [CommandRisk] ([risk.rs]): [classify_segment].
    - [Permissions] ([session.rs]): [AgentPermissions::meet] and the order of
      authority of which it is the meet.
    - [CommandPolicy] ([segment.rs], [policy.rs]): [assess_segment], the
      recursive [analyze_command] and [evaluate_command_policy_at].
    - [ShellLexerFacts], [CommandPolicyFacts], [CommandSafety]: the lemmas.
      [CommandSafety] holds the abstract specification [auto_safe], a
      declarative description of the commands that run without a person.
    - [CommandClaims]: the properties of the lexer and of the policy.

    Conversation trace, from the data to the properties:
    - [Json]: [serde_json::Value] and the operations of its [Map].
    - [HumanInteraction] ([human_interaction.rs]): the display of a person's
      answers and its [validate].
    - [ApplyPatchWire] ([tools/apply_patch/schema.rs], [wire_contract.rs]): the
      published schema and the inspector of requests; [ApplyPatchBranches]: a
      reader of the schema's own vocabulary, and lemmas on the inspector; and
      which branch an object selects; [ApplyPatchClaims].
    - [TraceSanitizer] ([conversation_trace_projection.rs]): binary material in
      text and in JSON, and the bounded sanitizer.
    - [TraceItems] ([conversation_trace/model.rs] and the types it uses): the
      items of a trace and the checks each passes alone.
    - [TraceValidation] ([incremental_validation.rs], [validation.rs]): [append]
      on the record [ConversationTraceValidationState], one definition per arm of
      its [match]; [validate], [committed_prefix],
      [append_command_session_lifecycle].
    - [TraceProjection] ([conversation_trace_projection.rs], [projection.rs]):
      what each tool's call and result become in the kept history, and
      [project_durable_trace_items] over a trace; [TraceProjectionFacts]: clean
      values stay clean; [ProjectedHistory]: what is kept is small, and valid
      histories stay valid.
    - [TraceHistory]: the declarative description [well_formed] and [ended] of a
      valid history, and the lemmas that connect it with the validator.
    - [ModelContext] ([validation.rs], [model.rs]): the log of model messages
      beside a trace.
    - [TraceRecorder] ([recorder.rs], [recovery.rs]): the recorder as a record
      and each of its operations as a function on it; [TraceRecorderFacts].
    - [TraceClaims]: facts of that log, and the properties of traces, of the recorder
      and of the projection.

    File changes, from the operating system up:
    - [Posix]: what the file changes use of Unix: a tree of inodes, the system
      calls on it, and the [World] they run in.  Before each call the world takes
      a turn: what other processes do, and whether the call goes through, fails,
      or is never made because the process dies.  This is documented behaviour of
      the system, not code of the repository.  It also has the logic [wp] for
      faults and crashes, in which an answer of a computation that only looks is
      the one of a quiet world ([honest], [saw]).
    - [FileChangeError] ([error.rs]), [FileChangeDigest] ([digest.rs],
      [revision.rs]), [FileChangeModel] ([model.rs]: states, transactions,
      proposals, receipts and their checks).
    - [FileChangeBinding] ([model.rs], [observation.rs], [committer.rs]): the
      frozen observation, the journal of a delete, and the binding that carries
      an approved change, with its successors.
    - [FileChangePlanner] ([planner.rs]): edits and plans;
      [FileChangePlannerFacts] describes them without the algorithm.
    - [BoundIo] ([bound_io.rs] for Linux, and the part of [policy.rs] that looks
      at a resolved target again): opening the parent, reading, staging,
      publishing; [BoundIoFacts] (what is seen), [BoundIoEffects] (what each write
      changes; a staged file is new and under a drawn name).
    - [FileChangeCommitter] ([committer.rs]): commit, reconciliation, rollback and
      the end of deletes; [FileChangeCommitFacts] (what every way out
      leaves, and what a commit does, whatever others do), [FileChangeRetry] (what
      is left after many tries),
      [FileChangeRecordFacts] (what a binding accepts).
    - [FileChangeClaims]: the properties, with a concrete file system.

    The connection, from the runtime to the properties:
    - [JsonPrinter]: the compact printer of [serde_json] as a class with laws, and
      a printer that satisfies them; [Tokio]: a
      notification and counting permits of [tokio], as classes with laws and an
      instance of each.
    - [Outbound] ([outbound.rs]): the state under the mutex, [send], [try_merge],
      [try_recv_frame], [drop_frame], [close] and their helpers.
      [OutboundChannel]: producers,
      control handles, receiver and deliveries as a step relation;
      [OutboundInvariant] (what a merged frame says; the invariant).
    - [OutboundWriter] ([outbound_writer.rs]): the task that drains the queue and
      the images, as a step relation over the channel, with failing writes;
      [OutboundWriterFacts], [OutboundClaims].
    - [RpcScope] ([rpc_dispatch_class], [rpc_resources.rs] and the scopes of
      [bounded_dispatch_resources.rs]): what a request may touch, and which requests
      conflict.
    - [FairExecution] ([bounded_dispatch_resources.rs]): the workers of a lane and
      whose turn it is; [FairExecutionFacts].
    - [RpcDispatch] ([bounded_dispatch.rs]): [try_submit_scoped], the managers of
      the four lanes, and [execute_job] as a machine with one stage per [await];
      [perform] runs one [Action] of one task.
      [RpcDispatchInvariant]: what lanes and jobs agree on; [RpcDispatchMoves]: when
      a submission is taken and what an action may change; [RpcDispatchHistory]:
      what each job has waited for; [RpcDispatchLiveness]: the measure of the work that is
      left; [RpcDispatchClaims].

    Other components, each as definitions, facts and properties:
    - [KeyedAdmission]: [State], [ready], [enqueue], [acquire_ready] and [release] are
      the critical sections of the source; [step] interleaves them, with the
      condition variable as a set of sleeping waiters and a count of
      notifications still to be sent.
    - [OutputCapture] ([output_capture.rs]): the replacements and the redaction of
      parts of a stream ([push], [drain_loop], [next_redaction]); what observers are
      told ([emit_complete_utf8_chunks]); the budget ([reserve]) and both captures as
      a transition system ([capture_step], [captures_step]), with reads, writes and
      flushes that fail; the receipts; and the writer of the archive
      ([materialize_process_tool_result_archive]).  [from_utf8] and [from_utf8_lossy]
      are those of the standard library.  [OutputCaptureFacts] has the reference
      definitions [decode] and [redact], of a whole text and without buffers, and the
      proofs that the streaming code computes them; [OutputCaptureClaims].
    - [CommandTranscript]: [commit], [read_after] and their helpers, sizes in
      UTF-8 bytes.
    - [ToolFailureGuard]: JSON values, the fingerprint's byte encoding,
      [before_call], [observe] and [from_trace].
    - [ProviderCooldown]: [acquire_once] is one pass of the waiting loop,
      [register_provider_cooldown], [release_cooldown_permit] and
      [cancel_cooldown_waiter] the other critical sections; [step] interleaves
      them, lets a waiting task run at any time, and carries the clock.
    - [AutomationSchedule]: [normalize_schedule] and [next_run_at_ms] with the
      search of each rule; a panic is an outcome of its own.  [AutomationNormal]
      is about the normal form, [AutomationGrid] defines the occurrences and has
      the theorem about searches over periods, [AutomationWalks] shows that each
      of the five searches is one ([walk]).

    ** What the theorems show

    - Decisions ([CommandClaims]): automatic execution is exactly the
      declarative [auto_safe] (C1); how the findings decide ([decision_of_findings]); a denial does
      not depend on permissions, authorisation or workspace ([denial_unconditional]); narrowing
      permissions never widens a decision (C34); substitutions and [sh -c] hide
      nothing that is denied ([embedded_denial], [shell_denial]); privilege escalation and writes to
      devices are caught ([privilege_escalation_denied], C35); and, not numbered, the
      bound of the analysis ([nesting_bounded]) and the risk level
      ([aggregate_is_greatest]).
    - Text and paths ([CommandClaims]): the lexer terminates
      ([lex_loop_terminates]) and returns well-formed segments ([lex_command_well_formed]); quoting round-trips ([quoted_words_roundtrip]);
      here-documents end where they must ([heredoc_body_consumed]); the normal form of
      paths ([normalize_lexical_path_canonical]); no unlisted option passes a grammar ([grammar_closed]).
    - Permissions: [meet] is the greatest lower bound ([meet_greatest_lower_bound]).
    - Admission ([KeyedAdmissionFacts]): mutual exclusion (C22), the abstract
      admission rule ([ready_refines_admissible]), order ([admission_fifo]), no lost wake-up ([no_lost_wakeup]), no deadlock
      ([admission_progress]), nested acquisition ([nested_admission_refused]), conflict as set intersection ([conflicts_is_intersection]).
    - Output capture ([OutputCaptureClaims]): private text is never copied
      (C8), however the output is cut into reads (C11); what is
      kept is a prefix of the redacted text, and observers are told all of theirs
      (C9); both streams share one budget and the receipt is true
      (C12); the archive is the JSON of the result with the whole streams
      (C10); how a preview and its observer may differ
      ([preview_text], [preview_differs_from_live_text]).
    - Output history ([CommandTranscriptFacts]): what is kept and its bounds (C25),
      what a commit returns ([commit_returns_text]), polling ([polling_delivers_all]).
    - Conversation trace ([TraceClaims]): the validator accepts
      exactly the described histories (C28), whole or in parts ([append_in_parts]);
      what a recorder holds can be persisted exactly when its callers kept to the part
      of the contract that it does not see to itself (C29),
      and finishing a turn closes it and keeps it valid (C30); closed prefixes and the log
      beside them ([committed_prefix_is_closed], [committed_log_covers_closed_prefix]); command session events are recorded once
      ([session_event_recorded_once]).
    - The kept history ([TraceClaims]): projecting keeps a valid trace valid,
      and all of its items but the texts it bounds (C32), what is kept is bounded (C33), a result settled in a
      transaction is the one the turn ends with unless something is redacted
      ([settled_result_is_projected_live], [redacted_result_differs_from_projection]), and which losses are reported
      ([losses_are_reported_by_generic_projection]).
    - apply_patch ([ApplyPatchClaims]): the inspector accepts what the published
      schema describes (C31).
    - File changes ([FileChangeClaims]): a commit that fails or dies anywhere
      leaves the old or the new file, and trying again completes it
      (C2); a delete can be ended or undone after any faults
      (C4); whatever others do, a commit writes and unlinks only what
      it created (C3); edits (C14) and plans (C15)
      are exactly what is described; a frozen plan is rebuilt (C16); a commit
      can be recorded (C13) and a binding is settled once ([binding_settles_once]); what
      a fresh commit answers after an unknown outcome (C39).
    - Order of requests ([RpcDispatchClaims]): requests about one conversation, one
      tree of agents or one project are handled in the order they came
      (C5); a handler begins when the requests it
      conflicts with are done (C17), under a scope resolved after the last
      change of owner that matters to it (C18).
    - Dispatcher ([RpcDispatchClaims], [FairExecutionFacts]): every request that
      was taken is answered, once, and the dispatcher comes to rest (C6);
      what a lane admits and runs at most, and that its workers are not idle
      (C19); what a submission answers (C24); a
      waiting root is passed by each other at most once (C23).
    - Outbound queue and writer ([OutboundClaims]): what is written is what was
      accepted, in order, up to the joining of deltas (C7); a writer told
      to stop writes what is left and ends (C21); the counters
      (C20); room is kept for control messages ([control_reserve]); a receiver that
      waits is woken ([receiver_is_woken]); and, not numbered, a queue that is
      closed takes nothing more ([refusal_is_final]).
    - Failure guard ([ToolFailureGuardFacts]): two failures and no more (C26),
      restoring from the trace (C38), what a fingerprint identifies ([fingerprint_identifies_call], [office_spelling_irrelevant]).
    - Provider cooldown ([ProviderCooldownFacts]): one probe at a time and exact
      bookkeeping (C36), deadlines ([deadline_respected]), what registering may forget
      ([registration_keeps_active_scopes]), which requests share a cooldown ([cooldown_key_identifies_scope]).
    - Schedules ([AutomationClaims]): the next run is the first occurrence of the
      declarative [occurrence] (C27); what each error says of the occurrences
      ([next_run_error_is_final]); panics ([next_run_panics_without_clock]); which schedules are accepted ([schedule_accepted_when_valid]), what
      they are turned into (C37) and that this is stable ([normal_form_is_stable]).
    - Behaviours that differ from what the code means to do ([quoted_word_leaves_operator_pending], [comment_quote_hides_redirection],
      [rate_limited_probe_forgets_cooldown], [cancelled_waiter_strands_the_next], C40, [human_answer_spoils_trace],
      C39, [redacted_result_differs_from_projection],
      [losses_are_reported_by_generic_projection]): a quoted first word leaves the
      operator state pending; the scan of redirection targets does not know
      comments; a probe that is rate-limited forgets the new deadline; cancelling
      a waiter can leave the others waiting; an error report, or an answer of a
      person, can be recorded although the validator refuses it; a redacted result
      is projected in two ways; fields are left out without a mark; a fresh commit
      reports a success where the file of another was displaced.  One more,
      [accepted_anchor_panics], is a panic at the end of the range of timestamps.

    ** Recursion and bounds

    - [while_loop] runs a loop with the length of what is left as its fuel; the
      lexer and the redirection scan move forward at every pass, so the loop
      satisfies the unfolding equation of a [while] ([lex_loop_terminates]).
    - [unwrap_program] and [env_split_from] get as fuel one more than the number
      of words, of which each pass consumes at least one: more fuel makes no
      difference ([unwrap_program_fuel], [env_split_from_fuel]).
    - [analyze_at] recurses on [MAX_POLICY_NESTING + 1 - depth]: the test of
      the source refuses a greater depth, so no command is cut short by it.
    - [search_periods] makes the 4800 passes of the source; what it means that
      they were not enough is part of [next_run_error_is_final].
    - [commit_pieces] gets the number of chars left, each piece has at least
      one; [binary_search_from] halves its range and gets its size.
    - [inspect_object] has fuel 3, the depth of the published schema (the root, the
      request and an edit): no object is inspected deeper.
    - [drive] of fair execution gives its loop as fuel what can still be granted or
      dropped; [drive_loop_driven] shows that the loop ends by itself.
    - The dispatcher needs no fuel: [perform] is one step, and [measure] falls with
      every step of the server's own tasks.
    - [drain_loop], [redacted_loop], [emit_loop] and [decoded_loop] get one more than
      the length of what is pending; each pass consumes a source, a char or a
      malformed byte, so they end by themselves ([drain_loop_spec], [emit_loop_spec],
      [decoded_loop_spec]).
    - [stage] tries sixteen names, as the source does; [split_str_from] gets the
      length of the text, of which each occurrence consumes at least one char;
      a path is resolved through at most forty links, as Linux does.
    - [redact_from] gets the length of the text, of which each pass consumes at
      least the five characters of [data:].
    - Sequence numbers, counters and tickets saturate or overflow at their
      width ([u64_max], [u32_saturating_succ], [enqueue]); indices and lengths
      in memory are nat.

    ** Parameters

    [dirs::home_dir] is the argument [home] of the policy; the SHA-256 digest is
    the argument [sha256_hex] of the guard and [sha256] of the cooldown; the URL
    parser is [url_parse], and [instant_max] the greatest [Instant].  No property
    of the digest is assumed; of a parsed URL only that scheme and host have no
    null character and that the port has sixteen bits ([url_ok]).  [chrono] and
    [chrono_tz] are the class [Chrono].  The class [TraceServices] has what the
    trace takes from [uuid] and the parser of [serde_json]; [JsonServices] its
    printer and the derived parsers of a display of answers; [TextDiffs] the
    diffs of [similar].  Nothing is assumed of these.  [MailServices] has the reader of
    an agent's result, and that the printed text of an object begins with a brace.  The class [JsonPrinter] is the
    printer of [serde_json], [Allocator] the capacity of a vector, [Notify] and
    [Semaphore] the primitives of [tokio]; each has its documented behaviour as a
    class of laws and an instance.  The theorem about the archive takes the escapes of
    the printer to be those of [compact], and that reading a file to its end gives
    all of it.  [ScopeServices] is what the service knows of
    conversations, runs and projects.  The names of staged files
    are drawn from an argument [uuid], and the clock is an argument; where it
    matters the theorems assume that drawn names do not repeat and that the digest
    has 64 hexadecimal digits ([sound_change]).

    ** Not modelled

    - [evaluate_command_policy_at] of Windows, which refuses every command, and
      [evaluate_command_policy_in_workspace], which looks up the workspace root
      on the file system before it calls the function that is modelled.
    - Non-ASCII case mapping (the sources use ASCII case mapping throughout) and
      non-UTF-8 paths.
    - The wake-ups of the cooldown: its functions return what they notify, and a
      waiting task may run its loop at any time.
    - Of the capture: temporary files but for their contents, a capture whose file
      cannot be created, and writes to the archive that fail.
    - Of the dispatcher: what a resolver answers (any scope, an error, or a worker
      that fails) and the thread pool that runs resolvers and handlers (a closure is
      run, refused or fails at any time); the JSON of the error responses, the
      diagnostics and the deadline of the drain.  Of the outbound queue: the ages and
      durations that are only reported, and the transport below a write.
    - Poisoned mutexes: the coordinator recovers the state of a poisoned lock.
    - Of the trace: model messages with tool calls, the cache of published
      prefixes and the append transactions of the store, and the recovery of
      interrupted turns.
    - Of file changes: the resolution of a path to a target
      ([FileChangePathPolicy]), the registry of observations, run grants, staged
      drafts, and the builds for macOS, Windows and others.  Of the file system:
      permissions (a call may fail with any error at any time), data that is lost
      with the power before it is synced, and the reuse of inode numbers.
    - Processes, pipes, storage, network, user interface and the services that
      wire the components; the component list of the manifest names them.

    Next, in this order: the thread pools of [application/blocking_executor.rs] and
    the registry of turns that are being prepared; the resolution of paths and run
    grants; the registry of observations and staged drafts; the state
    machine of a command session; the agent graph; context
    budgets; the workspace resolver. *)

From stdpp Require Export base list option numbers strings gmap sets fin_maps.
From Stdlib Require Export Ascii.

(** ** Fallible computations

    Rust's [Result<A, E>].  The type argument order is the one of the error
    monad, so that [result E] is a monad and [x ← c; k] is the [?] operator. *)

Inductive result (E A : Type) : Type :=
| Ok (a : A)
| Err (e : E).
Arguments Ok {E A} a.
Arguments Err {E A} e.

#[export] Instance result_ret E : MRet (result E) := fun A a => Ok a.
#[export] Instance result_bind E : MBind (result E) := fun A B f r =>
  match r with Ok a => f a | Err e => Err e end.

Declare Scope captain_scope.
Delimit Scope captain_scope with captain.

(** Left-to-right application, for a chain of field updates. *)
Notation "x |> f" := (f x) (at level 61, left associativity, only parsing) : captain_scope.

Open Scope captain_scope.

Lemma bind_Ok {E A B} (r : result E A) (f : A → result E B) b :
  (r ≫= f) = Ok b ↔ ∃ a, r = Ok a ∧ f a = Ok b.
Proof.
  split.
  - destruct r as [a|e]; simpl; [eauto | discriminate].
  - intros (a & -> & H). exact H.
Qed.

Lemma bind_Err {E A B} (r : result E A) (f : A → result E B) e :
  (r ≫= f) = Err e ↔ r = Err e ∨ ∃ a, r = Ok a ∧ f a = Err e.
Proof.
  split.
  - destruct r as [a|e']; simpl; [eauto | intros [= ->]; eauto].
  - intros [-> | (a & -> & H)]; [reflexivity | exact H].
Qed.

(** [Result::is_ok]. *)
Definition is_ok {E A} (r : result E A) : bool := match r with Ok _ => true | Err _ => false end.

Lemma is_ok_unit {E} (r : result E ()) : is_ok r = true ↔ r = Ok ().
Proof. destruct r as [[]|e]; simpl; naive_solver. Qed.

(** Opens the first [?] of a computation that returned [Ok]. *)
Ltac inv_bind H :=
  let a := fresh "r" in let E := fresh "E" in
  apply bind_Ok in H as (a & E & H).

(** [u64::MAX]. *)
Definition u64_max : N := 18446744073709551615.

(** ** Options *)

(** [Option::is_some_and] and [Option::is_none_or]. *)
Definition is_some_and {A} (o : option A) (p : A → bool) : bool :=
  match o with Some a => p a | None => false end.

Definition is_none_or {A} (o : option A) (p : A → bool) : bool :=
  match o with Some a => p a | None => true end.

(** [Option::ok_or]. *)
Definition ok_or {E A} (o : option A) (e : E) : result E A :=
  match o with Some a => Ok a | None => Err e end.

Lemma is_some_and_true {A} (o : option A) p :
  is_some_and o p = true ↔ ∃ a, o = Some a ∧ p a = true.
Proof. destruct o; simpl; naive_solver. Qed.

Lemma is_none_or_true {A} (o : option A) p :
  is_none_or o p = true ↔ ∀ a, o = Some a → p a = true.
Proof. destruct o; simpl; naive_solver. Qed.

(** ** Lists *)

(** [Iterator::take_while] and its complement. *)
Fixpoint take_while {A} (p : A → bool) (l : list A) : list A :=
  match l with
  | [] => []
  | x :: l' => if p x then x :: take_while p l' else []
  end.

Fixpoint drop_while {A} (p : A → bool) (l : list A) : list A :=
  match l with
  | [] => []
  | x :: l' => if p x then drop_while p l' else l
  end.

(** [Iterator::position]. *)
Fixpoint position {A} (p : A → bool) (l : list A) : option nat :=
  match l with
  | [] => None
  | x :: l' => if p x then Some 0 else S <$> position p l'
  end.

(** [Iterator::any] and [Iterator::all] on slices are [existsb] and [forallb]. *)
Lemma existsb_true {A} (p : A → bool) l : existsb p l = true ↔ ∃ x, x ∈ l ∧ p x = true.
Proof.
  rewrite existsb_exists. split; intros (x & H & ?); exists x; split; auto;
    by apply list_elem_of_In.
Qed.

Lemma forallb_true {A} (p : A → bool) l : forallb p l = true ↔ ∀ x, x ∈ l → p x = true.
Proof.
  rewrite forallb_forall. split; intros H x Hx; apply H; by apply list_elem_of_In.
Qed.

Lemma existsb_false {A} (p : A → bool) l : existsb p l = false ↔ ∀ x, x ∈ l → p x = false.
Proof.
  induction l as [|a l IH]; simpl; [set_solver|].
  rewrite orb_false_iff, IH. set_solver.
Qed.

Lemma take_drop_while {A} (p : A → bool) l : take_while p l ++ drop_while p l = l.
Proof. induction l as [|x l IH]; simpl; [done|]. destruct (p x); simpl; by rewrite ?IH. Qed.

Lemma length_take_while {A} (p : A → bool) l : length (take_while p l) ≤ length l.
Proof. induction l as [|x l IH]; simpl; [lia|]. destruct (p x); simpl; lia. Qed.

Lemma length_drop_while {A} (p : A → bool) l : length (drop_while p l) ≤ length l.
Proof. induction l as [|x l IH]; simpl; [lia|]. destruct (p x); simpl; lia. Qed.

Lemma position_Some {A} (p : A → bool) l i :
  position p l = Some i ↔
  (∃ x, l !! i = Some x ∧ p x = true) ∧ ∀ j y, j < i → l !! j = Some y → p y = false.
Proof.
  revert i. induction l as [|a l IH]; intros i; simpl; [naive_solver|].
  destruct (p a) eqn:Ha.
  - split.
    + intros [= <-]. split; [eauto|]. intros j y Hj. lia.
    + intros [_ H]. destruct i as [|i]; [done|]. specialize (H 0 a ltac:(lia) eq_refl). congruence.
  - rewrite fmap_Some. setoid_rewrite IH. split.
    + intros (k & [Hx Hk] & ->). split; [done|]. intros [|j] y Hj Hy; simplify_eq/=; [done|].
      eapply Hk; [|done]. lia.
    + intros [(x & Hx & Hp) Hk]. destruct i as [|i]; simplify_eq/=; [congruence|]. exists i.
      split_and!; eauto. intros j y Hj Hy. eapply (Hk (S j)); [lia|done].
Qed.

Lemma prefix_snoc {A} (l : list A) x : l `prefix_of` l ++ [x].
Proof. by exists [x]. Qed.

Lemma prefix_if {A} (b : bool) (l l' : list A) :
  l `prefix_of` l' → l `prefix_of` (if b then l' else l).
Proof. by destruct b. Qed.

(** What is shared by the automation of the components. *)
Create HintDb captain.
#[export] Hint Resolve prefix_snoc prefix_app_r prefix_if length_take_while length_drop_while
  : captain.

(** ** Loops

    A Rust [while cond { body }] whose body may return early with an error.
    The loop runs on fuel taken from a measure; [while_loop_unfold] says that
    when the body decreases the measure the fuel never runs out: the function
    satisfies the equation of the loop itself. *)
Section Loop.
Context {E S : Type} (measure : S → nat) (cond : S → bool) (body : S → result E S).

Fixpoint loop_fuel (n : nat) (s : S) : result E S :=
  match n with
  | O => Ok s
  | Datatypes.S n' => if cond s then s' ← body s; loop_fuel n' s' else Ok s
  end.

Definition while_loop (s : S) : result E S := loop_fuel (Datatypes.S (measure s)) s.

(** The loop may rely on an invariant for its progress. *)
Variable inv : S → Prop.
Hypothesis body_inv : ∀ s s', inv s → cond s = true → body s = Ok s' → inv s'.
Hypothesis body_decreases :
  ∀ s s', inv s → cond s = true → body s = Ok s' → measure s' < measure s.

Lemma loop_fuel_enough n m s :
  inv s → measure s < n → measure s < m → loop_fuel n s = loop_fuel m s.
Proof using body_inv body_decreases.
  revert m s. induction n as [|n IH]; intros [|m] s Hi Hn Hm; try lia. simpl.
  destruct (cond s) eqn:Hc; [|done].
  destruct (body s) as [s'|e] eqn:Hb; simpl; [|done].
  specialize (body_decreases _ _ Hi Hc Hb). specialize (body_inv _ _ Hi Hc Hb).
  apply IH; auto; lia.
Qed.

Lemma while_loop_unfold s :
  inv s → while_loop s = if cond s then s' ← body s; while_loop s' else Ok s.
Proof using body_inv body_decreases.
  intros Hi. unfold while_loop at 1. simpl.
  destruct (cond s) eqn:Hc; [|done].
  destruct (body s) as [s'|e] eqn:Hb; simpl; [|done].
  pose proof (body_decreases _ _ Hi Hc Hb). pose proof (body_inv _ _ Hi Hc Hb).
  apply loop_fuel_enough; auto; lia.
Qed.

(** The loop invariant holds when the loop is left, and its condition is then false. *)
Lemma while_loop_exit s s' :
  inv s → while_loop s = Ok s' → inv s' ∧ cond s' = false.
Proof using body_inv body_decreases.
  unfold while_loop. intros Hi.
  assert (measure s < Datatypes.S (measure s)) as Hm by lia. revert Hm.
  generalize (Datatypes.S (measure s)) as n. intros n. revert s Hi.
  induction n as [|n IH]; intros s Hi Hm; [lia|]. simpl.
  destruct (cond s) eqn:Hc; [|by intros [= <-]].
  destruct (body s) as [s1|e] eqn:Hb; simpl; [|discriminate].
  pose proof (body_decreases _ _ Hi Hc Hb). pose proof (body_inv _ _ Hi Hc Hb).
  apply IH; [done|lia].
Qed.
End Loop.
