(* ===== verification/RustText.v ===== *)
(** * Text of the Rust program

    The parts of Rust's [char], [str] and [String] that the modelled sources
    use.  A [char] is its Unicode scalar value; a [str] is its list of chars
    ([str::chars]); string literals of the sources are Rocq strings, turned
    into [rstr] by [rs] (every literal the sources match text against is
    ASCII).

    After that: bytes of text; vectors. *)

From stdpp Require Import sorting.
From S2P Require Import Prelude.

Abbreviation char := N (only parsing).
Abbreviation rstr := (list N).

(** A literal [char] and a literal [&str]. *)
Definition ch (a : ascii) : char := N_of_ascii a.
Arguments ch a%_char_scope.

Definition rs (s : string) : rstr := map N_of_ascii (String.list_ascii_of_string s).
Arguments rs s%_string_scope.

(** A literal with chars outside ASCII: Rocq reads the bytes of its UTF-8 form.
    [pending] is the char whose bytes are being read. *)
Fixpoint decode_utf8 (pending : option N) (bytes : list N) : rstr :=
  match bytes with
  | [] => option_list pending
  | b :: bytes =>
      if (128 <=? b)%N && (b <? 192)%N
      then decode_utf8 ((λ c, c * 64 + b mod 64)%N <$> pending) bytes
      else
        option_list pending
          ++ decode_utf8 (Some (if (b <? 128)%N then b else if (b <? 224)%N then b mod 32
                                else if (b <? 240)%N then b mod 16 else b mod 8)%N) bytes
  end.

Definition rs_utf8 (s : string) : rstr := decode_utf8 None (rs s).
Arguments rs_utf8 s%_string_scope.

(** The literals Rust writes as [\n], [\r], [\t], [\0], and the two quotes. *)
Definition newline : ascii := "010"%char.
Definition carriage_return : ascii := "013"%char.
Definition tab : ascii := "009"%char.
Definition nul : ascii := "000"%char.
Definition dquote : ascii := "034"%char.
Definition squote : ascii := "'"%char.

(** ** Characters *)

(** [c == 'a'] and [o == Some(&'a')]. *)
Definition is_char (a : ascii) (c : char) : bool := N.eqb c (ch a).
Arguments is_char a%_char_scope c.

Definition is_at (a : ascii) (o : option char) : bool := is_some_and o (is_char a).
Arguments is_at a%_char_scope o.

(** [matches!(c, 'a' | 'b' | ..)] and [set.contains(c)] for a literal set. *)
Definition is_in (set : string) (c : char) : bool := existsb (N.eqb c) (rs set).
Arguments is_in set%_string_scope c.

(** [char::is_ascii_digit], [is_ascii_alphabetic], [is_ascii_alphanumeric]. *)
Definition is_ascii_digit (c : char) : bool := (48 <=? c)%N && (c <=? 57)%N.
Definition is_ascii_uppercase (c : char) : bool := (65 <=? c)%N && (c <=? 90)%N.
Definition is_ascii_lowercase (c : char) : bool := (97 <=? c)%N && (c <=? 122)%N.
Definition is_ascii_alphabetic (c : char) : bool := is_ascii_uppercase c || is_ascii_lowercase c.
Definition is_ascii_alphanumeric (c : char) : bool := is_ascii_alphabetic c || is_ascii_digit c.

(** [char::is_whitespace]: the Unicode property White_Space. *)
Definition is_whitespace (c : char) : bool :=
  (9 <=? c)%N && (c <=? 13)%N
  || existsb (N.eqb c) [32; 0x85; 0xa0; 0x1680; 0x2028; 0x2029; 0x202f; 0x205f; 0x3000]%N
  || (0x2000 <=? c)%N && (c <=? 0x200a)%N.

(** [char::is_control]: the general category Cc. *)
Definition is_control (c : char) : bool :=
  (c <=? 31)%N || (127 <=? c)%N && (c <=? 159)%N.

(** [char::is_ascii_hexdigit]. *)
Definition is_ascii_hexdigit (c : char) : bool :=
  is_ascii_digit c || (65 <=? c)%N && (c <=? 70)%N || (97 <=? c)%N && (c <=? 102)%N.

(** [char::to_ascii_lowercase] and [str::to_ascii_lowercase]. *)
Definition char_to_ascii_lowercase (c : char) : char :=
  if is_ascii_uppercase c then (c + 32)%N else c.
Definition to_ascii_lowercase (s : rstr) : rstr := map char_to_ascii_lowercase s.

(** [char::len_utf8] and [str::len] (in bytes). *)
Definition len_utf8 (c : char) : nat :=
  if (c <? 0x80)%N then 1 else if (c <? 0x800)%N then 2 else if (c <? 0x10000)%N then 3 else 4.
Definition byte_len (s : rstr) : nat := sum_list_with len_utf8 s.

(** ** Comparing text with literals *)

Fixpoint str_eqb (s t : rstr) : bool :=
  match s, t with
  | [], [] => true
  | c :: s', d :: t' => N.eqb c d && str_eqb s' t'
  | _, _ => false
  end.

(** [s == "lit"] *)
Definition is_str (s : rstr) (lit : string) : bool := str_eqb s (rs lit).
Arguments is_str s lit%_string_scope.

(** [matches!(s, "a" | "b" | ..)] *)
Definition one_of (s : rstr) (lits : list string) : bool := existsb (is_str s) lits.
Arguments one_of s lits%_string_scope.

(** [s.eq_ignore_ascii_case("lit")] *)
Definition eq_ignore_ascii_case (s : rstr) (lit : string) : bool :=
  str_eqb (to_ascii_lowercase s) (to_ascii_lowercase (rs lit)).
Arguments eq_ignore_ascii_case s lit%_string_scope.

(** ** Prefixes and searching *)

(** [str::strip_prefix]. *)
Fixpoint strip_prefix_str (p s : rstr) : option rstr :=
  match p, s with
  | [], _ => Some s
  | c :: p', d :: s' => if N.eqb c d then strip_prefix_str p' s' else None
  | _ :: _, [] => None
  end.

Definition strip_prefix (s : rstr) (lit : string) : option rstr := strip_prefix_str (rs lit) s.
Arguments strip_prefix s lit%_string_scope.

(** [l.windows(marker.len()).position(|part| part == marker)] of bytes *)
Fixpoint find_bytes (marker l : list N) : option nat :=
  match strip_prefix_str marker l with
  | Some _ => Some 0
  | None => match l with [] => None | _ :: l => S <$> find_bytes marker l end
  end.

(** [str::strip_suffix]. *)
Definition strip_suffix (s : rstr) (lit : string) : option rstr :=
  reverse <$> strip_prefix_str (reverse (rs lit)) (reverse s).
Arguments strip_suffix s lit%_string_scope.

(** [str::starts_with]. *)
Definition starts_with (s : rstr) (lit : string) : bool := bool_decide (is_Some (strip_prefix s lit)).
Arguments starts_with s lit%_string_scope.

(** [s.contains(['a', 'b', ..])] *)
Definition contains_any (s : rstr) (set : string) : bool := existsb (is_in set) s.
Arguments contains_any s set%_string_scope.

(** [s.contains("lit")] *)
Fixpoint contains (s : rstr) (lit : string) : bool :=
  starts_with s lit || match s with [] => false | _ :: s' => contains s' lit end.
Arguments contains s lit%_string_scope.

(** [str::split_once] at a char: the text before the first occurrence and the text after it. *)
Fixpoint split_once (s : rstr) (a : ascii) : option (rstr * rstr) :=
  match s with
  | [] => None
  | c :: s' =>
      if is_char a c then Some ([], s')
      else match split_once s' a with
           | Some (x, y) => Some (c :: x, y)
           | None => None
           end
  end.
Arguments split_once s a%_char_scope.

(** [str::split] at the chars satisfying a predicate. *)
Fixpoint split_at (sep : char → bool) (s : rstr) : list rstr :=
  match s with
  | [] => [[]]
  | c :: s' =>
      if sep c then [] :: split_at sep s'
      else match split_at sep s' with
           | w :: ws => (c :: w) :: ws
           | [] => [[c]]
           end
  end.

(** [str::trim_matches], [str::trim_start_matches] and [str::trim]. *)
Definition trim_start_matches (s : rstr) (p : char → bool) : rstr := drop_while p s.
Definition trim_matches (s : rstr) (p : char → bool) : rstr :=
  reverse (drop_while p (reverse (drop_while p s))).
Definition trim (s : rstr) : rstr := trim_matches s is_whitespace.
Definition is_blank (s : rstr) : bool := bool_decide (trim s = []).

(** [trim_matches] of the double and single quote characters. *)
Definition trim_quotes (s : rstr) : rstr :=
  trim_matches s (fun c => is_char dquote c || is_char squote c).

(** [s.replace("ab", r)] for a pattern of two chars, and [s.replace('a', r)]. *)
Fixpoint replace_pair (a b : ascii) (r s : rstr) : rstr :=
  match s with
  | c :: ((d :: s'') as s') =>
      if is_char a c && is_char b d then r ++ replace_pair a b r s'' else c :: replace_pair a b r s'
  | _ => s
  end.

Fixpoint replace_char (a : ascii) (r s : rstr) : rstr :=
  match s with
  | [] => []
  | c :: s' => if is_char a c then r ++ replace_char a r s' else c :: replace_char a r s'
  end.

(** ** Lemmas *)

Lemma str_eqb_eq s t : str_eqb s t = true ↔ s = t.
Proof.
  revert t. induction s as [|c s IH]; intros [|d t]; simpl; try (split; congruence).
  rewrite andb_true_iff, N.eqb_eq, IH. naive_solver.
Qed.

Lemma is_str_eq s lit : is_str s lit = true ↔ s = rs lit.
Proof. apply str_eqb_eq. Qed.

Lemma one_of_elem s lits : one_of s lits = true ↔ ∃ l, l ∈ lits ∧ s = rs l.
Proof. unfold one_of. rewrite existsb_true. by setoid_rewrite is_str_eq. Qed.

Lemma is_char_eq a c : is_char a c = true ↔ c = ch a.
Proof. apply N.eqb_eq. Qed.

Lemma is_at_eq a o : is_at a o = true ↔ o = Some (ch a).
Proof.
  unfold is_at. rewrite is_some_and_true. setoid_rewrite is_char_eq. naive_solver.
Qed.

Lemma strip_prefix_str_app p s r : strip_prefix_str p s = Some r ↔ s = p ++ r.
Proof.
  revert s. induction p as [|c p IH]; intros [|d s]; simpl; try naive_solver.
  destruct (N.eqb_spec c d) as [->|]; [rewrite IH|]; naive_solver.
Qed.

Lemma starts_with_app s lit : starts_with s lit = true ↔ ∃ r, s = rs lit ++ r.
Proof.
  unfold starts_with, strip_prefix. rewrite bool_decide_eq_true. unfold is_Some.
  by setoid_rewrite strip_prefix_str_app.
Qed.

Lemma split_once_app s a x y :
  split_once s a = Some (x, y) → s = x ++ ch a :: y ∧ ch a ∉ x.
Proof.
  revert x y. induction s as [|c s IH]; simpl; intros x y; [done|].
  destruct (is_char a c) eqn:Hc.
  - intros [= <- <-]. apply is_char_eq in Hc as ->. split; [done|set_solver].
  - destruct (split_once s a) as [[x' y']|]; [|done]. intros [= <- <-].
    destruct (IH x' y' eq_refl) as [-> Hn]. split; [done|].
    apply not_elem_of_cons. split; [|done]. intros <-.
    unfold is_char in Hc. by rewrite N.eqb_refl in Hc.
Qed.

Lemma char_lower_idemp c :
  char_to_ascii_lowercase (char_to_ascii_lowercase c) = char_to_ascii_lowercase c.
Proof.
  unfold char_to_ascii_lowercase, is_ascii_uppercase.
  destruct ((65 <=? c)%N && (c <=? 90)%N) eqn:H; [|by rewrite H].
  apply andb_true_iff in H as [H1%N.leb_le H2%N.leb_le].
  destruct ((65 <=? c + 32)%N && (c + 32 <=? 90)%N) eqn:H'; [|done].
  apply andb_true_iff in H' as [_ H'%N.leb_le]. lia.
Qed.

Lemma to_ascii_lowercase_idemp s :
  to_ascii_lowercase (to_ascii_lowercase s) = to_ascii_lowercase s.
Proof.
  unfold to_ascii_lowercase. rewrite map_map. apply map_ext, char_lower_idemp.
Qed.

Lemma replace_char_free a r s : ch a ∉ r → ch a ∉ replace_char a r s.
Proof.
  intros Hr. induction s as [|c s IH]; simpl; [set_solver|].
  destruct (is_char a c) eqn:Hc; [set_solver|]. apply not_elem_of_cons. split; [|done].
  intros <-. unfold is_char in Hc. by rewrite N.eqb_refl in Hc.
Qed.

Lemma replace_char_id a r s : ch a ∉ s → replace_char a r s = s.
Proof.
  induction s as [|c s IH]; simpl; [done|]. intros [Hc Hs]%not_elem_of_cons.
  destruct (is_char a c) eqn:E; [apply is_char_eq in E; congruence|]. by rewrite IH.
Qed.

Lemma replace_pair_cons a b r c d s :
  replace_pair a b r (c :: d :: s) =
  if is_char a c && is_char b d then r ++ replace_pair a b r s
  else c :: replace_pair a b r (d :: s).
Proof. reflexivity. Qed.

Lemma replace_pair_id a b r s : ch a ∉ s → replace_pair a b r s = s.
Proof.
  induction s as [|c s IH]; [done|]. intros [Hc Hs]%not_elem_of_cons.
  destruct s as [|d s]; [done|]. rewrite replace_pair_cons.
  destruct (is_char a c) eqn:E; [apply is_char_eq in E; congruence|].
  simpl "&&". cbv iota. by rewrite IH.
Qed.

(** ** Bytes *)

(** ** Texts that are not blank *)

Definition visible (s : rstr) : Prop := ∃ c, c ∈ s ∧ is_whitespace c = false.

Lemma drop_while_nil {A} (p : A → bool) l : drop_while p l = [] ↔ ∀ x, x ∈ l → p x = true.
Proof.
  induction l as [|x l IH]; [set_solver|]. cbn. destruct (p x) eqn:Ep.
  - rewrite IH. set_solver.
  - split; [done|]. intros H. specialize (H x ltac:(by left)). congruence.
Qed.

Lemma drop_while_elem {A} (p : A → bool) l x : x ∈ l → p x = false → x ∈ drop_while p l.
Proof.
  induction l as [|y l IH]; [set_solver|]. cbn. intros [->|Hx]%elem_of_cons Hp; [by rewrite Hp; left|].
  destruct (p y); [by apply IH|by right].
Qed.

Lemma drop_while_sub {A} (p : A → bool) l x : x ∈ drop_while p l → x ∈ l.
Proof. intros H. rewrite <-(take_drop_while p l). apply elem_of_app. by right. Qed.

Lemma trim_elem s c : c ∈ s → is_whitespace c = false → c ∈ trim s.
Proof.
  intros Hc Hw. unfold trim, trim_matches. rewrite elem_of_reverse. apply drop_while_elem; [|done].
  rewrite elem_of_reverse. by apply drop_while_elem.
Qed.

Lemma trim_sub s c : c ∈ trim s → c ∈ s.
Proof.
  unfold trim, trim_matches. rewrite elem_of_reverse. intros H%drop_while_sub.
  rewrite elem_of_reverse in H. by apply drop_while_sub in H.
Qed.

Lemma not_blank s : is_blank s = false ↔ visible s.
Proof.
  unfold is_blank. rewrite bool_decide_eq_false. split.
  - intros Hn. destruct (existsb (λ d, negb (is_whitespace d)) s) eqn:Ex.
    + apply existsb_true in Ex as (d & Hd & Hw%negb_true_iff). by exists d.
    + destruct Hn. unfold trim, trim_matches. rewrite existsb_false in Ex.
      assert (drop_while is_whitespace s = []) as ->; [|done].
      apply drop_while_nil. intros x Hx. by apply negb_false_iff, Ex.
  - intros (c & Hc & Hw) E. pose proof (trim_elem s c Hc Hw) as H. rewrite E in H. by apply elem_of_nil in H.
Qed.

Lemma trim_not_blank s : trim s ≠ [] → is_blank (trim s) = false.
Proof.
  intros H. assert (is_blank s = false) as (c & Hc & Hw)%not_blank by (by apply bool_decide_eq_false).
  apply not_blank. exists c. split; [by apply trim_elem|done].
Qed.

Lemma len_utf8_bounds c : 1 ≤ len_utf8 c ≤ 4.
Proof. unfold len_utf8. repeat case_match; lia. Qed.

Lemma byte_len_app s t : byte_len (s ++ t) = byte_len s + byte_len t.
Proof. unfold byte_len. apply sum_list_with_app. Qed.

Lemma byte_len_cons c s : byte_len (c :: s) = len_utf8 c + byte_len s.
Proof. reflexivity. Qed.

Lemma byte_len_0 s : byte_len s = 0 ↔ s = [].
Proof.
  split; [|by intros ->]. destruct s as [|c s]; [done|].
  rewrite byte_len_cons. pose proof (len_utf8_bounds c). lia.
Qed.

Lemma length_byte_len s : length s ≤ byte_len s.
Proof.
  induction s as [|c s IH]; [done|]. rewrite byte_len_cons. simpl.
  pose proof (len_utf8_bounds c). lia.
Qed.

(** ** The order of strings

    [String]s are ordered by their bytes, which for UTF-8 is the order of their
    chars. *)

Fixpoint str_leb (s t : rstr) : bool :=
  match s, t with
  | [], _ => true
  | _ :: _, [] => false
  | c :: s, d :: t => if N.eqb c d then str_leb s t else (c <? d)%N
  end.

Definition str_le (s t : rstr) : Prop := str_leb s t = true.

#[export] Instance str_le_dec : RelDecision str_le.
Proof. intros s t. unfold str_le. apply _. Defined.


#[export] Instance str_le_total : Total str_le.
Proof.
  intros s. induction s as [|c s IH]; intros [|d t]; [by left|by left|by right|].
  unfold str_le in *. simpl. rewrite (N.eqb_sym d c). destruct (N.eqb_spec c d) as [->|Hn]; [auto|].
  rewrite !N.ltb_lt. lia.
Qed.

#[export] Instance str_le_antisym : AntiSymm (=) str_le.
Proof.
  intros s. induction s as [|c s IH]; intros [|d t]; try done.
  unfold str_le in *. simpl. rewrite (N.eqb_sym d c). destruct (N.eqb_spec c d) as [->|Hn].
  - intros. f_equal. by apply IH.
  - rewrite !N.ltb_lt. lia.
Qed.

#[export] Instance str_le_trans : Transitive str_le.
Proof.
  intros s. induction s as [|c s IH]; intros [|d t] [|e u]; try done.
  unfold str_le in *. simpl.
  destruct (N.eqb_spec c d) as [->|Hcd], (N.eqb_spec d e) as [->|Hde];
    rewrite ?N.ltb_lt; intros H1 H2.
  - by eapply IH.
  - done.
  - rewrite (proj2 (N.eqb_neq c e)) by done. by apply N.ltb_lt.
  - rewrite (proj2 (N.eqb_neq c e)) by lia. apply N.ltb_lt. lia.
Qed.

#[export] Instance str_le_refl : Reflexive str_le.
Proof. intros s. by destruct (str_le_total s s). Qed.

Lemma str_le_strict s t : str_leb s t = false → str_le t s ∧ s ≠ t.
Proof.
  intros H. split.
  - destruct (str_le_total s t) as [Hs|Hs]; [unfold str_le in Hs; congruence|done].
  - intros ->. pose proof (str_le_refl t) as Hs. unfold str_le in Hs. congruence.
Qed.

(** * Bytes of text

    The UTF-8 encoding of Rust's strings, which the hashed parts of the program
    feed to a digest, and its injectivity. *)

(** [str::as_bytes]: UTF-8. *)
Definition utf8_char (c : char) : list N :=
  (if c <? 0x80 then [c]
   else if c <? 0x800 then [0xc0 + c / 0x40; 0x80 + c mod 0x40]
   else if c <? 0x10000 then [0xe0 + c / 0x1000; 0x80 + (c / 0x40) mod 0x40; 0x80 + c mod 0x40]
   else [0xf0 + c / 0x40000; 0x80 + (c / 0x1000) mod 0x40; 0x80 + (c / 0x40) mod 0x40;
         0x80 + c mod 0x40])%N.

Definition as_bytes (s : rstr) : list N := s ≫= utf8_char.

(** ** UTF-8 is injective *)

Definition valid_char (c : char) : Prop := (c < 0x110000)%N.
Definition valid_text (s : rstr) : Prop := Forall valid_char s.

(** One char read back. *)
Definition decode_char (l : list N) : option (char * list N) :=
  match l with
  | [] => None
  | b :: l =>
      if (b <? 0x80)%N then Some (b, l)
      else if (b <? 0xe0)%N then
        match l with b1 :: l => Some ((b - 0xc0) * 64 + (b1 - 0x80), l)%N | _ => None end
      else if (b <? 0xf0)%N then
        match l with
        | b1 :: b2 :: l => Some (((b - 0xe0) * 64 + (b1 - 0x80)) * 64 + (b2 - 0x80), l)%N
        | _ => None
        end
      else
        match l with
        | b1 :: b2 :: b3 :: l =>
            Some ((((b - 0xf0) * 64 + (b1 - 0x80)) * 64 + (b2 - 0x80)) * 64 + (b3 - 0x80), l)%N
        | _ => None
        end
  end.

Lemma div_mod_64 n : (n = 64 * (n / 64) + n mod 64 ∧ n mod 64 < 64)%N.
Proof. split; [by apply N.div_mod|by apply N.mod_lt]. Qed.

Lemma decode_utf8_char c r : valid_char c → decode_char (utf8_char c ++ r) = Some (c, r).
Proof.
  unfold valid_char, utf8_char. intros Hc.
  change 0x1000%N with (64 * 64)%N. change 0x40000%N with (64 * 64 * 64)%N. change 0x40%N with 64%N.
  rewrite <-!N.Div0.div_div.
  destruct (div_mod_64 c) as [E0 M0]. set (q0 := (c / 64)%N) in *. set (m0 := (c mod 64)%N) in *.
  destruct (div_mod_64 q0) as [E1 M1]. set (q1 := (q0 / 64)%N) in *. set (m1 := (q0 mod 64)%N) in *.
  destruct (div_mod_64 q1) as [E2 M2]. set (q2 := (q1 / 64)%N) in *. set (m2 := (q1 mod 64)%N) in *.
  clearbody q0 m0 q1 m1 q2 m2.
  destruct (N.ltb_spec c 0x80); [|destruct (N.ltb_spec c 0x800); [|destruct (N.ltb_spec c 0x10000)]];
    cbn [app decode_char]; repeat (rewrite (proj2 (N.ltb_ge _ _)) by lia);
    rewrite ?(proj2 (N.ltb_lt _ _)) by lia; do 2 f_equal; lia.
Qed.

Lemma utf8_char_inj c d r s :
  valid_char c → valid_char d → utf8_char c ++ r = utf8_char d ++ s → c = d ∧ r = s.
Proof.
  intros Hc Hd H. apply (f_equal decode_char) in H. rewrite !decode_utf8_char in H by done.
  by injection H.
Qed.

Lemma as_bytes_cons c s : as_bytes (c :: s) = utf8_char c ++ as_bytes s.
Proof. reflexivity. Qed.

Lemma length_as_bytes s : length (as_bytes s) = byte_len s.
Proof.
  induction s as [|c s IH]; [done|]. rewrite as_bytes_cons, length_app, IH, byte_len_cons. f_equal.
  unfold utf8_char, len_utf8. by repeat case_match.
Qed.

Lemma utf8_char_nonempty c : utf8_char c ≠ [].
Proof. unfold utf8_char. repeat case_match; done. Qed.

Lemma as_bytes_inj s t : valid_text s → valid_text t → as_bytes s = as_bytes t → s = t.
Proof.
  intros Hs. revert t. induction Hs as [|c s Hc Hs IH]; intros [|d t] Ht H; try done.
  - rewrite as_bytes_cons in H. symmetry in H. apply app_nil in H as [H _].
    by apply utf8_char_nonempty in H.
  - rewrite as_bytes_cons in H. apply app_nil in H as [H _]. by apply utf8_char_nonempty in H.
  - apply Forall_cons in Ht as [Hd Ht]. rewrite !as_bytes_cons in H.
    apply utf8_char_inj in H as [-> H]; [|done..]. f_equal. by apply IH.
Qed.

(** A text without the null character has no null byte. *)
Lemma utf8_char_zero c : (0%N ∈ utf8_char c) → c = 0%N.
Proof.
  unfold utf8_char.
  destruct (c <? 0x80)%N; [|destruct (c <? 0x800)%N; [|destruct (c <? 0x10000)%N]];
    rewrite !elem_of_cons, elem_of_nil; intros H; repeat destruct H as [H|H]; try done;
    by apply eq_sym, N.eq_add_0 in H as [H _].
Qed.

Lemma as_bytes_zero s : 0%N ∉ s → 0%N ∉ as_bytes s.
Proof.
  intros Hs (c & Hc & Hin)%list_elem_of_bind. apply utf8_char_zero in Hc as ->. done.
Qed.

(** * Vectors

    [sort_unstable] followed by [dedup], the idiom by which the program turns a
    list of choices into an ordered set: what it keeps, and that a list that is
    already an ordered set is left alone. *)

Section Dedup.
Context {A : Type} (eqb : A → A → bool).

(** [Vec::dedup]: drops an element equal to the one before it. *)
Fixpoint vec_dedup (l : list A) : list A :=
  match l with
  | x :: ((y :: _) as rest) => if eqb x y then vec_dedup rest else x :: vec_dedup rest
  | _ => l
  end.

Hypothesis eqb_eq : ∀ x y, eqb x y = true ↔ x = y.

Lemma vec_dedup_cons x y l :
  vec_dedup (x :: y :: l) = if eqb x y then vec_dedup (y :: l) else x :: vec_dedup (y :: l).
Proof. reflexivity. Qed.

Lemma vec_dedup_elem l x : x ∈ vec_dedup l ↔ x ∈ l.
Proof using eqb_eq.
  induction l as [|a l IH]; [done|]. destruct l as [|b l]; [done|].
  rewrite vec_dedup_cons. destruct (eqb a b) eqn:E.
  - apply eqb_eq in E as ->. rewrite IH, !elem_of_cons. tauto.
  - by rewrite elem_of_cons, IH, !elem_of_cons.
Qed.

Context (R : relation A) `{!AntiSymm (=) R}.

Lemma vec_dedup_sorted l : StronglySorted R l → StronglySorted R (vec_dedup l).
Proof using eqb_eq.
  induction l as [|a l IH]; intros H; [done|]. destruct l as [|b l]; [done|].
  inversion H as [|? ? Hs Hf]; subst. rewrite vec_dedup_cons. destruct (eqb a b); [by apply IH|].
  constructor; [by apply IH|]. apply Forall_forall. intros x Hx.
  rewrite vec_dedup_elem in Hx. by eapply Forall_forall in Hf.
Qed.

Lemma vec_dedup_NoDup l : StronglySorted R l → NoDup (vec_dedup l).
Proof using eqb_eq AntiSymm0.
  induction l as [|a l IH]; intros H; [constructor|].
  destruct l as [|b l]; [apply NoDup_singleton|].
  inversion H as [|? ? Hs Hf]; subst. rewrite vec_dedup_cons.
  destruct (eqb a b) eqn:E; [by apply IH|].
  constructor; [|by apply IH]. rewrite vec_dedup_elem. intros Ha.
  apply not_true_iff_false in E. apply E, eqb_eq.
  apply elem_of_cons in Ha as [->|Ha]; [done|].
  apply (anti_symm R); [by inversion Hf|]. inversion Hs as [|? ? _ Hb].
  by eapply Forall_forall in Hb.
Qed.

Lemma vec_dedup_id l : NoDup l → vec_dedup l = l.
Proof using eqb_eq.
  induction l as [|a l IH]; [done|]. intros [Ha Hl]%NoDup_cons. destruct l as [|b l]; [done|].
  rewrite vec_dedup_cons, IH by done. destruct (eqb a b) eqn:E; [|done].
  apply eqb_eq in E as ->. exfalso. apply Ha. by left.
Qed.
End Dedup.

(** ** Ordered sets *)

Section SortDedup.
Context {A : Type} (eqb : A → A → bool) (R : relation A).
Context `{!RelDecision R, !Transitive R, !Total R, !AntiSymm (=) R}.
Hypothesis eqb_eq : ∀ x y, eqb x y = true ↔ x = y.

Definition sort_dedup (l : list A) : list A := vec_dedup eqb (merge_sort R l).

Definition ordered_set (l : list A) : Prop := StronglySorted R l ∧ NoDup l.

Lemma sort_dedup_elem l x : x ∈ sort_dedup l ↔ x ∈ l.
Proof using eqb_eq.
  unfold sort_dedup. rewrite (vec_dedup_elem eqb eqb_eq). by rewrite merge_sort_Permutation.
Qed.

Lemma sort_dedup_ordered l : ordered_set (sort_dedup l).
Proof using All.
  pose proof (StronglySorted_merge_sort R l) as H.
  split; [by apply vec_dedup_sorted|by apply (vec_dedup_NoDup eqb eqb_eq R)].
Qed.

Lemma sort_dedup_id l : ordered_set l → sort_dedup l = l.
Proof using All.
  intros [Hs Hn]. unfold sort_dedup. rewrite (StronglySorted_unique R (merge_sort R l) l).
  - by apply vec_dedup_id.
  - apply (StronglySorted_merge_sort R).
  - done.
  - apply merge_sort_Permutation.
Qed.

Lemma sort_dedup_nil l : sort_dedup l = [] → l = [].
Proof using eqb_eq.
  destruct l as [|x l]; [done|]. intros H.
  assert (x ∈ sort_dedup (x :: l)) as Hx by (apply sort_dedup_elem; by left).
  rewrite H in Hx. by apply not_elem_of_nil in Hx.
Qed.
End SortDedup.
