(* ===== verification/RustPath.v ===== *)
(** * Paths

    [std::path] on Unix, as the command policy uses it.  Rust compares paths
    by their components, so a path is the list of its components; [parse_path]
    is [Path::new(text).components()] and [path_text] the text
    [to_string_lossy] gives for a path built by [push] and [pop]. *)

From S2P Require Import Prelude RustText.

Inductive Component :=
| RootDir
| CurDir
| ParentDir
| Normal (value : rstr).

#[export] Instance component_eq_dec : EqDecision Component.
Proof. solve_decision. Defined.

Abbreviation path := (list Component).

(** One part of the text between two separators. [.] parts are skipped (a
    leading one is handled by [parse_path]), as are empty parts. *)
Definition component_of (part : rstr) : option Component :=
  if is_str part "" || is_str part "." then None
  else if is_str part ".." then Some ParentDir
  else Some (Normal part).

Definition parse_path (text : rstr) : path :=
  let parts := split_at (is_char "/") text in
  if is_at "/" (head text) then RootDir :: omap component_of parts
  else match parts with
       | part :: rest =>
           if is_str part "." then CurDir :: omap component_of rest
           else omap component_of parts
       | [] => []
       end.

(** [Path::is_absolute]. *)
Definition is_absolute (p : path) : bool :=
  match p with RootDir :: _ => true | _ => false end.

(** [Path::join]: an absolute argument replaces the base; a [.] that is no
    longer at the front is not a component. *)
Definition path_join (base p : path) : path :=
  if is_absolute p then p
  else match base with
       | [] => p
       | _ => base ++ filter (λ c, c ≠ CurDir) p
       end.

(** [PathBuf::pop]: removes the last component unless it is the root. *)
Definition path_pop (p : path) : path :=
  match last p with
  | Some (Normal _) | Some CurDir | Some ParentDir => removelast p
  | Some RootDir | None => p
  end.

(** [Path::parent] and [Path::file_name]. *)
Definition path_parent (p : path) : option path :=
  match last p with
  | Some (Normal _) | Some CurDir | Some ParentDir => Some (removelast p)
  | Some RootDir | None => None
  end.

Definition file_name (p : path) : option rstr :=
  match last p with Some (Normal name) => Some name | _ => None end.

(** [PathBuf::push] of one component. *)
Definition path_push (p : path) (c : Component) : path :=
  match c with
  | RootDir => [RootDir]
  | _ => p ++ [c]
  end.

(** [Path::starts_with]: whole components. *)
Fixpoint path_starts_with (p base : path) : bool :=
  match base, p with
  | [], _ => true
  | b :: base', c :: p' => bool_decide (b = c) && path_starts_with p' base'
  | _ :: _, [] => false
  end.

Definition component_text (c : Component) : rstr :=
  match c with
  | RootDir => []
  | CurDir => rs "."
  | ParentDir => rs ".."
  | Normal value => value
  end.

Fixpoint join_components (cs : list Component) : rstr :=
  match cs with
  | [] => []
  | [c] => component_text c
  | c :: cs' => component_text c ++ ch "/" :: join_components cs'
  end.

Definition path_text (p : path) : rstr :=
  match p with
  | RootDir :: rest => ch "/" :: join_components rest
  | _ => join_components p
  end.

(** Names that a component can have. *)
Definition valid_name (v : rstr) : Prop :=
  v ≠ [] ∧ v ≠ rs "." ∧ v ≠ rs ".." ∧ ch "/" ∉ v.

(** A path without [.] and [..]: an optional root followed by names. *)
Definition is_normal (c : Component) : Prop :=
  match c with Normal v => valid_name v | _ => False end.

Definition normalized (p : path) : Prop :=
  Forall is_normal p ∨ ∃ rest, p = RootDir :: rest ∧ Forall is_normal rest.

(** ** Lemmas *)

Lemma component_of_normal v : valid_name v → component_of v = Some (Normal v).
Proof.
  intros (H1 & H2 & H3 & _). unfold component_of.
  destruct (is_str v "") eqn:E1; [by apply is_str_eq in E1|].
  destruct (is_str v ".") eqn:E2; [by apply is_str_eq in E2|].
  destruct (is_str v "..") eqn:E3; [by apply is_str_eq in E3|]. done.
Qed.

Lemma split_at_free sep v :
  existsb sep v = false → split_at sep v = [v].
Proof.
  induction v as [|c v IH]; simpl; [done|].
  intros [Hc Hv]%orb_false_iff. by rewrite Hc, (IH Hv).
Qed.

Lemma split_at_app sep v c w :
  existsb sep v = false → sep c = true →
  split_at sep (v ++ c :: w) = v :: split_at sep w.
Proof.
  intros Hv Hc. induction v as [|d v IH]; simpl in *; [by rewrite Hc|].
  apply orb_false_iff in Hv as [Hd Hv]. by rewrite Hd, (IH Hv).
Qed.

Lemma valid_name_no_slash v : valid_name v → existsb (is_char "/") v = false.
Proof.
  intros (_ & _ & _ & H). apply existsb_false. intros x Hx.
  destruct (is_char "/" x) eqn:E; [|done]. apply is_char_eq in E. by subst.
Qed.

Lemma split_join cs :
  Forall is_normal cs → cs ≠ [] →
  split_at (is_char "/") (join_components cs) = component_text <$> cs.
Proof.
  induction 1 as [|c cs Hc Hcs IH]; [done|]. intros _. simpl.
  destruct c as [| | |v]; try done. simpl in Hc.
  destruct cs as [|c' cs].
  - simpl. rewrite split_at_free; [done|]. by apply valid_name_no_slash.
  - rewrite split_at_app; [|by apply valid_name_no_slash|done].
    rewrite IH by done. done.
Qed.

Lemma omap_component_text cs :
  Forall is_normal cs → omap component_of (component_text <$> cs) = cs.
Proof.
  induction 1 as [|c cs Hc Hcs IH]; [done|]. csimpl.
  destruct c as [| | |v]; try done. simpl component_text.
  rewrite component_of_normal by done. by rewrite IH.
Qed.

Lemma join_components_head cs :
  Forall is_normal cs → is_at "/" (head (join_components cs)) = false.
Proof.
  intros H. destruct (is_at "/" _) eqn:E; [|done]. apply is_at_eq in E.
  destruct H as [|c cs Hc Hcs]; [done|]. destruct c as [| | |v]; try done.
  destruct Hc as (Hne & _ & _ & Hs). destruct v as [|d v]; [done|].
  destruct cs; simpl in E; simplify_eq; set_solver.
Qed.

(** Parsing the text of a normalised path gives the path back. *)
Lemma parse_path_text p : normalized p → parse_path (path_text p) = p.
Proof.
  intros [Hp|(rest & -> & Hp)].
  - unfold parse_path.
    assert (path_text p = join_components p) as ->.
    { destruct Hp as [|c cs Hc _]; [done|]. by destruct c. }
    rewrite join_components_head by done.
    destruct (decide (p = [])) as [->|Hne]; [done|].
    rewrite split_join by done.
    destruct Hp as [|c cs Hc Hcs]; [done|]. destruct c as [| | |v]; try done. simpl.
    destruct (is_str v ".") eqn:E; [apply is_str_eq in E; by destruct Hc as (?&?&?)|].
    by rewrite component_of_normal, omap_component_text.
  - unfold parse_path. simpl.
    destruct (decide (rest = [])) as [->|Hne]; [done|].
    rewrite split_join by done. simpl. by rewrite omap_component_text.
Qed.

Lemma normalized_last p v : normalized (p ++ [Normal v]) → normalized p.
Proof.
  intros [H|(rest & Heq & H)].
  - left. by apply Forall_app in H as [? _].
  - destruct p as [|c p]; [left; constructor|]. simpl in Heq. simplify_eq.
    right. exists p. split; [done|]. by apply Forall_app in H as [? _].
Qed.

Lemma removelast_snoc {A} (l : list A) x : removelast (l ++ [x]) = l.
Proof. by rewrite removelast_app, app_nil_r by done. Qed.

Lemma path_pop_normalized p : normalized p → normalized (path_pop p).
Proof.
  intros H. unfold path_pop. destruct (last p) as [c|] eqn:E; [|done].
  apply last_Some in E as [q ->].
  destruct c; rewrite ?removelast_snoc; try done.
  - exfalso. destruct H as [H|(r & Hr & H)].
    + apply Forall_app in H as [_ H]. by inversion H.
    + destruct q as [|? q]; simplify_eq/=. apply Forall_app in H as [_ H]. by inversion H.
  - exfalso. destruct H as [H|(r & Hr & H)].
    + apply Forall_app in H as [_ H]. by inversion H.
    + destruct q as [|? q]; simplify_eq/=. apply Forall_app in H as [_ H]. by inversion H.
  - by eapply normalized_last.
Qed.

Lemma path_push_normalized p v :
  normalized p → valid_name v → normalized (path_push p (Normal v)).
Proof.
  intros [H|(rest & -> & H)] Hv; simpl.
  - left. apply Forall_app. split; [done|]. by constructor.
  - right. exists (rest ++ [Normal v]). split; [done|].
    apply Forall_app. split; [done|]. by constructor.
Qed.

(** Every name the parser produces is a valid name. *)
Lemma split_at_no_sep sep s w x : w ∈ split_at sep s → x ∈ w → sep x = false.
Proof.
  revert w. induction s as [|c s IH]; simpl; intros w.
  - intros ->%list_elem_of_singleton. set_solver.
  - destruct (sep c) eqn:Hc.
    + intros [->|Hw]%elem_of_cons; [set_solver|]. eauto.
    + destruct (split_at sep s) as [|w' ws].
      * intros ->%list_elem_of_singleton. set_solver.
      * intros [->|Hw]%elem_of_cons; [|apply IH; set_solver].
        intros [->|Hx]%elem_of_cons; [done|]. eapply IH; [|exact Hx]. set_solver.
Qed.

Lemma component_of_valid part v :
  component_of part = Some (Normal v) → ch "/" ∉ part → valid_name v.
Proof.
  unfold component_of. intros H Hs.
  destruct (is_str part "" || is_str part ".") eqn:E1; [done|].
  apply orb_false_iff in E1 as [E1 E2].
  destruct (is_str part "..") eqn:E3; [done|]. simplify_eq.
  split_and!; [..|done]; intros ->; done.
Qed.

Lemma parse_path_names s v : Normal v ∈ parse_path s → valid_name v.
Proof.
  unfold parse_path. intros H.
  assert (∃ part, part ∈ split_at (is_char "/") s ∧ component_of part = Some (Normal v))
    as (part & Hp & Hc).
  { destruct (is_at "/" (head s)).
    - apply elem_of_cons in H as [H|H]; [done|].
      by apply list_elem_of_omap in H as (part & ? & ?); exists part.
    - destruct (split_at (is_char "/") s) as [|part rest]; [set_solver|].
      destruct (is_str part ".").
      + apply elem_of_cons in H as [H|H]; [done|].
        apply list_elem_of_omap in H as (part' & ? & ?). exists part'. split; [set_solver|done].
      + by apply list_elem_of_omap in H as (part' & ? & ?); exists part'. }
  eapply component_of_valid; [done|]. intros Hs.
  by pose proof (split_at_no_sep _ _ _ _ Hp Hs) as Hf.
Qed.
