(* ===== verification/Posix.v ===== *)
(** * Files, system calls and interference

    What the file changes use of a Unix system: a tree of inodes, the system
    calls on it, and the [io::Error]s they give.

    A computation runs in a [World].  Before each system call the world takes
    its next [Turn]: what other processes do to the files in between, and
    whether the call then goes through, fails with an error of the system, or is
    never made because the process dies.  A world without turns left is a quiet
    one.  An effect of a call that went through is there at once and stays:
    losing unsynced data with the power is not modelled.  Inode numbers are not
    reused, and permissions show only as calls that fail.

    After that: reasoning about system calls. *)

From stdpp Require Import gmap.
From S2P Require Import Prelude RustText RustPath.

(** ** Errors *)

Module Errno.
Inductive Errno :=
| ENOENT | EEXIST | ELOOP | ENOTDIR | EISDIR | EACCES | EPERM | EINVAL | ENOSYS | EOPNOTSUPP | EIO.
#[export] Instance errno_eq_dec : EqDecision Errno.
Proof. solve_decision. Defined.
End Errno.
Export (hints) Errno.

Module ErrorKind.
Inductive ErrorKind := NotFound | AlreadyExists | PermissionDenied | InvalidInput | Unsupported | Other.
#[export] Instance error_kind_eq_dec : EqDecision ErrorKind.
Proof. solve_decision. Defined.
End ErrorKind.
Export (hints) ErrorKind.

(** An [io::Error], of the system or made with [io::Error::new]. *)
Inductive IoError :=
| Os (errno : Errno.Errno)
| Custom (kind : ErrorKind.ErrorKind).
#[export] Instance io_error_eq_dec : EqDecision IoError.
Proof. solve_decision. Defined.

(** [io::Error::raw_os_error] and [io::Error::kind]. *)
Definition raw_os_error (e : IoError) : option Errno.Errno := match e with Os errno => Some errno | Custom _ => None end.

Definition kind (e : IoError) : ErrorKind.ErrorKind :=
  match e with
  | Os Errno.ENOENT => ErrorKind.NotFound
  | Os Errno.EEXIST => ErrorKind.AlreadyExists
  | Os Errno.EACCES | Os Errno.EPERM => ErrorKind.PermissionDenied
  | Os Errno.EINVAL => ErrorKind.InvalidInput
  | Os Errno.ENOSYS | Os Errno.EOPNOTSUPP => ErrorKind.Unsupported
  | Os _ => ErrorKind.Other
  | Custom kind => kind
  end.

(** ** The tree of inodes *)

Inductive Node :=
| Regular (bytes : list N)
| Directory (entries : gmap rstr N)
| Symlink (link : rstr)
| Special.

Record Inode := mkInode { node : Node; mode : N; nlink : N; mtime : N; device : N }.
Record FileSystem := mkFs { inodes : gmap N Inode; root_inode : N; next_inode : N; clock : N }.

Definition entries_of (fs : FileSystem) (i : N) : option (gmap rstr N) :=
  match inodes fs !! i with Some (mkInode (Directory entries) _ _ _ _) => Some entries | _ => None end.

(** The entry [name] of the directory [d]. *)
Definition entry (fs : FileSystem) (d : N) (name : rstr) : option N :=
  entries_of fs d ≫= λ entries, entries !! name.

(** The names from the root to where a walk is, the innermost first. *)
Abbreviation place := (list (rstr * N)).
Definition inode_at (fs : FileSystem) (here : place) : N :=
  match here with [] => root_inode fs | (_, i) :: _ => i end.

(** Resolving a path, through at most [links] symbolic links; the last name is
    followed when [follow]. *)
Fixpoint walk (links : nat) (fs : FileSystem) (follow : bool) (here : place) (p : path) :
    result Errno.Errno place :=
  (fix go (here : place) (p : path) : result Errno.Errno place :=
     match p with
     | [] => Ok here
     | RootDir :: p => go [] p
     | CurDir :: p => go here p
     | ParentDir :: p => go (tail here) p
     | Normal name :: p =>
         match entries_of fs (inode_at fs here) with
         | None => Err Errno.ENOTDIR
         | Some entries =>
             match entries !! name ≫= λ i, inode ← inodes fs !! i; Some (i, inode) with
             | None => Err Errno.ENOENT
             | Some (i, mkInode (Symlink link) _ _ _ _) =>
                 if negb follow && bool_decide (p = []) then Ok ((name, i) :: here)
                 else match links with
                      | O => Err Errno.ELOOP
                      | S links => walk links fs follow here (parse_path link ++ p)
                      end
             | Some (i, _) => go ((name, i) :: here) p
             end
         end
     end) here p.

(** Linux follows forty links. *)
Definition resolve (fs : FileSystem) (follow : bool) (p : path) : result Errno.Errno place := walk 40 fs follow [] p.

(** [fs::Metadata]: what a call saw of an inode. *)
Record Metadata := mkMetadata { ino : N; seen : Inode }.

Definition stat_inode (fs : FileSystem) (i : N) : result Errno.Errno Metadata :=
  inode ← ok_or (inodes fs !! i) Errno.EIO; Ok (mkMetadata i inode).

Definition lstat (fs : FileSystem) (p : path) : result Errno.Errno Metadata :=
  here ← resolve fs false p; stat_inode fs (inode_at fs here).

Definition is_file (m : Metadata) : bool := match node (seen m) with Regular _ => true | _ => false end.
Definition is_dir (m : Metadata) : bool := match node (seen m) with Directory _ => true | _ => false end.
Definition is_symlink (m : Metadata) : bool := match node (seen m) with Symlink _ => true | _ => false end.
Definition len (m : Metadata) : N := match node (seen m) with Regular bytes => N.of_nat (length bytes) | _ => 0 end.
Definition dev (m : Metadata) : N := device (seen m).

(** ** Worlds *)

(** What the program did to the files. *)
Inductive Event :=
| Created (d : N) (name : rstr) (i : N)
| Wrote (i : N) (bytes : list N)
| SetMode (i : N) (mode : N)
| Renamed (d : N) (source target : rstr) (i : N)
| Exchanged (d : N) (source target : rstr) (i j : N)
| Removed (d : N) (name : rstr) (i : N) (inode : Inode).

Inductive Fate := Proceeds | Fails (errno : Errno.Errno) | Dies.
Record Turn := mkTurn { others : FileSystem → FileSystem; fate : Fate }.

(** [uuids] counts the identifiers that were drawn. *)
Record World := mkWorld { fs : FileSystem; turns : list Turn; uuids : N; history : list Event }.

(** A computation gives no result when the process dies in it. *)
Definition io (E A : Type) : Type := World → option (result E A) * World.

#[export] Instance io_ret E : MRet (io E) := λ A a w, (Some (Ok a), w).
#[export] Instance io_bind E : MBind (io E) := λ A B f m w,
  match m w with
  | (Some (Ok a), w) => f a w
  | (Some (Err e), w) => (Some (Err e), w)
  | (None, w) => (None, w)
  end.

Definition fail {E A} (e : E) : io E A := λ w, (Some (Err e), w).

(** The [?] on a result that needs no system call. *)
Definition lift {E A} (r : result E A) : io E A := λ w, (Some r, w).

(** [Result::map_err]. *)
Definition map_err {E E' A} (f : E → E') (m : io E A) : io E' A := λ w,
  match m w with
  | (Some (Ok a), w) => (Some (Ok a), w)
  | (Some (Err e), w) => (Some (Err (f e)), w)
  | (None, w) => (None, w)
  end.

(** Binding the [Result] itself. *)
Definition attempt {E E' A} (m : io E A) : io E' (result E A) := λ w,
  match m w with (Some r, w) => (Some (Ok r), w) | (None, w) => (None, w) end.

(** [let _ = cleanup] when [m] fails, as a [Drop] does it. *)
Definition on_error {E E' A B} (cleanup : io E' B) (m : io E A) : io E A := λ w,
  match m w with
  | (Some (Err e), w) => match cleanup w with (Some _, w) => (Some (Err e), w) | (None, w) => (None, w) end
  | other => other
  end.

Definition syscall {A} (op : FileSystem → result Errno.Errno (A * FileSystem * list Event)) : io IoError A := λ w,
  let '(f, t, rest) :=
    match turns w with
    | [] => (fs w, Proceeds, [])
    | t :: rest => (others t (fs w), fate t, rest)
    end in
  match t with
  | Dies => (None, mkWorld f rest (uuids w) (history w))
  | Fails errno => (Some (Err (Os errno)), mkWorld f rest (uuids w) (history w))
  | Proceeds =>
      match op f with
      | Err errno => (Some (Err (Os errno)), mkWorld f rest (uuids w) (history w))
      | Ok (a, f, events) => (Some (Ok a), mkWorld f rest (uuids w) (history w ++ events))
      end
  end.

(** A call that changes nothing. *)
Definition observe {A} (op : FileSystem → result Errno.Errno A) : io IoError A :=
  syscall (λ f, a ← op f; Ok (a, f, [])).

(** [Uuid::new_v4]: the crate's generator, drawn one after the other. *)
Definition draw {E} (uuid : N → rstr) : io E rstr := λ w,
  (Some (Ok (uuid (uuids w))), mkWorld (fs w) (turns w) (uuids w + 1) (history w)).

(** ** System calls *)

Definition set_inode (f : FileSystem) (i : N) (inode : Inode) : FileSystem :=
  mkFs (<[i := inode]> (inodes f)) (root_inode f) (next_inode f) (clock f).

Definition set_node (inode : Inode) (n : Node) (time : N) : Inode :=
  mkInode n (mode inode) (nlink inode) time (device inode).

Definition set_entries (f : FileSystem) (d : N) (entries : gmap rstr N) : FileSystem :=
  match inodes f !! d with
  | Some inode => set_inode f d (set_node inode (Directory entries) (clock f))
  | None => f
  end.

Definition symlink_metadata (p : path) : io IoError Metadata := observe (λ f, lstat f p).
Definition fstat (i : N) : io IoError Metadata := observe (λ f, stat_inode f i).

(** [fstatat(.., AT_SYMLINK_NOFOLLOW)] of one name. *)
Definition stat_at (d : N) (name : rstr) : io IoError Metadata :=
  observe (λ f, i ← ok_or (entry f d name) Errno.ENOENT; stat_inode f i).

Definition canonicalize (p : path) : io IoError path :=
  observe (λ f, here ← resolve f true p; Ok (RootDir :: map (λ x, Normal (fst x)) (rev here))).

(** [open(path, O_RDONLY | O_DIRECTORY | O_NOFOLLOW)]. *)
Definition open_directory_at (p : path) : io IoError N :=
  observe (λ f,
    here ← resolve f false p;
    let i := inode_at f here in
    match entries_of f i with Some _ => Ok i | None => Err Errno.ENOTDIR end).

(** [openat(d, name, O_RDONLY | O_NOFOLLOW | O_NONBLOCK)]. *)
Definition openat_read (d : N) (name : rstr) : io IoError N :=
  observe (λ f,
    i ← ok_or (entry f d name) Errno.ENOENT;
    m ← stat_inode f i;
    if is_symlink m then Err Errno.ELOOP else Ok i).

(** [read_to_end], in one step, with [take(limit)] when there is one. *)
Definition read_to_end (i : N) (limit : option N) : io IoError (list N) :=
  observe (λ f,
    match inodes f !! i with
    | Some (mkInode (Regular bytes) _ _ _ _) =>
        Ok (match limit with Some n => take (N.to_nat n) bytes | None => bytes end)
    | Some _ => Err Errno.EISDIR
    | None => Err Errno.EIO
    end).

Definition fsync (i : N) : io IoError () := observe (λ _, Ok ()).
Definition dup (i : N) : io IoError () := observe (λ _, Ok ()).

(** [openat(d, name, O_RDWR | O_CREAT | O_EXCL | O_NOFOLLOW, mode)]. *)
Definition openat_create (d : N) (name : rstr) (mode : N) : io IoError N :=
  syscall (λ f,
    entries ← ok_or (entries_of f d) Errno.ENOTDIR;
    match entries !! name with
    | Some _ => Err Errno.EEXIST
    | None =>
        let i := next_inode f in
        let device := from_option device 0%N (inodes f !! d) in
        let f := set_inode (mkFs (inodes f) (root_inode f) (i + 1) (clock f)) i
                   (mkInode (Regular []) mode 1 (clock f) device) in
        Ok (i, set_entries f d (<[name := i]> entries), [Created d name i])
    end).

Definition write_all (i : N) (bytes : list N) : io IoError () :=
  syscall (λ f,
    match inodes f !! i with
    | Some inode => Ok ((), set_inode f i (set_node inode (Regular bytes) (clock f)), [Wrote i bytes])
    | None => Err Errno.EIO
    end).

(** [fchmod]. *)
Definition set_permissions (i mode : N) : io IoError () :=
  syscall (λ f,
    match inodes f !! i with
    | Some inode =>
        Ok ((), set_inode f i (mkInode (node inode) mode (nlink inode) (mtime inode) (device inode)), [SetMode i mode])
    | None => Err Errno.EIO
    end).

(** [unlinkat] of a name that is not a directory. *)
Definition unlinkat (d : N) (name : rstr) : io IoError () :=
  syscall (λ f,
    entries ← ok_or (entries_of f d) Errno.ENOTDIR;
    i ← ok_or (entries !! name) Errno.ENOENT;
    inode ← ok_or (inodes f !! i) Errno.EIO;
    if is_dir (mkMetadata i inode) then Err Errno.EISDIR
    else
      let f := set_inode f i (mkInode (node inode) (mode inode) (nlink inode - 1) (mtime inode) (device inode)) in
      Ok ((), set_entries f d (delete name entries), [Removed d name i inode])).

(** [renameat2] in one directory with [RENAME_NOREPLACE] and with [RENAME_EXCHANGE]. *)
Definition renameat_noreplace (d : N) (source target : rstr) : io IoError () :=
  syscall (λ f,
    entries ← ok_or (entries_of f d) Errno.ENOTDIR;
    i ← ok_or (entries !! source) Errno.ENOENT;
    if bool_decide (is_Some (entries !! target)) then Err Errno.EEXIST
    else Ok ((), set_entries f d (<[target := i]> (delete source entries)), [Renamed d source target i])).

Definition renameat_exchange (d : N) (source target : rstr) : io IoError () :=
  syscall (λ f,
    entries ← ok_or (entries_of f d) Errno.ENOTDIR;
    i ← ok_or (entries !! source) Errno.ENOENT;
    j ← ok_or (entries !! target) Errno.ENOENT;
    Ok ((), set_entries f d (<[source := j]> (<[target := i]> entries)), [Exchanged d source target i j])).

(** * Reasoning about system calls

    [drift] is what happens to a world in which the program only looks: others
    had their turns.  [looks] says that a computation does no more than that,
    and [honest] that, when others leave the files alone and no call fails with
    an error that says something about a name, its answer is the one of a quiet
    world. *)

Create HintDb looks.

(** ** Drifting *)

Definition others_after (used : list Turn) (f : FileSystem) : FileSystem := foldl (λ f t, others t f) f used.

Definition drift (w w' : World) : Prop :=
  history w' = history w ∧ uuids w' = uuids w
  ∧ ∃ used, turns w = used ++ turns w' ∧ fs w' = others_after used (fs w).

Lemma drift_refl w : drift w w.
Proof. split_and!; [done..|]. by exists []. Qed.

Lemma drift_trans w1 w2 w3 : drift w1 w2 → drift w2 w3 → drift w1 w3.
Proof.
  intros (Hh & Hu & used & Ht & Hf) (Hh' & Hu' & used' & Ht' & Hf').
  split_and!; [congruence..|]. exists (used ++ used'). rewrite Ht, Ht', <- app_assoc.
  split; [done|]. unfold others_after. by rewrite foldl_app, Hf', Hf.
Qed.
#[export] Instance drift_preorder : PreOrder drift.
Proof. split; [exact drift_refl|exact drift_trans]. Qed.

Definition looks {E A} (m : io E A) : Prop := ∀ w, drift w (snd (m w)).

Section Looks.
Context {E E' A B : Type}.

Lemma looks_ret (a : A) : looks (mret a : io E A).
Proof. intros w. done. Qed.
Lemma looks_fail (e : E) : looks (fail e : io E A).
Proof. intros w. done. Qed.
Lemma looks_lift (r : result E A) : looks (lift r).
Proof. intros w. done. Qed.
Lemma looks_bind (m : io E A) (k : A → io E B) : looks m → (∀ a, looks (k a)) → looks (m ≫= k).
Proof.
  intros Hm Hk w. specialize (Hm w). unfold mbind, io_bind.
  destruct (m w) as [[[a|e]|] w']; cbn in *; [|done..]. etrans; [done|]. apply Hk.
Qed.
Lemma looks_map_err (f : E → E') (m : io E A) : looks m → looks (map_err f m).
Proof. intros Hm w. specialize (Hm w). unfold map_err. by destruct (m w) as [[[a|e]|] w']. Qed.
Lemma looks_attempt (m : io E A) : looks m → looks (attempt m : io E' (result E A)).
Proof. intros Hm w. specialize (Hm w). unfold attempt. by destruct (m w) as [[r|] w']. Qed.
End Looks.

Lemma looks_observe {A} (op : FileSystem → result Errno.Errno A) : looks (observe op).
Proof.
  intros w. unfold observe, syscall.
  destruct (turns w) as [|t rest] eqn:Et; cbn.
  - destruct (op (fs w)); cbn; (split_and!; [by rewrite ?app_nil_r|done|by exists []]).
  - destruct (fate t); cbn; try (destruct (op _); cbn);
      (split_and!; [by rewrite ?app_nil_r|done|by exists [t]]).
Qed.
#[export] Hint Resolve looks_ret looks_fail looks_lift looks_bind looks_map_err looks_attempt looks_observe : looks.

(** Unfolds nothing: the definition is opened before. *)
Ltac looks_tac :=
  repeat first
    [ apply looks_ret | apply looks_fail | apply looks_lift | apply looks_observe
    | apply looks_map_err | apply looks_attempt | apply looks_bind | intros ?
    | case_match | solve [auto with looks] ].

(** ** Honest answers *)

(** An error that says something about a name. *)
Definition about_names (e : Errno.Errno) : bool :=
  bool_decide (e = Errno.ENOENT) || bool_decide (e = Errno.EEXIST).

(** Others leave the files alone; a call may fail, but not with a false answer. *)
Definition faulty_turn (t : Turn) : Prop :=
  (∀ f, others t f = f) ∧ match fate t with Fails e => about_names e = false | _ => True end.
Definition faulty (w : World) : Prop := Forall faulty_turn (turns w).

Definition quiet (f : FileSystem) : World := mkWorld f [] 0 [].

(** The answer in a quiet world. *)
Definition saw {E A} (m : io E A) (f : FileSystem) : option (result E A) := fst (m (quiet f)).

Lemma faulty_drift w w' : faulty w → drift w w' → faulty w' ∧ fs w' = fs w.
Proof.
  unfold faulty. intros Hf (_ & _ & used & Ht & ->). rewrite Ht, Forall_app in Hf. destruct Hf as [Hu Hf].
  split; [done|]. clear Ht Hf. revert Hu. generalize (fs w). clear w. induction used as [|t used IH]; intros f Hu; [done|].
  inversion Hu as [|? ? [Ho _] Hu']; subst. cbn. rewrite Ho. by apply IH.
Qed.

(** What a fault may answer, of a computation whose errors are [io::Error]s. *)
Definition true_error (e : IoError) : Prop := match e with Os errno => about_names errno = false | Custom _ => False end.

(** [fault] are the errors that a fault may lead to. *)
Definition honest {E A} (fault : E → Prop) (m : io E A) : Prop :=
  looks m ∧
  (∀ w, turns w = [] → fst (m w) = saw m (fs w) ∧ is_Some (saw m (fs w))) ∧
  (∀ w, faulty w →
     match fst (m w) with
     | Some (Ok a) => saw m (fs w) = Some (Ok a)
     | Some (Err e) => fault e ∨ saw m (fs w) = Some (Err e)
     | None => True
     end).

Lemma quiet_faulty f : faulty (quiet f).
Proof. constructor. Qed.

Lemma quiet_drift w w' : turns w = [] → drift w w' → w' = w.
Proof.
  intros Ht (Hh & Hu & used & H & Hf). rewrite Ht in H. symmetry in H. apply app_eq_nil in H as [-> Ht'].
  destruct w, w'; cbn in *; by subst.
Qed.

Section Honest.
Context {E E' A B : Type}.

Lemma honest_ret fault (a : A) : honest fault (mret a : io E A).
Proof. split_and!; [apply looks_ret|by cbn; eauto|done]. Qed.
Lemma honest_fail fault (e : E) : honest fault (fail e : io E A).
Proof. split_and!; [apply looks_fail|by cbn; eauto|by right]. Qed.
Lemma honest_lift fault (r : result E A) : honest fault (lift r).
Proof. split_and!; [apply looks_lift|by cbn; eauto|intros w _; destruct r; cbn; auto]. Qed.

Lemma quiet_snd (m : io E A) w : looks m → turns w = [] → snd (m w) = w.
Proof. intros Hm Ht. apply quiet_drift; [done|apply Hm]. Qed.

Lemma saw_bind (m : io E A) (k : A → io E B) f :
  looks m → saw (m ≫= k) f = match saw m f with
                             | Some (Ok a) => saw (k a) f
                             | Some (Err e) => Some (Err e)
                             | None => None
                             end.
Proof.
  intros Hm. pose proof (quiet_snd m (quiet f) Hm eq_refl) as Hs. unfold saw, mbind, io_bind.
  destruct (m (quiet f)) as [[[a|e]|] w']; cbn in *; by subst.
Qed.

Lemma honest_bind fault (m : io E A) (k : A → io E B) :
  honest fault m → (∀ a, honest fault (k a)) → honest fault (m ≫= k).
Proof.
  intros (Hl & Hq & Hf) Hk. split_and!.
  - apply looks_bind; [done|apply Hk].
  - intros w Ht. destruct (Hq w Ht) as [Hr Hs]. rewrite saw_bind by done. pose proof (quiet_snd m w Hl Ht) as Hw.
    unfold mbind, io_bind. destruct (m w) as [[[a|e]|] w']; cbn in Hr, Hw; subst w'; rewrite <- Hr; cbn; [|by eauto..|].
    + by apply Hk.
    + rewrite <- Hr in Hs. by destruct Hs.
  - intros w Hw. specialize (Hf w Hw). rewrite saw_bind by done.
    destruct (faulty_drift w _ Hw (Hl w)) as [Hw' Hfs].
    unfold mbind, io_bind. destruct (m w) as [[[a|e]|] w'] eqn:Em; cbn in *; [| |done].
    + rewrite Hf. destruct (Hk a) as (_ & _ & Hka). specialize (Hka w' Hw'). by rewrite <- Hfs.
    + destruct Hf as [Hf|Hf]; [by left|right]. by rewrite Hf.
Qed.

Lemma saw_map_err (f : E → E') (m : io E A) s :
  saw (map_err f m) s = match saw m s with Some (Err e) => Some (Err (f e)) | Some (Ok a) => Some (Ok a) | None => None end.
Proof. unfold saw, map_err. by destruct (m (quiet s)) as [[[a|e]|] w']. Qed.

Lemma honest_map_err (fault : E → Prop) (fault' : E' → Prop) (f : E → E') (m : io E A) :
  honest fault m → (∀ e, fault e → fault' (f e)) → honest fault' (map_err f m).
Proof.
  intros (Hl & Hq & Hf) Hff. split_and!.
  - by apply looks_map_err.
  - intros w Ht. destruct (Hq w Ht) as [Hr Hs]. rewrite saw_map_err. unfold map_err.
    destruct (m w) as [[[a|e]|] w']; cbn in *; rewrite <- Hr; [by eauto..|]. rewrite <- Hr in Hs. by destruct Hs.
  - intros w Hw. specialize (Hf w Hw). rewrite saw_map_err. unfold map_err.
    destruct (m w) as [[[a|e]|] w']; cbn in *; [by rewrite Hf| |done].
    destruct Hf as [Hf|Hf]; [left; auto|right; by rewrite Hf].
Qed.

End Honest.

Section Attempt.
Context {E E' A B : Type}.

(** A fault is passed on by what follows an [attempt]. *)
Lemma saw_attempt (m : io E A) (k : result E A → io E' B) s :
  looks m → saw (attempt m ≫= k) s = match saw m s with Some r => saw (k r) s | None => None end.
Proof.
  intros Hm. rewrite saw_bind by (by apply looks_attempt). unfold saw at 1, attempt.
  pose proof (quiet_snd m (quiet s) Hm eq_refl) as Hs. unfold saw at 2.
  destruct (m (quiet s)) as [[r|] w']; cbn in *; by subst.
Qed.

Lemma honest_attempt (fault : E → Prop) (fault' : E' → Prop) (m : io E A) (k : result E A → io E' B) :
  honest fault m → (∀ r, honest fault' (k r)) →
  (∀ e, fault e → ∃ e', k (Err e) = fail e' ∧ fault' e') →
  honest fault' (attempt m ≫= k).
Proof.
  intros (Hl & Hq & Hf) Hk Hke. split_and!.
  - apply looks_bind; [by apply looks_attempt|apply Hk].
  - intros w Ht. destruct (Hq w Ht) as [Hr Hs]. rewrite saw_attempt by done. pose proof (quiet_snd m w Hl Ht) as Hw.
    unfold mbind, io_bind, attempt. destruct (m w) as [[r|] w']; cbn in *; subst w'; rewrite <- Hr.
    + by apply Hk.
    + rewrite <- Hr in Hs. by destruct Hs.
  - intros w Hw. specialize (Hf w Hw). rewrite saw_attempt by done.
    destruct (faulty_drift w _ Hw (Hl w)) as [Hw' Hfs].
    unfold mbind, io_bind, attempt. destruct (m w) as [[[a|e]|] w'] eqn:Em; cbn in *; [| |done].
    + rewrite Hf. destruct (Hk (Ok a)) as (_ & _ & Hka). specialize (Hka w' Hw'). by rewrite <- Hfs.
    + destruct Hf as [Hf|Hf].
      * destruct (Hke e Hf) as (e' & -> & Hf'). by left.
      * rewrite Hf. destruct (Hk (Err e)) as (_ & _ & Hke'). specialize (Hke' w' Hw'). by rewrite <- Hfs.
Qed.
End Attempt.

Lemma saw_observe {A} (op : FileSystem → result Errno.Errno A) f :
  saw (observe op) f = Some (match op f with Ok a => Ok a | Err e => Err (Os e) end).
Proof. unfold saw, observe, syscall. cbn. by destruct (op f). Qed.

Lemma honest_observe {A} (op : FileSystem → result Errno.Errno A) : honest true_error (observe op).
Proof.
  split_and!; [apply looks_observe|..].
  - intros w Ht. rewrite saw_observe. unfold observe, syscall. rewrite Ht. cbn. by destruct (op (fs w)); cbn; eauto.
  - intros w Hw. rewrite saw_observe. unfold observe, syscall.
    destruct (turns w) as [|t rest] eqn:Et; cbn; [destruct (op (fs w)); cbn; auto|].
    unfold faulty in Hw. rewrite Et in Hw. apply Forall_inv in Hw as [Ho Hf].
    destruct (fate t); cbn; rewrite ?Ho; [destruct (op (fs w)); cbn; auto|by left|done].
Qed.

(** ** A logic for faults and crashes

    [wp strict m R J w]: when others leave the files alone, [m] started in [w]
    ends in [R], or, after a fault or where the process died, in [J].  When
    [strict], no call fails: [m] ends in [R]. *)

Definition mode_ok (strict : bool) (w : World) : Prop := if strict then turns w = [] else faulty w.

Definition wp {E A} (strict : bool) (m : io E A) (R : A → World → Prop) (J : World → Prop) (w : World) : Prop :=
  mode_ok strict w →
  match m w with
  | (Some (Ok a), w') => mode_ok strict w' ∧ R a w'
  | (_, w') => strict = false ∧ mode_ok strict w' ∧ J w'
  end.

(** Only the turns went on. *)
Definition same (w w' : World) : Prop := fs w' = fs w ∧ uuids w' = uuids w.

Section Logic.
Context {E E' A B : Type} (strict : bool) (J : World → Prop).
Implicit Types (m : io E A) (w : World).

Lemma wp_ret a (R : A → World → Prop) w : R a w → wp strict (mret a : io E A) R J w.
Proof. by intros H Hm. Qed.

Lemma wp_lift (a : A) (R : A → World → Prop) w : R a w → wp strict (lift (Ok a) : io E A) R J w.
Proof. by intros H Hm. Qed.

Lemma wp_fail (e : E) (R : A → World → Prop) w : strict = false → J w → wp strict (fail e) R J w.
Proof. by intros H Hj Hm. Qed.

Lemma wp_bind m (k : A → io E B) R w : wp strict m (λ a, wp strict (k a) R J) J w → wp strict (m ≫= k) R J w.
Proof.
  intros H Hm. specialize (H Hm). unfold mbind, io_bind.
  destruct (m w) as [[[a|e]|] w']; [|done..]. destruct H as [Hm' H]. by apply H.
Qed.

Lemma wp_map_err (f : E → E') m R w : wp strict m R J w → wp strict (map_err f m) R J w.
Proof. intros H Hm. specialize (H Hm). unfold map_err. by destruct (m w) as [[[a|e]|] w']. Qed.

Lemma wp_mono m (R R' : A → World → Prop) (J' : World → Prop) w :
  wp strict m R' J' w → (∀ a w, R' a w → R a w) → (∀ w, strict = false → J' w → J w) → wp strict m R J w.
Proof.
  intros H HR HJ Hm. specialize (H Hm). destruct (m w) as [[[a|e]|] w'].
  - destruct H. auto.
  - destruct H as (? & ? & ?). auto.
  - destruct H as (? & ? & ?). auto.
Qed.
End Logic.

Section LogicOfErrors.
Context {E E' A B : Type} (strict : bool) (J : World → Prop).

Lemma wp_attempt (J1 : World → Prop) (m : io E A) (k : result E A → io E' B) R w :
  wp strict m (λ a, wp strict (k (Ok a)) R J) J1 w →
  (∀ w, strict = false → J1 w → J w ∧ ∀ e, wp strict (k (Err e)) R J w) →
  wp strict (attempt m ≫= k) R J w.
Proof.
  intros H Hk Hm. specialize (H Hm). unfold mbind, io_bind, attempt.
  destruct (m w) as [[[a|e]|] w'].
  - destruct H as [Hm' H]. by apply H.
  - destruct H as (Hs & Hm' & H). destruct (Hk w' Hs H) as [_ He]. by apply He.
  - destruct H as (Hs & Hm' & H). destruct (Hk w' Hs H) as [Hj _]. done.
Qed.

Lemma wp_on_error (J1 : World → Prop) (cleanup : io E' B) (m : io E A) R w :
  wp strict m R J1 w →
  (∀ w, strict = false → J1 w → J w ∧ wp strict cleanup (λ _, J) J w) →
  wp strict (on_error cleanup m) R J w.
Proof.
  intros H Hc Hm. specialize (H Hm). unfold on_error.
  destruct (m w) as [[[a|e]|] w'].
  - done.
  - destruct H as (Hs & Hm' & H). destruct (Hc w' Hs H) as [_ Hj]. specialize (Hj Hm').
    destruct (cleanup w') as [[[b|e']|] w'']; naive_solver.
  - destruct H as (Hs & Hm' & H). destruct (Hc w' Hs H) as [Hj _]. done.
Qed.

Lemma wp_honest fault (m : io E A) a (R : A → World → Prop) w :
  honest fault m → saw m (fs w) = Some (Ok a) →
  (∀ w', same w w' → R a w') → (∀ w', same w w' → J w') →
  wp strict m R J w.
Proof.
  intros (Hl & Hq & Hf) Hs HR HJ Hm. pose proof (Hl w) as Hd. destruct strict; cbn in Hm.
  - destruct (Hq w Hm) as [Hr _]. rewrite (quiet_drift _ _ Hm Hd) in Hd.
    pose proof (quiet_snd m w Hl Hm) as Hw. destruct (m w) as [r w']; cbn in Hr, Hw. subst w'.
    rewrite Hr, Hs. split; [done|]. by apply HR.
  - specialize (Hf w Hm). destruct (faulty_drift _ _ Hm Hd) as [Hm' Hfs].
    assert (same w (snd (m w))) as Hsame by (split; [done|apply Hd]).
    destruct (m w) as [[[a'|e]|] w']; cbn in *; [|by split_and!; auto..].
    split; [done|]. rewrite Hs in Hf. injection Hf as ->. by apply HR.
Qed.

Lemma wp_syscall (op : FileSystem → result Errno.Errno (A * FileSystem * list Event)) a f ev (R : A → World → Prop) w :
  op (fs w) = Ok (a, f, ev) →
  (∀ w', fs w' = f → uuids w' = uuids w → R a w') → (∀ w', same w w' → J w') →
  wp strict (syscall op) R J w.
Proof.
  intros Hop HR HJ Hm. unfold syscall. destruct strict; cbn in Hm.
  - rewrite Hm, Hop. split; [done|]. by apply HR.
  - unfold faulty in Hm. destruct (turns w) as [|t rest].
    + rewrite Hop. split; [constructor|]. by apply HR.
    + inversion Hm as [|? ? [Ho Hf] Hrest]; subst. rewrite Ho.
      destruct (fate t); [rewrite Hop; split; [done|by apply HR] | (split_and!; [done|done|by apply HJ]).. ].
Qed.

Lemma wp_draw (uuid : N → rstr) (R : rstr → World → Prop) w :
  R (uuid (uuids w)) (mkWorld (fs w) (turns w) (uuids w + 1) (history w)) →
  wp strict (draw uuid : io E rstr) R J w.
Proof. intros H Hm. split; [by destruct strict|done]. Qed.
End LogicOfErrors.

Lemma saw_bind_ok {E A B} (m : io E A) (k : A → io E B) f a :
  looks m → saw m f = Some (Ok a) → saw (m ≫= k) f = saw (k a) f.
Proof. intros Hl Hs. by rewrite saw_bind, Hs. Qed.

Lemma saw_io {E A} (g : IoError → E) (op : FileSystem → result Errno.Errno A) f a :
  op f = Ok a → saw (map_err g (observe op)) f = Some (Ok a).
Proof. intros H. by rewrite saw_map_err, saw_observe, H. Qed.

Lemma saw_found {E A B} (op : FileSystem → result Errno.Errno A) (k : result IoError A → io E B) f :
  saw (attempt (observe op) ≫= k) f = saw (k (match op f with Ok a => Ok a | Err e => Err (Os e) end)) f.
Proof. rewrite saw_attempt by apply looks_observe. by rewrite saw_observe. Qed.
