(* ===== verification/Json.v ===== *)
(** * JSON values

    [serde_json::Value].  Its [Map] is a map ordered by key: an object is the list
    of its fields in that order.  The text of a number is what [serde_json] prints
    for it, and is carried as it is. *)

From stdpp Require Import pretty.
From S2P Require Import Prelude RustText.

#[warnings="-register-all"]
Inductive Value :=
| Null
| Bool (value : bool)
| Number (text : rstr)
| String (value : rstr)
| Array (values : list Value)
| Object (fields : list (rstr * Value)).

(** [Map::get] and [Map::insert]. *)
Fixpoint map_get {A} (key : rstr) (fields : list (rstr * A)) : option A :=
  match fields with
  | [] => None
  | (k, v) :: fields => if str_eqb key k then Some v else map_get key fields
  end.

Fixpoint map_insert {A} (key : rstr) (value : A) (fields : list (rstr * A)) : list (rstr * A) :=
  match fields with
  | [] => [(key, value)]
  | (k, v) :: rest =>
      if str_eqb key k then (key, value) :: rest
      else if str_leb key k then (key, value) :: fields
      else (k, v) :: map_insert key value rest
  end.

(** [json!({ .. })]. *)
Definition json_object (fields : list (rstr * Value)) : Value :=
  Object (foldl (λ object '(k, v), map_insert k v object) [] fields).

Definition as_str (value : Value) : option rstr :=
  match value with String s => Some s | _ => None end.

(** [Value::get] with a string key. *)
Definition value_get (key : rstr) (value : Value) : option Value :=
  match value with Object fields => map_get key fields | _ => None end.

Definition as_array (value : Value) : option (list Value) :=
  match value with Array values => Some values | _ => None end.
Definition as_object (value : Value) : option (list (rstr * Value)) :=
  match value with Object fields => Some fields | _ => None end.
Definition as_bool (value : Value) : option bool :=
  match value with Bool b => Some b | _ => None end.

(** [as_u64]: the numbers printed with digits alone. *)
Definition as_u64 (value : Value) : option N :=
  match value with
  | Number text =>
      let n := foldl (λ n c, 10 * n + (c - 48))%N 0%N text in
      if negb (bool_decide (text = [])) && forallb is_ascii_digit text && (n <=? u64_max)%N
      then Some n else None
  | _ => None
  end.

(** [json!(n)] of an unsigned number. *)
Definition json_number (n : N) : Value := Number (rs (pretty n)).
Definition json_len {A} (l : list A) : Value := json_number (N.of_nat (length l)).

(** [Map::contains_key], [Map::remove] and [Map::entry(key).or_insert(value)]. *)
Definition contains_key {A} (key : rstr) (fields : list (rstr * A)) : bool :=
  bool_decide (is_Some (map_get key fields)).
Definition map_remove {A} (key : rstr) (fields : list (rstr * A)) : list (rstr * A) :=
  List.filter (λ f, negb (str_eqb key (fst f))) fields.
Definition map_or_insert {A} (key : rstr) (value : A) (fields : list (rstr * A)) : list (rstr * A) :=
  if contains_key key fields then fields else map_insert key value fields.

(** ** Induction *)

Section ValueInd.
Variable P : Value → Prop.
Hypothesis P_Null : P Null.
Hypothesis P_Bool : ∀ b, P (Bool b).
Hypothesis P_Number : ∀ t, P (Number t).
Hypothesis P_String : ∀ s, P (String s).
Hypothesis P_Array : ∀ vs, Forall P vs → P (Array vs).
Hypothesis P_Object : ∀ fs, Forall (λ f, P (snd f)) fs → P (Object fs).

Fixpoint value_nested_ind (v : Value) : P v :=
  match v with
  | Null => P_Null
  | Bool b => P_Bool b
  | Number t => P_Number t
  | String s => P_String s
  | Array vs =>
      P_Array vs ((fix go vs : Forall P vs :=
        match vs with
        | [] => Forall_nil_2 _
        | v :: vs => Forall_cons_2 _ _ _ (value_nested_ind v) (go vs)
        end) vs)
  | Object fs =>
      P_Object fs ((fix go fs : Forall (λ f, P (snd f)) fs :=
        match fs with
        | [] => Forall_nil_2 _
        | f :: fs => Forall_cons_2 _ _ _ (value_nested_ind (snd f)) (go fs)
        end) fs)
  end.
End ValueInd.

(** ** Equality *)

Fixpoint value_eqb (v w : Value) : bool :=
  match v, w with
  | Null, Null => true
  | Bool a, Bool b => Bool.eqb a b
  | Number s, Number t | String s, String t => str_eqb s t
  | Array vs, Array ws =>
      (fix go vs ws :=
         match vs, ws with
         | [], [] => true
         | v :: vs, w :: ws => value_eqb v w && go vs ws
         | _, _ => false
         end) vs ws
  | Object fs, Object gs =>
      (fix go fs gs :=
         match fs, gs with
         | [], [] => true
         | (k, v) :: fs, (l, w) :: gs => str_eqb k l && value_eqb v w && go fs gs
         | _, _ => false
         end) fs gs
  | _, _ => false
  end.

Lemma value_eqb_eq v w : value_eqb v w = true ↔ v = w.
Proof.
  revert w. induction v as [|b|t|s|vs IH|fs IH] using value_nested_ind; intros [|b'|t'|s'|ws|gs];
    cbn [value_eqb]; try (split; [discriminate|congruence]).
  - done.
  - rewrite eqb_true_iff. split; congruence.
  - rewrite str_eqb_eq. split; congruence.
  - rewrite str_eqb_eq. split; congruence.
  - trans (vs = ws); [|split; congruence]. revert ws.
    induction IH as [|v vs Hv _ IH]; intros [|w ws]; try (split; [discriminate|congruence]); [done|].
    rewrite andb_true_iff, Hv, IH. split; [by intros [-> ->]|by intros [= -> ->]].
  - trans (fs = gs); [|split; congruence]. revert gs.
    induction IH as [|[k v] fs Hv _ IH]; intros [|[l w] gs]; try (split; [discriminate|congruence]); [done|].
    cbn [snd] in Hv. rewrite !andb_true_iff, str_eqb_eq, Hv, IH.
    split; [by intros [[-> ->] ->]|by intros [= -> -> ->]].
Qed.

(** ** Lookups *)

Lemma map_get_elem {A} key (fields : list (rstr * A)) v : map_get key fields = Some v → (key, v) ∈ fields.
Proof.
  induction fields as [|[k w] fields IH]; [done|]. cbn. destruct (str_eqb key k) eqn:E.
  - apply str_eqb_eq in E as <-. intros [= <-]. by left.
  - intros H. right. by apply IH.
Qed.
