(* ===== verification/JsonPrinter.v ===== *)
(** * The printer of JSON values

    What the program relies on of [serde_json::to_vec]: the compact form of objects
    and strings, the escapes, and that different values print differently.  The
    printer is a class with laws; [compact] is an executable printer that satisfies
    them, which shows that the laws can be met. *)

From stdpp Require Import sorting.
From S2P Require Import Prelude RustText Json.

(** ** The interface *)

Definition quote_byte : N := 34.
Definition backslash_byte : N := 92.

Definition plain_byte (b : N) : Prop := b ≠ quote_byte ∧ b ≠ backslash_byte.

(** A sequence of strings with a comma between two of them. *)
Fixpoint commas (parts : list (list N)) : list N :=
  match parts with
  | [] => []
  | [part] => part
  | part :: parts => part ++ 44%N :: commas parts
  end.

(** The chars that print as themselves. *)
Definition printable_ascii (c : char) : Prop :=
  (32 <= c < 127)%N ∧ c ≠ quote_byte ∧ c ≠ backslash_byte.

Definition number_char (c : char) : bool := is_ascii_digit c || is_in "+-.eE" c.
Definition number_text (t : rstr) : Prop := t ≠ [] ∧ Forall (λ c, number_char c = true) t.

(** The fields of a map come in the order of their keys, each key once. *)
Definition ordered_fields (fs : list (rstr * Value)) : Prop :=
  StronglySorted str_le (fst <$> fs) ∧ NoDup (fst <$> fs).

(** The values of the program: texts of valid chars, numbers printed as such. *)
#[warnings="-register-all"]
Inductive printable : Value → Prop :=
| printable_Null : printable Null
| printable_Bool b : printable (Bool b)
| printable_Number t : number_text t → printable (Number t)
| printable_String s : valid_text s → printable (String s)
| printable_Array vs : Forall printable vs → printable (Array vs)
| printable_Object fs :
    ordered_fields fs →
    Forall (λ f, valid_text (fst f) ∧ printable (snd f)) fs → printable (Object fs).

Class JsonPrinter := {
  to_vec : Value → list N;
  escape_char : char → list N;
}.

Section Interface.
Context `{JsonPrinter}.

Definition escape (s : rstr) : list N := s ≫= escape_char.
Definition quoted (s : rstr) : list N := quote_byte :: escape s ++ [quote_byte].
Definition field (f : rstr * Value) : list N := quoted (fst f) ++ 58%N :: to_vec (snd f).
End Interface.

Class JsonPrinterLaws `{JsonPrinter} : Prop := {
  to_vec_String s : to_vec (String s) = quoted s;
  to_vec_Object fs : to_vec (Object fs) = 123%N :: commas (field <$> fs) ++ [125%N];
  escape_ascii c : printable_ascii c → escape_char c = [c];
  escape_shape c :
    Forall plain_byte (escape_char c)
    ∨ ∃ x rest, escape_char c = backslash_byte :: x :: rest ∧ Forall plain_byte rest;
  to_vec_inj v w : printable v → printable w → to_vec v = to_vec w → v = w;
}.

Section Facts.
Context `{JsonPrinterLaws}.

Lemma escape_app s t : escape (s ++ t) = escape s ++ escape t.
Proof. apply bind_app. Qed.

Lemma escape_printable s : Forall printable_ascii s → escape s = s.
Proof.
  induction 1 as [|c s Hc _ IH]; [done|]. unfold escape in *. cbn [mbind list_bind].
  by rewrite escape_ascii, IH.
Qed.
End Facts.

(** ** A printer *)

Definition hex_digit (n : N) : N := (if n <? 10 then 48 + n else 87 + n)%N.

Definition compact_escape (c : char) : list N :=
  (if c =? 8 then [92; 98] else if c =? 9 then [92; 116] else if c =? 10 then [92; 110]
   else if c =? 12 then [92; 102] else if c =? 13 then [92; 114]
   else if c =? 34 then [92; 34] else if c =? 92 then [92; 92]
   else if c <? 32 then [92; 117; 48; 48; hex_digit (c / 16); hex_digit (c mod 16)]
   else utf8_char c)%N.

Definition compact_quoted (s : rstr) : list N := 34%N :: (s ≫= compact_escape) ++ [34%N].

Fixpoint compact_value (v : Value) : list N :=
  match v with
  | Null => rs "null"
  | Bool true => rs "true"
  | Bool false => rs "false"
  | Number t => t
  | String s => compact_quoted s
  | Array vs => 91%N :: commas (map compact_value vs) ++ [93%N]
  | Object fs => 123%N :: commas (map (λ f, compact_quoted (fst f) ++ 58%N :: compact_value (snd f)) fs) ++ [125%N]
  end.

#[export] Instance compact : JsonPrinter := {|
  to_vec := compact_value;
  escape_char := compact_escape;
|}.

Definition unhex (b : N) : N := (if b <? 58 then b - 48 else b - 87)%N.

(** One escaped char read back. *)
Definition unescape (l : list N) : option (char * list N) :=
  match l with
  | b :: x :: r =>
      if (b =? 92)%N then
        if (x =? 117)%N then
          match r with
          | _ :: _ :: h :: k :: r => Some (unhex h * 16 + unhex k, r)%N
          | _ => None
          end
        else
          Some ((if x =? 98 then 8 else if x =? 116 then 9 else if x =? 110 then 10
                 else if x =? 102 then 12 else if x =? 114 then 13 else x)%N, r)
      else decode_char l
  | _ => decode_char l
  end.

Lemma utf8_char_head c : (32 <= c)%N → c ≠ 34%N → c ≠ 92%N →
  ∃ b bs, utf8_char c = b :: bs ∧ b ≠ 34%N ∧ b ≠ 92%N.
Proof.
  intros H1 H2 H3. unfold utf8_char.
  repeat case_match; eexists _, _; (split; [reflexivity|]); split; try done;
    match goal with |- context [(c / ?k)%N] => generalize (c / k)%N; lia end.
Qed.

Lemma small_cases (P : N → Prop) n :
  (∀ k, k < n → P (N.of_nat k)) → ∀ c, (c < N.of_nat n)%N → P c.
Proof. intros H c Hc. rewrite <-(N2Nat.id c). apply H. lia. Qed.

Lemma unescape_escape c r : valid_char c → unescape (compact_escape c ++ r) = Some (c, r).
Proof.
  intros Hv. destruct (N.ltb_spec c 32) as [Hc|Hc].
  { clear Hv. revert c Hc. change 32%N with (N.of_nat 32). apply small_cases. intros k Hk.
    do 32 (destruct k as [|k]; [reflexivity|]). lia. }
  destruct (decide (c = 34%N)) as [->|H34]; [reflexivity|].
  destruct (decide (c = 92%N)) as [->|H92]; [reflexivity|].
  assert (compact_escape c = utf8_char c) as ->.
  { unfold compact_escape. repeat (rewrite (proj2 (N.eqb_neq _ _)) by lia).
    by rewrite (proj2 (N.ltb_ge _ _)). }
  rewrite <-(decode_utf8_char c r) by done.
  destruct (utf8_char_head c) as (b & bs & -> & Hb & Hb'); [done..|].
  cbn [app unescape]. destruct (bs ++ r); [done|]. by rewrite (proj2 (N.eqb_neq _ _)).
Qed.

Lemma compact_escape_head c : ∃ b bs, compact_escape c = b :: bs ∧ b ≠ 34%N.
Proof.
  destruct (decide (c < 32)%N) as [H|H].
  { unfold compact_escape. repeat case_match; try (eexists _, _; split; [reflexivity|done]).
    by rewrite N.ltb_ge in *; lia. }
  destruct (decide (c = 34%N)) as [->|H34]; [by eexists _, _|].
  destruct (decide (c = 92%N)) as [->|H92]; [by eexists _, _|].
  destruct (utf8_char_head c) as (b & bs & E & Hb & _); [lia|done..|]. exists b, bs.
  split; [|done]. rewrite <-E. unfold compact_escape.
  repeat (rewrite (proj2 (N.eqb_neq _ _)) by lia). by rewrite (proj2 (N.ltb_ge _ _)) by lia.
Qed.

(** What follows a value does not continue a number. *)
Definition ends (r : list N) : Prop :=
  match r with [] => True | b :: _ => number_char b = false end.

Lemma compact_quoted_inj s t x y : valid_text s → valid_text t →
  compact_quoted s ++ x = compact_quoted t ++ y → s = t ∧ x = y.
Proof.
  unfold compact_quoted. intros Hs Ht. cbn [app]. intros [= H]. rewrite <-!app_assoc in H. revert t Ht H.
  induction Hs as [|c s Hc Hs IH]; intros [|d t] Ht; cbn [mbind list_bind app].
  - intros [= ->]. done.
  - destruct (compact_escape_head d) as (b & bs & -> & Hb). intros [= E _]. by destruct Hb.
  - destruct (compact_escape_head c) as (b & bs & -> & Hb). intros [= E _]. by destruct Hb.
  - apply Forall_cons in Ht as [Hd Ht]. rewrite <-!app_assoc. intros E.
    apply (f_equal unescape) in E. rewrite !unescape_escape in E by done.
    injection E as -> E. by apply IH in E as [-> ->].
Qed.

Lemma number_inj s t x y : number_text s → number_text t → ends x → ends y →
  s ++ x = t ++ y → s = t ∧ x = y.
Proof.
  intros [_ Hs] [_ Ht] Hx Hy. revert t Ht. induction Hs as [|c s Hc Hs IH]; intros [|d t] Ht.
  - done.
  - cbn. intros ->. apply Forall_cons in Ht as [Hd _]. cbn in Hx. congruence.
  - cbn. intros <-. cbn in Hy. congruence.
  - cbn. intros [= -> H]. apply Forall_cons in Ht as [_ Ht]. by apply IH in H as [-> ->].
Qed.

(** The first byte tells the kind of the value. *)
Definition kind_byte (v : Value) (b : N) : Prop :=
  match v with
  | Null => b = 110%N
  | Bool x => b = (if x then 116 else 102)%N
  | Number _ => number_char b = true
  | String _ => b = 34%N
  | Array _ => b = 91%N
  | Object _ => b = 123%N
  end.

Lemma compact_head v : printable v → ∃ b bs, compact_value v = b :: bs ∧ kind_byte v b.
Proof.
  destruct 1 as [|[]|t [Hn Ht]| | |]; try by eexists _, _.
  destruct Ht as [|b bs Hb]; [done|]. by exists b, bs.
Qed.

(** Injectivity of one value in front of any rest. *)
Definition prints_apart (v : Value) : Prop := ∀ w x y,
  printable v → printable w → ends x → ends y →
  compact_value v ++ x = compact_value w ++ y → v = w ∧ x = y.

Section Parts.
Context {A : Type} (part : A → list N) (ok : A → Prop).

(** A list of parts up to its closing bracket. *)
Lemma commas_inj (close : N) (l m : list A) x y :
  number_char close = false → close ≠ 44%N →
  Forall ok l → Forall ok m →
  (∀ a, ok a → ∃ b bs, part a = b :: bs ∧ b ≠ close) →
  Forall (λ a, ∀ b u v, ok b → ends u → ends v → part a ++ u = part b ++ v → a = b ∧ u = v) l →
  commas (map part l) ++ close :: x = commas (map part m) ++ close :: y → l = m ∧ x = y.
Proof.
  intros Hc H44 Hl Hm Hp Hinj. revert m Hm.
  assert (∀ a (m : list A), ∃ u, commas (map part (a :: m)) = part a ++ u
            ∧ (m = [] → u = []) ∧ (m ≠ [] → u = 44%N :: commas (map part m))) as Hs.
  { intros a [|b m]; [exists []|exists (44%N :: commas (map part (b :: m)))]; cbn [map commas];
      rewrite ?app_nil_r; done. }
  induction Hinj as [|a l Ha Hinj IH]; intros m Hm E.
  - destruct m as [|b m]; [cbn in E; by injection E as ->|]. exfalso.
    destruct (Hs b m) as (u & Eu & _). rewrite Eu, <-app_assoc in E.
    apply Forall_cons in Hm as [Hb _]. destruct (Hp b Hb) as (c & cs & Ec & Hne). rewrite Ec in E.
    cbn in E. by injection E as -> _.
  - apply Forall_cons in Hl as [Hoa Hl]. destruct m as [|b m].
    { exfalso. destruct (Hs a l) as (u & Eu & _). rewrite Eu, <-app_assoc in E.
      destruct (Hp a Hoa) as (c & cs & Ec & Hne). rewrite Ec in E. cbn in E. by injection E as -> _. }
    apply Forall_cons in Hm as [Hob Hm]. destruct (Hs a l) as (u & Eu & Hu0 & Hu).
    destruct (Hs b m) as (v & Ev & Hv0 & Hv). rewrite Eu, Ev, <-!app_assoc in E.
    assert (ends (u ++ close :: x) ∧ ends (v ++ close :: y)) as [? ?].
    { split.
      - destruct l; [rewrite Hu0 by done; done|by rewrite Hu by done].
      - destruct m; [rewrite Hv0 by done; done|by rewrite Hv by done]. }
    apply Ha in E as [<- E]; [|done..]. destruct l as [|c l], m as [|d m].
    + rewrite Hu0, Hv0 in E by done. by injection E as ->.
    + rewrite Hu0, Hv in E by done. cbn in E. by injection E as -> _.
    + rewrite Hu, Hv0 in E by done. cbn in E. by injection E as <- _.
    + rewrite Hu, Hv in E by done. 
      assert (commas (map part (c :: l)) ++ close :: x = commas (map part (d :: m)) ++ close :: y) as E'
        by (by injection E).
      by apply IH in E' as [-> ->].
Qed.
End Parts.

Lemma compact_field_head f : ∃ b bs,
  compact_quoted (fst f) ++ 58%N :: compact_value (snd f) = b :: bs ∧ b ≠ 125%N.
Proof. by eexists _, _. Qed.

Lemma compact_array_inj vs ws x y :
  Forall prints_apart vs → Forall printable vs → Forall printable ws →
  compact_value (Array vs) ++ x = compact_value (Array ws) ++ y → vs = ws ∧ x = y.
Proof.
  intros IH Hv Hw. cbn [compact_value app]. intros [= E]. rewrite <-!app_assoc in E. revert E.
  apply (commas_inj compact_value printable); [done..| |].
  - intros v H. destruct (compact_head v H) as (b & bs & E & Hk). exists b, bs. split; [done|].
    intros ->. destruct v as [|[]| | | |]; done.
  - rewrite Forall_forall in IH, Hv |- *. intros v Hin w x' y' Hpw. apply (IH v Hin w); auto.
Qed.

Lemma compact_object_inj fs gs x y :
  Forall (λ f, prints_apart (snd f)) fs →
  Forall (λ f, valid_text (fst f) ∧ printable (snd f)) fs →
  Forall (λ f, valid_text (fst f) ∧ printable (snd f)) gs →
  compact_value (Object fs) ++ x = compact_value (Object gs) ++ y → fs = gs ∧ x = y.
Proof.
  intros IH Hv Hw. cbn [compact_value app]. intros [= E]. rewrite <-!app_assoc in E. revert E.
  apply (commas_inj _ (λ f, valid_text (fst f) ∧ printable (snd f))); [done..| |].
  - intros f _. apply compact_field_head.
  - rewrite Forall_forall in IH, Hv |- *. intros [k v] Hin [l w] x' y' [Hl Hpw] Hx Hy.
    cbn [fst snd] in *.
    intros E.
    assert (compact_quoted k ++ 58%N :: compact_value v ++ x'
            = compact_quoted l ++ 58%N :: compact_value w ++ y') as E'.
    { unfold compact_quoted. cbn [app] in E |- *. rewrite <-?app_assoc in E. rewrite <-?app_assoc.
      cbn [app] in E |- *. rewrite <-?app_assoc in E. exact E. }
    clear E.
    specialize (IH _ Hin). destruct (Hv _ Hin) as [Hk Hpv]. cbn [fst snd] in *.
    apply compact_quoted_inj in E' as [-> E]; [|done..]. injection E as E.
    by apply IH in E as [-> ->].
Qed.

Lemma compact_same_kind v w x y : printable v → printable w →
  compact_value v ++ x = compact_value w ++ y → ∃ b, kind_byte v b ∧ kind_byte w b.
Proof.
  intros (b & r & -> & K)%compact_head (b' & r' & -> & K')%compact_head. intros [= -> _]. eauto.
Qed.

Lemma compact_prints_apart v : prints_apart v.
Proof.
  induction v as [|b|t|s|vs IH|fs IH] using value_nested_ind; intros w x y Hv Hw Hx Hy E.
  all: destruct (compact_same_kind _ _ _ _ Hv Hw E) as (b1 & K1 & K2).
  all: destruct w as [|b'|t'|s'|ws|gs]; cbn [kind_byte] in K1, K2; subst;
    try done; try (destruct b; done); try (destruct b'; done).
  - by apply app_inv_head in E.
  - destruct b, b'; try done; by apply app_inv_head in E.
  - inversion Hv; inversion Hw; subst. by apply (number_inj t t') in E as [-> ->].
  - inversion Hv; inversion Hw; subst. by apply compact_quoted_inj in E as [-> ->].
  - inversion Hv; inversion Hw; subst. by apply compact_array_inj in E as [-> ->].
  - inversion Hv; inversion Hw; subst. by apply compact_object_inj in E as [-> ->].
Qed.

Lemma utf8_char_plain c : (32 <= c)%N → c ≠ 34%N → c ≠ 92%N → Forall plain_byte (utf8_char c).
Proof.
  intros H1 H2 H3. unfold utf8_char, plain_byte, quote_byte, backslash_byte.
  repeat case_match; repeat constructor; try done;
    match goal with |- context [(?k + ?n)%N] => generalize n; lia end.
Qed.

Definition is_plain_byte (b : N) : bool := negb (b =? quote_byte)%N && negb (b =? backslash_byte)%N.

Definition is_escaped (l : list N) : bool :=
  match l with b :: _ :: rest => (b =? backslash_byte)%N && forallb is_plain_byte rest | _ => false end.

Lemma is_escaped_shape l : is_escaped l = true →
  ∃ x rest, l = backslash_byte :: x :: rest ∧ Forall plain_byte rest.
Proof.
  destruct l as [|b [|x rest]]; [done..|]. cbn. intros [Hb Hr]%andb_true_iff.
  apply N.eqb_eq in Hb as ->. exists x, rest. split; [done|]. apply Forall_forall. intros y Hy.
  apply (proj1 (forallb_true _ _) Hr) in Hy. unfold is_plain_byte in Hy.
  by apply andb_true_iff in Hy as [H1%negb_true_iff%N.eqb_neq H2%negb_true_iff%N.eqb_neq].
Qed.

Lemma compact_escape_escaped c : (c < 32 ∨ c = 34 ∨ c = 92)%N → is_escaped (compact_escape c) = true.
Proof.
  intros [H|[-> | ->]]; [|reflexivity..]. revert c H. change 32%N with (N.of_nat 32).
  apply small_cases. intros k Hk. do 32 (destruct k as [|k]; [reflexivity|]). lia.
Qed.

#[export] Instance compact_laws : JsonPrinterLaws.
Proof.
  split.
  - reflexivity.
  - reflexivity.
  - intros c (Hc & H34 & H92). cbn. unfold quote_byte, backslash_byte in *. unfold compact_escape.
    repeat (rewrite (proj2 (N.eqb_neq _ _)) by lia). rewrite (proj2 (N.ltb_ge _ _)) by lia.
    unfold utf8_char. by rewrite (proj2 (N.ltb_lt _ _)) by lia.
  - intros c. cbn. destruct (decide (c < 32 ∨ c = 34 ∨ c = 92)%N) as [H|H].
    + right. apply is_escaped_shape. by apply compact_escape_escaped.
    + left. assert (compact_escape c = utf8_char c) as ->; [|apply utf8_char_plain; lia].
      unfold compact_escape. repeat (rewrite (proj2 (N.eqb_neq _ _)) by lia).
      by rewrite (proj2 (N.ltb_ge _ _)) by lia.
  - intros v w Hv Hw E. cbn in E.
    apply (compact_prints_apart v w [] []); try done. by rewrite !app_nil_r.
Qed.
