(* ===== verification/Tokio.v ===== *)
(** * Waiting for a notification

    [tokio::sync::Notify] as the program uses it: a task makes a [Notified] future,
    enables it, looks at the shared state, and awaits the future when there is
    nothing to do.  [notify_one] wakes the waiting task or leaves a permit behind,
    [notify_waiters] wakes the tasks that wait.

    After that: counting permits. *)

From S2P Require Import Prelude.

(** What became of the future of one task. *)
Inductive Waiter :=
| Absent      (* no future, or it has completed *)
| Enabled     (* enabled, not notified; the task looks at the state *)
| Notified    (* enabled and notified; awaiting it returns at once *)
| Sleeping.   (* awaited, not notified *)

#[export] Instance waiter_eq_dec : EqDecision Waiter.
Proof. solve_decision. Defined.

(** What the program calls, with the permit a [Notify] holds. *)
Class Notify := {
  enable : bool → Waiter * bool;
  await : Waiter → Waiter;
  notify_one : Waiter → bool → Waiter * bool;
  notify_waiters : Waiter → Waiter;
}.

(** Its documentation: enabling takes the permit that was left; awaiting a notified
    future completes it; both notifications wake the task, and [notify_one] stores a
    permit when no task waits. *)
Class NotifyLaws `{Notify} := {
  enable_law permit : enable permit = (if permit then Notified else Enabled, false);
  await_enabled : await Enabled = Sleeping;
  await_notified : await Notified = Absent;
  notify_one_enabled permit : fst (notify_one Enabled permit) = Notified;
  notify_one_sleeping permit : fst (notify_one Sleeping permit) = Absent;
  notify_one_nobody permit : notify_one Absent permit = (Absent, true);
  notify_one_notified permit : fst (notify_one Notified permit) = Notified;
  notify_waiters_enabled : notify_waiters Enabled = Notified;
  notify_waiters_sleeping : notify_waiters Sleeping = Absent;
  notify_waiters_absent : notify_waiters Absent = Absent;
  notify_waiters_notified : notify_waiters Notified = Notified;
}.

(** An instance. *)
#[export] Instance one_waiter : Notify := {|
  enable permit := (if permit then Notified else Enabled, false);
  await w := match w with Enabled => Sleeping | _ => Absent end;
  notify_one w permit :=
    match w with
    | Enabled => (Notified, permit)
    | Sleeping => (Absent, permit)
    | Notified | Absent => (w, true)
    end;
  notify_waiters w := match w with Enabled => Notified | Sleeping => Absent | _ => w end;
|}.

#[export] Instance one_waiter_laws : NotifyLaws.
Proof. by split; intros; try destruct permit. Qed.

(** The signals that are on their way: a critical section adds those it sends once
    it has released the lock. *)
Section Signals.
Context {Signal : Type}.

Definition sleeps_safely (w : Waiter) (work : Prop) (s : Signal) (pending : list Signal) : Prop :=
  w = Sleeping → work → s ∈ pending.

Lemma sleeps_safely_signalled w (work work' : Prop) s pending sent :
  sleeps_safely w work s pending → (work' → work ∨ s ∈ sent) → sleeps_safely w work' s (pending ++ sent).
Proof. intros H Hw E [W|W]%Hw; apply elem_of_app; [left; auto|by right]. Qed.

Lemma sleeps_safely_same w (work work' : Prop) s pending :
  sleeps_safely w work s pending → (work' → work) → sleeps_safely w work' s pending.
Proof. intros H Hw E W. auto. Qed.

Lemma sleeps_safely_awake w (work : Prop) s pending : w ≠ Sleeping → sleeps_safely w work s pending.
Proof. intros H E. done. Qed.

(** A signal that is not the one waited for leaves the others on their way. *)
Lemma sleeps_safely_other w work (s s' : Signal) p q :
  s ≠ s' → sleeps_safely w work s (p ++ s' :: q) → sleeps_safely w work s (p ++ q).
Proof. intros Hne H E W. specialize (H E W). set_solver. Qed.

Lemma sleeps_safely_idle w (work : Prop) s pending : ¬ work → sleeps_safely w work s pending.
Proof. intros H _ W. done. Qed.
End Signals.

Section Awake.
Context `{NotifyLaws}.

Lemma notify_one_awake w permit : fst (notify_one w permit) ≠ Sleeping.
Proof.
  destruct w; rewrite ?notify_one_nobody, ?notify_one_enabled, ?notify_one_notified, ?notify_one_sleeping; done.
Qed.

Lemma notify_waiters_awake w : notify_waiters w ≠ Sleeping.
Proof.
  destruct w;
    rewrite ?notify_waiters_absent, ?notify_waiters_enabled, ?notify_waiters_notified, ?notify_waiters_sleeping; done.
Qed.

Lemma enable_awake permit : fst (enable permit) ≠ Sleeping.
Proof. rewrite enable_law. by destruct permit. Qed.
End Awake.

#[export] Hint Resolve notify_one_awake notify_waiters_awake enable_awake : captain.

(** * Counting permits

    [tokio::sync::Semaphore] as the program uses it, by its documentation: owned
    permits are taken without waiting, return when they are dropped, and none is
    given once the semaphore is closed. *)

Class Semaphore := {
  Sem : Type;
  new_semaphore : N → Sem;
  available_permits : Sem → N;
  is_closed : Sem → bool;
  try_acquire_many : N → Sem → option Sem;
  drop_permits : N → Sem → Sem;
  close_semaphore : Sem → Sem;
}.

Class SemaphoreLaws `{Semaphore} := {
  new_available n : available_permits (new_semaphore n) = n;
  new_open n : is_closed (new_semaphore n) = false;
  acquire_some n s s' : try_acquire_many n s = Some s' →
    is_closed s = false ∧ is_closed s' = false ∧ available_permits s = (n + available_permits s')%N;
  acquire_none n s : try_acquire_many n s = None → is_closed s = true ∨ (available_permits s < n)%N;
  drop_available n s : available_permits (drop_permits n s) = (n + available_permits s)%N;
  drop_closed n s : is_closed (drop_permits n s) = is_closed s;
  close_available s : available_permits (close_semaphore s) = available_permits s;
  close_closed s : is_closed (close_semaphore s) = true;
}.

(** An instance: the count and whether it is closed. *)
#[export] Instance counter : Semaphore := {|
  Sem := N * bool;
  new_semaphore n := (n, false);
  available_permits := fst;
  is_closed := snd;
  try_acquire_many n s := if negb (snd s) && (n <=? fst s)%N then Some ((fst s - n)%N, false) else None;
  drop_permits n s := ((n + fst s)%N, snd s);
  close_semaphore s := (fst s, true);
|}.

#[export] Instance counter_laws : SemaphoreLaws.
Proof.
  split; try done; intros n [k c]; cbn; destruct c, (N.leb_spec n k); cbn; try done; auto.
  intros s' [= <-]. cbn. split_and!; [done..|lia].
Qed.
