(* ===== verification/Outbound.v ===== *)
(** * The outbound queue

    [core-server/src/transport/outbound.rs]: the byte-accounted FIFO between the
    producers of responses and notifications and the writer of the connection.
    [JsonPrinter] is the printer of [serde_json], and [Allocator] what the standard
    allocator reports of the capacity of a vector; measurements of time are left out.
    Each operation is the critical section of the source and the notifications it
    sends after it has released the mutex. *)

From S2P Require Import Prelude RustText Json JsonPrinter.

(** [Vec::with_capacity(n)]: the capacity that [capacity()] reports. *)
Class Allocator := { with_capacity : N → N }.
Class AllocatorLaws `{Allocator} : Prop := { with_capacity_le n : (n <= with_capacity n)%N }.

Definition len {A} (l : list A) : N := N.of_nat (length l).

Definition saturating_mul (a b : N) : N := N.min (a * b) u64_max.

(** ** Limits and state *)

Record OutboundLimits := mkLimits {
  limit_data_bytes : N;
  limit_control_bytes : N;
  limit_frames : N;
  limit_control_frames : N;
  limit_merge_bytes : N;
}.

Definition DATA_BYTES : N := 8 * 1024 * 1024.
Definition CONTROL_RESERVE_BYTES : N := 1024 * 1024.
Definition MAX_FRAMES : N := 8192.
Definition CONTROL_RESERVE_FRAMES : N := 64.
Definition MAX_MERGED_BYTES : N := 64 * 1024.

Definition default_limits : OutboundLimits :=
  mkLimits DATA_BYTES CONTROL_RESERVE_BYTES MAX_FRAMES CONTROL_RESERVE_FRAMES MAX_MERGED_BYTES.

Record OutboundStats := mkStats {
  peak_bytes : N;
  peak_wire_bytes : N;
  peak_oversize_bytes : N;
  peak_frames : N;
  merged_events : N;
  accepted_events : N;
  serialized_bytes : N;
}.

Record FailureSnapshot := mkSnapshot {
  snapshot_category : rstr;
  snapshot_frame_bytes : N;
  snapshot_queue_bytes : N;
  snapshot_data_bytes : N;
  snapshot_frames : N;
  snapshot_data_frames : N;
  frame_limit : bool;
  data_frame_limit : bool;
  byte_limit : bool;
  data_byte_limit : bool;
  oversize_busy : bool;
}.

(** [oversize] tells whether the frame holds the lease of the oversized frame. *)
Record OutboundFrame := mkFrame {
  wire : list N;
  capacity : N;
  delta : option (nat * nat);
  data : bool;
  oversize : bool;
  category : rstr;
}.

Record State := mkState {
  queue : list OutboundFrame;
  bytes : N;
  wire_bytes : N;
  data_bytes : N;
  data_frames : N;
  senders : N;
  closed : bool;
  failed : bool;
  overloaded : bool;
  oversize_in_use : bool;
  stats : OutboundStats;
  failure_snapshot : option FailureSnapshot;
}.

Definition outbound_channel : State :=
  mkState [] 0 0 0 0 1 false false false false (mkStats 0 0 0 0 0 0 0) None.

Definition set_closed (st : State) : State :=
  mkState (queue st) (bytes st) (wire_bytes st) (data_bytes st) (data_frames st) (senders st)
    true (failed st) (overloaded st) (oversize_in_use st) (stats st) (failure_snapshot st).
Definition set_failed (b : bool) (st : State) : State :=
  mkState (queue st) (bytes st) (wire_bytes st) (data_bytes st) (data_frames st) (senders st)
    (closed st) b (overloaded st) (oversize_in_use st) (stats st) (failure_snapshot st).
Definition set_senders (n : N) (st : State) : State :=
  mkState (queue st) (bytes st) (wire_bytes st) (data_bytes st) (data_frames st) n
    (closed st) (failed st) (overloaded st) (oversize_in_use st) (stats st) (failure_snapshot st).
Definition set_oversize (b : bool) (st : State) : State :=
  mkState (queue st) (bytes st) (wire_bytes st) (data_bytes st) (data_frames st) (senders st)
    (closed st) (failed st) (overloaded st) b (stats st) (failure_snapshot st).
Definition set_stats (s : OutboundStats) (st : State) : State :=
  mkState (queue st) (bytes st) (wire_bytes st) (data_bytes st) (data_frames st) (senders st)
    (closed st) (failed st) (overloaded st) (oversize_in_use st) s (failure_snapshot st).
Definition set_queue (q : list OutboundFrame) (st : State) : State :=
  mkState q (bytes st) (wire_bytes st) (data_bytes st) (data_frames st) (senders st)
    (closed st) (failed st) (overloaded st) (oversize_in_use st) (stats st) (failure_snapshot st).

(** [ready.notify_one()] and [failure.notify_waiters()]. *)
Inductive Signal := NotifyReady | NotifyFailure.

(** ** What a value is *)

(** [value.get(key).and_then(Value::as_str)] *)
Definition get_str (key : string) (value : Value) : option rstr :=
  v ← value_get (rs key) value; as_str v.
Arguments get_str key%_string_scope value.

Definition has_text (o : option rstr) (texts : list string) : bool :=
  is_some_and o (λ s, one_of s texts).

Definition is_body_delta (value : Value) : bool :=
  let method := get_str "method" value in
  let event :=
    if has_text method ["agent.event"] then value_get (rs "params") value
    else if has_text method ["agent.collaboration.observerEvent"; "agent.collaboration.childEvent"]
    then params ← value_get (rs "params") value; value_get (rs "event") params
    else None in
  has_text (event ← event; get_str "type" event)
    ["message_delta"; "command_output"; "tool_input_progress"].

Definition diagnostic_category (value : Value) (data : bool) : rstr :=
  match get_str "method" value with
  | Some method =>
      if is_str method "agent.event" then (if data then rs "agent.delta" else rs "agent.event")
      else if is_str method "agent.collaboration.observerEvent"
      then (if data then rs "observer.delta" else rs "observer.event")
      else if is_str method "agent.collaboration.childEvent"
      then (if data then rs "child.delta" else rs "child.event")
      else if is_str method "agent.workflows.runtime.changed" then rs "workflow.runtime"
      else rs "other"
  | None =>
      if bool_decide (is_Some (value_get (rs "id") value)) then rs "rpc.response" else rs "other"
  end.

(** [value.as_object()?.keys().any(|key| !matches!(key, ..))] *)
Definition has_other_key (value : Value) (keys : list string) : option bool :=
  fields ← as_object value; Some (existsb (λ f, negb (one_of (fst f) keys)) fields).

(** The loop from [start] to the quote that ends the string. *)
Fixpoint closing_quote (l : list N) : option nat :=
  match l with
  | [] => None
  | b :: l' =>
      if (b =? backslash_byte)%N
      then match l' with [] => None | _ :: l'' => (λ n, S (S n)) <$> closing_quote l'' end
      else if (b =? quote_byte)%N then Some 0
      else S <$> closing_quote l'
  end.

Definition delta_marker : list N := quote_byte :: rs "delta" ++ [quote_byte; 58; quote_byte]%N.

(** [if condition { return None }] *)
Definition none_if (condition : bool) : option () := if condition then None else Some ().

Definition ordinary_delta_range (value : Value) (wire : list N) : option (nat * nat) :=
  others ← has_other_key value ["jsonrpc"; "method"; "params"];
  _ ← none_if others;
  jsonrpc ← get_str "jsonrpc" value;
  _ ← none_if (negb (is_str jsonrpc "2.0"));
  method ← get_str "method" value;
  _ ← none_if (negb (is_str method "agent.event"));
  params ← value_get (rs "params") value;
  type ← get_str "type" params;
  _ ← none_if (negb (is_str type "message_delta"));
  run_id ← value_get (rs "runId") params;
  _ ← none_if (negb (bool_decide (is_Some (as_str run_id))));
  _ ← get_str "delta" params;
  others ← has_other_key params ["type"; "runId"; "streamId"; "delta"];
  _ ← none_if others;
  position ← find_bytes delta_marker wire;
  let start := position + length delta_marker in
  n ← closing_quote (drop start wire);
  Some (start, start + n).

(** ** Merging *)

Section Merge.
Context `{Allocator}.

(** [copy_within(from..to, dest)] and [l[at_..at_ + src.len()].copy_from_slice(src)]. *)
Definition copy_within (from to dest : nat) (l : list N) : list N :=
  take dest l ++ take (to - from) (drop from l) ++ drop (dest + (to - from)) l.
Definition copy_from_slice (at_ : nat) (src l : list N) : list N :=
  take at_ l ++ src ++ drop (at_ + length src) l.

(** [try_merge]: the frame with the bytes of both, the bytes it grew by and the
    capacity it grew by. *)
Definition try_merge (left right : OutboundFrame) (max_bytes spare : N)
    : option (OutboundFrame * N * N) :=
  '(left_start, left_end) ← delta left;
  '(right_start, right_end) ← delta right;
  _ ← none_if (negb (str_eqb (take left_start (wire left)) (take right_start (wire right)))
               || negb (str_eqb (drop left_end (wire left)) (drop right_end (wire right))));
  let added := right_end - right_start in
  let body := take added (drop right_start (wire right)) in
  let old_len := length (wire left) in
  let old_capacity := capacity left in
  let new_len := old_len + added in
  _ ← none_if ((max_bytes <? N.of_nat new_len)%N || (old_capacity + spare <? N.of_nat new_len)%N);
  let merged w c := mkFrame w c (Some (left_start, left_end + added))
                      (data left) (oversize left) (category left) in
  if (old_capacity <? N.of_nat new_len)%N then
    let want := N.min (N.min (N.max (saturating_mul old_capacity 2) (N.of_nat new_len)) max_bytes)
                  (old_capacity + spare) in
    let grown := with_capacity want in
    _ ← none_if (old_capacity + spare <? grown)%N;
    Some (merged (take left_end (wire left) ++ body ++ drop left_end (wire left)) grown,
          N.of_nat added, (grown - old_capacity)%N)
  else
    let resized := wire left ++ replicate added 0%N in
    Some (merged (copy_from_slice left_end body (copy_within left_end old_len (left_end + added) resized))
            old_capacity, N.of_nat added, 0%N).
End Merge.

(** ** Sending *)

Section Send.
Context `{JsonPrinter} `{Allocator}.
Variable limits : OutboundLimits.

(** The frame of a value: its line, in a vector without spare capacity. *)
Definition frame_of (value : Value) : OutboundFrame :=
  let wire := to_vec value ++ [10%N] in
  let data := is_body_delta value in
  mkFrame wire (len wire) (ordinary_delta_range value wire) data false
    (diagnostic_category value data).

Definition total_bytes : N := limit_data_bytes limits + limit_control_bytes limits.
Definition data_frame_bound : N := limit_frames limits - limit_control_frames limits.

(** What a merge may still allocate. *)
Definition spare_of (st : State) : N :=
  N.min (total_bytes - bytes st) (limit_data_bytes limits - data_bytes st).

Definition count_serialized (size : N) (s : OutboundStats) : OutboundStats :=
  mkStats (peak_bytes s) (peak_wire_bytes s) (peak_oversize_bytes s) (peak_frames s)
    (merged_events s) (accepted_events s) (serialized_bytes s + size).

(** The state after the last frame of the queue took in the bytes of the new one. *)
Definition merge_into (st : State) (front : list OutboundFrame) (merged : OutboundFrame)
    (wire_added capacity_added : N) : State :=
  let bytes' := (bytes st + capacity_added)%N in
  let wire' := (wire_bytes st + wire_added)%N in
  let s := stats st in
  mkState (front ++ [merged]) bytes' wire' (data_bytes st + capacity_added) (data_frames st)
    (senders st) (closed st) (failed st) (overloaded st) (oversize_in_use st)
    (mkStats (N.max (peak_bytes s) bytes') (N.max (peak_wire_bytes s) wire') (peak_oversize_bytes s)
       (peak_frames s) (merged_events s + 1) (accepted_events s + 1) (serialized_bytes s))
    (failure_snapshot st).

Definition try_merge_back (st : State) (frame : OutboundFrame) : option State :=
  previous ← last (queue st);
  '(merged, wire_added, capacity_added) ← try_merge previous frame (limit_merge_bytes limits) (spare_of st);
  Some (merge_into st (removelast (queue st)) merged wire_added capacity_added).

Definition is_oversized (frame : OutboundFrame) : bool :=
  negb (data frame) && (total_bytes <? len (wire frame))%N.

Definition charge_of (frame : OutboundFrame) : N :=
  if is_oversized frame then 0 else capacity frame.

Definition fits (st : State) (frame : OutboundFrame) : bool :=
  let charge := charge_of frame in
  (len (queue st) <? limit_frames limits)%N
  && (negb (data frame) || (data_frames st <? data_frame_bound)%N)
  && (bytes st + charge <=? total_bytes)%N
  && (negb (data frame) || (data_bytes st + charge <=? limit_data_bytes limits)%N)
  && (negb (is_oversized frame) || negb (oversize_in_use st)).

Definition fail_overloaded (st : State) (frame : OutboundFrame) : State :=
  let charge := charge_of frame in
  mkState (queue st) (bytes st) (wire_bytes st) (data_bytes st) (data_frames st) (senders st)
    true true true (oversize_in_use st) (stats st)
    (Some (mkSnapshot (category frame) (len (wire frame)) (bytes st) (data_bytes st) (len (queue st))
       (data_frames st) (limit_frames limits <=? len (queue st))%N
       (data frame && (data_frame_bound <=? data_frames st)%N)
       (total_bytes <? bytes st + charge)%N
       (data frame && (limit_data_bytes limits <? data_bytes st + charge)%N)
       (is_oversized frame && oversize_in_use st))).

Definition push_frame (st : State) (frame : OutboundFrame) : State :=
  let oversized := is_oversized frame in
  let charge := charge_of frame in
  let size := len (wire frame) in
  let frame' := mkFrame (wire frame) (capacity frame) (delta frame) (data frame) oversized (category frame) in
  let bytes' := (bytes st + charge)%N in
  let wire' := (wire_bytes st + (if oversized then 0 else size))%N in
  let queue' := queue st ++ [frame'] in
  let s := stats st in
  mkState queue' bytes' wire'
    (if data frame then data_bytes st + charge else data_bytes st)%N
    (if data frame then data_frames st + 1 else data_frames st)%N
    (senders st) (closed st) (failed st) (overloaded st)
    (if oversized then true else oversize_in_use st)
    (mkStats (N.max (peak_bytes s) bytes') (N.max (peak_wire_bytes s) wire')
       (if oversized then N.max (peak_oversize_bytes s) size else peak_oversize_bytes s)
       (N.max (peak_frames s) (len queue')) (merged_events s) (accepted_events s + 1)
       (serialized_bytes s))
    (failure_snapshot st).

(** [send]: whether the value was accepted, the state, and what is notified.  The
    first look at [closed], before the value is serialized, can only anticipate the
    one under the lock: a channel that is closed stays closed. *)
Definition send (st : State) (value : Value) : bool * State * list Signal :=
  if closed st then (false, st, [])
  else
    let frame := frame_of value in
    let st := set_stats (count_serialized (len (wire frame)) (stats st)) st in
    match try_merge_back st frame with
    | Some st => (true, st, [NotifyReady])
    | None =>
        if fits st frame then (true, push_frame st frame, [NotifyReady])
        else (false, fail_overloaded st frame, [NotifyReady; NotifyFailure])
    end.
End Send.

(** ** Senders, control and receiver *)

Definition clone_sender (st : State) : State := set_senders (senders st + 1) st.

Definition drop_sender (st : State) : State * list Signal :=
  let st := set_senders (senders st - 1) st in
  (if (senders st =? 0)%N then set_closed st else st, [NotifyReady]).

(** [report_failure] takes the snapshot that is logged. *)
Definition report_failure (st : State) : option FailureSnapshot * State :=
  (failure_snapshot st,
   mkState (queue st) (bytes st) (wire_bytes st) (data_bytes st) (data_frames st) (senders st)
     (closed st) (failed st) (overloaded st) (oversize_in_use st) (stats st) None).

(** [OutboundControl::close] and [OutboundReceiver::close]. *)
Definition close (st : State) : State * list Signal := (set_closed st, [NotifyReady]).

Definition writer_failed (st : State) : State * list Signal :=
  (set_closed (set_failed true st), [NotifyFailure; NotifyReady]).

Inductive TryRecvError := Empty | Disconnected.

(** [try_recv_frame]; [None] is [usize::MAX], which no length exceeds. *)
Definition try_recv_frame (st : State) (max_bytes : option N)
    : result TryRecvError OutboundFrame * State :=
  match queue st with
  | [] => (Err (if closed st then Disconnected else Empty), st)
  | frame :: rest =>
      if is_some_and max_bytes (λ max, max <? len (wire frame))%N then (Err Empty, st)
      else
        let charge := if oversize frame then 0%N else capacity frame in
        (Ok frame,
         mkState rest (bytes st - charge)
           (wire_bytes st - (if oversize frame then 0 else len (wire frame)))
           (if data frame then data_bytes st - charge else data_bytes st)
           (if data frame then data_frames st - 1 else data_frames st)
           (senders st) (closed st) (failed st) (overloaded st) (oversize_in_use st) (stats st)
           (failure_snapshot st))
  end.

(** [impl Drop for OutboundFrame]. *)
Definition drop_frame (st : State) (frame : OutboundFrame) : State :=
  if oversize frame then set_oversize false st else st.

(** [impl Drop for OutboundReceiver]: the frames are dropped after the lock. *)
Definition drop_receiver (st : State) : State * list Signal :=
  let st := if closed st then st else set_failed true st in
  let frames := queue st in
  (foldl drop_frame (set_queue [] (set_closed st)) frames, [NotifyFailure; NotifyReady]).

(** A literal between quotes. *)
Definition quoted_key (text : string) : list N := quote_byte :: rs text ++ [quote_byte].
Arguments quoted_key text%_string_scope.

Definition overload_frame : list N :=
  rs "{" ++ quoted_key "jsonrpc" ++ rs ":" ++ quoted_key "2.0" ++ rs "," ++ quoted_key "id"
    ++ rs ":null," ++ quoted_key "error" ++ rs ":{" ++ quoted_key "code" ++ rs ":-32002,"
    ++ quoted_key "message" ++ rs ":"
    ++ quoted_key "Outbound queue capacity exceeded; this connection is closing" ++ rs ","
    ++ quoted_key "data" ++ rs ":{" ++ quoted_key "code" ++ rs ":" ++ quoted_key "outbound_overloaded"
    ++ rs "," ++ quoted_key "retryable" ++ rs ":true}}}" ++ [10%N].
