(* ===== verification/OutboundChannel.v ===== *)
(** * The outbound queue at work

    The queue as a transition system: producers, the control handles, the receiver
    and the frames it still holds take turns at the lock; what a critical section
    notifies is delivered later.  [accepted] and [received] record the history. *)

From S2P Require Import Prelude RustText Json JsonPrinter Tokio Outbound.

Record Channel := mkChannel {
  state : State;
  receiver_alive : bool;
  held : list OutboundFrame;
  to_notify : list Signal;
  (* the task in [recv_frame], the permit of [ready], and a task in [failed] *)
  receiver : Waiter;
  ready_permit : bool;
  monitor : Waiter;
  accepted : list Value;
  received : list OutboundFrame;
}.

Definition init : Channel := mkChannel outbound_channel true [] [] Absent false Absent [] [].

(** A critical section of a producer or a control handle. *)
Definition with_state (c : Channel) (st : State) (signals : list Signal) : Channel :=
  mkChannel st (receiver_alive c) (held c) (to_notify c ++ signals) (receiver c) (ready_permit c)
    (monitor c) (accepted c) (received c).

Definition accept (value : Value) (c : Channel) : Channel :=
  mkChannel (state c) (receiver_alive c) (held c) (to_notify c) (receiver c) (ready_permit c)
    (monitor c) (accepted c ++ [value]) (received c).

(** One look at the queue by the receiver. *)
Definition take_frame (c : Channel) (frame : OutboundFrame) (st : State) : Channel :=
  mkChannel st (receiver_alive c) (held c ++ [frame]) (to_notify c) (receiver c) (ready_permit c)
    (monitor c) (accepted c) (received c ++ [frame]).

Definition set_receiver (w : Waiter) (permit : bool) (c : Channel) : Channel :=
  mkChannel (state c) (receiver_alive c) (held c) (to_notify c) w permit (monitor c) (accepted c) (received c).
Definition set_monitor (w : Waiter) (c : Channel) : Channel :=
  mkChannel (state c) (receiver_alive c) (held c) (to_notify c) (receiver c) (ready_permit c) w
    (accepted c) (received c).
Definition set_held (frames : list OutboundFrame) (c : Channel) : Channel :=
  mkChannel (state c) (receiver_alive c) frames (to_notify c) (receiver c) (ready_permit c) (monitor c)
    (accepted c) (received c).
Definition receiver_gone (c : Channel) : Channel :=
  mkChannel (state c) false (held c) (to_notify c) (receiver c) (ready_permit c) (monitor c)
    (accepted c) (received c).
Definition set_to_notify (signals : list Signal) (c : Channel) : Channel :=
  mkChannel (state c) (receiver_alive c) (held c) signals (receiver c) (ready_permit c) (monitor c)
    (accepted c) (received c).

(** A notification arrives. *)
Definition deliver `{Notify} (s : Signal) (c : Channel) : Channel :=
  match s with
  | NotifyReady => let '(w, permit) := notify_one (receiver c) (ready_permit c) in set_receiver w permit c
  | NotifyFailure => set_monitor (notify_waiters (monitor c)) c
  end.

Section Steps.
Context `{JsonPrinter} `{Allocator} `{Notify}.
Variable limits : OutboundLimits.

(** [send], with the history. *)
Definition send_on (c : Channel) (value : Value) : Channel :=
  let '(ok, st, signals) := send limits (state c) value in
  let c := with_state c st signals in
  if ok then accept value c else c.

Inductive step : Channel → Channel → Prop :=
| step_send c value :
    (0 < senders (state c))%N → printable value → step c (send_on c value)
| step_clone c : (0 < senders (state c))%N → step c (with_state c (clone_sender (state c)) [])
| step_drop_sender c st signals :
    (0 < senders (state c))%N → drop_sender (state c) = (st, signals) → step c (with_state c st signals)
| step_close c st signals : close (state c) = (st, signals) → step c (with_state c st signals)
| step_writer_failed c st signals :
    writer_failed (state c) = (st, signals) → step c (with_state c st signals)
| step_report c : step c (with_state c (snd (report_failure (state c))) [])
(* [try_recv_frame] by itself *)
| step_try_recv c max frame st :
    receiver_alive c = true → try_recv_frame (state c) max = (Ok frame, st) →
    step c (take_frame c frame st)
(* [recv_frame]: the future is enabled, then the queue is looked at *)
| step_recv_enable c w permit :
    receiver_alive c = true → receiver c = Absent → enable (ready_permit c) = (w, permit) →
    step c (set_receiver w permit c)
| step_recv_ok c frame st permit :
    receiver_alive c = true → receiver c = Enabled ∨ receiver c = Notified →
    try_recv_frame (state c) None = (Ok frame, st) →
    step c (set_receiver Absent permit (take_frame c frame st))
| step_recv_disconnected c st permit :
    receiver_alive c = true → receiver c = Enabled ∨ receiver c = Notified →
    try_recv_frame (state c) None = (Err Disconnected, st) →
    step c (set_receiver Absent permit c)
| step_recv_empty c st :
    receiver_alive c = true → receiver c = Enabled ∨ receiver c = Notified →
    try_recv_frame (state c) None = (Err Empty, st) →
    step c (set_receiver (await (receiver c)) (ready_permit c) c)
(* the [select!] of the writer drops the future; a notification may be lost or kept *)
| step_recv_cancel c permit : step c (set_receiver Absent permit c)
| step_drop_frame c front frame rest :
    held c = front ++ frame :: rest →
    step c (set_held (front ++ rest) (with_state c (drop_frame (state c) frame) []))
| step_drop_receiver c st signals :
    receiver_alive c = true → receiver c = Absent → drop_receiver (state c) = (st, signals) →
    step c (receiver_gone (with_state c st signals))
(* [failed] *)
| step_monitor_enable c : monitor c = Absent → step c (set_monitor Enabled c)
| step_monitor_failed c :
    monitor c = Enabled ∨ monitor c = Notified → failed (state c) = true → step c (set_monitor Absent c)
| step_monitor_wait c :
    monitor c = Enabled ∨ monitor c = Notified → failed (state c) = false →
    step c (set_monitor (await (monitor c)) c)
| step_deliver c front s rest :
    to_notify c = front ++ s :: rest → step c (deliver s (set_to_notify (front ++ rest) c)).

Definition steps : relation Channel := rtc step.
Definition reachable (c : Channel) : Prop := steps init c.
End Steps.
