(* ===== verification/OutboundInvariant.v ===== *)
(** * Merging is concatenation of deltas

    The frames that may be merged are the message deltas of one run and stream, and
    the bytes of the merged frame are what the printer makes of one delta event with
    the texts of both.

    After that: the invariant of the outbound queue. *)

From stdpp Require Import sorting.
From S2P Require Import Prelude RustText Json JsonPrinter Outbound Tokio OutboundChannel.

(** ** Delta events *)

Definition event_params (run_id : rstr) (stream : option Value) (text : rstr) : list (rstr * Value) :=
  [(rs "delta", String text); (rs "runId", String run_id)]
    ++ (if stream is Some s then [(rs "streamId", s)] else [])
    ++ [(rs "type", String (rs "message_delta"))].

Definition delta_event (run_id : rstr) (stream : option Value) (text : rstr) : Value :=
  Object [(rs "jsonrpc", String (rs "2.0")); (rs "method", String (rs "agent.event"));
    (rs "params", Object (event_params run_id stream text))].

(** ** What the checks say *)

Lemma none_if_Some b u : none_if b = Some u ↔ b = false.
Proof. destruct b, u; simpl; naive_solver. Qed.

Lemma one_of_true s texts : one_of s texts = true ↔ s ∈ rs <$> texts.
Proof.
  unfold one_of. rewrite existsb_true, list_elem_of_fmap. unfold is_str. setoid_rewrite str_eqb_eq.
  naive_solver.
Qed.

Lemma other_keys_none fields keys :
  existsb (λ f : rstr * Value, negb (one_of (fst f) keys)) fields = false ↔
  ∀ k, k ∈ fst <$> fields → k ∈ rs <$> keys.
Proof.
  rewrite existsb_false. setoid_rewrite negb_false_iff. setoid_rewrite one_of_true.
  setoid_rewrite list_elem_of_fmap at 2. naive_solver.
Qed.

Lemma map_get_key {A} key (fields : list (rstr * A)) v : map_get key fields = Some v → key ∈ fst <$> fields.
Proof. intros H%map_get_elem. apply list_elem_of_fmap. by exists (key, v). Qed.

(** A map is determined by its set of keys. *)
Lemma ordered_keys fields keys :
  ordered_fields fields → StronglySorted str_le keys → NoDup keys →
  (∀ k, k ∈ fst <$> fields ↔ k ∈ keys) → fst <$> fields = keys.
Proof.
  intros [Hs Hn] Hk Hd H. apply (StronglySorted_unique str_le); [done..|].
  apply NoDup_Permutation; [done..|]. intros k. apply H.
Qed.

Ltac by_computation := apply (bool_decide_unpack _); vm_compute; exact I.

Lemma top_keys fields :
  ordered_fields fields →
  existsb (λ f, negb (one_of (fst f) ["jsonrpc"; "method"; "params"])) fields = false →
  rs "jsonrpc" ∈ fst <$> fields → rs "method" ∈ fst <$> fields → rs "params" ∈ fst <$> fields →
  fst <$> fields = [rs "jsonrpc"; rs "method"; rs "params"].
Proof.
  intros Ho Hother H1 H2 H3. rewrite other_keys_none in Hother.
  apply ordered_keys; [done|by_computation|by_computation|]. intros k. split; [apply Hother|].
  rewrite !elem_of_cons, elem_of_nil. naive_solver.
Qed.

Lemma params_keys fields :
  ordered_fields fields →
  existsb (λ f, negb (one_of (fst f) ["type"; "runId"; "streamId"; "delta"])) fields = false →
  rs "type" ∈ fst <$> fields → rs "runId" ∈ fst <$> fields → rs "delta" ∈ fst <$> fields →
  fst <$> fields = [rs "delta"; rs "runId"; rs "type"]
  ∨ fst <$> fields = [rs "delta"; rs "runId"; rs "streamId"; rs "type"].
Proof.
  intros Ho Hother H1 H2 H3. rewrite other_keys_none in Hother.
  assert (∀ k, k ∈ fst <$> fields → k = rs "type" ∨ k = rs "runId" ∨ k = rs "streamId" ∨ k = rs "delta") as Hk.
  { intros k Hk. apply Hother in Hk. rewrite fmap_cons in Hk. set_solver. }
  destruct (decide (rs "streamId" ∈ fst <$> fields)) as [H4|H4]; [right|left];
    (apply ordered_keys; [done|by_computation|by_computation|]); intros k;
    rewrite !elem_of_cons, elem_of_nil; (split; [|naive_solver]); intros Hin;
    destruct (Hk k Hin) as [-> | [-> | [-> | ->]]]; tauto.
Qed.

(** The fields of an object with known keys. *)
Lemma fields_of_keys {A} (fields : list (rstr * A)) keys :
  fst <$> fields = keys → ∃ values, length values = length keys ∧ fields = zip keys values.
Proof.
  intros <-. exists (snd <$> fields). rewrite !length_fmap. split; [done|].
  induction fields as [|[k v] fields IH]; [done|]. cbn. by rewrite <-IH.
Qed.

Lemma get_str_Some key v s : get_str key v = Some s ↔ value_get (rs key) v = Some (String s).
Proof.
  unfold get_str. split.
  - intros (w & Hw & Hs)%bind_Some. destruct w; try done. cbn in Hs. by injection Hs as ->.
  - by intros ->.
Qed.

Lemma value_get_object key v w : value_get key v = Some w → ∃ fields, v = Object fields ∧ map_get key fields = Some w.
Proof. destruct v; try done. eauto. Qed.

(** What passes the checks of [ordinary_delta_range] is a delta event. *)
Lemma ordinary_is_event v wire r :
  printable v → ordinary_delta_range v wire = Some r →
  ∃ run_id stream text, v = delta_event run_id stream text.
Proof.
  intros Hp H. unfold ordinary_delta_range in H.
  apply bind_Some in H as (others & Ho & H). apply bind_Some in H as (u & Hu%none_if_Some & H).
  apply bind_Some in H as (jsonrpc & Hj & H). apply bind_Some in H as (u2 & Hj2%none_if_Some & H).
  apply bind_Some in H as (method & Hm & H). apply bind_Some in H as (u3 & Hm2%none_if_Some & H).
  apply bind_Some in H as (params & Hpa & H). apply bind_Some in H as (ty & Ht & H).
  apply bind_Some in H as (u4 & Ht2%none_if_Some & H). apply bind_Some in H as (run & Hr & H).
  apply bind_Some in H as (u5 & Hr2%none_if_Some & H). apply bind_Some in H as (d & Hd & H).
  apply bind_Some in H as (others' & Ho' & H). apply bind_Some in H as (u6 & Hu6%none_if_Some & _).
  unfold has_other_key in Ho, Ho'.
  apply bind_Some in Ho as (fields & Hf & Ho). injection Ho as <-.
  apply bind_Some in Ho' as (pf & Hpf & Ho'). injection Ho' as <-.
  destruct v as [| | | | |fs]; try done. injection Hf as ->.
  destruct params as [| | | | |ps]; try done. injection Hpf as ->.
  apply negb_false_iff, str_eqb_eq in Hj2, Hm2, Ht2. subst jsonrpc method ty.
  apply negb_false_iff, bool_decide_eq_true in Hr2.
  destruct run as [| | |run| |]; try (by destruct Hr2).
  apply get_str_Some in Hj, Hm, Ht, Hd. cbn [value_get] in *.
  assert (printable (Object pf)) as Hpp.
  { inversion Hp as [| | | | |? _ Hall]; subst. apply map_get_elem in Hpa.
    rewrite Forall_forall in Hall. by apply (Hall _ Hpa). }
  inversion Hp as [| | | | |? Hord _]; subst. inversion Hpp as [| | | | |? Hord' _]; subst.
  pose proof (top_keys _ Hord Hu (map_get_key _ _ _ Hj) (map_get_key _ _ _ Hm) (map_get_key _ _ _ Hpa)) as Hk.
  apply fields_of_keys in Hk as (vs & Hl & ->). destruct vs as [|v1 [|v2 [|v3 []]]]; try done.
  destruct (params_keys _ Hord' Hu6 (map_get_key _ _ _ Ht) (map_get_key _ _ _ Hr) (map_get_key _ _ _ Hd))
    as [Hk|Hk]; apply fields_of_keys in Hk as (ws & Hl' & ->).
  - destruct ws as [|w1 [|w2 [|w3 []]]]; try done. exists run, None, d.
    vm_compute in Hj, Hm, Hpa, Ht, Hr, Hd. by simplify_eq.
  - destruct ws as [|w1 [|w2 [|w3 [|w4 []]]]]; try done. exists run, (Some w3), d.
    vm_compute in Hj, Hm, Hpa, Ht, Hr, Hd. by simplify_eq.
Qed.

(** ** The line of a delta event *)

Section Line.
Context {JP : JsonPrinter} {JL : JsonPrinterLaws}.

Definition line (v : Value) : list N := to_vec v ++ [10%N].

Definition before_delta : list N :=
  rs "{" ++ quoted_key "jsonrpc" ++ rs ":" ++ quoted_key "2.0" ++ rs "," ++ quoted_key "method" ++ rs ":"
    ++ quoted_key "agent.event" ++ rs "," ++ quoted_key "params" ++ rs ":{" ++ delta_marker.

Definition after_delta (run_id : rstr) (stream : option Value) : list N :=
  quote_byte :: rs "," ++ commas (field <$> tail (event_params run_id stream [])) ++ rs "}}" ++ [10%N].

Lemma is_printable_ascii s :
  forallb (λ c, (32 <=? c)%N && (c <? 127)%N && negb (c =? 34)%N && negb (c =? 92)%N) s = true →
  escape s = s.
Proof using JL.
  intros Hs. apply escape_printable. apply Forall_forall. intros c Hc.
  pose proof (proj1 (forallb_true _ _) Hs c Hc) as Hb. rewrite !andb_true_iff in Hb.
  rewrite N.leb_le, N.ltb_lt, !negb_true_iff, !N.eqb_neq in Hb. destruct Hb as [[[]]].
  by unfold printable_ascii, quote_byte, backslash_byte.
Qed.

Lemma quoted_literal text :
  forallb (λ c, (32 <=? c)%N && (c <? 127)%N && negb (c =? 34)%N && negb (c =? 92)%N) (rs text) = true →
  quoted (rs text) = quoted_key text.
Proof using JL. intros Hs. unfold quoted, quoted_key. by rewrite is_printable_ascii. Qed.

Lemma commas_cons2 (a b : list N) l : commas (a :: b :: l) = a ++ 44%N :: commas (b :: l).
Proof. done. Qed.

Lemma line_delta_event run_id stream text :
  line (delta_event run_id stream text) = before_delta ++ escape text ++ after_delta run_id stream.
Proof using JL.
  unfold line, delta_event, event_params. rewrite to_vec_Object. cbn [fmap list_fmap]. rewrite !commas_cons2.
  cbn [commas app]. unfold field at 1 2 3. cbn [fst snd]. rewrite !to_vec_String, to_vec_Object.
  rewrite !quoted_literal by reflexivity. cbn [fmap list_fmap]. rewrite commas_cons2.
  unfold field at 1. cbn [fst snd]. rewrite to_vec_String, quoted_literal by reflexivity.
  unfold after_delta, event_params. cbn [tail app fmap list_fmap]. generalize (commas (field (rs "runId", String run_id)
    :: list_fmap _ _ field ((if stream is Some s then [(rs "streamId", s)] else [])
         ++ [(rs "type", String (rs "message_delta"))]))). intros rest.
  unfold before_delta, delta_marker, quoted, quoted_key.
  repeat (rewrite <-?app_assoc; cbn [app rs map String.list_ascii_of_string N_of_ascii]). done.
Qed.

Lemma closing_quote_plain l r : Forall plain_byte l → closing_quote (l ++ r) = (λ n, length l + n) <$> closing_quote r.
Proof.
  induction 1 as [|b l [H1 H2] _ IH]; cbn [app closing_quote length].
  - by destruct (closing_quote r).
  - rewrite (proj2 (N.eqb_neq _ _) H2), (proj2 (N.eqb_neq _ _) H1), IH. by destruct (closing_quote r).
Qed.

Lemma closing_quote_escape text r :
  closing_quote (escape text ++ r) = (λ n, length (escape text) + n) <$> closing_quote r.
Proof using JL.
  induction text as [|c text IH]; [cbn; by destruct (closing_quote r)|].
  change (escape (c :: text)) with (escape_char c ++ escape text). rewrite <-app_assoc, length_app.
  destruct (escape_shape c) as [Hp|(x & rest & -> & Hp)].
  - rewrite closing_quote_plain, IH by done. destruct (closing_quote r) as [n|]; [|done].
    cbn. by rewrite Nat.add_assoc.
  - cbn [app closing_quote length]. rewrite N.eqb_refl.
    rewrite closing_quote_plain, IH by done. destruct (closing_quote r) as [n|]; [|done].
    cbn. by rewrite Nat.add_assoc.
Qed.

Lemma find_delta rest : find_bytes delta_marker (before_delta ++ rest) = Some (length before_delta - length delta_marker).
Proof. reflexivity. Qed.

Lemma drop_before_delta rest : drop (length before_delta - length delta_marker + length delta_marker)
  (before_delta ++ rest) = rest.
Proof. reflexivity. Qed.

(** The range found is the printed text of the delta. *)
Lemma event_range run_id stream text :
  ordinary_delta_range (delta_event run_id stream text) (line (delta_event run_id stream text))
  = Some (length before_delta, length before_delta + length (escape text)).
Proof using JL.
  rewrite line_delta_event.
  assert (find_bytes delta_marker (before_delta ++ escape text ++ after_delta run_id stream)
          = Some (length before_delta - length delta_marker)) as Hf by apply find_delta.
  assert (closing_quote (drop (length before_delta - length delta_marker + length delta_marker)
            (before_delta ++ escape text ++ after_delta run_id stream)) = Some (length (escape text))) as Hc.
  { rewrite drop_before_delta, closing_quote_escape. cbn. by rewrite Nat.add_0_r. }
  revert Hf Hc. generalize (before_delta ++ escape text ++ after_delta run_id stream). intros wire Hf Hc.
  unfold ordinary_delta_range.
  destruct stream as [s|]; cbn -[find_bytes closing_quote length before_delta delta_marker drop Nat.add Nat.sub rs];
    rewrite Hf; cbn -[find_bytes closing_quote length before_delta delta_marker drop Nat.add Nat.sub rs];
    rewrite Hc; reflexivity.
Qed.

Definition valid_literal (text : string) : bool := forallb (λ c, c <? 0x110000)%N (rs text).

Lemma literal_valid text : valid_literal text = true → valid_text (rs text).
Proof.
  intros Hb. apply Forall_forall. intros c Hc.
  pose proof (proj1 (forallb_true _ _) Hb c Hc) as Hv. by apply N.ltb_lt in Hv.
Qed.

Lemma literal_String text : valid_literal text = true → printable (String (rs text)).
Proof. intros Hb. constructor. by apply literal_valid. Qed.

Lemma literal_field text v : valid_literal text = true → printable v →
  valid_text (fst (rs text, v)) ∧ printable (snd (rs text, v)).
Proof. intros Hb Hv. split; [by apply literal_valid|done]. Qed.

Lemma printable_event r s t : printable (delta_event r s t) ↔
  valid_text r ∧ valid_text t ∧ (∀ v, s = Some v → printable v).
Proof.
  split.
  - intros Hp. inversion Hp as [| | | | |? _ Hf]; subst. rewrite !Forall_cons in Hf. cbn [snd] in Hf.
    destruct Hf as (_ & _ & [_ Hpp] & _). inversion Hpp as [| | | | |? _ Hf]; subst. unfold event_params in Hf.
    rewrite !Forall_app, !Forall_cons in Hf. cbn [snd] in Hf.
    destruct Hf as (([_ Hd] & [_ Hr] & _) & Hs & _). inversion Hd; inversion Hr; subst.
    split_and!; [done..|]. intros v ->. by apply Forall_cons in Hs as [[_ Hs] _].
  - intros (Hr & Ht & Hs).
    constructor; [split; by_computation|]. apply Forall_cons; split; [by apply literal_field, literal_String|].
    apply Forall_cons; split; [by apply literal_field, literal_String|].
    apply Forall_singleton, literal_field; [done|].
    constructor; [unfold event_params; destruct s; split; by_computation|].
    unfold event_params. rewrite !Forall_app. split_and!.
    + apply Forall_cons; split; [by apply literal_field; [|constructor]|].
      apply Forall_singleton. by apply literal_field; [|constructor].
    + destruct s as [v|]; [|constructor]. apply Forall_singleton, literal_field; auto.
    + by apply Forall_singleton, literal_field, literal_String.
Qed.

(** Two lines that agree outside of their deltas are of one run and stream. *)
Lemma same_envelope r s t r' s' t' :
  printable (delta_event r s t) → printable (delta_event r' s' t') →
  after_delta r s = after_delta r' s' → delta_event r' s' t' = delta_event r s t'.
Proof using JL.
  intros Hp Hp' E. apply to_vec_inj; [done| |].
  - rewrite printable_event in *. tauto.
  - apply (app_inv_tail [10%N]). fold (line (delta_event r' s' t')) (line (delta_event r s t')).
    rewrite !line_delta_event. by rewrite E.
Qed.

(** ** The bytes of a merged frame *)

Lemma copy_insert (a b body : list N) :
  copy_from_slice (length a) body
    (copy_within (length a) (length (a ++ b)) (length a + length body) ((a ++ b) ++ replicate (length body) 0%N))
  = a ++ body ++ b.
Proof.
  unfold copy_from_slice, copy_within. rewrite length_app.
  replace (length a + length b - length a) with (length b) by lia.
  rewrite <-(app_assoc a), (drop_app_length a), (take_app_length b), (drop_ge (_ ++ _)), app_nil_r
    by (rewrite !length_app, length_replicate; lia).
  rewrite firstn_app_2. set (c := take (length body) _).
  assert (length c = length body) as Hc by (unfold c; rewrite length_take, length_app, length_replicate; lia).
  rewrite <-app_assoc, take_app_length. f_equal. f_equal.
  rewrite <-Hc, app_assoc, <-length_app. apply drop_app_length.
Qed.

Context {AL : Allocator}.

(** A merge inserts the delta of the right frame behind that of the left one. *)
Lemma try_merge_wire left right max_bytes spare merged wa ca r s t r' s' t' :
  printable (delta_event r s t) → printable (delta_event r' s' t') →
  wire left = line (delta_event r s t) →
  delta left = ordinary_delta_range (delta_event r s t) (wire left) →
  wire right = line (delta_event r' s' t') →
  delta right = ordinary_delta_range (delta_event r' s' t') (wire right) →
  try_merge left right max_bytes spare = Some (merged, wa, ca) →
  delta_event r' s' t' = delta_event r s t'
  ∧ wire merged = line (delta_event r s (t ++ t'))
  ∧ delta merged = ordinary_delta_range (delta_event r s (t ++ t')) (wire merged).
Proof using JL.
  intros Hp Hp' Hl Hdl Hr Hdr. rewrite Hl in Hdl. rewrite Hr in Hdr. rewrite event_range in Hdl, Hdr.
  unfold try_merge. rewrite Hdl, Hdr, Hl, Hr, !line_delta_event. cbn [mbind option_bind].
  rewrite !take_app_length, !(app_assoc before_delta), <-!(length_app before_delta), !drop_app_length.
  intros (u & Hsame%none_if_Some & H)%bind_Some. apply orb_false_iff in Hsame as [_ Hsame].
  apply negb_false_iff, str_eqb_eq in Hsame.
  assert (wire merged = (before_delta ++ escape t) ++ escape t' ++ after_delta r s
          ∧ delta merged = Some (length before_delta, length (before_delta ++ escape t) + length (escape t')))
    as [Hw Hd].
  { apply bind_Some in H as (u2 & _ & H). 
    replace (length (before_delta ++ escape t') - length before_delta) with (length (escape t')) in H
      by (rewrite length_app; lia).
    rewrite <-(app_assoc before_delta (escape t')), drop_app_length, !take_app_length in H.
    revert H. generalize (before_delta ++ escape t) (length before_delta). intros a n H. case_match.
    - apply bind_Some in H as (u3 & _ & H). by injection H as <- <- <-.
    - injection H as <- <- <-. cbn [wire delta]. by rewrite copy_insert. }
  split; [by eapply same_envelope|]. rewrite Hw, Hd.
  assert ((before_delta ++ escape t) ++ escape t' ++ after_delta r s = line (delta_event r s (t ++ t'))) as ->.
  { rewrite line_delta_event, escape_app.
    by rewrite <-!app_assoc. }

  split; [by rewrite line_delta_event, <-app_assoc|]. rewrite event_range, escape_app, !length_app. by rewrite Nat.add_assoc.
Qed.
End Line.

(** * The invariant of the outbound queue

    What the counters count, what the bytes of the frames are, who holds the lease
    of the oversized frame, and that nobody sleeps while there is something to do.

    After that: the invariant of the outbound channel. *)

(** ** Sums over frames *)

Definition sum_of (f : OutboundFrame → N) (l : list OutboundFrame) : N := foldr (λ x n, f x + n)%N 0%N l.

Lemma sum_of_cons f x l : sum_of f (x :: l) = (f x + sum_of f l)%N.
Proof. done. Qed.

Lemma sum_of_app f l m : sum_of f (l ++ m) = (sum_of f l + sum_of f m)%N.
Proof. induction l as [|x l IH]; cbn [app]; rewrite ?sum_of_cons; [done|]. rewrite IH. lia. Qed.

Lemma sum_of_elem f x l : x ∈ l → (f x <= sum_of f l)%N.
Proof. induction 1 as [x l|x y l _ IH]; rewrite sum_of_cons; lia. Qed.

Lemma sum_of_le f g l : (∀ x, x ∈ l → (f x <= g x)%N) → (sum_of f l <= sum_of g l)%N.
Proof.
  induction l as [|x l IH]; intros H; [done|]. rewrite !sum_of_cons. specialize (IH (λ y Hy, H y (list_elem_of_further _ _ _ Hy))).
  specialize (H x (list_elem_of_here _ _)). lia.
Qed.

Lemma len_app {A} (l m : list A) : len (l ++ m) = (len l + len m)%N.
Proof. unfold len. rewrite length_app. lia. Qed.

Definition charge (f : OutboundFrame) : N := if oversize f then 0 else capacity f.
Definition wire_charge (f : OutboundFrame) : N := if oversize f then 0 else len (wire f).
Definition data_charge (f : OutboundFrame) : N := if data f then charge f else 0.
Definition data_one (f : OutboundFrame) : N := if data f then 1 else 0.
Definition lease (f : OutboundFrame) : N := if oversize f then 1 else 0.

(** ** What a frame shows *)

Section Facts.
Context {JP : JsonPrinter} {JL : JsonPrinterLaws} {AL : Allocator} {ALL : AllocatorLaws}.
Variable limits : OutboundLimits.

Record shows (f : OutboundFrame) (v : Value) : Prop := mkShows {
  shows_printable : printable v;
  shows_wire : wire f = line v;
  shows_delta : delta f = ordinary_delta_range v (wire f);
  shows_data : data f = is_body_delta v;
  shows_capacity : (len (wire f) <= capacity f)%N;
  shows_oversize : oversize f = true → data f = false ∧ (total_bytes limits < len (wire f))%N;
}.

(** What the receiver is shown of the values that were accepted: they are all there,
    in order, except that a delta may be joined to the delta before it. *)
Inductive coalesced : list Value → list Value → Prop :=
| coalesced_nil : coalesced [] []
| coalesced_keep vs ws v : coalesced vs ws → coalesced (vs ++ [v]) (ws ++ [v])
| coalesced_join vs ws r s t t' :
    coalesced vs (ws ++ [delta_event r s t]) →
    coalesced (vs ++ [delta_event r s t']) (ws ++ [delta_event r s (t ++ t')]).

Lemma delta_event_data r s t : is_body_delta (delta_event r s t) = true.
Proof. by destruct s. Qed.

Lemma ordinary_data v wire : printable v → is_Some (ordinary_delta_range v wire) → is_body_delta v = true.
Proof. intros Hp [x (r & s & t & ->)%ordinary_is_event]; [|done]. apply delta_event_data. Qed.

(** ** A merge *)

Lemma frame_of_shows v : printable v → shows (frame_of v) v.
Proof. intros Hp. split; try done. Qed.

Lemma try_merge_ranges left right max_bytes spare x :
  try_merge left right max_bytes spare = Some x → is_Some (delta left) ∧ is_Some (delta right).
Proof.
  unfold try_merge. intros ([a b] & -> & H)%bind_Some. apply bind_Some in H as ([c d] & -> & _). eauto.
Qed.

Lemma shows_event f v : shows f v → is_Some (delta f) → ∃ r s t, v = delta_event r s t.
Proof. intros [Hp _ -> _ _ _] [x H]. by eapply ordinary_is_event. Qed.

Record merged_frame (left merged : OutboundFrame) (spare wa ca : N) : Prop := mkMerged {
  merged_capacity : capacity merged = (capacity left + ca)%N;
  merged_wire : len (wire merged) = (len (wire left) + wa)%N;
  merged_spare : (ca <= spare)%N;
  merged_fits : (len (wire merged) <= capacity merged)%N;
  merged_data : data merged = data left;
  merged_oversize : oversize merged = oversize left;
}.

Lemma try_merge_shows left right max_bytes spare merged wa ca v w :
  shows left v → shows right w → try_merge left right max_bytes spare = Some (merged, wa, ca) →
  ∃ r s t t', v = delta_event r s t ∧ w = delta_event r s t'
    ∧ wire merged = line (delta_event r s (t ++ t'))
    ∧ delta merged = ordinary_delta_range (delta_event r s (t ++ t')) (wire merged)
    ∧ merged_frame left merged spare wa ca.
Proof using JL ALL.
  intros Hl Hr H. destruct (try_merge_ranges _ _ _ _ _ H) as [Hdl Hdr].
  destruct (shows_event _ _ Hl Hdl) as (r & s & t & ->), (shows_event _ _ Hr Hdr) as (r' & s' & t' & ->).
  destruct (try_merge_wire left right max_bytes spare merged wa ca r s t r' s' t') as (E & Hw & Hd);
    [by apply shows_printable in Hl|by apply shows_printable in Hr|by apply shows_wire in Hl
    |by apply shows_delta in Hl|by apply shows_wire in Hr|by apply shows_delta in Hr|done|].
  exists r, s, t, t'. split_and!; [done..|].
  destruct Hl as [_ Hwl Hdel _ _ _], Hr as [_ Hwr Hder _ _ _].
  rewrite Hwl in Hdel. rewrite Hwr in Hder. rewrite event_range in Hdel, Hder.
  unfold try_merge in H. rewrite Hdel, Hder in H. cbn [mbind option_bind] in H.
  apply bind_Some in H as (u & _ & H). apply bind_Some in H as (u2 & Hb%none_if_Some & H).
  replace (length before_delta + length (escape t') - length before_delta) with (length (escape t')) in H, Hb by lia.
  assert (len (wire merged) = N.of_nat (length (wire left) + length (escape t'))) as Hlen.
  { rewrite Hw, Hwl, !line_delta_event, escape_app. unfold len. rewrite !length_app. f_equal. lia. }
  apply orb_false_iff in Hb as [Hb1%N.ltb_ge Hb2%N.ltb_ge].
  destruct (capacity left <? _)%N eqn:Hc.
  - apply N.ltb_lt in Hc. apply bind_Some in H as (u3 & Hg%none_if_Some%N.ltb_ge & H).
    pose proof (with_capacity_le (N.min (N.min (N.max (saturating_mul (capacity left) 2)
      (N.of_nat (length (wire left) + length (escape t')))) max_bytes) (capacity left + spare))) as Hle.
    injection H as <- <- <-. split; cbn [capacity data oversize] in *; try done; rewrite ?Hlen; unfold len; lia.
  - apply N.ltb_ge in Hc. injection H as <- <- <-. split; cbn [capacity data oversize] in *; try done; rewrite ?Hlen; unfold len; lia.
Qed.

(** ** Counters *)

Record counted (st : State) : Prop := mkCounted {
  counted_bytes : bytes st = sum_of charge (queue st);
  counted_wire : wire_bytes st = sum_of wire_charge (queue st);
  counted_data : data_bytes st = sum_of data_charge (queue st);
  counted_frames : data_frames st = sum_of data_one (queue st);
}.

Record bounded (st : State) : Prop := mkBounded {
  bounded_bytes : (bytes st <= total_bytes limits)%N;
  bounded_data : (data_bytes st <= limit_data_bytes limits)%N;
  bounded_queue : (len (queue st) <= limit_frames limits)%N;
  bounded_frames : (data_frames st <= data_frame_bound limits)%N;
}.

Record flagged (st : State) : Prop := mkFlagged {
  flagged_overloaded : overloaded st = true → failed st = true;
  flagged_failed : failed st = true → closed st = true;
  flagged_snapshot : is_Some (failure_snapshot st) → overloaded st = true;
  flagged_senders : senders st = 0%N → closed st = true;
}.

(** The frames that are alive, and the lease. *)
Definition leased (st : State) (held : list OutboundFrame) : Prop :=
  sum_of lease (queue st ++ held) = (if oversize_in_use st then 1 else 0)%N.

Lemma queue_last (q : list OutboundFrame) x : last q = Some x → q = removelast q ++ [x].
Proof.
  intros H. destruct q as [|y q] using rev_ind; [done|]. rewrite last_snoc in H. injection H as <-.
  by rewrite removelast_last.
Qed.

(** The values shown by the queue, its last one apart. *)
Lemma Forall2_last_inv {A B} (R : A → B → Prop) l x ws :
  Forall2 R (l ++ [x]) ws → ∃ ws' w, ws = ws' ++ [w] ∧ Forall2 R l ws' ∧ R x w.
Proof.
  intros (ws' & ws2 & H1 & H2 & ->)%Forall2_app_inv_l. apply Forall2_cons_inv_l in H2 as (w & ws3 & H2 & H3 & ->).
  apply Forall2_nil_inv_l in H3 as ->. by exists ws', w.
Qed.

Lemma merge_back_inv st frame st' :
  try_merge_back limits st frame = Some st' →
  ∃ front previous merged wa ca, queue st = front ++ [previous]
    ∧ try_merge previous frame (limit_merge_bytes limits) (spare_of limits st) = Some (merged, wa, ca)
    ∧ st' = merge_into st front merged wa ca.
Proof.
  unfold try_merge_back. intros (previous & Hl & H)%bind_Some. apply bind_Some in H as ([[m wa] ca] & Hm & H).
  injection H as <-. apply queue_last in Hl. by eexists _, _, _, _, _.
Qed.

Section MergeInto.
Context (st : State) (front : list OutboundFrame) (previous merged : OutboundFrame) (wa ca : N).
Hypothesis Hq : queue st = front ++ [previous].
Hypothesis Hm : merged_frame previous merged (spare_of limits st) wa ca.
Hypothesis Hdata : data previous = true.
Hypothesis Hover : oversize previous = false.

Let st' := merge_into st front merged wa ca.

Lemma merge_charges :
  charge merged = (charge previous + ca)%N ∧ wire_charge merged = (wire_charge previous + wa)%N
  ∧ data_charge merged = (data_charge previous + ca)%N ∧ data_one merged = data_one previous
  ∧ lease merged = lease previous.
Proof using Hm Hdata Hover.
  destruct Hm as [Hc Hw _ _ Hd Ho]. unfold data_charge, data_one, lease, charge, wire_charge.
  rewrite Hd, Ho, Hdata, Hover. done.
Qed.

Lemma merge_counted : counted st → counted st'.
Proof using Hq Hm Hdata Hover.
  intros [H1 H2 H3 H4]. destruct merge_charges as (E1 & E2 & E3 & E4 & _). rewrite Hq in *.
  rewrite sum_of_app, sum_of_cons in H1, H2, H3, H4.
  split; cbn [st' merge_into bytes wire_bytes data_bytes data_frames queue]; rewrite sum_of_app, sum_of_cons;
    rewrite ?E1, ?E2, ?E3, ?E4; lia.
Qed.

Lemma merge_bounded : bounded st → bounded st'.
Proof using Hq Hm.
  intros [H1 H2 H3 H4]. destruct Hm as [_ _ Hs _ _ _]. unfold spare_of in Hs. rewrite Hq in H3.
  split; cbn [st' merge_into bytes data_bytes data_frames queue]; try lia.
  rewrite len_app in *. done.
Qed.

Lemma merge_leased held : leased st held → leased st' held.
Proof using Hq Hm Hdata Hover.
  unfold leased. destruct merge_charges as (_ & _ & _ & _ & E). rewrite Hq.
  cbn [st' merge_into queue oversize_in_use]. rewrite !sum_of_app, !sum_of_cons, E. done.
Qed.
End MergeInto.

Lemma fits_room st f :
  fits limits st f = true →
  (len (queue st) < limit_frames limits)%N
  ∧ (data f = true → data_frames st < data_frame_bound limits)%N
  ∧ (bytes st + charge_of limits f <= total_bytes limits)%N
  ∧ (data f = true → data_bytes st + charge_of limits f <= limit_data_bytes limits)%N
  ∧ (is_oversized limits f = true → oversize_in_use st = false).
Proof.
  unfold fits. rewrite !andb_true_iff, !orb_true_iff, !negb_true_iff, N.leb_le, !N.ltb_lt, N.leb_le.
  intros [[[[H1 H2] H3] H4] H5]. split_and!; try done; intros E; rewrite E in *; naive_solver.
Qed.

Section Push.
Context (st : State) (f : OutboundFrame).
Hypothesis Hfits : fits limits st f = true.

Let st' := push_frame limits st f.
Let f' := mkFrame (wire f) (capacity f) (delta f) (data f) (is_oversized limits f) (category f).

Lemma push_queue : queue st' = queue st ++ [f'].
Proof. done. Qed.

Lemma push_counted : counted st → counted st'.
Proof.
  intros [H1 H2 H3 H4].
  split; cbn [st' push_frame bytes wire_bytes data_bytes data_frames queue];
    rewrite sum_of_app, sum_of_cons, <-?H1, <-?H2, <-?H3, <-?H4; unfold wire_charge, data_charge, data_one, charge, charge_of;
    cbn [data oversize capacity wire sum_of foldr]; destruct (is_oversized limits f), (data f); lia.
Qed.

Lemma push_bounded : bounded st → bounded st'.
Proof using Hfits.
  intros [H1 H2 H3 H4]. destruct (fits_room _ _ Hfits) as (R1 & R2 & R3 & R4 & R5).
  split; cbn [st' push_frame bytes data_bytes data_frames queue]; try lia.
  - case_match; [by apply R4|done].
  - rewrite len_app. unfold len at 2. cbn. lia.
  - case_match; [|done]. specialize (R2 eq_refl). lia.
Qed.

Lemma push_leased held : leased st held → leased st' held.
Proof using Hfits.
  unfold leased. destruct (fits_room _ _ Hfits) as (_ & _ & _ & _ & R5).
  cbn [st' push_frame oversize_in_use queue]. rewrite !sum_of_app, sum_of_cons. fold f'.
  change (lease f') with (if is_oversized limits f then 1 else 0)%N. change (sum_of lease []) with 0%N.
  destruct (is_oversized limits f).
  - rewrite R5 by done. lia.
  - intros <-. lia.
Qed.

Lemma push_shows v : shows f v → shows f' v.
Proof.
  intros [H1 H2 H3 H4 H5 H6]. split; try done. cbn. unfold is_oversized. 
  intros [Hd Ht]%andb_true_iff. apply negb_true_iff in Hd. by apply N.ltb_lt in Ht.
Qed.
End Push.

(** ** Receiving *)

Section Receive.
Context (st : State) (max : option N) (f : OutboundFrame) (st' : State).
Hypothesis Hrecv : try_recv_frame st max = (Ok f, st').

Lemma recv_queue : queue st = f :: queue st'.
Proof using Hrecv.
  unfold try_recv_frame in Hrecv. destruct (queue st) as [|x q] eqn:E; [done|].
  case_match; [done|]. by injection Hrecv as -> <-.
Qed.

Lemma recv_flags :
  senders st' = senders st ∧ closed st' = closed st ∧ failed st' = failed st ∧ overloaded st' = overloaded st
  ∧ oversize_in_use st' = oversize_in_use st ∧ failure_snapshot st' = failure_snapshot st.
Proof using Hrecv.
  unfold try_recv_frame in Hrecv. destruct (queue st) as [|x q] eqn:E; [done|].
  case_match; [done|]. by injection Hrecv as _ <-.
Qed.

Lemma recv_counters :
  bytes st' = (bytes st - charge f)%N ∧ wire_bytes st' = (wire_bytes st - wire_charge f)%N
  ∧ data_bytes st' = (data_bytes st - data_charge f)%N ∧ data_frames st' = (data_frames st - data_one f)%N.
Proof using Hrecv.
  unfold try_recv_frame in Hrecv. destruct (queue st) as [|x q] eqn:E; [done|].
  case_match; [done|]. injection Hrecv as <- <-. cbn. unfold data_charge, data_one.
  destruct (data x); rewrite ?N.sub_0_r; done.
Qed.

Lemma recv_counted : counted st → counted st'.
Proof using Hrecv.
  intros [H1 H2 H3 H4]. destruct recv_counters as (E1 & E2 & E3 & E4).
  rewrite recv_queue, sum_of_cons in H1, H2, H3, H4. split; rewrite ?E1, ?E2, ?E3, ?E4; lia.
Qed.

Lemma recv_bounded : bounded st → bounded st'.
Proof using Hrecv.
  intros [H1 H2 H3 H4]. destruct recv_counters as (E1 & _ & E3 & E4).
  rewrite recv_queue in H3. split; rewrite ?E1, ?E3, ?E4; try lia.
  unfold len in *. cbn in H3. lia.
Qed.

Lemma recv_leased held : leased st held → leased st' (held ++ [f]).
Proof using Hrecv.
  unfold leased. destruct recv_flags as (_ & _ & _ & _ & -> & _). rewrite recv_queue. intros <-.
  cbn [app]. rewrite sum_of_cons, !sum_of_app, sum_of_cons. cbn. lia.
Qed.
End Receive.

(** ** Dropping frames *)

Lemma drop_frame_leased st held front f rest :
  held = front ++ f :: rest → leased st held → leased (drop_frame st f) (front ++ rest).
Proof.
  intros ->. unfold leased, drop_frame. rewrite !sum_of_app, sum_of_cons.
  change (lease f) with (if oversize f then 1 else 0)%N. destruct (oversize f).
  - cbn [oversize_in_use set_oversize queue]. rewrite ?sum_of_app. destruct (oversize_in_use st); lia.
  - intros <-. lia.
Qed.

Lemma drop_frames_leased st l held :
  leased (set_queue l st) held → leased (foldl drop_frame (set_queue [] st) l) held.
Proof.
  revert st. induction l as [|f l IH]; intros st H; [done|]. cbn [foldl].
  assert (∀ s, drop_frame (set_queue [] s) f = set_queue [] (drop_frame s f)) as ->
    by (intros s; unfold drop_frame; by destruct (oversize f)).
  apply IH. revert H. unfold leased, drop_frame. cbn [queue set_queue app].
  rewrite sum_of_cons. change (lease f) with (if oversize f then 1 else 0)%N. destruct (oversize f); cbn [oversize_in_use set_oversize set_queue queue].
  - destruct (oversize_in_use st); lia.
  - intros <-. lia.
Qed.

Lemma drop_frames_keep st l :
  let st' := foldl drop_frame st l in
  queue st' = queue st ∧ closed st' = closed st ∧ failed st' = failed st ∧ overloaded st' = overloaded st
  ∧ senders st' = senders st ∧ failure_snapshot st' = failure_snapshot st ∧ bytes st' = bytes st
  ∧ data_bytes st' = data_bytes st ∧ data_frames st' = data_frames st.
Proof.
  revert st. induction l as [|f l IH]; intros st; [done|]. cbn [foldl].
  destruct (IH (drop_frame st f)) as (-> & -> & -> & -> & -> & -> & -> & -> & ->).
  unfold drop_frame. by destruct (oversize f).
Qed.

(** ** The lease *)

Lemma lease_held st held : leased st held →
  oversize_in_use st = true ↔ ∃ f, f ∈ queue st ++ held ∧ oversize f = true.
Proof.
  unfold leased. generalize (queue st ++ held). intros l H.
  assert ((∃ f, f ∈ l ∧ oversize f = true) ↔ sum_of lease l ≠ 0%N) as ->.
  { clear H. induction l as [|f l IH]; [split; [by intros (? & ?%not_elem_of_nil & _)|done]|].
    rewrite sum_of_cons. change (lease f) with (if oversize f then 1 else 0)%N.
    destruct (oversize f) eqn:E.
    - split; [lia|]. intros _. exists f. split; [left|done].
    - rewrite N.add_0_l, <-IH. split; intros (g & Hg & Hog); exists g; (split; [|done]); [|by right].
      apply elem_of_cons in Hg as [->|]; [congruence|done]. }
  destruct (oversize_in_use st); rewrite H; split; done.
Qed.

Lemma lease_unique st held i j f g : leased st held →
  (queue st ++ held) !! i = Some f → (queue st ++ held) !! j = Some g →
  oversize f = true → oversize g = true → i = j.
Proof.
  unfold leased. intros H. assert (sum_of lease (queue st ++ held) <= 1)%N as Hle
    by (rewrite H; by destruct (oversize_in_use st)).
  revert Hle. clear H. generalize (queue st ++ held). intros l.
  assert (∀ k x l, l !! k = Some x → oversize x = true → (1 <= sum_of lease l)%N) as Hone.
  { intros k x m Hk Hx. apply list_elem_of_lookup_2, (sum_of_elem lease) in Hk. unfold lease at 1 in Hk. by rewrite Hx in Hk. }
  revert i j. induction l as [|x l IH]; intros [|i] [|j] Hl Hf Hg Ef Eg; try done.
  - injection Hf as ->. cbn in Hg. pose proof (Hone _ _ _ Hg Eg). rewrite sum_of_cons in Hl.
    change (lease f) with (if oversize f then 1 else 0)%N in Hl. rewrite Ef in Hl. lia.
  - injection Hg as ->. cbn in Hf. pose proof (Hone _ _ _ Hf Ef). rewrite sum_of_cons in Hl.
    change (lease g) with (if oversize g then 1 else 0)%N in Hl. rewrite Eg in Hl. lia.
  - f_equal. cbn in Hf, Hg. rewrite sum_of_cons in Hl. apply (IH i j); auto. lia.
Qed.
End Facts.

(** * The invariant of the outbound channel

    Preserved by every step of the transition system of [OutboundChannel]. *)

Section Invariant.
Context {JP : JsonPrinter} {JL : JsonPrinterLaws} {AL : Allocator} {ALL : AllocatorLaws} {NT : Notify} {NL : NotifyLaws}.
Variable limits : OutboundLimits.

(** What the receiver has got and will get, of what was accepted.  When the receiver
    is dropped what is still queued is lost. *)
Definition shown (c : Channel) : Prop :=
  ∃ values lost, coalesced (accepted c) (values ++ lost)
    ∧ Forall2 (shows limits) (received c ++ queue (state c)) values
    ∧ (receiver_alive c = true → lost = []).

Record channel_ok (c : Channel) : Prop := mkOk {
  ok_counted : receiver_alive c = true → counted (state c);
  ok_bounded : bounded limits (state c);
  ok_leased : leased (state c) (held c);
  ok_flagged : flagged (state c);
  ok_gone : receiver_alive c = false →
    queue (state c) = [] ∧ closed (state c) = true ∧ receiver c = Absent;
  ok_shown : shown c;
  ok_receiver : sleeps_safely (receiver c) (queue (state c) ≠ [] ∨ closed (state c) = true)
    NotifyReady (to_notify c);
  ok_monitor : sleeps_safely (monitor c) (failed (state c) = true) NotifyFailure (to_notify c);
}.

Lemma init_ok : channel_ok init.
Proof.
  split; try done.
  - by split; cbn; unfold len; cbn; apply N.le_0_l.
  - split; try done. by intros [].
  - exists [], []. split_and!; [constructor|constructor|done].
Qed.

(** ** Operations that leave the frames alone *)

Record same_frames (st st' : State) : Prop := mkSame {
  same_queue : queue st' = queue st;
  same_bytes : bytes st' = bytes st;
  same_wire : wire_bytes st' = wire_bytes st;
  same_data : data_bytes st' = data_bytes st;
  same_data_frames : data_frames st' = data_frames st;
  same_oversize : oversize_in_use st' = oversize_in_use st;
}.

Lemma with_state_ok c st signals :
  channel_ok c → same_frames (state c) st → flagged st →
  (closed (state c) = true → closed st = true) →
  (closed st = true → closed (state c) = true ∨ NotifyReady ∈ signals) →
  (failed st = true → failed (state c) = true ∨ NotifyFailure ∈ signals) →
  channel_ok (with_state c st signals).
Proof.
  intros [H1 [B1 B2 B3 B4] H3 H4 H5 H6 H7 H8] [E1 E2 E3 E4 E5 E6] Hf Hc Hr Hm.
  split; cbn [state receiver_alive held to_notify receiver monitor with_state]; try done.
  - intros Ha. destruct (H1 Ha) as [C1 C2 C3 C4]. split; rewrite ?E1, ?E2, ?E3, ?E4, ?E5; done.
  - split; rewrite ?E1, ?E2, ?E4, ?E5; done.
  - unfold leased in *. by rewrite E1, E6.
  - intros Ha. destruct (H5 Ha) as (Q & C & R). rewrite E1. auto.
  - destruct H6 as (vs & lost & ? & ? & ?). exists vs, lost. cbn. by rewrite E1.
  - eapply sleeps_safely_signalled; [done|]. rewrite E1. intros [?|?]; [by left; left|].
    destruct Hr as [?|?]; [done|left; by right|by right].
  - by eapply sleeps_safely_signalled.
Qed.

Lemma close_ok c st signals : channel_ok c → close (state c) = (st, signals) → channel_ok (with_state c st signals).
Proof.
  intros H [= <- <-]. destruct (ok_flagged _ H) as [F1 F2 F3 F4].
  apply with_state_ok; [done|done|split; try done; cbn; auto|done|right; set_solver|by left].
Qed.

Lemma writer_failed_ok c st signals :
  channel_ok c → writer_failed (state c) = (st, signals) → channel_ok (with_state c st signals).
Proof.
  intros H [= <- <-]. destruct (ok_flagged _ H) as [F1 F2 F3 F4].
  apply with_state_ok; [done|done|split; try done; cbn; auto|done|right; set_solver|right; set_solver].
Qed.

Lemma drop_sender_ok c st signals :
  channel_ok c → drop_sender (state c) = (st, signals) → channel_ok (with_state c st signals).
Proof.
  intros H. unfold drop_sender. destruct (ok_flagged _ H) as [F1 F2 F3 F4]. intros [= <- <-].
  apply with_state_ok; [done|by case_match| |by case_match|right; set_solver|case_match; by left].
  case_match; (split; cbn; auto).
  intros E. cbn in *. by rewrite E in *.
Qed.

Lemma clone_ok c : channel_ok c → channel_ok (with_state c (clone_sender (state c)) []).
Proof.
  intros H. destruct (ok_flagged _ H) as [F1 F2 F3 F4].
  apply with_state_ok; [done|done|split; cbn; auto; lia|done|by left|by left].
Qed.

Lemma report_ok c : channel_ok c → channel_ok (with_state c (snd (report_failure (state c))) []).
Proof.
  intros H. destruct (ok_flagged _ H) as [F1 F2 F3 F4].
  apply with_state_ok; [done|done|split; cbn; auto|done|by left|by left]. by intros [].
Qed.

(** ** Sending *)

Lemma coalesced_snoc vs ws v : coalesced vs (ws ++ []) → coalesced (vs ++ [v]) (ws ++ [v] ++ []).
Proof. rewrite !app_nil_r. apply coalesced_keep. Qed.

Lemma accept_ok c st v signals :
  channel_ok c → receiver_alive c = true → counted st → bounded limits st → leased st (held c) → flagged st →
  closed st = closed (state c) → failed st = failed (state c) → NotifyReady ∈ signals →
  shown (accept v (with_state c st signals)) →
  channel_ok (accept v (with_state c st signals)).
Proof.
  intros [H1 H2 H3 H4 H5 H6 H7 H8] Ha Hc Hb Hl Hf Ec Ef Hs Hsh.
  split; cbn [state receiver_alive held to_notify receiver monitor with_state accept]; try done.
  - congruence.
  - eapply sleeps_safely_signalled; [done|]. by right.
  - eapply sleeps_safely_signalled; [done|]. rewrite Ef. by left.
Qed.

(** The queue shows the values up to its last one. *)
Lemma shown_merge c st v signals front previous merged wa ca :
  channel_ok c → receiver_alive c = true → printable v →
  queue (state c) = front ++ [previous] → queue st = front ++ [merged] →
  try_merge previous (frame_of v) (limit_merge_bytes limits) (spare_of limits (state c)) = Some (merged, wa, ca) →
  merged_frame previous merged (spare_of limits (state c)) wa ca
  ∧ data previous = true ∧ oversize previous = false
  ∧ shown (accept v (with_state c st signals)).
Proof using JL ALL.
  intros H Ha Hp Hq Hq' Hm. destruct (ok_shown _ H) as (vs & lost & Hco & Hsh & Hlost).
  rewrite (Hlost Ha), app_nil_r in Hco. rewrite Hq, app_assoc in Hsh.
  apply Forall2_last_inv in Hsh as (vs' & w & -> & Hfront & Hw).
  destruct (try_merge_shows limits _ _ _ _ _ _ _ w v Hw (frame_of_shows _ _ Hp) Hm)
    as (r & s & t & t' & -> & -> & Hmw & Hmd & Hmf).
  assert (data previous = true) as Hd by (rewrite (shows_data _ _ _ Hw); apply delta_event_data).
  assert (oversize previous = false) as Ho.
  { destruct (oversize previous) eqn:E; [|done]. destruct (shows_oversize _ _ _ Hw E). congruence. }
  split_and!; [done..|]. exists (vs' ++ [delta_event r s (t ++ t')]), []. cbn [accept with_state accepted received state].
  split_and!; [rewrite app_nil_r; by apply coalesced_join| |done].
  rewrite Hq', app_assoc. apply Forall2_app; [done|]. constructor; [|constructor].
  pose proof (shows_printable _ _ _ Hw) as Hpw. rewrite printable_event in Hp, Hpw.
  split; try done.
  - apply printable_event. destruct Hp as (? & ? & ?), Hpw as (? & ? & ?). split_and!; [done| |done].
    by apply Forall_app.
  - rewrite (merged_data _ _ _ _ _ Hmf), Hd. by rewrite delta_event_data.
  - apply Hmf.
  - rewrite (merged_oversize _ _ _ _ _ Hmf). congruence.
Qed.

Lemma shown_push c st v signals f :
  channel_ok c → receiver_alive c = true → shows limits f v → queue st = queue (state c) ++ [f] →
  shown (accept v (with_state c st signals)).
Proof.
  intros H Ha Hf Hq. destruct (ok_shown _ H) as (vs & lost & Hco & Hsh & Hlost). rewrite (Hlost Ha) in Hco.
  exists (vs ++ [v]), []. cbn [accept with_state accepted received state].
  split_and!; [by rewrite <-app_assoc; apply coalesced_snoc| |done].
  rewrite Hq, app_assoc. apply Forall2_app; [done|by constructor].
Qed.

Lemma set_stats_same s st : same_frames st (set_stats s st).
Proof. done. Qed.

Lemma send_ok c v : channel_ok c → printable v → channel_ok (send_on limits c v).
Proof using AL ALL JL JP NL NT limits.
  intros H Hp. unfold send_on, send. destruct (closed (state c)) eqn:Ec.
  { apply with_state_ok; [done|done|apply H|done|by left|by left]. }
  assert (receiver_alive c = true) as Ha.
  { destruct (receiver_alive c) eqn:E; [done|]. destruct (ok_gone _ H E) as (_ & ? & _). congruence. }
  set (st := set_stats _ (state c)).
  assert (counted st) as Hc by (by destruct (ok_counted _ H Ha); split).
  assert (bounded limits st) as Hb by (by destruct (ok_bounded _ H); split).
  assert (leased st (held c)) as Hl by apply H.
  destruct (ok_flagged _ H) as [F1 F2 F3 F4].
  destruct (try_merge_back limits st (frame_of v)) as [st'|] eqn:Em.
  - apply merge_back_inv in Em as (front & previous & merged & wa & ca & Hq & Hm & ->).
    change (queue st) with (queue (state c)) in Hq.
    destruct (shown_merge c (merge_into st front merged wa ca) v [NotifyReady] front previous merged wa ca)
      as (Hmf & Hd & Ho & Hsh); [done..|].
    apply accept_ok; try done; [| | |set_solver].
    + by apply (merge_counted limits st front previous).
    + by apply (merge_bounded limits st front previous).
    + by apply (merge_leased limits st front previous).
  - destruct (fits limits st (frame_of v)) eqn:Ef.
    + apply accept_ok; try done; [| | |set_solver|].
      * by apply push_counted.
      * by apply push_bounded.
      * by apply push_leased.
      * eapply shown_push; [done|done|by apply push_shows, frame_of_shows|done].
    + apply with_state_ok; [done|done|split; try done; cbn; auto|done|right; set_solver|right; set_solver].
Qed.

(** ** Receiving and dropping *)

Lemma take_frame_ok c max frame st :
  channel_ok c → receiver_alive c = true → try_recv_frame (state c) max = (Ok frame, st) →
  channel_ok (take_frame c frame st).
Proof.
  intros [H1 H2 H3 H4 H5 H6 H7 H8] Ha Hr.
  pose proof (recv_queue _ _ _ _ Hr) as Hq.
  destruct (recv_flags _ _ _ _ Hr) as (E1 & E2 & E3 & E4 & E5 & E6).
  split; cbn [state receiver_alive held to_notify receiver monitor take_frame]; try done.
  - intros _. by eapply recv_counted; [|apply H1].
  - by eapply recv_bounded.
  - by eapply recv_leased.
  - destruct H4. split; rewrite ?E1, ?E2, ?E3, ?E4, ?E6; done.
  - congruence.
  - destruct H6 as (vs & lost & ? & Hsh & ?). exists vs, lost. cbn. rewrite Hq in Hsh.
    by rewrite <-app_assoc.
  - eapply sleeps_safely_same; [done|]. rewrite E2, Hq. intros [?|?]; [by left|by right].
  - by rewrite E3.
Qed.

Lemma set_receiver_ok c w permit :
  channel_ok c → (receiver_alive c = false → w = Absent) →
  sleeps_safely w (queue (state c) ≠ [] ∨ closed (state c) = true) NotifyReady (to_notify c) →
  channel_ok (set_receiver w permit c).
Proof.
  intros [H1 H2 H3 H4 H5 H6 H7 H8] Hw Hs. split; try done. cbn. intros Ha. destruct (H5 Ha) as (? & ? & _). auto.
Qed.

Lemma set_monitor_ok c w :
  channel_ok c → sleeps_safely w (failed (state c) = true) NotifyFailure (to_notify c) →
  channel_ok (set_monitor w c).
Proof. intros [] Hs. by split. Qed.

Lemma recv_empty st max st' : try_recv_frame st max = (Err Empty, st') → max = None → queue st = [] ∧ closed st = false.
Proof. unfold try_recv_frame. intros H ->. destruct (queue st); [|done]. by destruct (closed st). Qed.

Lemma drop_frame_ok c front frame rest :
  channel_ok c → held c = front ++ frame :: rest →
  channel_ok (set_held (front ++ rest) (with_state c (drop_frame (state c) frame) [])).
Proof.
  intros [H1 H2 H3 H4 H5 H6 H7 H8] Hh.
  assert (∀ s, let s' := drop_frame s frame in queue s' = queue s ∧ closed s' = closed s ∧ failed s' = failed s
    ∧ overloaded s' = overloaded s ∧ senders s' = senders s ∧ failure_snapshot s' = failure_snapshot s
    ∧ bytes s' = bytes s ∧ wire_bytes s' = wire_bytes s ∧ data_bytes s' = data_bytes s ∧ data_frames s' = data_frames s)
    as Hk by (intros s; unfold drop_frame; by destruct (oversize frame)).
  destruct (Hk (state c)) as (E1 & E2 & E3 & E4 & E5 & E6 & E7 & E8 & E9 & E10).
  split; cbn [state receiver_alive held to_notify receiver monitor with_state set_held];
    rewrite ?app_nil_r, ?E1, ?E2, ?E3; try done.
  - intros Ha. destruct (H1 Ha). split; rewrite ?E1, ?E7, ?E8, ?E9, ?E10; done.
  - destruct H2. split; rewrite ?E1, ?E7, ?E9, ?E10; done.
  - by eapply drop_frame_leased.
  - destruct H4. split; rewrite ?E2, ?E3, ?E4, ?E5, ?E6; done.
  - unfold shown. cbn. by rewrite E1.
Qed.

Lemma drop_receiver_ok c st signals :
  channel_ok c → receiver_alive c = true → receiver c = Absent → drop_receiver (state c) = (st, signals) →
  channel_ok (receiver_gone (with_state c st signals)).
Proof.
  intros [H1 H2 H3 H4 H5 H6 H7 H8] Ha Hr. unfold drop_receiver. intros [= <- <-].
  set (st0 := if closed (state c) then state c else set_failed true (state c)).
  assert (queue st0 = queue (state c) ∧ bytes st0 = bytes (state c) ∧ data_bytes st0 = data_bytes (state c)
    ∧ data_frames st0 = data_frames (state c) ∧ oversize_in_use st0 = oversize_in_use (state c)
    ∧ overloaded st0 = overloaded (state c) ∧ failure_snapshot st0 = failure_snapshot (state c)
    ∧ senders st0 = senders (state c) ∧ (overloaded (state c) = true → failed st0 = true))
    as (Q & B & D & DF & O & OV & FS & SE & F).
  { unfold st0. destruct (closed (state c)); split_and!; try done. apply H4. }
  destruct (drop_frames_keep (set_queue [] (set_closed st0)) (queue st0)) as (K1 & K2 & K3 & K4 & K5 & K6 & K7 & K8 & K9).
  cbn [queue set_queue set_closed bytes data_bytes data_frames closed failed overloaded failure_snapshot senders] in *.
  split; cbn [state receiver_alive held to_notify receiver monitor with_state receiver_gone]; try done.
  - destruct H2. split; rewrite ?K1, ?K7, ?K8, ?K9, ?B, ?D, ?DF; try done. apply N.le_0_l.
  - apply (drop_frames_leased (set_closed st0)). unfold leased in *. cbn [queue set_queue oversize_in_use set_closed].
    by rewrite Q, O.
  - destruct H4 as [F1 F2 F3 F4]. split; rewrite ?K2, ?K3, ?K4, ?K5, ?K6; try done; rewrite ?OV, ?FS; auto.
  - destruct H6 as (vs & lost & Hco & Hsh & Hlost). unfold shown. cbn. rewrite K1, app_nil_r.
    rewrite (Hlost Ha), app_nil_r in Hco. apply Forall2_app_inv_l in Hsh as (vs1 & vs2 & Hs1 & _ & ->).
    by exists vs1, vs2.
  - rewrite Hr. by apply sleeps_safely_awake.
  - intros _ _. apply elem_of_app. right. set_solver.
Qed.

(** ** Every step *)

Lemma deliver_ok c front s rest :
  channel_ok c → to_notify c = front ++ s :: rest → channel_ok (deliver s (set_to_notify (front ++ rest) c)).
Proof.
  intros [H1 H2 H3 H4 H5 H6 H7 H8] Hn. rewrite Hn in H7, H8. destruct s; cbn [deliver].
  - destruct (notify_one (receiver c) (ready_permit c)) as [w permit] eqn:E. 
    cbn [set_to_notify receiver ready_permit] in *. rewrite E.
    assert (w ≠ Sleeping) as Hw by (change w with (fst (w, permit)); rewrite <-E; auto with captain).
    split; try done; cbn.
    + intros Ha. destruct (H5 Ha) as (? & ? & R). rewrite R, notify_one_nobody in E. by injection E as <- _.
    + by apply sleeps_safely_awake.
    + by eapply sleeps_safely_other; [|done].
  - split; try done; cbn.
    + by eapply sleeps_safely_other; [|done].
    + apply sleeps_safely_awake, notify_waiters_awake.
Qed.

Lemma step_ok c c' : channel_ok c → step limits c c' → channel_ok c'.
Proof using AL ALL JL JP NL NT limits.
  intros H. destruct 1.
  - by apply send_ok.
  - by apply clone_ok.
  - by apply drop_sender_ok.
  - by apply close_ok.
  - by apply writer_failed_ok.
  - by apply report_ok.
  - by eapply take_frame_ok.
  - apply set_receiver_ok; [done|congruence|]. apply sleeps_safely_awake.
    change w with (fst (w, permit)). rewrite <-H2. auto with captain.
  - apply set_receiver_ok; [by eapply take_frame_ok|done|by apply sleeps_safely_awake].
  - apply set_receiver_ok; [done|done|by apply sleeps_safely_awake].
  - apply set_receiver_ok; [done|congruence|]. apply sleeps_safely_idle.
    apply recv_empty in H2 as [Hq Hc]; [|done]. rewrite Hc. naive_solver.
  - apply set_receiver_ok; [done|done|by apply sleeps_safely_awake].
  - by apply drop_frame_ok.
  - by apply drop_receiver_ok.
  - apply set_monitor_ok; [done|by apply sleeps_safely_awake].
  - apply set_monitor_ok; [done|by apply sleeps_safely_awake].
  - apply set_monitor_ok; [done|]. apply sleeps_safely_idle. congruence.
  - by eapply deliver_ok.
Qed.

Lemma reachable_ok c : reachable limits c → channel_ok c.
Proof using AL ALL JL JP NL NT limits.
  unfold reachable, steps. intros Hr. pose proof init_ok as Hi. revert Hi.
  induction Hr as [|a b d Hab _ IH]; [done|]. intros Ha. by apply IH, (step_ok a).
Qed.

(** A frame of the queue fits its vector, and its vector the queue. *)
Lemma frame_charged c f :
  channel_ok c → f ∈ queue (state c) → oversize f = false → (len (wire f) <= capacity f <= total_bytes limits)%N.
Proof.
  intros H Hf Ho. destruct (ok_shown _ H) as (vs & _ & _ & Hsh & _).
  assert (f ∈ received c ++ queue (state c)) as [i Hi]%list_elem_of_lookup by (apply elem_of_app; by right).
  destruct (Forall2_lookup_l _ _ _ _ _ Hsh Hi) as (v & _ & Hv).
  split; [by eapply shows_capacity|].
  destruct (receiver_alive c) eqn:Ha; [|destruct (ok_gone _ H Ha) as [E _]; rewrite E in Hf; by apply not_elem_of_nil in Hf].
  pose proof (bounded_bytes _ _ (ok_bounded _ H)) as Hb. rewrite (counted_bytes _ (ok_counted _ H Ha)) in Hb.
  apply (sum_of_elem charge) in Hf. unfold charge at 1 in Hf. rewrite Ho in Hf. lia.
Qed.
End Invariant.
