(* ===== verification/OutboundWriter.v ===== *)
(** * The writer of the connection

    [core-server/src/transport/outbound_writer.rs]: the task that drains the queue
    and the image artifacts into the connection, as a transition system.  Every
    [await] is a point where the producers may go on; a write or a flush may fail.
    [output] lists what was written and flushed, one entry per flush. *)

From S2P Require Import Prelude RustText Json JsonPrinter Tokio Outbound OutboundChannel.

Definition BATCH_BYTES : N := 64 * 1024.
Definition BATCH_FRAMES : nat := 64.

Inductive Chunk :=
| FramesChunk (frames : list OutboundFrame)
| ImageChunk (message : Value)
| OverloadChunk.

Inductive Outcome :=
| Finished
| OutboundOverloaded
| WriteFailed
| TimedOut.

(** Where [pump] is: at the [select!], filling a batch, or dropping the frames of a
    batch that was flushed. *)
Inductive Place :=
| Selecting
| Batching (frames : list OutboundFrame)
| Dropping (frames : list OutboundFrame).

Record Writer := mkWriter {
  channel : Channel;
  images : list Value;
  images_closed : bool;
  draining : bool;
  deadline : bool;
  normal_open : bool;
  images_open : bool;
  closing : bool;
  place : Place;
  output : list Chunk;
  outcome : option Outcome;
}.

Definition writer_init : Writer :=
  mkWriter init [] false false false true true false Selecting [] None.

Definition set_channel (c : Channel) (w : Writer) : Writer :=
  mkWriter c (images w) (images_closed w) (draining w) (deadline w) (normal_open w) (images_open w)
    (closing w) (place w) (output w) (outcome w).
Definition set_images (l : list Value) (done : bool) (w : Writer) : Writer :=
  mkWriter (channel w) l done (draining w) (deadline w) (normal_open w) (images_open w)
    (closing w) (place w) (output w) (outcome w).
Definition set_draining (w : Writer) : Writer :=
  mkWriter (channel w) (images w) (images_closed w) true true (normal_open w) (images_open w)
    (closing w) (place w) (output w) (outcome w).
Definition set_open (normal image : bool) (w : Writer) : Writer :=
  mkWriter (channel w) (images w) (images_closed w) (draining w) (deadline w) normal image
    (closing w) (place w) (output w) (outcome w).
Definition set_closing (w : Writer) : Writer :=
  mkWriter (channel w) (images w) (images_closed w) (draining w) (deadline w) (normal_open w) (images_open w)
    true (place w) (output w) (outcome w).
Definition set_place (p : Place) (w : Writer) : Writer :=
  mkWriter (channel w) (images w) (images_closed w) (draining w) (deadline w) (normal_open w) (images_open w)
    (closing w) p (output w) (outcome w).
Definition write (chunk : Chunk) (w : Writer) : Writer :=
  mkWriter (channel w) (images w) (images_closed w) (draining w) (deadline w) (normal_open w) (images_open w)
    (closing w) (place w) (output w ++ [chunk]) (outcome w).
(** [control.report_failure()]. *)
Definition report_channel (c : Channel) : Channel := with_state c (snd (report_failure (state c))) [].

(** [control.writer_failed()]. *)
Definition fail_channel (c : Channel) : Channel :=
  let '(st, signals) := writer_failed (state c) in with_state c st signals.

(** The end of the pump. *)
Definition finish (result : Outcome) (w : Writer) : Writer :=
  let c := match result with Finished => channel w | _ => fail_channel (channel w) end in
  mkWriter (report_channel c) (images w) (images_closed w) (draining w) (deadline w) (normal_open w) (images_open w)
    (closing w) (place w) (output w) (Some result).

(** [control.close()] and [outbound.close()]. *)
Definition close_channel (c : Channel) : Channel :=
  let '(st, signals) := close (state c) in with_state c st signals.

Definition batch_bytes (frames : list OutboundFrame) : N :=
  foldr (λ f n, len (wire f) + n)%N 0%N frames.

(** The condition of the loop that fills a batch. *)
Definition batch_room (frames : list OutboundFrame) : bool :=
  (length frames <? BATCH_FRAMES) && (batch_bytes frames <? BATCH_BYTES)%N.

Definition batch_rest (frames : list OutboundFrame) : option N := Some (BATCH_BYTES - batch_bytes frames)%N.

Section Steps.
Context `{JsonPrinter} `{Allocator} `{Notify}.
Variable limits : OutboundLimits.

(** A step of the channel that is not one of the writer's own. *)
Definition others (c c' : Channel) : Prop :=
  step limits c c' ∧ received c' = received c ∧ held c' = held c ∧ receiver_alive c' = receiver_alive c.

(** What [pump] does by itself, until it returns. *)
Inductive pump : Writer → Writer → Prop :=
(* the top of the loop *)
| pump_close w :
    place w = Selecting → draining w = true → closing w = false →
    pump w (set_closing (set_images (images w) true (set_channel (close_channel (channel w)) w)))
| pump_overloaded w :
    place w = Selecting → normal_open w = false → images_open w = false →
    overloaded (state (channel w)) = true →
    pump w (finish OutboundOverloaded (write OverloadChunk w))
| pump_finished w :
    place w = Selecting → normal_open w = false → images_open w = false →
    overloaded (state (channel w)) = false → pump w (finish Finished w)
(* the branch of the image artifacts *)
| pump_image w message rest :
    place w = Selecting → images_open w = true → images w = message :: rest →
    pump w (write (ImageChunk message) (set_images rest (images_closed w) w))
| pump_images_end w :
    place w = Selecting → images_open w = true → images w = [] → images_closed w = true →
    pump w (set_open (normal_open w) false w)
(* the branch of the queue *)
| pump_frame w frame st :
    place w = Selecting → normal_open w = true →
    try_recv_frame (state (channel w)) None = (Ok frame, st) →
    pump w (set_place (Batching [frame]) (set_channel (take_frame (channel w) frame st) w))
| pump_normal_end w st :
    place w = Selecting → normal_open w = true →
    try_recv_frame (state (channel w)) None = (Err Disconnected, st) →
    pump w (set_open false (images_open w) w)
| pump_more w frames next st :
    place w = Batching frames → batch_room frames = true →
    try_recv_frame (state (channel w)) (batch_rest frames) = (Ok next, st) →
    pump w (set_place (Batching (frames ++ [next])) (set_channel (take_frame (channel w) next st) w))
| pump_write w frames :
    place w = Batching frames →
    batch_room frames = false
      ∨ (∃ e st, try_recv_frame (state (channel w)) (batch_rest frames) = (Err e, st)) →
    pump w (set_place (Dropping frames) (write (FramesChunk frames) w))
| pump_drop w frame frames rest :
    place w = Dropping (frame :: frames) → held (channel w) = frame :: rest →
    pump w (set_place (Dropping frames)
              (set_channel (set_held rest (with_state (channel w) (drop_frame (state (channel w)) frame) [])) w))
| pump_dropped w : place w = Dropping [] → pump w (set_place Selecting w).

(** The writer among the other tasks. *)
Inductive writer_step : Writer → Writer → Prop :=
| writer_pump w w' : outcome w = None → pump w w' → writer_step w w'
| writer_others w c : others (channel w) c → writer_step w (set_channel c w)
| writer_image w message :
    images_closed w = false → writer_step w (set_images (images w ++ [message]) false w)
| writer_images_closed w : writer_step w (set_images (images w) true w)
(* [finish], a failure of the channel, the deadline, and a failing write *)
| writer_finish w :
    outcome w = None → deadline w = false →
    writer_step w (set_draining (set_channel (close_channel (channel w)) w))
| writer_channel_failed w :
    outcome w = None → deadline w = false → failed (state (channel w)) = true →
    writer_step w (set_draining (set_channel
      (close_channel (report_channel (channel w))) w))
| writer_timed_out w : outcome w = None → deadline w = true → writer_step w (finish TimedOut w)
| writer_failing_write w :
    outcome w = None → place w ≠ Dropping [] → writer_step w (finish WriteFailed w)
(* the frames and the receiver are dropped with the task *)
| writer_drop_frame w frame rest :
    outcome w ≠ None → held (channel w) = frame :: rest →
    writer_step w (set_channel
      (set_held rest (with_state (channel w) (drop_frame (state (channel w)) frame) [])) w)
| writer_drop_receiver w st signals :
    outcome w ≠ None → receiver_alive (channel w) = true → receiver (channel w) = Absent →
    drop_receiver (state (channel w)) = (st, signals) →
    writer_step w (set_channel (receiver_gone (with_state (channel w) st signals)) w).

Definition writer_reachable (w : Writer) : Prop := rtc writer_step writer_init w.
End Steps.

(** The frames that were written, in order. *)
Definition written_frames (chunks : list Chunk) : list OutboundFrame :=
  chunks ≫= λ chunk, match chunk with FramesChunk frames => frames | _ => [] end.

(** The bytes of the connection. *)
Definition chunk_bytes `{JsonPrinter} (chunk : Chunk) : list N :=
  match chunk with
  | FramesChunk frames => frames ≫= wire
  | ImageChunk message => to_vec message ++ [10%N]
  | OverloadChunk => overload_frame
  end.
