(* ===== verification/OutboundWriterFacts.v ===== *)
(** * The invariant of the writer

    What was written is what was received, in the order of the queue; a closed
    queue is drained before the pump returns.

    After that: the pump comes to its end. *)

From S2P Require Import Prelude RustText Json JsonPrinter Tokio Outbound OutboundInvariant.
From S2P Require Import OutboundChannel OutboundWriter.

Definition batched (p : Place) : list OutboundFrame := match p with Batching frames => frames | _ => [] end.
Definition in_hand (p : Place) : list OutboundFrame :=
  match p with Selecting => [] | Batching frames | Dropping frames => frames end.

(** A batch keeps to its bounds; a single frame may be of any size. *)
Definition batch_ok (frames : list OutboundFrame) : Prop :=
  1 ≤ length frames ≤ BATCH_FRAMES ∧ (length frames = 1 ∨ (batch_bytes frames <= BATCH_BYTES)%N).

Definition chunk_ok (chunk : Chunk) : Prop :=
  match chunk with FramesChunk frames => batch_ok frames | _ => True end.

Lemma batch_bytes_app l m : batch_bytes (l ++ m) = (batch_bytes l + batch_bytes m)%N.
Proof.
  unfold batch_bytes. induction l as [|f l IH]; cbn [app foldr]; [done|]. rewrite IH. lia.
Qed.

Lemma written_frames_app l m : written_frames (l ++ m) = written_frames l ++ written_frames m.
Proof. apply bind_app. Qed.

Lemma written_frames_snoc l fs : written_frames (l ++ [FramesChunk fs]) = written_frames l ++ fs.
Proof. rewrite written_frames_app. cbn. by rewrite app_nil_r. Qed.

Section Facts.
Context {JP : JsonPrinter} {JL : JsonPrinterLaws} {AL : Allocator} {ALL : AllocatorLaws} {NT : Notify} {NL : NotifyLaws}.
Variable limits : OutboundLimits.

(** Everything accepted was written. *)
Definition all_written (w : Writer) : Prop :=
  ∃ values, coalesced (accepted (channel w)) values
    ∧ Forall2 (shows limits) (written_frames (output w)) values.

Definition drained (w : Writer) : Prop :=
  queue (state (channel w)) = [] ∧ closed (state (channel w)) = true.

Record writer_ok (w : Writer) : Prop := mkWriterOk {
  w_channel : channel_ok limits (channel w);
  w_alive : outcome w = None → receiver_alive (channel w) = true;
  w_received : written_frames (output w) ++ batched (place w) = received (channel w);
  w_held : outcome w = None → held (channel w) = in_hand (place w);
  w_chunks : Forall chunk_ok (output w);
  w_batch : ∀ frames, place w = Batching frames → batch_ok frames;
  w_drained : normal_open w = false → drained w;
  w_ended : is_Some (outcome w) → outcome w = Some Finished ∨ outcome w = Some OutboundOverloaded → drained w;
  w_closing : closing w = true → closed (state (channel w)) = true ∧ images_closed w = true;
  w_running : outcome w = None → OverloadChunk ∉ output w;
  w_finished : outcome w = Some Finished → all_written w ∧ OverloadChunk ∉ output w;
  w_overloaded : outcome w = Some OutboundOverloaded →
    all_written w ∧ ∃ chunks, output w = chunks ++ [OverloadChunk] ∧ OverloadChunk ∉ chunks;
}.

Lemma writer_init_ok : writer_ok writer_init.
Proof. split; try done; [apply init_ok|by intros []|intros _; apply not_elem_of_nil]. Qed.

(** ** A closed channel *)

Lemma drop_frame_keeps st f : queue (drop_frame st f) = queue st ∧ closed (drop_frame st f) = closed st.
Proof. unfold drop_frame. by destruct (oversize f). Qed.

Lemma closed_step c c' : step limits c c' → closed (state c) = true →
  closed (state c') = true ∧ accepted c' = accepted c ∧ (queue (state c) = [] → queue (state c') = []).
Proof.
  intros H Hc. destruct H.
  - unfold send_on, send. by rewrite Hc.
  - done.
  - unfold drop_sender in *. simplify_eq/=. by destruct (_ =? _)%N.
  - unfold close in *. by simplify_eq/=.
  - unfold writer_failed in *. by simplify_eq/=.
  - done.
  - destruct (recv_flags _ _ _ _ H0) as (_ & E & _). cbn. rewrite E. split_and!; [done..|].
    by rewrite (recv_queue _ _ _ _ H0).
  - done.
  - destruct (recv_flags _ _ _ _ H1) as (_ & E & _). cbn. rewrite E. split_and!; [done..|].
    by rewrite (recv_queue _ _ _ _ H1).
  - done.
  - done.
  - done.
  - cbn. by destruct (drop_frame_keeps (state c) frame) as [-> ->].
  - unfold drop_receiver in *. simplify_eq/=.
    destruct (drop_frames_keep (set_queue [] (set_closed (if closed (state c) then state c else set_failed true (state c))))
      (queue (if closed (state c) then state c else set_failed true (state c)))) as (-> & -> & _). done.
  - done.
  - done.
  - done.
  - destruct s; cbn; [by destruct (notify_one _ _)|done].
Qed.

Lemma closed_channel c : closed (state (close_channel c)) = true.
Proof. done. Qed.

(** A change of the channel that receives nothing. *)
Lemma set_channel_ok w c :
  writer_ok w → channel_ok limits c →
  received c = received (channel w) →
  (outcome w = None → held c = held (channel w) ∧ receiver_alive c = receiver_alive (channel w)) →
  (closed (state (channel w)) = true →
     closed (state c) = true ∧ accepted c = accepted (channel w)
     ∧ (queue (state (channel w)) = [] → queue (state c) = [])) →
  writer_ok (set_channel c w).
Proof.
  intros [H1 H2 H3 H4 H5 H6 H7 H8 H9 H10 H11 H12] Hok Hr Hh Hc.
  assert (drained w → drained (set_channel c w)) as Hd.
  { intros [Hq Hcl]. destruct (Hc Hcl) as (? & ? & ?). split; cbn; auto. }
  assert (drained w → all_written w → all_written (set_channel c w)) as Ha.
  { intros [Hq Hcl] (vs & ? & ?). destruct (Hc Hcl) as (_ & E & _). exists vs. cbn. by rewrite E. }
  split; cbn; auto.
  - intros Ho. destruct (Hh Ho) as [_ ->]. auto.
  - by rewrite Hr.
  - intros Ho. destruct (Hh Ho) as [-> _]. auto.
  - intros Hcl. destruct (H9 Hcl) as [? ?]. split; [|done]. by apply Hc.
  - intros Ho. destruct (H11 Ho) as [? ?]. split; [apply Ha; [apply H8; [by rewrite Ho|auto]|done]|done].
  - intros Ho. destruct (H12 Ho) as [? ?]. split; [apply Ha; [apply H8; [by rewrite Ho|auto]|done]|done].
Qed.

(** ** The pump *)

(** The invariant while the pump runs. *)
Record running (w : Writer) : Prop := mkRunning {
  r_outcome : outcome w = None;
  r_channel : channel_ok limits (channel w);
  r_alive : receiver_alive (channel w) = true;
  r_received : written_frames (output w) ++ batched (place w) = received (channel w);
  r_held : held (channel w) = in_hand (place w);
  r_chunks : Forall chunk_ok (output w);
  r_batch : ∀ frames, place w = Batching frames → batch_ok frames;
  r_drained : normal_open w = false → drained w;
  r_closing : closing w = true → closed (state (channel w)) = true ∧ images_closed w = true;
  r_overload : OverloadChunk ∉ output w;
}.

Lemma running_iff w : running w ↔ outcome w = None ∧ writer_ok w.
Proof.
  split.
  - intros []. split; [done|]. split; try done; intros; naive_solver.
  - intros [Ho []]. by split; auto.
Qed.

Lemma drained_written w : running w → drained w → place w = Selecting → all_written w.
Proof.
  intros H [Hq _] Hp. destruct (ok_shown _ _ (r_channel _ H)) as (vs & lost & Hco & Hsh & Hlost).
  rewrite (Hlost (r_alive _ H)), app_nil_r in Hco. exists vs. split; [done|].
  pose proof (r_received _ H) as Hr. rewrite Hp in Hr. cbn in Hr. rewrite app_nil_r in Hr.
  by rewrite Hq, <-Hr, app_nil_r in Hsh.
Qed.

Lemma report_channel_ok c : channel_ok limits c → channel_ok limits (report_channel c).
Proof. apply report_ok. Qed.

Lemma fail_channel_ok c : channel_ok limits c → channel_ok limits (fail_channel c).
Proof. intros H. by eapply writer_failed_ok. Qed.

Lemma close_channel_ok c : channel_ok limits c → channel_ok limits (close_channel c).
Proof. intros H. by eapply close_ok. Qed.

(** The end of the pump: [result] and what was written last. *)
Lemma finish_ok w result chunks :
  running w →
  (result = Finished → drained w ∧ place w = Selecting ∧ chunks = []) →
  (result = OutboundOverloaded → drained w ∧ place w = Selecting ∧ chunks = [OverloadChunk]) →
  (chunks ≠ [] → result = OutboundOverloaded) →
  writer_ok (finish result (foldr write w chunks)).
Proof.
  intros H Hf Ho Hn. pose proof (drained_written w H) as Ha. destruct H as [H0 H1 H2 H3 H4 H5 H6 H7 H8 H9].
  assert (chunks = [] ∨ chunks = [OverloadChunk]) as Hcs.
  { destruct chunks as [|x l]; [by left|]. right. by apply Ho, Hn. }
  assert (foldr write w chunks = mkWriter (channel w) (images w) (images_closed w) (draining w) (deadline w)
    (normal_open w) (images_open w) (closing w) (place w) (output w ++ chunks) (outcome w)) as ->.
  { destruct Hcs as [-> | ->]; [|done]. destruct w. cbn. by rewrite app_nil_r. }
  set (c := match result with Finished => channel w | _ => fail_channel (channel w) end).
  assert (channel_ok limits c) as Hok by (unfold c; destruct result; auto using fail_channel_ok).
  assert (queue (state c) = queue (state (channel w)) ∧ accepted c = accepted (channel w)
    ∧ received c = received (channel w) ∧ (closed (state (channel w)) = true → closed (state c) = true))
    as (Eq & Ea & Er & Ec) by (unfold c; by destruct result).
  assert (written_frames (output w ++ chunks) = written_frames (output w)) as Ew.
  { rewrite written_frames_app. destruct Hcs as [-> | ->]; by rewrite app_nil_r. }
  assert (∀ w', channel w' = report_channel c → drained w → drained w') as Hd.
  { intros w' E [? ?]. unfold drained. rewrite E. split; cbn; [by rewrite Eq|auto]. }
  assert (∀ w', channel w' = report_channel c → output w' = output w ++ chunks → all_written w → all_written w') as Hw.
  { intros w' E E' (vs & ? & ?). exists vs. rewrite E, E', Ew. cbn. by rewrite Ea. }
  split; cbn [finish channel images images_closed draining deadline normal_open images_open closing place output outcome];
    try fold c; try done.
  - by apply report_channel_ok.
  - rewrite Ew, H3. by rewrite <-Er.
  - apply Forall_app. split; [done|]. destruct Hcs as [-> | ->]; by repeat constructor.
  - intros E. apply Hd; [done|auto].
  - intros _ [[= ->]|[= ->]]; (apply Hd; [done|]); [by apply Hf|by apply Ho].
  - intros E. destruct (H8 E) as [? ?]. split; [|done]. cbn. auto.
  - intros [= ->]. destruct Hf as (? & ? & ->); [done|]. rewrite app_nil_r. split; [|done].
    apply Hw; [done|cbn; by rewrite app_nil_r|auto].
  - intros [= ->]. destruct Ho as (? & ? & ->); [done|]. split; [apply Hw; [done|done|auto]|eauto].
Qed.

(** Taking the next frame of the queue into the batch. *)
Lemma take_into_batch w max frame st frames :
  running w → batched (place w) = frames → in_hand (place w) = frames →
  batch_ok (frames ++ [frame]) →
  try_recv_frame (state (channel w)) max = (Ok frame, st) →
  running (set_place (Batching (frames ++ [frame])) (set_channel (take_frame (channel w) frame st) w)).
Proof.
  intros [H0 H1 H2 H3 H4 H5 H6 H7 H8 H9] Hb Hi Hok Hr.
  pose proof (recv_queue _ _ _ _ Hr) as Hq. destruct (recv_flags _ _ _ _ Hr) as (_ & Ec & _).
  split; cbn [set_place set_channel channel images images_closed draining deadline normal_open images_open
                closing place output outcome]; try done.
  - by eapply take_frame_ok.
  - cbn. rewrite <-H3, Hb. by rewrite app_assoc.
  - cbn. by rewrite H4, Hi.
  - by intros ? [= <-].
  - intros E. destruct (H7 E) as [Hn _]. by rewrite Hq in Hn.
  - cbn. by rewrite Ec.
Qed.

Lemma recv_fits st n frame st' :
  try_recv_frame st (Some n) = (Ok frame, st') → (len (wire frame) <= n)%N.
Proof.
  unfold try_recv_frame. destruct (queue st) as [|f q]; [done|]. cbn.
  destruct (_ <? _)%N eqn:E; [done|]. intros [= -> _]. by apply N.ltb_ge.
Qed.

Lemma batch_grows frames next :
  batch_room frames = true → batch_ok frames →
  (len (wire next) <= BATCH_BYTES - batch_bytes frames)%N → batch_ok (frames ++ [next]).
Proof.
  unfold batch_room, batch_ok. intros [H1%Nat.ltb_lt H2%N.ltb_lt]%andb_true_iff [H3 H4] Hn.
  rewrite length_app, batch_bytes_app. cbn. lia.
Qed.

Lemma pump_ok w w' : running w → pump w w' → writer_ok w'.
Proof.
  intros H. pose proof H as [H0 H1 H2 H3 H4 H5 H6 H7 H8 H9]. destruct 1 as
    [w Hp Hd Hc|w Hp Hn Hi Ho|w Hp Hn Hi Ho|w m rest Hp Hi Him|w Hp Hi Him Hic|w f st Hp Hn Hr|w st Hp Hn Hr
    |w fs f st Hp Hroom Hr|w fs Hp Hroom|w f fs rest Hp Hh|w Hp].
  - apply running_iff. split; try done; [by apply close_channel_ok|].
    intros E. by destruct (H7 E).
  - apply (finish_ok w OutboundOverloaded [OverloadChunk]); [done|done|auto|done].
  - apply (finish_ok w Finished []); [done|auto|done|done].
  - apply running_iff. split; try done; cbn -[written_frames].
    + by rewrite written_frames_app, app_nil_r.
    + apply Forall_app. split; [done|by repeat constructor].
    + rewrite elem_of_app, list_elem_of_singleton. by intros [?|?].
  - apply running_iff. by split.
  - apply running_iff. apply (take_into_batch w None f st []); try done; [by rewrite Hp..|].
    split; [cbn; unfold BATCH_FRAMES; lia|by left].
  - apply running_iff. split; try done; cbn -[written_frames]. intros _. unfold try_recv_frame in Hr.
    destruct (queue _) eqn:Eq; [|done]. destruct (closed _) eqn:Ec; [|done]. by split.
  - apply running_iff. apply (take_into_batch w (batch_rest fs) f st fs); try done; [by rewrite Hp..|].
    apply batch_grows; [done|by apply H6|]. by eapply recv_fits.
  - apply running_iff. split; try done; cbn -[written_frames].
    + by rewrite written_frames_snoc, <-H3, Hp, app_nil_r.
    + by rewrite H4, Hp.
    + apply Forall_app. split; [done|]. apply Forall_singleton. by apply H6.
    + rewrite elem_of_app, list_elem_of_singleton. by intros [?|?].
  - destruct (drop_frame_keeps (state (channel w)) f) as [Eq Ec].
    apply running_iff. split; try done; cbn -[written_frames].
    + by apply (drop_frame_ok limits _ []).
    + by rewrite <-H3, Hp.
    + rewrite H4, Hp in Hh. by injection Hh.
    + intros E. destruct (H7 E) as [? ?]. split; cbn; congruence.
    + intros E. rewrite Ec. auto.
  - apply running_iff. split; try done; cbn -[written_frames].
    + by rewrite <-H3, Hp.
    + by rewrite H4, Hp.
Qed.

Lemma writer_step_ok w w' : writer_ok w → writer_step limits w w' → writer_ok w'.
Proof using AL ALL JL JP NL NT limits.
  intros H Hs. destruct Hs as [w w' Ho Hp|w c [Hc (Er & Eh & Ea)]|w m Hi|w|w Ho Hd|w Ho Hd Hf|w Ho Hd|w Ho Hp
    |w f rest Ho Hh|w st sg Ho Ha Hr Hd].
  - eapply pump_ok; [|done]. by apply running_iff.
  - apply set_channel_ok; try done.
    + eapply step_ok; [apply H|done].
    + by apply closed_step.
  - destruct H. split; try done. cbn. intros E. destruct (w_closing0 E). congruence.
  - destruct H. split; try done. cbn. intros E. by destruct (w_closing0 E).
  - assert (writer_ok (set_channel (close_channel (channel w)) w)) as [].
    { apply set_channel_ok; try done. apply close_channel_ok, H. }
    by split.
  - assert (writer_ok (set_channel (close_channel (report_channel (channel w))) w)) as [].
    { apply set_channel_ok; try done. apply close_channel_ok, report_channel_ok, H. }
    by split.
  - apply (finish_ok w TimedOut []); try done. by apply running_iff.
  - apply (finish_ok w WriteFailed []); try done. by apply running_iff.
  - destruct (drop_frame_keeps (state (channel w)) f) as [Eq Ec]. apply set_channel_ok; try done.
    + apply (drop_frame_ok limits _ []); [apply H|done].
    + cbn. by rewrite Eq, Ec.
  - apply set_channel_ok; try done.
    + eapply drop_receiver_ok; [apply H|done..].
    + unfold drop_receiver in Hd. injection Hd as <- <-. intros Hc. cbn.
      destruct (drop_frames_keep (set_queue [] (set_closed (if closed (state (channel w)) then state (channel w)
        else set_failed true (state (channel w))))) (queue (if closed (state (channel w)) then state (channel w)
        else set_failed true (state (channel w))))) as (-> & -> & _). done.
Qed.

Lemma writer_reachable_ok w : writer_reachable limits w → writer_ok w.
Proof using AL ALL JL JP NL NT limits.
  unfold writer_reachable. intros Hr. pose proof writer_init_ok as Hi. revert Hi.
  induction Hr as [|a b d Hab _ IH]; [done|]. intros Ha. by apply IH, (writer_step_ok a).
Qed.
End Facts.

(** * The pump comes to its end

    Once the shutdown was requested, the pump alone - whatever is in the queue, in
    the hands of the writer and among the images - reaches its end by finitely many
    writes. *)

Section Liveness.
Context {JP : JsonPrinter} {JL : JsonPrinterLaws} {AL : Allocator} {ALL : AllocatorLaws} {NT : Notify} {NL : NotifyLaws}.
Variable limits : OutboundLimits.

(** A step of the pump before it has returned. *)
Definition pumping (w w' : Writer) : Prop := outcome w = None ∧ pump w w'.

Lemma pumping_running w w' : running limits w → pumping w w' → outcome w' = None → running limits w'.
Proof. intros H [_ Hp] Ho. apply running_iff. split; [done|]. by eapply pump_ok. Qed.

Definition queue_length (w : Writer) : nat := length (queue (state (channel w))).

(** The steps that finish a batch touch nothing else. *)
Record calm (w w' : Writer) : Prop := mkCalm {
  calm_images : images w' = images w;
  calm_images_closed : images_closed w' = images_closed w;
  calm_draining : draining w' = draining w;
  calm_closing : closing w' = closing w;
  calm_normal : normal_open w' = normal_open w;
  calm_images_open : images_open w' = images_open w;
  calm_queue : queue_length w' <= queue_length w;
}.

#[local] Instance calm_refl : Reflexive calm.
Proof. by intros w. Qed.
#[local] Instance calm_trans : Transitive calm.
Proof.
  intros a b c [] []. split; try congruence. by etransitivity.
Qed.

Definition settles (w : Writer) : Prop :=
  ∃ w', rtc pumping w w' ∧ running limits w' ∧ place w' = Selecting ∧ calm w w'.

Lemma settles_step w w' : running limits w → pump w w' → outcome w' = None → calm w w' →
  (running limits w' → settles w') → settles w.
Proof.
  intros H Hp Ho Hc Hs. assert (pumping w w') as Hpw by (split; [apply H|done]).
  destruct Hs as (v & Hr & Hv & Hpl & Hcv); [by eapply pumping_running|].
  exists v. split_and!; [by eapply rtc_l|done|done|by etransitivity].
Qed.

Lemma dropping_settles frames w : running limits w → place w = Dropping frames → settles w.
Proof.
  revert w. induction frames as [|f frames IH]; intros w H Hp.
  - eapply settles_step; [done|by apply pump_dropped|apply H|done|].
    intros Hr. exists (set_place Selecting w). split_and!; try done.
  - pose proof (r_held _ _ H) as Hh. rewrite Hp in Hh. cbn in Hh.
    eapply settles_step; [done|by eapply pump_drop|apply H| |intros Hr; by apply IH].
    split; try done. unfold queue_length. cbn. by rewrite (proj1 (drop_frame_keeps _ _)).
Qed.

Lemma batching_settles n frames w :
  queue_length w ≤ n → running limits w → place w = Batching frames → settles w.
Proof.
  revert frames w. induction n as [|n IH]; intros frames w Hn H Hp.
  all: destruct (try_recv_frame (state (channel w)) (batch_rest frames)) as [[f|e] st] eqn:Hr.
  all: destruct (batch_room frames) eqn:Hb.
  all: try (eapply settles_step; [done|apply (pump_write w frames Hp); eauto|apply H|done|];
            intros Hw; by eapply dropping_settles).
  - unfold queue_length in Hn. rewrite (recv_queue _ _ _ _ Hr) in Hn. cbn in Hn. lia.
  - assert (queue_length w = S (length (queue st))) as Hl
      by (unfold queue_length; by rewrite (recv_queue _ _ _ _ Hr)).
    eapply settles_step; [done|by eapply pump_more|apply H| |intros Hw; eapply IH; [|done|done]].
    + split; try done. unfold queue_length in *. cbn. lia.
    + unfold queue_length in *. cbn. lia.
Qed.

Lemma running_settles w : running limits w → settles w.
Proof.
  intros H. destruct (place w) as [|fs|fs] eqn:Hp.
  - by exists w.
  - by eapply batching_settles.
  - by eapply dropping_settles.
Qed.

(** What is left to do once the queue is closed. *)
Definition left_over (w : Writer) : nat :=
  queue_length w + length (images w) + (if normal_open w then 1 else 0) + (if images_open w then 1 else 0).

Definition ends (w : Writer) : Prop :=
  ∃ w', rtc pumping w w' ∧ (outcome w' = Some Finished ∨ outcome w' = Some OutboundOverloaded).

Lemma ends_step w w' : running limits w → pump w w' → ends w' → ends w.
Proof. intros H Hp (v & Hr & Ho). exists v. split; [|done]. eapply rtc_l; [split; [apply H|done]|done]. Qed.

Lemma closing_ends n w :
  left_over w ≤ n → running limits w → place w = Selecting → closing w = true → ends w.
Proof.
  revert w. induction n as [n IH] using lt_wf_ind. intros w Hn H Hp Hc.
  assert (∀ w', pump w w' → outcome w' = None → left_over w' < left_over w → place w' = Selecting →
            closing w' = true → ends w) as Hgo.
  { intros w' Hpw Ho Hl Hp' Hc'. eapply ends_step; [done..|].
    apply (IH (left_over w')); [lia|lia| |done|done]. by eapply pumping_running; [|split; [apply H|]|]. }
  destruct (r_closing _ _ H Hc) as [Hcl Hic].
  destruct (normal_open w) eqn:En.
  - destruct (queue (state (channel w))) as [|f q] eqn:Eq.
    + apply (Hgo (set_open false (images_open w) w)); try done; [|apply H|].
      * apply (pump_normal_end w (state (channel w))); [done..|]. unfold try_recv_frame. by rewrite Eq, Hcl.
      * unfold left_over. cbn. rewrite En. unfold queue_length. cbn. lia.
    + destruct (try_recv_frame (state (channel w)) None) as [[g|e] st] eqn:Er;
        [|unfold try_recv_frame in Er; by rewrite Eq in Er].
      pose proof (pump_frame w g st Hp En Er) as Hpf.
      eapply ends_step; [done|exact Hpf|].
      pose proof (pumping_running w _ H (conj (r_outcome _ _ H) Hpf) (r_outcome _ _ H)) as Hr.
      destruct (running_settles _ Hr) as (v & Hv & Hrv & Hpv & Hca).
      assert (ends v) as (u & Hu & Ho).
      { apply (IH (left_over v)); [|done|done|done|by rewrite (calm_closing _ _ Hca)].
        pose proof (recv_queue _ _ _ _ Er) as Hq. destruct Hca as [C1 C2 C3 C4 C5 C6 C7].
        unfold left_over, queue_length in *. rewrite C1, C5, C6. cbn in *. rewrite Hq in Hn. cbn in Hn. lia. }
      exists u. split; [by etransitivity|done].
  - destruct (images_open w) eqn:Ei.
    + destruct (images w) as [|m ms] eqn:Em.
      * apply (Hgo (set_open (normal_open w) false w)); try done; [by apply pump_images_end|apply H|].
        unfold left_over. cbn. rewrite Ei. unfold queue_length. cbn. lia.
      * apply (Hgo (write (ImageChunk m) (set_images ms (images_closed w) w))); try done;
          [by apply pump_image|apply H|].
        unfold left_over. cbn. rewrite Em. unfold queue_length. cbn. lia.
    + destruct (overloaded (state (channel w))) eqn:Eo.
      * eapply ends_step; [done|by apply pump_overloaded|]. eexists. split; [apply rtc_refl|by right].
      * eapply ends_step; [done|by apply pump_finished|]. eexists. split; [apply rtc_refl|by left].
Qed.

Lemma draining_ends w : running limits w → draining w = true → ends w.
Proof.
  intros H Hd. destruct (running_settles w H) as (v & Hr & Hv & Hp & Hc).
  assert (ends v) as (u & Hu & Ho).
  { destruct (closing v) eqn:Ec; [by eapply closing_ends|].
    rewrite <-(calm_draining _ _ Hc) in Hd.
    pose proof (pump_close v Hp Hd Ec) as Hpc. eapply ends_step; [done|exact Hpc|].
    eapply closing_ends; [done| |done|done]. eapply pumping_running; [done|split; [apply Hv|done]|apply Hv]. }
  exists u. split; [by etransitivity|done].
Qed.

(** The pump accepts nothing. *)
Lemma pumping_accepts w w' : rtc pumping w w' → accepted (channel w') = accepted (channel w).
Proof.
  induction 1 as [|a b c [_ Hp] _ IH]; [done|]. rewrite IH. by destruct Hp.
Qed.
End Liveness.
