(* ===== verification/OutboundClaims.v ===== *)
(** * The properties of the outbound queue *)

From S2P Require Import Prelude RustText Json JsonPrinter Tokio Outbound OutboundInvariant.
From S2P Require Import OutboundChannel OutboundWriter OutboundWriterFacts.

(** ** The text of a stream *)

(** The text a value adds to the stream of a run. *)
Definition event_text (run_id : rstr) (stream : option Value) (v : Value) : rstr :=
  match (params ← value_get (rs "params") v; get_str "delta" params) with
  | Some text => if value_eqb v (delta_event run_id stream text) then text else []
  | None => []
  end.

Definition stream_text (run_id : rstr) (stream : option Value) (vs : list Value) : rstr :=
  vs ≫= event_text run_id stream.

Lemma event_text_event r s r' s' t :
  event_text r s (delta_event r' s' t) = if value_eqb (delta_event r' s' []) (delta_event r s []) then t else [].
Proof.
  assert ((params ← value_get (rs "params") (delta_event r' s' t); get_str "delta" params) = Some t) as E
    by reflexivity.
  unfold event_text. rewrite E.
  destruct (value_eqb (delta_event r' s' t) _) eqn:E1, (value_eqb (delta_event r' s' []) _) eqn:E2; try done.
  - apply value_eqb_eq in E1. apply not_true_iff_false in E2. rewrite value_eqb_eq in E2. destruct E2.
    destruct s, s'; by simplify_eq/=.
  - apply value_eqb_eq in E2. apply not_true_iff_false in E1. rewrite value_eqb_eq in E1. destruct E1.
    destruct s, s'; by simplify_eq/=.
Qed.

Lemma stream_text_app r s vs ws : stream_text r s (vs ++ ws) = stream_text r s vs ++ stream_text r s ws.
Proof. apply bind_app. Qed.

Lemma stream_text_one r s v : stream_text r s [v] = event_text r s v.
Proof. apply app_nil_r. Qed.

(** Joining deltas changes no stream. *)
Lemma coalesced_text r s vs ws : coalesced vs ws → stream_text r s ws = stream_text r s vs.
Proof.
  induction 1 as [|vs ws v _ IH|vs ws r' s' t t' _ IH]; [done| |].
  - by rewrite !stream_text_app, IH.
  - rewrite !stream_text_app, !stream_text_one, !event_text_event in *. rewrite <-IH.
    case_match; by rewrite ?app_nil_r, <-?app_assoc.
Qed.

(** ** Running the writer *)

#[export] Instance outcome_eq_dec : EqDecision Outcome.
Proof. solve_decision. Defined.

Section Run.
Context {JP : JsonPrinter} {AL : Allocator} {NT : Notify}.
Variable limits : OutboundLimits.

(** One step of the pump, images last. *)
Definition pump_image_next (w : Writer) : Writer :=
  if images_open w then
    match images w with
    | message :: rest => write (ImageChunk message) (set_images rest (images_closed w) w)
    | [] => if images_closed w then set_open (normal_open w) false w else w
    end
  else if normal_open w then w
  else if overloaded (state (channel w)) then finish OutboundOverloaded (write OverloadChunk w)
  else finish Finished w.

Definition pump_next (w : Writer) : Writer :=
  match place w with
  | Selecting =>
      if draining w && negb (closing w)
      then set_closing (set_images (images w) true (set_channel (close_channel (channel w)) w))
      else if normal_open w then
        match try_recv_frame (state (channel w)) None with
        | (Ok f, st) => set_place (Batching [f]) (set_channel (take_frame (channel w) f st) w)
        | (Err Disconnected, _) => set_open false (images_open w) w
        | (Err Empty, _) => pump_image_next w
        end
      else pump_image_next w
  | Batching fs =>
      if batch_room fs then
        match try_recv_frame (state (channel w)) (batch_rest fs) with
        | (Ok f, st) => set_place (Batching (fs ++ [f])) (set_channel (take_frame (channel w) f st) w)
        | (Err _, _) => set_place (Dropping fs) (write (FramesChunk fs) w)
        end
      else set_place (Dropping fs) (write (FramesChunk fs) w)
  | Dropping [] => set_place Selecting w
  | Dropping (f :: fs) =>
      set_place (Dropping fs)
        (set_channel (set_held (tail (held (channel w)))
                        (with_state (channel w) (drop_frame (state (channel w)) f) [])) w)
  end.

(** A send, a notification of the image artifacts, a request to finish, a pump step. *)
Inductive Act := Send (value : Value) | Image (message : Value) | Finish | Pump (n : nat).

Definition act (w : Writer) (a : Act) : Writer :=
  match a with
  | Send value => if (senders (state (channel w)) =? 0)%N then w else set_channel (send_on limits (channel w) value) w
  | Image message => if images_closed w then w else set_images (images w ++ [message]) false w
  | Finish =>
      if bool_decide (outcome w = None) && negb (deadline w)
      then set_draining (set_channel (close_channel (channel w)) w) else w
  | Pump n => Nat.iter n (λ w, if bool_decide (outcome w = None) then pump_next w else w) w
  end.

Definition acts (l : list Act) : Writer := foldl act writer_init l.
End Run.

Section RunSound.
Context {JP : JsonPrinter} {JL : JsonPrinterLaws} {AL : Allocator} {ALL : AllocatorLaws} {NT : Notify} {NL : NotifyLaws}.
Variable limits : OutboundLimits.

Lemma pump_image_next_sound w : place w = Selecting → (images_open w = false → normal_open w = false ∨ pump_image_next w = w) →
  pump_image_next w = w ∨ pump w (pump_image_next w).
Proof.
  intros Hp. unfold pump_image_next. destruct (images_open w) eqn:Ei.
  - destruct (images w) as [|m ms] eqn:Em; [|right; by apply pump_image].
    destruct (images_closed w) eqn:Ec; [right; by apply pump_images_end|by left].
  - intros _. destruct (normal_open w) eqn:En; [by left|right].
    destruct (overloaded _) eqn:Eo; [by apply pump_overloaded|by apply pump_finished].
Qed.

Lemma pump_next_sound w : running limits w → pump_next w = w ∨ pump w (pump_next w).
Proof.
  intros H. unfold pump_next. destruct (place w) as [|fs|[|f fs]] eqn:Hp.
  - destruct (draining w && negb (closing w)) eqn:Ed.
    { apply andb_true_iff in Ed as [Ed Ec%negb_true_iff]. right. by apply pump_close. }
    destruct (normal_open w) eqn:En; [|apply pump_image_next_sound; [done|by left]].
    destruct (try_recv_frame _ None) as [[f|[]] st] eqn:Er.
    + right. by apply pump_frame.
    + apply pump_image_next_sound; [done|]. intros Ei. right. unfold pump_image_next. by rewrite Ei, En.
    + right. by eapply pump_normal_end.
  - destruct (batch_room fs) eqn:Eb; [|right; apply pump_write; [done|by left]].
    destruct (try_recv_frame _ _) as [[f|e] st] eqn:Er; right; [by eapply pump_more|].
    apply pump_write; [done|right; eauto].
  - right. by apply pump_dropped.
  - right. pose proof (r_held _ _ H) as Hh. rewrite Hp in Hh. cbn in Hh.
    eapply pump_drop; [done|]. by rewrite Hh.
Qed.

Definition sends_printable (a : Act) : Prop := if a is Send v then printable v else True.

Lemma act_reachable w a : writer_reachable limits w → sends_printable a → writer_reachable limits (act limits w a).
Proof using AL ALL JL JP NL NT limits.
  intros H Ha. destruct a as [v|m| |n]; cbn [act].
  - destruct (_ =? 0)%N eqn:E; [done|]. apply N.eqb_neq in E. eapply rtc_r; [exact H|].
    assert (step limits (channel w) (send_on limits (channel w) v)) as Hs by (apply step_send; [lia|done]).
    apply writer_others. split; [done|]. unfold send_on. destruct (send _ _ _) as [[[] ?] ?]; done.
  - destruct (images_closed w) eqn:E; [done|]. eapply rtc_r; [exact H|]. by apply writer_image.
  - case_bool_decide as Ho; [|done]. destruct (deadline w) eqn:Ed; [done|].
    eapply rtc_r; [exact H|]. by apply writer_finish.
  - clear Ha. induction n as [|n IH]; [done|]. rewrite Nat.iter_succ. revert IH.
    generalize (Nat.iter n (λ w, if bool_decide (outcome w = None) then pump_next w else w) w).
    intros v Hv. cbv beta.
    case_bool_decide as Ho; [|done]. destruct (pump_next_sound v) as [-> |Hp]; [|done|].
    + apply running_iff. split; [done|by apply writer_reachable_ok].
    + eapply rtc_r; [exact Hv|]. by apply writer_pump.
Qed.

Lemma acts_reachable l : Forall sends_printable l → writer_reachable limits (acts limits l).
Proof using AL ALL JL JP NL NT limits.
  unfold acts. assert (writer_reachable limits writer_init) as Hi by apply rtc_refl. revert Hi.
  generalize writer_init. induction l as [|a l IH]; intros w Hw Hl; [done|].
  apply Forall_cons in Hl as [Ha Hl]. cbn. apply IH; [|done]. by apply act_reachable.
Qed.
End RunSound.

(** ** Example run

    Six frames at most, two of them reserved; the queue holds 400 bytes of deltas
    and 200 of reserve. *)

#[export] Instance exact_allocator : Allocator := {| with_capacity n := n |}.
#[export] Instance exact_allocator_laws : AllocatorLaws.
Proof. split. intros n. done. Qed.

Definition small_limits : OutboundLimits := mkLimits 400 200 6 2 300.

Definition delta_of (run_id text : string) : Value := delta_event (rs run_id) None (rs text).
Definition response (id : string) : Value :=
  Object [(rs "id", Number (rs id)); (rs "jsonrpc", String (rs "2.0")); (rs "result", Bool true)].

Lemma delta_of_printable run_id text :
  valid_literal run_id && valid_literal text = true → printable (delta_of run_id text).
Proof. intros [Hr Ht]%andb_true_iff. apply printable_event. split_and!; [by apply literal_valid..|done]. Qed.

Lemma response_printable id :
  valid_literal id && forallb number_char (rs id) && negb (bool_decide (rs id = [])) = true → printable (response id).
Proof.
  intros [[Hv Hn]%andb_true_iff He%negb_true_iff]%andb_true_iff. apply bool_decide_eq_false in He.
  constructor; [split; by_computation|].
  repeat (apply Forall_cons; split; [apply literal_field; [done|]|]); [|by apply literal_String|constructor|constructor].
  constructor. split; [done|]. apply Forall_forall. intros c Hc. by apply (proj1 (forallb_true _ _) Hn).
Qed.

Lemma delta_event_inj r s t t' : delta_event r s t = delta_event r s t' → t = t'.
Proof. destruct s; intros; by simplify_eq/=. Qed.

(** The second delta joins the first one, whose vector doubles; the second delta of
    run [b] does not fit any more, and the connection fails; what was accepted is
    drained, with the image. *)
Definition overload_run : list Act :=
  [Send (delta_of "a" "Hel"); Send (delta_of "a" "lo"); Send (response "7"); Send (delta_of "b" "x");
   Image (response "8"); Send (delta_of "a" "!"); Send (delta_of "b" "y"); Send (response "9"); Finish; Pump 40].

Lemma overload_run_printable : Forall sends_printable overload_run.
Proof.
  repeat (apply Forall_cons; split);
    try (apply delta_of_printable; reflexivity); try (apply response_printable; reflexivity); try done.
Qed.

Definition overload_end : Writer := acts small_limits overload_run.

Example overload_run_ends :
  (outcome overload_end, accepted (channel overload_end), length (written_frames (output overload_end)))
  = (Some OutboundOverloaded,
     [delta_of "a" "Hel"; delta_of "a" "lo"; response "7"; delta_of "b" "x"; delta_of "a" "!"], 4).
Proof. vm_compute. reflexivity. Qed.

Lemma overload_end_reachable : writer_reachable small_limits overload_end.
Proof. apply acts_reachable, overload_run_printable. Qed.

(** ** The connection *)

Lemma shown_lines {JP : JsonPrinter} limits frames values :
  Forall2 (shows limits) frames values → frames ≫= wire = values ≫= line.
Proof. induction 1 as [|f v fs vs Hf _ IH]; [done|]. cbn. by rewrite (shows_wire _ _ _ Hf), IH. Qed.

(** C7. When the writer has come to its end - because the producers are done or
    because the queue overflowed - the frames it wrote are, line by line and in
    order, the values that were accepted, except that a message delta may be joined
    to the delta of the same run and stream right before it; the text of every
    stream is what was sent; after an overflow, and only then, the overload frame
    follows, as the last thing written; every write is one frame, or at most 64
    frames of 64 KiB in all. *)
Theorem accepted_lines_are_written {JP : JsonPrinter} {JL : JsonPrinterLaws} {AL : Allocator}
    {ALL : AllocatorLaws} limits w :
  writer_reachable limits w →
  outcome w = Some Finished ∨ outcome w = Some OutboundOverloaded →
  (∃ values, coalesced (accepted (channel w)) values
     ∧ (written_frames (output w) ≫= wire) = (values ≫= line)
     ∧ ∀ r s, stream_text r s values = stream_text r s (accepted (channel w)))
  ∧ (if bool_decide (outcome w = Some OutboundOverloaded)
     then ∃ chunks, output w = chunks ++ [OverloadChunk] ∧ OverloadChunk ∉ chunks
     else OverloadChunk ∉ output w)
  ∧ Forall chunk_ok (output w).
Proof.
  intros H%writer_reachable_ok Ho. split_and!; [| |apply H].
  - assert (all_written limits w) as (values & Hc & Hs).
    { destruct Ho as [Ho|Ho]; [by apply (w_finished _ _ H)|by apply (w_overloaded _ _ H)]. }
    exists values. split_and!; [done|by eapply shown_lines|]. intros r s. by apply coalesced_text.
  - case_bool_decide as E; [by apply (w_overloaded _ _ H)|]. destruct Ho as [Ho|Ho]; [|done].
    by apply (w_finished _ _ H).
Qed.

(** The run above: four lines for five values, and the text of run [a]. *)
Lemma accepted_lines_are_written_witness :
  ∃ values, coalesced (accepted (channel overload_end)) values
    ∧ stream_text (rs "a") None values = rs "Hello!".
Proof.
  destruct (accepted_lines_are_written small_limits overload_end overload_end_reachable)
    as ((values & Hc & _ & Ht) & _); [right; vm_compute; reflexivity|].
  exists values. split; [exact Hc|]. rewrite Ht. vm_compute. reflexivity.
Defined.

(** C21. The drain ends: from every reachable state in which the shutdown was
    requested and the pump still runs, the pump alone reaches its end - all that was
    accepted written - in finitely many steps, whatever is queued, in its hands or
    among the images. *)
Theorem drain_ends {JP : JsonPrinter} {JL : JsonPrinterLaws} {AL : Allocator} {ALL : AllocatorLaws} {NT : Notify} {NL : NotifyLaws} limits w :
  writer_reachable limits w → outcome w = None → draining w = true →
  ∃ w', rtc pumping w w' ∧ (outcome w' = Some Finished ∨ outcome w' = Some OutboundOverloaded)
    ∧ accepted (channel w') = accepted (channel w)
    ∧ all_written limits w'.
Proof.
  intros H Ho Hd. assert (running limits w) as Hr by (apply running_iff; split; [done|by apply writer_reachable_ok]).
  destruct (draining_ends limits w Hr Hd) as (w' & Hw & He). exists w'. split; [done|]. split; [done|].
  split; [by apply pumping_accepts|].
  assert (writer_ok limits w') as Hok.
  { apply writer_reachable_ok. unfold writer_reachable. etransitivity; [exact H|].
    eapply rtc_subrel; [|exact Hw]. intros a b [Hoa Hp]. by apply writer_pump. }
  destruct He as [He|He]; [by apply (w_finished _ _ Hok)|by apply (w_overloaded _ _ Hok)].
Qed.

(** Shutdown is requested with three frames and an image in the queues. *)
Definition early_shutdown : Writer :=
  acts small_limits [Send (delta_of "a" "Hel"); Send (response "7"); Pump 1; Send (delta_of "b" "x");
    Image (response "8"); Finish].

Lemma drain_ends_witness :
  ∃ w', rtc pumping early_shutdown w' ∧ (outcome w' = Some Finished ∨ outcome w' = Some OutboundOverloaded)
    ∧ accepted (channel w') = [delta_of "a" "Hel"; response "7"; delta_of "b" "x"].
Proof.
  destruct (drain_ends small_limits early_shutdown) as (w' & H1 & H2 & H3 & _);
    [|vm_compute; reflexivity|vm_compute; reflexivity|].
  - apply acts_reachable. repeat (apply Forall_cons; split);
      try (apply delta_of_printable; reflexivity); try (apply response_printable; reflexivity); done.
  - exists w'. split; [exact H1|]. split; [exact H2|]. rewrite H3. vm_compute. reflexivity.
Defined.

(** ** The accounting *)

(** C20. In every reachable state the counters of the queue are the sums over its
    frames - the capacity of their vectors, not only their bytes -, no limit is
    exceeded, and so no subtraction of the source underflows; a frame that is
    charged nothing because it is larger than the whole queue holds the one lease
    there is, from the moment it is queued until it was flushed. *)
Theorem outbound_accounting {JP : JsonPrinter} {JL : JsonPrinterLaws} {AL : Allocator} {ALL : AllocatorLaws} {NT : Notify} {NL : NotifyLaws}
    limits c :
  reachable limits c →
  (receiver_alive c = true →
     bytes (state c) = sum_of charge (queue (state c))
     ∧ data_bytes (state c) = sum_of data_charge (queue (state c))
     ∧ data_frames (state c) = sum_of data_one (queue (state c))
     ∧ wire_bytes (state c) = sum_of wire_charge (queue (state c)))
  ∧ (bytes (state c) <= total_bytes limits)%N
  ∧ (data_bytes (state c) <= limit_data_bytes limits)%N
  ∧ (len (queue (state c)) <= limit_frames limits)%N
  ∧ (∀ f, f ∈ queue (state c) → oversize f = false → (len (wire f) <= capacity f <= total_bytes limits)%N)
  ∧ (∀ i j f g, (queue (state c) ++ held c) !! i = Some f → (queue (state c) ++ held c) !! j = Some g →
       oversize f = true → oversize g = true → i = j)
  ∧ (oversize_in_use (state c) = true ↔ ∃ f, f ∈ queue (state c) ++ held c ∧ oversize f = true).
Proof.
  intros H%reachable_ok. pose proof (ok_bounded _ _ H) as [B1 B2 B3 B4].
  split; [intros Ha; by destruct (ok_counted _ _ H Ha)|]. split_and!; try done.
  - intros f Hf Ho. apply (frame_charged limits c); done.
  - intros i j f g. apply (lease_unique (state c)). apply H.
  - apply lease_held, H.
Qed.

Definition sent_all (limits : OutboundLimits) (vs : list Value) : Channel := foldl (send_on limits) init vs.

Lemma send_on_senders {JP : JsonPrinter} {AL : Allocator} limits c v :
  senders (state (send_on limits c v)) = senders (state c).
Proof.
  unfold send_on, send. destruct (closed (state c)); [done|]. unfold try_merge_back.
  destruct (last _) as [p|]; cbn [mbind option_bind]; [destruct (try_merge _ _ _ _) as [[[m wa] ca]|]|];
    cbn [mbind option_bind]; try done; by destruct (fits _ _ _).
Qed.

Lemma sent_all_reachable limits vs : Forall printable vs → reachable limits (sent_all limits vs).
Proof.
  unfold sent_all. assert (reachable limits init ∧ (0 < senders (state init))%N) as [Hr Hs] by (split; [apply rtc_refl|done]).
  revert Hr Hs. generalize init. induction vs as [|v vs IH]; intros c Hr Hs Hp; [done|].
  apply Forall_cons in Hp as [Hv Hp]. cbn. apply IH; [|by rewrite send_on_senders|done].
  eapply rtc_r; [exact Hr|]. by apply step_send.
Qed.

(** A response of more than 30 bytes does not fit a queue of 30. *)
Definition tiny_limits : OutboundLimits := mkLimits 20 10 6 2 300.

Lemma outbound_accounting_witness :
  let c := sent_all tiny_limits [response "7"] in
  bytes (state c) = 0%N ∧ ∃ f, f ∈ queue (state c) ++ held c ∧ oversize f = true.
Proof.
  intros c. assert (reachable tiny_limits c) as Hr.
  { apply sent_all_reachable. apply Forall_singleton, response_printable. reflexivity. }
  destruct (outbound_accounting tiny_limits c Hr) as (_ & _ & _ & _ & _ & _ & Hl).
  split; [vm_compute; reflexivity|]. apply Hl. vm_compute. reflexivity.
Defined.

(** ** What is accepted *)

Definition control_one (f : OutboundFrame) : N := if data f then 0 else 1.
Definition control_charge (f : OutboundFrame) : N := if data f then 0 else charge f.

Lemma control_split l :
  sum_of charge l = (sum_of data_charge l + sum_of control_charge l)%N
  ∧ len l = (sum_of data_one l + sum_of control_one l)%N.
Proof.
  induction l as [|f l [IH1 IH2]]; [done|]. rewrite !sum_of_cons. change (len (f :: l)) with (len ([f] ++ l)).
  rewrite len_app. change (len [f]) with 1%N.
  rewrite IH1, IH2.
  change (data_charge f) with (if data f then charge f else 0)%N.
  change (control_charge f) with (if data f then 0 else charge f)%N.
  change (data_one f) with (if data f then 1 else 0)%N.
  change (control_one f) with (if data f then 0 else 1)%N.
  destruct (data f); split; lia.
Qed.

Lemma control_not_merged {JP : JsonPrinter} {AL : Allocator} limits st v :
  printable v → is_body_delta v = false → try_merge_back limits st (frame_of v) = None.
Proof.
  intros Hp Hd. assert (delta (frame_of v) = None) as Hn.
  { cbn. destruct (ordinary_delta_range _ _) eqn:E; [|done].
    rewrite (ordinary_data v (to_vec v ++ [10%N])) in Hd; [done..|]. by rewrite E. }
  unfold try_merge_back. destruct (last _) as [p|]; [|done]. cbn [mbind option_bind]. unfold try_merge.
  destruct (delta p) as [[a b]|]; [|done]. cbn [mbind option_bind]. by rewrite Hn.
Qed.

(** Deltas never crowd out control traffic: however full of message deltas and
    command output the queue is, a response or another notification is accepted on
    an open connection as long as the frames of that kind that wait are fewer than
    the frames in reserve and, with the new one, no larger than the bytes in
    reserve.  It is queued behind everything, with its own line. *)
Theorem control_reserve {JP : JsonPrinter} {JL : JsonPrinterLaws} {AL : Allocator} {ALL : AllocatorLaws} {NT : Notify} {NL : NotifyLaws}
    limits c v :
  reachable limits c → receiver_alive c = true → closed (state c) = false →
  printable v → is_body_delta v = false →
  (limit_control_frames limits <= limit_frames limits)%N →
  (sum_of control_one (queue (state c)) < limit_control_frames limits)%N →
  (sum_of control_charge (queue (state c)) + len (line v) <= limit_control_bytes limits)%N →
  ∃ st f, send limits (state c) v = (true, st, [NotifyReady])
    ∧ queue st = queue (state c) ++ [f] ∧ wire f = line v ∧ oversize f = false.
Proof.
  intros H%reachable_ok Ha Hc Hp Hd Hcf Hn Hb.
  destruct (ok_counted _ _ H Ha) as [C1 _ C3 C4]. destruct (ok_bounded _ _ H) as [_ B2 _ B4].
  destruct (control_split (queue (state c))) as [S1 S2]. unfold data_frame_bound in B4.
  unfold send. rewrite Hc, control_not_merged by done.
  set (st := set_stats _ _).
  assert (is_oversized limits (frame_of v) = false) as Hos.
  { unfold is_oversized. apply andb_false_iff. right. apply N.ltb_ge. unfold total_bytes.
    change (wire (frame_of v)) with (line v). lia. }
  assert (fits limits st (frame_of v) = true) as Hf.
  { unfold fits, charge_of. rewrite Hos. change (data (frame_of v)) with (is_body_delta v).
    change (capacity (frame_of v)) with (len (line v)). rewrite Hd. cbn [negb orb].
    rewrite !andb_true_iff, N.ltb_lt, N.leb_le. cbn [st set_stats queue bytes]. unfold total_bytes. split_and!; lia. }
  rewrite Hf. eexists _, _. split; [reflexivity|]. split; [reflexivity|]. done.
Qed.

(** Four deltas of different runs fill the queue; a response still goes in. *)
Definition full_of_deltas : Channel :=
  sent_all small_limits [delta_of "a" "1"; delta_of "b" "2"; delta_of "c" "3"; delta_of "d" "4"].

Lemma control_reserve_witness :
  ∃ st, send small_limits (state full_of_deltas) (response "7") = (true, st, [NotifyReady]).
Proof.
  destruct (control_reserve small_limits full_of_deltas (response "7")) as (st & f & Hs & _).
  - apply sent_all_reachable. repeat (apply Forall_cons; split); try done; apply delta_of_printable; reflexivity.
  - vm_compute. reflexivity.
  - vm_compute. reflexivity.
  - apply response_printable. reflexivity.
  - reflexivity.
  - vm_compute. discriminate.
  - vm_compute. reflexivity.
  - vm_compute. discriminate.
  - exists st. exact Hs.
Defined.

(** A value that is refused on an open connection ends the connection and
    nothing else: the frames that were accepted stay as they are, in their order,
    the receiver and the monitor are notified, the snapshot names a limit that is
    exhausted, and from then on every send is refused without an effect. *)
Theorem refusal_is_final {JP : JsonPrinter} {AL : Allocator} limits st v st' signals :
  closed st = false → send limits st v = (false, st', signals) →
  queue st' = queue st ∧ bytes st' = bytes st
  ∧ closed st' = true ∧ failed st' = true ∧ overloaded st' = true
  ∧ signals = [NotifyReady; NotifyFailure]
  ∧ (∃ s, failure_snapshot st' = Some s
       ∧ (frame_limit s || data_frame_limit s || byte_limit s || data_byte_limit s || oversize_busy s) = true)
  ∧ ∀ w, send limits st' w = (false, st', []).
Proof.
  intros Hc. unfold send at 1. rewrite Hc. destruct (try_merge_back _ _ _) as [m|]; [done|].
  destruct (fits _ _ _) eqn:Hf; [done|]. intros [= <- <-]. split_and!; try done.
  eexists. split; [reflexivity|]. cbn. revert Hf. unfold fits. cbn [set_stats queue bytes data_frames data_bytes oversize_in_use].
  rewrite !andb_false_iff, !orb_false_iff, !N.ltb_ge, !N.leb_gt, !negb_false_iff, !orb_true_iff, !andb_true_iff,
    !N.leb_le, !N.ltb_lt. tauto.
Qed.

(** There is no room for a fifth delta. *)
Lemma refusal_is_final_witness :
  ∃ st signals, send small_limits (state full_of_deltas) (delta_of "e" "5") = (false, st, signals)
    ∧ queue st = queue (state full_of_deltas).
Proof.
  assert (fst (fst (send small_limits (state full_of_deltas) (delta_of "e" "5"))) = false) as Hb
    by (vm_compute; reflexivity).
  destruct (send small_limits (state full_of_deltas) (delta_of "e" "5")) as [[b st] signals] eqn:E.
  cbn in Hb. subst b.
  exists st, signals. split; [reflexivity|].
  apply (refusal_is_final small_limits (state full_of_deltas) (delta_of "e" "5") st signals); [vm_compute; reflexivity|exact E].
Defined.

(** Nobody sleeps through work: whenever the receiver sleeps on the
    notification of the queue although a frame waits or the queue was closed, a
    notification is on its way, and it wakes the receiver; the same holds of a
    task that waits for the failure of the connection. *)
Theorem receiver_is_woken {JP : JsonPrinter} {JL : JsonPrinterLaws} {AL : Allocator} {ALL : AllocatorLaws} {NT : Notify} {NL : NotifyLaws}
    limits c :
  reachable limits c →
  (receiver c = Sleeping → queue (state c) ≠ [] ∨ closed (state c) = true →
     ∃ front rest, to_notify c = front ++ NotifyReady :: rest
       ∧ receiver (deliver NotifyReady (set_to_notify (front ++ rest) c)) = Absent)
  ∧ (monitor c = Sleeping → failed (state c) = true →
     ∃ front rest, to_notify c = front ++ NotifyFailure :: rest
       ∧ monitor (deliver NotifyFailure (set_to_notify (front ++ rest) c)) = Absent).
Proof.
  intros H%reachable_ok. split.
  - intros Hs Hw. destruct (list_elem_of_split _ _ (ok_receiver _ _ H Hs Hw)) as (front & rest & E).
    exists front, rest. split; [done|]. cbn. rewrite Hs. pose proof (notify_one_sleeping (ready_permit c)) as Hn.
    by destruct (notify_one Sleeping (ready_permit c)).
  - intros Hs Hw. destruct (list_elem_of_split _ _ (ok_monitor _ _ H Hs Hw)) as (front & rest & E).
    exists front, rest. split; [done|]. cbn. by rewrite Hs, notify_waiters_sleeping.
Qed.

(** The receiver went to sleep before the first value was sent. *)
Definition asleep_with_work : Channel :=
  send_on small_limits (set_receiver Sleeping false (set_receiver Enabled false init)) (response "7").

Lemma asleep_with_work_reachable : reachable small_limits asleep_with_work.
Proof.
  eapply rtc_l; [by apply (step_recv_enable small_limits init Enabled false)|].
  eapply rtc_l; [eapply (step_recv_empty small_limits (set_receiver Enabled false init)); [done|by left|reflexivity]|].
  apply rtc_once. apply step_send; [done|]. apply response_printable. reflexivity.
Qed.

Lemma receiver_is_woken_witness : ∃ front rest, to_notify asleep_with_work = front ++ NotifyReady :: rest.
Proof.
  destruct (proj1 (receiver_is_woken small_limits asleep_with_work asleep_with_work_reachable))
    as (front & rest & E & _); [vm_compute; reflexivity|left; vm_compute; discriminate|].
  exists front, rest. exact E.
Defined.
