(* ===== verification/RpcScope.v ===== *)
(** * Classes and scopes of requests

    How a request is classified ([rpc_dispatch_class] of
    [core-server/src/transport/bounded_dispatch.rs]), what it may touch
    ([rpc_resource_scope] of [core-server/src/application/agent/rpc_resources.rs])
    and when one request has to wait for another
    ([bounded_dispatch_resources.rs]).  What the service knows of conversations, runs
    and projects is the class [ScopeServices]. *)

From stdpp Require Import sorting pretty.
From S2P Require Import Prelude RustText Json.

(** ** Classes *)

Inductive RpcDispatchClass := Read | Write | Control | Approval.

#[export] Instance class_eq_dec : EqDecision RpcDispatchClass.
Proof. solve_decision. Defined.

Record JsonRpcRequest := mkRequest { method : rstr; params : option Value }.

Definition is_blocking_read_method (method : rstr) : bool :=
  one_of method
    ["agent.getContextWindowSnapshot"; "agent.collaboration.settings.get"; "agent.collaboration.getTree";
     "agent.collaboration.getAgent"; "agent.collaboration.locateConversation";
     "agent.collaboration.loadObserverConversation"; "agent.collaboration.listEvents";
     "agent.collaboration.templates.list"; "agent.collaboration.approvals.list"; "agent.commandSessions.list";
     "agent.commandSessions.get"; "agent.listPendingActions"; "agent.getUsageSummary"; "agent.getUsageDashboard";
     "agent.getLocalTokenUsage"; "agent.readFileChange"; "agent.getFileChangeDiff"; "agent.getFileChangeHistoryDiff";
     "search.searchChats"; "storage.loadModelSettings"; "storage.loadProviderProfileUiDescriptors";
     "storage.loadProviderVendorDescriptors"; "storage.resolveProviderVendorModelPolicy";
     "storage.loadAgentPromptPreferences"; "storage.loadProjects"; "storage.loadConversations";
     "storage.loadConversationMetas"; "storage.loadRunningConversationSummaries"; "humanInteraction.getAttention";
     "storage.loadConversation"; "storage.loadReadToolFileContext"; "storage.loadAttachmentImage";
     "storage.loadInputAttachments"; "storage.loadInputAttachmentPreview"; "storage.loadBrowserDownloadSettings";
     "storage.listBrowserDownloads"; "storage.loadBrowserDownload"; "storage.loadComposerDrafts";
     "storage.loadUiPreferences"].

(** [params.get(key).and_then(Value::as_str)] *)
Definition param (key : string) (params : Value) : option rstr :=
  v ← value_get (rs key) params; as_str v.
Arguments param key%_string_scope params.

Definition rpc_dispatch_class (request : JsonRpcRequest) : RpcDispatchClass :=
  let method := method request in
  if one_of method ["agent.approveAction"; "agent.rejectAction"] then Approval
  else if is_str method "agent.workflows.request" then
    if is_some_and (p ← params request; param "operation" p)
         (λ operation, one_of operation ["list"; "listInstances"; "getInstance"; "validate"; "runtimeSnapshot"])
    then Read else Write
  else if one_of method ["agent.cancelRun"; "agent.cancelAction"; "agent.cancelManualContextCompaction";
                         "core.setExecutionAccess"] then Control
  else if is_blocking_read_method method
    || one_of method
         ["humanInteraction.getSettings"; "humanInteraction.listRequests"; "automation.list"; "automation.get";
          "automation.runs.list"; "automation.attention.summary"; "notifications.list"; "notifications.summary";
          "notifications.settings.get"; "office.getStatus"; "storage.loadBrowserPreferences";
          "storage.listBrowserHistory"; "storage.summarizeBrowserOwnedData"; "agent.getProviderTransitionStatus";
          "agent.preflightProviderTransition"; "agent.getManualContextCompactionStatus"; "storage.loadRunWorkspace";
          "storage.resolveRunWorkspacePath"; "storage.resolveRunAttachmentFile"]
  then Read else Write.

Definition rpc_requires_queued_access (method : rstr) : bool :=
  one_of method ["agent.startConversationTurn"; "agent.continueConversationTurn"; "agent.rewriteConversationTurn";
                 "humanInteraction.submit"].

(** ** Scopes *)

Inductive RpcSequencingPolicy :=
| Ordered
| OwnershipChange
| TurnPreparation (conversation_id : rstr)
| CancelPreparation (conversation_id : rstr).

Inductive RpcResourceScope :=
| Global
| GlobalTurnPreparation (conversation_id : rstr)
| ExecutionAccess
| Overview
| Resources (keys : list rstr) (fairness_root : rstr) (policy : RpcSequencingPolicy).

#[export] Instance policy_eq_dec : EqDecision RpcSequencingPolicy.
Proof. solve_decision. Defined.
#[export] Instance scope_eq_dec : EqDecision RpcResourceScope.
Proof. solve_decision. Defined.

Definition is_turn_preparation (scope : RpcResourceScope) : bool :=
  match scope with
  | GlobalTurnPreparation _ | Resources _ _ (TurnPreparation _) => true
  | _ => false
  end.

Definition changes_ownership (scope : RpcResourceScope) : bool :=
  match scope with
  | Global | GlobalTurnPreparation _ | Resources _ _ OwnershipChange => true
  | _ => false
  end.

Definition fairness_root_of (scope : RpcResourceScope) : rstr :=
  match scope with
  | Resources _ root _ => rs "root:" ++ root
  | Global => rs "__global__"
  | GlobalTurnPreparation _ => rs "__global_preparation__"
  | ExecutionAccess => rs "__execution_access__"
  | Overview => rs "__overview__"
  end.

(** [keys.contains(&key)] *)
Definition has_key (keys : list rstr) (key : rstr) : bool := existsb (str_eqb key) keys.

(** One side of the test of two projects: a marker against a member. *)
Definition marks_member (keys other : list rstr) : bool :=
  existsb (λ key, is_some_and (strip_prefix key "project-marker:")
                    (λ project, has_key other (rs "project-member:" ++ project))) keys.

Definition overlaps (self other : RpcResourceScope) : bool :=
  match self, other with
  | Global, _ | _, Global => true
  | GlobalTurnPreparation _, _ | _, GlobalTurnPreparation _ => true
  | ExecutionAccess, _ | _, ExecutionAccess => true
  | Overview, _ | _, Overview => false
  | Resources keys root _, Resources other other_root _ =>
      existsb (λ key, negb (starts_with key "project-member:") && has_key other key) keys
      || marks_member keys other
      || marks_member other keys
      || has_key keys (rs "tree:" ++ other_root)
      || has_key other (rs "tree:" ++ root)
  end.

(** ** Waiting for a predecessor

    [started] is the flag of the predecessor; [preparation] what it published of its
    kind, [None] when it is gone without. *)

Definition permits_preparing_cancel (started : bool) (class : RpcDispatchClass)
    (scope previous : RpcResourceScope) : bool :=
  if negb (bool_decide (class = Control)) || negb started then false
  else
    match scope with
    | Resources _ _ (CancelPreparation conversation_id) =>
        match previous with
        | Resources _ _ (TurnPreparation preparing) | GlobalTurnPreparation preparing =>
            str_eqb conversation_id preparing
        | _ => false
        end
    | _ => false
    end.

(** [conflicts]: of a request of [class] and [scope] with the predecessor. *)
Definition conflicts (previous_class : RpcDispatchClass) (started : bool) (preparation : option bool)
    (previous : RpcResourceScope) (class : RpcDispatchClass) (scope : RpcResourceScope) : bool :=
  if bool_decide (class = Read) && bool_decide (previous_class = Read) then false
  else if bool_decide (class = Control) && bool_decide (scope = ExecutionAccess)
          && is_some_and preparation id then false
  else if bool_decide (previous_class = Read) && bool_decide (previous = Overview) then false
  else if permits_preparing_cancel started class scope previous then false
  else overlaps scope previous.

(** ** Scopes of requests *)

(** [PendingAgentActionRecord] with the owner frozen in its input; [None] when that
    does not parse. *)
Record ActionRecord := mkActionRecord {
  action_run_id : rstr;
  action_conversation_id : option rstr;
  action_frozen : option (option (option rstr * option rstr));
}.

Inductive PreparingPhase := Preparing | Committing.
#[export] Instance phase_eq_dec : EqDecision PreparingPhase.
Proof. solve_decision. Defined.

Record PreparingSnapshot := mkPreparing {
  preparing_conversation : rstr;
  preparing_project : option rstr;
  preparing_message : rstr;
  preparing_phase : PreparingPhase;
}.

(** A pending action held in memory: the conversation of its snapshot, and
    conversation and project of its input. *)
Record HeldAction := mkHeld {
  held_conversation : option rstr;
  held_input_conversation : option rstr;
  held_input_project : option rstr;
}.

Record AgentNode := mkNode { root_agent_id : rstr; root_conversation_id : rstr }.

Class ScopeServices := {
  load_projects : result rstr (list rstr);
  get_pending_agent_action : rstr → result rstr (option ActionRecord);
  snapshot_run : rstr → option PreparingSnapshot;
  active_run : rstr → option (rstr * option rstr);
  usage_context : rstr → option (rstr * option rstr);
  pending_actions_of : rstr → list HeldAction;
  get_human_interaction_request : rstr → rstr → result rstr (rstr * rstr);
  load_conversation_meta : rstr → result rstr (option (option rstr));
  get_agent_node_by_conversation : rstr → result rstr (option AgentNode);
  get_conversation_turn_trace : rstr → result rstr bool;
  list_agent_tree : rstr → result rstr (list (option rstr));
}.

Definition canonical_pending_action_id (run_id source_call_id : rstr) : rstr :=
  rs "v2:" ++ rs (pretty (N.of_nat (byte_len run_id))) ++ rs ":" ++ run_id ++ rs ":" ++ source_call_id.

Definition conversation_key (id : rstr) : rstr := rs "conversation:" ++ id.
Definition tree_key (id : rstr) : rstr := rs "tree:" ++ id.
Definition member_key (id : rstr) : rstr := rs "project-member:" ++ id.
Definition run_key (id : rstr) : rstr := rs "run:" ++ id.

(** [extra_keys.sort(); extra_keys.dedup()] *)
Definition sort_keys (keys : list rstr) : list rstr := sort_dedup str_eqb str_le keys.

Definition opt_eqb (a b : option rstr) : bool :=
  match a, b with Some a, Some b => str_eqb a b | None, None => true | _, _ => false end.

Section ResourceScope.
Context `{ScopeServices}.

(** What the first part of [rpc_resource_scope] finds: a scope, or a conversation to
    look up with the keys and the policy so far. *)
Inductive Owner :=
| Decided (scope : RpcResourceScope)
| Owned (conversation : option rstr) (extra_keys : list rstr) (policy : RpcSequencingPolicy)
    (preparing_identity : option PreparingSnapshot).

(** [let Some(x) = .. else { return Ok(Global) }] *)
Definition or_global {A} (o : option A) (k : A → result rstr Owner) : result rstr Owner :=
  match o with Some a => k a | None => Ok (Decided Global) end.

Definition action_owner (params : Value) : result rstr Owner :=
  or_global (run ← param "runId" params; action ← param "actionId" params; Some (run, action)) (λ '(run, action),
  let action_key := canonical_pending_action_id run action in
  found ← get_pending_agent_action action_key;
  or_global found (λ record,
  if negb (str_eqb (action_run_id record) run) then Ok (Decided Global)
  else
    match action_frozen record with
    | None => Err (rs "Pending Action frozen owner is unavailable")
    | Some frozen =>
        match frozen with
        | Some (Some conversation, project) =>
            if opt_eqb (Some conversation) (action_conversation_id record) then
              Ok (Owned (action_conversation_id record)
                    (option_list (member_key <$> project) ++ [run_key run; rs "action:" ++ action_key])
                    Ordered None)
            else Ok (Decided Global)
        | _ => Ok (Decided Global)
        end
    end)).

(** The owners that the state of the service knows for a run; [None] when an action
    in memory has no owner of its own. *)
Definition frozen_action_owners (actions : list HeldAction) : option (list (rstr * option rstr)) :=
  mapM (λ action,
          match held_input_conversation action with
          | Some conversation =>
              if opt_eqb (held_conversation action) (Some conversation)
              then Some (conversation, held_input_project action) else None
          | None => None
          end) actions.

Definition frozen_owners (run : rstr) : option (list (rstr * option rstr)) :=
  actions ← frozen_action_owners (pending_actions_of run);
  Some (option_list ((λ entry, (preparing_conversation entry, preparing_project entry)) <$> snapshot_run run)
        ++ option_list (active_run run) ++ option_list (usage_context run) ++ actions).

Definition run_owner (method : rstr) (params : Value) : result rstr Owner :=
  let cancels := is_str method "agent.cancelRun" in
  or_global (if is_str method "agent.steerRun" then param "expectedRunId" params else param "runId" params) (λ run,
  let preparing := snapshot_run run in
  let policy :=
    match preparing with
    | Some entry =>
        if cancels && bool_decide (preparing_phase entry = Preparing)
        then CancelPreparation (preparing_conversation entry) else Ordered
    | None => Ordered
    end in
  or_global (frozen_owners run) (λ owners,
  match owners with
  | [] => Ok (Decided Global)
  | (conversation, _) :: _ =>
      if existsb (λ o, negb (str_eqb (fst o) conversation)) owners then Ok (Decided Global)
      else
        Ok (Owned (Some conversation) (run_key run :: (member_key <$> omap snd owners)) policy preparing)
  end)).

Definition interaction_owner (params : Value) : result rstr Owner :=
  or_global (c ← param "conversationId" params; r ← param "requestId" params; Some (c, r)) (λ '(conversation, request),
  record ← get_human_interaction_request conversation request;
  let '(request_id, conversation_id) := record in
  Ok (Owned (Some conversation_id) [rs "interaction:" ++ request_id] Ordered None)).

(** The conversation named by the parameters. *)
Definition conversation_param (method : rstr) (params : Value) : option (option rstr) :=
  if one_of method
       ["agent.startConversationTurn"; "agent.continueConversationTurn"; "agent.startProviderTransition";
        "agent.startManualContextCompaction"; "agent.cancelManualContextCompaction"; "storage.deleteConversation";
        "storage.deleteChatMessages"; "storage.upsertChatMessages"; "storage.saveChatMessageState";
        "storage.saveChatMessageUiState"; "storage.loadConversation"; "storage.loadReadToolFileContext";
        "agent.getContextWindowSnapshot"; "agent.getManualContextCompactionStatus";
        "agent.getProviderTransitionStatus"]
  then Some (param "conversationId" params)
  else if is_str method "agent.rewriteConversationTurn"
  then Some (turn ← value_get (rs "turn") params; param "conversationId" turn)
  else if is_str method "storage.saveConversationMeta" then Some (param "id" params)
  else if is_str method "storage.saveComposerDraft"
  then Some (draft ← value_get (rs "draft") params; param "scopeId" draft)
  else if is_str method "storage.saveComposerDraftMessage" then Some (param "scopeId" params)
  else None.

Definition owner_of (method : rstr) (params : Value) : result rstr Owner :=
  if one_of method ["agent.approveAction"; "agent.rejectAction"; "agent.cancelAction"] then action_owner params
  else if one_of method ["agent.cancelRun"; "agent.steerRun"] then run_owner method params
  else if one_of method ["humanInteraction.submit"; "humanInteraction.ignore"] then interaction_owner params
  else
    match conversation_param method params with
    | Some conversation => Ok (Owned conversation [] Ordered None)
    | None => Ok (Decided Global)
    end.

Definition starts_turn (method : rstr) : bool :=
  one_of method ["agent.startConversationTurn"; "agent.continueConversationTurn"; "agent.rewriteConversationTurn"].

(** Without a conversation in the storage: a new turn, or the cancellation of one
    that is being prepared. *)
Definition unknown_conversation (method conversation : rstr) (extra_keys : list rstr)
    (policy : RpcSequencingPolicy) (prepared : option PreparingSnapshot) : result rstr RpcResourceScope :=
  if starts_turn method then Ok (GlobalTurnPreparation conversation)
  else
    match policy, prepared with
    | CancelPreparation _, Some entry =>
        node ← get_agent_node_by_conversation conversation;
        has_trace ← get_conversation_turn_trace (preparing_message entry);
        project_valid ← match preparing_project entry with
                        | None => Ok true
                        | Some project => projects ← load_projects; Ok (has_key projects project)
                        end;
        if str_eqb (preparing_conversation entry) conversation && bool_decide (node = None)
           && negb has_trace && project_valid
        then Ok (Resources (sort_keys (extra_keys ++ [conversation_key conversation; tree_key conversation]))
                   conversation policy)
        else Ok Global
    | _, _ => Ok Global
    end.

(** The project a conversation is moved to, when its metadata are saved; [None] when
    the storage does not know it. *)
Definition destination_keys (method : rstr) (params : Value) (project_id : option rstr)
    : result rstr (option (list rstr)) :=
  if is_str method "storage.saveConversationMeta" then
    match param "projectId" params with
    | Some target =>
        if opt_eqb project_id (Some target) then Ok (Some [])
        else
          projects ← load_projects;
          Ok (if has_key projects target then Some [member_key target] else None)
    | None => Ok (Some [])
    end
  else Ok (Some []).

Definition reaches_tree (method : rstr) : bool :=
  one_of method ["agent.cancelRun"; "storage.deleteConversation"; "storage.deleteChatMessages"].

(** The keys of the tree of a conversation, for what reaches its descendants. *)
Definition tree_keys (method fairness_root : rstr) (node : option AgentNode) : result rstr (list rstr) :=
  if reaches_tree method then
    match node with
    | None => Ok [tree_key fairness_root]
    | Some node =>
        members ← list_agent_tree (root_agent_id node);
        Ok (tree_key fairness_root :: (member_key <$> omap id members))
    end
  else Ok [].

Definition known_conversation (method : rstr) (params : Value) (conversation : rstr)
    (project_id : option rstr) (extra_keys : list rstr) (policy : RpcSequencingPolicy)
    : result rstr RpcResourceScope :=
  let policy :=
    if starts_turn method then TurnPreparation conversation
    else if one_of method ["storage.deleteConversation"; "storage.deleteChatMessages"]
            || is_str method "storage.saveConversationMeta"
               && negb (opt_eqb project_id (param "projectId" params))
    then OwnershipChange
    else policy in
  let extra_keys := extra_keys ++ option_list (member_key <$> project_id) in
  destination ← destination_keys method params project_id;
  match destination with
  | None => Ok Global
  | Some destination =>
      node ← get_agent_node_by_conversation conversation;
      let fairness_root := match node with Some node => root_conversation_id node | None => conversation end in
      tree ← tree_keys method fairness_root node;
      Ok (Resources (sort_keys (extra_keys ++ destination ++ tree ++ [conversation_key conversation]))
            fairness_root policy)
  end.

Definition delete_project_scope (params : Value) : result rstr RpcResourceScope :=
  match param "projectId" params with
  | None => Ok Global
  | Some project =>
      projects ← load_projects;
      if has_key projects project
      then Ok (Resources [rs "project-marker:" ++ project] (rs "project:" ++ project) OwnershipChange)
      else Ok Global
  end.

Definition rpc_resource_scope (method : rstr) (params : option Value) : result rstr RpcResourceScope :=
  if is_str method "core.setExecutionAccess" then Ok ExecutionAccess
  else if one_of method ["storage.loadConversationMetas"; "storage.loadRunningConversationSummaries";
                         "humanInteraction.getAttention"; "notifications.summary"; "office.getStatus"]
  then Ok Overview
  else
    match params with
    | None => Ok Global
    | Some params =>
        if is_str method "storage.deleteProject" then delete_project_scope params
        else
          owner ← owner_of method params;
          match owner with
          | Decided scope => Ok scope
          | Owned None _ _ _ => Ok Global
          | Owned (Some conversation) extra_keys policy prepared =>
              meta ← load_conversation_meta conversation;
              match meta with
              | None => unknown_conversation method conversation extra_keys policy prepared
              | Some project_id => known_conversation method params conversation project_id extra_keys policy
              end
          end
    end.

(** [rpc_scope_resolver]: the resolver keeps the owner hints of the parameters, and a
    failed lookup keeps the global fence. *)
Definition hint_keys : list string :=
  ["conversationId"; "runId"; "expectedRunId"; "actionId"; "requestId"; "projectId"; "id"; "scopeId"].

Definition owner_hints (input : Value) : Value :=
  let flat := omap (λ key, (λ v, (rs key, String v)) <$> param key input) hint_keys in
  let nested := omap (λ '(outer, inner),
                        v ← (o ← value_get (rs outer) input; param inner o);
                        Some (rs outer, Object [(rs inner, String v)]))
                  [("turn", "conversationId"); ("draft", "scopeId")] in
  json_object (flat ++ nested).

Definition rpc_scope_resolver (request : JsonRpcRequest) : RpcResourceScope :=
  match rpc_resource_scope (method request) (owner_hints <$> params request) with
  | Ok scope => scope
  | Err _ => Global
  end.
End ResourceScope.
