(* ===== verification/FairExecution.v ===== *)
(** * Fair execution

    [FairExecution] of [core-server/src/transport/bounded_dispatch_resources.rs]: the
    workers of a lane, shared by the roots whose requests are ready.  A waiter is the
    job that holds the receiver of its channel; sending a permit is granting it. *)

From S2P Require Import Prelude RustText.

Record FairState := mkFair {
  active : nat;
  active_roots : gmap rstr nat;
  queues : gmap rstr (list nat);
  roots : list rstr;
  last_root : option rstr;
}.

Definition default_fair : FairState := mkFair 0 ∅ ∅ [] None.

(** A permit that was sent: the waiter and its root. *)
Definition FairPermit : Type := nat * rstr.

Section Limit.
Variable limit : nat.

(** [if state.roots.len() > 1 && state.roots.front() == state.last_root.as_ref()] *)
Definition rotate_last (st : FairState) : FairState :=
  match roots st with
  | root :: ((_ :: _) as rest) =>
      if bool_decide (last_root st = Some root)
      then mkFair (active st) (active_roots st) (queues st) (rest ++ [root]) (last_root st)
      else st
  | _ => st
  end.

(** One root at a time: the roots of conversations, not the global ones. *)
Definition is_busy (st : FairState) (root : rstr) : bool :=
  starts_with root "root:" && bool_decide (is_Some (active_roots st !! root)).

(** The grant to the first waiter of [root], which was popped from the roots; a root
    without a queue would panic, and grants nothing here. *)
Definition grant_root (st : FairState) (root : rstr) (rest : list rstr) : option (FairPermit * FairState) :=
  match queues st !! root with
  | Some (waiter :: waiters) =>
      Some ((waiter, root),
            mkFair (S (active st))
              (<[root := S (default 0 (active_roots st !! root))]> (active_roots st))
              (match waiters with [] => delete root (queues st) | _ => <[root := waiters]> (queues st) end)
              (match waiters with [] => rest | _ => rest ++ [root] end)
              (Some root))
  | _ => None
  end.

(** The loop of [drive]; [skipped] roots in a row were busy. *)
Fixpoint drive_loop (fuel : nat) (skipped : nat) (st : FairState) : list FairPermit * FairState :=
  match fuel with
  | O => ([], st)
  | S fuel =>
      if (active st <? limit) && (skipped <? length (roots st)) then
        match roots st with
        | [] => ([], st)
        | root :: rest =>
            if is_busy st root then
              drive_loop fuel (S skipped)
                (mkFair (active st) (active_roots st) (queues st) (rest ++ [root]) (last_root st))
            else
              match grant_root st root rest with
              | Some (permit, st) =>
                  let '(grants, st) := drive_loop fuel 0 st in (permit :: grants, st)
              | None => ([], st)
              end
        end
      else ([], st)
  end.

(** The waiters of all the queues. *)
Definition waiting (st : FairState) : nat := 
  sum_list_with (λ root, length (default [] (queues st !! root))) (roots st).

Definition drive_fuel (st : FairState) : nat := S (waiting st) * S (length (roots st)).

Definition drive (st : FairState) : list FairPermit * FairState :=
  let st := rotate_last st in drive_loop (drive_fuel st) 0 st.

(** [acquire] up to its [await]. *)
Definition enqueue (st : FairState) (root : rstr) (waiter : nat) : FairState :=
  mkFair (active st) (active_roots st)
    (<[root := default [] (queues st !! root) ++ [waiter]]> (queues st))
    (if bool_decide (is_Some (queues st !! root)) then roots st else roots st ++ [root])
    (last_root st).

Definition acquire (st : FairState) (root : rstr) (waiter : nat) : list FairPermit * FairState :=
  drive (enqueue st root waiter).

(** [impl Drop for FairPermit]. *)
Definition release_root (st : FairState) (root : rstr) : FairState :=
  mkFair (active st - 1)
    (match active_roots st !! root with
     | Some (S (S n)) => <[root := S n]> (active_roots st)
     | _ => delete root (active_roots st)
     end)
    (queues st) (roots st) (last_root st).

Definition release (st : FairState) (root : rstr) : list FairPermit * FairState :=
  drive (release_root st root).
End Limit.
