(* ===== verification/FairExecutionFacts.v ===== *)
(** * Facts of fair execution

    The state of a lane is well formed, no worker is idle while a root may run, and
    a waiting root is passed by each other root at most once.

    After that: what fair execution guarantees. *)

From S2P Require Import Prelude RustText FairExecution.

Definition queue_of (st : FairState) (root : rstr) : list nat := default [] (queues st !! root).

(** ** Sums over the active roots *)

Definition active_sum (m : gmap rstr nat) : nat := map_fold (λ _ n acc, n + acc) 0 m.

Lemma active_sum_insert m r n : m !! r = None → active_sum (<[r := n]> m) = n + active_sum m.
Proof. intros H. unfold active_sum. rewrite map_fold_insert_L; [done|intros; lia|done]. Qed.

Lemma active_sum_delete m r n : m !! r = Some n → active_sum m = n + active_sum (delete r m).
Proof.
  intros H. rewrite <-(insert_delete_id m r n H) at 1. apply active_sum_insert, lookup_delete_eq.
Qed.

Lemma active_sum_update m r n n' : m !! r = Some n → active_sum (<[r := n']> m) + n = active_sum m + n'.
Proof.
  intros H. rewrite (active_sum_delete m r n H), (active_sum_delete (<[r := n']> m) r n'); [|by simplify_map_eq].
  rewrite delete_insert_eq. lia.
Qed.

Lemma active_sum_0 m : active_sum m = 0 → ∀ r n, m !! r = Some n → n = 0.
Proof. intros H r n Hr. rewrite (active_sum_delete m r n Hr) in H. lia. Qed.

(** ** One iteration *)

Definition moved_back (st : FairState) (root : rstr) (rest : list rstr) : FairState :=
  mkFair (active st) (active_roots st) (queues st) (rest ++ [root]) (last_root st).

(** The steps of [drive], without its fuel: a root is passed over because it was the
    last to be served or because it is busy, or its first waiter gets a permit. *)
Inductive driving (limit : nat) : FairState → list FairPermit → FairState → Prop :=
| driving_done st : driving limit st [] st
| driving_last st root rest gs st' :
    roots st = root :: rest → last_root st = Some root →
    driving limit (moved_back st root rest) gs st' → driving limit st gs st'
| driving_busy st root rest gs st' :
    roots st = root :: rest → active st < limit → is_busy st root = true →
    driving limit (moved_back st root rest) gs st' → driving limit st gs st'
| driving_grant st root rest permit st1 gs st' :
    roots st = root :: rest → active st < limit → is_busy st root = false →
    grant_root st root rest = Some (permit, st1) →
    driving limit st1 gs st' → driving limit st (permit :: gs) st'.

Lemma drive_loop_driving limit fuel skipped st gs st' :
  drive_loop limit fuel skipped st = (gs, st') → driving limit st gs st'.
Proof.
  revert skipped st gs st'. induction fuel as [|fuel IH]; intros skipped st gs st'; cbn [drive_loop].
  { intros [= <- <-]. constructor. }
  destruct (_ && _) eqn:E; [|intros [= <- <-]; constructor].
  apply andb_true_iff in E as [Ha%Nat.ltb_lt _].
  destruct (roots st) as [|root rest] eqn:Er; [intros [= <- <-]; constructor|].
  destruct (is_busy st root) eqn:Eb.
  - intros H%IH. by eapply driving_busy.
  - destruct (grant_root st root rest) as [[permit st1]|] eqn:Eg; [|intros [= <- <-]; constructor].
    destruct (drive_loop limit fuel 0 st1) as [gs1 st2] eqn:El. intros [= <- <-]. apply IH in El.
    by eapply driving_grant.
Qed.

Lemma drive_driving limit st gs st' : drive limit st = (gs, st') → driving limit st gs st'.
Proof.
  unfold drive, rotate_last. intros H%drive_loop_driving. destruct (roots st) as [|root [|root2 rest]] eqn:Er; try done.
  case_bool_decide as El; [|done]. by eapply driving_last.
Qed.

(** ** Well-formed states *)

Record fair_ok (limit : nat) (st : FairState) : Prop := mkFairOk {
  fair_nodup : NoDup (roots st);
  fair_roots : ∀ r, r ∈ roots st ↔ is_Some (queues st !! r);
  fair_queues : ∀ r q, queues st !! r = Some q → q ≠ [];
  fair_active : active st = active_sum (active_roots st);
  fair_positive : ∀ r n, active_roots st !! r = Some n → 0 < n;
  fair_limit : active st ≤ limit;
  fair_single : ∀ r n, starts_with r "root:" = true → active_roots st !! r = Some n → n = 1;
}.

Lemma default_fair_ok limit : fair_ok limit default_fair.
Proof.
  split; cbn; try done.
  - apply NoDup_nil_2.
  - intros r. rewrite lookup_empty. split; [by intros ?%not_elem_of_nil|by intros []].
  - lia.
Qed.

Lemma moved_back_ok limit st root rest :
  roots st = root :: rest → fair_ok limit st → fair_ok limit (moved_back st root rest).
Proof.
  intros Er []. rewrite Er in *. split; cbn; try done.
  - by rewrite (Permutation_app_comm rest [root]).
  - intros r. rewrite <-fair_roots0. set_solver.
Qed.

Lemma grant_root_inv st root rest permit st1 :
  grant_root st root rest = Some (permit, st1) →
  ∃ waiter waiters, queues st !! root = Some (waiter :: waiters) ∧ permit = (waiter, root)
    ∧ active st1 = S (active st)
    ∧ active_roots st1 = <[root := S (default 0 (active_roots st !! root))]> (active_roots st)
    ∧ queues st1 = (if bool_decide (waiters = []) then delete root (queues st) else <[root := waiters]> (queues st))
    ∧ roots st1 = (if bool_decide (waiters = []) then rest else rest ++ [root])
    ∧ last_root st1 = Some root.
Proof.
  unfold grant_root. destruct (queues st !! root) as [[|w ws]|]; [done| |done]. intros [= <- <-].
  exists w, ws. cbn. destruct ws; rewrite ?bool_decide_true, ?bool_decide_false by done; done.
Qed.

Lemma grant_root_ok limit st root rest permit st1 :
  roots st = root :: rest → active st < limit → is_busy st root = false →
  grant_root st root rest = Some (permit, st1) → fair_ok limit st → fair_ok limit st1.
Proof.
  intros Er Ha Hb (w & ws & Hq & -> & E1 & E2 & E3 & E4 & E5)%grant_root_inv [].
  rewrite Er in *. apply NoDup_cons in fair_nodup0 as [Hroot Hrest].
  split; rewrite ?E1, ?E2, ?E3, ?E4.
  - case_bool_decide; [done|]. apply NoDup_app. split_and!; [done| |apply NoDup_singleton].
    intros x Hx ->%list_elem_of_singleton. done.
  - intros r. destruct (decide (r = root)) as [->|Hne].
    + case_bool_decide.
      * rewrite lookup_delete_eq. split; [done|by intros []].
      * rewrite lookup_insert_eq. split; [by eexists|]. intros _. apply elem_of_app. right. by left.
    + assert (r ∈ rest ↔ is_Some (queues st !! r)) as Hr by (rewrite <-fair_roots0; set_solver).
      case_bool_decide; rewrite ?lookup_delete_ne, ?lookup_insert_ne by done; rewrite <-Hr; [done|set_solver].
  - intros r q. destruct (decide (r = root)) as [->|Hne].
    + case_bool_decide; rewrite ?lookup_delete_eq, ?lookup_insert_eq; [done|by intros [= <-]].
    + case_bool_decide; rewrite ?lookup_delete_ne, ?lookup_insert_ne by done; eauto.
  - destruct (active_roots st !! root) as [n|] eqn:En; cbn.
    + pose proof (active_sum_update _ _ _ (S n) En). lia.
    + rewrite active_sum_insert by done. lia.
  - intros r n. destruct (decide (r = root)) as [->|Hne]; [rewrite lookup_insert_eq|rewrite lookup_insert_ne by done; eauto].
    intros [= <-]. lia.
  - lia.
  - intros r n Hs. destruct (decide (r = root)) as [->|Hne]; [rewrite lookup_insert_eq|rewrite lookup_insert_ne by done; eauto].
    intros [= <-]. unfold is_busy in Hb. rewrite Hs in Hb. cbn in Hb. apply bool_decide_eq_false in Hb.
    by rewrite <-eq_None_not_Some in Hb; rewrite Hb.
Qed.

Lemma driving_ok limit st gs st' : driving limit st gs st' → fair_ok limit st → fair_ok limit st'.
Proof.
  induction 1 as [st|st root rest gs st' Er El _ IH|st root rest gs st' Er Ha Hb _ IH
    |st root rest permit st1 gs st' Er Ha Hb Hg _ IH]; intros H; [done|..].
  - by apply IH, moved_back_ok.
  - by apply IH, moved_back_ok.
  - by eapply IH, grant_root_ok.
Qed.

(** A well-formed root at the front is granted. *)
Lemma front_granted limit st root rest :
  fair_ok limit st → roots st = root :: rest → is_Some (grant_root st root rest).
Proof.
  intros H Er. assert (is_Some (queues st !! root)) as [q Hq] by (apply H; rewrite Er; left).
  unfold grant_root. rewrite Hq. destruct q; [by apply (fair_queues _ _ H) in Hq|by eexists].
Qed.

(** ** No worker is idle *)

(** Either every worker runs, or every root that waits is busy. *)
Definition driven (limit : nat) (st : FairState) : Prop :=
  active st = limit ∨ ∀ r, r ∈ roots st → is_busy st r = true.

Lemma waiting_cons st root rest :
  roots st = root :: rest →
  waiting st = length (queue_of st root) + sum_list_with (λ r, length (queue_of st r)) rest.
Proof. intros Er. unfold waiting. by rewrite Er. Qed.

Lemma waiting_moved st root rest : roots st = root :: rest → waiting (moved_back st root rest) = waiting st.
Proof.
  intros Er. rewrite (waiting_cons st _ _ Er). unfold waiting, moved_back. cbn.
  rewrite sum_list_with_app. cbn. unfold queue_of. lia.
Qed.

Lemma sum_list_with_ext {A} (f g : A → nat) l : (∀ x, x ∈ l → f x = g x) → sum_list_with f l = sum_list_with g l.
Proof.
  induction l as [|x l IH]; intros H; [done|]. cbn. rewrite (H x) by left. rewrite IH; [done|]. intros y Hy. apply H. by right.
Qed.

Lemma waiting_granted limit st root rest permit st1 :
  fair_ok limit st → roots st = root :: rest → grant_root st root rest = Some (permit, st1) →
  waiting st = S (waiting st1) ∧ length (roots st1) ≤ length (roots st).
Proof.
  intros H Er (w & ws & Hq & -> & _ & _ & E3 & E4 & _)%grant_root_inv.
  pose proof (fair_nodup _ _ H) as Hn. rewrite Er in Hn. apply NoDup_cons in Hn as [Hroot _].
  rewrite (waiting_cons st _ _ Er). unfold waiting, queue_of. rewrite E3, E4, Hq, Er. cbn [default length].
  assert (∀ m : gmap rstr (list nat), (∀ r, r ∈ rest → m !! r = queues st !! r) →
    sum_list_with (λ r, length (default [] (m !! r))) rest
    = sum_list_with (λ r, length (default [] (queues st !! r))) rest) as Hs.
  { intros m Hm. apply sum_list_with_ext. intros r Hr. by rewrite Hm. }
  case_bool_decide as Ew.
  - subst ws. rewrite (Hs (delete root (queues st))); [cbn; lia|]. intros r Hr. apply lookup_delete_ne. by intros ->.
  - rewrite sum_list_with_app, (Hs (<[root:=ws]> (queues st))); [cbn; rewrite lookup_insert_eq, length_app; cbn; lia|].
    intros r Hr. apply lookup_insert_ne. by intros ->.
Qed.

Lemma drive_loop_driven limit fuel skipped st gs st' :
  fair_ok limit st → skipped ≤ length (roots st) →
  (∀ r, r ∈ drop (length (roots st) - skipped) (roots st) → is_busy st r = true) →
  waiting st * S (length (roots st)) + (length (roots st) - skipped) < fuel →
  drive_loop limit fuel skipped st = (gs, st') → driven limit st'.
Proof.
  revert skipped st gs st'. induction fuel as [|fuel IH]; intros skipped st gs st' H Hs Hb Hf; [lia|].
  cbn [drive_loop]. destruct (_ && _) eqn:E.
  - apply andb_true_iff in E as [Ha%Nat.ltb_lt Hk%Nat.ltb_lt].
    destruct (roots st) as [|root rest] eqn:Er; [cbn in Hk; lia|].
    destruct (is_busy st root) eqn:Ebusy.
    + fold (moved_back st root rest). intros El.
      assert (length (roots (moved_back st root rest)) = length (root :: rest)) as Hlen
        by (cbn; rewrite length_app; cbn; lia).
      apply (IH (S skipped) (moved_back st root rest) gs st'); [| | | |exact El].
      * by apply moved_back_ok.
      * rewrite Hlen. cbn in *. lia.
      * rewrite Hlen. cbn [moved_back roots length]. intros r. replace (S (length rest) - S skipped) with (length rest - skipped) by lia.
        rewrite drop_app, elem_of_app. cbn in Hk. replace (length rest - skipped - length rest) with 0 by lia.
        cbn [drop]. rewrite list_elem_of_singleton. intros [Hr| ->]; [|done].
        apply Hb. cbn [length]. replace (S (length rest) - skipped) with (S (length rest - skipped)) by lia. done.
      * rewrite Hlen, (waiting_moved st _ _ Er). cbn in *. lia.
    + destruct (front_granted limit st root rest H Er) as [[permit st1] Hg]. rewrite Hg.
      destruct (drive_loop limit fuel 0 st1) as [gs1 st2] eqn:El. intros [= <- <-].
      destruct (waiting_granted limit st root rest permit st1 H Er Hg) as [Hw Hl]. rewrite Er in Hl.
      eapply (IH 0); [by eapply grant_root_ok|lia| |rewrite Hw in Hf; cbn in *; nia|exact El].
      rewrite Nat.sub_0_r, drop_ge by done. by intros ? ?%not_elem_of_nil.
  - intros [= _ <-]. apply andb_false_iff in E as [E%Nat.ltb_ge|E%Nat.ltb_ge].
    + left. pose proof (fair_limit _ _ H). lia.
    + right. intros r Hr. apply Hb. by replace (length (roots st) - skipped) with 0 by lia.
Qed.

Lemma rotate_last_ok limit st : fair_ok limit st → fair_ok limit (rotate_last st).
Proof.
  intros H. unfold rotate_last. destruct (roots st) as [|root [|root2 rest]] eqn:Er; try done.
  case_bool_decide; [|done]. by apply (moved_back_ok limit st root (root2 :: rest)).
Qed.

Lemma drive_ok limit st gs st' : fair_ok limit st → drive limit st = (gs, st') → fair_ok limit st' ∧ driven limit st'.
Proof.
  intros H Hd. split; [by eapply driving_ok; [eapply drive_driving|]|].
  unfold drive in Hd. eapply drive_loop_driven; [by apply rotate_last_ok|apply Nat.le_0_l| | |exact Hd].
  - rewrite Nat.sub_0_r, drop_ge by done. by intros ? ?%not_elem_of_nil.
  - unfold drive_fuel. lia.
Qed.

Lemma enqueue_ok limit st root w : fair_ok limit st → fair_ok limit (enqueue st root w).
Proof.
  intros []. split; cbn; try done.
  - case_bool_decide as E; [done|]. apply NoDup_app. split_and!; [done| |apply NoDup_singleton].
    intros x Hx ->%list_elem_of_singleton. by apply fair_roots0 in Hx.
  - intros r. destruct (decide (r = root)) as [->|Hne].
    + rewrite lookup_insert_eq. split; [by eexists|]. intros _.
      case_bool_decide as E; [by apply fair_roots0|]. apply elem_of_app. right. by left.
    + rewrite lookup_insert_ne by done. pose proof (fair_roots0 r) as Hr.
      case_bool_decide; rewrite ?elem_of_app, ?list_elem_of_singleton; naive_solver.
  - intros r q. destruct (decide (r = root)) as [->|Hne]; [rewrite lookup_insert_eq|rewrite lookup_insert_ne by done; eauto].
    intros [= <-]. by destruct (default [] _).
Qed.

Lemma release_root_ok limit st root : is_Some (active_roots st !! root) → fair_ok limit st → fair_ok limit (release_root st root).
Proof.
  intros [n Hn] []. pose proof (fair_positive0 _ _ Hn) as Hp. pose proof (active_sum_delete _ _ _ Hn) as Hs.
  split; cbn; try done; rewrite ?Hn; try lia.
  - destruct n as [|[|n]]; [lia|lia|]. pose proof (active_sum_update _ _ _ (S n) Hn). lia.
  - intros r k. destruct n as [|[|n]]; [lia| |].
    + rewrite lookup_delete_Some. intros [_ ?]. eauto.
    + destruct (decide (r = root)) as [->|Hne]; [rewrite lookup_insert_eq|rewrite lookup_insert_ne by done; eauto].
      intros [= <-]. lia.
  - intros r k Hr. destruct n as [|[|n]]; [lia| |].
    + rewrite lookup_delete_Some. intros [_ ?]. eauto.
    + destruct (decide (r = root)) as [->|Hne]; [rewrite lookup_insert_eq|rewrite lookup_insert_ne by done; eauto].
      intros [= <-]. by pose proof (fair_single0 _ _ Hr Hn).
Qed.

(** ** Runs *)

Inductive FairOp := Acquire (root : rstr) (waiter : nat) | Release (root : rstr).

Section Runs.
Variable limit : nat.

Definition fair_op (st : FairState) (op : FairOp) : list FairPermit * FairState :=
  match op with Acquire root waiter => acquire limit st root waiter | Release root => release limit st root end.

(** Only a permit that was granted is dropped. *)
Definition legal_op (st : FairState) (op : FairOp) : bool :=
  match op with Acquire _ _ => true | Release root => bool_decide (is_Some (active_roots st !! root)) end.

Fixpoint fair_ops (st : FairState) (ops : list FairOp) : list FairPermit * FairState :=
  match ops with
  | [] => ([], st)
  | op :: ops =>
      let '(gs, st) := fair_op st op in
      let '(gs', st) := fair_ops st ops in (gs ++ gs', st)
  end.

Fixpoint legal_ops (st : FairState) (ops : list FairOp) : bool :=
  match ops with
  | [] => true
  | op :: ops => legal_op st op && legal_ops (snd (fair_op st op)) ops
  end.

Lemma fair_op_ok st op gs st' :
  fair_ok limit st → legal_op st op = true → fair_op st op = (gs, st') → fair_ok limit st' ∧ driven limit st'.
Proof.
  intros H Hl. destruct op as [root w|root]; cbn [fair_op]; apply drive_ok; [by apply enqueue_ok|].
  apply bool_decide_eq_true in Hl. by apply release_root_ok.
Qed.

Lemma fair_ops_ok st ops gs st' :
  fair_ok limit st → legal_ops st ops = true → fair_ops st ops = (gs, st') →
  fair_ok limit st' ∧ (ops ≠ [] → driven limit st').
Proof.
  revert st gs. induction ops as [|op ops IH]; intros st gs H Hl; cbn; [by intros [= _ <-]|].
  cbn in Hl. apply andb_true_iff in Hl as [Hl Hls].
  destruct (fair_op st op) as [gs1 st1] eqn:E1. destruct (fair_ops st1 ops) as [gs2 st2] eqn:E2. intros [= _ <-].
  destruct (fair_op_ok _ _ _ _ H Hl E1) as [H1 D1]. destruct (IH _ _ H1 Hls E2) as [H2 D2]. split; [done|].
  intros _. destruct ops; [cbn in E2; by injection E2 as _ <-|by apply D2].
Qed.

(** ** Who passes whom *)

Definition ahead (st : FairState) (r : rstr) : list rstr := take_while (λ x, negb (str_eqb x r)) (roots st).

Lemma take_while_stop {A} (p : A → bool) l m x : x ∈ l → p x = false → take_while p (l ++ m) = take_while p l.
Proof.
  induction 1 as [x l|x y l _ IH]; intros Hp; cbn [app take_while]; [by rewrite Hp|].
  destruct (p y); [by rewrite IH|done].
Qed.

Lemma ahead_app (l m : list rstr) r :
  r ∈ l → take_while (λ x, negb (str_eqb x r)) (l ++ m) = take_while (λ x, negb (str_eqb x r)) l.
Proof. intros H. apply (take_while_stop _ _ _ r H). apply negb_false_iff. by apply str_eqb_eq. Qed.

Lemma take_while_elem {A} (p : A → bool) l x : x ∈ take_while p l → x ∈ l.
Proof.
  induction l as [|y l IH]; cbn; [done|]. destruct (p y); [|by intros ?%not_elem_of_nil].
  rewrite !elem_of_cons. naive_solver.
Qed.

(** Root [r] waits and may run; the roots of [seen] were served since. *)
Record waits (r : rstr) (seen : list rstr) (st : FairState) : Prop := mkWaits {
  waits_root : r ∈ roots st;
  waits_free : is_busy st r = false;
  waits_nodup : NoDup seen;
  waits_behind : ∀ s, s ∈ seen → s ∉ ahead st r;
  waits_last : seen ≠ [] → last_root st ≠ Some r;
}.

Lemma waits_moved r seen st root rest :
  waits r seen st → roots st = root :: rest → root ≠ r ∨ seen = [] → waits r seen (moved_back st root rest).
Proof.
  intros [W1 W2 W3 W4 W5] Er Hr. split; try done.
  - cbn. rewrite Er in W1. set_solver.
  - destruct Hr as [Hr| ->]; [|by intros ? ?%not_elem_of_nil]. intros s Hs Ha. apply (W4 s Hs). unfold ahead in *. rewrite Er in *.
    cbn in Ha. apply elem_of_cons in W1 as [->|W1]; [done|]. rewrite (ahead_app rest [root] r W1) in Ha.
    cbn. rewrite (proj2 (negb_true_iff _)); [by right|]. apply not_true_iff_false. by rewrite str_eqb_eq.
Qed.

Lemma waits_granted r seen st root rest permit st1 :
  fair_ok limit st → waits r seen st → roots st = root :: rest → root ≠ r →
  grant_root st root rest = Some (permit, st1) →
  waits r (seen ++ [root]) st1.
Proof.
  intros H [W1 W2 W3 W4 W5] Er Hne (w & ws & Hq & -> & E1 & E2 & E3 & E4 & E5)%grant_root_inv.
  pose proof (fair_nodup _ _ H) as Hn. rewrite Er in *. apply NoDup_cons in Hn as [Hroot Hrest].
  assert (r ∈ rest) as Hr by (apply elem_of_cons in W1 as [->|]; done).
  assert (ahead st r = root :: take_while (λ x, negb (str_eqb x r)) rest) as Ha.
  { unfold ahead. rewrite Er. cbn. rewrite (proj2 (negb_true_iff _)); [done|]. apply not_true_iff_false. by rewrite str_eqb_eq. }
  assert (ahead st1 r = take_while (λ x, negb (str_eqb x r)) rest) as Ha1.
  { unfold ahead. rewrite E4. case_bool_decide; [done|]. by apply ahead_app. }
  split.
  - rewrite E4. case_bool_decide; set_solver.
  - unfold is_busy in *. rewrite E2. by rewrite lookup_insert_ne by done.
  - apply NoDup_app. split_and!; [done| |apply NoDup_singleton].
    intros x Hx ->%list_elem_of_singleton. apply (W4 root Hx). rewrite Ha. by left.
  - intros s. rewrite elem_of_app, list_elem_of_singleton, Ha1. intros [Hs| ->].
    + intros Hin. apply (W4 s Hs). rewrite Ha. by right.
    + intros Hin%take_while_elem. done.
  - intros _. rewrite E5. by intros [= ->].
Qed.

Lemma driving_waits r seen st gs st' :
  driving limit st gs st' → fair_ok limit st → waits r seen st → r ∉ gs.*2 → waits r (seen ++ gs.*2) st'.
Proof.
  intros Hd. revert seen. induction Hd as [st|st root rest gs st' Er El _ IH|st root rest gs st' Er Ha Hb _ IH
    |st root rest permit st1 gs st' Er Ha Hb Hg _ IH]; intros seen H W Hr.
  - by rewrite app_nil_r.
  - apply IH; [by apply moved_back_ok| |done]. apply waits_moved; [done..|].
    destruct (decide (root = r)) as [->|]; [|by left]. right.
    destruct seen; [done|]. by destruct (waits_last _ _ _ W).
  - apply IH; [by apply moved_back_ok| |done]. apply waits_moved; [done..|]. left. intros ->.
    by rewrite (waits_free _ _ _ W) in Hb.
  - cbn in Hr. rewrite not_elem_of_cons in Hr. destruct Hr as [Hne Hr].
    pose proof (grant_root_inv _ _ _ _ _ Hg) as (w & ws & _ & -> & _). cbn in Hne |- *.
    rewrite cons_middle, app_assoc. apply IH; [by eapply grant_root_ok| |done]. by eapply waits_granted.
Qed.

Lemma waits_enqueue r seen st root w : waits r seen st → waits r seen (enqueue st root w).
Proof.
  intros [W1 W2 W3 W4 W5]. split; try done; unfold ahead in *; cbn.
  - case_bool_decide; set_solver.
  - intros s Hs. case_bool_decide; [by apply W4|]. rewrite ahead_app by done. by apply W4.
Qed.

Lemma waits_release r seen st root :
  is_Some (active_roots st !! root) → waits r seen st → waits r seen (release_root st root).
Proof.
  intros Ha [W1 W2 W3 W4 W5]. split; try done. unfold is_busy in *. cbn.
  destruct (starts_with r "root:"); [|done]. cbn in *. apply bool_decide_eq_false in W2. apply bool_decide_eq_false.
  rewrite <-eq_None_not_Some in *. assert (r ≠ root) as Hne by (intros ->; rewrite W2 in Ha; by destruct Ha).
  destruct (active_roots st !! root) as [[|[|n]]|]; by rewrite ?lookup_delete_ne, ?lookup_insert_ne by done.
Qed.

Lemma fair_op_waits r seen st op gs st' :
  fair_ok limit st → legal_op st op = true → fair_op st op = (gs, st') → waits r seen st → r ∉ gs.*2 →
  waits r (seen ++ gs.*2) st'.
Proof.
  intros H Hl He W Hr. destruct op as [root w|root]; cbn [fair_op] in He.
  - eapply driving_waits; [by eapply drive_driving|by apply enqueue_ok|by apply waits_enqueue|done].
  - apply bool_decide_eq_true in Hl.
    eapply driving_waits; [by eapply drive_driving|by apply release_root_ok|by apply waits_release|done].
Qed.

Lemma fair_ops_waits r seen st ops gs st' :
  fair_ok limit st → legal_ops st ops = true → fair_ops st ops = (gs, st') → waits r seen st → r ∉ gs.*2 →
  waits r (seen ++ gs.*2) st'.
Proof.
  revert seen st gs. induction ops as [|op ops IH]; intros seen st gs H Hl; cbn.
  { intros [= <- <-] W _. by rewrite app_nil_r. }
  cbn in Hl. apply andb_true_iff in Hl as [Hl Hls].
  destruct (fair_op st op) as [gs1 st1] eqn:E1. destruct (fair_ops st1 ops) as [gs2 st2] eqn:E2.
  intros [= <- <-] W. rewrite fmap_app, elem_of_app. intros Hr. rewrite app_assoc.
  destruct (fair_op_ok _ _ _ _ H Hl E1) as [H1 _].
  apply (IH _ st1 gs2 H1 Hls E2); [|by intros ?; apply Hr; right].
  apply (fair_op_waits _ _ st op _ _ H Hl E1 W). intros ?. apply Hr. by left.
Qed.

(** ** First come, first served within a root *)

Definition granted_to (r : rstr) (gs : list FairPermit) : list nat := (filter (λ g, g.2 = r) gs).*1.
Definition acquired_by (r : rstr) (ops : list FairOp) : list nat :=
  omap (λ op, match op with Acquire root w => if bool_decide (root = r) then Some w else None | Release _ => None end) ops.

Lemma grant_root_queue st root rest permit st1 r :
  grant_root st root rest = Some (permit, st1) →
  queue_of st r = granted_to r [permit] ++ queue_of st1 r.
Proof.
  intros (w & ws & Hq & -> & _ & _ & E3 & _ & _)%grant_root_inv. unfold queue_of, granted_to. rewrite E3.
  destruct (decide (root = r)) as [->|Hne].
  - rewrite filter_cons_True by done. rewrite Hq. cbn.
    case_bool_decide as Ew; rewrite ?lookup_delete_eq, ?lookup_insert_eq; [by rewrite Ew|done].
  - rewrite filter_cons_False by done. cbn.
    case_bool_decide; by rewrite ?lookup_delete_ne, ?lookup_insert_ne by done.
Qed.

Lemma granted_to_cons r g gs : granted_to r (g :: gs) = granted_to r [g] ++ granted_to r gs.
Proof. unfold granted_to. by rewrite <-fmap_app, <-filter_app. Qed.

Lemma granted_to_app r gs gs' : granted_to r (gs ++ gs') = granted_to r gs ++ granted_to r gs'.
Proof. unfold granted_to. by rewrite filter_app, fmap_app. Qed.

Lemma driving_queue st gs st' r : driving limit st gs st' → queue_of st r = granted_to r gs ++ queue_of st' r.
Proof.
  induction 1 as [st|st root rest gs st' Er El _ IH|st root rest gs st' Er Ha Hb _ IH
    |st root rest permit st1 gs st' Er Ha Hb Hg _ IH]; [done|done|done|].
  rewrite granted_to_cons, <-app_assoc, <-IH. by eapply grant_root_queue.
Qed.

Lemma fair_op_queue st op gs st' r :
  fair_op st op = (gs, st') → queue_of st r ++ acquired_by r [op] = granted_to r gs ++ queue_of st' r.
Proof.
  intros He. destruct op as [root w|root]; cbn [fair_op acquired_by omap list_omap] in He |- *; apply drive_driving, (driving_queue _ _ _ r) in He; rewrite <-He.
  - unfold queue_of, enqueue. cbn. case_bool_decide as E.
    + subst. by rewrite lookup_insert_eq.
    + by rewrite lookup_insert_ne, app_nil_r.
  - by rewrite app_nil_r.
Qed.

Lemma fair_ops_queue st ops gs st' r :
  fair_ops st ops = (gs, st') → queue_of st r ++ acquired_by r ops = granted_to r gs ++ queue_of st' r.
Proof.
  revert st gs. induction ops as [|op ops IH]; intros st gs; cbn [fair_ops].
  { intros [= <- <-]. apply app_nil_r. }
  destruct (fair_op st op) as [gs1 st1] eqn:E1. destruct (fair_ops st1 ops) as [gs2 st2] eqn:E2. intros [= <- <-].
  change (op :: ops) with ([op] ++ ops). unfold acquired_by. rewrite omap_app. fold (acquired_by r [op]) (acquired_by r ops).
  rewrite app_assoc, (fair_op_queue _ _ _ _ r E1), granted_to_app, <-!app_assoc. f_equal. by apply IH.
Qed.
End Runs.

(** * What fair execution guarantees *)

(** C23. Roots take turns: whatever requests come and go, the requests of one root are
    served in the order in which they came, and while a root waits that may run, no
    other root is served twice; so it is served before any of the others has its
    second turn. *)
Theorem roots_take_turns limit ops gs st ops' gs' st' r :
  legal_ops limit default_fair ops = true → fair_ops limit default_fair ops = (gs, st) →
  legal_ops limit st ops' = true → fair_ops limit st ops' = (gs', st') →
  acquired_by r ops = granted_to r gs ++ queue_of st r
  ∧ (r ∈ roots st → is_busy st r = false → r ∉ gs'.*2 → NoDup gs'.*2).
Proof.
  intros Hl E Hl' E'. split.
  - pose proof (fair_ops_queue limit _ _ _ _ r E) as H. cbn in H. exact H.
  - intros Hr Hb Hn. destruct (fair_ops_ok _ _ _ _ _ (default_fair_ok limit) Hl E) as [Hok _].
    assert (waits r [] st) as Hw.
    { split; try done; [apply NoDup_nil_2|by intros s ?%not_elem_of_nil]. }
    exact (waits_nodup _ _ _ (fair_ops_waits _ _ _ _ _ _ _ Hok Hl' E' Hw Hn)).
Qed.

(** One worker; root [a] asks three times, [b] once: [b] is served after the first of [a]. *)
Definition a_root : rstr := rs "root:a".
Definition b_root : rstr := rs "root:b".
Definition c_root : rstr := rs "root:c".
Definition early : list FairOp := [Acquire a_root 0; Acquire c_root 1; Acquire a_root 2; Acquire c_root 3; Acquire b_root 4].
Definition early_end : list FairPermit * FairState := Eval vm_compute in fair_ops 1 default_fair early.
Definition late : list FairOp := [Release a_root; Acquire a_root 5; Release c_root].
Definition late_end : list FairPermit * FairState := Eval vm_compute in fair_ops 1 (snd early_end) late.

Example turns : fst early_end = [(0, a_root)] ∧ fst late_end = [(1, c_root); (2, a_root)]
  ∧ fst (release 1 (snd late_end) a_root) = [(4, b_root)].
Proof. vm_compute. done. Qed.

Lemma roots_take_turns_witness : NoDup [c_root; a_root].
Proof.
  destruct (roots_take_turns 1 early (fst early_end) (snd early_end) late (fst late_end) (snd late_end) b_root)
    as [_ H]; [vm_compute; reflexivity..|].
  apply H; [|vm_compute; reflexivity|]; apply (bool_decide_unpack _); vm_compute; exact I.
Defined.
