(* ===== verification/RpcDispatch.v ===== *)
(** * The request dispatcher

    [RpcRequestDispatcher], [Lane] and [execute_job] of
    [core-server/src/transport/bounded_dispatch.rs].  Every task is a job with the
    place it has reached between two awaits; an [Action] is one move of one task, the
    manager of a lane or the owner of the dispatcher, and [perform] its effect.  A job
    is named by its position in the order of admission. *)

From S2P Require Import Prelude RustText Json RpcScope FairExecution Tokio.

(** ** Jobs *)

(** What [execute_job] answers: [unavailable_response] with its [busy], the error of
    the resolution, the handler's response, or the failure of its worker. *)
Inductive Outcome :=
| Unavailable (busy : bool)
| ResolutionFailed (error : rstr)
| Handled (response : Value)
| WorkerFailed (error : rstr).

(** Where [execute_job] is. *)
Inductive Stage :=
| Queued
| Resolving                                   (* the first [resolve_job_scope] *)
| Refreshing (scope : RpcResourceScope) (observed : list bool) (index : nat) (waiting refresh : bool)
| Reresolving (observed : list bool)          (* [resolve_job_scope] after a change *)
| Depending (rest : list nat) (waiting : bool)
| Acquiring                                   (* waits for a permit *)
| Granted
| Submitted                                   (* in the queue of the blocking pool *)
| Running
| Answering (outcome : Outcome)
| Replied
| Completed
| Ended.

Record RpcJob := mkJob {
  class : RpcDispatchClass;
  retained_bytes : N;
  predecessors : list nat;
  has_resolver : bool;
  resolution_error : option rstr;
  published_scope : option RpcResourceScope;
  preparation_kind : option bool;
  completion : bool;
  started : bool;
  stage : Stage;
}.

Definition set_stage (s : Stage) (j : RpcJob) : RpcJob :=
  mkJob (class j) (retained_bytes j) (predecessors j) (has_resolver j) (resolution_error j)
    (published_scope j) (preparation_kind j) (completion j) (started j) s.
Definition set_preparation (kind : bool) (j : RpcJob) : RpcJob :=
  mkJob (class j) (retained_bytes j) (predecessors j) (has_resolver j) (resolution_error j)
    (published_scope j) (Some kind) (completion j) (started j) (stage j).
Definition set_scope (scope : RpcResourceScope) (j : RpcJob) : RpcJob :=
  mkJob (class j) (retained_bytes j) (predecessors j) (has_resolver j) (resolution_error j)
    (Some scope) (preparation_kind j) (completion j) (started j) (stage j).
Definition lose_resolver (error : rstr) (j : RpcJob) : RpcJob :=
  mkJob (class j) (retained_bytes j) (predecessors j) false (Some error)
    (published_scope j) (preparation_kind j) (completion j) (started j) (stage j).
Definition set_started (j : RpcJob) : RpcJob :=
  mkJob (class j) (retained_bytes j) (predecessors j) (has_resolver j) (resolution_error j)
    (published_scope j) (preparation_kind j) (completion j) true (stage j).
Definition set_completion (j : RpcJob) : RpcJob :=
  mkJob (class j) (retained_bytes j) (predecessors j) (has_resolver j) (resolution_error j)
    (published_scope j) (preparation_kind j) true (started j) (stage j).

(** The task is gone, and with it the senders of its channels. *)
Definition gone (j : RpcJob) : bool := match stage j with Ended => true | _ => false end.

(** ** Predecessors *)

(** [resolved_scope]: [None] while it waits. *)
Definition resolved_scope (previous : RpcJob) : option RpcResourceScope :=
  match published_scope previous with
  | Some scope => Some scope
  | None => if gone previous then Some Global else None
  end.

(** [wait_completed] returns. *)
Definition wait_completed (previous : RpcJob) : bool := completion previous || gone previous.

(** The condition of the refresh loop on a predecessor that was not observed. *)
Definition must_observe (job_class : RpcDispatchClass) (scope : RpcResourceScope)
    (previous : RpcJob) (previous_scope : RpcResourceScope) : bool :=
  negb (bool_decide (class previous = Read))
  && changes_ownership previous_scope
  && overlaps scope previous_scope
  && negb (permits_preparing_cancel (started previous) job_class scope previous_scope).

(** [conflicts] of a predecessor: [None] while it waits for what it published. *)
Definition conflicts_with (previous : RpcJob) (job_class : RpcDispatchClass) (scope : RpcResourceScope)
  : option bool :=
  let revokes := bool_decide (job_class = Control) && bool_decide (scope = ExecutionAccess) in
  if bool_decide (job_class = Read) && bool_decide (class previous = Read) then Some false
  else if revokes && bool_decide (preparation_kind previous = Some true) then Some false
  else if revokes && bool_decide (preparation_kind previous = None) && negb (gone previous) then None
  else
    match resolved_scope previous with
    | None => None
    | Some previous_scope =>
        Some (conflicts (class previous) (started previous) (preparation_kind previous) previous_scope
                job_class scope)
    end.

(** ** Resolution *)

(** What a call of [resolve_job_scope] comes to: it may find the server stopping,
    before or after it has queued the resolver, or that there is no resolver; the
    resolver may be run; its worker may fail, and the resolver is lost. *)
Inductive Resolution :=
| Skipped
| Resolved (scope : RpcResourceScope)
| Failed (error : rstr).

Definition resolve_job_scope (stopping : bool) (r : Resolution) (j : RpcJob) : option (RpcResourceScope * RpcJob) :=
  match r with
  | Skipped => if stopping || negb (has_resolver j) then Some (Global, j) else None
  | Resolved scope => if has_resolver j then Some (scope, j) else None
  | Failed error => if has_resolver j then Some (Global, lose_resolver error j) else None
  end.

(** The scope is published; the predecessors are awaited next. *)
Definition publish (scope : RpcResourceScope) (j : RpcJob) : RpcJob :=
  set_stage (Depending (predecessors j) false) (set_scope scope j).

(** The head of the refresh loop. *)
Definition begin_round (scope : RpcResourceScope) (observed : list bool) (j : RpcJob) : RpcJob :=
  match scope with
  | Resources _ _ _ => set_stage (Refreshing scope observed 0 false false) j
  | _ => publish scope j
  end.

(** [scope] was returned by [resolve_job_scope]. *)
Definition resolved (scope : RpcResourceScope) (j : RpcJob) : option RpcJob :=
  match stage j with
  | Resolving =>
      Some (begin_round scope (replicate (length (predecessors j)) false)
              (set_preparation (is_turn_preparation scope) j))
  | Reresolving observed => Some (begin_round scope observed j)
  | _ => None
  end.

Definition observed_at (observed : list bool) (index : nat) : bool := default false (observed !! index).

(** One pass of the refresh loop over a predecessor, or the end of a round. *)
Definition refresh_pass (jobs : list RpcJob) (j : RpcJob) : option RpcJob :=
  match stage j with
  | Refreshing scope observed index waiting refresh =>
      match predecessors j !! index with
      | None => Some (if refresh then set_stage (Reresolving observed) j else publish scope j)
      | Some p =>
          previous ← jobs !! p;
          if waiting then
            if wait_completed previous
            then Some (set_stage (Refreshing scope (<[index := true]> observed) (S index) false true) j)
            else None
          else
            previous_scope ← resolved_scope previous;
            Some (set_stage
                    (if negb (observed_at observed index) && must_observe (class j) scope previous previous_scope
                     then Refreshing scope observed index true refresh
                     else Refreshing scope observed (S index) false refresh) j)
      end
  | _ => None
  end.

(** One pass of the loop that awaits the predecessors. *)
Definition depend_pass (jobs : list RpcJob) (j : RpcJob) : option RpcJob :=
  match stage j with
  | Depending (p :: rest) waiting =>
      previous ← jobs !! p;
      if waiting then
        if wait_completed previous then Some (set_stage (Depending rest false) j) else None
      else
        scope ← published_scope j;
        conflict ← conflicts_with previous (class j) scope;
        Some (set_stage (if (conflict : bool) then Depending (p :: rest) true else Depending rest false) j)
  | _ => None
  end.

(** The root whose turn the job waits for. *)
Definition root_of (j : RpcJob) : rstr := fairness_root_of (default Global (published_scope j)).

(** ** The permit is there *)

(** The handler may start: it is sent to the blocking pool. *)
Definition checked (stopping : bool) (j : RpcJob) : option RpcJob :=
  match stage j with
  | Granted =>
      Some (set_stage
              (if stopping then Answering (Unavailable false)
               else match resolution_error j with
                    | Some error => Answering (ResolutionFailed error)
                    | None => Submitted
                    end) j)
  | _ => None
  end.

(** The closure the pool runs. *)
Definition begun (stopping : bool) (j : RpcJob) : option RpcJob :=
  match stage j with
  | Submitted =>
      Some (if stopping then set_stage (Answering (Unavailable false)) j else set_stage Running (set_started j))
  | _ => None
  end.

Definition returned (response : Value) (j : RpcJob) : option RpcJob :=
  match stage j with Running => Some (set_stage (Answering (Handled response)) j) | _ => None end.

(** The pool refuses the closure, or it panics. *)
Definition worker_failed (error : rstr) (j : RpcJob) : option RpcJob :=
  match stage j with Submitted | Running => Some (set_stage (Answering (WorkerFailed error)) j) | _ => None end.

Definition replied (j : RpcJob) : option (Outcome * RpcJob) :=
  match stage j with Answering outcome => Some (outcome, set_stage Replied j) | _ => None end.

Definition completed (j : RpcJob) : option RpcJob :=
  match stage j with Replied => Some (set_stage Completed (set_completion j)) | _ => None end.

(** ** Lanes *)

Record RpcLimits := mkLimits {
  read_capacity : nat;
  read_concurrency : nat;
  write_capacity : nat;
  control_capacity : nat;
}.

Definition READ_CONCURRENCY : nat := 4.
Definition READ_CAPACITY : nat := 64.
Definition WRITE_CAPACITY : nat := 64.
Definition CONTROL_CAPACITY : nat := 32.
Definition APPROVAL_CAPACITY : nat := 32.

Definition default_limits : RpcLimits := mkLimits READ_CAPACITY READ_CONCURRENCY WRITE_CAPACITY CONTROL_CAPACITY.

Definition byte_capacity (class : RpcDispatchClass) : N :=
  match class with Control | Approval => 16 * 1024 * 1024 | _ => 64 * 1024 * 1024 end.

Section Dispatch.
Context `{Semaphore}.

Record Lane := mkLane {
  admission : Sem;
  bytes : Sem;
  (* the jobs in the channel, and whether its sender is there *)
  channel : list nat;
  sender : bool;
  (* the [JoinSet] of the manager, and whether the manager goes on *)
  running : list nat;
  manager : bool;
  execution : FairState;
}.

(** What happened, for the theorems; the newest first. *)
Inductive Event :=
| ScopeResolved (job : nat)
| HandlerBegan (job : nat)
| Answered (job : nat) (outcome : Outcome)
| JobCompleted (job : nat)
| Stopped.

Record RpcRequestDispatcher := mkDispatcher {
  read : Lane;
  write : Lane;
  control : Lane;
  approval : Lane;
  stopping : bool;
  (* not yet taken by [shutdown] *)
  owned : bool;
  outstanding : list nat;
  jobs : list RpcJob;
  log : list Event;
}.

Definition lane_of (d : RpcRequestDispatcher) (class : RpcDispatchClass) : Lane :=
  match class with Read => read d | Write => write d | Control => control d | Approval => approval d end.

Definition set_lane (class : RpcDispatchClass) (l : Lane) (d : RpcRequestDispatcher) : RpcRequestDispatcher :=
  match class with
  | Read => mkDispatcher l (write d) (control d) (approval d) (stopping d) (owned d) (outstanding d) (jobs d) (log d)
  | Write => mkDispatcher (read d) l (control d) (approval d) (stopping d) (owned d) (outstanding d) (jobs d) (log d)
  | Control => mkDispatcher (read d) (write d) l (approval d) (stopping d) (owned d) (outstanding d) (jobs d) (log d)
  | Approval => mkDispatcher (read d) (write d) (control d) l (stopping d) (owned d) (outstanding d) (jobs d) (log d)
  end.

Definition set_jobs (js : list RpcJob) (d : RpcRequestDispatcher) : RpcRequestDispatcher :=
  mkDispatcher (read d) (write d) (control d) (approval d) (stopping d) (owned d) (outstanding d) js (log d).
Definition set_outstanding (ids : list nat) (d : RpcRequestDispatcher) : RpcRequestDispatcher :=
  mkDispatcher (read d) (write d) (control d) (approval d) (stopping d) (owned d) ids (jobs d) (log d).
Definition record (e : Event) (d : RpcRequestDispatcher) : RpcRequestDispatcher :=
  mkDispatcher (read d) (write d) (control d) (approval d) (stopping d) (owned d) (outstanding d) (jobs d) (e :: log d).

Definition set_permits (adm byt : Sem) (l : Lane) : Lane :=
  mkLane adm byt (channel l) (sender l) (running l) (manager l) (execution l).
Definition set_channel (ids : list nat) (l : Lane) : Lane :=
  mkLane (admission l) (bytes l) ids (sender l) (running l) (manager l) (execution l).
Definition set_running (ids : list nat) (l : Lane) : Lane :=
  mkLane (admission l) (bytes l) (channel l) (sender l) ids (manager l) (execution l).
Definition set_execution (st : FairState) (l : Lane) : Lane :=
  mkLane (admission l) (bytes l) (channel l) (sender l) (running l) (manager l) st.
(** [Lane::shutdown]: the semaphores are closed, the sender is dropped. *)
Definition shut_lane (l : Lane) : Lane :=
  mkLane (close_semaphore (admission l)) (close_semaphore (bytes l)) (channel l) false (running l) (manager l)
    (execution l).
Definition close_admission (l : Lane) : Lane :=
  mkLane (close_semaphore (admission l)) (bytes l) (channel l) (sender l) (running l) (manager l) (execution l).
Definition end_manager (l : Lane) : Lane :=
  mkLane (admission l) (bytes l) (channel l) (sender l) (running l) false (execution l).

Variable limits : RpcLimits.

Definition capacity_of (class : RpcDispatchClass) : nat :=
  match class with
  | Read => read_capacity limits
  | Write => write_capacity limits
  | Control => control_capacity limits
  | Approval => APPROVAL_CAPACITY
  end.

Definition concurrency_of (class : RpcDispatchClass) : nat :=
  match class with Read => read_concurrency limits | _ => 2 end.

(** [Lane::new] *)
Definition new_lane (class : RpcDispatchClass) : Lane :=
  mkLane (new_semaphore (N.of_nat (capacity_of class))) (new_semaphore (byte_capacity class)) [] true [] true
    default_fair.

Definition with_limits : RpcRequestDispatcher :=
  mkDispatcher (new_lane Read) (new_lane Write) (new_lane Control) (new_lane Approval) false true [] [] [].

(** ** Admission *)

(** What [outstanding.retain] keeps. *)
Definition is_outstanding (js : list RpcJob) (id : nat) : bool :=
  match js !! id with Some j => negb (completion j) && negb (gone j) | None => false end.

Definition new_job (class : RpcDispatchClass) (retained_bytes : N) (predecessors : list nat) : RpcJob :=
  mkJob class retained_bytes predecessors true None None None false false Queued.

(** [try_submit_scoped]: the result is the [busy] of the rejection; the number of
    permits is a [u32]. *)
Definition try_submit_scoped (class : RpcDispatchClass) (retained_bytes : N) (d : RpcRequestDispatcher)
  : result bool unit * RpcRequestDispatcher :=
  if stopping d then (Err false, d)
  else
    let lane := lane_of d class in
    match try_acquire_many 1 (admission lane) with
    | None => (Err (negb (stopping d)), d)
    | Some adm =>
        if (byte_capacity class <? retained_bytes)%N then
          (Err true, set_lane class (set_permits (drop_permits 1 adm) (bytes lane) lane) d)
        else
          let permits := (retained_bytes mod 2 ^ 32)%N in
          match try_acquire_many permits (bytes lane) with
          | None =>
              (Err (negb (stopping d)), set_lane class (set_permits (drop_permits 1 adm) (bytes lane) lane) d)
          | Some byt =>
              let d := set_outstanding (filter (λ id, is_outstanding (jobs d) id = true) (outstanding d)) d in
              let give_back := set_permits (drop_permits 1 adm) (drop_permits permits byt) lane in
              if negb (manager lane) then (Err false, set_lane class give_back d)
              else if capacity_of class <=? length (channel lane) then (Err true, set_lane class give_back d)
              else
                let id := length (jobs d) in
                (Ok tt,
                 set_lane class (set_channel (channel lane ++ [id]) (set_permits adm byt lane))
                   (set_jobs (jobs d ++ [new_job class retained_bytes (outstanding d)])
                      (set_outstanding (outstanding d ++ [id]) d)))
          end
    end.

(** ** The moves *)

(** The jobs that got a permit go on. *)
Definition grant_jobs (grants : list FairPermit) (js : list RpcJob) : list RpcJob :=
  foldl (λ js permit, alter (set_stage Granted) permit.1 js) js grants.

(** [execution.acquire]: the job is enqueued and the executor driven. *)
Definition acquire_permit (id : nat) (j : RpcJob) (d : RpcRequestDispatcher) : RpcRequestDispatcher :=
  let lane := lane_of d (class j) in
  let '(grants, st) := acquire (concurrency_of (class j)) (execution lane) (root_of j) id in
  set_lane (class j) (set_execution st lane)
    (set_jobs (grant_jobs grants (<[id := set_stage Acquiring j]> (jobs d))) d).

(** The end of the task: its permit is dropped, then those of the admission. *)
Definition end_job (id : nat) (j : RpcJob) (d : RpcRequestDispatcher) : RpcRequestDispatcher :=
  let lane := lane_of d (class j) in
  let '(grants, st) := release (concurrency_of (class j)) (execution lane) (root_of j) in
  set_lane (class j)
    (set_permits (drop_permits 1 (admission lane)) (drop_permits (retained_bytes j mod 2 ^ 32) (bytes lane))
       (set_execution st lane))
    (set_jobs (grant_jobs grants (<[id := set_stage Ended j]> (jobs d))) d).

Inductive Action :=
| Submit (class : RpcDispatchClass) (retained_bytes : N)
| Receive (class : RpcDispatchClass)
| Join (class : RpcDispatchClass) (job : nat)
| Resolve (job : nat) (resolution : Resolution)
| Look (job : nat)
| Check_permit (job : nat)
| Begin (job : nat)
| Return (job : nat) (response : Value)
| Break (job : nat) (error : rstr)
| Reply (job : nat)
| Complete (job : nat)
| End_job (job : nat)
| Begin_shutdown
| Shutdown
| End_manager (class : RpcDispatchClass).

(** A job whose next state is [j]. *)
Definition put (id : nat) (j : RpcJob) (d : RpcRequestDispatcher) : RpcRequestDispatcher :=
  set_jobs (<[id := j]> (jobs d)) d.

Definition look (id : nat) (j : RpcJob) (d : RpcRequestDispatcher) : option RpcRequestDispatcher :=
  match stage j with
  | Refreshing _ _ _ _ _ => j' ← refresh_pass (jobs d) j; Some (put id j' d)
  | Depending [] _ => Some (acquire_permit id j d)
  | Depending _ _ => j' ← depend_pass (jobs d) j; Some (put id j' d)
  | _ => None
  end.

Definition perform (a : Action) (d : RpcRequestDispatcher) : option RpcRequestDispatcher :=
  match a with
  | Submit class retained_bytes =>
      if owned d then Some (snd (try_submit_scoped class retained_bytes d)) else None
  | Receive class =>
      let lane := lane_of d class in
      match channel lane with
      | id :: rest =>
          j ← jobs d !! id;
          if manager lane && (length (running lane) <? capacity_of class) then
            Some (set_lane class (set_running (running lane ++ [id]) (set_channel rest lane))
                    (put id (set_stage Resolving j) d))
          else None
      | [] => None
      end
  | Join class id =>
      let lane := lane_of d class in
      j ← jobs d !! id;
      if gone j && bool_decide (id ∈ running lane)
      then Some (set_lane class (set_running (filter (λ k, k ≠ id) (running lane)) lane) d)
      else None
  | Resolve id resolution =>
      j ← jobs d !! id;
      '(scope, j) ← resolve_job_scope (stopping d) resolution j;
      j ← resolved scope j;
      Some (record (ScopeResolved id) (put id j d))
  | Look id => j ← jobs d !! id; look id j d
  | Check_permit id => j ← jobs d !! id; j ← checked (stopping d) j; Some (put id j d)
  | Begin id =>
      j ← jobs d !! id;
      j ← begun (stopping d) j;
      Some (if stopping d then put id j d else record (HandlerBegan id) (put id j d))
  | Return id response => j ← jobs d !! id; j ← returned response j; Some (put id j d)
  | Break id error => j ← jobs d !! id; j ← worker_failed error j; Some (put id j d)
  | Reply id =>
      j ← jobs d !! id;
      '(outcome, j) ← replied j;
      Some (record (Answered id outcome) (put id j d))
  | Complete id => j ← jobs d !! id; j ← completed j; Some (record (JobCompleted id) (put id j d))
  | End_job id =>
      j ← jobs d !! id;
      match stage j with Completed => Some (end_job id j d) | _ => None end
  | Begin_shutdown =>
      if owned d then
        Some (record Stopped
                (mkDispatcher (close_admission (read d)) (close_admission (write d)) (close_admission (control d))
                   (close_admission (approval d)) true (owned d) (outstanding d) (jobs d) (log d)))
      else None
  | Shutdown =>
      if owned d then
        Some (mkDispatcher (shut_lane (read d)) (shut_lane (write d)) (shut_lane (control d))
                (shut_lane (approval d)) (stopping d) false (outstanding d) (jobs d) (log d))
      else None
  | End_manager class =>
      let lane := lane_of d class in
      if manager lane && negb (sender lane) && bool_decide (channel lane = []) && bool_decide (running lane = [])
      then Some (set_lane class (end_manager lane) d)
      else None
  end.

Fixpoint performs (acts : list Action) (d : RpcRequestDispatcher) : option RpcRequestDispatcher :=
  match acts with
  | [] => Some d
  | a :: acts => d ← perform a d; performs acts d
  end.
End Dispatch.
