(* ===== verification/RpcDispatchInvariant.v ===== *)
(** * The lanes of the dispatcher

    What a lane keeps agrees with the places of its jobs: the channel, the tasks of
    the manager, the permits of the admission, and those of fair execution.

    After that: the tasks of a lane; the dispatcher keeps its books. *)

From S2P Require Import Prelude RustText Json RpcScope FairExecution FairExecutionFacts Tokio.
From S2P Require Import RpcDispatch.

(** ** Totals *)

Fixpoint total {A} (w : A → N) (l : list A) : N :=
  match l with [] => 0 | x :: l => (w x + total w l)%N end.

Lemma total_app {A} (w : A → N) l k : total w (l ++ k) = (total w l + total w k)%N.
Proof. induction l as [|x l IH]; cbn; [done|]. rewrite IH. lia. Qed.

Lemma total_insert {A} (w : A → N) l i x y :
  l !! i = Some x → (total w (<[i := y]> l) + w x = total w l + w y)%N.
Proof.
  revert i. induction l as [|z l IH]; intros [|i] E; [done|done|injection E as ->; cbn; lia|].
  change (<[S i := y]> (z :: l)) with (z :: <[i := y]> l). cbn [total]. specialize (IH i E). lia.
Qed.

Lemma total_lookup {A} (w : A → N) l i x : l !! i = Some x → (w x ≤ total w l)%N.
Proof.
  revert i. induction l as [|z l IH]; intros [|i] E; cbn in *; simplify_eq; [lia|].
  pose proof (IH _ E). lia.
Qed.

Lemma total_0 {A} (w : A → N) l : (∀ i x, l !! i = Some x → w x = 0%N) → total w l = 0%N.
Proof.
  induction l as [|z l IH]; intros E; cbn; [done|].
  rewrite (E 0 z), IH; [done| |done]. intros i x Hx. by apply (E (S i)).
Qed.

(** ** Places *)

Inductive Place :=
| InChannel
| AtWork                       (* of the task, before it asks for a permit *)
| AtGate (root : rstr)
| Inside (root : rstr)
| Outside.

Definition place_of (j : RpcJob) : Place :=
  match stage j with
  | Queued => InChannel
  | Acquiring => AtGate (root_of j)
  | Granted | Submitted | Running | Answering _ | Replied | Completed => Inside (root_of j)
  | Ended => Outside
  | _ => AtWork
  end.

Record View := mkView { v_class : RpcDispatchClass; v_place : Place; v_bytes : N }.

Definition view_of (j : RpcJob) : View := mkView (class j) (place_of j) (retained_bytes j).
Definition views (js : list RpcJob) : list View := view_of <$> js.

(** Job [id] is of class [c] and at [P]. *)
Definition here (c : RpcDispatchClass) (vs : list View) (id : nat) (P : Place) : Prop :=
  ∃ n, vs !! id = Some (mkView c P n).

Definition of_class (c : RpcDispatchClass) (w : View → N) (v : View) : N :=
  if bool_decide (v_class v = c) then w v else 0.
Definition inside (r : rstr) (v : View) : N :=
  match v_place v with Inside r' => if bool_decide (r' = r) then 1 else 0 | _ => 0 end.
Definition admitted (v : View) : N := match v_place v with Outside => 0 | _ => 1 end.
Definition charged (v : View) : N := match v_place v with Outside => 0 | _ => v_bytes v end.

Lemma here_lookup c js id P :
  here c (views js) id P ↔ ∃ j, js !! id = Some j ∧ class j = c ∧ place_of j = P.
Proof.
  unfold here, views. rewrite list_lookup_fmap. setoid_rewrite fmap_Some. split.
  - intros (n & j & Hj & [= -> -> ->]). eauto.
  - intros (j & Hj & <- & <-). exists (retained_bytes j), j. done.
Qed.

Lemma here_unique c c' vs id P Q : here c vs id P → here c' vs id Q → c = c' ∧ P = Q.
Proof. intros [n E] [m E']. rewrite E in E'. by injection E' as -> ->. Qed.

Lemma here_insert c vs id v i P :
  is_Some (vs !! id) → here c (<[id := v]> vs) i P ↔
  (i = id ∧ v_class v = c ∧ v_place v = P) ∨ (i ≠ id ∧ here c vs i P).
Proof.
  intros Hu%lookup_lt_is_Some. unfold here. destruct (decide (i = id)) as [->|Hne].
  - rewrite list_lookup_insert_eq by done.
    split; [intros [n [= ->]]; by left|]. intros [(_ & <- & <-)|[? _]]; [|done]. exists (v_bytes v). by destruct v.
  - rewrite list_lookup_insert_ne by done. naive_solver.
Qed.

Lemma views_insert js id j : views (<[id := j]> js) = <[id := view_of j]> (views js).
Proof. apply list_fmap_insert. Qed.

Lemma views_insert_same js id j j' : js !! id = Some j → view_of j' = view_of j → views (<[id := j']> js) = views js.
Proof.
  intros Hj E. rewrite views_insert, E. apply list_insert_id. unfold views. by rewrite list_lookup_fmap, Hj.
Qed.

Lemma views_app js j : views (js ++ [j]) = views js ++ [view_of j].
Proof. unfold views. by rewrite fmap_app. Qed.

(** ** Gates *)

(** Fair execution against the jobs of its lane. *)
Record gate_ok (c : RpcDispatchClass) (st : FairState) (vs : list View) : Prop := mkGateOk {
  gate_queues : ∀ r id, id ∈ queue_of st r ↔ here c vs id (AtGate r);
  gate_nodup : ∀ r, NoDup (queue_of st r);
  gate_inside : ∀ r, N.of_nat (default 0 (active_roots st !! r)) = total (of_class c (inside r)) vs;
}.

Lemma queue_of_granted st root rest id st1 r :
  grant_root st root rest = Some ((id, root), st1) →
  queue_of st root = id :: queue_of st1 root ∧ (r ≠ root → queue_of st1 r = queue_of st r).
Proof.
  intros Hg. split.
  - pose proof (grant_root_queue _ _ _ _ _ root Hg) as E. unfold granted_to in E. by rewrite filter_cons_True in E.
  - intros Hr. pose proof (grant_root_queue _ _ _ _ _ r Hg) as E. unfold granted_to in E.
    by rewrite filter_cons_False in E.
Qed.

Lemma default_some (k n : nat) : default n (Some k) = k.
Proof. done. Qed.

(** A grant takes the job from the gate inside. *)
Lemma gate_granted c st root rest id st1 vs n :
  gate_ok c st vs → grant_root st root rest = Some ((id, root), st1) →
  vs !! id = Some (mkView c (AtGate root) n) →
  gate_ok c st1 (<[id := mkView c (Inside root) n]> vs).
Proof.
  intros [H1 H2 H3] Hg Hv.
  assert (is_Some (vs !! id)) as Hs by (by eexists).
  pose proof (queue_of_granted _ _ _ _ _ root Hg) as [Hq _].
  pose proof (H2 root) as Hn. rewrite Hq, NoDup_cons in Hn. destruct Hn as [Hid Hn].
  destruct (grant_root_inv _ _ _ _ _ Hg) as (w & ws & _ & _ & _ & Ea & _).
  assert (∀ r, r ≠ root → queue_of st1 r = queue_of st r) as Hother
    by (intros r Hr; by apply (queue_of_granted _ _ _ _ _ r Hg)).
  split.
  - intros r i. rewrite here_insert by done. cbn. destruct (decide (r = root)) as [->|Hr].
    + specialize (H1 root i). rewrite Hq, elem_of_cons in H1. rewrite <-H1. naive_solver.
    + rewrite (Hother r Hr), H1. split; [|naive_solver]. intros Hi. right. split; [|done]. intros ->.
      destruct Hi as [m Hm]. rewrite Hv in Hm. by injection Hm.
  - intros r. destruct (decide (r = root)) as [->|Hr]; [done|by rewrite (Hother r Hr)].
  - intros r. pose proof (total_insert (of_class c (inside r)) _ _ _ (mkView c (Inside root) n) Hv) as Ht.
    unfold of_class at 2 4 in Ht. cbn in Ht. rewrite bool_decide_true in Ht by done. rewrite Ea.
    specialize (H3 r). destruct (decide (root = r)) as [->|Hr].
    + rewrite lookup_insert_eq. rewrite bool_decide_true in Ht by done. rewrite (default_some _ 0). lia.
    + rewrite lookup_insert_ne by done. rewrite bool_decide_false in Ht by done. lia.
Qed.

(** Neither waits for a permit of lane [c] nor holds one. *)
Definition quiet (c : RpcDispatchClass) (v : View) : Prop :=
  v_class v = c → match v_place v with AtGate _ | Inside _ => False | _ => True end.

Lemma quiet_inside c r v : quiet c v → of_class c (inside r) v = 0%N.
Proof.
  unfold quiet, of_class, inside. case_bool_decide as E; [|done]. intros H. specialize (H E). by destruct (v_place v).
Qed.

Lemma quiet_gate c r id v vs : quiet c v → vs !! id = Some v → ¬ here c vs id (AtGate r).
Proof. intros Hq Hv [n E]. rewrite Hv in E. injection E as ->. by apply (Hq eq_refl). Qed.

Lemma gate_quiet c st vs id v v' :
  gate_ok c st vs → vs !! id = Some v → quiet c v → quiet c v' → gate_ok c st (<[id := v']> vs).
Proof.
  intros [H1 H2 H3] Hv Hc Hc'. assert (is_Some (vs !! id)) as Hs by (by eexists). split; [|done|].
  - intros r i. rewrite here_insert, H1 by done. split.
    + intros Hi. right. split; [|done]. intros ->. by apply (quiet_gate c r id v vs).
    + intros [(-> & <- & Hp)|[_ ?]]; [|done]. specialize (Hc' eq_refl). by rewrite Hp in Hc'.
  - intros r. rewrite H3. pose proof (total_insert (of_class c (inside r)) _ _ _ v' Hv) as Ht.
    rewrite !quiet_inside in Ht by done. lia.
Qed.

Lemma gate_app c st vs v : gate_ok c st vs → quiet c v → gate_ok c st (vs ++ [v]).
Proof.
  intros [H1 H2 H3] Hc. split; [|done|].
  - intros r i. rewrite H1. unfold here. split; intros [n Hn].
    + exists n. rewrite lookup_app_l; [done|]. by eapply lookup_lt_Some.
    + apply lookup_app_Some in Hn as [Hn|[_ Hn]]; [by exists n|].
      apply list_lookup_singleton_Some in Hn as [_ ->]. by destruct (Hc eq_refl).
  - intros r. rewrite H3, total_app. cbn. rewrite quiet_inside by done. lia.
Qed.

(** The job asks for a permit. *)
Lemma gate_enqueue c st vs id root n :
  gate_ok c st vs → vs !! id = Some (mkView c AtWork n) →
  gate_ok c (enqueue st root id) (<[id := mkView c (AtGate root) n]> vs).
Proof.
  intros [H1 H2 H3] Hv. assert (is_Some (vs !! id)) as Hs by (by eexists).
  assert (∀ r, ¬ here c vs id (AtGate r)) as Hno by (intros r; by apply (quiet_gate _ _ _ (mkView c AtWork n))).
  assert (∀ r, queue_of (enqueue st root id) r = queue_of st r ++ (if bool_decide (r = root) then [id] else [])) as Hq.
  { intros r. unfold queue_of, enqueue. cbn. case_bool_decide as E.
    - subst. by rewrite lookup_insert_eq.
    - by rewrite lookup_insert_ne, app_nil_r. }
  split.
  - intros r i. rewrite here_insert, Hq, elem_of_app, H1 by done. cbn. case_bool_decide as E.
    + rewrite list_elem_of_singleton. subst. split; [|naive_solver].
      intros [Hi| ->]; [right|by left]. split; [|done]. intros ->. by apply (Hno root).
    + rewrite elem_of_nil. split; [|naive_solver].
      intros [Hi|[]]. right. split; [|done]. intros ->. by apply (Hno r).
  - intros r. rewrite Hq. apply NoDup_app. split_and!; [done| |].
    + intros i Hi Hi'. case_bool_decide; [|by apply not_elem_of_nil in Hi'].
      apply list_elem_of_singleton in Hi' as ->. apply H1 in Hi. by apply (Hno r).
    + case_bool_decide; [apply NoDup_singleton|apply NoDup_nil_2].
  - intros r. cbn. rewrite H3. pose proof (total_insert (of_class c (inside r)) _ _ _ (mkView c (AtGate root) n) Hv) as Ht.
    unfold of_class at 2 4 in Ht. cbn in Ht. destruct (bool_decide _) in Ht; lia.
Qed.

(** The job drops its permit. *)
Lemma gate_release c st vs id root n :
  gate_ok c st vs → vs !! id = Some (mkView c (Inside root) n) →
  is_Some (active_roots st !! root) ∧ gate_ok c (release_root st root) (<[id := mkView c Outside n]> vs).
Proof.
  intros [H1 H2 H3] Hv. assert (is_Some (vs !! id)) as Hs by (by eexists).
  assert (∀ r, (total (of_class c (inside r)) (<[id := mkView c Outside n]> vs)
              + (if bool_decide (root = r) then 1 else 0) = total (of_class c (inside r)) vs)%N) as Ht.
  { intros r. pose proof (total_insert (of_class c (inside r)) _ _ _ (mkView c Outside n) Hv) as Ht.
    unfold of_class at 2 4 in Ht. cbn in Ht. rewrite bool_decide_true in Ht by done. lia. }
  assert (∃ k, active_roots st !! root = Some (S k)) as [k Hk].
  { specialize (H3 root). specialize (Ht root). rewrite bool_decide_true in Ht by done.
    destruct (active_roots st !! root) as [[|k]|]; cbn in H3; [lia|by exists k|lia]. }
  split; [by eexists|]. split; [|done|].
  - intros r i. rewrite here_insert by done. cbn. change (queue_of (release_root st root) r) with (queue_of st r). rewrite H1.
    split; [|naive_solver]. intros Hi. right. split; [|done]. intros ->. destruct Hi as [m Hm]. rewrite Hv in Hm. by injection Hm.
  - intros r. cbn. specialize (H3 r). specialize (Ht r). rewrite Hk. destruct (decide (root = r)) as [->|Hr].
    + rewrite bool_decide_true in Ht by done. rewrite Hk in H3. cbn in H3.
      destruct k; rewrite ?lookup_delete_eq, ?lookup_insert_eq; cbn; lia.
    + rewrite bool_decide_false in Ht by done.
      destruct k; rewrite ?lookup_delete_ne, ?lookup_insert_ne by done; lia.
Qed.

(** ** Grants *)

(** Some jobs of lane [c] that waited for a permit have got it. *)
Definition entered (c : RpcDispatchClass) : list RpcJob → list RpcJob → Prop :=
  Forall2 (λ j j', j' = j ∨ class j = c ∧ stage j = Acquiring ∧ j' = set_stage Granted j).

Lemma entered_refl c js : entered c js js.
Proof. induction js; constructor; [by left|done]. Qed.

Lemma entered_trans c js1 js2 js3 : entered c js1 js2 → entered c js2 js3 → entered c js1 js3.
Proof.
  intros H1. revert js3. induction H1 as [|j1 j2 js1 js2 E _ IH]; intros js3; [done|].
  intros (j3 & js4 & E' & H2 & ->)%Forall2_cons_inv_l. constructor; [|by apply IH].
  destruct E as [->|(Hc & Hs & ->)]; [done|]. destruct E' as [->|(_ & Hs' & _)]; [by right|done].
Qed.

Lemma entered_lookup c js js' id j :
  entered c js js' → js !! id = Some j →
  ∃ j', js' !! id = Some j' ∧ (j' = j ∨ class j = c ∧ stage j = Acquiring ∧ j' = set_stage Granted j).
Proof. intros H Hj. by apply (Forall2_lookup_l _ _ _ _ _ H). Qed.

Lemma entered_lookup_r c js js' id j' :
  entered c js js' → js' !! id = Some j' →
  ∃ j, js !! id = Some j ∧ (j' = j ∨ class j = c ∧ stage j = Acquiring ∧ j' = set_stage Granted j).
Proof. intros H Hj. by apply (Forall2_lookup_r _ _ _ _ _ H). Qed.

Lemma gate_entered c c' st js js' :
  c ≠ c' → entered c js js' → gate_ok c' st (views js) → gate_ok c' st (views js').
Proof.
  intros Hne He [H1 H2 H3]. split; [|done|].
  - intros r id. rewrite H1, !here_lookup. split.
    + intros (j & Hj & Hc & Hp). destruct (entered_lookup _ _ _ _ _ He Hj) as (j' & Hj' & [->|(E & _)]); [eauto|congruence].
    + intros (j & Hj & Hc & Hp). destruct (entered_lookup_r _ _ _ _ _ He Hj) as (j' & Hj' & [->|(E & _ & ->)]); [eauto|].
      by rewrite <-E in Hne.
  - intros r. rewrite H3. clear -He Hne. induction He as [|j j' js js' E _ IH]; [done|].
    change (views (j :: js)) with (view_of j :: views js). change (views (j' :: js')) with (view_of j' :: views js').
    cbn [total]. rewrite IH. f_equal.
    destruct E as [->|(E & Hs & ->)]; [done|]. unfold of_class. cbn. by rewrite bool_decide_false by congruence.
Qed.

Lemma alter_insert {A} (f : A → A) (l : list A) i x : l !! i = Some x → alter f i l = <[i := f x]> l.
Proof.
  revert i. induction l as [|y l IH]; intros [|i] E; [done|done|by injection E as ->|].
  change (y :: alter f i l = y :: <[i := f x]> l). by rewrite (IH i E).
Qed.

Lemma driving_gate limit c st gs st' js :
  driving limit st gs st' → gate_ok c st (views js) →
  gate_ok c st' (views (grant_jobs gs js)) ∧ entered c js (grant_jobs gs js).
Proof.
  intros Hd. revert js. induction Hd as [st|st root rest gs st' Er El _ IH|st root rest gs st' Er Ha Hb _ IH
    |st root rest permit st1 gs st' Er Ha Hb Hg _ IH]; intros js H.
  - split; [done|apply entered_refl].
  - apply IH. by destruct H.
  - apply IH. by destruct H.
  - destruct permit as [id root']. destruct (grant_root_inv _ _ _ _ _ Hg) as (w & ws & Hq & [= <- ->] & _).
    assert (id ∈ queue_of st root) as Hid by (unfold queue_of; rewrite Hq; left).
    apply (gate_queues _ _ _ H), here_lookup in Hid as (j & Hj & <- & Hp).
    assert (stage j = Acquiring ∧ root_of j = root) as [Hs Hr].
    { unfold place_of in Hp. destruct (stage j); try discriminate. by injection Hp. }
    cbn [grant_jobs foldl fst]. fold (grant_jobs gs (alter (set_stage Granted) id js)).
    assert (alter (set_stage Granted) id js = <[id := set_stage Granted j]> js) as Ea by (by apply alter_insert).
    destruct (IH (alter (set_stage Granted) id js)) as [G E].
    + rewrite Ea, views_insert. unfold view_of. cbn. change (root_of (set_stage Granted j)) with (root_of j). rewrite Hr.
      eapply gate_granted; [done..|]. unfold views. rewrite list_lookup_fmap, Hj. cbn. unfold view_of. by rewrite Hp.
    + split; [done|]. eapply entered_trans; [|exact E]. rewrite Ea. apply Forall2_lookup. intros i.
      destruct (decide (i = id)) as [->|Hne].
      * rewrite list_lookup_insert_eq by (by eapply lookup_lt_Some). rewrite Hj. constructor. by right.
      * rewrite list_lookup_insert_ne by done. destruct (js !! i); constructor. by left.
Qed.

(** * The tasks of a lane

    The channel and the tasks of a manager, and the permits of its admission. *)

(** ** Phases *)

Inductive Phase := Waits | Alive | Over.

#[export] Instance phase_eq_dec : EqDecision Phase.
Proof. solve_decision. Defined.

Definition phase_of (j : RpcJob) : Phase :=
  match stage j with Queued => Waits | Ended => Over | _ => Alive end.

Record Task := mkTask { t_class : RpcDispatchClass; t_phase : Phase; t_bytes : N }.

Definition task_of (j : RpcJob) : Task := mkTask (class j) (phase_of j) (retained_bytes j).
Definition tasks (js : list RpcJob) : list Task := task_of <$> js.

Definition phase_at (c : RpcDispatchClass) (ts : list Task) (id : nat) (p : Phase) : Prop :=
  ∃ n, ts !! id = Some (mkTask c p n).

(** What a job holds of the permits of lane [c]. *)
Definition slot (c : RpcDispatchClass) (t : Task) : N :=
  if bool_decide (t_class t = c) then match t_phase t with Over => 0 | _ => 1 end else 0.
Definition charge (c : RpcDispatchClass) (t : Task) : N :=
  if bool_decide (t_class t = c) then match t_phase t with Over => 0 | _ => t_bytes t end else 0.

Lemma slot_self c p n : slot c (mkTask c p n) = match p with Over => 0%N | _ => 1%N end.
Proof. unfold slot. cbn. by rewrite bool_decide_true. Qed.

Lemma charge_self c p n : charge c (mkTask c p n) = match p with Over => 0%N | _ => n end.
Proof. unfold charge. cbn. by rewrite bool_decide_true. Qed.

Lemma phase_at_lookup c js id p :
  phase_at c (tasks js) id p ↔ ∃ j, js !! id = Some j ∧ class j = c ∧ phase_of j = p.
Proof.
  unfold phase_at, tasks. rewrite list_lookup_fmap. setoid_rewrite fmap_Some. split.
  - intros (n & j & Hj & [= -> -> ->]). eauto.
  - intros (j & Hj & <- & <-). exists (retained_bytes j), j. done.
Qed.

Lemma phase_at_insert c ts id t i p :
  is_Some (ts !! id) → phase_at c (<[id := t]> ts) i p ↔
  (i = id ∧ t_class t = c ∧ t_phase t = p) ∨ (i ≠ id ∧ phase_at c ts i p).
Proof.
  intros Hu%lookup_lt_is_Some. unfold phase_at. destruct (decide (i = id)) as [->|Hne].
  - rewrite list_lookup_insert_eq by done.
    split; [intros [n [= ->]]; by left|]. intros [(_ & <- & <-)|[? _]]; [|done]. exists (t_bytes t). by destruct t.
  - rewrite list_lookup_insert_ne by done. naive_solver.
Qed.

Lemma phase_at_app c ts t i p :
  phase_at c (ts ++ [t]) i p ↔ phase_at c ts i p ∨ (i = length ts ∧ t_class t = c ∧ t_phase t = p).
Proof.
  unfold phase_at. split.
  - intros [n [Hn|[Hi Hn]]%lookup_app_Some]; [eauto|]. right.
    apply list_lookup_singleton_Some in Hn as [E ->]. split; [lia|done].
  - intros [[n Hn]|(-> & <- & <-)].
    + exists n. by apply lookup_app_l_Some.
    + exists (t_bytes t). rewrite lookup_app_r, Nat.sub_diag by done. by destruct t.
Qed.

Lemma tasks_insert_same js id j j' : js !! id = Some j → task_of j' = task_of j → tasks (<[id := j']> js) = tasks js.
Proof.
  intros Hj E. unfold tasks. rewrite list_fmap_insert, E. apply list_insert_id. by rewrite list_lookup_fmap, Hj.
Qed.

Lemma tasks_entered c js js' : entered c js js' → tasks js' = tasks js.
Proof.
  induction 1 as [|j j' js js' E _ IH]; [done|]. cbn. f_equal; [|done].
  destruct E as [->|(_ & Hs & ->)]; [done|]. unfold task_of, phase_of. cbn. by rewrite Hs.
Qed.

(** As many jobs as have a slot. *)
Lemma total_fmap {A} (w : A → N) l : total w l = total (λ n, n) (w <$> l).
Proof. induction l as [|x l IH]; cbn; [done|]. by rewrite IH. Qed.

Lemma total_distinct (ids : list nat) (l : list N) :
  NoDup ids → (∀ id, id ∈ ids → ∃ n, l !! id = Some n ∧ (1 ≤ n)%N) →
  (N.of_nat (length ids) ≤ total (λ n, n) l)%N.
Proof.
  revert l. induction ids as [|id ids IH]; intros l Hn Hl; [cbn; lia|].
  apply NoDup_cons in Hn as [Hid Hn]. destruct (Hl id) as (n & Hi & H1); [left|].
  pose proof (total_insert (λ n, n) l id n 0%N Hi) as Ht. cbn in Ht.
  assert (N.of_nat (length ids) ≤ total (λ n, n) (<[id := 0%N]> l))%N; [|cbn [length]; lia].
  apply IH; [done|]. intros i Hin. destruct (Hl i) as (m & Hm & ?); [by right|]. exists m.
  rewrite list_lookup_insert_ne; [done|]. by intros ->.
Qed.

Lemma slots_distinct c ts (ids : list nat) :
  NoDup ids → (∀ id, id ∈ ids → phase_at c ts id Waits ∨ phase_at c ts id Alive) →
  (N.of_nat (length ids) ≤ total (slot c) ts)%N.
Proof.
  intros Hn Hl. rewrite total_fmap. apply total_distinct; [done|]. intros id Hid.
  destruct (Hl id Hid) as [[n E]|[n E]]; rewrite list_lookup_fmap, E; cbn; exists 1%N; unfold slot; cbn;
    by rewrite bool_decide_true by done.
Qed.

(** ** A lane against its jobs *)

Section Lane.
Context {SE : Semaphore} {SL : SemaphoreLaws}.
Variable limits : RpcLimits.

Record tasks_ok (c : RpcDispatchClass) (l : Lane) (ts : list Task) : Prop := mkTasksOk {
  tasks_channel : ∀ id, id ∈ channel l ↔ phase_at c ts id Waits;
  tasks_channel_nodup : NoDup (channel l);
  tasks_running : ∀ id, id ∈ running l → phase_at c ts id Alive ∨ phase_at c ts id Over;
  tasks_alive : ∀ id, phase_at c ts id Alive → id ∈ running l;
  tasks_running_nodup : NoDup (running l);
  tasks_admission : (available_permits (admission l) + total (slot c) ts = N.of_nat (capacity_of limits c))%N;
  tasks_bytes : (available_permits (bytes l) + total (charge c) ts = byte_capacity c)%N;
  tasks_small : ∀ id t, ts !! id = Some t → (t_bytes t ≤ byte_capacity (t_class t))%N;
  tasks_manager : manager l = false → sender l = false ∧ channel l = [] ∧ running l = [];
}.

Lemma byte_capacity_u32 c n : (n ≤ byte_capacity c)%N → (n mod 2 ^ 32 = n)%N.
Proof. intros Hn. apply N.mod_small. destruct c; cbn in Hn; cbn; lia. Qed.

(** The channel has room for whoever got a permit. *)
Lemma channel_room c l ts s :
  tasks_ok c l ts → try_acquire_many 1 (admission l) = Some s → length (channel l) < capacity_of limits c.
Proof using SL.
  intros H (_ & _ & Ha)%acquire_some. pose proof (tasks_admission _ _ _ H).
  assert (N.of_nat (length (channel l)) ≤ total (slot c) ts)%N; [|lia].
  apply slots_distinct; [apply H|]. intros id Hid. left. by apply H.
Qed.

(** A manager that cannot take a job from the channel has a task to join. *)
Lemma manager_progress c l ts id :
  tasks_ok c l ts → id ∈ channel l →
  length (running l) < capacity_of limits c ∨ ∃ i, i ∈ running l ∧ phase_at c ts i Over.
Proof.
  intros H Hid. destruct (decide (Exists (λ i, (t_phase <$> ts !! i) = Some Over) (running l))) as [He|He].
  - right. apply Exists_exists in He as (i & Hi & E). exists i. split; [done|].
    destruct (tasks_running _ _ _ H i Hi) as [[n En]|?]; [|done]. by rewrite En in E.
  - left. apply not_Exists_Forall in He; [|solve_decision].
    assert (N.of_nat (length (id :: running l)) ≤ total (slot c) ts)%N as Hle.
    { apply slots_distinct.
      - apply NoDup_cons. split; [|apply H]. intros Hr. apply H in Hid as [n En].
        destruct (tasks_running _ _ _ H id Hr) as [[m Em]|[m Em]]; rewrite En in Em; discriminate.
      - intros i [->|Hi]%elem_of_cons; [left; by apply H|]. right.
        destruct (tasks_running _ _ _ H i Hi) as [?|[n En]]; [done|].
        rewrite Forall_forall in He. destruct (He i Hi). by rewrite En. }
    pose proof (tasks_admission _ _ _ H). cbn [length] in Hle. lia.
Qed.

(** The same tasks, and what is no matter here changed in the lane. *)
Lemma tasks_lane c l l' ts :
  tasks_ok c l ts → channel l' = channel l → running l' = running l → sender l' = sender l → manager l' = manager l →
  available_permits (admission l') = available_permits (admission l) →
  available_permits (bytes l') = available_permits (bytes l) → tasks_ok c l' ts.
Proof. intros [] E1 E2 E3 E4 E5 E6. split; rewrite ?E1, ?E2, ?E3, ?E4, ?E5, ?E6; done. Qed.

(** A task of another lane. *)
Lemma tasks_other c l ts id t t' :
  tasks_ok c l ts → ts !! id = Some t → t_class t ≠ c → t_class t' = t_class t → t_bytes t' = t_bytes t →
  tasks_ok c l (<[id := t']> ts).
Proof.
  intros [] Ht Hc Hc' Hb. assert (is_Some (ts !! id)) as Hs by (by eexists).
  assert (∀ i p, phase_at c (<[id := t']> ts) i p ↔ phase_at c ts i p) as Hp.
  { intros i p. rewrite phase_at_insert by done. split.
    - intros [(_ & E & _)|[_ ?]]; [congruence|done].
    - intros Hi. right. split; [|done]. intros ->. destruct Hi as [n En]. rewrite Ht in En. by injection En as ->. }
  assert (∀ w : Task → N, w t = 0%N → w t' = 0%N → total w (<[id := t']> ts) = total w ts) as Hw.
  { intros w E E'. pose proof (total_insert w ts id t t' Ht). lia. }
  assert (slot c t = 0 ∧ slot c t' = 0 ∧ charge c t = 0 ∧ charge c t' = 0)%N as (S1 & S2 & S3 & S4).
  { unfold slot, charge. by rewrite !bool_decide_false by congruence. }
  split; try done.
  - intros i. by rewrite Hp.
  - intros i. rewrite !Hp. apply tasks_running0.
  - intros i. rewrite Hp. apply tasks_alive0.
  - by rewrite Hw.
  - by rewrite Hw.
  - intros i u Hu. destruct (decide (i = id)) as [->|Hne].
    + rewrite list_lookup_insert_eq in Hu by (by apply lookup_lt_is_Some). injection Hu as <-.
      rewrite Hb, Hc'. by eapply tasks_small0.
    + rewrite list_lookup_insert_ne in Hu by done. by eapply tasks_small0.
Qed.

(** A new task. *)
Lemma tasks_new_other c l ts t :
  tasks_ok c l ts → t_class t ≠ c → (t_bytes t ≤ byte_capacity (t_class t))%N → tasks_ok c l (ts ++ [t]).
Proof.
  intros [] Hc Hb.
  assert (∀ i p, phase_at c (ts ++ [t]) i p ↔ phase_at c ts i p) as Hp by (intros i p; rewrite phase_at_app; naive_solver).
  assert (slot c t = 0 ∧ charge c t = 0)%N as (S1 & S2).
  { unfold slot, charge. by rewrite !bool_decide_false by congruence. }
  split; try done.
  - intros i. by rewrite Hp.
  - intros i. rewrite !Hp. apply tasks_running0.
  - intros i. rewrite Hp. apply tasks_alive0.
  - rewrite total_app. cbn. lia.
  - rewrite total_app. cbn. lia.
  - intros i u [Hu|[_ Hu]]%lookup_app_Some; [by eapply tasks_small0|].
    by apply list_lookup_singleton_Some in Hu as [_ ->].
Qed.

Lemma tasks_submitted c l ts n adm byt :
  tasks_ok c l ts → (n ≤ byte_capacity c)%N → manager l = true →
  available_permits (admission l) = (1 + available_permits adm)%N →
  available_permits (bytes l) = (n + available_permits byt)%N →
  tasks_ok c (set_channel (channel l ++ [length ts]) (set_permits adm byt l)) (ts ++ [mkTask c Waits n]).
Proof.
  intros [] Hb Hm Ha Hby.
  assert (∀ i, i ∈ channel l → i < length ts) as Hlt by (intros i [m Hi]%tasks_channel0; by eapply lookup_lt_Some).
  split; cbn [set_channel set_permits channel running admission bytes sender manager].
  - intros i. rewrite elem_of_app, list_elem_of_singleton, tasks_channel0, phase_at_app. cbn. naive_solver.
  - apply NoDup_app. split_and!; [done| |apply NoDup_singleton].
    intros i Hi ->%list_elem_of_singleton. specialize (Hlt _ Hi). lia.
  - intros i [?|?]%tasks_running0; rewrite !phase_at_app; auto.
  - intros i. rewrite phase_at_app. intros [?|(_ & _ & ?)]; [auto|done].
  - done.
  - rewrite total_app. cbn [total]. rewrite slot_self. lia.
  - rewrite total_app. cbn [total]. rewrite charge_self. lia.
  - intros i u [Hu|[_ Hu]]%lookup_app_Some; [by eapply tasks_small0|].
    by apply list_lookup_singleton_Some in Hu as [_ <-].
  - congruence.
Qed.

Lemma tasks_received c l ts id rest n :
  tasks_ok c l ts → manager l = true → channel l = id :: rest → ts !! id = Some (mkTask c Waits n) →
  tasks_ok c (set_running (running l ++ [id]) (set_channel rest l)) (<[id := mkTask c Alive n]> ts).
Proof.
  intros [] Hm Hch Ht. assert (is_Some (ts !! id)) as Hs by (by eexists).
  rewrite Hch in *. apply NoDup_cons in tasks_channel_nodup0 as [Hid Hrest].
  assert (id ∉ running l) as Hr.
  { intros [[m E]|[m E]]%tasks_running0; rewrite Ht in E; discriminate. }
  split; cbn [set_channel set_running channel running admission bytes sender manager].
  - intros i. rewrite phase_at_insert by done. cbn. specialize (tasks_channel0 i). rewrite elem_of_cons in tasks_channel0.
    rewrite <-tasks_channel0. naive_solver.
  - done.
  - intros i. rewrite elem_of_app, list_elem_of_singleton, !phase_at_insert by done. cbn. intros [Hi| ->]; [|naive_solver].
    assert (i ≠ id) by congruence. destruct (tasks_running0 _ Hi); naive_solver.
  - intros i. rewrite phase_at_insert by done. cbn. rewrite elem_of_app, list_elem_of_singleton. naive_solver.
  - apply NoDup_app. split_and!; [done| |apply NoDup_singleton]. by intros i Hi ->%list_elem_of_singleton.
  - pose proof (total_insert (slot c) _ _ _ (mkTask c Alive n) Ht) as E. rewrite !slot_self in E. lia.
  - pose proof (total_insert (charge c) _ _ _ (mkTask c Alive n) Ht) as E. rewrite !charge_self in E. lia.
  - intros i u Hu. destruct (decide (i = id)) as [->|Hne].
    + rewrite list_lookup_insert_eq in Hu by (by apply lookup_lt_is_Some). injection Hu as <-.
      by apply (tasks_small0 _ _ Ht).
    + rewrite list_lookup_insert_ne in Hu by done. by eapply tasks_small0.
  - congruence.
Qed.

Lemma tasks_joined c l ts id :
  tasks_ok c l ts → manager l = true → phase_at c ts id Over → 
  tasks_ok c (set_running (filter (λ k, k ≠ id) (running l)) l) ts.
Proof.
  intros [] Hm [n Ho]. split; cbn [set_running channel running admission bytes sender manager]; try done.
  - intros i [_ Hi]%list_elem_of_filter. auto.
  - intros i Hi. apply list_elem_of_filter. split; [|auto]. intros ->. destruct Hi as [m Hi]. by rewrite Ho in Hi.
  - by apply NoDup_filter.
  - congruence.
Qed.

Lemma tasks_ended c l ts id n st :
  tasks_ok c l ts → ts !! id = Some (mkTask c Alive n) →
  tasks_ok c (set_permits (drop_permits 1 (admission l)) (drop_permits (n mod 2 ^ 32) (bytes l)) (set_execution st l))
    (<[id := mkTask c Over n]> ts).
Proof.
  intros [] Ht. assert (is_Some (ts !! id)) as Hs by (by eexists).
  pose proof (tasks_small0 _ _ Ht) as Hn. cbn in Hn.
  split; cbn [set_permits set_execution channel running admission bytes sender manager]; try done.
  - intros i. rewrite phase_at_insert, tasks_channel0 by done. cbn. split; [|naive_solver].
    intros Hi. right. split; [|done]. intros ->. destruct Hi as [m Hi]. by rewrite Ht in Hi.
  - intros i Hi. rewrite !phase_at_insert by done. cbn. destruct (decide (i = id)) as [->|]; [naive_solver|].
    destruct (tasks_running0 _ Hi); naive_solver.
  - intros i. rewrite phase_at_insert by done. cbn. naive_solver.
  - pose proof (total_insert (slot c) _ _ _ (mkTask c Over n) Ht) as E. rewrite !slot_self in E. rewrite drop_available. lia.
  - pose proof (total_insert (charge c) _ _ _ (mkTask c Over n) Ht) as E. rewrite !charge_self in E. rewrite drop_available, (byte_capacity_u32 c) by done. lia.
  - intros i u Hu. destruct (decide (i = id)) as [->|Hne].
    + rewrite list_lookup_insert_eq in Hu by (by apply lookup_lt_is_Some). injection Hu as <-. done.
    + rewrite list_lookup_insert_ne in Hu by done. by eapply tasks_small0.
Qed.
End Lane.

(** * The dispatcher keeps its books

    Every action keeps the lanes and their jobs in step. *)

(** ** Lanes of the dispatcher *)

Section LaneOf.
Context {SE : Semaphore}.

Lemma lane_of_set c l d c' : lane_of (set_lane c l d) c' = if bool_decide (c' = c) then l else lane_of d c'.
Proof. by destruct c, c'. Qed.
Lemma lane_of_set_same c l d : lane_of (set_lane c l d) c = l.
Proof. by destruct c. Qed.
Lemma jobs_set_lane c l d : jobs (set_lane c l d) = jobs d.
Proof. by destruct c. Qed.
Lemma owned_set_lane c l d : owned (set_lane c l d) = owned d.
Proof. by destruct c. Qed.
Lemma log_set_lane c l d : log (set_lane c l d) = log d.
Proof. by destruct c. Qed.
Lemma outstanding_set_lane c l d : outstanding (set_lane c l d) = outstanding d.
Proof. by destruct c. Qed.
Lemma stopping_set_lane c l d : stopping (set_lane c l d) = stopping d.
Proof. by destruct c. Qed.

End LaneOf.

Ltac set_lane_simpl :=
  rewrite ?jobs_set_lane, ?owned_set_lane, ?outstanding_set_lane, ?stopping_set_lane, ?log_set_lane.

Section Invariant.
Context {SE : Semaphore} {SL : SemaphoreLaws}.
Variable limits : RpcLimits.

(** ** The invariant *)

Record executes (c : RpcDispatchClass) (st : FairState) (vs : list View) : Prop := mkExecutes {
  exec_fair : fair_ok (concurrency_of limits c) st;
  exec_driven : driven (concurrency_of limits c) st;
  exec_gate : gate_ok c st vs;
}.

Record dispatcher_ok (d : RpcRequestDispatcher) : Prop := mkDispatcherOk {
  disp_tasks : ∀ c, tasks_ok limits c (lane_of d c) (tasks (jobs d));
  disp_executes : ∀ c, executes c (execution (lane_of d c)) (views (jobs d));
  disp_sender : ∀ c, sender (lane_of d c) = owned d;
}.

Lemma default_executes c : executes c default_fair [].
Proof.
  split; [apply default_fair_ok|by right; intros r ?%not_elem_of_nil|].
  split; [|intros; apply NoDup_nil_2|done].
  intros r id. split; [by intros ?%not_elem_of_nil|by intros [n Hn]].
Qed.

Lemma with_limits_ok : dispatcher_ok (with_limits limits).
Proof using SL.
  split; intros c.
  - assert (lane_of (with_limits limits) c = new_lane limits c) as -> by (by destruct c).
    split; cbn; try done; try apply NoDup_nil_2; rewrite ?new_available; try lia.
    + intros id. split; [by intros ?%not_elem_of_nil|by intros [n Hn]].
    + intros id ?%not_elem_of_nil. done.
    + intros id [n Hn]. done.
  - assert (execution (lane_of (with_limits limits) c) = default_fair) as -> by (by destruct c).
    apply default_executes.
  - by destruct c.
Qed.

(** ** Moves of one job that its lane does not see *)

Lemma view_task j j' : view_of j' = view_of j → task_of j' = task_of j.
Proof.
  unfold view_of, task_of, place_of, phase_of. intros [= -> Hp ->]. f_equal.
  by destruct (stage j), (stage j').
Qed.

Lemma put_ok d id j j' :
  dispatcher_ok d → jobs d !! id = Some j → view_of j' = view_of j → dispatcher_ok (put id j' d).
Proof.
  intros [H1 H2 H3] Hj Hv. split; intros c; cbn [put set_jobs jobs owned].
  - rewrite (tasks_insert_same _ _ _ _ Hj) by (by apply view_task). apply H1.
  - rewrite (views_insert_same _ _ _ _ Hj) by done. apply H2.
  - apply H3.
Qed.

Lemma record_ok e d : dispatcher_ok d → dispatcher_ok (record e d).
Proof. intros [H1 H2 H3]. split; [apply H1|apply H2|apply H3]. Qed.

Lemma begin_round_view scope observed j :
  place_of j = AtWork → view_of (begin_round scope observed j) = view_of j.
Proof. intros Hp. unfold view_of. rewrite Hp. by destruct scope. Qed.

Lemma resolve_view stopping r j scope j' :
  resolve_job_scope stopping r j = Some (scope, j') → view_of j' = view_of j ∧ stage j' = stage j.
Proof.
  unfold resolve_job_scope. destruct r.
  - destruct (_ || _); [|done]. by intros [= <- <-].
  - destruct (has_resolver j); [|done]. by intros [= <- <-].
  - destruct (has_resolver j); [|done]. by intros [= <- <-].
Qed.

Lemma resolved_view scope j j' : resolved scope j = Some j' → view_of j' = view_of j.
Proof.
  unfold resolved. destruct (stage j) eqn:Es; try done; intros [= <-].
  - rewrite begin_round_view; unfold view_of, place_of; cbn; by rewrite Es.
  - apply begin_round_view. unfold place_of. by rewrite Es.
Qed.

Lemma refresh_view js j j' : refresh_pass js j = Some j' → view_of j' = view_of j.
Proof.
  unfold refresh_pass. destruct (stage j) as [| |scope observed index waiting refresh| | | | | | | | | |] eqn:Es; try done.
  assert (view_of j = mkView (class j) AtWork (retained_bytes j)) as -> by (unfold view_of, place_of; by rewrite Es).
  destruct (predecessors j !! index) as [p|].
  - destruct (js !! p) as [previous|]; cbn; [|done]. destruct waiting.
    + destruct (wait_completed previous); [|done]. by intros [= <-].
    + destruct (resolved_scope previous); cbn; [|done]. intros [= <-]. by destruct (_ && _).
  - intros [= <-]. by destruct refresh.
Qed.

Lemma depend_view js j j' : depend_pass js j = Some j' → view_of j' = view_of j.
Proof.
  unfold depend_pass. destruct (stage j) as [| | | |[|p rest] waiting| | | | | | | |] eqn:Es; try done.
  assert (view_of j = mkView (class j) AtWork (retained_bytes j)) as -> by (unfold view_of, place_of; by rewrite Es).
  destruct (js !! p) as [previous|]; cbn; [|done]. destruct waiting.
  - destruct (wait_completed previous); [|done]. by intros [= <-].
  - destruct (published_scope j); cbn; [|done]. destruct (conflicts_with _ _ _) as [[]|]; cbn; [| |done]; by intros [= <-].
Qed.

Lemma checked_view stopping j j' : checked stopping j = Some j' → view_of j' = view_of j.
Proof.
  unfold checked, view_of, place_of. destruct (stage j); try done. intros [= <-].
  by destruct stopping, (resolution_error j).
Qed.

Lemma begun_view stopping j j' : begun stopping j = Some j' → view_of j' = view_of j.
Proof. unfold begun, view_of, place_of. destruct (stage j); try done. intros [= <-]. by destruct stopping. Qed.

Lemma returned_view response j j' : returned response j = Some j' → view_of j' = view_of j.
Proof. unfold returned, view_of, place_of. destruct (stage j); try done. by intros [= <-]. Qed.

Lemma worker_failed_view error j j' : worker_failed error j = Some j' → view_of j' = view_of j.
Proof. unfold worker_failed, view_of, place_of. destruct (stage j); try done; by intros [= <-]. Qed.

Lemma replied_view j outcome j' : replied j = Some (outcome, j') → view_of j' = view_of j.
Proof. unfold replied, view_of, place_of. destruct (stage j); try done. by intros [= <- <-]. Qed.

Lemma completed_view j j' : completed j = Some j' → view_of j' = view_of j.
Proof. unfold completed, view_of, place_of. destruct (stage j); try done. by intros [= <-]. Qed.

(** ** Permits *)

Lemma drive_executes c st js gs st' :
  gate_ok c st (views js) → fair_ok (concurrency_of limits c) st →
  drive (concurrency_of limits c) st = (gs, st') →
  executes c st' (views (grant_jobs gs js)) ∧ entered c js (grant_jobs gs js).
Proof.
  intros Hg Hf Hd. destruct (drive_ok _ _ _ _ Hf Hd) as [F D].
  destruct (driving_gate _ c _ _ _ js (drive_driving _ _ _ _ Hd) Hg) as [G E]. by split.
Qed.

(** The jobs of a lane moved, those of the others did not, and grants were made. *)
Lemma grants_ok d c l id j j' gs st st' :
  dispatcher_ok d → jobs d !! id = Some j → class j = c → class j' = c → retained_bytes j' = retained_bytes j →
  gate_ok c st (views (<[id := j']> (jobs d))) → fair_ok (concurrency_of limits c) st →
  drive (concurrency_of limits c) st = (gs, st') →
  tasks_ok limits c l (tasks (<[id := j']> (jobs d))) → sender l = owned d → execution l = st' →
  dispatcher_ok (set_lane c l (set_jobs (grant_jobs gs (<[id := j']> (jobs d))) d)).
Proof.
  intros [H1 H2 H3] Hj Hc Hc' Hb Hg Hf Hd Ht Hs Hx.
  destruct (drive_executes _ _ _ _ _ Hg Hf Hd) as [G E].
  split; intros c0; rewrite lane_of_set; set_lane_simpl; cbn [set_jobs jobs owned]; case_bool_decide as Ec.
  - subst c0. by rewrite (tasks_entered _ _ _ E).
  - rewrite (tasks_entered _ _ _ E). unfold tasks. rewrite list_fmap_insert.
    assert (tasks (jobs d) !! id = Some (task_of j)) as Htk by (unfold tasks; by rewrite list_lookup_fmap, Hj).
    apply (tasks_other limits c0 _ _ id (task_of j)); cbn; [apply H1|exact Htk|congruence..].
  - subst c0. by rewrite Hx.
  - destruct (H2 c0) as [F D G']. split; [done..|]. apply (gate_entered c c0 _ _ _ (not_eq_sym Ec) E).
    rewrite views_insert. eapply gate_quiet; [done|unfold views; by rewrite list_lookup_fmap, Hj| |]; intros Hq; cbn in Hq; congruence.
  - done.
  - apply H3.
Qed.

Lemma gate_view c js id j :
  js !! id = Some j → class j = c → views js !! id = Some (mkView c (place_of j) (retained_bytes j)).
Proof. intros Hj <-. unfold views. by rewrite list_lookup_fmap, Hj. Qed.

Lemma task_view c js id j :
  js !! id = Some j → class j = c → tasks js !! id = Some (mkTask c (phase_of j) (retained_bytes j)).
Proof. intros Hj <-. unfold tasks. by rewrite list_lookup_fmap, Hj. Qed.

Lemma acquire_permit_ok d id j :
  dispatcher_ok d → jobs d !! id = Some j → place_of j = AtWork → dispatcher_ok (acquire_permit limits id j d).
Proof.
  intros H Hj Hp. unfold acquire_permit. destruct (acquire _ _ _ _) as [gs st] eqn:Ea. unfold acquire in Ea.
  destruct (disp_executes _ H (class j)) as [F D G].
  refine (grants_ok d (class j) _ id j _ gs _ st H Hj eq_refl _ _ _ _ Ea _ _ _); [done|done| |by apply enqueue_ok| | |done].
  - rewrite views_insert. eapply gate_enqueue; [done|]. rewrite (gate_view _ _ _ _ Hj eq_refl). by rewrite Hp.
  - rewrite (tasks_insert_same _ _ _ _ Hj).
    + by eapply tasks_lane; [apply H|..].
    + unfold task_of, phase_of. unfold place_of in Hp. cbn. by destruct (stage j).
  - apply H.
Qed.

Lemma end_job_ok d id j :
  dispatcher_ok d → jobs d !! id = Some j → stage j = Completed → dispatcher_ok (end_job limits id j d).
Proof using SL.
  intros H Hj Hs. unfold end_job. destruct (release _ _ _) as [gs st] eqn:Ea. unfold release in Ea.
  destruct (disp_executes _ H (class j)) as [F D G].
  assert (views (jobs d) !! id = Some (mkView (class j) (Inside (root_of j)) (retained_bytes j))) as Hv.
  { rewrite (gate_view _ _ _ _ Hj eq_refl). unfold place_of. by rewrite Hs. }
  destruct (gate_release _ _ _ _ _ _ G Hv) as [Hr Hg].
  refine (grants_ok d (class j) _ id j _ gs _ st H Hj eq_refl _ _ _ _ Ea _ _ _); [done|done| |by apply release_root_ok| | |done].
  - by rewrite views_insert.
  - unfold tasks. rewrite list_fmap_insert. apply tasks_ended; [apply H|].
    fold (tasks (jobs d)). rewrite (task_view _ _ _ _ Hj eq_refl). unfold phase_of. by rewrite Hs.
  - apply H.
Qed.

(** A lane whose books did not change. *)
Lemma set_lane_ok d c l :
  dispatcher_ok d → tasks_ok limits c l (tasks (jobs d)) → execution l = execution (lane_of d c) →
  sender l = sender (lane_of d c) → dispatcher_ok (set_lane c l d).
Proof.
  intros [H1 H2 H3] Ht He Hs. split; intros c0; rewrite lane_of_set; set_lane_simpl; case_bool_decide; subst; auto.
  - by rewrite He.
  - by rewrite Hs.
Qed.

Lemma set_outstanding_ok ids d : dispatcher_ok d → dispatcher_ok (set_outstanding ids d).
Proof. intros [H1 H2 H3]. split; [apply H1|apply H2|apply H3]. Qed.

Lemma give_back_ok d c adm byt :
  dispatcher_ok d → available_permits adm = available_permits (admission (lane_of d c)) →
  available_permits byt = available_permits (bytes (lane_of d c)) →
  dispatcher_ok (set_lane c (set_permits adm byt (lane_of d c)) d).
Proof. intros H Ea Eb. apply set_lane_ok; [done| |done..]. by eapply tasks_lane; [apply H|..]. Qed.

Lemma submit_ok d c n : dispatcher_ok d → dispatcher_ok (snd (try_submit_scoped limits c n d)).
Proof using SL.
  intros H. unfold try_submit_scoped. destruct (stopping d); [done|].
  destruct (try_acquire_many 1 _) as [adm|] eqn:Ea; [|done]. apply acquire_some in Ea as (_ & _ & Ea).
  destruct (_ <? n)%N eqn:En; [by apply give_back_ok; [|rewrite drop_available|]|]. apply N.ltb_ge in En.
  destruct (try_acquire_many _ (bytes _)) as [byt|] eqn:Eb; [|by apply give_back_ok; [|rewrite drop_available|]].
  apply acquire_some in Eb as (_ & _ & Eb).
  set (ids := filter _ _). pose proof (set_outstanding_ok ids d H) as H'.
  assert (dispatcher_ok (set_lane c (set_permits (drop_permits 1 adm) (drop_permits (n mod 2 ^ 32) byt) (lane_of d c))
                           (set_outstanding ids d))) as Hgb.
  { change (lane_of d c) with (lane_of (set_outstanding ids d) c). apply give_back_ok; [done|by rewrite drop_available|].
    rewrite drop_available. by destruct c. }
  destruct (manager (lane_of d c)) eqn:Em; [|exact Hgb]. cbn [negb].
  destruct (_ <=? _); [exact Hgb|]. cbn [snd].
  pose proof H as [H1 H2 H3]. rewrite (byte_capacity_u32 c) in Eb by done.
  split; intros c0; rewrite lane_of_set; set_lane_simpl; cbn [set_jobs set_outstanding jobs owned outstanding];
    case_bool_decide as Ec; try subst c0.
  - unfold tasks. rewrite fmap_app. cbn [fmap list_fmap].
    replace (length (jobs d)) with (length (tasks (jobs d))) by apply length_fmap.
    by apply tasks_submitted.
  - unfold tasks. rewrite fmap_app. by apply tasks_new_other; [apply H1|cbn; congruence|].
  - destruct (H2 c) as [F D G]. split; [done..|]. rewrite views_app. by apply gate_app.
  - destruct (H2 c0) as [F D G]. split; [done..|]. rewrite views_app. by apply gate_app.
  - apply H3.
  - apply H3.
Qed.

Lemma receive_ok d c id rest j :
  dispatcher_ok d → channel (lane_of d c) = id :: rest → jobs d !! id = Some j → manager (lane_of d c) = true →
  dispatcher_ok (set_lane c (set_running (running (lane_of d c) ++ [id]) (set_channel rest (lane_of d c)))
                   (put id (set_stage Resolving j) d)).
Proof.
  intros [H1 H2 H3] Hc Hj Hm.
  assert (phase_at c (tasks (jobs d)) id Waits) as Hw by (apply (tasks_channel _ _ _ _ (H1 c)); rewrite Hc; left).
  apply phase_at_lookup in Hw as (j0 & Hj0 & Hcl & Hph). rewrite Hj in Hj0. injection Hj0 as <-.
  assert (stage j = Queued) as Hs by (unfold phase_of in Hph; by destruct (stage j)).
  assert (place_of j = InChannel) as Hp by (unfold place_of; by rewrite Hs).
  assert (tasks (<[id := set_stage Resolving j]> (jobs d)) = <[id := mkTask c Alive (retained_bytes j)]> (tasks (jobs d))) as Et
    by (unfold tasks; rewrite list_fmap_insert, <-Hcl; done).
  pose proof (task_view c _ _ _ Hj Hcl) as Htk. rewrite Hph in Htk.
  split; intros c0; rewrite lane_of_set; set_lane_simpl; cbn [put set_jobs jobs owned];
    case_bool_decide as Ec; try subst c0; rewrite ?Et.
  - by apply tasks_received.
  - apply (tasks_other limits c0 _ _ id _ _ (H1 c0) Htk); cbn; congruence.
  - destruct (H2 c) as [F D G]. split; [done..|]. rewrite views_insert.
    apply (gate_quiet _ _ _ _ _ _ G (gate_view c _ _ _ Hj Hcl)); intros _; cbn; by rewrite ?Hp.
  - destruct (H2 c0) as [F D G]. split; [done..|]. rewrite views_insert.
    apply (gate_quiet _ _ _ _ _ _ G (gate_view c _ _ _ Hj Hcl)); intros E; cbn in E; congruence.
  - apply H3.
  - apply H3.
Qed.

Lemma look_ok d id j d' : dispatcher_ok d → jobs d !! id = Some j → look limits id j d = Some d' → dispatcher_ok d'.
Proof.
  intros H Hj. unfold look. destruct (stage j) as [| | | |[|p rest] waiting| | | | | | | |] eqn:Es; try done.
  - destruct (refresh_pass _ _) as [j'|] eqn:Er; cbn; [|done]. intros [= <-]. by eapply put_ok, refresh_view.
  - intros [= <-]. apply acquire_permit_ok; [done..|]. unfold place_of. by rewrite Es.
  - destruct (depend_pass _ _) as [j'|] eqn:Er; cbn; [|done]. intros [= <-]. by eapply put_ok, depend_view.
Qed.

Lemma perform_ok a d d' : dispatcher_ok d → perform limits a d = Some d' → dispatcher_ok d'.
Proof using SL.
  intros H. destruct a; cbn [perform].
  - destruct (owned d); [|done]. intros [= <-]. by apply submit_ok.
  - destruct (channel _) as [|id rest] eqn:Ec; [done|]. destruct (jobs d !! id) as [j|] eqn:Hj; cbn [mbind option_bind]; [|done].
    destruct (manager _) eqn:Em; cbn [andb negb]; [|done]. destruct (_ <? _); [|done]. intros [= <-]. by apply receive_ok.
  - destruct (jobs d !! job) as [j|] eqn:Hj; cbn [mbind option_bind]; [|done]. destruct (gone j) eqn:Eg; cbn [andb negb]; [|done].
    case_bool_decide as Er; [|done]. intros [= <-]. apply set_lane_ok; [done| |done..].
    assert (phase_of j = Over) as Hp by (unfold gone in Eg; unfold phase_of; by destruct (stage j)).
    apply tasks_joined; [apply H| |].
    + destruct (manager _) eqn:Em; [done|]. apply H in Em as (_ & _ & Em). by rewrite Em in Er; apply not_elem_of_nil in Er.
    + destruct (tasks_running _ _ _ _ (disp_tasks _ H _) _ Er) as [[n Hn]|?]; [|done].
      unfold tasks in Hn. rewrite list_lookup_fmap, Hj in Hn. cbn in Hn. unfold task_of in Hn. rewrite Hp in Hn. discriminate.
  - destruct (jobs d !! job) as [j|] eqn:Hj; cbn [mbind option_bind]; [|done].
    destruct (resolve_job_scope _ _ _) as [[scope j1]|] eqn:Er; cbn [mbind option_bind]; [|done].
    destruct (resolved scope j1) as [j2|] eqn:Es; cbn [mbind option_bind]; [|done]. intros [= <-]. apply record_ok.
    eapply put_ok; [done..|]. rewrite (resolved_view _ _ _ Es). by eapply resolve_view.
  - destruct (jobs d !! job) as [j|] eqn:Hj; cbn [mbind option_bind]; [|done]. by apply look_ok.
  - destruct (jobs d !! job) as [j|] eqn:Hj; cbn [mbind option_bind]; [|done]. destruct (checked _ _) eqn:Er; cbn [mbind option_bind]; [|done].
    intros [= <-]. by eapply put_ok, checked_view.
  - destruct (jobs d !! job) as [j|] eqn:Hj; cbn [mbind option_bind]; [|done]. destruct (begun _ _) eqn:Er; cbn [mbind option_bind]; [|done].
    destruct (stopping d); intros [= <-]; [|apply record_ok]; by eapply put_ok, begun_view.
  - destruct (jobs d !! job) as [j|] eqn:Hj; cbn [mbind option_bind]; [|done]. destruct (returned _ _) eqn:Er; cbn [mbind option_bind]; [|done].
    intros [= <-]. by eapply put_ok, returned_view.
  - destruct (jobs d !! job) as [j|] eqn:Hj; cbn [mbind option_bind]; [|done]. destruct (worker_failed _ _) eqn:Er; cbn [mbind option_bind]; [|done].
    intros [= <-]. by eapply put_ok, worker_failed_view.
  - destruct (jobs d !! job) as [j|] eqn:Hj; cbn [mbind option_bind]; [|done]. destruct (replied _) as [[o j']|] eqn:Er; cbn [mbind option_bind]; [|done].
    intros [= <-]. apply record_ok. by eapply put_ok, replied_view.
  - destruct (jobs d !! job) as [j|] eqn:Hj; cbn [mbind option_bind]; [|done]. destruct (completed _) eqn:Er; cbn [mbind option_bind]; [|done].
    intros [= <-]. apply record_ok. by eapply put_ok, completed_view.
  - destruct (jobs d !! job) as [j|] eqn:Hj; cbn [mbind option_bind]; [|done]. destruct (stage j) eqn:Es; try done.
    intros [= <-]. by apply end_job_ok.
  - destruct (owned d) eqn:Eo; [|done]. intros [= <-]. apply record_ok. destruct H as [H1 H2 H3].
    split; intros c; [eapply tasks_lane; [apply (H1 c)|..]|specialize (H2 c)|specialize (H3 c); rewrite Eo in *];
      destruct c; cbn; rewrite ?close_available; done.
  - destruct (owned d) eqn:Eo; [|done]. intros [= <-]. destruct H as [H1 H2 H3].
    split; intros c; [|specialize (H2 c); by destruct c|by destruct c].
    pose proof (H1 c) as [A1 A2 A3 A4 A5 A6 A7 A8 A9].
    destruct c; split; cbn; rewrite ?close_available; try done; intros Em; by destruct (A9 Em) as (_ & ? & ?).
  - destruct (manager _) eqn:Em; cbn [andb negb]; [|done]. destruct (sender _) eqn:Es; cbn [andb negb]; [done|].
    case_bool_decide as Ec; cbn [andb negb]; [|done]. case_bool_decide as Er; cbn [andb negb]; [|done]. intros [= <-].
    apply set_lane_ok; [done| |done..]. destruct (disp_tasks _ H class). by split.
Qed.

Lemma performs_ok acts d d' : dispatcher_ok d → performs limits acts d = Some d' → dispatcher_ok d'.
Proof using SL.
  revert d. induction acts as [|a acts IH]; intros d H; cbn [performs]; [by intros [= <-]|].
  destruct (perform limits a d) as [d1|] eqn:E; cbn [mbind option_bind]; [|done]. apply IH. by eapply perform_ok.
Qed.
End Invariant.
