(* ===== verification/RpcDispatchMoves.v ===== *)
(** * Admission

    When the semaphores of a lane are closed, and what comes of a submission.

    After that: what an action does to the jobs. *)

From S2P Require Import Prelude RustText Json RpcScope FairExecution FairExecutionFacts Tokio.
From S2P Require Import RpcDispatch RpcDispatchInvariant.

Section Admission.
Context {SE : Semaphore} {SL : SemaphoreLaws}.
Variable limits : RpcLimits.

Definition open_ok (d : RpcRequestDispatcher) : Prop :=
  ∀ c, is_closed (admission (lane_of d c)) = stopping d || negb (owned d)
       ∧ is_closed (bytes (lane_of d c)) = negb (owned d).

(** The jobs of a lane that have not ended, and their bytes. *)
Definition slots_used (c : RpcDispatchClass) (d : RpcRequestDispatcher) : N := total (slot c) (tasks (jobs d)).
Definition bytes_used (c : RpcDispatchClass) (d : RpcRequestDispatcher) : N := total (charge c) (tasks (jobs d)).

Lemma with_limits_open : open_ok (with_limits limits).
Proof using SL. intros c. destruct c; cbn; by rewrite !new_open. Qed.

(** Only the semaphores and the two flags matter. *)
Lemma open_same d d' :
  open_ok d → stopping d' = stopping d → owned d' = owned d →
  (∀ c, is_closed (admission (lane_of d' c)) = is_closed (admission (lane_of d c))
        ∧ is_closed (bytes (lane_of d' c)) = is_closed (bytes (lane_of d c))) → open_ok d'.
Proof. intros H E1 E2 E c. destruct (E c) as [-> ->]. rewrite E1, E2. apply H. Qed.

Lemma open_set_lane d0 d c l :
  open_ok d0 → stopping d = stopping d0 → owned d = owned d0 → (∀ c, lane_of d c = lane_of d0 c) →
  is_closed (admission l) = is_closed (admission (lane_of d0 c)) →
  is_closed (bytes l) = is_closed (bytes (lane_of d0 c)) → open_ok (set_lane c l d).
Proof.
  intros H E1 E2 E3 Ea Eb. apply (open_same d0); [done|by set_lane_simpl|by set_lane_simpl|].
  intros c'. rewrite lane_of_set. case_bool_decide; [by subst|]. by rewrite E3.
Qed.

Lemma acquired_closed n s s' : try_acquire_many n s = Some s' → is_closed s' = is_closed s.
Proof using SL. by intros (-> & -> & _)%acquire_some. Qed.

Lemma submit_open d c n : open_ok d → open_ok (snd (try_submit_scoped limits c n d)).
Proof using SL.
  intros H. unfold try_submit_scoped. destruct (stopping d); [done|].
  destruct (try_acquire_many 1 _) as [adm|] eqn:Ea; [|done]. apply acquired_closed in Ea.
  destruct (_ <? n)%N; [by apply (open_set_lane d); cbn; rewrite ?drop_closed|].
  destruct (try_acquire_many _ (bytes _)) as [byt|] eqn:Eb; [|by apply (open_set_lane d); cbn; rewrite ?drop_closed].
  apply acquired_closed in Eb.
  destruct (negb _); [by apply (open_set_lane d); cbn; rewrite ?drop_closed|].
  destruct (_ <=? _); by apply (open_set_lane d); cbn; rewrite ?drop_closed.
Qed.

Lemma look_open d id j d' : open_ok d → look limits id j d = Some d' → open_ok d'.
Proof.
  intros H. unfold look. destruct (stage j) as [| | | |[|p rest] waiting| | | | | | | |]; try done.
  - destruct (refresh_pass _ _); cbn [mbind option_bind]; [|done]. by intros [= <-].
  - intros [= <-]. unfold acquire_permit. destruct (acquire _ _ _ _). by apply (open_set_lane d).
  - destruct (depend_pass _ _); cbn [mbind option_bind]; [|done]. by intros [= <-].
Qed.

Lemma perform_open a d d' : open_ok d → perform limits a d = Some d' → open_ok d'.
Proof using SL.
  intros H Hp. destruct a; cbn [perform] in Hp.
  - destruct (owned d); [|done]. injection Hp as <-. by apply submit_open.
  - destruct (channel _); [done|]. destruct (jobs d !! _); cbn [mbind option_bind] in Hp; [|done].
    destruct (_ && _); [|done]. injection Hp as <-. by apply (open_set_lane d).
  - destruct (jobs d !! _); cbn [mbind option_bind] in Hp; [|done].
    destruct (_ && _); [|done]. injection Hp as <-. by apply (open_set_lane d).
  - destruct (jobs d !! _); cbn [mbind option_bind] in Hp; [|done].
    destruct (resolve_job_scope _ _ _) as [[scope j1]|]; cbn [mbind option_bind] in Hp; [|done].
    destruct (resolved scope j1); cbn [mbind option_bind] in Hp; [|done]. by injection Hp as <-.
  - destruct (jobs d !! _); cbn [mbind option_bind] in Hp; [|done]. by eapply look_open.
  - destruct (jobs d !! _); cbn [mbind option_bind] in Hp; [|done].
    destruct (checked _ _); cbn [mbind option_bind] in Hp; [|done]. by injection Hp as <-.
  - destruct (jobs d !! _); cbn [mbind option_bind] in Hp; [|done].
    destruct (begun _ _); cbn [mbind option_bind] in Hp; [|done]. injection Hp as <-.
    destruct (stopping d) eqn:E; (apply (open_same d); [done|done|done|by intros []]).
  - destruct (jobs d !! _); cbn [mbind option_bind] in Hp; [|done].
    destruct (returned _ _); cbn [mbind option_bind] in Hp; [|done]. by injection Hp as <-.
  - destruct (jobs d !! _); cbn [mbind option_bind] in Hp; [|done].
    destruct (worker_failed _ _); cbn [mbind option_bind] in Hp; [|done]. by injection Hp as <-.
  - destruct (jobs d !! _); cbn [mbind option_bind] in Hp; [|done].
    destruct (replied _) as [[o j']|]; cbn [mbind option_bind] in Hp; [|done]. by injection Hp as <-.
  - destruct (jobs d !! _); cbn [mbind option_bind] in Hp; [|done].
    destruct (completed _); cbn [mbind option_bind] in Hp; [|done]. by injection Hp as <-.
  - destruct (jobs d !! _) as [j|]; cbn [mbind option_bind] in Hp; [|done].
    destruct (stage j); try done. injection Hp as <-. unfold end_job. destruct (release _ _ _).
    apply (open_set_lane d); cbn; by rewrite ?drop_closed.
  - destruct (owned d) eqn:Eo; [|done]. injection Hp as <-. intros c. specialize (H c). rewrite Eo in H.
    destruct c; cbn in *; rewrite close_closed; by destruct H.
  - destruct (owned d) eqn:Eo; [|done]. injection Hp as <-. intros c.
    destruct c; cbn; rewrite !close_closed; by rewrite orb_true_r.
  - destruct (_ && _ && _ && _); [|done]. injection Hp as <-. by apply (open_set_lane d).
Qed.

Lemma performs_open acts d d' : open_ok d → performs limits acts d = Some d' → open_ok d'.
Proof using SL.
  revert d. induction acts as [|a acts IH]; intros d H; cbn [performs]; [by intros [= <-]|].
  destruct (perform limits a d) as [d1|] eqn:E; cbn [mbind option_bind]; [|done]. apply IH. by eapply perform_open.
Qed.

(** ** What a submission comes to *)

Definition same_permits (d d' : RpcRequestDispatcher) : Prop :=
  ∀ c, available_permits (admission (lane_of d' c)) = available_permits (admission (lane_of d c))
       ∧ available_permits (bytes (lane_of d' c)) = available_permits (bytes (lane_of d c)).

Definition submission (c : RpcDispatchClass) (n : N) (d : RpcRequestDispatcher)
    (r : result bool unit) (d' : RpcRequestDispatcher) : Prop :=
  match r with
  | Ok _ =>
      stopping d = false ∧ (slots_used c d < N.of_nat (capacity_of limits c))%N
      ∧ (bytes_used c d + n ≤ byte_capacity c)%N
      ∧ jobs d' = jobs d ++ [new_job c n (filter (λ id, is_outstanding (jobs d) id = true) (outstanding d))]
  | Err busy =>
      jobs d' = jobs d ∧ same_permits d d' ∧ busy = negb (stopping d)
      ∧ (busy = true → (N.of_nat (capacity_of limits c) ≤ slots_used c d)%N
                       ∨ (byte_capacity c < bytes_used c d + n)%N)
  end.

Lemma same_permits_refl d : same_permits d d.
Proof. done. Qed.

Lemma given_back d0 d c adm byt l :
  (∀ c, lane_of d c = lane_of d0 c) →
  available_permits adm = available_permits (admission (lane_of d0 c)) →
  available_permits byt = available_permits (bytes (lane_of d0 c)) →
  same_permits d0 (set_lane c (set_permits adm byt l) d).
Proof. intros E Ea Eb c'. rewrite lane_of_set. case_bool_decide; [by subst|]. by rewrite E. Qed.

Lemma submission_result d c n :
  dispatcher_ok limits d → open_ok d → owned d = true →
  submission c n d (fst (try_submit_scoped limits c n d)) (snd (try_submit_scoped limits c n d)).
Proof using SL.
  intros H Ho Ow.
  pose proof (tasks_admission _ _ _ _ (disp_tasks _ _ H c)) as Ha. pose proof (tasks_bytes _ _ _ _ (disp_tasks _ _ H c)) as Hb.
  fold (slots_used c d) in Ha. fold (bytes_used c d) in Hb.
  destruct (Ho c) as [Oa Ob]. rewrite Ow, orb_false_r in Oa. rewrite Ow in Ob. cbn in Ob.
  unfold try_submit_scoped. destruct (stopping d) eqn:Es; [by split_and!; rewrite ?Es|].
  destruct (try_acquire_many 1 _) as [adm|] eqn:Ea.
  2: { apply acquire_none in Ea as [Ea|Ea]; [congruence|]. split_and!; [done|done|by rewrite Es|]. intros _. left. lia. }
  destruct (_ <? n)%N eqn:En.
  { apply acquire_some in Ea as (_ & _ & Ea). apply N.ltb_lt in En. cbn [fst snd].
    split_and!; [by set_lane_simpl|by apply given_back; [|rewrite drop_available|]|by rewrite Es|]. intros _. right. lia. }
  apply N.ltb_ge in En. rewrite (byte_capacity_u32 c) by done.
  destruct (try_acquire_many n (bytes _)) as [byt|] eqn:Eb.
  2: { apply acquire_none in Eb as [Eb|Eb]; [congruence|]. apply acquire_some in Ea as (_ & _ & Ea). cbn [fst snd].
       split_and!; [by set_lane_simpl|by apply given_back; [|rewrite drop_available|]|by rewrite Es|]. intros _. right. lia. }
  pose proof (channel_room _ _ _ _ _ (disp_tasks _ _ H c) Ea) as Hroom.
  apply acquire_some in Ea as (_ & _ & Ea). apply acquire_some in Eb as (_ & _ & Eb).
  destruct (manager (lane_of d c)) eqn:Em.
  2: { apply (tasks_manager _ _ _ _ (disp_tasks _ _ H c)) in Em as [Em _]. rewrite (disp_sender _ _ H c), Ow in Em. done. }
  cbn [negb]. rewrite (proj2 (Nat.leb_gt _ _)) by done. cbn [fst snd].
  split_and!; [done|lia|lia|by set_lane_simpl].
Qed.
End Admission.

(** * What an action does to the jobs

    Every action moves at most one job by itself, adds at most one event, and lets
    in some of those that wait for a permit. *)

(** The moves of a job, with what the log gets. *)
Inductive move (js : list RpcJob) (stop : bool) (id : nat) (j : RpcJob) : RpcJob → list Event → Prop :=
| move_receive : stage j = Queued → move js stop id j (set_stage Resolving j) []
| move_resolve r scope j1 j2 :
    resolve_job_scope stop r j = Some (scope, j1) → resolved scope j1 = Some j2 →
    move js stop id j j2 [ScopeResolved id]
| move_refresh j' : refresh_pass js j = Some j' → move js stop id j j' []
| move_depend j' : depend_pass js j = Some j' → move js stop id j j' []
| move_acquire w : stage j = Depending [] w → move js stop id j (set_stage Acquiring j) []
| move_checked j' : checked stop j = Some j' → move js stop id j j' []
| move_begun j' : begun stop j = Some j' → move js stop id j j' (if stop then [] else [HandlerBegan id])
| move_returned response j' : returned response j = Some j' → move js stop id j j' []
| move_failed error j' : worker_failed error j = Some j' → move js stop id j j' []
| move_replied outcome j' : replied j = Some (outcome, j') → move js stop id j j' [Answered id outcome]
| move_completed j' : completed j = Some j' → move js stop id j j' [JobCompleted id]
| move_ended : stage j = Completed → move js stop id j (set_stage Ended j) [].

Section Effects.
Context {SE : Semaphore} {SL : SemaphoreLaws}.
Variable limits : RpcLimits.

(** One job moved, and others got their permits. *)
Record moved (d d' : RpcRequestDispatcher) (id : nat) (j j' : RpcJob) (es : list Event) : Prop := mkMoved {
  moved_job : jobs d !! id = Some j;
  moved_move : move (jobs d) (stopping d) id j j' es;
  moved_jobs : entered (class j) (<[id := j']> (jobs d)) (jobs d');
  moved_outstanding : outstanding d' = outstanding d;
  moved_stopping : stopping d' = stopping d;
  moved_log : log d' = es ++ log d;
}.

Inductive effect (d d' : RpcRequestDispatcher) : Prop :=
| effect_none :
    jobs d' = jobs d → outstanding d' = outstanding d ∨ outstanding d' = filter (λ id, is_outstanding (jobs d) id = true) (outstanding d) →
    stopping d' = stopping d → log d' = log d → effect d d'
| effect_stop :
    jobs d' = jobs d → outstanding d' = outstanding d → stopping d' = true → log d' = Stopped :: log d → effect d d'
| effect_submit c n ids :
    stopping d = false → ids = filter (λ id, is_outstanding (jobs d) id = true) (outstanding d) →
    jobs d' = jobs d ++ [new_job c n ids] → outstanding d' = ids ++ [length (jobs d)] →
    stopping d' = stopping d → log d' = log d → effect d d'
| effect_move id j j' es : moved d d' id j j' es → effect d d'.

(** The actions of a job. *)
Definition job_action (a : Action) : bool :=
  match a with
  | Submit _ _ | Join _ _ | Begin_shutdown | Shutdown | End_manager _ => false
  | _ => true
  end.

Lemma moved_put d id j j' es d' :
  jobs d !! id = Some j → move (jobs d) (stopping d) id j j' es → jobs d' = <[id := j']> (jobs d) →
  outstanding d' = outstanding d → stopping d' = stopping d → log d' = es ++ log d →
  ∃ id j j' es, moved d d' id j j' es.
Proof. intros Hj Hm E. exists id, j, j', es. split; try done. rewrite E. apply entered_refl. Qed.

Lemma submit_effect d c n : effect d (snd (try_submit_scoped limits c n d)).
Proof.
  unfold try_submit_scoped. destruct (stopping d) eqn:Es; [by apply effect_none; auto|].
  destruct (try_acquire_many 1 _) as [adm|]; [|by apply effect_none; auto].
  destruct (_ <? n)%N.
  { apply effect_none; cbn [snd]; set_lane_simpl; auto. }
  destruct (try_acquire_many _ (bytes _)) as [byt|].
  2: { apply effect_none; cbn [snd]; set_lane_simpl; auto. }
  destruct (negb _).
  { apply effect_none; cbn [snd]; set_lane_simpl; cbn; auto. }
  destruct (_ <=? _).
  { apply effect_none; cbn [snd]; set_lane_simpl; cbn; auto. }
  eapply (effect_submit _ _ c n); cbn [snd]; set_lane_simpl;
    [done|reflexivity|reflexivity|reflexivity|reflexivity|reflexivity].
Qed.

Lemma queued_in_channel d c id rest j :
  dispatcher_ok limits d → channel (lane_of d c) = id :: rest → jobs d !! id = Some j → stage j = Queued ∧ class j = c.
Proof.
  intros H Hc Hj.
  assert (phase_at c (tasks (jobs d)) id Waits) as Hw by (apply (tasks_channel _ _ _ _ (disp_tasks _ _ H c)); rewrite Hc; left).
  apply phase_at_lookup in Hw as (j0 & Hj0 & Hcl & Hph). rewrite Hj in Hj0. injection Hj0 as <-.
  split; [|done]. unfold phase_of in Hph. by destruct (stage j).
Qed.

Lemma look_moved d id j d' :
  dispatcher_ok limits d → jobs d !! id = Some j → look limits id j d = Some d' → ∃ id j j' es, moved d d' id j j' es.
Proof.
  intros H Hj. unfold look. destruct (stage j) as [| | | |[|p rest] waiting| | | | | | | |] eqn:Es; try done.
  - destruct (refresh_pass _ _) as [j'|] eqn:Er; cbn [mbind option_bind]; [|done]. intros [= <-].
    by eapply moved_put; [|eapply move_refresh|..].
  - intros [= <-]. unfold acquire_permit. destruct (acquire _ _ _ _) as [gs st] eqn:Ea. unfold acquire in Ea.
    destruct (disp_executes _ _ H (class j)) as [F D G].
    assert (views (<[id := set_stage Acquiring j]> (jobs d))
            = <[id := mkView (class j) (AtGate (root_of j)) (retained_bytes j)]> (views (jobs d))) as Ev
      by apply views_insert.
    assert (gate_ok (class j) (enqueue (execution (lane_of d (class j))) (root_of j) id)
              (views (<[id := set_stage Acquiring j]> (jobs d)))) as Hg.
    { rewrite Ev. eapply gate_enqueue; [done|]. rewrite (gate_view _ _ _ _ Hj eq_refl). unfold place_of. by rewrite Es. }
    destruct (driving_gate _ _ _ _ _ _ (drive_driving _ _ _ _ Ea) Hg) as [_ E].
    eexists id, j, _, _. split; [done|by eapply move_acquire| | | |];
      set_lane_simpl; [exact E|done..].
  - destruct (depend_pass _ _) as [j'|] eqn:Er; cbn [mbind option_bind]; [|done]. intros [= <-].
    by eapply moved_put; [|eapply move_depend|..].
Qed.

Lemma end_job_moved d id j :
  dispatcher_ok limits d → jobs d !! id = Some j → stage j = Completed →
  ∃ id' j0 j' es, moved d (end_job limits id j d) id' j0 j' es.
Proof.
  intros H Hj Hs. unfold end_job. destruct (release _ _ _) as [gs st] eqn:Ea. unfold release in Ea.
  destruct (disp_executes _ _ H (class j)) as [F D G].
  assert (views (jobs d) !! id = Some (mkView (class j) (Inside (root_of j)) (retained_bytes j))) as Hv.
  { rewrite (gate_view _ _ _ _ Hj eq_refl). unfold place_of. by rewrite Hs. }
  destruct (gate_release _ _ _ _ _ _ G Hv) as [Hr Hg].
  change (mkView (class j) Outside (retained_bytes j)) with (view_of (set_stage Ended j)) in Hg. rewrite <-views_insert in Hg.
  destruct (driving_gate _ _ _ _ _ _ (drive_driving _ _ _ _ Ea) Hg) as [_ E].
  eexists id, j, _, _. split; [done|by eapply move_ended| | | |];
    set_lane_simpl; [exact E|done..].
Qed.

Lemma perform_moved a d d' :
  dispatcher_ok limits d → job_action a = true → perform limits a d = Some d' → ∃ id j j' es, moved d d' id j j' es.
Proof.
  intros H Ha. destruct a; try done; cbn [perform].
  - destruct (channel _) as [|id rest] eqn:Ec; [done|].
    destruct (jobs d !! id) as [j|] eqn:Hj; cbn [mbind option_bind]; [|done].
    destruct (_ && _); [|done]. intros [= <-]. destruct (queued_in_channel _ _ _ _ _ H Ec Hj) as [Hs _].
    eapply moved_put; [done|by apply move_receive|..]; by set_lane_simpl.
  - destruct (jobs d !! job) as [j|] eqn:Hj; cbn [mbind option_bind]; [|done].
    destruct (resolve_job_scope _ _ _) as [[scope j1]|] eqn:Er; cbn [mbind option_bind]; [|done].
    destruct (resolved scope j1) as [j2|] eqn:Es; cbn [mbind option_bind]; [|done]. intros [= <-].
    by eapply moved_put; [|eapply move_resolve|..].
  - destruct (jobs d !! job) as [j|] eqn:Hj; cbn [mbind option_bind]; [|done]. by apply look_moved.
  - destruct (jobs d !! job) as [j|] eqn:Hj; cbn [mbind option_bind]; [|done].
    destruct (checked _ _) eqn:Er; cbn [mbind option_bind]; [|done]. intros [= <-].
    by eapply moved_put; [|eapply move_checked|..].
  - destruct (jobs d !! job) as [j|] eqn:Hj; cbn [mbind option_bind]; [|done].
    destruct (begun _ _) eqn:Er; cbn [mbind option_bind]; [|done]. intros [= <-].
    eapply moved_put; [done|eapply move_begun, Er|..]; by destruct (stopping d) eqn:Es.
  - destruct (jobs d !! job) as [j|] eqn:Hj; cbn [mbind option_bind]; [|done].
    destruct (returned _ _) eqn:Er; cbn [mbind option_bind]; [|done]. intros [= <-].
    by eapply moved_put; [|eapply move_returned|..].
  - destruct (jobs d !! job) as [j|] eqn:Hj; cbn [mbind option_bind]; [|done].
    destruct (worker_failed _ _) eqn:Er; cbn [mbind option_bind]; [|done]. intros [= <-].
    by eapply moved_put; [|eapply move_failed|..].
  - destruct (jobs d !! job) as [j|] eqn:Hj; cbn [mbind option_bind]; [|done].
    destruct (replied _) as [[o j']|] eqn:Er; cbn [mbind option_bind]; [|done]. intros [= <-].
    by eapply moved_put; [|eapply move_replied|..].
  - destruct (jobs d !! job) as [j|] eqn:Hj; cbn [mbind option_bind]; [|done].
    destruct (completed _) eqn:Er; cbn [mbind option_bind]; [|done]. intros [= <-].
    by eapply moved_put; [|eapply move_completed|..].
  - destruct (jobs d !! job) as [j|] eqn:Hj; cbn [mbind option_bind]; [|done]. destruct (stage j) eqn:Es; try done.
    intros [= <-]. by apply end_job_moved.
Qed.

Lemma perform_effect a d d' : dispatcher_ok limits d → perform limits a d = Some d' → effect d d'.
Proof.
  intros H Hp. destruct (job_action a) eqn:Ea.
  { destruct (perform_moved a d d' H Ea Hp) as (id & j & j' & es & Hm). by eapply effect_move. }
  destruct a; try done; cbn [perform] in Hp.
  - destruct (owned d); [|done]. injection Hp as <-. by apply submit_effect.
  - destruct (jobs d !! job) as [j|]; cbn [mbind option_bind] in Hp; [|done]. destruct (_ && _); [|done]. injection Hp as <-.
    apply effect_none; set_lane_simpl; auto.
  - destruct (owned d); [|done]. injection Hp as <-. by apply effect_stop.
  - destruct (owned d); [|done]. injection Hp as <-. apply effect_none; auto.
  - destruct (_ && _ && _ && _); [|done]. injection Hp as <-. apply effect_none; set_lane_simpl; auto.
Qed.
End Effects.
