(* ===== verification/RpcDispatchHistory.v ===== *)
(** * The order of requests

    What each job has published and logged, which of the earlier jobs it has waited
    for, and how recent its scope is.

    After that: the history of the dispatcher. *)

From S2P Require Import Prelude RustText Json RpcScope FairExecution Tokio RpcDispatch.
From S2P Require Import RpcDispatchInvariant RpcDispatchMoves.

(** ** Stages *)

Definition is_scoped (s : Stage) : bool :=
  match s with Queued | Resolving | Refreshing _ _ _ _ _ | Reresolving _ => false | _ => true end.
Definition is_prepared (s : Stage) : bool := match s with Queued | Resolving => false | _ => true end.
Definition is_complete (s : Stage) : bool := match s with Completed | Ended => true | _ => false end.
Definition is_answered (s : Stage) : bool := match s with Replied | Completed | Ended => true | _ => false end.

(** The answers to a request. *)
Definition answers (id : nat) (log : list Event) : list Outcome :=
  omap (λ e, match e with Answered i o => if bool_decide (i = id) then Some o else None | _ => None end) log.

(** ** What a job shows of itself *)

Record job_ok (log : list Event) (id : nat) (j : RpcJob) : Prop := mkJobOk {
  job_scoped : is_Some (published_scope j) ↔ is_scoped (stage j) = true;
  job_prepared : is_Some (preparation_kind j) ↔ is_prepared (stage j) = true;
  job_complete : completion j = is_complete (stage j);
  job_completed_log : JobCompleted id ∈ log ↔ completion j = true;
  job_began_log : HandlerBegan id ∈ log ↔ started j = true;
  job_answers : length (answers id log) = if is_answered (stage j) then 1 else 0;
  job_predecessors : ∀ p, p ∈ predecessors j → p < id;
}.

(** What later looks at a job can rely on. *)
Record evolves (j j' : RpcJob) : Prop := mkEvolves {
  evolves_class : class j' = class j;
  evolves_bytes : retained_bytes j' = retained_bytes j;
  evolves_predecessors : predecessors j' = predecessors j;
  evolves_scope : ∀ s, published_scope j = Some s → published_scope j' = Some s;
  evolves_preparation : ∀ k, preparation_kind j = Some k → preparation_kind j' = Some k;
}.

Lemma evolves_refl j : evolves j j.
Proof. by split. Qed.

Lemma evolves_trans j1 j2 j3 : evolves j1 j2 → evolves j2 j3 → evolves j1 j3.
Proof. intros [] []. split; try congruence; auto. Qed.

Lemma evolves_stage j s : evolves j (set_stage s j).
Proof. by split. Qed.

Lemma resolve_fields stop r j scope j' :
  resolve_job_scope stop r j = Some (scope, j') →
  class j' = class j ∧ retained_bytes j' = retained_bytes j ∧ predecessors j' = predecessors j
  ∧ published_scope j' = published_scope j ∧ preparation_kind j' = preparation_kind j
  ∧ completion j' = completion j ∧ started j' = started j ∧ stage j' = stage j.
Proof.
  unfold resolve_job_scope. destruct r.
  - destruct (_ || _); [|done]. by intros [= <- <-].
  - destruct (has_resolver j); [|done]. by intros [= <- <-].
  - destruct (has_resolver j); [|done]. by intros [= <- <-].
Qed.

(** The places a job can go to, as a job that published nothing goes on to publish. *)
Lemma begin_round_cases scope observed j :
  (∃ keys root policy, scope = Resources keys root policy
     ∧ begin_round scope observed j = set_stage (Refreshing scope observed 0 false false) j)
  ∨ (begin_round scope observed j = publish scope j ∧ ∀ keys root policy, scope ≠ Resources keys root policy).
Proof. destruct scope; [by right..|]. left. eauto. Qed.

Ltac stage_flags E := rewrite ?E in *; cbn in *.

Lemma job_ok_stage log id j s :
  job_ok log id j → is_scoped s = is_scoped (stage j) → is_prepared s = is_prepared (stage j) →
  is_complete s = is_complete (stage j) → is_answered s = is_answered (stage j) → job_ok log id (set_stage s j).
Proof. intros [] E1 E2 E3 E4. split; cbn; rewrite ?E1, ?E2, ?E3, ?E4; done. Qed.

(** An event that says nothing of job [id]. *)
Definition neutral (id : nat) (e : Event) : Prop :=
  match e with HandlerBegan i | JobCompleted i | Answered i _ => i ≠ id | _ => True end.

Lemma job_ok_neutral log id j e : job_ok log id j → neutral id e → job_ok (e :: log) id j.
Proof.
  intros [] Hn. split; try done.
  - rewrite elem_of_cons, <-job_completed_log0. destruct e; naive_solver.
  - rewrite elem_of_cons, <-job_began_log0. destruct e; naive_solver.
  - rewrite <-job_answers0. destruct e; cbn; try done. by rewrite bool_decide_false.
Qed.

Lemma job_ok_published log id j scope :
  job_ok log id j → is_complete (stage j) = false → is_answered (stage j) = false → is_prepared (stage j) = true →
  job_ok log id (publish scope j).
Proof.
  intros [] E1 E2 E3. split; cbn; try done.
  - by rewrite job_prepared0, E3.
  - by rewrite job_complete0.
  - by rewrite job_answers0, E2.
Qed.

Lemma job_ok_round log id j scope observed :
  job_ok log id j → is_scoped (stage j) = false → is_Some (preparation_kind j) → job_ok log id (begin_round scope observed j).
Proof.
  intros [] E1 E4.
  assert (is_complete (stage j) = false ∧ is_answered (stage j) = false) as [E2 E3] by (by destruct (stage j)).
  rewrite E1, E2, E3 in *.
  destruct (begin_round_cases scope observed j) as [(k & r & p & -> & ->)|[-> _]]; by split.
Qed.

Lemma job_ok_first log id j scope observed k :
  job_ok log id j → stage j = Resolving → job_ok log id (begin_round scope observed (set_preparation k j)).
Proof.
  intros [] Es. rewrite Es in *.
  destruct (begin_round_cases scope observed (set_preparation k j)) as [(ks & r & p & -> & ->)|[-> _]]; by split.
Qed.

Lemma job_ok_alike log id j j1 :
  job_ok log id j → class j1 = class j → predecessors j1 = predecessors j → published_scope j1 = published_scope j →
  preparation_kind j1 = preparation_kind j → completion j1 = completion j → started j1 = started j →
  stage j1 = stage j → job_ok log id j1.
Proof. intros [] E1 E2 E3 E4 E5 E6 E7. split; rewrite ?E1, ?E2, ?E3, ?E4, ?E5, ?E6, ?E7; done. Qed.

(** A pass of a loop only changes the stage, or publishes. *)
Lemma refresh_cases js j j' :
  refresh_pass js j = Some j' →
  ∃ scope observed index waiting refresh, stage j = Refreshing scope observed index waiting refresh
  ∧ ((∃ p previous, predecessors j !! index = Some p ∧ js !! p = Some previous
        ∧ ((waiting = true ∧ wait_completed previous = true
              ∧ j' = set_stage (Refreshing scope (<[index := true]> observed) (S index) false true) j)
           ∨ (waiting = false ∧ ∃ sp, resolved_scope previous = Some sp
              ∧ ((observed_at observed index = false ∧ must_observe (class j) scope previous sp = true
                    ∧ j' = set_stage (Refreshing scope observed index true refresh) j)
                 ∨ ((observed_at observed index = true ∨ must_observe (class j) scope previous sp = false)
                    ∧ j' = set_stage (Refreshing scope observed (S index) false refresh) j)))))
     ∨ (predecessors j !! index = None ∧ refresh = true ∧ j' = set_stage (Reresolving observed) j)
     ∨ (predecessors j !! index = None ∧ refresh = false ∧ j' = publish scope j)).
Proof.
  unfold refresh_pass. destruct (stage j) as [| |scope observed index waiting refresh| | | | | | | | | |]; try done.
  intros Hr. exists scope, observed, index, waiting, refresh. split; [done|].
  destruct (predecessors j !! index) as [p|].
  - left. destruct (js !! p) as [previous|] eqn:Ep; cbn in Hr; [|done]. exists p, previous. split_and!; [done..|].
    destruct waiting.
    + left. destruct (wait_completed previous); [|done]. by injection Hr as <-.
    + right. split; [done|]. destruct (resolved_scope previous) as [sp|]; cbn in Hr; [|done]. exists sp. split; [done|].
      injection Hr as <-. destruct (observed_at observed index); cbn; [right; auto|].
      destruct (must_observe _ _ _ _); [left|right]; auto.
  - right. destruct refresh; injection Hr as <-; auto.
Qed.

Lemma depend_cases js j j' :
  depend_pass js j = Some j' →
  ∃ p rest waiting previous, stage j = Depending (p :: rest) waiting ∧ js !! p = Some previous
  ∧ ((waiting = true ∧ wait_completed previous = true ∧ j' = set_stage (Depending rest false) j)
     ∨ (waiting = false ∧ ∃ scope, published_scope j = Some scope
        ∧ ((conflicts_with previous (class j) scope = Some true ∧ j' = set_stage (Depending (p :: rest) true) j)
           ∨ (conflicts_with previous (class j) scope = Some false ∧ j' = set_stage (Depending rest false) j)))).
Proof.
  unfold depend_pass. destruct (stage j) as [| | | |[|p rest] waiting| | | | | | | |]; try done.
  intros Hr. destruct (js !! p) as [previous|] eqn:Ep; cbn in Hr; [|done].
  exists p, rest, waiting, previous. split_and!; [done..|]. destruct waiting.
  - left. destruct (wait_completed previous); [|done]. by injection Hr as <-.
  - right. split; [done|]. destruct (published_scope j) as [scope|]; cbn in Hr; [|done]. exists scope. split; [done|].
    destruct (conflicts_with _ _ _) as [[]|]; cbn in Hr; [| |done]; injection Hr as <-; auto.
Qed.

Lemma job_ok_move js stop log id j j' es :
  job_ok log id j → move js stop id j j' es → job_ok (es ++ log) id j'.
Proof.
  intros H. destruct 1 as [Hs|r scope j1 j2 Hr Hj|j' Hr|j' Hr|w Hs|j' Hr|j' Hr|response j' Hr|error j' Hr|o j' Hr|j' Hr|Hs].
  - apply job_ok_stage; rewrite ?Hs; done.
  - apply job_ok_neutral; [|done]. apply resolve_fields in Hr as (E1 & _ & E3 & E4 & E5 & E6 & E7 & E8).
    assert (job_ok log id j1) as H1 by (by eapply job_ok_alike).
    unfold resolved in Hj. destruct (stage j1) eqn:Es; try done; injection Hj as <-.
    + by apply job_ok_first.
    + apply job_ok_round; rewrite ?Es; try done. apply (job_prepared _ _ _ H1). by rewrite Es.
  - apply refresh_cases in Hr as (scope & observed & index & waiting & refresh & Es & Hc).
    destruct Hc as [(p & previous & _ & _ & [(_ & _ & ->)|(_ & sp & _ & [(_ & _ & ->)|(_ & ->)])])|[(_ & _ & ->)|(_ & _ & ->)]];
      try (apply job_ok_stage; rewrite ?Es; done).
    apply job_ok_published; rewrite ?Es; done.
  - apply depend_cases in Hr as (p & rest & waiting & previous & Es & _ & Hc).
    destruct Hc as [(_ & _ & ->)|(_ & scope & _ & [(_ & ->)|(_ & ->)])]; apply job_ok_stage; rewrite ?Es; done.
  - apply job_ok_stage; rewrite ?Hs; done.
  - unfold checked in Hr. destruct (stage j) eqn:Es; try done. injection Hr as <-.
    apply job_ok_stage; rewrite ?Es; by destruct stop, (resolution_error j).
  - unfold begun in Hr. destruct (stage j) eqn:Es; try done. injection Hr as <-. destruct stop.
    + apply job_ok_stage; rewrite ?Es; done.
    + destruct H. split; stage_flags Es; try done.
      * rewrite elem_of_cons, job_completed_log0. naive_solver.
      * rewrite elem_of_cons. naive_solver.
  - unfold returned in Hr. destruct (stage j) eqn:Es; try done. injection Hr as <-. apply job_ok_stage; rewrite ?Es; done.
  - unfold worker_failed in Hr. destruct (stage j) eqn:Es; try done; injection Hr as <-; apply job_ok_stage; rewrite ?Es; done.
  - unfold replied in Hr. destruct (stage j) eqn:Es; try done. injection Hr as <- <-.
    destruct H. split; stage_flags Es; try done.
    + rewrite elem_of_cons, job_completed_log0. naive_solver.
    + rewrite elem_of_cons, job_began_log0. naive_solver.
    + rewrite bool_decide_true by done. exact (f_equal S job_answers0).
  - unfold completed in Hr. destruct (stage j) eqn:Es; try done. injection Hr as <-.
    destruct H. split; stage_flags Es; try done.
    + rewrite elem_of_cons. naive_solver.
    + rewrite elem_of_cons, job_began_log0. naive_solver.
  - apply job_ok_stage; rewrite ?Hs; done.
Qed.

Lemma job_unscoped log id j : job_ok log id j → is_scoped (stage j) = false → published_scope j = None.
Proof. intros H E. apply eq_None_not_Some. rewrite (job_scoped _ _ _ H), E. done. Qed.

Lemma job_unprepared log id j : job_ok log id j → is_prepared (stage j) = false → preparation_kind j = None.
Proof. intros H E. apply eq_None_not_Some. rewrite (job_prepared _ _ _ H), E. done. Qed.

Lemma evolves_publish j scope : published_scope j = None → evolves j (publish scope j).
Proof. intros E. split; try done. cbn. congruence. Qed.

Lemma evolves_round j scope observed : published_scope j = None → evolves j (begin_round scope observed j).
Proof.
  intros E. destruct (begin_round_cases scope observed j) as [(k & r & p & -> & ->)|[-> _]].
  - apply evolves_stage.
  - by apply evolves_publish.
Qed.

Lemma evolves_move js stop log id j j' es : job_ok log id j → move js stop id j j' es → evolves j j'.
Proof.
  intros H. destruct 1 as [Hs|r scope j1 j2 Hr Hj|j' Hr|j' Hr|w Hs|j' Hr|j' Hr|response j' Hr|error j' Hr|o j' Hr|j' Hr|Hs];
    try apply evolves_stage.
  - apply resolve_fields in Hr as (E1 & E2 & E3 & E4 & E5 & E6 & E7 & E8).
    assert (evolves j j1) as He by (split; congruence).
    assert (job_ok log id j1) as H1 by (by eapply job_ok_alike).
    unfold resolved in Hj. destruct (stage j1) eqn:Es; try done; injection Hj as <-.
    + assert (evolves j1 (set_preparation (is_turn_preparation scope) j1)) as He2.
      { split; try done. intros k. rewrite (job_unprepared _ _ _ H1) by (by rewrite Es). done. }
      eapply evolves_trans; [exact He|]. eapply evolves_trans; [exact He2|].
      apply evolves_round. cbn. apply (job_unscoped _ _ _ H1). by rewrite Es.
    + eapply evolves_trans; [exact He|]. apply evolves_round, (job_unscoped _ _ _ H1). by rewrite Es.
  - apply refresh_cases in Hr as (scope & observed & index & waiting & refresh & Es & Hc).
    destruct Hc as [(p & previous & _ & _ & [(_ & _ & ->)|(_ & sp & _ & [(_ & _ & ->)|(_ & ->)])])|[(_ & _ & ->)|(_ & _ & ->)]];
      try apply evolves_stage. apply evolves_publish, (job_unscoped _ _ _ H). by rewrite Es.
  - apply depend_cases in Hr as (p & rest & waiting & previous & Es & _ & Hc).
    destruct Hc as [(_ & _ & ->)|(_ & scope & _ & [(_ & ->)|(_ & ->)])]; apply evolves_stage.
  - unfold checked in Hr. destruct (stage j); try done. injection Hr as <-. apply evolves_stage.
  - unfold begun in Hr. destruct (stage j); try done. injection Hr as <-. by destruct stop.
  - unfold returned in Hr. destruct (stage j); try done. injection Hr as <-. apply evolves_stage.
  - unfold worker_failed in Hr. destruct (stage j); try done; injection Hr as <-; apply evolves_stage.
  - unfold replied in Hr. destruct (stage j); try done. injection Hr as <- <-. apply evolves_stage.
  - unfold completed in Hr. destruct (stage j); try done. by injection Hr as <-.
Qed.

(** ** Why a request need not wait for an earlier one *)

Inductive bypasses (began : Prop) (earlier j : RpcJob) : Prop :=
| bypass_reads : class j = Read → class earlier = Read → bypasses began earlier j
| bypass_revoke :
    class j = Control → published_scope j = Some ExecutionAccess → preparation_kind earlier = Some true →
    bypasses began earlier j
| bypass_overview :
    class earlier = Read → published_scope earlier = Some Overview → bypasses began earlier j
| bypass_cancel scope previous :
    class j = Control → published_scope j = Some scope → published_scope earlier = Some previous →
    permits_preparing_cancel true Control scope previous = true → began → bypasses began earlier j
| bypass_disjoint scope previous :
    published_scope j = Some scope → published_scope earlier = Some previous → overlaps scope previous = false →
    bypasses began earlier j.

Lemma bypasses_evolves (began began' : Prop) e e' j j' :
  bypasses began e j → evolves e e' → evolves j j' → (began → began') → bypasses began' e' j'.
Proof.
  intros [? ?|? ? ?|? ?|s p ? ? ? ? ?|s p ? ? ?] [E1 _ _ E2 E3] [F1 _ _ F2 F3] Hb.
  - apply bypass_reads; congruence.
  - apply bypass_revoke; [congruence|auto..].
  - apply bypass_overview; [congruence|auto].
  - apply (bypass_cancel _ _ _ s p); [congruence|auto..].
  - apply (bypass_disjoint _ _ _ s p); auto.
Qed.

Lemma conflicts_bypass (began : Prop) earlier j scope :
  gone earlier = false ∨ is_Some (published_scope earlier) → (started earlier = true → began) →
  published_scope j = Some scope → conflicts_with earlier (class j) scope = Some false → bypasses began earlier j.
Proof.
  intros Hg Hb Hs. unfold conflicts_with. set (revokes := bool_decide (class j = Control) && bool_decide (scope = ExecutionAccess)).
  destruct (bool_decide (class j = Read) && bool_decide (class earlier = Read)) eqn:E1.
  { intros _. apply andb_true_iff in E1 as [E1%bool_decide_eq_true E2%bool_decide_eq_true]. by apply bypass_reads. }
  destruct (revokes && bool_decide (preparation_kind earlier = Some true)) eqn:E2.
  { intros _. unfold revokes in E2. rewrite !andb_true_iff, !bool_decide_eq_true in E2. destruct E2 as [[E2 ->] E3]. by apply bypass_revoke. }
  destruct (revokes && _ && _); [done|].
  destruct (resolved_scope earlier) as [sp|] eqn:Er; [|done]. intros [= Hc].
  assert (published_scope earlier = Some sp) as Hp.
  { unfold resolved_scope in Er. destruct (published_scope earlier); [done|].
    destruct Hg as [Hg|[? Hg]]; [by rewrite Hg in Er|done]. }
  unfold conflicts in Hc. rewrite E1 in Hc. fold revokes in Hc.
  assert (revokes && is_some_and (preparation_kind earlier) id = false) as E3.
  { destruct revokes; [|done]. cbn in *. apply bool_decide_eq_false in E2. destruct (preparation_kind earlier) as [[]|]; done. }
  rewrite E3 in Hc.
  destruct (bool_decide (class earlier = Read) && bool_decide (sp = Overview)) eqn:E4.
  { apply andb_true_iff in E4 as [E4%bool_decide_eq_true E5%bool_decide_eq_true]. subst. by apply bypass_overview. }
  destruct (permits_preparing_cancel _ _ _ _) eqn:E5; [|by apply (bypass_disjoint _ _ _ scope sp)].
  assert (class j = Control ∧ started earlier = true) as [Ec Est].
  { unfold permits_preparing_cancel in E5. destruct (started earlier); [|by rewrite orb_true_r in E5].
    case_bool_decide; done. }
  rewrite Ec, Est in E5. apply (bypass_cancel _ _ _ scope sp); auto.
Qed.

(** * The history of the dispatcher

    Every handler begins after the earlier requests it has to follow, under a scope
    that is recent enough, and none begins once the server is stopping. *)

(** ** What is kept of each job *)

(** Job [p] is settled for job [id]: it has completed, or need not be awaited. *)
Definition settled (js : list RpcJob) (log : list Event) (id p : nat) : Prop :=
  JobCompleted p ∈ log ∨
  ∃ j earlier, js !! id = Some j ∧ js !! p = Some earlier ∧ bypasses (HandlerBegan p ∈ log) earlier j.

(** The predecessors a job has yet to look at. *)
Definition pending (j : RpcJob) : list nat :=
  match stage j with
  | Queued | Resolving | Refreshing _ _ _ _ _ | Reresolving _ => predecessors j
  | Depending rest _ => rest
  | _ => []
  end.

(** The last resolution of [id] came after the completion of [p]. *)
Definition fresh (log : list Event) (id p : nat) : Prop :=
  ∃ post pre, log = post ++ ScopeResolved id :: pre ∧ (ScopeResolved id ∉ post) ∧ JobCompleted p ∈ pre.

(** Why an earlier request cannot have changed the owners of [scope]. *)
Inductive keeps_owner (began : Prop) (earlier j : RpcJob) (scope : RpcResourceScope) : Prop :=
| keeps_read : class earlier = Read → keeps_owner began earlier j scope
| keeps_policy previous :
    published_scope earlier = Some previous → changes_ownership previous = false → keeps_owner began earlier j scope
| keeps_disjoint previous :
    published_scope earlier = Some previous → overlaps scope previous = false → keeps_owner began earlier j scope
| keeps_cancel previous :
    published_scope earlier = Some previous → class j = Control →
    permits_preparing_cancel true Control scope previous = true → began → keeps_owner began earlier j scope.

Definition recent (js : list RpcJob) (log : list Event) (id : nat) (j : RpcJob) (scope : RpcResourceScope) (p : nat) : Prop :=
  fresh log id p ∨ ∃ earlier, js !! p = Some earlier ∧ keeps_owner (HandlerBegan p ∈ log) earlier j scope.

(** What was observed has completed. *)
Definition observed_ok (log : list Event) (j : RpcJob) (observed : list bool) : Prop :=
  length observed = length (predecessors j)
  ∧ ∀ k p, predecessors j !! k = Some p → observed !! k = Some true → JobCompleted p ∈ log.

(** The scope of a job is as recent as its stage tells. *)
Definition scope_ok (js : list RpcJob) (log : list Event) (id : nat) (j : RpcJob) : Prop :=
  match stage j with
  | Queued | Resolving => True
  | Refreshing scope observed index waiting refresh =>
      observed_ok log j observed
      ∧ (waiting = true → observed !! index = Some false)
      ∧ (refresh = false → ∀ k p, predecessors j !! k = Some p →
           (observed !! k = Some true → fresh log id p) ∧ (k < index → recent js log id j scope p))
      ∧ (∀ p, p < id → p ∉ predecessors j → fresh log id p)
  | Reresolving observed => observed_ok log j observed
  | _ => ∀ keys root policy, published_scope j = Some (Resources keys root policy) →
           ∀ p, p < id → recent js log id j (Resources keys root policy) p
  end.

(** The job an event is about. *)
Definition event_job (e : Event) : option nat :=
  match e with ScopeResolved i | HandlerBegan i | Answered i _ | JobCompleted i => Some i | Stopped => None end.

Record job_history (js : list RpcJob) (log : list Event) (id : nat) (j : RpcJob) : Prop := mkJobHistory {
  jh_ok : job_ok log id j;
  jh_absent : ∀ p, p < id → p ∉ predecessors j → JobCompleted p ∈ log;
  jh_pending : ∀ p, p ∈ pending j → p ∈ predecessors j;
  jh_settled : ∀ p, p < id → p ∉ pending j → settled js log id p;
  jh_scope : scope_ok js log id j;
}.

(** ** Stability *)

Definition all_evolve (js js' : list RpcJob) : Prop :=
  ∀ i j, js !! i = Some j → ∃ j', js' !! i = Some j' ∧ evolves j j'.

Lemma settled_stable js js' log log' id p :
  settled js log id p → all_evolve js js' → (∀ e, e ∈ log → e ∈ log') → settled js' log' id p.
Proof.
  intros [H|(j & e & Hj & He & Hb)] Ha Hl; [left; auto|right].
  destruct (Ha _ _ Hj) as (j' & Hj' & Ej). destruct (Ha _ _ He) as (e' & He' & Ee).
  exists j', e'. split_and!; [done..|]. eapply bypasses_evolves; [done..|]. auto.
Qed.

Lemma keeps_evolves (began began' : Prop) e e' j j' scope :
  keeps_owner began e j scope → evolves e e' → class j' = class j → (began → began') → keeps_owner began' e' j' scope.
Proof.
  intros [?|s ? ?|s ? ?|s ? ? ? ?] [E1 _ _ E2 E3] Ec Hb.
  - apply keeps_read. congruence.
  - apply (keeps_policy _ _ _ _ s); auto.
  - apply (keeps_disjoint _ _ _ _ s); auto.
  - apply (keeps_cancel _ _ _ _ s); auto. congruence.
Qed.

Lemma fresh_stable es log id p : fresh log id p → ScopeResolved id ∉ es → fresh (es ++ log) id p.
Proof.
  intros (post & pre & -> & Hn & Hp) He. exists (es ++ post), pre. rewrite <-app_assoc. split_and!; [done| |done].
  rewrite elem_of_app. tauto.
Qed.

Lemma fresh_now log id p : JobCompleted p ∈ log → fresh (ScopeResolved id :: log) id p.
Proof. intros H. exists [], log. split_and!; [done|apply not_elem_of_nil|done]. Qed.

Lemma recent_stable js js' es log id j j' scope p :
  recent js log id j scope p → all_evolve js js' → class j' = class j → ScopeResolved id ∉ es →
  recent js' (es ++ log) id j' scope p.
Proof.
  intros [H|(e & He & Hk)] Ha Ec Hn; [left; by apply fresh_stable|right].
  destruct (Ha _ _ He) as (e' & He' & Ee). exists e'. split; [done|]. eapply keeps_evolves; [done..|].
  intros. apply elem_of_app. by right.
Qed.

Lemma all_evolve_refl js : all_evolve js js.
Proof. intros i j Hj. exists j. split; [done|apply evolves_refl]. Qed.

Lemma recent_class js log id j j' scope p :
  recent js log id j scope p → class j' = class j → recent js log id j' scope p.
Proof. intros H E. by apply (recent_stable js js [] log id j j'); [|apply all_evolve_refl| |apply not_elem_of_nil]. Qed.

Lemma observed_stable es log j j' observed :
  observed_ok log j observed → predecessors j' = predecessors j → observed_ok (es ++ log) j' observed.
Proof.
  intros [H1 H2] E. split; rewrite E; [done|]. intros k p Hk Ho. apply elem_of_app. right. eauto.
Qed.

Lemma scope_stable js js' es log id j :
  scope_ok js log id j → all_evolve js js' → ScopeResolved id ∉ es → scope_ok js' (es ++ log) id j.
Proof.
  intros H Ha Hn. unfold scope_ok in *.
  assert ((∀ keys root policy, published_scope j = Some (Resources keys root policy) →
             ∀ p, p < id → recent js log id j (Resources keys root policy) p) →
          (∀ keys root policy, published_scope j = Some (Resources keys root policy) →
             ∀ p, p < id → recent js' (es ++ log) id j (Resources keys root policy) p)) as Hr.
  { intros Hs keys root policy E p Hp. by eapply recent_stable; [apply Hs|..]. }
  destruct (stage j); try done; try (by apply Hr).
  - destruct H as (H1 & Hwt & H2 & H3). split_and!; [by eapply observed_stable|done| |].
    + intros Er k p Hk. destruct (H2 Er k p Hk) as [F R]. split.
      * intros Ho. apply fresh_stable; auto.
      * intros Hlt. by eapply recent_stable; [apply R|..].
    + intros p Hp Hni. apply fresh_stable; auto.
  - by eapply observed_stable.
Qed.

Lemma history_stable js js' es log id j :
  job_history js log id j → all_evolve js js' → (∀ e, e ∈ es → event_job e ≠ Some id) →
  job_history js' (es ++ log) id j.
Proof.
  intros [H1 H0 Hpd H2 H3] Ha He. split.
  - clear -H1 He. induction es as [|e es IH]; [done|]. cbn [app]. apply job_ok_neutral.
    + apply IH. intros e' He'. apply He. by right.
    + specialize (He e ltac:(by left)). by destruct e; cbn in *; [|intros ->..|].
  - intros p Hp Hn. apply elem_of_app. right. by apply H0.
  - done.
  - intros p Hp Hn. apply (settled_stable js js' log); [by apply H2|done|]. intros e Hin. apply elem_of_app. by right.
  - apply (scope_stable js); [done..|]. intros Hin. by apply (He _ Hin).
Qed.

(** A job that was waiting for its permit got it. *)
Lemma history_granted js log id j : job_history js log id j → stage j = Acquiring → job_history js log id (set_stage Granted j).
Proof.
  intros [H1 H0 Hpd H2 H3] Es. split.
  - apply job_ok_stage; rewrite ?Es; done.
  - done.
  - by intros p ?%not_elem_of_nil.
  - unfold pending in *. by rewrite Es in H2.
  - unfold scope_ok in *. cbn. rewrite Es in H3. intros keys root policy E p Hp.
    by eapply recent_class; [apply H3|].
Qed.

(** ** The moves keep it *)

(** What the jobs and the log say together. *)
Record world_ok (js : list RpcJob) (log : list Event) : Prop := mkWorldOk {
  world_jobs : ∀ i j, js !! i = Some j → job_history js log i j;
  world_events : ∀ e i, e ∈ log → event_job e = Some i → i < length js;
}.

Lemma waited_completed js log p previous :
  world_ok js log → js !! p = Some previous → wait_completed previous = true → JobCompleted p ∈ log.
Proof.
  intros H Hp Hw. destruct (jh_ok _ _ _ _ (world_jobs _ _ H _ _ Hp)) as [_ _ C L _ _ _]. apply L. rewrite C in *.
  unfold wait_completed, gone in Hw. rewrite C in Hw. by destruct (stage previous).
Qed.

Lemma started_began js log p previous :
  world_ok js log → js !! p = Some previous → started previous = true → HandlerBegan p ∈ log.
Proof. intros H Hp. by apply (job_began_log _ _ _ (jh_ok _ _ _ _ (world_jobs _ _ H _ _ Hp))). Qed.

Lemma gone_published js log p previous :
  world_ok js log → js !! p = Some previous → gone previous = false ∨ is_Some (published_scope previous).
Proof.
  intros H Hp. destruct (gone previous) eqn:E; [right|by left].
  apply (job_scoped _ _ _ (jh_ok _ _ _ _ (world_jobs _ _ H _ _ Hp))). unfold gone in E. by destruct (stage previous).
Qed.

Lemma resolved_published js log p previous scope :
  world_ok js log → js !! p = Some previous → resolved_scope previous = Some scope → published_scope previous = Some scope.
Proof.
  intros H Hp. unfold resolved_scope. destruct (gone_published _ _ _ _ H Hp) as [E|[s E]]; [rewrite E|by rewrite E].
  by destruct (published_scope previous).
Qed.

(** A predecessor that need not be observed. *)
Lemma unobserved_keeps js log p previous sp j scope :
  world_ok js log → js !! p = Some previous → resolved_scope previous = Some sp →
  must_observe (class j) scope previous sp = false → keeps_owner (HandlerBegan p ∈ log) previous j scope.
Proof.
  intros H Hp Hr. pose proof (resolved_published _ _ _ _ _ H Hp Hr) as Hs. unfold must_observe.
  case_bool_decide as Ec; [intros _; by apply keeps_read|]. cbn.
  destruct (changes_ownership sp) eqn:E1; [|intros _; by apply (keeps_policy _ _ _ _ sp)].
  destruct (overlaps scope sp) eqn:E2; [|intros _; by apply (keeps_disjoint _ _ _ _ sp)]. cbn.
  rewrite negb_false_iff. intros E3.
  assert (class j = Control ∧ started previous = true) as [Ec' Est].
  { unfold permits_preparing_cancel in E3. destruct (started previous); [|by rewrite orb_true_r in E3].
    case_bool_decide; done. }
  rewrite Ec', Est in E3. apply (keeps_cancel _ _ _ _ sp); auto. by eapply started_began.
Qed.

(** A job that has published its scope, at another stage. *)
Lemma scope_later js log id j j' :
  scope_ok js log id j → is_scoped (stage j) = true → is_scoped (stage j') = true →
  class j' = class j → published_scope j' = published_scope j → scope_ok js log id j'.
Proof.
  intros H E1 E2 E3 E4. unfold scope_ok in *.
  assert (∀ keys root policy, published_scope j = Some (Resources keys root policy) →
           ∀ p, p < id → recent js log id j (Resources keys root policy) p) as Hr by (by destruct (stage j)).
  assert (∀ keys root policy, published_scope j' = Some (Resources keys root policy) →
           ∀ p, p < id → recent js log id j' (Resources keys root policy) p) as Hr'.
  { intros keys root policy E p Hp. rewrite E4 in E. by eapply recent_class; [apply Hr|]. }
  by destruct (stage j').
Qed.

Lemma scope_published js log id j scope :
  (∀ keys root policy, scope = Resources keys root policy → ∀ p, p < id → recent js log id j scope p) →
  scope_ok js log id (publish scope j).
Proof.
  intros H keys root policy E p Hp. cbn in E. injection E as ->. by eapply recent_class; [eapply H|].
Qed.

(** ** Resolutions *)

Lemma resolve_scope_ok js log id j stop r scope j1 j2 :
  job_history js log id j → resolve_job_scope stop r j = Some (scope, j1) → resolved scope j1 = Some j2 →
  scope_ok js (ScopeResolved id :: log) id j2 ∧ pending j2 = pending j ∧ predecessors j2 = predecessors j.
Proof.
  intros [H1 H0 Hpd H2 H3] (E1 & E2 & E3 & E4 & E5 & E6 & E7 & E8)%resolve_fields. unfold resolved. rewrite E8.
  destruct (stage j) as [| | |observed| | | | | | | | |] eqn:Es; try done; intros [= <-].
  - match goal with |- context [begin_round scope ?o ?j0] => destruct (begin_round_cases scope o j0)
      as [(k & rt & po & -> & ->)|[-> Hno]] end.
    + split_and!; [|unfold pending; cbn; by rewrite Es, E3|done]. split_and!; cbn.
      * split; [by rewrite length_replicate|]. intros i p _ Ho. by apply lookup_replicate in Ho as [? _].
      * done.
      * intros _ i p _. split; [|lia]. intros Ho. by apply lookup_replicate in Ho as [? _].
      * intros p Hp Hn. rewrite E3 in Hn. by apply fresh_now, H0.
    + split_and!; [|unfold pending; cbn; by rewrite Es, E3|done].
      apply scope_published. intros ks rt po ->. by destruct (Hno ks rt po).
  - unfold scope_ok in H3. rewrite Es in H3. destruct H3 as [L O].
    destruct (begin_round_cases scope observed j1) as [(k & rt & po & -> & ->)|[-> Hno]].
    + split_and!; [|unfold pending; cbn; by rewrite Es, E3|done]. split_and!; cbn; rewrite ?E3.
      * split; cbn; rewrite E3; [done|]. intros i p Hi Ho. apply elem_of_cons. right. eauto.
      * done.
      * intros _ i p Hi. split; [|lia]. intros Ho. apply fresh_now. eauto.
      * intros p Hp Hn. by apply fresh_now, H0.
    + split_and!; [|unfold pending; cbn; by rewrite Es, E3|done].
      apply scope_published. intros ks rt po ->. by destruct (Hno ks rt po).
Qed.

(** ** The refresh loop *)

Lemma refresh_scope_ok js log id j j' :
  world_ok js log → job_history js log id j → refresh_pass js j = Some j' →
  scope_ok js log id j' ∧ pending j' = pending j.
Proof.
  intros Hw [H1 H0 Hpd H2 H3] Hr. apply refresh_cases in Hr as (scope & observed & index & waiting & refresh & Es & Hc).
  unfold scope_ok in H3. rewrite Es in H3. destruct H3 as ([L O] & _ & R & A).
  assert (pending j = predecessors j) as Hpe by (unfold pending; by rewrite Es).
  destruct Hc as [(p & previous & Hp & Hprev & [(_ & Hwc & ->)|(_ & sp & Hsp & [(Hob & _ & ->)|(Ho & ->)])])
                 |[(Hp & -> & ->)|(Hp & -> & ->)]]; (split; [|done]).
  - split_and!; cbn; [|done|done|done]. split; cbn; [by rewrite length_insert|].
    intros k q Hq Hk. destruct (decide (k = index)) as [->|Hne].
    + rewrite Hp in Hq. injection Hq as <-. by eapply waited_completed.
    + rewrite list_lookup_insert_ne in Hk by done. eauto.
  - split_and!; cbn; [done| | |done].
    { intros _. destruct (lookup_lt_is_Some_2 observed index) as [b Hb]; [rewrite L; by eapply lookup_lt_Some|].
      unfold observed_at in Hob. rewrite Hb in Hob. cbn in Hob. by rewrite Hob in Hb. }
    intros Er k q Hq. destruct (R Er k q Hq) as [F G]. split; [done|].
    intros Hk. by eapply recent_class; [apply G|].
  - split_and!; cbn; [done|done| |done]. intros Er k q Hq. destruct (R Er k q Hq) as [F G]. split; [done|].
    intros Hk. destruct (decide (k = index)) as [->|Hne]; [|eapply recent_class; [apply G; lia|done]].
    rewrite Hp in Hq. injection Hq as <-. destruct Ho as [Ho|Ho].
    + left. apply F. unfold observed_at in Ho. destruct (observed !! index); [cbn in Ho; by subst|done].
    + right. exists previous. split; [done|]. by eapply unobserved_keeps.
  - by split.
  - apply scope_published. intros ks rt po -> q Hq.
    destruct (decide (q ∈ predecessors j)) as [Hin|Hni]; [|left; auto].
    apply list_elem_of_lookup in Hin as [k Hk]. apply (R eq_refl k q Hk).
    apply lookup_lt_Some in Hk. apply lookup_ge_None in Hp. lia.
Qed.

(** ** The loop over the predecessors *)

Lemma depend_settled js log id j j' :
  world_ok js log → js !! id = Some j → job_history js log id j → depend_pass js j = Some j' →
  (∀ p, p ∈ pending j' → p ∈ pending j)
  ∧ (∀ p, p < id → p ∉ pending j' → settled js log id p) ∧ scope_ok js log id j'.
Proof.
  intros Hw Hj [H1 H0 Hpd H2 H3] Hr. apply depend_cases in Hr as (p & rest & waiting & previous & Es & Hp & Hc).
  assert (pending j = p :: rest) as Hpe by (unfold pending; by rewrite Es). rewrite Hpe in H2.
  assert (settled js log id p → ∀ q, q < id → q ∉ rest → settled js log id q) as Hstep.
  { intros Hs q Hq Hn. destruct (decide (q = p)) as [->|Hne]; [done|]. apply H2; [done|]. rewrite not_elem_of_cons. done. }
  destruct Hc as [(_ & Hwc & ->)|(_ & scope & Hs & [(_ & ->)|(Hcf & ->)])];
    (split_and!; [rewrite Hpe; unfold pending; cbn; set_solver| |apply (scope_later _ _ _ j); cbn; rewrite ?Es; done]).
  - apply Hstep. left. by eapply waited_completed.
  - done.
  - apply Hstep. right. exists j, previous. split_and!; [done..|].
    eapply conflicts_bypass; [by eapply gone_published|by eapply started_began|done..].
Qed.

(** ** Every move *)

Lemma history_late js js' es log id j j' :
  job_history js log id j → all_evolve js js' → job_ok (es ++ log) id j' → ScopeResolved id ∉ es →
  is_scoped (stage j) = true → pending j = [] → is_scoped (stage j') = true → pending j' = [] →
  class j' = class j → predecessors j' = predecessors j → published_scope j' = published_scope j →
  job_history js' (es ++ log) id j'.
Proof.
  intros [H1 H0 Hpd H2 H3] Ha Hok He E1 E2 E3 E3' E4 E5 E6. split; [done| | | |].
  - intros p Hp Hn. apply elem_of_app. right. apply H0; congruence.
  - rewrite E3'. by intros p ?%not_elem_of_nil.
  - intros p Hp _. apply (settled_stable js js' log); [apply H2; [done|]|done|].
    + rewrite E2. apply not_elem_of_nil.
    + intros e Hin. apply elem_of_app. by right.
  - apply (scope_stable js); [|done..]. by apply (scope_later _ _ _ j).
Qed.

Lemma history_same js js' log id j j' :
  job_history js log id j → all_evolve js js' → job_ok log id j' → predecessors j' = predecessors j →
  (∀ p, p ∈ pending j' → p ∈ pending j) → (∀ p, p < id → p ∉ pending j' → settled js log id p) → scope_ok js log id j' → job_history js' log id j'.
Proof.
  intros [H1 H0 Hpd H2 H3] Ha Hok E Hpj Hs Hsc. split; [done| | | |].
  - intros p Hp Hn. apply H0; congruence.
  - intros p Hp. rewrite E. auto.
  - intros p Hp Hn. apply (settled_stable js js' log); [by apply Hs|done|done].
  - by apply (scope_stable js js' []); [..|apply not_elem_of_nil].
Qed.

Lemma history_move js js' stop log id j j' es :
  world_ok js log → js !! id = Some j → all_evolve js js' → move js stop id j j' es →
  job_history js' (es ++ log) id j'.
Proof.
  intros Hw Hj Ha Hm. pose proof (world_jobs _ _ Hw _ _ Hj) as H.
  pose proof (job_ok_move _ _ _ _ _ _ _ (jh_ok _ _ _ _ H) Hm) as Hok.
  destruct Hm as [Hs|r scope j1 j2 Hr Hj2|j' Hr|j' Hr|w Hs|j' Hr|j' Hr|response j' Hr|error j' Hr|o j' Hr|j' Hr|Hs].
  - assert (pending (set_stage Resolving j) = pending j) as E by (unfold pending; cbn; by rewrite Hs).
    apply (history_same js js' log id j); [done..|by rewrite E| |done]. rewrite E. apply H.
  - destruct (resolve_scope_ok _ _ _ _ _ _ _ _ _ H Hr Hj2) as (Hsc & Hpe & Hpr). split; [done| | | |].
    + intros p Hp Hn. apply elem_of_app. right. apply (jh_absent _ _ _ _ H); [done|]. by rewrite <-Hpr.
    + rewrite Hpe, Hpr. apply H.
    + intros p Hp Hn. apply (settled_stable js js' log); [apply H; [done|]; by rewrite <-Hpe|done|].
      intros e Hin. apply elem_of_app. by right.
    + change (scope_ok js' ([] ++ [ScopeResolved id] ++ log) id j2).
      by apply (scope_stable js); [..|apply not_elem_of_nil].
  - destruct (refresh_scope_ok _ _ _ _ _ Hw H Hr) as [Hsc Hpe].
    apply (history_same js js' log id j); [done..| |by rewrite Hpe| |done].
    + apply (evolves_predecessors _ _ (evolves_move _ _ _ _ _ _ _ (jh_ok _ _ _ _ H) (move_refresh js stop id j j' Hr))).
    + rewrite Hpe. apply H.
  - destruct (depend_settled _ _ _ _ _ Hw Hj H Hr) as (Hpe & Hse & Hsc).
    apply (history_same js js' log id j); [done..| |done|done|done].
    apply (evolves_predecessors _ _ (evolves_move _ _ _ _ _ _ _ (jh_ok _ _ _ _ H) (move_depend js stop id j j' Hr))).
  - apply (history_late js js' [] log id j); try done; [apply not_elem_of_nil|by rewrite Hs|unfold pending; by rewrite Hs].
  - unfold checked in Hr. destruct (stage j) eqn:Es; try done. injection Hr as <-.
    apply (history_late js js' [] log id j); try done;
      [apply not_elem_of_nil|by rewrite Es|unfold pending; by rewrite Es|by destruct stop, (resolution_error j)..].
  - unfold begun in Hr. destruct (stage j) eqn:Es; try done. injection Hr as <-.
    apply (history_late js js' _ log id j); try done;
      [destruct stop; set_solver|by rewrite Es|unfold pending; by rewrite Es|by destruct stop..].
  - unfold returned in Hr. destruct (stage j) eqn:Es; try done. injection Hr as <-.
    apply (history_late js js' [] log id j); try done; [apply not_elem_of_nil|by rewrite Es|unfold pending; by rewrite Es].
  - unfold worker_failed in Hr. destruct (stage j) eqn:Es; try done; injection Hr as <-;
      apply (history_late js js' [] log id j); try done; solve [apply not_elem_of_nil|by rewrite Es|unfold pending; by rewrite Es].
  - unfold replied in Hr. destruct (stage j) eqn:Es; try done. injection Hr as <- <-.
    apply (history_late js js' _ log id j); try done; [set_solver|by rewrite Es|unfold pending; by rewrite Es].
  - unfold completed in Hr. destruct (stage j) eqn:Es; try done. injection Hr as <-.
    apply (history_late js js' _ log id j); try done; [set_solver|by rewrite Es|unfold pending; by rewrite Es].
  - apply (history_late js js' [] log id j); try done; [apply not_elem_of_nil|by rewrite Hs|unfold pending; by rewrite Hs].
Qed.

(** ** The dispatcher *)

Section History.
Context {SE : Semaphore} {SL : SemaphoreLaws}.
Variable limits : RpcLimits.

Record history_ok (d : RpcRequestDispatcher) : Prop := mkHistoryOk {
  hist_world : world_ok (jobs d) (log d);
  hist_outstanding : ∀ id j, jobs d !! id = Some j → completion j = false → id ∈ outstanding d;
  hist_known : ∀ id, id ∈ outstanding d → id < length (jobs d);
  hist_began : ∀ post id pre, log d = post ++ HandlerBegan id :: pre → ∀ p, p < id → settled (jobs d) pre id p;
  hist_stopped : ∀ post pre id, log d = post ++ Stopped :: pre → HandlerBegan id ∉ post;
  hist_stopping : stopping d = true ↔ Stopped ∈ log d;
}.

Lemma with_limits_history : history_ok (with_limits limits).
Proof.
  split; cbn; try done.
  - split; [done|by intros e i ?%not_elem_of_nil].
  - by intros id ?%not_elem_of_nil.
  - by intros [] id pre.
  - by intros [] pre id.
  - by split; [|intros ?%not_elem_of_nil].
Qed.

Lemma split_event (es log post pre : list Event) e :
  length es ≤ 1 → es ++ log = post ++ e :: pre →
  (es = [e] ∧ post = [] ∧ pre = log) ∨ ∃ post', post = es ++ post' ∧ log = post' ++ e :: pre.
Proof.
  intros Hl. destruct es as [|e' [|? ?]]; cbn in *; [right; eauto| |lia].
  destruct post as [|e'' post]; cbn; intros [= -> E]; [left; by subst|right; eauto].
Qed.

Lemma move_events js stop id j j' es :
  move js stop id j j' es →
  length es ≤ 1 ∧ (∀ e, e ∈ es → event_job e = Some id ∧ e ≠ Stopped)
  ∧ (∀ i, HandlerBegan i ∈ es → i = id ∧ stop = false ∧ pending j = []).
Proof.
  destruct 1 as [Hs|r scope j1 j2 Hr Hj2|j' Hr|j' Hr|w Hs|j' Hr|j' Hr|response j' Hr|error j' Hr|o j' Hr|j' Hr|Hs];
    try (split_and!; [cbn; lia|by intros e ?%not_elem_of_nil|by intros i ?%not_elem_of_nil]);
    try (split_and!; [cbn; lia|by intros e ->%list_elem_of_singleton|by intros i ?%list_elem_of_singleton]).
  assert (pending j = []) by (unfold begun in Hr; unfold pending; by destruct (stage j)).
  destruct stop; split_and!; cbn; [lia|set_solver|set_solver|lia| |].
  - by intros e ->%list_elem_of_singleton.
  - by intros i [= ->]%list_elem_of_singleton.
Qed.

Lemma entered_evolve c js js' : entered c js js' → all_evolve js js'.
Proof.
  intros He i j Hj. destruct (entered_lookup _ _ _ _ _ He Hj) as (j' & Hj' & [->|(_ & _ & ->)]).
  - exists j. split; [done|apply evolves_refl].
  - eexists. split; [done|apply evolves_stage].
Qed.

Lemma insert_evolve js id j j' : js !! id = Some j → evolves j j' → all_evolve js (<[id := j']> js).
Proof.
  intros Hj He i k Hk. destruct (decide (i = id)) as [->|Hne].
  - exists j'. rewrite list_lookup_insert_eq by (by eapply lookup_lt_Some). rewrite Hj in Hk. by injection Hk as <-.
  - exists k. rewrite list_lookup_insert_ne by done. split; [done|apply evolves_refl].
Qed.

Lemma all_evolve_trans js1 js2 js3 : all_evolve js1 js2 → all_evolve js2 js3 → all_evolve js1 js3.
Proof.
  intros H1 H2 i j Hj. destruct (H1 _ _ Hj) as (j2 & Hj2 & E2). destruct (H2 _ _ Hj2) as (j3 & Hj3 & E3).
  exists j3. split; [done|by eapply evolves_trans].
Qed.

Lemma entered_world c js js' log : entered c js js' → world_ok js log → world_ok js' log.
Proof.
  intros He [H1 H2]. split.
  - intros i j Hj. destruct (entered_lookup_r _ _ _ _ _ He Hj) as (j0 & Hj0 & Hc).
    assert (job_history js' log i j0) as H0.
    { apply (history_stable js js' []); [by apply H1|by eapply entered_evolve|by intros e ?%not_elem_of_nil]. }
    destruct Hc as [->|(_ & Hs & ->)]; [done|by apply history_granted].
  - intros e i Hin Ei. rewrite <-(Forall2_length _ _ _ He). eauto.
Qed.

Lemma move_world js stop log id j j' es :
  world_ok js log → js !! id = Some j → move js stop id j j' es → world_ok (<[id := j']> js) (es ++ log).
Proof.
  intros H Hj Hm. destruct (move_events _ _ _ _ _ _ Hm) as (_ & He & _).
  assert (all_evolve js (<[id := j']> js)) as Ha.
  { eapply insert_evolve; [done|]. eapply evolves_move; [apply (world_jobs _ _ H _ _ Hj)|done]. }
  split.
  - intros i k Hk. destruct (decide (i = id)) as [->|Hne].
    + rewrite list_lookup_insert_eq in Hk by (by eapply lookup_lt_Some). injection Hk as <-. by eapply history_move.
    + rewrite list_lookup_insert_ne in Hk by done. apply (history_stable js); [by apply H|done|].
      intros e Hin. destruct (He e Hin) as [E _]. rewrite E. by intros [= ->].
  - intros e i Hin Ei. rewrite length_insert. apply elem_of_app in Hin as [Hin|Hin]; [|by apply (world_events _ _ H e)].
    destruct (He e Hin) as [E _]. rewrite E in Ei. injection Ei as <-. by eapply lookup_lt_Some.
Qed.

Lemma answers_cons id e log :
  answers id (e :: log)
  = match e with Answered i o => if bool_decide (i = id) then [o] else [] | _ => [] end ++ answers id log.
Proof. destruct e; try done. unfold answers. cbn. by case_bool_decide. Qed.

Lemma answers_none id log : (∀ e, e ∈ log → event_job e ≠ Some id) → answers id log = [].
Proof.
  induction log as [|e log IH]; intros Hno; [done|]. rewrite answers_cons, IH by (intros e' He'; apply Hno; by right).
  specialize (Hno e ltac:(by left)). destruct e; try done. rewrite bool_decide_false; [done|]. by intros ->.
Qed.

Lemma new_job_history js log c n ids :
  world_ok js log → (∀ id, id ∈ ids → id < length js) →
  (∀ id j, js !! id = Some j → completion j = false → id ∈ ids) →
  job_history (js ++ [new_job c n ids]) log (length js) (new_job c n ids).
Proof.
  intros H Hk Ho.
  assert (∀ e, e ∈ log → event_job e ≠ Some (length js)) as Hno.
  { intros e He E. apply (world_events _ _ H) in E; [lia|done]. }
  assert (∀ p, p < length js → p ∉ ids → JobCompleted p ∈ log) as Hc.
  { intros p [jp Hp]%lookup_lt_is_Some Hn. apply (job_completed_log _ _ _ (jh_ok _ _ _ _ (world_jobs _ _ H _ _ Hp))).
    destruct (completion jp) eqn:E; [done|]. by destruct Hn; eapply Ho. }
  split; [|exact Hc|done| |done].
  - split; cbn; try done.
    + split; [|done]. intros Hin. by apply Hno in Hin.
    + split; [|done]. intros Hin. by apply Hno in Hin.
    + by rewrite (answers_none _ _ Hno).
  - intros p Hp Hn. left. by apply Hc.
Qed.

Lemma snoc_evolve js j : all_evolve js (js ++ [j]).
Proof. intros i k Hk. exists k. split; [by apply lookup_app_l_Some|apply evolves_refl]. Qed.

Lemma outstanding_kept js log (ids : list nat) :
  world_ok js log → (∀ id j, js !! id = Some j → completion j = false → id ∈ ids) →
  ∀ id j, js !! id = Some j → completion j = false → id ∈ filter (λ id, is_outstanding js id = true) ids.
Proof.
  intros H Ho id j Hj Hc. apply list_elem_of_filter. split; [|by eapply Ho]. unfold is_outstanding. rewrite Hj, Hc. cbn.
  pose proof (job_complete _ _ _ (jh_ok _ _ _ _ (world_jobs _ _ H _ _ Hj))) as E. rewrite Hc in E.
  unfold gone. by destruct (stage j).
Qed.

Lemma effect_history d d' : effect d d' → history_ok d → history_ok d'.
Proof.
  intros He [H1 H2 H3 H4 H5 H6]. pose proof (outstanding_kept _ _ _ H1 H2) as Hkept.
  assert (∀ id, id ∈ filter (λ id, is_outstanding (jobs d) id = true) (outstanding d) → id < length (jobs d)) as Hlt.
  { intros id [_ Hid]%list_elem_of_filter. by apply H3. }
  destruct He as [Ej [Eo|Eo] Es El|Ej Eo Es El|c n ids Hs Eids Ej Eo Es El|id j j' es [Hj Hm Hent Eo Es El]].
  - by split; rewrite ?Ej, ?Eo, ?Es, ?El.
  - by split; rewrite ?Ej, ?Eo, ?Es, ?El.
  - split; rewrite ?Ej, ?Eo, ?Es, ?El; try done.
    + split.
      * intros i j Hj. apply (history_stable (jobs d) (jobs d) [Stopped] (log d)); [by apply H1|apply all_evolve_refl|].
        by intros e ->%list_elem_of_singleton.
      * intros e i [->|Hin]%elem_of_cons Ei; [done|by apply (world_events _ _ H1 e)].
    + intros [|e post] id pre E p Hp; [done|]. injection E as _ E. by eapply H4.
    + intros [|e post] pre id E; [apply not_elem_of_nil|]. injection E as <- E.
      rewrite not_elem_of_cons. split; [done|]. by eapply H5.
    + split; [intros _; by left|done].
  - subst ids. split; rewrite ?Ej, ?Eo, ?Es, ?El; try done.
    + split.
      * intros i k [Hk|[Hi Hk]]%lookup_app_Some.
        -- apply (history_stable (jobs d) _ [] (log d)); [by apply H1|apply snoc_evolve|by intros e ?%not_elem_of_nil].
        -- apply list_lookup_singleton_Some in Hk as [Hi' <-]. replace i with (length (jobs d)) by lia.
           by apply new_job_history.
      * intros e i Hin Ei. rewrite length_app. pose proof (world_events _ _ H1 e i Hin Ei). lia.
    + intros i k [Hk|[Hi Hk]]%lookup_app_Some Hc; apply elem_of_app; [left; by eapply Hkept|right].
      apply list_lookup_singleton_Some in Hk as [Hi' _]. apply list_elem_of_singleton. lia.
    + intros i. rewrite elem_of_app, list_elem_of_singleton, length_app. cbn. intros [Hi| ->]; [|lia].
      specialize (Hlt _ Hi). lia.
    + intros post i pre E p Hp. apply (settled_stable (jobs d) _ pre); [by eapply H4|apply snoc_evolve|done].
  - destruct (move_events _ _ _ _ _ _ Hm) as (Hlen & Hev & Hbeg).
    pose proof (move_world _ _ _ _ _ _ _ H1 Hj Hm) as Hw.
    assert (evolves j j') as Hej by (eapply evolves_move; [apply (world_jobs _ _ H1 _ _ Hj)|done]).
    pose proof (all_evolve_trans _ _ _ (insert_evolve _ _ _ _ Hj Hej) (entered_evolve _ _ _ Hent)) as Ha.
    split; rewrite ?Ej, ?Eo, ?Es, ?El.
    + by eapply entered_world.
    + intros i k Hk Hc. destruct (entered_lookup_r _ _ _ _ _ Hent Hk) as (k0 & Hk0 & Hcase).
      assert (completion k0 = false) as Hc0 by (destruct Hcase as [->|(_ & _ & ->)]; done).
      destruct (decide (i = id)) as [->|Hne].
      * apply (H2 id j Hj). rewrite list_lookup_insert_eq in Hk0 by (by eapply lookup_lt_Some). injection Hk0 as ->.
        destruct (completion j) eqn:E; [|done].
        apply (job_completed_log _ _ _ (jh_ok _ _ _ _ (world_jobs _ _ H1 _ _ Hj))) in E.
        assert (completion k0 = true); [|congruence].
        apply (job_completed_log (es ++ log d) id).
        -- apply (jh_ok _ _ _ _ (world_jobs _ _ Hw id k0 (list_lookup_insert_eq _ _ _ (lookup_lt_Some _ _ _ Hj)))).
        -- apply elem_of_app. by right.
      * rewrite list_lookup_insert_ne in Hk0 by done. by apply (H2 i k0).
    + intros i Hi. rewrite <-(Forall2_length _ _ _ Hent), length_insert. by apply H3.
    + intros post i pre E p Hp. apply split_event in E as [(E & -> & ->)|(post' & -> & E)]; [| |done].
      * destruct (Hbeg i) as (-> & Hstop & Hpend); [rewrite E; by left|].
        apply (settled_stable (jobs d) _ (log d)); [|done|done].
        apply (jh_settled _ _ _ _ (world_jobs _ _ H1 _ _ Hj)); [done|]. rewrite Hpend. apply not_elem_of_nil.
      * apply (settled_stable (jobs d) _ pre); [by eapply H4|done|done].
    + intros post pre i E. apply split_event in E as [(E & -> & ->)|(post' & -> & E)]; [apply not_elem_of_nil| |done].
      rewrite elem_of_app. intros [Hin|Hin]; [|by eapply H5].
      destruct (Hbeg i Hin) as (_ & Hstop & _).
      assert (stopping d = true) as Ht by (apply H6; rewrite E; apply elem_of_app; right; left). congruence.
    + rewrite H6, elem_of_app. split; [by right|]. intros [Hin|?]; [|done]. by destruct (Hev _ Hin).
Qed.

Lemma perform_history a d d' :
  dispatcher_ok limits d → history_ok d → perform limits a d = Some d' → history_ok d'.
Proof. intros H Hh Hp. eapply effect_history; [by eapply perform_effect|done]. Qed.

Lemma performs_history acts d d' :
  dispatcher_ok limits d → history_ok d → performs limits acts d = Some d' → history_ok d'.
Proof using SL.
  revert d. induction acts as [|a acts IH]; intros d H Hh; cbn [performs]; [by intros [= <-]|].
  destruct (perform limits a d) as [d1|] eqn:E; cbn; [|done]. apply IH; [by eapply perform_ok|by eapply perform_history].
Qed.
End History.
