(* ===== verification/RpcDispatchLiveness.v ===== *)
(** * Every admitted request is answered

    The server's own actions are finitely many, and when none is left every job has
    ended. *)

From S2P Require Import Prelude RustText Json RpcScope FairExecution FairExecutionFacts Tokio.
From S2P Require Import RpcDispatch RpcDispatchInvariant RpcDispatchMoves RpcDispatchHistory.

(** The actions that are not its owner's. *)
Definition internal (a : Action) : bool :=
  match a with Submit _ _ | Begin_shutdown | Shutdown => false | _ => true end.

(** ** What is left to do *)

Fixpoint unobserved (observed : list bool) : nat :=
  match observed with [] => 0 | b :: rest => (if b then 0 else 1) + unobserved rest end.

(** What a round over the predecessors costs. *)
Definition round_cost (j : RpcJob) : nat := 2 * length (predecessors j) + 3.
Definition publish_cost (j : RpcJob) : nat := 2 * length (predecessors j) + 10.

Definition job_measure (j : RpcJob) : nat :=
  match stage j with
  | Queued => publish_cost j + length (predecessors j) * round_cost j + round_cost j + 1
  | Resolving => publish_cost j + length (predecessors j) * round_cost j + round_cost j - 1
  | Refreshing _ observed index waiting refresh =>
      publish_cost j + unobserved observed * round_cost j + (if refresh then round_cost j else 0)
      + 2 * (length (predecessors j) - index) + (if waiting then 0 else 1)
  | Reresolving observed => publish_cost j + unobserved observed * round_cost j + round_cost j - 1
  | Depending rest waiting => 8 + 2 * length rest + (if waiting then 0 else 1)
  | Acquiring => 7
  | Granted => 6
  | Submitted => 5
  | Running => 4
  | Answering _ => 3
  | Replied => 2
  | Completed => 1
  | Ended => 0
  end.

Lemma unobserved_replicate n : unobserved (replicate n false) = n.
Proof. induction n as [|n IH]; cbn; [done|]. by rewrite IH. Qed.

Lemma unobserved_insert observed i :
  observed !! i = Some false → unobserved observed = S (unobserved (<[i := true]> observed)).
Proof.
  revert i. induction observed as [|b o IH]; intros [|i] E; [done|done|injection E as ->; done|].
  change (<[S i := true]> (b :: o)) with (b :: <[i := true]> o). cbn. rewrite (IH i E). lia.
Qed.

Lemma alike_costs j j' : predecessors j' = predecessors j → round_cost j' = round_cost j ∧ publish_cost j' = publish_cost j.
Proof. unfold round_cost, publish_cost. by intros ->. Qed.

Lemma publish_measure j scope : job_measure (publish scope j) < publish_cost j.
Proof. unfold job_measure, publish_cost. cbn. lia. Qed.

Lemma round_measure j scope observed :
  job_measure (begin_round scope observed j) < publish_cost j + unobserved observed * round_cost j + round_cost j - 1.
Proof.
  destruct (begin_round_cases scope observed j) as [(k & r & p & -> & ->)|[-> _]].
  - unfold job_measure, round_cost, publish_cost. cbn. lia.
  - pose proof (publish_measure j scope). unfold round_cost. lia.
Qed.

Lemma move_measure js stop log id j j' es :
  job_history js log id j → move js stop id j j' es →
  job_measure j' < job_measure j ∧ (stage j = Queued → job_measure j' + 1 < job_measure j).
Proof.
  intros [_ _ _ _ Hsc]. destruct 1 as [Hs|r scope j1 j2 Hr Hj|j' Hr|j' Hr|w Hs|j' Hr|j' Hr|response j' Hr|error j' Hr|o j' Hr|j' Hr|Hs].
  - unfold job_measure, publish_cost, round_cost. rewrite Hs. cbn. lia.
  - apply resolve_fields in Hr as (E1 & E2 & E3 & E4 & E5 & E6 & E7 & E8). unfold resolved in Hj. rewrite E8 in Hj.
    destruct (alike_costs _ _ E3) as [C1 C2].
    destruct (stage j) as [| | |observed| | | | | | | | |] eqn:Es; try done; injection Hj as <-; (split; [|done]).
    + match goal with |- context [begin_round scope ?o ?j0] => pose proof (round_measure j0 scope o) as Hm end.
      rewrite unobserved_replicate in Hm. change (round_cost (set_preparation _ j1)) with (round_cost j1) in Hm.
      change (publish_cost (set_preparation _ j1)) with (publish_cost j1) in Hm. rewrite C1, C2, E3 in Hm.
      rewrite E3. unfold job_measure at 2. by rewrite Es.
    + pose proof (round_measure j1 scope observed) as Hm. rewrite C1, C2 in Hm. unfold job_measure at 2. by rewrite Es.
  - apply refresh_cases in Hr as (scope & observed & index & waiting & refresh & Es & Hc).
    unfold scope_ok in Hsc. rewrite Es in Hsc. destruct Hsc as (_ & Hw & _). rewrite Es. split; [|done].
    destruct Hc as [(p & previous & Hp & _ & [(-> & _ & ->)|(-> & sp & _ & [(_ & _ & ->)|(_ & ->)])])
                   |[(Hp & -> & ->)|(Hp & -> & ->)]];
      try (apply lookup_lt_Some in Hp; unfold job_measure; rewrite Es; cbn [stage set_stage]).
    + specialize (Hw eq_refl). rewrite (unobserved_insert _ _ Hw). cbn.
      unfold round_cost, publish_cost. cbn. destruct refresh; nia.
    + unfold round_cost, publish_cost. cbn. lia.
    + unfold round_cost, publish_cost. cbn. lia.
    + unfold job_measure. rewrite Es. cbn. unfold round_cost, publish_cost. cbn. destruct waiting; lia.
    + pose proof (publish_measure j scope). unfold job_measure at 2. rewrite Es. lia.
  - apply depend_cases in Hr as (p & rest & waiting & previous & Es & _ & Hc). rewrite Es. split; [|done].
    destruct Hc as [(-> & _ & ->)|(-> & scope & _ & [(_ & ->)|(_ & ->)])]; unfold job_measure; rewrite Es; cbn; lia.
  - rewrite Hs. split; [|done]. unfold job_measure. rewrite Hs. cbn. lia.
  - unfold checked in Hr. destruct (stage j) eqn:Es; try done. injection Hr as <-. split; [|done].
    unfold job_measure at 2. rewrite Es. destruct stop, (resolution_error j); cbn; lia.
  - unfold begun in Hr. destruct (stage j) eqn:Es; try done. injection Hr as <-. split; [|done].
    unfold job_measure at 2. rewrite Es. destruct stop; cbn; lia.
  - unfold returned in Hr. destruct (stage j) eqn:Es; try done. injection Hr as <-. split; [|done].
    unfold job_measure at 2. rewrite Es. cbn. lia.
  - unfold worker_failed in Hr. destruct (stage j) eqn:Es; try done; injection Hr as <-; (split; [|done]);
      unfold job_measure at 2; rewrite Es; cbn; lia.
  - unfold replied in Hr. destruct (stage j) eqn:Es; try done. injection Hr as <- <-. split; [|done].
    unfold job_measure at 2. rewrite Es. cbn. lia.
  - unfold completed in Hr. destruct (stage j) eqn:Es; try done. injection Hr as <-. split; [|done].
    unfold job_measure at 2. rewrite Es. cbn. lia.
  - rewrite Hs. split; [|done]. unfold job_measure. rewrite Hs. cbn. lia.
Qed.

(** ** The dispatcher *)

Section Liveness.
Context {SE : Semaphore} {SL : SemaphoreLaws}.
Variable limits : RpcLimits.

Definition lane_load (l : Lane) : nat := length (running l) + (if manager l then 1 else 0).
Definition load (d : RpcRequestDispatcher) : nat :=
  lane_load (read d) + lane_load (write d) + lane_load (control d) + lane_load (approval d).
Definition measure (d : RpcRequestDispatcher) : nat := sum_list_with job_measure (jobs d) + load d.

Lemma load_set_lane c l d : load (set_lane c l d) + lane_load (lane_of d c) = load d + lane_load l.
Proof. unfold load. destruct c; cbn; lia. Qed.

Lemma load_set_lane_same c l d :
  running l = running (lane_of d c) → manager l = manager (lane_of d c) → load (set_lane c l d) = load d.
Proof. intros E1 E2. pose proof (load_set_lane c l d) as H. unfold lane_load in H. rewrite E1, E2 in H. lia. Qed.

Lemma sum_insert (js : list RpcJob) id j j' :
  js !! id = Some j →
  sum_list_with job_measure (<[id := j']> js) + job_measure j = sum_list_with job_measure js + job_measure j'.
Proof.
  revert id. induction js as [|k js IH]; intros [|id] E; [done|done|injection E as ->; cbn; lia|].
  change (<[S id := j']> (k :: js)) with (k :: <[id := j']> js). cbn. specialize (IH id E). lia.
Qed.

Lemma entered_measure c js js' : entered c js js' → sum_list_with job_measure js' ≤ sum_list_with job_measure js.
Proof.
  induction 1 as [|j j' js js' E _ IH]; [done|]. cbn.
  assert (job_measure j' ≤ job_measure j); [|lia].
  destruct E as [->|(_ & Hs & ->)]; [done|]. unfold job_measure. rewrite Hs. cbn. lia.
Qed.

Lemma moved_measure d d' id j j' es :
  history_ok d → moved d d' id j j' es →
  sum_list_with job_measure (jobs d') < sum_list_with job_measure (jobs d)
  ∧ (stage j = Queued → sum_list_with job_measure (jobs d') + 1 < sum_list_with job_measure (jobs d)).
Proof.
  intros H [Hj Hm He _ _ _]. pose proof (entered_measure _ _ _ He) as Hle. pose proof (sum_insert _ _ _ j' Hj) as Hs.
  destruct (move_measure _ _ _ _ _ _ _ (world_jobs _ _ (hist_world _ H) _ _ Hj) Hm) as [M1 M2].
  split; [lia|]. intros E. specialize (M2 E). lia.
Qed.

Lemma look_load d id j d' : look limits id j d = Some d' → load d' = load d.
Proof.
  unfold look. destruct (stage j) as [| | | |[|p rest] waiting| | | | | | | |]; try done.
  - destruct (refresh_pass _ _); cbn [mbind option_bind]; [|done]. by intros [= <-].
  - intros [= <-]. unfold acquire_permit. destruct (acquire _ _ _ _). by rewrite load_set_lane_same; destruct (class j).
  - destruct (depend_pass _ _); cbn [mbind option_bind]; [|done]. by intros [= <-].
Qed.

Lemma end_job_load d id j : load (end_job limits id j d) = load d.
Proof. unfold end_job. destruct (release _ _ _). by rewrite load_set_lane_same; destruct (class j). Qed.

Lemma job_action_load a d d' :
  job_action a = true → perform limits a d = Some d' → (∀ c, a ≠ Receive c) → load d' = load d.
Proof.
  intros Ha Hp Hne. destruct a; try done; cbn [perform] in Hp.
  - by destruct (Hne class).
  - destruct (jobs d !! job) as [j|]; cbn [mbind option_bind] in Hp; [|done].
    destruct (resolve_job_scope _ _ _) as [[scope j1]|]; cbn [mbind option_bind] in Hp; [|done].
    destruct (resolved scope j1); cbn [mbind option_bind] in Hp; [|done]. by injection Hp as <-.
  - destruct (jobs d !! job) as [j|]; cbn [mbind option_bind] in Hp; [|done]. by eapply look_load.
  - destruct (jobs d !! job) as [j|]; cbn [mbind option_bind] in Hp; [|done].
    destruct (checked _ _); cbn [mbind option_bind] in Hp; [|done]. by injection Hp as <-.
  - destruct (jobs d !! job) as [j|]; cbn [mbind option_bind] in Hp; [|done].
    destruct (begun _ _); cbn [mbind option_bind] in Hp; [|done]. injection Hp as <-. by destruct (stopping d).
  - destruct (jobs d !! job) as [j|]; cbn [mbind option_bind] in Hp; [|done].
    destruct (returned _ _); cbn [mbind option_bind] in Hp; [|done]. by injection Hp as <-.
  - destruct (jobs d !! job) as [j|]; cbn [mbind option_bind] in Hp; [|done].
    destruct (worker_failed _ _); cbn [mbind option_bind] in Hp; [|done]. by injection Hp as <-.
  - destruct (jobs d !! job) as [j|]; cbn [mbind option_bind] in Hp; [|done].
    destruct (replied _) as [[o j']|]; cbn [mbind option_bind] in Hp; [|done]. by injection Hp as <-.
  - destruct (jobs d !! job) as [j|]; cbn [mbind option_bind] in Hp; [|done].
    destruct (completed _); cbn [mbind option_bind] in Hp; [|done]. by injection Hp as <-.
  - destruct (jobs d !! job) as [j|]; cbn [mbind option_bind] in Hp; [|done].
    destruct (stage j); try done. injection Hp as <-. apply end_job_load.
Qed.

Lemma receive_measure c d d' :
  dispatcher_ok limits d → history_ok d → perform limits (Receive c) d = Some d' → measure d' < measure d.
Proof.
  intros H Hh Hp. destruct (perform_moved limits (Receive c) d d' H eq_refl Hp) as (id & j & j' & es & Hm).
  cbn [perform] in Hp.
  destruct (channel _) as [|i rest] eqn:Ec; [done|]. destruct (jobs d !! i) as [k|] eqn:Hk; cbn [mbind option_bind] in Hp; [|done].
  destruct (_ && _); [|done]. injection Hp as <-.
  destruct (queued_in_channel _ _ _ _ _ _ H Ec Hk) as [Hs _].
  assert (measure (put i (set_stage Resolving k) d) + 1 < measure d) as Hlt.
  { unfold measure. change (load (put i (set_stage Resolving k) d)) with (load d).
    assert (moved d (put i (set_stage Resolving k) d) i k (set_stage Resolving k) []) as Hm'.
    { split; try done; [by apply move_receive|apply entered_refl]. }
    destruct (moved_measure _ _ _ _ _ _ Hh Hm') as [_ M]. specialize (M Hs). lia. }
  unfold measure in *. set_lane_simpl.
  pose proof (load_set_lane c (set_running (running (lane_of d c) ++ [i]) (set_channel rest (lane_of d c)))
                (put i (set_stage Resolving k) d)) as Hl.
  change (lane_of (put i (set_stage Resolving k) d) c) with (lane_of d c) in Hl.
  unfold lane_load in Hl at 2. cbn [set_running set_channel running manager] in Hl. rewrite length_app in Hl.
  unfold lane_load in Hl at 1. cbn [length] in Hl. lia.
Qed.

Lemma filter_shorter (l : list nat) id : id ∈ l → length (filter (λ k, k ≠ id) l) < length l.
Proof.
  induction l as [|x l IH]; [by intros ?%not_elem_of_nil|]. intros Hin. rewrite filter_cons.
  pose proof (length_filter (λ k, k ≠ id) l). case_decide as E; cbn; [|lia].
  apply elem_of_cons in Hin as [->|Hin]; [done|]. specialize (IH Hin). lia.
Qed.

Lemma internal_decreases a d d' :
  dispatcher_ok limits d → history_ok d → internal a = true → perform limits a d = Some d' → measure d' < measure d.
Proof.
  intros H Hh Ha Hp. destruct (job_action a) eqn:Ej.
  - destruct a; try done; [by eapply receive_measure|..];
      (match type of Hp with perform limits ?a0 _ = _ => destruct (perform_moved limits a0 d d' H eq_refl Hp) as (id & j & j' & es & Hm);
         pose proof (job_action_load a0 d d' eq_refl Hp ltac:(by intros)) as Hl end;
       destruct (moved_measure _ _ _ _ _ _ Hh Hm) as [M _]; unfold measure; lia).
  - destruct a; try done; cbn [perform] in Hp.
    + destruct (jobs d !! job) as [j|]; cbn [mbind option_bind] in Hp; [|done].
      destruct (gone j); cbn [andb] in Hp; [|done]. case_bool_decide as Hr; [|done]. injection Hp as <-.
      unfold measure. set_lane_simpl. pose proof (filter_shorter _ _ Hr).
      pose proof (load_set_lane class (set_running (filter (λ k, k ≠ job) (running (lane_of d class))) (lane_of d class)) d) as Hl.
      unfold lane_load in Hl. cbn [set_running running manager] in Hl. lia.
    + destruct (manager (lane_of d class)) eqn:Em; cbn [andb] in Hp; [|done].
      destruct (_ && _ && _); [|done]. injection Hp as <-. unfold measure. set_lane_simpl.
      pose proof (load_set_lane class (end_manager (lane_of d class)) d) as Hl.
      unfold lane_load in Hl. cbn [end_manager running manager] in Hl. rewrite Em in Hl. lia.
Qed.

(** ** A dispatcher that is stuck *)

Definition quiet (d : RpcRequestDispatcher) : Prop := ∀ a, internal a = true → perform limits a d = None.

(** The stages at which a job goes on whatever the others do. *)
Definition goes_on (s : Stage) : bool :=
  match s with
  | Resolving | Reresolving _ | Depending [] _ | Granted | Submitted | Running | Answering _ | Replied | Completed => true
  | _ => false
  end.

Lemma resolve_possible stop j : is_Some (resolve_job_scope stop (if has_resolver j then Resolved Global else Skipped) j).
Proof.
  unfold resolve_job_scope. destruct (has_resolver j) eqn:E; rewrite ?E, ?orb_true_r; by eexists.
Qed.

Lemma quiet_goes_on d id j : quiet d → jobs d !! id = Some j → goes_on (stage j) = false.
Proof.
  intros Hq Hj.
  pose proof (Hq (Resolve id (if has_resolver j then Resolved Global else Skipped)) eq_refl) as Q1.
  pose proof (Hq (Look id) eq_refl) as Q2. pose proof (Hq (Check_permit id) eq_refl) as Q3.
  pose proof (Hq (Begin id) eq_refl) as Q4. pose proof (Hq (Return id Null) eq_refl) as Q5.
  pose proof (Hq (Reply id) eq_refl) as Q6. pose proof (Hq (Complete id) eq_refl) as Q7.
  pose proof (Hq (End_job id) eq_refl) as Q8. clear Hq.
  cbn [perform] in *. rewrite Hj in *. cbn [mbind option_bind] in *.
  destruct (stage j) as [| |scope observed index waiting refresh|observed|[|p rest] waiting| | | | |o| | |] eqn:Es; try done; exfalso.
  - destruct (resolve_possible (stopping d) j) as [[scope j1] Hr]. rewrite Hr in Q1. cbn [mbind option_bind] in Q1.
    apply resolve_fields in Hr as (_ & _ & _ & _ & _ & _ & _ & E). unfold resolved in Q1. by rewrite E, Es in Q1.
  - destruct (resolve_possible (stopping d) j) as [[scope j1] Hr]. rewrite Hr in Q1. cbn [mbind option_bind] in Q1.
    apply resolve_fields in Hr as (_ & _ & _ & _ & _ & _ & _ & E). unfold resolved in Q1. by rewrite E, Es in Q1.
  - unfold look in Q2. by rewrite Es in Q2.
  - unfold checked in Q3. by rewrite Es in Q3.
  - unfold begun in Q4. by rewrite Es in Q4.
  - unfold returned in Q5. by rewrite Es in Q5.
  - unfold replied in Q6. by rewrite Es in Q6.
  - unfold completed in Q7. by rewrite Es in Q7.
Qed.

Lemma concurrency_positive c : 0 < read_concurrency limits → 0 < concurrency_of limits c.
Proof. destruct c; cbn; lia. Qed.

(** With nobody inside, the driven executor has nobody at its gate. *)
Lemma gate_empty c st vs :
  0 < concurrency_of limits c → executes limits c st vs → (∀ r id, ¬ here c vs id (Inside r)) → ∀ r id, ¬ here c vs id (AtGate r).
Proof.
  intros Hpos [F D [G1 G2 G3]] Hno r id Hg.
  assert (∀ r n, active_roots st !! r = Some n → False) as Hnone.
  { intros r' n Hr'. pose proof (fair_positive _ _ F _ _ Hr') as Hn. specialize (G3 r'). rewrite Hr' in G3. cbn in G3.
    rewrite (total_0 (of_class c (inside r')) vs) in G3; [lia|]. intros i v Hv. unfold of_class.
    case_bool_decide as Ec; [|done]. unfold inside. destruct (v_place v) as [| | |r''|] eqn:Ep; try done.
    destruct (Hno r'' i). exists (v_bytes v). rewrite Hv. destruct v as [vc vp vb]. cbn in *. by subst. }
  assert (active st = 0) as Ha.
  { rewrite (fair_active _ _ F). assert (active_roots st = ∅) as ->; [|done].
    apply map_eq. intros r'. rewrite lookup_empty. destruct (active_roots st !! r') eqn:E; [by destruct (Hnone _ _ E)|done]. }
  destruct D as [D|D]; [lia|].
  apply G1 in Hg. assert (r ∈ roots st) as Hr.
  { apply (fair_roots _ _ F). unfold queue_of in Hg. destruct (queues st !! r); [by eexists|by apply not_elem_of_nil in Hg]. }
  specialize (D r Hr). unfold is_busy in D. apply andb_true_iff in D as [_ D%bool_decide_eq_true].
  destruct D as [n Hn]. by destruct (Hnone _ _ Hn).
Qed.

Lemma quiet_no_gate d id j :
  0 < read_concurrency limits → dispatcher_ok limits d → quiet d → jobs d !! id = Some j → stage j ≠ Acquiring.
Proof.
  intros Hpos H Hq Hj Es.
  apply (gate_empty (class j) _ _ (concurrency_positive _ Hpos) (disp_executes _ _ H (class j))) with (r := root_of j) (id := id).
  - intros r i Hin. apply here_lookup in Hin as (k & Hk & _ & Hp). pose proof (quiet_goes_on _ _ _ Hq Hk) as Hg.
    unfold place_of in Hp. by destruct (stage k) as [| | | |[]| | | | | | | |].
  - apply here_lookup. exists j. split_and!; [done..|]. unfold place_of. by rewrite Es.
Qed.

(** A manager has work as long as its channel is not empty. *)
Lemma quiet_channel d c : dispatcher_ok limits d → quiet d → channel (lane_of d c) = [].
Proof.
  intros H Hq. destruct (channel (lane_of d c)) as [|id rest] eqn:Ec; [done|exfalso].
  assert (id ∈ channel (lane_of d c)) as Hid by (rewrite Ec; left).
  destruct (manager_progress _ _ _ _ _ (disp_tasks _ _ H c) Hid) as [Hlt|(i & Hi & Hov)].
  - pose proof (Hq (Receive c) eq_refl) as Q. cbn [perform] in Q. rewrite Ec in Q.
    apply (tasks_channel _ _ _ _ (disp_tasks _ _ H c)), phase_at_lookup in Hid as (j & Hj & _).
    rewrite Hj in Q. cbn [mbind option_bind] in Q. apply Nat.ltb_lt in Hlt. rewrite Hlt in Q.
    destruct (manager (lane_of d c)) eqn:Em; [done|].
    apply (tasks_manager _ _ _ _ (disp_tasks _ _ H c)) in Em as (_ & Em & _). by rewrite Em in Ec.
  - pose proof (Hq (Join c i) eq_refl) as Q. cbn [perform] in Q.
    apply phase_at_lookup in Hov as (j & Hj & _ & Hp). rewrite Hj in Q. cbn [mbind option_bind] in Q.
    assert (gone j = true) as Hg by (unfold phase_of in Hp; unfold gone; by destruct (stage j)).
    rewrite Hg, bool_decide_true in Q by done. done.
Qed.

Lemma quiet_not_queued d id j : dispatcher_ok limits d → quiet d → jobs d !! id = Some j → stage j ≠ Queued.
Proof.
  intros H Hq Hj Es. pose proof (quiet_channel d (class j) H Hq) as Hc.
  assert (id ∈ channel (lane_of d (class j))) as Hin; [|rewrite Hc in Hin; by apply not_elem_of_nil in Hin].
  apply (tasks_channel _ _ _ _ (disp_tasks _ _ H (class j))), phase_at_lookup. exists j. split_and!; [done..|].
  unfold phase_of. by rewrite Es.
Qed.

(** A job whose predecessors have ended is not held up. *)
Lemma ended_shows js log p j :
  world_ok js log → js !! p = Some j → stage j = Ended →
  wait_completed j = true ∧ is_Some (resolved_scope j) ∧ is_Some (preparation_kind j).
Proof.
  intros H Hj Es. pose proof (jh_ok _ _ _ _ (world_jobs _ _ H _ _ Hj)) as Hok. split_and!.
  - unfold wait_completed, gone. by rewrite Es, orb_true_r.
  - unfold resolved_scope, gone. rewrite Es. by destruct (published_scope j).
  - apply (job_prepared _ _ _ Hok). by rewrite Es.
Qed.

Lemma ended_conflicts previous c scope :
  is_Some (resolved_scope previous) → is_Some (preparation_kind previous) → is_Some (conflicts_with previous c scope).
Proof.
  intros [s Hs] [k Hk]. unfold conflicts_with. rewrite Hs, Hk. 
  destruct (_ && _); [by eexists|]. destruct (_ && _); [by eexists|]. 
  rewrite (bool_decide_false (Some k = None)) by done. rewrite andb_false_r. by eexists.
Qed.

Lemma quiet_ended d :
  0 < read_concurrency limits → dispatcher_ok limits d → history_ok d → quiet d →
  ∀ id j, jobs d !! id = Some j → stage j = Ended.
Proof.
  intros Hpos H Hh Hq id. induction id as [id IH] using lt_wf_ind. intros j Hj.
  pose proof (quiet_goes_on _ _ _ Hq Hj) as Hg. pose proof (quiet_no_gate _ _ _ Hpos H Hq Hj) as Hng.
  pose proof (quiet_not_queued _ _ _ H Hq Hj) as Hnq.
  pose proof (jh_ok _ _ _ _ (world_jobs _ _ (hist_world _ Hh) _ _ Hj)) as Hok.
  pose proof (jh_settled _ _ _ _ (world_jobs _ _ (hist_world _ Hh) _ _ Hj)) as Hset.
  assert (∀ p, p < id → ∃ k, jobs d !! p = Some k ∧ wait_completed k = true ∧ is_Some (resolved_scope k)
            ∧ is_Some (preparation_kind k)) as Hp.
  { intros p Hlt. destruct (lookup_lt_is_Some_2 (jobs d) p) as [k Hk]; [apply lookup_lt_Some in Hj; lia|].
    exists k. split; [done|]. eapply ended_shows; [apply Hh|done|by apply (IH p Hlt)]. }
  pose proof (Hq (Look id) eq_refl) as Q. cbn [perform] in Q. rewrite Hj in Q. cbn [mbind option_bind] in Q.
  unfold look in Q.
  destruct (stage j) as [| |scope observed index waiting refresh|observed|[|p rest] waiting| | | | |o| | |] eqn:Es; try done; exfalso.
  - assert (is_Some (refresh_pass (jobs d) j)) as [j' Hr]; [|by rewrite Hr in Q].
    unfold refresh_pass. rewrite Es. destruct (predecessors j !! index) as [p|] eqn:Ep; [|by eexists].
    destruct (Hp p) as (k & Hk & Hw & [s Hs] & _).
    { apply (job_predecessors _ _ _ Hok). by eapply list_elem_of_lookup_2. }
    rewrite Hk. cbn [mbind option_bind]. rewrite Hw, Hs. destruct waiting; by eexists.
  - assert (is_Some (depend_pass (jobs d) j)) as [j' Hr]; [|by rewrite Hr in Q].
    unfold depend_pass. rewrite Es.
    assert (p < id) as Hlt.
    { apply (job_predecessors _ _ _ Hok), (jh_pending _ _ _ _ (world_jobs _ _ (hist_world _ Hh) _ _ Hj)).
      unfold pending. rewrite Es. left. }
    destruct (Hp p Hlt) as (k & Hk & Hw & Hs & Hpr). rewrite Hk. cbn [mbind option_bind]. rewrite Hw.
    destruct waiting; [by eexists|].
    assert (is_Some (published_scope j)) as [s' Hs'] by (apply (job_scoped _ _ _ Hok); by rewrite Es).
    rewrite Hs'. cbn [mbind option_bind]. destruct (ended_conflicts k (class j) s' Hs Hpr) as [b Hb]. rewrite Hb. by eexists.
Qed.

(** ** What a stuck dispatcher has done *)

Lemma quiet_running d c :
  0 < read_concurrency limits → dispatcher_ok limits d → history_ok d → quiet d → running (lane_of d c) = [].
Proof.
  intros Hpos H Hh Hq. destruct (running (lane_of d c)) as [|id rest] eqn:Er; [done|exfalso].
  assert (id ∈ running (lane_of d c)) as Hid by (rewrite Er; left).
  assert (∃ j, jobs d !! id = Some j) as [j Hj].
  { destruct (tasks_running _ _ _ _ (disp_tasks _ _ H c) _ Hid) as [Hp|Hp];
      apply phase_at_lookup in Hp as (j & Hj & _); by exists j. }
  pose proof (quiet_ended _ Hpos H Hh Hq _ _ Hj) as Es.
  pose proof (Hq (Join c id) eq_refl) as Q. cbn [perform] in Q. rewrite Hj in Q. cbn [mbind option_bind] in Q.
  unfold gone in Q. rewrite Es, bool_decide_true in Q by done. done.
Qed.

Lemma quiet_permits d c :
  0 < read_concurrency limits → dispatcher_ok limits d → history_ok d → quiet d →
  available_permits (admission (lane_of d c)) = N.of_nat (capacity_of limits c)
  ∧ available_permits (bytes (lane_of d c)) = byte_capacity c.
Proof.
  intros Hpos H Hh Hq.
  assert (∀ i t, tasks (jobs d) !! i = Some t → t_phase t = Over) as Hover.
  { intros i t Ht. unfold tasks in Ht. rewrite list_lookup_fmap in Ht. apply fmap_Some in Ht as (j & Hj & ->).
    cbn. unfold phase_of. by rewrite (quiet_ended _ Hpos H Hh Hq _ _ Hj). }
  pose proof (tasks_admission _ _ _ _ (disp_tasks _ _ H c)) as Ha. pose proof (tasks_bytes _ _ _ _ (disp_tasks _ _ H c)) as Hb.
  rewrite (total_0 (slot c)) in Ha.
  2: { intros i t Ht. unfold slot. rewrite (Hover _ _ Ht). by case_bool_decide. }
  rewrite (total_0 (charge c)) in Hb.
  2: { intros i t Ht. unfold charge. rewrite (Hover _ _ Ht). by case_bool_decide. }
  split; lia.
Qed.

Lemma quiet_managers d c :
  0 < read_concurrency limits → dispatcher_ok limits d → history_ok d → quiet d → owned d = false →
  manager (lane_of d c) = false.
Proof.
  intros Hpos H Hh Hq Ho. pose proof (Hq (End_manager c) eq_refl) as Q. cbn [perform] in Q.
  rewrite (quiet_channel _ _ H Hq), (quiet_running _ _ Hpos H Hh Hq), (disp_sender _ _ H c), Ho in Q.
  by destruct (manager (lane_of d c)).
Qed.

Lemma internal_runs acts d d' :
  dispatcher_ok limits d → history_ok d → Forall (λ a, internal a = true) acts → performs limits acts d = Some d' →
  length acts + measure d' ≤ measure d.
Proof using SL.
  revert d. induction acts as [|a acts IH]; intros d H Hh Hi Hp; cbn [performs] in Hp.
  { injection Hp as ->. done. }
  apply Forall_cons in Hi as [Ha Hi]. destruct (perform limits a d) as [d1|] eqn:E; cbn [mbind option_bind] in Hp; [|done].
  pose proof (internal_decreases _ _ _ H Hh Ha E). cbn [length].
  assert (length acts + measure d' ≤ measure d1); [|lia].
  apply IH; [by eapply perform_ok|by eapply perform_history|done..].
Qed.
End Liveness.
