(* ===== verification/RpcDispatchClaims.v ===== *)
(** * What a scope covers

    The keys of a resolved scope, and that requests which may touch the same
    conversation, tree or project overlap.

    After that: what the request dispatcher guarantees. *)

From stdpp Require Import sorting.
From S2P Require Import Prelude RustText Json RpcScope FairExecution FairExecutionFacts Tokio.
From S2P Require Import RpcDispatch RpcDispatchInvariant RpcDispatchMoves RpcDispatchHistory.
From S2P Require Import RpcDispatchLiveness.

Lemma has_key_true keys key : has_key keys key = true ↔ key ∈ keys.
Proof.
  unfold has_key. rewrite existsb_true. setoid_rewrite str_eqb_eq. naive_solver.
Qed.

Lemma sort_keys_elem keys key : key ∈ sort_keys keys ↔ key ∈ keys.
Proof. apply (sort_dedup_elem str_eqb str_le str_eqb_eq). Qed.

Lemma sort_keys_ordered keys : ordered_set str_le (sort_keys keys).
Proof. apply (sort_dedup_ordered str_eqb str_le str_eqb_eq). Qed.

Lemma opt_eqb_eq a b : opt_eqb a b = true ↔ a = b.
Proof. destruct a, b; cbn; rewrite ?str_eqb_eq; naive_solver. Qed.

Lemma one_of_cases s texts : one_of s texts = true → ∃ t, t ∈ texts ∧ s = rs t.
Proof. unfold one_of. intros (t & Ht & E%str_eqb_eq)%existsb_true. eauto. Qed.

(** ** Overlap *)

Lemma common_key keys other :
  existsb (λ key, negb (starts_with key "project-member:") && has_key other key) keys = true ↔
  ∃ key, key ∈ keys ∧ key ∈ other ∧ starts_with key "project-member:" = false.
Proof.
  rewrite existsb_true. setoid_rewrite andb_true_iff. setoid_rewrite negb_true_iff.
  setoid_rewrite has_key_true. naive_solver.
Qed.

Lemma overlaps_comm a b : overlaps a b = overlaps b a.
Proof.
  destruct a as [| | | |ka ra pa], b as [| | | |kb rb pb]; try done. cbn.
  assert (∀ l m, existsb (λ key, negb (starts_with key "project-member:") && has_key m key) l
               = existsb (λ key, negb (starts_with key "project-member:") && has_key l key) m) as Hc.
  { intros l m. apply eq_true_iff_eq. rewrite !common_key. naive_solver. }
  rewrite (Hc ka kb). destruct (existsb _ _), (marks_member ka kb), (marks_member kb ka), (has_key ka _), (has_key kb _);
    reflexivity.
Qed.

Lemma overlaps_key keys root policy keys' root' policy' key :
  key ∈ keys → key ∈ keys' → starts_with key "project-member:" = false →
  overlaps (Resources keys root policy) (Resources keys' root' policy') = true.
Proof. intros H1 H2 H3. cbn. rewrite !orb_true_iff. do 4 left. apply common_key. eauto. Qed.

Lemma overlaps_tree keys root policy keys' root' policy' :
  tree_key root' ∈ keys → overlaps (Resources keys root policy) (Resources keys' root' policy') = true.
Proof. intros H. cbn. rewrite !orb_true_iff. left. right. by apply has_key_true. Qed.

Lemma overlaps_marker keys root policy keys' root' policy' project :
  rs "project-marker:" ++ project ∈ keys → member_key project ∈ keys' →
  overlaps (Resources keys root policy) (Resources keys' root' policy') = true.
Proof.
  intros H1 H2. cbn. rewrite !orb_true_iff. do 3 left. right. unfold marks_member. apply existsb_true.
  eexists. split; [done|]. unfold strip_prefix. rewrite (proj2 (strip_prefix_str_app _ _ project) eq_refl).
  by apply has_key_true.
Qed.

Section Scopes.
Context `{ScopeServices}.

(** The request is about conversation [c]. *)
Definition acts_on (method : rstr) (params : Value) (c : rstr) : Prop :=
  ∃ keys policy prepared, owner_of method params = Ok (Owned (Some c) keys policy prepared).

(** The root of the tree of agents a conversation belongs to. *)
Definition tree_root (c root : rstr) : Prop :=
  ∃ node, get_agent_node_by_conversation c = Ok node
    ∧ root = match node with Some node => root_conversation_id node | None => c end.

Lemma owner_method method params c : acts_on method params c →
  is_str method "core.setExecutionAccess" = false
  ∧ one_of method ["storage.loadConversationMetas"; "storage.loadRunningConversationSummaries";
                   "humanInteraction.getAttention"; "notifications.summary"; "office.getStatus"] = false
  ∧ is_str method "storage.deleteProject" = false.
Proof.
  intros (keys & policy & prepared & Ho).
  assert (∀ text, method = rs text →
    (conversation_param (rs text) params = None
     ∧ one_of (rs text) ["agent.approveAction"; "agent.rejectAction"; "agent.cancelAction"] = false
     ∧ one_of (rs text) ["agent.cancelRun"; "agent.steerRun"] = false
     ∧ one_of (rs text) ["humanInteraction.submit"; "humanInteraction.ignore"] = false) → False) as Hno.
  { intros text -> (E1 & E2 & E3 & E4). unfold owner_of in Ho. by rewrite E1, E2, E3, E4 in Ho. }
  split_and!; apply not_true_iff_false.
  - intros E%str_eqb_eq. by apply (Hno _ E).
  - intros (t & Ht & E)%one_of_cases. apply (Hno _ E). set_unfold in Ht.
    destruct Ht as [-> | [-> | [-> | [-> | [-> | []]]]]]; done.
  - intros E%str_eqb_eq. by apply (Hno _ E).
Qed.

(** What the scope of such a request has. *)
Record covers (method c : rstr) (scope : RpcResourceScope) (keys : list rstr) (root : rstr)
    (policy : RpcSequencingPolicy) : Prop := mkCovers {
  covers_scope : scope = Resources keys root policy;
  covers_ordered : ordered_set str_le keys;
  covers_conversation : conversation_key c ∈ keys;
  covers_root : tree_root c root;
  covers_tree : reaches_tree method = true → tree_key root ∈ keys;
  covers_project : ∀ project, load_conversation_meta c = Ok (Some (Some project)) → member_key project ∈ keys;
}.

Lemma unknown_covers method c keys policy prepared scope :
  load_conversation_meta c = Ok None →
  unknown_conversation method c keys policy prepared = Ok scope →
  scope = Global ∨ scope = GlobalTurnPreparation c ∨ ∃ keys root policy, covers method c scope keys root policy.
Proof.
  intros Hm. unfold unknown_conversation. destruct (starts_turn method); [intros [= <-]; auto|].
  destruct policy; try (intros [= <-]; auto); destruct prepared as [entry|]; try (intros [= <-]; auto).
  intros (node & Hn & Hs)%bind_Ok. apply bind_Ok in Hs as (trace & Ht & Hs). apply bind_Ok in Hs as (pv & Hp & Hs).
  destruct (str_eqb _ _ && _ && _ && _) eqn:E; injection Hs as <-; [|auto]. right. right.
  rewrite !andb_true_iff in E. destruct E as [[[_ E%bool_decide_eq_true] _] _]. subst node.
  eexists _, _, _. split; [done|apply sort_keys_ordered| | | |].
  - apply sort_keys_elem. set_solver.
  - by exists None.
  - intros _. apply sort_keys_elem. set_solver.
  - intros project E. congruence.
Qed.

Lemma tree_keys_root method root node keys :
  tree_keys method root node = Ok keys → reaches_tree method = true → tree_key root ∈ keys.
Proof.
  unfold tree_keys. intros Hk Hr. rewrite Hr in Hk. destruct node; [|injection Hk as <-; set_solver].
  apply bind_Ok in Hk as (ms & _ & Hk). injection Hk as <-. set_solver.
Qed.

Lemma known_covers method params c project_id keys policy scope :
  load_conversation_meta c = Ok (Some project_id) →
  known_conversation method params c project_id keys policy = Ok scope →
  scope = Global ∨ ∃ keys root policy, covers method c scope keys root policy.
Proof.
  intros Hm. unfold known_conversation. intros (dest & Hd & Hs)%bind_Ok.
  destruct dest as [dest|]; [|injection Hs as <-; by left].
  apply bind_Ok in Hs as (node & Hn & Hs). apply bind_Ok in Hs as (tree & Ht & Hs). injection Hs as <-. right.
  eexists _, _, _. split; [done|apply sort_keys_ordered| | | |].
  - apply sort_keys_elem. set_solver.
  - by exists node.
  - intros Hr. apply sort_keys_elem. pose proof (tree_keys_root _ _ _ _ Ht Hr). set_solver.
  - intros project E. apply sort_keys_elem. rewrite Hm in E. injection E as ->. set_solver.
Qed.

Lemma scope_covers method params c scope :
  acts_on method params c → rpc_resource_scope method (Some params) = Ok scope →
  scope = Global ∨ scope = GlobalTurnPreparation c ∨ ∃ keys root policy, covers method c scope keys root policy.
Proof.
  intros Ha. destruct (owner_method _ _ _ Ha) as (E1 & E2 & E3). destruct Ha as (ks & pol & prep & Ho).
  unfold rpc_resource_scope. rewrite E1, E2, E3, Ho. cbn [mbind result_bind].
  intros (meta & Hm & Hs)%bind_Ok. destruct meta as [project_id|].
  - apply known_covers in Hs as [->|?]; auto.
  - by apply unknown_covers in Hs.
Qed.

Lemma delete_project_covers params project scope :
  param "projectId" params = Some project →
  rpc_resource_scope (rs "storage.deleteProject") (Some params) = Ok scope →
  scope = Global ∨ scope = Resources [rs "project-marker:" ++ project] (rs "project:" ++ project) OwnershipChange.
Proof.
  intros Hp. change (rpc_resource_scope (rs "storage.deleteProject") (Some params)) with (delete_project_scope params).
  unfold delete_project_scope. rewrite Hp. intros (projects & _ & Hs)%bind_Ok.
  destruct (has_key projects project); injection Hs as <-; auto.
Qed.

(** Requests that have to be ordered. *)
Inductive related : rstr * Value → rstr * Value → Prop :=
| related_conversation m p m' p' c : acts_on m p c → acts_on m' p' c → related (m, p) (m', p')
| related_tree m p m' p' c c' root :
    acts_on m p c → acts_on m' p' c' → reaches_tree m = true →
    tree_root c root → tree_root c' root → related (m, p) (m', p')
| related_project p m' p' c project :
    param "projectId" p = Some project → acts_on m' p' c →
    load_conversation_meta c = Ok (Some (Some project)) →
    related (rs "storage.deleteProject", p) (m', p').

Lemma tree_root_unique c root root' : tree_root c root → tree_root c root' → root = root'.
Proof. intros (n & Hn & ->) (n' & Hn' & ->). rewrite Hn in Hn'. by injection Hn' as ->. Qed.

Lemma conversation_not_member c : starts_with (conversation_key c) "project-member:" = false.
Proof. reflexivity. Qed.

Lemma related_overlap m p m' p' s s' :
  related (m, p) (m', p') →
  rpc_resource_scope m (Some p) = Ok s → rpc_resource_scope m' (Some p') = Ok s' →
  overlaps s s' = true ∧ overlaps s' s = true.
Proof.
  intros Hr Hs Hs'. rewrite (overlaps_comm s' s). assert (overlaps s s' = true); [|done].
  inversion Hr as [? ? ? ? c Ha Ha'|? ? ? ? c c' root Ha Ha' Ht Hroot Hroot'|? ? ? c project Hp Ha' Hm]; subst.
  - destruct (scope_covers _ _ _ _ Ha Hs) as [->|[->|(k & r & po & [-> _ Hk _ _ _])]]; [by destruct s'..|].
    destruct (scope_covers _ _ _ _ Ha' Hs') as [->|[->|(k' & r' & po' & [-> _ Hk' _ _ _])]]; [done..|].
    by eapply overlaps_key, conversation_not_member.
  - destruct (scope_covers _ _ _ _ Ha Hs) as [->|[->|(k & r & po & [-> _ _ Hr1 Htk _])]]; [by destruct s'..|].
    destruct (scope_covers _ _ _ _ Ha' Hs') as [->|[->|(k' & r' & po' & [-> _ _ Hr2 _ _])]]; [done..|].
    rewrite (tree_root_unique _ _ _ Hr2 Hroot'), <-(tree_root_unique _ _ _ Hr1 Hroot). apply overlaps_tree. auto.
  - destruct (delete_project_covers _ _ _ Hp Hs) as [->| ->]; [by destruct s'|].
    destruct (scope_covers _ _ _ _ Ha' Hs') as [->|[->|(k' & r' & po' & [-> _ _ _ _ Hpk])]]; [done..|].
    eapply overlaps_marker; [left|auto].
Qed.
End Scopes.

(** * What the request dispatcher guarantees

    The theorems about the dispatcher, with runs that show that they apply. *)

(** ** Reachable dispatchers *)

Section Reachable.
Context {SE : Semaphore} {SL : SemaphoreLaws}.
Variable limits : RpcLimits.

Definition reaches (acts : list Action) (d : RpcRequestDispatcher) : Prop :=
  performs limits acts (with_limits limits) = Some d.

Lemma reaches_ok acts d : reaches acts d → dispatcher_ok limits d.
Proof using SL. apply performs_ok, with_limits_ok. Qed.

Lemma reaches_history acts d : reaches acts d → history_ok d.
Proof using SL. apply performs_history; [apply with_limits_ok|apply with_limits_history]. Qed.

Lemma reaches_open acts d : reaches acts d → open_ok d.
Proof using SL. apply performs_open, with_limits_open. Qed.
End Reachable.

(** ** Workers *)

Definition insider (v : View) : N := match v_place v with Inside _ => 1 | _ => 0 end.

(** The jobs of a lane that hold a permit, all and of one root. *)
Definition workers_used {SE : Semaphore} (c : RpcDispatchClass) (d : RpcRequestDispatcher) : N :=
  total (of_class c insider) (views (jobs d)).
Definition root_used {SE : Semaphore} (c : RpcDispatchClass) (root : rstr) (d : RpcRequestDispatcher) : N :=
  total (of_class c (inside root)) (views (jobs d)).

Lemma active_sum_zero m : (∀ r n, m !! r = Some n → n = 0) → active_sum m = 0.
Proof.
  induction m as [|r n m Hr IH] using map_ind; intros H; [done|].
  rewrite active_sum_insert by done. rewrite (H r n) by apply lookup_insert_eq. rewrite IH; [done|].
  intros r' n' Hr'. apply (H r'). rewrite lookup_insert_ne; [done|]. intros ->. congruence.
Qed.

Lemma insiders_counted c vs m :
  (∀ r, N.of_nat (default 0 (m !! r)) = total (of_class c (inside r)) vs) →
  N.of_nat (active_sum m) = total (of_class c insider) vs.
Proof.
  revert m. induction vs as [|v vs IH]; intros m H.
  { rewrite active_sum_zero; [done|]. intros r n Hr. specialize (H r). rewrite Hr in H. cbn in H. lia. }
  cbn [total] in *. unfold of_class at 1. unfold of_class at 1 in H.
  case_bool_decide as Ec; [|by apply IH; intros r; rewrite H].
  unfold insider at 1. unfold inside at 1 in H. destruct (v_place v) as [| | |root|] eqn:Ep; try (apply IH; intros r; by rewrite H).
  assert (∃ k, m !! root = Some (S k)) as [k Hk].
  { specialize (H root). rewrite bool_decide_true in H by done. destruct (m !! root) as [[|k]|]; cbn in H; [lia|by exists k|lia]. }
  pose proof (active_sum_update _ _ _ k Hk). rewrite <-(IH (<[root := k]> m)); [lia|].
  intros r. specialize (H r). destruct (decide (root = r)) as [->|Hne].
  - rewrite lookup_insert_eq, (default_some _ 0). rewrite bool_decide_true in H by done. rewrite Hk, (default_some _ 0) in H. lia.
  - rewrite lookup_insert_ne by done. rewrite bool_decide_false in H by done. lia.
Qed.

(** C19. The lanes keep their limits, and no worker is idle without need: in every
    reachable state a lane has no more jobs and bytes than it admits, no more
    handlers at work than its workers, of one conversation at most one; and when a
    job of some root waits for a permit, all workers are taken or its root, a
    conversation, is being served. *)
Theorem lanes_keep_their_limits {SE : Semaphore} {SL : SemaphoreLaws} limits acts d c :
  reaches limits acts d →
  (slots_used c d ≤ N.of_nat (capacity_of limits c))%N ∧ (bytes_used c d ≤ byte_capacity c)%N
  ∧ (workers_used c d ≤ N.of_nat (concurrency_of limits c))%N
  ∧ (∀ root, starts_with root "root:" = true → (root_used c root d ≤ 1)%N)
  ∧ (∀ id j, jobs d !! id = Some j → class j = c → stage j = Acquiring →
       workers_used c d = N.of_nat (concurrency_of limits c)
       ∨ starts_with (root_of j) "root:" = true ∧ root_used c (root_of j) d = 1%N).
Proof.
  intros H%reaches_ok.
  pose proof (tasks_admission _ _ _ _ (disp_tasks _ _ H c)) as Ha. pose proof (tasks_bytes _ _ _ _ (disp_tasks _ _ H c)) as Hb.
  fold (slots_used c d) in Ha. fold (bytes_used c d) in Hb.
  destruct (disp_executes _ _ H c) as [F D [G1 _ G3]].
  pose proof (insiders_counted _ _ _ G3) as Hw. rewrite <-(fair_active _ _ F) in Hw. fold (workers_used c d) in Hw.
  pose proof (fair_limit _ _ F) as Hlim.
  assert (∀ root, starts_with root "root:" = true → (root_used c root d ≤ 1)%N) as Hone.
  { intros root Hs. unfold root_used. rewrite <-G3. destruct (active_roots _ !! root) as [n|] eqn:En; cbn; [|lia].
    rewrite (fair_single _ _ F _ _ Hs En). lia. }
  split_and!; [lia|lia|lia|done|].
  intros id j Hj Hc Hs. destruct D as [D|D]; [left; lia|right].
  assert (here c (views (jobs d)) id (AtGate (root_of j))) as Hg.
  { apply here_lookup. exists j. split_and!; [done..|]. unfold place_of. by rewrite Hs. }
  apply G1 in Hg. unfold queue_of in Hg.
  assert (root_of j ∈ roots (execution (lane_of d c))) as Hr.
  { apply (fair_roots _ _ F). destruct (queues _ !! _); [by eexists|by apply not_elem_of_nil in Hg]. }
  specialize (D _ Hr). unfold is_busy in D. apply andb_true_iff in D as [D1 D2%bool_decide_eq_true]. split; [done|].
  destruct D2 as [n Hn]. unfold root_used. rewrite <-G3, Hn. cbn. by rewrite (fair_single _ _ F _ _ D1 Hn).
Qed.

(** ** Runs *)

Definition small_limits : RpcLimits := mkLimits 2 2 2 2.

Definition talk : RpcResourceScope := Resources [rs "conversation:1"] (rs "1") Ordered.

(** A request without predecessors up to its handler. *)
Definition first_write (id : nat) (scope : RpcResourceScope) : list Action :=
  [Receive Write; Resolve id (Resolved scope); Look id; Look id; Check_permit id; Begin id].
Definition finish (id : nat) : list Action := [Return id Null; Reply id; Complete id; End_job id].

(** Two writes: the second waits for the first. *)
Definition two_requests (first second : RpcResourceScope) : list Action :=
  [Submit Write 10; Submit Write 20] ++ first_write 0 first
  ++ [Receive Write; Resolve 1 (Resolved second); Look 1; Look 1; Look 1].
Definition two_writes : list Action := two_requests talk talk.
Definition second_begins : list Action := finish 0 ++ [Look 1; Look 1; Check_permit 1; Begin 1].
Definition all_done : list Action :=
  finish 1 ++ [Join Write 0; Join Write 1; Shutdown]
  ++ [End_manager Read; End_manager Write; End_manager Control; End_manager Approval].

Definition end_of (acts : list Action) : RpcRequestDispatcher :=
  default (with_limits small_limits) (performs small_limits acts (with_limits small_limits)).

Definition runs (acts : list Action) : bool := bool_decide (is_Some (performs small_limits acts (with_limits small_limits))).

Lemma runs_reach acts : runs acts = true → reaches small_limits acts (end_of acts).
Proof. unfold runs, reaches, end_of. rewrite bool_decide_eq_true. by intros [d ->]. Qed.

(** The second write cannot go on before the first is done. *)
Example second_write_waits :
  runs two_writes = true ∧ perform small_limits (Look 1) (end_of two_writes) = None
  ∧ runs (two_writes ++ second_begins) = true ∧ runs (two_writes ++ second_begins ++ all_done) = true
  ∧ log (end_of (two_writes ++ second_begins))
    = [HandlerBegan 1; JobCompleted 0; Answered 0 (Handled Null); ScopeResolved 1; HandlerBegan 0; ScopeResolved 0].
Proof. vm_compute. done. Qed.

Lemma lanes_keep_their_limits_witness : (root_used Write (root_of (new_job Write 0 [])) (end_of two_writes) ≤ 1)%N
  ∧ (workers_used Write (end_of two_writes) ≤ 2)%N.
Proof.
  pose proof (lanes_keep_their_limits small_limits two_writes (end_of two_writes) Write
                (runs_reach two_writes ltac:(vm_compute; reflexivity))) as (_ & _ & H & _ & _).
  split; [vm_compute; discriminate|exact H].
Defined.

(** ** Order *)

(** C17. Conflicting requests are handled in the order of their admission: when the
    handler of a request begins, every request that was admitted before it has
    completed, unless both are reads, the earlier one is an overview, their scopes do
    not overlap, the request replaces the account's grant and the earlier one
    prepares a turn, or it cancels the very turn whose handler has begun. *)
Theorem handlers_follow_conflicts {SE : Semaphore} {SL : SemaphoreLaws} limits acts d post id pre p :
  reaches limits acts d → log d = post ++ HandlerBegan id :: pre → p < id →
  JobCompleted p ∈ pre
  ∨ ∃ j earlier, jobs d !! id = Some j ∧ jobs d !! p = Some earlier ∧ bypasses (HandlerBegan p ∈ pre) earlier j.
Proof. intros H%reaches_history El Hp. exact (hist_began _ H _ _ _ El p Hp). Qed.

Definition second_begun : RpcRequestDispatcher := Eval vm_compute in end_of (two_writes ++ second_begins).

Lemma second_begun_reached : reaches small_limits (two_writes ++ second_begins) second_begun.
Proof. vm_compute. reflexivity. Qed.

Lemma handlers_follow_conflicts_witness : JobCompleted 0 ∈ tail (log second_begun).
Proof.
  destruct (handlers_follow_conflicts small_limits (two_writes ++ second_begins) second_begun [] 1 (tail (log second_begun)) 0
              second_begun_reached eq_refl ltac:(lia)) as [H|(j & e & Hj & He & Hb)]; [exact H|exfalso].
  injection Hj as <-. injection He as <-. destruct Hb as [H|H|H|s s' H|s s' H H' Ho]; try discriminate.
  injection H as <-. injection H' as <-. vm_compute in Ho. discriminate.
Defined.

(** C18. A scope is recent: when the handler of a request begins under the keys of
    its scope, each request that was admitted before it had completed when the scope
    was last resolved, unless it reads, does not change owners, touches nothing the
    scope does, or is the turn whose preparation the request cancels. *)
Theorem handler_scopes_are_recent {SE : Semaphore} {SL : SemaphoreLaws} limits acts d id j keys root policy p :
  reaches limits acts d → jobs d !! id = Some j → HandlerBegan id ∈ log d →
  published_scope j = Some (Resources keys root policy) → p < id →
  fresh (log d) id p
  ∨ ∃ earlier, jobs d !! p = Some earlier
      ∧ keeps_owner (HandlerBegan p ∈ log d) earlier j (Resources keys root policy).
Proof.
  intros H%reaches_history Hj Hb Hs Hp. pose proof (world_jobs _ _ (hist_world _ H) _ _ Hj) as [Hok _ _ _ Hsc].
  assert (is_scoped (stage j) = true) as Hst by (apply (job_scoped _ _ _ Hok); by eexists).
  unfold scope_ok in Hsc. destruct (stage j); try done; by eapply Hsc.
Qed.

(** A conversation moves to another project; a later request to it is resolved again. *)
Definition move_scope : RpcResourceScope := Resources [rs "conversation:1"] (rs "1") OwnershipChange.
Definition move_then_write : list Action :=
  [Submit Write 10; Submit Write 20] ++ first_write 0 move_scope
  ++ [Receive Write; Resolve 1 (Resolved talk); Look 1] ++ finish 0
  ++ [Look 1; Look 1; Resolve 1 (Resolved talk); Look 1; Look 1; Look 1; Look 1; Look 1; Check_permit 1; Begin 1].

Definition moved_end : RpcRequestDispatcher := Eval vm_compute in end_of move_then_write.

Lemma moved_end_reached : reaches small_limits move_then_write moved_end.
Proof. vm_compute. reflexivity. Qed.

Lemma handler_scopes_are_recent_witness : fresh (log moved_end) 1 0.
Proof.
  destruct (jobs moved_end !! 1) as [j|] eqn:Hj; [|discriminate].
  assert (published_scope j = Some talk) as Hs by (injection Hj as <-; reflexivity).
  destruct (handler_scopes_are_recent small_limits move_then_write moved_end 1 j
              [rs "conversation:1"] (rs "1") Ordered 0 moved_end_reached Hj ltac:(left) Hs ltac:(lia))
    as [H|(e & He & Hk)]; [exact H|exfalso].
  injection He as <-. injection Hj as <-. destruct Hk as [H|s H Hc|s H Ho|s H H']; try discriminate.
  - injection H as <-. discriminate.
  - injection H as <-. vm_compute in Ho. discriminate.
Defined.

(** ** Related requests *)

Section Related.
Context `{ScopeServices}.

Lemma acts_scope method params c scope :
  acts_on method params c → rpc_resource_scope method (Some params) = Ok scope →
  scope ≠ ExecutionAccess ∧ scope ≠ Overview.
Proof.
  intros Ha Hs. destruct (scope_covers _ _ _ _ Ha Hs) as [->|[->|(k & r & po & [-> _ _ _ _ _])]]; done.
Qed.

Lemma related_scopes m p m' p' s s' :
  related (m, p) (m', p') → rpc_resource_scope m (Some p) = Ok s → rpc_resource_scope m' (Some p') = Ok s' →
  (s ≠ ExecutionAccess ∧ s ≠ Overview) ∧ (s' ≠ ExecutionAccess ∧ s' ≠ Overview).
Proof.
  intros Hr Hs Hs'. inversion Hr as [? ? ? ? c Ha Ha'|? ? ? ? c c' root Ha Ha' _ _ _|? ? ? c project Hp Ha' _]; subst.
  - split; [exact (acts_scope _ _ _ _ Ha Hs)|exact (acts_scope _ _ _ _ Ha' Hs')].
  - split; [exact (acts_scope _ _ _ _ Ha Hs)|exact (acts_scope _ _ _ _ Ha' Hs')].
  - split; [|exact (acts_scope _ _ _ _ Ha' Hs')]. destruct (delete_project_covers _ _ _ Hp Hs) as [->| ->]; done.
Qed.
End Related.

(** C5. Requests about the same thing are handled in order: of two requests that
    concern one conversation, or one tree of agents of which the one reaches every
    member, or a project that is deleted and a conversation in it, the one admitted
    later begins when the other has completed, unless both only read, or the later
    one cancels the turn whose handler has begun. *)
Theorem related_requests_are_ordered {SE : Semaphore} {SL : SemaphoreLaws} `{ScopeServices} limits acts d
    post id pre p j earlier m q m' q' s s' :
  reaches limits acts d → log d = post ++ HandlerBegan id :: pre → p < id →
  jobs d !! id = Some j → jobs d !! p = Some earlier →
  published_scope j = Some s → published_scope earlier = Some s' →
  rpc_resource_scope m (Some q) = Ok s → rpc_resource_scope m' (Some q') = Ok s' →
  related (m, q) (m', q') ∨ related (m', q') (m, q) →
  JobCompleted p ∈ pre ∨ (class j = Read ∧ class earlier = Read)
  ∨ (class j = Control ∧ permits_preparing_cancel true Control s s' = true ∧ HandlerBegan p ∈ pre).
Proof.
  intros H1 El Hp Hj He Hs Hs' Hr Hr' Hrel. apply reaches_history in H1.
  assert (overlaps s s' = true) as Ho.
  { destruct Hrel as [Hrel|Hrel]; [by destruct (related_overlap _ _ _ _ _ _ Hrel Hr Hr')|by destruct (related_overlap _ _ _ _ _ _ Hrel Hr' Hr)]. }
  assert (s ≠ ExecutionAccess ∧ s' ≠ Overview) as [Hne Hno].
  { destruct Hrel as [Hrel|Hrel]; [destruct (related_scopes _ _ _ _ _ _ Hrel Hr Hr')|destruct (related_scopes _ _ _ _ _ _ Hrel Hr' Hr)]; tauto. }
  destruct (hist_began _ H1 _ _ _ El p Hp) as [Hc|(j0 & e0 & Hj0 & He0 & Hb)]; [by left|].
  rewrite Hj in Hj0. injection Hj0 as <-. rewrite He in He0. injection He0 as <-.
  destruct Hb as [B1 B2|B1 B2 B3|B1 B2|sj sp B1 B2 B3 B4 B5|sj sp B1 B2 B3].
  - right. by left.
  - congruence.
  - congruence.
  - right. right. rewrite Hs in B2. rewrite Hs' in B3. by injection B2 as <-; injection B3 as <-.
  - rewrite Hs in B1. rewrite Hs' in B2. injection B1 as <-. injection B2 as <-. congruence.
Qed.

(** One conversation, in a project. *)
#[local] Instance desk : ScopeServices := {|
  load_projects := Ok [rs "p1"];
  get_pending_agent_action _ := Ok None;
  snapshot_run _ := None;
  active_run _ := None;
  usage_context _ := None;
  pending_actions_of _ := [];
  get_human_interaction_request _ _ := Err (rs "no request");
  load_conversation_meta c := if is_str c "c1" then Ok (Some (Some (rs "p1"))) else Ok None;
  get_agent_node_by_conversation _ := Ok None;
  get_conversation_turn_trace _ := Ok false;
  list_agent_tree _ := Ok [];
|}.

Definition text_param (key value : string) : Value := Object [(rs key, String (rs value))].
Definition upsert_scope : RpcResourceScope :=
  Eval vm_compute in
    match rpc_resource_scope (rs "storage.upsertChatMessages") (Some (text_param "conversationId" "c1")) with
    | Ok s => s | Err _ => Overview end.
Definition delete_scope : RpcResourceScope :=
  Eval vm_compute in
    match rpc_resource_scope (rs "storage.deleteProject") (Some (text_param "projectId" "p1")) with
    | Ok s => s | Err _ => Overview end.

Definition delete_after_upsert : list Action := two_requests upsert_scope delete_scope ++ second_begins.
Definition deleting : RpcRequestDispatcher := Eval vm_compute in end_of delete_after_upsert.

Lemma deleting_reached : reaches small_limits delete_after_upsert deleting.
Proof. vm_compute. reflexivity. Qed.

Lemma upsert_related :
  related (rs "storage.deleteProject", text_param "projectId" "p1")
    (rs "storage.upsertChatMessages", text_param "conversationId" "c1").
Proof.
  apply (related_project _ _ _ (rs "c1") (rs "p1")); [reflexivity| |reflexivity].
  exists [], Ordered, None. vm_compute. reflexivity.
Qed.

Lemma related_requests_are_ordered_witness : JobCompleted 0 ∈ tail (log deleting).
Proof.
  destruct (jobs deleting !! 1) as [j|] eqn:Hj; [|discriminate].
  destruct (jobs deleting !! 0) as [e|] eqn:He; [|discriminate].
  assert (class j = Write ∧ published_scope j = Some delete_scope ∧ published_scope e = Some upsert_scope) as (Hc & Hs & Hs')
    by (injection Hj as <-; injection He as <-; done).
  destruct (related_requests_are_ordered small_limits delete_after_upsert deleting [] 1 (tail (log deleting)) 0 j e
              (rs "storage.deleteProject") (text_param "projectId" "p1")
              (rs "storage.upsertChatMessages") (text_param "conversationId" "c1") delete_scope upsert_scope
              deleting_reached eq_refl ltac:(lia) Hj He Hs Hs' ltac:(vm_compute; reflexivity)
              ltac:(vm_compute; reflexivity) (or_introl upsert_related)) as [H|[[H _]|[H _]]]; [exact H|congruence..].
Defined.

(** ** Submissions *)

(** C24. A request is taken exactly when there is room: it is refused only while the
    server stops, or because its lane is full of requests or of bytes, and then
    nothing is kept of it; a request that is taken has as predecessors all that have
    not completed. *)
Theorem submissions_are_bounded {SE : Semaphore} {SL : SemaphoreLaws} limits acts d c n r d' :
  reaches limits acts d → owned d = true → try_submit_scoped limits c n d = (r, d') →
  submission limits c n d r d'
  ∧ (r = Ok tt → ∀ id j, jobs d !! id = Some j → completion j = false →
       ∃ j', jobs d' !! length (jobs d) = Some j' ∧ id ∈ predecessors j').
Proof.
  intros H Ho E. pose proof (reaches_ok _ _ _ H) as Hd. pose proof (reaches_open _ _ _ H) as Hop.
  pose proof (reaches_history _ _ _ H) as Hh.
  pose proof (submission_result limits d c n Hd Hop Ho) as Hs. rewrite E in Hs. cbn [fst snd] in Hs. split; [done|].
  intros -> id j Hj Hc. destruct Hs as (_ & _ & _ & Ej). eexists. split.
  - rewrite Ej, lookup_app_r, Nat.sub_diag by done. reflexivity.
  - cbn. by apply (outstanding_kept _ _ _ (hist_world _ Hh) (hist_outstanding _ Hh) id j).
Qed.

(** The third write is refused: the lane has two places. *)
Definition both_in : RpcRequestDispatcher := Eval vm_compute in end_of two_writes.

Lemma both_in_reached : reaches small_limits two_writes both_in.
Proof. vm_compute. reflexivity. Qed.

Lemma submissions_are_bounded_witness :
  (N.of_nat 2 ≤ slots_used Write both_in)%N ∨ (byte_capacity Write < bytes_used Write both_in + 30)%N.
Proof.
  destruct (submissions_are_bounded small_limits two_writes both_in Write 30 (Err true)
              (snd (try_submit_scoped small_limits Write 30 both_in)) both_in_reached eq_refl
              ltac:(vm_compute; reflexivity)) as [(_ & _ & _ & H) _].
  exact (H eq_refl).
Defined.

(** ** Answers *)

(** C6. Every request that was taken is answered, exactly once, and the server drains:
    from any reachable state the actions of its tasks and managers are finitely many,
    whatever their order; when none is left, every job has ended with one answer and
    its lane has all permits back, and if the dispatcher was shut down its managers
    have ended; and no handler begins once the server is stopping. *)
Theorem taken_requests_are_answered {SE : Semaphore} {SL : SemaphoreLaws} limits acts d acts' d' :
  0 < read_concurrency limits → reaches limits acts d →
  Forall (λ a, internal a = true) acts' → performs limits acts' d = Some d' →
  length acts' ≤ measure d
  ∧ (∀ id, length (answers id (log d')) ≤ 1)
  ∧ (quiet limits d' →
       (∀ id, id < length (jobs d') → ∃ o, answers id (log d') = [o])
       ∧ (∀ c, available_permits (admission (lane_of d' c)) = N.of_nat (capacity_of limits c)
               ∧ available_permits (bytes (lane_of d' c)) = byte_capacity c)
       ∧ (owned d' = false → ∀ c, manager (lane_of d' c) = false))
  ∧ (∀ before after id, log d' = after ++ Stopped :: before → HandlerBegan id ∉ after).
Proof.
  intros Hpos H Hi Hp. pose proof (reaches_ok _ _ _ H) as Hd. pose proof (reaches_history _ _ _ H) as Hh.
  pose proof (performs_ok _ _ _ _ Hd Hp) as Hd'. pose proof (performs_history _ _ _ _ Hd Hh Hp) as Hh'.
  assert (∀ id j, jobs d' !! id = Some j → job_ok (log d') id j) as Hjob
    by (intros id j Hj; apply (world_jobs _ _ (hist_world _ Hh') _ _ Hj)).
  split_and!.
  - pose proof (internal_runs _ _ _ _ Hd Hh Hi Hp). lia.
  - intros id. destruct (jobs d' !! id) as [j|] eqn:Hj.
    + rewrite (job_answers _ _ _ (Hjob _ _ Hj)). destruct (is_answered _); lia.
    + rewrite answers_none; [cbn; lia|]. intros e He Ee. apply (world_events _ _ (hist_world _ Hh')) in Ee; [|done].
      apply lookup_ge_None in Hj. lia.
  - intros Hq. split_and!.
    + intros id [j Hj]%lookup_lt_is_Some. pose proof (job_answers _ _ _ (Hjob _ _ Hj)) as Ha.
      rewrite (quiet_ended limits d' Hpos Hd' Hh' Hq _ _ Hj) in Ha. cbn in Ha.
      destruct (answers id (log d')) as [|o [|]]; try discriminate. by exists o.
    + intros c. by apply quiet_permits.
    + intros Ho c. by apply (quiet_managers limits).
  - intros before after id El. by eapply (hist_stopped _ Hh').
Qed.

(** The whole run of two writes, up to the end of the managers. *)
Definition whole_run : list Action := two_writes ++ second_begins ++ all_done.
Definition drained : RpcRequestDispatcher := Eval vm_compute in end_of whole_run.

Lemma drained_reached : reaches small_limits whole_run drained.
Proof. vm_compute. reflexivity. Qed.

Lemma drained_quiet : quiet small_limits drained.
Proof.
  intros a Ha. destruct a as [c n|c|c id|id r|id|id|id|id v|id e|id|id|id| | |c]; try discriminate Ha;
    try (by destruct c); cbn [perform]; destruct id as [|[|id]]; try reflexivity; try (by destruct c); by destruct r.
Qed.

Lemma taken_requests_are_answered_witness : ∃ o, answers 1 (log drained) = [o].
Proof.
  destruct (taken_requests_are_answered small_limits whole_run drained [] drained ltac:(cbn; lia) drained_reached
              ltac:(constructor) eq_refl) as (_ & _ & H & _).
  exact (proj1 (H drained_quiet) 1 ltac:(cbn; lia)).
Defined.
