(* ===== verification/HumanInteraction.v ===== *)
(** * Answers of a person

    [core/src/human_interaction.rs]: the display of a person's answers to a
    batch of questions, as it is kept in the result of the tool that asked.

    Parameters: the parsers that [serde] derives for
    [HumanInteractionResponseDisplay], and the text that [serde_json] prints. *)

From S2P Require Import Prelude RustText Json.

Definition HUMAN_INTERACTION_SCHEMA_VERSION : N := 1.
Definition HUMAN_INTERACTION_MAX_INPUT_BYTES : N := 262144.
Definition HUMAN_INTERACTION_MAX_TITLE_BYTES : N := 8192.
Definition HUMAN_INTERACTION_MAX_OPTION_BYTES : N := 2048.
Definition HUMAN_INTERACTION_MAX_ANSWER_BYTES : N := 32768.
Definition HUMAN_INTERACTION_MAX_DISPLAY_BYTES : N := 1048576.

Inductive HumanInteractionAnswerDisplay :=
| OptionDisplay (question_id question option_id answer : rstr)
| TextDisplay (question_id question answer : rstr)
| SkippedDisplay (question_id question answer : rstr).

Record HumanInteractionResponseDisplay := mkDisplay {
  result_type : rstr;
  display_schema_version : N;
  request_id : rstr;
  response_id : rstr;
  answers : list HumanInteractionAnswerDisplay;
}.

Record HumanInteractionQuestionInput := mkQuestion {
  title : rstr;
  options : option (list rstr);
}.

Inductive HumanInteractionAnswer :=
| OptionAnswer (question_id option_id : rstr)
| TextAnswer (question_id text : rstr)
| SkippedAnswer (question_id : rstr).

(** [serde_json]: printing, and the derived [from_value] and [from_str]. *)
Class JsonServices := {
  json_to_string : Value → rstr;
  response_from_value : Value → option HumanInteractionResponseDisplay;
  response_from_str : rstr → option HumanInteractionResponseDisplay;
}.

(** ** The values that are printed

    Fields are printed in another order, which does not matter for the length. *)

Definition display_answer_value (entry : HumanInteractionAnswerDisplay) : Value :=
  match entry with
  | OptionDisplay question_id question option_id answer =>
      json_object [(rs "kind", String (rs "option")); (rs "questionId", String question_id);
        (rs "question", String question); (rs "optionId", String option_id); (rs "answer", String answer)]
  | TextDisplay question_id question answer =>
      json_object [(rs "kind", String (rs "text")); (rs "questionId", String question_id);
        (rs "question", String question); (rs "answer", String answer)]
  | SkippedDisplay question_id question answer =>
      json_object [(rs "kind", String (rs "skipped")); (rs "questionId", String question_id);
        (rs "question", String question); (rs "answer", String answer)]
  end.

Definition display_value (display : HumanInteractionResponseDisplay) : Value :=
  json_object [(rs "type", String (result_type display));
    (rs "schemaVersion", json_number (display_schema_version display));
    (rs "requestId", String (request_id display)); (rs "responseId", String (response_id display));
    (rs "answers", Array (map display_answer_value (answers display)))].

Definition question_value (question : HumanInteractionQuestionInput) : Value :=
  json_object ((rs "title", String (title question))
    :: match options question with
       | Some options => [(rs "options", Array (map String options))]
       | None => []
       end).

Definition tool_input_value (questions : list HumanInteractionQuestionInput) : Value :=
  json_object [(rs "questions", Array (map question_value questions))].

Definition answer_value (answer : HumanInteractionAnswer) : Value :=
  match answer with
  | OptionAnswer question_id option_id =>
      json_object [(rs "kind", String (rs "option")); (rs "questionId", String question_id);
        (rs "optionId", String option_id)]
  | TextAnswer question_id text =>
      json_object [(rs "kind", String (rs "text")); (rs "questionId", String question_id);
        (rs "text", String text)]
  | SkippedAnswer question_id =>
      json_object [(rs "kind", String (rs "skipped")); (rs "questionId", String question_id)]
  end.

(** ** Checks

    Every check fails with the same error: its success is a boolean. *)

Definition validate_human_interaction_id (value : rstr) : bool :=
  negb (bool_decide (value = [])) && (N.of_nat (byte_len value) <=? 256)%N
  && str_eqb (trim value) value && negb (existsb is_control value).

Definition valid_text (value : rstr) (max_bytes : N) : bool :=
  negb (bool_decide (trim value = [])) && (N.of_nat (byte_len value) <=? max_bytes)%N
  && negb (existsb (is_char nul) value).

Definition valid_question (question : HumanInteractionQuestionInput) : bool :=
  valid_text (title question) HUMAN_INTERACTION_MAX_TITLE_BYTES
  && match options question with
     | None => true
     | Some options =>
         negb (bool_decide (options = []))
         && bool_decide (NoDup (map trim options))
         && forallb (λ option, valid_text option HUMAN_INTERACTION_MAX_OPTION_BYTES) options
     end.

(** An entry, as the question and the answer it displays. *)
Definition display_parts (entry : HumanInteractionAnswerDisplay)
    : option (rstr * HumanInteractionQuestionInput * HumanInteractionAnswer) :=
  match entry with
  | OptionDisplay question_id question option_id answer =>
      if validate_human_interaction_id option_id
         && valid_text answer HUMAN_INTERACTION_MAX_OPTION_BYTES
      then Some (question_id, mkQuestion question (Some [answer]), OptionAnswer question_id option_id)
      else None
  | TextDisplay question_id question answer =>
      if valid_text answer HUMAN_INTERACTION_MAX_ANSWER_BYTES
      then Some (question_id, mkQuestion question None, TextAnswer question_id answer)
      else None
  | SkippedDisplay question_id question answer =>
      if str_eqb answer (rs_utf8 "已跳过")
      then Some (question_id, mkQuestion question None, SkippedAnswer question_id)
      else None
  end.

Section Json.
Context {json : JsonServices}.

Definition printed_len (value : Value) : N := N.of_nat (byte_len (json_to_string value)).

Definition validate_human_interaction_tool_input (questions : list HumanInteractionQuestionInput) : bool :=
  negb (bool_decide (length questions = 0))
  && (printed_len (tool_input_value questions) <=? HUMAN_INTERACTION_MAX_INPUT_BYTES)%N
  && forallb valid_question questions.

(** The loop over the entries, with the identities of questions met so far. *)
Fixpoint display_batch (question_ids : list rstr) (entries : list HumanInteractionAnswerDisplay)
    : option (list HumanInteractionQuestionInput * list HumanInteractionAnswer) :=
  match entries with
  | [] => Some ([], [])
  | entry :: entries =>
      match display_parts entry with
      | None => None
      | Some (question_id, question, answer) =>
          if validate_human_interaction_id question_id
             && negb (existsb (str_eqb question_id) question_ids)
          then
            match display_batch (question_id :: question_ids) entries with
            | Some (questions, answers) => Some (question :: questions, answer :: answers)
            | None => None
            end
          else None
      end
  end.

(** [HumanInteractionResponseDisplay::validate(..).is_ok()]. *)
Definition validate_display (display : HumanInteractionResponseDisplay) : bool :=
  is_str (result_type display) "human_interaction_response"
  && (display_schema_version display =? HUMAN_INTERACTION_SCHEMA_VERSION)%N
  && (printed_len (display_value display) <=? HUMAN_INTERACTION_MAX_DISPLAY_BYTES)%N
  && validate_human_interaction_id (request_id display)
  && validate_human_interaction_id (response_id display)
  && match display_batch [] (answers display) with
     | None => false
     | Some (questions, answers) =>
         validate_human_interaction_tool_input questions
         && (printed_len (Array (map answer_value answers)) <=? HUMAN_INTERACTION_MAX_INPUT_BYTES)%N
     end.

Definition valid_value (value : Value) : bool :=
  is_some_and (response_from_value value) validate_display.
End Json.
