(* ===== verification/FileChangeError.v ===== *)
(** * Errors of file changes

    [core/src/file_change/error.rs].  Each enum has a module of its own, since
    the enums of file changes share constructor names. *)

From S2P Require Import Prelude RustText.

Module Category.
Inductive FileChangeErrorCategory :=
| Wire | Semantic | Path | Authorization | Precondition | Execution.
End Category.
Abbreviation FileChangeErrorCategory := Category.FileChangeErrorCategory.

Module Recovery.
Inductive FileChangeRecovery :=
| CorrectArguments | UseStagedChange | UseAbsolutePath | CreateParent | RequestPermission
| ChooseRegularFile | UseDedicatedTool | RereadFile | UseUpdateOrChooseAnotherPath
| SkipOrReviseEdit | InspectAuthoritativeState | DoNotRetry.
End Recovery.
Abbreviation FileChangeRecovery := Recovery.FileChangeRecovery.

Module FileChange.
Inductive FileChangeErrorCode :=
| InvalidArguments | UnknownField | IllegalFieldCombination | ContentTooLarge | WorkspaceRequired
| PermissionDenied | ParentMissing | SymlinkForbidden | UnsupportedFileType | NotRegularFile
| HardLinkForbidden | FileExists | FileMissing | RevisionConflict | MatchNotFound | AmbiguousMatch
| NoChange | ObservationRequired | ObservationExpired | ObservationOwnerMismatch
| ObservationPathMismatch | ObservationStale | TransactionNotFound | TransactionOwnerMismatch
| TransactionExpired | TransactionSettled | DraftRevisionConflict | MutationOutOfOrder
| ReplayMismatch | Failed | Conflict | OutcomeUnknown.

#[export] Instance error_code_eq_dec : EqDecision FileChangeErrorCode.
Proof. solve_decision. Defined.
End FileChange.
Export (hints) FileChange.
Abbreviation FileChangeErrorCode := FileChange.FileChangeErrorCode.

Section Codes.
Import FileChange.

Definition category (code : FileChangeErrorCode) : FileChangeErrorCategory :=
  match code with
  | InvalidArguments | UnknownField => Category.Wire
  | IllegalFieldCombination | ContentTooLarge => Category.Semantic
  | WorkspaceRequired | ParentMissing | SymlinkForbidden | UnsupportedFileType
  | NotRegularFile | HardLinkForbidden => Category.Path
  | PermissionDenied => Category.Authorization
  | FileExists | FileMissing | RevisionConflict | MatchNotFound | AmbiguousMatch | NoChange
  | ObservationRequired | ObservationExpired | ObservationOwnerMismatch
  | ObservationPathMismatch | ObservationStale | TransactionNotFound
  | TransactionOwnerMismatch | TransactionExpired | TransactionSettled | DraftRevisionConflict
  | MutationOutOfOrder | ReplayMismatch => Category.Precondition
  | Failed | Conflict | OutcomeUnknown => Category.Execution
  end.

Definition recovery (code : FileChangeErrorCode) : FileChangeRecovery :=
  match code with
  | InvalidArguments | UnknownField | IllegalFieldCombination => Recovery.CorrectArguments
  | ContentTooLarge => Recovery.UseStagedChange
  | WorkspaceRequired => Recovery.UseAbsolutePath
  | PermissionDenied => Recovery.RequestPermission
  | ParentMissing => Recovery.CreateParent
  | SymlinkForbidden | NotRegularFile | HardLinkForbidden => Recovery.ChooseRegularFile
  | UnsupportedFileType => Recovery.UseDedicatedTool
  | FileExists => Recovery.UseUpdateOrChooseAnotherPath
  | FileMissing | RevisionConflict | MatchNotFound | AmbiguousMatch | ObservationRequired
  | ObservationExpired | ObservationOwnerMismatch | ObservationPathMismatch | ObservationStale => Recovery.RereadFile
  | TransactionNotFound | TransactionOwnerMismatch | TransactionExpired | TransactionSettled
  | ReplayMismatch => Recovery.DoNotRetry
  | DraftRevisionConflict | MutationOutOfOrder => Recovery.InspectAuthoritativeState
  | NoChange => Recovery.SkipOrReviseEdit
  | Failed | Conflict => Recovery.InspectAuthoritativeState
  | OutcomeUnknown => Recovery.DoNotRetry
  end.

Definition safe_message (code : FileChangeErrorCode) : rstr :=
  match code with
  | InvalidArguments | UnknownField | IllegalFieldCombination => rs_utf8 "文件修改参数无效。"
  | ContentTooLarge => rs_utf8 "文件内容过大。"
  | WorkspaceRequired => rs_utf8 "当前没有 workspace；请使用绝对路径或系统路径别名。"
  | PermissionDenied => rs_utf8 "当前权限不允许修改此文件。"
  | ParentMissing => rs_utf8 "目标文件的父目录不存在。"
  | SymlinkForbidden => rs_utf8 "不允许通过符号链接修改文件。"
  | UnsupportedFileType => rs_utf8 "此文件类型需要使用专用工具。"
  | NotRegularFile | HardLinkForbidden => rs_utf8 "目标必须是安全的普通文件。"
  | FileExists => rs_utf8 "文件已存在。"
  | FileMissing => rs_utf8 "文件不存在。"
  | RevisionConflict => rs_utf8 "文件已发生变化，请重新读取后再修改。"
  | MatchNotFound => rs_utf8 "未找到要修改的准确内容。"
  | AmbiguousMatch => rs_utf8 "要修改的内容不唯一，请提供更精确的上下文。"
  | NoChange => rs_utf8 "修改后的内容与当前文件相同。"
  | ObservationRequired => rs_utf8 "修改前必须重新读取准确的目标文件。"
  | ObservationExpired => rs_utf8 "文件读取凭据已过期，请重新读取后再修改。"
  | ObservationOwnerMismatch => rs_utf8 "该文件读取凭据不属于当前任务，请重新读取。"
  | ObservationPathMismatch => rs_utf8 "文件读取路径与修改目标不一致，请重新读取准确路径。"
  | ObservationStale => rs_utf8 "文件在读取后已发生变化，请重新读取后再修改。"
  | TransactionNotFound => rs_utf8 "未找到文件修改事务。"
  | TransactionOwnerMismatch => rs_utf8 "该文件修改事务不属于当前任务。"
  | TransactionExpired => rs_utf8 "文件修改事务已过期。"
  | TransactionSettled => rs_utf8 "文件修改事务已结算，后续修改请开始新事务。"
  | DraftRevisionConflict => rs_utf8 "文件草稿已发生变化，请先查询当前状态。"
  | MutationOutOfOrder => rs_utf8 "文件草稿修改顺序不正确，请使用返回的 nextIndex。"
  | ReplayMismatch => rs_utf8 "重试的草稿修改与原请求不一致。"
  | Failed => rs_utf8 "文件修改失败。"
  | Conflict => rs_utf8 "文件修改发生冲突。"
  | OutcomeUnknown => rs_utf8 "无法确认文件修改结果，请先检查文件当前状态。"
  end.
End Codes.

(** An error is determined by its code and a diagnostic text for the log, which
    is not modelled: below, an error is its code. *)
Record FileChangeFailure := mkFileChangeFailure {
  failure_code : FileChangeErrorCode;
  failure_category : FileChangeErrorCategory;
  failure_message : rstr;
  failure_recovery : FileChangeRecovery
}.

(** [FileChangeError::new]. *)
Definition failure_of (code : FileChangeErrorCode) : FileChangeFailure :=
  mkFileChangeFailure code (category code) (safe_message code) (recovery code).

Abbreviation FileChangeResultValue := (result FileChangeErrorCode).
