(* ===== verification/FileChangeDigest.v ===== *)
(** * Digests and revisions of content

    [core/src/file_change/digest.rs] and [core/src/revision.rs].  SHA-256 is a
    third-party function: [sha256_hex] is the digest in hexadecimal.  The
    revision is the program's own pair of FNV-1a hashes. *)

From S2P Require Import Prelude RustText Json HumanInteraction.

(** ** Digests *)

Definition CONTENT_DOMAIN : list N := rs "mycopilot.file-change.content" ++ [0%N].
Definition DIFF_DOMAIN : list N := rs "mycopilot.file-change.diff" ++ [0%N].
Definition PROPOSAL_DOMAIN : list N := rs "mycopilot.file-change.proposal" ++ [0%N].
Definition DIGEST_PREFIX : rstr := rs "file-change-sha256-v1:".

(** [(len as u64).to_be_bytes()]. *)
Definition u64_be_bytes (n : N) : list N :=
  map (λ i, N.shiftr n (8 * i) mod 256)%N [7; 6; 5; 4; 3; 2; 1; 0]%N.

Section Digests.
Context (sha256_hex : list N → rstr).

Definition digest_bytes (domain value : list N) : rstr :=
  DIGEST_PREFIX ++ sha256_hex (domain ++ u64_be_bytes (N.of_nat (length value)) ++ value).

Definition content_digest (content : list N) : rstr := digest_bytes CONTENT_DOMAIN content.

Definition diff_digest (diff : rstr) : rstr := digest_bytes DIFF_DOMAIN (as_bytes diff).

(** Printing a JSON value does not fail. *)
Definition proposal_digest {json : JsonServices} (value : Value) : rstr :=
  digest_bytes PROPOSAL_DOMAIN (as_bytes (json_to_string value)).
End Digests.

(** [is_ascii_digit() || (b'a'..=b'f').contains(..)] of a digest's text. *)
Definition is_lower_hex_digit (c : char) : bool :=
  is_ascii_digit c || (97 <=? c)%N && (c <=? 102)%N.

Definition valid_digest (value : rstr) : bool :=
  is_some_and (strip_prefix_str DIGEST_PREFIX value) (λ digest,
    (byte_len digest =? 64) && forallb is_lower_hex_digit digest).

(** ** Content revisions *)

Definition FNV_OFFSET_BASIS : N := 0xcbf29ce484222325.
Definition FNV_PRIME : N := 0x100000001b3.

(** [ContentRevisionHasher::update_byte]: the product wraps at 64 bits. *)
Definition update_byte (state byte : N) : N :=
  ((N.lxor state byte * FNV_PRIME) mod 18446744073709551616)%N.

Definition update (state : N) (content : list N) : N := foldl update_byte state content.
Definition update_reversed (state : N) (content : list N) : N := foldl update_byte state (rev content).

Definition hex_digit (n : N) : char := if (n <? 10)%N then (48 + n)%N else (87 + n)%N.

(** [format!("{n:x}")]: sixteen digits hold a [u64]. *)
Fixpoint hex_digits (fuel : nat) (n : N) (tail : rstr) : rstr :=
  match fuel with
  | O => tail
  | S fuel =>
      let tail := hex_digit (n mod 16) :: tail in
      if (n / 16 =? 0)%N then tail else hex_digits fuel (n / 16) tail
  end.
Definition hex (n : N) : rstr := hex_digits 16 n [].

(** [format!("{n:016x}")]. *)
Definition hex16 (n : N) : rstr :=
  let digits := hex n in repeat 48%N (16 - length digits) ++ digits.

Definition compose_content_revision (length forward reverse : N) : rstr :=
  rs "v1-" ++ hex length ++ rs "-" ++ hex16 forward ++ hex16 reverse.

Definition content_revision (content : list N) : rstr :=
  compose_content_revision (N.min (N.of_nat (length content)) u64_max)
    (update FNV_OFFSET_BASIS content) (update_reversed FNV_OFFSET_BASIS content).

(** ** Facts *)

Lemma is_digest_valid sha256_hex domain value :
  (∀ input, length (sha256_hex input) = 64 ∧ forallb is_lower_hex_digit (sha256_hex input) = true) →
  valid_digest (digest_bytes sha256_hex domain value) = true.
Proof.
  intros H. unfold valid_digest, digest_bytes.
  set (digest := sha256_hex _). destruct (H (domain ++ u64_be_bytes (N.of_nat (length value)) ++ value)) as [Hl Hf].
  fold digest in Hl, Hf. rewrite (proj2 (strip_prefix_str_app DIGEST_PREFIX _ digest) eq_refl).
  cbn [is_some_and]. rewrite Hf, andb_true_r. apply Nat.eqb_eq. rewrite <- Hl. clear Hl.
  induction digest as [|c digest IH]; [done|]. cbn [forallb length] in *.
  apply andb_true_iff in Hf as [Hc Hf]. rewrite byte_len_cons, IH by done. f_equal.
  unfold is_lower_hex_digit, is_ascii_digit in Hc. unfold len_utf8.
  destruct (N.ltb_spec c 128) as [?|Hge]; [done|]. exfalso.
  apply orb_true_iff in Hc as [Hc|Hc]; apply andb_true_iff in Hc as [_ Hc]; apply N.leb_le in Hc; lia.
Qed.

(** The revision of a text is not blank. *)
Lemma content_revision_prefix content : ∃ rest, content_revision content = rs "v1-" ++ rest.
Proof. by eexists. Qed.

Example content_revision_of_hi :
  content_revision (as_bytes (rs "hi")) = rs "v1-2-08ba5f07b55ec3da08b73a07b55c4f24".
Proof. vm_compute. reflexivity. Qed.
