(* ===== verification/ApplyPatchWire.v ===== *)
(** * The wire contract of apply_patch

    [core/src/tools/apply_patch/schema.rs], the published schema, and
    [wire_contract.rs], the inspector that checks a request against it.

    The schema is a constant: the [expect]s of the inspector on its shape do not
    fail, and stand here as empty lists. *)

From stdpp Require Import pretty.
From S2P Require Import Prelude RustText Json FileChangeError.

Definition MAX_INLINE_CONTENT_BYTES : N := 32 * 1024.
Definition MAX_SUMMARY_CHARS : N := 2000.
Definition MAX_STAGED_CHUNK_BYTES : N := 1024 * 1024.
Definition MAX_ISSUES : nat := 16.

(** ** The schema *)

Definition text_value (s : string) : Value := String (rs s).
Arguments text_value s%_string_scope.
Definition texts (l : list string) : Value := Array (map (λ s, text_value s) l).
Arguments texts l%_string_scope.

(** [json!({ .. })] with the keys as written. *)
Definition obj (fields : list (string * Value)) : Value :=
  json_object (map (λ f, (rs (fst f), snd f)) fields).
Arguments obj fields%_string_scope.

Section Schema.
Local Open Scope string_scope.

Definition literal (values : list string) : Value :=
  obj [("type", text_value "string"); ("enum", texts values)].

(** An object with these properties and no others. *)
Definition closed_object (fields : list (string * Value)) (required : list string) : Value :=
  obj [("type", text_value "object"); ("properties", obj fields); ("required", texts required);
       ("additionalProperties", Bool false)].

Definition structured_edits_schema : Value :=
  obj [("type", text_value "array"); ("minItems", json_number 1); ("maxItems", json_number 128);
       ("description", text_value "Apply 1-128 edits in order using exact bytes: no trimming, normalization or fuzzy matching. replace requires one match unless replaceAll=true. Final size limit: Direct 240,000 UTF-8 bytes; Staged 4 MiB.");
       ("items", obj [("oneOf", Array [
          closed_object
            [("kind", literal ["replace"]);
             ("oldText", obj [("type", text_value "string"); ("minLength", json_number 1)]);
             ("newText", obj [("type", text_value "string")]);
             ("replaceAll", obj [("type", text_value "boolean")])]
            ["kind"; "oldText"; "newText"];
          closed_object
            [("kind", literal ["insert_before"]);
             ("anchor", obj [("type", text_value "string"); ("minLength", json_number 1)]);
             ("text", obj [("type", text_value "string")])]
            ["kind"; "anchor"; "text"];
          closed_object
            [("kind", literal ["insert_after"]);
             ("anchor", obj [("type", text_value "string"); ("minLength", json_number 1)]);
             ("text", obj [("type", text_value "string")])]
            ["kind"; "anchor"; "text"];
          closed_object
            [("kind", literal ["append"]); ("text", obj [("type", text_value "string")])]
            ["kind"; "text"];
          closed_object
            [("kind", literal ["prepend"]); ("text", obj [("type", text_value "string")])]
            ["kind"; "text"]])])].

Definition create_file_path : Value :=
  obj [("type", text_value "string"); ("minLength", json_number 1);
       ("description", text_value "New target path: workspace-relative, an authorized absolute path or system alias. No prior read required.")].
Definition observed_file_path : Value :=
  obj [("type", text_value "string"); ("minLength", json_number 1);
       ("description", text_value "Copy this target's exact fileChangeTarget.filePath from read_file or the latest successful apply/commit.")].
Definition observation_id : Value :=
  obj [("type", text_value "string"); ("minLength", json_number 1);
       ("description", text_value "Copy this target's exact fileChangeTarget.observationId from read_file or the latest successful apply/commit.")].
Definition transaction_id : Value :=
  obj [("type", text_value "string"); ("minLength", json_number 1);
       ("description", text_value "Exact Host transactionId from begin or status.")].
Definition index : Value :=
  obj [("type", text_value "integer"); ("minimum", json_number 0);
       ("description", text_value "Copy nextIndex from the latest successful mutation or status.")].
Definition draft_revision : Value :=
  obj [("type", text_value "integer"); ("minimum", json_number 0);
       ("description", text_value "Copy draftRevision from the latest successful mutation or status.")].
Definition summary : Value :=
  obj [("type", text_value "string"); ("maxLength", json_number MAX_SUMMARY_CHARS);
       ("description", text_value "Short human-readable change summary.")].

(** The eleven branches of a request. *)
Definition apply_create : Value :=
  closed_object
    [("action", literal ["apply"]); ("operation", literal ["create"]); ("filePath", create_file_path);
     ("content", obj [("type", text_value "string"); ("maxLength", json_number MAX_INLINE_CONTENT_BYTES);
        ("description", text_value "Complete Direct file content, at most 32 KiB (32,768 UTF-8 bytes). Empty content creates an empty file. JSON Schema maxLength counts characters; the Host additionally enforces the same numeric limit in UTF-8 bytes.")]);
     ("summary", summary)]
    ["action"; "operation"; "filePath"; "content"].
Definition apply_update_content : Value :=
  closed_object
    [("action", literal ["apply"]); ("operation", literal ["update"]); ("filePath", observed_file_path);
     ("observationId", observation_id);
     ("content", obj [("type", text_value "string"); ("maxLength", json_number MAX_INLINE_CONTENT_BYTES);
        ("description", text_value "Complete replacement content, at most 32 KiB (32,768 UTF-8 bytes). JSON Schema maxLength counts characters; the Host additionally enforces the same numeric limit in UTF-8 bytes. For larger complete replacements use begin/update with strategy=rewrite.")]);
     ("summary", summary)]
    ["action"; "operation"; "filePath"; "observationId"; "content"].
Definition apply_update_edits : Value :=
  closed_object
    [("action", literal ["apply"]); ("operation", literal ["update"]); ("filePath", observed_file_path);
     ("observationId", observation_id); ("edits", structured_edits_schema); ("summary", summary)]
    ["action"; "operation"; "filePath"; "observationId"; "edits"].
Definition apply_delete : Value :=
  closed_object
    [("action", literal ["apply"]); ("operation", literal ["delete"]); ("filePath", observed_file_path);
     ("observationId", observation_id); ("summary", summary)]
    ["action"; "operation"; "filePath"; "observationId"].
Definition begin_create : Value :=
  closed_object
    [("action", literal ["begin"]); ("operation", literal ["create"]); ("filePath", create_file_path)]
    ["action"; "operation"; "filePath"].
Definition begin_update : Value :=
  closed_object
    [("action", literal ["begin"]); ("operation", literal ["update"]); ("filePath", observed_file_path);
     ("observationId", observation_id);
     ("strategy", obj [("type", text_value "string"); ("enum", texts ["modify"; "rewrite"]);
        ("description", text_value "modify starts from observed content; rewrite starts from an empty draft.")])]
    ["action"; "operation"; "filePath"; "observationId"; "strategy"].
Definition append_chunk : Value :=
  closed_object
    [("action", literal ["append"]); ("transactionId", transaction_id); ("index", index);
     ("expectedDraftRevision", draft_revision);
     ("content", obj [("type", text_value "string"); ("minLength", json_number 1);
        ("maxLength", json_number MAX_STAGED_CHUNK_BYTES);
        ("description", text_value "One non-empty append chunk, at most 1 MiB (1,048,576 UTF-8 bytes). JSON Schema maxLength counts characters; the Host additionally enforces the same numeric limit in UTF-8 bytes. The complete transaction may not exceed 4 MiB.")])]
    ["action"; "transactionId"; "index"; "expectedDraftRevision"; "content"].
Definition edit_draft : Value :=
  closed_object
    [("action", literal ["edit"]); ("transactionId", transaction_id); ("index", index);
     ("expectedDraftRevision", draft_revision); ("edits", structured_edits_schema)]
    ["action"; "transactionId"; "index"; "expectedDraftRevision"; "edits"].
Definition commit_draft : Value :=
  closed_object
    [("action", literal ["commit"]); ("transactionId", transaction_id);
     ("expectedDraftRevision", draft_revision); ("summary", summary)]
    ["action"; "transactionId"; "expectedDraftRevision"].
Definition draft_status : Value :=
  closed_object [("action", literal ["status"]); ("transactionId", transaction_id)]
    ["action"; "transactionId"].
Definition abort_draft : Value :=
  closed_object [("action", literal ["abort"]); ("transactionId", transaction_id)]
    ["action"; "transactionId"].

Definition build_input_schema : Value :=
  closed_object
    [("request", obj [("description", text_value "Exactly one branch; no fields from other branches.");
        ("oneOf", Array [apply_create; apply_update_content; apply_update_edits; apply_delete;
           begin_create; begin_update; append_chunk; edit_draft; commit_draft; draft_status; abort_draft])])]
    ["request"].
End Schema.

(** [contract_schema]: the schema, built once. *)
Definition contract_schema : Value := build_input_schema.

(** ** Reading a schema *)

(** [value["key"]]: [Null] when there is none. *)
Definition at_key (key : string) (value : Value) : Value := default Null (value_get (rs key) value).
Arguments at_key key%_string_scope value.

Definition properties (schema : Value) : list (rstr * Value) :=
  default [] (as_object (at_key "properties" schema)).
Definition required (schema : Value) : list rstr :=
  omap as_str (default [] (as_array (at_key "required" schema))).
Definition branches (schema : Value) : list Value :=
  default [schema] (as_array (at_key "oneOf" schema)).

Definition has_value (values : list Value) (value : Value) : bool := existsb (value_eqb value) values.

Definition enum_of (field : Value) : list Value := default [] (as_array (at_key "enum" field)).

Definition enum_values (fields : list Value) : list Value :=
  foldl (λ allowed option, if has_value allowed option then allowed else allowed ++ [option]) []
    (fields ≫= enum_of).

(** The branches with these values of [action], [operation] and [kind]. *)
Definition narrow (matching : Value → bool) (selected : list Value) : list Value :=
  match List.filter matching selected with [] => selected | found => found end.

Definition narrow_literal (object : list (rstr * Value)) (selected : list Value) (key : string)
    : list Value :=
  match map_get (rs key) object with
  | Some (String value) =>
      narrow (λ schema, has_value (enum_of (at_key key (at_key "properties" schema))) (String value)) selected
  | _ => selected
  end.

Definition narrow_field (object : list (rstr * Value)) (selected : list Value) (key : string)
    : list Value :=
  if contains_key (rs key) object then
    if one_of (rs key) ["content"; "edits"] && contains_key (rs "content") object
       && contains_key (rs "edits") object
    then selected
    else narrow (λ schema, contains_key (rs key) (properties schema)) selected
  else selected.

Definition relevant_branches (all : list Value) (object : list (rstr * Value)) : list Value :=
  foldl (narrow_field object)
    (foldl (narrow_literal object) all ["action"; "operation"; "kind"]%string)
    ["edits"; "content"; "strategy"]%string.

(** ** Issues *)

Record WireIssue := mkIssue { issue_code : FileChange.FileChangeErrorCode; details : Value }.

Definition issue (code : FileChange.FileChangeErrorCode) (pointer : rstr) (reason message : string) (extra : Value)
    (issues : list WireIssue) : list WireIssue :=
  if MAX_ISSUES <=? length issues then issues
  else
    let fields := map_insert (rs "pointer") (String pointer)
      (map_insert (rs "reason") (text_value reason) (map_insert (rs "message") (text_value message) [])) in
    let fields := foldl (λ fields '(k, v), map_insert k v fields) fields (default [] (as_object extra)) in
    issues ++ [mkIssue code (Object fields)].
Arguments issue code pointer (reason message)%_string_scope extra issues.

Definition child_pointer (parent key : rstr) : rstr :=
  if (64 <? N.of_nat (byte_len key))%N
     || negb (is_some_and (head key) (λ c, is_ascii_alphabetic c || is_char "_" c))
     || negb (forallb (λ c, is_ascii_alphanumeric c || is_in "_-" c) key)
  then parent
  else parent ++ [ch "/"] ++ replace_char "/" (rs "~1") (replace_char "~" (rs "~0") key).

Definition type_name (value : Value) : string :=
  match value with
  | Null => "null" | Bool _ => "boolean" | Number _ => "number"
  | String _ => "string" | Array _ => "array" | Object _ => "object"
  end.

(** A loop that breaks when there are enough issues. *)
Definition for_each {A} (inspect : A → list WireIssue → list WireIssue) (l : list A)
    (issues : list WireIssue) : list WireIssue :=
  foldl (λ issues a, if MAX_ISSUES <=? length issues then issues else inspect a issues) issues l.

(** ** Scalars *)

Definition has_type (expected_type : rstr) (value : Value) : bool :=
  if is_str expected_type "string" then match value with String _ => true | _ => false end
  else if is_str expected_type "boolean" then match value with Bool _ => true | _ => false end
  else bool_decide (is_Some (as_u64 value)).

Definition inspect_length (field : Value) (text pointer key : rstr) (action : option rstr)
    (issues : list WireIssue) : list WireIssue :=
  let count := N.of_nat (length text) in
  let bytes := N.of_nat (byte_len text) in
  match as_u64 (at_key "maxLength" field) with
  | None => issues
  | Some max =>
      if is_str key "content" && (max <? bytes)%N then
        issue FileChange.ContentTooLarge pointer "utf8_byte_limit"
          (if is_some_and action (λ a, is_str a "append")
           then "This append was not executed. Split the content into smaller non-empty UTF-8 chunks. Keep the current transaction and copy its latest nextIndex/draftRevision; use status if those cursors are uncertain. Do not begin a new transaction."
           else "Content exceeds the UTF-8 byte limit. Character count is not byte count. Use the begin continuation to assemble larger Direct content in a staged transaction.")
          (obj [("actualBytes", json_number bytes); ("maxBytes", json_number max);
                ("actualCharacters", json_number count)]) issues
      else if (max <? count)%N then
        issue FileChange.InvalidArguments pointer "max_length" "String exceeds the character limit."
          (obj [("actualCharacters", json_number count); ("maxCharacters", json_number max)]) issues
      else issues
  end.

Definition inspect_text (field : Value) (text pointer key : rstr) (action : option rstr)
    (issues : list WireIssue) : list WireIssue :=
  let count := N.of_nat (length text) in
  let issues :=
    if one_of key ["filePath"; "observationId"; "transactionId"]
       && negb (bool_decide (text = [])) && bool_decide (trim text = [])
    then issue FileChange.InvalidArguments pointer "blank_string"
           "A file path or Host-issued identifier must not be blank." Null issues
    else issues in
  let issues :=
    if is_some_and (as_u64 (at_key "minLength" field)) (λ min, (count <? min)%N)
    then issue FileChange.InvalidArguments pointer "min_length" "This string must not be empty."
           (obj [("minCharacters", at_key "minLength" field); ("actualCharacters", json_number count)]) issues
    else issues in
  inspect_length field text pointer key action issues.

Definition inspect_scalar (value : Value) (fields : list Value) (pointer key : rstr)
    (action : option rstr) (issues : list WireIssue) : list WireIssue :=
  let field := default Null (head fields) in
  let expected_type := default [] (as_str (at_key "type" field)) in
  if negb (has_type expected_type value) then
    issue FileChange.InvalidArguments pointer "type"
      (if is_str expected_type "integer" then "Expected a nonnegative integer representable as u64."
       else "Value has the wrong type; null is not accepted.")
      (obj [("expectedType", String expected_type); ("actualType", text_value (type_name value))]) issues
  else
    let allowed := enum_values fields in
    let issues :=
      match allowed with
      | [] => issues
      | _ =>
          if has_value allowed value then issues
          else issue FileChange.IllegalFieldCombination pointer "enum" "Choose one of the allowed literal values."
                 (obj [("allowedValues", Array allowed)]) issues
      end in
    match value with
    | String text => inspect_text field text pointer key action issues
    | _ => issues
    end.

(** ** Objects *)

Definition in_properties (key : rstr) (schemas : list Value) : bool :=
  existsb (λ schema, contains_key key (properties schema)) schemas.

Definition inspect_key (all selected : list Value) (pointer key : rstr) (issues : list WireIssue)
    : list WireIssue :=
  let known := in_properties key all in
  if in_properties key selected then issues
  else
    let location := child_pointer pointer key in
    let message :=
      if bool_decide (pointer = [])
         && in_properties key (branches (at_key "request" (at_key "properties" contract_schema)))
      then "This field belongs inside /request; only request is allowed at the root."
      else if known then "This field is not allowed in the selected branch; remove it or explicitly choose the intended branch."
      else "Unknown field. Use the exact field names in expectedShape." in
    issue (if known then FileChange.IllegalFieldCombination else FileChange.UnknownField) location
      (if known then "illegal_field" else "unknown_field") message Null issues.

Definition missing_message (key : rstr) : string :=
  if is_str key "filePath" then "Missing filePath. For update/delete, copy fileChangeTarget.filePath from read_file or the latest successful write."
  else if is_str key "observationId" then "Missing observationId. Copy the same target's fileChangeTarget.observationId; never invent it. Read the file if no current observation is available."
  else if is_str key "transactionId" then "Missing transactionId. Copy the exact Host transactionId from begin or status."
  else if is_str key "index" then "Missing index. Copy nextIndex from the latest successful mutation or status."
  else if is_str key "expectedDraftRevision" then "Missing expectedDraftRevision. Copy draftRevision from the latest successful mutation or status."
  else "Required field is missing. Supply it explicitly using expectedShape.".

Definition fields_of (key : rstr) (selected : list Value) : list Value :=
  omap (λ schema, map_get key (properties schema)) selected.

Definition inspect_required (object : list (rstr * Value)) (selected : list Value) (pointer : rstr)
    (issues : list WireIssue) (key : rstr) : list WireIssue :=
  if forallb (λ schema, existsb (str_eqb key) (required schema)) selected
     && negb (contains_key key object)
  then
    let allowed := enum_values (fields_of key selected) in
    issue
      (if bool_decide (pointer = []) || one_of key ["action"; "kind"] then FileChange.InvalidArguments
       else FileChange.IllegalFieldCombination)
      (child_pointer pointer key) "missing_field" (missing_message key)
      (match allowed with [] => Null | _ => obj [("allowedValues", Array allowed)] end) issues
  else issues.

(** Both alternatives of an update are still selected. *)
Definition is_update_choice (selected : list Value) : bool :=
  (1 <? length selected)
  && forallb (λ schema,
       value_eqb (at_key "enum" (at_key "action" (at_key "properties" schema))) (texts ["apply"])
       && value_eqb (at_key "enum" (at_key "operation" (at_key "properties" schema))) (texts ["update"]))
       selected
  && in_properties (rs "content") selected
  && in_properties (rs "edits") selected.

Section Nested.
(** The inspector for an object inside this one. *)
Variable inspect_nested : Value → list Value → rstr → list WireIssue → list WireIssue.

Definition inspect_edits (value field : Value) (location : rstr) (issues : list WireIssue)
    : list WireIssue :=
  match value with
  | Array edits =>
      let min := default 0%N (as_u64 (at_key "minItems" field)) in
      let max := default 0%N (as_u64 (at_key "maxItems" field)) in
      let count := N.of_nat (length edits) in
      let issues :=
        if (count <? min)%N || (max <? count)%N
        then issue FileChange.InvalidArguments location "item_count" "Edit count is outside the allowed range."
               (obj [("actualItems", json_number count); ("minItems", json_number min);
                     ("maxItems", json_number max)]) issues
        else issues in
      let edit_branches := branches (at_key "items" field) in
      for_each (λ '(index, edit),
          inspect_nested edit edit_branches (location ++ [ch "/"] ++ rs (pretty (index : N))))
        (imap (λ index edit, (N.of_nat index, edit)) (take (N.to_nat max) edits)) issues
  | _ =>
      issue FileChange.InvalidArguments location "type" "Expected an array of edits."
        (obj [("expectedType", text_value "array"); ("actualType", text_value (type_name value))]) issues
  end.

Definition inspect_field (object : list (rstr * Value)) (selected : list Value) (pointer : rstr)
    (entry : rstr * Value) (issues : list WireIssue) : list WireIssue :=
  let '(key, value) := entry in
  match fields_of key selected with
  | [] => issues
  | (field :: _) as fields =>
      let location := child_pointer pointer key in
      if is_str key "request" && bool_decide (pointer = [])
      then inspect_nested value (branches field) location issues
      else if is_str key "edits" && is_str pointer "/request"
      then inspect_edits value field location issues
      else
        inspect_scalar value fields location key (map_get (rs "action") object ≫= as_str) issues
  end.
End Nested.

(** An object is inspected inside at most two others: fuel 3 suffices. *)
Fixpoint inspect_object (fuel : nat) (value : Value) (all : list Value) (pointer : rstr)
    (issues : list WireIssue) : list WireIssue :=
  match fuel with
  | O => issues
  | S fuel =>
      match value with
      | Object object =>
          let selected := relevant_branches all object in
          let issues := for_each (inspect_key all selected pointer) (map fst object) issues in
          let issues :=
            foldl (inspect_required object selected pointer) issues
              (required (default Null (head selected))) in
          let issues :=
            if is_update_choice selected
            then issue FileChange.IllegalFieldCombination pointer "exclusive_fields"
                   "An apply/update request requires exactly one of content or edits."
                   (obj [("exactlyOneOf", texts ["content"; "edits"])]) issues
            else issues in
          for_each (inspect_field (inspect_object fuel) object selected pointer) object issues
      | _ =>
          issue FileChange.InvalidArguments pointer "type" "Expected an object."
            (obj [("expectedType", text_value "object"); ("actualType", text_value (type_name value))]) issues
      end
  end.

Definition inspect (value : Value) : list WireIssue :=
  inspect_object 3 value [contract_schema] [] [].

(** ** Requests *)

Definition validate_wire_shape (value : Value) : result FileChange.FileChangeErrorCode () :=
  match inspect value with issue :: _ => Err (issue_code issue) | [] => Ok () end.

Definition apply_patch_wire_is_valid (value : Value) : bool :=
  match validate_wire_shape value with Ok _ => true | Err _ => false end.

Definition apply_patch_request (value : Value) : option (list (rstr * Value)) :=
  fields ← as_object value; request ← map_get (rs "request") fields; as_object request.

Definition apply_patch_action (value : Value) : option rstr :=
  fields ← apply_patch_request value; action ← map_get (rs "action") fields; as_str action.

(** ** The shape a rejected request is told to have *)

Definition strings (l : list rstr) : Value := Array (map String l).

Definition shape (schema : Value) : Value :=
  let allowed := map fst (properties schema) in
  let optional := List.filter (λ key, negb (existsb (str_eqb key) (required schema))) allowed in
  obj [("requiredFields", strings (required schema)); ("optionalFields", strings optional);
       ("allowedFields", strings allowed)].

Definition property_enum (key : string) (schema : Value) : list Value :=
  enum_of (default Null (map_get (rs key) (properties schema))).
Arguments property_enum key%_string_scope schema.

Definition branch_choices (branches : list Value) : Value :=
  let choices key :=
    foldl (λ values option, if has_value values option then values else values ++ [option]) []
      (branches ≫= property_enum key) in
  obj [("allowedActions", Array (choices "action"%string));
       ("allowedOperations", Array (choices "operation"%string));
       ("instruction", text_value "Choose action and operation explicitly from the intended change; missing content does not imply delete.")].

(** Only the kinds of edits that were attempted. *)
Definition edit_shapes (edits_schema : Value) (edits : list Value) : list (rstr * Value) :=
  foldl (λ shapes edit,
    match value_get (rs "kind") edit ≫= as_str with
    | None => shapes
    | Some kind =>
        foldl (λ shapes branch,
          if value_eqb (at_key "enum" (at_key "kind" (at_key "properties" branch))) (Array [String kind])
          then map_insert kind (shape branch) shapes else shapes)
          shapes (branches (at_key "items" edits_schema))
    end) [] (take 128 edits).

Definition request_shape (branch : Value) (request : list (rstr * Value)) : Value :=
  let fields := default [] (as_object (shape branch)) in
  let fields :=
    foldl (λ fields key,
      match property_enum key branch with
      | value :: _ => map_insert (rs key) value fields
      | [] => fields
      end) fields ["action"; "operation"]%string in
  let fields :=
    match map_get (rs "content") (properties branch) with
    | Some content =>
        map_insert (rs "contentLimit")
          (obj [("maxBytes", at_key "maxLength" content); ("encoding", text_value "UTF-8");
                ("schemaMaxLengthCounts", text_value "characters")]) fields
    | None => fields
    end in
  let fields :=
    match map_get (rs "edits") (properties branch) with
    | Some edits_schema =>
        match edit_shapes edits_schema (default [] (map_get (rs "edits") request ≫= as_array)) with
        | [] => fields
        | shapes => map_insert (rs "editShapes") (Object shapes) fields
        end
    | None => fields
    end in
  Object fields.

Definition expected_shape (value : Value) : Value :=
  let all := branches (at_key "request" (at_key "properties" contract_schema)) in
  let request :=
    match apply_patch_request value with
    | None => branch_choices all
    | Some request =>
        match relevant_branches all request with
        | [branch] => request_shape branch request
        | selected => branch_choices selected
        end
    end in
  obj [("root", shape contract_schema); ("request", request)].
