(* ===== verification/ApplyPatchBranches.v ===== *)
(** * The published schema of apply_patch

    A reader of the JSON Schema vocabulary that the published schema uses,
    written without the inspector, and the lemmas that lead from one to the
    other.  [integer] is read as a number that [serde_json] reads as a [u64]: one
    written otherwise, or beyond it, is a float there, and the draft of JSON Schema
    would count some of those as integers.

    After that: the branches of the apply_patch schema. *)

From stdpp Require Import pretty.
From S2P Require Import Prelude RustText Json ApplyPatchWire.

(** ** The vocabulary *)

Definition has_json_type (type : rstr) (value : Value) : bool :=
  if is_str type "object" then bool_decide (is_Some (as_object value))
  else if is_str type "array" then bool_decide (is_Some (as_array value))
  else if is_str type "string" then match value with String _ => true | _ => false end
  else if is_str type "boolean" then match value with Bool _ => true | _ => false end
  else bool_decide (is_Some (as_u64 value)).

Definition at_least (min : option N) (n : N) : bool :=
  match min with Some min => (min <=? n)%N | None => true end.
Definition at_most (max : option N) (n : N) : bool :=
  match max with Some max => (n <=? max)%N | None => true end.

Definition number_at (key : string) (schema : Value) : option N := as_u64 (at_key key schema).
Arguments number_at key%_string_scope schema.

Definition enum_allows (schema value : Value) : bool :=
  match as_array (at_key "enum" schema) with Some allowed => has_value allowed value | None => true end.

(** A value against a schema; the fuel is the depth of the schema. *)
Fixpoint conforms (fuel : nat) (schema value : Value) : bool :=
  match fuel with
  | O => false
  | S fuel =>
      match as_array (at_key "oneOf" schema) with
      | Some options => length (List.filter (λ option, conforms fuel option value) options) =? 1
      | None =>
          match as_str (at_key "type" schema) with
          | Some type => has_json_type type value
          | None => true
          end
          && enum_allows schema value
          && match value with
             | String text =>
                 at_least (number_at "minLength" schema) (N.of_nat (length text))
                 && at_most (number_at "maxLength" schema) (N.of_nat (length text))
             | Number _ => at_least (number_at "minimum" schema) (default 0%N (as_u64 value))
             | Array items =>
                 at_least (number_at "minItems" schema) (N.of_nat (length items))
                 && at_most (number_at "maxItems" schema) (N.of_nat (length items))
                 && forallb (conforms fuel (at_key "items" schema)) items
             | Object fields =>
                 forallb (λ key, contains_key key fields) (required schema)
                 && forallb (λ '(key, value),
                      match map_get key (properties schema) with
                      | Some field => conforms fuel field value
                      | None => negb (value_eqb (at_key "additionalProperties" schema) (Bool false))
                      end) fields
             | Null | Bool _ => true
             end
      end
  end.

(** What the description of the schema adds: the limit of content counts bytes,
    and the path and the identifiers are not blank. *)
Definition content_limit (request : list (rstr * Value)) : N :=
  if is_some_and (map_get (rs "action") request ≫= as_str) (λ a, is_str a "append")
  then MAX_STAGED_CHUNK_BYTES else MAX_INLINE_CONTENT_BYTES.

Definition within_host_limits (request : list (rstr * Value)) : Prop :=
  ∀ key text, (key, String text) ∈ request →
    (key = rs "content" → (N.of_nat (byte_len text) <= content_limit request)%N)
    ∧ (one_of key ["filePath"; "observationId"; "transactionId"] = true → is_blank text = false).

(** ** Issues

    An inspector adds no issue exactly when what it looks for is right. *)

Definition checks (inspect : list WireIssue → list WireIssue) (ok : Prop) : Prop :=
  ∀ issues, inspect issues = [] ↔ issues = [] ∧ ok.

Lemma checks_issue code pointer reason message extra :
  checks (issue code pointer reason message extra) False.
Proof.
  intros issues. split; [|tauto]. unfold issue. destruct (_ <=? _) eqn:E.
  - intros ->. discriminate E.
  - by intros []%app_eq_nil.
Qed.

Lemma checks_iff inspect ok ok' : (ok ↔ ok') → checks inspect ok → checks inspect ok'.
Proof. intros E H issues. by rewrite (H issues), E. Qed.

#[export] Instance checks_proper : Proper (eq ==> iff ==> iff) checks.
Proof. intros f _ <- ok ok' E. by split; apply checks_iff. Qed.

(** An issue under a condition. *)
Lemma issue_unless (b : bool) code pointer reason message extra issues :
  (if b then issue code pointer reason message extra issues else issues) = [] ↔ issues = [] ∧ b = false.
Proof. destruct b; [rewrite (checks_issue _ _ _ _ _ issues)|]; intuition discriminate. Qed.

Lemma foldl_nil {A} (inspect : list WireIssue → A → list WireIssue) (ok : A → Prop) l issues :
  (∀ a, a ∈ l → checks (λ issues, inspect issues a) (ok a)) →
  foldl inspect issues l = [] ↔ issues = [] ∧ Forall ok l.
Proof.
  revert issues. induction l as [|a l IH]; intros issues H; cbn [foldl].
  - rewrite Forall_nil. tauto.
  - rewrite IH by (intros b Hb; apply H; by right).
    pose proof (H a ltac:(by left) issues) as E. cbv beta in E. rewrite E, Forall_cons. tauto.
Qed.

Lemma for_each_nil {A} (inspect : A → list WireIssue → list WireIssue) (ok : A → Prop) l issues :
  (∀ a, a ∈ l → checks (inspect a) (ok a)) → for_each inspect l issues = [] ↔ issues = [] ∧ Forall ok l.
Proof.
  intros H. apply foldl_nil. intros a Ha l'. destruct (_ <=? _) eqn:E; [|by apply H].
  split; [intros ->; discriminate E|]. intros [-> _]. discriminate E.
Qed.

(** ** Selected branches *)

(** What the selection sees of an object. *)
Definition literal_at (key : string) (object : list (rstr * Value)) : option rstr :=
  map_get (rs key) object ≫= as_str.
Arguments literal_at key%_string_scope object.

Definition select_literal (literal : option rstr) (selected : list Value) (key : string) : list Value :=
  match literal with
  | Some value =>
      narrow (λ schema, has_value (enum_of (at_key key (at_key "properties" schema))) (String value)) selected
  | None => selected
  end.
Arguments select_literal literal selected key%_string_scope.

Definition select_field (has blocked : bool) (selected : list Value) (key : string) : list Value :=
  if has && negb blocked then narrow (λ schema, contains_key (rs key) (properties schema)) selected
  else selected.
Arguments select_field has blocked selected key%_string_scope.

Definition select_fields (edits content strategy : bool) (selected : list Value) : list Value :=
  let both := edits && content in
  let selected := select_field edits both selected "edits" in
  let selected := select_field content both selected "content" in
  select_field strategy false selected "strategy".

Definition select_literals (action operation kind : option rstr) (selected : list Value) : list Value :=
  let selected := select_literal action selected "action" in
  let selected := select_literal operation selected "operation" in
  select_literal kind selected "kind".

Lemma narrow_literal_select object selected key :
  narrow_literal object selected key = select_literal (literal_at key object) selected key.
Proof. unfold narrow_literal, literal_at. by destruct (map_get (rs key) object) as [[]|]. Qed.

Lemma relevant_select all object :
  relevant_branches all object =
  select_fields (contains_key (rs "edits") object) (contains_key (rs "content") object)
    (contains_key (rs "strategy") object)
    (select_literals (literal_at "action" object) (literal_at "operation" object)
       (literal_at "kind" object) all).
Proof.
  unfold relevant_branches, select_literals. cbn [foldl]. rewrite !narrow_literal_select.
  set (selected := select_literal _ _ _). unfold select_fields, select_field, narrow_field.
  change (one_of (rs "edits") ["content"; "edits"]) with true.
  change (one_of (rs "content") ["content"; "edits"]) with true.
  change (one_of (rs "strategy") ["content"; "edits"]) with false.
  by destruct (contains_key (rs "edits") object), (contains_key (rs "content") object),
    (contains_key (rs "strategy") object).
Qed.

(** Narrowing keeps some of the branches. *)
Definition some_of (selected all : list Value) : Prop := selected ≠ [] ∧ selected ⊆ all.

Lemma narrow_some matching selected all : some_of selected all → some_of (narrow matching selected) all.
Proof.
  intros [Hne Hsub]. unfold narrow. destruct (List.filter matching selected) as [|b found] eqn:E; [done|].
  split; [done|]. intros x Hx. apply Hsub. rewrite <-E in Hx.
  apply list_elem_of_In, filter_In in Hx as [Hx _]. by apply list_elem_of_In.
Qed.

Lemma select_literal_some literal selected all key :
  some_of selected all → some_of (select_literal literal selected key) all.
Proof. destruct literal; [apply narrow_some|done]. Qed.

Lemma select_field_some has blocked selected all key :
  some_of selected all → some_of (select_field has blocked selected key) all.
Proof. unfold select_field. destruct (_ && _); [apply narrow_some|done]. Qed.

Lemma select_fields_some edits content strategy selected all :
  some_of selected all → some_of (select_fields edits content strategy selected) all.
Proof. intros H. unfold select_fields. by do 3 apply select_field_some. Qed.

(** A field that no branch of a list lists as a literal does not narrow it. *)
Lemma select_literal_none literal selected key :
  Forall (λ schema, enum_of (at_key key (at_key "properties" schema)) = []) selected →
  select_literal literal selected key = selected.
Proof.
  intros H. destruct literal as [value|]; [|done]. cbn. unfold narrow.
  assert (List.filter (λ schema, has_value (enum_of (at_key key (at_key "properties" schema))) (String value))
    selected = []) as ->; [|done].
  induction H as [|b selected Hb _ IH]; [done|]. cbn [List.filter]. by rewrite Hb, IH.
Qed.

Lemma select_literal_single literal b key : select_literal literal [b] key = [b].
Proof. destruct literal; [|done]. cbn. unfold narrow. cbn. by destruct (has_value _ _). Qed.

Lemma select_field_single has blocked b key : select_field has blocked [b] key = [b].
Proof. unfold select_field, narrow. destruct (_ && _); [|done]. cbn [List.filter]. by destruct (contains_key _ _). Qed.

Lemma select_fields_single edits content strategy b : select_fields edits content strategy [b] = [b].
Proof. unfold select_fields. by rewrite !select_field_single. Qed.

Lemma relevant_single b object : relevant_branches [b] object = [b].
Proof. rewrite relevant_select. unfold select_literals. by rewrite !select_literal_single, select_fields_single. Qed.

(** ** Scalars *)

Lemma has_value_app l l' v : has_value (l ++ l') v = has_value l v || has_value l' v.
Proof. unfold has_value. by rewrite existsb_app. Qed.

Lemma has_value_elem l v : has_value l v = true ↔ v ∈ l.
Proof.
  unfold has_value. rewrite existsb_true. split.
  - by intros (w & Hw & <-%value_eqb_eq).
  - intros H. exists v. by rewrite value_eqb_eq.
Qed.

(** Collecting without repetitions. *)
Lemma collected_elem options acc v :
  v ∈ foldl (λ allowed option, if has_value allowed option then allowed else allowed ++ [option]) acc options
  ↔ v ∈ acc ∨ v ∈ options.
Proof.
  revert acc. induction options as [|o options IH]; intros acc; cbn [foldl].
  - split; [by left|]. intros [H|H]; [done|]. by apply elem_of_nil in H.
  - rewrite IH, elem_of_cons. destruct (has_value acc o) eqn:E.
    + apply has_value_elem in E. split; [tauto|]. intros [H|[->|H]]; tauto.
    + rewrite elem_of_app, list_elem_of_singleton. tauto.
Qed.

Lemma enum_values_elem fields v : v ∈ enum_values fields ↔ ∃ field, field ∈ fields ∧ v ∈ enum_of field.
Proof.
  unfold enum_values. rewrite collected_elem, list_elem_of_bind. split.
  - intros [H|(field & ? & ?)]; [by apply elem_of_nil in H|by exists field].
  - intros (field & ? & ?). right. by exists field.
Qed.

Definition is_host_id (key : rstr) : bool := one_of key ["filePath"; "observationId"; "transactionId"].

(** What the inspector asks of a text beyond its schema. *)
Definition host_text (field : Value) (key text : rstr) : Prop :=
  (is_host_id key = true → text ≠ [] → is_blank text = false)
  ∧ (key = rs "content" → at_most (number_at "maxLength" field) (N.of_nat (byte_len text)) = true).

Definition text_fits (field : Value) (text : rstr) : Prop :=
  at_least (number_at "minLength" field) (N.of_nat (length text)) = true
  ∧ at_most (number_at "maxLength" field) (N.of_nat (length text)) = true.

Lemma length_checks field text pointer key action :
  checks (inspect_length field text pointer key action)
    (at_most (number_at "maxLength" field) (N.of_nat (length text)) = true
     ∧ (key = rs "content" → at_most (number_at "maxLength" field) (N.of_nat (byte_len text)) = true)).
Proof.
  intros issues. unfold inspect_length. fold (number_at "maxLength" field).
  destruct (number_at "maxLength" field) as [max|]; cbn [at_most]; [|tauto].
  rewrite <-is_str_eq. destruct (is_str key "content") eqn:Ek, (max <? N.of_nat (byte_len text))%N eqn:Eb,
    (max <? N.of_nat (length text))%N eqn:El; cbn [andb]; rewrite ?N.leb_antisym, ?Eb, ?El; cbn [negb];
    rewrite ?(checks_issue _ _ _ _ _ issues); intuition (try discriminate; auto).
Qed.

Lemma text_checks field text pointer key action :
  checks (inspect_text field text pointer key action) (text_fits field text ∧ host_text field key text).
Proof.
  intros issues. unfold inspect_text. rewrite (length_checks field text pointer key action _), !issue_unless.
  fold (is_host_id key). fold (number_at "minLength" field).
  unfold text_fits, host_text, is_blank.
  destruct (number_at "minLength" field) as [min|]; cbn [at_least is_some_and];
    rewrite ?N.ltb_ge, ?N.leb_le;
    destruct (is_host_id key), (bool_decide_reflect (text = [])), (bool_decide_reflect (trim text = []));
    cbn [andb negb]; intuition (try discriminate; try congruence).
Qed.

Definition type_of (field : Value) : rstr := default [] (as_str (at_key "type" field)).

Lemma scalar_checks value field fields pointer key action :
  checks (inspect_scalar value (field :: fields) pointer key action)
    (has_type (type_of field) value = true
     ∧ (enum_values (field :: fields) = [] ∨ value ∈ enum_values (field :: fields))
     ∧ (∀ text, value = String text → text_fits field text ∧ host_text field key text)).
Proof.
  intros issues. unfold inspect_scalar. cbn [head default from_option id]. fold (type_of field).
  destruct (has_type (type_of field) value) eqn:Et; cbn [negb];
    [|rewrite (checks_issue _ _ _ _ _ issues); intuition discriminate].
  set (checked := match enum_values (field :: fields) with [] => issues | _ => _ end).
  assert (checked = [] ↔ issues = []
    ∧ (enum_values (field :: fields) = [] ∨ value ∈ enum_values (field :: fields))) as Hc.
  { subst checked. rewrite <-has_value_elem. destruct (enum_values (field :: fields)) as [|v allowed] eqn:E; [tauto|].
    destruct (has_value _ value); [tauto|]. rewrite (checks_issue _ _ _ _ _ issues). intuition discriminate. }
  destruct value as [| | |text| |]; try (rewrite Hc; intuition discriminate).
  rewrite (text_checks field text pointer key action checked), Hc. split.
  - intros [[? ?] ?]. split_and!; try done. by intros t [= <-].
  - intros (? & _ & ? & H). specialize (H text eq_refl). tauto.
Qed.

(** The scalar fields of the published schema. *)
Definition is_scalar (field : Value) : bool :=
  bool_decide (as_array (at_key "oneOf" field) = None)
  && bool_decide (is_Some (as_str (at_key "type" field)))
  && one_of (type_of field) ["string"; "boolean"; "integer"]
  && match as_array (at_key "enum" field) with Some [] => false | _ => true end
  && at_least (number_at "minimum" field) 0.

#[export] Instance value_eq_dec : EqDecision Value.
Proof. intros v w. destruct (value_eqb v w) eqn:E; [left|right]; rewrite <-value_eqb_eq; congruence. Defined.

Lemma at_least_le min n m : (n <= m)%N → at_least min n = true → at_least min m = true.
Proof. destruct min; cbn; [|done]. rewrite !N.leb_le. lia. Qed.

Lemma scalar_conforms value field pointer key action :
  is_scalar field = true →
  checks (inspect_scalar value [field] pointer key action)
    (conforms 1 field value = true ∧ (∀ text, value = String text → host_text field key text)).
Proof.
  intros Hs. eapply checks_iff; [|apply scalar_checks]. unfold is_scalar in Hs.
  rewrite !andb_true_iff, !bool_decide_eq_true in Hs. destruct Hs as ((((Hone & [type Ht]) & Htype) & Henum) & Hmin).
  unfold type_of in *. cbn [conforms]. rewrite Hone, Ht in *. cbn [default from_option id] in *.
  rewrite !andb_true_iff. unfold enum_allows.
  assert (enum_values [field] = [] ∨ value ∈ enum_values [field] ↔
    match as_array (at_key "enum" field) with Some allowed => has_value allowed value | None => true end = true) as ->.
  { assert (∀ v, v ∈ enum_values [field] ↔ v ∈ enum_of field) as H.
    { intros v. rewrite enum_values_elem. setoid_rewrite list_elem_of_singleton. naive_solver. }
    rewrite H. unfold enum_of in H. unfold enum_of.
    destruct (as_array (at_key "enum" field)) as [[|a allowed]|] eqn:E; cbn [default from_option id] in *; [done| |].
    - rewrite has_value_elem. split; [|by right]. intros [E'|?]; [|done].
      specialize (H a). rewrite E' in H. assert (a ∈ []) as []%elem_of_nil. apply H. by left.
    - split; [done|]. intros _. left. destruct (enum_values [field]) as [|v l]; [done|].
      assert (v ∈ []) as []%elem_of_nil. apply H. by left. }
  apply one_of_elem in Htype as (lit & Hlit & ->). unfold has_json_type.
  assert (is_str (rs lit) "object" = false ∧ is_str (rs lit) "array" = false
    ∧ (∀ v, has_type (rs lit) v = true → as_array v = None ∧ as_object v = None)) as (-> & -> & Hflat).
  { repeat (apply elem_of_cons in Hlit as [->|Hlit]);
      [split_and!; [done..|by intros []]..|by apply elem_of_nil in Hlit]. }
  match goal with |- context [if is_str (rs lit) "string" then ?a else ?b] =>
    change (if is_str (rs lit) "string" then a else b) with (has_type (rs lit) value) end.
  destruct (has_type (rs lit) value) eqn:Ev; [|intuition discriminate].
  destruct (Hflat _ Ev) as [Harr Hobj]. destruct value as [| |number|text| |]; try done;
    [intuition discriminate..| |].
  - assert (at_least (number_at "minimum" field) (default 0%N (as_u64 (Number number))) = true) as ->.
    { eapply at_least_le; [|exact Hmin]. lia. }
    intuition discriminate.
  - assert (at_least (number_at "minLength" field) (N.of_nat (length text))
        && at_most (number_at "maxLength" field) (N.of_nat (length text)) = true ↔ text_fits field text) as ->
      by apply andb_true_iff. split.
    + intros (_ & He & H). destruct (H text eq_refl). split_and!; try done. by intros t [= <-].
    + intros (((_ & He) & H) & Hh). split_and!; try done. intros t [= <-]. split; [done|by apply Hh].
Qed.

(** ** Objects *)

Lemma checks_self inspect ok : checks inspect ok → checks inspect (inspect [] = []).
Proof. intros H issues. rewrite (H issues), (H []). tauto. Qed.

Lemma key_checks all selected pointer key :
  checks (inspect_key all selected pointer key) (in_properties key selected = true).
Proof.
  intros issues. unfold inspect_key. destruct (in_properties key selected); [tauto|].
  rewrite (checks_issue _ _ _ _ _ issues). intuition discriminate.
Qed.

Definition required_by_all (key : rstr) (selected : list Value) : bool :=
  forallb (λ schema, existsb (str_eqb key) (required schema)) selected.

Lemma required_checks object selected pointer key :
  checks (λ issues, inspect_required object selected pointer issues key)
    (required_by_all key selected = true → contains_key key object = true).
Proof.
  intros issues. unfold inspect_required. fold (required_by_all key selected). cbv zeta. rewrite issue_unless.
  destruct (required_by_all key selected), (contains_key key object); cbn; intuition discriminate.
Qed.

Definition edits_range (field : Value) (edits : list Value) : Prop :=
  (default 0 (number_at "minItems" field) <= N.of_nat (length edits)
   <= default 0 (number_at "maxItems" field))%N.

Section Objects.
Variable inspect_nested : Value → list Value → rstr → list WireIssue → list WireIssue.

(** What is right for an edit at its place. *)
Lemma edits_checks (ok : Value → rstr → Prop) value field location :
  (∀ edit pointer, checks (inspect_nested edit (branches (at_key "items" field)) pointer) (ok edit pointer)) →
  checks (inspect_edits inspect_nested value field location)
    match value with
    | Array edits =>
        edits_range field edits
        ∧ Forall (λ '(index, edit), ok edit (location ++ [ch "/"] ++ rs (pretty (index : N))))
            (imap (λ index edit, (N.of_nat index, edit)) edits)
    | _ => False
    end.
Proof.
  intros Hok issues. destruct value as [| | | |edits|]; cbn [inspect_edits];
    try (rewrite (checks_issue _ _ _ _ _ issues); tauto).
  fold (number_at "minItems" field) (number_at "maxItems" field). cbv zeta.
  rewrite (for_each_nil _ (λ '(index, edit), ok edit (location ++ [ch "/"] ++ rs (pretty (index : N)))))
    by (intros [index edit] _; apply Hok).
  rewrite issue_unless, orb_false_iff, !N.ltb_ge. unfold edits_range.
  assert (∀ n, (N.of_nat (length edits) <= n)%N → take (N.to_nat n) edits = edits) as Htake
    by (intros; apply take_ge; lia).
  split.
  - intros [(? & ? & Hmax) Hall]. rewrite (Htake _ Hmax) in Hall. by split_and!.
  - intros (? & [? Hmax] & Hall). rewrite (Htake _ Hmax). by split_and!.
Qed.

Lemma field_self object selected pointer entry :
  (∀ value all pointer, checks (inspect_nested value all pointer) (inspect_nested value all pointer [] = [])) →
  checks (inspect_field inspect_nested object selected pointer entry)
    (inspect_field inspect_nested object selected pointer entry [] = []).
Proof.
  intros Hn. destruct entry as [key value]. unfold inspect_field.
  destruct (fields_of key selected) as [|field fields]; [by intros issues; split; [intros ->|intros [-> _]]|]. cbv zeta.
  destruct (_ && _); [apply Hn|]. destruct (_ && _); [|eapply checks_self, scalar_checks].
  eapply checks_self, (edits_checks (λ edit pointer, inspect_nested edit _ pointer [] = [])). intros. apply Hn.
Qed.
End Objects.

Lemma object_checks fuel object all pointer (ok : rstr * Value → Prop) :
  let selected := relevant_branches all object in
  (∀ entry, entry ∈ object →
     checks (inspect_field (inspect_object fuel) object selected pointer entry) (ok entry)) →
  checks (inspect_object (S fuel) (Object object) all pointer)
    (Forall (λ key, in_properties key selected = true) (map fst object)
     ∧ Forall (λ key, required_by_all key selected = true → contains_key key object = true)
         (required (default Null (head selected)))
     ∧ is_update_choice selected = false
     ∧ Forall ok object).
Proof.
  intros selected Hok issues. cbn [inspect_object]. fold selected. cbv zeta.
  rewrite (for_each_nil _ ok) by done. rewrite issue_unless.
  rewrite (foldl_nil _ (λ key, required_by_all key selected = true → contains_key key object = true))
    by (intros; apply required_checks).
  rewrite (for_each_nil _ (λ key, in_properties key selected = true)) by (intros; apply key_checks).
  tauto.
Qed.

Lemma object_self fuel value all pointer :
  checks (inspect_object fuel value all pointer) (inspect_object fuel value all pointer [] = []).
Proof.
  revert value all pointer. induction fuel as [|fuel IH]; intros value all pointer; [intros issues; cbn; tauto|].
  destruct value as [| | | | |object];
    try (eapply checks_self, checks_issue).
  eapply checks_self, object_checks. intros entry _. by apply field_self.
Qed.

(** * The branches of the apply_patch schema

    A request, or an edit, that the inspector accepts selects one branch, and one
    that conforms to a branch selects that one. *)

(** ** Closed objects *)

Definition is_closed (schema : Value) : bool :=
  bool_decide (as_array (at_key "oneOf" schema) = None)
  && bool_decide (as_str (at_key "type" schema) = Some (rs "object"))
  && bool_decide (as_array (at_key "enum" schema) = None)
  && value_eqb (at_key "additionalProperties" schema) (Bool false).

(** An object with the required fields of a branch and no others than its own. *)
Definition object_conforms (ok : Value → Value → Prop) (b : Value) (object : list (rstr * Value)) : Prop :=
  Forall (λ key, contains_key key object = true) (required b)
  ∧ Forall (λ entry, ∃ field, map_get (fst entry) (properties b) = Some field ∧ ok field (snd entry)) object.

Lemma closed_conforms fuel b value :
  is_closed b = true →
  conforms (S fuel) b value = true
  ↔ ∃ object, value = Object object ∧ object_conforms (λ field v, conforms fuel field v = true) b object.
Proof.
  unfold is_closed. rewrite !andb_true_iff, !bool_decide_eq_true, value_eqb_eq. intros [[[Hone Ht] He] Ha].
  cbn [conforms]. unfold enum_allows. rewrite Hone, Ht, He, Ha.
  destruct value as [| | | | |object]; try (split; [discriminate|by intros (? & [=] & _)]).
  change (has_json_type (rs "object") (Object object)) with true. change (value_eqb (Bool false) (Bool false)) with true.
  cbn [andb negb]. rewrite andb_true_iff, !forallb_true. unfold object_conforms. split.
  - intros [Hr Hf]. exists object. rewrite !Forall_forall. split_and!; try done. intros [key v] Hin. specialize (Hf _ Hin). cbn in *.
    destruct (map_get key (properties b)) as [field|]; [|done]. by exists field.
  - intros (o & [= <-] & Hr & Hf). rewrite Forall_forall in Hr. rewrite Forall_forall in Hf. split; [done|]. intros [key v] Hin. specialize (Hf _ Hin). cbn in *.
    by destruct Hf as (field & -> & ?).
Qed.

Lemma property_at key b field :
  map_get (rs key) (properties b) = Some field → at_key key (at_key "properties" b) = field.
Proof.
  unfold properties. intros H. destruct (at_key "properties" b); try done. cbn in H.
  unfold at_key. cbn [value_get]. by rewrite H.
Qed.

(** ** One branch *)

Lemma single_checks fuel object all b pointer (ok : rstr → Value → Value → Prop) :
  relevant_branches all object = [b] →
  (∀ key field value, (key, value) ∈ object → map_get key (properties b) = Some field →
     checks (inspect_field (inspect_object fuel) object [b] pointer (key, value)) (ok key field value)) →
  checks (inspect_object (S fuel) (Object object) all pointer)
    (Forall (λ key, contains_key key object = true) (required b)
     ∧ Forall (λ entry, ∃ field, map_get (fst entry) (properties b) = Some field
                                 ∧ ok (fst entry) field (snd entry)) object).
Proof.
  intros Hs Hok. eapply checks_iff;
    [|apply (object_checks _ _ _ _ (λ entry, ∀ field, map_get (fst entry) (properties b) = Some field →
                                                ok (fst entry) field (snd entry)))].
  - rewrite Hs. cbn [head default from_option id]. rewrite !Forall_forall. split.
    + intros (Hk & Hr & _ & Hf). split.
      * intros key Hkey. apply Hr; [done|]. unfold required_by_all. cbn [forallb]. rewrite andb_true_r, existsb_true.
        exists key. by rewrite str_eqb_eq.
      * intros [key v] Hin. specialize (Hk key (list_elem_of_fmap_2 fst _ _ Hin)).
        unfold in_properties in Hk. cbn [existsb] in Hk. rewrite orb_false_r in Hk.
        apply bool_decide_eq_true in Hk as [field Hfield]. exists field. split; [done|]. by apply (Hf _ Hin).
    + intros [Hr Hf]. split_and!; [|by intros key Hkey _; apply Hr|done|].
      * intros key (entry & -> & Hin)%list_elem_of_fmap. destruct (Hf _ Hin) as (field & Hfield & _).
        unfold in_properties. cbn [existsb]. rewrite orb_false_r. apply bool_decide_eq_true. by exists field.
      * intros entry Hin field Hfield. destruct (Hf _ Hin) as (field' & Hfield' & Hv). congruence.
  - intros [key v] Hin. rewrite Hs. cbn [fst snd].
    destruct (map_get key (properties b)) as [field|] eqn:E.
    + eapply checks_iff; [|by apply Hok]. split; [|auto]. by intros H f [= <-].
    + intros issues. unfold inspect_field, fields_of. cbn [omap list_omap]. rewrite E. cbn. intuition discriminate.
Qed.

(** ** Literals *)

(** Every branch of a list requires this text and lists its values. *)
Definition is_literal_key (key : string) (b : Value) : bool :=
  existsb (str_eqb (rs key)) (required b)
  && match map_get (rs key) (properties b) with
     | Some field => is_str (type_of field) "string" && negb (bool_decide (enum_of field = []))
     | None => false
     end.
Arguments is_literal_key key%_string_scope b.

Definition is_nested_key (key : rstr) : bool := one_of key ["request"; "edits"].

Lemma literal_forced key fuel object all pointer :
  inspect_object (S fuel) (Object object) all pointer [] = [] →
  is_nested_key (rs key) = false →
  relevant_branches all object ≠ [] →
  Forall (λ b, is_literal_key key b = true) (relevant_branches all object) →
  ∃ s b, literal_at key object = Some s ∧ b ∈ relevant_branches all object
         ∧ String s ∈ enum_of (at_key key (at_key "properties" b)).
Proof.
  intros Hi Hkey Hne Hall.
  pose proof (object_checks fuel object all pointer
    (λ entry, inspect_field (inspect_object fuel) object (relevant_branches all object) pointer entry [] = [])
    (λ entry _, field_self _ _ _ _ _ (object_self fuel)) []) as Hc. rewrite Hc in Hi.
  destruct Hi as (_ & _ & Hr & _ & Hf). clear Hc.
  set (selected := relevant_branches all object) in *. destruct selected as [|b0 rest] eqn:Esel; [done|].
  assert (Forall (λ b, ∃ field, map_get (rs key) (properties b) = Some field ∧ type_of field = rs "string"
    ∧ enum_of field ≠ []) (b0 :: rest)) as Hfields.
  { eapply Forall_impl; [exact Hall|]. intros b. unfold is_literal_key. rewrite andb_true_iff. intros [_ H].
    destruct (map_get (rs key) (properties b)) as [field|]; [|done]. exists field.
    rewrite andb_true_iff, negb_true_iff, bool_decide_eq_false, is_str_eq in H. tauto. }
  assert (contains_key (rs key) object = true) as [value Hv]%bool_decide_eq_true.
  { rewrite Forall_forall in Hr. apply Hr.
    - pose proof (Forall_inv Hall) as H. unfold is_literal_key in H. apply andb_true_iff in H as [H _].
      apply existsb_true in H as (k & Hk & <-%str_eqb_eq). done.
    - apply forallb_true. intros b Hb. rewrite Forall_forall in Hall. specialize (Hall _ Hb).
      unfold is_literal_key in Hall. by apply andb_true_iff in Hall as [? _]. }
  rewrite Forall_forall in Hf. specialize (Hf _ (map_get_elem _ _ _ Hv)). unfold inspect_field in Hf.
  destruct (Forall_inv Hfields) as (field & Hfield & Htype & Henum).
  assert (∃ fields, fields_of (rs key) (b0 :: rest) = field :: fields) as [fields Efields].
  { unfold fields_of. cbn [omap list_omap]. rewrite Hfield. by eexists. }
  rewrite Efields in Hf. unfold is_nested_key, one_of in Hkey. cbn [existsb] in Hkey.
  rewrite !orb_false_iff in Hkey. destruct Hkey as (Hk1 & Hk2 & _). rewrite Hk1, Hk2 in Hf. cbn [andb] in Hf.
  apply scalar_checks in Hf as (_ & Ht & He & _). rewrite Htype in Ht.
  destruct value as [| | |s| |]; try discriminate Ht.
  destruct He as [He|He].
  { exfalso. destruct (enum_of field) as [|v l] eqn:El; [done|]. assert (v ∈ enum_values (field :: fields)) as Hin.
    { apply enum_values_elem. exists field. split; [by left|]. rewrite El. by left. }
    rewrite He in Hin. by apply elem_of_nil in Hin. }
  apply enum_values_elem in He as (f & Hin & Hs). rewrite <-Efields in Hin.
  apply list_elem_of_omap in Hin as (b & Hb & Hfb). exists s, b. split_and!; [|done|].
  - unfold literal_at. by rewrite Hv.
  - by rewrite (property_at _ _ _ Hfb).
Qed.

(** ** Families of branches *)

(** The literal that a branch wants in a field. *)
Definition wanted (key : string) (b : Value) : option rstr :=
  match map_get (rs key) (properties b) with
  | Some field => head (enum_of field) ≫= as_str
  | None => None
  end.
Arguments wanted key%_string_scope b.

Definition has_property (key : string) (b : Value) : bool := contains_key (rs key) (properties b).
Arguments has_property key%_string_scope b.

Definition requires_its (b : Value) (key : string) : bool :=
  negb (has_property key b) || existsb (str_eqb (rs key)) (required b).

Definition single_literal (b : Value) (key : string) : bool :=
  match map_get (rs key) (properties b) with
  | None => true
  | Some field =>
      match as_array (at_key "enum" field) with Some [String _] => is_scalar field | _ => false end
  end.

(** Closed branches, told apart by their literals and by the presence of fields. *)
Definition told_apart (all : list Value) (b : Value) : bool :=
  is_closed b
  && forallb (requires_its b) ["action"; "operation"; "kind"; "edits"; "content"; "strategy"]%string
  && forallb (single_literal b) ["action"; "operation"; "kind"]%string
  && bool_decide (select_fields (has_property "edits" b) (has_property "content" b) (has_property "strategy" b)
       (select_literals (wanted "action" b) (wanted "operation" b) (wanted "kind" b) all) = [b]).

Section Conforming.
Context (ok : Value → Value → Prop) (b : Value) (object : list (rstr * Value)).
Hypothesis conforming : object_conforms ok b object.

Lemma conforming_contains key :
  requires_its b key = true → contains_key (rs key) object = has_property key b.
Proof.
  destruct conforming as [Hr Hf]. rewrite Forall_forall in Hr. rewrite Forall_forall in Hf. unfold requires_its.
  rewrite orb_true_iff, negb_true_iff, existsb_true. intros [Hno|(k & Hk & <-%str_eqb_eq)].
  - rewrite Hno. apply bool_decide_eq_false. intros [v Hv]. destruct (Hf _ (map_get_elem _ _ _ Hv)) as (field & E & _).
    cbn in E. unfold has_property, contains_key in Hno. apply bool_decide_eq_false in Hno. apply Hno. by exists field.
  - rewrite (Hr _ Hk). symmetry. apply bool_decide_eq_true. specialize (Hr _ Hk).
    apply bool_decide_eq_true in Hr as [v Hv]. destruct (Hf _ (map_get_elem _ _ _ Hv)) as (field & E & _). by exists field.
Qed.

Lemma conforming_literal key :
  (∀ field v, is_scalar field = true → ok field v → enum_allows field v = true) →
  requires_its b key = true → single_literal b key = true → literal_at key object = wanted key b.
Proof.
  intros Hok Hreq Hone. pose proof (conforming_contains key Hreq) as Hc. unfold has_property, contains_key in Hc.
  unfold literal_at, wanted. unfold single_literal in Hone.
  destruct (map_get (rs key) object) as [v|] eqn:Ev, (map_get (rs key) (properties b)) as [field|] eqn:Ef;
    [|discriminate Hc..|done].
  destruct conforming as [_ Hf]. rewrite Forall_forall in Hf.
  destruct (Hf _ (map_get_elem _ _ _ Ev)) as (field' & E & Hv). cbn [fst snd] in *.
  assert (field' = field) as -> by congruence.
  assert (enum_allows field v = true) as Ha.
  { apply Hok; [|done]. by destruct (as_array (at_key "enum" field)) as [[|[| | |lit| |] [|]]|]. }
  unfold enum_allows in Ha. unfold enum_of.
  destruct (as_array (at_key "enum" field)) as [[|[| | |lit| |] [|]]|]; try done.
  apply has_value_elem, list_elem_of_singleton in Ha as ->. done.
Qed.

Lemma conforming_selects all :
  (∀ field v, is_scalar field = true → ok field v → enum_allows field v = true) →
  told_apart all b = true → relevant_branches all object = [b].
Proof.
  intros Hok Ha. unfold told_apart in Ha. rewrite !andb_true_iff, bool_decide_eq_true, !forallb_true in Ha.
  destruct Ha as [[[_ Hreq] Hone] Hsel]. rewrite relevant_select.
  by rewrite !conforming_contains, !conforming_literal by
    (first [exact Hok | apply Hreq | apply Hone]; repeat (first [by left | right])).
Qed.
End Conforming.

(** What a branch lists for a field is one of these names. *)
Lemma listed_name (key : string) names all b s :
  forallb (λ b, forallb (λ v, existsb (λ name, value_eqb v (String (rs name))) names)
                  (enum_of (at_key key (at_key "properties" b)))) all = true →
  b ∈ all → String s ∈ enum_of (at_key key (at_key "properties" b)) → ∃ name, name ∈ names ∧ s = rs name.
Proof.
  intros H Hb Hs. rewrite forallb_true in H. specialize (H _ Hb). cbv beta in H. rewrite forallb_true in H.
  specialize (H _ Hs). cbv beta in H. apply existsb_true in H as (name & Hn & [= ->]%value_eqb_eq). by exists name.
Qed.

Lemma Forall_some_of (p : Value → bool) selected all :
  some_of selected all → forallb p all = true → Forall (λ b, p b = true) selected.
Proof. intros [_ Hsub] H. rewrite forallb_true in H. apply Forall_forall. intros b Hb. by apply H, Hsub. Qed.

(** ** Requests and edits *)

Definition request_branches : list Value :=
  [apply_create; apply_update_content; apply_update_edits; apply_delete; begin_create; begin_update;
   append_chunk; edit_draft; commit_draft; draft_status; abort_draft].

Definition edit_branches : list Value := branches (at_key "items" structured_edits_schema).

Lemma request_told_apart : forallb (told_apart request_branches) request_branches = true.
Proof. vm_compute. reflexivity. Qed.

Lemma edit_told_apart : forallb (told_apart edit_branches) edit_branches = true.
Proof. vm_compute. reflexivity. Qed.

Lemma some_of_refl all : all ≠ [] → some_of all all.
Proof. by split. Qed.

(** An accepted object has one of these names in a field that every branch requires. *)
Lemma literal_accepted (key : string) (names : list string) fuel object all part pointer :
  inspect_object (S fuel) (Object object) all pointer [] = [] →
  is_nested_key (rs key) = false →
  some_of (relevant_branches all object) part →
  forallb (is_literal_key key) part = true →
  forallb (λ b, forallb (λ v, existsb (λ name, value_eqb v (String (rs name))) names)
                  (enum_of (at_key key (at_key "properties" b)))) part = true →
  ∃ name, name ∈ names ∧ literal_at key object = Some (rs name).
Proof.
  intros Hi Hk Hp Hl Hn. pose proof Hp as [Hne Hsub].
  destruct (literal_forced key fuel object all pointer Hi Hk Hne) as (s & b & Hs & Hb & He);
    [by eapply Forall_some_of|].
  destruct (listed_name key names part b s Hn (Hsub _ Hb) He) as (name & Hname & ->). by exists name.
Qed.

Lemma relevant_some all object : all ≠ [] → some_of (relevant_branches all object) all.
Proof.
  intros H. rewrite relevant_select. unfold select_literals.
  by apply select_fields_some; do 3 apply select_literal_some; apply some_of_refl.
Qed.

Lemma kind_irrelevant literal selected :
  selected ⊆ request_branches → select_literal literal selected "kind" = selected.
Proof.
  intros H. apply select_literal_none, Forall_forall. intros b Hb%H.
  assert (forallb (λ b, bool_decide (enum_of (at_key "kind" (at_key "properties" b)) = [])) request_branches = true)
    as Hall by (vm_compute; reflexivity).
  rewrite forallb_true in Hall. specialize (Hall _ Hb). by apply bool_decide_eq_true in Hall.
Qed.

(** The names of the actions, and the branches each leaves. *)
Definition action_names : list string :=
  ["apply"; "begin"; "append"; "edit"; "commit"; "status"; "abort"].
Definition operation_names : list string := ["create"; "update"; "delete"].

Definition of_action (name : string) : list Value :=
  select_literal (Some (rs name)) request_branches "action".
Definition of_operation (name operation : string) : list Value :=
  select_literal (Some (rs operation)) (of_action name) "operation".

Lemma of_action_part name : some_of (of_action name) request_branches.
Proof. by apply select_literal_some, some_of_refl. Qed.

(** Once the action, and the operation if it has one, are settled, an object that
    is not an update with both payloads or none has one branch. *)
Lemma settled_select edits content strategy selected :
  length selected = 1 ∨ selected = [apply_update_content; apply_update_edits] →
  is_update_choice (select_fields edits content strategy selected) = false →
  ∃ b, select_fields edits content strategy selected = [b].
Proof.
  intros [H| ->] Hc.
  - destruct selected as [|b []]; try discriminate H. exists b. apply select_fields_single.
  - destruct edits, content, strategy; try (vm_compute in Hc; discriminate Hc);
      [exists apply_update_edits|exists apply_update_edits|exists apply_update_content|exists apply_update_content];
      vm_compute; reflexivity.
Qed.

(** The branches that an action without operations leaves, and those of each operation. *)
Lemma of_action_single name :
  name ∈ ["append"; "edit"; "commit"; "status"; "abort"]%string → length (of_action name) = 1.
Proof. intros H. repeat (apply elem_of_cons in H as [->|H]; [vm_compute; reflexivity|]). by apply elem_of_nil in H. Qed.

Lemma of_operation_settled name operation :
  (name, operation) ∈ [("apply", "create"); ("apply", "update"); ("apply", "delete");
                       ("begin", "create"); ("begin", "update")]%string →
  (length (of_operation name operation) = 1 ∨ of_operation name operation = [apply_update_content; apply_update_edits])
  ∧ of_operation name operation ⊆ request_branches.
Proof.
  intros H. split; [|by apply select_literal_some, of_action_part].
  apply elem_of_cons in H as [[= -> -> ]|H]; [left; vm_compute; reflexivity|].
  apply elem_of_cons in H as [[= -> -> ]|H]; [right; vm_compute; reflexivity|].
  repeat (apply elem_of_cons in H as [[= -> -> ]|H]; [left; vm_compute; reflexivity|]). by apply elem_of_nil in H.
Qed.

Section Accepted.
Context (fuel : nat) (object : list (rstr * Value)) (pointer : rstr).
Hypothesis accepted : inspect_object (S fuel) (Object object) request_branches pointer [] = [].

Lemma accepted_action :
  ∃ name, name ∈ action_names ∧ literal_at "action" object = Some (rs name)
          ∧ some_of (relevant_branches request_branches object) (of_action name).
Proof.
  destruct (literal_accepted "action" action_names _ _ _ request_branches _ accepted) as (name & Hname & Ha);
    [reflexivity|by apply relevant_some|vm_compute; reflexivity..|].
  exists name. split_and!; [done..|]. rewrite relevant_select, Ha. unfold select_literals. fold (of_action name).
  apply select_fields_some; do 2 apply select_literal_some. by apply some_of_refl, (of_action_part name).
Qed.

(** What the action and the operation leave. *)
Lemma accepted_settled name :
  name ∈ action_names → some_of (relevant_branches request_branches object) (of_action name) →
  let selected := select_literal (literal_at "operation" object) (of_action name) "operation" in
  (length selected = 1 ∨ selected = [apply_update_content; apply_update_edits])
  ∧ selected ⊆ request_branches.
Proof.
  intros Hname Hpart.
  assert (∀ operations, forallb (is_literal_key "operation") (of_action name) = true →
    forallb (λ b, forallb (λ v, existsb (λ operation, value_eqb v (String (rs operation))) operations)
                    (enum_of (at_key "operation" (at_key "properties" b)))) (of_action name) = true →
    ∃ operation, operation ∈ operations ∧ literal_at "operation" object = Some (rs operation)) as Hop.
  { intros operations Hl Hn. by apply (literal_accepted "operation" operations _ _ _ (of_action name) _ accepted). }
  assert (name ∈ ["append"; "edit"; "commit"; "status"; "abort"]%string ∨ name = "apply"%string ∨ name = "begin"%string)
    as [Hsingle|[->| ->]].
  { unfold action_names in Hname. apply elem_of_cons in Hname as [->|Hname]; [by right; left|].
    apply elem_of_cons in Hname as [->|Hname]; [by right; right|by left]. }
  - cbv zeta. pose proof (of_action_single _ Hsingle) as H. destruct (of_action_part name) as [_ Hsub].
    destruct (of_action name) as [|b []]; try discriminate H. rewrite select_literal_single. by split; [left|].
  - destruct (Hop ["create"; "update"; "delete"]%string) as (operation & Hin & ->); [vm_compute; reflexivity..|].
    apply of_operation_settled.
    repeat (apply elem_of_cons in Hin as [->|Hin]; [repeat (first [by left|right])|]). by apply elem_of_nil in Hin.
  - destruct (Hop ["create"; "update"]%string) as (operation & Hin & ->); [vm_compute; reflexivity..|].
    apply of_operation_settled.
    repeat (apply elem_of_cons in Hin as [->|Hin]; [repeat (first [by left|right])|]). by apply elem_of_nil in Hin.
Qed.

Lemma request_accepted :
  ∃ b, b ∈ request_branches ∧ relevant_branches request_branches object = [b].
Proof.
  destruct accepted_action as (name & Hname & Ha & Hpart).
  destruct (accepted_settled name Hname Hpart) as [Hlen Hsub].
  assert (is_update_choice (relevant_branches request_branches object) = false) as Hc.
  { by apply (object_checks fuel object request_branches pointer _
      (λ entry _, field_self _ _ _ _ _ (object_self fuel)) []) in accepted as (_ & _ & _ & ? & _). }
  assert (relevant_branches request_branches object
    = select_fields (contains_key (rs "edits") object) (contains_key (rs "content") object)
        (contains_key (rs "strategy") object)
        (select_literal (literal_at "operation" object) (of_action name) "operation")) as E.
  { rewrite relevant_select, Ha. unfold select_literals. fold (of_action name). by rewrite (kind_irrelevant _ _ Hsub). }
  rewrite E in Hc, Hpart |- *. destruct (settled_select _ _ _ _ Hlen Hc) as [b Hb]. rewrite Hb in Hpart |- *.
  exists b. split; [|done]. apply (of_action_part name), Hpart. by left.
Qed.
End Accepted.

(** An edit has the branch of its kind. *)
Definition kind_names : list string := ["replace"; "insert_before"; "insert_after"; "append"; "prepend"].

Lemma edit_literals_irrelevant (key : string) literal :
  key = "action"%string ∨ key = "operation"%string → select_literal literal edit_branches key = edit_branches.
Proof.
  intros H. apply select_literal_none, Forall_forall. intros b Hb.
  assert (forallb (λ b, forallb (λ key, bool_decide (enum_of (at_key key (at_key "properties" b)) = []))
    ["action"; "operation"]%string) edit_branches = true) as Hall by (vm_compute; reflexivity).
  rewrite forallb_true in Hall. specialize (Hall _ Hb). cbv beta in Hall. rewrite forallb_true in Hall.
  assert (key ∈ ["action"; "operation"]%string) as Hkey%Hall by (destruct H as [->| ->]; [by left|by right; left]).
  by apply bool_decide_eq_true in Hkey.
Qed.

Lemma edit_accepted fuel object pointer :
  inspect_object (S fuel) (Object object) edit_branches pointer [] = [] →
  ∃ b, b ∈ edit_branches ∧ relevant_branches edit_branches object = [b].
Proof.
  intros Hi. pose proof (relevant_some edit_branches object ltac:(discriminate)) as Hsome.
  destruct (literal_accepted "kind" kind_names _ _ _ edit_branches _ Hi) as (name & Hname & Hk);
    [reflexivity|done|vm_compute; reflexivity..|].
  rewrite relevant_select, Hk in Hsome |- *. unfold select_literals in Hsome |- *.
  rewrite !edit_literals_irrelevant in Hsome |- * by auto.
  assert (length (select_literal (Some (rs name)) edit_branches "kind") = 1) as Hlen.
  { repeat (apply elem_of_cons in Hname as [->|Hname]; [vm_compute; reflexivity|]). by apply elem_of_nil in Hname. }
  destruct (select_literal (Some (rs name)) edit_branches "kind") as [|b []]; try discriminate Hlen.
  rewrite select_fields_single in Hsome |- *. exists b. split; [|done]. apply Hsome. by left.
Qed.
