(* ===== verification/ApplyPatchClaims.v ===== *)
(** * Properties of the wire contract of apply_patch *)

From S2P Require Import Prelude RustText Json ApplyPatchWire ApplyPatchBranches.

(** ** Exactly one branch *)

Lemma filter_single {A} (p : A → bool) (l : list A) :
  NoDup l → (∀ x y, x ∈ l → y ∈ l → p x = true → p y = true → x = y) →
  length (List.filter p l) = 1 ↔ ∃ x, x ∈ l ∧ p x = true.
Proof.
  intros Hnd Hp. split.
  - intros H. destruct (List.filter p l) as [|x rest] eqn:E; [discriminate H|].
    assert (x ∈ List.filter p l) as Hx by (rewrite E; by left).
    apply list_elem_of_In, filter_In in Hx as [Hx Hpx]. apply list_elem_of_In in Hx. by exists x.
  - intros (x & Hx & Hpx). apply list_elem_of_split in Hx as (before & after & ->).
    assert (∀ y, y ∈ before ∨ y ∈ after → p y = false) as Hno.
    { intros y Hy. destruct (p y) eqn:E; [|done]. apply NoDup_app in Hnd as (_ & Hd & [Hn _]%NoDup_cons).
      assert (y = x) as ->; [apply Hp; set_solver|]. destruct Hy as [Hy|Hy]; [|done]. exfalso. apply (Hd x Hy). by left. }
    assert (∀ l, (∀ y, y ∈ l → p y = false) → List.filter p l = []) as Hnil.
    { clear. induction l as [|y l IH]; intros H; [done|]. cbn [List.filter].
      rewrite (H y ltac:(by left)). apply IH. intros z Hz. apply H. by right. }
    rewrite List.filter_app. cbn [List.filter]. rewrite Hpx, !Hnil by auto. done.
Qed.

Section Family.
Context (all : list Value) (fuel depth : nat) (pointer : rstr) (extra : Value → rstr → Value → Prop).
Hypothesis apart : forallb (told_apart all) all = true.
Hypothesis distinct : NoDup all.
Hypothesis accepted_single : ∀ object,
  inspect_object (S fuel) (Object object) all pointer [] = [] →
  ∃ b, b ∈ all ∧ relevant_branches all object = [b].
Hypothesis fields_checked : ∀ object b key field value,
  b ∈ all → map_get key (properties b) = Some field →
  checks (inspect_field (inspect_object fuel) object [b] pointer (key, value))
    (conforms (S depth) field value = true ∧ extra field key value).

Lemma told_apart_elem b : b ∈ all → told_apart all b = true ∧ is_closed b = true.
Proof.
  intros Hb. rewrite forallb_true in apart. specialize (apart _ Hb). split; [done|].
  unfold told_apart in apart. rewrite !andb_true_iff in apart. tauto.
Qed.

Lemma scalar_enum field value :
  is_scalar field = true → conforms (S depth) field value = true → enum_allows field value = true.
Proof.
  unfold is_scalar. rewrite !andb_true_iff, bool_decide_eq_true. intros ((((Hone & _) & _) & _) & _).
  cbn [conforms]. rewrite Hone, !andb_true_iff. tauto.
Qed.

Lemma conforming_branch object b :
  b ∈ all → conforms (S (S depth)) b (Object object) = true → relevant_branches all object = [b].
Proof.
  intros Hb H. destruct (told_apart_elem b Hb) as [Ha Hc]. apply closed_conforms in H as (o & [= <-] & H); [|done].
  eapply conforming_selects; [exact H|apply scalar_enum|done].
Qed.

(** What the inspector accepts conforms to exactly one branch. *)
Lemma family_checks value :
  checks (inspect_object (S fuel) value all pointer)
    (length (List.filter (λ b, conforms (S (S depth)) b value) all) = 1
     ∧ ∀ object b, value = Object object → b ∈ all → conforms (S (S depth)) b value = true →
         Forall (λ entry, ∃ field, map_get (fst entry) (properties b) = Some field
                                   ∧ extra field (fst entry) (snd entry)) object).
Proof.
  assert ((∀ object, value ≠ Object object) ∨ ∃ object, value = Object object) as [Hno|[object ->]]
    by (destruct value; [by left..|right; by eexists]).
  { apply (checks_iff _ False).
    - split; [done|]. intros [H _]. destruct (List.filter _ all) as [|b rest] eqn:E; [discriminate H|].
      assert (b ∈ List.filter (λ b, conforms (S (S depth)) b value) all) as Hb by (rewrite E; by left).
      apply list_elem_of_In, filter_In in Hb as [Hb Hc]. apply list_elem_of_In in Hb.
      apply closed_conforms in Hc as (o & -> & _); [by apply (Hno o)|by apply told_apart_elem].
    - destruct value; try apply checks_issue. by destruct (Hno fields). }
  rewrite filter_single; [|done|].
  2: { intros b b' Hb Hb' H H'. apply conforming_branch in H, H'; [congruence|done..]. }
  assert (∀ b, b ∈ all → relevant_branches all object = [b] →
    checks (inspect_object (S fuel) (Object object) all pointer)
      (conforms (S (S depth)) b (Object object) = true
       ∧ Forall (λ entry, ∃ field, map_get (fst entry) (properties b) = Some field
                                   ∧ extra field (fst entry) (snd entry)) object)) as Hsingle.
  { intros b Hb Hs. eapply checks_iff; [|apply (single_checks fuel object all b pointer
      (λ key field value, conforms (S depth) field value = true ∧ extra field key value)); [done|]; by auto].
    destruct (told_apart_elem b Hb) as [_ Hc]. rewrite (closed_conforms _ _ _ Hc). unfold object_conforms.
    split.
    - intros [Hr Hf]. split; [exists object; split_and!|]; try done; eapply Forall_impl; try exact Hf;
        intros entry (field & ? & ? & ?); by exists field.
    - intros ((o & [= <-] & Hr & Hf) & He). split; [done|]. rewrite Forall_forall in Hf. rewrite Forall_forall in He.
      apply Forall_forall. intros entry Hin. destruct (Hf _ Hin) as (field & Hfield & ?), (He _ Hin) as (field' & ? & ?).
      exists field. assert (field' = field) as -> by congruence. done. }
  intros issues. split.
  - intros H. pose proof (object_self (S fuel) (Object object) all pointer issues) as Hself.
    apply Hself in H as [-> H]. split; [done|].
    destruct (accepted_single object H) as (b & Hb & Hs). apply (Hsingle b Hb Hs []) in H as (_ & Hc & He).
    split; [by exists b|]. intros o b' [= <-] Hb' Hc'. apply conforming_branch in Hc'; [|done].
    by assert (b' = b) as -> by congruence.
  - intros (-> & (b & Hb & Hc) & He). apply (Hsingle b Hb (conforming_branch _ _ Hb Hc)).
    split_and!; [done..|]. by apply (He object b).
Qed.
End Family.

(** ** Edits *)

Definition edits_items : Value := at_key "items" structured_edits_schema.

Lemma edit_fields_scalar :
  forallb (λ b, forallb (λ f, is_scalar (snd f) && negb (is_nested_key (fst f)) && negb (is_host_id (fst f))
                              && negb (is_str (fst f) "content"))
                  (properties b)) edit_branches = true.
Proof. vm_compute. reflexivity. Qed.

Lemma property_elem key b field : map_get key (properties b) = Some field → (key, field) ∈ properties b.
Proof. apply map_get_elem. Qed.

Lemma scalar_depth depth field value :
  is_scalar field = true → conforms (S depth) field value = conforms 1 field value.
Proof.
  unfold is_scalar. rewrite !andb_true_iff, !bool_decide_eq_true. intros ((((Hone & [type Ht]) & Htype) & _) & _).
  unfold type_of in Htype. cbn [conforms]. rewrite Hone, Ht in *. cbn [default from_option id] in Htype.
  destruct value as [| | | |items|fields]; try done;
    apply one_of_elem in Htype as (lit & Hlit & ->);
    repeat (apply elem_of_cons in Hlit as [->|Hlit]; [done|]); by apply elem_of_nil in Hlit.
Qed.

Lemma edit_checks edit pointer :
  checks (inspect_object 1 edit edit_branches pointer) (conforms 3 edits_items edit = true).
Proof.
  assert (conforms 3 edits_items edit = (length (List.filter (λ b, conforms 2 b edit) edit_branches) =? 1)) as ->
    by reflexivity.
  rewrite Nat.eqb_eq. eapply checks_iff; [|apply (family_checks edit_branches 0 0 pointer (λ _ _ _, True))].
  - split; [tauto|]. intros H. split; [done|]. intros object b -> Hb Hc.
    apply closed_conforms in Hc as (o & [= <-] & _ & Hf).
    + eapply Forall_impl; [exact Hf|]. intros entry (field & ? & _). by exists field.
    + by apply (told_apart_elem edit_branches).
  - vm_compute. reflexivity.
  - apply (bool_decide_unpack _). vm_compute. reflexivity.
  - intros object H. by apply (edit_accepted 0 object pointer).
  - intros object b key field value Hb Hf. pose proof edit_fields_scalar as Hall. rewrite forallb_true in Hall.
    specialize (Hall _ Hb). cbv beta in Hall. rewrite forallb_true in Hall. specialize (Hall _ (map_get_elem _ _ _ Hf)).
    cbn [fst snd] in Hall. rewrite !andb_true_iff, !negb_true_iff in Hall. destruct Hall as [[[Hs Hn] Hid] Hcontent].
    unfold is_nested_key, one_of in Hn. cbn [existsb] in Hn. rewrite !orb_false_iff in Hn. destruct Hn as (H1 & H2 & _).
    unfold inspect_field, fields_of. cbn [omap list_omap]. rewrite Hf, H1, H2. cbn [andb].
    eapply checks_iff; [|by apply scalar_conforms]. split; [tauto|]. intros [Hc _]. split; [done|].
    intros text _. split; [by rewrite Hid|]. intros ->. done.
Qed.

(** ** Requests *)

Lemma edits_field_checks object b value key :
  key = rs "edits" → map_get key (properties b) = Some structured_edits_schema →
  checks (inspect_field (inspect_object 1) object [b] (rs "/request") (key, value))
    (conforms 4 structured_edits_schema value = true).
Proof.
  intros -> Hf. unfold inspect_field, fields_of. cbn [omap list_omap]. rewrite Hf.
  change (is_str (rs "edits") "request") with false. change (is_str (rs "edits") "edits") with true.
  change (is_str (rs "/request") "/request") with true. cbn [andb]. cbv zeta.
  eapply checks_iff; [|apply (edits_checks _ (λ edit _, conforms 3 edits_items edit = true)); intros; apply edit_checks].
  assert (conforms 4 structured_edits_schema value
    = match value with
      | Array edits =>
          at_least (number_at "minItems" structured_edits_schema) (N.of_nat (length edits))
          && at_most (number_at "maxItems" structured_edits_schema) (N.of_nat (length edits))
          && forallb (conforms 3 edits_items) edits
      | _ => false
      end) as -> by by destruct value.
  destruct value as [| | | |edits|]; try (split; [done|discriminate]).
  unfold edits_range.
  replace (number_at "minItems" structured_edits_schema) with (Some 1%N) by (vm_compute; reflexivity).
  replace (number_at "maxItems" structured_edits_schema) with (Some 128%N) by (vm_compute; reflexivity).
  cbn [default from_option id at_least at_most]. rewrite !andb_true_iff, !N.leb_le, forallb_true.
  assert (Forall (λ '(index, edit), conforms 3 edits_items edit = true)
            (imap (λ index edit, (N.of_nat index, edit)) edits)
          ↔ ∀ edit, edit ∈ edits → conforms 3 edits_items edit = true) as <-; [|tauto].
  trans (Forall (λ edit, conforms 3 edits_items edit = true)
           (snd <$> imap (λ index edit, (N.of_nat index, edit)) edits)).
  - rewrite Forall_fmap. apply Forall_iff. by intros [].
  - rewrite fmap_imap. change (imap (λ n, snd ∘ (λ edit, (N.of_nat n, edit))) edits) with (imap (const id) edits).
    by rewrite imap_const, list_fmap_id, Forall_forall.
Qed.

Lemma request_fields :
  forallb (λ b, forallb (λ f,
      negb (is_str (fst f) "request")
      && (if is_str (fst f) "edits" then value_eqb (snd f) structured_edits_schema
          else is_scalar (snd f)
               && (negb (is_host_id (fst f)) || bool_decide (number_at "minLength" (snd f) = Some 1%N))
               && (negb (is_str (fst f) "content")
                   || bool_decide (number_at "maxLength" (snd f)
                        = Some (if is_some_and (wanted "action" b) (λ a, is_str a "append")
                                then MAX_STAGED_CHUNK_BYTES else MAX_INLINE_CONTENT_BYTES)))))
      (properties b)) request_branches = true.
Proof. vm_compute. reflexivity. Qed.

(** A field of a request is that of the edits or a scalar with these limits. *)
Lemma request_field b key field :
  b ∈ request_branches → map_get key (properties b) = Some field →
  is_str key "request" = false
  ∧ ((key = rs "edits" ∧ field = structured_edits_schema)
     ∨ (is_str key "edits" = false ∧ is_scalar field = true
        ∧ (is_host_id key = true → number_at "minLength" field = Some 1%N)
        ∧ (key = rs "content" → number_at "maxLength" field
             = Some (if is_some_and (wanted "action" b) (λ a, is_str a "append")
                     then MAX_STAGED_CHUNK_BYTES else MAX_INLINE_CONTENT_BYTES)))).
Proof.
  intros Hb Hf. pose proof request_fields as Hall. rewrite forallb_true in Hall. specialize (Hall _ Hb).
  cbv beta in Hall. rewrite forallb_true in Hall. specialize (Hall _ (map_get_elem _ _ _ Hf)). cbn [fst snd] in Hall.
  rewrite andb_true_iff, negb_true_iff in Hall. destruct Hall as [Hr Hall]. split; [done|].
  destruct (is_str key "edits") eqn:E; [left|right].
  - by apply is_str_eq in E; apply value_eqb_eq in Hall.
  - rewrite !andb_true_iff, !orb_true_iff, !negb_true_iff, !bool_decide_eq_true in Hall.
    destruct Hall as [[Hs Hid] Hc]. split_and!; try done.
    + intros H. destruct Hid as [Hid|?]; [congruence|done].
    + intros ->. destruct Hc as [Hc|?]; [discriminate Hc|done].
Qed.

Definition host_field (field : Value) (key : rstr) (value : Value) : Prop :=
  is_str key "edits" = false → ∀ text, value = String text → host_text field key text.

Lemma request_checks request :
  checks (inspect_object 2 request request_branches (rs "/request"))
    (length (List.filter (λ b, conforms 5 b request) request_branches) = 1
     ∧ ∀ object b, request = Object object → b ∈ request_branches → conforms 5 b request = true →
         Forall (λ entry, ∃ field, map_get (fst entry) (properties b) = Some field
                                   ∧ host_field field (fst entry) (snd entry)) object).
Proof.
  apply (family_checks request_branches 1 3).
  - vm_compute. reflexivity.
  - apply (bool_decide_unpack _). vm_compute. reflexivity.
  - intros object H. by apply (request_accepted 1 object (rs "/request")).
  - intros object b key field value Hb Hf.
    destruct (request_field b key field Hb Hf) as (Hr & [[-> ->]|(He & Hs & _)]).
    + eapply checks_iff; [|by apply edits_field_checks]. unfold host_field. split; [|tauto]. by intros H.
    + unfold inspect_field, fields_of. cbn [omap list_omap]. rewrite Hf, Hr, He. cbn [andb]. cbv zeta.
      eapply checks_iff; [|by apply scalar_conforms]. unfold host_field. rewrite He, (scalar_depth 3) by done. tauto.
Qed.

(** The limits of the host, in terms of the branch. *)
Lemma host_limits_branch b object :
  b ∈ request_branches → conforms 5 b (Object object) = true →
  within_host_limits object
  ↔ Forall (λ entry, ∃ field, map_get (fst entry) (properties b) = Some field
                              ∧ host_field field (fst entry) (snd entry)) object.
Proof.
  intros Hb Hc. assert (told_apart request_branches b = true ∧ is_closed b = true) as [Ha Hclosed]
    by (by apply told_apart_elem; [vm_compute; reflexivity|]).
  apply closed_conforms in Hc as (o & [= <-] & Hc); [|done].
  assert (literal_at "action" object = wanted "action" b) as Hact.
  { unfold told_apart in Ha. rewrite !andb_true_iff, !forallb_true in Ha. destruct Ha as [[[_ Hreq] Hone] _].
    eapply conforming_literal; [exact Hc|apply (scalar_enum 3)|apply Hreq; by left|apply Hone; by left]. }
  unfold within_host_limits, content_limit. fold (literal_at "action" object). rewrite Hact.
  destruct Hc as [_ Hf]. rewrite Forall_forall in Hf. split.
  - intros H. apply Forall_forall. intros [key value] Hin. destruct (Hf _ Hin) as (field & Hfield & _).
    exists field. split; [done|]. cbn [fst snd] in *. intros He text ->.
    destruct (request_field b key field Hb Hfield) as (_ & [[-> _]|(_ & _ & _ & Hlimit)]); [discriminate He|].
    destruct (H _ _ Hin) as [H1 H2]. split; [by intros; apply H2|]. intros Hk. rewrite (Hlimit Hk). cbn [at_most].
    apply N.leb_le. by apply H1.
  - intros H key text Hin. rewrite Forall_forall in H. destruct (H _ Hin) as (field & Hfield & Hh), (Hf _ Hin) as (field' & Hfield' & Hv).
    cbn [fst snd] in *. assert (field' = field) as -> by congruence.
    destruct (request_field b key field Hb Hfield) as (_ & [[-> ->]|(He & Hs & Hmin & Hlimit)]).
    { vm_compute in Hv. discriminate Hv. }
    destruct (Hh He text eq_refl) as [H1 H2]. split.
    + intros Hk. specialize (H2 Hk). rewrite (Hlimit Hk) in H2. by apply N.leb_le.
    + intros Hk. apply H1; [done|]. intros ->. rewrite (scalar_depth 3) in Hv by done.
      cbn [conforms] in Hv. unfold is_scalar in Hs. rewrite !andb_true_iff, !bool_decide_eq_true in Hs.
      destruct Hs as ((((Hone & _) & _) & _) & _). rewrite Hone, !andb_true_iff, (Hmin Hk) in Hv.
      by destruct Hv as (_ & [=] & _).
Qed.

(** ** The contract *)

Definition request_schema : Value := at_key "request" (at_key "properties" contract_schema).

Lemma contract_closed : is_closed contract_schema = true.
Proof. vm_compute. reflexivity. Qed.

Lemma contract_property key field :
  map_get key (properties contract_schema) = Some field → key = rs "request" ∧ field = request_schema.
Proof.
  intros H. assert (map fst (properties contract_schema) = [rs "request"]) as Hkeys by (vm_compute; reflexivity).
  assert (key = rs "request") as ->.
  { apply list_elem_of_singleton. rewrite <-Hkeys. apply (list_elem_of_fmap_2 fst _ (key, field)). by apply map_get_elem. }
  split; [done|]. unfold request_schema. by rewrite (property_at _ _ _ H).
Qed.

Lemma root_checks value :
  checks (inspect_object 3 value [contract_schema] [])
    (∃ fields, value = Object fields ∧ contains_key (rs "request") fields = true
       ∧ ∀ entry, entry ∈ fields →
           fst entry = rs "request" ∧ inspect_object 2 (snd entry) request_branches (rs "/request") [] = []).
Proof.
  assert ((∀ object, value ≠ Object object) ∨ ∃ object, value = Object object) as [Hno|[object ->]]
    by (destruct value; [by left..|right; by eexists]).
  { apply (checks_iff _ False); [split; [done|]; intros (f & -> & _); by apply (Hno f)|].
    destruct value; try apply checks_issue. by destruct (Hno fields). }
  eapply checks_iff; [|apply (single_checks 2 object _ contract_schema []
    (λ _ _ request, inspect_object 2 request request_branches (rs "/request") [] = [])); [apply relevant_single|]].
  - change (required contract_schema) with [rs "request"]. rewrite Forall_singleton, Forall_forall. split.
    + intros [Hr Hf]. exists object. split_and!; [done..|]. intros entry Hin.
      destruct (Hf _ Hin) as (field & [Hk _]%contract_property & H). by split.
    + intros (o & [= <-] & Hr & Hf). split; [done|]. intros entry Hin. destruct (Hf _ Hin) as [Hk H].
      exists request_schema. rewrite Hk. split; [|done]. vm_compute. reflexivity.
  - intros key field request Hin Hf. pose proof (contract_property _ _ Hf) as [-> ->].
    unfold inspect_field, fields_of. cbn [omap list_omap]. rewrite Hf.
    change (is_str (rs "request") "request" && bool_decide (@nil char = [])) with true. cbv zeta. cbn iota.
    apply object_self.
Qed.

Lemma valid_iff_no_issue value : apply_patch_wire_is_valid value = true ↔ inspect value = [].
Proof. unfold apply_patch_wire_is_valid, validate_wire_shape. by destruct (inspect value). Qed.

Lemma contract_conforms value :
  conforms 7 contract_schema value = true
  ↔ ∃ fields, value = Object fields ∧ contains_key (rs "request") fields = true
      ∧ ∀ entry, entry ∈ fields → fst entry = rs "request"
          ∧ length (List.filter (λ b, conforms 5 b (snd entry)) request_branches) = 1.
Proof.
  rewrite (closed_conforms 6 _ _ contract_closed). unfold object_conforms.
  change (required contract_schema) with [rs "request"].
  assert (∀ request, conforms 6 request_schema request
    = (length (List.filter (λ b, conforms 5 b request) request_branches) =? 1)) as Hc by reflexivity.
  split; intros (fields & -> & Hr & Hf); exists fields.
  - apply Forall_inv in Hr. split_and!; [done..|]. intros entry Hin. rewrite Forall_forall in Hf.
    destruct (Hf _ Hin) as (field & [Hk ->]%contract_property & H). rewrite Hc in H. split; [done|].
    by apply Nat.eqb_eq.
  - split_and!; [done|by apply Forall_singleton|]. apply Forall_forall. intros entry Hin. destruct (Hf _ Hin) as [Hk H].
    exists request_schema. rewrite Hk, Hc, Nat.eqb_eq. split; [|done]. vm_compute. reflexivity.
Qed.

(** C31. The inspector accepts exactly the requests that the published schema
    describes, with the two rules its descriptions add.  The schema is read by
    its own vocabulary: closed objects, required fields, types, literals,
    lengths, numbers of items, and exactly one branch of each [oneOf]; an integer
    is a number in digits that fits [u64], which is less than the schema says;
    content is limited in bytes, and a path or an identifier of the host is not
    blank.  So
    the selection of branches, meant for the messages, never accepts or refuses
    a request by itself, and the fuel of the inspector is enough. *)
Theorem wire_contract_is_published_schema value :
  apply_patch_wire_is_valid value = true
  ↔ conforms 7 contract_schema value = true
    ∧ ∀ fields request, value = Object fields → (rs "request", Object request) ∈ fields →
        within_host_limits request.
Proof.
  rewrite valid_iff_no_issue, contract_conforms. unfold inspect. rewrite (root_checks value []).
  assert (∀ b request, b ∈ request_branches → conforms 5 b request = true → ∃ object, request = Object object) as Hobj.
  { intros b request Hb Hc. assert (is_closed b = true) as Hclosed
      by (by apply (told_apart_elem request_branches); [vm_compute; reflexivity|]).
    apply closed_conforms in Hc as (object & -> & _); [by exists object|done]. }
  split.
  - intros [_ (fields & -> & Hr & Hf)]. split.
    + exists fields. split_and!; [done..|]. intros entry Hin. destruct (Hf _ Hin) as [? [_ [? _]]%request_checks]. done.
    + intros o request [= <-] Hin. destruct (Hf _ Hin) as [_ [_ [Hlen Hh]]%request_checks]. cbn [snd] in Hlen, Hh.
      destruct (List.filter _ _) as [|b rest] eqn:E in Hlen; [discriminate Hlen|].
      assert (b ∈ List.filter (λ b, conforms 5 b (Object request)) request_branches) as Hb by (rewrite E; by left).
      apply list_elem_of_In, filter_In in Hb as [Hb Hc]. apply list_elem_of_In in Hb.
      apply (host_limits_branch b); [done..|]. by apply (Hh request b).
  - intros [(fields & -> & Hr & Hf) Hl]. split; [done|]. exists fields. split_and!; [done..|].
    intros [key request] Hin. destruct (Hf _ Hin) as [Hk Hlen]. cbn [fst snd] in *. subst key. split; [done|].
    apply request_checks. split_and!; [done..|]. intros object b -> Hb Hc.
    apply host_limits_branch; [done..|]. by apply (Hl fields object).
Qed.
