(* ===== verification/TraceSanitizer.v ===== *)
(** * Keeping binary material out of the trace

    The sanitizers of [core/src/conversation_trace_projection.rs] and the checks of
    [core/src/conversation_trace/projection.rs] that are made with them. *)

From S2P Require Import Prelude RustText Json.

(** ** Text *)

Definition BINARY_OMITTED_MARKER : rstr := rs "[binary/base64 omitted]".
Definition TRUNCATED_SUFFIX : rstr :=
  [ch newline] ++ rs "...[truncated for conversation history]".
Definition EARLIER_OUTPUT_OMITTED_PREFIX : rstr := rs "[earlier output omitted]" ++ [ch newline].
Definition BINARY_OMITTED_FROM_HISTORY_KEY : string := "binaryomittedfromhistory".
Definition TERMINAL_ERROR_CHARS : N := 2000.

Definition trim_start (s : rstr) : rstr := trim_start_matches s is_whitespace.

Definition sanitize_runtime_text (value : rstr) : rstr * bool :=
  if starts_with (to_ascii_lowercase (trim_start value)) "data:"
     && contains (to_ascii_lowercase value) ";base64,"
  then (BINARY_OMITTED_MARKER, true)
  else (value, false).

(** ** Values *)

(** The chars that are kept are ASCII, so their lower case is. *)
Definition canonical_key (key : rstr) : rstr :=
  to_ascii_lowercase (List.filter is_ascii_alphanumeric key).

Definition is_runtime_binary_key (canonical : rstr) : bool :=
  contains canonical "base64" || contains canonical "dataurl".

Definition is_true_value (value : Value) : bool :=
  match value with Bool b => b | _ => false end.

(** The output map has the keys of the input map, in their order. *)
Fixpoint sanitize_runtime_value (value : Value) : Value * bool :=
  match value with
  | Object input =>
      let '(output, redacted) :=
        (fix go (input : list (rstr * Value)) : list (rstr * Value) * bool :=
           match input with
           | [] => ([], false)
           | (key, value) :: input =>
               let canonical := canonical_key key in
               let '(value, item_redacted) :=
                 if is_runtime_binary_key canonical then (String BINARY_OMITTED_MARKER, true)
                 else if is_str canonical BINARY_OMITTED_FROM_HISTORY_KEY && is_true_value value
                 then (value, true)
                 else sanitize_runtime_value value in
               let '(output, redacted) := go input in
               ((key, value) :: output, item_redacted || redacted)
           end) input in
      (Object output, redacted)
  | Array input =>
      let '(output, redacted) :=
        (fix go (input : list Value) : list Value * bool :=
           match input with
           | [] => ([], false)
           | value :: input =>
               let '(value, item_redacted) := sanitize_runtime_value value in
               let '(output, redacted) := go input in
               (value :: output, item_redacted || redacted)
           end) input in
      (Array output, redacted)
  | String value =>
      let '(value, redacted) := sanitize_runtime_text value in (String value, redacted)
  | Null | Bool _ | Number _ => (value, false)
  end.

(** ** Checks *)

Definition binary_material {A} (label : string) : result rstr A :=
  Err (rs "conversation trace " ++ rs label ++ rs " contains binary material").
Arguments binary_material {A} label%_string_scope.

Definition ensure_no_binary_text (label : string) (value : rstr) : result rstr () :=
  if snd (sanitize_runtime_text value) then binary_material label else Ok ().
Arguments ensure_no_binary_text label%_string_scope value.

Definition ensure_no_binary_value (label : string) (value : Value) : result rstr () :=
  if negb (value_eqb (fst (sanitize_runtime_value value)) value) then binary_material label
  else Ok ().
Arguments ensure_no_binary_value label%_string_scope value.

Definition is_provider_safe_tool_name (value : rstr) : bool :=
  negb (bool_decide (value = []))
  && forallb (λ c, is_ascii_alphanumeric c || is_in "-_" c) value.

(** ** The bounded sanitizer of displayed text *)

(** [text.find("lit")], as a number of chars. *)
Fixpoint find_str (s : rstr) (lit : string) : option nat :=
  if starts_with s lit then Some 0
  else match s with [] => None | _ :: s => S <$> find_str s lit end.
Arguments find_str s lit%_string_scope.

(** The longest prefix of at most [n] bytes that ends between two chars. *)
Fixpoint take_utf8 (n : nat) (s : rstr) : rstr :=
  match s with
  | [] => []
  | c :: s => if (len_utf8 c <=? n)%nat then c :: take_utf8 (n - len_utf8 c) s else []
  end.

Definition is_base64_char (c : char) : bool := is_ascii_alphanumeric c || is_in "+/=-_" c.

(** The loop from its cursor on: what is appended to the output, and whether
    something was omitted.  Each pass consumes at least the five chars of [data:];
    the fuel is the length of what is left. *)
Fixpoint redact_from (fuel : nat) (rest : rstr) : rstr * bool :=
  match fuel with
  | O => (rest, false)
  | S fuel =>
      match find_str (to_ascii_lowercase rest) "data:" with
      | None => (rest, false)
      | Some start =>
          let found := drop start rest in
          match find_str (take_utf8 512 (to_ascii_lowercase found)) ";base64," with
          | None =>
              let '(output, redacted) := redact_from fuel (drop 5 found) in
              (take start rest ++ take 5 found ++ output, redacted)
          | Some marker =>
              let payload := drop (marker + 8) found in
              let '(output, _) := redact_from fuel (drop_while is_base64_char payload) in
              (take start rest ++ BINARY_OMITTED_MARKER ++ output, true)
          end
      end
  end.

Definition looks_like_standalone_base64 (value : rstr) : bool :=
  if (byte_len value <? 32) || negb (byte_len value mod 4 =? 0) then false
  else
    forallb (λ c, is_ascii_alphanumeric c || is_in "+/=" c) value
    && (contains_any value "+/=" || (256 <=? byte_len value)).

Definition redact_binary_text (value : rstr) : rstr * bool :=
  if str_eqb value BINARY_OMITTED_MARKER then (value, false)
  else
    let '(output, redacted) := redact_from (length value) value in
    if negb redacted && looks_like_standalone_base64 (trim output)
    then (BINARY_OMITTED_MARKER, true)
    else (output, redacted).

Definition truncate_text (value : rstr) (max_chars : N) (tail : bool) : rstr * bool :=
  if (N.of_nat (length value) <=? max_chars)%N then (value, false)
  else if tail then
    (EARLIER_OUTPUT_OMITTED_PREFIX ++ drop (length value - N.to_nat max_chars) value, true)
  else (take (N.to_nat max_chars) value ++ TRUNCATED_SUFFIX, true).

Definition sanitize_and_bound_text (value : rstr) (max_chars : N) (tail : bool) : rstr * bool :=
  let '(value, binary_redacted) := redact_binary_text value in
  let '(value, truncated) := truncate_text value max_chars tail in
  (value, binary_redacted || truncated).

Definition project_terminal_error (value : rstr) : rstr * bool :=
  sanitize_and_bound_text value TERMINAL_ERROR_CHARS false.

Definition sanitize_optional_text (value : option rstr) : option rstr * bool :=
  match value with
  | Some value => let '(value, redacted) := sanitize_runtime_text value in (Some value, redacted)
  | None => (None, false)
  end.
