(* ===== verification/TraceItems.v ===== *)
(** * The items of a conversation trace

    [core/src/conversation_trace/model.rs] with the protocol types its items
    carry, and the checks of one item on its own.

    [uuid] and the parser of [serde_json] are third-party: the interface
    [TraceServices].  A [String] of the protocol is an [rstr], a [u64] or [u32]
    is an [N], an [i64] or [i32] a [Z]. *)

From S2P Require Import Prelude RustText RustPath Json TraceSanitizer.

(** [uuid::Uuid] with [parse_str], [is_nil], [get_version() == Some(Version::Random)]
    and [to_string]; [serde_json::from_str::<Value>]. *)
Class TraceServices := {
  uuid : Type;
  parse_uuid : rstr → option uuid;
  uuid_is_nil : uuid → bool;
  uuid_is_random : uuid → bool;
  uuid_text : uuid → rstr;
  json_from_str : rstr → option Value;
}.

(** [if condition { return Err(message) }] *)
Definition refuse_if (condition : bool) (message : rstr) : result rstr () :=
  if condition then Err message else Ok ().

(** [option.is_some_and(check)?] of a check that may fail. *)
Definition check_some {A} (check : A → result rstr ()) (o : option A) : result rstr () :=
  match o with Some a => check a | None => Ok () end.

(** [str::len], [chars().any(char::is_control)]. *)
Definition text_len (s : rstr) : N := N.of_nat (byte_len s).
Definition has_control (s : rstr) : bool := existsb is_control s.

(** ** Enumerations of the protocol *)

Inductive ConversationContextMaterialKind := InputAttachment | SkillInstructions | RunWorldState.
Inductive ConversationBackendStatePlacement := Timeline | AfterMessage.
Inductive ConversationTurnTraceTerminalStatus :=
| TurnInProgress | TurnCompleted | TurnFailed | TurnCancelled.
Inductive ConversationTraceToolResultStatus := Succeeded | Failed | Rejected | Conflict | Cancelled.
Inductive ConversationCommandSessionLifecyclePhase := SessionStarted | SessionTerminal.
Inductive ConversationContextCompactionLifecyclePhase := CompactionStarted | CompactionFinished.
Inductive AgentCommandSessionStatus :=
| SessionStarting | SessionRunning | SessionExited | SessionInterrupted | SessionTimedOut
| SessionFailed | SessionOutcomeUnknown.
Inductive AgentContextCompactionEventOutcome :=
| CompactionApplied | CompactionSkipped | CompactionFailed | CompactionCancelled.
Inductive AgentApprovalStatus :=
| ApprovalNotRequired | ApprovalRequired | ApprovalApproved | ApprovalRejected.
Inductive AgentMailboxKind := MailTask | MailMessage | MailFollowup | MailResult.
Inductive AgentInputAttachmentKind := AttachedFile | AttachedImage.
Inductive AgentFolderStatus := FolderAvailable | FolderUnavailable.

#[export] Instance material_kind_eq_dec : EqDecision ConversationContextMaterialKind.
Proof. solve_decision. Defined.
#[export] Instance mailbox_kind_eq_dec : EqDecision AgentMailboxKind.
Proof. solve_decision. Defined.
#[export] Instance placement_eq_dec : EqDecision ConversationBackendStatePlacement.
Proof. solve_decision. Defined.
#[export] Instance terminal_status_eq_dec : EqDecision ConversationTurnTraceTerminalStatus.
Proof. solve_decision. Defined.
#[export] Instance trace_status_eq_dec : EqDecision ConversationTraceToolResultStatus.
Proof. solve_decision. Defined.
#[export] Instance session_phase_eq_dec : EqDecision ConversationCommandSessionLifecyclePhase.
Proof. solve_decision. Defined.
#[export] Instance compaction_phase_eq_dec : EqDecision ConversationContextCompactionLifecyclePhase.
Proof. solve_decision. Defined.
#[export] Instance session_status_eq_dec : EqDecision AgentCommandSessionStatus.
Proof. solve_decision. Defined.
#[export] Instance compaction_outcome_eq_dec : EqDecision AgentContextCompactionEventOutcome.
Proof. solve_decision. Defined.

Definition is_terminal (status : ConversationTurnTraceTerminalStatus) : bool :=
  match status with TurnInProgress => false | _ => true end.

Definition session_is_terminal (status : AgentCommandSessionStatus) : bool :=
  match status with
  | SessionExited | SessionInterrupted | SessionTimedOut | SessionFailed
  | SessionOutcomeUnknown => true
  | SessionStarting | SessionRunning => false
  end.

(** ** Structures of the protocol *)

Record ConversationContextImageRef := mkImageRef {
  attachment_id : rstr;
  image_mime_type : rstr;
  sha256 : rstr;
}.

Record AgentPastedTextMetadata := mkPastedText {
  preview : rstr;
  character_count : N;
}.

Record ConversationTraceAttachment := mkAttachment {
  attached_id : rstr;
  attached_kind : AgentInputAttachmentKind;
  attached_name : rstr;
  attached_mime_type : option rstr;
  attached_size_bytes : N;
  attached_pasted_text : option AgentPastedTextMetadata;
}.

Inductive FileChangeDirectoryIdentity :=
| UnixDirectory (schema_version device inode : N)
| WindowsDirectory (schema_version volume_serial_number : N) (file_id : rstr).

Record AgentFolderReference := mkFolderReference {
  folder_schema_version : N;
  folder_id : rstr;
  folder_name : rstr;
  root_path : option rstr;
  root_identity : option FileChangeDirectoryIdentity;
  folder_status : option AgentFolderStatus;
}.

Inductive AgentMcpServerScope :=
| BuiltinServer
| UserServer
| ProjectServer (project_id : rstr)
| PluginServer (plugin_id : rstr)
| ManagedServer.

Record AgentMcpToolProvenance := mkMcpProvenance {
  server_id : rstr;
  scope : AgentMcpServerScope;
  raw_tool_name : rstr;
  model_tool_name : rstr;
  config_epoch : rstr;
  registry_revision : N;
  config_digest : rstr;
  catalog_generation : N;
  catalog_digest : rstr;
  catalog_schema_digest : rstr;
  schema_digest : rstr;
  schema_normalizer_version : N;
}.

(** The fields of [AgentToolIdentity::BuiltinCapability]. *)
Record BuiltinCapability := mkBuiltinCapability {
  capability_id : rstr;
  managed_mcp_id : rstr;
  package_name : rstr;
  package_version : rstr;
  upstream_catalog_digest : rstr;
  policy_digest : rstr;
  manifest_digest : rstr;
  tool_id : rstr;
  raw_name : rstr;
  model_name : rstr;
  upstream_schema_digest : rstr;
  host_overlay_digest : rstr;
  host_input_schema_digest : rstr;
}.

Inductive AgentToolIdentity :=
| BuiltinTool (tool_name : rstr)
| RuntimeExtension (extension_id tool_name : rstr)
| CapabilityTool (capability : BuiltinCapability)
| McpTool (provenance : AgentMcpToolProvenance)
| Unregistered (tool_name : rstr).

Record ConversationHistoryArchiveTraceMetadata := mkArchive {
  archive_ref : option rstr;
  content_hash : option rstr;
  archived_bytes : option N;
  archived_completely : option bool;
  truncated_at_source : bool;
  model_projection_truncated : bool;
  history_projection_truncated : bool;
  archive_projection_truncated : bool;
}.

Definition default_archive : ConversationHistoryArchiveTraceMetadata :=
  mkArchive None None None None false false false false.

#[export] Instance archive_eq_dec : EqDecision ConversationHistoryArchiveTraceMetadata.
Proof. solve_decision. Defined.

(** The payload of a lifecycle item of a command session; the source has it as
    a structure and, again, as the fields of the item after its sequence. *)
Record ConversationCommandSessionLifecycle := mkLifecycle {
  phase : ConversationCommandSessionLifecyclePhase;
  session_id : rstr;
  lifecycle_call_id : rstr;
  lifecycle_status : AgentCommandSessionStatus;
  exit_code : option Z;
  latest_sequence : N;
  output_truncated : bool;
  lifecycle_archive : ConversationHistoryArchiveTraceMetadata;
  lifecycle_created_at : Z;
}.

#[export] Instance lifecycle_eq_dec : EqDecision ConversationCommandSessionLifecycle.
Proof. solve_decision. Defined.

(** The file of the exact result is left out: it stays out of the trace. *)
Record AgentToolCall := mkCall {
  id : rstr;
  call_tool : rstr;
  args : Value;
  approval_status : AgentApprovalStatus;
  reason : option rstr;
}.

Record AgentToolResult := mkResult {
  result_call_id : rstr;
  result_tool : rstr;
  ok : bool;
  result_value : option Value;
  error : option rstr;
}.

(** ** Items and traces *)

Inductive ConversationTurnTraceItem :=
| ContextMaterial (sequence : N) (event_id : rstr) (material_kind : ConversationContextMaterialKind)
    (content : rstr) (images : list ConversationContextImageRef) (created_at : Z)
| BackendState (sequence : N) (event_id content : rstr) (created_at : Z)
    (placement : ConversationBackendStatePlacement)
| AssistantNarration (sequence : N) (content : rstr) (provider_turn_id first_tool_call_id : option rstr)
    (truncated : bool)
| UserGuidance (sequence : N) (guidance_id client_message_id content : rstr)
    (attachments : list ConversationTraceAttachment) (folder_references : list AgentFolderReference)
    (created_at : Z) (truncated : bool)
| WorkflowDelivery (sequence : N) (input_id instance_id workflow_name content : rstr)
    (created_at : Z) (truncated : bool)
| AgentMailboxDelivery (sequence : N)
    (receipt_id message_id sender_agent_id sender_task_name sender_task_path : rstr)
    (kind : AgentMailboxKind) (content : rstr) (created_at : Z) (truncated : bool)
| ToolCall (sequence : N) (call_id tool : rstr) (provenance : AgentToolIdentity)
    (operation : Value) (approval_status : AgentApprovalStatus) (truncated : bool)
| ToolResult (sequence : N) (call_id tool : rstr) (status : ConversationTraceToolResultStatus)
    (success : bool) (observation : Value) (approval_status : AgentApprovalStatus)
    (error : option rstr) (truncated : bool) (archive : ConversationHistoryArchiveTraceMetadata)
| CommandSessionLifecycle (sequence : N) (lifecycle : ConversationCommandSessionLifecycle)
| ContextCompactionLifecycle (sequence : N) (phase : ConversationContextCompactionLifecyclePhase)
    (operation_id : rstr) (outcome : option AgentContextCompactionEventOutcome)
| RuntimeError (sequence : N) (message : rstr) (recoverable : bool) (code : option rstr)
    (truncated : bool).

Record ConversationTurnTrace := mkTrace {
  schema_version : N;
  run_id : rstr;
  conversation_id : rstr;
  assistant_message_id : rstr;
  terminal_status : ConversationTurnTraceTerminalStatus;
  terminal_error : option rstr;
  trace_truncated : bool;
  items : list ConversationTurnTraceItem;
}.

Definition CONVERSATION_TURN_TRACE_SCHEMA_VERSION : N := 6.
Definition MAX_CONTEXT_MATERIAL_CONTENT_BYTES : N := 4 * 1024 * 1024.
Definition MAX_CONTEXT_MATERIAL_IMAGE_REFS : nat := 256.
Definition MAX_BACKEND_STATE_CONTENT_BYTES : N := 16 * 1024.

Definition sequence (item : ConversationTurnTraceItem) : N :=
  match item with
  | ContextMaterial sequence _ _ _ _ _ | BackendState sequence _ _ _ _
  | AssistantNarration sequence _ _ _ _ | UserGuidance sequence _ _ _ _ _ _ _
  | WorkflowDelivery sequence _ _ _ _ _ _ | AgentMailboxDelivery sequence _ _ _ _ _ _ _ _ _
  | ToolCall sequence _ _ _ _ _ _ | ToolResult sequence _ _ _ _ _ _ _ _ _
  | CommandSessionLifecycle sequence _ | ContextCompactionLifecycle sequence _ _ _
  | RuntimeError sequence _ _ _ _ => sequence
  end.

Definition is_model_visible (item : ConversationTurnTraceItem) : bool :=
  match item with
  | CommandSessionLifecycle _ _ | ContextCompactionLifecycle _ _ _ _ | RuntimeError _ _ _ _ _ => false
  | _ => true
  end.

Definition is_safe_compaction_boundary (item : ConversationTurnTraceItem) : bool :=
  match item with ToolCall _ _ _ _ _ _ _ => false | _ => true end.

(** ** Checks of parts *)

(** A digest of 64 lower-case hexadecimal digits. *)
Definition is_lower_hex (c : char) : bool := is_ascii_hexdigit c && negb (is_ascii_uppercase c).
Definition is_hex_digest (value : rstr) : bool :=
  (text_len value =? 64)%N && forallb is_lower_hex value.
Definition is_prefixed_digest (value : rstr) : bool :=
  (text_len value =? 71)%N && starts_with value "sha256:" && forallb is_lower_hex (drop 7 value).

(** [ConversationContextImageRef::validate]. *)
Definition validate_image_ref (image : ConversationContextImageRef) : result rstr () :=
  refuse_if
    (is_blank (attachment_id image)
     || (1024 <? text_len (attachment_id image))%N
     || has_control (attachment_id image)
     || negb (starts_with (image_mime_type image) "image/")
     || (text_len (image_mime_type image) <=? 6)%N
     || (128 <? text_len (image_mime_type image))%N
     || existsb (λ c, is_whitespace c || is_control c) (image_mime_type image)
     || is_none_or (strip_prefix (sha256 image) "sha256:") (λ digest,
          negb (text_len digest =? 64)%N || negb (forallb is_lower_hex digest)))
    (rs "context material image reference is invalid");;
  ensure_no_binary_text "context material attachment identity" (attachment_id image).

(** The loop, with the identities already met. *)
Fixpoint validate_images_from (identities : list rstr) (images : list ConversationContextImageRef)
    : result rstr () :=
  match images with
  | [] => Ok ()
  | image :: images =>
      validate_image_ref image;;
      refuse_if (existsb (str_eqb (attachment_id image)) identities)
        (rs "context material image identity is duplicated");;
      validate_images_from (attachment_id image :: identities) images
  end.

Definition validate_context_images (images : list ConversationContextImageRef) : result rstr () :=
  refuse_if (MAX_CONTEXT_MATERIAL_IMAGE_REFS <? length images)%nat
    (rs "context material contains too many image references");;
  validate_images_from [] images.

Definition validate_context_material (event_id : rstr)
    (material_kind : ConversationContextMaterialKind) (content : rstr)
    (images : list ConversationContextImageRef) (created_at : Z) : result rstr () :=
  refuse_if
    (is_blank event_id
     || (512 <? text_len event_id)%N
     || has_control event_id
     || (created_at <? 0)%Z
     || (MAX_CONTEXT_MATERIAL_CONTENT_BYTES <? text_len content)%N
     || (is_blank content && match images with [] => true | _ => false end)
     || (negb (bool_decide (material_kind = InputAttachment))
         && match images with [] => false | _ => true end))
    (rs "context material identity or payload is invalid");;
  ensure_no_binary_text "context material event identity" event_id;;
  ensure_no_binary_text "context material content" content;;
  validate_context_images images.

Definition is_object (value : Value) : bool := match value with Object _ => true | _ => false end.

Definition MODEL_TOOL_CALL_ID_MAX_BYTES : N := 64.
Definition MODEL_TOOL_CALL_ID_PREFIX : string := "tc1_".
Definition MODEL_TOOL_CALL_ID_LENGTH_BYTES : N := 47.

Definition is_model_tool_call_id_character_safe (id : rstr) : bool :=
  forallb (λ c, is_ascii_alphanumeric c || is_in "_-" c) id.

(** The four errors of [id_error] differ in the details they carry; the caller
    keeps the message alone. *)
Definition validate_model_tool_call_id (id : rstr) : result rstr () :=
  refuse_if
    (bool_decide (id = [])
     || (MODEL_TOOL_CALL_ID_MAX_BYTES <? text_len id)%N
     || negb (is_model_tool_call_id_character_safe id)
     || negb (text_len id =? MODEL_TOOL_CALL_ID_LENGTH_BYTES)%N
     || negb (starts_with id MODEL_TOOL_CALL_ID_PREFIX))
    (rs_utf8 "模型请求包含不兼容的工具调用标识。").

Definition validate_narration_binding (provider_turn_id first_tool_call_id : option rstr)
    : result rstr () :=
  refuse_if (negb (bool_decide (is_Some provider_turn_id ↔ is_Some first_tool_call_id)))
    (rs "narration Provider and first Tool identities must be bound together");;
  check_some validate_model_tool_call_id first_tool_call_id;;
  check_some (λ id,
    refuse_if (is_blank id || (1024 <? text_len id)%N || has_control id)
      (rs "narration Provider turn identity is invalid");;
    ensure_no_binary_text "narration Provider turn identity" id) provider_turn_id.

(** [AgentPastedTextMetadata::validate]. *)
Definition utf16_len (s : rstr) : N :=
  N.of_nat (sum_list_with (λ c, if (c <? 65536)%N then 1 else 2) s).

Definition validate_pasted_text (metadata : AgentPastedTextMetadata) : result rstr () :=
  refuse_if
    ((80 <? length (preview metadata))%nat
     || (character_count metadata =? 0)%N
     || (9007199254740991 <? character_count metadata)%N
     || (character_count metadata <? utf16_len (preview metadata))%N)
    (rs_utf8 "粘贴文本元数据无效").

Definition AGENT_FOLDER_REFERENCE_SCHEMA_VERSION : N := 1.
Definition MAX_AGENT_FOLDER_REFERENCE_ID_CHARS : N := 256.
Definition MAX_AGENT_FOLDER_REFERENCE_NAME_CHARS : N := 512.
Definition MAX_AGENT_FOLDER_REFERENCE_PATH_CHARS : N := 32 * 1024.

Definition validate_text (value : rstr) (max_chars : N) (field : string) : result rstr () :=
  refuse_if
    (is_blank value || existsb (is_char nul) value || existsb (is_char newline) value
     || existsb (is_char carriage_return) value || (max_chars <? N.of_nat (length value))%N)
    (rs "folder reference " ++ rs field ++ rs " is invalid").
Arguments validate_text value max_chars%_N_scope field%_string_scope.

(** [AgentFolderReference::validate]. *)
Definition validate_folder_reference (reference : AgentFolderReference) : result rstr () :=
  refuse_if (negb (folder_schema_version reference =? AGENT_FOLDER_REFERENCE_SCHEMA_VERSION)%N)
    (rs "unsupported Agent folder reference schema version");;
  validate_text (folder_id reference) MAX_AGENT_FOLDER_REFERENCE_ID_CHARS "id";;
  validate_text (folder_name reference) MAX_AGENT_FOLDER_REFERENCE_NAME_CHARS "name";;
  refuse_if
    (existsb (is_char "/") (folder_id reference) || existsb (is_char "\") (folder_id reference)
     || is_str (folder_id reference) "." || is_str (folder_id reference) "..")
    (rs "Agent folder reference id must be an opaque single segment");;
  check_some (λ root_path,
    validate_text root_path MAX_AGENT_FOLDER_REFERENCE_PATH_CHARS "root_path";;
    refuse_if (negb (is_absolute (parse_path root_path)))
      (rs "Agent folder reference root_path must be absolute")) (root_path reference).

Definition ID_MAX_BYTES : N := 128.

(** [BuiltinCapabilityId::parse(..).is_err()], negated. *)
Definition is_capability_id (value : rstr) : bool :=
  negb (bool_decide (value = []))
  && (text_len value <=? ID_MAX_BYTES)%N
  && forallb (λ c, is_ascii_lowercase c || is_ascii_digit c || is_in "._-" c) value
  && is_some_and (head value) is_ascii_lowercase
  && negb (is_some_and (last value) (is_in "._-"))
  && negb (contains value "..").

Definition MCP_INPUT_SCHEMA_NORMALIZER_VERSION : N := 3.

Definition is_trimmed (value : rstr) : bool := negb (is_blank value) && str_eqb (trim value) value.

(** A text that is trimmed, not empty, within [max] bytes and free of controls. *)
Definition is_plain_text (value : rstr) (max : N) : bool :=
  is_trimmed value && (text_len value <=? max)%N && negb (has_control value).

Definition scope_is_valid (scope : AgentMcpServerScope) : bool :=
  match scope with
  | ProjectServer id | PluginServer id => is_plain_text id 1024
  | BuiltinServer | UserServer | ManagedServer => true
  end.

Definition capability_is_valid (trace_tool : rstr) (c : BuiltinCapability) : bool :=
  is_capability_id (capability_id c)
  && is_capability_id (managed_mcp_id c)
  && is_capability_id (tool_id c)
  && is_capability_id (raw_name c)
  && is_plain_text (package_name c) 256
  && is_plain_text (package_version c) 128
  && is_prefixed_digest (upstream_catalog_digest c)
  && is_prefixed_digest (policy_digest c)
  && is_prefixed_digest (manifest_digest c)
  && is_prefixed_digest (upstream_schema_digest c)
  && is_prefixed_digest (host_overlay_digest c)
  && is_prefixed_digest (host_input_schema_digest c)
  && str_eqb (model_name c) trace_tool.

(** [ConversationHistoryArchiveTraceMetadata::validate]. *)
Definition validate_archive (archive : ConversationHistoryArchiveTraceMetadata) : result rstr () :=
  match archive_ref archive, content_hash archive, archived_bytes archive, archived_completely archive with
  | None, None, None, None => Ok ()
  | reference, hash, bytes, completely =>
      refuse_if (negb (is_some_and reference (λ value, negb (is_blank value))))
        (rs "conversation trace history archive ref is invalid");;
      refuse_if (negb (is_some_and hash is_prefixed_digest))
        (rs "conversation trace history archive hash is invalid");;
      refuse_if
        (is_some_and reference (λ value, (256 <? text_len value)%N)
         || is_some_and hash (λ value, bool_decide (value = []))
         || negb (bool_decide (is_Some bytes))
         || negb (is_some_and completely (λ b, b)))
        (rs "conversation trace history archive metadata is incomplete")
  end.

(** [AgentFolderReference::model_projection]. *)
Definition model_projection (reference : AgentFolderReference) : AgentFolderReference :=
  mkFolderReference (folder_schema_version reference) (folder_id reference) (folder_name reference)
    (root_path reference) None None.

Definition mark_history_truncated (cut : bool) (a : ConversationHistoryArchiveTraceMetadata)
    : ConversationHistoryArchiveTraceMetadata :=
  mkArchive (archive_ref a) (content_hash a) (archived_bytes a) (archived_completely a)
    (truncated_at_source a) (model_projection_truncated a) (history_projection_truncated a || cut)
    (archive_projection_truncated a).

Section Services.
Context {services : TraceServices}.

Definition validate_backend_state (event_id content : rstr) (created_at : Z) : result rstr () :=
  refuse_if
    (is_blank event_id || (512 <? text_len event_id)%N || (created_at <? 0)%Z
     || (MAX_BACKEND_STATE_CONTENT_BYTES <? text_len content)%N)
    (rs "Backend state identity or payload size is invalid");;
  ensure_no_binary_text "Backend state event identity" event_id;;
  ensure_no_binary_text "Backend state content" content;;
  value ← ok_or (json_from_str content) (rs "Backend state content must be a JSON object");
  refuse_if (negb (is_object value)) (rs "Backend state content must be a JSON object");;
  ensure_no_binary_value "Backend state payload" value.

Definition epoch_is_valid (config_epoch : rstr) : bool :=
  is_some_and (parse_uuid config_epoch) (λ epoch,
    negb (uuid_is_nil epoch) && uuid_is_random epoch && str_eqb config_epoch (uuid_text epoch)).

Definition mcp_is_valid (trace_tool : rstr) (p : AgentMcpToolProvenance) : bool :=
  str_eqb (model_tool_name p) trace_tool
  && bool_decide (is_Some (parse_uuid (server_id p)))
  && epoch_is_valid (config_epoch p)
  && negb (registry_revision p =? 0)%N
  && is_plain_text (raw_tool_name p) 1024
  && negb (catalog_generation p =? 0)%N
  && is_hex_digest (config_digest p)
  && is_hex_digest (catalog_digest p)
  && is_hex_digest (catalog_schema_digest p)
  && is_hex_digest (schema_digest p)
  && (schema_normalizer_version p =? MCP_INPUT_SCHEMA_NORMALIZER_VERSION)%N
  && scope_is_valid (scope p).

Definition validate_tool_identity (trace_tool : rstr) (identity : AgentToolIdentity) : result rstr () :=
  match identity with
  | BuiltinTool tool_name =>
      refuse_if (negb (str_eqb tool_name trace_tool) || has_control tool_name)
        (rs "conversation trace builtin provenance is inconsistent")
  | RuntimeExtension extension_id tool_name =>
      refuse_if
        (is_blank extension_id || negb (str_eqb (trim extension_id) extension_id)
         || has_control extension_id || negb (str_eqb tool_name trace_tool))
        (rs "conversation trace runtime-extension provenance is invalid")
  | CapabilityTool capability =>
      refuse_if (negb (capability_is_valid trace_tool capability))
        (rs "conversation trace built-in capability provenance is invalid")
  | McpTool provenance =>
      refuse_if (negb (mcp_is_valid trace_tool provenance))
        (rs "conversation trace MCP provenance is invalid")
  | Unregistered tool_name =>
      refuse_if (negb (str_eqb tool_name trace_tool) || negb (is_provider_safe_tool_name tool_name))
        (rs "conversation trace unregistered provenance is inconsistent")
  end.
End Services.
