(* ===== verification/FileChangeModel.v ===== *)
(** * The records of a file change

    [core/src/file_change/model.rs], the checkpoint of [observation.rs] that a
    binding freezes, the delete journal of [committer.rs] and the staged receipt
    of [staged.rs], each with its validation.

    Timestamps and sizes are [u64]s as [N].  The clock that
    [FileObservationCheckpoint::validate_frozen_binding] reads is an argument
    [now]; one operation on a binding uses one reading of it. *)

From S2P Require Import Prelude RustText RustPath Json FileChangeError FileChangeDigest TraceItems.

(** ** Vocabulary *)

Module Operation.
Inductive FileChangeOperation := Create | Update | Delete.
#[export] Instance operation_eq_dec : EqDecision FileChangeOperation.
Proof. solve_decision. Defined.
End Operation.
Abbreviation FileChangeOperation := Operation.FileChangeOperation.
Export (hints) Operation.

Module Status.
Inductive FileChangeStatus :=
| Drafting | Ready | WaitingApproval | Applying | Applied | AlreadyApplied
| Rejected | Conflict | Failed | OutcomeUnknown | Aborted | Expired.
#[export] Instance status_eq_dec : EqDecision FileChangeStatus.
Proof. solve_decision. Defined.
End Status.
Abbreviation FileChangeStatus := Status.FileChangeStatus.
Export (hints) Status.

Module Outcome.
Inductive FileChangeOutcome := DefinitelyNotExecuted | Applied | OutcomeUnknown.
#[export] Instance outcome_eq_dec : EqDecision FileChangeOutcome.
Proof. solve_decision. Defined.
End Outcome.
Abbreviation FileChangeOutcome := Outcome.FileChangeOutcome.
Export (hints) Outcome.

Inductive FileChangeEdit :=
| Replace (old_text new_text : rstr) (replace_all : bool)
| InsertBefore (anchor text : rstr)
| InsertAfter (anchor text : rstr)
| Append (text : rstr)
| Prepend (text : rstr).

(** Whether a file is there, and which revision of it. *)
Module Content.
Inductive FileChangeContentState :=
| Missing
| Present (revision digest : rstr) (byte_count : N).
#[export] Instance content_state_eq_dec : EqDecision FileChangeContentState.
Proof. solve_decision. Defined.
End Content.
Abbreviation FileChangeContentState := Content.FileChangeContentState.
Export (hints) Content.

(** The early return of a validation: [code] unless [ok]. *)
Definition ensure (ok : bool) (code : FileChangeErrorCode) : FileChangeResultValue () :=
  if ok then Ok () else Err code.

Definition validate_content_state (state : FileChangeContentState) : FileChangeResultValue () :=
  match state with
  | Content.Missing => Ok ()
  | Content.Present revision digest _ =>
      ensure (negb (is_blank revision) && valid_digest digest) FileChange.InvalidArguments
  end.

Definition state_digest (state : FileChangeContentState) : option rstr :=
  match state with Content.Missing => None | Content.Present _ digest _ => Some digest end.

Definition state_revision (state : FileChangeContentState) : option rstr :=
  match state with Content.Missing => None | Content.Present revision _ _ => Some revision end.

(** ** Records *)

Definition FILE_CHANGE_SCHEMA_VERSION : N := 1.
Definition FILE_CHANGE_DIRECT_BINDING_SCHEMA_VERSION : N := 2.

Record FileChangeTransaction := mkTransaction {
  txn_schema_version : N;
  txn_id : rstr;
  txn_operation : FileChangeOperation;
  txn_file_path : rstr;
  txn_status : FileChangeStatus;
  txn_outcome : FileChangeOutcome;
  txn_base : FileChangeContentState;
  txn_target : FileChangeContentState;
  txn_proposal_digest : rstr;
  txn_created_at : N;
  txn_updated_at : N
}.

Record FileChangeProposal := mkProposal {
  proposal_schema_version : N;
  proposal_id : rstr;
  proposal_transaction_id : rstr;
  proposal_operation : FileChangeOperation;
  proposal_file_path : rstr;
  proposal_base : FileChangeContentState;
  proposal_target : FileChangeContentState;
  proposal_diff_digest : rstr;
  proposal_proposal_digest : rstr;
  proposal_additions : N;
  proposal_deletions : N
}.

Record FileChangeResult := mkResult {
  result_schema_version : N;
  result_transaction_id : rstr;
  result_operation : FileChangeOperation;
  result_file_path : rstr;
  result_status : FileChangeStatus;
  result_outcome : FileChangeOutcome;
  result_base : FileChangeContentState;
  result_target : FileChangeContentState;
  result_proposal_digest : rstr
}.

Record FileChangeReceipt := mkReceipt {
  receipt_schema_version : N;
  receipt_transaction_id : rstr;
  receipt_operation : FileChangeOperation;
  receipt_file_path : rstr;
  receipt_outcome : FileChangeOutcome;
  receipt_base : FileChangeContentState;
  receipt_target : FileChangeContentState;
  receipt_proposal_digest : rstr;
  committed_at : N
}.
#[export] Instance receipt_eq_dec : EqDecision FileChangeReceipt.
Proof. solve_decision. Defined.
#[export] Instance transaction_eq_dec : EqDecision FileChangeTransaction.
Proof. solve_decision. Defined.
#[export] Instance proposal_eq_dec : EqDecision FileChangeProposal.
Proof. solve_decision. Defined.

Definition validate_operation_states (operation : FileChangeOperation)
    (base target : FileChangeContentState) : FileChangeResultValue () :=
  match operation, base, target with
  | Operation.Create, Content.Missing, Content.Present _ _ _
  | Operation.Update, Content.Present _ _ _, Content.Present _ _ _
  | Operation.Delete, Content.Present _ _ _, Content.Missing => Ok ()
  | _, _, _ => Err FileChange.IllegalFieldCombination
  end.

(** The outcome that belongs to a status. *)
Definition validate_status_outcome (status : FileChangeStatus) (outcome : FileChangeOutcome) :
    FileChangeResultValue () :=
  ensure
    (match status with
     | Status.Applied | Status.AlreadyApplied => bool_decide (outcome = Outcome.Applied)
     | Status.Applying | Status.OutcomeUnknown => bool_decide (outcome = Outcome.OutcomeUnknown)
     | Status.Drafting | Status.Ready | Status.WaitingApproval | Status.Rejected | Status.Conflict
     | Status.Failed | Status.Aborted | Status.Expired =>
         bool_decide (outcome = Outcome.DefinitelyNotExecuted)
     end) FileChange.IllegalFieldCombination.

(** [impl_validate!]: what the four records have in common, then the check of its own. *)
Definition impl_validate (schema_version : N) (file_path proposal_digest : rstr)
    (base target : FileChangeContentState) (body : FileChangeResultValue ()) : FileChangeResultValue () :=
  _ ← ensure (schema_version =? FILE_CHANGE_SCHEMA_VERSION)%N FileChange.InvalidArguments;
  _ ← ensure (negb (is_blank file_path) && valid_digest proposal_digest) FileChange.InvalidArguments;
  _ ← validate_content_state base;
  _ ← validate_content_state target;
  body.

Definition validate_transaction (t : FileChangeTransaction) : FileChangeResultValue () :=
  impl_validate (txn_schema_version t) (txn_file_path t) (txn_proposal_digest t) (txn_base t) (txn_target t)
    (_ ← ensure (negb (is_blank (txn_id t)) && (txn_created_at t <=? txn_updated_at t)%N)
           FileChange.InvalidArguments;
     _ ← validate_operation_states (txn_operation t) (txn_base t) (txn_target t);
     validate_status_outcome (txn_status t) (txn_outcome t)).

Definition validate_proposal (p : FileChangeProposal) : FileChangeResultValue () :=
  impl_validate (proposal_schema_version p) (proposal_file_path p) (proposal_proposal_digest p)
    (proposal_base p) (proposal_target p)
    (_ ← ensure (negb (is_blank (proposal_id p)) && negb (is_blank (proposal_transaction_id p))
                 && valid_digest (proposal_diff_digest p)) FileChange.InvalidArguments;
     validate_operation_states (proposal_operation p) (proposal_base p) (proposal_target p)).

Definition validate_result (r : FileChangeResult) : FileChangeResultValue () :=
  impl_validate (result_schema_version r) (result_file_path r) (result_proposal_digest r)
    (result_base r) (result_target r)
    (_ ← ensure (negb (is_blank (result_transaction_id r))) FileChange.InvalidArguments;
     _ ← validate_operation_states (result_operation r) (result_base r) (result_target r);
     validate_status_outcome (result_status r) (result_outcome r)).

Definition validate_receipt (r : FileChangeReceipt) : FileChangeResultValue () :=
  impl_validate (receipt_schema_version r) (receipt_file_path r) (receipt_proposal_digest r)
    (receipt_base r) (receipt_target r)
    (_ ← ensure (negb (is_blank (receipt_transaction_id r))) FileChange.InvalidArguments;
     _ ← validate_operation_states (receipt_operation r) (receipt_base r) (receipt_target r);
     ensure (negb (bool_decide (receipt_outcome r = Outcome.DefinitelyNotExecuted)))
       FileChange.InvalidArguments).
