(* ===== verification/FileChangeBinding.v ===== *)
(** * The execution binding of a file change

    [FileChangeDirectBinding] of [core/src/file_change/model.rs]: everything one
    approved change is executed from.  It freezes a file observation
    ([observation.rs]) and, for a delete, a journal ([committer.rs]).

    The clock that [validate_frozen_binding] reads is the argument [now]; one
    operation on a binding uses one reading of it. *)

From S2P Require Import Prelude RustText RustPath Json FileChangeError FileChangeDigest TraceItems.
From S2P Require Import FileChangeModel.

(** ** The frozen observation *)

Definition FILE_OBSERVATION_TTL_MS : N := 10 * 60 * 1000.
Definition FILE_OBSERVATION_CHECKPOINT_SCHEMA_VERSION : N := 2.
Definition FILE_OBSERVATION_DIRECTORY_IDENTITY_SCHEMA_VERSION : N := 1.

Record FileObservationIdentity := mkObservationIdentity {
  identity_byte_count : N;
  modified_ns : option N;
  identity_device : option N;
  identity_inode : option N
}.
#[export] Instance observation_identity_eq_dec : EqDecision FileObservationIdentity.
Proof. solve_decision. Defined.

Definition validate_observation_identity (identity : FileObservationIdentity) : FileChangeResultValue () :=
  ensure (Bool.eqb (bool_decide (is_Some (identity_device identity))) (bool_decide (is_Some (identity_inode identity))))
    FileChange.InvalidArguments.

Module ObservationState.
Inductive FileObservationState :=
| Missing
| Existing (revision : rstr) (identity : FileObservationIdentity).
#[export] Instance observation_state_eq_dec : EqDecision FileObservationState.
Proof. solve_decision. Defined.
End ObservationState.
Abbreviation FileObservationState := ObservationState.FileObservationState.
Export (hints) ObservationState.

#[export] Instance directory_identity_eq_dec : EqDecision FileChangeDirectoryIdentity.
Proof. solve_decision. Defined.

(** [FileObservationDirectoryIdentity] has the shape of the identity of a run grant. *)
Record FileObservationCheckpoint := mkCheckpoint {
  checkpoint_schema_version : N;
  checkpoint_observation_id : rstr;
  source_tool_call_id : rstr;
  checkpoint_conversation_id : rstr;
  checkpoint_run_id : rstr;
  checkpoint_canonical_target : rstr;
  observed_state : FileObservationState;
  parent_directory_identity : FileChangeDirectoryIdentity;
  created_at_ms : N;
  expires_at_ms : N
}.
#[export] Instance checkpoint_eq_dec : EqDecision FileObservationCheckpoint.
Proof. solve_decision. Defined.

(** [FileObservationDirectoryIdentity::validate], of which only the success counts. *)
Definition valid_directory_identity (identity : FileChangeDirectoryIdentity) : bool :=
  match identity with
  | UnixDirectory version _ _ => (version =? FILE_OBSERVATION_DIRECTORY_IDENTITY_SCHEMA_VERSION)%N
  | WindowsDirectory version _ file_id =>
      (version =? FILE_OBSERVATION_DIRECTORY_IDENTITY_SCHEMA_VERSION)%N
      && (byte_len file_id =? 32) && forallb is_lower_hex_digit file_id
  end.

(** The slice [value[5..]] starts after an ASCII prefix. *)
Definition valid_observation_id (value : rstr) : bool :=
  (byte_len value =? 37) && starts_with value "fobs_" && forallb is_ascii_hexdigit (drop 5 value).

Definition valid_owned_id (value : rstr) : bool :=
  negb (bool_decide (value = [])) && (N.of_nat (byte_len value) <=? 2048)%N && str_eqb (trim value) value
  && negb (existsb is_control value).

(** [self.expires_at_ms.checked_sub(self.created_at_ms) == Some(FILE_OBSERVATION_TTL_MS)]. *)
Definition has_ttl (c : FileObservationCheckpoint) : bool :=
  (created_at_ms c <=? expires_at_ms c)%N
  && (expires_at_ms c - created_at_ms c =? FILE_OBSERVATION_TTL_MS)%N.

Definition validate_frozen_binding (now : N) (c : FileObservationCheckpoint)
    (expected_conversation_id expected_run_id : rstr) (expected_target : path) : FileChangeResultValue () :=
  _ ← ensure ((checkpoint_schema_version c =? FILE_OBSERVATION_CHECKPOINT_SCHEMA_VERSION)%N
              && valid_observation_id (checkpoint_observation_id c)
              && valid_owned_id (source_tool_call_id c)
              && valid_owned_id (checkpoint_conversation_id c)
              && valid_owned_id (checkpoint_run_id c)
              && str_eqb (checkpoint_conversation_id c) expected_conversation_id
              && str_eqb (checkpoint_run_id c) expected_run_id
              && (created_at_ms c <=? now)%N && has_ttl c) FileChange.InvalidArguments;
  _ ← ensure (valid_directory_identity (parent_directory_identity c)) FileChange.InvalidArguments;
  _ ← match observed_state c with
      | ObservationState.Existing revision identity =>
          _ ← ensure (valid_owned_id revision) FileChange.InvalidArguments;
          validate_observation_identity identity
      | ObservationState.Missing => Ok ()
      end;
  let canonical_target := parse_path (checkpoint_canonical_target c) in
  ensure (is_absolute canonical_target && bool_decide (canonical_target = expected_target)
          && str_eqb (trim (checkpoint_canonical_target c)) (checkpoint_canonical_target c)
          && negb (existsb is_control (checkpoint_canonical_target c))) FileChange.InvalidArguments.

(** ** The delete journal *)

Module JournalState.
Inductive FileChangeDeleteJournalState := Prepared | Tombstoned | Finalized | RolledBack.
#[export] Instance journal_state_eq_dec : EqDecision FileChangeDeleteJournalState.
Proof. solve_decision. Defined.
End JournalState.
Abbreviation FileChangeDeleteJournalState := JournalState.FileChangeDeleteJournalState.
Export (hints) JournalState.

Record FileChangeDeleteJournal := mkJournal {
  journal_schema_version : N;
  journal_id : rstr;
  journal_transaction_id : rstr;
  target_path : rstr;
  tombstone_path : rstr;
  base_digest : rstr;
  journal_proposal_digest : rstr;
  journal_state : FileChangeDeleteJournalState;
  journal_created_at : N;
  journal_updated_at : N
}.
#[export] Instance journal_eq_dec : EqDecision FileChangeDeleteJournal.
Proof. solve_decision. Defined.

Record FileChangeCommit := mkCommit {
  commit_status : FileChangeStatus;
  commit_receipt : FileChangeReceipt;
  commit_delete_journal : option FileChangeDeleteJournal
}.

(** [str::rsplit_once]: what follows the last [a]. *)
Definition after_last (a : ascii) (s : rstr) : option rstr :=
  if existsb (is_char a) s then last (split_at (is_char a) s) else None.

Section Journal.
Context (sha256_hex : list N → rstr).

Definition delete_journal_suffix (transaction_id target_path base_digest proposal_digest : rstr) : rstr :=
  let material := transaction_id ++ [0%N] ++ target_path ++ [0%N] ++ base_digest ++ [0%N] ++ proposal_digest in
  default (rs "invalid") (after_last ":" (content_digest sha256_hex (as_bytes material))).

Definition delete_journal_id (suffix : rstr) : rstr := rs "file-change-delete-" ++ suffix.

(** [format!(".{journal_id}.tombstone")]. *)
Definition tombstone_name (journal_id : rstr) : rstr := rs "." ++ journal_id ++ rs ".tombstone".

Definition journal_suffix (j : FileChangeDeleteJournal) : rstr :=
  delete_journal_suffix (journal_transaction_id j) (target_path j) (base_digest j) (journal_proposal_digest j).

Definition validate_journal (j : FileChangeDeleteJournal) : FileChangeResultValue () :=
  _ ← ensure ((journal_schema_version j =? FILE_CHANGE_SCHEMA_VERSION)%N
              && negb (is_blank (journal_id j)) && negb (is_blank (journal_transaction_id j))
              && negb (is_blank (target_path j)) && negb (is_blank (tombstone_path j))
              && valid_digest (base_digest j) && valid_digest (journal_proposal_digest j)
              && (journal_created_at j <=? journal_updated_at j)%N) FileChange.InvalidArguments;
  let target := parse_path (target_path j) in
  let tombstone := parse_path (tombstone_path j) in
  let expected_id := delete_journal_id (journal_suffix j) in
  let expected_tombstone :=
    (λ parent, path_join parent (parse_path (tombstone_name expected_id))) <$> path_parent target in
  ensure (is_absolute target && is_absolute tombstone
          && bool_decide (path_parent target = path_parent tombstone)
          && negb (bool_decide (target = tombstone))
          && str_eqb (journal_id j) expected_id
          && bool_decide (expected_tombstone = Some tombstone)) FileChange.IllegalFieldCombination.

Definition with_forked_transaction_id (j : FileChangeDeleteJournal) (transaction_id : rstr) :
    FileChangeResultValue FileChangeDeleteJournal :=
  let suffix := delete_journal_suffix transaction_id (target_path j) (base_digest j) (journal_proposal_digest j) in
  let id := delete_journal_id suffix in
  parent ← ok_or (path_parent (parse_path (target_path j))) FileChange.InvalidArguments;
  let remapped :=
    mkJournal (journal_schema_version j) id transaction_id (target_path j)
      (path_text (path_join parent (parse_path (tombstone_name id))))
      (base_digest j) (journal_proposal_digest j) (journal_state j)
      (journal_created_at j) (journal_updated_at j) in
  _ ← validate_journal remapped;
  Ok remapped.
End Journal.

Definition set_journal_state (state : FileChangeDeleteJournalState) (updated_at : N)
    (j : FileChangeDeleteJournal) : FileChangeDeleteJournal :=
  mkJournal (journal_schema_version j) (journal_id j) (journal_transaction_id j) (target_path j)
    (tombstone_path j) (base_digest j) (journal_proposal_digest j) state (journal_created_at j) updated_at.

(** ** The binding *)

Record FileChangeDirectBinding := mkBinding {
  schema_version : N;
  transaction : FileChangeTransaction;
  proposal : FileChangeProposal;
  observation_id : rstr;
  observation : FileObservationCheckpoint;
  source_tool_name : rstr;
  source_call_id : rstr;
  source_args_digest : rstr;
  trace_args_digest : rstr;
  staged_transaction_id : option rstr;
  conversation_id : rstr;
  project_id : option rstr;
  run_id : rstr;
  staged_transaction_revision : option N;
  canonical_target : rstr;
  base_content : option rstr;
  target_content : option rstr;
  delete_journal : option FileChangeDeleteJournal;
  receipt : option FileChangeReceipt;
  permission_revision : rstr;
  tool_set_revision : rstr;
  provider_wire_revision : rstr
}.
#[export] Instance binding_eq_dec : EqDecision FileChangeDirectBinding.
Proof. solve_decision. Defined.

(** The fields that a commit may change, the others kept. *)
Definition settle (status : FileChangeStatus) (outcome : FileChangeOutcome) (updated_at : N)
    (journal : option FileChangeDeleteJournal) (receipt : option FileChangeReceipt)
    (b : FileChangeDirectBinding) : FileChangeDirectBinding :=
  let t := transaction b in
  mkBinding (schema_version b)
    (mkTransaction (txn_schema_version t) (txn_id t) (txn_operation t) (txn_file_path t) status outcome
      (txn_base t) (txn_target t) (txn_proposal_digest t) (txn_created_at t) updated_at)
    (proposal b) (observation_id b) (observation b) (source_tool_name b) (source_call_id b)
    (source_args_digest b) (trace_args_digest b) (staged_transaction_id b) (conversation_id b) (project_id b)
    (run_id b) (staged_transaction_revision b) (canonical_target b) (base_content b) (target_content b)
    journal receipt (permission_revision b) (tool_set_revision b) (provider_wire_revision b).

Definition set_delete_journal (journal : option FileChangeDeleteJournal) (b : FileChangeDirectBinding) :
    FileChangeDirectBinding :=
  let t := transaction b in
  settle (txn_status t) (txn_outcome t) (txn_updated_at t) journal (receipt b) b.

Section Binding.
Context (sha256_hex : list N → rstr).

Definition content_matches_binding_state (state : FileChangeContentState) (content : option rstr) : bool :=
  match state, content with
  | Content.Missing, None => true
  | Content.Present revision digest byte_count, Some content =>
      str_eqb (content_revision (as_bytes content)) revision
      && str_eqb (content_digest sha256_hex (as_bytes content)) digest
      && (N.of_nat (byte_len content) =? byte_count)%N
  | _, _ => false
  end.

(** Whether the journal of the binding belongs to its transaction. *)
Definition delete_journal_is_valid (b : FileChangeDirectBinding) : bool :=
  match txn_operation (transaction b), delete_journal b with
  | Operation.Create, None | Operation.Update, None => true
  | Operation.Delete, Some journal =>
      is_ok (validate_journal sha256_hex journal)
      && str_eqb (journal_transaction_id journal) (txn_id (transaction b))
      && str_eqb (target_path journal) (canonical_target b)
      && str_eqb (journal_proposal_digest journal) (proposal_proposal_digest (proposal b))
      && bool_decide (Some (base_digest journal) = state_digest (txn_base (transaction b)))
  | _, _ => false
  end.

Definition observation_matches_base (b : FileChangeDirectBinding) : bool :=
  str_eqb (observation_id b) (checkpoint_observation_id (observation b))
  && match txn_operation (transaction b), observed_state (observation b) with
     | Operation.Create, ObservationState.Missing => bool_decide (txn_base (transaction b) = Content.Missing)
     | Operation.Update, ObservationState.Existing revision _
     | Operation.Delete, ObservationState.Existing revision _ =>
         bool_decide (state_revision (txn_base (transaction b)) = Some revision)
     | _, _ => false
     end.

Definition staged_reference_is_valid (b : FileChangeDirectBinding) : bool :=
  match staged_transaction_id b, staged_transaction_revision b with
  | None, None => is_str (source_tool_name b) "apply_patch"
  | Some transaction_id, Some _ =>
      negb (bool_decide (txn_operation (transaction b) = Operation.Delete))
      && str_eqb transaction_id (txn_id (transaction b))
  | _, _ => false
  end.

(** The proposal, the frozen contents, the observation and the journal belong
    to the transaction. *)
Definition parts_agree (b : FileChangeDirectBinding) : bool :=
  let t := transaction b in
  let p := proposal b in
  str_eqb (txn_id t) (proposal_transaction_id p)
  && str_eqb (proposal_id p) (source_call_id b)
  && bool_decide (txn_operation t = proposal_operation p)
  && str_eqb (txn_file_path t) (proposal_file_path p)
  && bool_decide (txn_base t = proposal_base p)
  && bool_decide (txn_target t = proposal_target p)
  && str_eqb (txn_proposal_digest t) (proposal_proposal_digest p)
  && content_matches_binding_state (txn_base t) (base_content b)
  && content_matches_binding_state (txn_target t) (target_content b)
  && observation_matches_base b && delete_journal_is_valid b && staged_reference_is_valid b.

Definition prepared (b : FileChangeDirectBinding) : bool :=
  bool_decide (txn_status (transaction b) = Status.WaitingApproval)
  && bool_decide (txn_outcome (transaction b) = Outcome.DefinitelyNotExecuted)
  && negb (bool_decide (is_Some (receipt b)))
  && is_none_or (delete_journal b) (λ journal, bool_decide (journal_state journal = JournalState.Prepared)).

Definition receipt_matches (t : FileChangeTransaction) (r : FileChangeReceipt) : bool :=
  is_ok (validate_receipt r)
  && (receipt_schema_version r =? FILE_CHANGE_SCHEMA_VERSION)%N
  && str_eqb (receipt_transaction_id r) (txn_id t)
  && bool_decide (receipt_operation r = txn_operation t)
  && str_eqb (receipt_file_path r) (txn_file_path t)
  && bool_decide (receipt_outcome r = txn_outcome t)
  && bool_decide (receipt_base r = txn_base t)
  && bool_decide (receipt_target r = txn_target t)
  && str_eqb (receipt_proposal_digest r) (txn_proposal_digest t)
  && (committed_at r =? txn_updated_at t)%N.

Definition is_applied (status : FileChangeStatus) : bool :=
  bool_decide (status = Status.Applied) || bool_decide (status = Status.AlreadyApplied).

Definition committed (b : FileChangeDirectBinding) : bool :=
  is_applied (txn_status (transaction b))
  && bool_decide (txn_outcome (transaction b) = Outcome.Applied)
  && is_some_and (receipt b) (receipt_matches (transaction b))
  && is_none_or (delete_journal b) (λ journal,
       (bool_decide (journal_state journal = JournalState.Tombstoned)
        || bool_decide (journal_state journal = JournalState.Finalized))
       && (txn_updated_at (transaction b) <=? journal_updated_at journal)%N).

Context (now : N).

Definition validate_binding (b : FileChangeDirectBinding) : FileChangeResultValue () :=
  _ ← ensure ((schema_version b =? FILE_CHANGE_DIRECT_BINDING_SCHEMA_VERSION)%N
              && negb (is_blank (observation_id b))
              && is_str (source_tool_name b) "apply_patch"
              && negb (is_blank (source_call_id b))
              && valid_digest (source_args_digest b)
              && valid_digest (trace_args_digest b)
              && negb (is_blank (conversation_id b))
              && is_none_or (project_id b) (λ id, negb (is_blank id))
              && negb (is_blank (run_id b))
              && negb (is_blank (permission_revision b))
              && negb (is_blank (tool_set_revision b))
              && negb (is_blank (provider_wire_revision b))
              && is_absolute (parse_path (canonical_target b))) FileChange.InvalidArguments;
  _ ← validate_transaction (transaction b);
  _ ← validate_proposal (proposal b);
  _ ← validate_frozen_binding now (observation b) (conversation_id b) (run_id b)
        (parse_path (canonical_target b));
  _ ← ensure (parts_agree b) FileChange.IllegalFieldCombination;
  ensure (prepared b || committed b) FileChange.IllegalFieldCombination.

Definition is_prepared (b : FileChangeDirectBinding) : bool :=
  is_ok (validate_binding b)
  && bool_decide (txn_status (transaction b) = Status.WaitingApproval)
  && negb (bool_decide (is_Some (receipt b))).

Definition with_commit (b : FileChangeDirectBinding) (commit : FileChangeCommit) :
    FileChangeResultValue FileChangeDirectBinding :=
  let t := transaction b in
  let r := commit_receipt commit in
  _ ← validate_binding b;
  _ ← ensure (is_prepared b
              && str_eqb (receipt_transaction_id r) (txn_id t)
              && bool_decide (receipt_operation r = txn_operation t)
              && str_eqb (receipt_file_path r) (txn_file_path t)
              && bool_decide (receipt_base r = txn_base t)
              && bool_decide (receipt_target r = txn_target t)
              && str_eqb (receipt_proposal_digest r) (txn_proposal_digest t)
              && bool_decide (receipt_outcome r = Outcome.Applied)
              && is_applied (commit_status commit)) FileChange.IllegalFieldCombination;
  let committed :=
    settle (commit_status commit) Outcome.Applied (committed_at r) (commit_delete_journal commit) (Some r) b in
  _ ← validate_binding committed;
  Ok committed.

Definition is_commit_successor_of (b prepared : FileChangeDirectBinding) : bool :=
  if negb (is_prepared prepared) || negb (is_ok (validate_binding b))
     || negb (bool_decide (is_Some (receipt b)))
  then false
  else
    bool_decide (b = settle (txn_status (transaction b)) (txn_outcome (transaction b))
                       (txn_updated_at (transaction b)) (delete_journal b) (receipt b) prepared).

Definition with_finalized_delete_journal (b : FileChangeDirectBinding)
    (finalized_journal : FileChangeDeleteJournal) : FileChangeResultValue FileChangeDirectBinding :=
  _ ← validate_binding b;
  current_journal ← ok_or (delete_journal b) FileChange.IllegalFieldCombination;
  let expected_journal :=
    set_journal_state JournalState.Finalized (journal_updated_at finalized_journal) current_journal in
  _ ← ensure (bool_decide (txn_operation (transaction b) = Operation.Delete)
              && bool_decide (is_Some (receipt b))
              && bool_decide (journal_state current_journal = JournalState.Tombstoned)
              && bool_decide (journal_state finalized_journal = JournalState.Finalized)
              && (journal_updated_at current_journal <=? journal_updated_at finalized_journal)%N
              && bool_decide (finalized_journal = expected_journal)) FileChange.IllegalFieldCombination;
  let finalized := set_delete_journal (Some finalized_journal) b in
  _ ← validate_binding finalized;
  Ok finalized.

Definition is_delete_finalization_successor_of (b committed : FileChangeDirectBinding) : bool :=
  match delete_journal b with
  | None => false
  | Some finalized_journal =>
      match with_finalized_delete_journal committed finalized_journal with
      | Ok expected => bool_decide (b = expected)
      | Err _ => false
      end
  end.
End Binding.
