(* ===== verification/FileChangePlanner.v ===== *)
(** * Planning a file change

    [core/src/file_change/planner.rs]: from the base of a file and a mutation to
    the exact base and target of the change, with its digests.

    The diff algorithm is the crate [similar]: [TextDiffs] is what the planner
    asks of it.  Serializing the digest material does not fail, so the
    [map_err] around it is left out. *)

From S2P Require Import Prelude RustText Json HumanInteraction FileChangeError FileChangeDigest.
From S2P Require Import FileChangeModel FileChangeBinding.

Definition MAX_PLANNED_CONTENT_BYTES : N := 4 * 1024 * 1024.
Definition MAX_EDITS : nat := 128.

(** ** Searching and replacing *)

(** The parts before and after the first occurrence of [p]. *)
Fixpoint split_once_str (p s : rstr) : option (rstr * rstr) :=
  match strip_prefix_str p s with
  | Some after => Some ([], after)
  | None =>
      match s with
      | [] => None
      | c :: s => '(before, after) ← split_once_str p s; Some (c :: before, after)
      end
  end.

(** The parts between the occurrences of [p], found one after the other without
    overlap.  A nonempty [p] shortens the text by at least one at each of them. *)
Fixpoint split_str_from (fuel : nat) (p s : rstr) : list rstr :=
  match fuel with
  | O => [s]
  | S fuel =>
      match split_once_str p s with
      | None => [s]
      | Some (before, after) => before :: split_str_from fuel p after
      end
  end.
Definition split_str (p s : rstr) : list rstr := split_str_from (length s) p s.

(** [s.match_indices(p).count()]. *)
Definition count_matches (p s : rstr) : nat := pred (length (split_str p s)).

Fixpoint join_str (sep : rstr) (parts : list rstr) : rstr :=
  match parts with
  | [] => []
  | [part] => part
  | part :: parts => part ++ sep ++ join_str sep parts
  end.

(** [str::replace] and [str::replacen(.., 1)]. *)
Definition replace_str (p r s : rstr) : rstr := join_str r (split_str p s).

Definition replace_first (p r s : rstr) : rstr :=
  match split_once_str p s with
  | Some (before, after) => before ++ r ++ after
  | None => s
  end.

(** ** Requests and plans *)

Module Base.
Inductive FileChangeBase :=
| Missing
| Existing (content revision : rstr).
End Base.
Abbreviation FileChangeBase := Base.FileChangeBase.

Module Mutation.
Inductive FileChangeMutation :=
| Complete (content : rstr)
| Edits (edits : list FileChangeEdit)
| Delete.
End Mutation.
Abbreviation FileChangeMutation := Mutation.FileChangeMutation.

Record FileChangePlanRequest := mkPlanRequest {
  request_operation : FileChangeOperation;
  request_file_path : rstr;
  request_base : FileChangeBase;
  request_mutation : FileChangeMutation
}.

Record FileChangePlan := mkPlan {
  operation : FileChangeOperation;
  file_path : rstr;
  base : FileChangeContentState;
  target : FileChangeContentState;
  plan_base_content : option rstr;
  plan_target_content : option rstr;
  diff : rstr;
  plan_diff_digest : rstr;
  plan_proposal_digest : rstr;
  additions : N;
  deletions : N
}.
#[export] Instance plan_eq_dec : EqDecision FileChangePlan.
Proof. solve_decision. Defined.

Definition contains_nul (s : rstr) : bool := existsb (is_char nul) s.

Definition reject_nul (content : rstr) : FileChangeResultValue () :=
  ensure (negb (contains_nul content)) FileChange.InvalidArguments.

Definition too_large (content : rstr) : bool := (MAX_PLANNED_CONTENT_BYTES <? N.of_nat (byte_len content))%N.

(** Where an anchor is: it must be there exactly once, as [match_indices] counts. *)
Definition find_unique (anchor : rstr) (s : rstr) : FileChangeResultValue () :=
  _ ← ensure (negb (bool_decide (anchor = []))) FileChange.InvalidArguments;
  _ ← ensure (negb (count_matches anchor s =? 0)) FileChange.MatchNotFound;
  ensure (count_matches anchor s <=? 1) FileChange.AmbiguousMatch.

Definition apply_edit (updated : rstr) (edit : FileChangeEdit) : FileChangeResultValue rstr :=
  match edit with
  | Replace old_text new_text replace_all =>
      _ ← ensure (negb (bool_decide (old_text = []))) FileChange.InvalidArguments;
      let matches := count_matches old_text updated in
      _ ← ensure (negb (matches =? 0)) FileChange.MatchNotFound;
      if replace_all then Ok (replace_str old_text new_text updated)
      else if matches =? 1 then Ok (replace_first old_text new_text updated)
      else Err FileChange.AmbiguousMatch
  | InsertBefore anchor text =>
      _ ← find_unique anchor updated; Ok (replace_first anchor (text ++ anchor) updated)
  | InsertAfter anchor text =>
      _ ← find_unique anchor updated; Ok (replace_first anchor (anchor ++ text) updated)
  | Append text => Ok (updated ++ text)
  | Prepend text => Ok (text ++ updated)
  end.

Fixpoint apply_edits (current : rstr) (edits : list FileChangeEdit) : FileChangeResultValue rstr :=
  match edits with
  | [] => Ok current
  | edit :: edits => updated ← apply_edit current edit; apply_edits updated edits
  end.

Definition plan_target (operation : FileChangeOperation) (base : option rstr) (mutation : FileChangeMutation) :
    FileChangeResultValue (option rstr) :=
  match operation, mutation with
  | Operation.Create, Mutation.Complete content | Operation.Update, Mutation.Complete content =>
      _ ← reject_nul content; Ok (Some content)
  | Operation.Update, Mutation.Edits edits =>
      _ ← ensure (negb (length edits =? 0) && (length edits <=? MAX_EDITS)) FileChange.InvalidArguments;
      current ← ok_or base FileChange.IllegalFieldCombination;
      updated ← apply_edits current edits;
      _ ← reject_nul updated;
      Ok (Some updated)
  | Operation.Delete, Mutation.Delete => Ok None
  | _, _ => Err FileChange.IllegalFieldCombination
  end.

Definition operation_states_match (operation : FileChangeOperation) (base target : FileChangeContentState) : bool :=
  match operation, base, target with
  | Operation.Create, Content.Missing, Content.Present _ _ _
  | Operation.Update, Content.Present _ _ _, Content.Present _ _ _
  | Operation.Delete, Content.Present _ _ _, Content.Missing => true
  | _, _, _ => false
  end.

(** ** The crate [similar] *)

Inductive ChangeTag := Insert | DeleteLine | Equal.

(** [TextDiff::from_lines]: its unified diff under two headers, and the tags of
    its changes. *)
Class TextDiffs := {
  unified_diff : rstr → rstr → rstr → rstr → rstr;
  changes : rstr → rstr → list ChangeTag;
}.

Section Planner.
Context {json : JsonServices} {diffs : TextDiffs} (sha256_hex : list N → rstr).

Definition build_diff (path : rstr) (operation : FileChangeOperation) (old new : rstr) : rstr :=
  let old_header := if bool_decide (operation = Operation.Create) then rs "/dev/null" else rs "a/" ++ path in
  let new_header := if bool_decide (operation = Operation.Delete) then rs "/dev/null" else rs "b/" ++ path in
  unified_diff old_header new_header old new.

Definition u64_saturating_succ (n : N) : N := N.min (n + 1) u64_max.

Definition diff_counts (old new : rstr) : N * N :=
  foldl (λ '(additions, deletions) tag,
    match tag with
    | Insert => (u64_saturating_succ additions, deletions)
    | DeleteLine => (additions, u64_saturating_succ deletions)
    | Equal => (additions, deletions)
    end) (0, 0)%N (changes old new).

Definition state_for_content (content : rstr) : FileChangeContentState :=
  Content.Present (content_revision (as_bytes content)) (content_digest sha256_hex (as_bytes content))
    (N.of_nat (byte_len content)).

Definition content_matches_state (state : FileChangeContentState) (content : option rstr) : bool :=
  match state, content with
  | Content.Missing, None => true
  | Content.Present _ _ _, Some content => bool_decide (state = state_for_content content)
  | _, _ => false
  end.

(** [ProposalDigestMaterial], printed in the order of its fields. *)
Definition operation_text (operation : FileChangeOperation) : rstr :=
  match operation with
  | Operation.Create => rs "create" | Operation.Update => rs "update" | Operation.Delete => rs "delete"
  end.

Definition state_value (state : FileChangeContentState) : Value :=
  match state with
  | Content.Missing => Object [(rs "state", String (rs "missing"))]
  | Content.Present revision digest byte_count =>
      Object [(rs "state", String (rs "present")); (rs "revision", String revision);
        (rs "digest", String digest); (rs "byteCount", json_number byte_count)]
  end.

Definition material_digest (operation : FileChangeOperation) (file_path : rstr)
    (base target : FileChangeContentState) (diff_digest : rstr) (additions deletions : N) : rstr :=
  proposal_digest sha256_hex (Object
    [(rs "operation", String (operation_text operation)); (rs "filePath", String file_path);
     (rs "base", state_value base); (rs "target", state_value target);
     (rs "diffDigest", String diff_digest); (rs "additions", json_number additions);
     (rs "deletions", json_number deletions)]).

(** [Option<String>::as_deref().unwrap_or_default()]. *)
Definition text_of (content : option rstr) : rstr := default [] content.

Definition validate_plan (p : FileChangePlan) : FileChangeResultValue () :=
  _ ← ensure (negb (is_blank (file_path p))
              && is_none_or (plan_base_content p) (λ content, negb (contains_nul content))
              && is_none_or (plan_target_content p) (λ content,
                   negb (contains_nul content) && negb (too_large content))
              && content_matches_state (base p) (plan_base_content p)
              && content_matches_state (target p) (plan_target_content p)
              && operation_states_match (operation p) (base p) (target p)) FileChange.InvalidArguments;
  _ ← ensure (negb (bool_decide (operation p = Operation.Update)
                    && bool_decide (plan_base_content p = plan_target_content p))) FileChange.NoChange;
  let old := text_of (plan_base_content p) in
  let new := text_of (plan_target_content p) in
  let expected_diff := build_diff (file_path p) (operation p) old new in
  _ ← ensure (str_eqb (diff p) expected_diff
              && str_eqb (plan_diff_digest p) (diff_digest sha256_hex expected_diff)
              && bool_decide ((additions p, deletions p) = diff_counts old new)) FileChange.InvalidArguments;
  ensure (str_eqb (plan_proposal_digest p)
    (material_digest (operation p) (file_path p) (base p) (target p) (plan_diff_digest p)
      (additions p) (deletions p))) FileChange.InvalidArguments.

Definition validate_base (operation : FileChangeOperation) (base : FileChangeBase) :
    FileChangeResultValue (FileChangeContentState * option rstr) :=
  match operation, base with
  | Operation.Create, Base.Missing => Ok (Content.Missing, None)
  | Operation.Update, Base.Existing content revision | Operation.Delete, Base.Existing content revision =>
      _ ← ensure (str_eqb (content_revision (as_bytes content)) revision) FileChange.RevisionConflict;
      Ok (state_for_content content, Some content)
  | Operation.Create, Base.Existing _ _ => Err FileChange.FileExists
  | Operation.Update, Base.Missing | Operation.Delete, Base.Missing => Err FileChange.FileMissing
  end.

Definition plan (request : FileChangePlanRequest) : FileChangeResultValue FileChangePlan :=
  let operation := request_operation request in
  let path := trim (request_file_path request) in
  _ ← ensure (negb (bool_decide (path = []))) FileChange.InvalidArguments;
  '(base_state, base_content) ← validate_base operation (request_base request);
  target_content ← plan_target operation base_content (request_mutation request);
  _ ← ensure (is_none_or target_content (λ content, negb (too_large content))) FileChange.ContentTooLarge;
  _ ← ensure (negb (bool_decide (operation = Operation.Update)
                    && bool_decide (target_content = base_content))) FileChange.NoChange;
  let target_state := from_option state_for_content Content.Missing target_content in
  let old := text_of base_content in
  let new := text_of target_content in
  let diff := build_diff path operation old new in
  let '(additions, deletions) := diff_counts old new in
  let diff_digest := diff_digest sha256_hex diff in
  let proposal_digest :=
    material_digest operation path base_state target_state diff_digest additions deletions in
  let plan :=
    mkPlan operation path base_state target_state base_content target_content diff diff_digest
      proposal_digest additions deletions in
  _ ← validate_plan plan;
  Ok plan.

Definition from_binding (now : N) (b : FileChangeDirectBinding) : FileChangeResultValue FileChangePlan :=
  _ ← validate_binding sha256_hex now b;
  let t := transaction b in
  let p := proposal b in
  let plan :=
    mkPlan (txn_operation t) (txn_file_path t) (txn_base t) (txn_target t) (base_content b) (target_content b)
      (build_diff (txn_file_path t) (txn_operation t) (text_of (base_content b)) (text_of (target_content b)))
      (proposal_diff_digest p) (proposal_proposal_digest p) (proposal_additions p) (proposal_deletions p) in
  _ ← validate_plan plan;
  Ok plan.

Definition from_direct_binding (now : N) (b : FileChangeDirectBinding) (diff_text : rstr) :
    FileChangeResultValue FileChangePlan :=
  plan ← from_binding now b;
  _ ← ensure (str_eqb (diff plan) diff_text) FileChange.InvalidArguments;
  Ok plan.
End Planner.
