(* ===== verification/FileChangePlannerFacts.v ===== *)
(** * What an edit finds and what a plan holds

    Occurrences of a text, the count of [match_indices] as the greatest number
    of occurrences that do not overlap, and the shape of a plan that was made. *)

From S2P Require Import Prelude RustText Json HumanInteraction FileChangeError FileChangeDigest.
From S2P Require Import FileChangeModel FileChangeBinding FileChangePlanner.

(** ** Occurrences *)

Definition occurs (p s : rstr) : Prop := ∃ before after, s = before ++ p ++ after.

Lemma split_once_str_Some p s before after :
  split_once_str p s = Some (before, after) →
  s = before ++ p ++ after
  ∧ ∀ before' after', s = before' ++ p ++ after' → length before ≤ length before'.
Proof.
  revert before after. induction s as [|c s IH]; intros before after; cbn [split_once_str].
  - destruct (strip_prefix_str p []) eqn:E; [|done]. intros [= <- <-].
    apply strip_prefix_str_app in E. split; [done|]. intros. cbn. lia.
  - destruct (strip_prefix_str p (c :: s)) eqn:E.
    { intros [= <- <-]. apply strip_prefix_str_app in E. split; [done|]. intros. cbn. lia. }
    destruct (split_once_str p s) as [[b a]|] eqn:Es; [|done]. cbn. intros [= <- <-].
    destruct (IH b a eq_refl) as [-> Hmin]. split; [done|].
    intros [|c' b'] a' H; cbn in H.
    + exfalso. assert (strip_prefix_str p (c :: b ++ p ++ a) = Some a') as H'
        by (by apply strip_prefix_str_app). congruence.
    + injection H as -> H. cbn. specialize (Hmin _ _ H). lia.
Qed.

Lemma split_once_str_None p s : split_once_str p s = None ↔ ¬ occurs p s.
Proof.
  split.
  - revert s. induction s as [|c s IH]; cbn [split_once_str]; intros H (b & a & Hs).
    + symmetry in Hs. apply app_eq_nil in Hs as [-> Hs]. apply app_eq_nil in Hs as [-> ->]. done.
    + destruct (strip_prefix_str p (c :: s)) eqn:E; [done|].
      destruct (split_once_str p s) as [[? ?]|] eqn:Es; [done|].
      destruct b as [|c' b]; cbn in Hs.
      * assert (strip_prefix_str p (c :: s) = Some a) by (by apply strip_prefix_str_app). congruence.
      * injection Hs as -> ->. by apply (IH eq_refl); exists b, a.
  - intros H. destruct (split_once_str p s) as [[b a]|] eqn:E; [|done].
    apply split_once_str_Some in E as [-> _]. destruct H. by exists b, a.
Qed.

Lemma join_split_str fuel p s : join_str p (split_str_from fuel p s) = s.
Proof.
  revert s. induction fuel as [|fuel IH]; intros s; [done|]. cbn [split_str_from].
  destruct (split_once_str p s) as [[b a]|] eqn:E; [|done].
  apply split_once_str_Some in E as [-> _]. specialize (IH a).
  destruct (split_str_from fuel p a) as [|x l] eqn:El; [by destruct fuel; cbn in El; repeat case_match|].
  change (join_str p (b :: x :: l)) with (b ++ p ++ join_str p (x :: l)). by rewrite IH.
Qed.

(** The occurrences are taken greedily, so that there are as many of them as
    can be had without overlap. *)
Lemma split_str_greatest fuel p s parts :
  p ≠ [] → length s ≤ fuel → join_str p parts = s → length parts ≤ length (split_str_from fuel p s).
Proof.
  intros Hp. revert s parts. induction fuel as [|fuel IH]; intros s parts Hl Hj.
  - destruct s; [|cbn in Hl; lia]. destruct parts as [|x [|y parts]]; cbn; [lia..|].
    change (x ++ p ++ join_str p (y :: parts) = []) in Hj.
    apply app_eq_nil in Hj as [_ Hj]. by apply app_eq_nil in Hj as [-> _].
  - cbn [split_str_from]. destruct (split_once_str p s) as [[b a]|] eqn:E.
    + apply split_once_str_Some in E as [Hs Hmin].
      destruct parts as [|x [|y parts]]; [cbn; lia..|].
      change (x ++ p ++ join_str p (y :: parts) = s) in Hj.
      specialize (Hmin _ _ (eq_sym Hj)).
      assert (∃ z, join_str p ((z ++ y) :: parts) = a) as [z Hz].
      { exists (drop (length b + length p) (x ++ p)).
        assert (join_str p ((drop (length b + length p) (x ++ p) ++ y) :: parts)
                = drop (length b + length p) (x ++ p) ++ join_str p (y :: parts)) as ->
          by (destruct parts; [done|]; cbn [join_str]; by rewrite <- app_assoc).
        rewrite <- drop_app_le by (rewrite length_app; lia).
        rewrite <- app_assoc, Hj, Hs, app_assoc, drop_app_le by (rewrite length_app; lia).
        rewrite drop_ge by (rewrite length_app; lia). done. }
      cbn [length]. apply le_n_S. apply (IH a ((z ++ y) :: parts)); [|done].
      assert (length s = length b + (length p + length a)) by (by rewrite Hs, !length_app).
      destruct p; [done|]. cbn in *. lia.
    + destruct parts as [|x [|y parts]]; [cbn; lia..|]. exfalso.
      apply split_once_str_None in E. apply E. exists x, (join_str p (y :: parts)). done.
Qed.

(** [n] occurrences of [p] that do not overlap. *)
Definition occurs_times (n : nat) (p s : rstr) : Prop := ∃ parts, length parts = S n ∧ join_str p parts = s.

Lemma join_fewer p parts n :
  length parts = S (S n) → ∃ parts', length parts' = S n ∧ join_str p parts' = join_str p parts.
Proof.
  destruct parts as [|x [|y parts]]; cbn [length]; [lia..|]. intros [= H].
  exists ((x ++ p ++ y) :: parts). cbn. split; [lia|].
  destruct parts; by rewrite <- ?app_assoc.
Qed.

Lemma count_matches_spec p s n : p ≠ [] → n ≤ count_matches p s ↔ occurs_times n p s.
Proof.
  intros Hp. unfold count_matches, split_str. split.
  - intros Hn. set (l := split_str_from (length s) p s) in *.
    assert (join_str p l = s) as Hj by apply join_split_str.
    assert (l ≠ []) as Hne by (unfold l; destruct (length s); cbn; repeat case_match; done).
    assert (∃ k, length l = S (n + k)) as [k Hk] by (exists (pred (length l) - n); destruct l; cbn in *; [done|lia]).
    clearbody l. clear Hne Hn. revert l Hj Hk. induction k as [|k IH]; intros l Hj Hk.
    + exists l. split; [lia|done].
    + rewrite Nat.add_succ_r in Hk. destruct (join_fewer p l _ Hk) as (l' & Hl' & Hj').
      apply (IH l'); [congruence|done].
  - intros (parts & Hl & Hj). pose proof (split_str_greatest (length s) p s parts Hp (le_n _) Hj). lia.
Qed.

Lemma occurs_once p s : occurs_times 1 p s ↔ occurs p s.
Proof.
  split.
  - intros ([|x [|y [|z l]]] & H & <-); cbn in H; try lia. exists x, y. done.
  - intros (b & a & ->). by exists [b; a].
Qed.

Lemma occurs_twice p s : occurs_times 2 p s ↔ ∃ x y z, s = x ++ p ++ y ++ p ++ z.
Proof.
  split.
  - intros ([|x [|y [|z [|? l]]]] & H & <-); cbn in H; try lia. by exists x, y, z.
  - intros (x & y & z & ->). by exists [x; y; z].
Qed.

(** ** Edits *)

(** The text with the one occurrence of [p] replaced: there is one, and no two
    that do not overlap; of several that overlap it is the first. *)
Definition replaced_once (p r s t : rstr) : Prop :=
  ∃ before after, s = before ++ p ++ after ∧ t = before ++ r ++ after
  ∧ (∀ before' after', s = before' ++ p ++ after' → length before ≤ length before')
  ∧ ¬ occurs_times 2 p s.

(** All occurrences replaced, from left to right. *)
Inductive replaced_all (p r : rstr) : rstr → rstr → Prop :=
| replaced_none s : ¬ occurs p s → replaced_all p r s s
| replaced_next before after t :
    (∀ before' after', before ++ p ++ after = before' ++ p ++ after' → length before ≤ length before') →
    replaced_all p r after t → replaced_all p r (before ++ p ++ after) (before ++ r ++ t).

(** The anchor of an edit, when it has one, and whether all its occurrences count. *)
Definition anchor_of (edit : FileChangeEdit) : option (rstr * bool) :=
  match edit with
  | Replace old_text _ replace_all => Some (old_text, replace_all)
  | InsertBefore anchor _ | InsertAfter anchor _ => Some (anchor, false)
  | Append _ | Prepend _ => None
  end.

Definition has_anchor (edit : FileChangeEdit) : Prop := ∀ anchor all, anchor_of edit = Some (anchor, all) → anchor ≠ [].

Definition edited (edit : FileChangeEdit) (s t : rstr) : Prop :=
  match edit with
  | Replace old_text new_text false => replaced_once old_text new_text s t
  | Replace old_text new_text true => occurs old_text s ∧ replaced_all old_text new_text s t
  | InsertBefore anchor text => replaced_once anchor (text ++ anchor) s t
  | InsertAfter anchor text => replaced_once anchor (anchor ++ text) s t
  | Append text => t = s ++ text
  | Prepend text => t = text ++ s
  end.

Lemma ensured b code : ensure b code = Ok () ↔ b = true.
Proof. by destruct b. Qed.

Lemma ensure_bind {A} b code (k : FileChangeResultValue A) :
  (_ ← ensure b code; k) = if b then k else Err code.
Proof. by destruct b. Qed.

Lemma replace_first_once p r s t :
  p ≠ [] → count_matches p s = 1 → replaced_once p r s t ↔ t = replace_first p r s.
Proof.
  intros Hp Hc. unfold replace_first.
  assert (occurs p s) as Ho by (apply occurs_once, count_matches_spec; [done|lia]).
  assert (¬ occurs_times 2 p s) as H2 by (intros H; apply count_matches_spec in H; [lia|done]).
  destruct (split_once_str p s) as [[b a]|] eqn:E; [|by apply split_once_str_None in E].
  apply split_once_str_Some in E as [-> Hmin]. split.
  - intros (b' & a' & Hs & -> & Hmin' & _).
    assert (length b = length b') as Hl by (apply Nat.le_antisymm; [by eapply Hmin | by eapply Hmin']).
    apply app_inj_1 in Hs as [-> Hs]; [|done]. by apply app_inv_head in Hs as ->.
  - intros ->. by exists b, a.
Qed.

Lemma replaced_once_count p r s t : p ≠ [] → replaced_once p r s t → count_matches p s = 1.
Proof.
  intros Hp (b & a & -> & _ & _ & H2).
  assert (1 ≤ count_matches p (b ++ p ++ a)) by (apply count_matches_spec, occurs_once; [done|by exists b, a]).
  assert (¬ 2 ≤ count_matches p (b ++ p ++ a)) by (by rewrite count_matches_spec). lia.
Qed.

Lemma split_str_nonempty fuel p s : split_str_from fuel p s ≠ [].
Proof. destruct fuel; cbn; repeat case_match; done. Qed.

Lemma replace_str_all fuel p r s t :
  p ≠ [] → length s ≤ fuel → replaced_all p r s t ↔ t = join_str r (split_str_from fuel p s).
Proof.
  intros Hp. revert s t. induction fuel as [|fuel IH]; intros s t Hl.
  - destruct s; [|cbn in Hl; lia]. cbn. split.
    + remember [] as s eqn:Hs. destruct 1 as [s|b a t Hmin H]; [done|].
      apply app_eq_nil in Hs as [-> Hs]. by apply app_eq_nil in Hs as [-> ->].
    + intros ->. apply replaced_none. intros (b & a & H).
      symmetry in H. apply app_eq_nil in H as [_ H]. by apply app_eq_nil in H as [-> _].
  - cbn [split_str_from]. destruct (split_once_str p s) as [[b a]|] eqn:E.
    + apply split_once_str_Some in E as [Hs Hmin].
      assert (length a ≤ fuel) as Hl'.
      { assert (length s = length b + (length p + length a)) by (by rewrite Hs, !length_app).
        destruct p; [done|]. cbn in *. lia. }
      assert (join_str r (b :: split_str_from fuel p a) = b ++ r ++ join_str r (split_str_from fuel p a)) as ->
        by (pose proof (split_str_nonempty fuel p a); by destruct (split_str_from fuel p a)).
      split.
      * destruct 1 as [s Hn|b' a' t Hmin' H]; [destruct Hn; by exists b, a|].
        assert (length b = length b') as Hb by (apply Nat.le_antisymm; [by eapply Hmin | by eapply Hmin']).
        apply app_inj_1 in Hs as [-> Hs]; [|done]. apply app_inv_head in Hs as ->.
        apply IH in H as ->; done.
      * intros ->. rewrite Hs. apply replaced_next; [by rewrite <- Hs|]. by apply IH.
    + cbn. apply split_once_str_None in E. split.
      * destruct 1; [done|]. destruct E. by eexists _, _.
      * intros ->. by apply replaced_none.
Qed.

Lemma find_unique_spec anchor s :
  match find_unique anchor s with
  | Ok _ => anchor ≠ [] ∧ count_matches anchor s = 1
  | Err FileChange.InvalidArguments => anchor = []
  | Err FileChange.MatchNotFound => anchor ≠ [] ∧ count_matches anchor s = 0
  | Err FileChange.AmbiguousMatch => anchor ≠ [] ∧ 2 ≤ count_matches anchor s
  | Err _ => False
  end.
Proof.
  unfold find_unique. rewrite !ensure_bind. unfold ensure.
  case_bool_decide; [done|]. cbn [negb].
  destruct (Nat.eqb_spec (count_matches anchor s) 0); [done|]. cbn [negb].
  destruct (Nat.leb_spec (count_matches anchor s) 1); (split; [done|lia]).
Qed.

(** What one edit does in every case. *)
Lemma apply_edit_spec s edit :
  match apply_edit s edit with
  | Ok t => has_anchor edit ∧ ∀ t', edited edit s t' ↔ t' = t
  | Err FileChange.InvalidArguments => ∃ all, anchor_of edit = Some ([], all)
  | Err FileChange.MatchNotFound =>
      ∃ anchor all, anchor_of edit = Some (anchor, all) ∧ anchor ≠ [] ∧ ¬ occurs anchor s
  | Err FileChange.AmbiguousMatch =>
      ∃ anchor, anchor_of edit = Some (anchor, false) ∧ anchor ≠ [] ∧ occurs_times 2 anchor s
  | Err _ => False
  end.
Proof.
  assert (∀ p, p ≠ [] → count_matches p s = 0 → ¬ occurs p s) as Hnone.
  { intros p Hp H Ho. apply occurs_once, count_matches_spec in Ho; [lia|done]. }
  destruct edit as [p r all|p r|p r|r|r]; cbn [apply_edit anchor_of edited].
  - rewrite !ensure_bind. case_bool_decide as Hp; [by exists all; subst|]. cbn [negb].
    destruct (Nat.eqb_spec (count_matches p s) 0) as [H0|H0]; cbn [negb].
    { exists p, all. auto. }
    destruct all.
    + split; [by intros ? ? [= <- <-]|]. intros t'. rewrite (replace_str_all (length s)) by done. unfold replace_str, split_str. split; [by intros []|].
      intros ->. split; [|done]. apply occurs_once, count_matches_spec; [done|lia].
    + destruct (Nat.eqb_spec (count_matches p s) 1) as [H1|H1].
      * split; [by intros ? ? [= <- <-]|]. intros t'. by apply replace_first_once.
      * exists p. split_and!; [done..|]. apply count_matches_spec; [done|lia].
  - pose proof (find_unique_spec p s) as H. destruct (find_unique p s) as [[]|[]]; cbn; try done.
    + destruct H. split; [by intros ? ? [= <- <-]|]. intros t'. by apply replace_first_once.
    + exists false. by subst.
    + destruct H. exists p, false. auto.
    + destruct H. exists p. split_and!; [done..|]. by apply count_matches_spec.
  - pose proof (find_unique_spec p s) as H. destruct (find_unique p s) as [[]|[]]; cbn; try done.
    + destruct H. split; [by intros ? ? [= <- <-]|]. intros t'. by apply replace_first_once.
    + exists false. by subst.
    + destruct H. exists p, false. auto.
    + destruct H. exists p. split_and!; [done..|]. by apply count_matches_spec.
  - by split.
  - by split.
Qed.

(** Why an edit is refused. *)
Definition refused (edit : FileChangeEdit) (s : rstr) (code : FileChangeErrorCode) : Prop :=
  match code with
  | FileChange.InvalidArguments => ∃ all, anchor_of edit = Some ([], all)
  | FileChange.MatchNotFound =>
      ∃ anchor all, anchor_of edit = Some (anchor, all) ∧ anchor ≠ [] ∧ ¬ occurs anchor s
  | FileChange.AmbiguousMatch =>
      ∃ anchor, anchor_of edit = Some (anchor, false) ∧ anchor ≠ [] ∧ occurs_times 2 anchor s
  | _ => False
  end.

Lemma apply_edit_refused s edit code : apply_edit s edit = Err code → refused edit s code.
Proof. intros H. pose proof (apply_edit_spec s edit) as Hs. by rewrite H in Hs. Qed.

Lemma apply_edit_iff s edit t : apply_edit s edit = Ok t ↔ has_anchor edit ∧ edited edit s t.
Proof.
  pose proof (apply_edit_spec s edit) as H. destruct (apply_edit s edit) as [t0|code].
  - destruct H as [Ha He]. rewrite He. naive_solver.
  - split; [done|]. intros [Ha He]. exfalso. destruct code; try done.
    + destruct H as [all H]. by apply Ha in H.
    + destruct H as (anchor & all & H & Hn & Ho). destruct edit as [p r []|p r|p r|r|r]; cbn in H; try done;
        injection H as <- <-; cbn in He; try (destruct He as (b & a & -> & _); apply Ho; by exists b, a).
      by destruct He.
    + destruct H as (anchor & H & Hn & Ho). destruct edit as [p r []|p r|p r|r|r]; cbn in H; try done;
        injection H as <-; cbn in He; by destruct He as (b & a & -> & _ & _ & H2).
Qed.


(** ** Plans *)

Section Plans.
Context {json : JsonServices} {diffs : TextDiffs} (sha256_hex : list N → rstr).

(** The one plan of a path, an operation and the contents before and after. *)
Definition plan_of (path : rstr) (op : FileChangeOperation) (old new : option rstr) : FileChangePlan :=
  let state := from_option (state_for_content sha256_hex) Content.Missing in
  let diff := build_diff path op (text_of old) (text_of new) in
  let counts := diff_counts (text_of old) (text_of new) in
  mkPlan op path (state old) (state new) old new diff (diff_digest sha256_hex diff)
    (material_digest sha256_hex op path (state old) (state new) (diff_digest sha256_hex diff) counts.1 counts.2)
    counts.1 counts.2.

(** The contents an operation may have. *)
Definition contents_fit (op : FileChangeOperation) (old new : option rstr) : Prop :=
  match op, old, new with
  | Operation.Create, None, Some _ => True
  | Operation.Update, Some o, Some n => o ≠ n
  | Operation.Delete, Some _, None => True
  | _, _, _ => False
  end.

Definition content_ok (content : rstr) : Prop := contains_nul content = false.

Definition plannable (path : rstr) (op : FileChangeOperation) (old new : option rstr) : Prop :=
  is_blank path = false ∧ contents_fit op old new
  ∧ (∀ content, old = Some content → content_ok content)
  ∧ (∀ content, new = Some content → content_ok content ∧ too_large content = false).

Lemma content_matches_state_iff state content :
  content_matches_state sha256_hex state content = true
  ↔ state = from_option (state_for_content sha256_hex) Content.Missing content.
Proof.
  destruct state as [|revision digest n], content as [content|]; cbn; try done.
  by rewrite bool_decide_eq_true.
Qed.

Lemma operation_states_match_iff op old new :
  let state := from_option (state_for_content sha256_hex) Content.Missing in
  operation_states_match op (state old) (state new) = true ∧ (op = Operation.Update → old ≠ new)
  ↔ contents_fit op old new.
Proof. destruct op, old, new; cbn; naive_solver. Qed.

(** The plans that are valid are the plans of what can be planned. *)
Lemma validate_plan_iff p :
  validate_plan sha256_hex p = Ok ()
  ↔ p = plan_of (file_path p) (operation p) (plan_base_content p) (plan_target_content p)
    ∧ plannable (file_path p) (operation p) (plan_base_content p) (plan_target_content p).
Proof.
  destruct p as [op path b t old new d dd pd adds dels]. unfold validate_plan, plannable, plan_of.
  cbn [operation file_path base target plan_base_content plan_target_content diff plan_diff_digest
       plan_proposal_digest additions deletions].
  rewrite !ensure_bind, <- operation_states_match_iff.
  split.
  - destruct (_ && operation_states_match _ _ _) eqn:E; [|done].
    rewrite !andb_true_iff, !is_none_or_true, !content_matches_state_iff in E.
    destruct E as [[[[[Hp Ho] Hn] ->] ->] Hm].
    destruct (negb (_ && _)) eqn:E2; [|done]. apply negb_true_iff, andb_false_iff in E2.
    rewrite !bool_decide_eq_false in E2.
    destruct (_ && bool_decide _) eqn:E3; [|done].
    rewrite !andb_true_iff, !str_eqb_eq, bool_decide_eq_true in E3. destruct E3 as [[-> ->] Hc].
    rewrite ensured, str_eqb_eq. intros ->.
    rewrite <- Hc. cbn [fst snd].
    apply negb_true_iff in Hp. split_and!; [done|done|done|naive_solver|..].
    + intros content Hc'. by apply negb_true_iff, Ho.
    + intros content Hc'. specialize (Hn _ Hc'). apply andb_true_iff in Hn as [Hn1 Hn2].
      split; by apply negb_true_iff.
  - intros [[= -> -> -> -> -> -> ->] (Hp & [Hm Hne] & Ho & Hn)].
    assert (Hif : ∀ b (x : FileChangeResultValue ()) c, b = true → x = Ok () → (if b then x else Err c) = Ok ())
      by (by intros ? ? ? -> ->).
    apply Hif; [|apply Hif; [|apply Hif]].
    + rewrite !andb_true_iff, !is_none_or_true, !content_matches_state_iff, Hp. split_and!; try done.
      * intros x Hx. apply negb_true_iff. by apply Ho.
      * intros x Hx. destruct (Hn _ Hx) as [H1 H2]. unfold content_ok in H1. by rewrite H1, H2.
    + apply negb_true_iff, andb_false_iff. rewrite !bool_decide_eq_false.
      destruct (decide (op = Operation.Update)); [right; by apply Hne|by left].
    + rewrite !andb_true_iff, !str_eqb_eq, bool_decide_eq_true. split_and!; [done..|]. by destruct (diff_counts _ _).
    + by rewrite ensured, str_eqb_eq.
Qed.

(** The contents a request asks for. *)
Definition asked_base (op : FileChangeOperation) (b : FileChangeBase) (old : option rstr) : Prop :=
  match op, b with
  | Operation.Create, Base.Missing => old = None
  | Operation.Update, Base.Existing content revision | Operation.Delete, Base.Existing content revision =>
      old = Some content ∧ content_revision (as_bytes content) = revision
  | _, _ => False
  end.

Inductive edited_all : list FileChangeEdit → rstr → rstr → Prop :=
| edited_nil s : edited_all [] s s
| edited_cons edit edits s t u :
    has_anchor edit → edited edit s t → edited_all edits t u → edited_all (edit :: edits) s u.

Definition asked_target (op : FileChangeOperation) (m : FileChangeMutation) (old new : option rstr) : Prop :=
  match op, m with
  | Operation.Create, Mutation.Complete content | Operation.Update, Mutation.Complete content => new = Some content
  | Operation.Update, Mutation.Edits edits =>
      ∃ o n, old = Some o ∧ new = Some n ∧ 1 ≤ length edits ≤ MAX_EDITS ∧ edited_all edits o n
  | Operation.Delete, Mutation.Delete => new = None
  | _, _ => False
  end.

Lemma apply_edits_iff s edits t : apply_edits s edits = Ok t ↔ edited_all edits s t.
Proof.
  revert s. induction edits as [|edit edits IH]; intros s; cbn [apply_edits].
  - split; [intros [= ->]; constructor|by inversion 1].
  - rewrite bind_Ok. split.
    + intros (u & [Ha He]%apply_edit_iff & Hr%IH). by econstructor.
    + inversion 1 as [|? ? ? u ? Ha He Hr]; subst. exists u. split; [by apply apply_edit_iff|by apply IH].
Qed.

Lemma apply_edits_refused s edits code :
  apply_edits s edits = Err code →
  ∃ before edit after u, edits = before ++ edit :: after ∧ edited_all before s u ∧ refused edit u code.
Proof.
  revert s. induction edits as [|edit edits IH]; intros s; cbn [apply_edits]; [done|].
  destruct (apply_edit s edit) as [t|e] eqn:E; cbn [mbind result_bind].
  - intros (before & edit' & after & u & -> & Hb & Hr)%IH. exists (edit :: before), edit', after, u.
    apply apply_edit_iff in E as [Ha He]. split_and!; [done|by econstructor|done].
  - intros [= <-]. exists [], edit, edits, s. split_and!; [done|constructor|by apply apply_edit_refused].
Qed.

Lemma validate_base_iff op b state old :
  validate_base sha256_hex op b = Ok (state, old)
  ↔ asked_base op b old ∧ state = from_option (state_for_content sha256_hex) Content.Missing old.
Proof.
  assert (∀ content revision, (_ ← ensure (str_eqb (content_revision (as_bytes content)) revision)
            FileChange.RevisionConflict; Ok (state_for_content sha256_hex content, Some content)) = Ok (state, old)
          ↔ (old = Some content ∧ content_revision (as_bytes content) = revision)
            ∧ state = from_option (state_for_content sha256_hex) Content.Missing old) as Hex.
  { intros content revision. rewrite ensure_bind. destruct (str_eqb _ revision) eqn:E.
    - apply str_eqb_eq in E. split; [by intros [= <- <-]|by intros [[-> _] ->]].
    - split; [done|]. intros [[_ H] _]. apply str_eqb_eq in H. congruence. }
  unfold validate_base, asked_base. destruct op, b as [|content revision]; try apply Hex; try (split; [done|by intros [[] _]]).
  split; [by intros [= <- <-]|by intros [-> ->]].
Qed.

Lemma reject_nul_Ok content : reject_nul content = Ok () ↔ content_ok content.
Proof. unfold reject_nul. by rewrite ensured, negb_true_iff. Qed.

Lemma reject_nul_bind {A} content (k : FileChangeResultValue A) x :
  (_ ← reject_nul content; k) = Ok x ↔ content_ok content ∧ k = Ok x.
Proof. rewrite bind_Ok, <- reject_nul_Ok. split; [by intros ([] & ? & ?)|by intros []; exists ()]. Qed.

Lemma plan_target_iff op m old new :
  plan_target op old m = Ok new
  ↔ asked_target op m old new ∧ ∀ content, new = Some content → content_ok content.
Proof.
  destruct op, m as [content|edits|]; cbn; try naive_solver.
  - rewrite reject_nul_bind. naive_solver.
  - rewrite reject_nul_bind. naive_solver.
  - rewrite ensure_bind. destruct (_ && _) eqn:E.
    + apply andb_true_iff in E as [E1%negb_true_iff E2%Nat.leb_le]. apply Nat.eqb_neq in E1.
      destruct old as [o|]; cbn; [|naive_solver]. rewrite bind_Ok. split.
      * intros (n & Hn%apply_edits_iff & [Hc [= <-]]%reject_nul_bind).
        split; [exists o, n; split_and!; [done|done|lia|lia|done]|naive_solver].
      * intros [(? & n & [= <-] & -> & _ & Hn%apply_edits_iff) Hc]. exists n. split; [done|].
        apply reject_nul_bind. split; [by apply Hc|done].
    + split; [done|]. intros [(? & n & -> & -> & Hl & _) _].
      apply andb_false_iff in E as [E%negb_false_iff|E].
      * apply Nat.eqb_eq in E. lia.
      * apply Nat.leb_gt in E. lia.
Qed.

(** A plan is made exactly for a request that fits, and it is the plan of its contents. *)
Lemma plan_iff request p :
  let op := request_operation request in
  let path := trim (request_file_path request) in
  plan sha256_hex request = Ok p
  ↔ ∃ old new, asked_base op (request_base request) old ∧ asked_target op (request_mutation request) old new
    ∧ plannable path op old new ∧ p = plan_of path op old new.
Proof.
  intros op path. unfold plan. rewrite ensure_bind. fold op path. split.
  - destruct (negb _) eqn:Ep; [|done]. intros H. inv_bind H. destruct r as [state old].
    apply validate_base_iff in E as [Hb ->]. inv_bind H. apply plan_target_iff in E as [Ht Hnul].
    inv_bind H. inv_bind H. destruct (diff_counts _ _) as [adds dels] eqn:Ec.
    inv_bind H. destruct r2. injection H as <-. exists old, r.
    pose proof E1 as [Heq Hpl]%validate_plan_iff.
    cbn [operation file_path plan_base_content plan_target_content] in Heq, Hpl. done.
  - intros (old & new & Hb & Ht & Hp & ->). pose proof Hp as (Hblank & Hfit & Ho & Hn).
    assert (path ≠ []) as Hne by (intros Hnil; unfold is_blank in Hblank; by rewrite Hnil in Hblank).
    rewrite (bool_decide_eq_false_2 _ Hne). cbn [negb].
    rewrite (proj2 (validate_base_iff op (request_base request) _ old) (conj Hb eq_refl)).
    change (mbind ?f (Ok (?x, ?y))) with (f (x, y)). cbv beta iota.
    rewrite (proj2 (plan_target_iff op (request_mutation request) old new)) by (split; [done|intros c Hc; by apply Hn]).
    change (mbind ?f (Ok ?x)) with (f x). cbv beta. rewrite !ensure_bind.
    replace (is_none_or new _) with true
      by (symmetry; apply is_none_or_true; intros c Hc; apply Hn in Hc as [_ Hc]; by rewrite Hc).
    replace (negb (_ && _)) with true.
    2:{ symmetry. apply negb_true_iff, andb_false_iff. rewrite !bool_decide_eq_false.
        destruct (decide (op = Operation.Update)) as [Hop|]; [right|by left].
        rewrite Hop in Hfit. destruct old, new; naive_solver. }
    cbv zeta. rewrite (surjective_pairing (diff_counts _ _)).
    apply bind_Ok. exists (). split; [|done]. apply validate_plan_iff.
    cbn [operation file_path plan_base_content plan_target_content]. done.
Qed.

(** ** From a binding *)

Definition carries (b : FileChangeDirectBinding) (p : FileChangePlan) : Prop :=
  txn_operation (transaction b) = operation p ∧ txn_file_path (transaction b) = file_path p
  ∧ txn_base (transaction b) = base p ∧ txn_target (transaction b) = target p
  ∧ base_content b = plan_base_content p ∧ target_content b = plan_target_content p
  ∧ proposal_diff_digest (proposal b) = plan_diff_digest p
  ∧ proposal_proposal_digest (proposal b) = plan_proposal_digest p
  ∧ proposal_additions (proposal b) = additions p ∧ proposal_deletions (proposal b) = deletions p.

(** The diff is not stored: it is computed again from the contents. *)
Lemma from_binding_iff now b p :
  from_binding sha256_hex now b = Ok p
  ↔ validate_binding sha256_hex now b = Ok () ∧ validate_plan sha256_hex p = Ok () ∧ carries b p.
Proof.
  unfold from_binding. rewrite bind_Ok. split.
  - intros ([] & Hv & H). cbv zeta in H. apply bind_Ok in H as ([] & Hp & [= <-]). by split_and!.
  - intros (Hv & Hp & Ho & Hf & Hb & Ht & Hbc & Htc & Hdd & Hpd & Ha & Hd). exists (). split; [done|]. cbv zeta.
    apply bind_Ok. exists ().
    assert (p = mkPlan (txn_operation (transaction b)) (txn_file_path (transaction b)) (txn_base (transaction b))
      (txn_target (transaction b)) (base_content b) (target_content b)
      (build_diff (txn_file_path (transaction b)) (txn_operation (transaction b)) (text_of (base_content b))
        (text_of (target_content b)))
      (proposal_diff_digest (proposal b)) (proposal_proposal_digest (proposal b)) (proposal_additions (proposal b))
      (proposal_deletions (proposal b))) as <-; [|done].
    rewrite Ho, Hf, Hb, Ht, Hbc, Htc, Hdd, Hpd, Ha, Hd.
    pose proof Hp as [Heq _]%validate_plan_iff. apply (f_equal diff) in Heq. destruct p. cbn in *. by f_equal.
Qed.
End Plans.
