(* ===== verification/BoundIo.v ===== *)
(** * Reads and writes bound to one directory

    [core/src/file_change/bound_io.rs] and the part of [policy.rs] that looks at
    a resolved target again, as they are built for Linux.  A directory handle
    and an open file are the inode they hold; [uuid] is the generator of the
    names of staged files. *)

From stdpp Require Import gmap.
From S2P Require Import Prelude RustText RustPath Posix FileChangeError TraceItems FileChangeModel.
From S2P Require Import FileChangeBinding.

Abbreviation change A := (io FileChangeErrorCode A).

(** ** Targets *)

Definition FILE_CHANGE_RUN_GRANT_SCHEMA_VERSION : N := 1.

Record DirectoryIdentity := mkDirectoryIdentity { identity_dev : N; identity_ino : N }.
#[export] Instance plain_directory_identity_eq_dec : EqDecision DirectoryIdentity.
Proof. solve_decision. Defined.

Record ResolvedFileChangeTarget := mkTarget {
  absolute_path : path;
  canonical_parent : path;
  display_path : rstr;
  parent_identity : DirectoryIdentity;
  workspace_root_identity : option (path * FileChangeDirectoryIdentity)
}.

Definition path_io_error (missing : FileChangeErrorCode) (error : IoError) : FileChangeErrorCode :=
  match kind error with
  | ErrorKind.NotFound => missing
  | ErrorKind.PermissionDenied => FileChange.PermissionDenied
  | _ => FileChange.Failed
  end.

(** [FileChangeDirectoryIdentity::read], of which callers only map the error. *)
Definition read_grant_identity (p : path) : change FileChangeDirectoryIdentity :=
  m ← map_err (λ _, FileChange.PermissionDenied) (symlink_metadata p);
  if is_symlink m || negb (is_dir m) then fail FileChange.PermissionDenied
  else mret (UnixDirectory FILE_CHANGE_RUN_GRANT_SCHEMA_VERSION (dev m) (ino m)).

Definition read_directory_identity (p : path) : change DirectoryIdentity :=
  m ← map_err (path_io_error FileChange.ParentMissing) (symlink_metadata p);
  if negb (is_dir m) || is_symlink m then fail FileChange.SymlinkForbidden
  else mret (mkDirectoryIdentity (dev m) (ino m)).

Definition canonical_directory (p : path) : change path :=
  m ← map_err (path_io_error FileChange.ParentMissing) (symlink_metadata p);
  if is_symlink m then fail FileChange.SymlinkForbidden
  else if negb (is_dir m) then fail FileChange.ParentMissing
  else map_err (path_io_error FileChange.ParentMissing) (canonicalize p).

(** The components after [current], the last of which may be a file. *)
Fixpoint validate_components (current rest : path) : change () :=
  match rest with
  | [] => mret ()
  | component :: rest =>
      let current := path_push current component in
      found ← attempt (symlink_metadata current);
      match found with
      | Err error =>
          if bool_decide (kind error = ErrorKind.NotFound) then validate_components current rest
          else fail (path_io_error FileChange.ParentMissing error)
      | Ok m =>
          if is_symlink m then fail FileChange.SymlinkForbidden
          else if negb (bool_decide (rest = [])) && negb (is_dir m) then fail FileChange.ParentMissing
          else validate_components current rest
      end
  end.
Definition validate_existing_components_no_symlink (p : path) : change () := validate_components [] p.

Definition reject_hard_link (m : Metadata) : FileChangeResultValue () :=
  ensure (nlink (seen m) =? 1)%N FileChange.HardLinkForbidden.

Definition validate_leaf (p : path) : change () :=
  found ← attempt (symlink_metadata p);
  match found with
  | Err error =>
      if bool_decide (kind error = ErrorKind.NotFound) then mret ()
      else fail (path_io_error FileChange.FileMissing error)
  | Ok m =>
      if is_symlink m then fail FileChange.SymlinkForbidden
      else if negb (is_file m) then fail FileChange.NotRegularFile
      else lift (reject_hard_link m)
  end.

Definition revalidate_target (t : ResolvedFileChangeTarget) : change () :=
  _ ← match workspace_root_identity t with
      | Some (root, identity) =>
          current ← read_grant_identity root;
          lift (ensure (bool_decide (current = identity)) FileChange.Conflict)
      | None => mret ()
      end;
  _ ← validate_existing_components_no_symlink (absolute_path t);
  current_parent ← canonical_directory (canonical_parent t);
  _ ← lift (ensure (bool_decide (current_parent = canonical_parent t)) FileChange.SymlinkForbidden);
  identity ← read_directory_identity current_parent;
  _ ← lift (ensure (bool_decide (identity = parent_identity t)) FileChange.Conflict);
  validate_leaf (absolute_path t).

(** ** The bound parent *)

Record BoundParent := mkParent { bound_target : ResolvedFileChangeTarget; directory : N }.

Record BoundCurrentFile := mkCurrent { file_bytes : list N; permissions : N; metadata : Metadata }.

Definition open_parent_error (error : IoError) : FileChangeErrorCode :=
  if bool_decide (raw_os_error error = Some Errno.ELOOP) then FileChange.SymlinkForbidden
  else match kind error with
       | ErrorKind.NotFound => FileChange.ParentMissing
       | ErrorKind.PermissionDenied => FileChange.PermissionDenied
       | _ => FileChange.Failed
       end.

Definition open_directory (p : path) : io IoError N :=
  if existsb (existsb (N.eqb 0)) (map component_text p) then fail (Custom ErrorKind.InvalidInput)
  else open_directory_at p.

Definition directory_matches_path (d : N) (p : path) : io IoError bool :=
  opened ← fstat d;
  named ← symlink_metadata p;
  mret (is_dir named && negb (is_symlink named) && (dev opened =? dev named)%N && (ino opened =? ino named)%N).

Definition open_parent (t : ResolvedFileChangeTarget) : change BoundParent :=
  _ ← revalidate_target t;
  d ← map_err open_parent_error (open_directory (canonical_parent t));
  _ ← revalidate_target t;
  same ← map_err open_parent_error (directory_matches_path d (canonical_parent t));
  _ ← lift (ensure same FileChange.Conflict);
  mret (mkParent t d).

Definition revalidate_parent (parent : BoundParent) : change () :=
  _ ← revalidate_target (bound_target parent);
  same ← map_err open_parent_error
    (directory_matches_path (directory parent) (canonical_parent (bound_target parent)));
  lift (ensure same FileChange.Conflict).

(** [leaf_name_io]: the name of [p] in the bound directory. *)
Definition leaf_name_io (parent p : path) : result IoError rstr :=
  if negb (bool_decide (path_parent p = Some parent)) then Err (Custom ErrorKind.InvalidInput)
  else
    name ← ok_or (file_name p) (Custom ErrorKind.InvalidInput);
    if existsb (N.eqb 0) name then Err (Custom ErrorKind.InvalidInput) else Ok name.

Definition leaf_name (parent p : path) : FileChangeResultValue rstr :=
  match leaf_name_io parent p with Ok name => Ok name | Err _ => Err FileChange.IllegalFieldCombination end.

Definition open_error (error : IoError) : FileChangeErrorCode :=
  match raw_os_error error with
  | Some Errno.ELOOP => FileChange.SymlinkForbidden
  | Some Errno.EACCES | Some Errno.EPERM => FileChange.PermissionDenied
  | _ =>
      match kind error with
      | ErrorKind.NotFound => FileChange.FileMissing
      | ErrorKind.PermissionDenied => FileChange.PermissionDenied
      | _ => FileChange.Failed
      end
  end.

Definition read_error (error : IoError) : FileChangeErrorCode := FileChange.Failed.

Definition staging_error (error : IoError) : FileChangeErrorCode :=
  if bool_decide (kind error = ErrorKind.PermissionDenied) then FileChange.PermissionDenied else FileChange.Failed.

Definition validate_open_metadata (m : Metadata) : FileChangeResultValue () :=
  _ ← ensure (is_file m) FileChange.NotRegularFile;
  ensure (nlink (seen m) =? 1)%N FileChange.HardLinkForbidden.

Definition same_file_identity (left right : Metadata) : bool :=
  (dev left =? dev right)%N && (ino left =? ino right)%N.

Definition same_open_file (left right : Metadata) : bool :=
  same_file_identity left right && (nlink (seen left) =? nlink (seen right))%N
  && (len left =? len right)%N && (mtime (seen left) =? mtime (seen right))%N.

Definition same_open_file_stat (metadata stat : Metadata) : bool :=
  same_file_identity metadata stat && (len metadata =? len stat)%N
  && (nlink (seen metadata) =? nlink (seen stat))%N.

Definition exceeds (limit : option N) (n : N) : bool := is_some_and limit (λ limit, limit <? n)%N.

(** [unix::read_optional] once the file is open. *)
Definition read_open (d : N) (name : rstr) (max_bytes : option N) (file : N) : change (option BoundCurrentFile) :=
  before ← map_err read_error (fstat file);
  _ ← lift (validate_open_metadata before);
  _ ← lift (ensure (negb (exceeds max_bytes (len before))) FileChange.ContentTooLarge);
  bytes ← map_err read_error (read_to_end file ((λ limit, N.min (limit + 1) u64_max) <$> max_bytes));
  _ ← lift (ensure (negb (exceeds max_bytes (N.of_nat (length bytes)))) FileChange.ContentTooLarge);
  after ← map_err read_error (fstat file);
  _ ← lift (validate_open_metadata after);
  linked ← map_err read_error (stat_at d name);
  _ ← lift (ensure (same_open_file before after && same_open_file_stat after linked
                    && (len after =? N.of_nat (length bytes))%N) FileChange.Conflict);
  mret (Some (mkCurrent bytes (mode (seen after)) after)).

Definition read_name (d : N) (name : rstr) (max_bytes : option N) : change (option BoundCurrentFile) :=
  opened ← attempt (openat_read d name);
  match opened with
  | Err error =>
      if bool_decide (raw_os_error error = Some Errno.ENOENT) then mret None else fail (open_error error)
  | Ok file => read_open d name max_bytes file
  end.

Definition read_optional_with_limit (parent : BoundParent) (p : path) (max_bytes : option N) :
    change (option BoundCurrentFile) :=
  name ← lift (leaf_name (canonical_parent (bound_target parent)) p);
  read_name (directory parent) name max_bytes.

Definition read_optional (parent : BoundParent) (p : path) : change (option BoundCurrentFile) :=
  read_optional_with_limit parent p None.

Definition read_optional_bounded (parent : BoundParent) (p : path) (max_bytes : N) : change (option BoundCurrentFile) :=
  read_optional_with_limit parent p (Some max_bytes).

(** The option opened, or the error [code]. *)
Definition require {A} (code : FileChangeErrorCode) (o : option A) : FileChangeResultValue A := ok_or o code.

Definition read_required (parent : BoundParent) (p : path) : change BoundCurrentFile :=
  current ← read_optional parent p; lift (require FileChange.FileMissing current).

(** ** Staged files *)

Record BoundStagedFile := mkStaged { staged_directory : N; staged_name : rstr; staged_file : N }.

(** An exchange leaves the old entry under the staged name. *)
Record BoundUpdateExchange := mkExchange { staged : BoundStagedFile }.

Definition exchange_raw (d : N) (source target : rstr) : io IoError () :=
  map_err (λ error,
    match raw_os_error error with
    | Some Errno.ENOSYS | Some Errno.EINVAL | Some Errno.EOPNOTSUPP => Custom ErrorKind.Unsupported
    | _ => error
    end) (renameat_exchange d source target).

Definition rename_noreplace_raw (d : N) (source target : rstr) : io IoError () :=
  map_err (λ error,
    match raw_os_error error with
    | Some Errno.ENOSYS | Some Errno.EINVAL => Custom ErrorKind.Unsupported
    | _ => error
    end) (renameat_noreplace d source target).

Definition stage_name (id : rstr) : rstr := rs ".file-change-stage-" ++ id ++ rs ".tmp".

(** [BoundStagedFile::drop] while the name is still to be cleaned up. *)
Definition drop_staged (s : BoundStagedFile) : io IoError () := unlinkat (staged_directory s) (staged_name s).

Section Staging.
Context (uuid : N → rstr).

(** What is done with a file that was created: it is removed when that fails. *)
Definition fill (d : N) (name : rstr) (content : rstr) (mode : option N) (file : N) : change BoundStagedFile :=
  on_error (unlinkat d name) (map_err staging_error
    (_ ← write_all file (as_bytes content);
     _ ← fsync file;
     _ ← match mode with
         | Some mode => _ ← set_permissions file mode; fsync file
         | None => mret ()
         end;
     _ ← dup d;
     mret (mkStaged d name file))).

Fixpoint stage_attempts (attempts : nat) (d : N) (content : rstr) (mode : option N) : change BoundStagedFile :=
  match attempts with
  | O => fail FileChange.Conflict
  | S attempts =>
      id ← draw uuid;
      let name := stage_name id in
      created ← attempt (openat_create d name 384);
      match created with
      | Err error =>
          if bool_decide (raw_os_error error = Some Errno.EEXIST) then stage_attempts attempts d content mode
          else fail (staging_error error)
      | Ok file => fill d name content mode file
      end
  end.

Definition stage (parent : BoundParent) (content : rstr) (mode : option N) : change BoundStagedFile :=
  stage_attempts 16 (directory parent) content mode.
End Staging.

Definition in_parent (parent : BoundParent) (p : path) : result IoError rstr :=
  leaf_name_io (canonical_parent (bound_target parent)) p.

Definition publish_noreplace (parent : BoundParent) (s : BoundStagedFile) (target : path) : io IoError () :=
  on_error (drop_staged s)
    (name ← lift (in_parent parent target);
     rename_noreplace_raw (directory parent) (staged_name s) name).

Definition publish_exchange (parent : BoundParent) (s : BoundStagedFile) (target : path) :
    io IoError BoundUpdateExchange :=
  on_error (drop_staged s)
    (name ← lift (in_parent parent target);
     _ ← exchange_raw (directory parent) (staged_name s) name;
     mret (mkExchange s)).

Definition read_exchanged (parent : BoundParent) (e : BoundUpdateExchange) : change BoundCurrentFile :=
  current ← read_name (directory parent) (staged_name (staged e)) None;
  lift (require FileChange.OutcomeUnknown current).

Definition rollback_exchange (parent : BoundParent) (e : BoundUpdateExchange) (target : path) : io IoError () :=
  name ← lift (in_parent parent target);
  exchange_raw (directory parent) (staged_name (staged e)) name.

Definition exchanged_is_staged_target (e : BoundUpdateExchange) (current : BoundCurrentFile) : io IoError bool :=
  m ← fstat (staged_file (staged e));
  mret (same_file_identity m (metadata current)).

Definition remove_exchanged (parent : BoundParent) (e : BoundUpdateExchange) : io IoError () :=
  unlinkat (directory parent) (staged_name (staged e)).

Definition rename_noreplace (parent : BoundParent) (source target : path) : io IoError () :=
  source ← lift (in_parent parent source);
  target ← lift (in_parent parent target);
  rename_noreplace_raw (directory parent) source target.

Definition remove (parent : BoundParent) (p : path) : io IoError () :=
  name ← lift (in_parent parent p); unlinkat (directory parent) name.

Definition sync (parent : BoundParent) : io IoError () := fsync (directory parent).
