(* ===== verification/BoundIoFacts.v ===== *)
(** * What the bound reads see

    Every look of [bound_io.rs] is honest, and what it gives for a target whose
    parent is reached through real directories ([bound]). *)

From stdpp Require Import gmap.
From S2P Require Import Prelude RustText RustPath Posix FileChangeError TraceItems FileChangeModel.
From S2P Require Import FileChangeBinding BoundIo.

(** ** Honesty *)

Abbreviation any_code := (λ _ : FileChangeErrorCode, True).

Lemma honest_io {A} (f : IoError → FileChangeErrorCode) (op : FileSystem → result Errno.Errno A) :
  honest any_code (map_err f (observe op)).
Proof. eapply honest_map_err; [apply honest_observe|done]. Qed.

(** A computation that tells a missing name from the other errors. *)
Lemma honest_found {A B} (op : FileSystem → result Errno.Errno A) (k : A → change B) (missing : change B) f :
  (∀ a, honest any_code (k a)) → honest any_code missing →
  honest any_code (found ← attempt (observe op);
    match found with
    | Err error => if bool_decide (kind error = ErrorKind.NotFound) then missing else fail (f error)
    | Ok a => k a
    end).
Proof.
  intros Hk Hm. eapply honest_attempt; [apply honest_observe|..].
  - intros [a|e]; [apply Hk|]. case_bool_decide; [done|apply honest_fail].
  - intros e He. destruct e as [errno|]; [|done]. exists (f (Os errno)).
    rewrite bool_decide_eq_false_2; [done|]. intros Hn. by destruct errno.
Qed.

Create HintDb honest.
Ltac honest_tac :=
  repeat first
    [ solve [auto with honest] | apply honest_io | apply honest_ret | apply honest_fail | apply honest_lift
    | apply honest_bind | intros ? | case_match ].

Lemma honest_grant_identity p : honest any_code (read_grant_identity p).
Proof. unfold read_grant_identity, symlink_metadata. honest_tac. Qed.
Lemma honest_directory_identity p : honest any_code (read_directory_identity p).
Proof. unfold read_directory_identity, symlink_metadata. honest_tac. Qed.
Lemma honest_canonical p : honest any_code (canonical_directory p).
Proof. unfold canonical_directory, symlink_metadata, canonicalize. honest_tac. Qed.
Lemma honest_components current rest : honest any_code (validate_components current rest).
Proof.
  revert current. induction rest as [|c rest IH]; intros current; cbn [validate_components]; [apply honest_ret|].
  apply honest_found; [|done]. intros m. honest_tac.
Qed.
Lemma honest_leaf p : honest any_code (validate_leaf p).
Proof. apply honest_found; [|apply honest_ret]. intros m. honest_tac. Qed.
#[export] Hint Resolve honest_grant_identity honest_directory_identity honest_canonical honest_components honest_leaf : honest.

Lemma honest_revalidate_target t : honest any_code (revalidate_target t).
Proof. unfold revalidate_target, validate_existing_components_no_symlink. honest_tac.
Qed.

Lemma honest_matches d p : honest any_code (map_err open_parent_error (directory_matches_path d p)).
Proof.
  eapply (honest_map_err true_error); [|done]. unfold directory_matches_path, fstat, symlink_metadata.
  repeat first [apply honest_observe | apply honest_ret | apply honest_bind | intros ?].
Qed.
Lemma honest_open_directory p : honest any_code (map_err open_parent_error (open_directory p)).
Proof.
  eapply (honest_map_err true_error); [|done]. unfold open_directory, open_directory_at.
  destruct (existsb _ _); [apply honest_fail|apply honest_observe].
Qed.
#[export] Hint Resolve honest_revalidate_target honest_matches honest_open_directory : honest.

Lemma honest_open_parent t : honest any_code (open_parent t).
Proof. unfold open_parent. honest_tac. Qed.
Lemma honest_revalidate_parent parent : honest any_code (revalidate_parent parent).
Proof. unfold revalidate_parent. honest_tac. Qed.

Lemma honest_read_open d name limit file : honest any_code (read_open d name limit file).
Proof. unfold read_open, fstat, read_to_end, stat_at. honest_tac. Qed.
Lemma honest_read_name d name limit : honest any_code (read_name d name limit).
Proof.
  unfold read_name, openat_read. eapply honest_attempt; [apply honest_observe|..].
  - intros [file|e]; [apply honest_read_open|]. case_bool_decide; [apply honest_ret|apply honest_fail].
  - intros e He. destruct e as [errno|]; [|done]. eexists. rewrite bool_decide_eq_false_2; [done|].
    intros [= ->]. done.
Qed.
#[export] Hint Resolve honest_open_parent honest_revalidate_parent honest_read_open honest_read_name : honest.

Lemma honest_read_optional parent p limit : honest any_code (read_optional_with_limit parent p limit).
Proof. unfold read_optional_with_limit. honest_tac. Qed.
#[export] Hint Resolve honest_read_optional : honest.
Lemma honest_read_required parent p : honest any_code (read_required parent p).
Proof. unfold read_required, read_optional. honest_tac. Qed.
Lemma honest_read_exchanged parent e : honest any_code (read_exchanged parent e).
Proof. unfold read_exchanged. honest_tac. Qed.
#[export] Hint Resolve honest_read_required honest_read_exchanged : honest.

(** ** Walking through real directories *)

Section Walk.
Context (links : nat) (f : FileSystem) (follow : bool).

Lemma walk_nil here : walk links f follow here [] = Ok here.
Proof. by destruct links. Qed.

Lemma walk_root here p : walk links f follow here (RootDir :: p) = walk links f follow [] p.
Proof. by destruct links. Qed.

Lemma walk_directory here name i p :
  entry f (inode_at f here) name = Some i → is_Some (entries_of f i) →
  walk links f follow here (Normal name :: p) = walk links f follow ((name, i) :: here) p.
Proof.
  unfold entry. intros He [es Hes]. destruct (entries_of f (inode_at f here)) as [es0|] eqn:E0; [|done]. cbn in He.
  unfold entries_of in Hes. destruct (inodes f !! i) as [[[| | |] ? ? ? ?]|] eqn:Ei; try done.
  destruct links; cbn [walk]; rewrite E0, He; cbn; by rewrite Ei.
Qed.

Lemma walk_file here name i bytes mode nlink mtime device :
  entry f (inode_at f here) name = Some i → inodes f !! i = Some (mkInode (Regular bytes) mode nlink mtime device) →
  walk links f follow here [Normal name] = Ok ((name, i) :: here).
Proof.
  unfold entry. intros He Hi. destruct (entries_of f (inode_at f here)) as [es0|] eqn:E0; [|done]. cbn in He.
  destruct links; cbn [walk]; rewrite E0, He; cbn; by rewrite Hi.
Qed.

Lemma walk_missing here name p :
  is_Some (entries_of f (inode_at f here)) → entry f (inode_at f here) name = None →
  walk links f follow here (Normal name :: p) = Err Errno.ENOENT.
Proof.
  unfold entry. intros [es E0]. rewrite E0. cbn. intros He. destruct links; cbn [walk]; by rewrite E0, He.
Qed.
End Walk.

(** The directories on the way down from [i], with their names. *)
Fixpoint trail (f : FileSystem) (i : N) (names : list rstr) : option place :=
  match names with
  | [] => Some []
  | name :: names =>
      j ← entry f i name;
      _ ← entries_of f j;
      rest ← trail f j names;
      Some ((name, j) :: rest)
  end.

Fixpoint end_of (i : N) (tr : place) : N := match tr with [] => i | (_, j) :: tr => end_of j tr end.

Lemma inode_at_trail f here tr : inode_at f (rev tr ++ here) = end_of (inode_at f here) tr.
Proof.
  revert here. induction tr as [|[name j] tr IH]; intros here; [done|]. cbn [rev end_of].
  rewrite <- app_assoc. cbn. by rewrite IH.
Qed.

Lemma trail_cons f i name names tr :
  trail f i (name :: names) = Some tr ↔
  ∃ j rest, entry f i name = Some j ∧ is_Some (entries_of f j) ∧ trail f j names = Some rest ∧ tr = (name, j) :: rest.
Proof.
  cbn [trail]. destruct (entry f i name) as [j|]; cbn; [|by split; [|intros (? & ? & [=] & _)]].
  destruct (entries_of f j) as [es|] eqn:Ej; cbn.
  - destruct (trail f j names) as [rest|] eqn:Et; cbn.
    + split; [intros [= <-]; eauto 10|]. intros (j' & rest' & [= <-] & _ & H & ->). congruence.
    + split; [done|]. intros (j' & rest' & [= <-] & _ & H & _). congruence.
  - split; [done|]. intros (j' & rest & [= <-] & [es He] & _). congruence.
Qed.

Lemma trail_app f i xs ys tr :
  trail f i (xs ++ ys) = Some tr ↔
  ∃ tr1 tr2, trail f i xs = Some tr1 ∧ trail f (end_of i tr1) ys = Some tr2 ∧ tr = tr1 ++ tr2.
Proof.
  revert i tr. induction xs as [|x xs IH]; intros i tr.
  - cbn. split; [intros H; by exists [], tr|]. by intros (? & ? & [= <-] & H & ->).
  - rewrite <- app_comm_cons, trail_cons. setoid_rewrite trail_cons. setoid_rewrite IH. split.
    + intros (j & rest & He & Hd & (tr1 & tr2 & H1 & H2 & ->) & ->). exists ((x, j) :: tr1), tr2. split; [eauto 10|done].
    + intros (tr1 & tr2 & (j & rest & He & Hd & H1 & ->) & H2 & ->). exists j, (rest ++ tr2). eauto 10.
Qed.

Lemma trail_names f i names tr : trail f i names = Some tr → map fst tr = names.
Proof.
  revert i tr. induction names as [|x names IH]; intros i tr; [by intros [= <-]|].
  rewrite trail_cons. intros (j & rest & _ & _ & H & ->). cbn. f_equal. by eapply IH.
Qed.

Lemma trail_end f i names tr : is_Some (entries_of f i) → trail f i names = Some tr → is_Some (entries_of f (end_of i tr)).
Proof.
  revert i tr. induction names as [|x names IH]; intros i tr Hi; [by intros [= <-]|].
  rewrite trail_cons. intros (j & rest & _ & Hj & H & ->). cbn. by eapply IH.
Qed.

Lemma walk_trail links f follow here names tr p :
  trail f (inode_at f here) names = Some tr →
  walk links f follow here (map Normal names ++ p) = walk links f follow (rev tr ++ here) p.
Proof.
  revert here tr. induction names as [|x names IH]; intros here tr; [by intros [= <-]|].
  rewrite trail_cons. intros (j & rest & He & Hj & H & ->).
  cbn [map]. rewrite <- app_comm_cons, (walk_directory _ _ _ here x j) by done.
  rewrite (IH ((x, j) :: here) rest H). cbn [rev]. by rewrite <- app_assoc.
Qed.

(** ** Targets that are where they were resolved *)

Definition names_path (names : list rstr) : path := RootDir :: map Normal names.

(** The directory [d] under a path of real directories; in a tree it is met
    only at its end. *)
Definition reaches (f : FileSystem) (names : list rstr) (d : N) : Prop :=
  ∃ tr, trail f (root_inode f) names = Some tr ∧ end_of (root_inode f) tr = d
  ∧ ∀ xs, xs `prefix_of` names → xs ≠ names → ∀ tr', trail f (root_inode f) xs = Some tr' → end_of (root_inode f) tr' ≠ d.

Definition regular (f : FileSystem) (i : N) (bytes : list N) (mode : N) : Prop :=
  ∃ mtime device, inodes f !! i = Some (mkInode (Regular bytes) mode 1 mtime device).

(** What is under a name: nothing, or a regular file with one link. *)
Definition holds (f : FileSystem) (d : N) (name : rstr) (content : option (list N * N)) : Prop :=
  match content with
  | None => entry f d name = None
  | Some (bytes, mode) => ∃ i, entry f d name = Some i ∧ regular f i bytes mode
  end.

Record bound (f : FileSystem) (t : ResolvedFileChangeTarget) (names : list rstr) (leaf : rstr) (d : N) : Prop := {
  bound_parent : canonical_parent t = names_path names;
  bound_path : absolute_path t = names_path names ++ [Normal leaf];
  bound_valid : Forall valid_name (names ++ [leaf]);
  bound_printable : Forall (λ name, 0%N ∉ name) (names ++ [leaf]);
  bound_root : is_Some (entries_of f (root_inode f));
  bound_reaches : reaches f names d;
  bound_identity : (λ inode, mkDirectoryIdentity (device inode) d) <$> inodes f !! d = Some (parent_identity t);
  bound_workspace :
    match workspace_root_identity t with
    | None => True
    | Some (root, identity) =>
        ∃ above r inode below, root = names_path above ∧ names = above ++ below ∧ inodes f !! r = Some inode
        ∧ (∃ tr, trail f (root_inode f) above = Some tr ∧ end_of (root_inode f) tr = r)
        ∧ identity = UnixDirectory FILE_CHANGE_RUN_GRANT_SCHEMA_VERSION (device inode) r
    end
}.

Lemma honest_looks {E A} fault (m : io E A) : honest fault m → looks m.
Proof. by intros []. Qed.

Lemma saw_then {A B} (m : change A) (k : A → change B) f a r :
  honest any_code m → saw m f = Some (Ok a) → saw (k a) f = r → saw (m ≫= k) f = r.
Proof. intros H Hs <-. apply saw_bind_ok; [by eapply honest_looks|done]. Qed.

Lemma lstat_directory f names tr inode :
  trail f (root_inode f) names = Some tr → inodes f !! end_of (root_inode f) tr = Some inode →
  lstat f (names_path names) = Ok (mkMetadata (end_of (root_inode f) tr) inode).
Proof.
  intros Ht Hi. unfold lstat, resolve, names_path. rewrite walk_root.
  rewrite <- (app_nil_r (map Normal names)), (walk_trail _ _ _ [] _ _ _ Ht), app_nil_r, walk_nil.
  cbn. rewrite <- (app_nil_r (rev tr)), inode_at_trail. cbn [inode_at]. unfold stat_inode. by rewrite Hi.
Qed.

Section Bound.
Context (f : FileSystem) (t : ResolvedFileChangeTarget) (names : list rstr) (leaf : rstr) (d : N).
Hypothesis Hb : bound f t names leaf d.

Definition leaf_path : path := names_path names ++ [Normal leaf].

Lemma bound_trail : ∃ tr, trail f (root_inode f) names = Some tr ∧ end_of (root_inode f) tr = d.
Proof using Hb. destruct (bound_reaches _ _ _ _ _ Hb) as (tr & Ht & He & _). eauto. Qed.

Lemma bound_directory : ∃ inode, inodes f !! d = Some inode ∧ is_Some (entries_of f d)
  ∧ parent_identity t = mkDirectoryIdentity (device inode) d.
Proof using Hb.
  pose proof (bound_identity _ _ _ _ _ Hb) as Hi. destruct bound_trail as (tr & Ht & He).
  pose proof (trail_end _ _ _ _ (bound_root _ _ _ _ _ Hb) Ht) as Hd. rewrite He in Hd.
  destruct (inodes f !! d) as [inode|] eqn:E; [|done]. injection Hi as <-. eauto.
Qed.

Lemma is_dir_entries i inode : inodes f !! i = Some inode → is_Some (entries_of f i) →
  is_dir (mkMetadata i inode) = true ∧ is_symlink (mkMetadata i inode) = false.
Proof.
  intros Hi [es He]. unfold entries_of in He. rewrite Hi in He. by destruct inode as [[] ? ? ? ?].
Qed.

Lemma lstat_leaf content :
  holds f d leaf content →
  match content with
  | None => lstat f leaf_path = Err Errno.ENOENT
  | Some (bytes, mode) => ∃ i mtime device, entry f d leaf = Some i
      ∧ inodes f !! i = Some (mkInode (Regular bytes) mode 1 mtime device)
      ∧ lstat f leaf_path = Ok (mkMetadata i (mkInode (Regular bytes) mode 1 mtime device))
  end.
Proof using Hb.
  intros Hh. destruct bound_trail as (tr & Ht & He).
  pose proof (trail_end _ _ _ _ (bound_root _ _ _ _ _ Hb) Ht) as Hd.
  assert (lstat f leaf_path = here ← walk 40 f false (rev tr ++ []) [Normal leaf]; stat_inode f (inode_at f here)) as Hl.
  { unfold lstat, resolve, leaf_path, names_path. rewrite <- app_comm_cons, walk_root.
    by rewrite (walk_trail _ _ _ [] _ _ _ Ht). }
  assert (inode_at f (rev tr ++ []) = d) as Hin by (by rewrite inode_at_trail).
  destruct content as [[bytes mode]|]; cbn in Hh.
  - destruct Hh as (i & Hi & mtime & device & Hr). exists i, mtime, device. split_and!; [done..|].
    rewrite Hl, (walk_file _ _ _ _ _ i bytes mode 1 mtime device) by (by rewrite ?Hin).
    cbn. unfold stat_inode. by rewrite Hr.
  - rewrite Hl, walk_missing; [done|..]; rewrite Hin; [by rewrite He in Hd|done].
Qed.

Lemma path_push_names xs x : path_push (names_path xs) (Normal x) = names_path (xs ++ [x]).
Proof. unfold names_path. by rewrite map_app. Qed.

Lemma saw_components pre post content :
  holds f d leaf content → names = pre ++ post →
  saw (validate_components (names_path pre) (map Normal post ++ [Normal leaf])) f = Some (Ok ()).
Proof using Hb.
  intros Hh. revert pre. induction post as [|x post IH]; intros pre Hn.
  - cbn [map app validate_components]. unfold symlink_metadata. rewrite saw_found, path_push_names.
    rewrite app_nil_r in Hn. subst pre. pose proof (lstat_leaf content Hh) as Hl.
    replace (names_path (names ++ [leaf])) with leaf_path by (unfold leaf_path, names_path; by rewrite map_app).
    destruct content as [[bytes mode]|].
    + destruct Hl as (i & mtime & device & _ & _ & ->). done.
    + by rewrite Hl.
  - cbn [map app validate_components]. unfold symlink_metadata. rewrite saw_found, path_push_names.
    rewrite (cons_middle x), app_assoc in Hn. destruct bound_trail as (tr & Ht & _).
    rewrite Hn in Ht. apply trail_app in Ht as (tr1 & tr2 & Ht & _).
    pose proof (trail_end _ _ _ _ (bound_root _ _ _ _ _ Hb) Ht) as Hd.
    assert (∃ inode, inodes f !! end_of (root_inode f) tr1 = Some inode) as [inode Hi].
    { destruct Hd as [es He]. unfold entries_of in He. destruct (inodes f !! _); eauto. done. }
    rewrite (lstat_directory _ _ _ _ Ht Hi). destruct (is_dir_entries _ _ Hi Hd) as [-> ->].
    rewrite andb_false_r. by apply IH.
Qed.

Lemma saw_canonical : saw (canonical_directory (canonical_parent t)) f = Some (Ok (canonical_parent t)).
Proof using Hb.
  rewrite (bound_parent _ _ _ _ _ Hb). destruct bound_trail as (tr & Ht & He).
  destruct bound_directory as (inode & Hi & Hd & _). rewrite <- He in Hi, Hd.
  destruct (is_dir_entries _ _ Hi Hd) as [H1 H2].
  unfold canonical_directory, symlink_metadata. eapply saw_then; [apply honest_io|by apply saw_io, lstat_directory|].
  rewrite H1, H2. cbn [negb]. apply saw_io. unfold resolve, names_path at 1. rewrite walk_root.
  rewrite <- (app_nil_r (map Normal names)), (walk_trail _ _ _ [] _ _ _ Ht), app_nil_r, walk_nil. cbn.
  rewrite rev_involutive. unfold names_path. do 3 f_equal. rewrite <- (trail_names _ _ _ _ Ht), map_map. done.
Qed.

Lemma saw_directory_identity : saw (read_directory_identity (canonical_parent t)) f = Some (Ok (parent_identity t)).
Proof using Hb.
  rewrite (bound_parent _ _ _ _ _ Hb). destruct bound_trail as (tr & Ht & He).
  destruct bound_directory as (inode & Hi & Hd & ->). rewrite <- He in Hi, Hd |- *.
  destruct (is_dir_entries _ _ Hi Hd) as [H1 H2].
  unfold read_directory_identity, symlink_metadata.
  eapply saw_then; [apply honest_io|by apply saw_io, lstat_directory|]. by rewrite H1, H2.
Qed.

Lemma saw_workspace :
  saw (match workspace_root_identity t with
       | Some (root, identity) =>
           current ← read_grant_identity root;
           lift (ensure (bool_decide (current = identity)) FileChange.Conflict)
       | None => mret ()
       end) f = Some (Ok ()).
Proof using Hb.
  pose proof (bound_workspace _ _ _ _ _ Hb) as H. destruct (workspace_root_identity t) as [[root identity]|]; [|done].
  destruct H as (above & r & inode & below & -> & _ & Hi & (tr & Ht & He) & ->).
  assert (is_Some (entries_of f r)) as Hd by (rewrite <- He; by eapply trail_end, Ht; apply (bound_root _ _ _ _ _ Hb)).
  destruct (is_dir_entries _ _ Hi Hd) as [H1 H2].
  eapply saw_then; [apply honest_grant_identity|..].
  - unfold read_grant_identity, symlink_metadata. rewrite <- He in Hi, H1, H2 |- *.
    eapply saw_then; [apply honest_io|by apply saw_io, lstat_directory|]. by rewrite H1, H2.
  - rewrite bool_decide_eq_true_2; [done|]. cbn. by rewrite He.
Qed.

Lemma saw_revalidate_target content :
  holds f d leaf content → saw (revalidate_target t) f = Some (Ok ()).
Proof using Hb.
  intros Hh. unfold revalidate_target.
  eapply saw_then; [honest_tac|apply saw_workspace|].
  eapply saw_then; [unfold validate_existing_components_no_symlink; honest_tac|..].
  { rewrite (bound_path _ _ _ _ _ Hb). unfold validate_existing_components_no_symlink, names_path.
    cbn [app validate_components]. unfold symlink_metadata. rewrite saw_found.
    pose proof (bound_root _ _ _ _ _ Hb) as Hr.
    assert (∃ inode, inodes f !! root_inode f = Some inode) as [inode Hi].
    { destruct Hr as [es He]. unfold entries_of in He. destruct (inodes f !! _); [eauto|done]. }
    change (path_push [] RootDir) with (names_path []).
    rewrite (lstat_directory f [] [] inode eq_refl Hi). cbn [end_of]. destruct (is_dir_entries _ _ Hi Hr) as [-> ->].
    rewrite andb_false_r. by eapply saw_components. }
  eapply saw_then; [honest_tac|apply saw_canonical|].
  rewrite (bool_decide_eq_true_2 (canonical_parent t = _)) by done.
  eapply saw_then; [honest_tac|done|].
  eapply saw_then; [honest_tac|apply saw_directory_identity|].
  rewrite bool_decide_eq_true_2 by done. eapply saw_then; [honest_tac|done|].
  unfold validate_leaf, symlink_metadata. rewrite saw_found, (bound_path _ _ _ _ _ Hb).
  pose proof (lstat_leaf content Hh) as Hl. unfold leaf_path in Hl. destruct content as [[bytes mode]|].
  - by destruct Hl as (i & mtime & device & _ & _ & ->).
  - by rewrite Hl.
Qed.

Lemma saw_matches :
  saw (map_err open_parent_error (directory_matches_path d (canonical_parent t))) f = Some (Ok true).
Proof using Hb.
  rewrite (bound_parent _ _ _ _ _ Hb). destruct bound_trail as (tr & Ht & He).
  destruct bound_directory as (inode & Hi & Hd & _). destruct (is_dir_entries _ _ Hi Hd) as [H1 H2].
  rewrite saw_map_err. unfold directory_matches_path, fstat, symlink_metadata.
  rewrite (saw_bind_ok _ _ _ (mkMetadata d inode)); [|apply looks_observe|].
  2:{ rewrite saw_observe. unfold stat_inode. by rewrite Hi. }
  rewrite (saw_bind_ok _ _ _ (mkMetadata d inode)); [|apply looks_observe|].
  2:{ rewrite saw_observe. rewrite <- He in Hi |- *. by rewrite (lstat_directory _ _ _ _ Ht Hi). }
  rewrite H1, H2, !N.eqb_refl. done.
Qed.

Lemma names_no_nul : existsb (existsb (N.eqb 0)) (map component_text (names_path names)) = false.
Proof using Hb.
  pose proof (bound_printable _ _ _ _ _ Hb) as Hp. apply Forall_app in Hp as [Hp _].
  apply existsb_false. intros s Hs. apply list_elem_of_fmap in Hs as (c & -> & Hc).
  unfold names_path in Hc. apply elem_of_cons in Hc as [->|Hc]; [done|].
  apply list_elem_of_fmap in Hc as (x & -> & Hx). cbn. apply existsb_false. intros c Hc.
  apply N.eqb_neq. intros <-. rewrite Forall_forall in Hp. by apply (Hp x Hx).
Qed.

Lemma saw_open_directory :
  saw (map_err open_parent_error (open_directory (canonical_parent t))) f = Some (Ok d).
Proof using Hb.
  rewrite (bound_parent _ _ _ _ _ Hb). destruct bound_trail as (tr & Ht & He).
  destruct bound_directory as (inode & Hi & Hd & _).
  unfold open_directory. rewrite names_no_nul. apply saw_io. unfold resolve, names_path. rewrite walk_root.
  rewrite <- (app_nil_r (map Normal names)), (walk_trail _ _ _ [] _ _ _ Ht), walk_nil. cbn.
  rewrite inode_at_trail. cbn [inode_at]. rewrite He. by destruct Hd as [es ->].
Qed.

Lemma saw_open_parent content : holds f d leaf content → saw (open_parent t) f = Some (Ok (mkParent t d)).
Proof using Hb.
  intros Hh. unfold open_parent.
  eapply saw_then; [honest_tac|by eapply saw_revalidate_target|].
  eapply saw_then; [honest_tac|apply saw_open_directory|].
  eapply saw_then; [honest_tac|by eapply saw_revalidate_target|].
  eapply saw_then; [honest_tac|apply saw_matches|]. done.
Qed.

Lemma saw_revalidate_parent content : holds f d leaf content → saw (revalidate_parent (mkParent t d)) f = Some (Ok ()).
Proof using Hb.
  intros Hh. unfold revalidate_parent. cbn [bound_target directory].
  eapply saw_then; [honest_tac|by eapply saw_revalidate_target|].
  eapply saw_then; [honest_tac|apply saw_matches|]. done.
Qed.
End Bound.

(** ** Reading a name *)

Definition current_of (f : FileSystem) (i : N) (bytes : list N) (mode : N) (current : BoundCurrentFile) : Prop :=
  ∃ mtime device, inodes f !! i = Some (mkInode (Regular bytes) mode 1 mtime device)
  ∧ current = mkCurrent bytes mode (mkMetadata i (mkInode (Regular bytes) mode 1 mtime device)).

Lemma saw_read_name f d name i bytes mode :
  entry f d name = Some i → regular f i bytes mode →
  ∃ current, current_of f i bytes mode current ∧ saw (read_name d name None) f = Some (Ok (Some current)).
Proof.
  intros He (time & on & Hi).
  exists (mkCurrent bytes mode (mkMetadata i (mkInode (Regular bytes) mode 1 time on))).
  split; [by exists time, on|].
  unfold read_name, openat_read. rewrite saw_found. unfold stat_inode at 1. rewrite He. cbn [ok_or mbind result_bind].
  rewrite Hi. cbn -[read_open]. unfold read_open, fstat, read_to_end, stat_at.
  assert (stat_inode f i = Ok (mkMetadata i (mkInode (Regular bytes) mode 1 time on))) as Hs
    by (unfold stat_inode; by rewrite Hi).
  repeat (eapply saw_then; [honest_tac|first [by apply saw_io; rewrite ?He, ?Hi; cbn; rewrite ?Hs | done]|]).
  unfold same_open_file, same_open_file_stat, same_file_identity, len, dev. cbn [seen ino node nlink mtime device].
  by rewrite !N.eqb_refl.
Qed.

Lemma saw_read_missing f d name :
  is_Some (entries_of f d) → entry f d name = None → saw (read_name d name None) f = Some (Ok None).
Proof. intros _ He. unfold read_name, openat_read. rewrite saw_found, He. done. Qed.
