(* ===== verification/BoundIoEffects.v ===== *)
(** * What the bound writes change

    Each write of [bound_io.rs] changes some names of the bound directory and
    some inodes ([effect]), and leaves the target where it was resolved.

    After that: staging a file. *)

From stdpp Require Import gmap.
From S2P Require Import Prelude RustText RustPath Posix FileChangeError TraceItems FileChangeModel.
From S2P Require Import FileChangeBinding BoundIo BoundIoFacts.

(** New inodes get numbers that are not in use. *)
Definition numbered (f : FileSystem) : Prop := ∀ i, (next_inode f ≤ i)%N → inodes f !! i = None.

(** Only [d] of the directories may change, and it stays the directory it is. *)
Definition keeps_directories (d : N) (f f' : FileSystem) : Prop :=
  root_inode f' = root_inode f
  ∧ (∀ i, i ≠ d → is_Some (entries_of f i) → inodes f' !! i = inodes f !! i)
  ∧ (is_Some (entries_of f d) → is_Some (entries_of f' d))
  ∧ device <$> inodes f' !! d = device <$> inodes f !! d.

Record effect (d : N) (T : N → Prop) (P : rstr → Prop) (f f' : FileSystem) : Prop := {
  effect_directories : keeps_directories d f f';
  effect_numbers : (next_inode f ≤ next_inode f')%N;
  effect_numbered : numbered f → numbered f';
  effect_entries : ∀ name, ¬ P name → entry f' d name = entry f d name;
  effect_inodes : ∀ i, i ≠ d → ¬ T i → inodes f' !! i = inodes f !! i
}.

Section Effects.
Context (d : N).

Lemma keeps_directories_refl f : keeps_directories d f f.
Proof. by split_and!. Qed.

Lemma entries_of_eq f f' i : inodes f' !! i = inodes f !! i → entries_of f' i = entries_of f i.
Proof. unfold entries_of. by intros ->. Qed.

Lemma keeps_directories_trans f1 f2 f3 :
  keeps_directories d f1 f2 → keeps_directories d f2 f3 → keeps_directories d f1 f3.
Proof.
  intros (Hr & Hi & Hd & Hv) (Hr' & Hi' & Hd' & Hv'). split_and!; [congruence| |auto|congruence].
  intros i Hne He. rewrite Hi' by (try done; by rewrite (entries_of_eq f1) by (by apply Hi)). by apply Hi.
Qed.

Lemma effect_refl T P f : effect d T P f f.
Proof. split; [apply keeps_directories_refl|lia|done..]. Qed.

Lemma effect_trans T P f1 f2 f3 : effect d T P f1 f2 → effect d T P f2 f3 → effect d T P f1 f3.
Proof.
  intros [] []. split.
  - by eapply keeps_directories_trans.
  - lia.
  - auto.
  - intros name Hn. by rewrite effect_entries1, effect_entries0.
  - intros i Hne Hi. by rewrite effect_inodes1, effect_inodes0.
Qed.

Lemma effect_mono (T T' : N → Prop) (P P' : rstr → Prop) f f' :
  (∀ i, T i → T' i) → (∀ name, P name → P' name) → effect d T P f f' → effect d T' P' f f'.
Proof. intros HT HP []. split; auto. Qed.

Lemma effect_holds T P f f' name content :
  effect d T P f f' → ¬ P name → (∀ i, entry f d name = Some i → i ≠ d ∧ ¬ T i) →
  holds f d name content → holds f' d name content.
Proof.
  intros He Hn Hi. unfold holds. rewrite (effect_entries _ _ _ _ _ He name Hn).
  destruct content as [[bytes mode]|]; [|done]. intros (i & Hei & Hr). exists i. split; [done|].
  destruct (Hi i Hei). unfold regular. by rewrite (effect_inodes _ _ _ _ _ He).
Qed.

Lemma regular_not_directory f i bytes mode : regular f i bytes mode → entries_of f i = None.
Proof. intros (time & on & H). unfold entries_of. by rewrite H. Qed.

Lemma regular_numbered f i bytes mode : numbered f → regular f i bytes mode → (i < next_inode f)%N.
Proof. intros Hn (time & on & H). apply N.nle_gt. intros Hi. rewrite (Hn _ Hi) in H. done. Qed.

(** ** A target stays bound *)

Lemma trail_kept f f' i names tr :
  keeps_directories d f f' → is_Some (entries_of f i) →
  (∀ xs, xs `prefix_of` names → xs ≠ names → ∀ tr', trail f i xs = Some tr' → end_of i tr' ≠ d) →
  trail f i names = Some tr → trail f' i names = Some tr.
Proof.
  intros Hk. revert i tr. induction names as [|x names IH]; intros i tr Hi Hp; [done|].
  rewrite !trail_cons. intros (j & rest & He & Hj & Ht & ->). exists j, rest.
  pose proof Hk as (_ & Hin & Hd & _).
  assert (i ≠ d) as Hne by (by apply (Hp [] ltac:(apply prefix_nil) ltac:(done) [] eq_refl)).
  split_and!; [|..|done].
  - unfold entry. by rewrite (entries_of_eq f) by (by apply Hin).
  - destruct (decide (j = d)) as [->|Hjd]; [by apply Hd|]. by rewrite (entries_of_eq f) by (by apply Hin).
  - apply IH; [done| |done]. intros xs Hxs Hxn tr' Htr'.
    apply (Hp (x :: xs) ltac:(by apply prefix_cons) ltac:(congruence) ((x, j) :: tr')).
    apply trail_cons. eauto 10.
Qed.

Lemma bound_kept f f' t names leaf : keeps_directories d f f' → bound f t names leaf d → bound f' t names leaf d.
Proof.
  intros Hk [Hp Hpath Hv Hpr Hroot Hreach Hid Hws].
  pose proof Hk as (Hr & Hin & Hd & Hdev).
  destruct Hreach as (tr & Ht & He & Hpre).
  assert (∀ xs tr', xs `prefix_of` names → trail f (root_inode f) xs = Some tr' → trail f' (root_inode f) xs = Some tr') as Hkept.
  { intros xs tr' Hxs Htr'. eapply trail_kept; [done|done| |done].
    intros ys Hys Hne tr'' Hty. eapply Hpre; [by etrans| |done].
    intros ->. destruct Hys as [zs ->]. destruct Hxs as [zs' Hxs]. rewrite <- app_assoc in Hxs.
    apply (f_equal length) in Hxs. rewrite !length_app in Hxs. destruct zs; [by rewrite app_nil_r in Hne|cbn in Hxs; lia]. }
  split; [done..| | | |].
  - rewrite Hr. destruct (decide (root_inode f = d)) as [Hrd|Hrd].
    + rewrite Hrd in Hroot |- *. by apply Hd.
    + by rewrite (entries_of_eq f) by (by apply Hin).
  - exists tr. rewrite Hr. split_and!; [by apply Hkept|done|]. intros xs Hxs Hne tr' Htr'.
    assert (∃ tr'', trail f (root_inode f) xs = Some tr'') as [tr'' H''].
    { destruct Hxs as [ys ->]. apply trail_app in Ht as (tr1 & _ & Ht & _). eauto. }
    pose proof (Hkept xs tr'' Hxs H'') as H'. rewrite Htr' in H'. injection H' as ->. by eapply Hpre.
  - destruct (inodes f !! d) as [inode|] eqn:E; [|done]. cbn in Hid, Hdev.
    destruct (inodes f' !! d) as [inode'|]; [|done]. cbn in Hdev |- *. congruence.
  - destruct (workspace_root_identity t) as [[root identity]|]; [|done].
    destruct Hws as (above & r & inode & below & -> & -> & Hi & (rtr & Hrt & Hre) & ->).
    assert (∃ inode', inodes f' !! r = Some inode' ∧ device inode' = device inode) as (inode' & Hi' & Hdv).
    { destruct (decide (r = d)) as [->|Hrd].
      - rewrite Hi in Hdev. destruct (inodes f' !! d) as [inode'|]; [|done]. injection Hdev. eauto.
      - exists inode. rewrite Hin; [done..|]. rewrite <- Hre. by eapply trail_end. }
    exists above, r, inode', below. rewrite Hr, Hdv. split_and!; try done.
    exists rtr. split; [|done]. apply Hkept; [by apply prefix_app_r|done].
Qed.

Lemma bound_effect T P f f' t names leaf : effect d T P f f' → bound f t names leaf d → bound f' t names leaf d.
Proof. intros []. by apply bound_kept. Qed.
End Effects.

(** ** The effects of the writes *)

Lemma entries_of_Some f d es : entries_of f d = Some es → ∃ inode, inodes f !! d = Some inode ∧ node inode = Directory es.
Proof.
  unfold entries_of. destruct (inodes f !! d) as [[[|es'| |] m n tm dv]|]; try done. intros [= ->]. by eexists.
Qed.

Section Writes.
Context (d : N) (f : FileSystem) (es : gmap rstr N).
Hypothesis Hd : entries_of f d = Some es.

Lemma set_entries_eq es' : ∃ inode, inodes f !! d = Some inode ∧ set_entries f d es' = set_inode f d (set_node inode (Directory es') (clock f)).
Proof using Hd. destruct (entries_of_Some _ _ _ Hd) as (inode & Hi & _). exists inode. unfold set_entries. by rewrite Hi. Qed.

Lemma set_entries_effect (T : N → Prop) (P : rstr → Prop) es' :
  (∀ name, ¬ P name → es' !! name = es !! name) →
  effect d T P f (set_entries f d es') ∧ entries_of (set_entries f d es') d = Some es'
  ∧ ∀ i, i ≠ d → inodes (set_entries f d es') !! i = inodes f !! i.
Proof using Hd.
  intros HP. destruct (set_entries_eq es') as (inode & Hi & ->).
  assert (Hes : entries_of (set_inode f d (set_node inode (Directory es') (clock f))) d = Some es')
    by (unfold entries_of, set_inode; cbn; by rewrite lookup_insert_eq).
  assert (Hin : ∀ i, i ≠ d → inodes (set_inode f d (set_node inode (Directory es') (clock f))) !! i = inodes f !! i)
    by (intros i Hne; cbn; by rewrite lookup_insert_ne by done).
  split_and!; [|done|done]. split.
  - split_and!; [done|by intros; apply Hin|by eauto|]. cbn. by rewrite lookup_insert_eq, Hi.
  - done.
  - intros Hn i Hle. destruct (decide (i = d)) as [->|Hne]; [|by rewrite Hin; auto]. rewrite (Hn d Hle) in Hi. done.
  - intros name Hn. unfold entry. rewrite Hes, Hd. cbn. by apply HP.
  - intros i Hne _. by apply Hin.
Qed.

Lemma set_inode_effect (T : N → Prop) (P : rstr → Prop) i inode inode' :
  inodes f !! i = Some inode → entries_of f i = None → T i →
  effect d T P f (set_inode f i inode') ∧ (∀ j, j ≠ i → inodes (set_inode f i inode') !! j = inodes f !! j)
  ∧ inodes (set_inode f i inode') !! i = Some inode'.
Proof using Hd.
  intros Hi He HT. assert (i ≠ d) as Hne by congruence.
  assert (Hin : ∀ j, j ≠ i → inodes (set_inode f i inode') !! j = inodes f !! j)
    by (intros j Hj; cbn; by rewrite lookup_insert_ne by done).
  split_and!; [|done|cbn; by rewrite lookup_insert_eq]. split.
  - split_and!; [done|..].
    + intros j Hj [es' Hes]. apply Hin. congruence.
    + intros H. by rewrite (entries_of_eq f) by (by apply Hin).
    + by rewrite Hin.
  - done.
  - intros Hn j Hle. rewrite Hin; [by apply Hn|]. intros ->. rewrite (Hn i Hle) in Hi. done.
  - intros name _. unfold entry. by rewrite (entries_of_eq f) by (by apply Hin).
  - intros j Hj HTj. apply Hin. congruence.
Qed.

Lemma new_inode_effect (T : N → Prop) (P : rstr → Prop) inode' :
  numbered f → T (next_inode f) →
  let f' := set_inode (mkFs (inodes f) (root_inode f) (next_inode f + 1) (clock f)) (next_inode f) inode' in
  effect d T P f f' ∧ entries_of f' d = Some es ∧ inodes f' !! next_inode f = Some inode'.
Proof using Hd.
  intros Hn HT f'. destruct (entries_of_Some _ _ _ Hd) as (inode & Hi & _).
  assert (∀ j, is_Some (inodes f !! j) → j ≠ next_inode f) as Hne
    by (intros j [x Hj] ->; by rewrite (Hn (next_inode f)) in Hj).
  assert (Hin : ∀ j, j ≠ next_inode f → inodes f' !! j = inodes f !! j)
    by (intros j Hj; cbn; by rewrite lookup_insert_ne by done).
  assert (inodes f' !! d = inodes f !! d) as Hdd by (apply Hin, Hne; eauto).
  split_and!; [|by rewrite (entries_of_eq f)|cbn; by rewrite lookup_insert_eq]. split.
  - split_and!; [done|..].
    + intros j Hj [es' Hes]. apply Hin, Hne. destruct (entries_of_Some _ _ _ Hes) as (x & ? & _). eauto.
    + intros _. by rewrite (entries_of_eq f).
    + by rewrite Hdd.
  - cbn. lia.
  - intros _ j Hle. cbn in Hle. rewrite Hin by lia. apply Hn. lia.
  - intros name _. unfold entry. by rewrite (entries_of_eq f).
  - intros j Hj HTj. apply Hin. by intros ->.
Qed.
End Writes.

Section Rules.
Context (strict : bool) (d : N).
Implicit Types (w : World) (J : World → Prop).

Lemma wp_looked {E A} (f : IoError → E) (op : FileSystem → result Errno.Errno A) a (R : A → World → Prop) J w :
  op (fs w) = Ok a → (∀ w', same w w' → R a w') → (∀ w', same w w' → J w') →
  wp strict (map_err f (observe op)) R J w.
Proof.
  intros Hop HR HJ. apply wp_map_err. eapply wp_honest; [apply honest_observe| |done|done].
  by rewrite saw_observe, Hop.
Qed.

Lemma wp_create name mode (R : N → World → Prop) J w :
  is_Some (entries_of (fs w) d) → entry (fs w) d name = None → numbered (fs w) →
  (∀ i w', i = next_inode (fs w) → uuids w' = uuids w → effect d (eq i) (eq name) (fs w) (fs w') →
     i ≠ d → entry (fs w') d name = Some i → regular (fs w') i [] mode → R i w') →
  (∀ w', same w w' → J w') →
  wp strict (openat_create d name mode) R J w.
Proof.
  intros [es Hd] He Hn HR HJ. unfold entry in He. rewrite Hd in He. cbn in He.
  set (i := next_inode (fs w)).
  assert (i ≠ d) as Hid by (intros <-; unfold entries_of in Hd; by rewrite Hn in Hd).
  destruct (new_inode_effect d (fs w) es Hd (eq i) (eq name)
              (mkInode (Regular []) mode 1 (clock (fs w)) (from_option device 0%N (inodes (fs w) !! d))) Hn eq_refl)
    as (He1 & Hd1 & Hi1).
  destruct (set_entries_effect d _ es Hd1 (eq i) (eq name) (<[name := i]> es)) as (He2 & Hd2 & Hi2).
  { intros x Hx. by rewrite lookup_insert_ne by done. }
  match type of Hd2 with entries_of ?g _ = _ => set (f' := g) in * end.
  unfold openat_create. eapply (wp_syscall _ _ _ _ f'); [by rewrite Hd; cbn; rewrite He|..|done].
  intros w' Hw' Hu. apply HR; [done|done| |done| |]; rewrite Hw'.
  - by eapply effect_trans.
  - unfold entry. rewrite Hd2. cbn. by rewrite lookup_insert_eq.
  - eexists _, _. rewrite Hi2 by done. exact Hi1.
Qed.

Lemma wp_change_inode op i inode inode' (R : () → World → Prop) J w ev :
  is_Some (entries_of (fs w) d) → inodes (fs w) !! i = Some inode → entries_of (fs w) i = None →
  op (fs w) = Ok ((), set_inode (fs w) i inode', ev) →
  (∀ w', uuids w' = uuids w → effect d (eq i) (λ _, False) (fs w) (fs w') → inodes (fs w') !! i = Some inode' → R () w') →
  (∀ w', same w w' → J w') →
  wp strict (syscall op) R J w.
Proof.
  intros [es Hd] Hi Hn Hop HR HJ. eapply wp_syscall; [exact Hop|..|done]. intros w' Hw' Hu.
  destruct (set_inode_effect d (fs w) es Hd (eq i) (λ _, False) i inode inode' Hi Hn eq_refl) as (He & _ & Hi').
  apply HR; [done|by rewrite Hw'|by rewrite Hw'].
Qed.

Lemma wp_write i old mode bytes (R : () → World → Prop) J w :
  is_Some (entries_of (fs w) d) → regular (fs w) i old mode →
  (∀ w', uuids w' = uuids w → effect d (eq i) (λ _, False) (fs w) (fs w') → regular (fs w') i bytes mode → R () w') →
  (∀ w', same w w' → J w') →
  wp strict (write_all i bytes) R J w.
Proof.
  intros Hd Hr HR HJ. pose proof (regular_not_directory _ _ _ _ Hr) as Hn. destruct Hr as (time & on & Hi).
  eapply wp_change_inode; [done|done|done|by rewrite Hi|..|done].
  intros w' Hu He Hi'. apply HR; [done|done|]. by eexists _, _.
Qed.

Lemma wp_chmod i bytes mode mode' (R : () → World → Prop) J w :
  is_Some (entries_of (fs w) d) → regular (fs w) i bytes mode →
  (∀ w', uuids w' = uuids w → effect d (eq i) (λ _, False) (fs w) (fs w') → regular (fs w') i bytes mode' → R () w') →
  (∀ w', same w w' → J w') →
  wp strict (set_permissions i mode') R J w.
Proof.
  intros Hd Hr HR HJ. pose proof (regular_not_directory _ _ _ _ Hr) as Hn. destruct Hr as (time & on & Hi).
  eapply wp_change_inode; [done|done|done|by rewrite Hi|..|done].
  intros w' Hu He Hi'. apply HR; [done|done|]. by eexists _, _.
Qed.

Lemma wp_unlink name i bytes mode (R : () → World → Prop) J w :
  entry (fs w) d name = Some i → regular (fs w) i bytes mode →
  (∀ w', uuids w' = uuids w → effect d (eq i) (eq name) (fs w) (fs w') → entry (fs w') d name = None → R () w') →
  (∀ w', same w w' → J w') →
  wp strict (unlinkat d name) R J w.
Proof.
  intros He Hr HR HJ. pose proof (regular_not_directory _ _ _ _ Hr) as Hn. destruct Hr as (time & on & Hi).
  unfold entry in He. destruct (entries_of (fs w) d) as [es|] eqn:Hd; [|done]. cbn in He.
  destruct (set_inode_effect d (fs w) es Hd (eq i) (eq name) i _ (mkInode (Regular bytes) mode 0 time on) Hi Hn eq_refl)
    as (He1 & Hin & _).
  assert (i ≠ d) as Hid by congruence.
  assert (entries_of (set_inode (fs w) i (mkInode (Regular bytes) mode 0 time on)) d = Some es) as Hd1
    by (rewrite (entries_of_eq (fs w)); [done|by apply Hin]).
  destruct (set_entries_effect d _ es Hd1 (eq i) (eq name) (delete name es)) as (He2 & Hd2 & _).
  { intros x Hx. by rewrite lookup_delete_ne by done. }
  match type of Hd2 with entries_of ?g _ = _ => set (f' := g) in * end.
  unfold unlinkat. eapply (wp_syscall _ _ _ _ f'); [by rewrite Hd; cbn; rewrite He; cbn; rewrite Hi|..|done].
  intros w' Hw' Hu. apply HR; [done|..]; rewrite Hw'; [by eapply effect_trans|].
  unfold entry. rewrite Hd2. cbn. by rewrite lookup_delete_eq.
Qed.

Lemma wp_rename (f : IoError → IoError) source target i (R : () → World → Prop) J w :
  entry (fs w) d source = Some i → entry (fs w) d target = None →
  (∀ w', uuids w' = uuids w →
     effect d (λ _, False) (λ name, name = source ∨ name = target) (fs w) (fs w') →
     entry (fs w') d source = None → entry (fs w') d target = Some i → R () w') →
  (∀ w', same w w' → J w') →
  wp strict (map_err f (renameat_noreplace d source target)) R J w.
Proof.
  intros Hs Ht HR HJ. unfold entry in Hs, Ht. destruct (entries_of (fs w) d) as [es|] eqn:Hd; [|done]. cbn in Hs, Ht.
  assert (source ≠ target) as Hst by congruence.
  apply wp_map_err. unfold renameat_noreplace. eapply wp_syscall; [by rewrite Hd; cbn; rewrite Hs; cbn; rewrite Ht|..|done].
  intros w' Hw' Hu.
  destruct (set_entries_effect d _ es Hd (λ _, False) (λ name, name = source ∨ name = target)
              (<[target := i]> (delete source es))) as (He & Hd' & _).
  { intros x Hx. rewrite lookup_insert_ne by naive_solver. by rewrite lookup_delete_ne by naive_solver. }
  apply HR; [done|by rewrite Hw'|..]; rewrite Hw'; unfold entry; rewrite Hd'; cbn.
  - rewrite lookup_insert_ne by done. by rewrite lookup_delete_eq.
  - by rewrite lookup_insert_eq.
Qed.

Lemma wp_exchange (f : IoError → IoError) source target i j (R : () → World → Prop) J w :
  source ≠ target → entry (fs w) d source = Some i → entry (fs w) d target = Some j →
  (∀ w', uuids w' = uuids w →
     effect d (λ _, False) (λ name, name = source ∨ name = target) (fs w) (fs w') →
     entry (fs w') d source = Some j → entry (fs w') d target = Some i → R () w') →
  (∀ w', same w w' → J w') →
  wp strict (map_err f (renameat_exchange d source target)) R J w.
Proof.
  intros Hst Hs Ht HR HJ. unfold entry in Hs, Ht. destruct (entries_of (fs w) d) as [es|] eqn:Hd; [|done]. cbn in Hs, Ht.
  apply wp_map_err. unfold renameat_exchange. eapply wp_syscall; [by rewrite Hd; cbn; rewrite Hs; cbn; rewrite Ht|..|done].
  intros w' Hw' Hu.
  destruct (set_entries_effect d _ es Hd (λ _, False) (λ name, name = source ∨ name = target)
              (<[source := j]> (<[target := i]> es))) as (He & Hd' & _).
  { intros x Hx. rewrite !lookup_insert_ne by naive_solver. done. }
  apply HR; [done|by rewrite Hw'|..]; rewrite Hw'; unfold entry; rewrite Hd'; cbn.
  - by rewrite lookup_insert_eq.
  - rewrite lookup_insert_ne by done. by rewrite lookup_insert_eq.
Qed.
End Rules.

(** * Staging a file

    A staged file is a new inode under a name that was drawn for it; staging,
    and dropping a staged file, change nothing else. *)

Section Staging.
Context (uuid : N → rstr) (strict : bool) (d : N) (f0 : FileSystem) (n0 : N).
Hypothesis uuid_inj : ∀ j k, uuid j = uuid k → j = k.

(** The names that are drawn, from the [n]th on. *)
Definition drawn_from (n : N) (name : rstr) : Prop := ∃ k, (n ≤ k)%N ∧ name = stage_name (uuid k).
Definition drawn (name : rstr) : Prop := ∃ k, name = stage_name (uuid k).

Definition unused (w : World) : Prop := ∀ name, drawn_from (uuids w) name → entry (fs w) d name = None.

Definition newer (i : N) : Prop := (next_inode f0 ≤ i)%N.

(** Only new inodes and drawn names changed since [f0]. *)
Record staging (w : World) : Prop := {
  staging_effect : effect d newer (drawn_from n0) f0 (fs w);
  staging_numbered : numbered (fs w);
  staging_directory : is_Some (entries_of (fs w) d);
  staging_uuids : (n0 ≤ uuids w)%N;
  staging_unused : unused w
}.

Lemma stage_name_inj a b : stage_name a = stage_name b → a = b.
Proof. unfold stage_name. intros H%app_inv_head. by apply app_inv_tail in H. Qed.

(** A file of our own under a drawn name. *)
Definition own (name : rstr) (i : N) (bytes : list N) (mode : N) (w : World) : Prop :=
  staging w ∧ (∃ k, (n0 ≤ k < uuids w)%N ∧ name = stage_name (uuid k))
  ∧ entry (fs w) d name = Some i ∧ newer i ∧ regular (fs w) i bytes mode.

Lemma staging_same w w' : same w w' → staging w → staging w'.
Proof. intros [Hf Hu] []. split; rewrite ?Hf, ?Hu; [done..|]. intros name Hn. rewrite Hf. rewrite Hu in Hn. auto. Qed.

Lemma own_same name i bytes mode w w' : same w w' → own name i bytes mode w → own name i bytes mode w'.
Proof.
  intros Hs (Ht & Hk & He & Hi & Hr). pose proof Hs as [Hf Hu]. unfold own. rewrite Hf, Hu.
  split_and!; try done. by eapply staging_same.
Qed.

Lemma staging_step (T : N → Prop) (P : rstr → Prop) w w' :
  staging w → uuids w' = uuids w → effect d T P (fs w) (fs w') →
  (∀ i, T i → newer i) → (∀ name, P name → ∃ k, (n0 ≤ k < uuids w)%N ∧ name = stage_name (uuid k)) → staging w'.
Proof using uuid_inj.
  intros [He Hn Hd Hu Hun] Huu Hs HT HP. pose proof (effect_directories _ _ _ _ _ Hs) as (_ & _ & Hd' & _). split.
  - eapply effect_trans; [done|]. eapply effect_mono; [exact HT| |exact Hs].
    intros name Hp. destruct (HP name Hp) as (k & Hk & ->). exists k. split; [lia|done].
  - by apply (effect_numbered _ _ _ _ _ Hs).
  - auto.
  - by rewrite Huu.
  - intros name (k & Hk & ->). rewrite (effect_entries _ _ _ _ _ Hs).
    + apply Hun. exists k. rewrite <- Huu. done.
    + intros Hp. destruct (HP _ Hp) as (k' & Hk' & Heq). apply stage_name_inj, uuid_inj in Heq. lia.
Qed.

Lemma own_change name i bytes mode bytes' mode' w w' :
  own name i bytes mode w → uuids w' = uuids w → effect d (eq i) (λ _, False) (fs w) (fs w') →
  regular (fs w') i bytes' mode' → own name i bytes' mode' w'.
Proof using uuid_inj.
  intros (Ht & Hk & He & Hi & Hr) Hu Hs Hr'. split_and!.
  - by eapply staging_step; [done|done|done|intros ? <-|].
  - by rewrite Hu.
  - by rewrite (effect_entries _ _ _ _ _ Hs) by auto.
  - done.
  - done.
Qed.

Lemma own_removed name i bytes mode w w' :
  own name i bytes mode w → uuids w' = uuids w → effect d (eq i) (eq name) (fs w) (fs w') → staging w'.
Proof using uuid_inj.
  intros (Ht & Hk & He & Hi & Hr) Hu Hs. eapply staging_step; [done|done|done|by intros ? <-|].
  intros x <-. done.
Qed.

(** Dropping a staged file removes its name, or leaves it. *)
Lemma wp_drop_own name i bytes mode w :
  own name i bytes mode w → wp strict (unlinkat d name) (λ _, staging) staging w.
Proof using uuid_inj.
  intros Ho. pose proof Ho as (Ht & Hk & He & Hi & Hr). eapply wp_unlink; [done|done|..].
  - intros w' Hu Hs _. by eapply own_removed.
  - intros w' Hs. by eapply staging_same.
Qed.

Lemma wp_fill name content mode i w :
  own name i [] 384 w →
  wp strict (fill d name content mode i)
    (λ s w', s = mkStaged d name i ∧ own name i (as_bytes content) (default 384%N mode) w') staging w.
Proof using uuid_inj.
  intros Ho. unfold fill. eapply (wp_on_error _ _ (λ w, ∃ bytes mode, own name i bytes mode w)).
  2:{ intros w' Hs (bytes & m & Ho'). split; [apply Ho'|]. by eapply wp_drop_own. }
  apply wp_map_err, wp_bind. pose proof Ho as (Ht & Hk & He & Hi & Hr).
  eapply (wp_write _ d); [by apply staging_directory|done|..].
  2:{ intros w' Hs. exists [], 384%N. by eapply own_same. }
  intros w1 Hu1 Hs1 Hr1. pose proof (own_change _ _ _ _ _ _ _ _ Ho Hu1 Hs1 Hr1) as Ho1. clear Ho Ht Hk He Hr Hs1 Hr1 Hu1.
  apply wp_bind. eapply wp_honest; [apply honest_observe|done|..].
  2:{ intros w' Hs. cbv beta. eexists _, _. by eapply own_same. }
  intros w2 Hs2. apply (own_same _ _ _ _ _ _ Hs2) in Ho1. clear Hs2.
  apply wp_bind.
  assert (Hmode : wp strict (match mode with
      | Some mode => _ ← set_permissions i mode; fsync i
      | None => mret ()
      end) (λ _, own name i (as_bytes content) (default 384%N mode)) (λ w, ∃ bytes mode, own name i bytes mode w) w2).
  { destruct mode as [mode|]; [|by apply wp_ret].
    apply wp_bind. pose proof Ho1 as (Ht & Hk & He & _ & Hr). eapply (wp_chmod _ d); [by apply staging_directory|done|..].
    - intros w3 Hu3 Hs3 Hr3. pose proof (own_change _ _ _ _ _ _ _ _ Ho1 Hu3 Hs3 Hr3) as Ho3.
      eapply wp_honest; [apply honest_observe|done|..];
        intros w4 Hs4; [by eapply own_same|]. cbv beta. eexists _, _. by eapply own_same.
    - intros w3 Hs3. cbv beta. eexists _, _. by eapply own_same. }
  eapply wp_mono; [exact Hmode| |done]. cbv beta. intros _ w3 Ho3. apply wp_bind.
  eapply wp_honest; [apply honest_observe|done|..]; intros w4 Hs4.
  - apply wp_ret. split; [done|]. by eapply own_same.
  - cbv beta. eexists _, _. by eapply own_same.
Qed.

Lemma wp_stage_attempts attempts content mode w :
  staging w → (strict = true → attempts ≠ 0) →
  wp strict (stage_attempts uuid attempts d content mode)
    (λ s w', ∃ name i, s = mkStaged d name i ∧ own name i (as_bytes content) (default 384%N mode) w') staging w.
Proof using uuid_inj.
  revert w. induction attempts as [|attempts IH]; intros w Ht Ha; cbn [stage_attempts].
  - apply wp_fail; [|done]. destruct strict; [by destruct Ha|done].
  - apply wp_bind, wp_draw. set (w1 := mkWorld _ _ _ _). set (name := stage_name _).
    assert (staging w1) as Ht1.
    { destruct Ht as [He Hn Hd Hu Hun]. split; [done..|cbn; lia|]. intros x (k & Hk & ->). cbn in Hk.
      apply Hun. exists k. split; [lia|done]. }
    apply (wp_attempt _ _ staging).
    + eapply wp_create; [by apply staging_directory| |by apply staging_numbered|..].
      * cbn [fs w1]. apply (staging_unused _ Ht). exists (uuids w). by split.
      * intros i w2 -> Hu2 Hs2 Hid He2 Hr2. eapply wp_mono; [apply wp_fill|naive_solver|done].
        assert (newer (next_inode (fs w1))) as Hnew by (apply (effect_numbers _ _ _ _ _ (staging_effect _ Ht))).
        assert (∃ k, (n0 ≤ k < uuids w1)%N ∧ name = stage_name (uuid k)) as Hk.
        { exists (uuids w). pose proof (staging_uuids _ Ht). cbn. split; [lia|done]. }
        split_and!; [|by rewrite Hu2|done..].
        eapply staging_step; [exact Ht1|done|exact Hs2|by intros ? <-|by intros ? <-].
      * intros w2 Hs2. by eapply staging_same.
    + intros w2 Hs Ht2. split; [done|]. intros e.
      case_bool_decide; [apply IH; [done|by rewrite Hs]|by apply wp_fail].
Qed.

Lemma wp_stage t content mode w :
  staging w →
  wp strict (stage uuid (mkParent t d) content mode)
    (λ s w', ∃ name i, s = mkStaged d name i ∧ own name i (as_bytes content) (default 384%N mode) w') staging w.
Proof using uuid_inj. intros Ht. by apply wp_stage_attempts. Qed.
End Staging.
