(* ===== verification/FileChangeCommitter.v ===== *)
(** * Publishing a file change

    [core/src/file_change/committer.rs].  The journal of a delete is a mutable
    reference that an operation only changes when it succeeds: an operation
    takes the journal and gives the new one back. *)

From S2P Require Import Prelude RustText RustPath Posix Json HumanInteraction FileChangeError.
From S2P Require Import FileChangeDigest FileChangeModel FileChangeBinding FileChangePlanner BoundIo.

Module Reconciliation.
Inductive FileChangeReconciliation := DefinitelyNotExecuted | AlreadyApplied | OutcomeUnknown.
#[export] Instance reconciliation_eq_dec : EqDecision FileChangeReconciliation.
Proof. solve_decision. Defined.
End Reconciliation.
Abbreviation FileChangeReconciliation := Reconciliation.FileChangeReconciliation.
Export (hints) Reconciliation.

Definition fresh_conflict_code (op : FileChangeOperation) : FileChangeErrorCode :=
  match op with
  | Operation.Create => FileChange.FileExists
  | Operation.Update => FileChange.RevisionConflict
  | Operation.Delete => FileChange.OutcomeUnknown
  end.

Definition io_error (no_replace : bool) (error : IoError) : FileChangeErrorCode :=
  match kind error with
  | ErrorKind.AlreadyExists => if no_replace then FileChange.FileExists else FileChange.Failed
  | ErrorKind.NotFound => FileChange.FileMissing
  | ErrorKind.PermissionDenied => FileChange.PermissionDenied
  | _ => FileChange.Failed
  end.

Definition rename_conflict_error (error : IoError) : FileChangeErrorCode :=
  match kind error with
  | ErrorKind.AlreadyExists => FileChange.Conflict
  | ErrorKind.NotFound => FileChange.FileMissing
  | ErrorKind.PermissionDenied => FileChange.PermissionDenied
  | _ => FileChange.Failed
  end.

Definition outcome_unknown_io (error : IoError) : FileChangeErrorCode := FileChange.OutcomeUnknown.

Definition sync_after_publication (parent : BoundParent) : change () := map_err outcome_unknown_io (sync parent).

Definition required_target_content (p : FileChangePlan) : FileChangeResultValue rstr :=
  require FileChange.IllegalFieldCombination (plan_target_content p).

Definition required_digest (state : FileChangeContentState) : FileChangeResultValue rstr :=
  require FileChange.IllegalFieldCombination (state_digest state).

Definition validate_delete_target (t : ResolvedFileChangeTarget) (j : FileChangeDeleteJournal) :
    FileChangeResultValue () :=
  ensure (str_eqb (target_path j) (path_text (absolute_path t))) FileChange.IllegalFieldCombination.

Definition applied_commit (transaction_id : rstr) (t : ResolvedFileChangeTarget) (p : FileChangePlan)
    (committed_at : N) (status : FileChangeStatus) (journal : option FileChangeDeleteJournal) : FileChangeCommit :=
  mkCommit status
    (mkReceipt FILE_CHANGE_SCHEMA_VERSION transaction_id (operation p) (display_path t) Outcome.Applied
      (base p) (target p) (plan_proposal_digest p) committed_at) journal.

Definition tombstone (j : FileChangeDeleteJournal) : path := parse_path (tombstone_path j).

Section Committer.
Context {json : JsonServices} {diffs : TextDiffs} (sha256_hex : list N → rstr) (uuid : N → rstr).

Definition state_digest_matches (expected : rstr) (bytes : list N) : bool :=
  str_eqb (content_digest sha256_hex bytes) expected.

Definition state_matches (expected : FileChangeContentState) (bytes : list N) : bool :=
  match expected with
  | Content.Missing => false
  | Content.Present revision digest byte_count =>
      (byte_count =? N.of_nat (length bytes))%N && str_eqb revision (content_revision bytes)
      && str_eqb digest (content_digest sha256_hex bytes)
  end.

Definition ensure_state_matches (expected : FileChangeContentState) (bytes : list N) : FileChangeResultValue () :=
  ensure (state_matches expected bytes) FileChange.RevisionConflict.

Definition ensure_path_digest (parent : BoundParent) (p : path) (expected : rstr) : change () :=
  current ← read_required parent p;
  lift (ensure (state_digest_matches expected (file_bytes current)) FileChange.RevisionConflict).

Definition validate_transaction_and_plan (transaction_id : rstr) (t : ResolvedFileChangeTarget) (p : FileChangePlan) :
    FileChangeResultValue () :=
  _ ← validate_plan sha256_hex p;
  _ ← ensure (negb (is_blank transaction_id) && str_eqb (file_path p) (display_path t)) FileChange.InvalidArguments;
  _ ← ensure (operation_states_match (operation p) (base p) (target p)) FileChange.IllegalFieldCombination;
  ensure (valid_digest (plan_proposal_digest p) && valid_digest (plan_diff_digest p)) FileChange.InvalidArguments.

Definition validate_delete_journal (transaction_id : rstr) (t : ResolvedFileChangeTarget) (p : FileChangePlan)
    (j : FileChangeDeleteJournal) : FileChangeResultValue () :=
  _ ← validate_journal sha256_hex j;
  ensure (str_eqb (journal_transaction_id j) transaction_id
          && str_eqb (target_path j) (path_text (absolute_path t))
          && str_eqb (journal_proposal_digest j) (plan_proposal_digest p)
          && bool_decide (Some (base_digest j) = state_digest (base p))) FileChange.IllegalFieldCombination.

(** ** Preparing a delete *)

Definition prepare_delete (transaction_id : rstr) (t : ResolvedFileChangeTarget) (p : FileChangePlan) (now : N) :
    change FileChangeDeleteJournal :=
  _ ← lift (validate_transaction_and_plan transaction_id t p);
  _ ← lift (ensure (bool_decide (operation p = Operation.Delete)) FileChange.IllegalFieldCombination);
  parent ← open_parent t;
  base_digest ← lift (required_digest (base p));
  let target_path := path_text (absolute_path t) in
  let suffix := delete_journal_suffix sha256_hex transaction_id target_path base_digest (plan_proposal_digest p) in
  let journal_id := delete_journal_id suffix in
  let tombstone := path_join (canonical_parent t) (parse_path (tombstone_name journal_id)) in
  found ← read_optional parent tombstone;
  _ ← lift (ensure (negb (bool_decide (is_Some found))) FileChange.Conflict);
  let journal :=
    mkJournal FILE_CHANGE_SCHEMA_VERSION journal_id transaction_id target_path (path_text tombstone) base_digest
      (plan_proposal_digest p) JournalState.Prepared now now in
  _ ← lift (validate_journal sha256_hex journal);
  mret journal.

(** ** What a change has done *)

Definition reconcile_deleted (parent : BoundParent) (p : FileChangePlan) (journal : option FileChangeDeleteJournal) :
    change FileChangeReconciliation :=
  match journal with
  | None => mret Reconciliation.OutcomeUnknown
  | Some j =>
      _ ← lift (validate_journal sha256_hex j);
      _ ← lift (validate_delete_target (bound_target parent) j);
      if negb (str_eqb (journal_proposal_digest j) (plan_proposal_digest p)) then mret Reconciliation.OutcomeUnknown
      else
        match journal_state j with
        | JournalState.Tombstoned | JournalState.Prepared =>
            found ← read_optional parent (tombstone j);
            mret (if is_some_and found (λ file, state_digest_matches (base_digest j) (file_bytes file))
                  then Reconciliation.AlreadyApplied else Reconciliation.OutcomeUnknown)
        | JournalState.Finalized =>
            found ← read_optional parent (tombstone j);
            mret (match found with
                  | None => Reconciliation.AlreadyApplied
                  | Some _ => Reconciliation.OutcomeUnknown
                  end)
        | JournalState.RolledBack => mret Reconciliation.OutcomeUnknown
        end
  end.

Definition reconcile_bound (parent : BoundParent) (p : FileChangePlan) (journal : option FileChangeDeleteJournal) :
    change FileChangeReconciliation :=
  current ← read_optional parent (absolute_path (bound_target parent));
  match operation p, current with
  | Operation.Create, None => mret Reconciliation.DefinitelyNotExecuted
  | Operation.Create, Some current =>
      mret (if state_matches (target p) (file_bytes current) then Reconciliation.AlreadyApplied
            else Reconciliation.OutcomeUnknown)
  | Operation.Update, Some current =>
      mret (if state_matches (base p) (file_bytes current) then Reconciliation.DefinitelyNotExecuted
            else if state_matches (target p) (file_bytes current) then Reconciliation.AlreadyApplied
            else Reconciliation.OutcomeUnknown)
  | Operation.Update, None => mret Reconciliation.OutcomeUnknown
  | Operation.Delete, Some current =>
      mret (if state_matches (base p) (file_bytes current) then Reconciliation.DefinitelyNotExecuted
            else Reconciliation.OutcomeUnknown)
  | Operation.Delete, None => reconcile_deleted parent p journal
  end.

Definition reconcile (t : ResolvedFileChangeTarget) (p : FileChangePlan) (journal : option FileChangeDeleteJournal) :
    change FileChangeReconciliation :=
  parent ← open_parent t; reconcile_bound parent p journal.

(** ** Create *)

Definition commit_create (transaction_id : rstr) (t : ResolvedFileChangeTarget) (p : FileChangePlan)
    (committed_at : N) : change FileChangeCommit :=
  parent ← open_parent t;
  reconciled ← reconcile_bound parent p None;
  match reconciled with
  | Reconciliation.AlreadyApplied =>
      _ ← sync_after_publication parent;
      mret (applied_commit transaction_id t p committed_at Status.AlreadyApplied None)
  | Reconciliation.OutcomeUnknown => fail FileChange.FileExists
  | Reconciliation.DefinitelyNotExecuted =>
      current ← read_optional parent (absolute_path t);
      _ ← lift (ensure (negb (bool_decide (is_Some current))) FileChange.FileExists);
      target_content ← lift (required_target_content p);
      staged ← stage uuid parent target_content None;
      _ ← on_error (drop_staged staged) (revalidate_parent parent);
      _ ← map_err (io_error true) (publish_noreplace parent staged (absolute_path t));
      _ ← sync_after_publication parent;
      mret (applied_commit transaction_id t p committed_at Status.Applied None)
  end.

(** ** Update *)

Definition rollback_update_exchange (parent : BoundParent) (target_path : path) (p : FileChangePlan)
    (staged_permissions : N) (exchanged : BoundUpdateExchange) : change () :=
  _ ← map_err outcome_unknown_io (rollback_exchange parent exchanged target_path);
  restored_staged ← map_err (λ _, FileChange.OutcomeUnknown) (read_exchanged parent exchanged);
  staged_identity_matches ← map_err outcome_unknown_io (exchanged_is_staged_target exchanged restored_staged);
  _ ← lift (ensure (staged_identity_matches && state_matches (target p) (file_bytes restored_staged)
                    && (staged_permissions =? permissions restored_staged)%N) FileChange.OutcomeUnknown);
  _ ← map_err outcome_unknown_io (remove_exchanged parent exchanged);
  sync_after_publication parent.

(** Before the exchange; until then the staged file is dropped on an error. *)
Definition check_base_again (parent : BoundParent) (t : ResolvedFileChangeTarget) (p : FileChangePlan)
    (first : BoundCurrentFile) : change BoundCurrentFile :=
  _ ← revalidate_parent parent;
  second ← read_required parent (absolute_path t);
  _ ← lift (ensure_state_matches (base p) (file_bytes second));
  _ ← lift (ensure (permissions first =? permissions second)%N FileChange.Conflict);
  _ ← revalidate_parent parent;
  mret second.

Definition validate_displaced (parent : BoundParent) (p : FileChangePlan) (second : BoundCurrentFile)
    (exchanged : BoundUpdateExchange) : change () :=
  displaced ← read_exchanged parent exchanged;
  _ ← lift (ensure (same_file_identity (metadata second) (metadata displaced)) FileChange.RevisionConflict);
  _ ← lift (ensure_state_matches (base p) (file_bytes displaced));
  lift (ensure (permissions second =? permissions displaced)%N FileChange.Conflict).

Definition commit_update (transaction_id : rstr) (t : ResolvedFileChangeTarget) (p : FileChangePlan)
    (committed_at : N) : change FileChangeCommit :=
  parent ← open_parent t;
  reconciled ← reconcile_bound parent p None;
  match reconciled with
  | Reconciliation.AlreadyApplied =>
      _ ← sync_after_publication parent;
      mret (applied_commit transaction_id t p committed_at Status.AlreadyApplied None)
  | Reconciliation.OutcomeUnknown => fail FileChange.RevisionConflict
  | Reconciliation.DefinitelyNotExecuted =>
      first ← read_required parent (absolute_path t);
      _ ← lift (ensure_state_matches (base p) (file_bytes first));
      target_content ← lift (required_target_content p);
      staged ← stage uuid parent target_content (Some (permissions first));
      second ← on_error (drop_staged staged) (check_base_again parent t p first);
      exchanged ← map_err (io_error false) (publish_exchange parent staged (absolute_path t));
      displaced_validation ← attempt (validate_displaced parent p second exchanged);
      match displaced_validation with
      | Err validation_error =>
          _ ← rollback_update_exchange parent (absolute_path t) p (permissions second) exchanged;
          fail validation_error
      | Ok _ =>
          _ ← map_err outcome_unknown_io (remove_exchanged parent exchanged);
          _ ← sync_after_publication parent;
          mret (applied_commit transaction_id t p committed_at Status.Applied None)
      end
  end.

(** ** Delete *)

(** The file is renamed to its tombstone, and back when it was not the base. *)
Definition bury (parent : BoundParent) (t : ResolvedFileChangeTarget) (p : FileChangePlan)
    (j : FileChangeDeleteJournal) : change () :=
  _ ← revalidate_parent parent;
  current ← read_required parent (absolute_path t);
  _ ← lift (ensure_state_matches (base p) (file_bytes current));
  _ ← revalidate_parent parent;
  _ ← map_err rename_conflict_error (rename_noreplace parent (absolute_path t) (tombstone j));
  verified ← attempt (ensure_path_digest parent (tombstone j) (base_digest j));
  match verified with
  | Err _ =>
      restored ← attempt (rename_noreplace parent (tombstone j) (absolute_path t));
      _ ← attempt (sync parent);
      fail (match restored with Ok _ => FileChange.Conflict | Err _ => FileChange.OutcomeUnknown end)
  | Ok _ => sync_after_publication parent
  end.

Definition commit_delete (transaction_id : rstr) (t : ResolvedFileChangeTarget) (p : FileChangePlan)
    (committed_at : N) (j : FileChangeDeleteJournal) : change FileChangeCommit :=
  _ ← lift (validate_delete_journal transaction_id t p j);
  parent ← open_parent t;
  let tombstoned := set_journal_state JournalState.Tombstoned committed_at j in
  match journal_state j with
  | JournalState.Tombstoned | JournalState.Finalized =>
      reconciled ← reconcile_bound parent p (Some j);
      _ ← lift (ensure (bool_decide (reconciled = Reconciliation.AlreadyApplied)) FileChange.OutcomeUnknown);
      mret (applied_commit transaction_id t p committed_at Status.AlreadyApplied (Some j))
  | JournalState.RolledBack => fail FileChange.Conflict
  | JournalState.Prepared =>
      reconciled ← reconcile_bound parent p (Some j);
      match reconciled with
      | Reconciliation.AlreadyApplied =>
          mret (applied_commit transaction_id t p committed_at Status.AlreadyApplied (Some tombstoned))
      | Reconciliation.OutcomeUnknown =>
          current ← read_optional parent (absolute_path t);
          fail (match current with Some _ => FileChange.RevisionConflict | None => FileChange.OutcomeUnknown end)
      | Reconciliation.DefinitelyNotExecuted =>
          _ ← bury parent t p j;
          mret (applied_commit transaction_id t p committed_at Status.Applied (Some tombstoned))
      end
  end.

(** ** Commit *)

Definition commit (transaction_id : rstr) (t : ResolvedFileChangeTarget) (p : FileChangePlan) (committed_at : N)
    (journal : option FileChangeDeleteJournal) : change FileChangeCommit :=
  _ ← lift (validate_transaction_and_plan transaction_id t p);
  match operation p, journal with
  | Operation.Create, None => commit_create transaction_id t p committed_at
  | Operation.Update, None => commit_update transaction_id t p committed_at
  | Operation.Delete, Some j => commit_delete transaction_id t p committed_at j
  | _, _ => fail FileChange.IllegalFieldCombination
  end.

Definition reconcile_attempted_outcome_unknown (transaction_id : rstr) (t : ResolvedFileChangeTarget)
    (p : FileChangePlan) (committed_at : N) (journal : option FileChangeDeleteJournal)
    (original_error : FileChangeErrorCode) : change FileChangeCommit :=
  reconciliation ← map_err (λ _, FileChange.OutcomeUnknown) (reconcile t p journal);
  match reconciliation with
  | Reconciliation.AlreadyApplied =>
      map_err (λ _, FileChange.OutcomeUnknown) (commit transaction_id t p committed_at journal)
  | Reconciliation.DefinitelyNotExecuted => fail FileChange.Failed
  | Reconciliation.OutcomeUnknown => fail original_error
  end.

Definition commit_fresh (transaction_id : rstr) (t : ResolvedFileChangeTarget) (p : FileChangePlan)
    (committed_at : N) (journal : option FileChangeDeleteJournal) : change FileChangeCommit :=
  _ ← lift (validate_transaction_and_plan transaction_id t p);
  reconciliation ← reconcile t p journal;
  match reconciliation with
  | Reconciliation.DefinitelyNotExecuted =>
      first_attempt ← attempt (commit transaction_id t p committed_at journal);
      match first_attempt with
      | Ok commit =>
          if bool_decide (commit_status commit = Status.AlreadyApplied)
          then fail (fresh_conflict_code (operation p)) else mret commit
      | Err error =>
          if bool_decide (error = FileChange.OutcomeUnknown)
          then reconcile_attempted_outcome_unknown transaction_id t p committed_at journal error
          else fail error
      end
  | Reconciliation.AlreadyApplied | Reconciliation.OutcomeUnknown => fail (fresh_conflict_code (operation p))
  end.

(** ** The end of a delete *)

Definition finalize_delete (t : ResolvedFileChangeTarget) (j : FileChangeDeleteJournal) (now : N) :
    change FileChangeDeleteJournal :=
  _ ← lift (validate_journal sha256_hex j);
  _ ← lift (validate_delete_target t j);
  let finalized := set_journal_state JournalState.Finalized now j in
  match journal_state j with
  | JournalState.Finalized => mret j
  | JournalState.Tombstoned =>
      parent ← open_parent t;
      found ← read_optional parent (tombstone j);
      match found with
      | None => _ ← sync_after_publication parent; mret finalized
      | Some _ =>
          _ ← ensure_path_digest parent (tombstone j) (base_digest j);
          _ ← revalidate_parent parent;
          _ ← map_err (io_error false) (remove parent (tombstone j));
          _ ← sync_after_publication parent;
          mret finalized
      end
  | JournalState.Prepared | JournalState.RolledBack => fail FileChange.IllegalFieldCombination
  end.

Definition rollback_delete (t : ResolvedFileChangeTarget) (j : FileChangeDeleteJournal) (now : N) :
    change FileChangeDeleteJournal :=
  _ ← lift (validate_journal sha256_hex j);
  _ ← lift (validate_delete_target t j);
  let rolled_back := set_journal_state JournalState.RolledBack now j in
  match journal_state j with
  | JournalState.RolledBack => mret j
  | JournalState.Tombstoned =>
      parent ← open_parent t;
      current ← read_optional parent (absolute_path t);
      match current with
      | Some current =>
          if state_digest_matches (base_digest j) (file_bytes current) then
            buried ← read_optional parent (tombstone j);
            match buried with None => mret rolled_back | Some _ => fail FileChange.Conflict end
          else fail FileChange.Conflict
      | None =>
          _ ← ensure_path_digest parent (tombstone j) (base_digest j);
          _ ← revalidate_parent parent;
          _ ← map_err rename_conflict_error (rename_noreplace parent (tombstone j) (absolute_path t));
          _ ← sync_after_publication parent;
          mret rolled_back
      end
  | JournalState.Prepared | JournalState.Finalized => fail FileChange.IllegalFieldCombination
  end.
End Committer.
