(* ===== verification/FileChangeRecordFacts.v ===== *)
(** * The life of a binding

    A binding is prepared, then committed with its receipt, then, for a delete,
    finalized.  Storage accepts one binding after another exactly when the
    operations of the binding lead from one to the other.

    After that: recording a commit in its binding. *)

From stdpp Require Import relations.
From S2P Require Import Prelude RustText RustPath FileChangeError FileChangeDigest FileChangeModel.
From S2P Require Import FileChangeBinding FileChangePlannerFacts Posix Json HumanInteraction.
From S2P Require Import FileChangePlanner BoundIo FileChangeCommitter.

Section Life.
Context (sha256_hex : list N → rstr) (now : N).
Local Abbreviation valid b := (validate_binding sha256_hex now b = Ok ()).

Lemma settle_settle status outcome updated journal r status' outcome' updated' journal' r' b :
  settle status outcome updated journal r (settle status' outcome' updated' journal' r' b)
  = settle status outcome updated journal r b.
Proof. done. Qed.

(** What no later binding changes. *)
Definition frozen (b : FileChangeDirectBinding) : FileChangeDirectBinding :=
  settle Status.WaitingApproval Outcome.DefinitelyNotExecuted 0 None None b.

Lemma frozen_settle status outcome updated journal r b :
  frozen (settle status outcome updated journal r b) = frozen b.
Proof. apply settle_settle. Qed.

Lemma validate_ensure_iff b :
  valid b → parts_agree sha256_hex b = true ∧ (prepared b = true ∨ committed b = true).
Proof.
  unfold validate_binding. intros H. repeat inv_bind H.
  destruct r3. apply ensured in E3. apply ensured, orb_true_iff in H. done.
Qed.

Lemma is_applied_cases status :
  is_applied status = true ↔ status = Status.Applied ∨ status = Status.AlreadyApplied.
Proof. unfold is_applied. by rewrite orb_true_iff, !bool_decide_eq_true. Qed.

Lemma committed_applied b : committed b = true → is_applied (txn_status (transaction b)) = true ∧ is_Some (receipt b).
Proof.
  unfold committed. rewrite !andb_true_iff. intros [[[Hs _] (r & Hr & _)%is_some_and_true] _]. eauto.
Qed.

Lemma is_prepared_iff b :
  is_prepared sha256_hex now b = true ↔ valid b ∧ prepared b = true.
Proof.
  unfold is_prepared. rewrite !andb_true_iff, is_ok_unit, bool_decide_eq_true, negb_true_iff, bool_decide_eq_false.
  split.
  - intros [[Hv Hs] Hr]. split; [done|]. destruct (validate_ensure_iff _ Hv) as [_ [Hp|[Ha _]%committed_applied]]; [done|].
    apply is_applied_cases in Ha. rewrite Hs in Ha. naive_solver.
  - intros [Hv Hp]. split_and!; [done|..]; unfold prepared in Hp; rewrite !andb_true_iff in Hp;
      destruct Hp as [[[Hs _] Hr] _]; [by apply bool_decide_eq_true in Hs|].
    by apply negb_true_iff, bool_decide_eq_false in Hr.
Qed.

(** A binding with a receipt is committed, and its receipt tells its state. *)
Lemma valid_receipt b r :
  valid b → receipt b = Some r →
  is_applied (txn_status (transaction b)) = true ∧ txn_outcome (transaction b) = Outcome.Applied
  ∧ receipt_matches (transaction b) r = true ∧ committed b = true.
Proof.
  intros Hv Hr. destruct (validate_ensure_iff _ Hv) as [_ [Hp|Hc]].
  - unfold prepared in Hp. rewrite Hr in Hp. rewrite !andb_true_iff in Hp. by destruct Hp as [[_ Hp] _].
  - pose proof Hc as Hc'. unfold committed in Hc. rewrite Hr, !andb_true_iff, bool_decide_eq_true in Hc.
    cbn [is_some_and] in Hc. naive_solver.
Qed.

Lemma receipt_matches_iff t r :
  receipt_matches t r = true ↔
  validate_receipt r = Ok () ∧ receipt_schema_version r = FILE_CHANGE_SCHEMA_VERSION
  ∧ receipt_transaction_id r = txn_id t ∧ receipt_operation r = txn_operation t
  ∧ receipt_file_path r = txn_file_path t ∧ receipt_outcome r = txn_outcome t ∧ receipt_base r = txn_base t
  ∧ receipt_target r = txn_target t ∧ receipt_proposal_digest r = txn_proposal_digest t
  ∧ committed_at r = txn_updated_at t.
Proof.
  unfold receipt_matches.
  rewrite !andb_true_iff, is_ok_unit, !str_eqb_eq, !bool_decide_eq_true, !N.eqb_eq. tauto.
Qed.

(** The commit a committed binding was made from. *)
Definition commit_of (b : FileChangeDirectBinding) (r : FileChangeReceipt) : FileChangeCommit :=
  mkCommit (txn_status (transaction b)) r (delete_journal b).

(** [with_commit] makes exactly the successors that storage accepts. *)
Lemma with_commit_iff b c b' :
  with_commit sha256_hex now b c = Ok b'
  ↔ is_commit_successor_of sha256_hex now b' b = true
    ∧ ∃ r, receipt b' = Some r ∧ c = commit_of b' r.
Proof.
  unfold with_commit, is_commit_successor_of. rewrite bind_Ok. split.
  - intros ([] & Hv & H). apply bind_Ok in H as ([] & He & H). apply ensured in He.
    apply bind_Ok in H as ([] & Hv' & [= <-]).
    rewrite !andb_true_iff in He. destruct He as [[[[[[[[Hp _] _] _] _] _] _] _] _].
    rewrite Hp, Hv'. cbn [negb orb receipt settle is_ok].
    rewrite (bool_decide_eq_true_2 (is_Some (Some _))) by eauto. cbn [negb orb].
    rewrite bool_decide_eq_true. split; [by rewrite settle_settle || done|].
    exists (commit_receipt c). split; [done|]. by destruct c.
  - intros [Hs (r & Hr & ->)].
    destruct (is_prepared _ _ b) eqn:Hp; [|done]. destruct (is_ok _) eqn:Hv'; [|done].
    rewrite Hr, (bool_decide_eq_true_2 (is_Some (Some _))) in Hs by eauto. cbn [negb orb] in Hs.
    apply bool_decide_eq_true in Hs. apply is_ok_unit in Hv'.
    destruct (valid_receipt _ _ Hv' Hr) as (Ha & Ho & Hm & _). pose proof Hm as Hm'.
    apply receipt_matches_iff in Hm' as (_ & _ & Hid & Hop & Hf & Hout & Hb & Ht & Hd & Hat).
    assert (Hfields : txn_id (transaction b') = txn_id (transaction b)
      ∧ txn_operation (transaction b') = txn_operation (transaction b)
      ∧ txn_file_path (transaction b') = txn_file_path (transaction b)
      ∧ txn_base (transaction b') = txn_base (transaction b)
      ∧ txn_target (transaction b') = txn_target (transaction b)
      ∧ txn_proposal_digest (transaction b') = txn_proposal_digest (transaction b)) by (by rewrite Hs).
    destruct Hfields as (F1 & F2 & F3 & F4 & F5 & F6).
    exists (). apply is_prepared_iff in Hp as Hp'. destruct Hp' as [Hv _]. split; [done|].
    apply bind_Ok. exists (). split.
    { apply ensured. cbn [commit_of commit_receipt commit_status].
      rewrite Hid, Hop, Hf, Hout, Hb, Ht, Hd, Ho, F1, F2, F3, F4, F5, F6, ?Hp, Ha.
      rewrite !andb_true_iff, !str_eqb_eq, !bool_decide_eq_true. by split_and!. }
    cbn [commit_of commit_receipt commit_status commit_delete_journal].
    replace (settle _ _ _ _ _ b) with b' by (by rewrite Hat, <- Ho).
    apply bind_Ok. by exists ().
Qed.

(** Likewise for the end of a delete. *)
Lemma with_finalized_iff b j b' :
  with_finalized_delete_journal sha256_hex now b j = Ok b'
  ↔ is_delete_finalization_successor_of sha256_hex now b' b = true ∧ delete_journal b' = Some j.
Proof.
  unfold is_delete_finalization_successor_of. split.
  - intros H. assert (delete_journal b' = Some j) as Hj.
    { unfold with_finalized_delete_journal in H. repeat inv_bind H. by injection H as <-. }
    rewrite Hj, H. by rewrite bool_decide_eq_true.
  - intros [H Hj]. rewrite Hj in H. destruct (with_finalized_delete_journal _ _ b j) as [x|] eqn:E; [|done].
    apply bool_decide_eq_true in H. congruence.
Qed.

Lemma with_finalized_spec b j b' :
  with_finalized_delete_journal sha256_hex now b j = Ok b' →
  valid b ∧ valid b' ∧ b' = set_delete_journal (Some j) b ∧ txn_operation (transaction b) = Operation.Delete
  ∧ is_Some (receipt b) ∧ journal_state j = JournalState.Finalized
  ∧ ∃ current, delete_journal b = Some current ∧ journal_state current = JournalState.Tombstoned
    ∧ (journal_updated_at current ≤ journal_updated_at j)%N
    ∧ j = set_journal_state JournalState.Finalized (journal_updated_at j) current.
Proof.
  unfold with_finalized_delete_journal. intros H.
  apply bind_Ok in H as ([] & Hv & H). apply bind_Ok in H as (current & Hc & H).
  apply bind_Ok in H as ([] & He & H). apply bind_Ok in H as ([] & Hv' & [= <-]).
  apply ensured in He. rewrite !andb_true_iff, !bool_decide_eq_true, N.leb_le in He.
  destruct (delete_journal b) as [x|]; [|done]. injection Hc as ->.
  destruct He as [[[[[Hop Hr] Hs] Hs'] Hle] Hj]. split_and!; try done. by exists current.
Qed.

(** What storage accepts as the next binding of an action. *)
Definition accepted (b b' : FileChangeDirectBinding) : Prop :=
  is_commit_successor_of sha256_hex now b' b = true ∨ is_delete_finalization_successor_of sha256_hex now b' b = true.

(** How far a binding is. *)
Definition phase (b : FileChangeDirectBinding) : nat :=
  match receipt b, delete_journal b with
  | None, _ => 0
  | Some _, Some journal => if decide (journal_state journal = JournalState.Finalized) then 2 else 1
  | Some _, None => 2
  end.

Lemma accepted_phase b b' :
  accepted b b' →
  phase b < phase b' ≤ 2 ∧ frozen b' = frozen b ∧ (∀ r, receipt b = Some r → receipt b' = Some r)
  ∧ (0 < phase b → txn_operation (transaction b) = Operation.Delete)
  ∧ is_Some (receipt b') ∧ valid b'.
Proof.
  assert (∀ x, phase x ≤ 2) as Hle by (intros x; unfold phase; repeat case_match; lia).
  intros [H|H].
  - unfold is_commit_successor_of in H. destruct (is_prepared _ _ b) eqn:Hp; [|done].
    destruct (is_ok _) eqn:Hv; [|done]. case_bool_decide as Hr; [|done]. cbn [negb orb] in H.
    apply bool_decide_eq_true in H. apply is_ok_unit in Hv. apply is_prepared_iff in Hp as [_ Hp].
    unfold prepared in Hp. rewrite !andb_true_iff, negb_true_iff, bool_decide_eq_false in Hp.
    destruct Hp as [[_ Hn] _]. destruct (receipt b) as [r|] eqn:Eb; [by destruct Hn|].
    split_and!; try done.
    + unfold phase at 1. rewrite Eb. unfold phase. destruct Hr as [r ->]. repeat case_match; lia.
    + by rewrite H, frozen_settle.
    + unfold phase. rewrite Eb. lia.
  - pose proof H as H'. unfold is_delete_finalization_successor_of in H'.
    destruct (delete_journal b') as [j|] eqn:Ej; [|done].
    assert (with_finalized_delete_journal sha256_hex now b j = Ok b') as Hw by (by apply with_finalized_iff).
    apply with_finalized_spec in Hw as (_ & Hv & -> & Hop & [r Hr] & Hf & current & Hc & Hs & _ & _).
    split_and!; try done.
    unfold phase, set_delete_journal. cbn [settle receipt delete_journal]. rewrite Hr, Hc, Hf, Hs. repeat case_decide; naive_solver lia.
Qed.

Lemma accepted_chain n b b' :
  nsteps accepted n b b' →
  phase b + n ≤ phase b' ∧ frozen b' = frozen b ∧ (∀ r, receipt b = Some r → receipt b' = Some r).
Proof.
  induction 1 as [b|n b b1 b' Hs _ (IHp & IHf & IHr)]; [split_and!; [lia|done|done]|].
  apply accepted_phase in Hs as ([Hlt _] & Hf & Hr & _). split_and!; [lia|congruence|auto].
Qed.
End Life.

(** * Recording a commit in its binding

    The commit that [commit] gives is the one that the binding of the change
    accepts, when the clock did not go back. *)

(** ** Every answer of a computation *)

Definition gives {E A} (m : io E A) (Q : A → Prop) : Prop := ∀ w a w', m w = (Some (Ok a), w') → Q a.

Section Gives.
Context {E E' A B : Type}.

Lemma gives_ret (a : A) (Q : A → Prop) : Q a → gives (mret a : io E A) Q.
Proof. by intros H w x w' [= <- <-]. Qed.
Lemma gives_fail (e : E) (Q : A → Prop) : gives (fail e) Q.
Proof. by intros w x w' [=]. Qed.
Lemma gives_bind (m : io E A) (k : A → io E B) Q : (∀ a, gives (k a) Q) → gives (m ≫= k) Q.
Proof.
  intros Hk w b w' H. unfold mbind, io_bind in H. destruct (m w) as [[[a|e]|] w1]; [|done..]. by eapply Hk.
Qed.
Lemma gives_map_err (f : E → E') (m : io E A) Q : gives m Q → gives (map_err f m) Q.
Proof.
  intros Hm w a w' H. unfold map_err in H. destruct (m w) as [[[x|e]|] w1] eqn:Em; [|done..].
  injection H as -> ->. by eapply Hm.
Qed.
End Gives.

Section GivesPure.
Context {E A B : Type}.
Lemma gives_lift (r : result E A) (k : A → io E B) Q : (∀ a, r = Ok a → gives (k a) Q) → gives (lift r ≫= k) Q.
Proof. intros Hk w b w' H. unfold mbind, io_bind, lift in H. destruct r as [a|e]; [|done]. by eapply Hk. Qed.
End GivesPure.

Ltac gives_tac :=
  repeat first
    [ apply gives_fail | apply gives_map_err | apply gives_bind; intros ? | progress case_match ];
  try (apply gives_ret).

Section Recording.
Context {json : JsonServices} {diffs : TextDiffs} (sha256_hex : list N → rstr) (uuid : N → rstr).

(** What a commit answers, in whatever world it ran. *)
Definition committed_by (transaction_id : rstr) (t : ResolvedFileChangeTarget) (p : FileChangePlan) (at_ : N)
    (journal : option FileChangeDeleteJournal) (c : FileChangeCommit) : Prop :=
  ∃ status, is_applied status = true ∧ c = applied_commit transaction_id t p at_ status
    (set_journal_state JournalState.Tombstoned at_ <$> journal).

Lemma committed_by_intro transaction_id t p at_ journal status :
  is_applied status = true →
  committed_by transaction_id t p at_ journal
    (applied_commit transaction_id t p at_ status (set_journal_state JournalState.Tombstoned at_ <$> journal)).
Proof. by exists status. Qed.

Lemma commit_gives transaction_id t p at_ journal :
  (∀ j, journal = Some j → journal_state j = JournalState.Prepared) →
  gives (commit sha256_hex uuid transaction_id t p at_ journal) (committed_by transaction_id t p at_ journal).
Proof.
  intros Hj. unfold commit. apply gives_bind. intros _.
  destruct (operation p), journal as [j|]; try apply gives_fail.
  - unfold commit_create. gives_tac; by apply (committed_by_intro _ _ _ _ None).
  - unfold commit_update. gives_tac; by apply (committed_by_intro _ _ _ _ None).
  - unfold commit_delete. rewrite (Hj j eq_refl). gives_tac; by apply (committed_by_intro _ _ _ _ (Some j)).
Qed.

Lemma commit_fresh_gives transaction_id t p at_ journal :
  (∀ j, journal = Some j → journal_state j = JournalState.Prepared) →
  gives (commit_fresh sha256_hex uuid transaction_id t p at_ journal) (committed_by transaction_id t p at_ journal).
Proof.
  intros Hj. unfold commit_fresh. apply gives_bind. intros _. apply gives_bind. intros []; try apply gives_fail.
  intros w c w' H. unfold mbind, io_bind, attempt in H.
  destruct (commit sha256_hex uuid transaction_id t p at_ journal w) as [[[x|e]|] w1] eqn:Ec; [| |done].
  - case_bool_decide; [done|]. injection H as <- <-. by eapply commit_gives.
  - case_bool_decide; [|done]. revert H. unfold reconcile_attempted_outcome_unknown.
    match goal with |- ?m _ = _ → _ => assert (gives m (committed_by transaction_id t p at_ journal)) as Hg end.
    { apply gives_bind. intros []; try apply gives_fail. by apply gives_map_err, commit_gives. }
    apply Hg.
Qed.
End Recording.

(** ** What a binding accepts *)

Lemma is_ok_ensure b code : is_ok (ensure b code) = b.
Proof. by destruct b. Qed.
Lemma is_ok_then {A} (r : FileChangeResultValue ()) (k : FileChangeResultValue A) :
  is_ok (_ ← r; k) = is_ok r && is_ok k.
Proof. by destruct r. Qed.

Section Accepts.
Context (sha256_hex : list N → rstr) (now : N) (b : FileChangeDirectBinding) (at_ : N) (status : FileChangeStatus).
Local Abbreviation journal_after := (set_journal_state JournalState.Tombstoned at_ <$> delete_journal b).

(** The receipt that a commit of the binding's plan makes. *)
Definition receipt_of : FileChangeReceipt :=
  let t := transaction b in
  mkReceipt FILE_CHANGE_SCHEMA_VERSION (txn_id t) (txn_operation t) (txn_file_path t) Outcome.Applied
    (txn_base t) (txn_target t) (txn_proposal_digest t) at_.

(** Neither the transaction nor its journal is younger than the commit. *)
Definition clock_ok : bool :=
  (txn_created_at (transaction b) <=? at_)%N
  && is_none_or (delete_journal b) (λ j, journal_created_at j <=? at_)%N.

Local Abbreviation settled := (settle status Outcome.Applied at_ journal_after (Some receipt_of) b).
Hypothesis Hprepared : is_prepared sha256_hex now b = true.
Hypothesis Happlied : is_applied status = true.

Lemma impl_validate_ok version path digest base target body :
  is_ok (impl_validate version path digest base target body)
  = is_ok (impl_validate version path digest base target (Ok ())) && is_ok body.
Proof. unfold impl_validate. rewrite !is_ok_then. cbn. by rewrite andb_true_r, !andb_assoc. Qed.

Lemma settled_transaction :
  is_ok (validate_transaction (transaction b)) = true →
  is_ok (validate_transaction (transaction settled)) = (txn_created_at (transaction b) <=? at_)%N.
Proof using Happlied.
  unfold validate_transaction. cbn [transaction settle txn_schema_version txn_file_path txn_proposal_digest txn_base
    txn_target txn_id txn_created_at txn_updated_at txn_operation txn_status txn_outcome].
  rewrite impl_validate_ok, (impl_validate_ok _ _ _ _ _ (_ ← _; _)), !is_ok_then, !is_ok_ensure, !andb_true_iff.
  intros (-> & [-> _] & -> & _). unfold validate_status_outcome. rewrite is_ok_ensure.
  apply is_applied_cases in Happlied as [-> | ->]; cbn; by rewrite andb_true_r.
Qed.

Lemma settled_journal :
  delete_journal_is_valid sha256_hex b = true →
  delete_journal_is_valid sha256_hex settled = is_none_or (delete_journal b) (λ j, journal_created_at j <=? at_)%N.
Proof.
  unfold delete_journal_is_valid. cbn [transaction settle txn_operation txn_id txn_base delete_journal canonical_target proposal].
  destruct (txn_operation (transaction b)), (delete_journal b) as [j|]; cbn [fmap option_fmap option_map]; try done.
  unfold validate_journal. rewrite !is_ok_then, !is_ok_ensure.
  cbn [set_journal_state journal_schema_version journal_id journal_transaction_id target_path tombstone_path base_digest
    journal_proposal_digest journal_created_at journal_updated_at is_none_or].
  change (journal_suffix sha256_hex (set_journal_state _ _ j)) with (journal_suffix sha256_hex j).
  rewrite !andb_true_iff. intros H. decompose [and] H. clear H.
  repeat match goal with E : ?x = true |- _ => rewrite E; clear E end. cbn. by rewrite !andb_true_r.
Qed.

Lemma settled_parts :
  parts_agree sha256_hex b = true →
  parts_agree sha256_hex settled = is_none_or (delete_journal b) (λ j, journal_created_at j <=? at_)%N.
Proof.
  unfold parts_agree. rewrite !andb_true_iff. intros H. decompose [and] H. clear H.
  rewrite settled_journal by done.
  change (observation_matches_base settled) with (observation_matches_base b).
  change (staged_reference_is_valid settled) with (staged_reference_is_valid b).
  cbn [transaction settle txn_id txn_operation txn_file_path txn_base txn_target txn_proposal_digest proposal
    base_content target_content source_call_id].
  repeat match goal with E : ?x = true |- _ => rewrite E; clear E end. by rewrite andb_true_r.
Qed.

Lemma settled_receipt :
  is_ok (validate_transaction (transaction b)) = true → receipt_matches (transaction settled) receipt_of = true.
Proof.
  intros H. apply receipt_matches_iff. split_and!; try done. apply is_ok_unit.
  unfold validate_transaction, validate_receipt in *. revert H.
  cbn [receipt_of receipt_schema_version receipt_file_path receipt_proposal_digest receipt_base receipt_target
    receipt_transaction_id receipt_operation receipt_outcome].
  rewrite impl_validate_ok, (impl_validate_ok FILE_CHANGE_SCHEMA_VERSION _ _ _ _ (_ ← _; _)), !is_ok_then, !is_ok_ensure, !andb_true_iff.
  intros (Hi & [Hid _] & Hop & _). split_and!; try done.
  unfold impl_validate in *. rewrite !is_ok_then in *. rewrite !andb_true_iff in *. naive_solver.
Qed.

Lemma with_commit_ok c :
  c = mkCommit status receipt_of journal_after →
  is_ok (with_commit sha256_hex now b c) = clock_ok.
Proof using Hprepared Happlied.
  intros ->. unfold with_commit. pose proof Hprepared as [Hv Hp]%is_prepared_iff.
  rewrite Hv. cbn [mbind result_bind]. rewrite is_ok_then, is_ok_ensure.
  cbn [commit_receipt commit_status receipt_of receipt_transaction_id receipt_operation receipt_file_path receipt_base
    receipt_target receipt_proposal_digest receipt_outcome commit_delete_journal committed_at].
  rewrite Hprepared, !(proj2 (str_eqb_eq _ _) eq_refl), !(bool_decide_eq_true_2 (_ = _) eq_refl), Happlied.
  cbn [andb]. rewrite is_ok_then. cbn [is_ok]. rewrite andb_true_r.
  apply is_ok_unit in Hv. unfold validate_binding in *. rewrite !is_ok_then, !is_ok_ensure in Hv.
  apply andb_true_iff in Hv as [Hshape Hv]. rewrite !andb_true_iff in Hv. destruct Hv as (Ht & Hprop & Hobs & Hparts & _).
  rewrite !is_ok_then, !is_ok_ensure. rewrite settled_transaction, settled_parts by done.
  change (is_ok (validate_proposal (proposal settled))) with (is_ok (validate_proposal (proposal b))).
  change (is_ok (validate_frozen_binding now (observation settled) (conversation_id settled) (run_id settled)
    (parse_path (canonical_target settled)))) with
    (is_ok (validate_frozen_binding now (observation b) (conversation_id b) (run_id b) (parse_path (canonical_target b)))).
  assert (committed settled = true) as Hc.
  { unfold committed. cbn [receipt settle is_some_and delete_journal]. rewrite settled_receipt by done.
    change (txn_status (transaction settled)) with status. rewrite Happlied. cbn [andb].
    destruct (delete_journal b) as [j|]; [|done]. cbn. apply N.leb_refl. }
  rewrite Hc, orb_true_r, Hprop, Hobs, andb_true_r. unfold clock_ok.
  match goal with |- ?a && _ = _ => assert (a = true) as -> by exact Hshape end. by rewrite !andb_true_l.
Qed.
End Accepts.
