(* ===== verification/FileChangeCommitFacts.v ===== *)
(** * What a commit leaves behind

    When others leave the files alone, a commit that fails or dies anywhere
    leaves the target with its old or its new content, and one that meets no
    fault leaves the new content.  Both hold from either content, so that a
    commit can be tried again.

    After that: what a commit does to the files. *)

From stdpp Require Import gmap.
From S2P Require Import Prelude RustText RustPath Posix Json HumanInteraction FileChangeError.
From S2P Require Import FileChangeDigest FileChangeModel FileChangeBinding FileChangePlanner.
From S2P Require Import FileChangePlannerFacts TraceItems BoundIo BoundIoFacts BoundIoEffects.
From S2P Require Import FileChangeCommitter.

(** ** Names under the bound parent *)

Lemma names_path_parent names leaf : path_parent (names_path names ++ [Normal leaf]) = Some (names_path names).
Proof. unfold path_parent. by rewrite last_snoc, removelast_snoc. Qed.

Lemma names_path_file names leaf : file_name (names_path names ++ [Normal leaf]) = Some leaf.
Proof. unfold file_name. by rewrite last_snoc. Qed.

Lemma leaf_name_io_names names leaf :
  0%N ∉ leaf → leaf_name_io (names_path names) (names_path names ++ [Normal leaf]) = Ok leaf.
Proof.
  intros Hn. unfold leaf_name_io. rewrite names_path_parent, names_path_file, bool_decide_eq_true_2 by done. cbn.
  destruct (existsb (N.eqb 0) leaf) eqn:E; [|done]. apply existsb_true in E as (c & Hc & <-%N.eqb_eq). done.
Qed.

Section Names.
Context (f : FileSystem) (t : ResolvedFileChangeTarget) (names : list rstr) (leaf : rstr) (d : N).
Hypothesis Hb : bound f t names leaf d.

Lemma leaf_printable : 0%N ∉ leaf.
Proof using Hb. pose proof (bound_printable _ _ _ _ _ Hb) as H. apply Forall_app in H as [_ H]. by apply Forall_inv in H. Qed.

Lemma in_parent_leaf : in_parent (mkParent t d) (absolute_path t) = Ok leaf.
Proof using Hb.
  unfold in_parent. cbn [bound_target]. rewrite (bound_path _ _ _ _ _ Hb), (bound_parent _ _ _ _ _ Hb).
  apply leaf_name_io_names, leaf_printable.
Qed.

Lemma in_parent_name name : 0%N ∉ name → in_parent (mkParent t d) (canonical_parent t ++ [Normal name]) = Ok name.
Proof using Hb.
  intros Hn. unfold in_parent. cbn [bound_target]. rewrite (bound_parent _ _ _ _ _ Hb). by apply leaf_name_io_names.
Qed.

(** Reading a name of the bound directory. *)
Lemma saw_read_in parent p name content :
  in_parent parent p = Ok name → directory parent = d → is_Some (entries_of f d) → holds f d name content →
  match content with
  | None => saw (read_optional parent p) f = Some (Ok None)
  | Some (bytes, mode) => ∃ i current, entry f d name = Some i ∧ current_of f i bytes mode current
      ∧ saw (read_optional parent p) f = Some (Ok (Some current))
  end.
Proof using.
  intros Hp Hdir Hd Hh. unfold read_optional, read_optional_with_limit, leaf_name. fold (in_parent parent p). rewrite Hp.
  destruct content as [[bytes mode]|].
  - destruct Hh as (i & He & Hr). destruct (saw_read_name f d name i bytes mode He Hr) as (current & Hc & Hs).
    exists i, current. split_and!; [done..|]. eapply saw_then; [apply honest_lift|done|by rewrite Hdir].
  - eapply saw_then; [apply honest_lift|done|]. rewrite Hdir. by apply saw_read_missing.
Qed.
End Names.

(** ** Rules for the reads *)

Section Reads.
Context (strict : bool).

Lemma wp_read {A} (m : change A) a (R : A → World → Prop) (J : World → Prop) w :
  honest any_code m → saw m (fs w) = Some (Ok a) →
  (∀ w', same w w' → R a w') → (∀ w', same w w' → J w') → wp strict m R J w.
Proof. apply wp_honest. Qed.

Lemma wp_then {A B} (m : change A) (k : A → change B) a (R : B → World → Prop) (J : World → Prop) w :
  honest any_code m → saw m (fs w) = Some (Ok a) →
  (∀ w', same w w' → wp strict (k a) R J w') → (∀ w', same w w' → J w') → wp strict (m ≫= k) R J w.
Proof. intros. apply wp_bind. by eapply wp_read. Qed.

Lemma wp_pure {A B} (a : A) (k : A → change B) (R : B → World → Prop) (J : World → Prop) w :
  wp strict (k a) R J w → wp strict (lift (Ok a) ≫= k) R J w.
Proof. intros. apply wp_bind. by apply wp_lift. Qed.
End Reads.

Lemma same_trans w1 w2 w3 : same w1 w2 → same w2 w3 → same w1 w3.
Proof. intros [] []. split; congruence. Qed.

(** ** Tidy worlds

    Since [f0] only new inodes and those in [old] changed, and only drawn names
    and those in [extra]. *)
Section Tidy.
Context (uuid : N → rstr) (d : N) (f0 : FileSystem) (n0 : N) (extra : list rstr) (old : list N).
Hypothesis uuid_inj : ∀ j k, uuid j = uuid k → j = k.
Hypothesis extra_not_drawn : ∀ name k, name ∈ extra → name ≠ stage_name (uuid k).

Record tidy (w : World) : Prop := {
  tidy_effect : effect d (λ i, newer f0 i ∨ i ∈ old) (λ name, drawn_from uuid n0 name ∨ name ∈ extra) f0 (fs w);
  tidy_numbered : numbered (fs w);
  tidy_directory : is_Some (entries_of (fs w) d);
  tidy_uuids : (n0 ≤ uuids w)%N;
  tidy_unused : unused uuid d w
}.

Lemma tidy_same w w' : same w w' → tidy w → tidy w'.
Proof. intros [Hf Hu] []. split; rewrite ?Hf, ?Hu; [done..|]. intros name Hn. rewrite Hf. rewrite Hu in Hn. auto. Qed.

Lemma staging_tidy w : staging uuid d f0 n0 w → tidy w.
Proof. intros []. split; [|done..]. eapply effect_mono; [| |done]; auto. Qed.

Lemma tidy_step (T : N → Prop) (P : rstr → Prop) w w' :
  tidy w → uuids w' = uuids w → effect d T P (fs w) (fs w') →
  (∀ i, T i → newer f0 i ∨ i ∈ old) →
  (∀ name, P name → name ∈ extra ∨ ∃ k, (n0 ≤ k < uuids w)%N ∧ name = stage_name (uuid k)) → tidy w'.
Proof using uuid_inj extra_not_drawn.
  intros [He Hn Hd Hu Hun] Huu Hs HT HP. pose proof (effect_directories _ _ _ _ _ Hs) as (_ & _ & Hd' & _). split.
  - eapply effect_trans; [done|]. eapply effect_mono; [exact HT| |exact Hs].
    intros name Hp. destruct (HP name Hp) as [?|(k & Hk & ->)]; [by right|]. left. exists k. split; [lia|done].
  - by apply (effect_numbered _ _ _ _ _ Hs).
  - auto.
  - by rewrite Huu.
  - intros name (k & Hk & ->). rewrite (effect_entries _ _ _ _ _ Hs).
    + apply Hun. exists k. by rewrite <- Huu.
    + intros Hp. destruct (HP _ Hp) as [Hx|(k' & Hk' & Heq)]; [by eapply extra_not_drawn|].
      apply stage_name_inj, uuid_inj in Heq. lia.
Qed.

Lemma tidy_bound t names leaf w : bound f0 t names leaf d → tidy w → bound (fs w) t names leaf d.
Proof. intros Hb []. by eapply bound_effect. Qed.
End Tidy.

(** ** Update *)

Section Update.
Context {json : JsonServices} {diffs : TextDiffs} (sha256_hex : list N → rstr) (uuid : N → rstr).
Context (strict : bool) (t : ResolvedFileChangeTarget) (names : list rstr) (leaf : rstr) (d : N).
Context (f0 : FileSystem) (n0 i0 : N) (bytes : list N) (mode : N) (p : FileChangePlan) (content : rstr).
Hypothesis uuid_inj : ∀ j k, uuid j = uuid k → j = k.
Hypothesis leaf_not_drawn : ∀ k, leaf ≠ stage_name (uuid k).
Hypothesis Hb : bound f0 t names leaf d.
Hypothesis Hleaf : entry f0 d leaf = Some i0.
Hypothesis Hold : regular f0 i0 bytes mode.
Hypothesis Hop : operation p = Operation.Update.
Hypothesis Hnew : plan_target_content p = Some content.
Local Abbreviation parent := (mkParent t d).
Local Abbreviation stage_here := (staging uuid d f0 n0).
Local Abbreviation tidy_here := (tidy uuid d f0 n0 [leaf] [i0]).
Local Abbreviation own_here := (own uuid d f0 n0).
Local Abbreviation has c w := (holds (fs w) d leaf (Some c)).

(** What every way out of an update leaves. *)
Definition update_left (w : World) : Prop := tidy_here w ∧ (has (bytes, mode) w ∨ has (as_bytes content, mode) w).

Lemma extra_leaf : ∀ name k, name ∈ [leaf] → name ≠ stage_name (uuid k).
Proof using leaf_not_drawn. intros name k ->%list_elem_of_singleton. apply leaf_not_drawn. Qed.
Local Hint Resolve extra_leaf : core.

Lemma leaf_not_drawn_from n : ¬ drawn_from uuid n leaf.
Proof using leaf_not_drawn. intros (k & _ & H). by eapply leaf_not_drawn. Qed.

Lemma i0_facts : numbered f0 → i0 ≠ d ∧ ¬ newer f0 i0.
Proof using Hb Hold.
  intros Hn. split.
  - intros Heq. pose proof Hold as Hr. rewrite Heq in Hr. destruct (bound_directory _ _ _ _ _ Hb) as (inode & _ & [es He] & _).
    by rewrite (regular_not_directory _ _ _ _ Hr) in He.
  - pose proof (regular_numbered _ _ _ _ Hn Hold). unfold newer. lia.
Qed.

Lemma regular_i0 f : inodes f !! i0 = inodes f0 !! i0 → regular f i0 bytes mode.
Proof using Hold. unfold regular. by intros ->. Qed.

(** Before the exchange the target is what it was. *)
Lemma staging_leaf w : numbered f0 → stage_here w → entry (fs w) d leaf = Some i0 ∧ inodes (fs w) !! i0 = inodes f0 !! i0.
Proof using Hb Hleaf Hold leaf_not_drawn.
  intros Hn Hs. pose proof (staging_effect _ _ _ _ _ Hs) as He. destruct (i0_facts Hn).
  split; [by rewrite (effect_entries _ _ _ _ _ He) by apply leaf_not_drawn_from|].
  by rewrite (effect_inodes _ _ _ _ _ He).
Qed.

Lemma staging_left w : numbered f0 → stage_here w → update_left w.
Proof using Hb Hleaf Hold leaf_not_drawn.
  intros Hn Hs. split; [by apply staging_tidy|]. left. destruct (staging_leaf w Hn Hs). exists i0. split; [done|]. by apply regular_i0.
Qed.

(** The staged file is on the target, and the old file under the staged name. *)
Definition exchanged_state (name : rstr) (i : N) (w : World) : Prop :=
  tidy_here w ∧ newer f0 i ∧ (∃ k, (n0 ≤ k < uuids w)%N ∧ name = stage_name (uuid k))
  ∧ entry (fs w) d name = Some i0 ∧ inodes (fs w) !! i0 = inodes f0 !! i0
  ∧ entry (fs w) d leaf = Some i ∧ regular (fs w) i (as_bytes content) mode.

Lemma exchanged_same name i w w' : same w w' → exchanged_state name i w → exchanged_state name i w'.
Proof.
  intros Hs (Ht & H). pose proof Hs as [Hf Hu]. split; [by eapply tidy_same|]. by rewrite Hf, Hu.
Qed.

Lemma exchanged_left name i w : exchanged_state name i w → update_left w.
Proof. intros (Ht & _ & _ & _ & _ & He & Hr). split; [done|]. right. by exists i. Qed.

(** And after the exchange was undone. *)
Definition restored_state (name : rstr) (i : N) (w : World) : Prop :=
  tidy_here w ∧ newer f0 i ∧ (∃ k, (n0 ≤ k < uuids w)%N ∧ name = stage_name (uuid k))
  ∧ entry (fs w) d leaf = Some i0 ∧ inodes (fs w) !! i0 = inodes f0 !! i0
  ∧ entry (fs w) d name = Some i ∧ regular (fs w) i (as_bytes content) mode.

Lemma restored_same name i w w' : same w w' → restored_state name i w → restored_state name i w'.
Proof.
  intros Hs (Ht & H). pose proof Hs as [Hf Hu]. split; [by eapply tidy_same|]. by rewrite Hf, Hu.
Qed.

Lemma restored_left name i w : restored_state name i w → update_left w.
Proof using Hold. intros (Ht & _ & _ & He & Hr & _). split; [done|]. left. exists i0. split; [done|]. by apply regular_i0. Qed.

Lemma left_same w w' : same w w' → update_left w → update_left w'.
Proof. intros Hs [Ht H]. pose proof Hs as [Hf Hu]. split; [by eapply tidy_same|]. by rewrite Hf. Qed.

Lemma regular_effect (T : N → Prop) (P : rstr → Prop) f f' i bs m :
  effect d T P f f' → is_Some (entries_of f d) → ¬ T i → regular f i bs m → regular f' i bs m.
Proof.
  intros He Hd Hi Hr. unfold regular. rewrite (effect_inodes _ _ _ _ _ He); [done| |done].
  intros ->. rewrite (regular_not_directory _ _ _ _ Hr) in Hd. by destruct Hd.
Qed.

(** The two swaps of an update. *)
Lemma wp_swap (f : IoError → IoError) name i w (R : () → World → Prop) J :
  numbered f0 → own_here name i (as_bytes content) mode w →
  (∀ w', exchanged_state name i w' → R () w') → (∀ w', same w w' → J w') →
  wp strict (map_err f (renameat_exchange d name leaf)) R J w.
Proof using Hb Hleaf Hold leaf_not_drawn uuid_inj.
  intros Hn (Ht & Hk & He & Hi & Hr) HR HJ. destruct (staging_leaf w Hn Ht) as [Hel Hrl].
  assert (name ≠ leaf) as Hne by (destruct Hk as (k & _ & ->); intros Heq; by apply (leaf_not_drawn k)).
  eapply wp_exchange; [done|done|done| |done]. intros w' Hu Hs Hs1 Hs2. apply HR.
  split_and!; [|done|by rewrite Hu|done| |done|].
  - eapply tidy_step; [done|auto|by apply staging_tidy|done|exact Hs|done|].
    intros x [->| ->]; [right; done|left; by left].
  - rewrite (effect_inodes _ _ _ _ _ Hs); [done|by destruct (i0_facts Hn)|by intros []].
  - eapply regular_effect; [exact Hs|by eapply staging_directory|by intros []|done].
Qed.

Lemma wp_swap_back (f : IoError → IoError) name i w (R : () → World → Prop) J :
  numbered f0 → exchanged_state name i w →
  (∀ w', restored_state name i w' → R () w') → (∀ w', same w w' → J w') →
  wp strict (map_err f (renameat_exchange d name leaf)) R J w.
Proof using Hb Hold leaf_not_drawn uuid_inj.
  intros Hn (Ht & Hi & Hk & He & Hr & Hel & Hrl) HR HJ.
  assert (name ≠ leaf) as Hne by (destruct Hk as (k & _ & ->); intros Heq; by apply (leaf_not_drawn k)).
  eapply wp_exchange; [done|done|done| |done]. intros w' Hu Hs Hs1 Hs2. apply HR.
  split_and!; [|done|by rewrite Hu|done| |done|].
  - eapply tidy_step; [done|auto|done|done|exact Hs|done|].
    intros x [->| ->]; [right; done|left; by left].
  - rewrite (effect_inodes _ _ _ _ _ Hs); [done|by destruct (i0_facts Hn)|by intros []].
  - eapply regular_effect; [exact Hs|by eapply tidy_directory|by intros []|done].
Qed.

(** The reads, where the target holds a file. *)
Lemma current_of_eq f f' i bs m c c' :
  current_of f i bs m c → current_of f' i bs m c' → inodes f' !! i = inodes f !! i → c' = c.
Proof using. intros (tm & dv & H & ->) (tm' & dv' & H' & ->) E. rewrite E, H in H'. by injection H' as -> ->. Qed.

Lemma saw_revalidate_here w c : tidy_here w → has c w → saw (revalidate_parent parent) (fs w) = Some (Ok ()).
Proof using Hb. intros Ht Hh. eapply saw_revalidate_parent; [by eapply tidy_bound|done]. Qed.

Lemma saw_read_here w i bs m :
  tidy_here w → entry (fs w) d leaf = Some i → regular (fs w) i bs m →
  ∃ current, current_of (fs w) i bs m current
    ∧ saw (read_optional parent (absolute_path t)) (fs w) = Some (Ok (Some current))
    ∧ saw (read_required parent (absolute_path t)) (fs w) = Some (Ok current).
Proof using Hb.
  intros Ht He Hr.
  destruct (saw_read_in (fs w) d parent (absolute_path t) leaf (Some (bs, m))) as (j & current & He' & Hc & Hs);
    [by eapply in_parent_leaf|done|by eapply tidy_directory|by exists i|].
  rewrite He in He'. injection He' as <-. exists current. split_and!; [done|done|].
  unfold read_required. by eapply saw_then; [unfold read_optional; honest_tac|done|].
Qed.

Lemma saw_read_staged w s i bs m :
  entry (fs w) d (staged_name s) = Some i → regular (fs w) i bs m →
  ∃ current, current_of (fs w) i bs m current
    ∧ saw (read_exchanged parent (mkExchange s)) (fs w) = Some (Ok current).
Proof using.
  intros He Hr. destruct (saw_read_name (fs w) d (staged_name s) i bs m He Hr) as (current & Hc & Hs).
  exists current. split; [done|]. unfold read_exchanged. by eapply saw_then; [honest_tac|done|].
Qed.

Lemma wp_sync w (R : () → World → Prop) (J : World → Prop) :
  (∀ w', same w w' → R () w') → (∀ w', same w w' → J w') → wp strict (sync_after_publication parent) R J w.
Proof using. intros HR HJ. by eapply (wp_looked _ _ _ ()). Qed.

Hypothesis Hmatch : state_matches sha256_hex (base p) bytes = true.

Lemma wp_check_base_again s name i first w :
  numbered f0 → s = mkStaged d name i → own_here name i (as_bytes content) mode w → permissions first = mode →
  wp strict (on_error (drop_staged s) (check_base_again sha256_hex parent t p first))
    (λ second w', own_here name i (as_bytes content) mode w' ∧ current_of f0 i0 bytes mode second) stage_here w.
Proof using Hb Hleaf Hold Hmatch leaf_not_drawn uuid_inj.
  intros Hn -> Ho Hf. eapply (wp_on_error _ _ (own_here name i (as_bytes content) mode)).
  2:{ intros w' _ Ho'. split; [apply Ho'|]. by eapply wp_drop_own. }
  assert (Hst : ∀ w', own_here name i (as_bytes content) mode w' → tidy_here w' ∧ entry (fs w') d leaf = Some i0
                 ∧ regular (fs w') i0 bytes mode ∧ inodes (fs w') !! i0 = inodes f0 !! i0).
  { intros w' [Hs _]. destruct (staging_leaf w' Hn Hs). split_and!; [by apply staging_tidy|done|by apply regular_i0|done]. }
  unfold check_base_again. destruct (Hst w Ho) as (Ht & He & Hr & Hi).
  eapply wp_then; [honest_tac|apply (saw_revalidate_here _ (bytes, mode)); [done|by exists i0]| |].
  2:{ intros w' Hs. by eapply own_same. }
  intros w1 Hs1. apply (own_same _ _ _ _ _ _ _ _ _ _ Hs1) in Ho. clear Hs1 Ht He Hr Hi. destruct (Hst w1 Ho) as (Ht & He & Hr & Hi).
  destruct (saw_read_here w1 i0 bytes mode Ht He Hr) as (second & Hc & _ & Hs).
  eapply wp_then; [honest_tac|exact Hs| |].
  2:{ intros w' Hs'. by eapply own_same. }
  intros w2 Hs2. apply (own_same _ _ _ _ _ _ _ _ _ _ Hs2) in Ho. clear Hs2.
  assert (current_of f0 i0 bytes mode second) as Hc0.
  { destruct Hc as (tm & dv & Hx & ->). exists tm, dv. split; [congruence|done]. }
  assert (file_bytes second = bytes ∧ permissions second = mode) as [Hby Hpe] by (by destruct Hc0 as (? & ? & _ & ->)).
  unfold ensure_state_matches. rewrite Hby, Hmatch. apply wp_pure. rewrite Hf, Hpe, N.eqb_refl. apply wp_pure.
  clear Ht He Hr Hi. destruct (Hst w2 Ho) as (Ht & He & Hr & Hi).
  eapply wp_then; [honest_tac|apply (saw_revalidate_here _ (bytes, mode)); [done|by exists i0]| |].
  2:{ intros w' Hs'. by eapply own_same. }
  intros w3 Hs3. apply wp_ret. split; [by eapply own_same|done].
Qed.

Lemma wp_publish_exchange s name i w (g : IoError → FileChangeErrorCode) :
  numbered f0 → s = mkStaged d name i → own_here name i (as_bytes content) mode w →
  wp strict (map_err g (publish_exchange parent s (absolute_path t)))
    (λ e w', e = mkExchange s ∧ exchanged_state name i w') stage_here w.
Proof using Hb Hleaf Hold leaf_not_drawn uuid_inj.
  intros Hn -> Ho. apply wp_map_err. unfold publish_exchange. eapply (wp_on_error _ _ (own_here name i (as_bytes content) mode)).
  2:{ intros w' _ Ho'. split; [apply Ho'|]. by eapply wp_drop_own. }
  erewrite in_parent_leaf by done. apply wp_bind, wp_lift, wp_bind.
  eapply wp_swap; [done|done|..].
  - intros w' He. by apply wp_ret.
  - intros w' Hs. by eapply own_same.
Qed.

Lemma wp_validate_displaced s name i second w :
  s = mkStaged d name i → exchanged_state name i w → current_of f0 i0 bytes mode second →
  wp strict (validate_displaced sha256_hex parent p second (mkExchange s)) (λ _, exchanged_state name i)
    (exchanged_state name i) w.
Proof using Hold Hmatch.
  intros -> He Hc. pose proof He as (_ & _ & _ & Hen & Hi0 & _).
  destruct (saw_read_staged w (mkStaged d name i) i0 bytes mode Hen (regular_i0 _ Hi0)) as (displaced & Hd & Hs).
  pose proof (current_of_eq _ _ _ _ _ _ _ Hc Hd Hi0) as ->.
  unfold validate_displaced. eapply wp_then; [honest_tac|exact Hs| |intros w' Hs'; by eapply exchanged_same].
  intros w1 Hs1. unfold same_file_identity. rewrite !N.eqb_refl. apply wp_pure.
  assert (file_bytes second = bytes) as Hby by (by destruct Hc as (? & ? & _ & ->)).
  unfold ensure_state_matches. rewrite Hby, Hmatch. apply wp_pure. apply wp_lift. by eapply exchanged_same.
Qed.

(** Removing the staged name once the files are where they belong. *)
Lemma wp_remove_staged name j bs m w (c : list N * N) :
  tidy_here w → (∃ k, (n0 ≤ k < uuids w)%N ∧ name = stage_name (uuid k)) →
  entry (fs w) d name = Some j → regular (fs w) j bs m → (newer f0 j ∨ j = i0) →
  (∃ i, entry (fs w) d leaf = Some i ∧ i ≠ j ∧ regular (fs w) i c.1 c.2) →
  wp strict (unlinkat d name) (λ _ w', tidy_here w' ∧ has c w') (λ w', same w w') w.
Proof using leaf_not_drawn uuid_inj.
  intros Ht Hk He Hr Hj (i & Hi & Hij & Hri). eapply wp_unlink; [done|done| |done].
  intros w' Hu Hs _. split.
  - eapply tidy_step; [done|auto|done|done|exact Hs| |].
    + intros x <-. destruct Hj as [?| ->]; [by left|right; by left].
    + intros x <-. by right.
  - destruct c as [cb cm]. exists i. split.
    + rewrite (effect_entries _ _ _ _ _ Hs); [done|]. destruct Hk as (k & _ & ->). intros Heq. by apply (leaf_not_drawn k).
    + eapply regular_effect; [exact Hs|by eapply tidy_directory|congruence|done].
Qed.

Lemma wp_rollback_update s name i w :
  numbered f0 → s = mkStaged d name i → exchanged_state name i w → state_matches sha256_hex (target p) (as_bytes content) = true →
  wp strict (rollback_update_exchange sha256_hex parent (absolute_path t) p mode (mkExchange s))
    (λ _, update_left) update_left w.
Proof using Hb Hold leaf_not_drawn uuid_inj.
  intros Hn -> He Hm. unfold rollback_update_exchange. apply wp_bind, wp_map_err. unfold rollback_exchange.
  erewrite in_parent_leaf by done. apply wp_bind, wp_lift.
  eapply wp_swap_back; [done|done| |].
  2:{ intros w' Hs. eapply exchanged_left, exchanged_same; [done|]. exact He. }
  clear w He. intros w He. pose proof He as (_ & _ & _ & _ & _ & Hen & Hri).
  destruct (saw_read_staged w (mkStaged d name i) i (as_bytes content) mode Hen Hri) as (restored & Hc & Hs).
  apply wp_bind, wp_map_err. eapply wp_read; [honest_tac|exact Hs| |intros w' Hs'; by eapply left_same, restored_left].
  intros w1 Hs1. pose proof Hs1 as [Hf1 _].
  assert (restored_state name i w1) as He1 by (by eapply restored_same). clear Hs.
  assert (file_bytes restored = as_bytes content ∧ permissions restored = mode) as [Hby Hpe] by (by destruct Hc as (? & ? & _ & ->)).
  apply wp_bind, wp_map_err. unfold exchanged_is_staged_target. apply wp_bind.
  eapply (wp_honest _ _ true_error _ (metadata restored)); [apply honest_observe| | |intros w' Hs'; by eapply left_same, restored_left].
  { unfold fstat. rewrite saw_observe. destruct Hc as (tm & dv & Hx & ->). unfold stat_inode. cbn [staged_file staged]. by rewrite Hf1, Hx. }
  intros w2 Hs2. apply wp_ret. unfold same_file_identity. rewrite !N.eqb_refl, Hby, Hpe, Hm, N.eqb_refl.
  assert (restored_state name i w2) as He2 by (by eapply restored_same). clear He He1 Hs1 Hf1 Hc Hen Hri.
  apply wp_pure, wp_bind, wp_map_err. pose proof He2 as (Ht & Hi & Hk & Hel & Hi0 & Hen & Hri).
  eapply wp_mono; [apply (wp_remove_staged name i (as_bytes content) mode w2 (bytes, mode)); try done|..].
  - by left.
  - exists i0. split_and!; [done| |by apply regular_i0]. intros Heq. destruct (i0_facts Hn) as [_ Hnw]. apply Hnw. congruence.
  - intros [] w3 [Ht3 Hh3]. apply wp_sync; intros w4 Hs4; (eapply left_same; [done|]); split; auto.
  - intros w3 _ Hs3. eapply left_same; [done|]. by eapply restored_left.
Qed.

(** The contents that an update may start from. *)
Lemma wp_commit_update transaction_id committed_at w :
  numbered f0 → fs w = f0 → uuids w = n0 → unused uuid d w →
  state_matches sha256_hex (target p) (as_bytes content) = true →
  wp strict (commit_update sha256_hex uuid transaction_id t p committed_at)
    (λ c w', c = applied_commit transaction_id t p committed_at Status.Applied None
       ∧ tidy_here w' ∧ has (as_bytes content, mode) w') update_left w.
Proof using Hb Hleaf Hold Hmatch Hop Hnew leaf_not_drawn uuid_inj.
  intros Hn Hf Hu Hun Hm.
  assert (stage_here w) as Hst.
  { split; [rewrite Hf; apply effect_refl|by rewrite Hf| |by rewrite Hu|done].
    destruct (bound_directory _ _ _ _ _ Hb) as (_ & _ & Hd & _). by rewrite Hf. }
  assert (Hlook : ∀ w', same w w' → stage_here w') by (intros w' Hs; by eapply staging_same).
  assert (Hleft : ∀ w', same w w' → update_left w') by (intros w' Hs; apply staging_left; auto).
  assert (∃ current, current_of f0 i0 bytes mode current
      ∧ saw (read_optional parent (absolute_path t)) f0 = Some (Ok (Some current))
      ∧ saw (read_required parent (absolute_path t)) f0 = Some (Ok current)) as (current & Hc & Hs1 & Hs2).
  { rewrite <- Hf. apply saw_read_here; [by apply staging_tidy|by rewrite Hf|by rewrite Hf]. }
  assert (file_bytes current = bytes ∧ permissions current = mode) as [Hby Hpe] by (by destruct Hc as (? & ? & _ & ->)).
  unfold commit_update.
  eapply wp_then; [honest_tac|rewrite Hf; by eapply (saw_open_parent _ _ _ _ _ Hb (Some (bytes, mode))); exists i0| |done].
  intros w1 E1. unfold reconcile_bound. rewrite Hop. apply wp_bind. cbn [bound_target].
  eapply wp_then; [unfold read_optional; honest_tac|destruct E1 as [-> _]; rewrite Hf; exact Hs1|..].
  2:{ intros w' E. apply Hleft. by eapply same_trans. }
  intros w2 E2. pose proof (same_trans _ _ _ E1 E2) as E. clear w1 E1 E2. cbv beta iota. rewrite Hby, Hmatch. apply wp_ret. cbv beta iota.
  eapply wp_then; [honest_tac|destruct E as [-> _]; rewrite Hf; exact Hs2|..].
  2:{ intros w' E'. apply Hleft. by eapply same_trans. }
  intros w1 E1. pose proof (same_trans _ _ _ E E1) as E2. clear w2 E E1.
  unfold ensure_state_matches. rewrite Hby, Hmatch. apply wp_pure.
  unfold required_target_content. rewrite Hnew. apply wp_pure. rewrite Hpe.
  apply wp_bind. eapply wp_mono; [eapply wp_stage; [exact uuid_inj|by apply Hlook]| |intros w' _ Hs'; by apply staging_left].
  intros s w2 (name & i & -> & Ho). cbn [default] in Ho.
  apply wp_bind. eapply wp_mono; [by eapply (wp_check_base_again _ name i current)| |intros w' _ Hs'; by apply staging_left].
  intros second w3 [Ho3 Hc3]. apply wp_bind.
  eapply wp_mono; [by eapply wp_publish_exchange| |intros w' _ Hs'; by apply staging_left].
  intros e w4 [-> He4]. assert (permissions second = mode) as -> by (by destruct Hc3 as (? & ? & _ & ->)).
  eapply wp_attempt.
  { eapply wp_mono; [by eapply wp_validate_displaced| |intros w' _ H; exact H].
    intros [] w5 He5. cbv beta. pose proof He5 as (Ht & Hi & Hk & Hen & Hi0 & Hel & Hri).
    apply wp_bind, wp_map_err.
    eapply wp_mono; [apply (wp_remove_staged name i0 bytes mode w5 (as_bytes content, mode)); try done|..].
    - by apply regular_i0.
    - by right.
    - exists i. split_and!; [done| |done]. intros Heq. destruct (i0_facts Hn) as [_ Hnw]. apply Hnw. congruence.
    - intros [] w6 [Ht6 Hh6]. apply wp_bind, wp_sync; intros w7 Hs7; pose proof Hs7 as [Hf7 _].
      + apply wp_ret. split_and!; [done|by eapply tidy_same|by rewrite Hf7].
      + eapply left_same; [done|]. split; auto.
    - intros w6 _ Hs6. eapply left_same; [done|]. by eapply exchanged_left. }
  intros w5 Hstrict He5. split; [by eapply exchanged_left|]. intros error. apply wp_bind.
  eapply wp_mono; [by eapply wp_rollback_update| |done].
  intros [] w6 H6. by apply wp_fail.
Qed.
End Update.

(** ** Create *)

Section Create.
Context {json : JsonServices} {diffs : TextDiffs} (sha256_hex : list N → rstr) (uuid : N → rstr).
Context (strict : bool) (t : ResolvedFileChangeTarget) (names : list rstr) (leaf : rstr) (d : N).
Context (f0 : FileSystem) (n0 : N) (p : FileChangePlan) (content : rstr).
Hypothesis uuid_inj : ∀ j k, uuid j = uuid k → j = k.
Hypothesis leaf_not_drawn : ∀ k, leaf ≠ stage_name (uuid k).
Hypothesis Hb : bound f0 t names leaf d.
Hypothesis Hop : operation p = Operation.Create.
Hypothesis Hnew : plan_target_content p = Some content.
Hypothesis Hleaf : holds f0 d leaf None.
Local Abbreviation parent := (mkParent t d).
Local Abbreviation stage_here := (staging uuid d f0 n0).
Local Abbreviation tidy_here := (tidy uuid d f0 n0 [leaf] []).
Local Abbreviation own_here := (own uuid d f0 n0).

(** A created file is readable and writable by its owner only. *)
Definition created_mode : N := 384.

Definition create_left (w : World) : Prop :=
  tidy_here w ∧ (holds (fs w) d leaf None ∨ holds (fs w) d leaf (Some (as_bytes content, created_mode))).

Lemma staging_no_leaf w : stage_here w → holds (fs w) d leaf None.
Proof using Hleaf leaf_not_drawn.
  intros Hs. pose proof (staging_effect _ _ _ _ _ Hs) as He. cbn. rewrite (effect_entries _ _ _ _ _ He); [done|].
  intros (k & _ & H). by apply (leaf_not_drawn k).
Qed.

Lemma staging_create_left w : stage_here w → create_left w.
Proof using Hleaf leaf_not_drawn. intros Hs. split; [by apply staging_tidy|]. left. by apply staging_no_leaf. Qed.

Lemma create_left_same w w' : same w w' → create_left w → create_left w'.
Proof. intros Hs [Ht H]. pose proof Hs as [Hf Hu]. split; [by eapply tidy_same|]. by rewrite Hf. Qed.

Lemma wp_commit_create transaction_id committed_at w :
  numbered f0 → fs w = f0 → uuids w = n0 → unused uuid d w →
  wp strict (commit_create sha256_hex uuid transaction_id t p committed_at)
    (λ c w', c = applied_commit transaction_id t p committed_at Status.Applied None
       ∧ tidy_here w' ∧ holds (fs w') d leaf (Some (as_bytes content, created_mode))) create_left w.
Proof using Hb Hleaf Hop Hnew leaf_not_drawn uuid_inj.
  intros Hn Hf Hu Hun.
  assert (stage_here w) as Hst.
  { split; [rewrite Hf; apply effect_refl|by rewrite Hf| |by rewrite Hu|done].
    destruct (bound_directory _ _ _ _ _ Hb) as (_ & _ & Hd & _). by rewrite Hf. }
  assert (Hlook : ∀ w', same w w' → stage_here w') by (intros w' Hs; by eapply staging_same).
  assert (Hleft : ∀ w', same w w' → create_left w') by (intros w' Hs; apply staging_create_left; auto).
  assert (saw (read_optional parent (absolute_path t)) f0 = Some (Ok None)) as Hs1.
  { apply (saw_read_in f0 d parent (absolute_path t) leaf None); [by eapply in_parent_leaf|done| |done].
    by destruct (bound_directory _ _ _ _ _ Hb) as (_ & _ & Hd & _). }
  unfold commit_create.
  eapply wp_then; [honest_tac|rewrite Hf; by eapply (saw_open_parent _ _ _ _ _ Hb None)| |done].
  intros w1 E1. unfold reconcile_bound. rewrite Hop. apply wp_bind. cbn [bound_target].
  eapply wp_then; [unfold read_optional; honest_tac|destruct E1 as [-> _]; rewrite Hf; exact Hs1|..].
  2:{ intros w' E. apply Hleft. by eapply same_trans. }
  intros w2 E2. pose proof (same_trans _ _ _ E1 E2) as E. clear w1 E1 E2. cbv beta iota. apply wp_ret. cbv beta iota.
  eapply wp_then; [unfold read_optional; honest_tac|destruct E as [-> _]; rewrite Hf; exact Hs1|..].
  2:{ intros w' E'. apply Hleft. by eapply same_trans. }
  intros w1 E1. pose proof (same_trans _ _ _ E E1) as E2. clear w2 E E1.
  rewrite (bool_decide_eq_false_2 (is_Some None)) by (by intros []). apply wp_pure.
  unfold required_target_content. rewrite Hnew. apply wp_pure.
  apply wp_bind. eapply wp_mono; [eapply wp_stage; [exact uuid_inj|by apply Hlook]| |intros w' _ Hs'; by apply staging_create_left].
  intros s w2 (name & i & -> & Ho). cbn [default] in Ho.
  assert (Hdrop : ∀ w, strict = false → own_here name i (as_bytes content) created_mode w →
    stage_here w ∧ wp strict (drop_staged (mkStaged d name i)) (λ _, stage_here) stage_here w)
    by (intros w' _ Ho'; split; [apply Ho'|]; by eapply wp_drop_own).
  apply wp_bind. apply (wp_mono _ _ _ _ (λ _, own_here name i (as_bytes content) created_mode) stage_here);
    [|clear w2 Ho|intros w' _ Hs'; by apply staging_create_left].
  { apply (wp_on_error _ _ (own_here name i (as_bytes content) created_mode)); [|done].
    eapply wp_read; [honest_tac| |..]; [|intros w' Hs'; by eapply own_same..].
    apply (saw_revalidate_parent _ _ names leaf _ (tidy_bound _ _ _ _ _ _ _ _ _ _ Hb (staging_tidy _ _ _ _ [leaf] [] _ (proj1 Ho))) None).
    by apply staging_no_leaf, Ho. }
  intros [] w2 Ho. apply wp_bind, wp_map_err. unfold publish_noreplace.
  apply (wp_on_error _ _ (own_here name i (as_bytes content) created_mode)).
  2:{ intros w' Hs Ho'. destruct (Hdrop w' Hs Ho') as [Hs' Hw]. split; [by apply staging_create_left|].
      eapply wp_mono; [exact Hw|..]; intros; by apply staging_create_left. }
  erewrite in_parent_leaf by done. apply wp_bind, wp_lift.
  pose proof Ho as (Hs & Hk & He & Hi & Hr).
  eapply wp_rename; [exact He|by apply staging_no_leaf|..].
  2:{ intros w' Hs'. by eapply own_same. }
  intros w3 Hu3 Hs3 Hen Hel.
  assert (tidy_here w3) as Ht3.
  { eapply tidy_step; [done| |by apply staging_tidy|done|exact Hs3|by intros ? []|].
    - intros x k ->%list_elem_of_singleton. apply leaf_not_drawn.
    - intros x [->| ->]; [by right|left; by left]. }
  assert (holds (fs w3) d leaf (Some (as_bytes content, created_mode))) as Hh3.
  { exists i. split; [done|]. eapply regular_effect; [exact Hs3|by apply (staging_directory _ _ _ _ _ Hs)|by intros []|exact Hr]. }
  apply wp_bind, (wp_sync _ t d); intros w4 Hs4; pose proof Hs4 as [Hf4 _].
  - apply wp_ret. split_and!; [done|by eapply tidy_same|by rewrite Hf4].
  - eapply create_left_same; [done|]. split; auto.
Qed.
End Create.

(** ** A change that is there already *)

Section Again.
Context {json : JsonServices} {diffs : TextDiffs} (sha256_hex : list N → rstr) (uuid : N → rstr).
Context (strict : bool) (t : ResolvedFileChangeTarget) (names : list rstr) (leaf : rstr) (d : N).
Context (bytes : list N) (mode : N) (p : FileChangePlan).

Lemma honest_reconcile_bound parent j : honest any_code (reconcile_bound sha256_hex parent p j).
Proof using. unfold reconcile_bound, reconcile_deleted, read_optional. honest_tac. Qed.

(** A commit that finds its target only syncs. *)
Lemma wp_commit_again transaction_id committed_at w :
  bound (fs w) t names leaf d → holds (fs w) d leaf (Some (bytes, mode)) →
  operation p ≠ Operation.Delete → (operation p = Operation.Update → state_matches sha256_hex (base p) bytes = false) →
  state_matches sha256_hex (target p) bytes = true →
  wp strict (match operation p with
             | Operation.Create => commit_create sha256_hex uuid transaction_id t p committed_at
             | _ => commit_update sha256_hex uuid transaction_id t p committed_at
             end)
    (λ c w', c = applied_commit transaction_id t p committed_at Status.AlreadyApplied None ∧ same w w') (same w) w.
Proof using.
  intros Hb Hh Hop Hbase Htarget.
  destruct (bound_directory _ _ _ _ _ Hb) as (_ & _ & Hd & _).
  destruct (saw_read_in (fs w) d (mkParent t d) (absolute_path t) leaf (Some (bytes, mode))) as (i & current & _ & Hc & Hs);
    [by eapply in_parent_leaf|done..|].
  assert (file_bytes current = bytes) as Hby by (by destruct Hc as (? & ? & _ & ->)).
  assert (saw (reconcile_bound sha256_hex (mkParent t d) p None) (fs w) = Some (Ok Reconciliation.AlreadyApplied)) as Hrec.
  { unfold reconcile_bound. cbn [bound_target]. eapply saw_then; [unfold read_optional; honest_tac|exact Hs|].
    cbv beta iota. rewrite Hby, Htarget.
    destruct (operation p) eqn:E; [done| |done]. by rewrite Hbase by done. }
  assert (Htail : ∀ w1, same w w1 → wp strict
      (_ ← sync_after_publication (mkParent t d);
       mret (applied_commit transaction_id t p committed_at Status.AlreadyApplied None))
      (λ c w', c = applied_commit transaction_id t p committed_at Status.AlreadyApplied None ∧ same w w') (same w) w1).
  { intros w1 E1. apply wp_bind, (wp_sync _ t d); intros w2 E2; [apply wp_ret; split; [done|]|]; by eapply same_trans. }
  assert (Hopen : saw (open_parent t) (fs w) = Some (Ok (mkParent t d))) by (by eapply saw_open_parent).
  destruct (operation p); [unfold commit_create|unfold commit_update|done];
    (eapply wp_then; [honest_tac|exact Hopen| |done]); intros w1 E1;
    (eapply wp_then; [apply honest_reconcile_bound|destruct E1 as [-> _]; exact Hrec| |intros; by eapply same_trans]);
    intros w2 E2; apply Htail; by eapply same_trans.
Qed.
End Again.

(** * What a commit does to the files

    Whatever other processes do and whichever calls fail, a commit writes only
    into files it created under the names it drew, unlinks only names it created
    files under, and changes the name of the target only by moving a file there
    or away without replacing one, or by an exchange. *)

(** ** A logic for what is done

    [foot ok known m Q]: when the events of [known] have happened, [m] only adds
    events that are [ok] in view of all that happened, and an answer has [Q]. *)

Section Foot.
Context (ok : list Event → Event → Prop).
Hypothesis ok_mono : ∀ h h' e, (∀ x, x ∈ h → x ∈ h') → ok h e → ok h' e.

Definition all_ok (h : list Event) : Prop := ∀ e, e ∈ h → ok h e.

Definition foot {E A} (known : list Event) (m : io E A) (Q : A → list Event → Prop) : Prop :=
  ∀ w, (∀ e, e ∈ known → e ∈ history w) → all_ok (history w) →
    (∀ e, e ∈ history w → e ∈ history (snd (m w))) ∧ all_ok (history (snd (m w)))
    ∧ ∀ a, fst (m w) = Some (Ok a) → Q a (history (snd (m w))).

(** Only the events it adds count. *)
Abbreviation anything := (λ _ _, True).

Section Rules.
Context {E E' A B : Type}.

Lemma foot_ret (a : A) known (Q : A → list Event → Prop) :
  (∀ h, (∀ e, e ∈ known → e ∈ h) → Q a h) → foot known (mret a : io E A) Q.
Proof. intros HQ w Hk Ho. split_and!; [done|done|]. intros x [= <-]. by apply HQ. Qed.

Lemma foot_fail (e : E) known (Q : A → list Event → Prop) : foot known (fail e) Q.
Proof. by intros w Hk Ho. Qed.

Lemma foot_looks (m : io E A) known : looks m → foot known m anything.
Proof. intros Hl w Hk Ho. destruct (Hl w) as [-> _]. done. Qed.

Lemma foot_mono (m : io E A) known (Q R : A → list Event → Prop) :
  foot known m Q → (∀ a h, (∀ e, e ∈ known → e ∈ h) → Q a h → R a h) → foot known m R.
Proof.
  intros Hm HQ w Hk Ho. destruct (Hm w Hk Ho) as (Hh & Ho' & Ha). split_and!; [done..|].
  intros a H. apply HQ; [|by apply Ha]. intros e He. by apply Hh, Hk.
Qed.

Lemma foot_bind (m : io E A) (k : A → io E B) known Q R :
  foot known m Q → (∀ a h, (∀ e, e ∈ known → e ∈ h) → Q a h → foot h (k a) R) → foot known (m ≫= k) R.
Proof.
  intros Hm Hk w Hw Ho. destruct (Hm w Hw Ho) as (Hh & Ho' & Ha). unfold mbind, io_bind.
  destruct (m w) as [[[a|e]|] w1]; cbn in *; [|done..].
  destruct (Hk a (history w1)) with (w := w1) as (Hh' & Ho'' & Hb); [by auto|by apply Ha|done|done|].
  split_and!; [by auto|done|done].
Qed.

Lemma foot_map_err (f : E → E') (m : io E A) known Q : foot known m Q → foot known (map_err f m) Q.
Proof.
  intros Hm w Hk Ho. specialize (Hm w Hk Ho). unfold map_err. destruct (m w) as [[[a|e]|] w1]; cbn in *; naive_solver.
Qed.

Lemma foot_attempt (m : io E A) known :
  foot known m anything → foot known (attempt m : io E' (result E A)) anything.
Proof. intros Hm w Hk Ho. specialize (Hm w Hk Ho). unfold attempt. destruct (m w) as [[r|] w1]; cbn in *; naive_solver. Qed.

Lemma foot_on_error (cleanup : io E' B) (m : io E A) known Q :
  foot known m Q → foot known cleanup anything → foot known (on_error cleanup m) Q.
Proof.
  intros Hm Hc w Hk Ho. destruct (Hm w Hk Ho) as (Hh & Ho' & Ha). unfold on_error.
  destruct (m w) as [[[a|e]|] w1]; cbn in *; [done| |done].
  destruct (Hc w1) as (Hh' & Ho'' & _); [by auto|done|].
  destruct (cleanup w1) as [[r|] w2]; cbn in *; (split_and!; [by auto|done|by intros ? [=]]).
Qed.
End Rules.

Lemma foot_syscall {A} (op : FileSystem → result Errno.Errno (A * FileSystem * list Event)) known Q :
  (∀ f a f' ev h, (∀ e, e ∈ known → e ∈ h) → op f = Ok (a, f', ev) →
     (∀ e, e ∈ ev → ok (h ++ ev) e) ∧ Q a (h ++ ev)) →
  foot known (syscall op) Q.
Proof using ok_mono.
  intros Hop w Hk Ho. unfold syscall.
  set (x := match turns w with [] => _ | _ => _ end). destruct x as [[f fate] rest].
  destruct fate; cbn; [|done..]. destruct (op f) as [[[a f'] ev]|] eqn:E; cbn; [|done].
  destruct (Hop f a f' ev (history w) Hk E) as [Hev HQ]. split_and!.
  - intros e He. apply elem_of_app. by left.
  - intros e [He|He]%elem_of_app; [|by apply Hev]. eapply ok_mono; [|by apply Ho]. intros. apply elem_of_app. by left.
  - by intros b [= <-].
Qed.
End Foot.

(** ** The footprint of a commit *)

Section Footprint.
Context (uuid : N → rstr) (t : ResolvedFileChangeTarget) (journal : option FileChangeDeleteJournal).

Definition is_target (name : rstr) : Prop := file_name (absolute_path t) = Some name.
Definition is_tombstone (name : rstr) : Prop := ∃ j, journal = Some j ∧ file_name (tombstone j) = Some name.

(** A name that the commit has created a file under. *)
Definition created_under (h : list Event) (d : N) (name : rstr) : Prop := ∃ i, Created d name i ∈ h.

(** The events of a commit, after which [h] has happened. *)
Definition footprint (h : list Event) (e : Event) : Prop :=
  match e with
  | Created _ name _ => ∃ k, name = stage_name (uuid k)
  | Wrote i _ | SetMode i _ => ∃ d name, Created d name i ∈ h
  | Removed d name _ _ => created_under h d name
  | Exchanged d source target _ _ => created_under h d source ∧ is_target target
  | Renamed d source target _ =>
      (created_under h d source ∧ is_target target)
      ∨ (is_target source ∧ is_tombstone target) ∨ (is_tombstone source ∧ is_target target)
  end.

Lemma footprint_mono h h' e : (∀ x, x ∈ h → x ∈ h') → footprint h e → footprint h' e.
Proof. unfold footprint, created_under. intros Hs. destruct e; naive_solver. Qed.

Local Abbreviation foot := (foot footprint).
Local Abbreviation anything := (λ _ _, True).

Definition staged_by (s : BoundStagedFile) (h : list Event) : Prop :=
  Created (staged_directory s) (staged_name s) (staged_file s) ∈ h.

Lemma foot_reads {A} (m : change A) known : honest any_code m → foot known m anything.
Proof. intros H. by eapply foot_looks, honest_looks. Qed.

Lemma foot_unlink d name known : created_under known d name → foot known (unlinkat d name) anything.
Proof.
  intros (i & Hi). apply foot_syscall; [exact footprint_mono|]. intros f [] f' ev h Hk H. split; [|done].
  repeat inv_bind H. case_match; [done|]. injection H as <- <-. intros e ->%list_elem_of_singleton.
  exists i. apply elem_of_app. left. by apply Hk.
Qed.

Lemma foot_drop s known : staged_by s known → foot known (drop_staged s) anything.
Proof. intros H. apply foot_unlink. by eexists. Qed.

Lemma foot_observe {A} (op : FileSystem → result Errno.Errno A) known : foot known (observe op) anything.
Proof. apply foot_looks, looks_observe. Qed.

Lemma foot_create d name mode known :
  (∃ k, name = stage_name (uuid k)) → foot known (openat_create d name mode) (λ i h, Created d name i ∈ h).
Proof.
  intros Hn. apply foot_syscall; [exact footprint_mono|]. intros f a f' ev h Hk H.
  inv_bind H. case_match; [done|]. injection H as <- <- <-. split.
  - by intros e ->%list_elem_of_singleton.
  - apply elem_of_app. right. by apply list_elem_of_singleton.
Qed.

Lemma foot_inode (op : FileSystem → result Errno.Errno (() * FileSystem * list Event)) known i d name :
  Created d name i ∈ known →
  (∀ f f' ev, op f = Ok ((), f', ev) → ∀ e, e ∈ ev → (∃ bytes, e = Wrote i bytes) ∨ ∃ mode, e = SetMode i mode) →
  foot known (syscall op) anything.
Proof.
  intros Hi Hop. apply foot_syscall; [exact footprint_mono|]. intros f [] f' ev h Hk H. split; [|done].
  intros e He. assert (Created d name i ∈ h ++ ev) by (apply elem_of_app; left; by apply Hk).
  destruct (Hop f f' ev H e He) as [[? ->]|[? ->]]; by exists d, name.
Qed.

Lemma foot_fill d name content mode file known :
  Created d name file ∈ known → foot known (fill d name content mode file) (λ s h, staged_by s h ∧ staged_directory s = d).
Proof.
  intros Hc. unfold fill. apply foot_on_error; [|apply foot_unlink; by exists file]. apply foot_map_err.
  eapply foot_bind; [eapply (foot_inode _ _ file); [done|]; intros f f' ev H; case_match; [|done];
    injection H as <- <-; intros e ->%list_elem_of_singleton; eauto|]. intros [] h Hk _.
  eapply foot_bind; [apply foot_observe|]. intros [] h1 Hk1 _. apply Hk in Hc. apply Hk1 in Hc.
  eapply (foot_bind _ _ _ _ anything).
  { destruct mode as [mode|]; [|by apply foot_ret].
    eapply foot_bind; [eapply (foot_inode _ _ file); [done|]; intros f f' ev H; case_match; [|done];
      injection H as <- <-; intros e ->%list_elem_of_singleton; eauto|]. intros [] h2 _ _. apply foot_observe. }
  intros [] h2 Hk2 _. eapply foot_bind; [apply foot_observe|]. intros [] h3 Hk3 _.
  apply foot_ret. intros h4 Hk4. split; [|done]. by apply Hk4, Hk3, Hk2.
Qed.

Lemma foot_stage parent content mode known :
  foot known (stage uuid parent content mode) (λ s h, staged_by s h ∧ staged_directory s = directory parent).
Proof.
  unfold stage. generalize 16 as n. intros n. revert known. induction n as [|n IH]; intros known; cbn [stage_attempts]; [apply foot_fail|].
  apply (foot_bind _ _ _ _ (λ id _, ∃ k, id = uuid k)); [intros w Hk Ho; split_and!; [done|done|]; intros a [= <-]; eauto|].
  intros id h Hk (k & ->). intros w Hw Ho.
  destruct (foot_create (directory parent) (stage_name (uuid k)) 384 h (ex_intro _ k eq_refl) w Hw Ho) as (Hh & Ho' & Ha).
  unfold mbind, io_bind, attempt. destruct (openat_create _ _ _ w) as [[[file|e]|] w1]; cbn in *; [| |done].
  - destruct (foot_fill (directory parent) (stage_name (uuid k)) content mode file (history w1) (Ha _ eq_refl) w1)
      as (Hh' & Ho'' & Hs); [done|done|]. split_and!; [by auto|done|done].
  - case_bool_decide.
    + destruct (IH (history w1) w1) as (Hh' & Ho'' & Hs); [done|done|]. split_and!; [by auto|done|done].
    + by split_and!.
Qed.

Lemma in_parent_file parent p name : in_parent parent p = Ok name → file_name p = Some name.
Proof.
  unfold in_parent, leaf_name_io. case_match; [done|]. intros Hn. inv_bind Hn. case_match; [done|]. injection Hn as ->.
  by destruct (file_name p); [injection E as ->|].
Qed.

Lemma foot_in_parent {A} parent p (k : rstr → io IoError A) known Q :
  (∀ name, file_name p = Some name → foot known (k name) Q) → foot known (name ← lift (in_parent parent p); k name) Q.
Proof.
  intros Hk. destruct (in_parent parent p) as [name|e] eqn:E; [|apply foot_fail].
  apply (foot_bind _ _ _ _ (λ a _, a = name)); [by intros w Hw Ho; split_and!; [done|done|intros a [= <-]]|].
  intros a h Hh ->. apply in_parent_file, Hk in E. intros w Hw Ho. apply E; auto.
Qed.

Definition may_rename (h : list Event) (d : N) (source target : rstr) : Prop :=
  (created_under h d source ∧ is_target target)
  ∨ (is_target source ∧ is_tombstone target) ∨ (is_tombstone source ∧ is_target target).

Lemma foot_rename_raw d source target known :
  may_rename known d source target → foot known (rename_noreplace_raw d source target) anything.
Proof.
  intros Hr. apply foot_map_err, foot_syscall; [exact footprint_mono|]. intros f [] f' ev h Hk H. split; [|done].
  repeat inv_bind H. case_match; [done|]. injection H as <- <-. intros e ->%list_elem_of_singleton.
  apply (footprint_mono known); [|exact Hr]. intros x Hx. apply elem_of_app. left. by apply Hk.
Qed.

Lemma foot_exchange_raw d source target known :
  created_under known d source → is_target target → foot known (exchange_raw d source target) anything.
Proof.
  intros Hr Ht. apply foot_map_err, foot_syscall; [exact footprint_mono|]. intros f [] f' ev h Hk H. split; [|done].
  repeat inv_bind H. injection H as <- <-. intros e ->%list_elem_of_singleton.
  apply (footprint_mono known); [|by split]. intros x Hx. apply elem_of_app. left. by apply Hk.
Qed.

Lemma created_mono known h d name : (∀ e, e ∈ known → e ∈ h) → created_under known d name → created_under h d name.
Proof. intros H [i Hi]. exists i. auto. Qed.

Lemma staged_created s parent known :
  staged_by s known → staged_directory s = directory parent → created_under known (directory parent) (staged_name s).
Proof. intros H <-. by eexists. Qed.

Lemma foot_publish_noreplace parent s known :
  staged_by s known → staged_directory s = directory parent →
  foot known (publish_noreplace parent s (absolute_path t)) anything.
Proof.
  intros Hs Hd. unfold publish_noreplace. apply foot_on_error; [|by apply foot_drop].
  apply foot_in_parent. intros name Hn. apply foot_rename_raw. left. split; [by apply staged_created|done].
Qed.

Lemma foot_publish_exchange parent s known :
  staged_by s known → staged_directory s = directory parent →
  foot known (publish_exchange parent s (absolute_path t)) (λ e _, e = mkExchange s).
Proof.
  intros Hs Hd. unfold publish_exchange. apply foot_on_error; [|by apply foot_drop].
  apply foot_in_parent. intros name Hn.
  eapply foot_bind; [apply foot_exchange_raw; [by apply staged_created|done]|]. intros [] h Hk _. by apply foot_ret.
Qed.

Lemma foot_rename_noreplace parent source target known :
  (∀ s r, file_name source = Some s → file_name target = Some r → may_rename known (directory parent) s r) →
  foot known (rename_noreplace parent source target) anything.
Proof.
  intros H. unfold rename_noreplace. apply foot_in_parent. intros s Hs. apply foot_in_parent. intros r Hr.
  apply foot_rename_raw. auto.
Qed.

(** The next step of a computation that only reads. *)
Lemma foot_then {A B} (m : change A) (k : A → change B) known Q :
  honest any_code m → (∀ a h, (∀ e, e ∈ known → e ∈ h) → foot h (k a) Q) → foot known (m ≫= k) Q.
Proof. intros Hm Hk. eapply foot_bind; [by apply foot_reads|]. intros a h Hh _. by apply Hk. Qed.

Lemma foot_sync parent known : foot known (sync_after_publication parent) anything.
Proof. apply foot_map_err, foot_observe. Qed.

Lemma foot_synced {A} parent (a : A) known : foot known (_ ← sync_after_publication parent; mret a : change A) anything.
Proof. eapply foot_bind; [apply foot_sync|]. intros [] h _ _. by apply foot_ret. Qed.

(** *** The committer *)

Context {json : JsonServices} {diffs : TextDiffs} (sha256_hex : list N → rstr).

Lemma foot_commit_create transaction_id p at_ known :
  foot known (commit_create sha256_hex uuid transaction_id t p at_) anything.
Proof.
  unfold commit_create. apply foot_then; [honest_tac|]. intros parent h0 _.
  apply foot_then; [apply honest_reconcile_bound|]. intros [] h1 _; [|apply foot_synced|apply foot_fail].
  apply foot_then; [unfold read_optional; honest_tac|]. intros current h2 _.
  apply foot_then; [apply honest_lift|]. intros [] h3 _.
  apply foot_then; [apply honest_lift|]. intros content h4 _.
  eapply foot_bind; [apply foot_stage|]. intros s h5 _ [Hs Hd].
  eapply foot_bind; [apply foot_on_error; [apply foot_reads; honest_tac|by apply foot_drop]|]. intros [] h6 Hk6 _.
  eapply foot_bind; [apply foot_map_err, foot_publish_noreplace; [by apply Hk6|done]|]. intros [] h7 _ _. apply foot_synced.
Qed.

Lemma foot_rollback p mode parent e known :
  created_under known (directory parent) (staged_name (staged e)) →
  foot known (rollback_update_exchange sha256_hex parent (absolute_path t) p mode e) anything.
Proof.
  intros Hc. unfold rollback_update_exchange.
  eapply foot_bind; [apply foot_map_err; unfold rollback_exchange; apply foot_in_parent; intros name Hn;
    by apply foot_exchange_raw|]. intros [] h1 Hk1 _.
  apply foot_then; [apply (honest_map_err any_code); [unfold read_exchanged; honest_tac|done]|]. intros restored h2 Hk2.
  eapply foot_bind; [apply foot_looks; unfold exchanged_is_staged_target, fstat; looks_tac|]. intros matches h3 Hk3 _.
  apply foot_then; [apply honest_lift|]. intros [] h4 Hk4.
  eapply foot_bind; [apply foot_map_err, foot_unlink; by eapply created_mono, created_mono, created_mono, created_mono|].
  intros [] h5 _ _. apply foot_sync.
Qed.

Lemma foot_commit_update transaction_id p at_ known :
  foot known (commit_update sha256_hex uuid transaction_id t p at_) anything.
Proof.
  unfold commit_update. apply foot_then; [honest_tac|]. intros parent h0 _.
  apply foot_then; [apply honest_reconcile_bound|]. intros [] h1 _; [|apply foot_synced|apply foot_fail].
  apply foot_then; [honest_tac|]. intros first h2 _.
  apply foot_then; [apply honest_lift|]. intros [] h3 _.
  apply foot_then; [apply honest_lift|]. intros content h4 _.
  eapply foot_bind; [apply foot_stage|]. intros s h5 _ [Hs Hd].
  eapply foot_bind; [apply foot_on_error; [apply foot_reads; unfold check_base_again; honest_tac|by apply foot_drop]|].
  intros second h6 Hk6 _.
  eapply foot_bind; [apply foot_map_err, foot_publish_exchange; [by apply Hk6|done]|]. intros e h7 Hk7 ->.
  pose proof (staged_created _ _ _ Hs Hd) as Hc. eapply created_mono in Hc; [|exact Hk6]. eapply created_mono in Hc; [|exact Hk7].
  eapply foot_bind; [apply foot_attempt, foot_reads; unfold validate_displaced, read_exchanged; honest_tac|].
  intros [[]|error] h8 Hk8 _; eapply created_mono in Hc; try exact Hk8.
  - eapply foot_bind; [by apply foot_map_err, foot_unlink|]. intros [] h9 _ _. apply foot_synced.
  - eapply foot_bind; [by apply foot_rollback|]. intros [] h9 _ _. apply foot_fail.
Qed.

Lemma foot_path_digest parent path digest known : foot known (ensure_path_digest sha256_hex parent path digest) anything.
Proof. apply foot_reads. unfold ensure_path_digest. honest_tac. Qed.

Lemma foot_bury parent p j known :
  journal = Some j → foot known (bury sha256_hex parent t p j) anything.
Proof.
  intros Hj. unfold bury. apply foot_then; [honest_tac|]. intros [] h0 _.
  apply foot_then; [honest_tac|]. intros current h1 _. apply foot_then; [apply honest_lift|]. intros [] h2 _.
  apply foot_then; [honest_tac|]. intros [] h3 _.
  eapply foot_bind; [apply foot_map_err, foot_rename_noreplace; intros source target Hs Hr; right; left; split;
    [done|by exists j]|]. intros [] h4 _ _.
  eapply foot_bind; [apply foot_attempt, foot_path_digest|]. intros [[]|error] h5 _ _; [apply foot_sync|].
  eapply foot_bind; [apply foot_attempt, foot_rename_noreplace; intros source target Hs Hr; right; right; split;
    [by exists j|done]|]. intros restored h6 _ _.
  eapply foot_bind; [apply foot_attempt, foot_observe|]. intros synced h7 _ _. apply foot_fail.
Qed.

Lemma foot_commit_delete transaction_id p at_ j known :
  journal = Some j → foot known (commit_delete sha256_hex transaction_id t p at_ j) anything.
Proof.
  intros Hj. unfold commit_delete. apply foot_then; [apply honest_lift|]. intros [] h0 _.
  apply foot_then; [honest_tac|]. intros parent h1 _. cbv zeta.
  assert (Hdone : ∀ known, foot known (reconciled ← reconcile_bound sha256_hex parent p (Some j);
      _ ← lift (ensure (bool_decide (reconciled = Reconciliation.AlreadyApplied)) FileChange.OutcomeUnknown);
      mret (applied_commit transaction_id t p at_ Status.AlreadyApplied (Some j)) : change FileChangeCommit) anything).
  { intros known'. apply foot_then; [apply honest_reconcile_bound|]. intros r h2 _. apply foot_then; [apply honest_lift|].
    intros [] h3 _. by apply foot_ret. }
  destruct (journal_state j); [|apply Hdone|apply Hdone|apply foot_fail].
  apply foot_then; [apply honest_reconcile_bound|]. intros [] h2 _; [|by apply foot_ret|].
  - eapply foot_bind; [by apply foot_bury|]. intros [] h3 _ _. by apply foot_ret.
  - apply foot_then; [unfold read_optional; honest_tac|]. intros current h3 _. apply foot_fail.
Qed.

Lemma foot_commit transaction_id p at_ known :
  foot known (commit sha256_hex uuid transaction_id t p at_ journal) anything.
Proof.
  unfold commit. apply foot_then; [apply honest_lift|]. intros [] h _.
  destruct (operation p); [| |]; case_match; first [apply foot_fail|apply foot_commit_create|apply foot_commit_update|
    by apply foot_commit_delete].
Qed.

Lemma honest_reconcile p j : honest any_code (reconcile sha256_hex t p j).
Proof. unfold reconcile. apply honest_bind; [honest_tac|]. intros parent. apply honest_reconcile_bound. Qed.

Lemma foot_commit_fresh transaction_id p at_ known :
  foot known (commit_fresh sha256_hex uuid transaction_id t p at_ journal) anything.
Proof.
  unfold commit_fresh. apply foot_then; [apply honest_lift|]. intros [] h _.
  apply foot_then; [apply honest_reconcile|]. intros [] h1 _; [|apply foot_fail..].
  eapply foot_bind; [apply foot_attempt, foot_commit|]. intros [c|e] h2 _ _.
  - case_bool_decide; [apply foot_fail|by apply foot_ret].
  - case_bool_decide; [|apply foot_fail]. unfold reconcile_attempted_outcome_unknown.
    apply foot_then; [apply (honest_map_err any_code); [apply honest_reconcile|done]|]. intros [] h3 _.
    + apply foot_fail.
    + apply foot_map_err, foot_commit.
    + apply foot_fail.
Qed.
End Footprint.
