(* ===== verification/FileChangeRetry.v ===== *)
(** * What a delete leaves behind

    A delete renames the file to the tombstone of its journal.  Every way out
    of the commit, the end of the delete or its rollback leaves the file under
    one of the two names, until the end removes the tombstone.

    After that: committing again. *)

From stdpp Require Import gmap.
From S2P Require Import Prelude RustText RustPath Posix Json HumanInteraction FileChangeError.
From S2P Require Import FileChangeDigest FileChangeModel FileChangeBinding FileChangePlanner.
From S2P Require Import FileChangePlannerFacts TraceItems BoundIo BoundIoFacts BoundIoEffects.
From S2P Require Import FileChangeCommitter FileChangeCommitFacts.

(** ** The tombstone *)

(** The hexadecimal digests that SHA-256 gives. *)
Definition is_sha256 (sha256_hex : list N → rstr) : Prop :=
  ∀ input, length (sha256_hex input) = 64 ∧ forallb is_lower_hex_digit (sha256_hex input) = true.

Lemma hex_not_char s a : forallb is_lower_hex_digit s = true → is_lower_hex_digit (ch a) = false → ch a ∉ s.
Proof.
  intros Hs Ha H. rewrite forallb_true in Hs. by rewrite (Hs _ H) in Ha.
Qed.

Lemma existsb_absent a s : ch a ∉ s → existsb (is_char a) s = false.
Proof. intros H. apply existsb_false. intros c Hc. destruct (is_char a c) eqn:E; [|done]. apply is_char_eq in E. by subst. Qed.

Section Tombstone.
Context (sha256_hex : list N → rstr).
Hypothesis Hsha : is_sha256 sha256_hex.

Lemma delete_journal_suffix_hex tx tp bd pd : forallb is_lower_hex_digit (delete_journal_suffix sha256_hex tx tp bd pd) = true.
Proof using Hsha.
  unfold delete_journal_suffix, content_digest, digest_bytes.
  match goal with |- context [sha256_hex ?i] => destruct (Hsha i) as [_ H]; generalize dependent (sha256_hex i) end.
  intros digest H. unfold after_last, DIGEST_PREFIX.
  assert (rs "file-change-sha256-v1:" ++ digest = rs "file-change-sha256-v1" ++ ch ":" :: digest) as -> by done.
  rewrite existsb_app. cbn [existsb]. rewrite (proj2 (is_char_eq ":" (ch ":")) eq_refl), orb_true_r. cbn [orb].
  rewrite split_at_app by done. rewrite split_at_free; [done|].
  apply existsb_absent. by apply hex_not_char.
Qed.

Lemma tombstone_name_valid suffix :
  forallb is_lower_hex_digit suffix = true →
  valid_name (tombstone_name (delete_journal_id suffix)) ∧ 0%N ∉ tombstone_name (delete_journal_id suffix).
Proof using.
  intros Hs. unfold valid_name, tombstone_name, delete_journal_id.
  assert (∀ a, ch a ∉ rs "." → ch a ∉ rs "file-change-delete-" → ch a ∉ rs ".tombstone" →
    is_lower_hex_digit (ch a) = false →
    ch a ∉ rs "." ++ (rs "file-change-delete-" ++ suffix) ++ rs ".tombstone") as Hfree.
  { intros a H1 H2 H3 H4. rewrite !not_elem_of_app. split_and!; [done..| |done]. by apply hex_not_char. }
  split_and!; try done.
  - apply (Hfree "/"%char); [| | |done]; intros H; vm_compute in H;
      repeat (apply elem_of_cons in H as [H|H]; [done|]); by apply elem_of_nil in H.
  - apply (Hfree "000"%char); [| | |done]; intros H; vm_compute in H;
      repeat (apply elem_of_cons in H as [H|H]; [done|]); by apply elem_of_nil in H.
Qed.

Lemma parse_name name : valid_name name → parse_path name = [Normal name].
Proof using.
  intros Hv. pose proof (parse_path_text [Normal name]) as H. cbn in H. apply H. left. by constructor.
Qed.

Lemma names_normalized names leaf : Forall valid_name (names ++ [leaf]) → normalized (names_path names ++ [Normal leaf]).
Proof using.
  intros H. right. exists (map Normal names ++ [Normal leaf]). split; [done|].
  apply Forall_app in H as [H1 H2]. apply Forall_app. split.
  - apply Forall_fmap. eapply Forall_impl; [exact H1|done].
  - constructor; [by apply Forall_inv in H2|done].
Qed.

(** Where the tombstone of a journal is. *)
Record buries (t : ResolvedFileChangeTarget) (leaf name : rstr) (j : FileChangeDeleteJournal) : Prop := {
  buries_tombstone : tombstone j = canonical_parent t ++ [Normal name];
  buries_printable : 0%N ∉ name;
  buries_other : name ≠ leaf;
  buries_target : target_path j = path_text (absolute_path t)
}.

Lemma journal_buries f t names leaf d j :
  bound f t names leaf d → validate_journal sha256_hex j = Ok () → target_path j = path_text (absolute_path t) →
  buries t leaf (tombstone_name (delete_journal_id (journal_suffix sha256_hex j))) j.
Proof using Hsha.
  intros Hb Hv Ht. unfold validate_journal in Hv. apply bind_Ok in Hv as ([] & _ & Hv).
  cbv zeta in Hv. apply ensured in Hv. rewrite !andb_true_iff, negb_true_iff, !bool_decide_eq_true, bool_decide_eq_false in Hv.
  destruct Hv as [[[[[_ _] _] Hne] _] Hexp].
  assert (parse_path (target_path j) = absolute_path t) as Habs.
  { rewrite Ht. apply parse_path_text. rewrite (bound_path _ _ _ _ _ Hb). apply names_normalized, (bound_valid _ _ _ _ _ Hb). }
  rewrite Habs, (bound_path _ _ _ _ _ Hb), names_path_parent in Hexp. cbn in Hexp. injection Hexp as Hexp.
  assert (forallb is_lower_hex_digit (journal_suffix sha256_hex j) = true) as Hhex by apply delete_journal_suffix_hex.
  destruct (tombstone_name_valid _ Hhex) as [Hval Hnul]. set (name := tombstone_name _) in *.
  rewrite parse_name in Hexp by done.
  assert (tombstone j = canonical_parent t ++ [Normal name]) as Htomb.
  { unfold tombstone. rewrite <- Hexp, (bound_parent _ _ _ _ _ Hb). done. }
  split; [done|done| |done].
  intros Heq. apply Hne. unfold tombstone in Htomb.
  by rewrite Habs, Htomb, (bound_path _ _ _ _ _ Hb), (bound_parent _ _ _ _ _ Hb), Heq.
Qed.
End Tombstone.

(** ** Burying, finalizing and rolling back *)

Lemma tidy_more uuid d f0 n0 extra old old' w :
  (∀ i, i ∈ old → i ∈ old') → tidy uuid d f0 n0 extra old w → tidy uuid d f0 n0 extra old' w.
Proof. intros H []. split; [|done..]. eapply effect_mono; [| |done]; naive_solver. Qed.

Section Delete.
Context {json : JsonServices} {diffs : TextDiffs} (sha256_hex : list N → rstr) (uuid : N → rstr).
Context (strict : bool) (t : ResolvedFileChangeTarget) (names : list rstr) (leaf tomb : rstr) (d : N).
Context (f0 : FileSystem) (n0 : N) (bytes : list N) (mode : N) (j : FileChangeDeleteJournal).
Hypothesis uuid_inj : ∀ i k, uuid i = uuid k → i = k.
Hypothesis not_drawn : ∀ name k, name ∈ [leaf; tomb] → name ≠ stage_name (uuid k).
Hypothesis Hb : bound f0 t names leaf d.
Hypothesis Hj : buries t leaf tomb j.
Hypothesis Hdigest : state_digest_matches sha256_hex (base_digest j) bytes = true.
Local Abbreviation parent := (mkParent t d).
Local Abbreviation tidy_here := (tidy uuid d f0 n0 [leaf; tomb] []).
Local Abbreviation tidy_removed := (tidy uuid d f0 n0 [leaf; tomb]).

(** The file is under [here], and nothing under [there]. *)
Definition file_at (here there : rstr) (w : World) : Prop :=
  tidy_here w ∧ holds (fs w) d here (Some (bytes, mode)) ∧ holds (fs w) d there None.

Definition delete_left (w : World) : Prop := file_at leaf tomb w ∨ file_at tomb leaf w.

Lemma file_at_same here there w w' : same w w' → file_at here there w → file_at here there w'.
Proof. intros Hs (Ht & H). pose proof Hs as [Hf _]. split; [by eapply tidy_same|]. by rewrite Hf. Qed.

Lemma delete_left_same w w' : same w w' → delete_left w → delete_left w'.
Proof. intros Hs [H|H]; [left|right]; by eapply file_at_same. Qed.

Lemma in_parent_tomb : in_parent parent (tombstone j) = Ok tomb.
Proof using Hb Hj. rewrite (buries_tombstone _ _ _ _ Hj). eapply in_parent_name; [done|]. apply Hj. Qed.

(** Reads of a name that holds the file, and of one that holds nothing. *)
Lemma saw_file w path name there :
  in_parent parent path = Ok name → file_at name there w →
  ∃ current, file_bytes current = bytes ∧ saw (read_optional parent path) (fs w) = Some (Ok (Some current))
    ∧ saw (read_required parent path) (fs w) = Some (Ok current).
Proof using.
  intros Hp (Ht & Hh & _).
  destruct (saw_read_in (fs w) d parent path name (Some (bytes, mode))) as (i & current & _ & Hc & Hs);
    [done|done|by eapply tidy_directory|done|].
  exists current. split_and!; [by destruct Hc as (? & ? & _ & ->)|done|].
  unfold read_required. by eapply saw_then; [unfold read_optional; honest_tac|done|].
Qed.

Lemma saw_nothing w path name :
  in_parent parent path = Ok name → is_Some (entries_of (fs w) d) → holds (fs w) d name None →
  saw (read_optional parent path) (fs w) = Some (Ok None).
Proof using. intros Hp Ht Hh. by apply (saw_read_in (fs w) d parent path name None). Qed.

Lemma saw_revalidate_any w c old : tidy_removed old w → holds (fs w) d leaf c → saw (revalidate_parent parent) (fs w) = Some (Ok ()).
Proof using Hb. intros Ht Hh. eapply saw_revalidate_parent; [by eapply tidy_bound|done]. Qed.

Lemma saw_digest w path name there :
  in_parent parent path = Ok name → file_at name there w →
  saw (ensure_path_digest sha256_hex parent path (base_digest j)) (fs w) = Some (Ok ()).
Proof using Hdigest.
  intros Hp H. destruct (saw_file w path name there Hp H) as (current & Hby & _ & Hs).
  unfold ensure_path_digest. eapply saw_then; [honest_tac|exact Hs|]. by rewrite Hby, Hdigest.
Qed.

Lemma honest_path_digest path digest : honest any_code (ensure_path_digest sha256_hex parent path digest).
Proof. unfold ensure_path_digest. honest_tac. Qed.

(** The rename from one name to the other. *)
Lemma wp_move source target here there w (R : () → World → Prop) (J : World → Prop) :
  in_parent parent source = Ok here → in_parent parent target = Ok there →
  here ∈ [leaf; tomb] → there ∈ [leaf; tomb] → here ≠ there →
  file_at here there w → (∀ w', file_at there here w' → R () w') → (∀ w', same w w' → J w') →
  wp strict (rename_noreplace parent source target) R J w.
Proof using uuid_inj not_drawn.
  intros Hs Ht Hh Hth Hne (Htidy & (i & He & Hr) & Hnone) HR HJ. unfold rename_noreplace. rewrite Hs, Ht.
  apply wp_bind, wp_lift, wp_bind, wp_lift.
  eapply wp_rename; [done|done| |done]. intros w' Hu Hs' Hsrc Htgt. apply HR. split_and!.
  - eapply tidy_step; [done|done|done|done|exact Hs'|by intros ? []|].
    intros x [->| ->]; by left.
  - exists i. split; [done|]. eapply regular_effect; [exact Hs'|by eapply tidy_directory|by intros []|done].
  - done.
Qed.

(** The end of a delete that is given up. *)
Lemma wp_restored code w (R : () → World → Prop) :
  strict = false → delete_left w →
  wp strict (_ ← attempt (sync parent : io IoError ()); fail code : change ()) R delete_left w.
Proof using.
  intros Hs H. apply (wp_attempt _ _ delete_left).
  - eapply (wp_honest _ _ true_error _ ()); [apply honest_observe|by unfold sync, fsync; rewrite saw_observe|..];
      intros w' E; [|by eapply delete_left_same].
    apply wp_fail; [done|]. by eapply delete_left_same.
  - intros w' _ H'. split; [done|]. intros e. by apply wp_fail.
Qed.

Lemma wp_bury p w :
  file_at leaf tomb w → state_matches sha256_hex (base p) bytes = true →
  wp strict (bury sha256_hex parent t p j) (λ _, file_at tomb leaf) delete_left w.
Proof using uuid_inj not_drawn Hb Hj Hdigest.
  intros H Hm. pose proof in_parent_tomb as Hpt. pose proof (in_parent_leaf f0 t names leaf d Hb) as Hpl.
  assert (Hleft : ∀ w', same w w' → delete_left w') by (intros w' Hs; left; by eapply file_at_same).
  unfold bury. pose proof H as (Ht & Hh & _).
  eapply wp_then; [honest_tac|by eapply saw_revalidate_any| |done].
  intros w1 E1. pose proof (file_at_same _ _ _ _ E1 H) as H1.
  destruct (saw_file w1 (absolute_path t) leaf tomb Hpl H1) as (current & Hby & _ & Hs).
  eapply wp_then; [honest_tac|exact Hs| |intros w' E; apply Hleft; by eapply same_trans].
  intros w2 E2. pose proof (same_trans _ _ _ E1 E2) as E. pose proof (file_at_same _ _ _ _ E2 H1) as H2. clear E1 E2 H1 Hs.
  unfold ensure_state_matches. rewrite Hby, Hm. apply wp_pure. pose proof H2 as (Ht2 & Hh2 & _).
  eapply wp_then; [honest_tac|by eapply saw_revalidate_any| |intros w' E'; apply Hleft; by eapply same_trans].
  intros w3 E3. pose proof (file_at_same _ _ _ _ E3 H2) as H3. pose proof (same_trans _ _ _ E E3) as E'. clear E E3 H2 Ht2 Hh2.
  pose proof (buries_other _ _ _ _ Hj) as Hne.
  apply wp_bind, wp_map_err. eapply (wp_move _ _ leaf tomb); [done|done|by left|right; by left|done|done| |].
  2:{ intros w' E''. apply Hleft. by eapply same_trans. }
  intros w4 H4. apply (wp_attempt _ _ (file_at tomb leaf)).
  - eapply wp_read; [apply honest_path_digest|by eapply saw_digest| |intros w' E''; by eapply file_at_same].
    intros w5 E5. pose proof (file_at_same _ _ _ _ E5 H4) as H5.
    apply (wp_sync _ t d); intros w6 E6; [|right]; by eapply file_at_same.
  - intros w5 Hstrict H5. split; [by right|]. intros e.
    apply (wp_attempt _ _ delete_left).
    + eapply (wp_move _ _ tomb leaf); [done|done|right; by left|by left|done|done| |intros w' E''; right; by eapply file_at_same].
      intros w6 H6. apply wp_restored; [done|by left].
    + intros w6 _ H6. split; [done|]. intros e'. by apply wp_restored.
Qed.

(** *** The commit *)

Lemma saw_open w c old : tidy_removed old w → holds (fs w) d leaf c → saw (open_parent t) (fs w) = Some (Ok parent).
Proof using Hb. intros Ht Hh. eapply saw_open_parent; [by eapply tidy_bound|done]. Qed.

Lemma saw_leaf_gone w : file_at tomb leaf w → saw (read_optional parent (absolute_path t)) (fs w) = Some (Ok None).
Proof using Hb. intros (Ht & _ & Hn). eapply saw_nothing; [by eapply in_parent_leaf|by eapply tidy_directory|done]. Qed.

(** What is found out of a delete. *)
Lemma saw_not_executed w p : 
  file_at leaf tomb w → operation p = Operation.Delete → state_matches sha256_hex (base p) bytes = true →
  saw (reconcile_bound sha256_hex parent p (Some j)) (fs w) = Some (Ok Reconciliation.DefinitelyNotExecuted).
Proof using Hb.
  intros H Hop Hm. destruct (saw_file w (absolute_path t) leaf tomb) as (current & Hby & Hs & _); [by eapply in_parent_leaf|done|].
  unfold reconcile_bound. cbn [bound_target]. eapply saw_then; [unfold read_optional; honest_tac|exact Hs|].
  cbv beta iota. by rewrite Hop, Hby, Hm.
Qed.

Lemma saw_buried w p :
  file_at tomb leaf w → operation p = Operation.Delete → validate_journal sha256_hex j = Ok () →
  journal_proposal_digest j = plan_proposal_digest p →
  journal_state j = JournalState.Prepared ∨ journal_state j = JournalState.Tombstoned →
  saw (reconcile_bound sha256_hex parent p (Some j)) (fs w) = Some (Ok Reconciliation.AlreadyApplied).
Proof using Hb Hj Hdigest.
  intros H Hop Hv Hp Hstate. unfold reconcile_bound. cbn [bound_target].
  eapply saw_then; [unfold read_optional; honest_tac|by apply saw_leaf_gone|].
  cbv beta iota. rewrite Hop. unfold reconcile_deleted. rewrite Hv.
  eapply saw_then; [apply honest_lift|done|]. unfold validate_delete_target. cbn [bound_target].
  rewrite (buries_target _ _ _ _ Hj), (proj2 (str_eqb_eq _ _) eq_refl). eapply saw_then; [apply honest_lift|done|].
  rewrite Hp, (proj2 (str_eqb_eq _ _) eq_refl). cbn [negb].
  destruct (saw_file w (tombstone j) tomb leaf in_parent_tomb H) as (current & Hby & Hs & _).
  destruct Hstate as [-> | ->]; (eapply saw_then; [unfold read_optional; honest_tac|exact Hs|]); cbn [is_some_and];
    by rewrite Hby, Hdigest.
Qed.

Definition tombstoned_at (now : N) : FileChangeDeleteJournal := set_journal_state JournalState.Tombstoned now j.

Lemma wp_commit_delete transaction_id committed_at p w :
  file_at leaf tomb w → operation p = Operation.Delete → state_matches sha256_hex (base p) bytes = true →
  validate_delete_journal sha256_hex transaction_id t p j = Ok () → journal_state j = JournalState.Prepared →
  wp strict (commit_delete sha256_hex transaction_id t p committed_at j)
    (λ c w', c = applied_commit transaction_id t p committed_at Status.Applied (Some (tombstoned_at committed_at))
       ∧ file_at tomb leaf w') delete_left w.
Proof using uuid_inj not_drawn Hb Hj Hdigest.
  intros H Hop Hm Hv Hstate. unfold commit_delete. rewrite Hv. apply wp_pure. pose proof H as (Ht & Hh & _).
  assert (Hleft : ∀ w', same w w' → delete_left w') by (intros w' Hs; left; by eapply file_at_same).
  eapply wp_then; [honest_tac|by eapply saw_open| |done]. intros w1 E1. cbv zeta. rewrite Hstate.
  pose proof (file_at_same _ _ _ _ E1 H) as H1.
  eapply wp_then; [apply honest_reconcile_bound|by apply saw_not_executed|..].
  2:{ intros w' E. apply Hleft. by eapply same_trans. }
  intros w2 E2. cbv beta iota. apply wp_bind. eapply wp_mono; [apply wp_bury; [by eapply file_at_same|done]| |done].
  intros [] w3 H3. by apply wp_ret.
Qed.

(** A delete that is done already only looks. *)
Lemma wp_commit_deleted transaction_id committed_at p w :
  file_at tomb leaf w → operation p = Operation.Delete →
  validate_delete_journal sha256_hex transaction_id t p j = Ok () → journal_state j = JournalState.Prepared →
  wp strict (commit_delete sha256_hex transaction_id t p committed_at j)
    (λ c w', c = applied_commit transaction_id t p committed_at Status.AlreadyApplied (Some (tombstoned_at committed_at))
       ∧ file_at tomb leaf w') delete_left w.
Proof using Hb Hj Hdigest.
  intros H Hop Hv Hstate. unfold commit_delete. rewrite Hv. apply wp_pure. pose proof H as (Ht & _ & Hh).
  assert (Hleft : ∀ w', same w w' → delete_left w') by (intros w' Hs; right; by eapply file_at_same).
  eapply wp_then; [honest_tac|by eapply saw_open| |done]. intros w1 E1. cbv zeta. rewrite Hstate.
  pose proof (file_at_same _ _ _ _ E1 H) as H1. unfold validate_delete_journal in Hv.
  apply bind_Ok in Hv as ([] & Hvj & Hv). apply ensured in Hv. rewrite !andb_true_iff, !str_eqb_eq in Hv.
  eapply wp_then; [apply honest_reconcile_bound|apply saw_buried; auto; apply Hv|..].
  2:{ intros w' E. apply Hleft. by eapply same_trans. }
  intros w2 E2. apply wp_ret. split; [done|]. by eapply file_at_same.
Qed.

(** *** The end of a delete *)

(** The file is gone from both names. *)
Definition gone (w : World) : Prop :=
  ∃ i, tidy_removed [i] w ∧ holds (fs w) d leaf None ∧ holds (fs w) d tomb None.

Lemma gone_same w w' : same w w' → gone w → gone w'.
Proof. intros Hs (i & Ht & H). pose proof Hs as [Hf _]. exists i. split; [by eapply tidy_same|]. by rewrite Hf. Qed.

(** Opening the parent of a valid journal's target. *)
Lemma wp_end_of_delete {A} (k : BoundParent → change A) (R : A → World → Prop) J w c old :
  validate_journal sha256_hex j = Ok () → tidy_removed old w → holds (fs w) d leaf c →
  (∀ w', same w w' → wp strict (k parent) R J w') → (∀ w', same w w' → J w') →
  wp strict (_ ← lift (validate_journal sha256_hex j); _ ← lift (validate_delete_target t j); parent ← open_parent t; k parent)
    R J w.
Proof using Hb Hj.
  intros Hv Ht Hh Hk HJ. rewrite Hv. apply wp_pure. unfold validate_delete_target.
  rewrite (buries_target _ _ _ _ Hj), (proj2 (str_eqb_eq _ _) eq_refl). apply wp_pure.
  eapply wp_then; [honest_tac|by eapply saw_open|done..].
Qed.

Lemma wp_remove_tomb w (R : () → World → Prop) (J : World → Prop) :
  file_at tomb leaf w → (∀ w', gone w' → R () w') → (∀ w', same w w' → J w') →
  wp strict (remove parent (tombstone j)) R J w.
Proof using uuid_inj not_drawn Hb Hj.
  intros (Ht & (i & He & Hr) & Hn) HR HJ. unfold remove. rewrite in_parent_tomb. apply wp_bind, wp_lift.
  eapply wp_unlink; [done|done| |done]. intros w' Hu Hs Hgone. apply HR. exists i. split_and!.
  - eapply tidy_step; [done|done|eapply tidy_more; [|exact Ht]; by intros ? []%elem_of_nil|done|exact Hs
      |intros ? <-; right; by left|].
    intros x <-. left. by right; left.
  - cbn. rewrite (effect_entries _ _ _ _ _ Hs); [done|]. apply (buries_other _ _ _ _ Hj).
  - done.
Qed.

Lemma wp_finalize_delete now w :
  file_at tomb leaf w → validate_journal sha256_hex j = Ok () → journal_state j = JournalState.Tombstoned →
  wp strict (finalize_delete sha256_hex t j now)
    (λ j' w', j' = set_journal_state JournalState.Finalized now j ∧ gone w') (λ w', file_at tomb leaf w' ∨ gone w') w.
Proof using uuid_inj not_drawn Hb Hj Hdigest.
  intros H Hv Hstate. unfold finalize_delete. rewrite Hstate. pose proof H as (Ht & _ & Hh).
  assert (Hleft : ∀ w', same w w' → file_at tomb leaf w' ∨ gone w') by (intros w' Hs; left; by eapply file_at_same).
  eapply wp_end_of_delete; [done..| |done]. intros w1 E1. pose proof (file_at_same _ _ _ _ E1 H) as H1.
  destruct (saw_file w1 (tombstone j) tomb leaf in_parent_tomb H1) as (current & _ & Hs & _).
  eapply wp_then; [unfold read_optional; honest_tac|exact Hs|..].
  2:{ intros w' E. apply Hleft. by eapply same_trans. }
  intros w2 E2. pose proof (same_trans _ _ _ E1 E2) as E. pose proof (file_at_same _ _ _ _ E2 H1) as H2. clear H1 E1 E2.
  cbv beta iota. eapply wp_then; [apply honest_path_digest|by eapply saw_digest; [apply in_parent_tomb|]|..].
  2:{ intros w' E'. apply Hleft. by eapply same_trans. }
  intros w3 E3. pose proof (same_trans _ _ _ E E3) as E'. pose proof (file_at_same _ _ _ _ E3 H2) as H3. clear H2 E E3.
  pose proof H3 as (Ht3 & _ & Hh3).
  eapply wp_then; [honest_tac|by eapply saw_revalidate_any|..].
  2:{ intros w' E. apply Hleft. by eapply same_trans. }
  intros w4 E4. pose proof (same_trans _ _ _ E' E4) as E. pose proof (file_at_same _ _ _ _ E4 H3) as H4.
  apply wp_bind, wp_map_err, wp_remove_tomb; [done| |intros w' E''; apply Hleft; by eapply same_trans].
  intros w5 H5. apply wp_bind, (wp_sync _ t d); intros w6 E6; [apply wp_ret; split; [done|]|right]; by eapply gone_same.
Qed.

Lemma wp_finalize_gone now w :
  gone w → validate_journal sha256_hex j = Ok () → journal_state j = JournalState.Tombstoned →
  wp strict (finalize_delete sha256_hex t j now)
    (λ j' w', j' = set_journal_state JournalState.Finalized now j ∧ gone w') gone w.
Proof using Hb Hj.
  intros H Hv Hstate. unfold finalize_delete. rewrite Hstate. pose proof H as (i & Ht & Hh & _).
  eapply wp_end_of_delete; [done..| |intros; by eapply gone_same]. intros w1 E1.
  pose proof (gone_same _ _ E1 H) as H1. pose proof H1 as (k & Ht1 & _ & Hh1).
  eapply wp_then; [unfold read_optional; honest_tac|eapply saw_nothing; [apply in_parent_tomb|by eapply tidy_directory|done]|..];
    [|intros; by eapply gone_same]. intros w2 E2. pose proof (gone_same _ _ E2 H1) as H2.
  apply wp_bind, (wp_sync _ t d); intros w6 E6; [apply wp_ret; split; [done|]|]; by eapply gone_same.
Qed.

Lemma wp_rollback_delete now w :
  file_at tomb leaf w → validate_journal sha256_hex j = Ok () → journal_state j = JournalState.Tombstoned →
  wp strict (rollback_delete sha256_hex t j now)
    (λ j' w', j' = set_journal_state JournalState.RolledBack now j ∧ file_at leaf tomb w') delete_left w.
Proof using uuid_inj not_drawn Hb Hj Hdigest.
  intros H Hv Hstate. unfold rollback_delete. rewrite Hstate. pose proof H as (Ht & _ & Hh).
  assert (Hleft : ∀ w', same w w' → delete_left w') by (intros w' Hs; right; by eapply file_at_same).
  eapply wp_end_of_delete; [done..| |done]. intros w1 E1. pose proof (file_at_same _ _ _ _ E1 H) as H1.
  eapply wp_then; [unfold read_optional; honest_tac|by apply saw_leaf_gone|..].
  2:{ intros w' E. apply Hleft. by eapply same_trans. }
  intros w2 E2. pose proof (same_trans _ _ _ E1 E2) as E. pose proof (file_at_same _ _ _ _ E2 H1) as H2. clear H1 E1 E2.
  cbv beta iota. eapply wp_then; [apply honest_path_digest|by eapply saw_digest; [apply in_parent_tomb|]|..].
  2:{ intros w' E'. apply Hleft. by eapply same_trans. }
  intros w3 E3. pose proof (same_trans _ _ _ E E3) as E'. pose proof (file_at_same _ _ _ _ E3 H2) as H3. clear H2 E E3.
  pose proof H3 as (Ht3 & _ & Hh3).
  eapply wp_then; [honest_tac|by eapply saw_revalidate_any|..].
  2:{ intros w' E. apply Hleft. by eapply same_trans. }
  intros w4 E4. pose proof (same_trans _ _ _ E' E4) as E. pose proof (file_at_same _ _ _ _ E4 H3) as H4.
  apply wp_bind, wp_map_err. pose proof (buries_other _ _ _ _ Hj) as Hne.
  eapply (wp_move _ _ tomb leaf); [apply in_parent_tomb|by eapply in_parent_leaf|right; by left|by left|done|done|..].
  2:{ intros w' E''. apply Hleft. by eapply same_trans. }
  intros w5 H5. apply wp_bind, (wp_sync _ t d); intros w6 E6; [apply wp_ret; split; [done|]|left]; by eapply file_at_same.
Qed.

(** A rollback that is done already only looks. *)
Lemma wp_rolled_back now w :
  file_at leaf tomb w → validate_journal sha256_hex j = Ok () → journal_state j = JournalState.Tombstoned →
  wp strict (rollback_delete sha256_hex t j now)
    (λ j' w', j' = set_journal_state JournalState.RolledBack now j ∧ file_at leaf tomb w') delete_left w.
Proof using Hb Hj Hdigest.
  intros H Hv Hstate. unfold rollback_delete. rewrite Hstate. pose proof H as (Ht & Hh & _).
  assert (Hleft : ∀ w', same w w' → delete_left w') by (intros w' Hs; left; by eapply file_at_same).
  eapply wp_end_of_delete; [done..| |done]. intros w1 E1. pose proof (file_at_same _ _ _ _ E1 H) as H1.
  destruct (saw_file w1 (absolute_path t) leaf tomb (in_parent_leaf _ _ _ _ _ Hb) H1) as (current & Hby & Hs & _).
  eapply wp_then; [unfold read_optional; honest_tac|exact Hs|..].
  2:{ intros w' E. apply Hleft. by eapply same_trans. }
  intros w2 E2. pose proof (same_trans _ _ _ E1 E2) as E. pose proof (file_at_same _ _ _ _ E2 H1) as H2. clear H1 E1 E2.
  cbv beta iota. rewrite Hby, Hdigest. pose proof H2 as (Ht2 & _ & Hh2).
  eapply wp_then; [unfold read_optional; honest_tac|eapply saw_nothing; [apply in_parent_tomb|by eapply tidy_directory|done]|..].
  - intros w3 E3. apply wp_ret. split; [done|]. by eapply file_at_same.
  - intros w' E'. apply Hleft. by eapply same_trans.
Qed.
End Delete.

(** * Committing again

    A commit may fail, or the process may die in it, any number of times.  As
    long as others leave the files alone, a world stays [ready]: the file is as
    it was before the change or as it is after it, and a commit that meets no
    fault completes the change. *)

(** Runs of a computation one after the other, each with its turns. *)
Fixpoint runs {E A} (m : io E A) (schedules : list (list Turn)) (w : World) : World :=
  match schedules with
  | [] => w
  | schedule :: schedules => runs m schedules (snd (m (mkWorld (fs w) schedule (uuids w) (history w))))
  end.

(** The world of a run that meets no other process and no fault. *)
Definition undisturbed (w : World) : World := mkWorld (fs w) [] (uuids w) (history w).

Lemma runs_wp {E A} (m : io E A) (I : World → Prop) schedules w :
  (∀ w w', same w w' → I w → I w') → (∀ w, I w → wp false m (λ _, I) I w) →
  Forall (Forall faulty_turn) schedules → I w → I (runs m schedules w).
Proof.
  intros Hsame Hm. revert w. induction schedules as [|schedule schedules IH]; intros w Hs HI; [done|].
  inversion Hs as [|? ? Hf Hs']; subst. cbn [runs]. apply IH; [done|]. clear IH.
  set (w1 := mkWorld (fs w) schedule (uuids w) (history w)).
  assert (I w1) as HI1 by (by apply (Hsame w)). pose proof (Hm w1 HI1 Hf) as H.
  destruct (m _) as [[[a|e]|] w']; naive_solver.
Qed.

Lemma wp_undisturbed {E A} (m : io E A) (R : A → World → Prop) J w :
  wp true m R J (undisturbed w) → ∃ a w', m (undisturbed w) = (Some (Ok a), w') ∧ R a w'.
Proof. intros H. specialize (H eq_refl). destruct (m _) as [[[a|e]|] w']; [|naive_solver..]. exists a, w'. naive_solver. Qed.

Section Retry.
Context {json : JsonServices} {diffs : TextDiffs} (sha256_hex : list N → rstr) (uuid : N → rstr).
Context (t : ResolvedFileChangeTarget) (names : list rstr) (leaf : rstr) (d : N).
Context (p : FileChangePlan) (mode : N) (journal : option FileChangeDeleteJournal).
Context (transaction_id : rstr) (committed_at : N).

(** The content and the mode of the file before and after the change; an update
    keeps the mode. *)
Definition old_file : option (list N * N) := (λ content, (as_bytes content, mode)) <$> plan_base_content p.
Definition new_file : option (list N * N) :=
  (λ content, (as_bytes content, if decide (operation p = Operation.Create) then created_mode else mode))
    <$> plan_target_content p.

(** The name of the tombstone of a delete. *)
Definition aside : option rstr :=
  (λ j, tombstone_name (delete_journal_id (journal_suffix sha256_hex j))) <$> journal.

(** The file is under its name, and a file to delete not under the tombstone's. *)
Definition before_change (f : FileSystem) : Prop :=
  holds f d leaf old_file ∧ ∀ name, aside = Some name → holds f d name None.

(** The new file is under the name, and a deleted file under the tombstone's. *)
Definition after_change (f : FileSystem) : Prop :=
  holds f d leaf new_file ∧ ∀ name, aside = Some name → holds f d name old_file.

Definition journal_of_change : Prop :=
  match operation p, journal with
  | Operation.Create, None | Operation.Update, None => True
  | Operation.Delete, Some j =>
      validate_delete_journal sha256_hex transaction_id t p j = Ok () ∧ journal_state j = JournalState.Prepared
  | _, _ => False
  end.

Record ready (w : World) : Prop := {
  ready_bound : bound (fs w) t names leaf d;
  ready_numbered : numbered (fs w);
  ready_unused : unused uuid d w;
  ready_place : before_change (fs w) ∨ after_change (fs w)
}.

Definition committed_as (status : FileChangeStatus) : FileChangeCommit :=
  applied_commit transaction_id t p committed_at status
    (set_journal_state JournalState.Tombstoned committed_at <$> journal).

Lemma ready_same w w' : same w w' → ready w → ready w'.
Proof. intros [Hf Hu] []. split; rewrite ?Hf; [done..| |done]. intros name Hn. rewrite Hf. rewrite Hu in Hn. auto. Qed.

Hypothesis uuid_inj : ∀ i k, uuid i = uuid k → i = k.
Hypothesis leaf_not_drawn : ∀ k, leaf ≠ stage_name (uuid k).
Hypothesis Hsha : is_sha256 sha256_hex.
Hypothesis Hvalid : validate_transaction_and_plan sha256_hex transaction_id t p = Ok ().
Hypothesis Hjournal : journal_of_change.

Lemma tidy_ready f n extra old w :
  bound f t names leaf d → tidy uuid d f n extra old w → before_change (fs w) ∨ after_change (fs w) → ready w.
Proof. intros Hb Ht Hp. split; [by eapply tidy_bound|by eapply tidy_numbered|by eapply tidy_unused|done]. Qed.

(** What a valid plan says of the contents. *)
Lemma plan_contents :
  validate_plan sha256_hex p = Ok () ∧ contents_fit (operation p) (plan_base_content p) (plan_target_content p)
  ∧ base p = from_option (state_for_content sha256_hex) Content.Missing (plan_base_content p)
  ∧ target p = from_option (state_for_content sha256_hex) Content.Missing (plan_target_content p).
Proof using Hvalid.
  unfold validate_transaction_and_plan in Hvalid. apply bind_Ok in Hvalid as ([] & Hp & _).
  pose proof Hp as [Heq (_ & Hfit & _)]%validate_plan_iff.
  pose proof (f_equal base Heq) as Hb. pose proof (f_equal target Heq) as Ht. split_and!; assumption.
Qed.

(** The bytes of a content have its state, and those of no other. *)
Lemma state_matches_content content content' :
  state_matches sha256_hex (state_for_content sha256_hex content) (as_bytes content') = true
  ↔ state_for_content sha256_hex content = state_for_content sha256_hex content'.
Proof.
  unfold state_for_content, state_matches. rewrite !andb_true_iff, !str_eqb_eq, N.eqb_eq, length_as_bytes.
  generalize (content_revision (as_bytes content)), (content_revision (as_bytes content')),
    (content_digest sha256_hex (as_bytes content)), (content_digest sha256_hex (as_bytes content')).
  intros r r' digest digest'. split; [by intros [[-> ->] ->]|by intros [= -> -> ->]].
Qed.

(** The contents are told apart by their lengths, revisions and digests. *)
Hypothesis Hdistinct : base p ≠ target p.

(** A commit that leaves a tidy world leaves a ready one. *)
Lemma wp_tidy strict f n extra old (m : change FileChangeCommit) status (R : FileChangeCommit → World → Prop) (J : World → Prop) w :
  bound f t names leaf d → wp strict m R J w →
  (∀ c w, R c w → c = committed_as status ∧ tidy uuid d f n extra old w ∧ after_change (fs w)) →
  (∀ w, J w → tidy uuid d f n extra old w ∧ (before_change (fs w) ∨ after_change (fs w))) →
  wp strict m (λ c w', c = committed_as status ∧ ready w' ∧ after_change (fs w')) ready w.
Proof using.
  intros Hb Hm HR HJ. eapply wp_mono; [exact Hm|..].
  - intros c w' H. apply HR in H as (-> & Ht & Ha). split_and!; [done| |done]. eapply tidy_ready; [done|exact Ht|by right].
  - intros w' _ H. apply HJ in H as [Ht Hp]. by eapply tidy_ready.
Qed.

Lemma wp_create_before strict content w :
  operation p = Operation.Create → journal = None → plan_base_content p = None → plan_target_content p = Some content →
  bound (fs w) t names leaf d → numbered (fs w) → unused uuid d w → holds (fs w) d leaf None →
  wp strict (commit_create sha256_hex uuid transaction_id t p committed_at)
    (λ c w', c = committed_as Status.Applied ∧ ready w' ∧ after_change (fs w')) ready w.
Proof using uuid_inj leaf_not_drawn.
  intros Hop Hj Hold Hnew Hb Hn Hu Hh.
  assert (∀ name, aside ≠ Some name) as Has by (unfold aside; by rewrite Hj).
  eapply wp_tidy; [exact Hb|by apply (wp_commit_create _ _ strict t names leaf d (fs w) (uuids w) p content)|..].
  - intros c w' (-> & Ht & H). split_and!; [by unfold committed_as; rewrite Hj|exact Ht|].
    unfold after_change, new_file. rewrite Hop, Hnew. split; [done|]. by intros name ?%Has.
  - intros w' [Ht H]. split; [exact Ht|].
    unfold before_change, after_change, old_file, new_file. rewrite Hop, Hold, Hnew.
    destruct H; [left|right]; (split; [done|by intros name ?%Has]).
Qed.

Lemma wp_update_before strict old new w :
  operation p = Operation.Update → journal = None → plan_base_content p = Some old → plan_target_content p = Some new →
  state_matches sha256_hex (base p) (as_bytes old) = true → state_matches sha256_hex (target p) (as_bytes new) = true →
  bound (fs w) t names leaf d → numbered (fs w) → unused uuid d w → holds (fs w) d leaf (Some (as_bytes old, mode)) →
  wp strict (commit_update sha256_hex uuid transaction_id t p committed_at)
    (λ c w', c = committed_as Status.Applied ∧ ready w' ∧ after_change (fs w')) ready w.
Proof using uuid_inj leaf_not_drawn.
  intros Hop Hj Hold Hnew Hm Hm' Hb Hn Hu (i & He & Hr).
  assert (∀ name, aside ≠ Some name) as Has by (unfold aside; by rewrite Hj).
  eapply wp_tidy; [exact Hb|by apply (wp_commit_update _ _ strict t names leaf d (fs w) (uuids w) i (as_bytes old) mode p new)|..].
  - intros c w' (-> & Ht & H). split_and!; [by unfold committed_as; rewrite Hj|exact Ht|].
    unfold after_change, new_file. rewrite Hop, Hnew. split; [done|]. by intros name ?%Has.
  - intros w' [Ht H]. split; [exact Ht|].
    unfold before_change, after_change, old_file, new_file. rewrite Hop, Hold, Hnew.
    destruct H; [left|right]; (split; [done|by intros name ?%Has]).
Qed.

(** *** Deletes *)

Section OfDelete.
Context (j : FileChangeDeleteJournal) (old : rstr) (f : FileSystem) (n : N).
Hypothesis Hop : operation p = Operation.Delete.
Hypothesis Hj : journal = Some j.
Hypothesis Hold : plan_base_content p = Some old.
Hypothesis Hb : bound f t names leaf d.
Local Abbreviation tomb := (tombstone_name (delete_journal_id (journal_suffix sha256_hex j))).
Local Abbreviation at_leaf := (file_at uuid leaf tomb d f n (as_bytes old) mode leaf tomb).
Local Abbreviation at_tomb := (file_at uuid leaf tomb d f n (as_bytes old) mode tomb leaf).

Lemma delete_journal_facts :
  validate_delete_journal sha256_hex transaction_id t p j = Ok () ∧ journal_state j = JournalState.Prepared
  ∧ buries t leaf tomb j ∧ state_digest_matches sha256_hex (base_digest j) (as_bytes old) = true
  ∧ state_matches sha256_hex (base p) (as_bytes old) = true ∧ plan_target_content p = None.
Proof using Hvalid Hjournal Hop Hj Hold Hb Hsha.
  destruct plan_contents as (_ & Hfit & Hbase & _). pose proof Hjournal as Hjo. unfold journal_of_change in Hjo.
  rewrite Hop, Hold in *. rewrite Hj in Hjo. destruct Hjo as [Hv Hs]. cbn [from_option] in Hbase.
  pose proof Hv as Hv'. unfold validate_delete_journal in Hv'.
  apply bind_Ok in Hv' as ([] & Hvj & He). apply ensured in He.
  rewrite !andb_true_iff, !str_eqb_eq, bool_decide_eq_true in He. destruct He as [[[_ Htp] _] Hd].
  split_and!; [done|done| | | |].
  - eapply journal_buries; [done|exact Hb|done|done].
  - rewrite Hbase in Hd. injection Hd as ->. unfold state_digest_matches. by apply str_eqb_eq.
  - rewrite Hbase. by apply state_matches_content.
  - by destruct (plan_target_content p).
Qed.

Lemma tomb_not_drawn name k : name ∈ [leaf; tomb] → name ≠ stage_name (uuid k).
Proof using leaf_not_drawn.
  intros [->|[->|[]%elem_of_nil]%elem_of_cons]%elem_of_cons; [apply leaf_not_drawn|].
  intros H. apply (f_equal (λ s : rstr, s !! 13)) in H. by vm_compute in H.
Qed.

Lemma file_at_before w : at_leaf w → before_change (fs w).
Proof using Hj Hold.
  intros (_ & Hh & Hn). unfold before_change, old_file, aside. rewrite Hj, Hold. split; [done|]. by intros name [= <-].
Qed.

Lemma file_at_after w : plan_target_content p = None → at_tomb w → after_change (fs w).
Proof using Hj Hold.
  intros Ht (_ & Hh & Hn). unfold after_change, old_file, new_file, aside. rewrite Hj, Hold, Ht.
  split; [done|]. by intros name [= <-].
Qed.

Lemma wp_delete_tidy strict (m : change FileChangeCommit) status w :
  plan_target_content p = None →
  wp strict m (λ c w', c = committed_as status ∧ at_tomb w')
    (delete_left uuid leaf tomb d f n (as_bytes old) mode) w →
  wp strict m (λ c w', c = committed_as status ∧ ready w' ∧ after_change (fs w')) ready w.
Proof using Hj Hold Hb.
  intros Ht Hm. eapply wp_tidy; [exact Hb|exact Hm|..].
  - intros c w' [-> H]. split_and!; [done|apply H|by apply file_at_after].
  - intros w' [H|H]; (split; [apply H|]); [left; by apply file_at_before|right; by apply file_at_after].
Qed.

Lemma file_at_start here there w :
  f = fs w → n = uuids w → numbered (fs w) → unused uuid d w →
  holds (fs w) d here (Some (as_bytes old, mode)) → holds (fs w) d there None →
  file_at uuid leaf tomb d f n (as_bytes old) mode here there w.
Proof using Hb.
  intros -> -> Hn Hu Hh Ht. split; [|done]. destruct (bound_directory _ _ _ _ _ Hb) as (_ & _ & Hd & _).
  split; [apply effect_refl|done..|lia|done].
Qed.
End OfDelete.

Lemma wp_delete strict j old w :
  operation p = Operation.Delete → journal = Some j → plan_base_content p = Some old →
  bound (fs w) t names leaf d → numbered (fs w) → unused uuid d w → before_change (fs w) ∨ after_change (fs w) →
  wp strict (commit_delete sha256_hex transaction_id t p committed_at j)
    (λ c w', ((before_change (fs w) ∧ c = committed_as Status.Applied)
              ∨ (after_change (fs w) ∧ c = committed_as Status.AlreadyApplied)) ∧ ready w' ∧ after_change (fs w')) ready w.
Proof using uuid_inj leaf_not_drawn Hsha Hvalid Hjournal.
  intros Hop Hj Hold Hb Hn Hu Hp.
  destruct (delete_journal_facts j old (fs w) Hop Hj Hold Hb) as (Hv & Hs & Hbu & Hd & Hm & Ht).
  unfold before_change, after_change, aside, old_file, new_file in Hp. rewrite Hj, Hold, Ht in Hp. cbn in Hp.
  destruct Hp as [[Hh Ha]|[Hh Ha]]; specialize (Ha _ eq_refl).
  - eapply wp_mono; [eapply wp_delete_tidy; [exact Hj|exact Hold|exact Hb|done|]|..].
    + eapply wp_mono; [apply (wp_commit_delete sha256_hex uuid strict t names leaf _ d (fs w) (uuids w) (as_bytes old) mode j
        uuid_inj (tomb_not_drawn j) Hb Hbu Hd transaction_id committed_at p w); [by apply file_at_start|done..]| |done].
      intros c w' [-> H]. unfold committed_as. by rewrite Hj.
    + intros c w' (-> & H). split; [left; split; [|done]|done]. unfold before_change, aside, old_file. rewrite Hj, Hold.
      split; [done|]. by intros name [= <-].
    + done.
  - eapply wp_mono; [eapply wp_delete_tidy; [exact Hj|exact Hold|exact Hb|done|]|..].
    + eapply wp_mono; [apply (wp_commit_deleted sha256_hex uuid strict t names leaf _ d (fs w) (uuids w) (as_bytes old) mode j
        Hb Hbu Hd transaction_id committed_at p w); [by apply file_at_start|done..]| |done].
      intros c w' [-> H]. unfold committed_as. by rewrite Hj.
    + intros c w' (-> & H). split; [right; split; [|done]|done]. unfold after_change, aside, old_file, new_file.
      rewrite Hj, Hold, Ht. split; [done|]. by intros name [= <-].
    + done.
Qed.

(** A change that is done already. *)
Lemma wp_again strict w :
  ready w → after_change (fs w) → operation p ≠ Operation.Delete → journal = None →
  wp strict (match operation p with
             | Operation.Create => commit_create sha256_hex uuid transaction_id t p committed_at
             | _ => commit_update sha256_hex uuid transaction_id t p committed_at
             end)
    (λ c w', c = committed_as Status.AlreadyApplied ∧ ready w' ∧ after_change (fs w')) ready w.
Proof using Hvalid Hdistinct.
  intros Hr Ha Hop Hj. destruct plan_contents as (_ & Hfit & Hbase & Htarget).
  destruct (plan_target_content p) as [new|] eqn:Hnew; [|by destruct (operation p), (plan_base_content p)].
  cbn [from_option] in Htarget. pose proof Ha as [Hh _]. unfold new_file in Hh. rewrite Hnew in Hh.
  eapply wp_mono; [eapply wp_commit_again; [apply Hr|exact Hh|done| |]|..].
  - intros Hu. rewrite Hu in Hfit. destruct (plan_base_content p) as [old|]; [|done]. cbn [from_option] in Hbase.
    apply not_true_is_false. rewrite Hbase, state_matches_content, <- Hbase, <- Htarget. done.
  - rewrite Htarget. by apply state_matches_content.
  - intros c w' [-> Hs]. pose proof Hs as [Hf _]. split_and!; [by unfold committed_as; rewrite Hj|by eapply ready_same|by rewrite Hf].
  - intros w' _ Hs. by eapply ready_same.
Qed.

(** One commit from a ready world. *)
Lemma wp_commit strict w :
  ready w →
  wp strict (commit sha256_hex uuid transaction_id t p committed_at journal)
    (λ c w', ((before_change (fs w) ∧ c = committed_as Status.Applied)
              ∨ (after_change (fs w) ∧ c = committed_as Status.AlreadyApplied)) ∧ ready w' ∧ after_change (fs w')) ready w.
Proof using uuid_inj leaf_not_drawn Hsha Hvalid Hjournal Hdistinct.
  intros Hr. pose proof Hr as [Hb Hn Hu Hp]. unfold commit. rewrite Hvalid. apply wp_pure.
  destruct plan_contents as (_ & Hfit & Hbase & Htarget). pose proof Hjournal as Hjo. unfold journal_of_change in Hjo.
  destruct (operation p) eqn:Hop, journal as [j|] eqn:Hj; try done;
    destruct (plan_base_content p) as [old|] eqn:Hold, (plan_target_content p) as [new|] eqn:Hnew; try done;
    cbn [from_option] in Hbase, Htarget.
  - destruct Hp as [Hp|Hp].
    + eapply wp_mono; [apply (wp_create_before strict new w); try done|naive_solver|done].
      destruct Hp as [Hh _]. unfold old_file in Hh. by rewrite Hold in Hh.
    + pose proof (wp_again strict w Hr Hp) as Ha. rewrite Hop in Ha.
      eapply wp_mono; [by apply Ha|naive_solver|done].
  - destruct Hp as [Hp|Hp].
    + eapply wp_mono; [apply (wp_update_before strict old new w); try done|naive_solver|done].
      * rewrite Hbase. by apply state_matches_content.
      * rewrite Htarget. by apply state_matches_content.
      * destruct Hp as [Hh _]. unfold old_file in Hh. by rewrite Hold in Hh.
    + pose proof (wp_again strict w Hr Hp) as Ha. rewrite Hop in Ha.
      eapply wp_mono; [by apply Ha|naive_solver|done].
  - by apply (wp_delete strict j old).
Qed.
(** *** The end of a delete *)

Section EndOfDelete.
Context (j : FileChangeDeleteJournal) (old : rstr) (now : N).
Hypothesis Hop : operation p = Operation.Delete.
Hypothesis Hj : journal = Some j.
Hypothesis Hold : plan_base_content p = Some old.
Hypothesis Hclock : (journal_created_at j ≤ committed_at)%N.
Local Abbreviation tomb := (tombstone_name (delete_journal_id (journal_suffix sha256_hex j))).
Local Abbreviation tombstoned := (set_journal_state JournalState.Tombstoned committed_at j).

Lemma tombstoned_facts f :
  bound f t names leaf d →
  validate_journal sha256_hex tombstoned = Ok () ∧ buries t leaf tomb tombstoned
  ∧ state_digest_matches sha256_hex (base_digest tombstoned) (as_bytes old) = true ∧ plan_target_content p = None.
Proof using Hvalid Hjournal Hop Hj Hold Hsha Hclock.
  intros Hb. destruct (delete_journal_facts j old f Hop Hj Hold Hb) as (Hv & _ & [] & Hd & _ & Ht).
  split_and!; [|by split|done|done]. unfold validate_delete_journal in Hv. apply bind_Ok in Hv as ([] & Hv & _).
  unfold validate_journal in *. cbv zeta in *. apply bind_Ok in Hv as ([] & He & Hv). apply ensured in He.
  apply bind_Ok. exists (). split; [|exact Hv]. apply ensured. rewrite !andb_true_iff in He |- *.
  destruct He as [He _]. split; [exact He|]. by apply N.leb_le.
Qed.

(** The file is gone from its name, and perhaps from the tombstone's. *)
Record deleted (w : World) : Prop := {
  deleted_bound : bound (fs w) t names leaf d;
  deleted_numbered : numbered (fs w);
  deleted_unused : unused uuid d w;
  deleted_leaf : holds (fs w) d leaf None;
  deleted_tomb : holds (fs w) d tomb (Some (as_bytes old, mode)) ∨ holds (fs w) d tomb None
}.

Lemma deleted_same w w' : same w w' → deleted w → deleted w'.
Proof. intros [Hf Hu] []. split; rewrite ?Hf; [done..| |done|done]. intros name Hn. rewrite Hf. rewrite Hu in Hn. auto. Qed.

Lemma ready_deleted w : ready w → after_change (fs w) → deleted w.
Proof using Hvalid Hjournal Hop Hj Hold Hsha.
  intros [Hb Hn Hu _] [Hh Ha]. destruct (delete_journal_facts j old (fs w) Hop Hj Hold Hb) as (_ & _ & _ & _ & _ & Ht).
  unfold new_file in Hh. rewrite Ht in Hh. unfold aside, old_file in Ha. rewrite Hj, Hold in Ha.
  split; [done..|]. left. by apply Ha.
Qed.

Lemma gone_deleted f n w :
  bound f t names leaf d → gone uuid leaf tomb d f n w → deleted w ∧ holds (fs w) d tomb None.
Proof using.
  intros Hb (i & Ht & Hh & Hn). split; [|done].
  split; [by eapply tidy_bound|by eapply tidy_numbered|by eapply tidy_unused|done|by right].
Qed.

Lemma wp_finalize strict w :
  deleted w →
  wp strict (finalize_delete sha256_hex t tombstoned now)
    (λ j' w', j' = set_journal_state JournalState.Finalized now tombstoned ∧ deleted w' ∧ holds (fs w') d tomb None)
    deleted w.
Proof using uuid_inj leaf_not_drawn Hvalid Hjournal Hop Hj Hold Hsha Hclock.
  intros [Hb Hn Hu Hl Htomb]. destruct (tombstoned_facts (fs w) Hb) as (Hv & Hbu & Hd & Ht).
  destruct Htomb as [Htomb|Htomb].
  - eapply wp_mono; [apply (wp_finalize_delete sha256_hex uuid strict t names leaf tomb d (fs w) (uuids w) (as_bytes old) mode
      tombstoned uuid_inj (tomb_not_drawn j) Hb Hbu Hd now w); [by apply file_at_start|done..]|..].
    + intros j' w' [-> H]. split; [done|]. by eapply gone_deleted.
    + intros w' _ [(H & Hh & Hnn)|H]; [|by eapply gone_deleted].
      split; [by eapply tidy_bound|by eapply tidy_numbered|by eapply tidy_unused|done|by left].
  - assert (gone uuid leaf tomb d (fs w) (uuids w) w) as Hg.
    { exists 0%N. split; [|done]. destruct (bound_directory _ _ _ _ _ Hb) as (_ & _ & Hdir & _).
      split; [apply effect_refl|done..|lia|done]. }
    eapply wp_mono; [by apply (wp_finalize_gone sha256_hex uuid strict t names leaf tomb d (fs w) (uuids w)
      tombstoned Hb Hbu now w)|..].
    + intros j' w' [-> H]. split; [done|]. by eapply gone_deleted.
    + intros w' _ H. by eapply gone_deleted.
Qed.

Lemma left_ready f n w :
  bound f t names leaf d → plan_target_content p = None →
  delete_left uuid leaf tomb d f n (as_bytes old) mode w → ready w.
Proof using Hj Hold.
  intros Hb Ht [H|H]; (eapply tidy_ready; [done|apply H|]); [left; by eapply file_at_before|right; by eapply file_at_after].
Qed.

Lemma wp_rollback strict w :
  ready w →
  wp strict (rollback_delete sha256_hex t tombstoned now)
    (λ j' w', j' = set_journal_state JournalState.RolledBack now tombstoned ∧ ready w' ∧ before_change (fs w'))
    ready w.
Proof using uuid_inj leaf_not_drawn Hvalid Hjournal Hop Hj Hold Hsha Hclock.
  intros [Hb Hn Hu Hp]. destruct (tombstoned_facts (fs w) Hb) as (Hv & Hbu & Hd & Ht).
  assert (∀ w', file_at uuid leaf tomb d (fs w) (uuids w) (as_bytes old) mode leaf tomb w' →
    ready w' ∧ before_change (fs w')) as Hback.
  { intros w' H. split; [eapply left_ready; [exact Hb|done|by left]|by eapply file_at_before]. }
  unfold before_change, after_change, aside, old_file, new_file in Hp. rewrite Hj, Hold, Ht in Hp. cbn in Hp.
  destruct Hp as [[Hh Ha]|[Hh Ha]]; specialize (Ha _ eq_refl).
  - eapply wp_mono; [apply (wp_rolled_back sha256_hex uuid strict t names leaf tomb d (fs w) (uuids w) (as_bytes old) mode
      tombstoned Hb Hbu Hd now w); [by apply file_at_start|done..]|..].
    + intros j' w' [-> H]. split; [done|]. by apply Hback.
    + intros w' _ H. by eapply left_ready.
  - eapply wp_mono; [apply (wp_rollback_delete sha256_hex uuid strict t names leaf tomb d (fs w) (uuids w) (as_bytes old) mode
      tombstoned uuid_inj (tomb_not_drawn j) Hb Hbu Hd now w); [by apply file_at_start|done..]|..].
    + intros j' w' [-> H]. split; [done|]. by apply Hback.
    + intros w' _ H. by eapply left_ready.
Qed.
End EndOfDelete.
End Retry.

(** A change that the committer may be asked for: names that are drawn do not
    repeat and are not the target's, the digest is a SHA-256, and the plan is
    valid and tells its contents apart. *)
Record sound_change {json : JsonServices} {diffs : TextDiffs} (sha256_hex : list N → rstr) (uuid : N → rstr)
    (t : ResolvedFileChangeTarget) (leaf : rstr) (p : FileChangePlan) (journal : option FileChangeDeleteJournal)
    (transaction_id : rstr) : Prop := {
  sound_uuid : ∀ i k, uuid i = uuid k → i = k;
  sound_leaf : ∀ k, leaf ≠ stage_name (uuid k);
  sound_sha256 : is_sha256 sha256_hex;
  sound_plan : validate_transaction_and_plan sha256_hex transaction_id t p = Ok ();
  sound_journal : journal_of_change sha256_hex t p journal transaction_id;
  sound_states : base p ≠ target p
}.

Section Sound.
Context {json : JsonServices} {diffs : TextDiffs} (sha256_hex : list N → rstr) (uuid : N → rstr).
Context (t : ResolvedFileChangeTarget) (names : list rstr) (leaf : rstr) (d : N).
Context (p : FileChangePlan) (mode : N) (journal : option FileChangeDeleteJournal) (transaction_id : rstr).
Local Abbreviation sound := (sound_change sha256_hex uuid t leaf p journal transaction_id).
Local Abbreviation is_ready := (ready sha256_hex uuid t names leaf d p mode journal).
Local Abbreviation before := (before_change sha256_hex leaf d p mode journal).
Local Abbreviation after := (after_change sha256_hex leaf d p mode journal).
Local Abbreviation rerun w schedule := (mkWorld (fs w) schedule (uuids w) (history w)).

Lemma ready_rerun w schedule : is_ready w → is_ready (rerun w schedule).
Proof. by apply ready_same. Qed.

Lemma wp_sound_commit strict at_ w :
  sound → is_ready w →
  wp strict (commit sha256_hex uuid transaction_id t p at_ journal)
    (λ c w', ((before (fs w) ∧ c = committed_as t p journal transaction_id at_ Status.Applied)
              ∨ (after (fs w) ∧ c = committed_as t p journal transaction_id at_ Status.AlreadyApplied))
       ∧ is_ready w' ∧ after (fs w')) is_ready w.
Proof. intros [] Hr. by apply wp_commit. Qed.

Context (j : FileChangeDeleteJournal) (old : rstr) (at_ now : N).
Hypothesis Hop : operation p = Operation.Delete.
Hypothesis Hj : journal = Some j.
Hypothesis Hold : plan_base_content p = Some old.
Hypothesis Hclock : (journal_created_at j ≤ at_)%N.
Local Abbreviation tombstoned := (set_journal_state JournalState.Tombstoned at_ j).
Local Abbreviation is_deleted := (deleted sha256_hex uuid t names leaf d mode j old).

Lemma wp_sound_finalize strict w :
  sound → is_deleted w →
  wp strict (finalize_delete sha256_hex t tombstoned now)
    (λ j' w', j' = set_journal_state JournalState.Finalized now tombstoned ∧ is_deleted w'
       ∧ holds (fs w') d (tombstone_name (delete_journal_id (journal_suffix sha256_hex j))) None) is_deleted w.
Proof using Hop Hj Hold Hclock. intros [] Hd. by eapply wp_finalize. Qed.

Lemma wp_sound_rollback strict w :
  sound → is_ready w →
  wp strict (rollback_delete sha256_hex t tombstoned now)
    (λ j' w', j' = set_journal_state JournalState.RolledBack now tombstoned ∧ is_ready w' ∧ before (fs w')) is_ready w.
Proof using Hop Hj Hold Hclock. intros [] Hr. by eapply wp_rollback. Qed.

Lemma deleted_rerun w schedule : is_deleted w → is_deleted (rerun w schedule).
Proof using. by apply deleted_same. Qed.

Lemma sound_deleted w : sound → is_ready w → after (fs w) → is_deleted w.
Proof using Hop Hj Hold. intros [] Hr Ha. by eapply ready_deleted. Qed.
End Sound.
