(* ===== verification/FileChangeClaims.v ===== *)
(** * Properties of file changes

    What a plan is, what a commit does to the files when calls fail, when the
    process dies and when others interfere, and how a commit is recorded. *)

From stdpp Require Import gmap relations.
From S2P Require Import TraceItems Prelude RustText RustPath Posix Json HumanInteraction.
From S2P Require Import FileChangeError FileChangeDigest FileChangeModel FileChangeBinding.
From S2P Require Import FileChangePlanner FileChangePlannerFacts FileChangeRecordFacts BoundIo.
From S2P Require Import BoundIoFacts BoundIoEffects FileChangeCommitter FileChangeCommitFacts.
From S2P Require Import FileChangeRetry.

(** ** Commits *)

Section Commits.
Context {json : JsonServices} {diffs : TextDiffs} (sha256_hex : list N → rstr) (uuid : N → rstr).
Context (t : ResolvedFileChangeTarget) (names : list rstr) (leaf : rstr) (d : N).
Context (p : FileChangePlan) (mode : N) (journal : option FileChangeDeleteJournal).
Context (transaction_id : rstr) (at_ : N).
Local Abbreviation run := (commit sha256_hex uuid transaction_id t p at_ journal).
Local Abbreviation before := (before_change sha256_hex leaf d p mode journal).
Local Abbreviation after := (after_change sha256_hex leaf d p mode journal).
Local Abbreviation commit_as := (committed_as t p journal transaction_id at_).
Local Abbreviation sound := (sound_change sha256_hex uuid t leaf p journal transaction_id).
Local Abbreviation is_ready := (ready sha256_hex uuid t names leaf d p mode journal).

(** C2. A change survives faults: however often a commit was tried, with calls
    that failed and the process that died anywhere, as long as others left the
    files alone, the target has its old or its new content whole, with its mode,
    and a file that is deleted is under its own name or the tombstone's.  A
    commit that then meets no fault succeeds and completes the change, and tells
    whether it was done already; and one that says [Ok] among faults has
    completed it. *)
Theorem commit_survives_faults w schedules :
  sound → is_ready w → Forall (Forall faulty_turn) schedules →
  let w1 := runs run schedules w in
  (before (fs w1) ∨ after (fs w1))
  ∧ (∃ status w2, run (undisturbed w1) = (Some (Ok (commit_as status)), w2) ∧ after (fs w2)
       ∧ (before (fs w1) ∧ status = Status.Applied ∨ after (fs w1) ∧ status = Status.AlreadyApplied))
  ∧ ∀ schedule c w2, Forall faulty_turn schedule →
      run (mkWorld (fs w1) schedule (uuids w1) (history w1)) = (Some (Ok c), w2) → after (fs w2).
Proof.
  intros Hsound Hr Hs w1.
  assert (is_ready w1) as Hr1.
  { apply runs_wp; [apply ready_same| |done|done]. intros w' Hr'.
    eapply wp_mono; [by apply wp_sound_commit| |done]. naive_solver. }
  split_and!; [by eapply ready_place| |].
  - destruct (wp_undisturbed run _ _ w1 (wp_sound_commit _ _ _ _ _ _ _ _ _ _ true at_ _ Hsound (ready_rerun _ _ _ _ _ _ _ _ _ _ [] Hr1)))
      as (c & w2 & Hc & Hcase & _ & Ha).
    destruct Hcase as [[Hb ->]|[Hb ->]]; eexists _, w2; (split; [exact Hc|]); auto.
  - intros schedule c w2 Hf Hc.
    pose proof (wp_sound_commit _ _ _ _ _ _ _ _ _ _ false at_ _ Hsound (ready_rerun _ _ _ _ _ _ _ _ _ _ schedule Hr1) Hf) as H.
    rewrite Hc in H. naive_solver.
Qed.

(** C4. A committed delete is ended either way: the file waits under the
    tombstone's name, and however often its removal failed, it is there whole or
    gone, and the removal that meets no fault succeeds, also when there is
    nothing left to remove; however often the rollback failed, the file is whole
    under one of the names, and the rollback that meets no fault puts it back as
    it was. *)
Theorem delete_ends_either_way j old now w schedules :
  sound → is_ready w → after (fs w) → Forall (Forall faulty_turn) schedules →
  operation p = Operation.Delete → journal = Some j → plan_base_content p = Some old →
  (journal_created_at j ≤ at_)%N →
  let tomb := tombstone_name (delete_journal_id (journal_suffix sha256_hex j)) in
  let tombstoned := set_journal_state JournalState.Tombstoned at_ j in
  let finalize := finalize_delete sha256_hex t tombstoned now in
  let rollback := rollback_delete sha256_hex t tombstoned now in
  (let w1 := runs finalize schedules w in
   holds (fs w1) d leaf None
   ∧ (holds (fs w1) d tomb (Some (as_bytes old, mode)) ∨ holds (fs w1) d tomb None)
   ∧ ∃ w2, finalize (undisturbed w1) = (Some (Ok (set_journal_state JournalState.Finalized now tombstoned)), w2)
       ∧ holds (fs w2) d leaf None ∧ holds (fs w2) d tomb None)
  ∧ (let w1 := runs rollback schedules w in
     (before (fs w1) ∨ after (fs w1))
     ∧ ∃ w2, rollback (undisturbed w1) = (Some (Ok (set_journal_state JournalState.RolledBack now tombstoned)), w2)
         ∧ before (fs w2)).
Proof.
  intros Hsound Hr Ha Hs Hop Hj Hold Hclock tomb tombstoned finalize rollback.
  pose proof (sound_deleted _ _ _ _ _ _ _ _ _ _ j old Hop Hj Hold w Hsound Hr Ha) as Hd. split; intros w1.
  - assert (deleted sha256_hex uuid t names leaf d mode j old w1) as Hd1.
    { apply runs_wp; [apply deleted_same| |done|done]. intros w' Hd'.
      eapply wp_mono; [by eapply wp_sound_finalize| |done]. naive_solver. }
    split; [by eapply deleted_leaf|]. split; [by eapply deleted_tomb|].
    destruct (wp_undisturbed finalize _ _ w1 (wp_sound_finalize _ _ _ _ _ _ _ _ _ _ j old at_ now Hop Hj Hold Hclock true
      _ Hsound (deleted_rerun _ _ _ _ _ _ _ _ _ _ [] Hd1))) as (j' & w2 & Hf & -> & Hd2 & Ht2).
    exists w2. split; [exact Hf|]. split; [by eapply deleted_leaf|done].
  - assert (is_ready w1) as Hr1.
    { apply runs_wp; [apply ready_same| |done|done]. intros w' Hr'.
      eapply wp_mono; [by eapply wp_sound_rollback| |done]. naive_solver. }
    split; [by eapply ready_place|].
    destruct (wp_undisturbed rollback _ _ w1 (wp_sound_rollback _ _ _ _ _ _ _ _ _ _ j old at_ now Hop Hj Hold Hclock true
      _ Hsound (ready_rerun _ _ _ _ _ _ _ _ _ _ [] Hr1))) as (j' & w2 & Hf & -> & _ & Hb).
    by exists w2.
Qed.

(** C3. A commit touches only what is its own: whatever other processes do in
    between and whichever calls fail, at first or when it is reconciled, it
    writes only into files that it created, under names it drew; it unlinks only
    names it created a file under; and it changes the name of the target only by
    moving a file there or to the tombstone, replacing none, or by exchanging it
    with a file of its own.  So no file of another is written or overwritten. *)
Theorem commit_touches_only_its_own f schedule n :
  let ok := all_ok (footprint uuid t journal) in
  ok (history (snd (run (mkWorld f schedule n []))))
  ∧ ok (history (snd (commit_fresh sha256_hex uuid transaction_id t p at_ journal (mkWorld f schedule n [])))).
Proof.
  assert (Hnil : all_ok (footprint uuid t journal) []) by (by intros e ?%elem_of_nil).
  split; [apply (foot_commit uuid t journal sha256_hex transaction_id p at_ [])
         |apply (foot_commit_fresh uuid t journal sha256_hex transaction_id p at_ [])]; done.
Qed.
End Commits.

(** ** Records *)

Section Records.
Context {json : JsonServices} {diffs : TextDiffs} (sha256_hex : list N → rstr) (uuid : N → rstr).

(** C13. What was committed can be recorded: when the commit of the plan of a
    prepared binding says [Ok], in whatever world it ran, the binding accepts
    it unless the clock stands before the creation of the transaction or of its
    journal; and the binding that it becomes is one that storage accepts as the
    successor, with the receipt of the commit. *)
Theorem commit_is_recorded now b p t at_ w c w' :
  is_prepared sha256_hex now b = true → from_binding sha256_hex now b = Ok p →
  (commit sha256_hex uuid (txn_id (transaction b)) t p at_ (delete_journal b) w = (Some (Ok c), w')
   ∨ commit_fresh sha256_hex uuid (txn_id (transaction b)) t p at_ (delete_journal b) w = (Some (Ok c), w')) →
  is_ok (with_commit sha256_hex now b c) = clock_ok b at_
  ∧ ∀ b', with_commit sha256_hex now b c = Ok b' →
      is_commit_successor_of sha256_hex now b' b = true ∧ receipt b' = Some (commit_receipt c).
Proof.
  intros Hb (_ & _ & Hop & Hpath & Hbase & Htarget & _ & _ & _ & Hpd & _)%from_binding_iff Hc.
  pose proof Hb as [Hvalid Hprep]%is_prepared_iff.
  assert (txn_proposal_digest (transaction b) = proposal_proposal_digest (proposal b)) as Hdigest.
  { apply validate_ensure_iff in Hvalid as [Hparts _]. unfold parts_agree in Hparts.
    rewrite !andb_true_iff, !str_eqb_eq in Hparts. tauto. }
  assert (∀ j, delete_journal b = Some j → journal_state j = JournalState.Prepared) as Hj.
  { intros j Hj. unfold prepared in Hprep. rewrite Hj, !andb_true_iff in Hprep. destruct Hprep as [_ H].
    by apply bool_decide_eq_true in H. }
  assert (validate_transaction_and_plan sha256_hex (txn_id (transaction b)) t p = Ok ()) as Hv.
  { destruct Hc as [H|H]; [unfold commit in H|unfold commit_fresh in H]; revert H; unfold mbind at 1, io_bind, lift;
      by destruct (validate_transaction_and_plan _ _ _ _) as [[]|]. }
  unfold validate_transaction_and_plan in Hv. apply bind_Ok in Hv as ([] & _ & Hv). apply bind_Ok in Hv as ([] & Hd & _).
  apply ensured, andb_true_iff in Hd as [_ Hd]. apply str_eqb_eq in Hd.
  assert (committed_by (txn_id (transaction b)) t p at_ (delete_journal b) c) as (status & Hs & ->).
  { destruct Hc as [H|H]; [by eapply commit_gives|by eapply commit_fresh_gives]. }
  unfold applied_commit. split.
  - apply (with_commit_ok _ _ _ _ status Hb Hs). unfold receipt_of. by rewrite Hop, Hpath, Hbase, Htarget, <- Hd, Hdigest, Hpd.
  - intros b' H. apply with_commit_iff in H as [H (r & Hr & Heq)]. split; [done|]. by rewrite Heq.
Qed.

(** A binding is settled once: storage accepts at most two successors in a
    row, the commit and, only for a delete, its end; every accepted one is
    valid and further on, nothing that was frozen ever changes, and a receipt is
    never lost or replaced.  What it accepts is what the operations of the
    binding give: the commit of a prepared binding with a matching receipt, and
    the end of a committed delete. *)
Theorem binding_settles_once now b b' n :
  nsteps (accepted sha256_hex now) n b b' →
  n ≤ 2 ∧ (n = 2 → txn_operation (transaction b) = Operation.Delete)
  ∧ frozen b' = frozen b ∧ (∀ r, receipt b = Some r → receipt b' = Some r)
  ∧ (n ≠ 0 → validate_binding sha256_hex now b' = Ok () ∧ is_Some (receipt b')).
Proof.
  intros Hn. pose proof (accepted_chain _ _ _ _ _ Hn) as (Hp & Hf & Hr).
  assert (n ≤ 2) as Hle.
  { destruct n as [|n]; [lia|]. apply nsteps_inv_r in Hn as (x & _ & Hs). apply accepted_phase in Hs as ([_ ?] & _). lia. }
  split_and!; [done| |done|done|].
  - intros ->. inversion Hn as [|? ? y ? H1 H2]; subst. apply nsteps_once_inv in H2.
    apply accepted_phase in H1 as ([Hlt _] & Hf1 & _). apply accepted_phase in H2 as (_ & _ & _ & Hop & _).
    apply (f_equal (λ x, txn_operation (transaction x))) in Hf1. cbn in Hf1. rewrite <- Hf1. apply Hop. lia.
  - intros Hne. destruct n as [|n]; [done|]. apply nsteps_inv_r in Hn as (x & _ & Hs).
    apply accepted_phase in Hs as (_ & _ & _ & _ & Hrc & Hv). done.
Qed.
End Records.

(** ** Plans *)

Section Plans.
Context {json : JsonServices} {diffs : TextDiffs} (sha256_hex : list N → rstr).

(** C14. Edits are applied exactly: a list of edits gives the one text that
    follows from the base by each edit in turn, as it is described by where its
    anchor occurs, or it is refused for the first edit that does not fit, with
    the reason: an empty anchor, one that does not occur, or one that occurs
    twice without overlapping where one was asked for. *)
Theorem edits_apply_exactly s edits :
  match apply_edits s edits with
  | Ok t => ∀ t', edited_all edits s t' ↔ t' = t
  | Err code => ∃ before edit after u, edits = before ++ edit :: after ∧ edited_all before s u ∧ refused edit u code
  end.
Proof.
  destruct (apply_edits s edits) as [t|code] eqn:E; [|by apply apply_edits_refused].
  intros t'. rewrite <- apply_edits_iff, E. naive_solver.
Qed.

(** C15. A request is planned exactly when it fits: the observed base belongs to
    its operation and has the revision that was read, the mutation gives the
    target, an update changes something, neither text has a null character and
    the target is not too large.  The plan is then the one of the path and the
    two contents: their states, the diff, its counts and the digests. *)
Theorem plan_accepts_exactly request p :
  let op := request_operation request in
  let path := trim (request_file_path request) in
  plan sha256_hex request = Ok p
  ↔ ∃ old new, asked_base op (request_base request) old ∧ asked_target op (request_mutation request) old new
    ∧ plannable path op old new ∧ p = plan_of sha256_hex path op old new.
Proof. apply plan_iff. Qed.

(** C16. A frozen plan is rebuilt: from a valid binding that carries the parts of
    a plan that was made, exactly this plan is read again, its diff computed from
    the frozen contents; and with a diff presented along with it, exactly when it
    is this diff. *)
Theorem frozen_plan_is_rebuilt now request p b :
  plan sha256_hex request = Ok p → validate_binding sha256_hex now b = Ok () → carries b p →
  from_binding sha256_hex now b = Ok p
  ∧ ∀ text, from_direct_binding sha256_hex now b text
      = if decide (diff p = text) then Ok p else Err FileChange.InvalidArguments.
Proof.
  intros Hp Hv Hc.
  assert (from_binding sha256_hex now b = Ok p) as Hb.
  { apply from_binding_iff. split_and!; [done| |done].
    apply plan_iff in Hp as (old & new & _ & _ & Hpl & ->). apply validate_plan_iff. by destruct Hpl. }
  split; [done|]. intros text. unfold from_direct_binding. rewrite Hb. cbn [mbind result_bind]. rewrite ensure_bind.
  destruct (str_eqb (diff p) text) eqn:E.
  - apply str_eqb_eq in E. by rewrite decide_True.
  - rewrite decide_False; [done|]. intros H%str_eqb_eq. congruence.
Qed.
End Plans.

(** ** The answer of a fresh commit *)

Section Fresh.
Context {json : JsonServices} {diffs : TextDiffs} (sha256_hex : list N → rstr) (uuid : N → rstr).
Context (t : ResolvedFileChangeTarget) (names : list rstr) (leaf : rstr) (d : N) (p : FileChangePlan).
Context (transaction_id : rstr) (at_ : N).

(** What the content of the target alone says of a create or an update. *)
Definition looks_like (content : option (list N * N)) : FileChangeReconciliation :=
  match operation p, fst <$> content with
  | Operation.Create, None => Reconciliation.DefinitelyNotExecuted
  | Operation.Update, Some bytes =>
      if state_matches sha256_hex (base p) bytes then Reconciliation.DefinitelyNotExecuted
      else if state_matches sha256_hex (target p) bytes then Reconciliation.AlreadyApplied
      else Reconciliation.OutcomeUnknown
  | Operation.Create, Some bytes =>
      if state_matches sha256_hex (target p) bytes then Reconciliation.AlreadyApplied
      else Reconciliation.OutcomeUnknown
  | _, _ => Reconciliation.OutcomeUnknown
  end.

Lemma saw_reconcile f content :
  operation p ≠ Operation.Delete → bound f t names leaf d → holds f d leaf content →
  saw (reconcile sha256_hex t p None) f = Some (Ok (looks_like content)).
Proof.
  intros Hop Hb Hh. unfold reconcile.
  eapply saw_then; [honest_tac|by eapply saw_open_parent|].
  destruct (bound_directory _ _ _ _ _ Hb) as (_ & _ & Hd & _).
  pose proof (saw_read_in f d (mkParent t d) (absolute_path t) leaf content) as Hs.
  specialize (Hs ltac:(by eapply in_parent_leaf) eq_refl Hd Hh).
  unfold reconcile_bound, looks_like. cbn [bound_target].
  destruct content as [[bytes mode]|].
  - destruct Hs as (i & current & _ & (? & ? & _ & ->) & Hs).
    eapply saw_then; [unfold read_optional; honest_tac|exact Hs|]. cbn [file_bytes fmap option_fmap option_map fst].
    by destruct (operation p).
  - eapply saw_then; [unfold read_optional; honest_tac|exact Hs|]. by destruct (operation p).
Qed.

Lemma reads_undisturbed {A} (m : change A) a w :
  honest any_code m → saw m (fs w) = Some (Ok a) → turns w = [] →
  ∃ w', m w = (Some (Ok a), w') ∧ same w w' ∧ turns w' = [].
Proof.
  intros Hm Hs Ht. pose proof (wp_read true m a (λ b w', b = a ∧ same w w') (same w) w Hm Hs) as H.
  specialize (H ltac:(done) ltac:(done) Ht). destruct (m w) as [[[b|e]|] w']; [|naive_solver..].
  destruct H as (Ht' & -> & Hs'). by exists w'.
Qed.

(** A commit that finds its own content, undisturbed, only syncs. *)
Lemma commit_again content w :
  operation p ≠ Operation.Delete →
  validate_transaction_and_plan sha256_hex transaction_id t p = Ok () →
  bound (fs w) t names leaf d → holds (fs w) d leaf content → turns w = [] →
  looks_like content = Reconciliation.AlreadyApplied →
  ∃ w', commit sha256_hex uuid transaction_id t p at_ None w
        = (Some (Ok (committed_as t p None transaction_id at_ Status.AlreadyApplied)), w') ∧ fs w' = fs w.
Proof.
  intros Hop Hvalid Hb Hh Ht Hl.
  assert (∃ bytes mode, content = Some (bytes, mode) ∧ state_matches sha256_hex (target p) bytes = true
    ∧ (operation p = Operation.Update → state_matches sha256_hex (base p) bytes = false)) as (bytes & mode & -> & Htarget & Hbase).
  { unfold looks_like in Hl. destruct content as [[bytes mode]|]; [|by destruct (operation p)].
    exists bytes, mode. cbn [fmap option_fmap option_map fst] in Hl.
    destruct (operation p); [|destruct (state_matches sha256_hex (base p) bytes)|done];
      destruct (state_matches sha256_hex (target p) bytes); by try discriminate Hl. }
  pose proof (wp_commit_again sha256_hex uuid true t names leaf d bytes mode p transaction_id at_ w Hb Hh Hop Hbase
    Htarget Ht) as H.
  assert (commit sha256_hex uuid transaction_id t p at_ None w
    = match operation p with
      | Operation.Create => commit_create sha256_hex uuid transaction_id t p at_
      | _ => commit_update sha256_hex uuid transaction_id t p at_
      end w) as ->.
  { unfold commit. rewrite Hvalid. by destruct (operation p). }
  match type of H with context [match ?run with (_, _) => _ end] => destruct run as [[[c|e]|] w'] end; [|naive_solver..].
  destruct H as (_ & -> & Hf & _). by exists w'.
Qed.

(** C39. What a fresh commit answers when the outcome of its attempt is unknown.
    A create or an update has not been done when [commit_fresh] looks first, the
    attempt then ends with [OutcomeUnknown], and from then on nothing interferes.
    The answer is decided by the content that is now under the name of the target
    (a regular file, or nothing) and by nothing else, and no file is touched any more: the planned content
    gives [Ok] with [AlreadyApplied], the old state gives [Failed], anything else
    [OutcomeUnknown].  So the success of an update is reported also when the
    attempt had displaced the file of another process, which then stays under the
    hidden name of the staged file without anyone being told: the witness is such
    a lost update. *)
Theorem fresh_commit_answers_by_content w w1 w2 content :
  operation p ≠ Operation.Delete →
  validate_transaction_and_plan sha256_hex transaction_id t p = Ok () →
  reconcile sha256_hex t p None w = (Some (Ok Reconciliation.DefinitelyNotExecuted), w1) →
  commit sha256_hex uuid transaction_id t p at_ None w1 = (Some (Err FileChange.OutcomeUnknown), w2) →
  turns w2 = [] → bound (fs w2) t names leaf d → holds (fs w2) d leaf content →
  ∃ w3, fs w3 = fs w2
    ∧ commit_fresh sha256_hex uuid transaction_id t p at_ None w
      = (Some (match looks_like content with
               | Reconciliation.AlreadyApplied => Ok (committed_as t p None transaction_id at_ Status.AlreadyApplied)
               | Reconciliation.DefinitelyNotExecuted => Err FileChange.Failed
               | Reconciliation.OutcomeUnknown => Err FileChange.OutcomeUnknown
               end), w3).
Proof.
  intros Hop Hvalid Hrec Hcommit Ht Hb Hh.
  destruct (reads_undisturbed (reconcile sha256_hex t p None) (looks_like content) w2) as (w3 & Hrec2 & [Hf _] & Ht3);
    [unfold reconcile; honest_tac; apply honest_reconcile_bound|by apply saw_reconcile|done|].
  assert (commit_fresh sha256_hex uuid transaction_id t p at_ None w
    = reconcile_attempted_outcome_unknown sha256_hex uuid transaction_id t p at_ None FileChange.OutcomeUnknown w2) as ->.
  { unfold commit_fresh. rewrite Hvalid. unfold lift, mbind, io_bind. rewrite Hrec. unfold attempt. by rewrite Hcommit. }
  unfold reconcile_attempted_outcome_unknown, mbind, io_bind, map_err at 1. rewrite Hrec2.
  destruct (looks_like content) eqn:El; [by exists w3| |by exists w3].
  rewrite <-Hf in Hb, Hh. destruct (commit_again content w3 Hop Hvalid Hb Hh Ht3 El) as (w4 & Hc & Hf4).
  exists w4. unfold map_err. rewrite Hc. split; [congruence|done].
Qed.
End Fresh.

(** ** Examples *)

#[local] Instance example_diffs : TextDiffs := {
  unified_diff old_header new_header old new := old_header ++ new_header ++ old ++ new;
  changes old new := map (λ _, DeleteLine) old ++ map (λ _, Insert) new;
}.
#[local] Instance example_json : JsonServices := {
  json_to_string _ := rs "{}"; response_from_value _ := None; response_from_str _ := None
}.
Definition example_sha (_ : list N) : rstr := repeat (ch "0") 64.
Definition example_uuid (k : N) : rstr := [k].

Lemma example_sha_hex : is_sha256 example_sha.
Proof. by intros input. Qed.

(** The directory [/w] with the files [f] and [g], and another directory [/x]. *)
Definition example_directory (entries : gmap rstr N) : Inode := mkInode (Directory entries) 493 1 0 7.
Definition example_file (content : string) : Inode := mkInode (Regular (rs content)) 420 1 0 7.
Definition example_fs_with (entries : gmap rstr N) : FileSystem :=
  mkFs (list_to_map [(0%N, example_directory {[rs "w" := 1%N; rs "x" := 4%N]});
                     (1%N, example_directory entries);
                     (2%N, example_file "old"); (3%N, example_file "theirs"); (4%N, example_directory ∅)]) 0 5 5.
Definition example_fs : FileSystem := example_fs_with {[rs "f" := 2%N; rs "g" := 3%N]}.
Definition example_target : ResolvedFileChangeTarget :=
  mkTarget [RootDir; Normal (rs "w"); Normal (rs "f")] [RootDir; Normal (rs "w")] (rs "f") (mkDirectoryIdentity 7 1) None.
Definition example_update : FileChangePlan :=
  plan_of example_sha (rs "f") Operation.Update (Some (rs "old")) (Some (rs "new")).
Definition idle : Turn := mkTurn (λ f, f) Proceeds.
Definition failing (e : Errno.Errno) : Turn := mkTurn (λ f, f) (Fails e).

(** *** A lost update that is reported as a success *)

(** Another process renames its [g] over [f]. *)
Definition overtake (f : FileSystem) : FileSystem :=
  match entries_of f 1 with
  | Some entries => set_entries f 1 (delete (rs "g") (<[rs "f" := 3%N]> entries))
  | None => f
  end.

(** It does so at the [n]th call, and the sixth call after that fails: the exchange,
    and the exchange that is to undo it. *)
Definition overtaken (n : nat) : World :=
  mkWorld example_fs (repeat idle n ++ [mkTurn overtake Proceeds] ++ repeat idle 5 ++ [failing Errno.EIO]) 0 [].

(** The names in [/w] where the other's content has ended up. *)
Definition hides_theirs (w : World) : Prop :=
  entries_of (fs w) 1 = Some {[rs "f" := 5%N; stage_name (example_uuid 0) := 3%N]}
  ∧ regular (fs w) 5 (rs "new") 420 ∧ regular (fs w) 3 (rs "theirs") 420.

(** *** A parent that is opened may be another directory *)

(** Another process swaps [/w] and [/x]. *)
Definition swap (f : FileSystem) : FileSystem :=
  match entry f 0 (rs "w"), entry f 0 (rs "x") with
  | Some w, Some x => set_entries f 0 {[rs "w" := x; rs "x" := w]}
  | _, _ => f
  end.
Local Abbreviation swapping := (mkTurn swap Proceeds).

(** Swapping before the parent is opened, back, and again before its name is
    looked up, gives a parent whose identity is not the one that was resolved. *)
Example opened_parent_may_be_another :
  let opened := open_parent example_target
    (mkWorld example_fs (repeat idle 7 ++ [swapping; swapping] ++ repeat idle 7 ++ [swapping]) 0 []) in
  fst opened = Some (Ok (mkParent example_target 4)) ∧ identity_ino (parent_identity example_target) = 1%N.
Proof. split; vm_compute; reflexivity. Qed.

(** Of occurrences that overlap one counts. *)
Example overlap_counts_once : apply_edit (rs "aaa") (Replace (rs "aa") (rs "b") false) = Ok (rs "ba").
Proof. reflexivity. Qed.

(** ** Witnesses *)

(** The directory [/w] is where it was. *)
Lemma bound_in_place f :
  root_inode f = 0%N → is_Some (entries_of f 0) → trail f 0 [rs "w"] = Some [(rs "w", 1%N)] →
  (λ inode, mkDirectoryIdentity (device inode) 1) <$> inodes f !! 1%N = Some (parent_identity example_target) →
  bound f example_target [rs "w"] (rs "f") 1.
Proof.
  intros Hr He Htr Hi. split; rewrite ?Hr; try done.
  - unfold valid_name. apply (bool_decide_unpack _). vm_compute. exact I.
  - apply (bool_decide_unpack _). vm_compute. exact I.
  - exists [(rs "w", 1%N)]. rewrite Hr. split; [done|]. split; [done|].
    intros [|x [|y xs]] Hp Hne tr Ht.
    + injection Ht as <-. done.
    + destruct Hne. destruct Hp as [[|y k] Hp]; [by rewrite app_nil_r in Hp|discriminate Hp].
    + destruct Hp as [k Hp]. discriminate Hp.
Qed.

Lemma example_bound entries : bound (example_fs_with entries) example_target [rs "w"] (rs "f") 1.
Proof. apply bound_in_place; [done|by eexists|vm_compute; reflexivity|vm_compute; reflexivity]. Qed.

Lemma example_numbered entries : numbered (example_fs_with entries).
Proof.
  intros i Hi. cbn in Hi. unfold example_fs_with. cbn [inodes].
  apply not_elem_of_list_to_map_1. cbn. rewrite !not_elem_of_cons. split_and!; [lia..|apply not_elem_of_nil].
Qed.

(** Tries that die and fail, and the two changes of [f]. *)
Definition example_tries : list (list Turn) :=
  [repeat idle 40 ++ [mkTurn (λ f, f) Dies]; repeat idle 50 ++ [failing Errno.EIO]; [failing Errno.EACCES]].

Lemma example_tries_faulty : Forall (Forall faulty_turn) example_tries.
Proof.
  assert (∀ n, Forall faulty_turn (repeat idle n)) as Hidle by (induction n; by constructor).
  repeat constructor; try done; apply Forall_app; (split; [apply Hidle|by repeat constructor]).
Qed.

Lemma example_uuid_inj i k : example_uuid i = example_uuid k → i = k.
Proof. by intros [= ->]. Qed.

Lemma example_unused entries :
  (∀ k, entries !! stage_name (example_uuid k) = None) →
  unused example_uuid 1 (quiet (example_fs_with entries)).
Proof. intros He name (k & _ & ->). apply He. Qed.

Lemma not_staged (name : rstr) k : name !! 13 ≠ Some (ch "s") → name ≠ stage_name (example_uuid k).
Proof. intros H Heq. apply H. by rewrite Heq. Qed.

Definition example_delete : FileChangePlan := plan_of example_sha (rs "f") Operation.Delete (Some (rs "old")) None.
Definition example_journal : FileChangeDeleteJournal :=
  let suffix := delete_journal_suffix example_sha (rs "tx") (rs "/w/f") (default [] (state_digest (base example_delete)))
                  (plan_proposal_digest example_delete) in
  mkJournal FILE_CHANGE_SCHEMA_VERSION (delete_journal_id suffix) (rs "tx") (rs "/w/f")
    (rs "/w/" ++ tombstone_name (delete_journal_id suffix)) (default [] (state_digest (base example_delete)))
    (plan_proposal_digest example_delete) JournalState.Prepared 3 3.
Definition example_tomb : rstr := tombstone_name (delete_journal_id (journal_suffix example_sha example_journal)).

(** It is the journal that is prepared. *)
Example example_journal_prepared :
  fst (prepare_delete example_sha (rs "tx") example_target example_delete 3 (quiet example_fs)) = Some (Ok example_journal).
Proof. vm_compute. reflexivity. Qed.

Lemma example_update_sound :
  sound_change example_sha example_uuid example_target (rs "f") example_update None (rs "tx").
Proof.
  split; [exact example_uuid_inj|intros k; by apply not_staged|exact example_sha_hex|vm_compute; reflexivity|done|].
  apply (bool_decide_unpack _). vm_compute. exact I.
Qed.

Lemma example_delete_sound :
  sound_change example_sha example_uuid example_target (rs "f") example_delete (Some example_journal) (rs "tx").
Proof.
  split; [exact example_uuid_inj|intros k; by apply not_staged|exact example_sha_hex|vm_compute; reflexivity| |].
  - split; vm_compute; reflexivity.
  - apply (bool_decide_unpack _). vm_compute. exact I.
Qed.

Definition example_buried : FileSystem := example_fs_with {[rs "g" := 3%N; example_tomb := 2%N]}.

Lemma example_update_ready :
  ready example_sha example_uuid example_target [rs "w"] (rs "f") 1 example_update 420 None (quiet example_fs).
Proof.
  split; [apply example_bound|apply example_numbered|apply example_unused|].
  - intros k. rewrite lookup_insert_ne, lookup_singleton_ne; [done|by apply not_staged..].
  - left. split; [|by intros ? [=]]. exists 2%N. split; [vm_compute; reflexivity|]. eexists _, _. vm_compute. reflexivity.
Qed.

Lemma example_buried_after :
  after_change example_sha (rs "f") 1 example_delete 420 (Some example_journal) example_buried.
Proof.
  split; [vm_compute; reflexivity|]. intros name [= <-]. exists 2%N. split; [vm_compute; reflexivity|].
  eexists _, _. vm_compute. reflexivity.
Qed.

Lemma example_delete_ready :
  ready example_sha example_uuid example_target [rs "w"] (rs "f") 1 example_delete 420 (Some example_journal)
    (quiet example_buried).
Proof.
  split; [apply example_bound|apply example_numbered|apply example_unused|right; exact example_buried_after].
  intros k. rewrite lookup_insert_ne, lookup_singleton_ne; [done| |by apply not_staged].
  apply not_staged. vm_compute. discriminate.
Qed.

Lemma commit_survives_faults_witness :
  ∃ status w2,
    commit example_sha example_uuid (rs "tx") example_target example_update 9 None
      (undisturbed (runs (commit example_sha example_uuid (rs "tx") example_target example_update 9 None)
                      example_tries (quiet example_fs)))
    = (Some (Ok (committed_as example_target example_update None (rs "tx") 9 status)), w2).
Proof.
  destruct (commit_survives_faults example_sha example_uuid example_target [rs "w"] (rs "f") 1 example_update 420 None
    (rs "tx") 9 (quiet example_fs) example_tries example_update_sound example_update_ready example_tries_faulty)
    as (_ & (status & w2 & Hc & _) & _).
  exists status, w2. exact Hc.
Defined.

Lemma delete_ends_either_way_witness :
  let tombstoned := set_journal_state JournalState.Tombstoned 9 example_journal in
  ∃ w2, rollback_delete example_sha example_target tombstoned 12
      (undisturbed (runs (rollback_delete example_sha example_target tombstoned 12) example_tries (quiet example_buried)))
    = (Some (Ok (set_journal_state JournalState.RolledBack 12 tombstoned)), w2).
Proof.
  destruct (delete_ends_either_way example_sha example_uuid example_target [rs "w"] (rs "f") 1 example_delete 420
    (Some example_journal) (rs "tx") 9 example_journal (rs "old") 12 (quiet example_buried) example_tries
    example_delete_sound example_delete_ready example_buried_after example_tries_faulty eq_refl eq_refl eq_refl
    (proj1 (N.leb_le 3 9) eq_refl)) as [_ [_ (w2 & Hr & _)]].
  exists w2. exact Hr.
Defined.

(** The lost update: another process renames its file over the target after the
    last check, the exchange displaces that file, and undoing the exchange fails. *)
Lemma fresh_commit_answers_by_content_witness :
  let w := overtaken 78 in
  let looked := snd (reconcile example_sha example_target example_update None w) in
  let attempted := snd (commit example_sha example_uuid (rs "tx") example_target example_update 9 None looked) in
  let fresh := commit_fresh example_sha example_uuid (rs "tx") example_target example_update 9 None w in
  fst fresh = Some (Ok (committed_as example_target example_update None (rs "tx") 9 Status.AlreadyApplied))
  ∧ hides_theirs (snd fresh).
Proof.
  intros w looked attempted fresh.
  destruct (fresh_commit_answers_by_content example_sha example_uuid example_target [rs "w"] (rs "f") 1 example_update
    (rs "tx") 9 w looked attempted (Some (rs "new", 420%N))) as (w3 & Hf & Hfresh).
  - discriminate.
  - vm_compute. reflexivity.
  - vm_compute. reflexivity.
  - vm_compute. reflexivity.
  - vm_compute. reflexivity.
  - apply bound_in_place; [vm_compute; reflexivity|vm_compute; by eexists|vm_compute; reflexivity|vm_compute; reflexivity].
  - exists 5%N. split; [vm_compute; reflexivity|]. eexists _, _. vm_compute. reflexivity.
  - unfold fresh. rewrite Hfresh. split; [vm_compute; reflexivity|]. cbn [snd]. unfold hides_theirs. rewrite Hf.
    unfold regular. split_and!; try (eexists _, _); vm_compute; reflexivity.
Defined.

(** A prepared binding of the update, at 1000 milliseconds. *)
Definition example_digest : rstr := content_digest example_sha [].
Definition example_observation : FileObservationCheckpoint :=
  mkCheckpoint FILE_OBSERVATION_CHECKPOINT_SCHEMA_VERSION (rs "fobs_00000000000000000000000000000000") (rs "read")
    (rs "talk") (rs "run") (rs "/w/f")
    (ObservationState.Existing (content_revision (rs "old")) (mkObservationIdentity 3 None None None))
    (UnixDirectory FILE_OBSERVATION_DIRECTORY_IDENTITY_SCHEMA_VERSION 7 1) 500 (500 + FILE_OBSERVATION_TTL_MS).
Definition example_binding : FileChangeDirectBinding :=
  mkBinding FILE_CHANGE_DIRECT_BINDING_SCHEMA_VERSION
    (mkTransaction FILE_CHANGE_SCHEMA_VERSION (rs "tx") Operation.Update (rs "f") Status.WaitingApproval
      Outcome.DefinitelyNotExecuted (base example_update) (target example_update) (plan_proposal_digest example_update) 5 6)
    (mkProposal FILE_CHANGE_SCHEMA_VERSION (rs "call") (rs "tx") Operation.Update (rs "f") (base example_update)
      (target example_update) (plan_diff_digest example_update) (plan_proposal_digest example_update)
      (additions example_update) (deletions example_update))
    (rs "fobs_00000000000000000000000000000000") example_observation (rs "apply_patch") (rs "call") example_digest
    example_digest None (rs "talk") None (rs "run") None (rs "/w/f") (Some (rs "old")) (Some (rs "new")) None None
    (rs "permissions") (rs "tools") (rs "wire").

Definition example_request : FileChangePlanRequest :=
  mkPlanRequest Operation.Update (rs " f ") (Base.Existing (rs "old") (content_revision (rs "old")))
    (Mutation.Edits [Replace (rs "old") (rs "new") false]).

Definition example_commit : FileChangeCommit := committed_as example_target example_update None (rs "tx") 9 Status.Applied.
Definition example_committed : FileChangeDirectBinding :=
  settle Status.Applied Outcome.Applied 9 None (Some (commit_receipt example_commit)) example_binding.

Lemma commit_is_recorded_witness :
  let run := commit_fresh example_sha example_uuid (rs "tx") example_target example_update 9 None (quiet example_fs) in
  fst run = Some (Ok example_commit) ∧ is_ok (with_commit example_sha 1000 example_binding example_commit) = true.
Proof.
  set (run := commit_fresh _ _ _ _ _ _ _ _).
  assert (fst run = Some (Ok example_commit)) as Hrun by (vm_compute; reflexivity).
  split; [exact Hrun|].
  destruct (commit_is_recorded example_sha example_uuid 1000 example_binding example_update example_target 9
    (quiet example_fs) example_commit (snd run)) as [H _].
  - vm_compute. reflexivity.
  - vm_compute. reflexivity.
  - right. rewrite <- Hrun. apply surjective_pairing.
  - rewrite H. vm_compute. reflexivity.
Defined.

Lemma binding_settles_once_witness :
  nsteps (accepted example_sha 1000) 1 example_binding example_committed ∧ frozen example_committed = frozen example_binding.
Proof.
  assert (nsteps (accepted example_sha 1000) 1 example_binding example_committed) as H.
  { apply nsteps_once. left. vm_compute. reflexivity. }
  split; [exact H|]. apply (binding_settles_once example_sha 1000 example_binding example_committed 1 H).
Defined.

Lemma frozen_plan_is_rebuilt_witness :
  plan example_sha example_request = Ok example_update
  ∧ from_direct_binding example_sha 1000 example_binding (diff example_update) = Ok example_update.
Proof.
  assert (plan example_sha example_request = Ok example_update) as Hp by (vm_compute; reflexivity).
  split; [exact Hp|].
  destruct (frozen_plan_is_rebuilt example_sha 1000 example_request example_update example_binding) as [_ H].
  - exact Hp.
  - vm_compute. reflexivity.
  - by repeat split.
  - rewrite H. by rewrite decide_True.
Defined.
