(* ===== verification/TraceProjection.v ===== *)
(** * The bounded projection of a trace

    [core/src/conversation_trace_projection.rs] and [project_durable_trace_items]
    of [core/src/conversation_trace/projection.rs]: what of a live trace is kept
    in the durable history.

    The object that a projection builds and its [truncated] flag are threaded
    through it as a pair.  [sha256_hex] is the digest in hexadecimal. *)

From stdpp Require Import gmap.
From S2P Require Import Prelude RustText Json HumanInteraction ApplyPatchWire FileChangeDigest.
From S2P Require Import TraceSanitizer TraceItems.

(** ** Limits *)

Definition ASSISTANT_NARRATION_CHARS : N := 8000.
Definition USER_GUIDANCE_CHARS : N := 12000.
Definition TOOL_ERROR_CHARS : N := 2000.
Definition PATH_CHARS : N := 2048.
Definition URL_CHARS : N := 4096.
Definition QUERY_CHARS : N := 2000.
Definition TITLE_CHARS : N := 512.
Definition SUMMARY_CHARS : N := 4000.
Definition READ_SUMMARY_CHARS : N := 1200.
Definition COMMAND_CHARS : N := 2000.
Definition COMMAND_OUTPUT_TAIL_CHARS : N := 3000.
Definition GENERIC_STRING_CHARS : N := 2000.
Definition GENERIC_ARRAY_ITEMS : nat := 32.
Definition GENERIC_OBJECT_FIELDS : nat := 64.
Definition GENERIC_DEPTH : nat := 8.
Definition WEB_SEARCH_RESULTS : nat := 10.
Definition WEB_FAILED_RESULTS : nat := 10.

(** ** Generic values *)

Definition is_binary_key (canonical : rstr) : bool :=
  contains canonical "base64" || contains canonical "dataurl"
  || contains canonical "binarybytes" || contains canonical "imagebytes".

Definition is_hidden_reasoning_key (key : rstr) : bool :=
  one_of (canonical_key key) ["reasoning"; "hiddenthinking"; "chainofthought"; "internalreasoning"].

(** The output has the fields of the input that are kept, in their order. *)
Fixpoint bound_value (value : Value) (string_limit : N) (depth : nat) {struct value} : Value * bool :=
  if GENERIC_DEPTH <=? depth
  then (String (rs "[nested value omitted from conversation history]"), true)
  else
    match value with
    | Object input =>
        let '(output, truncated) :=
          (fix go (fields : nat) (input : list (rstr * Value)) : list (rstr * Value) * bool :=
             match fields, input with
             | S fields, (key, value) :: input =>
                 let '(output, truncated) := go fields input in
                 if is_hidden_reasoning_key key then (output, true)
                 else if is_binary_key (canonical_key key)
                 then ((key, String BINARY_OMITTED_MARKER) :: output, true)
                 else if is_str (canonical_key key) BINARY_OMITTED_FROM_HISTORY_KEY
                         && is_true_value value
                 then ((key, value) :: output, true)
                 else
                   let '(value, value_truncated) := bound_value value string_limit (S depth) in
                   ((key, value) :: output, truncated || value_truncated)
             | _, _ => ([], false)
             end) GENERIC_OBJECT_FIELDS input in
        (Object output, (GENERIC_OBJECT_FIELDS <? length input) || truncated)
    | Array input =>
        let '(output, truncated) :=
          (fix go (items : nat) (input : list Value) : list Value * bool :=
             match items, input with
             | S items, value :: input =>
                 let '(output, truncated) := go items input in
                 let '(value, value_truncated) := bound_value value string_limit (S depth) in
                 (value :: output, truncated || value_truncated)
             | _, _ => ([], false)
             end) GENERIC_ARRAY_ITEMS input in
        (Array output, (GENERIC_ARRAY_ITEMS <? length input) || truncated)
    | String value =>
        let '(value, truncated) := sanitize_and_bound_text value string_limit false in
        (String value, truncated)
    | Null | Bool _ | Number _ => (value, false)
    end.

Definition project_generic_value (value : Value) : Value * bool :=
  bound_value value GENERIC_STRING_CHARS 0.

(** ** Selected fields *)

(** The output object so far, and [truncated]. *)
Definition Projection : Type := list (rstr * Value) * bool.

Definition put (key : string) (value : Value) (p : Projection) : Projection :=
  (map_insert (rs key) value (fst p), snd p).
Arguments put key%_string_scope value p.
Definition mark (cut : bool) (p : Projection) : Projection := (fst p, snd p || cut).

Definition finish_object (p : Projection) : Value * bool := (Object (fst p), snd p).

Definition copy_bounded_field (input : list (rstr * Value)) (p : Projection) (field : string * N)
    : Projection :=
  match map_get (rs (fst field)) input with
  | None => p
  | Some value =>
      let '(value, cut) := bound_value value (snd field) 0 in p |> put (fst field) value |> mark cut
  end.

Definition copy_bounded_fields (input : list (rstr * Value)) (fields : list (string * N))
    (p : Projection) : Projection := foldl (copy_bounded_field input) p fields.
Arguments copy_bounded_fields input fields%_string_scope p.

Definition project_selected_map (input : list (rstr * Value)) (fields : list (string * N)) : Value * bool :=
  finish_object (copy_bounded_fields input fields ([], false)).

(** [let Some(input) = value.as_object() else { return project_generic_value(value) }] *)
Definition on_object (project : list (rstr * Value) → Value * bool) (value : Value) : Value * bool :=
  match value with Object input => project input | _ => project_generic_value value end.

Definition project_selected_object (value : Value) (fields : list (string * N)) : Value * bool :=
  on_object (λ input, project_selected_map input fields) value.
Arguments project_selected_object value fields%_string_scope.

(** [input.get(key).and_then(Value::as_bool).unwrap_or(false)], and the like. *)
Definition bool_at (key : string) (input : list (rstr * Value)) : bool :=
  default false (map_get (rs key) input ≫= as_bool).
Arguments bool_at key%_string_scope input.
Definition str_at (key : string) (input : list (rstr * Value)) : option rstr :=
  map_get (rs key) input ≫= as_str.
Arguments str_at key%_string_scope input.
Definition array_at (key : string) (input : list (rstr * Value)) : option (list Value) :=
  map_get (rs key) input ≫= as_array.
Arguments array_at key%_string_scope input.
Definition is_missing (key : string) (input : list (rstr * Value)) : bool :=
  negb (contains_key (rs key) input).
Arguments is_missing key%_string_scope input.

(** The first of these fields that is there. *)
Definition first_of (keys : list string) (input : list (rstr * Value)) : option Value :=
  head (omap (λ key, map_get (rs key) input) keys).
Arguments first_of keys%_string_scope input.

(** The first items of an array, projected. *)
Definition project_items (project : Value → Value * bool) (limit : nat) (items : list Value)
    : list Value * bool :=
  let projected := map project (take limit items) in (map fst projected, existsb snd projected).

Definition project_read_call (value : Value) : Value * bool :=
  project_selected_object value
    [("path", PATH_CHARS); ("filePath", PATH_CHARS); ("resourceUri", PATH_CHARS);
     ("startLine", GENERIC_STRING_CHARS); ("startByte", GENERIC_STRING_CHARS);
     ("maxLines", GENERIC_STRING_CHARS); ("maxChars", GENERIC_STRING_CHARS);
     ("range", GENERIC_STRING_CHARS); ("sheet", TITLE_CHARS)].

(** The summary of a body, and whether the history has less than the body. *)
Definition put_summary (limit : N) (flag : string) (input : list (rstr * Value)) (p : Projection)
    : Projection :=
  match first_of ["summary"; "content"; "text"] input ≫= as_str with
  | None => p
  | Some content =>
      let '(summary, summary_truncated) := sanitize_and_bound_text content limit false in
      let cut := summary_truncated || is_missing "summary" input || bool_at flag input in
      p |> put "summary" (String summary) |> put flag (Bool cut) |> mark cut
  end.
Arguments put_summary limit flag%_string_scope input p.

Definition put_truncated (input : list (rstr * Value)) (p : Projection) : Projection :=
  put "truncated" (Bool (bool_at "truncated" input || snd p)) p.

(** ** Web tools *)

Definition put_failed_results (input : list (rstr * Value)) (p : Projection) : Projection :=
  match array_at "failedResults" input with
  | None => p
  | Some failed =>
      let '(selected, cut) := project_items project_generic_value WEB_FAILED_RESULTS failed in
      p |> put "failedResults" (Array selected) |> mark (cut || (length selected <? length failed))
  end.

Definition project_web_fetch_result (value : Value) : Value * bool :=
  on_object (λ input,
    ([], false)
    |> copy_bounded_fields input
         [("url", URL_CHARS); ("requestedUrl", URL_CHARS); ("title", TITLE_CHARS);
          ("provider", TITLE_CHARS); ("source", URL_CHARS); ("status", TITLE_CHARS);
          ("code", TITLE_CHARS); ("errorCode", TITLE_CHARS); ("message", TOOL_ERROR_CHARS);
          ("recovery", TITLE_CHARS); ("format", TITLE_CHARS); ("extractDepth", TITLE_CHARS);
          ("responseTime", GENERIC_STRING_CHARS); ("sourceStopReason", TITLE_CHARS);
          ("contentCoverage", GENERIC_STRING_CHARS); ("imagesCoverage", GENERIC_STRING_CHARS);
          ("failedResultsCoverage", GENERIC_STRING_CHARS); ("truncatedAtSource", GENERIC_STRING_CHARS);
          ("omittedBytes", GENERIC_STRING_CHARS)]
    |> put_summary SUMMARY_CHARS "bodyTruncatedInHistory" input
    |> put_failed_results input
    |> put_truncated input
    |> finish_object) value.

Definition project_web_search_entry (value : Value) : Value * bool :=
  project_selected_object value
    [("title", TITLE_CHARS); ("url", URL_CHARS); ("source", URL_CHARS); ("content", READ_SUMMARY_CHARS);
     ("publishedDate", TITLE_CHARS); ("score", GENERIC_STRING_CHARS)].

Definition put_search_results (input : list (rstr * Value)) (p : Projection) : Projection :=
  match array_at "results" input with
  | None => p
  | Some results =>
      let '(selected, cut) := project_items project_web_search_entry WEB_SEARCH_RESULTS results in
      let coverage :=
        obj [("total", json_len results); ("returned", json_len selected);
             ("omitted", json_number (N.of_nat (length results - length selected)))] in
      p |> put "resultCoverage" coverage |> put "results" (Array selected)
        |> mark (cut || (length selected <? length results))
  end.

Definition put_source_truncated (input : list (rstr * Value)) (p : Projection) : Projection :=
  let source_truncated := first_of ["truncatedAtSource"; "truncated"] input ≫= as_bool in
  if bool_decide (is_Some source_truncated) || snd p
  then put "truncated" (Bool (default false source_truncated || snd p)) p
  else p.

Definition project_web_search_result (value : Value) : Value * bool :=
  on_object (λ input,
    ([], false)
    |> copy_bounded_fields input
         [("query", QUERY_CHARS); ("provider", TITLE_CHARS); ("status", TITLE_CHARS);
          ("code", TITLE_CHARS); ("errorCode", TITLE_CHARS); ("message", TOOL_ERROR_CHARS);
          ("recovery", TITLE_CHARS); ("answer", SUMMARY_CHARS); ("contentKind", TITLE_CHARS);
          ("fullContentTool", TITLE_CHARS); ("sourceCompleteness", TITLE_CHARS);
          ("requestedMaxResults", GENERIC_STRING_CHARS); ("cursor", GENERIC_STRING_CHARS);
          ("next", GENERIC_STRING_CHARS); ("nextCursor", GENERIC_STRING_CHARS);
          ("continueWith", GENERIC_STRING_CHARS); ("truncatedAtSource", GENERIC_STRING_CHARS);
          ("omittedBytes", GENERIC_STRING_CHARS); ("sourceStopReason", TITLE_CHARS);
          ("responseTime", GENERIC_STRING_CHARS)]
    |> put_search_results input
    |> put_source_truncated input
    |> finish_object) value.

(** ** File changes *)

(** [value.lines().count()]. *)
Definition line_count (value : rstr) : N :=
  if bool_decide (value = []) then 0
  else
    N.of_nat (length (List.filter (is_char newline) value)
              + (if is_at newline (last value) then 0 else 1)).

Definition u64_saturating_add (a b : N) : N := N.min (a + b) u64_max.

Definition lines_at (key : string) (edit : Value) : N :=
  default 0%N (line_count <$> (value_get (rs key) edit ≫= as_str)).
Arguments lines_at key%_string_scope edit.

Definition structured_edit_stats (edits : list Value) : N * N :=
  foldl (λ '(additions, deletions) edit,
    let kind := default [] (value_get (rs "kind") edit ≫= as_str) in
    let inserted :=
      if is_str kind "replace" then lines_at "newText" edit else lines_at "text" edit in
    let deleted := if is_str kind "replace" then lines_at "oldText" edit else 0%N in
    (u64_saturating_add additions inserted, u64_saturating_add deletions deleted)) (0%N, 0%N) edits.

Definition is_host_validated_apply_patch_projection (input : list (rstr * Value)) : bool :=
  bool_at "validatedRequest" input
  && forallb (λ f, one_of (fst f)
       ["validatedRequest"; "action"; "operation"; "filePath"; "strategy"; "transactionId"; "index";
        "expectedDraftRevision"; "contentBytes"; "contentDigest"; "editCount"; "editsDigest";
        "changeRepresentation"; "additions"; "deletions"; "summary"]) input.

Definition u64_at (key : string) (input : list (rstr * Value)) : option N :=
  map_get (rs key) input ≫= as_u64.
Arguments u64_at key%_string_scope input.

Definition project_apply_patch_result (value : Value) : Value * bool :=
  on_object (λ input,
    let copy_u64 p key :=
      match map_get (rs key) input with
      | Some value => if bool_decide (is_Some (as_u64 value)) then put key value p else p
      | None => p
      end in
    let p :=
      copy_bounded_fields input
        [("transactionId", GENERIC_STRING_CHARS); ("status", TITLE_CHARS); ("outcome", TITLE_CHARS);
         ("operation", GENERIC_STRING_CHARS); ("strategy", TITLE_CHARS); ("updateStrategy", TITLE_CHARS);
         ("filePath", PATH_CHARS); ("revision", GENERIC_STRING_CHARS); ("errorCode", TITLE_CHARS);
         ("error", TOOL_ERROR_CHARS); ("message", SUMMARY_CHARS)] ([], false) in
    finish_object (foldl copy_u64 p
      ["schemaVersion"; "additions"; "deletions"; "lineCount"; "byteCount"; "draftRevision"; "nextIndex";
       "mutationCount"]%string)) value.

(** ** Commands *)

(** The end of an output stream, and whether it is all of it. *)
Definition put_stream (source_key target_key flag : string) (input : list (rstr * Value))
    (p : Projection) : Projection :=
  match first_of [source_key; target_key] input ≫= as_str with
  | None => p
  | Some stream =>
      let '(tail, tail_truncated) := sanitize_and_bound_text stream COMMAND_OUTPUT_TAIL_CHARS true in
      p |> put target_key (String tail) |> put flag (Bool (bool_at flag input || tail_truncated))
        |> mark tail_truncated
  end.
Arguments put_stream (source_key target_key flag)%_string_scope input p.

Definition put_generic (input : list (rstr * Value)) (p : Projection) (key : string) : Projection :=
  match map_get (rs key) input with
  | None => p
  | Some value => let '(value, cut) := project_generic_value value in p |> put key value |> mark cut
  end.

Definition project_rejected_command_result (input : list (rstr * Value)) : Value * bool :=
  ([], false)
  |> copy_bounded_fields input
       [("status", TITLE_CHARS); ("code", TITLE_CHARS); ("decisionBy", TITLE_CHARS);
        ("executionAttempted", TITLE_CHARS); ("retryable", TITLE_CHARS);
        ("userFeedback", USER_GUIDANCE_CHARS); ("message", USER_GUIDANCE_CHARS)]
  |> finish_object.

Definition put_running_output (input : list (rstr * Value)) (p : Projection) : Projection :=
  let '(p, cut) :=
    match str_at "output" input with
    | None => (p, false)
    | Some value =>
        let '(value, cut) := sanitize_and_bound_text value COMMAND_OUTPUT_TAIL_CHARS true in
        (p |> put "output" (String value) |> mark cut, cut)
    end in
  if contains_key (rs "outputTruncated") input || cut
  then put "outputTruncated" (Bool (bool_at "outputTruncated" input || cut)) p
  else p.

Definition project_running_command_result (input : list (rstr * Value)) : Value * bool :=
  ([], false)
  |> copy_bounded_fields input
       [("status", TITLE_CHARS); ("sessionId", TITLE_CHARS); ("startedAt", GENERIC_STRING_CHARS);
        ("latestSequence", GENERIC_STRING_CHARS)]
  |> put_running_output input
  |> finish_object.

Definition project_finished_command_result (input : list (rstr * Value)) : Value * bool :=
  let p :=
    ([], false)
    |> copy_bounded_fields input
         [("status", TITLE_CHARS); ("command", COMMAND_CHARS); ("cwd", PATH_CHARS);
          ("exitCode", GENERIC_STRING_CHARS); ("timedOut", GENERIC_STRING_CHARS);
          ("cancelled", GENERIC_STRING_CHARS); ("durationMs", GENERIC_STRING_CHARS)]
    |> put_stream "stdout" "stdoutTail" "stdoutTruncated" input
    |> put_stream "stderr" "stderrTail" "stderrTruncated" input in
  finish_object (foldl (put_generic input) p
    ["error"; "policyEvaluation"; "artifactObservation"; "inputFiles"; "runtime"]%string).

Definition project_run_command_result (value : Value) : Value * bool :=
  on_object (λ input,
    let status := default [] (str_at "status" input) in
    if is_str status "rejected" then project_rejected_command_result input
    else if is_str status "running" then project_running_command_result input
    else project_finished_command_result input) value.

Definition put_session_read (input : list (rstr * Value)) (p : Projection) : Projection :=
  match map_get (rs "read") input with
  | None => p
  | Some (Object read) =>
      let '(projected_read, cut) :=
        copy_bounded_fields read
          [("requestedAfterSequence", GENERIC_STRING_CHARS); ("firstSequence", GENERIC_STRING_CHARS);
           ("throughSequence", GENERIC_STRING_CHARS); ("truncatedBefore", GENERIC_STRING_CHARS);
           ("outputBytes", GENERIC_STRING_CHARS); ("outputHash", TITLE_CHARS)] ([], false) in
      p |> put "read" (Object projected_read) |> mark cut
  | Some _ => mark true p
  end.

Definition project_command_session_result (value : Value) : Value * bool :=
  match value with
  | Object input =>
      ([], false)
      |> copy_bounded_fields input
           [("sessionId", TITLE_CHARS); ("status", TITLE_CHARS); ("exitCode", GENERIC_STRING_CHARS);
            ("latestSequence", GENERIC_STRING_CHARS); ("outputTruncated", GENERIC_STRING_CHARS)]
      |> put_session_read input
      |> mark (is_some_and (str_at "output" input) (λ output, negb (bool_decide (output = []))))
      |> finish_object
  | value => (Object [], negb (value_eqb value Null))
  end.

(** ** Reading *)

Definition project_read_result (value : Value) : Value * bool :=
  on_object (λ input,
    ([], false)
    |> copy_bounded_fields input
         [("path", PATH_CHARS); ("resourceUri", PATH_CHARS); ("status", TITLE_CHARS);
          ("code", TITLE_CHARS); ("errorCode", TITLE_CHARS); ("message", TOOL_ERROR_CHARS);
          ("error", TOOL_ERROR_CHARS); ("recovery", TITLE_CHARS); ("format", TITLE_CHARS);
          ("revision", GENERIC_STRING_CHARS); ("mimeType", TITLE_CHARS);
          ("sizeBytes", GENERIC_STRING_CHARS); ("startLine", GENERIC_STRING_CHARS);
          ("startColumn", GENERIC_STRING_CHARS); ("startByte", GENERIC_STRING_CHARS);
          ("endLine", GENERIC_STRING_CHARS); ("endColumn", GENERIC_STRING_CHARS);
          ("endByteExclusive", GENERIC_STRING_CHARS); ("totalLines", GENERIC_STRING_CHARS);
          ("totalBytes", GENERIC_STRING_CHARS); ("returnedBytes", GENERIC_STRING_CHARS);
          ("nextStartByte", GENERIC_STRING_CHARS); ("nextStartLine", GENERIC_STRING_CHARS);
          ("nextStartColumn", GENERIC_STRING_CHARS); ("pageCount", GENERIC_STRING_CHARS);
          ("sheetCount", GENERIC_STRING_CHARS); ("slideCount", GENERIC_STRING_CHARS);
          ("partCount", GENERIC_STRING_CHARS); ("extractor", TITLE_CHARS);
          ("truncatedReason", TITLE_CHARS)]
    |> put_summary READ_SUMMARY_CHARS "contentTruncatedInHistory" input
    |> put_truncated input
    |> finish_object) value.

Definition project_skill_resource_result (value : Value) : Value * bool :=
  on_object (λ input,
    let p :=
      copy_bounded_fields input
        [("uri", PATH_CHARS); ("resourceUri", PATH_CHARS); ("startByte", GENERIC_STRING_CHARS);
         ("endByteExclusive", GENERIC_STRING_CHARS); ("totalBytes", GENERIC_STRING_CHARS);
         ("returnedBytes", GENERIC_STRING_CHARS); ("nextStartByte", GENERIC_STRING_CHARS);
         ("status", TITLE_CHARS); ("code", TITLE_CHARS); ("errorCode", TITLE_CHARS);
         ("message", TOOL_ERROR_CHARS); ("error", TOOL_ERROR_CHARS); ("recovery", TITLE_CHARS);
         ("contentOmittedFromHistory", GENERIC_STRING_CHARS)] ([], false) in
    finish_object
      (if contains_key (rs "content") input || contains_key (rs "text") input
       then p |> put "contentOmittedFromHistory" (Bool true) |> mark true
       else p)) value.

(** ** Searches of the history *)

(** [metadata.remove(key)], an array of it counted under [count_key]. *)
Definition omit_items (p : Projection) (keys : string * string) : Projection :=
  let '(metadata, omitted) := p in
  let rest := map_remove (rs (fst keys)) metadata in
  match array_at (fst keys) metadata with
  | Some items =>
      (map_or_insert (rs (snd keys)) (json_len items) rest,
       omitted || negb (bool_decide (length items = 0)))
  | None => (rest, omitted)
  end.

Definition omit_content (metadata : list (rstr * Value)) : Projection :=
  let rest := map_remove (rs "content") metadata in
  match str_at "content" metadata with
  | Some content =>
      (map_insert (rs "contentOmittedFromConversationTrace") (Bool true)
         (map_insert (rs "returnedChars") (json_len content) rest), true)
  | None => (rest, false)
  end.

Definition omit_turn (p : Projection) : Projection :=
  (map_remove (rs "turn") (fst p), snd p || contains_key (rs "turn") (fst p)).

Definition omit_hit (hit : Value) : Value * bool :=
  match hit with
  | Object hit =>
      (Object (map_remove (rs "snippet") (map_remove (rs "preview") hit)),
       contains_key (rs "preview") hit || contains_key (rs "snippet") hit)
  | hit => (hit, false)
  end.

Definition omit_hits (p : Projection) : Projection :=
  match array_at "hits" (fst p) with
  | Some hits =>
      (map_insert (rs "hits") (Array (map (λ hit, fst (omit_hit hit)) hits)) (fst p),
       snd p || existsb (λ hit, snd (omit_hit hit)) hits)
  | None => p
  end.

Definition omit_records (p : Projection) : Projection :=
  match array_at "records" (fst p) with
  | Some records =>
      (map_or_insert (rs "returnedRecords") (json_len records) (map_remove (rs "records") (fst p)),
       snd p || (0 <? length records))
  | None => p
  end.

Definition project_conversation_history_result (value : Value) : Value * bool :=
  on_object (λ input,
    let '(metadata, omitted) :=
      foldl omit_items (omit_content input)
        [("turns", "returnedTurns"); ("results", "returnedTurns"); ("timeline", "returnedRecords")]%string
      |> omit_turn |> omit_hits |> omit_records in
    let metadata :=
      if omitted
      then map_insert (rs "historicalPayloadOmittedFromConversationTrace") (Bool true) metadata
      else metadata in
    let '(value, truncated) := project_generic_value (Object metadata) in
    (value, omitted || truncated)) value.

(** ** Tools *)

Definition is_read_tool (tool : rstr) : bool :=
  starts_with tool "read_" || is_str tool "skills_read_resource".

Definition is_repeat_failure_eligible (tool : rstr) : bool :=
  one_of tool ["web_fetch"; "web_search"; "search_code"; "search_files"] || is_read_tool tool.

Definition is_manually_audited_operation (tool : rstr) : bool :=
  one_of tool ["office_document"; "office_spreadsheet"; "office_presentation";
    "skills_materialize_resource"; "skills_run_script"; "skills_preflight_script"].

Definition project_narration (value : rstr) : rstr * bool :=
  sanitize_and_bound_text value ASSISTANT_NARRATION_CHARS false.

Definition project_attachment_text (value : rstr) : rstr * bool :=
  sanitize_and_bound_text value PATH_CHARS false.

Section Services.
Context {json : JsonServices} (sha256_hex : list N → rstr).

(** How the change is given, with the lines it adds and deletes. *)
Definition put_change (input : list (rstr * Value)) (p : Projection) : Projection :=
  let '(p, representation, additions, deletions) :=
    match str_at "content" input, array_at "edits" input, str_at "changeRepresentation" input with
    | Some content, _, _ =>
        (p |> put "contentBytes" (json_number (N.of_nat (byte_len content)))
           |> put "contentDigest" (String (content_digest sha256_hex (as_bytes content))),
         rs "content", line_count content, 0%N)
    | None, Some edits, _ =>
        let '(additions, deletions) := structured_edit_stats edits in
        (p |> put "editCount" (json_len edits)
           |> put "editsDigest" (String (proposal_digest sha256_hex (Array edits))),
         rs "edits", additions, deletions)
    | None, None, Some representation =>
        (p, representation, default 0%N (u64_at "additions" input), default 0%N (u64_at "deletions" input))
    | None, None, None =>
        (p, if bool_decide (is_Some (u64_at "editCount" input)) then rs "edits" else rs "metadata_only",
         0%N, 0%N)
    end in
  p |> put "changeRepresentation" (String representation)
    |> put "additions" (json_number additions) |> put "deletions" (json_number deletions)
    |> mark (negb (is_str representation "metadata_only")).

Definition project_apply_patch_call (value : Value) : Value * bool :=
  match apply_patch_request value with
  | None => (obj [("request"%string, Object [])], true)
  | Some input =>
      if negb (apply_patch_wire_is_valid value) && negb (is_host_validated_apply_patch_projection input)
      then (obj [("request"%string, Object [])], true)
      else
        let '(output, cut) :=
          ([], false)
          |> put "validatedRequest" (Bool true)
          |> copy_bounded_fields input
               [("action", TITLE_CHARS); ("operation", GENERIC_STRING_CHARS); ("filePath", PATH_CHARS);
                ("transactionId", GENERIC_STRING_CHARS); ("expectedDraftRevision", GENERIC_STRING_CHARS);
                ("index", GENERIC_STRING_CHARS); ("strategy", TITLE_CHARS); ("summary", SUMMARY_CHARS);
                ("contentBytes", GENERIC_STRING_CHARS); ("editCount", GENERIC_STRING_CHARS);
                ("contentDigest", GENERIC_STRING_CHARS); ("editsDigest", GENERIC_STRING_CHARS)]
          |> put_change input in
        (obj [("request"%string, Object output)], cut)
  end.

Definition project_tool_call (tool : rstr) (operation : Value) : Value * bool :=
  if is_str tool "web_fetch" then
    project_selected_object operation
      [("url", URL_CHARS); ("query", QUERY_CHARS); ("chunksPerSource", GENERIC_STRING_CHARS);
       ("extractDepth", GENERIC_STRING_CHARS); ("format", GENERIC_STRING_CHARS);
       ("maxChars", GENERIC_STRING_CHARS)]
  else if is_str tool "web_search" then
    project_selected_object operation
      [("query", QUERY_CHARS); ("maxResults", GENERIC_STRING_CHARS); ("searchDepth", GENERIC_STRING_CHARS);
       ("topic", GENERIC_STRING_CHARS); ("timeRange", GENERIC_STRING_CHARS);
       ("includeDomains", GENERIC_STRING_CHARS); ("excludeDomains", GENERIC_STRING_CHARS)]
  else if is_str tool "apply_patch" then project_apply_patch_call operation
  else if is_str tool "run_command" then sanitize_runtime_value operation
  else if is_manually_audited_operation tool then sanitize_runtime_value operation
  else if is_read_tool tool then project_read_call operation
  else project_generic_value operation.

Definition project_human_interaction_response (value : Value) : Value * bool :=
  if valid_value value then (value, false) else project_generic_value value.

Definition project_observation (tool : rstr) (observation : Value) : Value * bool :=
  if is_str tool "request_user_input" then project_human_interaction_response observation
  else if is_str tool "web_fetch" then project_web_fetch_result observation
  else if is_str tool "web_search" then project_web_search_result observation
  else if is_str tool "apply_patch" then project_apply_patch_result observation
  else if is_str tool "run_command" then project_run_command_result observation
  else if is_str tool "command_session" then project_command_session_result observation
  else if is_str tool "conversation_history" then project_conversation_history_result observation
  else if is_str tool "skills_read_resource" then project_skill_resource_result observation
  else if is_read_tool tool then project_read_result observation
  else project_generic_value observation.

Definition project_error (error : option rstr) : option rstr * bool :=
  match error with
  | Some error =>
      let '(error, cut) := sanitize_and_bound_text error TOOL_ERROR_CHARS false in (Some error, cut)
  | None => (None, false)
  end.

(** The operation, the third argument of the source, is not used there. *)
Definition project_tool_result (tool : rstr) (observation : Value) (error : option rstr)
    : (Value * bool) * option rstr * bool :=
  let '(error, error_truncated) := project_error error in
  (project_observation tool observation, error, error_truncated).

Definition project_user_guidance (value : rstr) : rstr * bool :=
  if (text_len value <=? HUMAN_INTERACTION_MAX_DISPLAY_BYTES)%N
     && is_some_and (response_from_str value) validate_display
  then (value, false)
  else sanitize_and_bound_text value USER_GUIDANCE_CHARS false.

(** ** The items of a trace *)

Definition status_name (status : ConversationTraceToolResultStatus) : string :=
  match status with
  | Succeeded => "succeeded" | Failed => "failed" | Rejected => "rejected"
  | Conflict => "conflict" | Cancelled => "cancelled"
  end.

Definition failure_signature (tool : rstr) (status : ConversationTraceToolResultStatus)
    (observation : Value) (error : option rstr) : rstr :=
  json_to_string
    (obj [("tool", String tool); ("status", text_value (status_name status)); ("observation", observation);
          ("error", match error with Some error => String error | None => Null end)]%string).

Definition repeated_failure (first_call_id : rstr) : Value :=
  obj [("repeatedFailure", Bool true); ("sameAsCallId", String first_call_id);
       ("detail", text_value "Unchanged failure omitted from conversation history.")]%string.

Definition project_attachment (attachment : ConversationTraceAttachment)
    : ConversationTraceAttachment * bool :=
  let '(name, name_truncated) := project_attachment_text (attached_name attachment) in
  let '(mime_type, mime_truncated) :=
    match attached_mime_type attachment with
    | Some mime_type => let '(mime_type, cut) := project_attachment_text mime_type in (Some mime_type, cut)
    | None => (None, false)
    end in
  (mkAttachment (attached_id attachment) (attached_kind attachment) name mime_type
     (attached_size_bytes attachment) (attached_pasted_text attachment), name_truncated || mime_truncated).

(** An observation that repeats the failure of an earlier call is replaced by
    the identity of that call.  [signatures] has the failures met so far. *)
Definition project_failure (signatures : gmap rstr rstr) (call_id tool : rstr)
    (status : ConversationTraceToolResultStatus) (success : bool) (observation : Value)
    (error : option rstr) (cut : bool) : Value * option rstr * bool * gmap rstr rstr :=
  if negb success && is_repeat_failure_eligible tool
     && negb (bool_decide (value_get (rs "repeatedFailure") observation ≫= as_bool = Some true))
  then
    let signature := failure_signature tool status observation error in
    match signatures !! signature with
    | Some first_call_id => (repeated_failure first_call_id, None, true, signatures)
    | None => (observation, error, cut, <[signature := call_id]> signatures)
    end
  else (observation, error, cut, signatures).

(** One pass of the loop: the item that is kept and its flag. *)
Definition project_item (signatures : gmap rstr rstr) (item : ConversationTurnTraceItem)
    : ConversationTurnTraceItem * bool * gmap rstr rstr :=
  match item with
  | AssistantNarration s content provider_turn_id first_tool_call_id truncated =>
      let '(content, cut) := project_narration content in
      (AssistantNarration s content provider_turn_id first_tool_call_id (truncated || cut),
       truncated || cut, signatures)
  | UserGuidance s guidance_id client_id content attachments references created_at truncated =>
      let '(content, cut) := project_user_guidance content in
      let projected := map project_attachment attachments in
      let cut := truncated || cut || existsb snd projected in
      (UserGuidance s guidance_id client_id content (map fst projected)
         (map model_projection references) created_at cut, cut, signatures)
  | WorkflowDelivery _ _ _ _ _ _ truncated => (item, truncated, signatures)
  | AgentMailboxDelivery _ _ _ _ _ _ _ _ _ truncated => (item, truncated, signatures)
  | ToolCall s call_id tool provenance operation approval truncated =>
      let '(operation, cut) := project_tool_call tool operation in
      (ToolCall s call_id tool provenance operation approval (truncated || cut), truncated || cut, signatures)
  | ToolResult s call_id tool status success observation approval error truncated archive =>
      let '((observation, observation_cut), error, error_cut) :=
        project_tool_result tool observation error in
      let '(observation, error, cut, signatures) :=
        project_failure signatures call_id tool status success observation error
          (observation_cut || error_cut) in
      (ToolResult s call_id tool status success observation approval error (truncated || cut)
         (mark_history_truncated (truncated || cut) archive), truncated || cut, signatures)
  | RuntimeError s message recoverable code truncated =>
      let '(message, message_cut) := project_terminal_error message in
      let '(code, code_cut) := sanitize_optional_text code in
      let cut := truncated || message_cut || code_cut in
      (RuntimeError s message recoverable code cut, cut, signatures)
  | BackendState _ _ _ _ _ | ContextMaterial _ _ _ _ _ _ | CommandSessionLifecycle _ _
  | ContextCompactionLifecycle _ _ _ _ => (item, false, signatures)
  end.

Fixpoint project_durable_trace_suffix (signatures : gmap rstr rstr)
    (items : list ConversationTurnTraceItem) : list ConversationTurnTraceItem * bool :=
  match items with
  | [] => ([], false)
  | item :: items =>
      let '(item, item_truncated, signatures) := project_item signatures item in
      let '(projected, trace_truncated) := project_durable_trace_suffix signatures items in
      (item :: projected, item_truncated || trace_truncated)
  end.

Definition project_durable_trace_items (items : list ConversationTurnTraceItem)
    : list ConversationTurnTraceItem * bool := project_durable_trace_suffix ∅ items.
End Services.
