(* ===== verification/TraceProjectionFacts.v ===== *)
(** * What the sanitizers keep out

    A text or a value is clean when the checks of the trace accept it.  The
    sanitizers make it clean, and the bounded ones keep it clean.

    After that: what the projection keeps. *)

From S2P Require Import Prelude RustText Json TraceSanitizer TraceItems HumanInteraction.
From S2P Require Import ApplyPatchWire FileChangeDigest TraceProjection.

Definition clean_text (s : rstr) : Prop := snd (sanitize_runtime_text s) = false.
Definition clean_value (v : Value) : Prop := fst (sanitize_runtime_value v) = v.

(** ** Sanitising *)

Lemma marker_kept : sanitize_runtime_text BINARY_OMITTED_MARKER = (BINARY_OMITTED_MARKER, false).
Proof. vm_compute. reflexivity. Qed.

Lemma sanitize_runtime_text_again value :
  sanitize_runtime_text (fst (sanitize_runtime_text value)) = (fst (sanitize_runtime_text value), false).
Proof.
  unfold sanitize_runtime_text at 2 3. destruct (_ && _) eqn:E; cbn [fst]; [apply marker_kept|].
  unfold sanitize_runtime_text. by rewrite E.
Qed.

(** One field of an object. *)
Definition sanitize_field (field : rstr * Value) : Value * bool :=
  let canonical := canonical_key (fst field) in
  if is_runtime_binary_key canonical then (String BINARY_OMITTED_MARKER, true)
  else if is_str canonical BINARY_OMITTED_FROM_HISTORY_KEY && is_true_value (snd field)
  then (snd field, true)
  else sanitize_runtime_value (snd field).

Lemma sanitize_object fields :
  sanitize_runtime_value (Object fields)
  = (Object (map (λ f, (fst f, fst (sanitize_field f))) fields),
     existsb (λ f, snd (sanitize_field f)) fields).
Proof.
  cbn [sanitize_runtime_value].
  set (go := fix go input := match input with [] => _ | _ => _ end).
  assert (go fields = (map (λ f, (fst f, fst (sanitize_field f))) fields,
                       existsb (λ f, snd (sanitize_field f)) fields)) as ->; [|done].
  induction fields as [|[key value] fields IH]; [done|]. cbn [go map existsb]. rewrite IH.
  change (if is_runtime_binary_key (canonical_key key) then _ else _)
    with (sanitize_field (key, value)).
  by destruct (sanitize_field (key, value)).
Qed.

Lemma sanitize_array values :
  sanitize_runtime_value (Array values)
  = (Array (map (λ v, fst (sanitize_runtime_value v)) values),
     existsb (λ v, snd (sanitize_runtime_value v)) values).
Proof.
  cbn [sanitize_runtime_value].
  set (go := fix go input := match input with [] => _ | _ => _ end).
  assert (go values = (map (λ v, fst (sanitize_runtime_value v)) values,
                       existsb (λ v, snd (sanitize_runtime_value v)) values)) as ->; [|done].
  induction values as [|value values IH]; [done|]. cbn [go map existsb]. rewrite IH.
  by destruct (sanitize_runtime_value value).
Qed.

(** What has been sanitised is left alone. *)
Lemma sanitize_runtime_value_again value :
  fst (sanitize_runtime_value (fst (sanitize_runtime_value value))) = fst (sanitize_runtime_value value).
Proof.
  induction value as [|b|t|s|vs IH|fs IH] using value_nested_ind; try done.
  - cbn [sanitize_runtime_value]. pose proof (sanitize_runtime_text_again s) as H.
    destruct (sanitize_runtime_text s) as [s' r]. cbn [fst sanitize_runtime_value] in *. by rewrite H.
  - rewrite sanitize_array. cbn [fst]. rewrite sanitize_array. cbn [fst]. f_equal. rewrite map_map.
    induction IH as [|v vs Hv _ IH]; [done|]. cbn [map]. by rewrite Hv, IH.
  - rewrite sanitize_object. cbn [fst]. rewrite sanitize_object. cbn [fst]. f_equal. rewrite map_map.
    induction IH as [|[k v] fs Hv _ IH]; [done|]. cbn [map fst snd] in *. rewrite IH. do 2 f_equal.
    unfold sanitize_field. cbn [fst snd]. destruct (is_runtime_binary_key _) eqn:Ek; [done|].
    destruct (is_str _ _) eqn:Es; cbn [andb]; [|by cbn [snd]].
    destruct (is_true_value v) eqn:Et; cbn [fst snd]; [by rewrite Et|].
    destruct (is_true_value (fst _)); cbn [fst]; [done|apply Hv].
Qed.

(** A value that is not reported is not changed. *)
Lemma unreported_unchanged value :
  snd (sanitize_runtime_value value) = false → fst (sanitize_runtime_value value) = value.
Proof.
  induction value as [|b|t|s|vs IH|fs IH] using value_nested_ind; try done.
  - cbn [sanitize_runtime_value]. unfold sanitize_runtime_text. by destruct (_ && _).
  - rewrite sanitize_array. cbn [fst snd]. rewrite existsb_false. intros H. f_equal.
    induction IH as [|v vs Hv _ IH]; [done|]. cbn [map].
    rewrite Hv, IH; [done|intros x Hx; apply H; by right|apply H; by left].
  - rewrite sanitize_object. cbn [fst snd]. rewrite existsb_false. intros H. f_equal.
    induction IH as [|[k v] fs Hv _ IH]; [done|]. cbn [map fst].
    rewrite IH by (intros x Hx; apply H; by right). do 2 f_equal. specialize (H (k, v) ltac:(by left)).
    unfold sanitize_field in *. cbn [fst snd] in *.
    destruct (is_runtime_binary_key _); [done|]. destruct (_ && _); [done|by apply Hv].
Qed.

Lemma ensure_no_binary_text_Ok label value u :
  ensure_no_binary_text label value = Ok u ↔ snd (sanitize_runtime_text value) = false.
Proof. unfold ensure_no_binary_text, binary_material. destruct (snd _), u; naive_solver. Qed.

Lemma ensure_no_binary_value_Ok label value u :
  ensure_no_binary_value label value = Ok u ↔ fst (sanitize_runtime_value value) = value.
Proof.
  rewrite <-value_eqb_eq. unfold ensure_no_binary_value, binary_material.
  destruct (value_eqb _ _), u; naive_solver.
Qed.

Lemma visible_app_l s t : visible s → visible (s ++ t).
Proof. intros (c & Hc & Hw). exists c. rewrite elem_of_app. auto. Qed.

Lemma visible_app_r s t : visible t → visible (s ++ t).
Proof. intros (c & Hc & Hw). exists c. rewrite elem_of_app. auto. Qed.

Lemma marker_visible : visible BINARY_OMITTED_MARKER.
Proof. exists 91%N. split; [by left|done]. Qed.

Lemma sanitized_visible s : visible s → visible (fst (sanitize_runtime_text s)).
Proof. unfold sanitize_runtime_text. destruct (_ && _); [intros _; apply marker_visible|done]. Qed.

Lemma sanitized_clean s : clean_text (fst (sanitize_runtime_text s)).
Proof. unfold clean_text. by rewrite sanitize_runtime_text_again. Qed.

Lemma redact_from_spec fuel s :
  if snd (redact_from fuel s) then visible (fst (redact_from fuel s))
  else fst (redact_from fuel s) = s.
Proof.
  revert s. induction fuel as [|fuel IH]; intros s; [done|]. cbn [redact_from].
  destruct (find_str (to_ascii_lowercase s) "data:") as [start|]; [|done]. cbv zeta.
  destruct (find_str (take_utf8 512 _) ";base64,") as [marker|].
  - destruct (redact_from fuel _) as [output b]. cbn [fst snd].
    apply visible_app_r, visible_app_l, marker_visible.
  - specialize (IH (drop 5 (drop start s))). destruct (redact_from fuel _) as [output b].
    cbn [fst snd] in *. destruct b; [by do 2 apply visible_app_r|].
    by rewrite IH, take_drop, take_drop.
Qed.

Lemma bounded_visible s limit tail :
  visible s → visible (fst (sanitize_and_bound_text s limit tail)).
Proof.
  intros Hs. unfold sanitize_and_bound_text.
  assert (visible (fst (redact_binary_text s))) as Hr.
  { unfold redact_binary_text. destruct (str_eqb _ _); [done|].
    pose proof (redact_from_spec (length s) s) as H. destruct (redact_from (length s) s) as [output b].
    cbn [fst snd] in *. destruct (negb b && _); [apply marker_visible|]. by destruct b; [|rewrite H]. }
  destruct (redact_binary_text s) as [t b]. cbn [fst] in *. unfold truncate_text.
  destruct (N.of_nat (length t) <=? limit)%N; cbn [fst]; [done|].
  destruct tail; [apply visible_app_l; exists 91%N; by split; [left|]|]. apply visible_app_r. exists 46%N. split; [|done]. vm_compute. by right; left.
Qed.


(** ** Texts that stay clean *)

Definition data_start (s : rstr) : bool := starts_with (to_ascii_lowercase (trim_start s)) "data:".
Definition base64_marked (s : rstr) : bool := contains (to_ascii_lowercase s) ";base64,".

Lemma clean_text_iff s : clean_text s ↔ (data_start s = true → base64_marked s = false).
Proof.
  unfold clean_text, sanitize_runtime_text. fold (data_start s). fold (base64_marked s).
  destruct (data_start s), (base64_marked s); naive_solver.
Qed.

Lemma contains_app s lit : contains s lit = true ↔ ∃ a b, s = a ++ rs lit ++ b.
Proof.
  split.
  - induction s as [|c s IH]; cbn [contains]; rewrite orb_true_iff, starts_with_app.
    + intros [[r E]|[=]]. by exists [], r.
    + intros [[r E]|H]; [by exists [], r|]. destruct (IH H) as (a & b & ->). by exists (c :: a), b.
  - intros (a & b & ->). induction a as [|c a IH]; cbn [app].
    + destruct (rs lit ++ b) eqn:E; cbn [contains]; rewrite <-E; apply orb_true_iff; left;
        apply starts_with_app; by exists b.
    + cbn [contains]. rewrite IH. apply orb_true_r.
Qed.

(** A prefix that avoids a char lies before it. *)
Lemma prefix_avoids (p x y b : rstr) c : c ∉ p → x ++ c :: y = p ++ b → ∃ b', x = p ++ b'.
Proof.
  revert x. induction p as [|d p IH]; intros x Hc E; [by exists x|].
  destruct x as [|e x]; cbn in E; injection E as E1 E2.
  - subst. destruct Hc. by left.
  - subst. apply IH in E2 as [b' ->]; [by exists b'|]. set_solver.
Qed.

Lemma avoids c lit : is_in lit c = false → c ∉ rs lit.
Proof.
  unfold is_in. rewrite existsb_false. intros H Hc. specialize (H c Hc). by rewrite N.eqb_refl in H.
Qed.

Lemma contains_split x c y lit : is_in lit c = false →
  contains (x ++ c :: y) lit = true → contains x lit = true ∨ contains y lit = true.
Proof.
  intros Hc%avoids H%contains_app. destruct H as (a & b & E). revert a E.
  induction x as [|d x IH]; intros a E; cbn [app] in E.
  - right. apply contains_app. destruct a as [|e a]; cbn [app] in E.
    + destruct (rs lit) as [|l ls] eqn:El; cbn [app] in E.
      * by exists [], y.
      * injection E as -> _. destruct Hc. by left.
    + injection E as -> ->. by exists a, b.
  - destruct a as [|e a]; cbn [app] in E.
    + left. change (d :: x ++ c :: y) with ((d :: x) ++ c :: y) in E.
      apply prefix_avoids in E as [b' E]; [|done]. apply contains_app. exists [], b'. exact E.
    + injection E as <- E. destruct (IH a E) as [H|H]; [|by right]. left. cbn [contains].
      rewrite H. apply orb_true_r.
Qed.

Lemma contains_weaken a x b lit : contains x lit = true → contains (a ++ x ++ b) lit = true.
Proof.
  rewrite !contains_app. intros (u & v & ->). exists (a ++ u), (v ++ b). by rewrite <-!app_assoc.
Qed.

Lemma lower_app s t : to_ascii_lowercase (s ++ t) = to_ascii_lowercase s ++ to_ascii_lowercase t.
Proof. apply map_app. Qed.

(** ** Markers in place of text *)

(** The second text is the first with the marker in place of some parts. *)
Inductive spliced : rstr → rstr → Prop :=
| spliced_same s : spliced s s
| spliced_cut a b s t : spliced s t → spliced (a ++ b ++ s) (a ++ BINARY_OMITTED_MARKER ++ t).

Lemma spliced_app a s t : spliced s t → spliced (a ++ s) (a ++ t).
Proof.
  intros [u|b c u v H]; [constructor|]. rewrite !(app_assoc a b). by constructor.
Qed.

Lemma spliced_marked s t : spliced s t → base64_marked t = true → base64_marked s = true.
Proof.
  unfold base64_marked. induction 1 as [|a b s t _ IH]; [done|]. rewrite !lower_app. intros H.
  change (to_ascii_lowercase BINARY_OMITTED_MARKER)
    with (91%N :: to_ascii_lowercase (rs "binary/base64 omitted") ++ [93%N]) in H.
  cbn [app] in H. apply contains_split in H as [H|H]; [by apply (contains_weaken [])| |done].
  rewrite <-app_assoc in H. cbn [app] in H. apply contains_split in H as [H|H]; [|apply IH in H|done].
  - vm_compute in H. discriminate H.
  - rewrite app_assoc, <-(app_nil_r (to_ascii_lowercase s)). by apply contains_weaken.
Qed.

Lemma drop_while_app {A} (p : A → bool) a b :
  drop_while p (a ++ b) = if forallb p a then drop_while p b else drop_while p a ++ b.
Proof. induction a as [|x a IH]; [done|]. cbn. by destruct (p x). Qed.

(** What is put after a text, from a visible char on that is not in [data:], does
    not make it start a data URL. *)
Lemma data_start_app a c y b :
  is_in "data:" (char_to_ascii_lowercase c) = false →
  data_start (drop_while is_whitespace (c :: y)) = false →
  data_start (a ++ c :: y) = true → data_start (a ++ b) = true.
Proof.
  unfold data_start, trim_start, trim_start_matches. intros Hc Hy. rewrite !drop_while_app.
  destruct (forallb is_whitespace a).
  - intros H. assert (∀ l : rstr, drop_while is_whitespace (drop_while is_whitespace l)
      = drop_while is_whitespace l) as Hidem.
    { induction l as [|x l IH]; [done|]. cbn. destruct (is_whitespace x) eqn:E; [done|]. cbn. by rewrite E. }
    rewrite Hidem in Hy. congruence.
  - rewrite !lower_app, !starts_with_app. intros [r H]. cbn [to_ascii_lowercase map] in H.
    apply prefix_avoids in H as [b' ->]; [|by apply avoids]. eexists. by rewrite <-app_assoc.
Qed.

Lemma spliced_data_start s t : spliced s t → data_start t = true → data_start s = true.
Proof.
  intros [u|a b u v _]; [done|]. apply data_start_app; [done|]. by vm_compute.
Qed.

Lemma spliced_clean s t : spliced s t → clean_text s → clean_text t.
Proof.
  rewrite !clean_text_iff. intros H Hs Ht. apply (spliced_data_start _ _ H) in Ht. specialize (Hs Ht).
  destruct (base64_marked t) eqn:E; [|done]. apply (spliced_marked _ _ H) in E. congruence.
Qed.

Lemma redact_from_spliced fuel s : spliced s (fst (redact_from fuel s)).
Proof.
  revert s. induction fuel as [|fuel IH]; intros s; [constructor|]. cbn [redact_from].
  destruct (find_str (to_ascii_lowercase s) "data:") as [start|]; [|constructor]. cbv zeta.
  destruct (find_str (take_utf8 512 _) ";base64,") as [marker|].
  - set (payload := drop (marker + 8) (drop start s)). specialize (IH (drop_while is_base64_char payload)).
    destruct (redact_from fuel _) as [output b]. cbn [fst] in *.
    assert (s = take start s ++ (take (marker + 8) (drop start s) ++ take_while is_base64_char payload)
                ++ drop_while is_base64_char payload) as E.
    { rewrite <-app_assoc, take_drop_while. unfold payload. by rewrite take_drop, take_drop. }
    rewrite E at 1. by constructor.
  - specialize (IH (drop 5 (drop start s))). destruct (redact_from fuel _) as [output b]. cbn [fst] in *.
    rewrite <-(take_drop start s) at 1. apply spliced_app.
    rewrite <-(take_drop 5 (drop start s)) at 1. by apply spliced_app.
Qed.

Lemma redact_clean s : clean_text s → clean_text (fst (redact_binary_text s)).
Proof.
  intros Hs. unfold redact_binary_text. destruct (str_eqb _ _); [done|].
  pose proof (redact_from_spliced (length s) s) as H. destruct (redact_from _ s) as [output b].
  cbn [fst] in H. destruct (negb b && _); [by vm_compute|]. by apply (spliced_clean s).
Qed.

(** The sanitizer of what is displayed keeps clean text clean. *)
Lemma bounded_clean s limit tail : clean_text s → clean_text (fst (sanitize_and_bound_text s limit tail)).
Proof.
  intros Hs%redact_clean. unfold sanitize_and_bound_text. destruct (redact_binary_text s) as [t b].
  cbn [fst] in Hs. unfold truncate_text. destruct (_ <=? limit)%N; [done|]. rewrite clean_text_iff in Hs.
  destruct tail; cbn [fst]; apply clean_text_iff.
  - intros H. apply (data_start_app [] _ _ []) in H; [discriminate H|done|by vm_compute].
  - intros H. rewrite <-(take_drop (N.to_nat limit) t) in Hs.
    apply (data_start_app _ _ _ (drop (N.to_nat limit) t)) in H; [|done|by vm_compute].
    specialize (Hs H). destruct (base64_marked (take _ t ++ TRUNCATED_SUFFIX)) eqn:E; [|done].
    unfold base64_marked in *. rewrite lower_app in E. apply contains_split in E as [E|E]; [| |done].
    + apply (contains_weaken [] _ (to_ascii_lowercase (drop (N.to_nat limit) t))) in E.
      cbn [app] in E. rewrite lower_app in Hs. congruence.
    + vm_compute in E. discriminate E.
Qed.

(** * What the projection keeps

    The projection of clean values is clean, so that it does not put in the
    history what the checks of the trace refuse. *)

(** ** Clean values *)

Lemma clean_string s : clean_value (String s) ↔ clean_text s.
Proof.
  unfold clean_value, clean_text. cbn [sanitize_runtime_value].
  unfold sanitize_runtime_text. destruct (starts_with _ _ && contains _ _) eqn:E; cbn [fst snd]; [|by split].
  split; [|done]. intros [= <-]. by vm_compute in E.
Qed.

Lemma clean_array vs : clean_value (Array vs) ↔ Forall clean_value vs.
Proof.
  unfold clean_value. rewrite sanitize_array. cbn [fst]. induction vs as [|v vs IH].
  - by split.
  - rewrite Forall_cons, <-IH. cbn [map]. split; [by intros [= -> ->]|by intros [-> [= ->]]].
Qed.

Definition clean_field (f : rstr * Value) : Prop :=
  (is_runtime_binary_key (canonical_key (fst f)) = true → snd f = String BINARY_OMITTED_MARKER)
  ∧ clean_value (snd f).

Lemma sanitize_field_same f : fst (sanitize_field f) = snd f ↔ clean_field f.
Proof.
  unfold sanitize_field, clean_field. destruct f as [k v]. cbn [fst snd].
  destruct (is_runtime_binary_key _); cbn [fst].
  - split; [by intros <-|]. intros [H _]. by rewrite H.
  - destruct (is_str _ _ && is_true_value v) eqn:E; cbn [fst].
    + apply andb_true_iff in E as [_ E]. by destruct v as [|[]| | | |].
    + unfold clean_value. naive_solver.
Qed.

Lemma clean_object fs : clean_value (Object fs) ↔ Forall clean_field fs.
Proof.
  unfold clean_value at 1. rewrite sanitize_object. cbn [fst].
  rewrite <-(Forall_iff _ _ _ sanitize_field_same). induction fs as [|[k v] fs IH].
  - by split.
  - rewrite Forall_cons, <-IH. cbn [map fst snd].
    split; [intros [= H1 H2]|intros [H1 [= H2]]]; [by rewrite H1, H2|by rewrite H1, H2].
Qed.

Lemma clean_marker : clean_value (String BINARY_OMITTED_MARKER).
Proof. by vm_compute. Qed.

Lemma clean_omitted :
  clean_value (fst (String (rs "[nested value omitted from conversation history]"), true)).
Proof. by vm_compute. Qed.

Lemma binary_key_wider k : is_runtime_binary_key k = true → is_binary_key k = true.
Proof. unfold is_runtime_binary_key, is_binary_key. intros ->. done. Qed.

(** The text [sanitize_and_bound_text] makes of a clean text, as a value. *)
Lemma clean_bounded_text s limit tail :
  clean_text s → clean_value (String (fst (sanitize_and_bound_text s limit tail))).
Proof. intros H. by apply clean_string, bounded_clean. Qed.

Lemma bound_value_clean v limit depth : clean_value v → clean_value (fst (bound_value v limit depth)).
Proof.
  revert depth. induction v as [|b|t|s|vs IH|fs IH] using value_nested_ind; intros depth Hv;
    cbn [bound_value]; (destruct (GENERIC_DEPTH <=? depth); [apply clean_omitted|]); [done|done|done|..].
  - apply clean_string in Hv. pose proof (clean_bounded_text s limit false Hv) as H.
    by destruct (sanitize_and_bound_text s limit false).
  - apply clean_array in Hv. set (go := fix go items input := match items with O => _ | S _ => _ end).
    assert (∀ n, Forall clean_value (fst (go n vs))) as H.
    { induction IH as [|v vs Hb _ IH]; intros [|n]; cbn [go fst]; try done.
      apply Forall_cons in Hv as [Hv Hvs]. specialize (IH Hvs n). destruct (go n vs) as [output b].
      specialize (Hb (S depth) Hv). destruct (bound_value v limit (S depth)) as [w b'].
      cbn [fst] in *. by constructor. }
    specialize (H GENERIC_ARRAY_ITEMS). destruct (go GENERIC_ARRAY_ITEMS vs) as [output b]. by apply clean_array.
  - apply clean_object in Hv. set (go := fix go fields input := match fields with O => _ | S _ => _ end).
    assert (∀ n, Forall clean_field (fst (go n fs))) as H.
    { induction IH as [|[k v] fs Hb _ IH]; intros [|n]; cbn [go fst]; try done.
      apply Forall_cons in Hv as [[Hk Hv] Hfs]. specialize (IH Hfs n). destruct (go n fs) as [output b].
      cbn [fst snd] in *. destruct (is_hidden_reasoning_key k); [done|].
      destruct (is_binary_key (canonical_key k)) eqn:Ek; cbn [fst].
      { constructor; [split; [done|apply clean_marker]|done]. }
      destruct (is_str _ _ && is_true_value v); cbn [fst]; [by constructor|].
      specialize (Hb (S depth) Hv). destruct (bound_value v limit (S depth)) as [w b'].
      cbn [fst] in *. constructor; [split|]; [|done..]. cbn [fst]. intros E%binary_key_wider. congruence. }
    specialize (H GENERIC_OBJECT_FIELDS). destruct (go GENERIC_OBJECT_FIELDS fs) as [output b].
    by apply clean_object.
Qed.

(** ** Fields *)

Lemma map_insert_Forall {A} (P : rstr * A → Prop) key v fields :
  P (key, v) → Forall P fields → Forall P (map_insert key v fields).
Proof.
  intros Hv. induction 1 as [|[k w] fields Hw Hf IH]; cbn [map_insert]; [by constructor|].
  destruct (str_eqb key k); [by constructor|]. destruct (str_leb key k); by repeat constructor.
Qed.

Lemma map_remove_Forall {A} (P : rstr * A → Prop) key fields :
  Forall P fields → Forall P (map_remove key fields).
Proof.
  intros H. unfold map_remove. induction H as [|f fields Hf _ IH]; [constructor|]. cbn.
  destruct (negb _); [by constructor|done].
Qed.

Lemma map_or_insert_Forall {A} (P : rstr * A → Prop) key v fields :
  P (key, v) → Forall P fields → Forall P (map_or_insert key v fields).
Proof. intros. unfold map_or_insert. destruct (contains_key key fields); [done|by apply map_insert_Forall]. Qed.

Abbreviation clean_fields := (Forall clean_field).

Definition safe_key (key : string) : bool := negb (is_runtime_binary_key (canonical_key (rs key))).

Lemma safe_field key v : safe_key key = true → clean_value v → clean_field (rs key, v).
Proof. intros Hk%negb_true_iff Hv. split; [|done]. cbn [fst]. congruence. Qed.

Lemma get_clean input key v : clean_fields input → map_get key input = Some v → clean_value v.
Proof. intros H Hv%map_get_elem. rewrite Forall_forall in H. by apply (H _ Hv). Qed.

Lemma str_at_clean input key s : clean_fields input → str_at key input = Some s → clean_text s.
Proof.
  intros H. unfold str_at. destruct (map_get _ input) as [v|] eqn:E; [|done]. apply get_clean in E; [|done].
  destruct v; try done. cbn. intros [= <-]. by apply clean_string.
Qed.

Lemma array_at_clean input key vs : clean_fields input → array_at key input = Some vs → Forall clean_value vs.
Proof.
  intros H. unfold array_at. destruct (map_get _ input) as [v|] eqn:E; [|done]. apply get_clean in E; [|done].
  destruct v; try done. cbn. intros [= <-]. by apply clean_array.
Qed.

Lemma first_of_clean input keys v : clean_fields input → first_of keys input = Some v → clean_value v.
Proof.
  intros H. unfold first_of. induction keys as [|key keys IH]; [done|]. cbn [omap list_omap].
  destruct (map_get (rs key) input) as [w|] eqn:E; [|done]. cbn. intros [= <-]. by apply (get_clean input (rs key)).
Qed.

Lemma first_text_clean input keys s :
  clean_fields input → first_of keys input ≫= as_str = Some s → clean_text s.
Proof.
  intros H. destruct (first_of keys input) as [v|] eqn:E; [|done]. apply first_of_clean in E; [|done].
  destruct v; try done. cbn. intros [= <-]. by apply clean_string.
Qed.

Lemma put_clean key v p :
  safe_key key = true → clean_value v → clean_fields (fst p) → clean_fields (fst (put key v p)).
Proof. intros Hk Hv Hp. apply map_insert_Forall; [by apply safe_field|done]. Qed.

Lemma mark_clean cut p : clean_fields (fst p) → clean_fields (fst (mark cut p)).
Proof. done. Qed.

Lemma finish_clean p : clean_fields (fst p) → clean_value (fst (finish_object p)).
Proof. intros H. by apply clean_object. Qed.

Lemma copy_clean input fields p :
  clean_fields input → forallb (λ f, safe_key (fst f)) fields = true → clean_fields (fst p) →
  clean_fields (fst (copy_bounded_fields input fields p)).
Proof.
  intros Hin. unfold copy_bounded_fields. revert p. induction fields as [|[key limit] fields IH]; [done|].
  intros p [Hk Hks]%andb_true_iff Hp. cbn [foldl]. apply IH; [done|]. unfold copy_bounded_field. cbn [fst snd].
  destruct (map_get (rs key) input) as [v|] eqn:E; [|done].
  pose proof (bound_value_clean v limit 0 (get_clean _ _ _ Hin E)) as H.
  destruct (bound_value v limit 0). by apply mark_clean, put_clean.
Qed.

Lemma clean_empty : clean_fields (fst (([], false) : Projection)).
Proof. constructor. Qed.

Lemma on_object_clean project v :
  (∀ input, clean_fields input → clean_value (fst (project input))) →
  clean_value v → clean_value (fst (on_object project v)).
Proof.
  intros Hp Hv. destruct v; try (by apply bound_value_clean). apply Hp. by apply clean_object.
Qed.

Lemma generic_clean v : clean_value v → clean_value (fst (project_generic_value v)).
Proof. apply bound_value_clean. Qed.

Create HintDb clean.
#[local] Hint Resolve put_clean mark_clean finish_clean copy_clean clean_empty generic_clean
  map_insert_Forall map_or_insert_Forall map_remove_Forall clean_bounded_text : clean.
#[local] Hint Extern 1 (safe_key _ = true) => (vm_compute; reflexivity) : clean.
#[local] Hint Extern 1 (forallb _ _ = true) => (vm_compute; reflexivity) : clean.
#[local] Hint Extern 1 (clean_value (Bool _)) => reflexivity : clean.
#[local] Hint Extern 1 (clean_value (Number _)) => reflexivity : clean.
#[local] Hint Extern 1 (clean_value (json_number _)) => reflexivity : clean.
#[local] Hint Extern 1 (clean_value (json_len _)) => reflexivity : clean.

(** ** Parts of the projections *)

Lemma put_summary_clean limit flag input p :
  safe_key flag = true → clean_fields input → clean_fields (fst p) →
  clean_fields (fst (put_summary limit flag input p)).
Proof.
  intros Hf Hin Hp. unfold put_summary. destruct (first_of _ input ≫= as_str) as [s|] eqn:E; [|done].
  apply first_text_clean in E; [|done]. pose proof (clean_bounded_text s limit false E) as H.
  destruct (sanitize_and_bound_text s limit false). auto with clean.
Qed.

Lemma put_truncated_clean input p : clean_fields (fst p) → clean_fields (fst (put_truncated input p)).
Proof. unfold put_truncated. auto with clean. Qed.

Lemma project_items_clean project limit items :
  (∀ v, clean_value v → clean_value (fst (project v))) → Forall clean_value items →
  clean_value (Array (fst (project_items project limit items))).
Proof.
  intros Hp Hi. apply clean_array. unfold project_items. cbn [fst]. rewrite map_map.
  apply Forall_fmap. apply (Forall_impl _ _ _ (Forall_take clean_value limit items Hi)). apply Hp.
Qed.

Lemma put_failed_clean input p :
  clean_fields input → clean_fields (fst p) → clean_fields (fst (put_failed_results input p)).
Proof.
  intros Hin Hp. unfold put_failed_results. destruct (array_at _ input) as [failed|] eqn:E; [|done].
  apply array_at_clean in E; [|done].
  pose proof (project_items_clean _ WEB_FAILED_RESULTS failed generic_clean E) as H.
  destruct (project_items _ _ _). auto with clean.
Qed.

Lemma selected_clean v fields :
  forallb (λ f, safe_key (fst f)) fields = true → clean_value v →
  clean_value (fst (project_selected_object v fields)).
Proof. intros Hf. apply on_object_clean. intros input Hin. apply finish_clean, copy_clean; auto with clean. Qed.

Lemma put_search_clean input p :
  clean_fields input → clean_fields (fst p) → clean_fields (fst (put_search_results input p)).
Proof.
  intros Hin Hp. unfold put_search_results. destruct (array_at _ input) as [results|] eqn:E; [|done].
  apply array_at_clean in E; [|done].
  pose proof (project_items_clean project_web_search_entry WEB_SEARCH_RESULTS results
    ltac:(intros; by apply selected_clean) E) as H.
  destruct (project_items _ _ _) as [selected cut]. cbn [fst] in H.
  apply mark_clean, put_clean; [done..|]. apply put_clean; [done| |done]. reflexivity.
Qed.

Lemma put_source_clean input p :
  clean_fields (fst p) → clean_fields (fst (put_source_truncated input p)).
Proof. intros Hp. unfold put_source_truncated. destruct (_ || _); auto with clean. Qed.

Lemma put_stream_clean source target flag input p :
  safe_key target = true → safe_key flag = true → clean_fields input → clean_fields (fst p) →
  clean_fields (fst (put_stream source target flag input p)).
Proof.
  intros Ht Hf Hin Hp. unfold put_stream. destruct (first_of _ input ≫= as_str) as [s|] eqn:E; [|done].
  apply first_text_clean in E; [|done]. pose proof (clean_bounded_text s COMMAND_OUTPUT_TAIL_CHARS true E) as H.
  destruct (sanitize_and_bound_text s _ true). auto with clean.
Qed.

Lemma put_generic_clean input p key :
  safe_key key = true → clean_fields input → clean_fields (fst p) →
  clean_fields (fst (put_generic input p key)).
Proof.
  intros Hk Hin Hp. unfold put_generic. destruct (map_get _ input) as [v|] eqn:E; [|done].
  apply get_clean in E; [|done]. apply generic_clean in E. destruct (project_generic_value v).
  auto with clean.
Qed.

Lemma put_running_clean input p :
  clean_fields input → clean_fields (fst p) → clean_fields (fst (put_running_output input p)).
Proof.
  intros Hin Hp. unfold put_running_output.
  destruct (str_at "output" input) as [s|] eqn:E; [|destruct (_ || _); auto with clean].
  apply str_at_clean in E; [|done]. pose proof (clean_bounded_text s COMMAND_OUTPUT_TAIL_CHARS true E) as H.
  destruct (sanitize_and_bound_text s _ true). cbv zeta. destruct (_ || _); auto 6 with clean.
Qed.

Lemma put_session_clean input p :
  clean_fields input → clean_fields (fst p) → clean_fields (fst (put_session_read input p)).
Proof.
  intros Hin Hp. unfold put_session_read. destruct (map_get _ input) as [v|] eqn:E; [|done].
  apply get_clean in E; [|done]. destruct v as [| | | | |read]; try done. apply clean_object in E.
  match goal with |- context [copy_bounded_fields read ?fields ?q] =>
    assert (clean_fields (fst (copy_bounded_fields read fields q))) as H by auto with clean
  end.
  destruct (copy_bounded_fields read _ _). apply clean_object in H. auto with clean.
Qed.

Lemma foldl_clean {A} (f : Projection → A → Projection) (l : list A) p :
  (∀ a q, a ∈ l → clean_fields (fst q) → clean_fields (fst (f q a))) →
  clean_fields (fst p) → clean_fields (fst (foldl f p l)).
Proof.
  revert p. induction l as [|a l IH]; [done|]. intros p Hf Hp. cbn [foldl]. apply IH.
  - intros b q Hb. apply Hf. by right.
  - apply Hf; [by left|done].
Qed.

(** ** Observations *)

Lemma web_fetch_clean v : clean_value v → clean_value (fst (project_web_fetch_result v)).
Proof.
  apply on_object_clean. intros input Hin.
  apply finish_clean, put_truncated_clean, put_failed_clean, put_summary_clean; auto with clean.
Qed.

Lemma web_search_clean v : clean_value v → clean_value (fst (project_web_search_result v)).
Proof.
  apply on_object_clean. intros input Hin.
  apply finish_clean, put_source_clean, put_search_clean; auto with clean.
Qed.

Lemma apply_patch_result_clean v : clean_value v → clean_value (fst (project_apply_patch_result v)).
Proof.
  apply on_object_clean. intros input Hin. apply finish_clean, foldl_clean; [|auto with clean].
  intros key q Hkey Hq. destruct (map_get _ input) as [w|] eqn:E; [|done]. apply get_clean in E; [|done].
  destruct (bool_decide _); [|done]. apply put_clean; [|done..].
  repeat (apply elem_of_cons in Hkey as [->|Hkey]; [done|]). by apply elem_of_nil in Hkey.
Qed.

Lemma run_command_clean v : clean_value v → clean_value (fst (project_run_command_result v)).
Proof.
  apply on_object_clean. intros input Hin. cbv zeta.
  destruct (is_str _ "rejected"); [apply finish_clean; auto with clean|].
  destruct (is_str _ "running"); [apply finish_clean, put_running_clean; auto with clean|].
  apply finish_clean, foldl_clean.
  - intros key q Hkey Hq. apply put_generic_clean; [|done..].
    repeat (apply elem_of_cons in Hkey as [->|Hkey]; [done|]). by apply elem_of_nil in Hkey.
  - apply put_stream_clean; [done..|]. apply put_stream_clean; auto with clean.
Qed.

Lemma command_session_clean v : clean_value v → clean_value (fst (project_command_session_result v)).
Proof.
  intros Hv. destruct v; try done. apply clean_object in Hv.
  apply finish_clean, mark_clean, put_session_clean; auto with clean.
Qed.

Lemma read_result_clean v : clean_value v → clean_value (fst (project_read_result v)).
Proof.
  apply on_object_clean. intros input Hin.
  apply finish_clean, put_truncated_clean, put_summary_clean; auto with clean.
Qed.

Lemma skill_resource_clean v : clean_value v → clean_value (fst (project_skill_resource_result v)).
Proof.
  apply on_object_clean. intros input Hin. apply finish_clean. destruct (_ || _); auto with clean.
Qed.

Lemma omit_items_clean p keys :
  safe_key (snd keys) = true → clean_fields (fst p) → clean_fields (fst (omit_items p keys)).
Proof.
  intros Hk Hp. destruct p as [metadata omitted], keys as [key count]. cbn [fst snd omit_items] in *.
  destruct (array_at key metadata); cbn [fst]; [|auto with clean].
  apply map_or_insert_Forall; [by apply safe_field|auto with clean].
Qed.

Lemma omit_content_clean metadata : clean_fields metadata → clean_fields (fst (omit_content metadata)).
Proof.
  intros H. unfold omit_content. destruct (str_at "content" metadata); cbn [fst]; [|auto with clean].
  do 2 (apply map_insert_Forall; [by apply safe_field|]). auto with clean.
Qed.

Lemma omit_hit_clean hit : clean_value hit → clean_value (fst (omit_hit hit)).
Proof. destruct hit; try done. rewrite clean_object. intros H. apply clean_object. auto with clean. Qed.

Lemma omit_hits_clean p : clean_fields (fst p) → clean_fields (fst (omit_hits p)).
Proof.
  intros H. unfold omit_hits. destruct (array_at "hits" (fst p)) as [hits|] eqn:E; [|done].
  apply array_at_clean in E; [|done]. apply map_insert_Forall; [|done]. apply safe_field; [done|].
  apply clean_array, Forall_fmap. apply (Forall_impl _ _ _ E). apply omit_hit_clean.
Qed.

Lemma omit_records_clean p : clean_fields (fst p) → clean_fields (fst (omit_records p)).
Proof.
  intros H. unfold omit_records. destruct (array_at "records" (fst p)); [|done].
  apply map_or_insert_Forall; [by apply safe_field|auto with clean].
Qed.

Lemma conversation_history_clean v :
  clean_value v → clean_value (fst (project_conversation_history_result v)).
Proof.
  apply on_object_clean. intros input Hin.
  assert (clean_fields (fst (foldl omit_items (omit_content input)
        [("turns", "returnedTurns"); ("results", "returnedTurns"); ("timeline", "returnedRecords")]%string
      |> omit_turn |> omit_hits |> omit_records))) as H.
  { apply omit_records_clean, omit_hits_clean. apply map_remove_Forall.
    apply foldl_clean; [|by apply omit_content_clean]. intros keys q Hk Hq. apply omit_items_clean; [|done].
    repeat (apply elem_of_cons in Hk as [->|Hk]; [done|]). by apply elem_of_nil in Hk. }
  destruct (_ |> omit_records) as [metadata omitted]. cbn [fst] in H.
  set (metadata' := if omitted then _ else _).
  assert (clean_fields metadata') as H'.
  { unfold metadata'. destruct omitted; [|done]. apply map_insert_Forall; [by apply safe_field|done]. }
  apply clean_object, generic_clean in H'. cbv zeta. by destruct (project_generic_value (Object metadata')).
Qed.

Section Services.
Context {json : JsonServices} (sha256_hex : list N → rstr).

Lemma digest_clean domain value : clean_value (String (digest_bytes sha256_hex domain value)).
Proof.
  apply clean_string, clean_text_iff. unfold digest_bytes. intros H.
  apply (data_start_app [] _ _ []) in H; [discriminate H|done|reflexivity].
Qed.

Lemma put_change_clean input p :
  clean_fields input → clean_fields (fst p) → clean_fields (fst (put_change sha256_hex input p)).
Proof.
  intros Hin Hp. unfold put_change.
  destruct (str_at "content" input) as [content|].
  { apply mark_clean. do 3 (apply put_clean; [done|try done; by vm_compute|]).
    apply put_clean; [done|apply digest_clean|]. by apply put_clean. }
  destruct (array_at "edits" input) as [edits|].
  { destruct (structured_edit_stats edits). apply mark_clean.
    do 3 (apply put_clean; [done|try done; by vm_compute|]).
    apply put_clean; [done|apply digest_clean|]. by apply put_clean. }
  destruct (str_at "changeRepresentation" input) as [representation|] eqn:E; apply mark_clean.
  - apply str_at_clean in E; [|done]. do 2 (apply put_clean; [done|done|]).
    apply put_clean; [done|by apply clean_string|done].
  - do 2 (apply put_clean; [done|done|]). apply put_clean; [done| |done].
    destruct (bool_decide _); by vm_compute.
Qed.

Lemma clean_request fields : clean_fields fields → clean_value (obj [("request"%string, Object fields)]).
Proof.
  intros H. apply clean_object. constructor; [|constructor]. apply safe_field; [done|by apply clean_object].
Qed.

Lemma apply_patch_call_clean v :
  clean_value v → clean_value (fst (project_apply_patch_call sha256_hex v)).
Proof.
  intros Hv. unfold project_apply_patch_call. destruct (apply_patch_request v) as [input|] eqn:E.
  2: { apply clean_request. constructor. }
  assert (clean_fields input) as Hin.
  { unfold apply_patch_request in E. destruct v as [| | | | |fields]; try done. cbn [as_object mbind option_bind] in E.
    destruct (map_get (rs "request") fields) as [r|] eqn:Er; [|done]. destruct r; try done.
    injection E as ->. apply clean_object in Hv. apply (get_clean _ _ _ Hv) in Er. by apply clean_object. }
  destruct (negb _ && negb _); [apply clean_request; constructor|].
  match goal with |- context [put_change sha256_hex input ?q] =>
    assert (clean_fields (fst (put_change sha256_hex input q))) as H
      by (apply put_change_clean; [done|]; apply copy_clean; auto with clean);
    destruct (put_change sha256_hex input q)
  end.
  by apply clean_request.
Qed.

Lemma tool_call_clean tool v : clean_value v → clean_value (fst (project_tool_call sha256_hex tool v)).
Proof.
  intros Hv. unfold project_tool_call.
  destruct (is_str tool "web_fetch"); [by apply selected_clean|].
  destruct (is_str tool "web_search"); [by apply selected_clean|].
  destruct (is_str tool "apply_patch"); [by apply apply_patch_call_clean|].
  destruct (is_str tool "run_command"); [apply sanitize_runtime_value_again|].
  destruct (is_manually_audited_operation tool); [apply sanitize_runtime_value_again|].
  destruct (is_read_tool tool); [by apply selected_clean|by apply generic_clean].
Qed.

Lemma observation_clean tool v : clean_value v → clean_value (fst (project_observation tool v)).
Proof.
  intros Hv. unfold project_observation, project_human_interaction_response.
  destruct (is_str tool "request_user_input"); [destruct (valid_value v); [done|by apply generic_clean]|].
  destruct (is_str tool "web_fetch"); [by apply web_fetch_clean|].
  destruct (is_str tool "web_search"); [by apply web_search_clean|].
  destruct (is_str tool "apply_patch"); [by apply apply_patch_result_clean|].
  destruct (is_str tool "run_command"); [by apply run_command_clean|].
  destruct (is_str tool "command_session"); [by apply command_session_clean|].
  destruct (is_str tool "conversation_history"); [by apply conversation_history_clean|].
  destruct (is_str tool "skills_read_resource"); [by apply skill_resource_clean|].
  destruct (is_read_tool tool); [by apply read_result_clean|by apply generic_clean].
Qed.

Lemma project_error_clean error :
  (∀ s, error = Some s → clean_text s) → ∀ s, fst (project_error error) = Some s → clean_text s.
Proof.
  intros He s. destruct error as [t|]; [|done]. cbn.
  pose proof (bounded_clean t TOOL_ERROR_CHARS false (He t eq_refl)) as H.
  destruct (sanitize_and_bound_text t _ _). by intros [= <-].
Qed.
End Services.
