(* ===== verification/TraceValidation.v ===== *)
(** * Validation of a conversation trace

    [core/src/conversation_trace/incremental_validation.rs], and the methods of
    traces and snapshots of [validation.rs] next to it.

    The state keeps what the checks across items need; [append] leaves the
    default state behind when it fails, since it takes the state out first. *)

From stdpp Require Import pretty.
From S2P Require Import Prelude RustText Json TraceSanitizer TraceItems.

Definition refuse {A} (message : string) : result rstr A := Err (rs message).
Arguments refuse {A} message%_string_scope.

Definition ensure (condition : bool) (message : string) : result rstr () :=
  refuse_if (negb condition) (rs message).
Arguments ensure condition message%_string_scope.

(** ** The state *)

Record ConversationTraceValidationState := mkState {
  previous_sequence : option N;
  pending_call : option (rstr * rstr * bool);
  call_ids : gset rstr;
  command_call_ids : gset rstr;
  command_sessions : gmap rstr (rstr * bool);
  context_compactions : gmap rstr bool;
  backend_state_ids : gset rstr;
  context_material_ids : gset rstr;
}.

Abbreviation State := ConversationTraceValidationState.

Definition default_validation_state : State := mkState None None ∅ ∅ ∅ ∅ ∅ ∅.

Definition set_previous_sequence (s : N) (st : State) : State :=
  mkState (Some s) (pending_call st) (call_ids st) (command_call_ids st) (command_sessions st)
    (context_compactions st) (backend_state_ids st) (context_material_ids st).

Definition set_pending_call (call : option (rstr * rstr * bool)) (st : State) : State :=
  mkState (previous_sequence st) call (call_ids st) (command_call_ids st) (command_sessions st)
    (context_compactions st) (backend_state_ids st) (context_material_ids st).

Definition set_call_ids (ids commands : gset rstr) (st : State) : State :=
  mkState (previous_sequence st) (pending_call st) ids commands (command_sessions st)
    (context_compactions st) (backend_state_ids st) (context_material_ids st).

Definition set_command_sessions (sessions : gmap rstr (rstr * bool)) (st : State) : State :=
  mkState (previous_sequence st) (pending_call st) (call_ids st) (command_call_ids st) sessions
    (context_compactions st) (backend_state_ids st) (context_material_ids st).

Definition set_context_compactions (operations : gmap rstr bool) (st : State) : State :=
  mkState (previous_sequence st) (pending_call st) (call_ids st) (command_call_ids st)
    (command_sessions st) operations (backend_state_ids st) (context_material_ids st).

Definition set_event_ids (states materials : gset rstr) (st : State) : State :=
  mkState (previous_sequence st) (pending_call st) (call_ids st) (command_call_ids st)
    (command_sessions st) (context_compactions st) states materials.

(** ** One item *)

Definition is_nil {A} (l : list A) : bool := match l with [] => true | _ => false end.

Definition closed (st : State) : bool := bool_decide (pending_call st = None).

(** The attachments of user guidance, with the ids already met. *)
Fixpoint validate_attachments (attachment_ids : list rstr)
    (attachments : list ConversationTraceAttachment) : result rstr () :=
  match attachments with
  | [] => Ok ()
  | attachment :: attachments =>
      ensure (negb (is_blank (attached_id attachment)) && negb (is_blank (attached_name attachment))
              && negb (existsb (str_eqb (attached_id attachment)) attachment_ids))
        "conversation trace user guidance attachment is invalid";;
      check_some validate_pasted_text (attached_pasted_text attachment);;
      ensure_no_binary_text "user guidance attachment name" (attached_name attachment);;
      check_some (ensure_no_binary_text "user guidance attachment MIME type")
        (attached_mime_type attachment);;
      validate_attachments (attached_id attachment :: attachment_ids) attachments
  end.

Fixpoint validate_folder_references (references : list AgentFolderReference) : result rstr () :=
  match references with
  | [] => Ok ()
  | reference :: references =>
      match validate_folder_reference reference with
      | Ok _ => validate_folder_references references
      | Err error => Err (rs "conversation trace folder reference is invalid: " ++ error)
      end
  end.

Definition command_session_suffix_ok (session_id : rstr) : bool :=
  is_some_and (strip_prefix session_id "cmd_") (λ suffix,
    (text_len suffix =? 32)%N && forallb is_ascii_hexdigit suffix).

(** The first two checks of a lifecycle item: the call it belongs to, and its own identity. *)
Definition validate_lifecycle_identity (lifecycle : ConversationCommandSessionLifecycle)
    : result rstr () :=
  ensure
    (command_session_suffix_ok (session_id lifecycle)
     && negb (is_blank (lifecycle_call_id lifecycle))
     && (text_len (lifecycle_call_id lifecycle) <=? 1024)%N
     && negb (has_control (lifecycle_call_id lifecycle))
     && (0 <=? lifecycle_created_at lifecycle)%Z)
    "conversation trace command session lifecycle identity is invalid".

Definition started_item_ok (lifecycle : ConversationCommandSessionLifecycle) : bool :=
  match lifecycle_status lifecycle with SessionStarting | SessionRunning => true | _ => false end
  && bool_decide (exit_code lifecycle = None)
  && bool_decide (lifecycle_archive lifecycle = default_archive).

Definition terminal_item_ok (lifecycle : ConversationCommandSessionLifecycle) : bool :=
  session_is_terminal (lifecycle_status lifecycle)
  && (bool_decide (lifecycle_status lifecycle = SessionExited)
      || bool_decide (exit_code lifecycle = None)).

Definition validate_session_phase (lifecycle : ConversationCommandSessionLifecycle)
    (sessions : gmap rstr (rstr * bool)) : result rstr (gmap rstr (rstr * bool)) :=
  let id := session_id lifecycle in
  let call_id := lifecycle_call_id lifecycle in
  match phase lifecycle with
  | SessionStarted =>
      ensure (started_item_ok lifecycle) "conversation trace command session started item is invalid";;
      ensure (bool_decide (sessions !! id = None))
        "conversation trace contains duplicate command session start";;
      Ok (<[id := (call_id, false)]> sessions)
  | SessionTerminal =>
      ensure (terminal_item_ok lifecycle) "conversation trace command session terminal item is invalid";;
      ensure (is_none_or (sessions !! id) (λ session,
                str_eqb (fst session) call_id && negb (snd session)))
        "conversation trace command session terminal identity is inconsistent";;
      Ok (<[id := (call_id, true)]> sessions)
  end.

Definition validate_compaction_phase (phase : ConversationContextCompactionLifecyclePhase)
    (operation_id : rstr) (outcome : option AgentContextCompactionEventOutcome)
    (operations : gmap rstr bool) : result rstr (gmap rstr bool) :=
  match phase with
  | CompactionStarted =>
      ensure (bool_decide (outcome = None) && bool_decide (operations !! operation_id = None))
        "conversation trace context compaction start is invalid";;
      Ok (<[operation_id := false]> operations)
  | CompactionFinished =>
      match operations !! operation_id with
      | None => refuse "conversation trace context compaction finish is missing its start"
      | Some finished =>
          ensure (negb finished && bool_decide (is_Some outcome))
            "conversation trace context compaction finish is invalid";;
          Ok (<[operation_id := true]> operations)
      end
  end.

Section Services.
Context {services : TraceServices}.

Definition validate_tool_call (call_id tool : rstr) (provenance : AgentToolIdentity)
    (operation : Value) (st : State) : result rstr State :=
  ensure (closed st) "conversation trace contains an unresolved tool call";;
  ensure (negb (is_blank call_id) && is_provider_safe_tool_name tool)
    "conversation trace tool call identity is invalid";;
  validate_tool_identity tool provenance;;
  refuse_if (bool_decide (call_id ∈ call_ids st))
    (rs "conversation trace contains duplicate tool call id: " ++ call_id);;
  ensure_no_binary_value "tool operation" operation;;
  let unregistered := match provenance with Unregistered _ => true | _ => false end in
  Ok (st
      |> set_call_ids ({[call_id]} ∪ call_ids st)
           (if is_str tool "run_command" then {[call_id]} ∪ command_call_ids st
            else command_call_ids st)
      |> set_pending_call (Some (call_id, tool, unregistered))).

Definition validate_tool_result (call_id tool : rstr) (status : ConversationTraceToolResultStatus)
    (success : bool) (observation : Value) (error : option rstr)
    (archive : ConversationHistoryArchiveTraceMetadata) (st : State) : result rstr State :=
  match pending_call st with
  | None => refuse "conversation trace tool result has no matching call"
  | Some (expected_id, expected_tool, was_unregistered) =>
      ensure (str_eqb expected_id call_id && str_eqb expected_tool tool)
        "conversation trace tool result does not match its call";;
      ensure (Bool.eqb success (bool_decide (status = Succeeded)))
        "conversation trace tool result success/status is inconsistent";;
      ensure (negb (was_unregistered && success))
        "unregistered conversation trace tool call cannot succeed";;
      ensure_no_binary_value "tool observation" observation;;
      check_some (ensure_no_binary_text "tool error") error;;
      validate_archive archive;;
      Ok (set_pending_call None st)
  end.

Definition validate_session_lifecycle (lifecycle : ConversationCommandSessionLifecycle) (st : State)
    : result rstr State :=
  ensure (is_none_or (pending_call st) (λ call, str_eqb (fst (fst call)) (lifecycle_call_id lifecycle)))
    "conversation trace command session lifecycle does not match the pending tool call";;
  validate_lifecycle_identity lifecycle;;
  ensure (bool_decide (lifecycle_call_id lifecycle ∈ command_call_ids st))
    "conversation trace command session lifecycle references a missing run_command call";;
  sessions ← validate_session_phase lifecycle (command_sessions st);
  validate_archive (lifecycle_archive lifecycle);;
  Ok (set_command_sessions sessions st).

(** The arm of one item in the loop of [append]. *)
Definition validate_arm (item : ConversationTurnTraceItem) (st : State) : result rstr State :=
  match item with
  | ContextMaterial _ event_id material_kind content images created_at =>
      ensure (closed st) "context material cannot split a tool exchange";;
      validate_context_material event_id material_kind content images created_at;;
      ensure (bool_decide (event_id ∉ context_material_ids st))
        "context material event identity is duplicated";;
      Ok (set_event_ids (backend_state_ids st) ({[event_id]} ∪ context_material_ids st) st)
  | BackendState _ event_id content created_at _ =>
      ensure (closed st) "Backend state cannot split a tool exchange";;
      validate_backend_state event_id content created_at;;
      ensure (bool_decide (event_id ∉ backend_state_ids st))
        "Backend state event identity is duplicated";;
      Ok (set_event_ids ({[event_id]} ∪ backend_state_ids st) (context_material_ids st) st)
  | AssistantNarration _ content provider_turn_id first_tool_call_id _ =>
      validate_narration_binding provider_turn_id first_tool_call_id;;
      ensure (closed st) "conversation trace narration cannot split a tool exchange";;
      ensure (negb (is_blank content)) "conversation trace narration cannot be empty";;
      ensure_no_binary_text "assistant narration" content;;
      Ok st
  | UserGuidance _ guidance_id client_message_id content attachments references created_at _ =>
      ensure (closed st) "conversation trace user guidance cannot split a tool exchange";;
      ensure (negb (is_blank guidance_id) && negb (is_blank client_message_id)
              && negb (is_blank content && is_nil attachments && is_nil references)
              && (0 <=? created_at)%Z)
        "conversation trace user guidance identity is invalid";;
      ensure_no_binary_text "user guidance" content;;
      validate_attachments [] attachments;;
      validate_folder_references references;;
      Ok st
  | WorkflowDelivery _ input_id instance_id workflow_name content created_at _ =>
      ensure (closed st && negb (is_blank input_id) && negb (is_blank instance_id)
              && negb (is_blank workflow_name) && negb (is_blank content) && (0 <=? created_at)%Z)
        "conversation organization mail delivery has invalid identity or splits a tool exchange";;
      ensure_no_binary_text "organization mail delivery" content;;
      Ok st
  | AgentMailboxDelivery _ receipt_id message_id sender_agent_id sender_task_name sender_task_path
      _ content created_at _ =>
      ensure (closed st) "conversation trace Agent mailbox delivery cannot split a tool exchange";;
      ensure (negb (is_blank receipt_id) && negb (is_blank message_id)
              && negb (is_blank sender_agent_id) && negb (is_blank sender_task_name)
              && negb (is_blank sender_task_path) && negb (is_blank content) && (0 <=? created_at)%Z)
        "conversation trace Agent mailbox delivery identity is invalid";;
      ensure_no_binary_text "Agent mailbox delivery" content;;
      Ok st
  | ToolCall _ call_id tool provenance operation _ _ =>
      validate_tool_call call_id tool provenance operation st
  | ToolResult _ call_id tool status success observation _ error _ archive =>
      validate_tool_result call_id tool status success observation error archive st
  | CommandSessionLifecycle _ lifecycle => validate_session_lifecycle lifecycle st
  | ContextCompactionLifecycle _ phase operation_id outcome =>
      ensure (closed st) "conversation trace context compaction cannot split a tool exchange";;
      ensure (negb (is_blank operation_id) && (text_len operation_id <=? 2048)%N
              && negb (has_control operation_id))
        "conversation trace context compaction identity is invalid";;
      operations ← validate_compaction_phase phase operation_id outcome (context_compactions st);
      Ok (set_context_compactions operations st)
  | RuntimeError _ message _ code _ =>
      ensure (closed st) "conversation trace Runtime error cannot split a tool exchange";;
      ensure (negb (is_blank message)) "conversation trace Runtime error cannot be empty";;
      ensure_no_binary_text "Runtime error" message;;
      check_some (λ code,
        ensure (negb (is_blank code) && (text_len code <=? 128)%N)
          "conversation trace Runtime error code is invalid";;
        ensure_no_binary_text "Runtime error code" code) code;;
      Ok st
  end.

Definition validate_item (st : State) (item : ConversationTurnTraceItem) : result rstr State :=
  ensure (is_none_or (previous_sequence st) (λ previous, (previous <? sequence item)%N))
    "conversation trace sequence must be strictly increasing";;
  validate_arm item (set_previous_sequence (sequence item) st).

(** The loop of [append]. *)
Fixpoint validate_items (st : State) (items : list ConversationTurnTraceItem) : result rstr State :=
  match items with
  | [] => Ok st
  | item :: items => st ← validate_item st item; validate_items st items
  end.

(** What is checked after the last item. *)
Definition validate_end (st : State) (terminal_status : ConversationTurnTraceTerminalStatus)
    : result rstr () :=
  ensure (closed st || bool_decide (terminal_status = TurnInProgress))
    "conversation trace ends with an unresolved tool call";;
  ensure (negb (is_terminal terminal_status)
          || forallb snd (map_to_list (context_compactions st)))
    "terminal conversation trace contains an unfinished context compaction".

(** The result, and the state left behind. *)
Definition append (st : State) (items : list ConversationTurnTraceItem)
    (terminal_status : ConversationTurnTraceTerminalStatus) : result rstr () * State :=
  match (st ← validate_items st items; validate_end st terminal_status;; Ok st) with
  | Ok st => (Ok (), st)
  | Err message => (Err message, default_validation_state)
  end.

(** [ConversationTurnTrace::validate]. *)
Definition validate (trace : ConversationTurnTrace) : result rstr () :=
  refuse_if (negb (schema_version trace =? CONVERSATION_TURN_TRACE_SCHEMA_VERSION)%N)
    (rs "unsupported conversation trace schema version: " ++ rs (pretty (schema_version trace)));;
  ensure (negb (is_blank (run_id trace)) && negb (is_blank (conversation_id trace))
          && negb (is_blank (assistant_message_id trace)))
    "conversation trace identifiers cannot be empty";;
  ensure (negb (bool_decide (terminal_status trace = TurnInProgress)
                && bool_decide (is_Some (terminal_error trace))))
    "in-progress conversation trace cannot have a terminal error";;
  fst (append default_validation_state (items trace) (terminal_status trace)).

(** ** Recording a command session after the fact *)

Definition set_items (items : list ConversationTurnTraceItem) (trace : ConversationTurnTrace)
    : ConversationTurnTrace :=
  mkTrace (schema_version trace) (run_id trace) (conversation_id trace) (assistant_message_id trace)
    (terminal_status trace) (terminal_error trace) (trace_truncated trace) items.

Definition is_event_of (lifecycle : ConversationCommandSessionLifecycle)
    (item : ConversationTurnTraceItem) : bool :=
  match item with
  | CommandSessionLifecycle _ existing =>
      bool_decide (phase existing = phase lifecycle)
      && str_eqb (session_id existing) (session_id lifecycle)
  | _ => false
  end.

Definition is_same_event (lifecycle : ConversationCommandSessionLifecycle)
    (item : ConversationTurnTraceItem) : bool :=
  match item with CommandSessionLifecycle _ existing => bool_decide (existing = lifecycle) | _ => false end.

Definition next_sequence_of (items : list ConversationTurnTraceItem) : N :=
  match last items with
  | None => 0
  | Some item => N.min (sequence item + 1) u64_max
  end.

Definition append_command_session_lifecycle (trace : ConversationTurnTrace)
    (lifecycle : ConversationCommandSessionLifecycle) : result rstr N * ConversationTurnTrace :=
  match List.find (is_event_of lifecycle) (items trace) with
  | Some existing =>
      (if is_same_event lifecycle existing then Ok (sequence existing)
       else refuse "conversation trace command session lifecycle conflicts with existing audit",
       trace)
  | None =>
      let sequence := next_sequence_of (items trace) in
      let candidate := set_items (items trace ++ [CommandSessionLifecycle sequence lifecycle]) trace in
      match validate candidate with
      | Ok _ => (Ok sequence, candidate)
      | Err message => (Err message, trace)
      end
  end.
End Services.

(** ** Closed prefixes *)

Definition is_result_of (call_id : rstr) (item : ConversationTurnTraceItem) : bool :=
  match item with
  | ToolResult _ result_id _ _ _ _ _ _ _ _ => str_eqb result_id call_id
  | _ => false
  end.

(** The index of the last call that has no result after it. *)
Fixpoint unresolved_call_index (items : list ConversationTurnTraceItem) : option nat :=
  match items with
  | [] => None
  | item :: rest =>
      match unresolved_call_index rest with
      | Some index => Some (S index)
      | None =>
          match item with
          | ToolCall _ call_id _ _ _ _ _ =>
              if existsb (is_result_of call_id) rest then None else Some 0
          | _ => None
          end
      end
  end.

(** The items of [ConversationTraceSnapshot::committed_prefix]. *)
Definition committed_prefix (items : list ConversationTurnTraceItem) : list ConversationTurnTraceItem :=
  match unresolved_call_index items with
  | None => items
  | Some index => take index items
  end.

(** [ConversationTurnTrace::model_context_item_count]. *)
Definition model_context_item_count (trace : ConversationTurnTrace) : nat :=
  let unresolved :=
    if bool_decide (terminal_status trace = TurnInProgress) then unresolved_call_index (items trace)
    else None in
  length (List.filter is_model_visible
            (take (default (length (items trace)) unresolved) (items trace))).

(** The last call without a result anywhere in the trace, as
    [validate_complete_model_context], [committed_model_context_prefix] and the
    recorder look it up. *)
Definition unresolved_call (items : list ConversationTurnTraceItem)
    : option ConversationTurnTraceItem :=
  List.find (λ item,
    match item with
    | ToolCall _ call_id _ _ _ _ _ => negb (existsb (is_result_of call_id) items)
    | _ => false
    end) (rev items).

Definition in_progress (run_id conversation_id assistant_message_id : rstr) (truncated : bool)
    (items : list ConversationTurnTraceItem) : ConversationTurnTrace :=
  mkTrace CONVERSATION_TURN_TRACE_SCHEMA_VERSION run_id conversation_id assistant_message_id
    TurnInProgress None truncated items.

(** [ConversationTraceSnapshot::in_progress_trace] and [in_progress_audit_trace]
    of a snapshot with these items. *)
Definition in_progress_trace (run_id conversation_id assistant_message_id : rstr)
    (truncated : bool) (items : list ConversationTurnTraceItem) : ConversationTurnTrace :=
  in_progress run_id conversation_id assistant_message_id truncated (committed_prefix items).

Definition in_progress_audit_trace (run_id conversation_id assistant_message_id : rstr)
    (truncated : bool) (items : list ConversationTurnTraceItem) : ConversationTurnTrace :=
  in_progress run_id conversation_id assistant_message_id truncated items.
