(* ===== verification/TraceHistory.v ===== *)
(** * What a valid trace is

    A description of the valid traces that mentions no state, one item after
    the other: [follows before item] says what the items [before] must be for
    [item] to come next.  The validator accepts exactly these traces:
    [represents] relates its state to the items it has read. *)

From S2P Require Import Prelude RustText Json TraceSanitizer TraceProjectionFacts TraceItems.
From S2P Require Import TraceValidation.

(** ** What the items say *)

Definition is_unregistered (provenance : AgentToolIdentity) : bool :=
  match provenance with Unregistered _ => true | _ => false end.

Definition is_exchange (item : ConversationTurnTraceItem) : bool :=
  match item with
  | ToolCall _ _ _ _ _ _ _ | ToolResult _ _ _ _ _ _ _ _ _ _ => true
  | _ => false
  end.

Definition call_identity (item : ConversationTurnTraceItem) : option (rstr * rstr * bool) :=
  match item with
  | ToolCall _ id tool provenance _ _ _ => Some (id, tool, is_unregistered provenance)
  | _ => None
  end.

Definition command_call (item : ConversationTurnTraceItem) : option rstr :=
  match item with
  | ToolCall _ id tool _ _ _ _ => if is_str tool "run_command" then Some id else None
  | _ => None
  end.

Definition lifecycle_of (item : ConversationTurnTraceItem) : option ConversationCommandSessionLifecycle :=
  match item with CommandSessionLifecycle _ lifecycle => Some lifecycle | _ => None end.

Definition compaction_of (item : ConversationTurnTraceItem)
    : option (ConversationContextCompactionLifecyclePhase * rstr) :=
  match item with
  | ContextCompactionLifecycle _ phase operation_id _ => Some (phase, operation_id)
  | _ => None
  end.

Definition state_event (item : ConversationTurnTraceItem) : option rstr :=
  match item with BackendState _ event_id _ _ _ => Some event_id | _ => None end.

Definition material_event (item : ConversationTurnTraceItem) : option rstr :=
  match item with ContextMaterial _ event_id _ _ _ _ => Some event_id | _ => None end.

Abbreviation history := (list ConversationTurnTraceItem).

(** The call of the last exchange item, when that is a call. *)
Definition open_call (h : history) : option (rstr * rstr * bool) :=
  last (List.filter is_exchange h) ≫= call_identity.

Definition called (h : history) : list rstr := (λ call, fst (fst call)) <$> omap call_identity h.

(** ** Items on their own *)

Definition attachment_ok (attachment : ConversationTraceAttachment) : Prop :=
  is_blank (attached_id attachment) = false
  ∧ is_blank (attached_name attachment) = false
  ∧ check_some validate_pasted_text (attached_pasted_text attachment) = Ok ()
  ∧ clean_text (attached_name attachment)
  ∧ ∀ mime, attached_mime_type attachment = Some mime → clean_text mime.

Section Services.
Context {services : TraceServices}.

Definition item_ok (item : ConversationTurnTraceItem) : Prop :=
  match item with
  | ContextMaterial _ event_id material_kind content images created_at =>
      validate_context_material event_id material_kind content images created_at = Ok ()
  | BackendState _ event_id content created_at _ => validate_backend_state event_id content created_at = Ok ()
  | AssistantNarration _ content provider_turn_id first_tool_call_id _ =>
      validate_narration_binding provider_turn_id first_tool_call_id = Ok ()
      ∧ is_blank content = false ∧ clean_text content
  | UserGuidance _ guidance_id client_message_id content attachments references created_at _ =>
      is_blank guidance_id = false ∧ is_blank client_message_id = false
      ∧ (is_blank content = false ∨ attachments ≠ [] ∨ references ≠ [])
      ∧ (0 <= created_at)%Z
      ∧ clean_text content
      ∧ Forall attachment_ok attachments
      ∧ NoDup (attached_id <$> attachments)
      ∧ Forall (λ reference, validate_folder_reference reference = Ok ()) references
  | WorkflowDelivery _ input_id instance_id workflow_name content created_at _ =>
      Forall (λ s, is_blank s = false) [input_id; instance_id; workflow_name; content]
      ∧ (0 <= created_at)%Z ∧ clean_text content
  | AgentMailboxDelivery _ receipt_id message_id sender_agent_id sender_task_name sender_task_path
      _ content created_at _ =>
      Forall (λ s, is_blank s = false)
        [receipt_id; message_id; sender_agent_id; sender_task_name; sender_task_path; content]
      ∧ (0 <= created_at)%Z ∧ clean_text content
  | ToolCall _ call_id tool provenance operation _ _ =>
      is_blank call_id = false ∧ is_provider_safe_tool_name tool = true
      ∧ validate_tool_identity tool provenance = Ok () ∧ clean_value operation
  | ToolResult _ _ _ status success observation _ error _ archive =>
      (success = true ↔ status = Succeeded)
      ∧ clean_value observation
      ∧ (∀ text, error = Some text → clean_text text)
      ∧ validate_archive archive = Ok ()
  | CommandSessionLifecycle _ lifecycle =>
      validate_lifecycle_identity lifecycle = Ok ()
      ∧ match phase lifecycle with
        | SessionStarted => started_item_ok lifecycle = true
        | SessionTerminal => terminal_item_ok lifecycle = true
        end
      ∧ validate_archive (lifecycle_archive lifecycle) = Ok ()
  | ContextCompactionLifecycle _ phase operation_id outcome =>
      is_blank operation_id = false ∧ (text_len operation_id <= 2048)%N
      ∧ has_control operation_id = false
      ∧ match phase with
        | CompactionStarted => outcome = None
        | CompactionFinished => is_Some outcome
        end
  | RuntimeError _ message _ code _ =>
      is_blank message = false ∧ clean_text message
      ∧ ∀ c, code = Some c → is_blank c = false ∧ (text_len c <= 128)%N ∧ clean_text c
  end.

(** ** Items after others *)

Definition fits (before : history) (item : ConversationTurnTraceItem) : Prop :=
  match item with
  | ToolCall _ call_id _ _ _ _ _ => open_call before = None ∧ call_id ∉ called before
  | ToolResult _ call_id tool _ success _ _ _ _ _ =>
      ∃ unregistered, open_call before = Some (call_id, tool, unregistered)
        ∧ (unregistered = true → success = false)
  | CommandSessionLifecycle _ lifecycle =>
      (∀ call, open_call before = Some call → fst (fst call) = lifecycle_call_id lifecycle)
      ∧ lifecycle_call_id lifecycle ∈ omap command_call before
      ∧ (∀ earlier, earlier ∈ omap lifecycle_of before → session_id earlier = session_id lifecycle →
           phase lifecycle = SessionTerminal ∧ phase earlier = SessionStarted
           ∧ lifecycle_call_id earlier = lifecycle_call_id lifecycle)
  | ContextCompactionLifecycle _ phase operation_id _ =>
      open_call before = None
      ∧ ¬ (CompactionFinished, operation_id) ∈ omap compaction_of before
      ∧ ((CompactionStarted, operation_id) ∈ omap compaction_of before ↔ phase = CompactionFinished)
  | BackendState _ event_id _ _ _ => open_call before = None ∧ event_id ∉ omap state_event before
  | ContextMaterial _ event_id _ _ _ _ => open_call before = None ∧ event_id ∉ omap material_event before
  | _ => open_call before = None
  end.

Definition follows (before : history) (item : ConversationTurnTraceItem) : Prop :=
  (∀ previous, last before = Some previous → (sequence previous < sequence item)%N)
  ∧ fits before item.

Definition well_formed (h : history) : Prop :=
  ∀ before item after, h = before ++ item :: after → item_ok item ∧ follows before item.
(** What a trace with this status must end with. *)
Definition ended (status : ConversationTurnTraceTerminalStatus) (h : history) : Prop :=
  status = TurnInProgress
  ∨ open_call h = None
    ∧ ∀ operation_id, (CompactionStarted, operation_id) ∈ omap compaction_of h →
        (CompactionFinished, operation_id) ∈ omap compaction_of h.
End Services.

(** ** The state of the validator *)

(** What the state knows of a session. *)
Definition session_known (h : history) (id : rstr) (known : option (rstr * bool)) : Prop :=
  match known with
  | None => ∀ l, l ∈ omap lifecycle_of h → session_id l ≠ id
  | Some (call_id, finished) =>
      (∃ l, l ∈ omap lifecycle_of h ∧ session_id l = id)
      ∧ ∀ l, l ∈ omap lifecycle_of h → session_id l = id →
          lifecycle_call_id l = call_id ∧ (finished = false → phase l = SessionStarted)
  end.

Record tracks (h : history) (st : State) : Prop := {
  tracks_pending : pending_call st = open_call h;
  tracks_calls id : id ∈ call_ids st ↔ id ∈ called h;
  tracks_commands id : id ∈ command_call_ids st ↔ id ∈ omap command_call h;
  tracks_sessions id : session_known h id (command_sessions st !! id);
  tracks_finished id : (∃ call_id, command_sessions st !! id = Some (call_id, true)) →
    ∃ l, l ∈ omap lifecycle_of h ∧ session_id l = id ∧ phase l = SessionTerminal;
  tracks_started op : is_Some (context_compactions st !! op) ↔ (CompactionStarted, op) ∈ omap compaction_of h;
  tracks_done op : context_compactions st !! op = Some true ↔ (CompactionFinished, op) ∈ omap compaction_of h;
  tracks_states id : id ∈ backend_state_ids st ↔ id ∈ omap state_event h;
  tracks_materials id : id ∈ context_material_ids st ↔ id ∈ omap material_event h;
}.

Definition represents (h : history) (st : State) : Prop :=
  previous_sequence st = sequence <$> last h ∧ tracks h st.

(** The state after an item that is accepted. *)
Definition advance (item : ConversationTurnTraceItem) (st : State) : State :=
  match item with
  | ContextMaterial _ event_id _ _ _ _ =>
      set_event_ids (backend_state_ids st) ({[event_id]} ∪ context_material_ids st) st
  | BackendState _ event_id _ _ _ =>
      set_event_ids ({[event_id]} ∪ backend_state_ids st) (context_material_ids st) st
  | ToolCall _ id tool provenance _ _ _ =>
      st
      |> set_call_ids ({[id]} ∪ call_ids st)
           (if is_str tool "run_command" then {[id]} ∪ command_call_ids st else command_call_ids st)
      |> set_pending_call (Some (id, tool, is_unregistered provenance))
  | ToolResult _ _ _ _ _ _ _ _ _ _ => set_pending_call None st
  | CommandSessionLifecycle _ l =>
      set_command_sessions
        (<[session_id l := (lifecycle_call_id l, bool_decide (phase l = SessionTerminal))]>
           (command_sessions st)) st
  | ContextCompactionLifecycle _ phase op _ =>
      set_context_compactions
        (<[op := bool_decide (phase = CompactionFinished)]> (context_compactions st)) st
  | _ => st
  end.

Lemma omap_snoc {A B} (f : A → option B) h x : omap f (h ++ [x]) = omap f h ++ option_list (f x).
Proof. rewrite omap_app. cbn. by destruct (f x). Qed.

Lemma called_snoc h x :
  called (h ++ [x]) = called h ++ option_list ((λ call, fst (fst call)) <$> call_identity x).
Proof. unfold called. rewrite omap_snoc, fmap_app. by destruct (call_identity x). Qed.

Lemma open_call_snoc h x :
  open_call (h ++ [x]) = if is_exchange x then call_identity x else open_call h.
Proof.
  unfold open_call. rewrite List.filter_app. cbn [List.filter].
  destruct (is_exchange x); [by rewrite last_snoc|by rewrite app_nil_r].
Qed.

Lemma session_known_snoc_other h x id known :
  (∀ l, lifecycle_of x = Some l → session_id l ≠ id) →
  session_known h id known → session_known (h ++ [x]) id known.
Proof.
  intros Hx. unfold session_known. rewrite omap_snoc.
  assert (∀ l, l ∈ omap lifecycle_of h ++ option_list (lifecycle_of x) → session_id l = id →
            l ∈ omap lifecycle_of h) as Hold.
  { intros l [H|H]%elem_of_app Hid; [done|].
    destruct (lifecycle_of x) as [m|]; [|set_solver]. cbn in H.
    apply list_elem_of_singleton in H as ->. by destruct (Hx m). }
  destruct known as [[call fin]|].
  - intros [(l & Hl & Hid) Hall]. split; [exists l; set_solver|]. intros m Hm Hmid. eauto.
  - intros Hall l Hl Hid. by apply (Hall l); [apply Hold|].
Qed.

Lemma tracks_init : tracks [] default_validation_state.
Proof.
  constructor; cbn; try done; try set_solver; intros op; rewrite lookup_empty;
    (split; [by intros [? ?] || done|set_solver]) || set_solver.
Qed.

(** *** A step keeps track *)

Lemma session_known_snoc h sq id l known :
  session_known h id known →
  session_id l = id →
  (∀ earlier, earlier ∈ omap lifecycle_of h → session_id earlier = id →
     phase l = SessionTerminal ∧ phase earlier = SessionStarted
     ∧ lifecycle_call_id earlier = lifecycle_call_id l) →
  session_known (h ++ [CommandSessionLifecycle sq l]) id
    (Some (lifecycle_call_id l, bool_decide (phase l = SessionTerminal))).
Proof.
  intros Hk Hid Hf. unfold session_known. rewrite omap_snoc. cbn [lifecycle_of option_list].
  split; [exists l; set_solver|]. intros m [Hm| ->%list_elem_of_singleton]%elem_of_app Hmid.
  - by destruct (Hf m Hm Hmid) as (_ & ? & ?).
  - split; [done|]. intros Hp%bool_decide_eq_false. by destruct (phase l).
Qed.

Lemma grow_set (s : gset rstr) (l : list rstr) a id :
  (id ∈ s ↔ id ∈ l) → id ∈ {[a]} ∪ s ↔ id ∈ l ++ [a].
Proof. rewrite elem_of_union, elem_of_app, list_elem_of_singleton, elem_of_singleton. tauto. Qed.

Ltac step_items x :=
  destruct x; cbn [advance]; rewrite ?open_call_snoc, ?called_snoc, ?omap_snoc; cbn; rewrite ?app_nil_r.

Lemma advance_sets h x st : tracks h st →
  (∀ id, id ∈ call_ids (advance x st) ↔ id ∈ called (h ++ [x]))
  ∧ (∀ id, id ∈ command_call_ids (advance x st) ↔ id ∈ omap command_call (h ++ [x]))
  ∧ (∀ id, id ∈ backend_state_ids (advance x st) ↔ id ∈ omap state_event (h ++ [x]))
  ∧ (∀ id, id ∈ context_material_ids (advance x st) ↔ id ∈ omap material_event (h ++ [x])).
Proof.
  intros T. split_and!; intros id;
    [pose proof (tracks_calls _ _ T id) as H|pose proof (tracks_commands _ _ T id) as H
    |pose proof (tracks_states _ _ T id) as H|pose proof (tracks_materials _ _ T id) as H];
    clear T; step_items x; try done; try by apply grow_set.
  destruct (is_str _ _); cbn; rewrite ?app_nil_r; [by apply grow_set|done].
Qed.

Lemma advance_sessions h x st : tracks h st → fits h x →
  (∀ id, session_known (h ++ [x]) id (command_sessions (advance x st) !! id))
  ∧ ∀ id, (∃ call_id, command_sessions (advance x st) !! id = Some (call_id, true)) →
      ∃ l, l ∈ omap lifecycle_of (h ++ [x]) ∧ session_id l = id ∧ phase l = SessionTerminal.
Proof.
  intros T Hf. pose proof (tracks_sessions _ _ T) as Hk. pose proof (tracks_finished _ _ T) as Hd. clear T.
  assert (∀ id, (∃ l, l ∈ omap lifecycle_of h ∧ session_id l = id ∧ phase l = SessionTerminal) →
    ∃ l, l ∈ omap lifecycle_of (h ++ [x]) ∧ session_id l = id ∧ phase l = SessionTerminal) as Hmono.
  { intros id (l & Hl & H). exists l. split; [|done]. rewrite omap_app, elem_of_app. by left. }
  destruct (lifecycle_of x) as [l|] eqn:Ex.
  - destruct x as [| | | | | | | |sq l'| |]; try discriminate Ex. injection Ex as ->. cbn [advance].
    cbn [command_sessions set_command_sessions]. destruct Hf as (_ & _ & Hf).
    split; intros id.
    + destruct (decide (session_id l = id)) as [Hid|Hid].
      * rewrite Hid, lookup_insert_eq. subst id.
        apply (session_known_snoc h sq (session_id l) l _ (Hk _) eq_refl Hf).
      * rewrite lookup_insert_ne by done. apply session_known_snoc_other; [|apply Hk].
        by intros m [= <-].
    + intros [call_id Hc]. destruct (decide (session_id l = id)) as [Hid|Hid].
      * rewrite Hid, lookup_insert_eq in Hc. injection Hc as _ Hp%bool_decide_eq_true.
        exists l. split; [|done]. rewrite omap_snoc. cbn. set_solver.
      * rewrite lookup_insert_ne in Hc by done. apply Hmono, Hd. by exists call_id.
  - assert (command_sessions (advance x st) = command_sessions st) as -> by by destruct x.
    split; intros id; [|intros H; by apply Hmono, Hd].
    apply session_known_snoc_other; [|apply Hk]. intros l. by rewrite Ex.
Qed.

Lemma advance_compactions h x st : tracks h st → fits h x →
  (∀ op, is_Some (context_compactions (advance x st) !! op)
         ↔ (CompactionStarted, op) ∈ omap compaction_of (h ++ [x]))
  ∧ ∀ op, context_compactions (advance x st) !! op = Some true
          ↔ (CompactionFinished, op) ∈ omap compaction_of (h ++ [x]).
Proof.
  intros T Hf. pose proof (tracks_started _ _ T) as Hs. pose proof (tracks_done _ _ T) as Hd. clear T.
  destruct (compaction_of x) as [[ph op]|] eqn:Ex.
  - destruct x as [| | | | | | | | |sq ph' op' outcome|]; try discriminate Ex. injection Ex as -> ->.
    cbn [advance]. cbn [context_compactions set_context_compactions].
    destruct Hf as (_ & Hnd & Hst).
    split; intros o; rewrite omap_snoc, elem_of_app; cbn; rewrite list_elem_of_singleton;
      (destruct (decide (op = o)) as [->|Ho];
       [rewrite lookup_insert_eq|rewrite lookup_insert_ne by done; rewrite Hs || rewrite Hd]).
    + split; [intros _|by eauto]. destruct ph; [by right|left; by apply Hst].
    + split; [by left|]. intros [H|[= _ ->]]; [done|by destruct Ho].
    + split; [intros [= Hp%bool_decide_eq_true]; right; by rewrite Hp|].
      intros [H|[= <-]]; [by destruct Hnd|done].
    + split; [by left|]. intros [H|[= _ ->]]; [done|by destruct Ho].
  - assert (context_compactions (advance x st) = context_compactions st) as -> by by destruct x.
    assert (omap compaction_of (h ++ [x]) = omap compaction_of h) as ->; [|done].
    rewrite omap_snoc, Ex. apply app_nil_r.
Qed.

Lemma advance_tracks h x st : tracks h st → fits h x → tracks (h ++ [x]) (advance x st).
Proof.
  intros T Hf. destruct (advance_sets h x st T) as (H1 & H2 & H3 & H4).
  destruct (advance_sessions h x st T Hf) as [H5 H6].
  destruct (advance_compactions h x st T Hf) as [H7 H8]. constructor; try done.
  pose proof (tracks_pending _ _ T) as H. clear - H. by step_items x.
Qed.

(** *** Checks that succeed *)

Lemma check_bind {A} (c : result rstr ()) (k : result rstr A) x :
  (c;; k) = Ok x ↔ c = Ok () ∧ k = Ok x.
Proof. rewrite bind_Ok. split; [by intros ([] & ? & ?)|intros [? ?]; by exists ()]. Qed.

Lemma ensure_Ok b m : ensure b m = Ok () ↔ b = true.
Proof. unfold ensure, refuse_if. by destruct b. Qed.

Lemma refuse_if_Ok b m : refuse_if b m = Ok () ↔ b = false.
Proof. unfold refuse_if. by destruct b. Qed.

Lemma check_some_Ok {A} (f : A → result rstr ()) o :
  check_some f o = Ok () ↔ ∀ a, o = Some a → f a = Ok ().
Proof. destruct o; naive_solver. Qed.

Lemma Ok_inj {E A} (a b : A) : Ok (E := E) a = Ok b ↔ a = b.
Proof. naive_solver. Qed.

Lemma clean_text_Ok label s : ensure_no_binary_text label s = Ok () ↔ clean_text s.
Proof. apply ensure_no_binary_text_Ok. Qed.

Lemma clean_value_Ok label v : ensure_no_binary_value label v = Ok () ↔ clean_value v.
Proof. apply ensure_no_binary_value_Ok. Qed.

Lemma existsb_str_eqb s l : existsb (str_eqb s) l = false ↔ ¬ s ∈ l.
Proof.
  rewrite existsb_false. split.
  - intros H Hin. specialize (H s Hin). assert (str_eqb s s = true) by by apply str_eqb_eq. congruence.
  - intros Hn x Hx. destruct (str_eqb s x) eqn:E; [|done]. apply str_eqb_eq in E as ->. done.
Qed.

Lemma closed_iff h st : tracks h st → closed st = true ↔ open_call h = None.
Proof. intros T. unfold closed. by rewrite bool_decide_eq_true, (tracks_pending _ _ T). Qed.

Create Rewrite HintDb checks.
#[local] Hint Rewrite @check_bind ensure_Ok refuse_if_Ok @check_some_Ok clean_text_Ok clean_value_Ok
  @Ok_inj andb_true_iff negb_true_iff @bool_decide_eq_true Z.leb_le N.leb_le : checks.

Lemma attachments_ok ids atts :
  validate_attachments ids atts = Ok () ↔
  Forall attachment_ok atts ∧ NoDup (attached_id <$> atts)
  ∧ ∀ a, a ∈ atts → ¬ attached_id a ∈ ids.
Proof.
  revert ids. induction atts as [|a atts IH]; intros ids; cbn [validate_attachments fmap list_fmap].
  { split; [|done]. intros _. split_and!; [constructor..|set_solver]. }
  autorewrite with checks. rewrite IH, Forall_cons, NoDup_cons, existsb_str_eqb.
  setoid_rewrite clean_text_Ok. unfold attachment_ok at 2.
  rewrite list_elem_of_fmap. rewrite check_some_Ok.
  split.
  - intros (((? & ?) & ?) & ? & ? & ? & ? & ? & Hids). split_and!; try done.
    + intros (b & Hb & Hin). apply (Hids b Hin), elem_of_cons. by left.
    + intros b Hb. apply elem_of_cons in Hb as [->|Hb]; [done|].
      intros Hin. apply (Hids b Hb), elem_of_cons. by right.
  - intros (((? & ? & ? & ? & ?) & ?) & (Hn & ?) & Hids). split_and!; try done.
    + apply Hids, elem_of_cons. by left.
    + intros b Hb Hin. apply elem_of_cons in Hin as [Heq|Hin]; [apply Hn; by exists b|].
      apply (Hids b); [apply elem_of_cons; by right|done].
Qed.

Lemma folder_references_ok refs :
  validate_folder_references refs = Ok () ↔
  Forall (λ reference, validate_folder_reference reference = Ok ()) refs.
Proof.
  induction refs as [|r refs IH]; cbn [validate_folder_references]; [by split|].
  rewrite Forall_cons, <-IH. destruct (validate_folder_reference r) as [[]|]; naive_solver.
Qed.

Lemma bool_decide_iff (b : bool) P `{Decision P} : b = bool_decide P ↔ (b = true ↔ P).
Proof. case_bool_decide; destruct b; naive_solver. Qed.

Lemma andb_false_imp (a b : bool) : a && b = false ↔ (a = true → b = false).
Proof. destruct a, b; naive_solver. Qed.

(** *** One arm *)

Section Services.
Context {services : TraceServices}.

Lemma tool_call_iff h sq id tool prov op ap tr st st' : tracks h st →
  validate_tool_call id tool prov op st = Ok st' ↔
  (item_ok (ToolCall sq id tool prov op ap tr) ∧ fits h (ToolCall sq id tool prov op ap tr))
  ∧ st' = advance (ToolCall sq id tool prov op ap tr) st.
Proof.
  intros T. unfold validate_tool_call. autorewrite with checks. rewrite (closed_iff h st T).
  rewrite bool_decide_eq_false, (tracks_calls _ _ T). cbn [item_ok fits advance]. naive_solver.
Qed.

Lemma tool_result_iff h sq id tool status success obs ap error tr archive st st' : tracks h st →
  let item := ToolResult sq id tool status success obs ap error tr archive in
  validate_tool_result id tool status success obs error archive st = Ok st' ↔
  (item_ok item ∧ fits h item) ∧ st' = advance item st.
Proof.
  intros T item. unfold validate_tool_result, item. cbn [item_ok fits advance].
  rewrite <-(tracks_pending _ _ T).
  destruct (pending_call st) as [[[id' tool'] unregistered]|]; [|split; [done|naive_solver]].
  autorewrite with checks. setoid_rewrite clean_text_Ok. rewrite !str_eqb_eq, eqb_true_iff.
  rewrite bool_decide_iff, andb_false_imp. split.
  - intros ((-> & ->) & ? & ? & ? & ? & ? & <-). eauto 10.
  - intros (((? & ? & ? & ?) & u & [= -> -> ->] & ?) & ->). by split_and!.
Qed.

Lemma session_phase_iff h l st sessions : tracks h st →
  validate_session_phase l (command_sessions st) = Ok sessions ↔
  match phase l with
  | SessionStarted => started_item_ok l = true
  | SessionTerminal => terminal_item_ok l = true
  end
  ∧ (∀ earlier, earlier ∈ omap lifecycle_of h → session_id earlier = session_id l →
       phase l = SessionTerminal ∧ phase earlier = SessionStarted
       ∧ lifecycle_call_id earlier = lifecycle_call_id l)
  ∧ sessions = <[session_id l := (lifecycle_call_id l, bool_decide (phase l = SessionTerminal))]>
                 (command_sessions st).
Proof.
  intros T. pose proof (tracks_sessions _ _ T (session_id l)) as Hk.
  pose proof (tracks_finished _ _ T (session_id l)) as Hfin. unfold session_known in Hk.
  unfold validate_session_phase. cbv zeta.
  destruct (phase l) eqn:Ep; autorewrite with checks; rewrite ?is_none_or_true;
    destruct (command_sessions st !! session_id l) as [[call fin]|].
  - split; [naive_solver|]. destruct Hk as ((e & He & Hid) & _). intros (_ & Hall & _).
    by destruct (Hall e He Hid).
  - split; [|naive_solver]. intros (? & _ & <-). split_and!; try done.
    intros e He Hid. by destruct (Hk e He).
  - destruct Hk as ((e0 & He0 & Hid0) & Hk). split.
    + intros (? & Hc & <-). specialize (Hc _ eq_refl). cbn [fst snd] in Hc.
      apply andb_true_iff in Hc as [->%str_eqb_eq Hf%negb_true_iff]. split_and!; try done.
      intros e He Hid. destruct (Hk e He Hid) as [? Hp]. split_and!; auto.
    + intros (? & Hall & ->). split_and!; try done. intros ? [= <-]. cbn [fst snd].
      apply andb_true_iff. split.
      * apply str_eqb_eq. destruct (Hk e0 He0 Hid0) as [<- _]. by destruct (Hall e0 He0 Hid0) as (_ & _ & ->).
      * destruct fin; [|done]. destruct Hfin as (e & He & Hid & Hp); [by exists call|].
        destruct (Hall e He Hid) as (_ & Hp' & _). congruence.
  - split; [|naive_solver]. intros (? & _ & <-). split_and!; try done.
    intros e He Hid. by destruct (Hk e He).
Qed.

Lemma session_lifecycle_iff h sq l st st' : tracks h st →
  validate_session_lifecycle l st = Ok st' ↔
  (item_ok (CommandSessionLifecycle sq l) ∧ fits h (CommandSessionLifecycle sq l))
  ∧ st' = advance (CommandSessionLifecycle sq l) st.
Proof.
  intros T. unfold validate_session_lifecycle. autorewrite with checks. setoid_rewrite bind_Ok.
  setoid_rewrite (session_phase_iff h l st _ T). autorewrite with checks.
  rewrite (tracks_commands _ _ T), (tracks_pending _ _ T), is_none_or_true.
  setoid_rewrite str_eqb_eq. setoid_rewrite check_bind. cbn [item_ok fits advance]. split.
  - intros (? & ? & ? & sessions & (? & ? & ->) & ? & [= <-]). by split_and!.
  - intros (((? & ? & ?) & ? & ? & ?) & ->). split_and!; try done. eexists. by split_and!.
Qed.

Lemma compaction_phase_iff h ph op outcome st operations : tracks h st →
  validate_compaction_phase ph op outcome (context_compactions st) = Ok operations ↔
  match ph with CompactionStarted => outcome = None | CompactionFinished => is_Some outcome end
  ∧ ¬ (CompactionFinished, op) ∈ omap compaction_of h
  ∧ ((CompactionStarted, op) ∈ omap compaction_of h ↔ ph = CompactionFinished)
  ∧ operations = <[op := bool_decide (ph = CompactionFinished)]> (context_compactions st).
Proof.
  intros T. rewrite <-(tracks_started _ _ T op), <-(tracks_done _ _ T op).
  unfold validate_compaction_phase.
  destruct ph; [autorewrite with checks|destruct (context_compactions st !! op) as [fin|] eqn:E;
    [autorewrite with checks|]].
  - split; [intros [[-> ->] <-]; split_and!; try done; by intros []|].
    intros (? & ? & [Hs _] & ->). split_and!; try done.
    destruct (context_compactions st !! op); [|done]. by discriminate Hs.
  - split; [intros [[-> ?] <-]; split_and!; done || by eexists|].
    intros (? & Hn & _ & ->). split_and!; try done. by destruct fin.
  - split; [done|]. by intros (_ & _ & [_ [? ?]] & _).
Qed.

Lemma some_content {A B} (blank : bool) (l : list A) (m : list B) :
  blank && is_nil l && is_nil m = false ↔ blank = false ∨ l ≠ [] ∨ m ≠ [].
Proof. destruct blank, l, m; cbn; naive_solver. Qed.

Ltac finish_arm T :=
  autorewrite with checks; rewrite ?(closed_iff _ _ T), ?(tracks_states _ _ T), ?(tracks_materials _ _ T),
    ?attachments_ok, ?folder_references_ok; cbn [item_ok fits advance].

(** The validator accepts an item exactly when it is right on its own and in
    its place, and then its state is the next one. *)
Lemma validate_arm_iff h item st st' : tracks h st →
  validate_arm item st = Ok st' ↔ (item_ok item ∧ fits h item) ∧ st' = advance item st.
Proof.
  intros T. destruct item; cbn [validate_arm]; try by apply tool_call_iff.
  - finish_arm T. naive_solver.
  - finish_arm T. naive_solver.
  - finish_arm T. naive_solver.
  - finish_arm T. rewrite some_content. split.
    + intros (? & (((? & ?) & ?) & ?) & ? & (? & ? & ?) & ? & <-). by split_and!.
    + intros (((? & ? & ? & ? & ? & ? & ? & ?) & ?) & ->). split_and!; try done. set_solver.
  - finish_arm T. rewrite !Forall_cons, Forall_nil. naive_solver.
  - finish_arm T. rewrite !Forall_cons, Forall_nil. naive_solver.
  - by apply tool_result_iff.
  - by apply session_lifecycle_iff.
  - finish_arm T. setoid_rewrite bind_Ok. setoid_rewrite (compaction_phase_iff h _ _ _ st _ T).
    setoid_rewrite Ok_inj. naive_solver.
  - finish_arm T. setoid_rewrite check_bind. setoid_rewrite ensure_Ok. setoid_rewrite clean_text_Ok.
    setoid_rewrite andb_true_iff. setoid_rewrite negb_true_iff. setoid_rewrite N.leb_le. naive_solver.
Qed.

Lemma tracks_sequence h st s : tracks h (set_previous_sequence s st) ↔ tracks h st.
Proof. split; intros []; by constructor. Qed.

Lemma validate_item_iff h item st st' : represents h st →
  validate_item st item = Ok st' ↔
  (item_ok item ∧ follows h item) ∧ st' = advance item (set_previous_sequence (sequence item) st).
Proof.
  intros [Hp T]. unfold validate_item, follows. autorewrite with checks.
  rewrite is_none_or_true, Hp, (validate_arm_iff h) by by apply tracks_sequence.
  setoid_rewrite N.ltb_lt. setoid_rewrite fmap_Some. naive_solver.
Qed.

Lemma advance_represents h item st : represents h st → fits h item →
  represents (h ++ [item]) (advance item (set_previous_sequence (sequence item) st)).
Proof.
  intros [_ T] Hf. split.
  - rewrite last_snoc. by destruct item.
  - apply advance_tracks; [by apply tracks_sequence|done].
Qed.

(** *** All items *)

Lemma well_formed_nil : well_formed [].
Proof. intros before item after H. by destruct before. Qed.

Lemma well_formed_snoc h item :
  well_formed (h ++ [item]) ↔ well_formed h ∧ item_ok item ∧ follows h item.
Proof.
  split.
  - intros H. split; [|by apply (H h item [])].
    intros before x after ->. apply (H before x (after ++ [item])). by rewrite <-app_assoc.
  - intros [H Hi] before x after E. destruct after as [|y after _] using rev_ind.
    + by apply app_inj_tail in E as [-> ->].
    + apply (H before x after). rewrite app_comm_cons, app_assoc in E.
      by apply app_inj_tail in E as [-> _].
Qed.

Lemma validate_items_app st h1 h2 :
  validate_items st (h1 ++ h2) = (st ← validate_items st h1; validate_items st h2).
Proof.
  revert st. induction h1 as [|item h1 IH]; intros st; [done|]. cbn [app validate_items].
  destruct (validate_item st item) as [st'|e]; cbn; [apply IH|done].
Qed.

(** The items a validator has accepted are well-formed, its state represents
    them, and it accepts every well-formed sequence. *)
Lemma validate_items_iff h :
  (∀ st, validate_items default_validation_state h = Ok st → well_formed h ∧ represents h st)
  ∧ (well_formed h → ∃ st, validate_items default_validation_state h = Ok st).
Proof.
  induction h as [|item h [IH1 IH2]] using rev_ind.
  - split; [|by eexists]. intros st [= <-]. split; [apply well_formed_nil|]. split; [done|apply tracks_init].
  - setoid_rewrite well_formed_snoc. setoid_rewrite validate_items_app. setoid_rewrite bind_Ok. split.
    + intros st (st0 & H0 & H). destruct (IH1 _ H0) as [Hwf Hr]. cbn [validate_items] in H.
      apply bind_Ok in H as (st1 & H1 & [= <-]).
      apply (validate_item_iff h _ _ _ Hr) in H1 as ((Hok & Hfol) & ->).
      split; [done|]. by apply advance_represents; [|apply Hfol].
    + intros (Hwf & Hok & Hfol). destruct (IH2 Hwf) as [st0 H0]. destruct (IH1 _ H0) as [_ Hr].
      eexists. exists st0. split; [done|]. cbn [validate_items]. apply bind_Ok. eexists.
      split; [|done]. by apply (validate_item_iff h).
Qed.

Lemma validate_end_iff h st status : represents h st →
  validate_end st status = Ok () ↔ ended status h.
Proof.
  intros [_ T]. unfold validate_end, ended. autorewrite with checks.
  rewrite orb_true_iff, bool_decide_eq_true, (closed_iff _ _ T).
  assert (forallb snd (map_to_list (context_compactions st)) = true ↔
    ∀ op, (CompactionStarted, op) ∈ omap compaction_of h → (CompactionFinished, op) ∈ omap compaction_of h)
    as Hf.
  { rewrite forallb_true. split.
    - intros Hall op [fin Hop]%(tracks_started _ _ T). apply (tracks_done _ _ T).
      specialize (Hall (op, fin)). rewrite elem_of_map_to_list in Hall. cbn in Hall.
      by rewrite Hop, (Hall Hop).
    - intros Hall [op fin] Hop%elem_of_map_to_list. cbn.
      assert (is_Some (context_compactions st !! op)) as Hs by by eexists.
      apply (tracks_started _ _ T), Hall, (tracks_done _ _ T) in Hs. congruence. }
  rewrite orb_true_iff, negb_true_iff, Hf. destruct status; cbn [is_terminal]; naive_solver.
Qed.

Lemma append_Ok_iff h status :
  fst (append default_validation_state h status) = Ok () ↔ well_formed h ∧ ended status h.
Proof.
  destruct (validate_items_iff h) as [H1 H2]. unfold append. split.
  - destruct (validate_items default_validation_state h) as [st|e]; [|done].
    destruct (H1 _ eq_refl) as [Hwf Hr]. cbn. intros H. split; [done|].
    apply (validate_end_iff h st _ Hr). by destruct (validate_end st status) as [[]|].
  - intros [Hwf He]. destruct (H2 Hwf) as [st Hst]. destruct (H1 _ Hst) as [_ Hr].
    apply (validate_end_iff h st _ Hr) in He. by rewrite Hst; cbn; rewrite He.
Qed.
Lemma validate_iff trace :
  validate trace = Ok () ↔
  schema_version trace = CONVERSATION_TURN_TRACE_SCHEMA_VERSION
  ∧ Forall (λ id, is_blank id = false) [run_id trace; conversation_id trace; assistant_message_id trace]
  ∧ (terminal_status trace = TurnInProgress → terminal_error trace = None)
  ∧ well_formed (items trace)
  ∧ ended (terminal_status trace) (items trace).
Proof.
  unfold validate. rewrite !check_bind, refuse_if_Ok, !ensure_Ok, append_Ok_iff.
  rewrite !andb_true_iff, !negb_true_iff, andb_false_imp, negb_false_iff, N.eqb_eq, !Forall_cons, Forall_nil.
  rewrite bool_decide_eq_true, bool_decide_eq_false, <-eq_None_not_Some. tauto.
Qed.

End Services.

(** ** Calls without a result *)

Lemma well_formed_app `{TraceServices} h1 h2 : well_formed (h1 ++ h2) → well_formed h1.
Proof.
  intros Hwf before x after ->. apply (Hwf before x (after ++ h2)). by rewrite <-app_assoc.
Qed.

(** Every call has a result after it. *)
Definition resolved (h : history) : Prop :=
  ∀ i x id tool u, h !! i = Some x → call_identity x = Some (id, tool, u) →
    ∃ j y, i < j ∧ h !! j = Some y ∧ is_result_of id y = true.

Lemma resolved_cons x h : resolved (x :: h) → resolved h.
Proof.
  intros Hr i y id tool u Hi Hc. destruct (Hr (S i) y id tool u Hi Hc) as ([|j] & z & Hj & Hz & Hres); [lia|].
  exists j, z. split_and!; [lia|done..].
Qed.

Lemma resolved_cons_intro x h :
  (∀ id tool u, call_identity x = Some (id, tool, u) → ∃ y, y ∈ h ∧ is_result_of id y = true) →
  resolved h → resolved (x :: h).
Proof.
  intros Hx Hr [|i] y id tool u Hi Hc; cbn in Hi.
  - injection Hi as ->. destruct (Hx id tool u Hc) as (z & [j Hj]%list_elem_of_lookup & Hz).
    exists (S j), z. split_and!; [lia|done..].
  - destruct (Hr i y id tool u Hi Hc) as (j & z & Hj & Hz & Hres). exists (S j), z. split_and!; [lia|done..].
Qed.

Lemma resolved_app_quiet q h : Forall (λ x, is_exchange x = false) q → resolved h → resolved (q ++ h).
Proof.
  intros Hq Hr. induction Hq as [|x q Hx _ IH]; [done|]. cbn [app]. apply resolved_cons_intro; [|done].
  intros id tool u Hc. by destruct x.
Qed.

Lemma resolved_unresolved h : resolved h → unresolved_call_index h = None.
Proof.
  induction h as [|x h IH]; intros Hr; [done|]. cbn [unresolved_call_index].
  rewrite (IH (resolved_cons _ _ Hr)). destruct x as [| | | | | |sq id tool prov op ap tr| | | |]; try done.
  destruct (Hr 0 _ id tool (is_unregistered prov) eq_refl eq_refl) as ([|j] & y & Hj & Hy & Hres); [lia|].
  assert (existsb (is_result_of id) h = true) as ->; [|done].
  apply existsb_true. exists y. split; [by apply (list_elem_of_lookup_2 h j)|done].
Qed.

Lemma resolved_quiet h : Forall (λ x, is_exchange x = false) h → resolved h.
Proof.
  intros Hq i x id tool u Hi Hc. rewrite Forall_lookup in Hq. specialize (Hq _ _ Hi).
  by destruct x.
Qed.

Lemma unresolved_at pre x post call :
  call_identity x = Some call → Forall (λ y, is_exchange y = false) post →
  unresolved_call_index (pre ++ x :: post) = Some (length pre).
Proof.
  intros Hx Hpost. destruct x; try discriminate Hx. injection Hx as <-.
  induction pre as [|y pre IH]; cbn [app unresolved_call_index length].
  - rewrite (resolved_unresolved post) by by apply resolved_quiet.
    assert (existsb (is_result_of call_id) post = false) as ->; [|done].
    apply existsb_false. intros y Hy. rewrite Forall_forall in Hpost. specialize (Hpost _ Hy).
    by destruct y.
  - by rewrite IH.
Qed.

Lemma resolved_snoc h x : resolved h → is_exchange x = false → resolved (h ++ [x]).
Proof.
  intros Hr Hx i y id tool u Hi Hc. apply lookup_app_Some in Hi as [Hi|[Hl Hi]].
  - destruct (Hr i y id tool u Hi Hc) as (j & z & Hj & Hz & Hres). exists j, z.
    split_and!; [done| |done]. by apply lookup_app_l_Some.
  - apply list_lookup_singleton_Some in Hi as [_ <-]. by destruct x.
Qed.

(** Closing the open call. *)
Lemma resolved_close pre x post y id tool u :
  resolved pre → call_identity x = Some (id, tool, u) → Forall (λ x, is_exchange x = false) post →
  is_result_of id y = true → resolved (pre ++ x :: post ++ [y]).
Proof.
  intros Hr Hx Hq Hy i z id' tool' u' Hi Hc.
  assert ((pre ++ x :: post ++ [y]) !! (length pre + S (length post)) = Some y) as Hlast.
  { rewrite app_comm_cons, app_assoc. apply list_lookup_middle. by rewrite length_app. }
  apply lookup_app_Some in Hi as [Hi|[Hl Hi]].
  - destruct (Hr i z id' tool' u' Hi Hc) as (j & w & Hj & Hw & Hres). exists j, w.
    split_and!; [done| |done]. by apply lookup_app_l_Some.
  - destruct (i - length pre) as [|k] eqn:Ek; cbn in Hi.
    + injection Hi as <-. rewrite Hx in Hc. injection Hc as <- _ _. eexists _, y. by split_and!; [|apply Hlast|]; try lia.
    + apply lookup_app_Some in Hi as [Hi|[Hl' Hi]].
      * rewrite Forall_lookup in Hq. specialize (Hq _ _ Hi). by destruct z.
      * apply list_lookup_singleton_Some in Hi as [_ <-]. by destruct y.
Qed.

Section Shape.
Context {services : TraceServices}.

(** An open call has only events of its own command session after it, and the
    calls before it have their results. *)
Definition open_at (pre : history) (x : ConversationTurnTraceItem) (post : history)
    (call : rstr * rstr * bool) : Prop :=
  call_identity x = Some call ∧ resolved pre ∧ open_call pre = None
  ∧ ¬ fst (fst call) ∈ called pre
  ∧ Forall (λ y, ∃ l, lifecycle_of y = Some l ∧ lifecycle_call_id l = fst (fst call)) post.

Lemma quiet_post post call :
  Forall (λ y, ∃ l, lifecycle_of y = Some l ∧ lifecycle_call_id l = call) post →
  Forall (λ y, is_exchange y = false) post.
Proof. intros H. apply (Forall_impl _ _ _ H). intros y (l & Hl & _). by destruct y. Qed.

Lemma well_formed_shape h : well_formed h →
  match open_call h with
  | None => resolved h
  | Some call => ∃ pre x post, h = pre ++ x :: post ∧ open_at pre x post call
  end.
Proof.
  induction h as [|x h IH] using rev_ind; [by intros _ i x id tool u Hi|].
  rewrite well_formed_snoc. intros (Hwf & _ & _ & Hfit). specialize (IH Hwf).
  rewrite open_call_snoc. destruct (is_exchange x) eqn:Ex.
  - destruct x as [| | | | | |sq id tool prov op ap tr|sq id tool status success obs ap err tr arch| | |];
      try discriminate Ex; cbn [call_identity].
    + destruct Hfit as [Ho Hnew]. rewrite Ho in IH.
      exists h, (ToolCall sq id tool prov op ap tr), []. split; [done|]. by repeat split.
    + destruct Hfit as (u & Ho & _). rewrite Ho in IH.
      destruct IH as (pre & y & post & -> & Hy & Hr & _ & _ & Hpost).
      rewrite <-app_assoc, <-app_comm_cons.
      apply (resolved_close pre y post _ id tool u Hr Hy); [by eapply quiet_post|].
      by apply str_eqb_eq.
  - destruct (open_call h) as [call|] eqn:Ho; [|by apply resolved_snoc].
    destruct IH as (pre & y & post & -> & Hy & Hr & Ho' & Hnew & Hpost).
    exists pre, y, (post ++ [x]). split; [by rewrite <-app_assoc|].
    repeat split; try done. apply Forall_app. split; [done|]. apply Forall_singleton.
    destruct x; cbn [fits] in Hfit; try discriminate Ex; try (rewrite Ho in Hfit; by destruct Hfit);
      try congruence.
    exists lifecycle. split; [done|]. destruct Hfit as [Hc _]. by rewrite (Hc _ Ho).
Qed.

Lemma open_called h call : open_call h = Some call → fst (fst call) ∈ called h.
Proof.
  unfold open_call. intros (x & Hx & Hc)%bind_Some. apply last_Some in Hx as [l Hl].
  assert (x ∈ h) as Hin.
  { apply list_elem_of_In. eapply proj1, filter_In. rewrite Hl. apply in_app_iff. right. by left. }
  unfold called. apply list_elem_of_fmap. exists call. split; [done|].
  apply list_elem_of_omap. by exists x.
Qed.

Lemma results_called h id x : well_formed h → x ∈ h → is_result_of id x = true → id ∈ called h.
Proof.
  induction h as [|y h IH] using rev_ind; [set_solver|].
  rewrite well_formed_snoc. intros (Hwf & _ & _ & Hfit) Hx Hres.
  rewrite called_snoc, elem_of_app. apply elem_of_app in Hx as [Hx| ->%list_elem_of_singleton].
  - left. by apply IH.
  - left. destruct y; try discriminate Hres. apply str_eqb_eq in Hres as ->.
    destruct Hfit as (u & Ho & _). apply (open_called _ _ Ho).
Qed.

(** ** The ways of finding the open call *)

Lemma find_app {A} (p : A → bool) l1 l2 :
  List.find p (l1 ++ l2) = match List.find p l1 with Some x => Some x | None => List.find p l2 end.
Proof. induction l1 as [|x l1 IH]; [done|]. cbn. by destruct (p x). Qed.

Lemma find_None {A} (p : A → bool) l : (∀ x, x ∈ l → p x = false) → List.find p l = None.
Proof.
  induction l as [|x l IH]; intros H; [done|]. cbn. rewrite (H x) by by left.
  apply IH. intros y Hy. apply H. by right.
Qed.

Lemma unresolved_call_at pre x post call :
  well_formed (pre ++ x :: post) → open_at pre x post call →
  unresolved_call (pre ++ x :: post) = Some x.
Proof.
  intros Hwf (Hx & _ & _ & Hnew & Hpost%quiet_post). unfold unresolved_call.
  rewrite rev_app_distr. cbn [rev]. rewrite <-app_assoc, find_app.
  rewrite Forall_forall in Hpost. rewrite find_None.
  - destruct x; try discriminate Hx. injection Hx as <-. cbn [app List.find].
    assert (existsb (is_result_of call_id) (pre ++ ToolCall sequence call_id tool provenance operation
      approval_status truncated :: post) = false) as ->; [|done].
    apply existsb_false. intros y [Hy|[->|Hy]%elem_of_cons]%elem_of_app; [|done|].
    + destruct (is_result_of call_id y) eqn:Ey; [|done]. destruct Hnew.
      apply (results_called pre call_id y); [by eapply well_formed_app|done..].
    + specialize (Hpost _ Hy). by destruct y.
  - intros y Hy%list_elem_of_In%in_rev%list_elem_of_In. specialize (Hpost _ Hy). by destruct y.
Qed.

Lemma unresolved_call_None h : resolved h → unresolved_call h = None.
Proof.
  intros Hr. apply find_None. intros x Hx%list_elem_of_In%in_rev%list_elem_of_In.
  destruct x as [| | | | | |sq id tool prov op ap tr| | | |]; try done.
  apply list_elem_of_lookup in Hx as [i Hi].
  destruct (Hr i _ id tool _ Hi eq_refl) as (j & y & _ & Hy & Hres).
  assert (existsb (is_result_of id) h = true) as ->; [|done].
  apply existsb_true. exists y. split; [by eapply list_elem_of_lookup_2|done].
Qed.

(** The committed prefix, and what it leaves out. *)
Lemma committed_prefix_spec h : well_formed h →
  open_call (committed_prefix h) = None
  ∧ match open_call h with
    | None => committed_prefix h = h
    | Some call => ∃ x post, h = committed_prefix h ++ x :: post ∧ call_identity x = Some call
        ∧ Forall (λ y, ∃ l, lifecycle_of y = Some l ∧ lifecycle_call_id l = fst (fst call)) post
    end.
Proof.
  intros Hwf. pose proof (well_formed_shape h Hwf) as Hs. unfold committed_prefix.
  destruct (open_call h) as [call|] eqn:Ho.
  - destruct Hs as (pre & x & post & -> & Hat). 
    destruct Hat as (Hx & _ & Hopen & _ & Hpost).
    rewrite (unresolved_at _ _ _ _ Hx (quiet_post _ _ Hpost)), take_app_length. split; [done|]. by exists x, post.
  - by rewrite (resolved_unresolved h Hs).
Qed.
End Shape.
