(* ===== verification/ProjectedHistory.v ===== *)
(** * What the projection keeps is bounded

    A value is [small] when its texts, arrays, objects and depth are within given
    limits: what the history keeps of an observation is.

    After that: the projection of a valid history. *)

From stdpp Require Import gmap.
From S2P Require Import Prelude RustText Json HumanInteraction ApplyPatchWire TraceSanitizer.
From S2P Require Import TraceProjection TraceProjectionFacts TraceItems TraceValidation TraceHistory.

(** ** Small values *)

Fixpoint small (chars : N) (depth : nat) (value : Value) : Prop :=
  match depth with
  | O => False
  | S depth =>
      match value with
      | Object fields =>
          length fields ≤ GENERIC_OBJECT_FIELDS ∧ Forall (λ f, small chars depth (snd f)) fields
      | Array values => length values ≤ GENERIC_ARRAY_ITEMS ∧ Forall (small chars depth) values
      | String text => (N.of_nat (length text) <= chars)%N
      | Null | Bool _ | Number _ => True
      end
  end.

Lemma small_le chars chars' depth depth' value :
  (chars <= chars')%N → depth ≤ depth' → small chars depth value → small chars' depth' value.
Proof.
  intros Hc. revert depth' value. induction depth as [|depth IH]; intros [|depth'] value Hd; try done; [lia|].
  destruct value as [| | | |values|fields]; cbn [small]; try done; [lia|..].
  - intros [? Hf]. split; [done|]. eapply Forall_impl; [exact Hf|]. intros v. apply IH. lia.
  - intros [? Hf]. split; [done|]. eapply Forall_impl; [exact Hf|]. intros f. apply IH. lia.
Qed.

(** ** Text *)

Definition cut_chars (limit : N) : N := limit + 64.

Lemma bounded_text_short s limit tail :
  (N.of_nat (length (fst (sanitize_and_bound_text s limit tail))) <= cut_chars limit)%N.
Proof.
  unfold sanitize_and_bound_text. destruct (redact_binary_text s) as [t redacted]. unfold truncate_text, cut_chars.
  destruct (N.leb_spec (N.of_nat (length t)) limit); [cbn; lia|]. destruct tail; cbn [fst]; rewrite length_app.
  - rewrite length_drop. change (length EARLIER_OUTPUT_OMITTED_PREFIX) with 25. lia.
  - rewrite length_take. change (length TRUNCATED_SUFFIX) with 40. lia.
Qed.

Lemma small_text s limit tail depth :
  small (cut_chars limit) (S depth) (String (fst (sanitize_and_bound_text s limit tail))).
Proof. apply bounded_text_short. Qed.

(** ** Generic values *)

Lemma bound_value_small value limit depth :
  depth ≤ GENERIC_DEPTH →
  small (cut_chars limit) (S (GENERIC_DEPTH - depth)) (fst (bound_value value limit depth)).
Proof.
  revert depth. induction value as [|b|t|s|vs IH|fs IH] using value_nested_ind; intros depth Hd; cbn [bound_value];
    (destruct (Nat.leb_spec GENERIC_DEPTH depth) as [Hge|Hlt];
      [cbn [fst small]; change (length (rs "[nested value omitted from conversation history]")) with 48;
       unfold cut_chars; lia|]); [done|done|done|..].
  - pose proof (small_text s limit false (GENERIC_DEPTH - depth)) as H.
    by destruct (sanitize_and_bound_text s limit false).
  - set (go := fix go items input := match items with O => _ | S _ => _ end).
    assert (∀ n, length (fst (go n vs)) ≤ n
      ∧ Forall (small (cut_chars limit) (GENERIC_DEPTH - depth)) (fst (go n vs))) as H.
    { induction IH as [|v vs Hv _ IHvs]; intros [|n]; cbn [go fst]; try (split; [cbn; lia|constructor]).
      specialize (IHvs n). destruct (go n vs) as [output cut].
      specialize (Hv (S depth) ltac:(lia)). destruct (bound_value v limit (S depth)) as [v' cut'].
      replace (S (GENERIC_DEPTH - S depth)) with (GENERIC_DEPTH - depth) in Hv by lia.
      destruct IHvs as [Hlen Hall]. cbn [fst length] in *. split; [lia|by constructor]. }
    specialize (H GENERIC_ARRAY_ITEMS). destruct (go GENERIC_ARRAY_ITEMS vs) as [output cut]. exact H.
  - set (go := fix go fields input := match fields with O => _ | S _ => _ end).
    assert (∀ n, length (fst (go n fs)) ≤ n
      ∧ Forall (λ f, small (cut_chars limit) (GENERIC_DEPTH - depth) (snd f)) (fst (go n fs))) as H.
    { induction IH as [|[k v] fs Hv _ IHfs]; intros [|n]; cbn [go fst]; try (split; [cbn; lia|constructor]).
      specialize (IHfs n). destruct (go n fs) as [output cut]. specialize (Hv (S depth) ltac:(lia)). cbn [snd] in Hv.
      replace (S (GENERIC_DEPTH - S depth)) with (GENERIC_DEPTH - depth) in Hv by lia.
      destruct IHfs as [Hlen Hall]. cbn [fst] in *.
      assert (∀ w, small (cut_chars limit) (GENERIC_DEPTH - depth) w →
        length ((k, w) :: output) ≤ S n
        ∧ Forall (λ f, small (cut_chars limit) (GENERIC_DEPTH - depth) (snd f)) ((k, w) :: output)) as Hkeep
        by (intros w Hw; split; [cbn [length]; lia|by constructor]).
      destruct (is_hidden_reasoning_key k); [cbn [fst]; split; [lia|done]|].
      destruct (is_binary_key _).
      { apply Hkeep. destruct (GENERIC_DEPTH - depth) eqn:E; [lia|]. cbn [small].
        change (length BINARY_OMITTED_MARKER) with 23. unfold cut_chars. lia. }
      destruct (_ && _) eqn:E.
      { apply Hkeep. apply andb_true_iff in E as [_ E]. destruct v; try done. by destruct (GENERIC_DEPTH - depth) eqn:?; [lia|]. }
      destruct (bound_value v limit (S depth)) as [v' cut']. by apply Hkeep. }
    specialize (H GENERIC_OBJECT_FIELDS). destruct (go GENERIC_OBJECT_FIELDS fs) as [output cut]. exact H.
Qed.

(** ** Selected fields *)

Definition HISTORY_CHARS : N := cut_chars USER_GUIDANCE_CHARS.
Definition HISTORY_DEPTH : nat := 12.

(** An output object with at most [n] fields, and their depth. *)
Definition within (depth n : nat) (p : Projection) : Prop :=
  length (fst p) ≤ n ∧ Forall (λ f, small HISTORY_CHARS depth (snd f)) (fst p).

Lemma map_insert_length {A} key (v : A) fields : length (map_insert key v fields) ≤ S (length fields).
Proof.
  induction fields as [|[k w] fields IH]; [done|]. cbn [map_insert].
  destruct (str_eqb key k); [cbn; lia|]. destruct (str_leb key k); cbn [length] in *; lia.
Qed.

Lemma within_empty depth : within depth 0 ([], false).
Proof. by split; [|constructor]. Qed.

Lemma within_put depth key v n p :
  small HISTORY_CHARS depth v → within depth n p → within depth (S n) (put key v p).
Proof.
  intros Hv [Hlen Hall]. split.
  - cbn [put fst]. pose proof (map_insert_length (rs key) v (fst p)). lia.
  - by apply map_insert_Forall.
Qed.

Lemma within_mark depth cut n p : within depth n p → within depth n (mark cut p).
Proof. done. Qed.

Lemma within_le depth n m p : n ≤ m → within depth n p → within depth m p.
Proof. intros Hle [? ?]. split; [lia|done]. Qed.

Lemma limited_small limit depth v :
  (limit <= USER_GUIDANCE_CHARS)%N → 9 ≤ depth → small HISTORY_CHARS depth (fst (bound_value v limit 0)).
Proof.
  intros Hl Hd. eapply small_le; [| |apply (bound_value_small v limit 0)].
  - unfold HISTORY_CHARS, cut_chars. lia.
  - change (S (GENERIC_DEPTH - 0)) with 9. lia.
  - unfold GENERIC_DEPTH. lia.
Qed.

Lemma generic_small depth v : 9 ≤ depth → small HISTORY_CHARS depth (fst (project_generic_value v)).
Proof. by apply limited_small. Qed.

Lemma limited_text s limit tail depth :
  (limit <= USER_GUIDANCE_CHARS)%N →
  small HISTORY_CHARS (S depth) (String (fst (sanitize_and_bound_text s limit tail))).
Proof.
  intros Hl. eapply small_le; [| |apply (small_text s limit tail depth)]; [|lia].
  unfold HISTORY_CHARS, cut_chars. lia.
Qed.

Definition limits_ok (fields : list (string * N)) : bool :=
  forallb (λ f, (snd f <=? USER_GUIDANCE_CHARS)%N) fields.

Lemma within_copy depth input fields n p :
  9 ≤ depth → limits_ok fields = true → within depth n p →
  within depth (n + length fields) (copy_bounded_fields input fields p).
Proof.
  intros Hd. revert n p. induction fields as [|[key limit] fields IH]; intros n p; cbn [limits_ok forallb length];
    [by rewrite Nat.add_0_r|].
  intros [Hl Hls]%andb_true_iff Hp. unfold copy_bounded_fields. cbn [foldl].
  replace (n + S (length fields)) with (S n + length fields) by lia. apply IH; [done|].
  unfold copy_bounded_field. cbn [fst snd] in *. apply N.leb_le in Hl.
  destruct (map_get (rs key) input) as [v|]; [|by eapply within_le; [|exact Hp]; lia].
  pose proof (limited_small limit depth v Hl Hd) as Hv. destruct (bound_value v limit 0) as [v' cut].
  by apply within_mark, within_put.
Qed.

Lemma small_object depth n p :
  n ≤ GENERIC_OBJECT_FIELDS → within depth n p → small HISTORY_CHARS (S depth) (fst (finish_object p)).
Proof. intros Hn [Hlen Hall]. split; [lia|done]. Qed.

Lemma small_obj depth fields :
  length fields ≤ GENERIC_OBJECT_FIELDS → Forall (λ f, small HISTORY_CHARS depth (snd f)) fields →
  small HISTORY_CHARS (S depth) (obj fields).
Proof.
  intros Hlen Hall. unfold obj, json_object.
  assert (∀ l acc, Forall (λ f, small HISTORY_CHARS depth (snd f)) l →
    Forall (λ f, small HISTORY_CHARS depth (snd f)) acc →
    let object := foldl (λ object '(k, v), map_insert k v object) acc l in
    length object ≤ length acc + length l ∧ Forall (λ f, small HISTORY_CHARS depth (snd f)) object) as H.
  { clear. induction l as [|[k v] l IH]; intros acc Hl Hacc; cbn [foldl length]; [by split; [lia|]|].
    apply Forall_cons in Hl as [Hv Hl]. destruct (IH (map_insert k v acc) Hl) as [H1 H2];
      [by apply map_insert_Forall|]. pose proof (map_insert_length k v acc). split; [lia|done]. }
  destruct (H (map (λ f, (rs (fst f), snd f)) fields) []) as [H1 H2]; [by apply Forall_fmap|constructor|].
  rewrite length_map in H1. split; [cbn [length] in H1; lia|done].
Qed.

Lemma small_on_object project value :
  (∀ input, small HISTORY_CHARS HISTORY_DEPTH (fst (project input))) →
  small HISTORY_CHARS HISTORY_DEPTH (fst (on_object project value)).
Proof. intros H. destruct value; try (by apply generic_small; unfold HISTORY_DEPTH; lia). apply H. Qed.

(** ** Parts of the projections *)

Lemma within_summary limit flag input n p :
  (limit <= USER_GUIDANCE_CHARS)%N → within 11 n p → within 11 (2 + n) (put_summary limit flag input p).
Proof.
  intros Hl Hp. unfold put_summary. destruct (first_of _ input ≫= as_str) as [s|]; [|by eapply within_le; [|exact Hp]; lia].
  pose proof (limited_text s limit false 10 Hl) as Hs. destruct (sanitize_and_bound_text s limit false).
  by apply within_mark, within_put, within_put.
Qed.

Lemma within_truncated input n p : within 11 n p → within 11 (S n) (put_truncated input p).
Proof. by apply within_put. Qed.

Lemma small_items project limit items :
  limit ≤ GENERIC_ARRAY_ITEMS → (∀ v, small HISTORY_CHARS 10 (fst (project v))) →
  small HISTORY_CHARS 11 (Array (fst (project_items project limit items))).
Proof.
  intros Hl Hp. unfold project_items. cbn [fst small]. rewrite map_map, length_map, length_take. split; [lia|].
  apply Forall_fmap, Forall_forall. intros v _. apply Hp.
Qed.

Lemma within_failed input n p : within 11 n p → within 11 (S n) (put_failed_results input p).
Proof.
  intros Hp. unfold put_failed_results. destruct (array_at _ input) as [failed|]; [|by eapply within_le; [|exact Hp]; lia].
  pose proof (small_items project_generic_value WEB_FAILED_RESULTS failed ltac:(unfold WEB_FAILED_RESULTS, GENERIC_ARRAY_ITEMS; lia)
    (λ v, generic_small 10 v ltac:(lia))) as H.
  destruct (project_items _ _ _) as [selected cut]. by apply within_mark, within_put.
Qed.

Lemma small_entry v : small HISTORY_CHARS 10 (fst (project_web_search_entry v)).
Proof.
  unfold project_web_search_entry, project_selected_object, on_object.
  destruct v as [| | | | |input]; try (by apply generic_small; lia).
  unfold project_selected_map. eapply small_object; [|apply within_copy; [done|reflexivity|apply within_empty]].
  cbn. unfold GENERIC_OBJECT_FIELDS. lia.
Qed.

Lemma within_results input n p : within 11 n p → within 11 (2 + n) (put_search_results input p).
Proof.
  intros Hp. unfold put_search_results. destruct (array_at _ input) as [results|]; [|by eapply within_le; [|exact Hp]; lia].
  pose proof (small_items project_web_search_entry WEB_SEARCH_RESULTS results
    ltac:(unfold WEB_SEARCH_RESULTS, GENERIC_ARRAY_ITEMS; lia) small_entry) as H.
  destruct (project_items _ _ _) as [selected cut]. apply within_mark, within_put; [done|].
  apply within_put; [|done]. apply small_obj; [unfold GENERIC_OBJECT_FIELDS; cbn [length]; lia|]. by repeat constructor.
Qed.

Lemma within_source input n p : within 11 n p → within 11 (S n) (put_source_truncated input p).
Proof.
  intros Hp. unfold put_source_truncated. destruct (_ || _); [by apply within_put|]. by eapply within_le; [|exact Hp]; lia.
Qed.

Lemma within_stream source target flag input n p :
  within 11 n p → within 11 (2 + n) (put_stream source target flag input p).
Proof.
  intros Hp. unfold put_stream. destruct (first_of _ input ≫= as_str) as [s|]; [|by eapply within_le; [|exact Hp]; lia].
  pose proof (limited_text s COMMAND_OUTPUT_TAIL_CHARS true 10 ltac:(done)) as Hs.
  destruct (sanitize_and_bound_text s _ true). by apply within_mark, within_put, within_put.
Qed.

Lemma within_generic input n p key : within 11 n p → within 11 (S n) (put_generic input p key).
Proof.
  intros Hp. unfold put_generic. destruct (map_get _ input) as [v|]; [|by eapply within_le; [|exact Hp]; lia].
  pose proof (generic_small 11 v ltac:(lia)) as Hv. destruct (project_generic_value v). by apply within_mark, within_put.
Qed.

Lemma within_running input n p : within 11 n p → within 11 (2 + n) (put_running_output input p).
Proof.
  intros Hp. unfold put_running_output.
  assert (∃ q cut, (match str_at "output" input with
    | None => (p, false)
    | Some value =>
        let '(value, cut) := sanitize_and_bound_text value COMMAND_OUTPUT_TAIL_CHARS true in
        (p |> put "output" (String value) |> mark cut, cut)
    end) = (q, cut) ∧ within 11 (S n) q) as (q & cut & -> & Hq).
  { destruct (str_at "output" input) as [s|]; [|do 2 eexists; split; [done|]; by eapply within_le; [|exact Hp]; lia].
    pose proof (limited_text s COMMAND_OUTPUT_TAIL_CHARS true 10 ltac:(done)) as Hs.
    destruct (sanitize_and_bound_text s _ true). do 2 eexists. split; [done|]. by apply within_mark, within_put. }
  destruct (_ || _); [by apply within_put|]. by eapply within_le; [|exact Hq]; lia.
Qed.

Lemma within_session_read input n p : within 11 n p → within 11 (S n) (put_session_read input p).
Proof.
  intros Hp. unfold put_session_read. destruct (map_get _ input) as [[| | | | |read]|];
    try (by eapply within_le; [|exact Hp]; lia).
  set (fields := [_; _; _; _; _; _]).
  pose proof (within_copy 10 read fields 0 ([], false) ltac:(lia) ltac:(reflexivity) (within_empty 10)) as H.
  destruct (copy_bounded_fields read fields _) as [projected cut]. apply within_mark, within_put; [|done].
  apply (small_object 10 _ (projected, cut)) in H; [done|]. cbn. unfold GENERIC_OBJECT_FIELDS. lia.
Qed.

Lemma within_foldl {A} (f : Projection → A → Projection) (l : list A) n p :
  (∀ a n q, within 11 n q → within 11 (S n) (f q a)) → within 11 n p → within 11 (n + length l) (foldl f p l).
Proof.
  intros Hf. revert n p. induction l as [|a l IH]; intros n p Hp; cbn [foldl length]; [by rewrite Nat.add_0_r|].
  replace (n + S (length l)) with (S n + length l) by lia. by apply IH, Hf.
Qed.

(** ** Observations *)

Create HintDb within.
#[local] Hint Resolve within_truncated within_failed within_summary within_source within_results within_stream
  within_running within_session_read within_mark within_put within_empty : within.
#[local] Hint Extern 1 (within _ _ (copy_bounded_fields _ _ _)) =>
  apply within_copy; [lia|reflexivity|apply within_empty] : within.
#[local] Hint Extern 1 (_ <= USER_GUIDANCE_CHARS)%N => done : within.

(** The number of fields of an output is counted along its construction. *)
Ltac count_fields := cbn [length Nat.add]; unfold GENERIC_OBJECT_FIELDS; lia.
Ltac small_output :=
  apply small_on_object; intros input; apply (small_object 11 40); [count_fields|];
  eapply within_le; [|eauto 10 with within]; count_fields.

Lemma web_fetch_small v : small HISTORY_CHARS HISTORY_DEPTH (fst (project_web_fetch_result v)).
Proof. small_output. Qed.

Lemma web_search_small v : small HISTORY_CHARS HISTORY_DEPTH (fst (project_web_search_result v)).
Proof. small_output. Qed.

Lemma read_result_small v : small HISTORY_CHARS HISTORY_DEPTH (fst (project_read_result v)).
Proof. small_output. Qed.

Lemma apply_patch_result_small v : small HISTORY_CHARS HISTORY_DEPTH (fst (project_apply_patch_result v)).
Proof.
  apply small_on_object. intros input. apply (small_object 11 40); [count_fields|].
  eapply within_le; [|apply within_foldl; [|eauto with within]].
  - count_fields.
  - intros key n q Hq. destruct (map_get (rs key) input) as [value|]; [|by eapply within_le; [|exact Hq]; lia].
    destruct (bool_decide_reflect (is_Some (as_u64 value))) as [Hu|]; [|by eapply within_le; [|exact Hq]; lia].
    apply within_put; [|done]. destruct value; try done; by destruct Hu.
Qed.

Lemma run_command_small v : small HISTORY_CHARS HISTORY_DEPTH (fst (project_run_command_result v)).
Proof.
  apply small_on_object. intros input. cbv zeta. destruct (is_str _ "rejected"); [|destruct (is_str _ "running")].
  - apply (small_object 11 40); [count_fields|]. eapply within_le; [|eauto with within]. count_fields.
  - apply (small_object 11 40); [count_fields|]. eapply within_le; [|eauto with within]. count_fields.
  - apply (small_object 11 40); [count_fields|].
    eapply within_le; [|apply within_foldl; [intros; by apply within_generic|eauto with within]]. count_fields.
Qed.

Lemma command_session_small v : small HISTORY_CHARS HISTORY_DEPTH (fst (project_command_session_result v)).
Proof.
  destruct v as [| | | | |input]; try (split; [cbn; lia|constructor]).
  apply (small_object 11 40); [count_fields|]. eapply within_le; [|eauto with within]. count_fields.
Qed.

Lemma skill_resource_small v : small HISTORY_CHARS HISTORY_DEPTH (fst (project_skill_resource_result v)).
Proof.
  apply small_on_object. intros input. apply (small_object 11 40); [count_fields|].
  set (p := copy_bounded_fields input _ _).
  assert (within 11 14 p) as Hp by (eapply within_le; [|subst p; auto with within]; count_fields).
  destruct (_ || _); [apply within_mark, (within_le _ 15), within_put; [lia|done..]|by apply (within_le _ 14); [lia|]].
Qed.

Lemma conversation_history_small v : small HISTORY_CHARS HISTORY_DEPTH (fst (project_conversation_history_result v)).
Proof.
  apply small_on_object. intros input. unfold project_conversation_history_result.
  destruct (omit_records _) as [metadata omitted]. cbv zeta.
  match goal with |- context [project_generic_value ?w] => pose proof (generic_small HISTORY_DEPTH w ltac:(unfold HISTORY_DEPTH; lia)) as H end.
  by destruct (project_generic_value _).
Qed.

Section Json.
Context {json : JsonServices}.

(** A display of a person's answers is kept whole; it has its own limits. *)
Lemma observation_small tool v :
  (is_str tool "request_user_input" = true → valid_value v = false) →
  small HISTORY_CHARS HISTORY_DEPTH (fst (project_observation tool v)).
Proof.
  intros Hask. unfold project_observation.
  repeat case_match; try (by apply generic_small; unfold HISTORY_DEPTH; lia);
    eauto using web_fetch_small, web_search_small, apply_patch_result_small, run_command_small,
      command_session_small, conversation_history_small, skill_resource_small, read_result_small.
  unfold project_human_interaction_response. rewrite Hask by done. apply generic_small. unfold HISTORY_DEPTH. lia.
Qed.
End Json.

(** * The projection of a valid history

    The projection keeps what the validator compares between items, the
    [skeleton] of an item, and keeps every item right on its own: the projection
    of a valid history is valid. *)

(** ** Skeletons *)

(** An attachment without its name and type. *)
Definition attachment_skeleton (a : ConversationTraceAttachment) : ConversationTraceAttachment :=
  mkAttachment (attached_id a) (attached_kind a) [] None (attached_size_bytes a) (attached_pasted_text a).

(** An archive without the mark that the history was cut. *)
Definition archive_skeleton (a : ConversationHistoryArchiveTraceMetadata) : ConversationHistoryArchiveTraceMetadata :=
  mkArchive (archive_ref a) (content_hash a) (archived_bytes a) (archived_completely a)
    (truncated_at_source a) (model_projection_truncated a) false (archive_projection_truncated a).

(** An item without the texts and values that the projection bounds, and the
    marks that they were cut; everything else is there: identities, bindings,
    sequence numbers, times, tools, approvals, statuses, outcomes, archives, the
    code of an error, mail and material as they are. *)
Definition skeleton (item : ConversationTurnTraceItem) : ConversationTurnTraceItem :=
  match item with
  | AssistantNarration s _ provider_turn_id first_tool_call_id _ =>
      AssistantNarration s [] provider_turn_id first_tool_call_id false
  | UserGuidance s guidance_id client_message_id _ attachments references created_at _ =>
      UserGuidance s guidance_id client_message_id [] (attachment_skeleton <$> attachments)
        (model_projection <$> references) created_at false
  | ToolCall s id tool provenance _ approval _ => ToolCall s id tool provenance Null approval false
  | ToolResult s id tool status success _ approval _ _ archive =>
      ToolResult s id tool status success Null approval None false (archive_skeleton archive)
  | RuntimeError s _ recoverable code _ => RuntimeError s [] recoverable code false
  | ContextMaterial _ _ _ _ _ _ | BackendState _ _ _ _ _ | WorkflowDelivery _ _ _ _ _ _ _
  | AgentMailboxDelivery _ _ _ _ _ _ _ _ _ _ | CommandSessionLifecycle _ _
  | ContextCompactionLifecycle _ _ _ _ => item
  end.

Lemma omap_skeleton {B} (f : ConversationTurnTraceItem → option B) (h : history) :
  (∀ x, f (skeleton x) = f x) → omap f (skeleton <$> h) = omap f h.
Proof. intros Hf. induction h as [|x h IH]; [done|]. cbn. rewrite Hf. cbn in IH. by rewrite IH. Qed.

Lemma open_call_skeleton (h : history) : open_call (skeleton <$> h) = open_call h.
Proof.
  induction h as [|x h IH] using rev_ind; [done|].
  rewrite fmap_app. cbn [fmap list_fmap]. rewrite !open_call_snoc, IH. by destruct x.
Qed.

Lemma called_skeleton (h : history) : called (skeleton <$> h) = called h.
Proof. unfold called. by rewrite omap_skeleton by by intros []. Qed.

Lemma fits_skeleton (h : history) x : fits (skeleton <$> h) (skeleton x) ↔ fits h x.
Proof.
  destruct x; cbn [skeleton fits];
    rewrite ?open_call_skeleton, ?called_skeleton, ?omap_skeleton by (by intros []); done.
Qed.

Section Services.
Context {services : TraceServices}.

Lemma well_formed_skeleton (h h' : history) :
  skeleton <$> h' = skeleton <$> h → Forall item_ok h' → well_formed h → well_formed h'.
Proof.
  intros E Hok Hwf before x after Eh. subst h'.
  apply Forall_app in Hok as [_ [Hx _]%Forall_cons]. split; [done|].
  rewrite fmap_app in E. symmetry in E. apply fmap_app_inv in E as (before' & rest & Hb & Hrest & ->).
  cbn [fmap list_fmap] in Hrest. destruct rest as [|y after']; [done|]. injection Hrest as Hxy Ha.
  destruct (Hwf before' y after' eq_refl) as [_ [Hlast Hfit]]. split.
  - intros previous Hp. assert (∃ previous', last before' = Some previous' ∧ skeleton previous' = skeleton previous)
      as (previous' & Hp' & Es).
    { pose proof (f_equal last Hb) as H. rewrite !fmap_last, Hp in H. cbn in H.
      destruct (last before') as [q|]; [|done]. injection H as H. by exists q. }
    assert (∀ z, sequence (skeleton z) = sequence z) as Hseq by by intros [].
    rewrite <-(Hseq previous), <-(Hseq x), Hxy, <-Es, !Hseq. by apply Hlast.
  - apply fits_skeleton. rewrite Hxy, Hb. by apply fits_skeleton.
Qed.

Lemma ended_skeleton status (h h' : history) : skeleton <$> h' = skeleton <$> h → ended status h → ended status h'.
Proof.
  intros E. unfold ended. rewrite <-(open_call_skeleton h'), <-(open_call_skeleton h), E.
  rewrite <-(omap_skeleton compaction_of h'), <-(omap_skeleton compaction_of h), E by by intros [].
  done.
Qed.

(** ** Items *)

Context {json : JsonServices} (sha256_hex : list N → rstr).

(** The identities of calls kept with the failures met so far. *)
Definition signatures_clean (signatures : gmap rstr rstr) : Prop :=
  ∀ signature id, signatures !! signature = Some id → clean_text id.

Lemma project_failure_ok signatures id tool status success observation error cut :
  signatures_clean signatures → clean_text id → clean_value observation →
  (∀ s, error = Some s → clean_text s) →
  let '(observation', error', _, signatures') :=
    project_failure signatures id tool status success observation error cut in
  signatures_clean signatures' ∧ clean_value observation' ∧ ∀ s, error' = Some s → clean_text s.
Proof.
  intros Hs Hid Ho He. unfold project_failure. destruct (_ && _ && _); [|done]. cbv zeta.
  destruct (signatures !! _) as [first|] eqn:E.
  - split_and!; try done. apply clean_object. repeat (apply map_insert_Forall || constructor); try done;
      try (by apply safe_field). apply safe_field; [done|]. apply clean_string. by apply (Hs _ _ E).
  - split_and!; try done. intros signature first [[_ <-]|[_ H]]%lookup_insert_Some; [done|by eapply Hs].
Qed.

Lemma project_attachment_skeleton a : attachment_skeleton (fst (project_attachment a)) = attachment_skeleton a.
Proof.
  unfold project_attachment. destruct (project_attachment_text _) as [name cut].
  destruct (attached_mime_type a) as [mime|]; [|done]. by destruct (project_attachment_text mime).
Qed.

Lemma project_attachment_ok a :
  attachment_ok a → attachment_ok (fst (project_attachment a))
                    ∧ attached_id (fst (project_attachment a)) = attached_id a.
Proof.
  intros (Hid & Hname & Hp & Hc & Hm). unfold project_attachment.
  pose proof (bounded_visible (attached_name a) PATH_CHARS false) as Hv.
  pose proof (bounded_clean _ PATH_CHARS false Hc) as Hc'. unfold project_attachment_text.
  destruct (sanitize_and_bound_text (attached_name a) _ _) as [name cut]. cbn [fst] in *.
  apply not_blank, Hv, not_blank in Hname.
  destruct (attached_mime_type a) as [mime|] eqn:Em.
  - pose proof (bounded_clean _ PATH_CHARS false (Hm _ eq_refl)) as Hm'.
    destruct (sanitize_and_bound_text mime _ _) as [mime' cut']. cbn [fst] in *.
    split; [|done]. split_and!; try done. by intros m [= <-].
  - split; [|done]. by split_and!.
Qed.

Lemma project_item_ok signatures x :
  signatures_clean signatures → item_ok x → (∀ id, is_result_of id x = true → clean_text id) →
  let '(x', _, signatures') := project_item sha256_hex signatures x in
  item_ok x' ∧ skeleton x' = skeleton x ∧ signatures_clean signatures'.
Proof.
  intros Hs Hx Hid. destruct x as [| |sq content p t tr|sq g c content atts refs time tr| | |
    sq id tool prov op ap tr|sq id tool status success obs ap error tr archive| | |sq message rec code tr];
    cbn [project_item]; try (by split_and!).
  - destruct Hx as (Hbind & Hb & Hc). unfold project_narration.
    pose proof (bounded_visible content ASSISTANT_NARRATION_CHARS false) as Hv.
    pose proof (bounded_clean _ ASSISTANT_NARRATION_CHARS false Hc) as Hc'.
    destruct (sanitize_and_bound_text content _ _) as [text cut]. cbn [fst] in *.
    split; [split_and!|by split]; try done. apply not_blank, Hv. by apply not_blank.
  - destruct Hx as (Hg & Hcl & Hsome & Ht & Hc & Ha & Hnd & Hf).
    assert (clean_text (fst (project_user_guidance content))
            ∧ (is_blank content = false → is_blank (fst (project_user_guidance content)) = false)) as [Hc' Hv].
    { unfold project_user_guidance. destruct (_ && _); [done|]. split; [by apply bounded_clean|].
      intros Hb. apply not_blank, bounded_visible. by apply not_blank. }
    destruct (project_user_guidance content) as [text cut]. cbn [fst] in *.
    split; [split_and!|split; [|done]]; try done.
    + destruct Hsome as [H|[H|H]]; [left; by apply Hv|right; left|right; right]; by destruct atts, refs.
    + rewrite map_map. apply Forall_fmap, (Forall_impl _ _ _ Ha). intros a H. by apply project_attachment_ok.
    + rewrite (map_map project_attachment fst).
      assert (attached_id <$> map (λ a, fst (project_attachment a)) atts = attached_id <$> atts) as ->; [|done].
      change (map ?f ?l) with (f <$> l). rewrite <-list_fmap_compose.
      apply list_fmap_ext. intros i a Hi. rewrite Forall_lookup in Ha. by apply (project_attachment_ok a), (Ha i).
    + by apply Forall_fmap.
    + cbn [skeleton]. change (map ?f ?l) with (f <$> l). rewrite <-!list_fmap_compose. f_equal.
      apply list_fmap_ext. intros i a _. apply project_attachment_skeleton.
  - destruct Hx as (Hb & Htool & Hprov & Hop).
    pose proof (tool_call_clean sha256_hex tool op Hop) as Hop'.
    destruct (project_tool_call sha256_hex tool op) as [op' cut]. by split_and!.
  - destruct Hx as (Hstatus & Hobs & Herr & Har). unfold project_tool_result.
    pose proof (observation_clean tool obs Hobs) as Hobs'. pose proof (project_error_clean error Herr) as Herr'.
    destruct (project_observation tool obs) as [obs' cut], (project_error error) as [err' cut']. cbn [fst] in *.
    specialize (Hid id). cbn in Hid. rewrite (proj2 (str_eqb_eq id id) eq_refl) in Hid.
    pose proof (project_failure_ok signatures id tool status success obs' err' (cut || cut') Hs (Hid eq_refl)
      Hobs' Herr') as H.
    destruct (project_failure _ _ _ _ _ _ _ _) as [[[obs2 err2] cut2] signatures'].
    destruct H as (Hs' & Ho2 & He2). by split_and!.
  - destruct Hx as (Hb & Hc & Hcode).
    pose proof (bounded_visible message TERMINAL_ERROR_CHARS false) as Hv.
    pose proof (bounded_clean _ TERMINAL_ERROR_CHARS false Hc) as Hc'. unfold project_terminal_error.
    destruct (sanitize_and_bound_text message _ _) as [text cut]. cbn [fst] in *.
    assert (fst (sanitize_optional_text code) = code) as Hsame.
    { destruct code as [c|]; [|done]. destruct (Hcode c eq_refl) as (_ & _ & H). cbn.
      revert H. unfold clean_text, sanitize_runtime_text. by destruct (_ && _). }
    destruct (sanitize_optional_text code) as [code' cut']. cbn [fst] in *. subst code'.
    split; [split_and!|by split]; try done. apply not_blank, Hv. by apply not_blank.
Qed.

Lemma project_suffix_ok signatures h :
  signatures_clean signatures → Forall item_ok h →
  (∀ id x, x ∈ h → is_result_of id x = true → clean_text id) →
  let h' := fst (project_durable_trace_suffix sha256_hex signatures h) in
  Forall item_ok h' ∧ skeleton <$> h' = skeleton <$> h.
Proof.
  revert signatures. induction h as [|x h IH]; intros signatures Hs Hok Hid; [done|]. cbv zeta.
  apply Forall_cons in Hok as [Hx Hh]. cbn [project_durable_trace_suffix].
  pose proof (project_item_ok signatures x Hs Hx (λ id, Hid id x ltac:(by left))) as H.
  destruct (project_item sha256_hex signatures x) as [[x' cut] signatures']. destruct H as (Hx' & Hsk & Hs').
  specialize (IH signatures' Hs' Hh (λ id y Hy, Hid id y ltac:(by right))).
  destruct (project_durable_trace_suffix _ _ h) as [h' cut']. destruct IH as [Hok' Hsk'].
  cbn [fst] in *. split; [by constructor|]. cbn [fmap list_fmap]. rewrite Hsk. f_equal. exact Hsk'.
Qed.

(** The projection of a valid history with clean identities of calls. *)
Lemma projected_history h :
  well_formed h → Forall clean_text (called h) →
  well_formed (fst (project_durable_trace_items sha256_hex h))
  ∧ skeleton <$> fst (project_durable_trace_items sha256_hex h) = skeleton <$> h.
Proof.
  intros Hwf Hc.
  assert (Forall item_ok h) as Hok.
  { apply Forall_forall. intros x (before & after & ->)%list_elem_of_split. by apply (Hwf before x after). }
  destruct (project_suffix_ok ∅ h) as [Hok' Hsk]; [|done| |].
  - intros signature id H. by rewrite lookup_empty in H.
  - intros id x Hx Hr. rewrite Forall_forall in Hc. apply Hc. by eapply results_called.
  - split; [|done]. by eapply well_formed_skeleton.
Qed.
End Services.
