(* ===== verification/ModelContext.v ===== *)
(** * The log of what the model was shown

    [ConversationModelContextItem] and its checks against the trace, of
    [core/src/conversation_trace/model.rs] and [validation.rs]. *)

From S2P Require Import Prelude RustText Json ApplyPatchWire TraceSanitizer TraceItems.
From S2P Require Import TraceValidation.

Record AgentProviderToolCallIdentity := mkProviderIdentity {
  provider_tool_index : N;
  provider_call_id : rstr;
  runtime_call_id : rstr;
}.

Record AgentContextCheckpointToolCall := mkModelCall {
  model_call_id : rstr;
  model_call_name : rstr;
  model_call_args : Value;
  provider_identity : AgentProviderToolCallIdentity;
}.

Record ConversationModelContextItem := mkModelItem {
  model_sequence : N;
  ordinal : N;
  role : rstr;
  model_content : rstr;
  model_images : list ConversationContextImageRef;
  tool_call_id : option rstr;
  tool_calls : list AgentContextCheckpointToolCall;
  is_error : bool;
}.

#[export] Instance image_ref_eq_dec : EqDecision ConversationContextImageRef.
Proof. solve_decision. Defined.

Definition MAX_PROVIDER_TOOL_CALL_ID_BYTES : N := 16 * 1024.

(** [(item.sequence, item.ordinal)], compared in this order. *)
Definition identity (item : ConversationModelContextItem) : N * N := (model_sequence item, ordinal item).

Definition identity_lt (a b : N * N) : bool :=
  (fst a <? fst b)%N || (fst a =? fst b)%N && (snd a <? snd b)%N.

Definition is_exact_file_text_model_call (tool : rstr) (args : Value) : bool :=
  is_str tool "apply_patch" && apply_patch_wire_is_valid args.

(** [validate_provider_tool_call_id(..).is_ok()] *)
Definition is_provider_tool_call_id (id : rstr) : bool :=
  negb (text_len id =? 0)%N && (text_len id <=? MAX_PROVIDER_TOOL_CALL_ID_BYTES)%N.

(** The loop over the calls of an assistant message, with the Provider indices
    and runtime identities met, and the previous index. *)
Fixpoint validate_model_calls (runtime_call_ids : gset rstr) (provider_indices : gset N)
    (previous_provider_index : option N) (calls : list AgentContextCheckpointToolCall)
    : result rstr () :=
  match calls with
  | [] => Ok ()
  | call :: calls =>
      let identity := provider_identity call in
      let index := provider_tool_index identity in
      ensure (negb (is_blank (model_call_id call)) && is_provider_safe_tool_name (model_call_name call))
        "model context tool call identity is invalid";;
      ensure (is_provider_tool_call_id (provider_call_id identity))
        "model context provider tool call identity is invalid";;
      ensure
        (str_eqb (runtime_call_id identity) (model_call_id call)
         && bool_decide (runtime_call_id identity ∉ runtime_call_ids)
         && bool_decide (index ∉ provider_indices)
         && is_none_or previous_provider_index (λ previous, previous <? index)%N)
        "model context Provider/Runtime tool call mapping is inconsistent";;
      (if is_exact_file_text_model_call (model_call_name call) (model_call_args call) then Ok ()
       else ensure_no_binary_value "model context tool call" (model_call_args call));;
      validate_model_calls ({[runtime_call_id identity]} ∪ runtime_call_ids)
        ({[index]} ∪ provider_indices) (Some index) calls
  end.

(** [ConversationModelContextItem::validate]. *)
Definition validate_model_item (item : ConversationModelContextItem) : result rstr () :=
  ensure_no_binary_text "model context content" (model_content item);;
  validate_context_images (model_images item);;
  ensure (is_str (role item) "user" || is_nil (model_images item))
    "model context image references require a user message";;
  if is_str (role item) "user" then
    ensure (bool_decide (tool_call_id item = None) && is_nil (tool_calls item) && negb (is_error item))
      "model context user message contains tool protocol fields"
  else if is_str (role item) "assistant" then
    ensure (bool_decide (tool_call_id item = None) && negb (is_error item))
      "model context assistant message contains tool-result fields";;
    validate_model_calls ∅ ∅ None (tool_calls item)
  else if is_str (role item) "tool" then
    ensure (is_some_and (tool_call_id item) (λ call_id, negb (is_blank call_id))
            && is_nil (tool_calls item))
      "model context tool result identity is invalid"
  else refuse "model context message role is invalid".

(** The role and the fields a message shows for an item of the trace. *)
Definition model_item_matches (item : ConversationModelContextItem)
    (trace_item : ConversationTurnTraceItem) : bool :=
  let plain (r : string) := is_str (role item) r && bool_decide (tool_call_id item = None) && is_nil (tool_calls item) in
  match trace_item with
  | AssistantNarration _ _ _ _ _ => plain "assistant" && negb (is_blank (model_content item))
  | UserGuidance _ _ _ _ _ _ _ _ | AgentMailboxDelivery _ _ _ _ _ _ _ _ _ _ =>
      plain "user" && negb (is_blank (model_content item))
  | WorkflowDelivery _ _ _ _ content _ _ | BackendState _ _ content _ _ =>
      (ordinal item =? 0)%N && plain "user" && negb (is_error item)
      && str_eqb (model_content item) content
  | ContextMaterial _ _ _ content images _ =>
      (ordinal item =? 0)%N && plain "user" && negb (is_error item)
      && str_eqb (model_content item) content && bool_decide (model_images item = images)
  | ToolCall _ call_id tool _ _ _ _ =>
      is_str (role item) "assistant" && bool_decide (tool_call_id item = None)
      && match tool_calls item with
         | [call] => str_eqb (model_call_id call) call_id && str_eqb (model_call_name call) tool
         | _ => false
         end
  | ToolResult _ call_id _ _ _ _ _ _ _ _ =>
      is_str (role item) "tool"
      && is_some_and (tool_call_id item) (λ id, str_eqb id call_id)
      && is_nil (tool_calls item)
  | CommandSessionLifecycle _ _ | ContextCompactionLifecycle _ _ _ _ | RuntimeError _ _ _ _ _ => false
  end.

Definition validate_model_item_against_trace (item : ConversationModelContextItem)
    (trace_item : ConversationTurnTraceItem) : result rstr () :=
  ensure (is_nil (model_images item)
          || match trace_item with ContextMaterial _ _ _ _ _ _ => true | _ => false end)
    "model context images have no matching context material";;
  ensure (model_item_matches item trace_item)
    "model context item identity does not match its durable trace item".

Definition find_sequence (trace_items : list ConversationTurnTraceItem) (s : N)
    : option ConversationTurnTraceItem :=
  List.find (λ trace_item, sequence trace_item =? s)%N trace_items.

(** The loop of [validate_model_context_prefix], with the previous identity. *)
Fixpoint validate_model_items (trace_items : list ConversationTurnTraceItem)
    (previous_identity : option (N * N)) (items : list ConversationModelContextItem) : result rstr () :=
  match items with
  | [] => Ok ()
  | item :: items =>
      validate_model_item item;;
      ensure (is_none_or previous_identity (λ previous, identity_lt previous (identity item)))
        "model context item identity must be strictly increasing";;
      trace_item ← ok_or (find_sequence trace_items (model_sequence item))
        (rs "model context item references a missing trace sequence");
      validate_model_item_against_trace item trace_item;;
      validate_model_items trace_items (Some (identity item)) items
  end.

(** A [BTreeSet] of sequence numbers. *)
Definition sequence_set (sequences : list N) : gset N := list_to_set sequences.

Definition is_staged_open_call (trace : ConversationTurnTrace) (boundary : ConversationTurnTraceItem)
    (covered_through : N) : bool :=
  bool_decide (terminal_status trace = TurnInProgress)
  && negb (is_safe_compaction_boundary boundary)
  && bool_decide (sequence <$> last (items trace) = Some covered_through).

Definition validate_model_context_prefix (trace : ConversationTurnTrace)
    (log : list ConversationModelContextItem) : result rstr () :=
  validate_model_items (items trace) None log;;
  match last log with
  | None => Ok ()
  | Some item =>
      let covered_through := model_sequence item in
      let expected :=
        sequence <$> List.filter is_model_visible
          (take_while (λ x, sequence x <=? covered_through)%N (items trace)) in
      ensure (bool_decide (sequence_set (model_sequence <$> log) = sequence_set expected))
        "model context items must cover a complete contiguous trace prefix";;
      boundary ← ok_or (find_sequence (items trace) covered_through)
        (rs "model context prefix boundary is missing");
      ensure (is_safe_compaction_boundary boundary
              || is_staged_open_call trace boundary covered_through)
        "model context prefix cannot end with an unresolved tool call"
  end.

Definition unresolved_call_sequence (trace : ConversationTurnTrace) : option N :=
  if bool_decide (terminal_status trace = TurnInProgress)
  then sequence <$> unresolved_call (items trace) else None.

Definition is_not (sequence : option N) (s : N) : bool := negb (bool_decide (sequence = Some s)).

Definition validate_complete_model_context (trace : ConversationTurnTrace)
    (log : list ConversationModelContextItem) : result rstr () :=
  validate_model_context_prefix trace log;;
  let unresolved := unresolved_call_sequence trace in
  let actual := List.filter (is_not unresolved) (model_sequence <$> log) in
  let expected :=
    List.filter (is_not unresolved) (sequence <$> List.filter is_model_visible (items trace)) in
  ensure (bool_decide (sequence_set actual = sequence_set expected))
    "conversation model context must cover every closed trace item".

Definition committed_model_context_prefix (trace : ConversationTurnTrace)
    (log : list ConversationModelContextItem) : result rstr (list ConversationModelContextItem) :=
  validate_model_context_prefix trace log;;
  let committed_len :=
    unresolved_call_sequence trace
      ≫= λ s, position (λ item, model_sequence item =? s)%N log in
  Ok (take (default (length log) committed_len) log).
