(* ===== verification/TraceRecorder.v ===== *)
(** * The recorder of a conversation trace

    [ConversationTraceRecorder] of [core/src/conversation_trace/recorder.rs]: the
    operations of the runtime that add items to the trace of the turn.

    The cache of publications is left out, and messages to the model are texts. *)

From stdpp Require Import sorting.
From S2P Require Import Prelude RustText Json HumanInteraction TraceSanitizer TraceItems.
From S2P Require Import ApplyPatchWire TraceProjection TraceValidation ModelContext.

Record ConversationTraceRecorder := mkRecorder {
  recorded_items : list ConversationTurnTraceItem;
  model_context_items : list ConversationModelContextItem;
  next_sequence : N;
  truncated : bool;
  items_are_durable : bool;
}.

Abbreviation Recorder := ConversationTraceRecorder.

Definition default_recorder : Recorder := mkRecorder [] [] 0 false false.

(** [from_durable_snapshot], and [from_checkpoint_with_model_context]. *)
Definition u64_saturating_succ (n : N) : N := N.min (n + 1) u64_max.

Definition inferred_next (items : list ConversationTurnTraceItem) : N :=
  match sequence <$> items with
  | [] => 0
  | s :: rest => u64_saturating_succ (foldl N.max s rest)
  end.

Definition from_durable_snapshot (items : list ConversationTurnTraceItem)
    (model : list ConversationModelContextItem) (next : N) (truncated : bool) : Recorder :=
  mkRecorder items model (N.max next (inferred_next items)) truncated true.

(** ** Small steps *)

Definition set_items (items : list ConversationTurnTraceItem) (r : Recorder) : Recorder :=
  mkRecorder items (model_context_items r) (next_sequence r) (truncated r) (items_are_durable r).

Definition push_item (item : ConversationTurnTraceItem) (r : Recorder) : Recorder :=
  set_items (recorded_items r ++ [item]) r.

Definition set_model_items (items : list ConversationModelContextItem) (r : Recorder) : Recorder :=
  mkRecorder (recorded_items r) items (next_sequence r) (truncated r) (items_are_durable r).

Definition mark_truncated (b : bool) (r : Recorder) : Recorder :=
  mkRecorder (recorded_items r) (model_context_items r) (next_sequence r) (truncated r || b)
    (items_are_durable r).

Definition advance_sequence (r : Recorder) : Recorder :=
  mkRecorder (recorded_items r) (model_context_items r) (u64_saturating_succ (next_sequence r))
    (truncated r) (items_are_durable r).

(** An item under the sequence number taken for it, and whether it was cut. *)
Definition record_item (item : N → ConversationTurnTraceItem) (cut : bool) (r : Recorder) : Recorder :=
  advance_sequence r |> push_item (item (next_sequence r)) |> mark_truncated cut.

Definition last_is_call (r : Recorder) : bool :=
  match last (recorded_items r) with Some (ToolCall _ _ _ _ _ _ _) => true | _ => false end.

Definition is_call_of (id : rstr) (item : ConversationTurnTraceItem) : bool :=
  match item with ToolCall _ call_id _ _ _ _ _ => str_eqb call_id id | _ => false end.

Definition unresolved_tool_call (r : Recorder) : option ConversationTurnTraceItem :=
  unresolved_call (recorded_items r).

(** [model_context_item_from_message] of a text. *)
Definition model_item_of_text (sequence : N) (role : string) (content : rstr)
    : result rstr (ConversationModelContextItem * bool) :=
  let '(content, content_redacted) := sanitize_runtime_text content in
  let item := mkModelItem sequence 0 (rs role) content [] None [] false in
  validate_model_item item;;
  Ok (item, content_redacted).

Definition identity_le (a b : ConversationModelContextItem) : Prop :=
  identity_lt (identity b) (identity a) = false.

#[export] Instance identity_le_dec : RelDecision identity_le.
Proof. intros a b. unfold identity_le. apply _. Defined.

(** [record_model_message] of a text, under ordinal 0. *)
Definition record_text_message (sequence : N) (role : string) (content : rstr) (r : Recorder)
    : result rstr () * Recorder :=
  if existsb (λ item, (model_sequence item =? sequence)%N && (ordinal item =? 0)%N)
       (model_context_items r)
  then (Ok (), r)
  else
    match model_item_of_text sequence role content with
    | Err message => (Err message, r)
    | Ok (item, cut) =>
        (Ok (),
         r |> set_model_items (merge_sort identity_le (model_context_items r ++ [item]))
           |> mark_truncated cut)
    end.

(** [record_narration_with_provider_turn]; a recorded item is not taken back
    when its message is refused. *)
Definition record_narration (content : rstr) (provider_turn_id first_tool_call_id : option rstr)
    (r : Recorder) : result rstr (option N) * Recorder :=
  let content := trim content in
  if is_nil content then (Ok None, r)
  else
    let '(content, redacted) := sanitize_runtime_text content in
    let sequence := next_sequence r in
    let r :=
      record_item (λ s, AssistantNarration s content provider_turn_id first_tool_call_id redacted) false r in
    match record_text_message sequence "assistant" content r with
    | (Ok _, r) => (Ok (Some sequence), mark_truncated redacted r)
    | (Err message, r) => (Err message, r)
    end.

Definition record_tool_turn_narration (content provider_turn_id first_tool_call_id : rstr)
    (r : Recorder) : result rstr (option N) * Recorder :=
  match validate_narration_binding (Some provider_turn_id) (Some first_tool_call_id) with
  | Err message => (Err message, r)
  | Ok _ => record_narration content (Some provider_turn_id) (Some first_tool_call_id) r
  end.

(** ** Compactions and errors *)

Definition compaction_event (phase : ConversationContextCompactionLifecyclePhase) (operation_id : rstr)
    (item : ConversationTurnTraceItem) : bool :=
  match item with
  | ContextCompactionLifecycle _ existing_phase existing _ =>
      bool_decide (existing_phase = phase) && str_eqb existing operation_id
  | _ => false
  end.

Definition compaction_outcome (item : ConversationTurnTraceItem)
    : option AgentContextCompactionEventOutcome :=
  match item with ContextCompactionLifecycle _ _ _ outcome => outcome | _ => None end.

Definition find_item (p : ConversationTurnTraceItem → bool) (r : Recorder)
    : option ConversationTurnTraceItem := List.find p (recorded_items r).

Definition record_context_compaction_started (operation_id : rstr) (r : Recorder)
    : result rstr N * Recorder :=
  if is_blank operation_id || (2048 <? text_len operation_id)%N || has_control operation_id
  then (refuse "context compaction trace identity is invalid", r)
  else
    match find_item (compaction_event CompactionStarted operation_id) r with
    | Some item => (Ok (sequence item), r)
    | None =>
        if last_is_call r
        then (refuse "context compaction cannot split an unresolved tool exchange", r)
        else
          (Ok (next_sequence r),
           record_item (λ s, ContextCompactionLifecycle s CompactionStarted operation_id None) false r)
    end.

(** The outcome is looked for in the first finished item that has one. *)
Definition finished_outcome (operation_id : rstr) (r : Recorder)
    : option AgentContextCompactionEventOutcome :=
  head (omap (λ item,
    if compaction_event CompactionFinished operation_id item then compaction_outcome item else None)
    (recorded_items r)).

Definition record_context_compaction_finished (operation_id : rstr)
    (outcome : AgentContextCompactionEventOutcome) (r : Recorder) : result rstr N * Recorder :=
  match find_item (compaction_event CompactionStarted operation_id) r with
  | None => (refuse "context compaction finish is missing its durable start", r)
  | Some start =>
      match finished_outcome operation_id r with
      | Some existing_outcome =>
          (if bool_decide (existing_outcome = outcome) then Ok (sequence start)
           else refuse "context compaction outcome conflicts with its trace", r)
      | None =>
          (Ok (sequence start),
           record_item (λ s, ContextCompactionLifecycle s CompactionFinished operation_id (Some outcome))
             false r)
      end
  end.

Definition record_runtime_error (message : rstr) (recoverable : bool) (code : option rstr)
    (r : Recorder) : result rstr N * Recorder :=
  if is_blank message then (refuse "Runtime error trace message cannot be empty", r)
  else if is_some_and code (λ code, is_blank code || (128 <? text_len code)%N || has_control code)
  then (refuse "Runtime error trace code is invalid", r)
  else if last_is_call r
  then (refuse "Runtime error cannot split an unresolved tool exchange", r)
  else
    let '(message, message_truncated) := project_terminal_error message in
    let '(code, code_truncated) := sanitize_optional_text code in
    let cut := message_truncated || code_truncated in
    (Ok (next_sequence r), record_item (λ s, RuntimeError s message recoverable code cut) cut r).

(** ** Inputs of the host *)

Definition has_model_sequence (s : N) (r : Recorder) : bool :=
  existsb (λ item, (model_sequence item =? s)%N) (model_context_items r).

(** A plain message to the model under ordinal 0. *)
Definition is_plain_message (s : N) (content : rstr) (item : ConversationModelContextItem) : bool :=
  (model_sequence item =? s)%N && (ordinal item =? 0)%N && is_str (role item) "user"
  && str_eqb (model_content item) content && is_nil (tool_calls item)
  && bool_decide (tool_call_id item = None) && negb (is_error item).

Definition record_context_material (event_id : rstr) (material_kind : ConversationContextMaterialKind)
    (content : rstr) (images : list ConversationContextImageRef) (created_at : Z) (r : Recorder)
    : result rstr N * Recorder :=
  match validate_context_material event_id material_kind content images created_at with
  | Err message => (Err message, r)
  | Ok _ =>
      let is_event item :=
        match item with ContextMaterial _ existing_id _ _ _ _ => str_eqb existing_id event_id | _ => false end in
      match find_item is_event r with
      | Some existing =>
          let identical :=
            match existing with
            | ContextMaterial _ _ kind text refs time =>
                bool_decide (kind = material_kind) && str_eqb text content
                && bool_decide (refs = images) && (time =? created_at)%Z
            | _ => false
            end in
          let model_is_present :=
            existsb (λ item, is_plain_message (sequence existing) content item
                             && bool_decide (model_images item = images)) (model_context_items r) in
          (if identical && model_is_present then Ok (sequence existing)
           else refuse "context material identity conflicts with its durable journals", r)
      | None =>
          let s := next_sequence r in
          let item := mkModelItem s 0 (rs "user") content images None [] false in
          let checks :=
            ensure (bool_decide (unresolved_tool_call r = None))
              "context material cannot split an unresolved tool exchange";;
            ensure (negb (has_model_sequence s r)) "context material model sequence is already occupied";;
            validate_model_item item in
          match checks with
          | Err message => (Err message, r)
          | Ok _ =>
              (Ok s,
               r |> push_item (ContextMaterial s event_id material_kind content images created_at)
                 |> set_model_items (model_context_items r ++ [item])
                 |> advance_sequence)
          end
      end
  end.

Section Host.
Context {services : TraceServices}.

Definition record_backend_state (expected_sequence : N) (event_id content : rstr) (created_at : Z)
    (placement : ConversationBackendStatePlacement) (r : Recorder)
    : result rstr (option rstr) * Recorder :=
  match validate_backend_state event_id content created_at with
  | Err message => (Err message, r)
  | Ok _ =>
      let is_event item :=
        match item with BackendState _ existing_id _ _ _ => str_eqb existing_id event_id | _ => false end in
      match find_item is_event r with
      | Some existing =>
          let identical :=
            match existing with
            | BackendState s _ text time existing_placement =>
                (s =? expected_sequence)%N && str_eqb text content && (time =? created_at)%Z
                && bool_decide (existing_placement = placement)
            | _ => false
            end in
          let model_is_present :=
            existsb (is_plain_message expected_sequence content) (model_context_items r) in
          (if identical && model_is_present then Ok None
           else refuse "Backend state identity conflicts with its durable journals", r)
      | None =>
          let checks :=
            ensure (next_sequence r =? expected_sequence)%N
              "Backend state expected trace sequence does not match";;
            ensure (bool_decide (unresolved_tool_call r = None))
              "Backend state cannot split an unresolved tool exchange";;
            ensure (negb (has_model_sequence expected_sequence r))
              "Backend state model sequence is already occupied";;
            projected ← model_item_of_text expected_sequence "user" content;
            ensure (negb (snd projected) && str_eqb (model_content (fst projected)) content)
              "Backend state model projection must preserve its exact JSON";;
            Ok (fst projected) in
          match checks with
          | Err message => (Err message, r)
          | Ok item =>
              (Ok (Some content),
               r |> push_item (BackendState expected_sequence event_id content created_at placement)
                 |> set_model_items (model_context_items r ++ [item])
                 |> advance_sequence)
          end
      end
  end.
End Host.

(** What of an [AgentInputAttachment] enters the trace, and whether it was cut. *)
Record AgentInputAttachment := mkInputAttachment {
  input_attachment : ConversationTraceAttachment;
  input_truncated : option bool;
}.

Definition trace_attachment (attachment : AgentInputAttachment) : ConversationTraceAttachment * bool :=
  let a := input_attachment attachment in
  let '(name, name_redacted) := sanitize_runtime_text (attached_name a) in
  let '(mime_type, mime_redacted) := sanitize_optional_text (attached_mime_type a) in
  (mkAttachment (attached_id a) (attached_kind a) name mime_type (attached_size_bytes a)
     (attached_pasted_text a),
   name_redacted || mime_redacted || default false (input_truncated attachment)).

Definition trace_attachments_from_input (attachments : list AgentInputAttachment)
    : list ConversationTraceAttachment * bool :=
  (fst ∘ trace_attachment <$> attachments, existsb (snd ∘ trace_attachment) attachments).

Definition record_user_guidance (guidance_id client_message_id content : rstr)
    (attachments : list AgentInputAttachment) (folder_references : list AgentFolderReference)
    (created_at : Z) (r : Recorder) : option N * Recorder :=
  let content := trim content in
  if is_nil content && is_nil attachments && is_nil folder_references || last_is_call r
  then (None, r)
  else
    let '(content, content_redacted) := sanitize_runtime_text content in
    let '(attachments, attachment_redacted) := trace_attachments_from_input attachments in
    let cut := content_redacted || attachment_redacted in
    (Some (next_sequence r),
     record_item (λ s, UserGuidance s guidance_id client_message_id content attachments
       (model_projection <$> folder_references) created_at cut) cut r).

Record AgentWorkflowDelivery := mkDelivery {
  trace_sequence : N;
  input_id : rstr;
  instance_id : rstr;
  workflow_name : rstr;
  delivery_content : rstr;
  delivery_created_at : Z;
}.

Definition delivery_item (d : AgentWorkflowDelivery) : ConversationTurnTraceItem :=
  WorkflowDelivery (trace_sequence d) (input_id d) (instance_id d) (workflow_name d)
    (delivery_content d) (delivery_created_at d) false.

Definition is_same_delivery (d : AgentWorkflowDelivery) (item : ConversationTurnTraceItem) : bool :=
  match item with
  | WorkflowDelivery s input instance name content time cut =>
      (s =? trace_sequence d)%N && str_eqb input (input_id d) && str_eqb instance (instance_id d)
      && str_eqb name (workflow_name d) && str_eqb content (delivery_content d)
      && (time =? delivery_created_at d)%Z && negb cut
  | _ => false
  end.

Definition record_workflow_delivery (d : AgentWorkflowDelivery) (r : Recorder)
    : result rstr bool * Recorder :=
  if is_blank (input_id d) || is_blank (instance_id d) || is_blank (workflow_name d)
     || is_blank (delivery_content d) || (delivery_created_at d <? 0)%Z
  then (refuse "Organization mail delivery identity is invalid", r)
  else
    let is_delivery item :=
      match item with WorkflowDelivery _ input _ _ _ _ _ => str_eqb input (input_id d) | _ => false end in
    match find_item is_delivery r with
    | Some existing =>
        (if is_same_delivery d existing then Ok false
         else refuse "Organization mail delivery conflicts with its durable trace", r)
    | None =>
        if negb (next_sequence r =? trace_sequence d)%N || last_is_call r
        then (refuse "Organization mail delivery must follow the exact safe sampling boundary", r)
        else
          match record_text_message (trace_sequence d) "user" (delivery_content d)
                  (push_item (delivery_item d) r) with
          | (Err message, r) => (Err message, r)
          | (Ok _, r) => (Ok true, advance_sequence r)
          end
    end.

(** ** Mail of other agents *)

(** [AgentTurnResultEnvelope]: what is read of it, the status and the artifacts
    as the values they are printed as. *)
Record AgentTurnResultEnvelope := mkEnvelope {
  envelope_schema_version : N;
  child_agent_id : rstr;
  envelope_task_name : rstr;
  envelope_task_path : rstr;
  envelope_status : Value;
  envelope_summary : rstr;
  artifact_refs : Value;
  envelope_terminal_error : option rstr;
}.

Definition AGENT_RESULT_ENVELOPE_SCHEMA_VERSION : N := 1.

(** [serde_json::from_str] at that type; and the text of an object begins with
    a brace. *)
Class MailServices {json : JsonServices} := {
  result_from_str : rstr → option AgentTurnResultEnvelope;
  object_text fields : ∃ rest, json_to_string (Object fields) = ch "{" :: rest;
}.

Definition mailbox_kind_name (kind : AgentMailboxKind) : string :=
  match kind with
  | MailTask => "task" | MailMessage => "message" | MailFollowup => "followup" | MailResult => "result"
  end.

Section Mail.
Context {json : JsonServices} {mail : MailServices}.

(** What the model is told of a result: not the identities of the run. *)
Definition project_result_payload (sender_agent_id sender_task_name sender_task_path payload : rstr)
    : result rstr rstr :=
  match result_from_str payload with
  | None => refuse "Agent result mailbox payload is not a valid Host result envelope"
  | Some result =>
      if negb (envelope_schema_version result =? AGENT_RESULT_ENVELOPE_SCHEMA_VERSION)%N
         || negb (str_eqb (child_agent_id result) sender_agent_id)
         || negb (str_eqb (envelope_task_name result) sender_task_name)
         || negb (str_eqb (envelope_task_path result) sender_task_path)
      then refuse "Agent result mailbox payload does not match its trusted sender"
      else Ok (json_to_string
        (obj [("taskName", String sender_task_name); ("status", envelope_status result);
              ("summary", String (envelope_summary result)); ("artifacts", artifact_refs result);
              ("terminalError", match envelope_terminal_error result with
                                | Some error => String error | None => Null end)]%string))
  end.

Definition project_agent_mailbox_model_envelope
    (sender_agent_id sender_task_name sender_task_path : rstr) (kind : AgentMailboxKind) (payload : rstr)
    : result rstr (rstr * bool) :=
  payload ← match kind with
            | MailResult => project_result_payload sender_agent_id sender_task_name sender_task_path payload
            | _ => Ok payload
            end;
  Ok (json_to_string
        (obj [("type", text_value "agent_collaboration_input"); ("origin", text_value "agent");
              ("isHuman", Bool false); ("senderTaskName", String sender_task_name);
              ("kind", text_value (mailbox_kind_name kind)); ("payload", String payload);
              ("payloadTruncated", Bool false)]%string), false).

Definition is_same_mail (expected_sequence : N)
    (receipt_id message_id sender_agent_id sender_task_name sender_task_path : rstr)
    (kind : AgentMailboxKind) (content : rstr) (created_at : Z) (truncated : bool)
    (item : ConversationTurnTraceItem) : bool :=
  match item with
  | AgentMailboxDelivery s receipt message sender name path existing_kind text time cut =>
      (s =? expected_sequence)%N && str_eqb receipt receipt_id && str_eqb message message_id
      && str_eqb sender sender_agent_id && str_eqb name sender_task_name && str_eqb path sender_task_path
      && bool_decide (existing_kind = kind) && str_eqb text content && (time =? created_at)%Z
      && Bool.eqb cut truncated
  | _ => false
  end.

Definition record_agent_mailbox_delivery (expected_sequence : N)
    (receipt_id message_id sender_agent_id sender_task_name sender_task_path : rstr)
    (kind : AgentMailboxKind) (content : rstr) (created_at : Z) (r : Recorder)
    : result rstr (option rstr) * Recorder :=
  let content := trim content in
  if is_blank receipt_id || is_blank message_id || is_blank sender_agent_id || is_blank sender_task_name
     || is_blank sender_task_path || is_nil content || (created_at <? 0)%Z
  then (refuse "Agent mailbox delivery identity is invalid", r)
  else
    match project_agent_mailbox_model_envelope sender_agent_id sender_task_name sender_task_path kind content with
    | Err message => (Err message, r)
    | Ok (model_content, cut) =>
        let is_delivery item :=
          match item with
          | AgentMailboxDelivery _ _ existing_message _ _ _ _ _ _ _ => str_eqb existing_message message_id
          | _ => false
          end in
        match find_item is_delivery r with
        | Some existing =>
            (if is_same_mail expected_sequence receipt_id message_id sender_agent_id sender_task_name
                  sender_task_path kind model_content created_at cut existing
             then Ok None
             else refuse "Agent mailbox delivery identity conflicts with the trace", r)
        | None =>
            if negb (next_sequence r =? expected_sequence)%N
            then (refuse "Agent mailbox delivery expected another trace sequence", r)
            else if last_is_call r
            then (refuse "Agent mailbox delivery cannot split an unresolved tool exchange", r)
            else
              let item :=
                AgentMailboxDelivery expected_sequence receipt_id message_id sender_agent_id sender_task_name
                  sender_task_path kind model_content created_at cut in
              match record_text_message expected_sequence "user" model_content (push_item item r) with
              | (Err message, r) => (Err message, r)
              | (Ok _, r) => (Ok (Some model_content), advance_sequence r |> mark_truncated cut)
              end
        end
    end.
End Mail.

(** ** Tool exchanges *)

Section Projection.
Context {json : JsonServices}.

Definition record_tool_call_with_identity (call : AgentToolCall) (provenance : AgentToolIdentity)
    (r : Recorder) : N * Recorder :=
  match find_item (is_call_of (id call)) r with
  | Some item => (sequence item, r)
  | None =>
      let '(operation, redacted) := sanitize_runtime_value (args call) in
      (next_sequence r,
       record_item (λ s, ToolCall s (id call) (call_tool call) provenance operation
         (approval_status call) redacted) redacted r)
  end.

Definition set_approval (status : AgentApprovalStatus) (item : ConversationTurnTraceItem)
    : ConversationTurnTraceItem :=
  match item with
  | ToolCall s id tool provenance operation _ truncated =>
      ToolCall s id tool provenance operation status truncated
  | item => item
  end.

(** The last call with this id gets this approval. *)
Fixpoint set_last_approval (call_id : rstr) (status : AgentApprovalStatus)
    (items : list ConversationTurnTraceItem) : list ConversationTurnTraceItem :=
  match items with
  | [] => []
  | item :: rest =>
      if is_call_of call_id item && negb (existsb (is_call_of call_id) rest)
      then set_approval status item :: rest
      else item :: set_last_approval call_id status rest
  end.

(** [enrich_tool_call] of an action with this call and approval. *)
Definition enrich_tool_call (call_id : rstr) (status : AgentApprovalStatus) (r : Recorder) : Recorder :=
  set_items (set_last_approval call_id status (recorded_items r)) r.

Definition bool_field (key : string) (value : Value) : bool :=
  match value_get (rs key) value with Some (Bool b) => b | _ => false end.

Definition result_status (result : AgentToolResult) : ConversationTraceToolResultStatus :=
  let value := default Null (result_value result) in
  let status := to_ascii_lowercase (default [] (value_get (rs "status") value ≫= as_str)) in
  if contains status "reject" then Rejected
  else if contains status "conflict" then Conflict
  else if contains status "cancel" || bool_field "cancelled" value then Cancelled
  else if ok result && bool_decide (error result = None) && negb (contains status "fail")
  then Succeeded else Failed.

Definition sanitize_runtime_tool_result (tool : rstr) (value : Value) : Value * bool :=
  if is_str tool "request_user_input" && valid_value value then (value, false)
  else sanitize_runtime_value value.

Definition status_succeeded (status : ConversationTraceToolResultStatus) : bool :=
  bool_decide (status = Succeeded).

(** The item without its archive, and whether it was cut. *)
Definition checkpoint_tool_result_trace_item (call : AgentToolCall) (result : AgentToolResult)
    : bool * (N → ConversationHistoryArchiveTraceMetadata → ConversationTurnTraceItem) :=
  let status := result_status result in
  let '(observation, result_redacted) :=
    sanitize_runtime_tool_result (call_tool call) (default Null (result_value result)) in
  let '(error, error_redacted) := sanitize_optional_text (error result) in
  let cut := result_redacted || error_redacted in
  (cut, λ s archive,
    ToolResult s (id call) (call_tool call) status (status_succeeded status) observation
      (approval_status call) error cut archive).

Definition projected_tool_result_trace_item (call : AgentToolCall) (result : AgentToolResult)
    : bool * (N → ConversationHistoryArchiveTraceMetadata → ConversationTurnTraceItem) :=
  let status := result_status result in
  let '((observation, observation_truncated), error, error_truncated) :=
    project_tool_result (call_tool call) (default Null (result_value result))
      (error result) in
  let cut := observation_truncated || error_truncated in
  (cut, λ s archive,
    ToolResult s (id call) (call_tool call) status (status_succeeded status) observation
      (approval_status call) error cut archive).

Definition record_tool_result_with_archive (call : AgentToolCall) (result : AgentToolResult)
    (archive : ConversationHistoryArchiveTraceMetadata) (r : Recorder) : option N * Recorder :=
  if negb (existsb (is_call_of (id call)) (recorded_items r)) then (None, r)
  else
    match find_item (is_result_of (id call)) r with
    | Some item => (Some (sequence item), r)
    | None =>
        let r := if items_are_durable r then r else enrich_tool_call (id call) (approval_status call) r in
        let '(cut, item) :=
          if items_are_durable r then projected_tool_result_trace_item call result
          else checkpoint_tool_result_trace_item call result in
        let archive := if items_are_durable r then mark_history_truncated cut archive else archive in
        (Some (next_sequence r), record_item (λ s, item s archive) cut r)
    end.

(** ** The end of the turn *)

Definition terminal_status_name (status : ConversationTurnTraceTerminalStatus) : string :=
  match status with
  | TurnInProgress => "in_progress" | TurnCompleted => "completed"
  | TurnFailed => "failed" | TurnCancelled => "cancelled"
  end.

Definition close_unresolved (status : ConversationTurnTraceTerminalStatus)
    (terminal_error : option rstr) (r : Recorder) : Recorder :=
  match unresolved_tool_call r with
  | Some (ToolCall _ call_id tool _ _ approval _) =>
      let cancelled := bool_decide (status = TurnCancelled) in
      let fallback :=
        if cancelled then rs "Run cancelled before a verifiable tool result was available."
        else rs "Run ended before a verifiable tool result was available." in
      let '(raw_error, raw_redacted) := sanitize_runtime_text (default fallback terminal_error) in
      let raw_observation :=
        json_object [(rs "resultAvailable", Bool false);
                     (rs "terminalStatus", String (rs (terminal_status_name status)))] in
      let '(observation, error, projection_truncated) :=
        if items_are_durable r then
          let '((observation, observation_truncated), error, error_truncated) :=
            project_tool_result tool raw_observation (Some raw_error) in
          (observation, error, observation_truncated || error_truncated)
        else (raw_observation, Some raw_error, false) in
      let cut := raw_redacted || projection_truncated in
      record_item (λ s, ToolResult s call_id tool (if cancelled then Cancelled else Failed) false
        observation approval error cut default_archive) cut r
  | _ => r
  end.

(** [operations.iter_mut().find(..)], set to finished. *)
Fixpoint finish_operation (operation_id : rstr) (operations : list (rstr * bool)) : list (rstr * bool) :=
  match operations with
  | [] => []
  | (candidate, finished) :: operations =>
      if str_eqb candidate operation_id then (candidate, true) :: operations
      else (candidate, finished) :: finish_operation operation_id operations
  end.

Definition compaction_step (operations : list (rstr * bool)) (item : ConversationTurnTraceItem)
    : list (rstr * bool) :=
  match item with
  | ContextCompactionLifecycle _ CompactionStarted operation_id _ => operations ++ [(operation_id, false)]
  | ContextCompactionLifecycle _ CompactionFinished operation_id _ => finish_operation operation_id operations
  | _ => operations
  end.

Definition closing_outcome (status : ConversationTurnTraceTerminalStatus)
    : option AgentContextCompactionEventOutcome :=
  match status with
  | TurnCancelled => Some CompactionCancelled
  | TurnFailed => Some CompactionFailed
  | TurnCompleted => Some CompactionSkipped
  | TurnInProgress => None
  end.

Definition close_operation (outcome : AgentContextCompactionEventOutcome) (r : Recorder)
    (operation : rstr * bool) : Recorder :=
  if snd operation then r
  else record_item (λ s, ContextCompactionLifecycle s CompactionFinished (fst operation) (Some outcome))
         false r.

Definition close_unresolved_context_compactions (status : ConversationTurnTraceTerminalStatus)
    (r : Recorder) : Recorder :=
  match closing_outcome status with
  | None => r
  | Some outcome =>
      foldl (close_operation outcome) r (foldl compaction_step [] (recorded_items r))
  end.

Variable sha256_hex : list N → rstr.

Definition finish (run_id conversation_id assistant_message_id : rstr)
    (status : ConversationTurnTraceTerminalStatus) (terminal_error : option rstr) (r : Recorder)
    : ConversationTurnTrace :=
  let r := close_unresolved status terminal_error r in
  let r := close_unresolved_context_compactions status r in
  let '(items, projected_truncated) :=
    if items_are_durable r then (recorded_items r, false)
    else project_durable_trace_items sha256_hex (recorded_items r) in
  let '(terminal_error, terminal_redacted) :=
    match terminal_error with
    | Some error => let '(error, cut) := project_terminal_error error in (Some error, cut)
    | None => (None, false)
    end in
  mkTrace CONVERSATION_TURN_TRACE_SCHEMA_VERSION run_id conversation_id assistant_message_id status
    terminal_error (truncated r || projected_truncated || terminal_redacted) items.
End Projection.

(** ** The calls of the runtime, as data

    Those that change the items; the others only write the log of the model. *)

Inductive RecorderCall :=
| RecordNarration (content : rstr)
| RecordToolTurnNarration (content provider_turn_id first_tool_call_id : rstr)
| RecordCompactionStarted (operation_id : rstr)
| RecordCompactionFinished (operation_id : rstr) (outcome : AgentContextCompactionEventOutcome)
| RecordRuntimeError (message : rstr) (recoverable : bool) (code : option rstr)
| RecordContextMaterial (event_id : rstr) (material_kind : ConversationContextMaterialKind) (content : rstr)
    (images : list ConversationContextImageRef) (created_at : Z)
| RecordBackendState (expected_sequence : N) (event_id content : rstr) (created_at : Z)
    (placement : ConversationBackendStatePlacement)
| RecordUserGuidance (guidance_id client_message_id content : rstr) (attachments : list AgentInputAttachment)
    (folder_references : list AgentFolderReference) (created_at : Z)
| RecordWorkflowDelivery (delivery : AgentWorkflowDelivery)
| RecordAgentMailboxDelivery (expected_sequence : N)
    (receipt_id message_id sender_agent_id sender_task_name sender_task_path : rstr)
    (kind : AgentMailboxKind) (content : rstr) (created_at : Z)
| RecordToolCall (call : AgentToolCall) (provenance : AgentToolIdentity)
| EnrichToolCall (call_id : rstr) (status : AgentApprovalStatus)
| RecordToolResult (call : AgentToolCall) (result : AgentToolResult)
    (archive : ConversationHistoryArchiveTraceMetadata).

Definition perform {services : TraceServices} {json : JsonServices} {mail : MailServices}
    (call : RecorderCall) (r : Recorder) : Recorder :=
  match call with
  | RecordNarration content => snd (record_narration content None None r)
  | RecordToolTurnNarration content provider_turn_id first_tool_call_id =>
      snd (record_tool_turn_narration content provider_turn_id first_tool_call_id r)
  | RecordCompactionStarted operation_id => snd (record_context_compaction_started operation_id r)
  | RecordCompactionFinished operation_id outcome =>
      snd (record_context_compaction_finished operation_id outcome r)
  | RecordRuntimeError message recoverable code => snd (record_runtime_error message recoverable code r)
  | RecordContextMaterial event_id material_kind content images created_at =>
      snd (record_context_material event_id material_kind content images created_at r)
  | RecordBackendState expected_sequence event_id content created_at placement =>
      snd (record_backend_state expected_sequence event_id content created_at placement r)
  | RecordUserGuidance guidance_id client_message_id content attachments folder_references created_at =>
      snd (record_user_guidance guidance_id client_message_id content attachments folder_references created_at r)
  | RecordWorkflowDelivery delivery => snd (record_workflow_delivery delivery r)
  | RecordAgentMailboxDelivery expected_sequence receipt_id message_id sender_agent_id sender_task_name
      sender_task_path kind content created_at =>
      snd (record_agent_mailbox_delivery expected_sequence receipt_id message_id sender_agent_id
             sender_task_name sender_task_path kind content created_at r)
  | RecordToolCall call provenance => snd (record_tool_call_with_identity call provenance r)
  | EnrichToolCall call_id status => enrich_tool_call call_id status r
  | RecordToolResult call result archive => snd (record_tool_result_with_archive call result archive r)
  end.

Definition performs {services : TraceServices} {json : JsonServices} {mail : MailServices}
    (calls : list RecorderCall) (r : Recorder) : Recorder := foldl (λ r call, perform call r) r calls.
