(* ===== verification/TraceRecorderFacts.v ===== *)
(** * What the recorder writes *)

From S2P Require Import Prelude RustText Json HumanInteraction TraceSanitizer TraceItems.
From S2P Require Import TraceProjectionFacts TraceProjection TraceValidation ModelContext.
From S2P Require Import TraceHistory ProjectedHistory TraceRecorder.

(** ** Sound recorders *)

Section Sound.
Context {services : TraceServices}.

(** The items are well-formed, and the next sequence number is beyond theirs. *)
Definition sound (r : Recorder) : Prop :=
  well_formed (recorded_items r)
  ∧ ∀ x, x ∈ recorded_items r → (sequence x < next_sequence r)%N.

Lemma sound_default : sound default_recorder.
Proof. split; [apply well_formed_nil|set_solver]. Qed.

Lemma sound_same r r' :
  recorded_items r' = recorded_items r → (next_sequence r <= next_sequence r')%N → sound r → sound r'.
Proof. intros E Hn [Hwf Hs]. split; rewrite E; [done|]. intros x Hx. specialize (Hs x Hx). lia. Qed.

Lemma succ_grows n : (n < u64_max)%N → u64_saturating_succ n = (n + 1)%N.
Proof. unfold u64_saturating_succ. lia. Qed.

(** An item that is right on its own and in its place keeps the recorder sound. *)
Lemma push_sound r x next :
  sound r → item_ok x → fits (recorded_items r) x → (next_sequence r <= sequence x < next)%N →
  well_formed (recorded_items r ++ [x]) ∧ ∀ y, y ∈ recorded_items r ++ [x] → (sequence y < next)%N.
Proof.
  intros [Hwf Hs] Hok Hfit Hx. split.
  - apply well_formed_snoc. split_and!; [done..|]. split; [|done]. intros y Hy%last_Some_elem_of.
    specialize (Hs y Hy). lia.
  - intros y [Hy| ->%list_elem_of_singleton]%elem_of_app; [|lia]. specialize (Hs y Hy). lia.
Qed.

Lemma record_item_sound item cut r :
  sound r → (next_sequence r < u64_max)%N → sequence (item (next_sequence r)) = next_sequence r →
  item_ok (item (next_sequence r)) → fits (recorded_items r) (item (next_sequence r)) →
  sound (record_item item cut r).
Proof.
  intros Hr Hn Hseq Hok Hfit. unfold sound, record_item. cbn -[u64_saturating_succ u64_max].
  apply push_sound; [done..|]. rewrite Hseq, succ_grows by done. lia.
Qed.

(** ** Lookups *)

Lemma find_item_None p r x : find_item p r = None → x ∈ recorded_items r → p x = false.
Proof.
  unfold find_item. rewrite list_elem_of_In. intros H Hx. by apply (find_none p _ H).
Qed.

Lemma find_item_Some p r x : find_item p r = Some x → x ∈ recorded_items r ∧ p x = true.
Proof. unfold find_item. intros [? ?]%find_some. by rewrite list_elem_of_In. Qed.

Lemma event_new {A} (f : ConversationTurnTraceItem → option A) p r a :
  find_item p r = None → (∀ x, f x = Some a → p x = true) → ¬ a ∈ omap f (recorded_items r).
Proof.
  intros Hf Hp (x & Hx & Hfx)%list_elem_of_omap. specialize (Hp x Hfx).
  by rewrite (find_item_None _ _ _ Hf Hx) in Hp.
Qed.

Lemma no_unresolved r :
  sound r → unresolved_tool_call r = None → open_call (recorded_items r) = None.
Proof.
  intros [Hwf _] Hu. pose proof (well_formed_shape _ Hwf) as Hs. unfold unresolved_tool_call in Hu.
  destruct (open_call (recorded_items r)) as [call|]; [|done].
  destruct Hs as (pre & x & post & E & Hat). rewrite E in Hu, Hwf.
  by rewrite (unresolved_call_at _ _ _ _ Hwf Hat) in Hu.
Qed.

Lemma well_formed_item h x : well_formed h → x ∈ h → item_ok x.
Proof. intros Hwf (a & b & E)%list_elem_of_split. by apply (Hwf a x b). Qed.

Lemma well_formed_tracked h : well_formed h →
  ∃ st, validate_items default_validation_state h = Ok st ∧ tracks h st.
Proof.
  intros Hwf. destruct (validate_items_iff h) as [H1 H2]. destruct (H2 Hwf) as [st Hst].
  exists st. split; [done|]. by apply (H1 st Hst).
Qed.

Lemma finished_started h op : well_formed h →
  (CompactionFinished, op) ∈ omap compaction_of h → (CompactionStarted, op) ∈ omap compaction_of h.
Proof.
  intros (st & _ & T)%well_formed_tracked H%(tracks_done _ _ T). apply (tracks_started _ _ T). by eexists.
Qed.

(** ** Messages to the model *)

Lemma text_item_valid s role content :
  role = "user"%string ∨ role = "assistant"%string →
  ∃ cut, model_item_of_text s role content
         = Ok (mkModelItem s 0 (rs role) (fst (sanitize_runtime_text content)) [] None [] false, cut).
Proof.
  intros Hrole. unfold model_item_of_text.
  pose proof (sanitized_clean content) as Hc. destruct (sanitize_runtime_text content) as [t cut].
  cbn [fst] in *. exists cut.
  assert (validate_model_item (mkModelItem s 0 (rs role) t [] None [] false) = Ok ()) as ->; [|done].
  unfold validate_model_item. cbn [model_content model_images].
  apply check_bind. split; [by apply clean_text_Ok|]. by destruct Hrole as [->| ->].
Qed.

(** A text is always taken, and the trace stays as it is. *)
Lemma record_text_message_spec s role content r :
  role = "user"%string ∨ role = "assistant"%string →
  ∃ r', record_text_message s role content r = (Ok (), r')
    ∧ recorded_items r' = recorded_items r ∧ next_sequence r' = next_sequence r.
Proof.
  intros Hrole. unfold record_text_message. destruct (existsb _ _); [by eexists|].
  destruct (text_item_valid s role content Hrole) as [cut ->]. by eexists.
Qed.

(** ** The operations

    A call of the recorder leaves the items as they are or adds one.  When the
    items so far are well-formed, they stay so exactly when the caller keeps to
    what the recorder does not see to itself. *)

Abbreviation roomy r := (next_sequence r < u64_max)%N.

(** No exchange is open. *)
Definition between (r : Recorder) : Prop := open_call (recorded_items r) = None.

(** [r'] has the items of [r], or those of [before] and one more, which is right
    in its place exactly when [P]. *)
Definition appends (before : history) (P : Prop) (r r' : Recorder) : Prop :=
  (recorded_items r' = recorded_items r ∧ next_sequence r' = next_sequence r)
  ∨ ∃ x, recorded_items r' = before ++ [x]
      ∧ next_sequence r' = u64_saturating_succ (next_sequence r)
      ∧ sequence x = next_sequence r
      ∧ (sound r → item_ok x ∧ fits before x ↔ P).

Lemma appends_none before P r r' :
  recorded_items r' = recorded_items r → next_sequence r' = next_sequence r → appends before P r r'.
Proof. by left. Qed.

Lemma appends_one before P r r' x :
  recorded_items r' = before ++ [x] → next_sequence r' = u64_saturating_succ (next_sequence r) →
  sequence x = next_sequence r → (sound r → item_ok x ∧ fits before x ↔ P) → appends before P r r'.
Proof. right. by exists x. Qed.

Lemma and_iff_right (P Q : Prop) : P → P ∧ Q ↔ Q.
Proof. tauto. Qed.

Lemma narration_appends content p t r :
  validate_narration_binding p t = Ok () →
  appends (recorded_items r) (between r) r (snd (record_narration content p t r)).
Proof.
  intros Hbind. unfold record_narration. cbv zeta.
  destruct (is_nil (trim content)) eqn:En; [by left|].
  assert (visible (trim content)) as Hv.
  { apply not_blank. unfold is_blank. apply bool_decide_eq_false. intros E.
    assert (visible content) as (c & Hc & Hw).
    { apply not_blank. unfold is_blank. apply bool_decide_eq_false. by destruct (trim content). }
    pose proof (trim_elem _ c (trim_elem _ c Hc Hw) Hw) as H. rewrite E in H. by apply elem_of_nil in H. }
  pose proof (sanitized_clean (trim content)) as Hc. pose proof (sanitized_visible _ Hv) as Hs.
  destruct (sanitize_runtime_text (trim content)) as [text redacted]. cbn [fst] in *.
  set (r1 := record_item _ false r).
  destruct (record_text_message_spec (next_sequence r) "assistant" text r1 (or_intror eq_refl))
    as (r2 & -> & Hi & Hnext). cbn [snd].
  eapply appends_one; [exact Hi|exact Hnext|done|]. intros _. apply and_iff_right.
  split_and!; [done|by apply not_blank|done].
Qed.

Lemma tool_turn_narration_appends content p t r :
  appends (recorded_items r) (between r) r (snd (record_tool_turn_narration content p t r)).
Proof.
  unfold record_tool_turn_narration.
  destruct (validate_narration_binding _ _) as [[]|e] eqn:E; [by apply narration_appends|by left].
Qed.

Lemma compaction_started_appends op r :
  appends (recorded_items r) (between r) r (snd (record_context_compaction_started op r)).
Proof.
  unfold record_context_compaction_started.
  destruct (is_blank op || _ || _) eqn:Ei; [by left|].
  destruct (find_item _ r) eqn:Ef; [by left|]. destruct (last_is_call r); [by left|]. cbn [snd].
  apply orb_false_iff in Ei as [[Hblank Hlen%N.ltb_ge]%orb_false_iff Hctl].
  eapply appends_one; [done..|]. intros Hr.
  assert (¬ (CompactionStarted, op) ∈ omap compaction_of (recorded_items r)) as Hns.
  { apply (event_new _ _ _ _ Ef). intros x Hx. destruct x; try discriminate Hx. injection Hx as -> ->.
    cbn. rewrite bool_decide_eq_true_2 by done. by apply str_eqb_eq. }
  split; [by intros [_ [? _]]|]. intros Hb. split; [by split_and!|]. split; [done|]. split; [|by split].
  intros Hfin. apply Hns, finished_started; [apply Hr|done].
Qed.

Lemma compaction_finished_appends op outcome r :
  appends (recorded_items r) (between r) r (snd (record_context_compaction_finished op outcome r)).
Proof.
  unfold record_context_compaction_finished.
  destruct (find_item _ r) as [start|] eqn:Ef; [|by left].
  destruct (finished_outcome op r) eqn:Eo; [by left|]. cbn [snd].
  eapply appends_one; [done..|]. intros [Hwf Hseq]. split; [by intros [_ [? _]]|]. intros Hb.
  apply find_item_Some in Ef as [Hin Hst].
  destruct start as [| | | | | | | | |sq ph op' out|]; try discriminate Hst.
  apply andb_true_iff in Hst as [->%bool_decide_eq_true ->%str_eqb_eq].
  pose proof (well_formed_item _ _ Hwf Hin) as (Hblank & Hlen & Hctl & _).
  split; [by split_and!|]. split; [done|]. split.
  - intros (x & Hx & Hxe)%list_elem_of_omap. destruct x as [| | | | | | | | |sq' ph' op2 out'|]; try discriminate Hxe.
    injection Hxe as -> ->. pose proof (well_formed_item _ _ Hwf Hx) as (_ & _ & _ & [o Ho]).
    unfold finished_outcome in Eo.
    assert (o ∈ omap (λ item, if compaction_event CompactionFinished op item then compaction_outcome item
                              else None) (recorded_items r)) as Ho'.
    { apply list_elem_of_omap. eexists. split; [exact Hx|]. cbn.
      rewrite bool_decide_eq_true_2 by done. cbn.
      assert (str_eqb op op = true) as -> by by apply str_eqb_eq. done. }
    destruct (omap _ (recorded_items r)); [by apply elem_of_nil in Ho'|done].
  - split; [done|]. intros _. apply list_elem_of_omap. by eexists.
Qed.

Lemma code_clean code :
  is_some_and code (λ code, is_blank code || (128 <? text_len code)%N || has_control code) = false →
  ∀ c, fst (sanitize_optional_text code) = Some c → is_blank c = false ∧ (text_len c <= 128)%N ∧ clean_text c.
Proof.
  destruct code as [code|]; [|done]. cbn [is_some_and sanitize_optional_text]. intros H c.
  apply orb_false_iff in H as [[Hb Hl%N.ltb_ge]%orb_false_iff _].
  pose proof (sanitized_clean code) as Hc. pose proof (sanitized_visible code) as Hv.
  rewrite <-!not_blank in Hv. specialize (Hv Hb).
  assert (text_len (fst (sanitize_runtime_text code)) <= 128)%N as Hlen.
  { unfold sanitize_runtime_text. destruct (_ && _); [vm_compute; discriminate|done]. }
  destruct (sanitize_runtime_text code) as [t cut]. cbn [fst] in *. by intros [= <-].
Qed.

(** The projection of the message does not see to all binary material. *)
Lemma runtime_error_appends message recoverable code r :
  appends (recorded_items r) (between r ∧ clean_text (fst (project_terminal_error message))) r
    (snd (record_runtime_error message recoverable code r)).
Proof.
  unfold record_runtime_error. destruct (is_blank message) eqn:Em; [by left|].
  destruct (is_some_and code _) eqn:Ec; [by left|]. destruct (last_is_call r); [by left|].
  apply not_blank, (bounded_visible _ TERMINAL_ERROR_CHARS false), not_blank in Em.
  unfold project_terminal_error in *. destruct (sanitize_and_bound_text message _ _) as [text cut]. cbn [fst] in *.
  pose proof (code_clean code Ec) as Hcode. destruct (sanitize_optional_text code) as [code' cut'].
  eapply appends_one; [done..|]. intros _. cbn [item_ok fits fst] in *. unfold between. tauto.
Qed.

Lemma context_material_appends event_id kind content images created_at r :
  appends (recorded_items r) True r (snd (record_context_material event_id kind content images created_at r)).
Proof.
  unfold record_context_material. cbv zeta.
  destruct (validate_context_material _ _ _ _ _) as [[]|e] eqn:Ev; [|by left].
  destruct (find_item _ r) as [existing|] eqn:Ef; [by left|].
  destruct (ensure _ _ ≫= _) as [[]|e] eqn:Ec; [|by left]. cbn [snd].
  apply check_bind in Ec as [Hu%ensure_Ok%bool_decide_eq_true _].
  eapply appends_one; [done..|]. intros Hr. split; [done|]. intros _.
  split; [done|]. split; [by apply no_unresolved|]. apply (event_new _ _ _ _ Ef).
  intros x Hx. destruct x; try discriminate Hx. injection Hx as ->. by apply str_eqb_eq.
Qed.

Lemma backend_state_appends expected event_id content created_at placement r :
  appends (recorded_items r) True r
    (snd (record_backend_state expected event_id content created_at placement r)).
Proof.
  unfold record_backend_state. cbv zeta.
  destruct (validate_backend_state _ _ _) as [[]|e] eqn:Ev; [|by left].
  destruct (find_item _ r) as [existing|] eqn:Ef; [by left|].
  destruct (ensure _ _ ≫= _) as [item|e] eqn:Ec; [|by left]. cbn [snd].
  apply check_bind in Ec as [Hnext%ensure_Ok%N.eqb_eq [Hu%ensure_Ok%bool_decide_eq_true _]%check_bind].
  eapply appends_one; [done..|]. intros Hr. split; [done|]. intros _.
  split; [done|]. split; [by apply no_unresolved|]. apply (event_new _ _ _ _ Ef).
  intros x Hx. destruct x; try discriminate Hx. injection Hx as ->. by apply str_eqb_eq.
Qed.

(** What the host says of the attachments of a guidance. *)
Definition input_attachment_ok (attachment : AgentInputAttachment) : Prop :=
  let a := input_attachment attachment in
  is_blank (attached_id a) = false ∧ is_blank (attached_name a) = false
  ∧ check_some validate_pasted_text (attached_pasted_text a) = Ok ().

Lemma drop_while_visible s c rest : drop_while is_whitespace s = c :: rest → visible s.
Proof.
  induction s as [|d s IH]; [done|]. cbn [drop_while]. destruct (is_whitespace d) eqn:Ed.
  - intros (e & He & Hw)%IH. exists e. split; [by right|done].
  - intros _. exists d. split; [by left|done].
Qed.

Lemma sanitized_blank s : is_blank (fst (sanitize_runtime_text s)) = is_blank s.
Proof.
  destruct (is_blank s) eqn:E; [|by apply not_blank, sanitized_visible, not_blank].
  unfold sanitize_runtime_text. destruct (_ && _) eqn:H; [|done]. apply andb_true_iff in H as [H _].
  unfold trim_start, trim_start_matches in H. destruct (drop_while is_whitespace s) as [|c rest] eqn:Ed; [done|].
  apply drop_while_visible, not_blank in Ed. congruence.
Qed.

Lemma trace_attachment_iff a :
  attachment_ok (fst (trace_attachment a)) ↔ input_attachment_ok a.
Proof.
  unfold trace_attachment, attachment_ok, input_attachment_ok. cbv zeta.
  pose proof (sanitized_clean (attached_name (input_attachment a))) as Hc.
  pose proof (sanitized_blank (attached_name (input_attachment a))) as Hb.
  destruct (sanitize_runtime_text _) as [name cut]. cbn [fst] in *.
  assert (∀ mime, fst (sanitize_optional_text (attached_mime_type (input_attachment a))) = Some mime →
    clean_text mime) as Hm.
  { destruct (attached_mime_type _) as [m|]; [|done]. cbn. intros mime.
    pose proof (sanitized_clean m) as H. destruct (sanitize_runtime_text m). by intros [= <-]. }
  destruct (sanitize_optional_text _) as [mime cut']. cbn in *. rewrite Hb. tauto.
Qed.

Lemma trace_attachment_id a : attached_id (fst (trace_attachment a)) = attached_id (input_attachment a).
Proof.
  unfold trace_attachment. cbv zeta. destruct (sanitize_runtime_text _) as [name cut].
  by destruct (sanitize_optional_text _).
Qed.

(** What a guidance must be. *)
Definition guidance_ok (guidance_id client_id : rstr) (attachments : list AgentInputAttachment)
    (references : list AgentFolderReference) (created_at : Z) : Prop :=
  is_blank guidance_id = false ∧ is_blank client_id = false ∧ (0 <= created_at)%Z
  ∧ Forall input_attachment_ok attachments ∧ NoDup (attached_id ∘ input_attachment <$> attachments)
  ∧ Forall (λ reference, validate_folder_reference reference = Ok ()) references.

Lemma guidance_appends guidance_id client_id content attachments references created_at r :
  appends (recorded_items r)
    (between r ∧ guidance_ok guidance_id client_id attachments references created_at) r
    (snd (record_user_guidance guidance_id client_id content attachments references created_at r)).
Proof.
  unfold record_user_guidance. cbv zeta.
  destruct (is_nil (trim content) && is_nil attachments && is_nil references || last_is_call r) eqn:E;
    [by left|].
  apply orb_false_iff in E as [E _]. rewrite some_content in E.
  pose proof (sanitized_clean (trim content)) as Hc.
  assert (is_nil (trim content) = false → is_blank (fst (sanitize_runtime_text (trim content))) = false) as Hv.
  { intros Hnn. apply not_blank, sanitized_visible.
    assert (visible content) as (c & Hin & Hw).
    { apply not_blank. unfold is_blank. apply bool_decide_eq_false. by destruct (trim content). }
    exists c. split; [by apply trim_elem|done]. }
  destruct (sanitize_runtime_text (trim content)) as [text cut]. cbn [fst] in *.
  destruct (trace_attachments_from_input attachments) as [atts cut'] eqn:Eat. injection Eat as <- <-.
  cbn [snd]. eapply appends_one; [done..|]. intros _. cbn [item_ok fits]. unfold guidance_ok, between.
  assert (is_blank text = false ∨ fst ∘ trace_attachment <$> attachments ≠ []
          ∨ model_projection <$> references ≠ []) as Hsome.
  { destruct E as [E|[E|E]]; [left; by apply Hv|right; left|right; right]; by destruct attachments, references. }
  rewrite !Forall_fmap, <-list_fmap_compose.
  assert (attached_id ∘ (fst ∘ trace_attachment) <$> attachments
    = attached_id ∘ input_attachment <$> attachments) as ->
    by (apply list_fmap_ext; intros i a _; apply trace_attachment_id).
  assert (Forall (attachment_ok ∘ (fst ∘ trace_attachment)) attachments ↔ Forall input_attachment_ok attachments)
    as -> by (apply Forall_proper; [intros a; apply trace_attachment_iff|done]).
  change (Forall ((λ reference, validate_folder_reference reference = Ok ()) ∘ model_projection) references)
    with (Forall (λ reference, validate_folder_reference reference = Ok ()) references).
  tauto.
Qed.

Lemma workflow_appends d r :
  appends (recorded_items r) (between r ∧ clean_text (delivery_content d)) r (snd (record_workflow_delivery d r)).
Proof.
  unfold record_workflow_delivery. cbv zeta.
  destruct (is_blank (input_id d) || _ || _ || _ || _) eqn:Ei; [by left|].
  destruct (find_item _ r); [by left|]. destruct (negb _ || _) eqn:En; [by left|].
  apply orb_false_iff in En as [En%negb_false_iff%N.eqb_eq _].
  repeat match goal with H : _ || _ = false |- _ => apply orb_false_iff in H as [? ?] end.
  destruct (record_text_message_spec (trace_sequence d) "user" (delivery_content d)
    (push_item (delivery_item d) r) (or_introl eq_refl)) as (r' & -> & Hi & Hnext). cbn [snd].
  eapply appends_one; [exact Hi|cbn -[u64_saturating_succ]; by rewrite Hnext|done|]. intros _.
  cbn [item_ok fits delivery_item]. rewrite !Forall_cons, Forall_nil. unfold between.
  assert (0 <= delivery_created_at d)%Z by by apply Z.ltb_ge. tauto.
Qed.

Section Mail.
Context {json : JsonServices} {mail : MailServices}.

(** The text of an object is no data URL. *)
Lemma object_text_ok fields :
  is_blank (json_to_string (Object fields)) = false ∧ clean_text (json_to_string (Object fields)).
Proof.
  destruct (object_text fields) as [rest ->]. split.
  - apply not_blank. exists (ch "{"). split; [by left|done].
  - reflexivity.
Qed.

Lemma mailbox_appends expected receipt message sender name path kind content created_at r :
  appends (recorded_items r) (between r) r
    (snd (record_agent_mailbox_delivery expected receipt message sender name path kind content created_at r)).
Proof.
  unfold record_agent_mailbox_delivery. cbv zeta.
  destruct (is_blank receipt || _ || _ || _ || _ || _ || _) eqn:Ei; [by left|].
  destruct (project_agent_mailbox_model_envelope _ _ _ _ _) as [[text cut]|e] eqn:Et; [|by left].
  destruct (find_item _ r); [by left|]. destruct (negb _) eqn:En; [by left|].
  destruct (last_is_call r); [by left|]. apply negb_false_iff, N.eqb_eq in En.
  repeat match goal with H : _ || _ = false |- _ => apply orb_false_iff in H as [? ?] end.
  assert (is_blank text = false ∧ clean_text text) as [Hb Hc].
  { unfold project_agent_mailbox_model_envelope in Et. inv_bind Et. injection Et as <- <-. apply object_text_ok. }
  set (item := AgentMailboxDelivery _ _ _ _ _ _ _ _ _ _).
  destruct (record_text_message_spec expected "user" text (push_item item r) (or_introl eq_refl))
    as (r' & -> & Hi & Hnext). cbn [snd].
  eapply appends_one; [exact Hi|cbn -[u64_saturating_succ]; by rewrite Hnext|done|]. intros _.
  cbn [item_ok fits item]. rewrite !Forall_cons, Forall_nil. unfold between.
  assert (0 <= created_at)%Z by by apply Z.ltb_ge. tauto.
Qed.
End Mail.

Lemma tool_call_appends call provenance r :
  appends (recorded_items r)
    (between r ∧ is_blank (id call) = false ∧ is_provider_safe_tool_name (call_tool call) = true
     ∧ validate_tool_identity (call_tool call) provenance = Ok ()) r
    (snd (record_tool_call_with_identity call provenance r)).
Proof.
  unfold record_tool_call_with_identity.
  destruct (find_item _ r) as [item|] eqn:Ef; [by left|].
  pose proof (sanitize_runtime_value_again (args call)) as Hc.
  destruct (sanitize_runtime_value (args call)) as [operation cut]. cbn [fst snd] in *.
  eapply appends_one; [done..|]. intros _. cbn [item_ok fits].
  assert (id call ∉ called (recorded_items r)) as Hnew.
  { unfold called. intros (c & Hcid & (x & Hx & Hxc)%list_elem_of_omap)%list_elem_of_fmap.
    destruct x; try discriminate Hxc. injection Hxc as <-. cbn in Hcid. subst call_id.
    pose proof (find_item_None _ _ _ Ef Hx) as H. cbn in H.
    assert (str_eqb (id call) (id call) = true) by by apply str_eqb_eq. congruence. }
  assert (clean_value operation) by done. unfold between. tauto.
Qed.

(** *** Approvals *)

(** The validator does not look at approvals. *)
Lemma approvals_unseen status st call_id items :
  validate_items st (set_last_approval call_id status items) = validate_items st items.
Proof.
  revert st. induction items as [|x items IH]; intros st; [done|]. cbn [set_last_approval].
  destruct (is_call_of call_id x && _).
  - cbn [validate_items]. by destruct x.
  - cbn [validate_items]. destruct (validate_item st x); cbn; [apply IH|done].
Qed.

Lemma approval_sequences status call_id items :
  sequence <$> set_last_approval call_id status items = sequence <$> items.
Proof.
  induction items as [|x items IH]; [done|]. cbn [set_last_approval].
  destruct (is_call_of call_id x && _); cbn; [by destruct x|by rewrite IH].
Qed.

Lemma approvals_open status call_id items : well_formed items →
  open_call (set_last_approval call_id status items) = open_call items.
Proof.
  intros (st & Hst & T)%well_formed_tracked.
  rewrite <-(approvals_unseen status _ call_id) in Hst.
  destruct (validate_items_iff (set_last_approval call_id status items)) as [H _].
  destruct (H st Hst) as [_ [_ T']]. by rewrite <-(tracks_pending _ _ T), <-(tracks_pending _ _ T').
Qed.

(** The items of [h], perhaps with another approval of one call. *)
Definition edited (before h : history) : Prop :=
  before = h ∨ ∃ call_id status, before = set_last_approval call_id status h.

Lemma edited_sequences before h : edited before h → sequence <$> before = sequence <$> h.
Proof. intros [->|(call_id & status & ->)]; [done|apply approval_sequences]. Qed.

Lemma edited_well_formed before h : edited before h → well_formed before ↔ well_formed h.
Proof.
  intros [->|(call_id & status & ->)]; [done|]. split; intros (st & Hst & _)%well_formed_tracked.
  - rewrite approvals_unseen in Hst. destruct (validate_items_iff h) as [H _]. by destruct (H st Hst).
  - rewrite <-(approvals_unseen status _ call_id) in Hst. destruct (validate_items_iff (set_last_approval call_id status h)) as [H _].
    by destruct (H st Hst).
Qed.

Lemma edited_bounded before h n :
  edited before h → (∀ x, x ∈ h → (sequence x < n)%N) → ∀ x, x ∈ before → (sequence x < n)%N.
Proof.
  intros He%edited_sequences Hs x Hx. apply (list_elem_of_fmap_2 sequence) in Hx. rewrite He in Hx.
  apply list_elem_of_fmap in Hx as (y & -> & Hy). by apply Hs.
Qed.

(** *** Results *)

Context {json : JsonServices}.

(** The bounded projection of this result has no binary material left. *)
Definition projected_clean (tool : rstr) (result : AgentToolResult) : Prop :=
  clean_value (fst (project_observation tool (default Null (result_value result))))
  ∧ ∀ text, fst (project_error (error result)) = Some text → clean_text text.

(** What the recorder leaves in a result: a restored one projects it, a live one
    keeps the answers of a person as they are. *)
Definition result_clean (durable : bool) (tool : rstr) (result : AgentToolResult) : Prop :=
  if durable then projected_clean tool result
  else is_str tool "request_user_input" = true → valid_value (default Null (result_value result)) = true →
       clean_value (default Null (result_value result)).

Lemma sanitized_result_clean tool value :
  clean_value (fst (sanitize_runtime_tool_result tool value))
  ↔ (is_str tool "request_user_input" = true → valid_value value = true → clean_value value).
Proof.
  unfold sanitize_runtime_tool_result. destruct (is_str _ _), (valid_value value); cbn [andb fst];
    try (by split; auto); (split; [done|]; intros _; apply sanitize_runtime_value_again).
Qed.

Lemma status_succeeded_iff status : status_succeeded status = true ↔ status = Succeeded.
Proof. apply bool_decide_eq_true. Qed.

Lemma sanitize_optional_clean o t : fst (sanitize_optional_text o) = Some t → clean_text t.
Proof.
  destruct o as [s|]; [|done]. cbn. pose proof (sanitized_clean s). destruct (sanitize_runtime_text s).
  by intros [= <-].
Qed.

(** The open exchange is that of this call, and a call of an unknown tool does
    not succeed. *)
Definition settles_open (call : AgentToolCall) (result : AgentToolResult) (h : history) : Prop :=
  ∃ unregistered, open_call h = Some (id call, call_tool call, unregistered)
    ∧ (unregistered = true → result_status result ≠ Succeeded).

Lemma settles_open_fits call result before h status :
  open_call before = open_call h → status = result_status result →
  (∃ u, open_call before = Some (id call, call_tool call, u) ∧ (u = true → status_succeeded status = false))
  ↔ settles_open call result h.
Proof.
  intros -> ->. unfold settles_open, status_succeeded. by setoid_rewrite bool_decide_eq_false.
Qed.

Lemma tool_result_appends call result archive r :
  ∃ before, edited before (recorded_items r) ∧
  appends before
    (settles_open call result (recorded_items r) ∧ validate_archive archive = Ok ()
     ∧ result_clean (items_are_durable r) (call_tool call) result) r
    (snd (record_tool_result_with_archive call result archive r)).
Proof.
  unfold record_tool_result_with_archive.
  destruct (negb _); [exists (recorded_items r); by split; left|].
  destruct (find_item _ r); [exists (recorded_items r); by split; left|]. cbv zeta.
  assert (∀ status, status_succeeded status = true ↔ status = Succeeded) as Hst by apply status_succeeded_iff.
  destruct (items_are_durable r) eqn:Ed; cbn [items_are_durable enrich_tool_call set_items]; rewrite Ed.
  - exists (recorded_items r). split; [by left|]. unfold projected_tool_result_trace_item, result_clean, projected_clean.
    unfold project_tool_result.
    destruct (project_error (error result)) as [err cut'], (project_observation _ _) as [obs cut].
    eapply appends_one; [done..|]. intros _. cbn [item_ok fits fst].
    rewrite settles_open_fits by done. specialize (Hst (result_status result)).
    change (validate_archive (mark_history_truncated _ archive)) with (validate_archive archive). tauto.
  - eexists. split; [right; by eexists _, _|]. unfold checkpoint_tool_result_trace_item, result_clean.
    pose proof (sanitized_result_clean (call_tool call) (default Null (result_value result))) as Hobs.
    pose proof (sanitize_optional_clean (error result)) as Herr.
    destruct (sanitize_runtime_tool_result _ _) as [obs cut], (sanitize_optional_text (error result)) as [err cut'].
    eapply appends_one; [done..|]. intros [Hwf _]. cbn [item_ok fits fst] in *.
    rewrite settles_open_fits with (h := recorded_items r) by (done || by apply approvals_open).
    specialize (Hst (result_status result)). tauto.
Qed.

(** ** Calls of the recorder *)

Context {mail : MailServices}.

(** What a caller has to see to, with what the recorder itself sees to left out. *)
Definition admissible (call : RecorderCall) (r : Recorder) : Prop :=
  match call with
  | RecordNarration _ | RecordToolTurnNarration _ _ _ | RecordCompactionStarted _
  | RecordCompactionFinished _ _ | RecordAgentMailboxDelivery _ _ _ _ _ _ _ _ _ => between r
  | RecordRuntimeError message _ _ => between r ∧ clean_text (fst (project_terminal_error message))
  | RecordContextMaterial _ _ _ _ _ | RecordBackendState _ _ _ _ _ | EnrichToolCall _ _ => True
  | RecordUserGuidance guidance_id client_message_id _ attachments references created_at =>
      between r ∧ guidance_ok guidance_id client_message_id attachments references created_at
  | RecordWorkflowDelivery delivery => between r ∧ clean_text (delivery_content delivery)
  | RecordToolCall call provenance =>
      between r ∧ is_blank (id call) = false ∧ is_provider_safe_tool_name (call_tool call) = true
      ∧ validate_tool_identity (call_tool call) provenance = Ok ()
  | RecordToolResult call result archive =>
      settles_open call result (recorded_items r) ∧ validate_archive archive = Ok ()
      ∧ result_clean (items_are_durable r) (call_tool call) result
  end.

Lemma perform_appends call r :
  ∃ before, edited before (recorded_items r)
    ∧ (appends before (admissible call r) r (perform call r)
       ∨ recorded_items (perform call r) = before ∧ next_sequence (perform call r) = next_sequence r
         ∧ admissible call r).
Proof.
  destruct call as [| | | | | | | | | | |call_id status|call result archive]; cbn [perform admissible].
  12: { exists (set_last_approval call_id status (recorded_items r)). split; [right; by eexists _, _|by right]. }
  12: { destruct (tool_result_appends call result archive r) as (before & He & H). exists before. by split; [|left]. }
  all: exists (recorded_items r); split; [by left|left].
  - by apply narration_appends.
  - apply tool_turn_narration_appends.
  - apply compaction_started_appends.
  - apply compaction_finished_appends.
  - apply runtime_error_appends.
  - apply context_material_appends.
  - apply backend_state_appends.
  - apply guidance_appends.
  - apply workflow_appends.
  - apply mailbox_appends.
  - apply tool_call_appends.
Qed.

Definition bounded (r : Recorder) : Prop := ∀ x, x ∈ recorded_items r → (sequence x < next_sequence r)%N.

(** Whatever is called, sequence numbers are taken one by one, and the items so
    far remain, their approvals aside. *)
Lemma perform_grows call r :
  roomy r → bounded r →
  bounded (perform call r) ∧ (next_sequence r <= next_sequence (perform call r) <= next_sequence r + 1)%N
  ∧ (well_formed (recorded_items (perform call r)) → well_formed (recorded_items r)).
Proof.
  intros Hn Hs. destruct (perform_appends call r) as (before & He & H).
  pose proof (edited_bounded _ _ _ He Hs) as Hb.
  destruct H as [[[Ei Ex]|(x & Ei & Ex & Esq & _)]|(Ei & Ex & _)]; unfold bounded; rewrite Ei, Ex.
  - split_and!; try lia; done.
  - rewrite succ_grows by done. split_and!; [|lia..|].
    + intros y [Hy%Hb|Hy%list_elem_of_singleton]%elem_of_app; [lia|subst y; lia].
    + intros Hwf%well_formed_app. by apply (edited_well_formed before).
  - split_and!; try lia; [done|]. intros Hwf. by apply (edited_well_formed before).
Qed.

(** One call on well-formed items. *)
Lemma perform_sound call r :
  sound r → roomy r →
  sound (perform call r) ↔ recorded_items (perform call r) = recorded_items r ∨ admissible call r.
Proof.
  intros Hr Hn. pose proof Hr as [Hwf Hs]. destruct (perform_grows call r Hn Hs) as (Hb & _ & _).
  unfold sound at 1. destruct (perform_appends call r) as (before & He & H).
  pose proof (edited_well_formed _ _ He) as Hbw. pose proof (edited_sequences _ _ He) as Hsq.
  destruct H as [[[Ei _]|(x & Ei & _ & Esq & Hiff)]|(Ei & _ & Ha)].
  - unfold bounded in Hb. rewrite Ei in Hb |- *. split; [by left|done].
  - specialize (Hiff Hr). unfold bounded in Hb. rewrite Ei in Hb |- *. rewrite well_formed_snoc. unfold follows.
    assert (∀ previous, last before = Some previous → (sequence previous < sequence x)%N) as Hlast.
    { intros y Hy%last_Some_elem_of. rewrite Esq. by apply (edited_bounded _ _ _ He Hs). }
    assert (before ++ [x] ≠ recorded_items r) as Hne.
    { intros E. apply (f_equal length) in E. apply (f_equal length) in Hsq.
      rewrite length_app in E. rewrite !length_fmap in Hsq. cbn in E. lia. }
    tauto.
  - unfold bounded in Hb. rewrite Ei in Hb |- *. tauto.
Qed.

(** Every call of a run changes nothing or is admissible. *)
Fixpoint well_used (calls : list RecorderCall) (r : Recorder) : Prop :=
  match calls with
  | [] => True
  | call :: calls =>
      (recorded_items (perform call r) = recorded_items r ∨ admissible call r) ∧ well_used calls (perform call r)
  end.

Lemma performs_grows calls r :
  bounded r → (next_sequence r + N.of_nat (length calls) <= u64_max)%N →
  bounded (performs calls r)
  ∧ (next_sequence (performs calls r) <= next_sequence r + N.of_nat (length calls))%N
  ∧ (well_formed (recorded_items (performs calls r)) → well_formed (recorded_items r)).
Proof.
  revert r. induction calls as [|call calls IH]; intros r Hs Hn; [cbn; split_and!; [done|lia|done]|].
  cbn [length] in *. unfold performs. cbn [foldl]. fold (performs calls (perform call r)).
  destruct (perform_grows call r ltac:(lia) Hs) as (Hs' & Hn' & Hw).
  destruct (IH _ Hs' ltac:(lia)) as (H1 & H2 & H3). split_and!; [done|lia|auto].
Qed.

(** The items of a run are well-formed exactly when the run is well used: a
    single call against the rules spoils them for good. *)
Lemma performs_sound calls r :
  sound r → (next_sequence r + N.of_nat (length calls) <= u64_max)%N →
  sound (performs calls r) ↔ well_used calls r.
Proof.
  revert r. induction calls as [|call calls IH]; intros r Hr Hn; [done|]. cbn [length well_used] in *.
  unfold performs. cbn [foldl]. fold (performs calls (perform call r)).
  destruct (perform_grows call r ltac:(lia) (proj2 Hr)) as (Hs' & Hn' & _).
  rewrite <-(perform_sound call r Hr) by lia. split.
  - intros H. assert (sound (perform call r)) as Hr'.
    { split; [|done]. apply (performs_grows calls); [done|lia|]. apply H. }
    split; [done|]. apply IH; [done|lia|done].
  - intros [Hr' H]. apply IH; [done|lia|done].
Qed.

(** ** Closing *)

Lemma record_item_items item cut r :
  recorded_items (record_item item cut r) = recorded_items r ++ [item (next_sequence r)].
Proof. done. Qed.

Lemma close_unresolved_sound status error r :
  sound r → roomy r →
  let r' := close_unresolved status error r in
  sound r' ∧ between r' ∧ (next_sequence r' <= next_sequence r + 1)%N
  ∧ items_are_durable r' = items_are_durable r
  ∧ omap compaction_of (recorded_items r') = omap compaction_of (recorded_items r)
  ∧ called (recorded_items r') = called (recorded_items r).
Proof.
  intros Hr Hn. cbv zeta. pose proof Hr as [Hwf _]. pose proof (well_formed_shape _ Hwf) as Hs.
  unfold close_unresolved. destruct (open_call (recorded_items r)) as [call|] eqn:Ho.
  - destruct Hs as (pre & x & post & E & Hat). unfold unresolved_tool_call.
    assert (unresolved_call (recorded_items r) = Some x) as ->.
    { rewrite E in Hwf |- *. by eapply unresolved_call_at. }
    destruct Hat as (Hx & _). destruct x; try discriminate Hx. injection Hx as <-. cbv zeta.
    pose proof (sanitized_clean (default (if bool_decide (status = TurnCancelled)
      then rs "Run cancelled before a verifiable tool result was available."
      else rs "Run ended before a verifiable tool result was available.") error)) as Hc.
    destruct (sanitize_runtime_text _) as [raw_error raw_cut]. cbn [fst] in Hc.
    set (raw_observation := json_object _).
    assert (clean_value raw_observation) as Hraw by by destruct status; vm_compute.
    assert (∃ obs err cut, (if items_are_durable r then
      let '((observation, observation_truncated), error, error_truncated) :=
        project_tool_result tool raw_observation (Some raw_error) in
      (observation, error, observation_truncated || error_truncated)
      else (raw_observation, Some raw_error, false)) = (obs, err, cut)
      ∧ clean_value obs ∧ ∀ t, err = Some t → clean_text t) as (obs & err & cut & -> & Hobs & Herr).
    { destruct (items_are_durable r).
      - pose proof (observation_clean tool _ Hraw) as Ho'.
        pose proof (project_error_clean (Some raw_error) ltac:(by intros t [= <-])) as He'.
        unfold project_tool_result. destruct (project_error _), (project_observation _ _).
        by eexists _, _, _.
      - eexists _, _, _. split; [done|]. split; [done|]. by intros t [= <-]. }
    split_and!.
    + apply record_item_sound; [done..| |].
      * split_and!; try done. by destruct (bool_decide _).
      * eexists. split; [exact Ho|done].
    + unfold between. by rewrite record_item_items, open_call_snoc.
    + cbn -[u64_saturating_succ u64_max]. rewrite succ_grows by done. lia.
    + done.
    + by rewrite record_item_items, omap_snoc, app_nil_r.
    + by rewrite record_item_items, called_snoc, app_nil_r.
  - unfold unresolved_tool_call. rewrite (unresolved_call_None _ Hs). split_and!; try done. lia.
Qed.

Definition started (h : history) : list rstr :=
  omap (λ x, match compaction_of x with Some (CompactionStarted, op) => Some op | _ => None end) h.

Lemma elem_started h op : op ∈ started h ↔ (CompactionStarted, op) ∈ omap compaction_of h.
Proof.
  unfold started. rewrite !list_elem_of_omap. split; intros (x & Hx & E); exists x; (split; [done|]).
  - destruct (compaction_of x) as [[[] ?]|]; naive_solver.
  - by rewrite E.
Qed.

Lemma finish_operation_map (g : rstr → bool) op l : NoDup l →
  finish_operation op ((λ o, (o, g o)) <$> l) = (λ o, (o, bool_decide (o = op) || g o)) <$> l.
Proof.
  induction 1 as [|o l Ho _ IH]; [done|]. cbn [fmap list_fmap finish_operation].
  destruct (str_eqb o op) eqn:E.
  - apply str_eqb_eq in E as ->. rewrite bool_decide_eq_true_2 by done. f_equal.
    apply list_fmap_ext. intros i o Hi. rewrite bool_decide_eq_false_2; [done|].
    intros ->. apply Ho. by eapply list_elem_of_lookup_2.
  - rewrite bool_decide_eq_false_2, IH; [done|]. intros ->.
    assert (str_eqb op op = true) by by apply str_eqb_eq. congruence.
Qed.

(** The compactions the recorder closes, with their being finished. *)
Lemma compactions_found h : well_formed h →
  NoDup (started h)
  ∧ foldl compaction_step [] h
    = (λ op, (op, bool_decide ((CompactionFinished, op) ∈ omap compaction_of h))) <$> started h.
Proof.
  induction h as [|x h IH] using rev_ind; [intros _; split; [constructor|done]|].
  intros (Hwf & _ & _ & Hfit)%well_formed_snoc. destruct (IH Hwf) as [Hnd Hops].
  rewrite foldl_app. cbn [foldl]. rewrite Hops. unfold started. rewrite !omap_snoc. fold (started h).
  destruct (compaction_of x) as [[ph op]|] eqn:Ex.
  - destruct x as [| | | | | | | | |sq ph' op' outcome|]; try discriminate Ex. injection Ex as -> ->.
    destruct Hfit as (_ & Hnf & Hst). destruct ph; cbn [option_list option_rect compaction_step].
    + assert (¬ op ∈ started h) as Hns. { rewrite elem_started. intros H%Hst. done. }
      split; [apply NoDup_app; split_and!; [done|set_solver|apply NoDup_singleton]|].
      rewrite fmap_app. f_equal.
      * apply list_fmap_ext. intros i o Hi. f_equal. apply bool_decide_ext. rewrite elem_of_app.
        split; [by left|]. intros [H|H%list_elem_of_singleton]; done.
      * cbn. do 2 f_equal. symmetry. apply bool_decide_eq_false_2. rewrite elem_of_app.
        intros [H|H%list_elem_of_singleton]; done.
    + rewrite app_nil_r. split; [done|]. rewrite finish_operation_map by done.
      apply list_fmap_ext. intros i o Hi. f_equal. rewrite <-bool_decide_or. apply bool_decide_ext.
      rewrite elem_of_app, list_elem_of_singleton. naive_solver.
  - cbn [option_list option_rect]. rewrite !app_nil_r. assert (compaction_step ((λ op, (op, bool_decide ((CompactionFinished, op)
      ∈ omap compaction_of h))) <$> started h) x
      = (λ op, (op, bool_decide ((CompactionFinished, op) ∈ omap compaction_of h))) <$> started h) as ->
      by by destruct x.
    done.
Qed.

(** An operation that can still be closed. *)
Definition closable (h : history) (operation : rstr * bool) : Prop :=
  (CompactionStarted, fst operation) ∈ omap compaction_of h
  ∧ (snd operation = true ↔ (CompactionFinished, fst operation) ∈ omap compaction_of h).

Lemma close_operation_sound outcome r operation :
  sound r → roomy r → between r → closable (recorded_items r) operation →
  let r' := close_operation outcome r operation in
  sound r' ∧ between r' ∧ (next_sequence r' <= next_sequence r + 1)%N
  ∧ items_are_durable r' = items_are_durable r
  ∧ (∀ e, e ∈ omap compaction_of (recorded_items r')
         ↔ e ∈ omap compaction_of (recorded_items r) ∨ e = (CompactionFinished, fst operation))
  ∧ called (recorded_items r') = called (recorded_items r).
Proof.
  intros Hr Hn Hb [Hst Hfin]. unfold close_operation. destruct operation as [op []]; cbn [fst snd] in *.
  - split_and!; try done; [lia|]. intros e. split; [by left|]. intros [He| ->]; [done|]. by apply Hfin.
  - pose proof Hst as (x & Hx & Hxe)%list_elem_of_omap.
    destruct x as [| | | | | | | | |sq ph op' out|]; try discriminate Hxe. injection Hxe as -> ->.
    destruct Hr as [Hwf Hseq]. pose proof (well_formed_item _ _ Hwf Hx) as (Hblank & Hlen & Hctl & _).
    split_and!.
    + apply record_item_sound; [by split|done|done|by split_and!|].
      split; [done|]. split; [|by split]. intros H%Hfin. done.
    + unfold between. by rewrite record_item_items, open_call_snoc.
    + cbn -[u64_saturating_succ u64_max]. rewrite succ_grows by done. lia.
    + done.
    + intros e. rewrite record_item_items, omap_snoc. cbn [compaction_of option_list option_rect].
      by rewrite elem_of_app, list_elem_of_singleton.
    + by rewrite record_item_items, called_snoc, app_nil_r.
Qed.

Lemma close_operations_sound outcome operations r :
  sound r → between r → (next_sequence r + N.of_nat (length operations) <= u64_max)%N →
  NoDup (fst <$> operations) → Forall (closable (recorded_items r)) operations →
  let r' := foldl (close_operation outcome) r operations in
  sound r' ∧ between r' ∧ items_are_durable r' = items_are_durable r
  ∧ (∀ e, e ∈ omap compaction_of (recorded_items r')
         ↔ e ∈ omap compaction_of (recorded_items r)
           ∨ ∃ op, op ∈ fst <$> operations ∧ e = (CompactionFinished, op))
  ∧ called (recorded_items r') = called (recorded_items r).
Proof.
  revert r. induction operations as [|operation operations IH]; intros r Hr Hb Hn Hnd Hcl;
    cbn [foldl]; cbv zeta.
  { split_and!; try done. set_solver. }
  rewrite fmap_cons in *. cbn [length] in Hn. apply NoDup_cons in Hnd as [Hnew Hnd].
  apply Forall_cons in Hcl as [Hc Hcl].
  destruct (close_operation_sound outcome r operation Hr ltac:(lia) Hb Hc) as (Hr' & Hb' & Hn' & Hd' & He' & Hc').
  destruct (IH _ Hr' Hb' ltac:(lia) Hnd) as (Hr2 & Hb2 & Hd2 & He2 & Hc2).
  - apply Forall_forall. intros o Ho. rewrite Forall_forall in Hcl. destruct (Hcl o Ho) as [Hs Hf].
    split; rewrite !He'; [by left|]. rewrite Hf. split; [by left|]. intros [H|[= E]]; [done|].
    destruct Hnew. rewrite <-E. by apply list_elem_of_fmap_2.
  - split_and!; try done; [congruence| |congruence]. intros e. rewrite He2, He'. setoid_rewrite elem_of_cons. naive_solver.
Qed.

Lemma started_length h : length (started h) ≤ length h.
Proof.
  unfold started. induction h as [|x h IH]; [done|]. cbn. destruct (compaction_of x) as [[[] ?]|]; cbn; lia.
Qed.

Lemma started_events h : started h =
  omap (λ e : ConversationContextCompactionLifecyclePhase * rstr,
    match e with (CompactionStarted, op) => Some op | _ => None end) (omap compaction_of h).
Proof.
  unfold started. induction h as [|x h IH]; [done|]. cbn. rewrite IH.
  by destruct (compaction_of x) as [[[] ?]|].
Qed.

(** Closing a recorder at the end of a turn: nothing is left open. *)
Lemma closed_sound status error r :
  is_terminal status = true → sound r →
  (next_sequence r + N.of_nat (length (recorded_items r)) + 1 < u64_max)%N →
  let r' := close_unresolved_context_compactions status (close_unresolved status error r) in
  sound r' ∧ ended status (recorded_items r') ∧ items_are_durable r' = items_are_durable r
  ∧ called (recorded_items r') = called (recorded_items r).
Proof.
  intros Ht Hr Hn. cbv zeta.
  destruct (close_unresolved_sound status error r Hr ltac:(lia)) as (Hr1 & Hb1 & Hn1 & Hd1 & Hc1 & Hk1).
  set (r1 := close_unresolved status error r) in *. unfold close_unresolved_context_compactions.
  destruct (closing_outcome status) as [outcome|] eqn:Eo; [|by destruct status].
  destruct (compactions_found _ (proj1 Hr1)) as [Hnd Hops]. rewrite Hops.
  set (ops := _ <$> started _).
  assert (fst <$> ops = started (recorded_items r1)) as Hfst.
  { unfold ops. rewrite <-list_fmap_compose. apply list_fmap_id. }
  assert (length ops ≤ length (recorded_items r)) as Hlen.
  { unfold ops. rewrite length_fmap.
    assert (started (recorded_items r1) = started (recorded_items r)) as ->; [|apply started_length].
    by rewrite !started_events, Hc1. }
  destruct (close_operations_sound outcome ops r1 Hr1 Hb1) as (Hr2 & Hb2 & Hd2 & He2 & Hk2).
  - lia.
  - by rewrite Hfst.
  - apply Forall_fmap, Forall_forall. intros op Hop. split; cbn [fst snd]; [by apply elem_started|].
    apply bool_decide_eq_true.
  - split_and!; [done| |congruence|congruence]. right. split; [done|]. intros op Hop%He2.
    apply He2. right. exists op. split; [|done]. rewrite Hfst. apply elem_started.
    destruct Hop as [Hop|(o & _ & [=])]. done.
Qed.

(** Closing adds items, it changes none. *)
Lemma close_unresolved_extends status error r :
  ∃ l, recorded_items (close_unresolved status error r) = recorded_items r ++ l.
Proof.
  unfold close_unresolved. destruct (unresolved_tool_call r) as [x|]; [|exists []; by rewrite app_nil_r].
  destruct x; try (exists []; by rewrite app_nil_r). cbv zeta.
  destruct (sanitize_runtime_text _) as [text cut].
  destruct (if items_are_durable r then _ else _) as [[obs err] cut']. eexists. apply record_item_items.
Qed.

Lemma close_operations_extend outcome operations r :
  ∃ l, recorded_items (foldl (close_operation outcome) r operations) = recorded_items r ++ l.
Proof.
  revert r. induction operations as [|operation operations IH]; intros r; cbn [foldl];
    [exists []; by rewrite app_nil_r|].
  destruct (IH (close_operation outcome r operation)) as [l ->]. unfold close_operation.
  destruct (snd operation); [by exists l|]. rewrite record_item_items. eexists. by rewrite <-app_assoc.
Qed.

Lemma closing_extends status error r :
  ∃ l, recorded_items (close_unresolved_context_compactions status (close_unresolved status error r))
       = recorded_items r ++ l.
Proof.
  destruct (close_unresolved_extends status error r) as [l E]. unfold close_unresolved_context_compactions.
  destruct (closing_outcome status) as [outcome|]; [|by exists l].
  destruct (close_operations_extend outcome (foldl compaction_step [] (recorded_items (close_unresolved status error r)))
    (close_unresolved status error r)) as [l' ->]. exists (l ++ l'). by rewrite E, app_assoc.
Qed.

Variable sha256_hex : list N → rstr.

(** What a restored recorder finishes with has the items it had. *)
Lemma finished_durable run conversation message status error r :
  items_are_durable (close_unresolved_context_compactions status (close_unresolved status error r)) = true →
  validate (finish sha256_hex run conversation message status error r) = Ok () → well_formed (recorded_items r).
Proof.
  intros Hd (_ & _ & _ & Hwf & _)%validate_iff. destruct (closing_extends status error r) as [l E].
  unfold finish in Hwf. cbv zeta in Hwf. rewrite Hd, E in Hwf.
  destruct (match error with Some _ => _ | None => _ end) as [text cut']. by eapply well_formed_app.
Qed.

Lemma closing_keeps_durable status error r :
  items_are_durable (close_unresolved_context_compactions status (close_unresolved status error r)) = items_are_durable r.
Proof.
  assert (items_are_durable (close_unresolved status error r) = items_are_durable r) as E.
  { unfold close_unresolved. destruct (unresolved_tool_call r) as [x|]; [|done]. destruct x; try done. cbv zeta.
    destruct (sanitize_runtime_text _) as [text cut].
    by destruct (if items_are_durable r then _ else _) as [[obs err] cut']. }
  unfold close_unresolved_context_compactions. destruct (closing_outcome status) as [outcome|]; [|done].
  rewrite <-E. generalize (foldl compaction_step [] (recorded_items (close_unresolved status error r))) as operations.
  generalize (close_unresolved status error r) as r'. intros r' operations. revert r'.
  induction operations as [|operation operations IH]; intros r'; [done|]. cbn [foldl]. rewrite IH.
  unfold close_operation. by destruct (snd operation).
Qed.

Lemma finished_valid run conversation message status error r :
  is_terminal status = true → sound r →
  (items_are_durable r = false → Forall clean_text (called (recorded_items r))) →
  (next_sequence r + N.of_nat (length (recorded_items r)) + 1 < u64_max)%N →
  Forall (λ id, is_blank id = false) [run; conversation; message] →
  validate (finish sha256_hex run conversation message status error r) = Ok ().
Proof.
  intros Ht Hr Hk Hn Hids. apply validate_iff.
  destruct (closed_sound status error r Ht Hr Hn) as ([Hwf _] & He & Hd' & Hk'). unfold finish.
  set (r' := close_unresolved_context_compactions status _) in *. cbv zeta.
  assert (let items := fst (if items_are_durable r' then (recorded_items r', false)
            else project_durable_trace_items sha256_hex (recorded_items r')) in
          well_formed items ∧ ended status items) as [Hwf' He'].
  { destruct (items_are_durable r') eqn:Ed; [by split|]. rewrite <-Hk', <-Hd' in Hk. specialize (Hk eq_refl).
    destruct (projected_history sha256_hex _ Hwf Hk) as [Hp Hsk]. split; [done|]. by eapply ended_skeleton. }
  destruct (if items_are_durable r' then _ else _) as [items cut].
  destruct (match error with Some _ => _ | None => _ end) as [text cut']. cbn -[u64_max].
  split_and!; try done. intros ->. discriminate Ht.
Qed.
End Sound.
