(* ===== verification/TraceClaims.v ===== *)
(** * The log of the model follows the trace

    Sequence numbers grow along a well-formed trace and along a checked log, so
    leaving out the open call cuts both at the same place.

    After that: properties of conversation traces; properties of the recorder;
    properties of the projection into the kept history. *)

From stdpp Require Import relations.
From stdpp Require Import gmap.
From S2P Require Import Prelude RustText Json TraceItems TraceValidation ModelContext TraceHistory.
From S2P Require Import TraceSanitizer TraceProjectionFacts HumanInteraction TraceProjection.
From S2P Require Import TraceRecorder TraceRecorderFacts ApplyPatchWire ProjectedHistory.

Section Facts.
Context {services : TraceServices}.

Lemma sequences_grow h y : well_formed (h ++ [y]) → ∀ x, x ∈ h → (sequence x < sequence y)%N.
Proof.
  revert y. induction h as [|z h IH] using rev_ind; intros y Hwf x Hx; [set_solver|].
  apply well_formed_snoc in Hwf as (Hwf & _ & Hlast & _).
  specialize (Hlast z). rewrite last_snoc in Hlast. specialize (Hlast eq_refl).
  apply elem_of_app in Hx as [Hx| ->%list_elem_of_singleton]; [|done].
  specialize (IH z Hwf x Hx). lia.
Qed.

Lemma sequences_around pre x post : well_formed (pre ++ x :: post) →
  (∀ y, y ∈ pre → (sequence y < sequence x)%N) ∧ (∀ y, y ∈ post → (sequence x < sequence y)%N).
Proof.
  intros Hwf. split.
  - apply sequences_grow. rewrite cons_middle, app_assoc in Hwf. by eapply well_formed_app.
  - intros y (l1 & l2 & ->)%list_elem_of_split. apply (sequences_grow (pre ++ x :: l1)).
    + rewrite app_comm_cons, cons_middle, !app_assoc in Hwf. apply well_formed_app in Hwf.
      by rewrite <-!app_assoc in *.
    + apply elem_of_app. right. by left.
Qed.

Lemma identity_lt_trans a b c : identity_lt a b = true → identity_lt b c = true → identity_lt a c = true.
Proof.
  unfold identity_lt. rewrite !orb_true_iff, !andb_true_iff, !N.ltb_lt, !N.eqb_eq. lia.
Qed.

Lemma model_items_after h previous log :
  validate_model_items h (Some previous) log = Ok () →
  ∀ y, y ∈ log → identity_lt previous (identity y) = true.
Proof.
  revert previous. induction log as [|item log IH]; intros previous; [set_solver|].
  cbn [validate_model_items]. rewrite !check_bind, ensure_Ok. cbn [is_none_or].
  intros (_ & Hlt & Hrest). inv_bind Hrest. apply check_bind in Hrest as [_ Hrest].
  intros y [->|Hy]%elem_of_cons; [done|]. eapply identity_lt_trans; [done|]. by eapply IH.
Qed.

(** From any item on, the sequence numbers of a log do not go down. *)
Lemma model_items_sorted h previous a item b :
  validate_model_items h previous (a ++ item :: b) = Ok () →
  ∀ y, y ∈ b → (model_sequence item <= model_sequence y)%N.
Proof.
  revert previous. induction a as [|x a IH]; intros previous; cbn [app validate_model_items];
    rewrite !check_bind; intros (_ & _ & Hrest); inv_bind Hrest; apply check_bind in Hrest as [_ Hrest].
  - intros y Hy. pose proof (model_items_after _ _ _ Hrest y Hy) as Hlt. revert Hlt.
    unfold identity_lt, identity. cbn [fst snd]. rewrite orb_true_iff, andb_true_iff, N.ltb_lt, N.eqb_eq. lia.
  - by apply (IH _ Hrest).
Qed.

Lemma elem_sequence_set s l : s ∈ sequence_set l ↔ s ∈ l.
Proof. unfold sequence_set. apply elem_of_list_to_set. Qed.

Lemma elem_filter {A} (p : A → bool) l x : x ∈ List.filter p l ↔ x ∈ l ∧ p x = true.
Proof. by rewrite !list_elem_of_In, filter_In. Qed.

Lemma is_not_true o s : is_not o s = true ↔ o ≠ Some s.
Proof. unfold is_not. by rewrite negb_true_iff, bool_decide_eq_false. Qed.

(** A complete log has a message for exactly the visible items, the unresolved call aside. *)
Lemma complete_log trace log :
  validate_complete_model_context trace log = Ok () →
  validate_model_context_prefix trace log = Ok ()
  ∧ ∀ s, unresolved_call_sequence trace ≠ Some s →
      s ∈ model_sequence <$> log ↔ ∃ x, x ∈ items trace ∧ is_model_visible x = true ∧ sequence x = s.
Proof.
  unfold validate_complete_model_context. rewrite check_bind, ensure_Ok, bool_decide_eq_true.
  intros [Hp Hset]. split; [done|]. intros s Hs.
  assert (s ∈ sequence_set (List.filter (is_not (unresolved_call_sequence trace)) (model_sequence <$> log))
    ↔ s ∈ model_sequence <$> log) as <-.
  { rewrite elem_sequence_set, elem_filter, is_not_true. tauto. }
  rewrite Hset, elem_sequence_set, elem_filter, is_not_true, list_elem_of_fmap.
  setoid_rewrite elem_filter. naive_solver.
Qed.
(** Where the open call of a valid trace is. *)
Lemma unresolved_sequence trace : validate trace = Ok () →
  match unresolved_call_sequence trace with
  | None => committed_prefix (items trace) = items trace
  | Some s => ∃ x post, items trace = committed_prefix (items trace) ++ x :: post ∧ sequence x = s
      ∧ (∀ y, y ∈ post → is_model_visible y = false)
  end.
Proof.
  intros (_ & _ & _ & Hwf & He)%validate_iff. pose proof (well_formed_shape _ Hwf) as Hs.
  pose proof (committed_prefix_spec _ Hwf) as [_ Hc]. unfold unresolved_call_sequence.
  destruct (open_call (items trace)) as [call|] eqn:Ho.
  - destruct He as [->|[He _]]; [|congruence]. rewrite bool_decide_eq_true_2 by done.
    destruct Hs as (pre & x & post & E & Hat).
    assert (committed_prefix (items trace) = pre) as Hpre.
    { destruct Hat as (Hx & _ & _ & _ & Hpost%quiet_post). unfold committed_prefix.
      by rewrite E, (unresolved_at _ _ _ _ Hx Hpost), take_app_length. }
    rewrite Hpre, E, unresolved_call_at with (call := call) by (done || by rewrite <-E).
    exists x, post. split_and!; [done..|]. destruct Hat as (_ & _ & _ & _ & Hpost).
    intros y Hy. rewrite Forall_forall in Hpost. destruct (Hpost y Hy) as (l & Hl & _). by destruct y.
  - rewrite (unresolved_call_None _ Hs). by destruct (bool_decide _).
Qed.

(** Cutting a log at the first message of the open call leaves out exactly the
    messages of that call, when no message after it belongs to an earlier item. *)
Lemma cut_at_call log s0 :
  (∀ a item b, log = a ++ item :: b → model_sequence item = s0 →
     ∀ y, y ∈ b → (s0 <= model_sequence y)%N) →
  (∀ y, y ∈ log → model_sequence y ≠ s0 → (model_sequence y < s0)%N) →
  ∀ s, s ∈ model_sequence <$> take (default (length log)
                                (position (λ item, model_sequence item =? s0)%N log)) log
       ↔ s ∈ model_sequence <$> log ∧ s ≠ s0.
Proof.
  induction log as [|y log IH]; intros Hsorted Hearly s; [set_solver|]. cbn [position length].
  destruct (N.eqb_spec (model_sequence y) s0) as [Hy|Hy].
  - cbn [default take]. split; [set_solver|].
    intros [(z & -> & [->|Hz]%elem_of_cons)%list_elem_of_fmap Hs]; [done|].
    specialize (Hsorted [] y log eq_refl Hy z Hz).
    specialize (Hearly z ltac:(by right) Hs). lia.
  - assert (default (S (length log)) (S <$> position (λ item, model_sequence item =? s0)%N log)
      = S (default (length log) (position (λ item, model_sequence item =? s0)%N log))) as -> by by destruct (position _ log).
    cbn [take]. rewrite !fmap_cons, !elem_of_cons, IH; [naive_solver| |].
    + intros a item b ->. by apply (Hsorted (y :: a)).
    + intros z Hz. apply Hearly. by right.
Qed.

Lemma committed_log trace log :
  validate trace = Ok () →
  validate_complete_model_context trace log = Ok () →
  ∃ committed, committed_model_context_prefix trace log = Ok committed
    ∧ committed `prefix_of` log
    ∧ ∀ s, s ∈ model_sequence <$> committed ↔
        ∃ x, x ∈ committed_prefix (items trace) ∧ is_model_visible x = true ∧ sequence x = s.
Proof.
  intros Hv [Hp Hcover]%complete_log. pose proof (unresolved_sequence _ Hv) as Hu.
  apply validate_iff in Hv as (_ & _ & _ & Hwf & _).
  unfold committed_model_context_prefix. rewrite Hp. cbn [mbind result_bind].
  eexists. split; [done|]. split; [apply prefix_take|].
  destruct (unresolved_call_sequence trace) as [s0|]; cbn [mbind option_bind default].
  - destruct Hu as (x & post & E & Hx & Hpost). rewrite E in Hwf, Hcover.
    destruct (sequences_around _ _ _ Hwf) as [Hbefore Hafter].
    assert (∀ s, (∃ y, y ∈ committed_prefix (items trace) ++ x :: post ∧ is_model_visible y = true
        ∧ sequence y = s) ∧ s0 ≠ s ↔
      ∃ y, y ∈ committed_prefix (items trace) ∧ is_model_visible y = true ∧ sequence y = s) as Hvis.
    { intros s. split.
      - intros [(y & [Hy|[->|Hy]%elem_of_cons]%elem_of_app & Hvy & Hsy) Hs]; [eauto|by subst|].
        by rewrite (Hpost y Hy) in Hvy.
      - intros (y & Hy & Hvy & Hsy). split; [exists y; rewrite elem_of_app; eauto|].
        specialize (Hbefore y Hy). lia. }
    unfold validate_model_context_prefix in Hp. apply check_bind in Hp as [Hitems _].
    intros s. rewrite cut_at_call, <-Hvis.
    + split; [intros [Hs Hn]; split; [apply Hcover|]; congruence|].
      intros [Hs Hn]. split; [apply Hcover|]; congruence.
    + intros a item b -> <-. by apply (model_items_sorted _ _ _ _ _ Hitems).
    + intros y Hy Hn. destruct (proj1 (Hvis (model_sequence y))) as (z & Hz & _ & <-).
      * split; [|done]. apply Hcover; [congruence|]. by apply list_elem_of_fmap_2.
      * rewrite <-Hx. by apply Hbefore.
  - rewrite Hu, firstn_all. intros s. by apply Hcover.
Qed.
End Facts.

(** * Properties of conversation traces

    What the validator accepts, that it may be fed in parts, and the closed
    prefix of a trace that may enter the context of the model. *)

(** *** Examples for the witnesses *)

(** Canonical text stands for the identifier, and one document can be read. *)
Definition example_services : TraceServices := {|
  uuid := rstr;
  parse_uuid s :=
    if (length s =? 36)%nat && forallb (λ c, is_lower_hex c || is_char "-" c) s then Some s else None;
  uuid_is_nil s := forallb (is_in "0-") s;
  uuid_is_random s := is_at "4" (s !! 14);
  uuid_text s := s;
  json_from_str s := if is_str s "{}" then Some (Object []) else None;
|}.

Definition example_call (sequence : N) (id : string) : ConversationTurnTraceItem :=
  ToolCall sequence (rs id) (rs "run_command") (BuiltinTool (rs "run_command"))
    (Object [(rs "command", String (rs "make"))]) ApprovalApproved false.
Definition example_result (sequence : N) (id : string) : ConversationTurnTraceItem :=
  ToolResult sequence (rs id) (rs "run_command") Succeeded true Null ApprovalApproved None false
    default_archive.
Definition example_event (phase : ConversationCommandSessionLifecyclePhase)
    (status : AgentCommandSessionStatus) : ConversationCommandSessionLifecycle :=
  mkLifecycle phase (rs "cmd_0123456789abcdef0123456789abcdef") (rs "c2") status None 0 false
    default_archive 5.
Definition example_items : list ConversationTurnTraceItem :=
  [BackendState 0 (rs "s1") (rs "{}") 1 Timeline;
   AssistantNarration 1 (rs "building") None None false;
   example_call 2 "c1"; example_result 3 "c1";
   ContextCompactionLifecycle 4 CompactionStarted (rs "k") None;
   ContextCompactionLifecycle 5 CompactionFinished (rs "k") (Some CompactionApplied);
   example_call 6 "c2"].
Definition example_trace (items : list ConversationTurnTraceItem) : ConversationTurnTrace :=
  in_progress_audit_trace (rs "run") (rs "conversation") (rs "message") false items.

Definition example_message (sequence : N) (role content : string) (call_id : option rstr)
    (calls : list AgentContextCheckpointToolCall) : ConversationModelContextItem :=
  mkModelItem sequence 0 (rs role) (rs content) [] call_id calls false.
Definition example_model_call (id : string) : AgentContextCheckpointToolCall :=
  mkModelCall (rs id) (rs "run_command") (Object [(rs "command", String (rs "make"))])
    (mkProviderIdentity 0 (rs id) (rs id)).

(** The log of [example_items], with the message of the open call already there. *)
Definition example_log : list ConversationModelContextItem :=
  [example_message 0 "user" "{}" None [];
   example_message 1 "assistant" "building" None [];
   example_message 2 "assistant" "" None [example_model_call "c1"];
   example_message 3 "tool" "ok" (Some (rs "c1")) [];
   example_message 6 "assistant" "" None [example_model_call "c2"]].

#[local] Existing Instance example_services.

Lemma example_valid : validate (services := example_services) (example_trace example_items) = Ok ().
Proof. vm_compute. reflexivity. Qed.

Section Claims.
Context {services : TraceServices}.

(** C28. The validator accepts exactly the traces that are described without it:
    the current schema, identities that are not blank, no terminal error while
    the turn runs, every item right on its own and fit to follow the items
    before it (growing sequence numbers, a result only for the open call and
    nothing else between the two, sessions and compactions started once and
    ended once, identities used once), and at the end of a turn no open call
    and no running compaction. *)
Theorem validator_accepts_well_formed trace :
  validate trace = Ok () ↔
  schema_version trace = CONVERSATION_TURN_TRACE_SCHEMA_VERSION
  ∧ Forall (λ id, is_blank id = false) [run_id trace; conversation_id trace; assistant_message_id trace]
  ∧ (terminal_status trace = TurnInProgress → terminal_error trace = None)
  ∧ well_formed (items trace)
  ∧ ended (terminal_status trace) (items trace).
Proof. apply validate_iff. Qed.

(** Feeding the items in two parts, the first while the turn runs, is
    feeding them at once: the same result, and after it the same state; so the
    items already checked need no second look. *)
Theorem append_in_parts st h1 h2 status :
  append st (h1 ++ h2) status =
  match append st h1 TurnInProgress with
  | (Ok _, st1) => append st1 h2 status
  | (Err message, st1) => (Err message, st1)
  end.
Proof.
  unfold append. rewrite validate_items_app.
  destruct (validate_items st h1) as [st1|e]; [|done]. cbn [mbind result_bind].
  assert (validate_end st1 TurnInProgress = Ok ()) as ->; [|done].
  unfold validate_end. by rewrite check_bind, !ensure_Ok, bool_decide_eq_true_2, orb_true_r.
Qed.

Lemma event_found h l existing :
  List.find (is_event_of l) h = Some existing → existing ∈ h ∧ is_event_of l existing = true.
Proof. intros [? ?]%find_some. by rewrite list_elem_of_In. Qed.

(** Recording an event of a command session on a valid trace: when it
    succeeds the trace is valid, it has the items it had and the event under
    the sequence number returned, and recording the event again changes nothing
    and returns the same number; when it fails the trace is as it was. *)
Theorem session_event_recorded_once trace lifecycle :
  validate trace = Ok () →
  match append_command_session_lifecycle trace lifecycle with
  | (Ok sequence, trace') =>
      validate trace' = Ok ()
      ∧ items trace `prefix_of` items trace'
      ∧ CommandSessionLifecycle sequence lifecycle ∈ items trace'
      ∧ append_command_session_lifecycle trace' lifecycle = (Ok sequence, trace')
  | (Err _, trace') => trace' = trace
  end.
Proof.
  intros Hv. unfold append_command_session_lifecycle.
  destruct (List.find (is_event_of lifecycle) (items trace)) as [existing|] eqn:Ef.
  - destruct (is_same_event lifecycle existing) eqn:Es; [|done].
    rewrite Ef, Es. split_and!; try done. destruct (event_found _ _ _ Ef) as [Hin _].
    destruct existing; try discriminate Es. by apply bool_decide_eq_true in Es as ->.
  - set (candidate := TraceValidation.set_items _ _). destruct (validate candidate) as [[]|e] eqn:Ec; [|done].
    unfold candidate, TraceValidation.set_items. cbn [items]. split_and!; [done|by eexists| |].
    + apply elem_of_app. right. by left.
    + rewrite find_app, Ef. cbn [List.find is_event_of]. rewrite bool_decide_eq_true_2 by done.
      assert (str_eqb (session_id lifecycle) (session_id lifecycle) = true) as -> by by apply str_eqb_eq.
      cbn [andb is_same_event sequence]. by rewrite bool_decide_eq_true_2.
Qed.

(** The closed prefix of a valid trace: it is a prefix without an open call
    that the validator accepts as a trace of its own; when a call is open, what
    is left out is that call and events of its own command session, and when
    none is nothing is left out. *)
Theorem committed_prefix_is_closed run conversation message truncated h :
  validate (in_progress_audit_trace run conversation message truncated h) = Ok () →
  validate (in_progress_trace run conversation message truncated h) = Ok ()
  ∧ open_call (committed_prefix h) = None
  ∧ match open_call h with
    | None => committed_prefix h = h
    | Some call => ∃ x rest, h = committed_prefix h ++ x :: rest ∧ call_identity x = Some call
        ∧ Forall (λ y, ∃ l, lifecycle_of y = Some l ∧ lifecycle_call_id l = fst (fst call)) rest
    end.
Proof.
  rewrite !validate_iff. cbn. intros (? & ? & ? & Hwf & _).
  pose proof (committed_prefix_spec h Hwf) as [Hopen Hs]. split_and!; try done; [|by left].
  destruct (open_call h); [destruct Hs as (x & rest & E & _)|by rewrite Hs].
  rewrite E in Hwf. by eapply well_formed_app.
Qed.

(** On a valid trace the searches for the unresolved call agree: the one
    that looks for a result after a call, and the one that looks for a result
    anywhere, both find the open call, or none when no call is open; and the
    number of items shown to the model is that of the closed prefix, whatever
    the status. *)
Theorem unresolved_searches_agree trace :
  validate trace = Ok () →
  match open_call (items trace) with
  | None => unresolved_call_index (items trace) = None ∧ unresolved_call (items trace) = None
  | Some call => ∃ index x, unresolved_call_index (items trace) = Some index
      ∧ items trace !! index = Some x
      ∧ unresolved_call (items trace) = Some x
      ∧ call_identity x = Some call
  end
  ∧ model_context_item_count trace
    = length (List.filter is_model_visible (committed_prefix (items trace))).
Proof.
  intros (_ & _ & _ & Hwf & He)%validate_iff. pose proof (well_formed_shape _ Hwf) as Hs.
  unfold model_context_item_count, committed_prefix.
  destruct (open_call (items trace)) as [call|] eqn:Ho.
  - destruct He as [->|[He _]]; [|congruence]. destruct Hs as (pre & x & post & E & Hat).
    pose proof Hat as (Hx & _ & _ & _ & Hpost%quiet_post).
    rewrite E, (unresolved_at _ _ _ _ Hx Hpost). split; [|done].
    exists (length pre), x. rewrite E in Hwf. split_and!; [done| | |done].
    + by apply list_lookup_middle.
    + by eapply unresolved_call_at.
  - rewrite (resolved_unresolved _ Hs), (unresolved_call_None _ Hs). split; [done|].
    destruct (bool_decide _); cbn [default]; by rewrite firstn_all.
Qed.

(** A complete log of what the model was shown can be cut at the open call:
    the committed part is a prefix of the log, and it has messages for exactly
    the visible items of the closed prefix of the trace, whether or not messages
    of the open call are already in the log. *)
Theorem committed_log_covers_closed_prefix trace log :
  validate trace = Ok () →
  validate_complete_model_context trace log = Ok () →
  ∃ committed, committed_model_context_prefix trace log = Ok committed
    ∧ committed `prefix_of` log
    ∧ ∀ s, s ∈ model_sequence <$> committed ↔
        ∃ x, x ∈ committed_prefix (items trace) ∧ is_model_visible x = true ∧ sequence x = s.
Proof. apply committed_log. Qed.

(** What is sanitised passes the checks, and is left alone when sanitised
    again; what the sanitizer does not report is unchanged. *)
Theorem sanitized_passes label s v :
  ensure_no_binary_text label (fst (sanitize_runtime_text s)) = Ok ()
  ∧ ensure_no_binary_value label (fst (sanitize_runtime_value v)) = Ok ()
  ∧ (snd (sanitize_runtime_text s) = false → fst (sanitize_runtime_text s) = s)
  ∧ (snd (sanitize_runtime_value v) = false → fst (sanitize_runtime_value v) = v).
Proof.
  split_and!.
  - apply ensure_no_binary_text_Ok. by rewrite sanitize_runtime_text_again.
  - apply ensure_no_binary_value_Ok, sanitize_runtime_value_again.
  - unfold sanitize_runtime_text. by destruct (_ && _).
  - apply unreported_unchanged.
Qed.
End Claims.

(** *** Witnesses *)

Lemma session_event_recorded_once_witness :
  snd (append_command_session_lifecycle
         (snd (append_command_session_lifecycle (example_trace example_items)
                 (example_event SessionStarted SessionRunning)))
         (example_event SessionStarted SessionRunning))
  = example_trace (example_items
      ++ [CommandSessionLifecycle 7 (example_event SessionStarted SessionRunning)]).
Proof.
  pose proof (session_event_recorded_once (example_trace example_items)
    (example_event SessionStarted SessionRunning) example_valid) as H.
  destruct (append_command_session_lifecycle (example_trace example_items)
    (example_event SessionStarted SessionRunning)) as [[n|e] trace'] eqn:E.
  - vm_compute in E. injection E as <- <-. destruct H as (_ & _ & _ & H). cbn [snd]. by rewrite H.
  - vm_compute in E. discriminate E.
Defined.

Lemma committed_prefix_is_closed_witness :
  validate (in_progress_trace (rs "run") (rs "conversation") (rs "message") false example_items) = Ok ()
  ∧ committed_prefix example_items = take 6 example_items.
Proof.
  split; [|vm_compute; reflexivity].
  by apply (committed_prefix_is_closed (rs "run") (rs "conversation") (rs "message") false example_items
    example_valid).
Defined.

Lemma unresolved_searches_agree_witness :
  model_context_item_count (example_trace example_items) = 4
  ∧ unresolved_call example_items = Some (example_call 6 "c2").
Proof.
  pose proof (unresolved_searches_agree (example_trace example_items) example_valid) as [H1 H2].
  split; [rewrite H2; vm_compute; reflexivity|].
  destruct H1 as (index & x & _ & Hx & Hu & _). vm_compute. reflexivity.
Defined.

Lemma committed_log_covers_closed_prefix_witness :
  committed_model_context_prefix (example_trace example_items) example_log
  = Ok (take 4 example_log).
Proof.
  destruct (committed_log_covers_closed_prefix (example_trace example_items) example_log
    example_valid ltac:(vm_compute; reflexivity)) as (committed & H & _).
  etransitivity; [exact H|]. rewrite <-H. vm_compute. reflexivity.
Defined.

(** * Properties of the recorder

    What the runtime records is what the validator accepts, as long as the
    callers keep to their part. *)

Section Claims.
Context {services : TraceServices} {json : JsonServices} {mail : MailServices}.

(** A new recorder, or one restored from a valid trace. *)
Inductive fresh : Recorder → Prop :=
| fresh_new : fresh default_recorder
| fresh_restored trace model next cut :
    validate trace = Ok () → (∀ x, x ∈ items trace → (sequence x < u64_max)%N) →
    fresh (from_durable_snapshot (items trace) model next cut).

Lemma inferred_next_beyond h x :
  x ∈ h → (sequence x < u64_max)%N → (sequence x < inferred_next h)%N.
Proof.
  intros Hx Hs. unfold inferred_next. apply (list_elem_of_fmap_2 sequence) in Hx.
  destruct (sequence <$> h) as [|s rest]; [by apply elem_of_nil in Hx|].
  assert (∀ rest s n, n = s ∨ n ∈ rest → (n <= foldl N.max s rest)%N) as Hmax.
  { clear. induction rest as [|m rest IH]; intros s n Hn; cbn.
    - destruct Hn as [->|Hn]; [lia|by apply elem_of_nil in Hn].
    - destruct Hn as [->|[->|Hn]%elem_of_cons].
      + specialize (IH (N.max s m) (N.max s m) (or_introl eq_refl)). lia.
      + specialize (IH (N.max s m) (N.max s m) (or_introl eq_refl)). lia.
      + by apply IH; right. }
  apply elem_of_cons in Hx. specialize (Hmax rest s _ Hx). unfold u64_saturating_succ. lia.
Qed.

Lemma fresh_sound r : fresh r → sound r.
Proof.
  destruct 1 as [|trace model next cut Hv Hs]; [apply sound_default|].
  apply validate_iff in Hv as (_ & _ & _ & Hwf & _). split; [done|]. intros x Hx. change (x ∈ items trace) in Hx.
  pose proof (inferred_next_beyond _ _ Hx (Hs x Hx)).
  change (sequence x < N.max next (inferred_next (items trace)))%N. lia.
Qed.

(** A recorder as a run of calls leaves it that keeps to the rules. *)
Definition recording (r : Recorder) : Prop :=
  ∃ start calls, fresh start ∧ (next_sequence start + N.of_nat (length calls) <= u64_max)%N
    ∧ well_used calls start ∧ r = performs calls start.

Lemma recording_restored trace model next cut :
  validate trace = Ok () → (∀ x, x ∈ items trace → (sequence x < u64_max)%N) → (next <= u64_max)%N →
  recording (from_durable_snapshot (items trace) model next cut).
Proof.
  intros Hv Hs Hn. eexists _, []. split_and!; [by apply fresh_restored| |done|done].
  cbn [length]. change (N.max next (inferred_next (items trace)) + 0 <= u64_max)%N.
  assert (inferred_next (items trace) <= u64_max)%N; [|lia].
  unfold inferred_next. destruct (sequence <$> items trace); [done|]. unfold u64_saturating_succ. lia.
Qed.

(** C29. When what the recorder holds can be persisted.  From a new recorder, or
    one restored from a valid trace, with sequence numbers to spare, make any
    calls in any order.  The trace of the turn in progress then passes the
    validator exactly when every call changed no item (it was refused, or repeats
    one) or kept to what the recorder does not see to itself ([admissible]): no
    exchange is open where an item is added; a result is for the open call, with
    a valid archive, and no success of an unknown tool; calls and guidance of the
    host have valid identities, tools, attachments and folders; and error reports
    after their projection, workflow mail, projected results of a restored
    recorder and valid answers of a person hold no binary material.  All else the
    recorder sees to.  One call against this spoils the trace for good: no later
    call mends it.  In any case each sequence number is below the next one. *)
Theorem recorded_trace_is_valid run conversation message cut start calls :
  Forall (λ id, is_blank id = false) [run; conversation; message] →
  fresh start → (next_sequence start + N.of_nat (length calls) <= u64_max)%N →
  let r := performs calls start in
  (validate (in_progress_audit_trace run conversation message cut (recorded_items r)) = Ok ()
   ↔ well_used calls start)
  ∧ ∀ x, x ∈ recorded_items r → (sequence x < next_sequence r)%N.
Proof.
  intros Hids Hr%fresh_sound Hn. cbv zeta. destruct (performs_grows calls start (proj2 Hr) Hn) as (Hb & _ & _).
  split; [|exact Hb]. rewrite <-(performs_sound calls start Hr Hn), validate_iff. cbn.
  split; [by intros (_ & _ & _ & Hwf & _)|]. intros [Hwf _]. split_and!; try done. by left.
Qed.

(** C30. Finishing closes what is open and keeps what was valid.  Take any recorder
    whose sequence numbers are below the next one, with enough of them left, and
    a final status.  If the trace in progress passes the validator, then after
    closing no call is open and no compaction is running, and the trace of the
    finished turn passes the validator as well, projected when the recorder is
    live and as it is when it was restored; of a live recorder the identities of
    the calls must hold no binary material, since the projection of a repeated
    failure quotes one.  And finishing mends nothing: if the finished trace of a
    restored recorder passes, the trace in progress did. *)
Theorem finished_trace_is_valid sha256_hex run conversation message cut status error r :
  Forall (λ id, is_blank id = false) [run; conversation; message] →
  is_terminal status = true →
  (∀ x, x ∈ recorded_items r → (sequence x < next_sequence r)%N) →
  (next_sequence r + N.of_nat (length (recorded_items r)) + 1 < u64_max)%N →
  let in_progress := in_progress_audit_trace run conversation message cut (recorded_items r) in
  let closed := close_unresolved_context_compactions status (close_unresolved status error r) in
  let finished := finish sha256_hex run conversation message status error r in
  (validate in_progress = Ok () →
   (items_are_durable r = false → Forall clean_text (called (recorded_items r))) →
   well_formed (recorded_items closed) ∧ ended status (recorded_items closed) ∧ validate finished = Ok ())
  ∧ (items_are_durable r = true → validate finished = Ok () → validate in_progress = Ok ()).
Proof.
  intros Hids Ht Hs Hn. cbv zeta. split.
  - intros (_ & _ & _ & Hwf & _)%validate_iff Hk. assert (sound r) as Hr by by split.
    destruct (closed_sound status error r Ht Hr Hn) as ([Hwf' _] & He & _). split_and!; [done|done|].
    by apply finished_valid.
  - intros Hd Hv. apply validate_iff. cbn. split_and!; try done; [|by left].
    eapply finished_durable; [|exact Hv]. by rewrite closing_keeps_durable.
Qed.

(** A valid display of answers is kept as it is. *)
Lemma answers_kept tool value :
  is_str tool "request_user_input" = true → valid_value value = true →
  project_observation tool value = (value, false) ∧ sanitize_runtime_tool_result tool value = (value, false).
Proof.
  intros Ht Hv. unfold project_observation, project_human_interaction_response, sanitize_runtime_tool_result.
  by rewrite Ht, Hv.
Qed.

(** An answer of a person that is a data URL spoils the trace.  The recorder
    keeps a valid display of answers exactly as it is, live or restored, while
    the validator wants every observation free of binary material: after such a
    result no trace with these items is accepted. *)
Theorem human_answer_spoils_trace display call result archive r :
  valid_value (display_value display) = true → ¬ clean_value (display_value display) →
  call_tool call = rs "request_user_input" → result_value result = Some (display_value display) →
  existsb (is_call_of (id call)) (recorded_items r) = true →
  existsb (is_result_of (id call)) (recorded_items r) = false →
  ∀ trace, items trace = recorded_items (snd (record_tool_result_with_archive call result archive r)) →
    validate trace ≠ Ok ().
Proof.
  intros Hv Hnc Ht Hres Hcall Hnone trace Hi (_ & _ & _ & Hwf & _)%validate_iff. apply Hnc.
  assert (∃ before s status success error cut archive,
    items trace = before ++ [ToolResult s (id call) (call_tool call) status success
      (display_value display) (approval_status call) error cut archive])
    as (before & s & status & success & error & cut & archive' & E).
  { rewrite Hi. unfold record_tool_result_with_archive. rewrite Hcall. cbn [negb].
    destruct (find_item _ r) as [item|] eqn:Ef.
    { apply find_some in Ef as [Hin Hres']. rewrite existsb_false in Hnone.
      rewrite <-list_elem_of_In in Hin. specialize (Hnone _ Hin). congruence. }
    cbv zeta. unfold projected_tool_result_trace_item, checkpoint_tool_result_trace_item, project_tool_result.
    destruct (answers_kept (call_tool call) (display_value display)) as [Ep Es]; [by apply is_str_eq|done|].
    rewrite Hres. change (default Null (Some ?v)) with v. rewrite Ep, Es.
    destruct (items_are_durable r) eqn:Ed; cbn [items_are_durable enrich_tool_call set_items]; rewrite Ed.
    - destruct (project_error (error result)). cbn [snd]. rewrite record_item_items. by do 7 eexists.
    - destruct (sanitize_optional_text (error result)). cbn [snd]. rewrite record_item_items. by do 7 eexists. }
  rewrite E in Hwf. by apply well_formed_snoc in Hwf as (_ & (_ & Hobs & _) & _).
Qed.

(** A report whose data URL has a long header. *)
Definition long_data_url : rstr :=
  rs "data:" ++ repeat (ch "a") (Z.to_nat 520) ++ rs ";base64,AAAA".

(** A restored recorder whose open call has an event of its session after it. *)
Definition session_in_open_call : list ConversationTurnTraceItem :=
  [example_call 0 "c2"; CommandSessionLifecycle 1 (example_event SessionStarted SessionRunning)].

Lemma error_recorded message recoverable code r s r' :
  record_runtime_error message recoverable code r = (Ok s, r') →
  ∃ code' cut, recorded_items r'
    = recorded_items r ++ [RuntimeError (next_sequence r) (fst (project_terminal_error message)) recoverable code' cut].
Proof.
  unfold record_runtime_error. destruct (is_blank message); [done|].
  destruct (is_some_and code _); [done|]. destruct (last_is_call r); [done|].
  destruct (project_terminal_error message) as [text cut]. destruct (sanitize_optional_text code) as [c cut'].
  intros [= <- <-]. by eexists _, _.
Qed.

(** C40. The recorder of errors accepts reports that spoil the trace.  It looks for
    binary material only in the 512 bytes after [data:], the validator anywhere:
    once such a report is recorded no trace with these items is accepted.  And it
    only looks whether the last item is a call, so that it puts a report between
    a call and its result when the call already has an event of its command
    session. *)
Theorem error_report_spoils_trace :
  (∃ message, ∀ recoverable r, last_is_call r = false →
     ∃ r', record_runtime_error message recoverable None r = (Ok (next_sequence r), r')
       ∧ ∀ trace, items trace = recorded_items r' → validate trace ≠ Ok ())
  ∧ (∃ r r', recording r
       ∧ is_Some (open_call (recorded_items r))
       ∧ record_runtime_error (rs "stopped") false None r = (Ok (next_sequence r), r')
       ∧ ∀ trace, items trace = recorded_items r' → validate trace ≠ Ok ()).
Proof.
  split.
  - exists long_data_url. intros recoverable r Hl.
    assert (project_terminal_error long_data_url = (long_data_url, false)) as Hp by (vm_compute; reflexivity).
    assert (is_blank long_data_url = false) as Hb by (vm_compute; reflexivity).
    unfold record_runtime_error. rewrite Hb, Hl, Hp. eexists. split; [reflexivity|].
    intros trace Ht (_ & _ & _ & Hwf & _)%validate_iff.
    assert (RuntimeError (next_sequence r) long_data_url recoverable None false ∈ items trace) as Hin.
    { rewrite Ht. apply elem_of_app. right. by left. }
    pose proof (well_formed_item _ _ Hwf Hin) as (_ & Hc & _). vm_compute in Hc. discriminate Hc.
  - exists (from_durable_snapshot session_in_open_call [] 2 false). eexists. split_and!.
    + apply (recording_restored (example_trace session_in_open_call)); [vm_compute; reflexivity| |done].
      intros x [->|[->|Hx]%elem_of_cons]%elem_of_cons; [done..|by apply elem_of_nil in Hx].
    + by eexists.
    + reflexivity.
    + intros trace Ht (_ & _ & _ & Hwf & _)%validate_iff. rewrite Ht in Hwf.
      apply (well_formed_snoc session_in_open_call) in Hwf as (_ & _ & _ & Hfit). discriminate Hfit.
Qed.
End Claims.

(** *** Witnesses *)

#[local] Existing Instance example_services.

(** Decoders that know one batch of answers, a data URL among them. *)
Definition example_display : HumanInteractionResponseDisplay :=
  mkDisplay (rs "human_interaction_response") 1 (rs "request") (rs "response")
    [TextDisplay (rs "question") (rs "Which image?") (rs "data:image/png;base64,AAAA")].

#[local] Instance example_json : JsonServices := {
  json_to_string _ := rs "{}";
  response_from_value value :=
    match value_get (rs "requestId") value with
    | Some (String id) => if is_str id "request" then Some example_display else None
    | _ => None
    end;
  response_from_str _ := None;
}.
#[local] Instance example_mail : MailServices.
Proof. refine {| result_from_str _ := None |}. intros fields. by eexists. Defined.
Definition example_hash (_ : list N) : rstr := rs "00".

Definition example_tool_call : AgentToolCall :=
  mkCall (rs "c1") (rs "run_command") (Object [(rs "command", String (rs "make"))]) ApprovalRequired None.
Definition example_report (text : rstr) : RecorderCall := RecordRuntimeError text true None.
Definition example_failure : RecorderCall :=
  RecordToolResult example_tool_call (mkResult (rs "c1") (rs "run_command") false None (Some (rs "make failed")))
    default_archive.

(** A run with refused and repeated calls, and a report at its end. *)
Definition example_calls (report : rstr) : list RecorderCall :=
  [RecordNarration (rs " building "); example_failure;
   RecordToolCall example_tool_call (BuiltinTool (rs "run_command")); example_report (rs "too early");
   EnrichToolCall (rs "c1") ApprovalApproved; example_failure; example_failure;
   RecordAgentMailboxDelivery 3 (rs "receipt") (rs "mail") (rs "agent") (rs "drawing") (rs "/drawing") MailTask
     (rs "data:image/png;base64,AAAA") 5;
   example_report report].

Lemma recorded_trace_is_valid_witness :
  validate (in_progress_audit_trace (rs "run") (rs "conversation") (rs "message") false
    (recorded_items (performs (example_calls (rs "stopped")) default_recorder))) = Ok ()
  ∧ length (recorded_items (performs (example_calls (rs "stopped")) default_recorder)) = 5
  ∧ ¬ well_used (example_calls long_data_url) default_recorder.
Proof.
  pose proof (λ report, recorded_trace_is_valid (rs "run") (rs "conversation") (rs "message") false default_recorder
    (example_calls report) ltac:(repeat constructor) fresh_new ltac:(done)) as H.
  split_and!.
  - apply H. cbn [well_used example_calls]. split_and!; [by right|by left| |by left|by right| |by left|by right| |done].
    + right. vm_compute. by split_and!.
    + right. split; [by exists false|]. by split.
    + right. by split.
  - vm_compute. reflexivity.
  - intros Hw. apply H in Hw. vm_compute in Hw. discriminate Hw.
Defined.

(** A recorder restored with a call and a compaction still running. *)
Definition restored : Recorder :=
  from_durable_snapshot
    [ContextCompactionLifecycle 0 CompactionStarted (rs "k") None; example_call 1 "c2"] [] 2 false.

Lemma finished_trace_is_valid_witness :
  validate (finish example_hash (rs "run") (rs "conversation") (rs "message") TurnCancelled None restored) = Ok ()
  ∧ (sequence <$> recorded_items (close_unresolved_context_compactions TurnCancelled
       (close_unresolved TurnCancelled None restored))) = [0; 1; 2; 3]%N.
Proof.
  split; [|vm_compute; reflexivity].
  apply (finished_trace_is_valid example_hash (rs "run") (rs "conversation") (rs "message") false TurnCancelled None
    restored); [repeat constructor|done| |vm_compute; reflexivity|vm_compute; reflexivity|done].
  intros x [->|[->|Hx]%elem_of_cons]%elem_of_cons; [done..|by apply elem_of_nil in Hx].
Defined.

(** The tool that asks, and its result with the answer. *)
Definition asking : AgentToolCall :=
  mkCall (rs "c1") (rs "request_user_input") (Object []) ApprovalNotRequired None.
Definition asked : Recorder :=
  snd (record_tool_call_with_identity asking (BuiltinTool (rs "request_user_input")) default_recorder).
Definition answered : Recorder :=
  snd (record_tool_result_with_archive asking
    (mkResult (rs "c1") (rs "request_user_input") true (Some (display_value example_display)) None)
    default_archive asked).

Lemma human_answer_spoils_trace_witness :
  validate (in_progress_audit_trace (rs "run") (rs "conversation") (rs "message") false
    (recorded_items asked)) = Ok ()
  ∧ validate (in_progress_audit_trace (rs "run") (rs "conversation") (rs "message") false
    (recorded_items answered)) ≠ Ok ().
Proof.
  split; [vm_compute; reflexivity|].
  by apply (human_answer_spoils_trace example_display asking
    (mkResult (rs "c1") (rs "request_user_input") true (Some (display_value example_display)) None)
    default_archive asked).
Defined.

(** * Properties of the projection into the kept history *)

Section Claims.
Context {services : TraceServices} {json : JsonServices} (sha256_hex : list N → rstr).

(** C32. Projecting a trace that can be persisted gives one that can: the
    projection never makes a valid trace invalid, provided the identities of the
    calls hold no binary material (the projection of a repeated failure quotes
    one).  And item by item it keeps everything but the texts and values that it
    bounds and the marks that they were cut ([skeleton]): kind, sequence number,
    identities and bindings, times, tools with their provenance, approvals,
    statuses and outcomes, archives and codes of errors; attachments without
    their names and types, folder references as the model sees them; and mail,
    material, states, sessions and compactions unchanged. *)
Theorem projected_trace_is_valid trace :
  validate trace = Ok () → Forall clean_text (called (items trace)) →
  let projected := project_durable_trace_items sha256_hex (items trace) in
  validate (mkTrace (schema_version trace) (run_id trace) (conversation_id trace)
    (assistant_message_id trace) (terminal_status trace) (terminal_error trace)
    (trace_truncated trace || snd projected) (fst projected)) = Ok ()
  ∧ skeleton <$> fst projected = skeleton <$> items trace.
Proof.
  intros (Hv & Hids & He & Hwf & Hend)%validate_iff Hc. cbv zeta.
  destruct (projected_history sha256_hex _ Hwf Hc) as [Hwf' Hsk]. split; [|done].
  apply validate_iff. split_and!; try done. by apply (ended_skeleton _ _ _ Hsk).
Qed.

(** C33. What the history keeps of an observation is bounded: whatever a tool
    returned, no text value has more than 12064 chars, no array more than 32
    items, no object more than 64 fields, and values are nested at most 12 deep;
    the error kept with it is bounded too.  The names of fields are copied as they
    are and not bounded.  Displays of a person's answers are kept whole; they have
    limits of their own. *)
Theorem kept_observation_is_bounded tool observation error :
  (is_str tool "request_user_input" = true → valid_value observation = false) →
  small HISTORY_CHARS HISTORY_DEPTH (fst (project_observation tool observation))
  ∧ ∀ kept, fst (project_error error) = Some kept → (N.of_nat (length kept) <= cut_chars TOOL_ERROR_CHARS)%N.
Proof.
  intros Hask. split; [by apply observation_small|]. intros kept. unfold project_error.
  destruct error as [error|]; [|done]. pose proof (bounded_text_short error TOOL_ERROR_CHARS false) as H.
  destruct (sanitize_and_bound_text error _ _) as [text cut]. by intros [= <-].
Qed.

(** ** Live and durable recorders *)

(** A result that the runtime records in a live recorder and, in a transaction,
    in a restored one, where the call is open in both. *)
Definition settles (call : AgentToolCall) (live durable : Recorder) : Prop :=
  items_are_durable live = false ∧ items_are_durable durable = true
  ∧ next_sequence durable = next_sequence live
  ∧ (∀ r, r = live ∨ r = durable →
       existsb (is_call_of (id call)) (recorded_items r) = true
       ∧ existsb (is_result_of (id call)) (recorded_items r) = false).

Definition projection_of (item : ConversationTurnTraceItem) : ConversationTurnTraceItem :=
  fst (fst (project_item sha256_hex ∅ item)).

Lemma find_none_item (p : ConversationTurnTraceItem → bool) r :
  existsb p (recorded_items r) = false → find_item p r = None.
Proof.
  intros H. unfold find_item. destruct (find p (recorded_items r)) as [x|] eqn:E; [|done].
  apply find_some in E as [Hin Hx]. rewrite existsb_false in H. rewrite H in Hx; [done|]. by apply list_elem_of_In.
Qed.

(** The items that are recorded. *)
Lemma settled_items call result archive live durable :
  settles call live durable →
  let value := default Null (result_value result) in
  let status := result_status result in
  recorded_items (snd (record_tool_result_with_archive call result archive live))
  = recorded_items (enrich_tool_call (id call) (approval_status call) live)
    ++ [ToolResult (next_sequence live) (id call) (call_tool call) status (status_succeeded status)
          (fst (sanitize_runtime_tool_result (call_tool call) value)) (approval_status call)
          (fst (sanitize_optional_text (error result)))
          (snd (sanitize_runtime_tool_result (call_tool call) value) || snd (sanitize_optional_text (error result)))
          archive]
  ∧ recorded_items (snd (record_tool_result_with_archive call result archive durable))
  = recorded_items durable
    ++ [ToolResult (next_sequence live) (id call) (call_tool call) status (status_succeeded status)
          (fst (project_observation (call_tool call) value)) (approval_status call)
          (fst (project_error (error result)))
          (snd (project_observation (call_tool call) value) || snd (project_error (error result)))
          (mark_history_truncated
             (snd (project_observation (call_tool call) value) || snd (project_error (error result))) archive)].
Proof.
  intros (Hl & Hd & Hn & Hopen). cbv zeta.
  destruct (Hopen live (or_introl eq_refl)) as [Hcl Hrl%find_none_item].
  destruct (Hopen durable (or_intror eq_refl)) as [Hcd Hrd%find_none_item].
  unfold record_tool_result_with_archive. rewrite Hcl, Hrl, Hcd, Hrd, Hl, Hd. cbn [negb]. cbv zeta.
  unfold checkpoint_tool_result_trace_item, projected_tool_result_trace_item, project_tool_result.
  split.
  - destruct (sanitize_runtime_tool_result _ _) as [value cut], (sanitize_optional_text _) as [e cut'].
    assert (items_are_durable (enrich_tool_call (id call) (approval_status call) live) = false) as -> by done.
    cbn [fst snd]. by rewrite record_item_items.
  - destruct (project_error _) as [e cut'], (project_observation _ _) as [value cut].
    rewrite Hd. cbn [fst snd]. by rewrite record_item_items, Hn.
Qed.

(** A result settled in a transaction is the projection of the one the
    runtime records: when the runtime finds nothing to redact in a result, a
    restored recorder appends exactly what projecting the item of the live
    recorder gives, flags and archive metadata included, so that the terminal
    projection extends the prefix that the transaction has committed. *)
Theorem settled_result_is_projected_live call result archive live durable :
  settles call live durable →
  snd (sanitize_runtime_tool_result (call_tool call) (default Null (result_value result))) = false →
  snd (sanitize_optional_text (error result)) = false →
  ∃ before item,
    recorded_items (snd (record_tool_result_with_archive call result archive live)) = before ++ [item]
    ∧ recorded_items (snd (record_tool_result_with_archive call result archive durable))
      = recorded_items durable ++ [projection_of item].
Proof.
  intros Hs Hv He. destruct (settled_items call result archive live durable Hs) as [-> ->].
  eexists _, _. split; [done|]. f_equal. f_equal. rewrite Hv, He.
  assert (fst (sanitize_runtime_tool_result (call_tool call) (default Null (result_value result)))
    = default Null (result_value result)) as ->.
  { unfold sanitize_runtime_tool_result in *. destruct (_ && _); [done|]. by apply unreported_unchanged. }
  assert (fst (sanitize_optional_text (error result)) = error result) as ->.
  { destruct (error result) as [text|]; [|done]. cbn in *. unfold sanitize_runtime_text in *. by destruct (_ && _). }
  unfold projection_of. cbn [project_item]. unfold project_tool_result.
  destruct (project_error (error result)) as [e cut'], (project_observation _ _) as [value cut].
  cbn [fst snd]. unfold project_failure. rewrite lookup_empty. by destruct (_ && _ && _).
Qed.

Definition observation_of (item : ConversationTurnTraceItem) : option Value :=
  match item with ToolResult _ _ _ _ _ observation _ _ _ _ => Some observation | _ => None end.

(** What [wait_agent] returns, with a message whose text is this. *)
Definition waited_value (content : rstr) : Value :=
  obj [("targets", Array [obj
    [("taskName", text_value "drawing"); ("status", text_value "completed");
     ("messages", Array [obj
       [("senderTaskName", text_value "drawing"); ("kind", text_value "task"); ("content", String content);
        ("createdAt", json_number 1)]])]])]%string.

(** A message of another agent that begins with an image. *)
Definition image_message : rstr := rs "data:image/png;base64,AAAA is the picture".

(** When there is something to redact the two differ.  Of a text that begins
    with a data URL and goes on, the runtime keeps only the marker, the
    projection of the raw result keeps the rest as well: the result that a
    transaction commits is not the one the turn ends with, although the
    comments of the recorder and of the projection want them equal. *)
Theorem redacted_result_differs_from_projection call result archive live durable :
  settles call live durable →
  call_tool call = rs "wait_agent" →
  result_value result = Some (waited_value image_message) →
  ∃ before item,
    recorded_items (snd (record_tool_result_with_archive call result archive live)) = before ++ [item]
    ∧ recorded_items (snd (record_tool_result_with_archive call result archive durable))
      ≠ recorded_items durable ++ [projection_of item].
Proof.
  intros Hs Ht Hr. destruct (settled_items call result archive live durable Hs) as [-> ->].
  eexists _, _. split; [done|]. intros [= H]%app_inv_head. apply (f_equal observation_of) in H.
  unfold projection_of in H. cbn [project_item] in H. unfold project_tool_result in H.
  rewrite Ht, Hr in H. change (default Null (Some ?v)) with v in H.
  destruct (project_error _) as [e cut'], (project_error _) as [e' cut''].
  set (live_observation := project_observation _ (fst (sanitize_runtime_tool_result _ _))) in H.
  assert (live_observation = (waited_value BINARY_OMITTED_MARKER, false)) as E
    by (vm_compute; reflexivity).
  rewrite E in H. unfold project_failure in H.
  change (is_repeat_failure_eligible (rs "wait_agent")) with false in H. rewrite andb_false_r in H. cbn [andb fst observation_of] in H.
  revert H. vm_compute. discriminate.
Qed.

(** ** Reported losses *)

Lemma unredacted_text s : snd (redact_binary_text s) = false → fst (redact_binary_text s) = s.
Proof.
  unfold redact_binary_text. destruct (str_eqb s _); [done|].
  pose proof (redact_from_spec (length s) s) as H. destruct (redact_from (length s) s) as [output redacted].
  cbn [fst snd] in H. destruct redacted; cbn [negb andb]; [done|]. destruct (looks_like_standalone_base64 _); [done|].
  by intros _.
Qed.

Lemma unreported_text s limit tail :
  snd (sanitize_and_bound_text s limit tail) = false → fst (sanitize_and_bound_text s limit tail) = s.
Proof.
  unfold sanitize_and_bound_text. pose proof (unredacted_text s) as H. destruct (redact_binary_text s) as [t redacted].
  cbn [fst snd] in H. unfold truncate_text. destruct (_ <=? _)%N; cbn [snd fst].
  - by rewrite orb_false_r.
  - destruct tail; cbn [snd]; by rewrite orb_true_r.
Qed.

Lemma unreported_value value limit depth :
  snd (bound_value value limit depth) = false → fst (bound_value value limit depth) = value.
Proof.
  revert depth. induction value as [|b|t|s|vs IH|fs IH] using value_nested_ind; intros depth; cbn [bound_value];
    (destruct (GENERIC_DEPTH <=? depth); [done|]); [done|done|done|..].
  - pose proof (unreported_text s limit false) as H. destruct (sanitize_and_bound_text s limit false) as [text cut].
    cbn [fst snd] in *. intros E. by rewrite H.
  - set (go := fix go items input := match items with O => _ | S _ => _ end).
    assert (∀ n, length vs ≤ n → snd (go n vs) = false → fst (go n vs) = vs) as H.
    { induction IH as [|v vs Hv _ IHvs]; intros [|n] Hn; cbn [go fst snd length] in *; try done; [lia|].
      specialize (IHvs n ltac:(lia)). destruct (go n vs) as [output cut].
      specialize (Hv (S depth)). destruct (bound_value v limit (S depth)) as [v' cut']. cbn [fst snd] in *.
      intros [-> ->]%orb_false_iff. by rewrite Hv, IHvs. }
    specialize (H GENERIC_ARRAY_ITEMS). destruct (go GENERIC_ARRAY_ITEMS vs) as [output cut]. cbn [fst snd] in *.
    intros [Hlen%Nat.ltb_ge ->]%orb_false_iff. by rewrite H.
  - set (go := fix go fields input := match fields with O => _ | S _ => _ end).
    assert (∀ n, length fs ≤ n → snd (go n fs) = false → fst (go n fs) = fs) as H.
    { induction IH as [|[k v] fs Hv _ IHfs]; intros [|n] Hn; cbn [go fst snd length] in *; try done; [lia|].
      specialize (IHfs n ltac:(lia)). destruct (go n fs) as [output cut].
      destruct (is_hidden_reasoning_key k); [done|]. destruct (is_binary_key _); [done|].
      destruct (_ && _); [done|].
      specialize (Hv (S depth)). destruct (bound_value v limit (S depth)) as [v' cut']. cbn [fst snd] in *.
      intros [-> ->]%orb_false_iff. by rewrite Hv, IHfs. }
    specialize (H GENERIC_OBJECT_FIELDS). destruct (go GENERIC_OBJECT_FIELDS fs) as [output cut]. cbn [fst snd] in *.
    intros [Hlen%Nat.ltb_ge ->]%orb_false_iff. by rewrite H.
Qed.

(** The settled result of a change of a file, and what is kept of it. *)
Definition change_result : Value :=
  obj [("status", text_value "completed");
       ("fileChangeTarget", obj [("observationId", text_value "obs-1")])]%string.

(** The generic projection reports every loss: an observation that it does
    not mark as truncated is the observation.  The projections of single tools
    do not: fields that they do not select are left out without the mark, which
    is documented to be set whenever material is omitted. *)
Theorem losses_are_reported_by_generic_projection :
  (∀ value, snd (project_generic_value value) = false → fst (project_generic_value value) = value)
  ∧ project_observation (rs "apply_patch") change_result
    = (obj [("status", text_value "completed")]%string, false).
Proof. split; [intros value; apply unreported_value|vm_compute; reflexivity]. Qed.

End Claims.

(** *** Witnesses *)

#[local] Existing Instance example_services.
#[local] Existing Instance example_json.

Lemma projected_trace_is_valid_witness :
  let trace := example_trace example_items in
  let projected := project_durable_trace_items example_hash example_items in
  validate (mkTrace (schema_version trace) (run_id trace) (conversation_id trace)
    (assistant_message_id trace) (terminal_status trace) (terminal_error trace)
    (trace_truncated trace || snd projected) (fst projected)) = Ok ()
  ∧ skeleton <$> fst projected = skeleton <$> example_items.
Proof.
  apply (projected_trace_is_valid example_hash (example_trace example_items) example_valid).
  repeat constructor.
Defined.

Lemma kept_observation_is_bounded_witness :
  small HISTORY_CHARS HISTORY_DEPTH
    (fst (project_observation (rs "run_command") (obj [("stdout", String (repeat (ch "a") 4000))]%string)))
  ∧ ∀ kept, fst (project_error (Some (rs "failed"))) = Some kept →
      (N.of_nat (length kept) <= cut_chars TOOL_ERROR_CHARS)%N.
Proof.
  apply (kept_observation_is_bounded (rs "run_command") (obj [("stdout", String (repeat (ch "a") 4000))]%string)
    (Some (rs "failed"))). intros H. vm_compute in H. discriminate H.
Defined.

(** The call of [wait_agent] in the live recorder, and restored in a transaction. *)
Definition waiting_call : AgentToolCall :=
  mkCall (rs "c1") (rs "wait_agent") (Object []) ApprovalNotRequired None.
Definition waiting : Recorder :=
  snd (record_tool_call_with_identity waiting_call (BuiltinTool (rs "wait_agent")) default_recorder).
Definition restored_waiting : Recorder := from_durable_snapshot (recorded_items waiting) [] 1 false.
Definition waited (content : rstr) : AgentToolResult :=
  mkResult (rs "c1") (rs "wait_agent") true (Some (waited_value content)) None.

Lemma waiting_settles : settles waiting_call waiting restored_waiting.
Proof. split_and!; try reflexivity. by intros r [->| ->]. Qed.

Lemma settled_result_is_projected_live_witness :
  ∃ before item,
    recorded_items (snd (record_tool_result_with_archive waiting_call (waited (rs "done")) default_archive waiting))
      = before ++ [item]
    ∧ recorded_items (snd (record_tool_result_with_archive waiting_call (waited (rs "done")) default_archive
        restored_waiting)) = recorded_items restored_waiting ++ [projection_of example_hash item].
Proof.
  apply (settled_result_is_projected_live example_hash waiting_call (waited (rs "done")) default_archive waiting
    restored_waiting waiting_settles); vm_compute; reflexivity.
Defined.

Lemma redacted_result_differs_from_projection_witness :
  ∃ before item,
    recorded_items (snd (record_tool_result_with_archive waiting_call (waited image_message) default_archive waiting))
      = before ++ [item]
    ∧ recorded_items (snd (record_tool_result_with_archive waiting_call (waited image_message) default_archive
        restored_waiting)) ≠ recorded_items restored_waiting ++ [projection_of example_hash item].
Proof.
  by apply (redacted_result_differs_from_projection example_hash waiting_call (waited image_message) default_archive
    waiting restored_waiting waiting_settles).
Defined.
