(* ===== verification/CommandTypes.v ===== *)
(** * Data of the command policy

    The enums and structs of [command/types.rs], [command/policy.rs],
    [protocol/session.rs] and [protocol/office_command.rs] that the command
    policy reads and produces. *)

From S2P Require Import Prelude RustText.

(** ** Permissions ([protocol/session.rs]) *)

Inductive AgentReadPermission := Read_WorkspaceOnly | Read_All.
Inductive AgentWritePermission := Write_Denied | Write_WorkspaceOnly | Write_All.
Inductive AgentCommandPermission := Command_RequireApproval | Command_AutoApprove.
Inductive AgentCommandSafetyPolicy := Guarded | FullAccess.
Inductive AgentPatchPermission := Patch_RequireApproval | Patch_AutoApprove.
Inductive AgentBuiltinExecutionPermission := Builtin_RequireApproval | Builtin_AutoApprove.

Record AgentPermissions := mkPermissions {
  read : AgentReadPermission;
  write : AgentWritePermission;
  command : AgentCommandPermission;
  command_safety : AgentCommandSafetyPolicy;
  patch : AgentPatchPermission;
  builtin_execution : AgentBuiltinExecutionPermission;
}.

(** ** Policy vocabulary ([command/types.rs]) *)

Inductive CommandAuthorizationSource := Automatic | ExplicitUser.

Inductive CommandPolicyDecision := Allow | RequireExplicitApproval | Deny.

Inductive CommandRiskClass :=
| ReadOnly
| SafeWorkspaceWrite
| DirectWrite
| Network
| PackageManagement
| HighImpact
| Unknown
| Catastrophic
| Unsupported
| ExternalRead.

(** [AgentCommandRiskLevel] of [protocol/office_command.rs]. *)
Inductive AgentCommandRiskLevel :=
| Level_ReadOnly
| Level_WritesWorkspace
| Level_Network
| Level_Destructive
| Level_Unknown.

Record CommandPolicyFinding := mkFinding {
  segment_index : nat;
  program : rstr;
  risk : CommandRiskClass;
  code : string;
  reason : string;
}.

Record CommandPolicyEvaluation := mkEvaluation {
  decision : CommandPolicyDecision;
  evaluation_code : string;
  evaluation_reason : string;
  risk_level : AgentCommandRiskLevel;
  findings : list CommandPolicyFinding;
}.

Record CommandSyntaxError := mkSyntaxError {
  error_code : string;
  error_reason : string;
}.

Definition syntax_error {A} (code reason : string) : result CommandSyntaxError A :=
  Err (mkSyntaxError code reason).
Arguments syntax_error {A} code%_string_scope reason%_string_scope.

(** ** Lexed commands ([command/policy.rs]) *)

(** [std::ops::Range<usize>]: start and exclusive end. *)
Abbreviation range := (nat * nat)%type.

Record ShellInputRedirection := mkInputRedirection {
  target : rstr;
  dynamic : bool;
  target_range : range;
  read_write : bool;
}.

Record ShellSegment := mkSegment {
  tokens : list rstr;
  token_ranges : list range;
  has_write_redirection : bool;
  input_redirections : list ShellInputRedirection;
  has_heredoc : bool;
}.

Record LexedCommand := mkLexed {
  segments : list ShellSegment;
  embedded_commands : list rstr;
  ignored_policy_ranges : list range;
}.

#[export] Instance risk_class_eq_dec : EqDecision CommandRiskClass.
Proof. solve_decision. Defined.
#[export] Instance read_permission_eq_dec : EqDecision AgentReadPermission.
Proof. solve_decision. Defined.
#[export] Instance safety_policy_eq_dec : EqDecision AgentCommandSafetyPolicy.
Proof. solve_decision. Defined.
#[export] Instance authorization_eq_dec : EqDecision CommandAuthorizationSource.
Proof. solve_decision. Defined.
#[export] Instance decision_eq_dec : EqDecision CommandPolicyDecision.
Proof. solve_decision. Defined.
#[export] Instance risk_level_eq_dec : EqDecision AgentCommandRiskLevel.
Proof. solve_decision. Defined.
