(* ===== verification/ShellLexerFacts.v ===== *)
(** * Facts about the shell lexer

    Progress of the loop, the well-formedness of what it produces, and the
    specification of its scanners. *)

From S2P Require Import Prelude RustText CommandTypes ShellLexer.

(** ** Bounds of the scanners *)

#[local] Arguments open_token : simpl never.
#[local] Arguments push_token_with_range : simpl never.
#[local] Arguments close_redirection_word : simpl never.

Create HintDb lexer.
Create Rewrite HintDb lexer.

Lemma skip_while_ge p chars i : i ≤ skip_while p chars i.
Proof. unfold skip_while. lia. Qed.

Lemma skip_while_le p chars i : i ≤ length chars → skip_while p chars i ≤ length chars.
Proof.
  unfold skip_while. intros H. pose proof (length_take_while p (drop i chars)) as Hl.
  rewrite length_drop in Hl. lia.
Qed.

Lemma skip_while_gt p chars i c :
  chars !! i = Some c → p c = true → i < skip_while p chars i.
Proof.
  unfold skip_while. intros H Hp. rewrite (drop_S _ _ _ H). simpl. rewrite Hp. simpl. lia.
Qed.

Lemma find_closing_paren_bounds rest index depth quote escaped j :
  find_closing_paren rest index depth quote escaped = Some j →
  index ≤ j < index + length rest.
Proof.
  revert index depth quote escaped.
  induction rest as [|c rest IH]; intros index depth quote escaped; [done|].
  cbn [find_closing_paren length].
  repeat case_match; try (intros H'; apply IH in H'; lia); intros [= <-]; lia.
Qed.

Lemma find_closing_backtick_bounds rest index escaped j :
  find_closing_backtick rest index escaped = Some j → index ≤ j < index + length rest.
Proof.
  revert index escaped. induction rest as [|c rest IH]; intros index escaped; [done|].
  cbn [find_closing_backtick length].
  repeat case_match; try (intros H'; apply IH in H'; lia); intros [= <-]; lia.
Qed.

Lemma extract_parenthesized_bounds chars start embedded next :
  extract_parenthesized_command chars start = Ok (embedded, next) →
  start < next ≤ length chars ∧ embedded = slice chars start (next - 1).
Proof.
  unfold extract_parenthesized_command.
  destruct (find_closing_paren _ _ _ _ _) as [j|] eqn:E; [|done]. intros [= <- <-].
  apply find_closing_paren_bounds in E. rewrite length_drop in E.
  replace (j + 1 - 1) with j by lia. split; [lia|done].
Qed.

Lemma extract_backtick_bounds chars start embedded next :
  extract_backtick_command chars start = Ok (embedded, next) →
  start < next ≤ length chars ∧ embedded = slice chars start (next - 1).
Proof.
  unfold extract_backtick_command.
  destruct (find_closing_backtick _ _ _) as [j|] eqn:E; [|done]. intros [= <- <-].
  apply find_closing_backtick_bounds in E. rewrite length_drop in E.
  replace (j + 1 - 1) with j by lia. split; [lia|done].
Qed.

Lemma scan_heredoc_delimiter_bounds rest index delimiter quote quoted escaped d q qd e j :
  scan_heredoc_delimiter rest index delimiter quote quoted escaped = Ok (d, q, qd, e, j) →
  index ≤ j ≤ index + length rest.
Proof.
  revert index delimiter quote quoted escaped.
  induction rest as [|c rest IH]; intros index delimiter quote quoted escaped;
    cbn [scan_heredoc_delimiter length]; [intros [= <- <- <- <- <-]; lia|].
  repeat case_match; try (intros H'; apply IH in H'; lia);
    try (intros [= <- <- <- <- <-]; lia); discriminate.
Qed.

Lemma read_heredoc_delimiter_bounds chars start delimiter next :
  read_heredoc_delimiter chars start = Ok (delimiter, next) →
  start ≤ length chars → start ≤ next ≤ length chars.
Proof.
  unfold read_heredoc_delimiter. intros H Hs.
  apply bind_Ok in H as ([[[[d q] qd] e] j] & Hscan & H).
  apply scan_heredoc_delimiter_bounds in Hscan. rewrite length_drop in Hscan.
  destruct (e || _ || _); [done|]. destruct (negb qd); [done|]. injection H as <- <-.
  pose proof (skip_while_ge (λ c, is_char " " c || is_char tab c) chars start).
  pose proof (skip_while_le (λ c, is_char " " c || is_char tab c) chars start Hs). lia.
Qed.

(** The length of the text that [split_at] splits into lines. *)
Fixpoint lines_length (lines : list rstr) : nat :=
  match lines with
  | [] => 0
  | line :: rest => length line + match rest with [] => 0 | _ => S (lines_length rest) end
  end.

Lemma split_at_not_nil sep s : split_at sep s ≠ [].
Proof. induction s as [|c s IH]; simpl; [done|]. destruct (sep c); [done|]. by destruct (split_at sep s). Qed.

Lemma lines_length_split sep s : lines_length (split_at sep s) = length s.
Proof.
  induction s as [|c s IH]; [done|]. cbn [split_at length].
  pose proof (split_at_not_nil sep s) as Hn.
  destruct (sep c); destruct (split_at sep s) as [|w ws]; try done;
    cbn [lines_length length] in *; lia.
Qed.

Lemma find_heredoc_end_bounds chars lines line_start delimiter next :
  find_heredoc_end chars lines line_start delimiter = Some next →
  line_start + lines_length lines = length chars →
  line_start ≤ next ≤ length chars.
Proof.
  revert line_start. induction lines as [|line lines IH]; intros line_start; [done|].
  cbn [find_heredoc_end lines_length]. intros H Hl.
  destruct (str_eqb line delimiter).
  - destruct (_ <? _) eqn:E; injection H as <-; [apply Nat.ltb_lt in E|]; destruct lines; lia.
  - destruct (_ =? _) eqn:E; [done|]. apply Nat.eqb_neq in E.
    apply IH in H; destruct lines; cbn [lines_length] in *; lia.
Qed.

Lemma consume_heredoc_body_bounds chars start delimiter next ignored :
  consume_heredoc_body chars start delimiter = Ok (next, ignored) →
  start ≤ length chars → start ≤ next ≤ length chars ∧ ignored = (start, next).
Proof.
  unfold consume_heredoc_body. destruct (find_heredoc_end _ _ _ _) as [j|] eqn:E; [|done].
  intros [= <- <-] Hs. split; [|done].
  eapply find_heredoc_end_bounds; [done|]. rewrite lines_length_split, length_drop. lia.
Qed.

Lemma consume_fd_duplication_bounds chars start next :
  consume_fd_duplication chars start = Some next → start < next ≤ length chars.
Proof.
  unfold consume_fd_duplication. cbv zeta.
  destruct (is_at "-" (chars !! start) && is_shell_boundary (chars !! (start + 1))) eqn:E1.
  - intros [= <-]. apply andb_true_iff in E1 as [E1%is_at_eq _].
    apply lookup_lt_Some in E1. lia.
  - destruct ((start <? _) && _) eqn:E2; [|done]. intros [= <-].
    apply andb_true_iff in E2 as [E2%Nat.ltb_lt _]. split; [done|].
    assert (start < length chars) as Hs.
    { unfold skip_while in E2. destruct (drop start chars) eqn:Ed; [simpl in E2; lia|].
      apply (f_equal length) in Ed. rewrite length_drop in Ed. simpl in Ed. lia. }
    apply skip_while_le. lia.
Qed.

Lemma scan_redirection_target_bounds rest index value dynamic quote escaped v d q j :
  scan_redirection_target rest index value dynamic quote escaped = (v, d, q, j) →
  index ≤ j ≤ index + length rest.
Proof.
  revert index value dynamic quote escaped.
  induction rest as [|c rest IH]; intros index value dynamic quote escaped;
    cbn [scan_redirection_target length]; [intros [= <- <- <- <-]; lia|].
  repeat case_match; try (intros H'; apply IH in H'; lia); intros [= <- <- <- <-]; lia.
Qed.

Lemma read_redirection_target_bounds chars start v d next :
  read_redirection_target chars start = Ok (v, d, next) →
  start ≤ next ≤ length chars ∧ v ≠ [].
Proof.
  unfold read_redirection_target. destruct (chars !! start) as [c|] eqn:Ec; [|done].
  apply lookup_lt_Some in Ec. destruct (is_in _ c); [done|].
  destruct (scan_redirection_target _ _ _ _ _ _) as [[[v' d'] q'] j] eqn:E.
  apply scan_redirection_target_bounds in E. rewrite length_drop in E.
  destruct (_ || _) eqn:Eb; [done|]. intros [= <- <- <-].
  apply orb_false_iff in Eb as [_ Eb%bool_decide_eq_false]. split; [lia|done].
Qed.

(** ** Progress *)

(** Arms that end at [next]: everything a step needs to know about the index. *)
Definition moves (chars : rstr) (st st' : LexState) : Prop :=
  lx_index st < lx_index st' ≤ length chars.

Lemma push_token_with_range_index e st : lx_index (push_token_with_range e st) = lx_index st.
Proof. unfold push_token_with_range. by destruct (lx_token st). Qed.

Lemma close_redirection_word_index st : lx_index (close_redirection_word st) = lx_index st.
Proof.
  unfold close_redirection_word. destruct (_ || _ || _); [|done].
  apply push_token_with_range_index.
Qed.

Lemma open_token_index st : lx_index (open_token st) = lx_index st.
Proof. unfold open_token. by destruct (lx_token_start st). Qed.

Lemma advance_index n st : lx_index (advance n st) = lx_index st + n.
Proof. done. Qed.

#[export] Hint Rewrite advance_index push_token_with_range_index close_redirection_word_index
  open_token_index : lexer.

Lemma lex_escape_moves chars st st' :
  lex_escape chars st = Ok st' → moves chars st st'.
Proof.
  unfold lex_escape, moves. destruct (chars !! (lx_index st + 1)) as [c|] eqn:E; [|done].
  apply lookup_lt_Some in E. intros [= <-]. destruct (is_char newline c); simpl; lia.
Qed.

Lemma lex_parenthesized_moves chars st st' :
  lex_parenthesized chars st = Ok st' → moves chars st st'.
Proof.
  unfold lex_parenthesized, moves. intros H. inv_bind H. destruct r as [emb next].
  injection H as <-. apply extract_parenthesized_bounds in E as [E _]. simpl. lia.
Qed.

Lemma lex_backtick_moves chars st st' :
  lex_backtick chars st = Ok st' → moves chars st st'.
Proof.
  unfold lex_backtick, moves. intros H. inv_bind H. destruct r as [emb next].
  injection H as <-. apply extract_backtick_bounds in E as [E _]. simpl. lia.
Qed.

Lemma lex_newline_moves chars st st' :
  lx_index st < length chars → lex_newline chars st = Ok st' → moves chars st st'.
Proof.
  unfold lex_newline, moves. intros Hi. set (st1 := set_quoted _ _).
  assert (lx_index st1 = lx_index st) as H1 by (subst st1; simpl; by autorewrite with lexer).
  clearbody st1. case_bool_decide; [intros [= <-]; simpl; lia|].
  set (st2 := if bool_decide (lx_tokens st1 = []) then st1 else push_segment st1).
  assert (lx_index st2 = lx_index st) as H2 by (subst st2; by destruct (bool_decide _)).
  clearbody st2.
  destruct (lx_pending_heredoc _) as [d|]; [|intros [= <-]; simpl; lia].
  intros Hb. inv_bind Hb. destruct r as [next ignored]. injection Hb as <-.
  assert (lx_index (advance 1 (set_separator_state SepNone st2)) = lx_index st + 1) as H3
    by (simpl; lia).
  apply consume_heredoc_body_bounds in E as [E _]; rewrite H3 in *; simpl; lia.
Qed.

Lemma lex_heredoc_moves chars st st' :
  is_at "<" (chars !! (lx_index st + 1)) = true →
  lex_heredoc chars st = Ok st' → moves chars st st'.
Proof.
  unfold lex_heredoc, moves. intros Hc%is_at_eq%lookup_lt_Some.
  destruct (is_at _ _); [done|]. case_bool_decide; [done|].
  intros Hb. inv_bind Hb. destruct r as [d next]. injection Hb as <-.
  apply read_heredoc_delimiter_bounds in E; autorewrite with lexer in *; simpl; lia.
Qed.

Lemma lex_output_redirection_moves chars st :
  lx_index st < length chars → moves chars st (lex_output_redirection chars st).
Proof.
  unfold lex_output_redirection, moves. intros Hi.
  set (st1 := advance 1 (close_redirection_word st)).
  assert (lx_index st1 = lx_index st + 1) as H1
    by (subst st1; by autorewrite with lexer).
  clearbody st1. set (st2 := if is_at ">" (chars !! lx_index st1) then advance 1 st1 else st1).
  assert (lx_index st < lx_index st2 ≤ length chars) as H2.
  { subst st2. destruct (is_at ">" _) eqn:E; [|lia].
    apply is_at_eq, lookup_lt_Some in E. simpl. lia. }
  clearbody st2. destruct (is_at "&" _) eqn:E; [|done]. apply is_at_eq, lookup_lt_Some in E.
  destruct (consume_fd_duplication _ _) as [next|] eqn:Ed; simpl; [|lia].
  apply consume_fd_duplication_bounds in Ed. lia.
Qed.

Lemma lex_input_redirection_moves chars st st' :
  lex_input_redirection chars st = Ok st' → moves chars st st'.
Proof.
  unfold lex_input_redirection, moves. destruct (is_at "&" _); [done|].
  intros Hb. inv_bind Hb. destruct r as [[v d] next]. injection Hb as <-.
  apply read_redirection_target_bounds in E as [E _].
  match type of E with skip_while ?p _ ?i ≤ _ ≤ _ => pose proof (skip_while_ge p chars i) as Hg end.
  autorewrite with lexer in *. simpl. destruct (is_at ">" _); lia.
Qed.

Lemma lex_separator_moves chars c st st' :
  lx_index st < length chars → lex_separator chars c st = Ok st' → moves chars st st'.
Proof.
  unfold lex_separator, moves. intros Hi. destruct (_ && _); [done|].
  set (st1 := set_quoted _ _).
  assert (lx_index st1 = lx_index st) as H1 by (subst st1; simpl; by autorewrite with lexer).
  clearbody st1. destruct (bool_decide (lx_tokens st1 = [])); [done|].
  set (st2 := advance 1 (push_segment st1)).
  assert (lx_index st2 = lx_index st + 1) as H2 by (subst st2; simpl; lia).
  clearbody st2. intros [= <-]. simpl. destruct (_ && _) eqn:E; [|lia].
  apply andb_true_iff in E as [E%bool_decide_eq_true%lookup_lt_Some _]. simpl. lia.
Qed.

#[export] Hint Resolve lex_escape_moves lex_parenthesized_moves lex_backtick_moves
  lex_newline_moves lex_heredoc_moves lex_output_redirection_moves lex_input_redirection_moves
  lex_separator_moves : lexer.

(** A state change that does not touch the index can be ignored. *)
Lemma moves_same chars st st1 st' :
  lx_index st1 = lx_index st → moves chars st1 st' → moves chars st st'.
Proof. unfold moves. by intros ->. Qed.

Ltac next_moves :=
  match goal with |- moves ?chars ?st ?st' => unfold moves; simpl; autorewrite with lexer; simpl; lia end.

Lemma lex_unquoted_moves chars c st st' :
  chars !! lx_index st = Some c → lex_unquoted chars c st = Ok st' → moves chars st st'.
Proof.
  intros Hc. pose proof (lookup_lt_Some _ _ _ Hc) as Hi. unfold lex_unquoted. cbv zeta.
  destruct (is_char newline c) eqn:Hnl; [by eauto with lexer|].
  destruct (is_whitespace c); [intros [= <-]; next_moves|].
  destruct (is_char "#" c && _ && _) eqn:Hhash.
  { intros [= <-]. unfold moves. simpl. split.
    - eapply skip_while_gt; [done|]. by rewrite Hnl.
    - apply skip_while_le. lia. }
  destruct (is_char squote c); [intros [= <-]; next_moves|].
  destruct (is_char dquote c); [intros [= <-]; next_moves|].
  destruct (is_char "\" c).
  { intros H. eapply moves_same; [|exact (lex_escape_moves _ _ _ H)]. simpl. by autorewrite with lexer. }
  destruct (is_char "$" c && _).
  { intros H. eapply moves_same; [|exact (lex_parenthesized_moves _ _ _ H)]. by autorewrite with lexer. }
  destruct (is_char "`" c).
  { intros H. eapply moves_same; [|exact (lex_backtick_moves _ _ _ H)]. by autorewrite with lexer. }
  destruct (is_in "()" c); [done|].
  destruct (is_char "<" c && _) eqn:Hd.
  { apply andb_true_iff in Hd as [_ Hd]. by eauto with lexer. }
  destruct (is_char "<" c && _ || _); [done|].
  destruct (is_char ">" c || _); [intros [= <-]; by eauto with lexer|].
  destruct (is_char "<" c); [by eauto with lexer|].
  destruct (is_in _ c); [by eauto with lexer|].
  intros [= <-]. next_moves.
Qed.

Lemma lex_step_moves chars st st' :
  lx_index st < length chars → lex_step chars st = Ok st' → moves chars st st'.
Proof.
  intros Hi. unfold lex_step. destruct (lookup_lt_is_Some_2 chars (lx_index st) Hi) as [c Hc].
  rewrite Hc. destruct (lx_quote st).
  - by apply lex_unquoted_moves.
  - intros [= <-]. unfold lex_single_quoted.
    destruct (is_char squote c); unfold moves; simpl; lia.
  - unfold lex_double_quoted.
    destruct (is_char dquote c); [intros [= <-]; next_moves|].
    destruct (is_char "\" c); [by eauto with lexer|].
    destruct (is_char "$" c && _); [by eauto with lexer|].
    destruct (is_char "`" c); [by eauto with lexer|].
    intros [= <-]. next_moves.
Qed.

(** The loop of the model is the loop of the source: it satisfies the unfolding
    equation of [while index < chars.len()], so its fuel never runs out. *)
Lemma lex_loop_unfold chars st :
  lex_loop chars st =
  if lx_index st <? length chars then st' ← lex_step chars st; lex_loop chars st' else Ok st.
Proof.
  unfold lex_loop.
  refine (while_loop_unfold _ (λ st, lx_index st <? length chars) _ (λ _, True) _ _ st I); [done|].
  intros s s' _ Hc%Nat.ltb_lt Hs. destruct (lex_step_moves _ _ _ Hc Hs). lia.
Qed.

(** Induction over the passes of a successful run. *)
Lemma lex_loop_ind chars (P : LexState → Prop) st st' :
  P st →
  (∀ s s', P s → lx_index s < length chars → lex_step chars s = Ok s' → P s') →
  lex_loop chars st = Ok st' → P st' ∧ length chars ≤ lx_index st'.
Proof.
  intros Hst Hstep Hl. unfold lex_loop in Hl.
  destruct (while_loop_exit (λ st, length chars - lx_index st)
    (λ st, lx_index st <? length chars) (lex_step chars) P) with (3 := Hst) (4 := Hl)
    as [HP Hc].
  - intros s s' Hs Hc%Nat.ltb_lt. by apply Hstep.
  - intros s s' _ Hc%Nat.ltb_lt Hs. destruct (lex_step_moves _ _ _ Hc Hs). simpl. lia.
  - split; [done|]. by apply Nat.ltb_ge in Hc.
Qed.

(** ** Well-formed output *)

(** The words of a segment, with their ranges, between two positions of the
    command: no word is empty, no range is empty, and they are in order. *)
Inductive words_in : nat → nat → list rstr → list range → Prop :=
| words_nil lo hi : lo ≤ hi → words_in lo hi [] []
| words_cons lo hi t ts s e rs :
    t ≠ [] → lo ≤ s → s < e → words_in e hi ts rs →
    words_in lo hi (t :: ts) ((s, e) :: rs).

(** Consecutive segments, none without a word. *)
Inductive segments_in : nat → nat → list ShellSegment → Prop :=
| segments_nil lo hi : lo ≤ hi → segments_in lo hi []
| segments_cons lo mid hi s ss :
    tokens s ≠ [] → words_in lo mid (tokens s) (token_ranges s) → segments_in mid hi ss →
    segments_in lo hi (s :: ss).

#[export] Hint Constructors words_in segments_in : lexer.

Lemma words_in_le lo hi ts rs : words_in lo hi ts rs → lo ≤ hi.
Proof. induction 1; lia. Qed.

Lemma words_in_weaken lo hi hi' ts rs : words_in lo hi ts rs → hi ≤ hi' → words_in lo hi' ts rs.
Proof. induction 1; intros; constructor; auto; lia. Qed.

Lemma words_in_lower lo lo' hi ts rs : words_in lo hi ts rs → lo' ≤ lo → words_in lo' hi ts rs.
Proof. destruct 1; intros; constructor; auto; lia. Qed.

Lemma words_in_snoc lo mid hi ts rs t s e :
  words_in lo mid ts rs → t ≠ [] → mid ≤ s → s < e → e ≤ hi →
  words_in lo hi (ts ++ [t]) (rs ++ [(s, e)]).
Proof.
  induction 1 as [lo mid Hle|lo mid t' ts s' e' rs Hne Hlo Hlt Hw IH]; intros; simpl.
  - constructor; auto; [lia|]. constructor. lia.
  - constructor; auto.
Qed.

Lemma segments_in_le lo hi ss : segments_in lo hi ss → lo ≤ hi.
Proof. induction 1 as [|? ? ? ? ? ? Hw]; [lia|]. apply words_in_le in Hw. lia. Qed.

Lemma segments_in_weaken lo hi hi' ss :
  segments_in lo hi ss → hi ≤ hi' → segments_in lo hi' ss.
Proof. induction 1; intros; econstructor; eauto; lia. Qed.

Lemma segments_in_snoc lo mid hi ss s :
  segments_in lo mid ss → tokens s ≠ [] → words_in mid hi (tokens s) (token_ranges s) →
  segments_in lo hi (ss ++ [s]).
Proof.
  induction 1 as [lo mid Hle|]; intros; simpl.
  - econstructor; [done|by eapply words_in_lower|by constructor].
  - econstructor; eauto.
Qed.

(** A command substitution is a proper part of the command text. *)
Definition embedded_ok (chars e : rstr) : Prop :=
  ∃ pre post, chars = pre ++ e ++ post ∧ pre ≠ [] ∧ post ≠ [].

Lemma embedded_slice chars start next :
  0 < start → start < next ≤ length chars →
  embedded_ok chars (slice chars start (next - 1)).
Proof.
  intros Hs Hn. exists (take start chars), (drop (next - 1) chars). split_and!.
  - unfold slice. replace (drop (next - 1) chars) with (drop (next - 1 - start) (drop start chars))
      by (rewrite drop_drop; f_equal; lia).
    by rewrite take_drop, take_drop.
  - intros H%(f_equal length). rewrite length_take in H. simpl in H. lia.
  - intros H%(f_equal length). rewrite length_drop in H. simpl in H. lia.
Qed.

Definition range_ok (chars : rstr) (r : range) : Prop := fst r ≤ snd r ≤ length chars.

(** The position from which the current word may start. *)
Definition word_limit (st : LexState) : nat := default (lx_index st) (lx_token_start st).

Record lex_inv (chars : rstr) (st : LexState) : Prop := {
  inv_index : lx_index st ≤ length chars;
  inv_words : ∃ a b, segments_in 0 a (lx_segments st)
                     ∧ words_in a b (lx_tokens st) (lx_token_ranges st)
                     ∧ b ≤ word_limit st;
  inv_start : ∀ s, lx_token_start st = Some s → s < lx_index st;
  inv_token : lx_token st ≠ [] ∨ lx_quote st ≠ QuoteNone → is_Some (lx_token_start st);
  inv_embedded : Forall (embedded_ok chars) (lx_embedded_commands st);
  inv_ignored : Forall (range_ok chars) (lx_ignored_policy_ranges st);
}.

Lemma lex_start_inv chars : lex_inv chars lex_start.
Proof.
  split; simpl; try done; try lia.
  - exists 0, 0. split_and!; auto with lexer lia.
  - intros [?|?]; done.
Qed.

(** *** The invariant and the elementary updates *)

(** Everything the invariant reads, except the index and the current word. *)
Definition same_output (st st' : LexState) : Prop :=
  lx_segments st' = lx_segments st ∧ lx_tokens st' = lx_tokens st
  ∧ lx_token_ranges st' = lx_token_ranges st
  ∧ lx_ignored_policy_ranges st' = lx_ignored_policy_ranges st.

(** Between words: no current word, and no open quote. *)
Definition between_words (st : LexState) : Prop :=
  lx_token st = [] ∧ lx_token_start st = None ∧ lx_quote st = QuoteNone.

(** A pass that starts or continues a word. *)
Lemma inv_word_step chars st st' :
  lex_inv chars st → same_output st st' →
  lx_token_start st' = Some (word_limit st) →
  lx_index st < lx_index st' ≤ length chars →
  Forall (embedded_ok chars) (lx_embedded_commands st') →
  lex_inv chars st'.
Proof.
  intros [Hi (a & b & Hs & Hw & Hb) Hst Ht He Hig] (E1 & E2 & E3 & E4) Es Hidx Hem.
  assert (word_limit st ≤ lx_index st) as Hl.
  { unfold word_limit in *. destruct (lx_token_start st) as [s|]; simpl; [|lia].
    specialize (Hst s eq_refl). lia. }
  split.
  - lia.
  - exists a, b. rewrite E1, E2, E3. split_and!; [done..|].
    unfold word_limit at 1. rewrite Es. done.
  - rewrite Es. intros s [= <-]. lia.
  - intros _. by rewrite Es.
  - done.
  - by rewrite E4.
Qed.

(** A pass between words that only moves the index. *)
Lemma inv_between chars st st' :
  lex_inv chars st → same_output st st' → between_words st' →
  lx_token_start st = None → lx_index st ≤ lx_index st' ≤ length chars →
  lx_embedded_commands st' = lx_embedded_commands st →
  lex_inv chars st'.
Proof.
  intros [Hi (a & b & Hs & Hw & Hb) Hst Ht He Hig] (E1 & E2 & E3 & E4) (Et & Es & Eq) En Hidx Em.
  unfold word_limit in Hb. rewrite En in Hb. simpl in Hb. split.
  - lia.
  - exists a, b. rewrite E1, E2, E3. split_and!; [done..|].
    unfold word_limit. rewrite Es. simpl. lia.
  - by rewrite Es.
  - rewrite Et, Eq. intros [?|?]; done.
  - by rewrite Em.
  - by rewrite E4.
Qed.

Lemma push_token_inv chars st :
  lex_inv chars st → lx_quote st = QuoteNone →
  let st' := push_token_with_range (lx_index st) st in
  lex_inv chars st' ∧ between_words st'.
Proof.
  intros [Hi (a & b & Hs & Hw & Hb) Hst Ht He Hig] Hq. unfold push_token_with_range.
  destruct (lx_token st) as [|c token] eqn:Etok; simpl.
  - split; [|done]. split; simpl; try done.
    + exists a, b. split_and!; [done..|]. unfold word_limit in *. simpl.
      destruct (lx_token_start st) as [s|]; simpl in *; [|lia].
      specialize (Hst s eq_refl). lia.
    + rewrite Etok, Hq. intros [?|?]; done.
  - destruct (Ht (or_introl (λ H, nil_cons (eq_sym H)))) as [s Es].
    specialize (Hst s Es). unfold word_limit in Hb. rewrite Es in *. simpl in *.
    split; [|done]. split; simpl; try done.
    + exists a, (lx_index st). split_and!; [done|by eapply words_in_snoc|].
      unfold word_limit. simpl. lia.
    + rewrite Hq. intros [?|?]; done.
Qed.

Lemma close_redirection_word_inv chars st :
  lex_inv chars st → lx_quote st = QuoteNone →
  lex_inv chars (close_redirection_word st) ∧ between_words (close_redirection_word st).
Proof.
  intros Hinv Hq. unfold close_redirection_word. destruct (_ || _ || _).
  - destruct (push_token_inv _ _ Hinv Hq) as [[] Hbt]. split; [|done]. by split.
  - destruct Hinv as [Hi (a & b & Hs & Hw & Hb) Hst Ht He Hig]. split; [|done].
    split; simpl; try done.
    + exists a, b. split_and!; [done..|]. unfold word_limit in *. simpl.
      destruct (lx_token_start st) as [s|]; simpl in *; [|lia].
      specialize (Hst s eq_refl). lia.
    + rewrite Hq. intros [?|?]; done.
Qed.

Lemma push_segment_inv chars st :
  lex_inv chars st → lx_tokens st ≠ [] → lex_inv chars (push_segment st).
Proof.
  intros [Hi (a & b & Hs & Hw & Hb) Hst Ht He Hig] Hne. split; simpl; try done.
  exists b, b. split_and!; [by eapply segments_in_snoc|by constructor|].
  unfold word_limit in *. simpl. done.
Qed.

Lemma push_segment_if_inv chars st :
  lex_inv chars st →
  lex_inv chars (if bool_decide (lx_tokens st = []) then st else push_segment st).
Proof. intros H. case_bool_decide; [done|]. by apply push_segment_inv. Qed.

Lemma push_segment_between st : between_words st → between_words (push_segment st).
Proof. done. Qed.

(** A state that agrees on everything the invariant reads. *)
Lemma lex_inv_same chars st st' :
  lex_inv chars st → same_output st st' →
  lx_index st' = lx_index st → lx_token st' = lx_token st →
  lx_token_start st' = lx_token_start st → lx_quote st' = lx_quote st →
  lx_embedded_commands st' = lx_embedded_commands st →
  lex_inv chars st'.
Proof.
  intros [Hi (a & b & Hs & Hw & Hb) Hst Ht He Hig] (E1 & E2 & E3 & E4) E5 E6 E7 E8 E9.
  split; rewrite ?E1, ?E2, ?E3, ?E4, ?E5, ?E6, ?E7, ?E8, ?E9; try done.
  exists a, b. unfold word_limit. by rewrite E5, E7.
Qed.

Lemma open_token_start st : lx_token_start (open_token st) = Some (word_limit st).
Proof. unfold open_token, word_limit. by destruct (lx_token_start st) eqn:E; rewrite ?E. Qed.

Lemma open_token_output st : same_output st (open_token st).
Proof. unfold open_token, same_output. by destruct (lx_token_start st). Qed.

Lemma open_token_embedded st : lx_embedded_commands (open_token st) = lx_embedded_commands st.
Proof. unfold open_token. by destruct (lx_token_start st). Qed.

(** *** The arms *)

(** [st] is a state whose word is open: inside quotes, or just opened. *)
Lemma lex_escape_inv chars st st1 st' :
  lex_inv chars st → same_output st st1 → lx_index st1 = lx_index st →
  lx_token_start st1 = Some (word_limit st) →
  lx_embedded_commands st1 = lx_embedded_commands st →
  lex_escape chars st1 = Ok st' → lex_inv chars st'.
Proof.
  intros Hinv (E1 & E2 & E3 & E4) Ei Es Ee H. pose proof (lex_escape_moves _ _ _ H) as Hm.
  unfold moves in Hm. rewrite Ei in Hm. eapply inv_word_step; [done| | |done|];
    unfold lex_escape in H; destruct (chars !! _) as [c|]; try done; injection H as <-;
    destruct (is_char newline c); simpl; rewrite ?Ee; try done; apply Hinv.
Qed.

Lemma lex_parenthesized_inv chars st st1 st' :
  lex_inv chars st → same_output st st1 → lx_index st1 = lx_index st →
  lx_token_start st1 = Some (word_limit st) →
  lx_embedded_commands st1 = lx_embedded_commands st →
  lex_parenthesized chars st1 = Ok st' → lex_inv chars st'.
Proof.
  intros Hinv (E1 & E2 & E3 & E4) Ei Es Ee H. pose proof (lex_parenthesized_moves _ _ _ H) as Hm.
  unfold moves in Hm. rewrite Ei in Hm.
  unfold lex_parenthesized in H. inv_bind H. destruct r as [emb next]. injection H as <-.
  apply extract_parenthesized_bounds in E as [Hb ->].
  eapply inv_word_step; [done|done|done|done|]. simpl. rewrite Ee.
  apply Forall_app. split; [apply Hinv|]. constructor; [|done]. apply embedded_slice; lia.
Qed.

Lemma lex_backtick_inv chars st st1 st' :
  lex_inv chars st → same_output st st1 → lx_index st1 = lx_index st →
  lx_token_start st1 = Some (word_limit st) →
  lx_embedded_commands st1 = lx_embedded_commands st →
  lex_backtick chars st1 = Ok st' → lex_inv chars st'.
Proof.
  intros Hinv (E1 & E2 & E3 & E4) Ei Es Ee H. pose proof (lex_backtick_moves _ _ _ H) as Hm.
  unfold moves in Hm. rewrite Ei in Hm.
  unfold lex_backtick in H. inv_bind H. destruct r as [emb next]. injection H as <-.
  apply extract_backtick_bounds in E as [Hb ->].
  eapply inv_word_step; [done|done|done|done|]. simpl. rewrite Ee.
  apply Forall_app. split; [apply Hinv|]. constructor; [|done]. apply embedded_slice; lia.
Qed.

Lemma lex_newline_inv chars st st' :
  lex_inv chars st → lx_quote st = QuoteNone → lx_index st < length chars →
  lex_newline chars st = Ok st' → lex_inv chars st'.
Proof.
  intros Hinv Hq Hi. unfold lex_newline.
  destruct (push_token_inv _ _ Hinv Hq) as [H1 B1].
  set (st1 := set_quoted false (push_token_with_range (lx_index st) st)).
  assert (lex_inv chars st1) as H1' by (by eapply lex_inv_same).
  assert (between_words st1) as B1' by done.
  assert (lx_index st1 = lx_index st) as I1 by apply push_token_with_range_index.
  clearbody st1. clear H1 B1.
  case_bool_decide.
  { intros [= <-]. eapply inv_between; try done; [apply B1'|simpl; lia]. }
  pose proof (push_segment_if_inv _ _ H1') as H2.
  set (st2 := if bool_decide _ then st1 else _) in *.
  assert (between_words st2) as B2 by (subst st2; by case_bool_decide).
  assert (lx_index st2 = lx_index st) as I2 by (subst st2; by case_bool_decide).
  clearbody st2.
  set (st3 := advance 1 (set_separator_state SepNone st2)).
  assert (lex_inv chars st3) as H3
    by (eapply inv_between; try done; [apply B2|simpl; lia]).
  assert (between_words st3) as B3 by done.
  assert (lx_index st3 = lx_index st + 1) as I3 by (subst st3; simpl; lia).
  clearbody st3. destruct (lx_pending_heredoc st3) as [d|]; [|by intros [= <-]].
  intros Hb. inv_bind Hb. destruct r as [next ignored]. injection Hb as <-.
  apply consume_heredoc_body_bounds in E as [E ->]; [|lia].
  destruct H3 as [Hx (a & b & Hs & Hw & Hb) Hst Ht He Hig]. destruct B3 as (T3 & S3 & Q3).
  split; simpl; try done.
  - lia.
  - exists a, b. split_and!; [done..|]. unfold word_limit in *. simpl. rewrite S3 in *.
    simpl in *. lia.
  - by rewrite S3.
  - apply Forall_app. split; [done|]. constructor; [|done]. unfold range_ok. simpl. lia.
Qed.

(** The redirection arms: the word before the operator is closed, then only
    flags and the index change. *)
Lemma redirection_inv chars st st' :
  lex_inv chars st → lx_quote st = QuoteNone → moves chars st st' →
  same_output (close_redirection_word st) st' → between_words st' →
  lx_embedded_commands st' = lx_embedded_commands (close_redirection_word st) →
  lex_inv chars st'.
Proof.
  intros Hinv Hq Hm Ho Hb He.
  destruct (close_redirection_word_inv _ _ Hinv Hq) as [H1 (_ & S1 & _)].
  eapply inv_between; [exact H1|done|done|done| |done].
  rewrite close_redirection_word_index. unfold moves in Hm. lia.
Qed.

Lemma close_redirection_word_between chars st :
  lex_inv chars st → lx_quote st = QuoteNone → between_words (close_redirection_word st).
Proof. intros. by eapply close_redirection_word_inv. Qed.

Lemma lex_heredoc_inv chars st st' :
  lex_inv chars st → lx_quote st = QuoteNone →
  is_at "<" (chars !! (lx_index st + 1)) = true →
  lex_heredoc chars st = Ok st' → lex_inv chars st'.
Proof.
  intros Hinv Hq Hc H. pose proof (lex_heredoc_moves _ _ _ Hc H) as Hm.
  pose proof (close_redirection_word_between _ _ Hinv Hq) as Hb.
  revert H. clear Hc. unfold lex_heredoc. destruct (is_at _ _); [done|].
  case_bool_decide; [done|]. intros Hr.
  inv_bind Hr. destruct r as [d next]. injection Hr as <-. by eapply redirection_inv.
Qed.

Lemma lex_output_redirection_inv chars st :
  lex_inv chars st → lx_quote st = QuoteNone → lx_index st < length chars →
  lex_inv chars (lex_output_redirection chars st).
Proof.
  intros Hinv Hq Hi. pose proof (lex_output_redirection_moves _ _ Hi) as Hm.
  pose proof (close_redirection_word_between _ _ Hinv Hq) as Hb.
  eapply redirection_inv; [done..| | |]; unfold lex_output_redirection;
    set (st1 := advance 1 _); destruct (is_at ">" _); destruct (is_at "&" _);
    try destruct (consume_fd_duplication _ _); done.
Qed.

Lemma lex_input_redirection_inv chars st st' :
  lex_inv chars st → lx_quote st = QuoteNone →
  lex_input_redirection chars st = Ok st' → lex_inv chars st'.
Proof.
  intros Hinv Hq H. pose proof (lex_input_redirection_moves _ _ _ H) as Hm.
  pose proof (close_redirection_word_between _ _ Hinv Hq) as Hb.
  unfold lex_input_redirection in H. destruct (is_at "&" _); [done|].
  inv_bind H. destruct r as [[v d] next]. injection H as <-. by eapply redirection_inv.
Qed.

Lemma advance_inv chars n st :
  lex_inv chars st → between_words st → lx_index st + n ≤ length chars →
  lex_inv chars (advance n st) ∧ between_words (advance n st).
Proof.
  intros H B Hn. split; [|exact B].
  eapply inv_between; [exact H|done|exact B|apply B|simpl; lia|done].
Qed.

Lemma set_separator_inv chars v st : lex_inv chars st → lex_inv chars (set_separator_state v st).
Proof. intros H. by eapply lex_inv_same. Qed.

Lemma lex_separator_inv chars c st st' :
  lex_inv chars st → lx_quote st = QuoteNone → lx_index st < length chars →
  lex_separator chars c st = Ok st' → lex_inv chars st'.
Proof.
  intros Hinv Hq Hi. destruct (push_token_inv _ _ Hinv Hq) as [H1 B1].
  unfold lex_separator. destruct (_ && _); [done|].
  set (st1 := set_quoted false (push_token_with_range (lx_index st) st)).
  assert (lex_inv chars st1 ∧ between_words st1) as [H1' B1'] by (split; [by eapply lex_inv_same|exact B1]).
  assert (lx_index st1 = lx_index st) as I1 by apply push_token_with_range_index.
  clearbody st1. cbv zeta. case_bool_decide as Hne; [done|].
  destruct (advance_inv chars 1 _ (push_segment_inv _ _ H1' Hne) (push_segment_between _ B1'))
    as [H2 B2]; [simpl; lia|].
  set (st2 := advance 1 (push_segment st1)) in *. clearbody st2.
  intros [= <-]. apply set_separator_inv. destruct (_ && _) eqn:E; [|done].
  apply andb_true_iff in E as [E%bool_decide_eq_true%lookup_lt_Some _].
  apply advance_inv; [done..|lia].
Qed.

Lemma lex_unquoted_inv chars c st st' :
  lex_inv chars st → lx_quote st = QuoteNone → chars !! lx_index st = Some c →
  lex_unquoted chars c st = Ok st' → lex_inv chars st'.
Proof.
  intros Hinv Hq Hc H. pose proof (lookup_lt_Some _ _ _ Hc) as Hi.
  pose proof (lex_unquoted_moves _ _ _ _ Hc H) as Hm. unfold moves in Hm.
  pose proof (open_token_output st) as Ho. pose proof (open_token_start st) as Hos.
  pose proof (open_token_index st) as Hoi. pose proof (open_token_embedded st) as Hoe.
  revert H. unfold lex_unquoted. cbv zeta.
  destruct (is_char newline c); [by apply lex_newline_inv|].
  destruct (is_whitespace c).
  { intros [= <-]. destruct (push_token_inv _ _ Hinv Hq) as [H1 B1].
    eapply inv_between; [exact H1|done|done|apply B1| |done].
    rewrite push_token_with_range_index. lia. }
  destruct (is_char "#" c && _ && _) eqn:Hhash.
  { intros [= <-]. apply andb_true_iff in Hhash as [[_ Ht%bool_decide_eq_true]%andb_true_iff _].
    destruct Hinv as [Hx (a & b & Hs & Hw & Hb) Hst Htk He Hig]. split; simpl in *; try done.
    - lia.
    - exists a, b. split_and!; [done..|]. unfold word_limit in *. simpl.
      destruct (lx_token_start st); simpl in *; lia.
    - intros s Es. specialize (Hst s Es). lia. }
  destruct (is_char squote c).
  { intros [= <-]. eapply inv_word_step; [done..|]. simpl. rewrite Hoe. apply Hinv. }
  destruct (is_char dquote c).
  { intros [= <-]. eapply inv_word_step; [done..|]. simpl. rewrite Hoe. apply Hinv. }
  destruct (is_char "\" c); [by eapply lex_escape_inv|].
  destruct (is_char "$" c && _); [by eapply lex_parenthesized_inv|].
  destruct (is_char "`" c); [by eapply lex_backtick_inv|].
  destruct (is_in "()" c); [done|].
  destruct (is_char "<" c && _) eqn:Hd.
  { apply andb_true_iff in Hd as [_ Hd]. by apply lex_heredoc_inv. }
  destruct (is_char "<" c && _ || _); [done|].
  destruct (is_char ">" c || _); [intros [= <-]; by apply lex_output_redirection_inv|].
  destruct (is_char "<" c); [by apply lex_input_redirection_inv|].
  destruct (is_in _ c); [by apply lex_separator_inv|].
  intros [= <-]. eapply inv_word_step; [exact Hinv|exact (open_token_output (set_separator_state SepNone st))| |done|].
  - exact (open_token_start (set_separator_state SepNone st)).
  - simpl. rewrite open_token_embedded. apply Hinv.
Qed.

(** Every pass of the loop keeps the invariant. *)
Lemma lex_step_inv chars st st' :
  lex_inv chars st → lx_index st < length chars → lex_step chars st = Ok st' → lex_inv chars st'.
Proof.
  intros Hinv Hi H. pose proof (lex_step_moves _ _ _ Hi H) as Hm. unfold moves in Hm.
  revert H. unfold lex_step. destruct (lookup_lt_is_Some_2 chars (lx_index st) Hi) as [c Hc].
  rewrite Hc. destruct (lx_quote st) eqn:Hq; [by apply lex_unquoted_inv|..];
    (assert (lx_token_start st = Some (word_limit st)) as Hs;
     [destruct (inv_token _ _ Hinv) as [s Es]; [right; by rewrite Hq|];
      unfold word_limit; by rewrite Es|]).
  - intros [= <-]. unfold lex_single_quoted in *.
    eapply inv_word_step; [exact Hinv|..|exact Hm|]; destruct (is_char squote c); try done;
      apply Hinv.
  - unfold lex_double_quoted.
    destruct (is_char dquote c).
    { intros [= <-]. eapply inv_word_step; [done..|]. apply Hinv. }
    destruct (is_char "\" c); [by eapply lex_escape_inv|].
    destruct (is_char "$" c && _); [by eapply lex_parenthesized_inv|].
    destruct (is_char "`" c); [by eapply lex_backtick_inv|].
    intros [= <-]. eapply inv_word_step; [done..|]. apply Hinv.
Qed.

(** What [lex_command] promises about its result. *)
Record lexed_ok (chars : rstr) (lexed : LexedCommand) : Prop := {
  ok_segments : segments_in 0 (length chars) (segments lexed);
  ok_not_empty : segments lexed ≠ [];
  ok_embedded : Forall (embedded_ok chars) (embedded_commands lexed);
  ok_ignored : Forall (range_ok chars) (ignored_policy_ranges lexed);
}.

Lemma lex_finish_ok chars st lexed :
  lex_inv chars st → length chars ≤ lx_index st → lex_finish chars st = Ok lexed →
  lexed_ok chars lexed.
Proof.
  intros Hinv Hi. unfold lex_finish. case_bool_decide; [done|].
  destruct (negb _) eqn:Hq; [done|].
  apply negb_false_iff, bool_decide_eq_true in Hq.
  assert (lx_index st = length chars) as Hl by (pose proof (inv_index _ _ Hinv); lia).
  destruct (push_token_inv _ _ Hinv Hq) as [H1 B1]. rewrite Hl in *.
  set (st1 := push_token_with_range (length chars) st) in *.
  destruct (negb _ && _); [done|]. pose proof (push_segment_if_inv _ _ H1) as H2.
  set (st2 := if bool_decide _ then st1 else _) in *. clearbody st2.
  case_bool_decide; [done|]. intros [= <-].
  destruct H2 as [Hx (a & b & Hs & Hw & Hb) Hst Ht He Hig]. split; simpl; try done.
  eapply segments_in_weaken; [done|]. apply words_in_le in Hw.
  assert (word_limit st2 ≤ lx_index st2).
  { unfold word_limit. destruct (lx_token_start st2) as [s|]; simpl; [|done].
    specialize (Hst s eq_refl). lia. }
  lia.
Qed.

Lemma lex_command_ok_aux chars lexed : lex_command chars = Ok lexed → lexed_ok chars lexed.
Proof.
  unfold lex_command. intros H. inv_bind H.
  apply (lex_loop_ind chars (lex_inv chars)) in E as [Hinv Hi].
  - by eapply lex_finish_ok.
  - apply lex_start_inv.
  - intros s s' Hs Hlt Hstep. by eapply lex_step_inv.
Qed.
