(* ===== verification/ShellProgram.v ===== *)
(** * Programs, wrappers and shell options

    The second half of [command/lexer.rs]: which word of a segment is the
    program that runs, after environment assignments and the wrappers [env],
    [busybox], [command] and [builtin] are removed, and the option grammar of
    the shells. *)

From S2P Require Import Prelude RustText CommandTypes.

Record EffectiveProgram := mkEffective {
  program_index : nat;
  executable_indices : list nat;
}.

Definition is_env_assignment (token : rstr) : bool :=
  match split_once token "=" with
  | None => false
  | Some (name, _) =>
      negb (bool_decide (name = []))
      && forallb (λ c, is_char "_" c || is_ascii_alphanumeric c) name
      && is_some_and (head name) (λ c, is_char "_" c || is_ascii_alphabetic c)
  end.

(** [program.rsplit(['/', '\\']).next()], in lower case. *)
Definition program_basename (program : rstr) : rstr :=
  to_ascii_lowercase (default program (last (split_at (is_in "/\") program))).

Definition is_option (token : rstr) : bool := starts_with token "-".

(** A short option cluster: [-x..] but not [--x..]. *)
Definition is_short_cluster (token : rstr) : bool :=
  starts_with token "-" && negb (starts_with token "--").

(** [token.chars().skip(1).any(p)] *)
Definition any_after_first (token : rstr) (p : char → bool) : bool := existsb p (drop 1 token).

(** The option loop after [env]: how far it moves the index. *)
Fixpoint env_options (rest : list rstr) : nat :=
  match rest with
  | [] => 0
  | token :: rest =>
      if one_of token ["-u"; "--unset"; "-C"; "--chdir"] then
        2 + match rest with [] => 0 | _ :: rest => env_options rest end
      else if is_option token || is_env_assignment token then 1 + env_options rest
      else 0
  end.

(** The wrapper loop of [effective_program].  Every pass moves past a wrapper,
    so fuel above the number of remaining words is never used up
    ([unwrap_program_fuel]). *)
Fixpoint unwrap_program (fuel : nat) (tokens : list rstr) (index : nat)
    (executable_indices : list nat) : option EffectiveProgram :=
  match fuel with
  | O => None
  | S fuel =>
      token ← tokens !! index;
      let wrapper_index := index in
      let program := program_basename token in
      let executable_indices := executable_indices ++ [index] in
      if is_str program "env" then
        let index := index + 1 in
        let index := index + env_options (drop index tokens) in
        if length tokens <=? index then Some (mkEffective wrapper_index executable_indices)
        else unwrap_program fuel tokens index executable_indices
      else if is_str program "busybox" then
        let index := index + 1 in
        if is_some_and (tokens !! index) is_option then
          Some (mkEffective wrapper_index executable_indices)
        else unwrap_program fuel tokens index executable_indices
      else if one_of program ["command"; "builtin"] then
        let index := index + 1 in
        let index := index + length (take_while is_option (drop index tokens)) in
        unwrap_program fuel tokens index executable_indices
      else Some (mkEffective index executable_indices)
  end.

Definition effective_program (tokens : list rstr) : option EffectiveProgram :=
  unwrap_program (S (length tokens)) tokens (length (take_while is_env_assignment tokens)) [].

Definition is_shell_program (program : rstr) : bool :=
  one_of program ["sh"; "bash"; "zsh"; "dash"; "ksh"; "fish"; "cmd"; "cmd.exe"].

Definition is_shell_command_option (token : rstr) : bool :=
  let option := to_ascii_lowercase token in
  is_str option "/c" || is_str option "-c"
  || is_short_cluster option && any_after_first option (is_char "c").

Definition shell_command_argument_index (tokens : list rstr) : option nat :=
  (λ i, i + 1 + 1) <$> position is_shell_command_option (drop 1 tokens).

Definition shell_option_is_interactive (option : rstr) : bool :=
  is_str option "--interactive"
  || is_short_cluster option && any_after_first option (is_char "i").

Definition shell_option_takes_value (option : rstr) : bool :=
  one_of option ["-O"; "+O"; "-o"; "+o"; "--rcfile"; "--init-file"].

Fixpoint shell_script_argument_from (rest : list rstr) : option rstr :=
  match rest with
  | [] => None
  | token :: rest =>
      if is_str token "--" then head rest
      else if is_str token "-" || is_str token "/k" || shell_option_is_interactive token then None
      else if starts_with token "-" || starts_with token "+" then
        if shell_option_takes_value token
        then match rest with [] => None | _ :: rest => shell_script_argument_from rest end
        else shell_script_argument_from rest
      else Some token
  end.

Definition shell_script_argument (tokens : list rstr) : option rstr :=
  shell_script_argument_from (drop 1 tokens).

(** [tokens.iter().take(command_index).skip(1)] *)
Definition options_before (tokens : list rstr) (command_index : nat) : list rstr :=
  drop 1 (take command_index tokens).

Definition shell_loads_startup_code (tokens : list rstr) (command_index : nat) : bool :=
  existsb (λ option,
      one_of option ["-l"; "--login"; "--rcfile"; "--init-file"]
      || starts_with option "--rcfile=" || starts_with option "--init-file="
      || is_short_cluster option && any_after_first option (is_char "l"))
    (options_before tokens command_index).

Definition shell_command_options_are_closed (tokens : list rstr) (command_index : nat)
    (program : rstr) : bool :=
  forallb (λ option,
      if is_str program "fish" && one_of option ["-c"; "-C"] then true
      else if one_of program ["cmd"; "cmd.exe"] then eq_ignore_ascii_case option "/c"
      else if one_of option ["--noprofile"; "--norc"; "--posix"] then true
      else is_short_cluster option && forallb (is_in "ceufnx") (drop 1 option))
    (options_before tokens command_index).

Definition is_opaque_shell_script_path (script : rstr) : bool :=
  starts_with script "~" || contains_any script "$`*?[]{}" || is_str script "-".

Definition lower_tokens (tokens : list rstr) : list rstr := map to_ascii_lowercase tokens.

(** ** Lemmas *)

Lemma unwrap_program_fuel n m tokens index execs :
  length tokens < n + index → length tokens < m + index →
  unwrap_program n tokens index execs = unwrap_program m tokens index execs.
Proof.
  revert m index execs. induction n as [|n IH]; intros [|m] index execs Hn Hm;
    cbn [unwrap_program]; [done|..].
  - by rewrite (lookup_ge_None_2 tokens index) by lia.
  - by rewrite (lookup_ge_None_2 tokens index) by lia.
  - destruct (tokens !! index) as [token|]; [|done]. cbn -[is_str one_of].
    destruct (is_str _ "env"); [destruct (_ <=? _); [done|apply IH; lia]|].
    destruct (is_str _ "busybox"); [destruct (is_some_and _ _); [done|apply IH; lia]|].
    destruct (one_of _ _); [apply IH; lia|done].
Qed.
