(* ===== verification/CommandTargets.v ===== *)
(** * Operands: paths, devices and option values

    The predicates of [command/risk.rs] and [command/segment.rs] on the
    operands of a command: which paths are outside the workspace, which write
    targets are devices or kernel interfaces, which directories a recursive
    command must never be given. *)

From S2P Require Import Prelude RustText RustPath CommandTypes ShellProgram.

(** ** Scope of read operands ([segment.rs]) *)

Definition is_obvious_external_path (argument : rstr) : bool :=
  let argument := trim_quotes argument in
  let lower := to_ascii_lowercase argument in
  if starts_with argument "/" || starts_with argument "\" || starts_with argument "~"
     || starts_with lower "$home" || starts_with lower "${home}"
     || starts_with lower "file:///"
     || existsb (λ alias, is_str lower alias || starts_with lower (String.append alias "/"))
          ["@home"; "@desktop"; "@documents"; "@downloads"]
  then true
  else existsb (λ component, bool_decide (component = ParentDir)) (parse_path argument).

Definition is_network_redirection_target (target : rstr) : bool :=
  let lower := replace_char "\" (rs "/") (to_ascii_lowercase (trim_quotes target)) in
  starts_with lower "/dev/tcp/" || starts_with lower "/dev/udp/".

(** ** Lexical normalisation ([risk.rs]) *)

Definition normalize_step (normalized : path) (component : Component) : path :=
  match component with
  | RootDir => path_push normalized RootDir
  | CurDir => normalized
  | ParentDir => path_pop normalized
  | Normal value => path_push normalized (Normal value)
  end.

Definition normalize_lexical_path (p : path) : path := foldl normalize_step [] p.

(** ** Devices and kernel interfaces *)

Definition is_device_exception (text : rstr) : bool :=
  one_of text ["/dev/null"; "/dev/stdout"; "/dev/stderr"; "/dev/tty"]
  || starts_with text "/dev/fd/".

Definition is_raw_device_path (target : rstr) : bool :=
  let lower := to_ascii_lowercase (trim_quotes target) in
  if starts_with lower "\\.\physicaldrive" then true
  else
    let lower := path_text (normalize_lexical_path (parse_path lower)) in
    if is_device_exception lower then false
    else starts_with lower "/dev/disk" || starts_with lower "/dev/rdisk"
         || starts_with lower "/dev/sd" || starts_with lower "/dev/hd"
         || starts_with lower "/dev/nvme" || starts_with lower "/dev/mmcblk".

Definition is_catastrophic_write_target (target : rstr) : bool :=
  if is_raw_device_path target then true
  else
    let normalized :=
      path_text (normalize_lexical_path (parse_path (to_ascii_lowercase (trim_quotes target)))) in
    if is_device_exception normalized then false
    else starts_with normalized "/dev/" || is_str normalized "/proc/sysrq-trigger"
         || starts_with normalized "/proc/sys/" || is_str normalized "/sys"
         || starts_with normalized "/sys/".

(** ** Directories that must not be destroyed

    [dirs::home_dir] is not part of the repository: [home] is its result. *)
Section Home.
Context (home : option path).

Definition component_names (p : path) : list rstr :=
  omap (λ c, match c with Normal value => Some (to_ascii_lowercase value) | _ => None end) p.

Definition is_sensitive_absolute_path (p : path) : bool :=
  if bool_decide (p = [RootDir]) then true
  else if is_some_and home (λ home, bool_decide (p = home)) then true
  else
    let components := component_names p in
    match components with
    | [] => true
    | first :: _ =>
        if one_of first
             ["system"; "library"; "applications"; "usr"; "etc"; "bin"; "sbin"; "boot"; "dev";
              "lib"; "lib32"; "lib64"; "opt"; "proc"; "root"; "run"; "snap"; "srv"; "sys"]
        then true
        else if one_of first ["users"; "home"] then length components <=? 2
        else if is_str first "volumes" then length components <=? 2
        else if is_str first "mnt" then length components <=? 2
        else if is_str first "media" then length components <=? 3
        else if is_str first "private" then
          if (length components =? 1)
             || is_some_and (components !! 1) (λ value, is_str value "etc")
          then true
          else is_some_and (components !! 1) (λ value, is_str value "var")
               && ((length components =? 2)
                   || is_some_and (components !! 2)
                        (λ value, one_of value ["db"; "log"; "run"; "spool"]))
        else is_str first "var"
             && ((length components =? 1)
                 || is_some_and (components !! 1)
                      (λ value, one_of value ["db"; "lib"; "log"; "run"; "spool"; "state"]))
    end.

Definition is_catastrophic_target (target : rstr) (cwd : option path) : bool :=
  let target := trim_quotes target in
  let lower := to_ascii_lowercase target in
  if one_of lower
       ["/"; "/*"; "/**"; "~"; "~/"; "~/*"; "$home"; "$home/"; "$home/*";
        "${home}"; "${home}/"; "${home}/*"]
  then true
  else
    let without_glob :=
      if is_str target "*" then rs "."
      else match strip_suffix target "/**" with
           | Some prefix => prefix
           | None => default target (strip_suffix target "/*")
           end in
    let expanded_home :=
      relative ← strip_prefix without_glob "~/";
      home ← home;
      Some (path_join home (parse_path relative)) in
    let p := default (parse_path without_glob) expanded_home in
    if is_absolute p then is_sensitive_absolute_path (normalize_lexical_path p)
    else match cwd with
         | Some cwd => is_sensitive_absolute_path (normalize_lexical_path (path_join cwd p))
         | None => false
         end.
End Home.

Definition is_opaque_destructive_target (target : rstr) : bool :=
  contains_any target "$`*?[]{}" || starts_with target "~".

(** ** Option values *)

(** [value.filter(|value| !value.is_empty())] *)
Definition non_empty (o : option rstr) : option rstr :=
  value ← o; if bool_decide (value = []) then None else Some value.

Fixpoint sort_output_targets_from (rest : list rstr) : list rstr :=
  match rest with
  | [] => []
  | token :: rest =>
      let found :=
        if one_of token ["-o"; "--output"] then head rest
        else match non_empty (strip_prefix token "--output=") with
             | Some value => Some value
             | None => non_empty (strip_prefix token "-o")
             end in
      option_list found ++ sort_output_targets_from rest
  end.

Definition sort_output_targets (tokens : list rstr) : list rstr :=
  sort_output_targets_from (drop 1 tokens).

Definition sort_uses_explicit_temp_storage (tokens : list rstr) : bool :=
  existsb (λ token,
      one_of token ["-T"; "--temporary-directory"]
      || starts_with token "-T" && (2 <? byte_len token)
      || starts_with token "--temporary-directory=")
    (drop 1 tokens).

(** [options.iter().find_map(|option| token.strip_prefix(&format!("{option}=")).filter(..))],
    with the quotes of the format string left out. *)
Fixpoint attached_option_value (token : rstr) (options : list string) : option rstr :=
  match options with
  | [] => None
  | option :: options =>
      match non_empty (strip_prefix token (String.append option "=")) with
      | Some value => Some value
      | None => attached_option_value token options
      end
  end.

Fixpoint option_value_targets_from (rest : list rstr) (options : list string) : list rstr :=
  match rest with
  | [] => []
  | token :: rest =>
      let found :=
        if one_of token options then head rest else attached_option_value token options in
      option_list found ++ option_value_targets_from rest options
  end.

Definition option_value_targets (tokens : list rstr) (options : list string) : list rstr :=
  option_value_targets_from (drop 1 tokens) options.

Definition command_targets (tokens : list rstr) : list rstr :=
  List.filter (λ token, negb (starts_with token "-") && negb (is_str token "--")) (drop 1 tokens).

Definition has_recursive_flag (tokens : list rstr) : bool :=
  existsb (λ token,
      is_str token "--recursive"
      || is_short_cluster token && any_after_first token (λ c, is_char "r" c || is_char "R" c))
    (drop 1 tokens).

(** ** Lemmas about normalisation *)

(** Paths whose names a component can have: what [parse_path] and [path_join] build. *)
Definition proper_path (p : path) : Prop := ∀ v, Normal v ∈ p → valid_name v.

Lemma parse_path_proper s : proper_path (parse_path s).
Proof. intros v. apply parse_path_names. Qed.

Lemma path_join_proper p q : proper_path p → proper_path q → proper_path (path_join p q).
Proof.
  intros Hp Hq v. unfold path_join. destruct (is_absolute q); [apply Hq|].
  destruct p as [|c p]; [apply Hq|].
  intros [H|H]%elem_of_app; [by apply Hp|].
  apply Hq. by apply list_elem_of_filter in H as [_ H].
Qed.

Lemma normalize_step_normalized acc c :
  normalized acc → (∀ v, c = Normal v → valid_name v) → normalized (normalize_step acc c).
Proof.
  intros Ha Hc. destruct c as [| | |v]; simpl.
  - right. by exists [].
  - done.
  - by apply path_pop_normalized.
  - apply (path_push_normalized acc v); [done|by apply Hc].
Qed.

Lemma normalize_fold_normalized p acc :
  normalized acc → proper_path p → normalized (foldl normalize_step acc p).
Proof.
  revert acc. induction p as [|c p IH]; intros acc Ha Hp; simpl; [done|].
  apply IH.
  - apply normalize_step_normalized; [done|]. intros v ->. apply Hp. set_solver.
  - intros v Hv. apply Hp. set_solver.
Qed.

Lemma normalize_normalized p : proper_path p → normalized (normalize_lexical_path p).
Proof. apply normalize_fold_normalized. left. constructor. Qed.

Lemma normalize_fold_names acc p :
  Forall is_normal p → foldl normalize_step acc p = acc ++ p.
Proof.
  revert acc. induction p as [|c p IH]; intros acc H; [by rewrite app_nil_r|].
  inversion_clear H. destruct c as [| | |v]; try done. simpl. rewrite IH by done.
  by rewrite <-app_assoc.
Qed.

(** A normalised path is its own normal form. *)
Lemma normalize_fixed p : normalized p → normalize_lexical_path p = p.
Proof.
  intros [H|(rest & -> & H)]; unfold normalize_lexical_path.
  - exact (normalize_fold_names [] p H).
  - exact (normalize_fold_names [RootDir] rest H).
Qed.

Lemma path_pop_absolute p : is_absolute p = true → is_absolute (path_pop p) = true.
Proof.
  intros H. destruct p as [|c p]; [done|]. destruct c; try done.
  unfold path_pop. destruct p as [|d p] using rev_ind; [done|].
  rewrite app_comm_cons, last_snoc, removelast_snoc. by destruct d.
Qed.

Lemma normalize_fold_absolute p acc :
  is_absolute acc = true → is_absolute (foldl normalize_step acc p) = true.
Proof.
  revert acc. induction p as [|c p IH]; intros acc Ha; simpl; [done|]. apply IH.
  destruct c; simpl; try done.
  - by apply path_pop_absolute.
  - destruct acc as [|[] acc]; done.
Qed.

Lemma normalize_absolute p :
  is_absolute p = true → is_absolute (normalize_lexical_path p) = true.
Proof.
  destruct p as [|[] p]; try done. intros _. exact (normalize_fold_absolute p [RootDir] eq_refl).
Qed.
