(* ===== verification/CommandAllowlist.v ===== *)
(** * The closed grammars of read-only and workspace commands

    [command/allowlist.rs]: a command is read-only only when every option it is
    given is listed for its program. *)

From S2P Require Import Prelude RustText RustPath CommandTypes ShellProgram CommandTargets.

(** ** The option grammar *)

Section Grammar.
Context (flag_options value_options : list string) (short_flags short_value_options : string).

(** The loop of [matches_closed_cli_grammar] over the remaining words. *)
Fixpoint cli_grammar (rest : list rstr) (options_ended : bool) : bool :=
  match rest with
  | [] => true
  | token :: rest =>
      if options_ended || is_str token "-" || negb (starts_with token "-") then
        cli_grammar rest options_ended
      else if is_str token "--" then cli_grammar rest true
      else if starts_with token "--" then
        if one_of token flag_options then cli_grammar rest options_ended
        else match split_once token "=" with
        | Some (name, value) =>
            if one_of name value_options && negb (bool_decide (value = []))
            then cli_grammar rest options_ended else false
        | None =>
            if one_of token value_options
            then match rest with
                 | _ :: rest => cli_grammar rest options_ended
                 | [] => false
                 end
            else false
        end
      else
        let short := drop 1 token in
        match head short with
        | None => false
        | Some first =>
            if is_in short_value_options first then
              if length short =? 1 then
                match rest with
                | [] => false
                | _ :: rest => cli_grammar rest options_ended
                end
              else cli_grammar rest options_ended
            else if forallb (is_in short_flags) short then cli_grammar rest options_ended
            else false
        end
  end.
End Grammar.

Definition matches_closed_cli_grammar (tokens : list rstr) (start : nat)
    (flag_options value_options : list string) (short_flags short_value_options : string) : bool :=
  cli_grammar flag_options value_options short_flags short_value_options
    (drop start tokens) false.
Arguments matches_closed_cli_grammar tokens start (flag_options value_options)%_string_scope
  (short_flags short_value_options)%_string_scope.

(** [tokens.get(1).map(|value| value.to_ascii_lowercase()).unwrap_or_default()] *)
Definition lower_subcommand (tokens : list rstr) : rstr :=
  default [] (to_ascii_lowercase <$> tokens !! 1).

(** ** Workspace tasks *)

Definition workspace_task_names : list string := ["test"; "build"; "lint"; "typecheck"; "check"].

Definition is_workspace_task (tokens : list rstr) (program : rstr) : bool :=
  let subcommand := lower_subcommand tokens in
  if is_str program "cargo" then one_of subcommand ["test"; "check"; "build"; "clippy"]
  else if one_of program ["npm"; "pnpm"; "yarn"; "bun"] then
    one_of subcommand workspace_task_names
    || is_str subcommand "run"
       && is_some_and (tokens !! 2) (λ script, one_of (to_ascii_lowercase script) workspace_task_names)
  else
    is_str program "make"
    && one_of subcommand ["test"; "check"; "build"; "lint"; "typecheck"].

(** An option that is longer than its two-byte prefix: [-Cdir]. *)
Definition is_attached (token : rstr) (lit : string) : bool :=
  starts_with token lit && (2 <? byte_len token).
Arguments is_attached token lit%_string_scope.

Definition has_workspace_task_boundary_override (tokens : list rstr) (program : rstr) : bool :=
  if is_str program "cargo" then
    existsb is_obvious_external_path (option_value_targets tokens ["--target"])
    || existsb (λ token,
           one_of token ["--manifest-path"; "--config"; "--target-dir"]
           || starts_with token "--manifest-path=" || starts_with token "--config="
           || starts_with token "--target-dir=" || is_str token "-Z" || is_attached token "-Z")
         (drop 2 tokens)
  else if one_of program ["npm"; "pnpm"; "yarn"; "bun"] then
    existsb (λ token,
        one_of token ["--prefix"; "--cwd"; "--dir"; "--script-shell"; "-C"]
        || starts_with token "--prefix=" || starts_with token "--cwd="
        || starts_with token "--dir=" || starts_with token "--script-shell="
        || is_attached token "-C")
      (drop 2 tokens)
  else
    is_str program "make"
    && existsb (λ token,
           is_env_assignment token
           || one_of token ["-f"; "--file"; "--makefile"; "--eval"; "-C"; "--directory"]
           || is_attached token "-f" || starts_with token "--file="
           || starts_with token "--makefile=" || starts_with token "--eval="
           || is_attached token "-C" || starts_with token "--directory=")
         (drop 2 tokens).

(** ** Read-only commands *)

(** The loop over [git remote get-url ..]: the number of names, or nothing when
    an unlisted option is met. *)
Fixpoint git_remote_names (rest : list rstr) : option nat :=
  match rest with
  | [] => Some 0
  | token :: rest =>
      if one_of token ["--all"; "--push"] then git_remote_names rest
      else if is_option token then None
      else S <$> git_remote_names rest
  end.

Definition is_read_only_git (tokens : list rstr) : bool :=
  match to_ascii_lowercase <$> tokens !! 1 with
  | None => false
  | Some subcommand =>
      if one_of subcommand ["--version"; "version"] then length tokens =? 2
      else if is_str subcommand "remote" then
        match tokens !! 2 with
        | None => true
        | Some token =>
            if one_of token ["-v"; "--verbose"] then length tokens =? 3
            else if is_str token "get-url" then
              bool_decide (git_remote_names (drop 3 tokens) = Some 1)
            else false
        end
      else if negb (is_str subcommand "branch") then false
      else match tokens !! 2 with
        | None => true
        | Some token =>
            if one_of token ["--show-current"; "-a"; "--all"; "-r"; "--remotes"]
            then length tokens =? 3
            else if is_str token "--list" then
              forallb (λ token, negb (is_option token)) (drop 3 tokens)
            else false
        end
  end.

Definition is_read_only_date (tokens : list rstr) : bool :=
  match tokens !! 1 with
  | None => true
  | Some format =>
      if one_of format ["-u"; "--utc"; "--universal"] then
        (length tokens =? 2)
        || (length tokens =? 3) && is_some_and (tokens !! 2) (λ format, starts_with format "+")
      else (length tokens =? 2) && starts_with format "+"
  end.

Fixpoint read_only_find_from (rest : list rstr) : bool :=
  match rest with
  | [] => true
  | token :: rest =>
      if one_of token
           ["-print"; "-print0"; "-ls"; "-empty"; "-readable"; "-writable"; "-executable";
            "-true"; "-false"; "-prune"; "-a"; "-and"; "-o"; "-or"; "!"; "-P"]
      then read_only_find_from rest
      else if one_of token
           ["-maxdepth"; "-mindepth"; "-name"; "-iname"; "-path"; "-ipath"; "-type"; "-size";
            "-mtime"; "-mmin"; "-newer"; "-user"; "-group"; "-perm"; "-printf"]
      then match rest with
           | [] => false
           | _ :: rest => read_only_find_from rest
           end
      else if is_option token then false
      else read_only_find_from rest
  end.

Definition is_read_only_find (tokens : list rstr) : bool := read_only_find_from (drop 1 tokens).

Definition is_read_only_pip (tokens : list rstr) : bool :=
  match tokens !! 1 with
  | None => false
  | Some subcommand =>
      if one_of subcommand ["--version"; "-V"] then length tokens =? 2
      else if is_str subcommand "check" then length tokens =? 2
      else if is_str subcommand "show" then
        matches_closed_cli_grammar tokens 2 ["--files"] [] "f" ""
      else if is_str subcommand "freeze" then
        matches_closed_cli_grammar tokens 2
          ["--all"; "--exclude-editable"; "--local"; "--user"] ["--exclude"] "l" ""
      else if is_str subcommand "list" then
        matches_closed_cli_grammar tokens 2
          ["--local"; "--user"; "--editable"; "--exclude-editable"; "--include-editable";
           "--not-required"; "--disable-pip-version-check"; "--no-color"]
          ["--format"; "--path"] "lue" ""
      else false
  end.

(** The programs whose options are all checked by one closed grammar: the
    flags, the options with a value, the short flags and the short options with
    a value.  First the programs that list and search, then those that show and
    transform text. *)
Definition search_grammar (program : rstr)
    : option (list string * list string * string * string) :=
  if is_str program "pwd" then Some ([], [], "LP", "")
  else if is_str program "ls" then Some (
    ["--all"; "--almost-all"; "--directory"; "--classify"; "--human-readable"; "--inode";
     "--reverse"; "--recursive"; "--size"],
    ["--color"; "--ignore"; "--sort"; "--time"], "aAldhiF1RrSst", "")
  else if is_str program "rg" then Some (
    ["--line-number"; "--with-filename"; "--no-filename"; "--ignore-case"; "--case-sensitive";
     "--smart-case"; "--word-regexp"; "--fixed-strings"; "--files-with-matches";
     "--files-without-match"; "--count"; "--count-matches"; "--stats"; "--json"; "--no-heading";
     "--heading"; "--hidden"; "--no-ignore"; "--no-ignore-vcs"; "--files"; "--type-list";
     "--version"; "--help"],
    ["--glob"; "--type"; "--type-not"; "--regexp"; "--file"; "--max-count"; "--after-context";
     "--before-context"; "--context"; "--max-depth"; "--max-filesize"; "--sort"; "--sortr";
     "--replace"; "--engine"; "--threads"; "--encoding"],
    "nHhisSwFclqvU", "egtfmABC")
  else if is_str program "grep" then Some (
    ["--line-number"; "--ignore-case"; "--invert-match"; "--extended-regexp"; "--fixed-strings";
     "--recursive"; "--files-with-matches"; "--files-without-match"; "--count"; "--quiet";
     "--silent"; "--word-regexp"; "--line-regexp"],
    ["--regexp"; "--file"; "--max-count"; "--after-context"; "--before-context"; "--context";
     "--include"; "--exclude"; "--exclude-from"],
    "nivEFrlcqswx", "efmABC")
  else None.

Definition text_grammar (program : rstr)
    : option (list string * list string * string * string) :=
  if is_str program "cat" then Some (
    ["--number"; "--number-nonblank"; "--squeeze-blank"; "--show-all"; "--show-ends";
     "--show-tabs"; "--show-nonprinting"], [], "nbsAETv", "")
  else if is_str program "head" then
    Some (["--quiet"; "--verbose"], ["--lines"; "--bytes"], "qv", "nc")
  else if is_str program "tail" then
    Some (["--quiet"; "--verbose"], ["--lines"; "--bytes"], "qv", "nc")
  else if is_str program "wc" then Some (
    ["--lines"; "--words"; "--bytes"; "--chars"; "--max-line-length"], [], "lwcmL", "")
  else if one_of program ["stat"; "file"; "which"; "whereis"; "type"] then Some ([], [], "", "")
  else if is_str program "du" then
    Some (["--human-readable"; "--summarize"; "--kilobytes"], ["--max-depth"], "hsk", "d")
  else if is_str program "df" then
    Some (["--human-readable"; "--portability"; "--kilobytes"], [], "hPk", "")
  else if is_str program "echo" then Some ([], [], "neE", "")
  else if is_str program "uname" then Some ([], [], "asnrvmopi", "")
  else if is_str program "sort" then Some (
    ["--ignore-leading-blanks"; "--dictionary-order"; "--ignore-case"; "--general-numeric-sort";
     "--numeric-sort"; "--reverse"; "--stable"; "--unique"],
    ["--key"; "--field-separator"; "--buffer-size"], "bdfgnrsu", "ktS")
  else if is_str program "cut" then Some (
    ["--complement"; "--only-delimited"; "--zero-terminated"],
    ["--bytes"; "--characters"; "--delimiter"; "--fields"], "sz", "bcdf")
  else if is_str program "jq" then Some (
    ["--raw-output"; "--compact-output"; "--exit-status"; "--slurp"; "--null-input";
     "--sort-keys"; "--monochrome-output"],
    ["--arg"; "--argjson"; "--slurpfile"; "--rawfile"], "rcesnSM", "")
  else None.

Definition read_only_grammar (program : rstr)
    : option (list string * list string * string * string) :=
  match search_grammar program with
  | Some grammar => Some grammar
  | None => text_grammar program
  end.

Definition is_known_read_only (tokens : list rstr) (program : rstr) : bool :=
  match read_only_grammar program with
  | Some (flag_options, value_options, short_flags, short_value_options) =>
      matches_closed_cli_grammar tokens 1 flag_options value_options
        short_flags short_value_options
  | None =>
      if is_str program "printf" then is_none_or (tokens !! 1) (λ token, negb (is_str token "-v"))
      else if one_of program ["true"; "false"] then length tokens =? 1
      else if is_str program "date" then is_read_only_date tokens
      else if is_str program "find" then is_read_only_find tokens
      else if is_str program "git" then is_read_only_git tokens
      else if one_of program ["pip"; "pip3"] then is_read_only_pip tokens
      else if is_str program "cargo" then
        is_some_and (tokens !! 1) (λ token, one_of token ["--version"; "-V"; "version"])
        && (length tokens =? 2)
      else false
  end.

(** ** Reads that run helpers *)

Definition is_git_worktree_read (tokens : list rstr) (program : rstr) : bool :=
  is_str program "git"
  && is_some_and (tokens !! 1)
       (λ subcommand, one_of (to_ascii_lowercase subcommand) ["status"; "diff"; "log"; "show"]).

Definition jq_words (lower : rstr) : list rstr :=
  split_at (λ c, negb (is_ascii_alphanumeric c) && negb (is_char "_" c)) lower.

Definition is_jq_environment_read (tokens : list rstr) (program : rstr) : bool :=
  is_str program "jq"
  && existsb (λ token,
         let lower := to_ascii_lowercase token in
         contains lower "$env" || existsb (λ word, is_str word "env") (jq_words lower))
       (drop 1 tokens).

Definition is_jq_module_load (tokens : list rstr) (program : rstr) : bool :=
  is_str program "jq"
  && existsb (λ token,
         existsb (λ word, one_of word ["include"; "import"; "module"])
           (jq_words (to_ascii_lowercase token)))
       (drop 1 tokens).
