(* ===== verification/CommandRisk.v ===== *)
(** * Risk classification

    [command/risk.rs]: the risk class of one invocation.  [classify_segment] is
    a cascade of tests, first match wins; it is split here where the source
    goes from operations that are refused, to reads that run helpers, to the
    classes of ordinary effects. *)

From S2P Require Import Prelude RustText RustPath CommandTypes ShellProgram CommandTargets.
From S2P Require Import CommandAllowlist.

(** ** System control *)

Definition is_pid_one (token : rstr) : bool :=
  let digits := default token (strip_prefix token "+") in
  negb (bool_decide (digits = []))
  && forallb is_ascii_digit digits
  && is_str (trim_start_matches digits (is_char "0")) "1".

Definition is_negative_pid_one (token : rstr) : bool :=
  is_some_and (strip_prefix token "-") is_pid_one.

(** [tokens.iter().skip(1).any(|token| matches!(token.as_str(), ..))] *)
Definition any_operand (tokens : list rstr) (lits : list string) : bool :=
  existsb (λ token, one_of token lits) (drop 1 tokens).
Arguments any_operand tokens lits%_string_scope.

(** The [systemctl] branch. *)
Definition is_catastrophic_systemctl (tokens : list rstr) : bool :=
  let lower := lower_tokens tokens in
  if any_operand lower
       ["reboot"; "poweroff"; "halt"; "kexec"; "soft-reboot"; "rescue"; "emergency"; "isolate"]
  then true
  else
    let direct_activation := any_operand lower
      ["start"; "restart"; "try-restart"; "reload-or-restart"; "try-reload-or-restart";
       "reload-or-try-restart"] in
    let enables_and_starts :=
      any_operand lower ["--now"] && any_operand lower ["enable"; "reenable"; "preset"; "link"] in
    let activates_target := direct_activation || enables_and_starts in
    if activates_target && existsb (λ token, contains_any token "*?[") (drop 1 lower) then true
    else activates_target
         && any_operand lower
              ["reboot.target"; "poweroff.target"; "halt.target"; "kexec.target";
               "soft-reboot.target"; "rescue.target"; "emergency.target"; "runlevel0.target";
               "runlevel6.target"; "ctrl-alt-del.target"].

Definition is_catastrophic_system_control (tokens : list rstr) (program : rstr) : bool :=
  if one_of program ["shutdown"; "reboot"; "halt"; "poweroff"] then true
  else if is_str program "systemctl" then is_catastrophic_systemctl tokens
  else if one_of program ["init"; "telinit"] then any_operand tokens ["0"; "6"]
  else if is_str program "launchctl"
          && is_some_and (tokens !! 1) (λ subcommand, eq_ignore_ascii_case subcommand "reboot")
  then true
  else
    is_str program "kill"
    && (existsb is_pid_one (drop 1 tokens)
        || (3 <=? length tokens) && existsb is_negative_pid_one (drop 1 tokens)).

(** ** Storage devices *)

Definition has_disk_mutation (tokens : list rstr) : bool :=
  existsb (λ token,
      one_of (to_ascii_lowercase token)
        ["erasedisk"; "erasevolume"; "partitiondisk"; "zerodisk"; "randomdisk"; "secureerase";
         "deletevolume"; "deletecontainer"])
    (drop 1 tokens).

Definition has_raw_device_output (tokens : list rstr) : bool :=
  existsb (λ token,
      is_some_and (strip_prefix (to_ascii_lowercase token) "of=") is_catastrophic_write_target)
    (drop 1 tokens).

Definition writes_raw_device (tokens : list rstr) (program : rstr) : bool :=
  if one_of program ["tee"; "truncate"] then existsb is_catastrophic_write_target (drop 1 tokens)
  else if one_of program ["cp"; "mv"] then is_some_and (last tokens) is_catastrophic_write_target
  else if is_str program "sort" then
    existsb is_catastrophic_write_target (sort_output_targets tokens)
  else if is_str program "find" then
    existsb is_catastrophic_write_target
      (option_value_targets tokens ["-fprint"; "-fprint0"; "-fprintf"; "-fls"])
  else false.

(** ** Recursive destruction *)

Definition is_find_delete (tokens : list rstr) (program : rstr) : bool :=
  is_str program "find" && existsb (λ token, is_str token "-delete") tokens.

Definition is_catastrophic_filesystem_operation (home : option path) (tokens : list rstr)
    (program : rstr) (cwd : option path) : bool :=
  let lower := lower_tokens tokens in
  if is_str program "rm" && has_recursive_flag lower then
    existsb (λ target, is_catastrophic_target home target cwd) (command_targets lower)
  else if one_of program ["chmod"; "chown"] && has_recursive_flag lower then
    existsb (λ target, is_catastrophic_target home target cwd) (command_targets lower)
  else if is_find_delete lower program then
    is_some_and (lower !! 1) (λ target, is_catastrophic_target home target cwd)
  else false.

Definition has_opaque_recursive_target (tokens : list rstr) (program : rstr) : bool :=
  if one_of program ["rm"; "chmod"; "chown"] && has_recursive_flag tokens then
    existsb is_opaque_destructive_target (command_targets tokens)
  else if is_find_delete tokens program then
    is_none_or (tokens !! 1)
      (λ target, starts_with target "-" || is_opaque_destructive_target target)
  else false.

Definition has_unsafe_recursive_symlink_traversal (tokens : list rstr) (program : rstr) : bool :=
  one_of program ["chmod"; "chown"]
  && has_recursive_flag tokens
  && existsb (λ token,
         one_of token ["-H"; "-L"; "--dereference"]
         || is_short_cluster token && any_after_first token (λ c, is_char "H" c || is_char "L" c))
       (drop 1 tokens).

(** ** Classes of ordinary commands *)

Definition is_unsupported_interactive (tokens : list rstr) (program : rstr) : bool :=
  one_of program ["vim"; "vi"; "nano"; "less"; "more"; "top"; "htop"; "watch"; "read"; "passwd"]
  || one_of program ["python"; "python3"; "node"] && (length tokens =? 1)
  || is_str program "ssh" && (length tokens <=? 2).

Definition is_package_management (tokens : list rstr) (program : rstr) : bool :=
  let lower := lower_tokens tokens in
  let subcommand := default [] (lower !! 1) in
  if one_of program ["pip"; "pip3"] then
    one_of subcommand ["install"; "uninstall"; "download"; "wheel"]
  else if one_of program ["python"; "python3"] then
    is_some_and (lower !! 1) (λ t, is_str t "-m")
    && is_some_and (lower !! 2) (λ t, is_str t "pip")
    && is_some_and (lower !! 3) (λ t, one_of t ["install"; "uninstall"; "download"; "wheel"])
  else if one_of program ["npm"; "pnpm"; "yarn"; "bun"] then
    one_of subcommand
      ["install"; "i"; "ci"; "add"; "remove"; "uninstall"; "update"; "upgrade"]
  else if is_str program "cargo" then one_of subcommand ["install"; "add"; "update"]
  else if is_str program "brew" then
    one_of subcommand ["install"; "uninstall"; "update"; "upgrade"; "reinstall"]
  else if is_str program "uv" then
    existsb (λ token, one_of token ["install"; "uninstall"; "add"; "remove"; "sync"]) lower
  else false.

Definition is_network_command (tokens : list rstr) (program : rstr) : bool :=
  if one_of program ["curl"; "wget"; "scp"; "rsync"; "ftp"; "sftp"; "ping"; "gh"] then true
  else if is_str program "ssh" then 2 <? length tokens
  else if one_of program ["pip"; "pip3"] then
    is_some_and (tokens !! 1) (λ subcommand,
      eq_ignore_ascii_case subcommand "index"
      || eq_ignore_ascii_case subcommand "list"
         && existsb (λ token, one_of token ["--outdated"; "--uptodate"]) (drop 2 tokens))
  else if is_str program "git" then
    is_some_and (tokens !! 1) (λ subcommand,
      one_of (to_ascii_lowercase subcommand) ["clone"; "fetch"; "pull"; "push"; "ls-remote"])
  else false.

Definition is_high_impact_command (tokens : list rstr) (program : rstr) : bool :=
  if one_of program
       ["rm"; "mv"; "cp"; "chmod"; "chown"; "ln"; "truncate"; "dd"; "kill"; "pkill"; "killall";
        "launchctl"]
  then true
  else if is_str program "find"
          && existsb (λ token, one_of token ["-delete"; "-exec"; "-execdir"]) tokens
  then true
  else if is_str program "git" then
    is_some_and (tokens !! 1) (λ subcommand,
      one_of (to_ascii_lowercase subcommand)
        ["reset"; "clean"; "checkout"; "restore"; "merge"; "rebase"])
  else if is_str program "diskutil" then
    negb (is_some_and (tokens !! 1) (λ subcommand,
      one_of (to_ascii_lowercase subcommand) ["list"; "info"]))
  else false.

Definition is_direct_write_command (tokens : list rstr) (program : rstr) : bool :=
  one_of program ["touch"; "mkdir"; "tee"]
  || is_str program "git" && negb (is_read_only_git tokens)
  || is_str program "sort" && bool_decide (is_Some (head (sort_output_targets tokens)))
  || is_str program "sort" && sort_uses_explicit_temp_storage tokens
  || is_str program "find"
     && existsb (λ token, one_of token ["-fprint"; "-fprint0"; "-fprintf"; "-fls"]) tokens
  || is_str program "sed"
     && existsb (λ token, is_str token "-i" || starts_with token "-i") tokens
  || is_str program "perl" && existsb (λ token, starts_with token "-pi") tokens.

Definition is_safe_workspace_task (tokens : list rstr) (program : rstr) : bool :=
  let subcommand := lower_subcommand tokens in
  if is_str program "cargo" then
    one_of subcommand ["test"; "check"; "build"; "clippy"]
    && matches_closed_cli_grammar tokens 2
         ["--all"; "--workspace"; "--release"; "--locked"; "--offline"; "--frozen";
          "--all-targets"; "--all-features"; "--no-default-features"; "--no-run";
          "--no-fail-fast"; "--doc"; "--lib"; "--bins"; "--tests"; "--benches"; "--examples";
          "--verbose"; "--quiet"]
         ["--package"; "--exclude"; "--features"; "--target"; "--jobs"; "--profile"; "--test";
          "--bin"; "--bench"; "--example"; "--message-format"; "--color"]
         "qv" "pj"
  else if one_of program ["npm"; "pnpm"; "yarn"; "bun"] then
    if one_of subcommand workspace_task_names then length tokens =? 2
    else
      is_str subcommand "run"
      && is_some_and (tokens !! 2)
           (λ script, one_of (to_ascii_lowercase script) workspace_task_names)
      && (length tokens =? 3)
  else
    is_str program "make"
    && one_of subcommand ["test"; "check"; "build"; "lint"; "typecheck"]
    && (length tokens =? 2).

(** ** The cascade *)

Definition classification : Type := CommandRiskClass * string * string.

(** Privilege escalation, power control, storage devices, recursive
    destruction: refused whoever asks. *)
Definition classify_catastrophic (home : option path) (tokens : list rstr) (program : rstr)
    (cwd : option path) : option classification :=
  if one_of program ["sudo"; "sudoedit"; "doas"; "su"; "pkexec"; "run0"] then
    Some (Catastrophic, "command.catastrophic.privilege_escalation",
          "run_command 永远不允许提权或切换系统用户。")
  else if is_catastrophic_system_control tokens program then
    Some (Catastrophic, "command.catastrophic.system_power",
          "run_command 永远不允许关闭、重启或破坏关键系统进程。")
  else if is_str program "mkfs"
          || starts_with program "mkfs."
          || is_str program "diskutil" && has_disk_mutation tokens
          || is_str program "dd" && has_raw_device_output tokens
          || writes_raw_device tokens program then
    Some (Catastrophic, "command.catastrophic.storage_device",
          "命令可能格式化、抹除或直接覆盖存储设备及系统控制接口。")
  else if is_catastrophic_filesystem_operation home tokens program cwd then
    Some (Catastrophic, "command.catastrophic.filesystem_root",
          "命令可能递归破坏根目录、系统目录或用户主目录。")
  else None.

(** Constructs that hide what will run. *)
Definition classify_unsupported (tokens : list rstr) (program : rstr) : option classification :=
  if has_opaque_recursive_target tokens program then
    Some (Unsupported, "command.unsupported.dynamic_destructive_target",
          "无法静态核验递归删除或权限变更命令的动态目标。")
  else if has_unsafe_recursive_symlink_traversal tokens program then
    Some (Unsupported, "command.unsupported.recursive_symlink_traversal",
          "递归 chmod/chown 的 symlink 跟随模式无法限制在已核验目录内。")
  else if is_unsupported_interactive tokens program then
    Some (Unsupported, "command.unsupported.interactive",
          "run_command 仅支持无需交互输入的命令。")
  else if one_of program ["eval"; "exec"] then
    Some (Unsupported, "command.unsupported.dynamic_execution",
          "无法静态核验动态拼接后执行的命令。")
  else if one_of program
            ["."; "source"; "xargs"; "nohup"; "time"; "timeout"; "nice"; "setsid"; "powershell";
             "powershell.exe"; "pwsh"] then
    Some (Unsupported, "command.unsupported.opaque_wrapper",
          "该命令包装器会隐藏、拆分或脱离无法静态核验的后续执行。")
  else if is_str program "find"
          && existsb (λ token, one_of token ["-exec"; "-execdir"; "-ok"; "-okdir"]) tokens then
    Some (Unsupported, "command.unsupported.find_exec",
          "无法可靠界定 find -exec/-ok 及其 dir 变体将执行的嵌套命令。")
  else if is_str program "rg"
          && existsb (λ token,
               one_of token ["--pre"; "--pre-glob"]
               || starts_with token "--pre=" || starts_with token "--pre-glob="
               || is_str token "--hostname-bin" || starts_with token "--hostname-bin="
               || is_str token "--search-zip"
               || is_short_cluster token && any_after_first token (is_char "z")) tokens then
    Some (Unsupported, "command.unsupported.rg_preprocessor",
          "ripgrep 的预处理器、hostname helper 或压缩搜索选项可启动外部程序。")
  else if is_str program "sort"
          && existsb (λ token,
               is_str token "--compress-program" || starts_with token "--compress-program=")
               tokens then
    Some (Unsupported, "command.unsupported.sort_compress_program",
          "sort --compress-program 可启动外部程序，无法作为只读命令自动核验。")
  else None.

(** Reads that may start a helper, and workspace tasks outside their grammar. *)
Definition classify_helper_read (tokens : list rstr) (program : rstr) : option classification :=
  if is_str program "git"
     && (is_some_and (tokens !! 1)
           (λ subcommand, one_of (to_ascii_lowercase subcommand) ["diff"; "log"; "show"])
         || existsb (λ token, one_of token ["--ext-diff"; "--textconv"]) tokens) then
    Some (Unknown, "command.risk.git_external_diff",
          "Git diff/log/show 的 external diff 或 textconv 配置可能启动外部程序，自动执行需要明确批准。")
  else if is_str program "file" && existsb (λ token, one_of token ["-C"; "--compile"]) tokens then
    Some (DirectWrite, "command.risk.file_compile", "file --compile 会生成 magic 数据库文件。")
  else if is_str program "file"
          && existsb (λ token, one_of token ["-S"; "--no-sandbox"; "-z"; "--uncompress"]) tokens
  then
    Some (Unknown, "command.risk.file_helper", "file 的解压或禁用沙箱模式不能作为自动只读操作核验。")
  else if is_git_worktree_read tokens program then
    Some (Unknown, "command.risk.git_workspace_hook",
          "Git 工作树读取可能触发 fsmonitor、external diff 或 textconv helper。")
  else if is_jq_environment_read tokens program then
    Some (Unknown, "command.risk.environment_read", "jq env/$ENV 会暴露进程环境中的敏感信息。")
  else if is_jq_module_load tokens program then
    Some (Unknown, "command.risk.jq_module_load",
          "jq include/import/module 可从搜索路径加载额外代码。")
  else if is_workspace_task tokens program
          && (has_workspace_task_boundary_override tokens program
              || negb (is_safe_workspace_task tokens program)) then
    Some (Unknown, "command.risk.workspace_task_grammar",
          "workspace 任务包含闭集语法之外的 runner、配置或任务定义参数。")
  else None.

Definition classify_effect (tokens : list rstr) (program : rstr) : classification :=
  if is_package_management tokens program then
    (PackageManagement, "command.risk.package_management", "命令会安装、删除或更新软件依赖。")
  else if is_network_command tokens program then
    (Network, "command.risk.network", "命令会访问网络或远程主机。")
  else if is_high_impact_command tokens program then
    (HighImpact, "command.risk.high_impact", "命令会删除、移动、覆盖或显著改变本地状态。")
  else if is_direct_write_command tokens program then
    (DirectWrite, "command.risk.direct_write", "命令会直接创建或修改文件。")
  else if is_safe_workspace_task tokens program then
    (SafeWorkspaceWrite, "command.risk.safe_workspace_write",
     "命令运行已明确允许的本地构建、检查或测试任务。")
  else if is_known_read_only tokens program then
    (ReadOnly, "command.risk.read_only", "命令只读取状态或向标准输出生成结果。")
  else (Unknown, "command.risk.unknown", "无法可靠判断该命令的副作用。").

Definition classify_segment (home : option path) (tokens : list rstr) (program : rstr)
    (cwd : option path) : classification :=
  match classify_catastrophic home tokens program cwd with
  | Some c => c
  | None =>
      match classify_unsupported tokens program with
      | Some c => c
      | None =>
          match classify_helper_read tokens program with
          | Some c => c
          | None => classify_effect tokens program
          end
      end
  end.
