(* ===== verification/Permissions.v ===== *)
(** * Permission ceilings

    [AgentPermissions::meet] of [protocol/session.rs]: the order on permissions,
    least authority first, and the meet as its greatest lower bound. *)

From S2P Require Import Prelude CommandTypes.

Definition meet_read (a b : AgentReadPermission) : AgentReadPermission :=
  match a, b with Read_All, Read_All => Read_All | _, _ => Read_WorkspaceOnly end.

Definition meet_write (a b : AgentWritePermission) : AgentWritePermission :=
  match a, b with
  | Write_All, Write_All => Write_All
  | Write_Denied, _ | _, Write_Denied => Write_Denied
  | _, _ => Write_WorkspaceOnly
  end.

Definition meet_command (a b : AgentCommandPermission) : AgentCommandPermission :=
  match a, b with
  | Command_AutoApprove, Command_AutoApprove => Command_AutoApprove
  | _, _ => Command_RequireApproval
  end.

Definition meet_safety (a b : AgentCommandSafetyPolicy) : AgentCommandSafetyPolicy :=
  match a, b with FullAccess, FullAccess => FullAccess | _, _ => Guarded end.

Definition meet_patch (a b : AgentPatchPermission) : AgentPatchPermission :=
  match a, b with
  | Patch_AutoApprove, Patch_AutoApprove => Patch_AutoApprove
  | _, _ => Patch_RequireApproval
  end.

Definition meet_builtin (a b : AgentBuiltinExecutionPermission)
    : AgentBuiltinExecutionPermission :=
  match a, b with
  | Builtin_AutoApprove, Builtin_AutoApprove => Builtin_AutoApprove
  | _, _ => Builtin_RequireApproval
  end.

(** [AgentPermissions::meet] *)
Definition meet (p ceiling : AgentPermissions) : AgentPermissions :=
  mkPermissions
    (meet_read (read p) (read ceiling))
    (meet_write (write p) (write ceiling))
    (meet_command (command p) (command ceiling))
    (meet_safety (command_safety p) (command_safety ceiling))
    (meet_patch (patch p) (patch ceiling))
    (meet_builtin (builtin_execution p) (builtin_execution ceiling)).

(** [AgentPermissions::default()]. *)
Definition default_permissions : AgentPermissions :=
  mkPermissions Read_WorkspaceOnly Write_Denied Command_RequireApproval Guarded
    Patch_RequireApproval Builtin_RequireApproval.

(** ** The order of authority *)

Definition read_rank (a : AgentReadPermission) : nat :=
  match a with Read_WorkspaceOnly => 0 | Read_All => 1 end.
Definition write_rank (a : AgentWritePermission) : nat :=
  match a with Write_Denied => 0 | Write_WorkspaceOnly => 1 | Write_All => 2 end.
Definition command_rank (a : AgentCommandPermission) : nat :=
  match a with Command_RequireApproval => 0 | Command_AutoApprove => 1 end.
Definition safety_rank (a : AgentCommandSafetyPolicy) : nat :=
  match a with Guarded => 0 | FullAccess => 1 end.
Definition patch_rank (a : AgentPatchPermission) : nat :=
  match a with Patch_RequireApproval => 0 | Patch_AutoApprove => 1 end.
Definition builtin_rank (a : AgentBuiltinExecutionPermission) : nat :=
  match a with Builtin_RequireApproval => 0 | Builtin_AutoApprove => 1 end.

(** [authority_le p q]: [p] grants nothing that [q] does not grant. *)
Record authority_le (p q : AgentPermissions) : Prop := {
  le_read : read_rank (read p) ≤ read_rank (read q);
  le_write : write_rank (write p) ≤ write_rank (write q);
  le_command : command_rank (command p) ≤ command_rank (command q);
  le_safety : safety_rank (command_safety p) ≤ safety_rank (command_safety q);
  le_patch : patch_rank (patch p) ≤ patch_rank (patch q);
  le_builtin : builtin_rank (builtin_execution p) ≤ builtin_rank (builtin_execution q);
}.

#[export] Instance authority_le_preorder : PreOrder authority_le.
Proof.
  split.
  - intros p. by split.
  - intros p q r [] []. split; lia.
Qed.

#[export] Instance authority_le_antisym : AntiSymm (=) authority_le.
Proof.
  intros [r w c s a b] [r' w' c' s' a' b'] [] []; simpl in *.
  f_equal; match goal with |- ?x = ?y => destruct x, y end; simpl in *; (reflexivity || lia).
Qed.

Section Components.
Local Ltac by_cases := repeat (intros []); simpl; lia.

Lemma meet_read_rank a b : read_rank (meet_read a b) = read_rank a `min` read_rank b.
Proof. revert a b. by_cases. Qed.
Lemma meet_write_rank a b : write_rank (meet_write a b) = write_rank a `min` write_rank b.
Proof. revert a b. by_cases. Qed.
Lemma meet_command_rank a b : command_rank (meet_command a b) = command_rank a `min` command_rank b.
Proof. revert a b. by_cases. Qed.
Lemma meet_safety_rank a b : safety_rank (meet_safety a b) = safety_rank a `min` safety_rank b.
Proof. revert a b. by_cases. Qed.
Lemma meet_patch_rank a b : patch_rank (meet_patch a b) = patch_rank a `min` patch_rank b.
Proof. revert a b. by_cases. Qed.
Lemma meet_builtin_rank a b : builtin_rank (meet_builtin a b) = builtin_rank a `min` builtin_rank b.
Proof. revert a b. by_cases. Qed.
End Components.

Create Rewrite HintDb meet_rank.
#[export] Hint Rewrite meet_read_rank meet_write_rank meet_command_rank meet_safety_rank
  meet_patch_rank meet_builtin_rank : meet_rank.

Lemma meet_le_iff p q r : authority_le r (meet p q) ↔ authority_le r p ∧ authority_le r q.
Proof.
  split.
  - intros [H1 H2 H3 H4 H5 H6]. simpl in *. autorewrite with meet_rank in *.
    split; split; lia.
  - intros [[] []]. split; simpl; autorewrite with meet_rank; lia.
Qed.

Lemma meet_le_l p q : authority_le (meet p q) p.
Proof. by apply (meet_le_iff p q). Qed.

Lemma default_least p : authority_le default_permissions p.
Proof. split; simpl; lia. Qed.

(** The meet of two permission ceilings is their greatest lower bound in the
    order of authority, component by component: it grants exactly what both
    grant, so it is commutative, associative and idempotent, and the default
    permissions, which grant least, absorb. *)
Theorem meet_greatest_lower_bound p q r :
  (authority_le r (meet p q) ↔ authority_le r p ∧ authority_le r q)
  ∧ meet p q = meet q p ∧ meet p (meet q r) = meet (meet p q) r ∧ meet p p = p
  ∧ meet p default_permissions = default_permissions.
Proof.
  split; [apply meet_le_iff|].
  assert (∀ a b, (∀ x, authority_le x a ↔ authority_le x b) → a = b) as Hext.
  { intros a b H. apply (anti_symm authority_le); by apply H. }
  split_and!; apply Hext; intros x; rewrite ?meet_le_iff; try tauto.
  split; [tauto|]. intros Hx. split; [|done]. etransitivity; [exact Hx|apply default_least].
Qed.
