(* ===== verification/CommandPolicy.v ===== *)
(** * Segment assessment and policy evaluation

    [command/segment.rs] and [command/policy.rs]: the findings of one segment,
    the recursive analysis of a command with its nested commands, and the
    decision taken from the findings. *)

From S2P Require Import Prelude RustText RustPath CommandTypes ShellLexer ShellProgram.
From S2P Require Import CommandTargets CommandAllowlist CommandRisk Permissions.

(** ** Findings ([segment.rs]) *)

Definition finding (segment_index : nat) (program : rstr) (risk : CommandRiskClass)
    (code reason : string) : CommandPolicyFinding :=
  mkFinding segment_index program risk code reason.
Arguments finding segment_index program risk (code reason)%_string_scope.

Definition is_explicit_program_path (program : rstr) : bool :=
  contains_any program "/\" || is_some_and (head program) (is_in ".~").

Definition has_environment_override (tokens : list rstr) (program_index : nat) : bool :=
  existsb (λ token, is_env_assignment token || is_str (program_basename token) "env")
    (take program_index tokens).

Definition has_dynamic_argument (argument : rstr) : bool := contains_any argument "$`".

Definition has_shell_path_expansion (argument : rstr) : bool :=
  starts_with argument "~" || contains_any argument "*?[]{}".

Definition is_shell_reserved_program (program : rstr) : bool :=
  one_of program
    ["!"; "{"; "}"; "if"; "then"; "elif"; "else"; "fi"; "for"; "while"; "until"; "do"; "done";
     "case"; "esac"; "select"; "function"; "coproc"; "[["; "]]"; "trap"; "alias"; "unalias";
     "declare"; "typeset"; "local"; "return"; "break"; "continue"].

Definition is_dynamic_program_name (program : rstr) : bool :=
  contains program "$" || contains program "`" || contains program "$()"
  || contains program "``" || contains_any program "*?[{}".

Definition has_obvious_external_read_argument (tokens : list rstr) (program : rstr) : bool :=
  if negb (one_of program
       ["ls"; "rg"; "grep"; "cat"; "head"; "tail"; "wc"; "stat"; "file"; "du"; "df"; "sort";
        "cut"; "jq"; "find"; "cargo"; "npm"; "pnpm"; "yarn"; "bun"; "make"; "pip"; "pip3"])
  then false
  else existsb (λ argument,
      if one_of program ["rg"; "grep"]
         && is_some_and (non_empty (strip_prefix argument "-f")) is_obvious_external_path
      then true
      else
        let attached := option ← strip_prefix argument "-"; snd <$> split_once option "=" in
        is_obvious_external_path (default argument attached))
    (drop 1 tokens).

Definition append_redirection_findings (segment : ShellSegment) (segment_index : nat)
    (program : rstr) (read_permission : AgentReadPermission)
    (findings : list CommandPolicyFinding) : list CommandPolicyFinding :=
  let findings :=
    if has_write_redirection segment then
      findings ++ [finding segment_index program DirectWrite "command.risk.write_redirection"
                     "命令使用 shell 输出重定向写入文件。"]
    else findings in
  foldl (λ findings redirection,
      let findings :=
        if is_network_redirection_target (target redirection) then
          findings ++ [finding segment_index program Network "command.risk.network_redirection"
                         "shell /dev/tcp 或 /dev/udp 输入重定向会访问网络。"]
        else findings in
      let findings :=
        if bool_decide (read_permission = Read_WorkspaceOnly)
           && is_obvious_external_path (target redirection) then
          findings ++ [finding segment_index program ExternalRead
                         "command.scope.external_input_redirection"
                         "read=workspace_only 下，shell 输入重定向读取了 workspace 外的路径。"]
        else findings in
      if dynamic redirection then
        findings ++ [finding segment_index program Unknown
                       "command.risk.dynamic_input_redirection"
                       "无法静态核验动态展开的 shell 输入重定向目标。"]
      else findings)
    findings (input_redirections segment).

Definition append_shell_script_finding (script : option rstr) (segment_index : nat)
    (program : rstr) (findings : list CommandPolicyFinding) : list CommandPolicyFinding :=
  match script with
  | None => findings
  | Some script =>
      findings ++
        [if is_opaque_shell_script_path script then
           finding segment_index program Unsupported "command.unsupported.dynamic_shell_script"
             "无法静态核验动态生成的 shell 脚本路径。"
         else
           finding segment_index program Unknown "command.risk.shell_script"
             "shell 脚本属于不透明代码；自动执行需要明确批准。"]
  end.

(** The words of the executable chain. *)
Definition chain_tokens (segment : ShellSegment) (ep : EffectiveProgram) : list rstr :=
  omap (λ i, tokens segment !! i) (executable_indices ep).

Definition append_invocation_provenance_findings (segment : ShellSegment) (segment_index : nat)
    (ep : EffectiveProgram) (program : rstr) (findings : list CommandPolicyFinding)
    : list CommandPolicyFinding :=
  let findings :=
    if existsb is_explicit_program_path (chain_tokens segment ep) then
      findings ++ [finding segment_index program Unknown "command.risk.explicit_program_path"
                     "显式可执行文件或命令 wrapper 路径不能仅凭 basename 获得自动执行权限。"]
    else findings in
  let findings :=
    if has_environment_override (tokens segment) (program_index ep) then
      findings ++ [finding segment_index program Unknown "command.risk.environment_override"
                     "命令覆盖或清除了执行环境；自动执行需要明确批准。"]
    else findings in
  let findings :=
    if existsb has_dynamic_argument (drop (program_index ep + 1) (tokens segment)) then
      findings ++ [finding segment_index program Unknown "command.risk.dynamic_argument"
                     "命令参数包含环境展开或命令替换，无法按静态字面值自动授权。"]
    else findings in
  if existsb has_shell_path_expansion (drop (program_index ep + 1) (tokens segment)) then
    findings ++ [finding segment_index program Unknown "command.risk.shell_path_expansion"
                   "命令参数包含 shell glob、brace 或 home 展开，静态路径范围无法完整核验。"]
  else findings.

(** *** [env -S] *)

Definition missing_program {A} : result CommandSyntaxError A :=
  syntax_error "command.malformed.missing_program" "复合命令包含缺少程序名的片段。".

(** The option loop after [env]: a command to split, or how far the index moves. *)
Fixpoint env_split_options (rest : list rstr) : result CommandSyntaxError (rstr + nat) :=
  match rest with
  | [] => Ok (inr 0)
  | option :: rest =>
      if one_of option ["-S"; "--split-string"] then
        match rest with
        | command :: _ => Ok (inl command)
        | [] => syntax_error "command.malformed.env_split_missing" "env -S 缺少待拆分执行的命令。"
        end
      else match non_empty (strip_prefix option "-S") with
      | Some command => Ok (inl command)
      | None =>
          match strip_prefix option "--split-string=" with
          | Some command =>
              if bool_decide (trim command = []) then
                syntax_error "command.malformed.env_split_missing"
                  "env --split-string 缺少待拆分执行的命令。"
              else Ok (inl command)
          | None =>
              if one_of option ["-u"; "--unset"; "-C"; "--chdir"] then
                match rest with
                | [] => Ok (inr 2)
                | _ :: rest =>
                    next ← env_split_options rest;
                    Ok (match next with inl c => inl c | inr n => inr (2 + n) end)
                end
              else if is_option option || is_env_assignment option then
                next ← env_split_options rest;
                Ok (match next with inl c => inl c | inr n => inr (1 + n) end)
              else Ok (inr 0)
          end
      end
  end.

(** The wrapper loop; as for [unwrap_program] every pass moves the index, and
    the fuel is enough ([env_split_from_fuel]). *)
Fixpoint env_split_from (fuel : nat) (tokens : list rstr) (index : nat)
    : result CommandSyntaxError (option rstr) :=
  match fuel with
  | O => missing_program
  | S fuel =>
      match tokens !! index with
      | None => missing_program
      | Some token =>
          let continue_at (index : nat) :=
            if length tokens <=? index then Ok None else env_split_from fuel tokens index in
          let program := program_basename token in
          if is_str program "env" then
            next ← env_split_options (drop (index + 1) tokens);
            match next with
            | inl command => Ok (Some command)
            | inr n => continue_at (index + 1 + n)
            end
          else if is_str program "busybox" then
            if is_some_and (tokens !! (index + 1)) is_option then Ok None
            else continue_at (index + 1)
          else if one_of program ["command"; "builtin"] then
            continue_at (index + 1 + length (take_while is_option (drop (index + 1) tokens)))
          else Ok None
      end
  end.

Definition env_split_command (tokens : list rstr) : result CommandSyntaxError (option rstr) :=
  env_split_from (S (length tokens)) tokens (length (take_while is_env_assignment tokens)).

(** *** One segment *)

Definition shift_findings (offset : nat) (nested : list CommandPolicyFinding)
    : list CommandPolicyFinding :=
  map (λ f, finding (segment_index f + offset) (program f) (risk f) (code f) (reason f)) nested.

Section Assess.
(** [analyze] is [analyze_command] one nesting level deeper. *)
Context (home : option path) (read_permission : AgentReadPermission) (cwd : option path)
  (analyze : rstr → result CommandSyntaxError (list CommandPolicyFinding)).

Definition assess_env_split (segment : ShellSegment) (index : nat) (split_command : rstr)
    (findings : list CommandPolicyFinding)
    : result CommandSyntaxError (list CommandPolicyFinding) :=
  match effective_program (tokens segment) with
  | None => missing_program
  | Some ep =>
      if existsb is_dynamic_program_name (chain_tokens segment ep) then
        Ok (findings ++ [finding index (rs "env") Unsupported
                           "command.unsupported.dynamic_program"
                           "无法静态核验动态生成的 env wrapper 链。"])
      else
        let findings :=
          if existsb is_explicit_program_path (chain_tokens segment ep) then
            findings ++ [finding index (rs "env") Unknown
                           "command.risk.explicit_program_path"
                           "显式 env wrapper 路径不能仅凭 basename 获得自动执行权限。"]
          else findings in
        let offset := length findings in
        nested ← analyze split_command;
        let findings := findings ++ shift_findings offset nested in
        let findings :=
          findings ++ [finding index (rs "env") Unknown "command.risk.environment_override"
                         "env split-string 会改变命令解析或执行环境，自动执行需要明确批准。"] in
        Ok (append_redirection_findings segment index (rs "env") read_permission findings)
  end.

(** A shell with [-c]. *)
Definition assess_shell_command (segment : ShellSegment) (index : nat) (words : list rstr)
    (program : rstr) (command_index : nat) (findings : list CommandPolicyFinding)
    : result CommandSyntaxError (list CommandPolicyFinding) :=
  if existsb shell_option_is_interactive (options_before words command_index) then
    Ok (findings ++ [finding index program Unsupported "command.unsupported.interactive"
                       "run_command 仅支持无需交互输入的命令。"])
  else
    let findings :=
      if shell_loads_startup_code words command_index then
        findings ++ [finding index program Unknown "command.risk.shell_startup_code"
                       "shell login/rc/init 选项可能在 -c 命令前加载额外代码。"]
      else findings in
    let findings :=
      if one_of program ["zsh"; "fish"] then
        findings ++ [finding index program Unknown "command.risk.shell_default_startup"
                       "该 shell 即使使用 -c 也可能默认加载用户启动文件；自动执行需要明确批准。"]
      else findings in
    let findings :=
      if negb (shell_command_options_are_closed words command_index program) then
        findings ++ [finding index program Unknown "command.risk.shell_option_grammar"
                       "shell -c 使用了自动授权闭集之外的启动或解析选项。"]
      else findings in
    match words !! command_index with
    | None =>
        syntax_error "command.malformed.shell_command_missing"
          "shell -c 缺少待执行的命令字符串。"
    | Some nested_command =>
        let offset := length findings in
        nested ← analyze nested_command;
        let findings := findings ++ shift_findings offset nested in
        let findings :=
          if is_str program "fish"
             && is_some_and (words !! (command_index - 1)) (λ option, is_str option "-C") then
            append_shell_script_finding (words !! (command_index + 1)) index program findings
          else findings in
        Ok (append_redirection_findings segment index program read_permission findings)
    end.

Definition assess_shell (segment : ShellSegment) (index : nat) (words : list rstr)
    (program : rstr) (findings : list CommandPolicyFinding)
    : result CommandSyntaxError (list CommandPolicyFinding) :=
  match shell_command_argument_index words with
  | Some command_index =>
      assess_shell_command segment index words program command_index findings
  | None =>
      match shell_script_argument words with
      | Some script =>
          let findings := append_shell_script_finding (Some script) index program findings in
          Ok (append_redirection_findings segment index program read_permission findings)
      | None =>
          Ok (findings ++ [finding index program Unsupported "command.unsupported.opaque_shell"
                             "run_command 不执行无法静态核验内容的交互式 shell 或 shell 脚本。"])
      end
  end.

Definition assess_program (segment : ShellSegment) (index : nat) (words : list rstr)
    (program : rstr) (findings : list CommandPolicyFinding) : list CommandPolicyFinding :=
  let '(risk, code, reason) := classify_segment home words program cwd in
  let findings := findings ++ [finding index program risk code reason] in
  let findings :=
    if (bool_decide (risk = ReadOnly) || bool_decide (risk = SafeWorkspaceWrite))
       && bool_decide (read_permission = Read_WorkspaceOnly)
       && has_obvious_external_read_argument words program then
      findings ++ [finding index program ExternalRead "command.scope.external_read"
                     "read=workspace_only 下，命令读取了明显位于 workspace 外的路径。"]
    else findings in
  append_redirection_findings segment index program read_permission findings.

Definition assess_segment (segment : ShellSegment) (index : nat)
    (findings : list CommandPolicyFinding)
    : result CommandSyntaxError (list CommandPolicyFinding) :=
  split_command ← env_split_command (tokens segment);
  match split_command with
  | Some split_command => assess_env_split segment index split_command findings
  | None =>
  match effective_program (tokens segment) with
  | None => missing_program
  | Some ep =>
      let words := drop (program_index ep) (tokens segment) in
      let program := program_basename (default [] (head words)) in
      if has_heredoc segment && is_shell_program program then
        Ok (findings ++ [finding index program Unsupported "command.unsupported.shell_heredoc"
                           "shell 解释器会把 heredoc 正文作为脚本执行，当前安全分析器拒绝这种组合。"])
      else if has_heredoc segment && one_of program ["python"; "python3"; "node"] then
        let findings :=
          findings ++ [finding index program Unknown "command.risk.heredoc_interpreter"
                         "解释器将执行 quoted heredoc 中的不透明代码；自动执行需要明确批准。"] in
        Ok (append_redirection_findings segment index program read_permission findings)
      else if is_shell_reserved_program program then
        Ok (findings ++ [finding index program Unsupported
                           "command.unsupported.shell_reserved_syntax"
                           "当前安全分析器不支持 shell 保留字、函数或分组语法。"])
      else if existsb is_dynamic_program_name (chain_tokens segment ep) then
        Ok (findings ++ [finding index program Unsupported
                           "command.unsupported.dynamic_program"
                           "无法静态核验动态生成的可执行程序或命令 wrapper。"])
      else
        let findings := append_invocation_provenance_findings segment index ep program findings in
        if is_shell_program program then assess_shell segment index words program findings
        else Ok (assess_program segment index words program findings)
  end
  end.

(** [for (segment_index, segment) in lexed.segments.iter().enumerate() { assess_segment(..)?; }] *)
Fixpoint assess_segments (segments : list ShellSegment) (index : nat)
    (findings : list CommandPolicyFinding)
    : result CommandSyntaxError (list CommandPolicyFinding) :=
  match segments with
  | [] => Ok findings
  | segment :: segments =>
      findings ← assess_segment segment index findings;
      assess_segments segments (S index) findings
  end.

(** [for embedded in lexed.embedded_commands { .. }] *)
Fixpoint assess_embedded (embedded : list rstr) (findings : list CommandPolicyFinding)
    : result CommandSyntaxError (list CommandPolicyFinding) :=
  match embedded with
  | [] => Ok findings
  | command :: embedded =>
      let offset := length findings in
      nested ← analyze command;
      assess_embedded embedded (findings ++ shift_findings offset nested)
  end.
End Assess.

(** ** Analysis of a command ([policy.rs]) *)

Definition MAX_POLICY_NESTING : nat := 8.
Definition MAX_COMMAND_CHARS : N := 16000.

Definition normalize_command_text (command : rstr) : result CommandSyntaxError rstr :=
  let normalized :=
    replace_char carriage_return (rs (String newline EmptyString))
      (replace_pair carriage_return newline (rs (String newline EmptyString)) command) in
  if bool_decide (trim normalized = []) then
    syntax_error "command.malformed.empty" "命令不能为空。"
  else if (MAX_COMMAND_CHARS <? N.of_nat (length normalized))%N then
    syntax_error "command.malformed.too_long" "命令超过允许的长度上限。"
  else if existsb (is_char nul) normalized then
    syntax_error "command.malformed.nul" "命令不能包含空字符。"
  else Ok normalized.

(** The local variables of [validate_write_redirection_targets]. *)
Record ScanState := mkScan {
  scan_index : nat;
  scan_quote : option char;
  scan_escaped : bool;
}.

(** What follows a [>]: a descriptor duplication, or a checked target. *)
Definition validate_redirection (chars : rstr) (index : nat)
    : result CommandSyntaxError nat :=
  let index := index + 1 in
  let index := if is_at ">" (chars !! index) then index + 1 else index in
  let check_target (index : nat) :=
    let index := skip_while is_whitespace chars index in
    '(target, dynamic, next) ← read_redirection_target chars index;
    if (dynamic : bool) then
      syntax_error "command.unsupported.dynamic_redirection_target"
        "无法静态核验动态生成的 shell 重定向目标。"
    else if is_catastrophic_write_target target then
      syntax_error "command.catastrophic.storage_device"
        "命令可能通过 shell 重定向直接覆盖存储设备。"
    else Ok next in
  if is_at "&" (chars !! index) then
    let target_start := index + 1 in
    match consume_fd_duplication chars target_start with
    | Some next => Ok next
    | None => check_target target_start
    end
  else check_target index.

Definition range_contains (index : nat) (r : range) : bool :=
  (fst r <=? index) && (index <? snd r).

Definition validate_step (chars : rstr) (ignored_ranges : list range) (st : ScanState)
    : result CommandSyntaxError ScanState :=
  let '(mkScan index quote escaped) := st in
  match List.find (range_contains index) ignored_ranges with
  | Some r => Ok (mkScan (snd r) quote escaped)
  | None =>
      match chars !! index with
      | None => Ok st
      | Some character =>
          if escaped then Ok (mkScan (index + 1) quote false)
          else if is_char "\" character && negb (is_at squote quote) then
            Ok (mkScan (index + 1) quote true)
          else match quote with
          | Some active_quote =>
              Ok (mkScan (index + 1) (if N.eqb character active_quote then None else quote) false)
          | None =>
              if is_char squote character || is_char dquote character then
                Ok (mkScan (index + 1) (Some character) false)
              else if negb (is_char ">" character) then Ok (mkScan (index + 1) quote false)
              else next ← validate_redirection chars index; Ok (mkScan next quote false)
          end
      end
  end.

Definition validate_write_redirection_targets (chars : rstr) (ignored_ranges : list range)
    : result CommandSyntaxError ScanState :=
  while_loop (λ st, length chars - scan_index st) (λ st, scan_index st <? length chars)
    (validate_step chars ignored_ranges) (mkScan 0 None false).

(** [analyze_command(command, read, cwd, depth)] with
    [remaining = MAX_POLICY_NESTING + 1 - depth]: the source refuses a depth
    above the limit, which is [remaining = 0], so the recursion needs no fuel. *)
Fixpoint analyze_at (home : option path) (read_permission : AgentReadPermission)
    (cwd : option path) (remaining : nat) (command : rstr)
    : result CommandSyntaxError (list CommandPolicyFinding) :=
  match remaining with
  | O => syntax_error "command.unsupported.nesting_limit" "命令的嵌套层级超过安全分析上限。"
  | S remaining =>
      let analyze := analyze_at home read_permission cwd remaining in
      command ← normalize_command_text command;
      lexed ← lex_command command;
      _ ← validate_write_redirection_targets command (ignored_policy_ranges lexed);
      findings ← assess_segments home read_permission cwd analyze (segments lexed) 0 [];
      assess_embedded analyze (embedded_commands lexed) findings
  end.

Definition analyze_command (home : option path) (command : rstr)
    (read_permission : AgentReadPermission) (cwd : option path) (depth : nat)
    : result CommandSyntaxError (list CommandPolicyFinding) :=
  analyze_at home read_permission cwd (MAX_POLICY_NESTING + 1 - depth) command.

(** ** The decision *)

Definition level_of_risk (risk : CommandRiskClass) : AgentCommandRiskLevel :=
  match risk with
  | Catastrophic | HighImpact => Level_Destructive
  | PackageManagement | Network => Level_Network
  | DirectWrite | SafeWorkspaceWrite => Level_WritesWorkspace
  | ReadOnly => Level_ReadOnly
  | Unknown | Unsupported | ExternalRead => Level_Unknown
  end.

Definition level_rank (level : AgentCommandRiskLevel) : nat :=
  match level with
  | Level_ReadOnly => 0
  | Level_WritesWorkspace => 1
  | Level_Unknown => 2
  | Level_Network => 3
  | Level_Destructive => 4
  end.

(** [max_by_key]: the last of the elements with the greatest key. *)
Definition max_level (a b : AgentCommandRiskLevel) : AgentCommandRiskLevel :=
  if level_rank a <=? level_rank b then b else a.

Definition aggregate_risk_level (findings : list CommandPolicyFinding) : AgentCommandRiskLevel :=
  match map (λ f, level_of_risk (risk f)) findings with
  | [] => Level_Unknown
  | level :: levels => foldl max_level level levels
  end.

Definition requires_explicit_approval (risk : CommandRiskClass) : bool :=
  match risk with
  | DirectWrite | Network | PackageManagement | HighImpact | Unknown | ExternalRead => true
  | _ => false
  end.

(** [matches!(finding.risk, Catastrophic | Unsupported)] *)
Definition is_always_denied (risk : CommandRiskClass) : bool :=
  match risk with Catastrophic | Unsupported => true | _ => false end.

Definition evaluate_command_policy_at (home : option path) (command : rstr)
    (permissions : AgentPermissions) (authorization_source : CommandAuthorizationSource)
    (workspace_root cwd : option path) : CommandPolicyEvaluation :=
  match analyze_command home command (read permissions) cwd 0 with
  | Err error =>
      mkEvaluation Deny (error_code error) (error_reason error) Level_Unknown
        [mkFinding 0 [] Unsupported (error_code error) (error_reason error)]
  | Ok findings =>
      let findings :=
        if bool_decide (read permissions = Read_WorkspaceOnly)
           && is_some_and cwd (λ cwd,
                is_none_or workspace_root (λ root, negb (path_starts_with cwd root))) then
          findings ++ [finding 0 (rs "<cwd>") ExternalRead "command.scope.external_cwd"
                         "read=workspace_only 下，命令工作目录位于 workspace 外。"]
        else findings in
      let risk_level := aggregate_risk_level findings in
      match List.find (λ f, is_always_denied (risk f)) findings with
      | Some f => mkEvaluation Deny (code f) (reason f) risk_level findings
      | None =>
          let guarded_automatic :=
            bool_decide (command_safety permissions = Guarded)
            && bool_decide (authorization_source = Automatic) in
          let approval_findings :=
            List.filter (λ f, requires_explicit_approval (risk f)) findings in
          if guarded_automatic && negb (bool_decide (length approval_findings = 0)) then
            mkEvaluation RequireExplicitApproval "command.explicit_approval_required"
              (String.concat "；" (map reason approval_findings)) risk_level findings
          else mkEvaluation Allow "command.allowed" "命令符合当前授权策略。" risk_level findings
      end
  end.

Definition evaluate_command_policy (home : option path) (command : rstr)
    (safety_policy : AgentCommandSafetyPolicy) (authorization_source : CommandAuthorizationSource)
    : CommandPolicyEvaluation :=
  evaluate_command_policy_at home command
    (mkPermissions Read_All (write default_permissions) (CommandTypes.command default_permissions)
       safety_policy (patch default_permissions) (builtin_execution default_permissions))
    authorization_source None None.

Definition evaluate_command_policy_with_permissions (home : option path) (command : rstr)
    (permissions : AgentPermissions) (authorization_source : CommandAuthorizationSource)
    : CommandPolicyEvaluation :=
  evaluate_command_policy_at home command permissions authorization_source None None.

Definition evaluate_command_policy_with_context (home : option path) (command : rstr)
    (permissions : AgentPermissions) (authorization_source : CommandAuthorizationSource)
    (workspace_root cwd : option path) : CommandPolicyEvaluation :=
  evaluate_command_policy_at home command permissions authorization_source workspace_root cwd.

Definition classify_command_risk (home : option path) (command : rstr) : AgentCommandRiskLevel :=
  risk_level (evaluate_command_policy home command FullAccess Automatic).
