(* ===== verification/CommandPolicyFacts.v ===== *)
(** * Facts about segment assessment

    Assessment only ever appends findings, appends at least one per segment,
    and depends on the read scope and on the nesting depth in one direction
    only.  [CommandSafety.v] draws the consequences for the decision. *)

From S2P Require Import Prelude RustText RustPath CommandTypes ShellLexer ShellLexerFacts.
From S2P Require Import ShellProgram CommandTargets CommandAllowlist CommandRisk CommandPolicy.

(** ** The fuel of [env_split_from]

    Every pass of the wrapper loop moves the index, so fuel above the number of
    remaining words is never used up. *)

Lemma env_split_from_fuel n m tokens index :
  length tokens - index < n → length tokens - index < m →
  env_split_from n tokens index = env_split_from m tokens index.
Proof.
  revert m index. induction n as [|n IH]; intros [|m] index Hn Hm; [lia..|].
  cbn [env_split_from].
  destruct (tokens !! index) as [token|] eqn:Ht; [|done].
  apply lookup_lt_Some in Ht.
  assert (∀ next, index < next →
    (if length tokens <=? next then Ok None else env_split_from n tokens next)
    = (if length tokens <=? next then Ok None else env_split_from m tokens next)) as Hnext.
  { intros next ?. destruct (Nat.leb_spec (length tokens) next); [done|]. apply IH; lia. }
  destruct (is_str (program_basename token) "env").
  { destruct (env_split_options _) as [[command|k]|e]; [done| |done].
    apply Hnext. lia. }
  destruct (is_str (program_basename token) "busybox").
  { destruct (is_some_and (tokens !! (index + 1)) is_option); [done|]. apply Hnext. lia. }
  destruct (one_of (program_basename token) ["command"; "builtin"]); [apply Hnext; lia|done].
Qed.

(** ** Findings are only appended *)

Create HintDb policy.

(** Peels the conditional appends of a chain of [let findings := ..]. *)
Ltac prefix_chain :=
  repeat first
    [ done
    | match goal with
      | |- _ `prefix_of` (if _ then _ else _) => case_match
      | |- _ `prefix_of` _ ++ _ => apply prefix_app_r
      end ].

Lemma redirection_findings_prefix segment index program read findings :
  findings `prefix_of` append_redirection_findings segment index program read findings.
Proof.
  unfold append_redirection_findings. cbv zeta.
  set (first := if has_write_redirection segment then _ else _).
  assert (findings `prefix_of` first) as H by (subst first; prefix_chain).
  clearbody first. revert first H.
  induction (input_redirections segment) as [|r rs IH]; intros first H; simpl; [done|].
  apply IH. prefix_chain.
Qed.

Lemma script_finding_prefix script index program findings :
  findings `prefix_of` append_shell_script_finding script index program findings.
Proof. unfold append_shell_script_finding. destruct script; eauto with policy captain. Qed.

Lemma provenance_findings_prefix segment index ep program findings :
  findings `prefix_of` append_invocation_provenance_findings segment index ep program findings.
Proof. unfold append_invocation_provenance_findings. cbv zeta. prefix_chain. Qed.

Lemma prefix_length_lt {A} (l l' l'' : list A) x :
  l `prefix_of` l' → l' ++ [x] `prefix_of` l'' → length l < length l''.
Proof.
  intros H1%prefix_length H2%prefix_length. rewrite length_app in H2. simpl in H2. lia.
Qed.

(** The risk classes that occur in a list of findings. *)
Definition risks (findings : list CommandPolicyFinding) : list CommandRiskClass :=
  map risk findings.

Lemma risks_app l l' : risks (l ++ l') = risks l ++ risks l'.
Proof. apply map_app. Qed.

Lemma risks_shift offset l : risks (shift_findings offset l) = risks l.
Proof. unfold risks, shift_findings. rewrite map_map. apply map_ext. done. Qed.

Lemma length_shift offset l : length (shift_findings offset l) = length l.
Proof. apply length_map. Qed.

Lemma risks_prefix l l' r : l `prefix_of` l' → r ∈ risks l → r ∈ risks l'.
Proof. intros [k ->]. rewrite risks_app. set_solver. Qed.

Section Grow.
Context (home : option path) (read : AgentReadPermission) (cwd : option path)
  (analyze : rstr → result CommandSyntaxError (list CommandPolicyFinding)).
Hypothesis analyze_judges : ∀ c f, analyze c = Ok f → 0 < length f.

Definition grows (findings findings' : list CommandPolicyFinding) : Prop :=
  findings `prefix_of` findings' ∧ length findings < length findings'.

Lemma grows_snoc f x : grows f (f ++ [x]).
Proof. split; [apply prefix_snoc|]. rewrite length_app. simpl. lia. Qed.

Lemma grows_prefix f f' f'' : grows f f' → f' `prefix_of` f'' → grows f f''.
Proof.
  intros [H1 H2] H3. split; [by transitivity f'|]. apply prefix_length in H3. lia.
Qed.

Lemma prefix_grows f f' f'' : f `prefix_of` f' → grows f' f'' → grows f f''.
Proof.
  intros H3 [H1 H2]. split; [by transitivity f'|]. apply prefix_length in H3. lia.
Qed.

Lemma grows_nested f offset c nested :
  analyze c = Ok nested → grows f (f ++ shift_findings offset nested).
Proof using analyze_judges.
  intros H%analyze_judges. split; [by apply prefix_app_r|].
  rewrite length_app, length_shift. lia.
Qed.

Lemma assess_env_split_grows segment index split findings findings' :
  assess_env_split read analyze segment index split findings = Ok findings' →
  grows findings findings'.
Proof using analyze_judges.
  unfold assess_env_split. destruct (effective_program _) as [ep|]; [|done].
  destruct (existsb is_dynamic_program_name _); [intros [= <-]; apply grows_snoc|].
  cbv zeta. set (first := if existsb _ _ then _ else findings).
  assert (findings `prefix_of` first) as Hf by (subst first; prefix_chain).
  clearbody first. intros H. inv_bind H. injection H as <-.
  apply (prefix_grows _ _ _ Hf).
  eapply grows_prefix; [exact (grows_nested first (length first) _ _ E)|].
  etransitivity; [apply prefix_snoc|apply redirection_findings_prefix].
Qed.

Lemma assess_shell_command_grows segment index words program i findings findings' :
  assess_shell_command read analyze segment index words program i findings = Ok findings' →
  grows findings findings'.
Proof using analyze_judges.
  unfold assess_shell_command.
  destruct (existsb shell_option_is_interactive _); [intros [= <-]; apply grows_snoc|].
  cbv zeta. set (first := if negb _ then _ else _).
  assert (findings `prefix_of` first) as Hf by (subst first; prefix_chain).
  clearbody first. destruct (words !! i) as [c|]; [|done].
  intros H. inv_bind H. injection H as <-.
  apply (prefix_grows _ _ _ Hf).
  eapply grows_prefix; [exact (grows_nested first (length first) _ _ E)|].
  etransitivity; [|apply redirection_findings_prefix].
  apply prefix_if, script_finding_prefix.
Qed.

Lemma script_finding_grows script index program findings :
  grows findings (append_shell_script_finding (Some script) index program findings).
Proof. apply grows_snoc. Qed.

Lemma assess_shell_grows segment index words program findings findings' :
  assess_shell read analyze segment index words program findings = Ok findings' →
  grows findings findings'.
Proof using analyze_judges.
  unfold assess_shell. destruct (shell_command_argument_index words).
  - apply assess_shell_command_grows.
  - destruct (shell_script_argument words).
    + intros [= <-]. eapply grows_prefix;
        [apply script_finding_grows|apply redirection_findings_prefix].
    + intros [= <-]. apply grows_snoc.
Qed.

Lemma assess_program_grows segment index words program findings :
  grows findings (assess_program home read cwd segment index words program findings).
Proof.
  unfold assess_program. destruct (classify_segment _ _ _ _) as [[r c] s].
  eapply grows_prefix; [apply grows_snoc|].
  etransitivity; [|apply redirection_findings_prefix]. apply prefix_if, prefix_snoc.
Qed.

Lemma assess_segment_grows segment index findings findings' :
  assess_segment home read cwd analyze segment index findings = Ok findings' →
  grows findings findings'.
Proof using analyze_judges.
  unfold assess_segment. intros H. inv_bind H. destruct r as [split|].
  { by eapply assess_env_split_grows. }
  destruct (effective_program _) as [ep|]; [|done]. cbv zeta in H. revert H.
  destruct (_ && is_shell_program _); [intros [= <-]; apply grows_snoc|].
  destruct (_ && one_of _ _).
  { intros [= <-]. eapply grows_prefix; [apply grows_snoc|apply redirection_findings_prefix]. }
  destruct (is_shell_reserved_program _); [intros [= <-]; apply grows_snoc|].
  destruct (existsb is_dynamic_program_name _); [intros [= <-]; apply grows_snoc|].
  destruct (is_shell_program _).
  - intros H. eapply prefix_grows; [apply provenance_findings_prefix|].
    by eapply assess_shell_grows.
  - intros [= <-]. eapply prefix_grows; [apply provenance_findings_prefix|].
    apply assess_program_grows.
Qed.

Lemma assess_segments_grow segments index findings findings' :
  assess_segments home read cwd analyze segments index findings = Ok findings' →
  findings `prefix_of` findings' ∧ length findings + length segments ≤ length findings'.
Proof using analyze_judges.
  revert index findings. induction segments as [|s ss IH]; intros index findings; simpl.
  - intros [= <-]. split; [done|lia].
  - intros H. inv_bind H. apply IH in H as [H1 H2].
    apply assess_segment_grows in E as [H3 H4]. split; [by transitivity r|lia].
Qed.

Lemma assess_embedded_grow embedded findings findings' :
  assess_embedded analyze embedded findings = Ok findings' → findings `prefix_of` findings'.
Proof.
  revert findings. induction embedded as [|c cs IH]; intros findings; simpl.
  - by intros [= <-].
  - intros H. inv_bind H. apply IH in H. etransitivity; [|exact H]. by apply prefix_app_r.
Qed.
End Grow.

(** An analysed command was lexed, and every segment of it was judged. *)
Lemma analyze_at_judges home read cwd n command findings :
  analyze_at home read cwd n command = Ok findings →
  ∃ text lexed, normalize_command_text command = Ok text ∧ lex_command text = Ok lexed
    ∧ length (segments lexed) ≤ length findings ∧ 0 < length findings.
Proof.
  revert command findings. induction n as [|n IH]; intros command findings; [done|].
  simpl. intros H. inv_bind H. rename r into text, E into Etext.
  inv_bind H. rename r into lexed, E into Elex. inv_bind H. inv_bind H.
  apply assess_segments_grow in E0 as [_ H1].
  2:{ intros c f (? & ? & _ & _ & _ & ?)%IH. done. }
  apply assess_embedded_grow, prefix_length in H.
  exists text, lexed. split_and!; [done..|simpl in *; lia|].
  pose proof (ok_not_empty _ _ (lex_command_ok_aux _ _ Elex)).
  destruct (segments lexed); [done|]. simpl in *. lia.
Qed.

(** ** The read scope

    [scope_le f g]: [g] judges as [f] does, and may besides object to reads
    outside the workspace. *)

Definition scope_le (f g : list CommandPolicyFinding) : Prop :=
  (∀ r, r ∈ risks f → r ∈ risks g)
  ∧ (∀ r, r ∈ risks g → r = ExternalRead ∨ r ∈ risks f).

#[export] Instance scope_le_preorder : PreOrder scope_le.
Proof.
  split.
  - split; naive_solver.
  - intros f g h [H1 H2] [H3 H4]. split; naive_solver.
Qed.

#[export] Instance app_scope_le : Proper (scope_le ==> scope_le ==> scope_le) app.
Proof.
  intros f f' [H1 H2] g g' [H3 H4]. split; intros r; rewrite !risks_app, !elem_of_app; naive_solver.
Qed.

Lemma scope_le_shift offset offset' f g :
  scope_le f g → scope_le (shift_findings offset f) (shift_findings offset' g).
Proof. intros [H1 H2]. split; intros r; rewrite !risks_shift; auto. Qed.

(** An objection to an external read is invisible in the smaller list. *)
Lemma scope_le_external f g index program c s :
  scope_le f g → scope_le f (g ++ [finding index program ExternalRead c s]).
Proof.
  intros [H1 H2]. split; intros r; rewrite risks_app, elem_of_app.
  - auto.
  - intros [H|H]; [auto|]. left. set_solver.
Qed.

Lemma scope_le_snoc f g x : scope_le f g → scope_le (f ++ [x]) (g ++ [x]).
Proof. intros H. by apply app_scope_le. Qed.

Lemma scope_le_if (b : bool) f g f' g' :
  scope_le f g → scope_le f' g' →
  scope_le (if b then f else f') (if b then g else g').
Proof. by destruct b. Qed.

Lemma scope_le_app f f' g g' :
  scope_le f f' → scope_le g g' → scope_le (f ++ g) (f' ++ g').
Proof. intros. by apply app_scope_le. Qed.

#[export] Hint Resolve scope_le_app scope_le_snoc scope_le_if scope_le_shift scope_le_external : policy.

(** Both fail with the same error, or both succeed with related findings. *)
Definition result_le {E} (r s : result E (list CommandPolicyFinding)) : Prop :=
  match r, s with
  | Ok f, Ok g => scope_le f g
  | Err e, Err e' => e = e'
  | _, _ => False
  end.

Lemma result_le_bind {E} (r s : result E (list CommandPolicyFinding)) h k :
  result_le r s → (∀ f g, scope_le f g → result_le (h f) (k g)) → result_le (r ≫= h) (s ≫= k).
Proof. destruct r, s; simpl; naive_solver. Qed.

Section Scope.
Context (home : option path) (read : AgentReadPermission) (cwd : option path)
  (analyze analyze' : rstr → result CommandSyntaxError (list CommandPolicyFinding)).
Hypothesis analyze_le : ∀ c, result_le (analyze c) (analyze' c).

Lemma redirection_findings_scope segment index program f g :
  scope_le f g →
  scope_le (append_redirection_findings segment index program Read_All f)
           (append_redirection_findings segment index program read g).
Proof.
  intros H. unfold append_redirection_findings. cbv zeta.
  set (x := finding index program DirectWrite _ _).
  set (f0 := if has_write_redirection segment then f ++ [x] else f).
  set (g0 := if has_write_redirection segment then g ++ [x] else g).
  assert (scope_le f0 g0) as H0 by (subst f0 g0; auto with policy captain).
  clearbody f0 g0. revert f0 g0 H0.
  induction (input_redirections segment) as [|y ys IH]; intros f0 g0 H0; simpl; [done|].
  apply IH. apply scope_le_if; [apply scope_le_snoc|];
    destruct (bool_decide (read = _) && _); eauto with policy captain.
Qed.

Lemma script_finding_scope script index program f g :
  scope_le f g →
  scope_le (append_shell_script_finding script index program f)
           (append_shell_script_finding script index program g).
Proof. destruct script; simpl; auto with policy captain. Qed.

Lemma provenance_findings_scope segment index ep program f g :
  scope_le f g →
  scope_le (append_invocation_provenance_findings segment index ep program f)
           (append_invocation_provenance_findings segment index ep program g).
Proof. intros H. unfold append_invocation_provenance_findings. cbv zeta. auto 20 with policy captain. Qed.

Lemma assess_env_split_scope segment index split f g :
  scope_le f g →
  result_le (assess_env_split Read_All analyze segment index split f)
            (assess_env_split read analyze' segment index split g).
Proof using analyze_le.
  intros H. unfold assess_env_split. destruct (effective_program _) as [ep|]; [|done].
  destruct (existsb is_dynamic_program_name _); [by apply scope_le_snoc|]. cbv zeta.
  apply result_le_bind; [apply analyze_le|]. intros n n' Hn.
  apply redirection_findings_scope. auto with policy captain.
Qed.

Lemma assess_shell_scope segment index words program f g :
  scope_le f g →
  result_le (assess_shell Read_All analyze segment index words program f)
            (assess_shell read analyze' segment index words program g).
Proof using analyze_le.
  intros H. unfold assess_shell. destruct (shell_command_argument_index words) as [i|].
  - unfold assess_shell_command.
    destruct (existsb shell_option_is_interactive _); [by apply scope_le_snoc|]. cbv zeta.
    destruct (words !! i) as [c|]; [|done].
    apply result_le_bind; [apply analyze_le|]. intros n n' Hn.
    apply redirection_findings_scope, scope_le_if; [apply script_finding_scope|];
      auto 20 with policy captain.
  - destruct (shell_script_argument words).
    + by apply redirection_findings_scope, script_finding_scope.
    + by apply scope_le_snoc.
Qed.

Lemma assess_program_scope segment index words program f g :
  scope_le f g →
  scope_le (assess_program home Read_All cwd segment index words program f)
           (assess_program home read cwd segment index words program g).
Proof.
  intros H. unfold assess_program. destruct (classify_segment _ _ _ _) as [[r c] s]. cbv zeta.
  apply redirection_findings_scope.
  rewrite (bool_decide_eq_false_2 (Read_All = Read_WorkspaceOnly)) by done.
  rewrite andb_false_r. simpl.
  destruct (_ && has_obvious_external_read_argument _ _); auto with policy captain.
Qed.

Lemma assess_segment_scope segment index f g :
  scope_le f g →
  result_le (assess_segment home Read_All cwd analyze segment index f)
            (assess_segment home read cwd analyze' segment index g).
Proof using analyze_le.
  intros H. unfold assess_segment.
  destruct (env_split_command (tokens segment)) as [[split|]|e];
    cbn [mbind result_bind]; [| |done].
  { by apply assess_env_split_scope. }
  destruct (effective_program _) as [ep|]; [|done]. cbv zeta.
  destruct (_ && is_shell_program _); [by apply scope_le_snoc|].
  destruct (_ && one_of _ _); [by apply redirection_findings_scope, scope_le_snoc|].
  destruct (is_shell_reserved_program _); [by apply scope_le_snoc|].
  destruct (existsb is_dynamic_program_name _); [by apply scope_le_snoc|].
  destruct (is_shell_program _).
  - by apply assess_shell_scope, provenance_findings_scope.
  - by apply assess_program_scope, provenance_findings_scope.
Qed.

Lemma assess_segments_scope segments index f g :
  scope_le f g →
  result_le (assess_segments home Read_All cwd analyze segments index f)
            (assess_segments home read cwd analyze' segments index g).
Proof using analyze_le.
  revert index f g. induction segments as [|s ss IH]; intros index f g H; simpl; [done|].
  apply result_le_bind; [by apply assess_segment_scope|]. intros. by apply IH.
Qed.

Lemma assess_embedded_scope embedded f g :
  scope_le f g →
  result_le (assess_embedded analyze embedded f) (assess_embedded analyze' embedded g).
Proof using analyze_le.
  revert f g. induction embedded as [|c cs IH]; intros f g H; simpl; [done|].
  apply result_le_bind; [apply analyze_le|]. intros n n' Hn. apply IH. auto with policy captain.
Qed.
End Scope.

Lemma analyze_at_scope home read cwd n command :
  result_le (analyze_at home Read_All cwd n command) (analyze_at home read cwd n command).
Proof.
  revert command. induction n as [|n IH]; intros command; [done|]. simpl.
  destruct (normalize_command_text command) as [text|]; simpl; [|done].
  destruct (lex_command text) as [lexed|]; simpl; [|done].
  destruct (validate_write_redirection_targets _ _); simpl; [|done].
  apply result_le_bind; [by apply assess_segments_scope|].
  intros f g H. by apply assess_embedded_scope.
Qed.

(** ** The nesting depth

    A command that is analysed with fewer levels left is analysed with the same
    findings when more levels are left. *)

Definition succeeds_as {E A} (r s : result E A) : Prop := ∀ f, r = Ok f → s = Ok f.

Lemma succeeds_as_refl {E A} (r : result E A) : succeeds_as r r.
Proof. by intros f. Qed.

Lemma succeeds_as_bind {E A B} (r s : result E A) (h k : A → result E B) :
  succeeds_as r s → (∀ a, succeeds_as (h a) (k a)) → succeeds_as (r ≫= h) (s ≫= k).
Proof.
  intros H1 H2 f H. apply bind_Ok in H as (a & Hr & Hh).
  apply bind_Ok. exists a. split; [by apply H1|by apply H2].
Qed.

#[export] Hint Resolve succeeds_as_refl succeeds_as_bind : policy.

Section Depth.
Context (home : option path) (read : AgentReadPermission) (cwd : option path)
  (analyze analyze' : rstr → result CommandSyntaxError (list CommandPolicyFinding)).
Hypothesis analyze_as : ∀ c, succeeds_as (analyze c) (analyze' c).

Lemma assess_segment_depth segment index findings :
  succeeds_as (assess_segment home read cwd analyze segment index findings)
              (assess_segment home read cwd analyze' segment index findings).
Proof using analyze_as.
  unfold assess_segment. apply succeeds_as_bind; [auto with policy captain|]. intros [split|].
  - unfold assess_env_split. repeat case_match; auto with policy captain.
  - destruct (effective_program _) as [ep|]; [|auto with policy captain]. cbv zeta.
    destruct (_ && is_shell_program _); [auto with policy captain|].
    destruct (_ && one_of _ _); [auto with policy captain|].
    destruct (is_shell_reserved_program _); [auto with policy captain|].
    destruct (existsb is_dynamic_program_name _); [auto with policy captain|].
    destruct (is_shell_program _); [|auto with policy captain].
    unfold assess_shell. destruct (shell_command_argument_index _); [|auto with policy captain].
    unfold assess_shell_command. cbv zeta.
    destruct (existsb shell_option_is_interactive _); [auto with policy captain|].
    destruct (_ !! _); auto with policy captain.
Qed.

Lemma assess_segments_depth segments index findings :
  succeeds_as (assess_segments home read cwd analyze segments index findings)
              (assess_segments home read cwd analyze' segments index findings).
Proof using analyze_as.
  revert index findings. induction segments as [|s ss IH]; intros index findings; simpl.
  - auto with policy captain.
  - apply succeeds_as_bind; [apply assess_segment_depth|auto].
Qed.

Lemma assess_embedded_depth embedded findings :
  succeeds_as (assess_embedded analyze embedded findings)
              (assess_embedded analyze' embedded findings).
Proof using analyze_as.
  revert findings. induction embedded as [|c cs IH]; intros findings; simpl;
    auto with policy captain.
Qed.
End Depth.

Lemma analyze_at_depth home read cwd m n command :
  m ≤ n → succeeds_as (analyze_at home read cwd m command) (analyze_at home read cwd n command).
Proof.
  revert n command. induction m as [|m IH]; intros n command Hle; [done|].
  destruct n as [|n]; [lia|]. simpl.
  assert (∀ c, succeeds_as (analyze_at home read cwd m c) (analyze_at home read cwd n c)) as H
    by (intros c; apply IH; lia).
  apply succeeds_as_bind; [auto with policy captain|]. intros text.
  apply succeeds_as_bind; [auto with policy captain|]. intros lexed.
  apply succeeds_as_bind; [auto with policy captain|]. intros _.
  apply succeeds_as_bind; [by apply assess_segments_depth|]. intros findings.
  by apply assess_embedded_depth.
Qed.

(** ** Denial

    An analysis that fails, or that finds a class refused to everyone. *)

Definition denied (r : result CommandSyntaxError (list CommandPolicyFinding)) : bool :=
  match r with
  | Err _ => true
  | Ok findings => existsb is_always_denied (risks findings)
  end.

Lemma denied_prefix f f' :
  f `prefix_of` f' → existsb is_always_denied (risks f) = true →
  existsb is_always_denied (risks f') = true.
Proof.
  intros Hp (r & Hr & Hd)%existsb_true. apply existsb_true. exists r.
  split; [by eapply risks_prefix|done].
Qed.

Lemma denied_bind r k :
  denied r = true → (∀ f f', k f = Ok f' → f `prefix_of` f') → denied (r ≫= k) = true.
Proof.
  intros Hr Hk. destruct r as [f|e]; simpl in *; [|done].
  destruct (k f) as [f'|e] eqn:E; [|done]. simpl. by eapply denied_prefix; [apply Hk|].
Qed.

(** Denial survives more nesting. *)
Lemma denied_depth home read cwd m n command :
  m ≤ n → denied (analyze_at home read cwd n command) = true →
  denied (analyze_at home read cwd m command) = true.
Proof.
  intros Hle Hd. destruct (analyze_at home read cwd m command) as [f|e] eqn:E; [|done].
  apply (analyze_at_depth _ _ _ _ n) in E; [|done]. by rewrite E in Hd.
Qed.

Lemma denied_snoc f x : is_always_denied (risk x) = true →
  existsb is_always_denied (risks (f ++ [x])) = true.
Proof. intros H. unfold risks. rewrite map_app, existsb_app. simpl. by rewrite H, orb_true_r. Qed.

Lemma denied_nested f offset nested :
  existsb is_always_denied (risks nested) = true →
  existsb is_always_denied (risks (f ++ shift_findings offset nested)) = true.
Proof. intros H. by rewrite risks_app, risks_shift, existsb_app, H, orb_true_r. Qed.

Section Denial.
Context (home : option path) (read : AgentReadPermission) (cwd : option path) (n : nat).
Let analyze := analyze_at home read cwd n.

Lemma analyze_judges c f : analyze c = Ok f → 0 < length f.
Proof. intros (? & ? & _ & _ & _ & ?)%analyze_at_judges. done. Qed.

Lemma assess_segments_prefix segments index f f' :
  assess_segments home read cwd analyze segments index f = Ok f' → f `prefix_of` f'.
Proof. intros H. eapply assess_segments_grow in H as [? _]; [done|]. apply analyze_judges. Qed.

(** One denied segment denies the command. *)
Lemma assess_segments_denied segments s index findings :
  s ∈ segments →
  (∀ i f, denied (assess_segment home read cwd analyze s i f) = true) →
  denied (assess_segments home read cwd analyze segments index findings) = true.
Proof.
  intros Hs Hd. revert index findings.
  induction segments as [|s' ss IH]; intros index findings; [set_solver|]. simpl.
  apply elem_of_cons in Hs as [->|Hs].
  - apply denied_bind; [apply Hd|]. intros f f'. apply assess_segments_prefix.
  - destruct (assess_segment _ _ _ _ _ _ _); simpl; [by apply IH|done].
Qed.

(** One denied command substitution denies the command. *)
Lemma assess_embedded_denied embedded e findings :
  e ∈ embedded → denied (analyze e) = true →
  denied (assess_embedded analyze embedded findings) = true.
Proof.
  intros He Hd. revert findings.
  induction embedded as [|c cs IH]; intros findings; [set_solver|]. simpl.
  apply elem_of_cons in He as [->|He].
  - destruct (analyze c) as [nested|]; simpl in *; [|done].
    destruct (assess_embedded _ _ _) as [f|] eqn:E; [|done]. simpl.
    eapply denied_prefix; [by eapply assess_embedded_grow|]. by apply denied_nested.
  - destruct (analyze c); simpl; [by apply IH|done].
Qed.

Lemma analyze_at_denied command text lexed :
  normalize_command_text command = Ok text → lex_command text = Ok lexed →
  (∃ s, s ∈ segments lexed ∧ ∀ i f, denied (assess_segment home read cwd analyze s i f) = true)
  ∨ (∃ e, e ∈ embedded_commands lexed ∧ denied (analyze e) = true) →
  denied (analyze_at home read cwd (S n) command) = true.
Proof.
  intros Ht Hl Hd. simpl. rewrite Ht. simpl. rewrite Hl. simpl.
  destruct (validate_write_redirection_targets _ _); simpl; [|done].
  destruct Hd as [(s & Hs & Hd)|(e & He & Hd)].
  - apply denied_bind; [by eapply assess_segments_denied|].
    intros f f'. apply assess_embedded_grow.
  - destruct (assess_segments _ _ _ _ _ _ _); simpl; [|done].
    by eapply assess_embedded_denied.
Qed.

(** A segment whose own program is refused is denied, whatever its arguments
    and wrappers are. *)
Lemma assess_segment_denied segment index findings ep :
  env_split_command (tokens segment) = Ok None →
  effective_program (tokens segment) = Some ep →
  let words := drop (program_index ep) (tokens segment) in
  let program := program_basename (default [] (head words)) in
  is_shell_program program = false → one_of program ["python"; "python3"; "node"] = false →
  is_always_denied (fst (fst (classify_segment home words program cwd))) = true →
  denied (assess_segment home read cwd analyze segment index findings) = true.
Proof.
  intros Hs He words program Hsh Hpy Hc. unfold assess_segment. rewrite Hs.
  cbn [mbind result_bind]. rewrite He. fold words. fold program. cbv zeta.
  rewrite Hsh, Hpy, !andb_false_r.
  destruct (is_shell_reserved_program _); [by apply denied_snoc|].
  destruct (existsb is_dynamic_program_name _); [by apply denied_snoc|].
  simpl. unfold assess_program. destruct (classify_segment _ _ _ _) as [[r c] s]. simpl in Hc.
  cbn [denied]. set (f0 := append_invocation_provenance_findings _ _ _ _ _).
  apply (denied_prefix (f0 ++ [finding index program r c s])); [|by apply denied_snoc].
  etransitivity; [|apply redirection_findings_prefix]. apply prefix_if, prefix_snoc.
Qed.

(** A shell given [-c] is denied when the command it is given is. *)
Lemma assess_shell_denied segment index findings ep i nested :
  env_split_command (tokens segment) = Ok None →
  effective_program (tokens segment) = Some ep →
  let words := drop (program_index ep) (tokens segment) in
  let program := program_basename (default [] (head words)) in
  is_shell_program program = true → shell_command_argument_index words = Some i →
  words !! i = Some nested → denied (analyze nested) = true →
  denied (assess_segment home read cwd analyze segment index findings) = true.
Proof.
  intros Hs He words program Hsh Hi Hw Hd. unfold assess_segment. rewrite Hs.
  cbn [mbind result_bind]. rewrite He. fold words. fold program. cbv zeta. rewrite Hsh.
  destruct (has_heredoc segment && true); [by apply denied_snoc|].
  destruct (_ && one_of _ _) eqn:Ei.
  { exfalso. apply andb_true_iff in Ei as [_ Ei].
    apply one_of_elem in Ei as (l & Hl & El). rewrite El in Hsh.
    repeat (apply elem_of_cons in Hl as [->|Hl]; [done|]). set_solver. }
  destruct (is_shell_reserved_program _); [by apply denied_snoc|].
  destruct (existsb is_dynamic_program_name _); [by apply denied_snoc|].
  unfold assess_shell. rewrite Hi. unfold assess_shell_command. cbv zeta. rewrite Hw.
  destruct (existsb shell_option_is_interactive _); [by apply denied_snoc|].
  destruct (analyze nested) as [nf|]; simpl in *; [|done].
  eapply denied_prefix; [|by apply denied_nested].
  etransitivity; [|apply redirection_findings_prefix]. apply prefix_if, script_finding_prefix.
Qed.
End Denial.
