(* ===== verification/CommandSafety.v ===== *)
(** * Safety of the command policy

    What a decision of [evaluate_command_policy_at] means for the command it
    was taken on: the declarative reading of the commands that run without a
    person, and the ways in which a refusal cannot be avoided. *)

From S2P Require Import Prelude RustText RustPath CommandTypes ShellLexer ShellLexerFacts.
From S2P Require Import ShellProgram CommandTargets CommandAllowlist CommandRisk Permissions.
From S2P Require Import CommandPolicy CommandPolicyFacts.

(** ** Findings that need nobody *)

Definition is_auto_safe (r : CommandRiskClass) : bool :=
  negb (is_always_denied r) && negb (requires_explicit_approval r).

Definition clean (f : list CommandPolicyFinding) : bool := forallb is_auto_safe (risks f).

Definition clean_result (r : result CommandSyntaxError (list CommandPolicyFinding)) : bool :=
  match r with Ok f => clean f | Err _ => false end.

Lemma clean_app f g : clean (f ++ g) = clean f && clean g.
Proof. unfold clean. by rewrite risks_app, forallb_app. Qed.

Lemma clean_snoc f x : clean (f ++ [x]) = clean f && is_auto_safe (risk x).
Proof. rewrite clean_app. unfold clean. simpl. by rewrite andb_true_r. Qed.

Lemma clean_shift offset f : clean (shift_findings offset f) = clean f.
Proof. unfold clean. by rewrite risks_shift. Qed.

(** A conditional finding that is not safe must not have been made. *)
Lemma clean_guard (b : bool) f i p r c s :
  is_auto_safe r = false →
  clean (if b then f ++ [finding i p r c s] else f) = clean f && negb b.
Proof. intros H. destruct b; [rewrite clean_snoc; simpl; by rewrite H|by rewrite andb_true_r]. Qed.

(** ** What a clean segment is

    Boolean conditions named after what they exclude. *)

Definition quiet_input (read : AgentReadPermission) (r : ShellInputRedirection) : bool :=
  negb (is_network_redirection_target (target r))
  && negb (bool_decide (read = Read_WorkspaceOnly) && is_obvious_external_path (target r))
  && negb (dynamic r).

Definition quiet_redirections (read : AgentReadPermission) (s : ShellSegment) : bool :=
  negb (has_write_redirection s) && forallb (quiet_input read) (input_redirections s).

Definition plain_invocation (s : ShellSegment) (ep : EffectiveProgram) : bool :=
  negb (existsb is_explicit_program_path (chain_tokens s ep))
  && negb (has_environment_override (tokens s) (program_index ep))
  && negb (existsb has_dynamic_argument (drop (program_index ep + 1) (tokens s)))
  && negb (existsb has_shell_path_expansion (drop (program_index ep + 1) (tokens s))).

Definition in_read_scope (read : AgentReadPermission) (words : list rstr) (program : rstr) : bool :=
  negb (bool_decide (read = Read_WorkspaceOnly)
        && has_obvious_external_read_argument words program).

Lemma redirections_clean segment index program read f :
  clean (append_redirection_findings segment index program read f)
  = clean f && quiet_redirections read segment.
Proof.
  unfold append_redirection_findings, quiet_redirections. cbv zeta.
  rewrite andb_assoc, <- (clean_guard (has_write_redirection segment) f index program DirectWrite
    "command.risk.write_redirection" "命令使用 shell 输出重定向写入文件。") by done.
  set (first := if has_write_redirection segment then _ else _). clearbody first.
  revert first. induction (input_redirections segment) as [|r rs IH]; intros first; simpl.
  - by rewrite andb_true_r.
  - rewrite IH. unfold quiet_input at 2. rewrite !clean_guard by done.
    by rewrite !andb_assoc.
Qed.

Lemma provenance_clean segment index ep program f :
  clean (append_invocation_provenance_findings segment index ep program f)
  = clean f && plain_invocation segment ep.
Proof.
  unfold append_invocation_provenance_findings, plain_invocation. cbv zeta.
  rewrite !clean_guard by done. by rewrite !andb_assoc.
Qed.

Lemma script_clean script index program f :
  clean (append_shell_script_finding (Some script) index program f) = false.
Proof. simpl. rewrite clean_snoc. by destruct (is_opaque_shell_script_path script); rewrite andb_false_r. Qed.

(** ** Commands that run without a person

    The declarative counterpart of [assess_segment]: a segment is safe when its
    program is identified, nothing about its invocation is dynamic or
    overridden, its redirections only read, and its class is read-only or a
    listed workspace task; or when it is a plain shell given a command that is
    itself safe. *)
Section Safe.
Context (home : option path) (read : AgentReadPermission) (cwd : option path).

Inductive segment_safe (nested : rstr → Prop) (s : ShellSegment) : Prop :=
| safe_program ep words program :
    env_split_command (tokens s) = Ok None →
    effective_program (tokens s) = Some ep →
    words = drop (program_index ep) (tokens s) →
    program = program_basename (default [] (head words)) →
    is_shell_program program = false →
    has_heredoc s && one_of program ["python"; "python3"; "node"] = false →
    is_shell_reserved_program program = false →
    existsb is_dynamic_program_name (chain_tokens s ep) = false →
    plain_invocation s ep = true →
    is_auto_safe (fst (fst (classify_segment home words program cwd))) = true →
    in_read_scope read words program = true →
    quiet_redirections read s = true →
    segment_safe nested s
| safe_shell ep words program i command :
    env_split_command (tokens s) = Ok None →
    effective_program (tokens s) = Some ep →
    words = drop (program_index ep) (tokens s) →
    program = program_basename (default [] (head words)) →
    is_shell_program program = true →
    has_heredoc s = false →
    existsb is_dynamic_program_name (chain_tokens s ep) = false →
    plain_invocation s ep = true →
    shell_command_argument_index words = Some i →
    existsb shell_option_is_interactive (options_before words i) = false →
    shell_loads_startup_code words i = false →
    one_of program ["zsh"; "fish"] = false →
    shell_command_options_are_closed words i program = true →
    words !! i = Some command → nested command →
    quiet_redirections read s = true →
    segment_safe nested s.

(** [auto_safe n command]: safe with nested commands at most [n] deep. *)
Fixpoint auto_safe (n : nat) (command : rstr) : Prop :=
  match n with
  | O => False
  | S n =>
      ∃ text lexed st,
        normalize_command_text command = Ok text ∧ lex_command text = Ok lexed
        ∧ validate_write_redirection_targets text (ignored_policy_ranges lexed) = Ok st
        ∧ (∀ s, s ∈ segments lexed → segment_safe (auto_safe n) s)
        ∧ (∀ e, e ∈ embedded_commands lexed → auto_safe n e)
  end.

Lemma not_fish p : one_of p ["zsh"; "fish"] = false → is_str p "fish" = false.
Proof. unfold one_of. simpl. rewrite !orb_false_iff. naive_solver. Qed.

Lemma shell_not_reserved p : is_shell_program p = true → is_shell_reserved_program p = false.
Proof.
  intros (l & Hl & ->)%one_of_elem.
  repeat (apply elem_of_cons in Hl as [->|Hl]; [done|]). set_solver.
Qed.

Section Refines.
Context (analyze : rstr → result CommandSyntaxError (list CommandPolicyFinding))
  (nested : rstr → Prop).
Hypothesis analyze_clean : ∀ c, clean_result (analyze c) = true ↔ nested c.

Lemma assess_program_clean s index words program f :
  clean (assess_program home read cwd s index words program f)
  = clean f && is_auto_safe (fst (fst (classify_segment home words program cwd)))
    && in_read_scope read words program && quiet_redirections read s.
Proof.
  unfold assess_program. destruct (classify_segment home words program cwd) as [[r c] e].
  cbv zeta. rewrite redirections_clean, clean_guard, clean_snoc by done. simpl.
  unfold in_read_scope. by destruct r; rewrite ?andb_false_r; simpl.
Qed.

Lemma assess_shell_clean s index words program f :
  clean_result (assess_shell read analyze s index words program f) = true ↔
  ∃ i command, clean f = true ∧ shell_command_argument_index words = Some i
    ∧ existsb shell_option_is_interactive (options_before words i) = false
    ∧ shell_loads_startup_code words i = false ∧ one_of program ["zsh"; "fish"] = false
    ∧ shell_command_options_are_closed words i program = true
    ∧ words !! i = Some command ∧ nested command ∧ quiet_redirections read s = true.
Proof using analyze_clean.
  unfold assess_shell. destruct (shell_command_argument_index words) as [i|].
  2:{ split; [|naive_solver].
      destruct (shell_script_argument words) as [script|]; cbn [clean_result]; cbv zeta.
      - by rewrite redirections_clean, script_clean.
      - by rewrite clean_snoc, andb_false_r. }
  unfold assess_shell_command. cbv zeta.
  destruct (existsb _ _) eqn:E1.
  { cbn [clean_result]. rewrite clean_snoc, andb_false_r.
    split; [done|]. intros (? & ? & _ & [= <-] & H & _). congruence. }
  set (f3 := if negb (shell_command_options_are_closed _ _ _) then _ else _).
  assert (clean f3 = clean f && negb (shell_loads_startup_code words i)
            && negb (one_of program ["zsh"; "fish"])
            && shell_command_options_are_closed words i program) as Hf3.
  { subst f3. rewrite !clean_guard by done. by rewrite negb_involutive. }
  clearbody f3.
  destruct (words !! i) as [command|] eqn:Ew.
  2:{ split; [done|]. intros (? & ? & _ & [= <-] & _ & _ & _ & _ & H & _). congruence. }
  specialize (analyze_clean command).
  destruct (analyze command) as [nf|e]; cbn [mbind result_bind clean_result] in *.
  2:{ split; [done|]. intros (? & ? & _ & [= <-] & _ & _ & _ & _ & Hw & Hn & _).
      rewrite Ew in Hw. injection Hw as <-. by apply analyze_clean in Hn. }
  destruct (one_of program ["zsh"; "fish"]) eqn:Hz.
  - assert (clean f3 = false) as Hf by (rewrite Hf3; by rewrite !andb_false_r).
    split; [|naive_solver]. rewrite redirections_clean. intros [H _]%andb_true_iff.
    exfalso. revert H. unfold append_shell_script_finding.
    destruct (is_str program "fish" && is_some_and _ _); [|by rewrite clean_app, Hf].
    destruct (words !! (i + 1)); rewrite ?clean_snoc; by rewrite clean_app, Hf.
  - replace (is_str program "fish") with false by (symmetry; by apply not_fish).
    rewrite redirections_clean. cbn [andb]. rewrite clean_app, clean_shift, Hf3.
    rewrite !andb_true_iff, analyze_clean, negb_true_iff.
    split; [intros (((((? & ?) & _) & ?) & ?) & ?); by exists i, command|].
    intros (? & ? & ? & [= <-] & _ & ? & _ & ? & Hw & ? & ?).
    rewrite Ew in Hw. by injection Hw as <-.
Qed.

Lemma assess_env_split_clean s index split f :
  clean_result (assess_env_split read analyze s index split f) = false.
Proof.
  unfold assess_env_split. destruct (effective_program (tokens s)) as [ep|]; [|done].
  destruct (existsb is_dynamic_program_name _).
  { cbn [clean_result]. by rewrite clean_snoc, andb_false_r. }
  cbv zeta. destruct (analyze split) as [nf|]; [|done]. cbn [mbind result_bind clean_result].
  by rewrite redirections_clean, clean_snoc, andb_false_r.
Qed.

Lemma assess_segment_clean s index f :
  clean_result (assess_segment home read cwd analyze s index f) = true ↔
  clean f = true ∧ segment_safe nested s.
Proof using analyze_clean.
  split.
  - unfold assess_segment.
    destruct (env_split_command (tokens s)) as [[split|]|] eqn:Es;
      cbn [mbind result_bind]; [by rewrite assess_env_split_clean| |done].
    destruct (effective_program (tokens s)) as [ep|] eqn:Ee; [|done]. cbv zeta.
    remember (drop (program_index ep) (tokens s)) as words eqn:Ew.
    remember (program_basename (default [] (head words))) as program eqn:Ep.
    destruct (has_heredoc s && is_shell_program program) eqn:E1.
    { cbn [clean_result]. by rewrite clean_snoc, andb_false_r. }
    destruct (has_heredoc s && one_of program _) eqn:E2.
    { cbn [clean_result]. by rewrite redirections_clean, clean_snoc, andb_false_r. }
    destruct (is_shell_reserved_program program) eqn:E3.
    { cbn [clean_result]. by rewrite clean_snoc, andb_false_r. }
    destruct (existsb is_dynamic_program_name _) eqn:E4.
    { cbn [clean_result]. by rewrite clean_snoc, andb_false_r. }
    destruct (is_shell_program program) eqn:E5.
    + rewrite andb_true_r in E1. intros (i & c & H & ? & ? & ? & ? & ? & ? & ? & ?)%assess_shell_clean.
      rewrite provenance_clean, andb_true_iff in H. destruct H as [Hf Hp].
      split; [done|]. by eapply (safe_shell nested s ep words program i c).
    + cbn [clean_result]. rewrite assess_program_clean, provenance_clean, !andb_true_iff.
      intros ((((? & ?) & ?) & ?) & ?).
      split; [done|]. by eapply (safe_program nested s ep words program).
  - intros [Hf [ep words program Es Ee -> -> E5 E2 E3 E4 Hp Hc Hr Hq
               |ep words program i c Es Ee -> -> E5 E1 E4 Hp]]; unfold assess_segment;
      rewrite Es; cbn [mbind result_bind]; rewrite Ee; cbv zeta.
    + rewrite E5, andb_false_r, E2, E3, E4. cbn [clean_result].
      by rewrite assess_program_clean, provenance_clean, Hf, Hp, Hc, Hr, Hq.
    + rewrite E1, (shell_not_reserved _ E5), E4, E5. simpl (false && _).
      apply assess_shell_clean. exists i, c. by rewrite provenance_clean, Hf, Hp.
Qed.

Lemma assess_segments_clean ss index f :
  clean_result (assess_segments home read cwd analyze ss index f) = true ↔
  clean f = true ∧ ∀ s, s ∈ ss → segment_safe nested s.
Proof using analyze_clean.
  revert index f. induction ss as [|s ss IH]; intros index f; simpl; [set_solver|].
  transitivity (clean_result (assess_segment home read cwd analyze s index f) = true
                ∧ ∀ s, s ∈ ss → segment_safe nested s).
  - destruct (assess_segment home read cwd analyze s index f); simpl; [apply IH|naive_solver].
  - rewrite assess_segment_clean. set_solver.
Qed.

Lemma assess_embedded_clean es f :
  clean_result (assess_embedded analyze es f) = true ↔
  clean f = true ∧ ∀ e, e ∈ es → nested e.
Proof using analyze_clean.
  revert f. induction es as [|e es IH]; intros f; simpl; [set_solver|].
  specialize (analyze_clean e). destruct (analyze e) as [nf|]; simpl in *.
  - rewrite IH, clean_app, clean_shift, andb_true_iff, analyze_clean. set_solver.
  - split; [done|]. intros [_ H]. apply analyze_clean. set_solver.
Qed.
End Refines.

Lemma analyze_at_clean n command :
  clean_result (analyze_at home read cwd n command) = true ↔ auto_safe n command.
Proof.
  revert command. induction n as [|n IH]; intros command; [done|]. simpl.
  destruct (normalize_command_text command) as [text|]; simpl.
  2:{ split; [done|]. by intros (? & ? & ? & [=] & _). }
  destruct (lex_command text) as [lexed|] eqn:El; simpl.
  2:{ split; [done|]. intros (? & ? & ? & [= <-] & H & _). congruence. }
  destruct (validate_write_redirection_targets text _) as [st|] eqn:Ev; simpl.
  2:{ split; [done|]. intros (? & ? & ? & [= <-] & H & H' & _). congruence. }
  transitivity (clean_result
    (assess_segments home read cwd (analyze_at home read cwd n) (segments lexed) 0 []) = true
    ∧ ∀ e, e ∈ embedded_commands lexed → auto_safe n e).
  - destruct (assess_segments _ _ _ _ _ _ _) as [f|]; cbn [mbind result_bind].
    + by apply assess_embedded_clean.
    + split; [done|]. by intros [? _].
  - rewrite assess_segments_clean by exact IH. split.
    + intros [[_ Hs] He]. by exists text, lexed, st.
    + intros (t & l & ? & [= <-] & Hl & _ & Hs & He). rewrite El in Hl. by injection Hl as <-.
Qed.
End Safe.

(** ** The decision *)

Definition always_denied (fs : list CommandPolicyFinding) : bool :=
  existsb is_always_denied (risks fs).

Definition needs_approval (fs : list CommandPolicyFinding) : bool :=
  existsb requires_explicit_approval (risks fs).

(** Guarded mode without a person: the only setting that asks for one. *)
Definition guarded_automatic (p : AgentPermissions) (auth : CommandAuthorizationSource) : bool :=
  bool_decide (command_safety p = Guarded) && bool_decide (auth = Automatic).

Definition decide_on (guarded : bool) (fs : list CommandPolicyFinding) : CommandPolicyDecision :=
  if always_denied fs then Deny
  else if guarded && needs_approval fs then RequireExplicitApproval else Allow.

(** The working directory lies in the workspace, when reads must. *)
Definition cwd_in_scope (read : AgentReadPermission) (root cwd : option path) : bool :=
  negb (bool_decide (read = Read_WorkspaceOnly)
        && is_some_and cwd (λ cwd, is_none_or root (λ root, negb (path_starts_with cwd root)))).

Lemma find_always_denied fs :
  always_denied fs = bool_decide (is_Some (List.find (λ f, is_always_denied (risk f)) fs)).
Proof.
  unfold always_denied, risks. induction fs as [|f fs IH]; [done|]. simpl.
  destruct (is_always_denied (risk f)); simpl; [done|exact IH].
Qed.

Lemma filter_needs_approval fs :
  needs_approval fs
  = negb (bool_decide (length (List.filter (λ f, requires_explicit_approval (risk f)) fs) = 0)).
Proof.
  unfold needs_approval, risks. induction fs as [|f fs IH]; [done|]. simpl.
  by destruct (requires_explicit_approval (risk f)).
Qed.

(** The findings of an evaluation: those of the analysis, and the check of the
    working directory. *)
Definition evaluated_findings (home : option path) (command : rstr) (p : AgentPermissions)
    (root cwd : option path) : list CommandPolicyFinding :=
  match analyze_command home command (read p) cwd 0 with
  | Err error => [mkFinding 0 [] Unsupported (error_code error) (error_reason error)]
  | Ok fs =>
      if cwd_in_scope (read p) root cwd then fs
      else fs ++ [finding 0 (rs "<cwd>") ExternalRead "command.scope.external_cwd"
                    "read=workspace_only 下，命令工作目录位于 workspace 外。"]
  end.

Lemma evaluate_equation home command p auth root cwd :
  let ev := evaluate_command_policy_at home command p auth root cwd in
  findings ev = evaluated_findings home command p root cwd
  ∧ decision ev = decide_on (guarded_automatic p auth) (findings ev).
Proof.
  cbv zeta. unfold evaluate_command_policy_at, evaluated_findings.
  destruct (analyze_command home command (read p) cwd 0) as [fs|e]; [|done].
  unfold cwd_in_scope. rewrite if_negb. cbv zeta.
  set (gs := if bool_decide (read p = Read_WorkspaceOnly) && _ then _ else _). clearbody gs.
  unfold decide_on. pose proof (find_always_denied gs) as Hd.
  destruct (List.find _ gs) as [f|].
  { simpl. by rewrite Hd. }
  fold (guarded_automatic p auth). rewrite <- filter_needs_approval.
  destruct (guarded_automatic p auth && needs_approval gs) eqn:E; simpl; rewrite Hd; simpl; by rewrite E.
Qed.

Lemma evaluate_findings home command p auth root cwd :
  findings (evaluate_command_policy_at home command p auth root cwd)
  = evaluated_findings home command p root cwd.
Proof. apply evaluate_equation. Qed.

Lemma evaluate_decision home command p auth root cwd :
  decision (evaluate_command_policy_at home command p auth root cwd)
  = decide_on (guarded_automatic p auth) (evaluated_findings home command p root cwd).
Proof. rewrite <- (evaluate_findings _ _ _ auth). apply evaluate_equation. Qed.

Lemma decide_on_Allow g fs :
  decide_on g fs = Allow ↔ always_denied fs = false ∧ g && needs_approval fs = false.
Proof. unfold decide_on. destruct (always_denied fs), (g && needs_approval fs); naive_solver. Qed.

Lemma decide_on_Deny g fs : decide_on g fs = Deny ↔ always_denied fs = true.
Proof. unfold decide_on. destruct (always_denied fs), (g && needs_approval fs); naive_solver. Qed.

Lemma decide_on_Approval g fs :
  decide_on g fs = RequireExplicitApproval ↔
  always_denied fs = false ∧ g = true ∧ needs_approval fs = true.
Proof. unfold decide_on. destruct (always_denied fs), g, (needs_approval fs); naive_solver. Qed.

Lemma always_denied_iff fs :
  always_denied fs = true ↔ ∃ f, f ∈ fs ∧ (risk f = Catastrophic ∨ risk f = Unsupported).
Proof.
  unfold always_denied, risks. rewrite existsb_true. split.
  - intros (r & (f & -> & Hf)%list_elem_of_fmap & Hr). exists f. split; [done|].
    destruct (risk f); naive_solver.
  - intros (f & Hf & Hr). exists (risk f). split; [by apply list_elem_of_fmap; eauto|].
    by destruct Hr as [-> | ->].
Qed.

Lemma clean_iff fs : clean fs = negb (always_denied fs) && negb (needs_approval fs).
Proof.
  unfold clean, always_denied, needs_approval. induction (risks fs) as [|r rs IH]; [done|].
  simpl. rewrite IH. unfold is_auto_safe. by destruct r; simpl; rewrite ?andb_false_r.
Qed.

Lemma guarded_automatic_clean fs : decide_on true fs = Allow ↔ clean fs = true.
Proof.
  rewrite decide_on_Allow, clean_iff. by destruct (always_denied fs), (needs_approval fs); naive_solver.
Qed.

Lemma evaluated_clean home command p root cwd :
  clean (evaluated_findings home command p root cwd)
  = clean_result (analyze_command home command (read p) cwd 0) && cwd_in_scope (read p) root cwd.
Proof.
  unfold evaluated_findings. destruct (analyze_command _ _ _ _ _) as [fs|e]; [|done].
  destruct (cwd_in_scope _ _ _); simpl; [by rewrite andb_true_r|].
  by rewrite clean_snoc, !andb_false_r.
Qed.

(** ** Order of decisions *)

Definition decision_rank (d : CommandPolicyDecision) : nat :=
  match d with Deny => 0 | RequireExplicitApproval => 1 | Allow => 2 end.

Definition source_rank (a : CommandAuthorizationSource) : nat :=
  match a with Automatic => 0 | ExplicitUser => 1 end.

Lemma decide_on_antitone (g g' : bool) fs fs' :
  (g' = true → g = true) → always_denied fs = always_denied fs' →
  (needs_approval fs' = true → needs_approval fs = true) →
  decision_rank (decide_on g fs) ≤ decision_rank (decide_on g' fs').
Proof.
  intros Hg Hd Hn. unfold decide_on. rewrite Hd. destruct (always_denied fs'); [done|].
  destruct g', (needs_approval fs'); simpl; try rewrite Hg by done; try rewrite Hn by done;
    simpl; repeat case_match; simpl; lia.
Qed.

Lemma existsb_risks_le (q : CommandRiskClass → bool) f g :
  scope_le f g → existsb q (risks f) = true → existsb q (risks g) = true.
Proof. intros [H _] (r & Hr & Hq)%existsb_true. apply existsb_true. eauto. Qed.

Lemma scope_le_denied f g : scope_le f g → always_denied f = always_denied g.
Proof.
  intros H. apply eq_true_iff_eq. split; [by apply existsb_risks_le|].
  intros (r & Hr & Hq)%existsb_true. apply existsb_true. exists r.
  destruct H as [_ H]. destruct (H r Hr) as [-> |]; [done|auto].
Qed.

Lemma scope_le_cwd f g p root cwd i prog c s :
  scope_le f g →
  scope_le f (if cwd_in_scope p root cwd then g else g ++ [finding i prog ExternalRead c s]).
Proof. intros H. destruct (cwd_in_scope _ _ _); auto with policy captain. Qed.

(** Reading everything only removes objections to external reads. *)
Lemma evaluated_findings_scope home command p q root root' cwd :
  read q = Read_All →
  scope_le (evaluated_findings home command q root' cwd) (evaluated_findings home command p root cwd).
Proof.
  intros Hq. unfold evaluated_findings, analyze_command. rewrite Hq.
  pose proof (analyze_at_scope home (read p) cwd (MAX_POLICY_NESTING + 1 - 0) command) as H.
  destruct (analyze_at home Read_All _ _ _) as [f|e], (analyze_at home (read p) _ _ _) as [g|e'];
    simpl in H; try done.
  - replace (cwd_in_scope Read_All root' cwd) with true by done. by apply scope_le_cwd.
  - by rewrite H.
Qed.

(** The same scope and the same workspace give the same findings. *)
Lemma evaluated_findings_read home command p q root cwd :
  read p = read q →
  evaluated_findings home command p root cwd = evaluated_findings home command q root cwd.
Proof. unfold evaluated_findings. by intros ->. Qed.

Definition with_read_all (p : AgentPermissions) : AgentPermissions :=
  mkPermissions Read_All (write p) (CommandTypes.command p) (command_safety p) (patch p) (builtin_execution p).

Lemma evaluated_denied home command p q root root' cwd :
  always_denied (evaluated_findings home command p root cwd)
  = always_denied (evaluated_findings home command q root' cwd).
Proof.
  transitivity (always_denied (evaluated_findings home command (with_read_all p) root cwd)).
  - symmetry. by apply scope_le_denied, evaluated_findings_scope.
  - by apply scope_le_denied, evaluated_findings_scope.
Qed.

Lemma decision_monotone home command p q auth auth' root cwd :
  authority_le p q → source_rank auth ≤ source_rank auth' →
  decision_rank (decision (evaluate_command_policy_at home command p auth root cwd))
  ≤ decision_rank (decision (evaluate_command_policy_at home command q auth' root cwd)).
Proof.
  intros Hle Ha. rewrite !evaluate_decision. apply decide_on_antitone.
  - intros Hg. apply andb_true_iff in Hg as [Hs%bool_decide_eq_true Hq%bool_decide_eq_true].
    pose proof (le_safety _ _ Hle) as H. rewrite Hs in H. subst auth'. unfold guarded_automatic.
    destruct (command_safety p), auth; simpl in *; (done || lia).
  - apply evaluated_denied.
  - pose proof (le_read _ _ Hle) as H. destruct (read q) eqn:Eq.
    + rewrite (evaluated_findings_read _ _ p q); [done|]. destruct (read p); simpl in *; [done|lia].
    + apply existsb_risks_le. by apply evaluated_findings_scope.
Qed.

(** ** Denial from below *)

Lemma evaluated_denied_analysis home command p root cwd :
  always_denied (evaluated_findings home command p root cwd)
  = denied (analyze_command home command (read p) cwd 0).
Proof.
  unfold evaluated_findings, denied. destruct (analyze_command _ _ _ _ _) as [f|]; [|done].
  destruct (cwd_in_scope _ _ _); [done|].
  unfold always_denied. rewrite risks_app, existsb_app. simpl. by rewrite orb_false_r.
Qed.

(** [Deny] is the refusal of the analysis, whatever the setting. *)
Lemma evaluate_Deny home command p auth root cwd :
  decision (evaluate_command_policy_at home command p auth root cwd) = Deny ↔
  denied (analyze_at home (read p) cwd (S MAX_POLICY_NESTING) command) = true.
Proof. by rewrite evaluate_decision, decide_on_Deny, evaluated_denied_analysis. Qed.
