(* ===== verification/CommandClaims.v ===== *)
(** * The properties of the shell lexer

    After that: the properties of the command policy. *)

From S2P Require Import Prelude RustText CommandTypes ShellLexer ShellLexerFacts RustPath.
From S2P Require Import ShellProgram CommandTargets CommandAllowlist CommandRisk Permissions.
From S2P Require Import CommandPolicy CommandPolicyFacts CommandSafety.

(** ** Quoting

    Words quoted with single quotes are read back as they were: the lexer
    neither expands, splits nor joins them. *)

Definition quoted_word (w : rstr) : rstr := ch squote :: w ++ [ch squote].

Fixpoint quoted_words (ws : list rstr) : rstr :=
  match ws with
  | [] => []
  | [w] => quoted_word w
  | w :: ws => quoted_word w ++ ch " " :: quoted_words ws
  end.

(** The state of the lexer between two words of a first segment that has no
    redirection and no substitution. *)
Definition words_state (ts : list rstr) (rs : list range) (token : rstr) (start : option nat)
    (quoted : bool) (q : Quote) (i : nat) : LexState :=
  mkLex [] [] ts rs token start quoted false [] false None [] q i SepNone.

(** One pass of the loop, when its result is known. *)
Lemma lex_loop_pass chars st st' :
  lx_index st < length chars → lex_step chars st = Ok st' → lex_loop chars st = lex_loop chars st'.
Proof.
  intros Hi Hs. rewrite lex_loop_unfold, (proj2 (Nat.ltb_lt _ _) Hi), Hs. reflexivity.
Qed.

Lemma lex_loop_done chars st : length chars ≤ lx_index st → lex_loop chars st = Ok st.
Proof. intros H. by rewrite lex_loop_unfold, (proj2 (Nat.ltb_ge _ _) H). Qed.

Section Words.
Context (ts : list rstr) (rs : list range).

Lemma pass_in_quote w pre post token start :
  ch squote ∉ w →
  lex_loop (pre ++ w ++ ch squote :: post) (words_state ts rs token start true QuoteSingle (length pre))
  = lex_loop (pre ++ w ++ ch squote :: post)
      (words_state ts rs (token ++ w) start true QuoteNone (length pre + length w + 1)).
Proof.
  revert pre token. induction w as [|c w IH]; intros pre token Hw.
  - apply lex_loop_pass; simpl; [rewrite length_app; simpl; lia|].
    unfold lex_step. simpl. rewrite list_lookup_middle by done.
    unfold lex_single_quoted. simpl. rewrite app_nil_r, Nat.add_0_r. reflexivity.
  - apply not_elem_of_cons in Hw as [Hc Hw].
    rewrite (lex_loop_pass _ _ (words_state ts rs (token ++ [c]) start true QuoteSingle (length pre + 1))).
    + replace (pre ++ (c :: w) ++ ch squote :: post) with ((pre ++ [c]) ++ w ++ ch squote :: post)
        by (by rewrite <-!app_assoc).
      replace (length pre + 1) with (length (pre ++ [c])) by (by rewrite length_app).
      rewrite IH by done. rewrite length_app, <-(app_assoc token). cbn [length app].
      do 2 f_equal. lia.
    + simpl. rewrite length_app. simpl. lia.
    + unfold lex_step. simpl. rewrite list_lookup_middle by done.
      unfold lex_single_quoted. destruct (is_char squote c) eqn:E; [|done].
      by apply is_char_eq in E as ->.
Qed.

Lemma pass_word w pre post :
  ch squote ∉ w →
  lex_loop (pre ++ quoted_word w ++ post) (words_state ts rs [] None false QuoteNone (length pre))
  = lex_loop (pre ++ quoted_word w ++ post)
      (words_state ts rs w (Some (length pre)) true QuoteNone (length (pre ++ quoted_word w))).
Proof.
  intros Hw. unfold quoted_word.
  rewrite (lex_loop_pass _ _ (words_state ts rs [] (Some (length pre)) true QuoteSingle (length pre + 1))).
  - replace (pre ++ (ch squote :: w ++ [ch squote]) ++ post)
      with ((pre ++ [ch squote]) ++ w ++ ch squote :: post) by (simpl; by rewrite <-!app_assoc).
    replace (length pre + 1) with (length (pre ++ [ch squote])) by (by rewrite length_app).
    rewrite pass_in_quote by done. f_equal. unfold words_state. f_equal.
    rewrite !length_app. simpl. rewrite length_app. simpl. lia.
  - simpl. rewrite length_app. simpl. lia.
  - unfold lex_step. simpl. rewrite list_lookup_middle by done. reflexivity.
Qed.

Lemma pass_space pre post t start quoted :
  t ≠ [] →
  lex_loop (pre ++ ch " " :: post) (words_state ts rs t (Some start) quoted QuoteNone (length pre))
  = lex_loop (pre ++ ch " " :: post)
      (words_state (ts ++ [t]) (rs ++ [(start, length pre)]) [] None false QuoteNone (length pre + 1)).
Proof.
  intros Ht. apply lex_loop_pass; simpl; [rewrite length_app; simpl; lia|].
  unfold lex_step. simpl. rewrite list_lookup_middle by done. by destruct t.
Qed.
End Words.

Lemma lex_quoted_words ws pre ts rs :
  ws ≠ [] → Forall (λ w, w ≠ [] ∧ ch squote ∉ w) ws →
  ∃ rs', (st ← lex_loop (pre ++ quoted_words ws) (words_state ts rs [] None false QuoteNone (length pre));
          lex_finish (pre ++ quoted_words ws) st)
         = Ok (mkLexed [mkSegment (ts ++ ws) rs' false [] false] [] []).
Proof.
  revert pre ts rs. induction ws as [|w ws IH]; intros pre ts rs Hne Hws; [done|].
  apply Forall_cons in Hws as [[Hw Hq] Hws]. destruct ws as [|w' ws].
  - exists (rs ++ [(length pre, length (pre ++ quoted_word w))]). cbn [quoted_words].
    rewrite <-(app_nil_r (quoted_word w)) at 1. rewrite (pass_word ts rs w pre []) by done.
    rewrite app_nil_r, lex_loop_done by done. cbn [mbind result_bind].
    unfold lex_finish. destruct w as [|c w]; [done|]. simpl. by destruct ts.
  - change (quoted_words (w :: w' :: ws)) with (quoted_word w ++ ch " " :: quoted_words (w' :: ws)).
    rewrite pass_word by done. rewrite !app_assoc. rewrite pass_space by done.
    destruct (IH ((pre ++ quoted_word w) ++ [ch " "]) (ts ++ [w])
      (rs ++ [(length pre, length (pre ++ quoted_word w))])) as [rs' H]; [done..|].
    exists rs'. rewrite <-(app_assoc ts), (length_app _ [ch " "]), <-(app_assoc _ [ch " "]) in H.
    exact H.
Qed.

(** Quoting is undone exactly: a command line of words in single quotes,
    separated by spaces, is one segment that runs those words, with no
    redirection, no here-document and nothing to substitute. *)
Theorem quoted_words_roundtrip ws :
  ws ≠ [] → Forall (λ w, w ≠ [] ∧ ch squote ∉ w) ws →
  ∃ ranges, lex_command (quoted_words ws) = Ok (mkLexed [mkSegment ws ranges false [] false] [] []).
Proof. exact (lex_quoted_words ws [] [] []). Qed.

Lemma quoted_words_roundtrip_witness :
  ∃ ranges, lex_command (rs "'rm' '-rf $(x) > y' ';&|'")
            = Ok (mkLexed [mkSegment [rs "rm"; rs "-rf $(x) > y"; rs ";&|"] ranges false [] false] [] []).
Proof.
  apply (quoted_words_roundtrip [rs "rm"; rs "-rf $(x) > y"; rs ";&|"]); [discriminate|].
  repeat constructor; try discriminate; apply (bool_decide_unpack _); vm_compute; exact I.
Defined.

(** The main loop of the lexer terminates: each pass that succeeds moves
    the index forward, within the text, so that the fuelled loop satisfies the
    equation of the source's [while]. *)
Theorem lex_loop_terminates chars st :
  lex_loop chars st
  = (if lx_index st <? length chars then st' ← lex_step chars st; lex_loop chars st' else Ok st)
  ∧ (lx_index st < length chars →
     ∀ st', lex_step chars st = Ok st' → lx_index st < lx_index st' ≤ length chars).
Proof. split; [apply lex_loop_unfold|]. intros Hi st' H. by apply lex_step_moves. Qed.

(** What the lexer returns is well formed: there is a segment; every
    segment has a word; the words are non-empty, come from disjoint ranges of
    the text in increasing order, across segments too; each embedded command is
    a proper part of the text; and the ranges to be ignored lie in the text. *)
Theorem lex_command_well_formed chars lexed :
  lex_command chars = Ok lexed →
  segments lexed ≠ [] ∧ segments_in 0 (length chars) (segments lexed)
  ∧ Forall (embedded_ok chars) (embedded_commands lexed)
  ∧ Forall (range_ok chars) (ignored_policy_ranges lexed).
Proof. intros H. apply lex_command_ok_aux in H as []. done. Qed.

Lemma lex_command_well_formed_witness :
  ∃ lexed, lex_command (rs "ls -la | grep $(cat x)") = Ok lexed ∧ length (segments lexed) = 2
    ∧ segments_in 0 22 (segments lexed).
Proof.
  eexists. split; [vm_compute; reflexivity|]. split; [reflexivity|].
  apply (lex_command_well_formed (rs "ls -la | grep $(cat x)")). vm_compute. reflexivity.
Defined.

(** ** Here-documents *)

Lemma drop_lines chars start line line' lines :
  split_at (is_char newline) (drop start chars) = line :: line' :: lines →
  start + length line < length chars
  ∧ split_at (is_char newline) (drop (start + length line + 1) chars) = line' :: lines.
Proof.
  remember (drop start chars) as s eqn:E. revert start line E.
  induction s as [|c s IH]; intros start line E; [done|]. cbn [split_at].
  assert (start < length chars ∧ drop (start + 1) chars = s) as [Hlt Hs].
  { split.
    - destruct (decide (start < length chars)); [done|]. rewrite drop_ge in E by lia. done.
    - by rewrite <-drop_drop, <-E. }
  destruct (is_char newline c).
  - intros [= <- H]. simpl. rewrite Nat.add_0_r, Hs. auto.
  - destruct (split_at (is_char newline) s) as [|l ls] eqn:Es; [done|].
    intros [= <- ->]. destruct (IH (start + 1) l) as [H1 H2]; [done..|].
    simpl. replace (start + S (length l)) with (start + 1 + length l) by lia. done.
Qed.

Lemma find_heredoc_end_spec chars delimiter before after start :
  split_at (is_char newline) (drop start chars) = before ++ delimiter :: after →
  delimiter ∉ before → start ≤ length chars →
  ∃ next, find_heredoc_end chars (before ++ delimiter :: after) start delimiter = Some next
    ∧ start ≤ next ≤ length chars
    ∧ (if after is [] then next = length chars
       else split_at (is_char newline) (drop next chars) = after).
Proof.
  revert start. induction before as [|line before IH]; intros start Hs Hd Hle; simpl.
  - rewrite (proj2 (str_eqb_eq delimiter delimiter)) by done.
    pose proof (lines_length_split (is_char newline) (drop start chars)) as Hl.
    rewrite Hs, length_drop in Hl. cbn [app lines_length] in Hl.
    destruct after as [|line after].
    + eexists. split; [done|]. rewrite (proj2 (Nat.ltb_ge _ _)) by lia. lia.
    + apply drop_lines in Hs as [H1 H2]. eexists. split; [done|].
      rewrite (proj2 (Nat.ltb_lt _ _)) by lia. split; [lia|done].
  - apply not_elem_of_cons in Hd as [Hne Hd].
    destruct (str_eqb line delimiter) eqn:E; [by apply str_eqb_eq in E|].
    assert (start + length line < length chars
      ∧ split_at (is_char newline) (drop (start + length line + 1) chars)
        = before ++ delimiter :: after) as [H1 H2].
    { destruct before as [|l before]; cbn [app] in *; by apply drop_lines in Hs. }
    rewrite (proj2 (Nat.eqb_neq _ _)) by lia.
    destruct (IH (start + length line + 1) H2 Hd) as (next & Hn & Hb & Ha); [lia|].
    exists next. split_and!; [done|lia..|done].
Qed.

Lemma find_heredoc_end_none chars lines start delimiter :
  delimiter ∉ lines → find_heredoc_end chars lines start delimiter = None.
Proof.
  revert start. induction lines as [|line lines IH]; intros start Hd; [done|]. simpl.
  apply not_elem_of_cons in Hd as [Hne Hd].
  destruct (str_eqb line delimiter) eqn:E; [by apply str_eqb_eq in E|].
  destruct (_ =? _); [done|]. by apply IH.
Qed.

(** A here-document ends at the first line that is exactly the delimiter,
    and nowhere else: the body that is skipped is what lies before the line
    after it, the rest of the text is left as it was, and without such a line
    the command is refused. *)
Theorem heredoc_body_consumed chars start delimiter :
  start ≤ length chars →
  (∀ before after,
     split_at (is_char newline) (drop start chars) = before ++ delimiter :: after →
     delimiter ∉ before →
     ∃ next, consume_heredoc_body chars start delimiter = Ok (next, (start, next))
       ∧ start ≤ next ≤ length chars
       ∧ (if after is [] then next = length chars
          else split_at (is_char newline) (drop next chars) = after))
  ∧ (delimiter ∉ split_at (is_char newline) (drop start chars) →
     consume_heredoc_body chars start delimiter
     = syntax_error "command.malformed.heredoc_terminator_missing"
         "heredoc 缺少独占一行且精确匹配的终止符。").
Proof.
  intros Hle. unfold consume_heredoc_body. split.
  - intros before after Hs Hd.
    destruct (find_heredoc_end_spec _ _ _ _ _ Hs Hd Hle) as (next & Hn & H).
    exists next. by rewrite Hs, Hn.
  - intros Hd. by rewrite find_heredoc_end_none.
Qed.

(** A body with the lines [a], [EOF ] and [EOF], and a command after it. *)
Definition heredoc_example : rstr :=
  map N_of_ascii ["a"; newline; "E"; "O"; "F"; " "; newline; "E"; "O"; "F"; newline; "l"; "s"]%char.

Lemma heredoc_body_consumed_witness :
  0 ≤ length heredoc_example ∧ consume_heredoc_body heredoc_example 0 (rs "EOF") = Ok (11, (0, 11)).
Proof.
  split; [lia|].
  destruct (proj1 (heredoc_body_consumed heredoc_example 0 (rs "EOF") ltac:(lia))
    [rs "a"; rs "EOF "] [rs "ls"]) as (next & H & _ & _).
  - vm_compute. reflexivity.
  - apply (bool_decide_unpack _). vm_compute. exact I.
  - vm_compute in H |- *. injection H as <-. reflexivity.
Defined.

(** * The properties of the command policy

    Each theorem states what a decision of the policy guarantees; the proofs
    apply the library of CommandSafety and CommandPolicyFacts. *)

(** The settings of the witnesses. *)
Definition guarded_permissions : AgentPermissions :=
  mkPermissions Read_All Write_WorkspaceOnly Command_AutoApprove Guarded
    Patch_RequireApproval Builtin_RequireApproval.
Definition full_permissions : AgentPermissions :=
  mkPermissions Read_All Write_All Command_AutoApprove FullAccess
    Patch_AutoApprove Builtin_AutoApprove.

(** C1. Under the guarded policy a command runs without a person exactly when
    it is safe in the declarative sense: it lexes, its redirection targets are
    accepted, every segment of it invokes an identified program plainly, only
    reads or runs a listed workspace task, and every nested command is safe in
    turn, at most eight levels down; and the working directory is in the
    scope of reads. *)
Theorem automatic_allow_iff_safe home command p root cwd :
  command_safety p = Guarded →
  decision (evaluate_command_policy_at home command p Automatic root cwd) = Allow ↔
  auto_safe home (read p) cwd (MAX_POLICY_NESTING + 1) command
  ∧ cwd_in_scope (read p) root cwd = true.
Proof.
  intros Hg. rewrite evaluate_decision. unfold guarded_automatic. rewrite Hg. simpl.
  rewrite guarded_automatic_clean, evaluated_clean, andb_true_iff.
  unfold analyze_command. by rewrite analyze_at_clean.
Qed.

Lemma automatic_allow_iff_safe_witness :
  auto_safe None Read_All None (MAX_POLICY_NESTING + 1) (rs "ls src && bash -c 'cargo test'")
  ∧ cwd_in_scope Read_All None None = true.
Proof.
  apply (automatic_allow_iff_safe None _ guarded_permissions None None); [reflexivity|].
  vm_compute. reflexivity.
Defined.

(** The decision is a function of the findings, of the safety policy and of
    who authorised the command: a catastrophic or unsupported finding denies;
    otherwise approval is required exactly when the policy is guarded, the
    authorisation automatic and some finding has an effect that needs a
    person; otherwise the command is allowed. *)
Theorem decision_of_findings home command p auth root cwd :
  let ev := evaluate_command_policy_at home command p auth root cwd in
  (decision ev = Deny ↔
     ∃ f, f ∈ findings ev ∧ (risk f = Catastrophic ∨ risk f = Unsupported))
  ∧ (decision ev = RequireExplicitApproval ↔
       (¬ ∃ f, f ∈ findings ev ∧ (risk f = Catastrophic ∨ risk f = Unsupported))
       ∧ command_safety p = Guarded ∧ auth = Automatic
       ∧ ∃ f, f ∈ findings ev ∧ requires_explicit_approval (risk f) = true).
Proof.
  cbv zeta. rewrite evaluate_decision, evaluate_findings.
  rewrite decide_on_Deny, decide_on_Approval, <- always_denied_iff. split; [done|].
  rewrite not_true_iff_false. unfold guarded_automatic, needs_approval, risks.
  rewrite andb_true_iff, !bool_decide_eq_true, existsb_true.
  split.
  - intros (? & [? ?] & r & (f & -> & Hf)%list_elem_of_fmap & ?). split_and!; eauto.
  - intros (? & ? & ? & f & Hf & ?). split_and!; [done..|].
    exists (risk f). split; [by apply list_elem_of_fmap; eauto|done].
Qed.

(** No setting avoids a denial: a command that is denied is denied under
    every permission, every authorisation source and every workspace. *)
Theorem denial_unconditional home command p q auth auth' root root' cwd :
  decision (evaluate_command_policy_at home command p auth root cwd) = Deny ↔
  decision (evaluate_command_policy_at home command q auth' root' cwd) = Deny.
Proof. by rewrite !evaluate_decision, !decide_on_Deny, (evaluated_denied _ _ p q root root'). Qed.

(** C34. Narrowing never widens: under the meet of two permission ceilings, and
    with no more than the original authorisation, a command is decided no more
    permissively than under either ceiling. *)
Theorem narrowing_never_widens home command p q auth root cwd :
  let rank p := decision_rank (decision (evaluate_command_policy_at home command p auth root cwd)) in
  rank (meet p q) ≤ rank p `min` rank q
  ∧ rank p ≤ decision_rank (decision
      (evaluate_command_policy_at home command p ExplicitUser root cwd)).
Proof.
  cbv zeta. split.
  - apply Nat.min_glb; apply decision_monotone; try done; apply (meet_le_iff p q); done.
  - apply decision_monotone; [done|]. destruct auth; simpl; lia.
Qed.

(** A command substitution cannot hide a denied command: when the text
    inside [$(..)] or backticks would be denied on its own, so is the command
    that contains it. *)
Theorem embedded_denial home command text lexed e p auth root cwd :
  normalize_command_text command = Ok text → lex_command text = Ok lexed →
  e ∈ embedded_commands lexed →
  decision (evaluate_command_policy_at home e p auth root cwd) = Deny →
  decision (evaluate_command_policy_at home command p auth root cwd) = Deny.
Proof.
  intros Ht Hl He Hd. apply evaluate_Deny in Hd. apply evaluate_Deny.
  eapply analyze_at_denied; [done..|]. right. exists e. split; [done|].
  by eapply denied_depth; [|exact Hd]; lia.
Qed.

Lemma embedded_denial_witness :
  decision (evaluate_command_policy_at None (rs "echo $(rm -rf /)") full_permissions ExplicitUser None None)
  = Deny.
Proof.
  eapply (embedded_denial None _ _ _ (rs "rm -rf /")).
  - vm_compute. reflexivity.
  - vm_compute. reflexivity.
  - apply list_elem_of_In. vm_compute. left. reflexivity.
  - vm_compute. reflexivity.
Defined.

(** A shell cannot hide a denied command: when the command string of
    [sh -c] in some segment would be denied on its own, the whole command is
    denied, behind any wrapper that [effective_program] resolves. *)
Theorem shell_denial home command text lexed s ep i nested p auth root cwd :
  normalize_command_text command = Ok text → lex_command text = Ok lexed →
  s ∈ segments lexed →
  env_split_command (tokens s) = Ok None → effective_program (tokens s) = Some ep →
  let words := drop (program_index ep) (tokens s) in
  is_shell_program (program_basename (default [] (head words))) = true →
  shell_command_argument_index words = Some i → words !! i = Some nested →
  decision (evaluate_command_policy_at home nested p auth root cwd) = Deny →
  decision (evaluate_command_policy_at home command p auth root cwd) = Deny.
Proof.
  intros Ht Hl Hs He Hp words Hsh Hi Hw Hd. apply evaluate_Deny in Hd. apply evaluate_Deny.
  eapply analyze_at_denied; [done..|]. left. exists s. split; [done|]. intros k f.
  eapply assess_shell_denied; [done..|]. by eapply denied_depth; [|exact Hd]; lia.
Qed.

Lemma shell_denial_witness :
  decision (evaluate_command_policy_at None (rs "true && nohup_log=1 bash -c 'rm -rf /'")
    full_permissions ExplicitUser None None) = Deny.
Proof.
  eapply (shell_denial None _ _ _ _ _ 2 (rs "rm -rf /")).
  - vm_compute. reflexivity.
  - vm_compute. reflexivity.
  - apply list_elem_of_In. vm_compute. right. left. reflexivity.
  - vm_compute. reflexivity.
  - vm_compute. reflexivity.
  - vm_compute. reflexivity.
  - vm_compute. reflexivity.
  - vm_compute. reflexivity.
  - vm_compute. reflexivity.
Defined.

(** Privilege escalation is always denied: a command with a segment that
    runs one of the privilege programs, behind assignments and wrappers, is
    denied whatever its arguments and whoever authorises it. *)
Theorem privilege_escalation_denied home command text lexed s ep p auth root cwd :
  normalize_command_text command = Ok text → lex_command text = Ok lexed →
  s ∈ segments lexed →
  env_split_command (tokens s) = Ok None → effective_program (tokens s) = Some ep →
  one_of (program_basename (default [] (head (drop (program_index ep) (tokens s)))))
    ["sudo"; "sudoedit"; "doas"; "su"; "pkexec"; "run0"] = true →
  decision (evaluate_command_policy_at home command p auth root cwd) = Deny.
Proof.
  intros Ht Hl Hs He Hp Hsu. apply evaluate_Deny.
  eapply analyze_at_denied; [done..|]. left. exists s. split; [done|]. intros k f.
  set (words := drop (program_index ep) (tokens s)) in *.
  assert (is_shell_program (program_basename (default [] (head words))) = false
    ∧ one_of (program_basename (default [] (head words))) ["python"; "python3"; "node"] = false)
    as [H1 H2].
  { apply one_of_elem in Hsu as (l & Hl' & ->).
    repeat (apply elem_of_cons in Hl' as [->|Hl']; [done|]). set_solver. }
  eapply assess_segment_denied; [done..|].
  unfold classify_segment, classify_catastrophic. fold words. by rewrite Hsu.
Qed.

Lemma privilege_escalation_denied_witness :
  decision (evaluate_command_policy_at None (rs "echo ok | LANG=C command sudo -n ls")
    full_permissions ExplicitUser None None) = Deny.
Proof.
  eapply (privilege_escalation_denied None).
  - vm_compute. reflexivity.
  - vm_compute. reflexivity.
  - apply list_elem_of_In. vm_compute. right. left. reflexivity.
  - vm_compute. reflexivity.
  - vm_compute. reflexivity.
  - vm_compute. reflexivity.
Defined.

(** ** Redirections *)


(** The redirection operator at index [i] is one or two [>] and ends at [j]. *)
Definition operator_end (chars : rstr) (i j : nat) : Prop :=
  chars !! (i + 1) = Some (ch ">") ∧ j = i + 2 ∨ chars !! (i + 1) ≠ Some (ch ">") ∧ j = i + 1.

(** The first index from [j] on that has no blank. *)
Definition operand (chars : rstr) (j k : nat) : Prop :=
  j ≤ k ∧ (∀ m, j ≤ m < k → ∃ c, chars !! m = Some c ∧ is_whitespace c = true)
  ∧ ∀ c, chars !! k = Some c → is_whitespace c = false.

(** The operand at [j] is a descriptor, or closes one, and ends there. *)
Definition duplicates (chars : rstr) (j : nat) : Prop :=
  ∃ n, j < n ∧ is_shell_boundary (chars !! n) = true
    ∧ (chars !! j = Some (ch "-") ∧ n = j + 1
       ∨ ∀ m, j ≤ m < n → ∃ c, chars !! m = Some c ∧ is_ascii_digit c = true).

(** The word that begins at [k] is static and no device or kernel interface. *)
Definition safe_target (chars : rstr) (k : nat) : Prop :=
  ∃ target next, read_redirection_target chars k = Ok (target, false, next)
    ∧ is_catastrophic_write_target target = false.

(** What is accepted of the redirection whose operator is at index [i]: after an
    [&] the duplication of a descriptor, and otherwise the operand that follows
    the operator, behind blanks, is a safe target. *)
Definition accepted_redirection (chars : rstr) (i : nat) : Prop :=
  ∃ j, operator_end chars i j
    ∧ (chars !! j = Some (ch "&")
         ∧ (duplicates chars (j + 1) ∨ ∃ k, operand chars (j + 1) k ∧ safe_target chars k)
       ∨ chars !! j ≠ Some (ch "&") ∧ ∃ k, operand chars j k ∧ safe_target chars k).











(** A redirection to a device is not accepted, whatever words come after it. *)
Example device_not_accepted : ¬ accepted_redirection (rs "echo y >> /dev/sda out") 7.
Proof.
  intros (j & [[_ ->]|[H _]] & Hop); [|by destruct H].
  destruct Hop as [[H _]|[_ (k & (Hjk & Hblank & Hk) & target & next & Hr & Hsafe)]]; [done|].
  destruct (decide (k = 9)) as [->|]; [by specialize (Hk _ eq_refl)|].
  destruct (decide (k = 10)) as [->|Hne].
  - vm_compute in Hr. injection Hr as <- <-. vm_compute in Hsafe. discriminate Hsafe.
  - destruct (Hblank 10 ltac:(lia)) as (c & [= <-] & H). discriminate H.
Qed.

(** ** Nesting, aggregation, normal forms *)

(** The analysis is bounded and consistent: deeper than eight levels every
    command is refused, and a command that is accepted at some depth has the
    same findings at any smaller depth. *)
Theorem nesting_bounded home command read cwd :
  (∀ depth, MAX_POLICY_NESTING < depth →
     analyze_command home command read cwd depth
     = syntax_error "command.unsupported.nesting_limit" "命令的嵌套层级超过安全分析上限。")
  ∧ (∀ depth depth' fs, depth ≤ depth' →
       analyze_command home command read cwd depth' = Ok fs →
       analyze_command home command read cwd depth = Ok fs).
Proof.
  unfold analyze_command. split.
  - intros depth Hd. by replace (MAX_POLICY_NESTING + 1 - depth) with 0 by lia.
  - intros depth depth' fs Hd. apply analyze_at_depth. lia.
Qed.

Lemma foldl_max_level levels level :
  foldl max_level level levels ∈ level :: levels
  ∧ ∀ l, l ∈ level :: levels → level_rank l ≤ level_rank (foldl max_level level levels).
Proof.
  revert level. induction levels as [|l ls IH]; intros level; simpl.
  { split; [by left|]. by intros l ->%list_elem_of_singleton. }
  destruct (IH (max_level level l)) as [H1 H2].
  assert ((max_level level l = level ∨ max_level level l = l)
          ∧ level_rank level ≤ level_rank (max_level level l)
          ∧ level_rank l ≤ level_rank (max_level level l)) as (Hin & Ha & Hb).
  { unfold max_level. destruct (level_rank level <=? level_rank l) eqn:E;
      [apply Nat.leb_le in E|apply Nat.leb_gt in E]; split_and!; auto; lia. }
  assert (level_rank (max_level level l) ≤ level_rank (foldl max_level (max_level level l) ls))
    as Hm by (apply H2; by left).
  split.
  - rewrite !elem_of_cons in *. destruct Hin as [E|E]; rewrite E in *; tauto.
  - intros x Hx. rewrite !elem_of_cons in Hx. destruct Hx as [->|[->|Hx]]; [lia..|].
    apply H2. by right.
Qed.

(** The risk level of a command is the greatest level of its findings in the
    order read-only, writes, unknown, network, destructive; without findings it
    is unknown. *)
Theorem aggregate_is_greatest fs :
  let level := aggregate_risk_level fs in
  (∀ f, f ∈ fs → level_rank (level_of_risk (risk f)) ≤ level_rank level)
  ∧ match fs with
     | [] => level = Level_Unknown
     | _ => ∃ f, f ∈ fs ∧ level = level_of_risk (risk f)
     end.
Proof.
  cbv zeta. unfold aggregate_risk_level. destruct fs as [|f fs]; [by split; [intros f Hf%elem_of_nil|]|].
  cbn [map]. destruct (foldl_max_level (map (λ f, level_of_risk (risk f)) fs)
    (level_of_risk (risk f))) as [H1 H2].
  change (level_of_risk (risk f) :: map (λ f, level_of_risk (risk f)) fs)
    with ((λ f, level_of_risk (risk f)) <$> (f :: fs)) in H1, H2.
  split.
  - intros g Hg. apply H2, list_elem_of_fmap. eauto.
  - apply list_elem_of_fmap in H1 as (g & H1 & Hg). eauto.
Qed.

Lemma newline_no_cr : ch carriage_return ∉ rs (String newline EmptyString).
Proof. apply (bool_decide_unpack _). vm_compute. exact I. Qed.

(** Normalising a command text either refuses it, or returns a text that is
    not blank, has at most 16000 characters, contains neither a carriage return
    nor a null character, and is its own normal form; a text that already has
    these properties is returned unchanged. *)
Theorem normalize_command_text_spec command :
  (∀ text, normalize_command_text command = Ok text →
     trim text ≠ [] ∧ (N.of_nat (length text) ≤ MAX_COMMAND_CHARS)%N
     ∧ ch carriage_return ∉ text ∧ ch nul ∉ text ∧ normalize_command_text text = Ok text)
  ∧ (trim command ≠ [] → (N.of_nat (length command) ≤ MAX_COMMAND_CHARS)%N →
     ch carriage_return ∉ command → ch nul ∉ command →
     normalize_command_text command = Ok command).
Proof.
  assert (∀ t, trim t ≠ [] → (N.of_nat (length t) ≤ MAX_COMMAND_CHARS)%N →
    ch carriage_return ∉ t → ch nul ∉ t → normalize_command_text t = Ok t) as Hid.
  { intros t H1 H2 H3 H4. unfold normalize_command_text. cbv zeta.
    rewrite replace_pair_id, replace_char_id by done. rewrite bool_decide_eq_false_2 by done.
    rewrite (proj2 (N.ltb_ge _ _)) by done.
    destruct (existsb (is_char nul) t) eqn:E; [|done].
    apply existsb_true in E as (x & Hx & ->%is_char_eq). done. }
  split; [|apply Hid]. intros text. unfold normalize_command_text at 1. cbv zeta.
  set (t := replace_char _ _ _). case_bool_decide as H1; [done|].
  destruct (_ <? _)%N eqn:H2; [done|]. destruct (existsb _ _) eqn:H3; [done|].
  intros [= <-]. apply N.ltb_ge in H2.
  assert (ch carriage_return ∉ t) as H4 by apply replace_char_free, newline_no_cr.
  assert (ch nul ∉ t) as H5.
  { intros Hx. rewrite existsb_false in H3. specialize (H3 _ Hx).
    unfold is_char in H3. by rewrite N.eqb_refl in H3. }
  split_and!; auto.
Qed.

(** Lexical normalisation gives one canonical path: the result of any text
    has no [.] and no [..], is a fixed point, is what its own text denotes, and
    stays absolute; [.] and a name followed by [..] make no difference, so every
    spelling of a protected path meets the same check. *)
Theorem normalize_lexical_path_canonical text p q v :
  let n := normalize_lexical_path (parse_path text) in
  normalized n ∧ normalize_lexical_path n = n ∧ parse_path (path_text n) = n
  ∧ (is_absolute (parse_path text) = true → is_absolute n = true)
  ∧ normalize_lexical_path (p ++ CurDir :: q) = normalize_lexical_path (p ++ q)
  ∧ normalize_lexical_path (p ++ Normal v :: ParentDir :: q) = normalize_lexical_path (p ++ q).
Proof.
  cbv zeta. pose proof (normalize_normalized _ (parse_path_proper text)) as Hn.
  split_and!; [done|by apply normalize_fixed|by apply parse_path_text
              |apply normalize_absolute|..]; unfold normalize_lexical_path.
  - by rewrite !foldl_app.
  - rewrite !foldl_app. simpl. f_equal. unfold path_pop. by rewrite last_snoc, removelast_snoc.
Qed.

(** ** The closed option grammar *)

Section Closed.
Context (flags values : list string) (short_flags short_values : string).

(** An option word every part of which is listed. *)
Definition listed_option (w : rstr) : Prop :=
  one_of w flags = true ∨ one_of w values = true
  ∨ (∃ name value, split_once w "=" = Some (name, value) ∧ one_of name values = true ∧ value ≠ [])
  ∨ (∃ c, head (drop 1 w) = Some c ∧ is_in short_values c = true)
  ∨ (drop 1 w ≠ [] ∧ forallb (is_in short_flags) (drop 1 w) = true).

(** A listed option that takes the next word as its value. *)
Definition takes_value (w : rstr) : Prop :=
  one_of w values = true ∨ ∃ c, drop 1 w = [c] ∧ is_in short_values c = true.

Definition is_option_word (w : rstr) : bool := starts_with w "-" && negb (is_str w "-").

(** Every option word before [--] is listed, or is the value of the word before it. *)
Definition only_listed (rest : list rstr) : Prop :=
  ∀ i w, rest !! i = Some w → is_option_word w = true →
    (∀ j, j ≤ i → rest !! j ≠ Some (rs "--")) →
    listed_option w ∨ ∃ prev k, i = S k ∧ rest !! k = Some prev ∧ takes_value prev.

Lemma only_listed_cons w rest :
  (is_option_word w = true → w ≠ rs "--" → listed_option w) → (w ≠ rs "--" → only_listed rest) →
  only_listed (w :: rest).
Proof.
  intros Hw Hr [|i] w' Hi Ho Hend.
  - injection Hi as <-. left. apply Hw; [done|]. intros ->. by apply (Hend 0).
  - destruct (Hr) with (i := i) (w := w') as [H|(prev & k & -> & Hk & Ht)]; try done.
    + intros ->. apply (Hend 0); [lia|done].
    + intros j Hj. apply (Hend (S j)). lia.
    + by left.
    + right. exists prev, (S k). done.
Qed.

Lemma only_listed_value w value rest :
  listed_option w → takes_value w → only_listed rest → only_listed (w :: value :: rest).
Proof.
  intros Hw Ht Hr [|[|i]] w' Hi Ho Hend.
  - injection Hi as <-. by left.
  - right. exists w, 0. done.
  - destruct (Hr i w') as [H|(prev & k & -> & Hk & Hp)]; [done..| | |].
    + intros j Hj. apply (Hend (S (S j))). lia.
    + by left.
    + right. exists prev, (S (S k)). done.
Qed.

Lemma grammar_only_listed rest :
  cli_grammar flags values short_flags short_values rest false = true → only_listed rest.
Proof.
  remember (length rest) as n eqn:Hn. revert rest Hn.
  induction n as [n IH] using lt_wf_ind. intros rest ->.
  assert (∀ r, length r < length rest →
    cli_grammar flags values short_flags short_values r false = true → only_listed r) as IH'.
  { intros r Hl. by apply (IH (length r)). }
  clear IH. destruct rest as [|w rest]; [by intros _ i w Hi|].
  cbn [cli_grammar]. cbn [length] in IH'.
  destruct (false || is_str w "-" || negb (starts_with w "-")) eqn:E1.
  { intros H. apply only_listed_cons; [|intros _; apply IH'; [lia|done]].
    unfold is_option_word. destruct (starts_with w "-"), (is_str w "-"); simpl in *; done. }
  destruct (is_str w "--") eqn:E2.
  { apply is_str_eq in E2 as ->. intros _. by apply only_listed_cons. }
  destruct (starts_with w "--").
  - destruct (one_of w flags) eqn:E3.
    { intros H. apply only_listed_cons; [by left|intros _; apply IH'; [lia|done]]. }
    destruct (split_once w "=") as [[name value]|] eqn:E4.
    + destruct (one_of name values && _) eqn:E5; [|done].
      apply andb_true_iff in E5 as [E5 E6%negb_true_iff%bool_decide_eq_false].
      intros H. apply only_listed_cons; [|intros _; apply IH'; [lia|done]].
      intros _ _. right; right; left. eauto.
    + destruct (one_of w values) eqn:E5; [|done]. destruct rest as [|value rest]; [done|].
      intros H. apply only_listed_value; [by right; left|by left|].
      apply IH'; [simpl; lia|done].
  - destruct (head (drop 1 w)) as [c|] eqn:E3; [|done].
    destruct (is_in short_values c) eqn:E4.
    + assert (listed_option w) as Hw by (right; right; right; left; eauto).
      destruct (length (drop 1 w) =? 1) eqn:E5.
      * destruct rest as [|value rest]; [done|]. intros H.
        apply only_listed_value; [done| |apply IH'; [simpl; lia|done]].
        right. exists c. split; [|done].
        destruct (drop 1 w) as [|d [|e l]]; simplify_eq/=; done.
      * intros H. apply only_listed_cons; [done|intros _; apply IH'; [lia|done]].
    + destruct (forallb _ _) eqn:E5; [|done]. intros H.
      apply only_listed_cons; [|intros _; apply IH'; [lia|done]].
      intros _ _. do 4 right. split; [|done]. by intros Hd; rewrite Hd in E3.
Qed.
End Closed.

(** The option grammar is closed: when it accepts a command's words, every
    option word before [--] is one of the listed options, spelled as the list
    allows, or the value of the listed option before it; no unlisted option
    passes. *)
Theorem grammar_closed tokens start flags values short_flags short_values :
  matches_closed_cli_grammar tokens start flags values short_flags short_values = true →
  only_listed flags values short_flags short_values (drop start tokens).
Proof. apply grammar_only_listed. Qed.

Lemma grammar_closed_witness :
  only_listed ["--all"] ["--jobs"] "qv" "pj" [rs "-q"; rs "--jobs"; rs "-4"; rs "x"].
Proof.
  apply (grammar_closed [rs "cargo"; rs "test"; rs "-q"; rs "--jobs"; rs "-4"; rs "x"] 2).
  vm_compute. reflexivity.
Defined.

(** ** A separator that outlives its command *)

(** [true && "cat"], a newline, [reboot]. *)
Definition pending_quoted : rstr :=
  rs "true && " ++ [ch dquote] ++ rs "cat" ++ [ch dquote; ch newline] ++ rs "reboot".
Definition pending_unquoted : rstr := rs "true && cat" ++ [ch newline] ++ rs "reboot".

(** The operator state is only cleared by an unquoted character: after
    [&&] a command whose first word is quoted leaves it pending, and the next
    newline then does not end the segment.  The two commands run on the two
    lines are read as the words of one, so [reboot] on a line of its own is
    allowed automatically after a quoted word, and denied after a plain one. *)
Theorem quoted_word_leaves_operator_pending :
  (tokens <$> (match lex_command pending_quoted with Ok lexed => segments lexed | Err _ => [] end))
    = [[rs "true"]; [rs "cat"; rs "reboot"]]
  ∧ (tokens <$> (match lex_command pending_unquoted with Ok lexed => segments lexed | Err _ => [] end))
    = [[rs "true"]; [rs "cat"]; [rs "reboot"]]
  ∧ decision (evaluate_command_policy_at None pending_quoted guarded_permissions Automatic None None)
    = Allow
  ∧ decision (evaluate_command_policy_at None pending_unquoted full_permissions ExplicitUser None None)
    = Deny.
Proof. vm_compute. done. Qed.

(** ** A quote inside a comment *)

(** [echo y > /dev/sda], alone and on the line after [ls # it's]. *)
Definition device_write : rstr := rs "echo y > /dev/sda".
Definition commented_device_write : rstr := rs "ls # it's" ++ [ch newline] ++ device_write.

(** The redirection scan does not know comments, which the lexer skips: an
    apostrophe in a comment opens a quote for the scan, and hides the
    redirections after it.  Writing to a disk device, refused whoever asks, is
    allowed on the line after such a comment once a person or full access has
    authorised the command (the guarded policy still asks). *)
Theorem comment_quote_hides_redirection :
  decision (evaluate_command_policy_at None device_write full_permissions ExplicitUser None None)
    = Deny
  ∧ decision (evaluate_command_policy_at None commented_device_write full_permissions Automatic None None)
    = Allow
  ∧ decision (evaluate_command_policy_at None commented_device_write guarded_permissions ExplicitUser None None)
    = Allow
  ∧ decision (evaluate_command_policy_at None commented_device_write guarded_permissions Automatic None None)
    = RequireExplicitApproval.
Proof. vm_compute. done. Qed.
