(* ===== verification/KeyedAdmission.v ===== *)
(** * Resource admission

    [KeyedAdmission] of [core-server/src/application/agent/keyed_admission.rs]:
    the bookkeeping state behind the mutex, the operations on it, and the
    coordinator as a transition system.  Each critical section of the source is
    one step; the condition variable is modelled by the set of waiters that
    sleep on it and by the notifications that are still to be sent, because
    [Drop] notifies after it has released the mutex. *)

From stdpp Require Import sorting.
From S2P Require Import Prelude RustText.

(** ** Keys *)

(** [sort_unstable]: equal strings are the same value, so any sort gives this list. *)
Definition sort_unstable (keys : list rstr) : list rstr := merge_sort str_le keys.

(** [Vec::dedup]. *)
Definition dedup (keys : list rstr) : list rstr := vec_dedup str_eqb keys.

(** [slice::binary_search], by halving the range [base, base + size). *)
Fixpoint binary_search_from (fuel : nat) (keys : list rstr) (base size : nat) (id : rstr)
    : option nat :=
  match fuel with
  | O => None
  | S fuel =>
      if size =? 0 then None
      else
        let mid := base + size / 2 in
        match keys !! mid with
        | None => None
        | Some key =>
            if str_eqb key id then Some mid
            else if str_leb key id
                 then binary_search_from fuel keys (mid + 1) (size - size / 2 - 1) id
                 else binary_search_from fuel keys base (size / 2) id
        end
  end.

Definition binary_search (keys : list rstr) (id : rstr) : option nat :=
  binary_search_from (S (length keys)) keys 0 (length keys) id.

(** ** State *)

Inductive Scope :=
| Global
| Conversations (keys : list rstr).

(** [ThreadId] is opaque in the source. *)
Abbreviation ThreadId := nat (only parsing).

Record Waiter := mkWaiter {
  ticket : N;
  thread : ThreadId;
  waiter_scope : Scope;
}.

Record State := mkState {
  generation : N;
  queue : list Waiter;
  global : bool;
  active_keys : gset rstr;
  owners : gset ThreadId;
}.

Definition default_state : State := mkState 0 [] false ∅ ∅.

Record AdmissionGuard := mkGuard {
  owner : ThreadId;
  guard_scope : Scope;
}.

(** ** Operations *)

Definition conflicts (s other : Scope) : bool :=
  match s, other with
  | Global, _ | _, Global => true
  | Conversations left_keys, Conversations right_keys =>
      existsb (λ id, bool_decide (is_Some (binary_search right_keys id))) left_keys
  end.

(** [State::ready(index)]; an index out of range panics in the source and is
    not ready here ([acquire] only asks for positions it has just found). *)
Definition ready (st : State) (index : nat) : bool :=
  match queue st !! index with
  | None => false
  | Some waiter =>
      let scope := waiter_scope waiter in
      if global st then false
      else
        let keys_busy :=
          match scope with
          | Global => negb (bool_decide (active_keys st = ∅))
          | Conversations keys => existsb (λ key, bool_decide (key ∈ active_keys st)) keys
          end in
        negb keys_busy
        && forallb (λ earlier, negb (conflicts scope (waiter_scope earlier)))
             (take index (queue st))
  end.

(** [lock] and [lock_conversations] up to [acquire]: the scope that is asked for. *)
Inductive admission_panic :=
| EmptyResourceSet
| NestedAdmission
| TicketExhausted.

Definition lock : Scope := Global.

Definition lock_conversations (conversation_ids : list rstr) : result admission_panic Scope :=
  if bool_decide (conversation_ids = [])
     || negb (forallb (λ id, negb (bool_decide (id = []))) conversation_ids)
  then Err EmptyResourceSet
  else Ok (Conversations (dedup (sort_unstable conversation_ids))).

Definition lock_conversation (conversation_id : rstr) : result admission_panic Scope :=
  lock_conversations [conversation_id].

(** The critical section at the start of [acquire]: the ticket that was queued. *)
Definition enqueue (st : State) (current_thread : ThreadId) (scope : Scope)
    : result admission_panic (N * State) :=
  if bool_decide (current_thread ∈ owners st)
     || existsb (λ waiter, thread waiter =? current_thread) (queue st)
  then Err NestedAdmission
  else if (u64_max <=? generation st)%N then Err TicketExhausted
  else
    let ticket := (generation st + 1)%N in
    Ok (ticket, mkState ticket (queue st ++ [mkWaiter ticket current_thread scope])
                  (global st) (active_keys st) (owners st)).

Definition scope_keys (scope : Scope) : list rstr :=
  match scope with Global => [] | Conversations keys => keys end.

(** One pass of the waiting loop: the position of the ticket, and the state and
    guard when it is admitted; [None] goes back to waiting. *)
Definition acquire_ready (st : State) (t : N) : option (AdmissionGuard * State) :=
  index ← position (λ waiter, N.eqb (ticket waiter) t) (queue st);
  if ready st index then
    waiter ← queue st !! index;
    let scope := waiter_scope waiter in
    Some (mkGuard (thread waiter) scope,
          mkState (generation st) (delete index (queue st))
            (match scope with Global => true | Conversations _ => global st end)
            (active_keys st ∪ list_to_set (scope_keys scope))
            (owners st ∪ {[thread waiter]}))
  else None.

(** [impl Drop for AdmissionGuard], up to the notification. *)
Definition release (st : State) (g : AdmissionGuard) : State :=
  mkState (generation st) (queue st)
    (match guard_scope g with Global => false | Conversations _ => global st end)
    (active_keys st ∖ list_to_set (scope_keys (guard_scope g)))
    (owners st ∖ {[owner g]}).

(** ** The coordinator as a transition system *)

Record Sys := mkSys {
  state : State;
  guards : list AdmissionGuard;
  asleep : gset N;
  to_notify : nat;
}.

Definition init : Sys := mkSys default_state [] ∅ 0.

(** A scope as [lock] and [lock_conversations] build it. *)
Inductive requested : Scope → Prop :=
| requested_global : requested lock
| requested_conversations ids scope : lock_conversations ids = Ok scope → requested scope.

Inductive step : Sys → Sys → Prop :=
| step_enqueue sys th scope t st :
    requested scope → enqueue (state sys) th scope = Ok (t, st) →
    step sys (mkSys st (guards sys) ∅ (to_notify sys))
| step_admit sys t g st :
    t ∉ asleep sys → acquire_ready (state sys) t = Some (g, st) →
    step sys (mkSys st (g :: guards sys) (asleep sys) (to_notify sys))
| step_wait sys t w :
    w ∈ queue (state sys) → ticket w = t → acquire_ready (state sys) t = None →
    step sys (mkSys (state sys) (guards sys) (asleep sys ∪ {[t]}) (to_notify sys))
| step_spurious sys t :
    step sys (mkSys (state sys) (guards sys) (asleep sys ∖ {[t]}) (to_notify sys))
| step_release sys gs1 g gs2 :
    guards sys = gs1 ++ g :: gs2 →
    step sys (mkSys (release (state sys) g) (gs1 ++ gs2) (asleep sys) (S (to_notify sys)))
| step_notify sys n :
    to_notify sys = S n →
    step sys (mkSys (state sys) (guards sys) ∅ n).

Definition steps : relation Sys := rtc step.
Definition reachable (sys : Sys) : Prop := steps init sys.
