(* ===== verification/KeyedAdmissionFacts.v ===== *)
(** * Facts about resource admission

    The key sets as ordered lists, and the invariant of the coordinator that
    every step preserves.

    After that: the properties of resource admission. *)

From stdpp Require Import sorting.
From S2P Require Import Prelude RustText KeyedAdmission.

(** ** Sorted key lists *)

Definition sorted (keys : list rstr) : Prop := StronglySorted str_le keys.

Lemma sorted_lookup keys i j a b :
  sorted keys → i ≤ j → keys !! i = Some a → keys !! j = Some b → str_le a b.
Proof.
  intros H. revert i j. induction H as [|k keys H IH Hk]; intros i j Hij Ha Hb; [done|].
  destruct i as [|i], j as [|j]; simplify_eq/=; [done| |lia|].
  - eapply Forall_lookup_1 in Hk; done.
  - eapply IH; [|done..]. lia.
Qed.

Lemma binary_search_from_spec keys id fuel base size :
  sorted keys → size < fuel → base + size ≤ length keys →
  is_Some (binary_search_from fuel keys base size id) ↔
  ∃ i, base ≤ i < base + size ∧ keys !! i = Some id.
Proof.
  intros Hs. revert base size. induction fuel as [|fuel IH]; intros base size Hf Hl; [lia|].
  cbn [binary_search_from]. destruct (size =? 0) eqn:E0.
  { apply Nat.eqb_eq in E0. split; [by intros []|]. intros (i & ? & _). lia. }
  apply Nat.eqb_neq in E0. pose proof (Nat.div_lt size 2 ltac:(lia) ltac:(lia)) as Hh.
  set (half := size / 2) in *. clearbody half. cbv zeta.
  destruct (lookup_lt_is_Some_2 keys (base + half)) as [key Hk]; [lia|]. rewrite Hk.
  destruct (str_eqb key id) eqn:E1.
  { apply str_eqb_eq in E1 as ->. split; [|eauto]. intros _. exists (base + half). split; [lia|done]. }
  assert (key ≠ id) as Hne by (intros ->; by rewrite (proj2 (str_eqb_eq id id)) in E1).
  destruct (str_leb key id) eqn:E2; rewrite IH by lia; split; intros (i & Hi & Hk').
  - exists i. split; [lia|done].
  - exists i. split; [|done]. destruct (decide (i ≤ base + half)); [|lia].
    exfalso. apply Hne, (anti_symm str_le); [done|]. eapply (sorted_lookup keys i); done.
  - exists i. split; [lia|done].
  - apply str_le_strict in E2 as [E2 _].
    exists i. split; [|done]. destruct (decide (base + half ≤ i)); [|lia].
    exfalso. apply Hne, (anti_symm str_le); [|done]. eapply (sorted_lookup keys _ i); done.
Qed.

Lemma binary_search_spec keys id :
  sorted keys → is_Some (binary_search keys id) ↔ id ∈ keys.
Proof.
  intros Hs. unfold binary_search. rewrite binary_search_from_spec by (done || lia).
  rewrite list_elem_of_lookup. split; [naive_solver|].
  intros [i Hi]. exists i. split; [|done]. apply lookup_lt_Some in Hi. lia.
Qed.

Lemma sort_unstable_sorted keys : sorted (sort_unstable keys).
Proof. apply (StronglySorted_merge_sort str_le). Qed.

Lemma dedup_elem keys x : x ∈ dedup keys ↔ x ∈ keys.
Proof. apply (vec_dedup_elem str_eqb str_eqb_eq). Qed.

Lemma dedup_sorted keys : sorted keys → sorted (dedup keys).
Proof. apply (vec_dedup_sorted str_eqb str_eqb_eq). Qed.

Lemma dedup_NoDup keys : sorted keys → NoDup (dedup keys).
Proof. apply (vec_dedup_NoDup str_eqb str_eqb_eq str_le). Qed.

(** ** Scopes *)

Definition scope_ok (s : Scope) : Prop :=
  match s with Global => True | Conversations keys => keys ≠ [] ∧ sorted keys ∧ NoDup keys end.

(** What [conflicts] decides: a global scope, or a shared Conversation. *)
Definition scopes_conflict (s o : Scope) : Prop :=
  s = Global ∨ o = Global ∨ ∃ key, key ∈ scope_keys s ∧ key ∈ scope_keys o.

#[export] Instance scopes_conflict_sym : Symmetric scopes_conflict.
Proof. intros s o [H|[H|(k & H1 & H2)]]; unfold scopes_conflict; eauto. Qed.

Lemma conflicts_iff s o : scope_ok o → conflicts s o = true ↔ scopes_conflict s o.
Proof.
  intros Ho. unfold scopes_conflict. destruct s as [|l], o as [|r]; simpl; try naive_solver.
  destruct Ho as (_ & Hs & _). rewrite existsb_true. split.
  - intros (k & Hk & H%bool_decide_eq_true). right; right. exists k. by apply binary_search_spec in H.
  - intros [|[|(k & Hk & H)]]; try done. exists k. split; [done|].
    by apply bool_decide_eq_true, binary_search_spec.
Qed.

Lemma lock_conversations_ok ids scope :
  lock_conversations ids = Ok scope →
  scope_ok scope ∧ ∃ keys, scope = Conversations keys ∧ ∀ id, id ∈ keys ↔ id ∈ ids.
Proof.
  unfold lock_conversations. destruct (bool_decide (ids = []) || _) eqn:E; [done|].
  apply orb_false_iff in E as [E%bool_decide_eq_false _]. intros [= <-].
  assert (∀ id, id ∈ dedup (sort_unstable ids) ↔ id ∈ ids) as Hin.
  { intros id. rewrite dedup_elem. unfold sort_unstable. by rewrite merge_sort_Permutation. }
  split; [|by eexists]. split_and!.
  - destruct ids as [|id ids]; [done|]. intros Hd.
    assert (id ∈ dedup (sort_unstable (id :: ids))) as H by (apply Hin; by left).
    rewrite Hd in H. by apply elem_of_nil in H.
  - apply dedup_sorted, sort_unstable_sorted.
  - apply dedup_NoDup, sort_unstable_sorted.
Qed.

Lemma requested_ok scope : requested scope → scope_ok scope.
Proof. intros [|ids s H]; [done|]. by apply lock_conversations_ok in H as [? _]. Qed.

(** ** The invariant *)

Definition guards_conflict_free (gs : list AdmissionGuard) : Prop :=
  StronglySorted (λ g h, ¬ scopes_conflict (guard_scope g) (guard_scope h)) gs.

Record inv (sys : Sys) : Prop := {
  inv_scopes : ∀ w, w ∈ queue (state sys) → scope_ok (waiter_scope w);
  inv_guard_scopes : ∀ g, g ∈ guards sys → scope_ok (guard_scope g);
  inv_exclusive : guards_conflict_free (guards sys);
  inv_global : global (state sys) = true ↔ ∃ g, g ∈ guards sys ∧ guard_scope g = Global;
  inv_keys : ∀ k, k ∈ active_keys (state sys) ↔
      ∃ g, g ∈ guards sys ∧ k ∈ scope_keys (guard_scope g);
  inv_owners : ∀ th, th ∈ owners (state sys) ↔ ∃ g, g ∈ guards sys ∧ owner g = th;
  inv_threads : NoDup ((owner <$> guards sys) ++ (thread <$> queue (state sys)));
  inv_tickets : StronglySorted N.lt (ticket <$> queue (state sys));
  inv_generation : ∀ w, w ∈ queue (state sys) → (ticket w ≤ generation (state sys))%N;
  inv_awake : ∀ i w, queue (state sys) !! i = Some w → ready (state sys) i = true →
      ticket w ∈ asleep sys → 0 < to_notify sys;
}.

(** [State::ready], in terms of the guards that are held. *)
Definition admissible (sys : Sys) (i : nat) (w : Waiter) : Prop :=
  queue (state sys) !! i = Some w
  ∧ (∀ g, g ∈ guards sys → ¬ scopes_conflict (waiter_scope w) (guard_scope g))
  ∧ (∀ j e, j < i → queue (state sys) !! j = Some e →
       ¬ scopes_conflict (waiter_scope w) (waiter_scope e)).

Lemma scope_key_exists s : scope_ok s → s ≠ Global → ∃ k, k ∈ scope_keys s.
Proof.
  destruct s as [|[|k ks]]; simpl; [done|naive_solver|]. intros _ _. exists k. by left.
Qed.

Lemma earlier_free (q : list Waiter) i (w : Waiter) :
  (∀ e, e ∈ q → scope_ok (waiter_scope e)) →
  forallb (λ earlier, negb (conflicts (waiter_scope w) (waiter_scope earlier))) (take i q) = true ↔
  ∀ j e, j < i → q !! j = Some e → ¬ scopes_conflict (waiter_scope w) (waiter_scope e).
Proof.
  intros Hq. rewrite forallb_true. split.
  - intros H j e Hj He. assert (e ∈ take i q) as Hin.
    { apply list_elem_of_lookup. exists j. by rewrite lookup_take_lt. }
    apply H, negb_true_iff in Hin. rewrite <-conflicts_iff; [congruence|].
    by apply Hq, (list_elem_of_lookup_2 _ j).
  - intros H e (j & He)%list_elem_of_lookup.
    apply lookup_take_Some in He as [He Hj]. apply negb_true_iff, not_true_iff_false.
    rewrite conflicts_iff; [by eapply H|]. by apply Hq, (list_elem_of_lookup_2 _ j).
Qed.

Lemma keys_free sys scope :
  inv sys → scope_ok scope →
  (global (state sys) = false ∧
   match scope with
   | Global => negb (bool_decide (active_keys (state sys) = ∅))
   | Conversations keys => existsb (λ key, bool_decide (key ∈ active_keys (state sys))) keys
   end = false) ↔
  ∀ g, g ∈ guards sys → ¬ scopes_conflict scope (guard_scope g).
Proof.
  intros Hinv Hs. rewrite <-not_true_iff_false, inv_global by done. split.
  - intros [Hg Hk] g Hin Hc.
    assert (guard_scope g ≠ Global) as Hng by eauto.
    destruct Hc as [->|[?|(k & H1 & H2)]]; [|done|].
    + destruct (scope_key_exists (guard_scope g)) as [k Hkk]; [by eapply inv_guard_scopes|done|].
      apply negb_false_iff, bool_decide_eq_true in Hk.
      assert (k ∈ active_keys (state sys)) as Hka by (apply inv_keys; eauto).
      rewrite Hk in Hka. set_solver.
    + destruct scope as [|keys]; [by apply elem_of_nil in H1|]. rewrite existsb_false in Hk.
      specialize (Hk k H1). apply bool_decide_eq_false in Hk. apply Hk, inv_keys; eauto.
  - intros H. split.
    + intros (g & Hg & E). apply (H g Hg). right; left. done.
    + destruct scope as [|keys].
      * apply negb_false_iff, bool_decide_eq_true, elem_of_equiv_empty_L. intros k.
        rewrite inv_keys by done. intros (g & Hg & _). apply (H g Hg). by left.
      * apply existsb_false. intros k Hk. apply bool_decide_eq_false. rewrite inv_keys by done.
        intros (g & Hg & Hkg). apply (H g Hg). right; right. eauto.
Qed.

Lemma ready_iff sys i : inv sys → ready (state sys) i = true ↔ ∃ w, admissible sys i w.
Proof.
  intros Hinv. unfold ready, admissible.
  destruct (queue (state sys) !! i) as [w|] eqn:Ew; [|naive_solver].
  assert (scope_ok (waiter_scope w)) as Hw by (eapply inv_scopes, list_elem_of_lookup_2; done).
  pose proof (keys_free sys (waiter_scope w) Hinv Hw) as Hk.
  pose proof (earlier_free (queue (state sys)) i w (inv_scopes _ Hinv)) as He.
  cbv zeta. rewrite <-Hk, <-He || idtac. destruct (global (state sys)).
  - split; [done|]. intros (w' & [= <-] & H & _). by apply Hk in H as [? _].
  - rewrite andb_true_iff, negb_true_iff, He. split.
    + intros [Hb Ha]. exists w. split_and!; [done|by apply Hk|done].
    + intros (w' & [= <-] & H & Ha). by apply Hk in H as [_ ?].
Qed.

Lemma queue_ticket_unique q i j (w v : Waiter) :
  StronglySorted N.lt (ticket <$> q) → q !! i = Some w → q !! j = Some v →
  ticket w = ticket v → i = j.
Proof.
  revert i j. induction q as [|a q IH]; intros i j H Hi Hj E; [done|].
  rewrite fmap_cons in H. apply StronglySorted_cons in H as [Hf Hs].
  rewrite Forall_fmap, Forall_forall in Hf.
  destruct i as [|i], j as [|j]; simplify_eq/=; [done| | |f_equal; by eapply IH].
  - apply list_elem_of_lookup_2, Hf in Hj. simpl in Hj. lia.
  - apply list_elem_of_lookup_2, Hf in Hi. simpl in Hi. lia.
Qed.

Lemma position_ticket q t i :
  StronglySorted N.lt (ticket <$> q) →
  position (λ waiter, N.eqb (ticket waiter) t) q = Some i ↔ ∃ w, q !! i = Some w ∧ ticket w = t.
Proof.
  intros Hs. rewrite position_Some. setoid_rewrite N.eqb_eq. split; [naive_solver|].
  intros (w & Hw & E). split; [eauto|]. intros j v Hj Hv. apply N.eqb_neq. intros Ev.
  assert (i = j); [|lia]. eapply queue_ticket_unique; [done..|congruence].
Qed.

Definition admitted (w : Waiter) : AdmissionGuard := mkGuard (thread w) (waiter_scope w).

Definition after_admission (st : State) (i : nat) (w : Waiter) : State :=
  mkState (generation st) (delete i (queue st))
    (match waiter_scope w with Global => true | Conversations _ => global st end)
    (active_keys st ∪ list_to_set (scope_keys (waiter_scope w)))
    (owners st ∪ {[thread w]}).

Lemma acquire_ready_iff sys t g st :
  inv sys →
  acquire_ready (state sys) t = Some (g, st) ↔
  ∃ i w, admissible sys i w ∧ ticket w = t ∧ g = admitted w ∧ st = after_admission (state sys) i w.
Proof.
  intros Hinv. unfold acquire_ready. split.
  - intros H. apply bind_Some in H as (i & Hp & H).
    apply position_ticket in Hp as (w & Hw & Ht); [|by apply inv_tickets].
    destruct (ready (state sys) i) eqn:Hr; [|done]. rewrite Hw in H. injection H as <- <-.
    apply ready_iff in Hr as (w' & Ha); [|done].
    assert (w' = w) as -> by (destruct Ha as [Ha _]; congruence). by exists i, w.
  - intros (i & w & Ha & Ht & -> & ->). pose proof Ha as [Hw _].
    rewrite (proj2 (position_ticket (queue (state sys)) t i (inv_tickets _ Hinv))) by eauto.
    cbn [mbind option_bind]. rewrite (proj2 (ready_iff sys i Hinv)) by eauto.
    rewrite Hw. reflexivity.
Qed.

Lemma acquire_ready_None sys t i w :
  inv sys → acquire_ready (state sys) t = None → queue (state sys) !! i = Some w → ticket w = t →
  ready (state sys) i = false.
Proof.
  intros Hinv H Hw Ht. unfold acquire_ready in H.
  rewrite (proj2 (position_ticket (queue (state sys)) t i (inv_tickets _ Hinv))) in H by eauto.
  cbn [mbind option_bind] in H. destruct (ready (state sys) i); [|done]. by rewrite Hw in H.
Qed.

(** The position in the queue before a deletion. *)
Definition before_delete (i j : nat) : nat := if j <? i then j else S j.

Lemma lookup_delete_before {A} (q : list A) i j : delete i q !! j = q !! before_delete i j.
Proof.
  unfold before_delete. destruct (j <? i) eqn:E.
  - apply Nat.ltb_lt in E. by apply list_lookup_delete_lt.
  - apply Nat.ltb_ge in E. by apply list_lookup_delete_ge.
Qed.

Lemma elem_of_delete_queue {A} (q : list A) i x : x ∈ delete i q → x ∈ q.
Proof. intros (j & H)%list_elem_of_lookup. rewrite lookup_delete_before in H. by eapply list_elem_of_lookup_2. Qed.

Lemma delete_split {A} (q : list A) i w :
  q !! i = Some w → q = take i q ++ w :: drop (S i) q ∧ delete i q = take i q ++ drop (S i) q.
Proof. intros H. split; [by rewrite take_drop_middle|by apply delete_take_drop]. Qed.

(** Admitting one waiter makes no other waiter admissible that was not already:
    whoever waited for it in the queue now waits for its guard. *)
Lemma admit_keeps_blocked sys i w j v :
  inv sys → admissible sys i w →
  admissible (mkSys (after_admission (state sys) i w) (admitted w :: guards sys)
                (asleep sys) (to_notify sys)) j v →
  admissible sys (before_delete i j) v.
Proof.
  intros Hinv (Hw & Hwg & Hwe) (Hv & Hg & He). cbn [state guards after_admission queue] in *.
  rewrite lookup_delete_before in Hv.
  assert (¬ scopes_conflict (waiter_scope v) (waiter_scope w)) as Hvw.
  { apply (Hg (admitted w)). by left. }
  split_and!; [done| |].
  - intros g Hin. apply Hg. by right.
  - intros k e Hk Hek. destruct (decide (k = i)) as [->|Hne].
    { rewrite Hw in Hek. by injection Hek as <-. }
    apply (He (if k <? i then k else k - 1)).
    + unfold before_delete in Hk. destruct (k <? i) eqn:E1, (j <? i) eqn:E2;
        rewrite ?Nat.ltb_lt, ?Nat.ltb_ge in *; lia.
    + rewrite lookup_delete_before. rewrite <-Hek. f_equal. unfold before_delete.
      destruct (k <? i) eqn:E1; [by rewrite E1|]. apply Nat.ltb_ge in E1.
      rewrite (proj2 (Nat.ltb_ge _ _)) by lia. lia.
Qed.

(** ** Every step preserves the invariant *)

Lemma inv_init : inv init.
Proof. split; simpl; try set_solver; constructor. Qed.

Lemma inv_enqueue sys th scope t st :
  inv sys → requested scope → enqueue (state sys) th scope = Ok (t, st) →
  inv (mkSys st (guards sys) ∅ (to_notify sys)).
Proof.
  intros [] Hr%requested_ok. unfold enqueue.
  destruct (bool_decide (th ∈ owners _) || _) eqn:E; [done|].
  apply orb_false_iff in E as [E1%bool_decide_eq_false E2].
  destruct (_ <=? _)%N; [done|]. intros [= <- <-]. split; simpl; try done.
  - intros w [Hw| ->%list_elem_of_singleton]%elem_of_app; [by apply inv_scopes0|done].
  - rewrite fmap_app, app_assoc. apply NoDup_app. split_and!; [done| |apply NoDup_singleton].
    intros x Hx Hx'. apply list_elem_of_singleton in Hx' as ->.
    apply elem_of_app in Hx as [(g & E & Hg)%list_elem_of_fmap|(w & E & Hw)%list_elem_of_fmap].
    + apply E1, inv_owners0. eauto.
    + rewrite existsb_false in E2. apply E2 in Hw. apply Nat.eqb_neq in Hw. simpl in E. congruence.
  - rewrite fmap_app. apply StronglySorted_app. split_and!; [|done|repeat constructor].
    intros x y (w & -> & Hw)%list_elem_of_fmap Hy. apply list_elem_of_singleton in Hy as ->.
    apply inv_generation0 in Hw. simpl. lia.
  - intros w [Hw| ->%list_elem_of_singleton]%elem_of_app; simpl; [|lia].
    apply inv_generation0 in Hw. lia.
Qed.

Lemma inv_admit sys t g st :
  inv sys → acquire_ready (state sys) t = Some (g, st) →
  inv (mkSys st (g :: guards sys) (asleep sys) (to_notify sys)).
Proof.
  intros Hinv (i & w & Ha & Ht & -> & ->)%acquire_ready_iff; [|done].
  pose proof Ha as (Hw & Hwg & Hwe). pose proof (delete_split _ _ _ Hw) as [Hq Hd].
  assert (inv (mkSys (after_admission (state sys) i w) (admitted w :: guards sys)
            (asleep sys) (S (to_notify sys)))) as Hinv'.
  { pose proof Hinv as []. split; simpl.
    - intros v Hv%elem_of_delete_queue. auto.
    - intros g [->|Hg]%elem_of_cons; [|auto]. simpl. by eapply inv_scopes0, list_elem_of_lookup_2.
    - constructor; [done|]. apply Forall_forall. intros g Hg. by apply Hwg.
    - setoid_rewrite elem_of_cons. destruct (waiter_scope w) eqn:E.
      + split; [|done]. intros _. exists (admitted w). auto.
      + rewrite inv_global0. split; [naive_solver|]. intros (g & [->|Hg] & Hs); [simpl in Hs; congruence|eauto].
    - intros k. rewrite elem_of_union, inv_keys0, elem_of_list_to_set.
      setoid_rewrite elem_of_cons. split; [|naive_solver].
      intros [(g & Hg & Hk)|Hk]; [eauto|]. exists (admitted w). auto.
    - intros th. rewrite elem_of_union, inv_owners0, elem_of_singleton.
      setoid_rewrite elem_of_cons. split; [|naive_solver].
      intros [(g & Hg & Hk)| ->]; [eauto|]. exists (admitted w). auto.
    - rewrite Hd. rewrite Hq in inv_threads0. revert inv_threads0.
      rewrite !fmap_app, fmap_cons. rewrite !app_assoc, <-Permutation_middle. done.
    - rewrite Hd, fmap_app. rewrite Hq, fmap_app, fmap_cons in inv_tickets0.
      apply StronglySorted_app in inv_tickets0 as (H1 & H2 & H3).
      apply StronglySorted_cons in H3 as [_ H3]. apply StronglySorted_app.
      split_and!; [|done..]. intros x y Hx Hy. apply H1; [done|by right].
    - intros v Hv%elem_of_delete_queue. auto.
    - lia. }
  pose proof Hinv' as Hi. destruct Hi as [H1 H2 H3 H4 H5 H6 H7 H8 H9 _]. split; try assumption.
  intros j v Hj Hr Hs. cbn [state] in *.
  apply (ready_iff _ _ Hinv') in Hr as (v' & Hv').
  assert (v' = v) as -> by (destruct Hv' as [Hv' _]; cbn [state] in Hv'; congruence).
  apply (admit_keeps_blocked sys i w j v Hinv Ha) in Hv' as Hb.
  pose proof Hb as [Hb' _]. cbn [to_notify asleep] in *.
  eapply (inv_awake _ Hinv); [done| |done]. apply ready_iff; eauto.
Qed.

Lemma inv_release sys gs1 g gs2 :
  inv sys → guards sys = gs1 ++ g :: gs2 →
  inv (mkSys (release (state sys) g) (gs1 ++ gs2) (asleep sys) (S (to_notify sys))).
Proof.
  intros [] Hg. rewrite Hg in *.
  assert (∀ h, h ∈ gs1 ++ gs2 → ¬ scopes_conflict (guard_scope g) (guard_scope h)
            ∧ owner h ≠ owner g) as Hfree.
  { apply StronglySorted_app in inv_exclusive0 as (H1 & _ & H3).
    apply StronglySorted_cons in H3 as [H3 _]. rewrite Forall_forall in H3.
    rewrite fmap_app, fmap_cons, <-app_assoc in inv_threads0.
    apply NoDup_app in inv_threads0 as (_ & N1 & N2). simpl in N2.
    apply NoDup_cons in N2 as [N2 _].
    intros h [Hh|Hh]%elem_of_app; split.
    - intros Hc. eapply (H1 h g); [done|by left|]. by symmetry.
    - intros E. eapply (N1 (owner h)); [by apply list_elem_of_fmap; eauto|]. rewrite E. by left.
    - by apply H3.
    - intros E. apply N2, elem_of_app. left. apply list_elem_of_fmap. eauto. }
  split; simpl; try done.
  - intros h Hh. apply inv_guard_scopes0. set_solver.
  - apply StronglySorted_app in inv_exclusive0 as (H1 & H2 & H3).
    apply StronglySorted_cons in H3 as [_ H3]. apply StronglySorted_app.
    split_and!; [|done..]. intros x y Hx Hy. apply H1; [done|by right].
  - destruct (guard_scope g) as [|keys] eqn:E.
    + split; [done|]. intros (h & Hh & Eh). exfalso. apply (proj1 (Hfree h Hh)). by left.
    + rewrite inv_global0. split; intros (h & Hh & Eh); exists h; (split; [|done]).
      * apply elem_of_app in Hh as [?|[->|?]%elem_of_cons]; [set_solver|congruence|set_solver].
      * set_solver.
  - intros k. rewrite elem_of_difference, inv_keys0, elem_of_list_to_set. split.
    + intros [(h & Hh & Hk) Hn]. exists h. split; [|done].
      apply elem_of_app in Hh as [?|[->|?]%elem_of_cons]; set_solver.
    + intros (h & Hh & Hk). split; [exists h; split; [set_solver|done]|].
      intros Hkg. apply (proj1 (Hfree h Hh)). right; right. eauto.
  - intros th. rewrite elem_of_difference, inv_owners0, elem_of_singleton. split.
    + intros [(h & Hh & E) Hn]. exists h. split; [|done].
      apply elem_of_app in Hh as [?|[->|?]%elem_of_cons]; [set_solver|congruence|set_solver].
    + intros (h & Hh & <-). split; [exists h; split; [set_solver|done]|]. by apply Hfree.
  - rewrite fmap_app, fmap_cons in inv_threads0. rewrite fmap_app.
    rewrite <-app_assoc in *. simpl in inv_threads0.
    rewrite <-Permutation_middle in inv_threads0. by apply NoDup_cons in inv_threads0 as [_ ?].
  - lia.
Qed.

Lemma inv_step sys sys' : inv sys → step sys sys' → inv sys'.
Proof.
  intros Hinv Hs. destruct Hs as
    [sys th scope t st Hr He|sys t g st _ Ha|sys t w Hw Ht Hn|sys t|sys gs1 g gs2 Hg|sys n Hn].
  - by eapply inv_enqueue.
  - by eapply inv_admit.
  - pose proof Hinv as []. split; try done. simpl. intros i v Hv Hr Hin.
    rewrite elem_of_union, elem_of_singleton in Hin. destruct Hin as [Hin|E]; [by eapply inv_awake0|].
    assert (ready (state sys) i = false) as Hf by (by eapply acquire_ready_None). congruence.
  - destruct Hinv. split; try done. simpl. intros i v Hv Hr Hin.
    eapply inv_awake0; [done..|]. set_solver.
  - by apply inv_release.
  - destruct Hinv. split; try done.
Qed.

Lemma reachable_inv sys : reachable sys → inv sys.
Proof.
  intros H. unfold reachable, steps in H. revert H.
  apply (rtc_ind_r inv); [apply inv_init|]. intros y z _ Hstep Hy. by eapply inv_step.
Qed.

Lemma reachable_steps sys sys' : reachable sys → steps sys sys' → reachable sys'.
Proof. unfold reachable, steps. intros H1 H2. by transitivity sys. Qed.

(** ** First come, first served *)

(** Among conflicting waiters, a later one is in the queue only behind the earlier. *)
Lemma fifo_step sys sys' (w v : Waiter) :
  inv sys → step sys sys' → w ∈ queue (state sys) → v ∈ queue (state sys) →
  (ticket w < ticket v)%N → scopes_conflict (waiter_scope w) (waiter_scope v) →
  w ∈ queue (state sys') → v ∈ queue (state sys').
Proof.
  intros Hinv Hs Hw Hv Ht Hc Hw'. destruct Hs as
    [sys th scope t st Hr He|sys t g st _ Ha|sys t u Hu Hut Hn|sys t|sys gs1 g gs2 Hg|sys n Hn];
    simpl in *; try done.
  - unfold enqueue in He. destruct (bool_decide _ || _); [done|].
    destruct (_ <=? _)%N; [done|]. injection He as <- <-. simpl. apply elem_of_app. by left.
  - apply acquire_ready_iff in Ha as (i & u & (Hu & _ & He) & Hut & -> & ->); [|done]. simpl in *.
    apply list_elem_of_lookup in Hv as (j & Hj). apply list_elem_of_lookup in Hw as (k & Hk).
    destruct (decide (j = i)) as [->|Hne].
    + exfalso. rewrite Hj in Hu. injection Hu as ->.
      apply (He k w); [|done|by symmetry].
      destruct (decide (k < i)); [done|]. exfalso.
      pose proof (inv_tickets _ Hinv) as Hts.
      destruct (decide (k = i)) as [->|]; [rewrite Hj in Hk; injection Hk as ->; lia|].
      assert (ticket u < ticket w)%N; [|lia].
      rewrite <-(take_drop_middle _ _ _ Hj), fmap_app, fmap_cons in Hts.
      apply StronglySorted_app in Hts as (_ & _ & Hts).
      apply StronglySorted_cons in Hts as [Hts _]. rewrite Forall_fmap, Forall_forall in Hts.
      apply Hts, list_elem_of_lookup. exists (k - S i). rewrite lookup_drop. rewrite <-Hk. f_equal. lia.
    + apply list_elem_of_lookup. exists (if j <? i then j else j - 1).
      rewrite lookup_delete_before, <-Hj. f_equal. unfold before_delete.
      destruct (j <? i) eqn:E; [by rewrite E|]. apply Nat.ltb_ge in E.
      rewrite (proj2 (Nat.ltb_ge _ _)) by lia. lia.
Qed.

(** The generation covers the queue, so a ticket that has left never returns. *)
Lemma queue_step_back sys sys' (w : Waiter) :
  inv sys → step sys sys' → w ∈ queue (state sys') →
  w ∈ queue (state sys) ∨ (generation (state sys) < ticket w)%N.
Proof.
  intros Hinv Hs Hw. destruct Hs as
    [sys th scope t st Hr He|sys t g st _ Ha|sys t u Hu Hut Hn|sys t|sys gs1 g gs2 Hg|sys n Hn];
    simpl in *; try (by left).
  - unfold enqueue in He. destruct (bool_decide _ || _); [done|].
    destruct (_ <=? _)%N; [done|]. injection He as <- <-. simpl in Hw.
    apply elem_of_app in Hw as [Hw| ->%list_elem_of_singleton]; [by left|right]. simpl. lia.
  - apply acquire_ready_iff in Ha as (i & u & _ & _ & -> & ->); [|done]. simpl in *.
    left. by eapply elem_of_delete_queue.
Qed.

Lemma generation_step sys sys' :
  inv sys → step sys sys' → (generation (state sys) ≤ generation (state sys'))%N.
Proof.
  intros Hinv Hs. destruct Hs as
    [sys th scope t st Hr He|sys t g st _ Ha| | | | ]; simpl in *; try done.
  - unfold enqueue in He. destruct (bool_decide _ || _); [done|].
    destruct (_ <=? _)%N; [done|]. injection He as <- <-. simpl. lia.
  - apply acquire_ready_iff in Ha as (i & u & _ & _ & -> & ->); done.
Qed.

Lemma fifo_steps sys sys' (w v : Waiter) :
  inv sys → steps sys sys' → w ∈ queue (state sys) → v ∈ queue (state sys) →
  (ticket w < ticket v)%N → scopes_conflict (waiter_scope w) (waiter_scope v) →
  w ∈ queue (state sys') → v ∈ queue (state sys').
Proof.
  intros Hinv Hs Hw Hv Ht Hc.
  assert (inv sys' ∧ (generation (state sys) ≤ generation (state sys'))%N
    ∧ (w ∈ queue (state sys') → v ∈ queue (state sys'))) as (_ & _ & H); [|exact H].
  revert Hs. apply (rtc_ind_r (λ s, inv s ∧ (generation (state sys) ≤ generation (state s))%N
    ∧ (w ∈ queue (state s) → v ∈ queue (state s)))); [done|].
  intros y z _ Hstep (Hy & Hg & IH). split_and!.
  - by eapply inv_step.
  - pose proof (generation_step _ _ Hy Hstep). lia.
  - intros Hwz. destruct (queue_step_back _ _ _ Hy Hstep Hwz) as [Hwy|Hlt].
    + eapply fifo_step; eauto.
    + apply (inv_generation _ Hinv) in Hw. lia.
Qed.

(** ** Progress *)

Lemma release_all sys :
  ∃ sys', steps sys sys' ∧ guards sys' = [] ∧ queue (state sys') = queue (state sys).
Proof.
  destruct sys as [st gs a n]. revert st n. induction gs as [|g gs IH]; intros st n.
  { eexists. split; [reflexivity|done]. }
  destruct (IH (release st g) (S n)) as (sys' & Hs & Hg & Hq).
  exists sys'. split_and!; [|done..]. eapply rtc_l; [|exact Hs].
  exact (step_release (mkSys st (g :: gs) a n) [] g gs eq_refl).
Qed.

(** With no guard held the first waiter can be admitted, after at most one
    notification that is already on its way. *)
Lemma admit_head sys w q :
  inv sys → guards sys = [] → queue (state sys) = w :: q →
  ∃ sys', steps sys sys' ∧ guards sys' = [admitted w] ∧ queue (state sys') = q.
Proof.
  intros Hinv Hg Hq.
  assert (admissible sys 0 w) as Ha.
  { split_and!; [by rewrite Hq| |intros; lia]. rewrite Hg. by intros g ?%elem_of_nil. }
  assert (∃ sys1, steps sys sys1 ∧ guards sys1 = [] ∧ state sys1 = state sys
            ∧ ticket w ∉ asleep sys1) as (sys1 & Hs & Hg1 & Hst & Hw).
  { destruct (decide (ticket w ∈ asleep sys)) as [Hin|]; [|by exists sys].
    assert (0 < to_notify sys) as Hn.
    { eapply (inv_awake _ Hinv 0); [by destruct Ha| |done]. apply ready_iff; eauto. }
    destruct (to_notify sys) as [|n] eqn:En; [lia|].
    exists (mkSys (state sys) (guards sys) ∅ n). split_and!; [|done..|set_solver].
    apply rtc_once. by apply step_notify. }
  assert (inv sys1) as Hinv1.
  { eapply (rtc_ind_r inv); [exact Hinv| |exact Hs]. intros y z _ ? ?. by eapply inv_step. }
  eexists. split_and!.
  - eapply rtc_r; [exact Hs|]. apply (step_admit _ (ticket w)); [done|].
    apply acquire_ready_iff; [done|]. exists 0, w. split_and!; [|done..].
    unfold admissible in *. by rewrite Hst, Hg1, <-Hg.
  - simpl. by rewrite Hg1.
  - simpl. by rewrite Hst, Hq.
Qed.

Lemma waiter_admitted sys w :
  inv sys → w ∈ queue (state sys) → ∃ sys', steps sys sys' ∧ guards sys' = [admitted w].
Proof.
  remember (queue (state sys)) as q eqn:Hq. revert sys Hq.
  induction q as [|v q IH]; intros sys Hq Hinv Hw; [by apply elem_of_nil in Hw|].
  destruct (release_all sys) as (sys1 & Hs1 & Hg1 & Hq1).
  assert (∀ s, steps sys s → inv s) as Hall.
  { intros s. apply (rtc_ind_r inv); [exact Hinv|]. intros y z _ ? ?. by eapply inv_step. }
  destruct (admit_head sys1 v q) as (sys2 & Hs2 & Hg2 & Hq2); [by apply Hall|done|congruence|].
  assert (steps sys sys2) as Hs by (by etransitivity).
  apply elem_of_cons in Hw as [->|Hw]; [by exists sys2|].
  destruct (IH sys2) as (sys3 & Hs3 & Hg3); [done|by apply Hall|done|].
  exists sys3. split; [by etransitivity|done].
Qed.

(** * The properties of resource admission *)

(** ** Example runs *)

(** One enqueue, and one admission, as functions. *)
Definition enqueued (sys : Sys) (th : nat) (scope : Scope) : Sys :=
  match enqueue (state sys) th scope with
  | Ok (_, st) => mkSys st (guards sys) ∅ (to_notify sys)
  | Err _ => sys
  end.

Definition admitting (sys : Sys) (t : N) : Sys :=
  match acquire_ready (state sys) t with
  | Some (g, st) => mkSys st (g :: guards sys) (asleep sys) (to_notify sys)
  | None => sys
  end.

Definition scope_of (ids : list string) : Scope :=
  match lock_conversations (rs <$> ids) with Ok scope => scope | Err _ => Global end.

(** Thread 1 holds [a] and [b], thread 2 holds [c]; thread 3 asks for [b], thread
    4 for everything, thread 5 for [d]. *)
Definition two_holders : Sys :=
  admitting (enqueued (admitting (enqueued init 1 (scope_of ["b"; "a"])) 1) 2 (scope_of ["c"])) 2.
Definition five_threads : Sys :=
  enqueued (enqueued (enqueued two_holders 3 (scope_of ["b"])) 4 lock) 5 (scope_of ["d"]).

Lemma enqueued_step sys th scope :
  requested scope → steps sys (enqueued sys th scope).
Proof.
  intros Hr. unfold enqueued. destruct (enqueue _ _ _) as [[t st]|] eqn:E; [|reflexivity].
  apply rtc_once. by eapply step_enqueue.
Qed.

Lemma admitting_step sys t : asleep sys = ∅ → steps sys (admitting sys t).
Proof.
  intros Ha. unfold admitting. destruct (acquire_ready _ _) as [[g st]|] eqn:E; [|reflexivity].
  apply rtc_once. apply (step_admit _ t); [rewrite Ha; set_solver|done].
Qed.

Lemma scope_of_requested ids :
  (if lock_conversations (rs <$> ids) is Ok _ then true else false) = true → requested (scope_of ids).
Proof.
  unfold scope_of. destruct (lock_conversations _) as [s|] eqn:E; [|done]. intros _.
  by eapply requested_conversations.
Qed.

Lemma two_holders_reachable : reachable two_holders.
Proof.
  unfold reachable, two_holders.
  etransitivity; [apply (enqueued_step init 1 (scope_of ["b"; "a"])), scope_of_requested; reflexivity|].
  etransitivity; [apply (admitting_step _ 1); reflexivity|].
  etransitivity; [apply (enqueued_step _ 2 (scope_of ["c"])), scope_of_requested; reflexivity|].
  apply admitting_step. reflexivity.
Qed.

Lemma five_threads_reachable : reachable five_threads.
Proof.
  unfold reachable, five_threads. etransitivity; [apply two_holders_reachable|].
  etransitivity; [apply (enqueued_step _ 3 (scope_of ["b"])), scope_of_requested; reflexivity|].
  etransitivity; [apply (enqueued_step _ 4 lock), requested_global|].
  apply enqueued_step, scope_of_requested. reflexivity.
Qed.

(** Thread 3 sleeps behind thread 1, which releases [a] and [b]. *)
Definition released_not_notified : Sys :=
  match guards five_threads with
  | [g2; g1] =>
      let sleeping := mkSys (state five_threads) [g2; g1] {[3%N]} 0 in
      mkSys (release (state sleeping) g1) [g2] {[3%N]} 1
  | _ => init
  end.

Lemma released_not_notified_steps : steps five_threads released_not_notified.
Proof.
  eapply rtc_l.
  - apply (step_wait five_threads 3 (mkWaiter 3 3 (Conversations [rs "b"])));
      [vm_compute; left|vm_compute; reflexivity|vm_compute; reflexivity].
  - eapply rtc_once. unfold released_not_notified.
    assert (guards five_threads
      = [mkGuard 2 (Conversations [rs "c"]); mkGuard 1 (Conversations [rs "a"; rs "b"])]) as Hg
      by (vm_compute; reflexivity).
    rewrite Hg.
    apply (step_release (mkSys (state five_threads) _ _ 0) [mkGuard 2 (Conversations [rs "c"])]
      (mkGuard 1 (Conversations [rs "a"; rs "b"])) []). reflexivity.
Qed.

Lemma released_not_notified_reachable : reachable released_not_notified.
Proof.
  apply (reachable_steps five_threads); [apply five_threads_reachable|].
  apply released_not_notified_steps.
Qed.

(** C22. Mutual exclusion: in every reachable state the reservations that are
    held conflict nowhere: no Conversation is held twice, a global reservation
    is held alone, no thread holds two, and the recorded keys, owners and global
    flag are exactly those of the guards. *)
Theorem admission_mutual_exclusion sys :
  reachable sys →
  (∀ i j g h, i < j → guards sys !! i = Some g → guards sys !! j = Some h →
     ¬ scopes_conflict (guard_scope g) (guard_scope h) ∧ owner g ≠ owner h)
  ∧ (global (state sys) = true ↔ ∃ g, g ∈ guards sys ∧ guard_scope g = Global)
  ∧ (∀ k, k ∈ active_keys (state sys) ↔ ∃ g, g ∈ guards sys ∧ k ∈ scope_keys (guard_scope g))
  ∧ (∀ th, th ∈ owners (state sys) ↔ ∃ g, g ∈ guards sys ∧ owner g = th).
Proof.
  intros [_ _ exclusive ? ? ? threads _ _ _]%reachable_inv. split_and!; [|done..]. intros i j g h Hij Hg Hh.
  rewrite <-(take_drop_middle _ _ _ Hg) in exclusive, threads.
  assert (h ∈ drop (S i) (guards sys)) as Hin.
  { apply list_elem_of_lookup. exists (j - S i). rewrite lookup_drop. rewrite <-Hh. f_equal. lia. }
  split.
  - apply StronglySorted_app in exclusive as (_ & _ & H).
    apply StronglySorted_cons in H as [H _]. rewrite Forall_forall in H. by apply H.
  - intros E. rewrite fmap_app, <-app_assoc in threads.
    apply NoDup_app in threads as (_ & _ & N). apply NoDup_cons in N as [N _].
    apply N, elem_of_app. left. apply list_elem_of_fmap. eauto.
Qed.

Lemma admission_mutual_exclusion_witness :
  length (guards two_holders) = 2
  ∧ ∀ g h, guards two_holders !! 0 = Some g → guards two_holders !! 1 = Some h →
      ¬ scopes_conflict (guard_scope g) (guard_scope h) ∧ owner g ≠ owner h.
Proof.
  split; [vm_compute; reflexivity|]. intros g h.
  apply (proj1 (admission_mutual_exclusion two_holders two_holders_reachable) 0 1). lia.
Defined.

(** A waiter may be admitted exactly when it conflicts with no reservation
    that is held and with no waiter before it: an unrelated Conversation passes
    blocked work, nobody passes a waiting global request. *)
Theorem ready_refines_admissible sys i :
  reachable sys →
  ready (state sys) i = true ↔
  ∃ w, queue (state sys) !! i = Some w
    ∧ (∀ g, g ∈ guards sys → ¬ scopes_conflict (waiter_scope w) (guard_scope g))
    ∧ (∀ j e, j < i → queue (state sys) !! j = Some e →
         ¬ scopes_conflict (waiter_scope w) (waiter_scope e)).
Proof. intros H%reachable_inv. by apply ready_iff. Qed.

(** Thread 3 waits for thread 1; thread 5 may not pass the global request. *)
Lemma ready_refines_admissible_witness :
  ready (state five_threads) 2 = false
  ∧ ¬ (∃ w, queue (state five_threads) !! 2 = Some w
    ∧ (∀ g, g ∈ guards five_threads → ¬ scopes_conflict (waiter_scope w) (guard_scope g))
    ∧ (∀ j e, j < 2 → queue (state five_threads) !! j = Some e →
         ¬ scopes_conflict (waiter_scope w) (waiter_scope e))).
Proof.
  assert (ready (state five_threads) 2 = false) as H by (vm_compute; reflexivity).
  split; [exact H|]. intros Hw.
  apply (ready_refines_admissible five_threads 2 five_threads_reachable) in Hw. congruence.
Defined.

(** Conflicting requests are served in the order of their tickets: over any
    run, as long as the earlier of two conflicting waiters is in the queue, so is
    the later one. *)
Theorem admission_fifo sys sys' w v :
  reachable sys → steps sys sys' →
  w ∈ queue (state sys) → v ∈ queue (state sys) → (ticket w < ticket v)%N →
  scopes_conflict (waiter_scope w) (waiter_scope v) →
  w ∈ queue (state sys') → v ∈ queue (state sys').
Proof. intros H%reachable_inv. by apply fifo_steps. Qed.

Lemma admission_fifo_witness :
  mkWaiter 5 5 (Conversations [rs "d"]) ∈ queue (state released_not_notified).
Proof.
  apply (admission_fifo five_threads released_not_notified (mkWaiter 4 4 Global)
           (mkWaiter 5 5 (Conversations [rs "d"])) five_threads_reachable
           released_not_notified_steps).
  - vm_compute. right. left.
  - vm_compute. right. right. left.
  - reflexivity.
  - left. reflexivity.
  - vm_compute. right. left.
Defined.

(** No wake-up is lost: whenever a waiter that may be admitted sleeps on the
    condition variable, a notification is still on its way; admissions alone
    never have to notify. *)
Theorem no_lost_wakeup sys i w :
  reachable sys → queue (state sys) !! i = Some w → ready (state sys) i = true →
  ticket w ∈ asleep sys → 0 < to_notify sys.
Proof. intros H%reachable_inv. by apply (inv_awake _ H i w). Qed.

Lemma no_lost_wakeup_witness : 0 < to_notify released_not_notified.
Proof.
  apply (no_lost_wakeup released_not_notified 0 (mkWaiter 3 3 (Conversations [rs "b"]))).
  - apply released_not_notified_reachable.
  - vm_compute. reflexivity.
  - vm_compute. reflexivity.
  - apply (bool_decide_unpack _). vm_compute. exact I.
Defined.

(** Admission never deadlocks: from every reachable state every waiter can
    still be admitted, by releasing the reservations that are held and serving
    the queue in order. *)
Theorem admission_progress sys w :
  reachable sys → w ∈ queue (state sys) →
  ∃ sys', steps sys sys' ∧ guards sys' = [mkGuard (thread w) (waiter_scope w)].
Proof. intros H%reachable_inv. by apply waiter_admitted. Qed.

Lemma admission_progress_witness :
  ∃ sys', steps five_threads sys' ∧ guards sys' = [mkGuard 5 (Conversations [rs "d"])].
Proof.
  apply (admission_progress five_threads (mkWaiter 5 5 (Conversations [rs "d"]))).
  - apply five_threads_reachable.
  - vm_compute. right. right. left.
Defined.

(** Nested acquisition is refused exactly when it is nested: a thread that
    holds a reservation or waits for one gets the panic, before anything is
    changed, and no other thread does. *)
Theorem nested_admission_refused sys th scope :
  reachable sys →
  enqueue (state sys) th scope = Err NestedAdmission ↔
  (∃ g, g ∈ guards sys ∧ owner g = th) ∨ (∃ w, w ∈ queue (state sys) ∧ thread w = th).
Proof.
  intros H%reachable_inv. unfold enqueue.
  assert (bool_decide (th ∈ owners (state sys))
            || existsb (λ waiter, thread waiter =? th) (queue (state sys)) = true ↔
    (∃ g, g ∈ guards sys ∧ owner g = th) ∨ (∃ w, w ∈ queue (state sys) ∧ thread w = th)) as Hiff.
  { rewrite orb_true_iff, bool_decide_eq_true, (inv_owners _ H), existsb_true.
    by setoid_rewrite Nat.eqb_eq. }
  rewrite <-Hiff. destruct (bool_decide _ || _); [done|]. by destruct (_ <=? _)%N.
Qed.

Lemma nested_admission_refused_witness :
  enqueue (state two_holders) 1 lock = Err NestedAdmission.
Proof.
  apply (nested_admission_refused two_holders 1 lock two_holders_reachable).
  left. exists (mkGuard 1 (Conversations [rs "a"; rs "b"])). split; [|reflexivity].
  vm_compute. right. left.
Defined.

(** A request is reduced to its set of Conversations: the keys are sorted
    without repetition and are those asked for; between two requests the
    binary-search test of conflict is intersection of the sets (or a global
    request), and does not depend on the order of its arguments. *)
Theorem conflicts_is_intersection s o :
  requested s → requested o →
  (conflicts s o = true ↔
     s = Global ∨ o = Global ∨ ∃ key, key ∈ scope_keys s ∧ key ∈ scope_keys o)
  ∧ conflicts s o = conflicts o s
  ∧ (∀ ids, lock_conversations ids = Ok s →
       sorted (scope_keys s) ∧ NoDup (scope_keys s) ∧ ∀ id, id ∈ scope_keys s ↔ id ∈ ids).
Proof.
  intros Hs%requested_ok Ho%requested_ok. split_and!.
  - by apply conflicts_iff.
  - apply eq_true_iff_eq. rewrite !conflicts_iff by done.
    split; by apply symmetry.
  - intros ids (Hok & keys & -> & Hin)%lock_conversations_ok. by destruct Hok as (_ & ? & ?).
Qed.

Lemma conflicts_is_intersection_witness :
  conflicts (scope_of ["m"; "c"; "a"]) (scope_of ["z"; "c"]) = true.
Proof.
  assert (requested (scope_of ["m"; "c"; "a"])) as H1
    by (apply scope_of_requested; vm_compute; reflexivity).
  assert (requested (scope_of ["z"; "c"])) as H2
    by (apply scope_of_requested; vm_compute; reflexivity).
  apply (proj2 (proj1 (conflicts_is_intersection _ _ H1 H2))).
  right. right. exists (rs "c"). split; apply (bool_decide_unpack _); vm_compute; exact I.
Defined.
