(* ===== verification/CommandTranscript.v ===== *)
(** * Command output history

    [CommandTranscript] of [command/transcript.rs]: a bounded history that keeps
    the head and the tail of a command's output.  Text is a list of chars;
    lengths and limits are in UTF-8 bytes, as in the source. *)

From S2P Require Import Prelude RustText.

Definition AGENT_COMMAND_SESSION_MAX_TRANSCRIPT_CHUNKS : nat := 2048.
Definition MAX_TRANSCRIPT_CHUNK_BYTES : nat := 1024.
Definition MAX_TRANSCRIPT_HEAD_CHUNKS : nat := AGENT_COMMAND_SESSION_MAX_TRANSCRIPT_CHUNKS / 4.
Definition MAX_TRANSCRIPT_TAIL_CHUNKS : nat :=
  AGENT_COMMAND_SESSION_MAX_TRANSCRIPT_CHUNKS - MAX_TRANSCRIPT_HEAD_CHUNKS.

Definition u64_saturating_succ (n : N) : N := N.min (n + 1) u64_max.

(** ** Data *)

Inductive AgentCommandOutputStream := Stdout | Stderr.

Record CommandOutputChunk := mkChunk {
  sequence : N;
  stream : AgentCommandOutputStream;
  text : rstr;
}.

Record CommandOutputBatch := mkBatch {
  requested_after_sequence : N;
  first_available_sequence : option N;
  batch_latest_sequence : N;
  truncated_before : bool;
  output_capture_truncated : bool;
  chunks : list CommandOutputChunk;
}.

Record CommandTranscript := mkTranscript {
  head : list CommandOutputChunk;
  tail : list CommandOutputChunk;
  head_bytes : nat;
  head_sealed : bool;
  tail_bytes : nat;
  head_limit : nat;
  tail_limit : nat;
  latest_sequence : N;
  truncated : bool;
  capture_truncated : bool;
  closed : bool;
}.

Definition new (max_bytes : nat) : CommandTranscript :=
  let max_bytes := max_bytes `max` 2 in
  let head_limit := max_bytes / 2 in
  mkTranscript [] [] 0 false 0 head_limit (max_bytes - head_limit) 0 false false false.

(** ** UTF-8 boundaries *)

(** [str::is_char_boundary]. *)
Fixpoint is_char_boundary (text : rstr) (index : nat) : bool :=
  match index, text with
  | O, _ => true
  | S _, [] => false
  | _, c :: text => (len_utf8 c <=? index) && is_char_boundary text (index - len_utf8 c)
  end.

(** [str::split_at] at a byte index, which is a boundary wherever it is called. *)
Fixpoint split_bytes (text : rstr) (index : nat) : rstr * rstr :=
  match text with
  | [] => ([], [])
  | c :: rest =>
      if len_utf8 c <=? index
      then let '(piece, rest) := split_bytes rest (index - len_utf8 c) in (c :: piece, rest)
      else ([], text)
  end.

(** [while index > 0 && !text.is_char_boundary(index) { index -= 1 }] *)
Fixpoint back_to_boundary (text : rstr) (index : nat) : nat :=
  match index with
  | O => 0
  | S index' => if is_char_boundary text index then index else back_to_boundary text index'
  end.

Definition utf8_prefix_len (text : rstr) (limit : nat) : nat :=
  back_to_boundary text (limit `min` byte_len text).

(** [while index < text.len() && !text.is_char_boundary(index) { index += 1 }],
    with [todo] the distance to the end of the text. *)
Fixpoint on_to_boundary (text : rstr) (todo index : nat) : nat :=
  match todo with
  | O => index
  | S todo => if is_char_boundary text index then index else on_to_boundary text todo (S index)
  end.

Definition utf8_suffix_start (text : rstr) (keep : nat) : nat :=
  let index := byte_len text - keep in
  on_to_boundary text (byte_len text - index) index.

(** ** Operations *)

Definition set_head (head : list CommandOutputChunk) (head_bytes : nat) (st : CommandTranscript)
    : CommandTranscript :=
  mkTranscript head (tail st) head_bytes (head_sealed st) (tail_bytes st) (head_limit st)
    (tail_limit st) (latest_sequence st) (truncated st) (capture_truncated st) (closed st).

Definition set_tail (tail : list CommandOutputChunk) (tail_bytes : nat) (truncated : bool)
    (st : CommandTranscript) : CommandTranscript :=
  mkTranscript (head st) tail (head_bytes st) (head_sealed st) tail_bytes (head_limit st)
    (tail_limit st) (latest_sequence st) truncated (capture_truncated st) (closed st).

Definition seal_head (st : CommandTranscript) : CommandTranscript :=
  mkTranscript (head st) (tail st) (head_bytes st) true (tail_bytes st) (head_limit st)
    (tail_limit st) (latest_sequence st) (truncated st) (capture_truncated st) (closed st).

Definition next_chunk (stream : AgentCommandOutputStream) (text : rstr) (st : CommandTranscript)
    : CommandOutputChunk * CommandTranscript :=
  let latest := u64_saturating_succ (latest_sequence st) in
  (mkChunk latest stream text,
   mkTranscript (head st) (tail st) (head_bytes st) (head_sealed st) (tail_bytes st)
     (head_limit st) (tail_limit st) latest (truncated st) (capture_truncated st) (closed st)).

(** The loop of [trim_tail]: it removes the first chunk while more than one is left. *)
Fixpoint trim_loop (tail : list CommandOutputChunk) (tail_bytes tail_limit : nat)
    (truncated : bool) : list CommandOutputChunk * nat * bool :=
  match tail with
  | removed :: ((_ :: _) as rest) =>
      if (tail_limit <? tail_bytes) || (MAX_TRANSCRIPT_TAIL_CHUNKS <? length tail)
      then trim_loop rest (tail_bytes - byte_len (text removed)) tail_limit true
      else (tail, tail_bytes, truncated)
  | _ => (tail, tail_bytes, truncated)
  end.

Definition trim_tail (st : CommandTranscript) : CommandTranscript :=
  let '(tail, tail_bytes, truncated) :=
    trim_loop (tail st) (tail_bytes st) (tail_limit st) (truncated st) in
  if tail_bytes <=? tail_limit st then set_tail tail tail_bytes truncated st
  else
    match tail with
    | [] => set_tail tail tail_bytes truncated st
    | only :: rest =>
        let keep_from := utf8_suffix_start (text only) (tail_limit st) in
        let kept := snd (split_bytes (text only) keep_from) in
        let truncated := truncated || (0 <? keep_from) in
        let only := mkChunk (sequence only) (stream only) kept in
        set_tail (if bool_decide (kept = []) then rest else rest ++ [only])
          (byte_len kept) truncated st
    end.

(** [commit_piece]: the piece fills the head, the rest of it goes to the tail. *)
Definition commit_to_tail (stream : AgentCommandOutputStream) (text : rstr)
    (committed : list CommandOutputChunk) (st : CommandTranscript)
    : CommandTranscript * list CommandOutputChunk :=
  if bool_decide (text = []) then (st, committed)
  else
    let '(chunk, st) := next_chunk stream text st in
    let st := set_tail (tail st ++ [chunk]) (tail_bytes st + byte_len text) (truncated st) st in
    (trim_tail st, committed ++ [chunk]).

Definition commit_piece (stream : AgentCommandOutputStream) (text : rstr)
    (committed : list CommandOutputChunk) (st : CommandTranscript)
    : CommandTranscript * list CommandOutputChunk :=
  if negb (head_sealed st) && (head_bytes st <? head_limit st)
     && (length (head st) <? MAX_TRANSCRIPT_HEAD_CHUNKS)
  then
    let available := head_limit st - head_bytes st in
    let split := utf8_prefix_len text available in
    if 0 <? split then
      let '(piece, rest) := split_bytes text split in
      let '(chunk, st) := next_chunk stream piece st in
      let st := set_head (head st ++ [chunk]) (head_bytes st + byte_len piece) st in
      let st := if bool_decide (rest = []) then st else seal_head st in
      commit_to_tail stream rest (committed ++ [chunk]) st
    else
      commit_to_tail stream text committed (if bool_decide (text = []) then st else seal_head st)
  else commit_to_tail stream text committed (if bool_decide (text = []) then st else seal_head st).

(** The loop of [commit]; every pass takes a char at least, so the number of
    chars is fuel enough ([commit_pieces_all]). *)
Fixpoint commit_pieces (fuel : nat) (stream : AgentCommandOutputStream) (remaining : rstr)
    (committed : list CommandOutputChunk) (st : CommandTranscript)
    : CommandTranscript * list CommandOutputChunk * rstr :=
  match fuel with
  | O => (st, committed, remaining)
  | S fuel =>
      if bool_decide (remaining = []) then (st, committed, remaining)
      else
        let split := utf8_prefix_len remaining MAX_TRANSCRIPT_CHUNK_BYTES in
        let split := if split =? 0 then byte_len remaining else split in
        let '(piece, rest) := split_bytes remaining split in
        let '(st, committed) := commit_piece stream piece committed st in
        commit_pieces fuel stream rest committed st
  end.

Definition commit (stream : AgentCommandOutputStream) (text : rstr) (st : CommandTranscript)
    : CommandTranscript * list CommandOutputChunk :=
  if closed st || bool_decide (text = []) then (st, [])
  else fst (commit_pieces (length text) stream text [] st).

Definition mark_capture_truncated (st : CommandTranscript) : CommandTranscript :=
  mkTranscript (head st) (tail st) (head_bytes st) (head_sealed st) (tail_bytes st)
    (head_limit st) (tail_limit st) (latest_sequence st) (truncated st) true (closed st).

Definition close (st : CommandTranscript) : CommandTranscript :=
  mkTranscript (head st) (tail st) (head_bytes st) (head_sealed st) (tail_bytes st)
    (head_limit st) (tail_limit st) (latest_sequence st) (truncated st) (capture_truncated st) true.

Definition output_truncated (st : CommandTranscript) : bool := truncated st || capture_truncated st.

(** The loop of [read_after] over the retained chunks. *)
Fixpoint read_chunks (all : list CommandOutputChunk) (after : N) (max_bytes : nat)
    (chunks : list CommandOutputChunk) (bytes : nat) : list CommandOutputChunk :=
  match all with
  | [] => chunks
  | chunk :: all =>
      if (sequence chunk <=? after)%N then read_chunks all after max_bytes chunks bytes
      else if negb (bool_decide (chunks = [])) && (max_bytes <? bytes + byte_len (text chunk))
           then chunks
      else read_chunks all after max_bytes (chunks ++ [chunk]) (bytes + byte_len (text chunk))
  end.

Definition read_after (after : N) (max_bytes : nat) (st : CommandTranscript) : CommandOutputBatch :=
  mkBatch after
    (sequence <$> match head st with chunk :: _ => Some chunk | [] => list.head (tail st) end)
    (latest_sequence st)
    (truncated st && (after <? latest_sequence st)%N)
    (capture_truncated st)
    (read_chunks (head st ++ tail st) after max_bytes [] 0).
