(* ===== verification/OutputCapture.v ===== *)
(** * Command output capture

    [core/src/command/output_capture.rs]: how the output of a process is drained from
    its pipes, how private text is replaced in it while it streams, what is kept of
    it under a budget that both streams share, and how what was kept is written into
    the archive of a tool result.  Bytes are numbers (N); a string handed to an
    observer is a text.  Threads, temporary files and the calls of the observers are
    steps of a transition system. *)

From S2P Require Import Prelude RustText Json JsonPrinter TraceItems CommandTranscript.

(** ** The decoder of the standard library *)

Definition is_continuation (b : N) : bool := ((0x80 <=? b) && (b <=? 0xbf))%N.
Definition in_bytes (low high b : N) : bool := ((low <=? b) && (b <=? high))%N.

(** The second byte that may follow the first of three, of four. *)
Definition second_of_three (b b1 : N) : bool :=
  if (b =? 0xe0)%N then in_bytes 0xa0 0xbf b1
  else if (b =? 0xed)%N then in_bytes 0x80 0x9f b1
  else is_continuation b1.
Definition second_of_four (b b1 : N) : bool :=
  if (b =? 0xf0)%N then in_bytes 0x90 0xbf b1
  else if (b =? 0xf4)%N then in_bytes 0x80 0x8f b1
  else is_continuation b1.

(** What bytes begin with: a char of [n] bytes, [n] bytes that begin none, or the
    beginning of a char whose rest is missing. *)
Inductive Utf8Head := WellFormed (n : nat) | Malformed (n : nat) | Unfinished.

Definition utf8_head (l : list N) : Utf8Head :=
  match l with
  | [] => Unfinished
  | b :: l =>
      if (b <? 0x80)%N then WellFormed 1
      else if in_bytes 0xc2 0xdf b then
        match l with
        | [] => Unfinished
        | b1 :: _ => if is_continuation b1 then WellFormed 2 else Malformed 1
        end
      else if in_bytes 0xe0 0xef b then
        match l with
        | [] => Unfinished
        | b1 :: l =>
            if negb (second_of_three b b1) then Malformed 1
            else match l with
                 | [] => Unfinished
                 | b2 :: _ => if is_continuation b2 then WellFormed 3 else Malformed 2
                 end
        end
      else if in_bytes 0xf0 0xf4 b then
        match l with
        | [] => Unfinished
        | b1 :: l =>
            if negb (second_of_four b b1) then Malformed 1
            else match l with
                 | [] => Unfinished
                 | b2 :: l =>
                     if negb (is_continuation b2) then Malformed 2
                     else match l with
                          | [] => Unfinished
                          | b3 :: _ => if is_continuation b3 then WellFormed 4 else Malformed 3
                          end
                 end
        end
      else Malformed 1
  end.

(** U+FFFD *)
Definition replacement_char : char := 0xfffd%N.

Definition char_of (l : list N) : char :=
  match decode_char l with Some (c, _) => c | None => replacement_char end.

Record Utf8Error := mkUtf8Error { valid_up_to : nat; error_len : option nat }.

(** The chars up to the first error, and the bytes from there. *)
Fixpoint valid_prefix (fuel : nat) (l : list N) : rstr * list N :=
  match fuel with
  | O => ([], l)
  | S fuel =>
      match utf8_head l with
      | WellFormed n => let '(text, rest) := valid_prefix fuel (drop n l) in (char_of l :: text, rest)
      | _ => ([], l)
      end
  end.

(** [std::str::from_utf8] *)
Definition from_utf8 (l : list N) : result Utf8Error rstr :=
  let '(text, rest) := valid_prefix (length l) l in
  match rest with
  | [] => Ok text
  | _ => Err (mkUtf8Error (length l - length rest)
                (match utf8_head rest with Malformed n => Some n | _ => None end))
  end.

(** [String::from_utf8_lossy] *)
Fixpoint lossy_from (fuel : nat) (l : list N) : rstr :=
  match fuel, l with
  | _, [] | O, _ => []
  | S fuel, _ =>
      match utf8_head l with
      | WellFormed n => char_of l :: lossy_from fuel (drop n l)
      | Malformed n => replacement_char :: lossy_from fuel (drop n l)
      | Unfinished => [replacement_char]
      end
  end.
Definition from_utf8_lossy (l : list N) : rstr := lossy_from (length l) l.

(** ** Replacements *)

Definition Redactions : Type := list (list N * list N).

(** [sort_by_key] with [Reverse(len)]: stable, the longest first. *)
Fixpoint insert_longest (r : list N * list N) (l : Redactions) : Redactions :=
  match l with
  | [] => [r]
  | s :: l' => if length s.1 <=? length r.1 then r :: l else s :: insert_longest r l'
  end.
Definition sort_longest (l : Redactions) : Redactions := foldr insert_longest [] l.

(** [dedup_by]: the sources are compared with the last one that was kept. *)
Fixpoint dedup_after (last : list N) (l : Redactions) : Redactions :=
  match l with
  | [] => []
  | r :: l => if str_eqb r.1 last then dedup_after last l else r :: dedup_after r.1 l
  end.
Definition dedup_sources (l : Redactions) : Redactions :=
  match l with [] => [] | r :: l => r :: dedup_after r.1 l end.

(** The pairs of texts with a source, as bytes. *)
Definition redaction_bytes (replacements : list (rstr * rstr)) : Redactions :=
  (λ r, (as_bytes r.1, as_bytes r.2)) <$> List.filter (λ r, negb (bool_decide (r.1 = []))) replacements.

(** [ProcessOutputRedactionSet::new] *)
Definition new_redaction_set (replacements : list (rstr * rstr)) : Redactions :=
  dedup_sources (sort_longest (redaction_bytes replacements)).

Record RedactedOutputSegment := mkSegment {
  seg_bytes : list N;
  source_bytes : nat;
  atomic_replacement : bool;
}.

Section NextRedaction.
Variables (source : list N) (cursor start_before : nat).

(** One pass of the loop of [next_redaction]. *)
Definition consider_redaction (selected : option (nat * nat * list N)) (r : list N * list N)
  : option (nat * nat * list N) :=
  let '(pattern, replacement) := r in
  if bool_decide (pattern = []) || (length source - cursor <? length pattern) then selected
  else
    match find_bytes pattern (drop cursor source) with
    | None => selected
    | Some relative =>
        let start := cursor + relative in
        if start_before <=? start then selected
        else
          let replace :=
            match selected with
            | None => true
            | Some (selected_start, selected_len, _) =>
                (start <? selected_start) || (start =? selected_start) && (selected_len <? length pattern)
            end in
          if replace then Some (start, length pattern, replacement) else selected
    end.

Definition next_redaction (redactions : Redactions) : option (nat * nat * list N) :=
  foldl consider_redaction None redactions.
End NextRedaction.

(** [max().unwrap_or(1).saturating_sub(1)] of the lengths of the sources. *)
Definition overlap_of (redactions : Redactions) : nat :=
  match redactions with
  | [] => 0
  | _ => foldr Nat.max 0 ((λ r : list N * list N, length r.1) <$> redactions) - 1
  end.

Definition process_before_of (redactions : Redactions) (pending : list N) (end_of_stream : bool) : nat :=
  if end_of_stream then length pending else length pending - overlap_of redactions.

(** [pending[from..to].to_vec()] *)
Definition slice_bytes (from to : nat) (l : list N) : list N := take (to - from) (drop from l).

Definition literal_segment (bytes : list N) : list RedactedOutputSegment :=
  match bytes with [] => [] | _ => [mkSegment bytes (length bytes) false] end.

(** The loop of [drain_redacted_output_bytes]; a pass that goes on consumes a source
    that is not empty, so that the length of the pending bytes is enough fuel. *)
Fixpoint drain_loop (fuel : nat) (pending : list N) (redactions : Redactions) (process_before cursor : nat)
  : list RedactedOutputSegment * nat :=
  match fuel with
  | O => ([], cursor)
  | S fuel =>
      if cursor <? process_before then
        match next_redaction pending cursor process_before redactions with
        | None => (literal_segment (slice_bytes cursor process_before pending), process_before)
        | Some (start, source_len, replacement) =>
            let '(output, cursor') := drain_loop fuel pending redactions process_before (start + source_len) in
            (literal_segment (slice_bytes cursor start pending)
               ++ mkSegment replacement source_len true :: output, cursor')
        end
      else ([], cursor)
  end.

Definition drain_redacted_output_bytes (pending : list N) (redactions : Redactions) (end_of_stream : bool)
  : list RedactedOutputSegment * list N :=
  match redactions with
  | [] => (literal_segment pending, [])
  | _ =>
      let '(output, cursor) :=
        drain_loop (S (length pending)) pending redactions (process_before_of redactions pending end_of_stream) 0 in
      (output, drop cursor pending)
  end.

(** [StreamingProcessOutputRedactor::push]: the segments and the pending bytes. *)
Definition push (redactions : Redactions) (source_pending bytes : list N) (end_of_stream : bool)
  : list RedactedOutputSegment * list N :=
  drain_redacted_output_bytes (source_pending ++ bytes) redactions end_of_stream.

Definition retained_segment_bytes (segment : RedactedOutputSegment) (retained_source : nat) : list N :=
  if retained_source =? 0 then []
  else if atomic_replacement segment then seg_bytes segment
  else take (retained_source `min` length (seg_bytes segment)) (seg_bytes segment).

(** ** Text for the observers *)

(** [emit_complete_utf8_chunks]: the texts handed over and the bytes still pending;
    a pass that goes on drops a byte at least. *)
Fixpoint emit_loop (fuel : nat) (pending : list N) (flush : bool) : list rstr * list N :=
  match fuel with
  | O => ([], pending)
  | S fuel =>
      match from_utf8 pending with
      | Ok text => (match text with [] => [] | _ => [text] end, [])
      | Err e =>
          if 0 <? valid_up_to e then
            let text := from_utf8_lossy (take (valid_up_to e) pending) in
            let '(texts, rest) := emit_loop fuel (drop (valid_up_to e) pending) flush in
            (match text with [] => texts | _ => text :: texts end, rest)
          else
            match error_len e with
            | Some invalid_bytes =>
                let '(texts, rest) := emit_loop fuel (drop (invalid_bytes `min` length pending) pending) flush in
                ([replacement_char] :: texts, rest)
            | None => ([], if flush then [] else pending)
            end
      end
  end.
Definition emit_complete_utf8_chunks (pending : list N) (flush : bool) : list rstr * list N :=
  emit_loop (S (length pending)) pending flush.

Definition utf8_boundary_safe_lossy_preview (bytes : list N) : rstr :=
  match from_utf8 bytes with
  | Ok text => text
  | Err e =>
      match error_len e with
      | None => from_utf8_lossy (take (valid_up_to e) bytes)
      | Some _ => from_utf8_lossy bytes
      end
  end.

(** ** The budget and one capture *)

Definition MAX_OUTPUT_BYTES : N := 128 * 1024.
Definition EXACT_TEXT_CAPTURE_MAX_BYTES : N := 64 * 1024 * 1024.
Definition EXACT_TEXT_CAPTURE_STOP_REASON : rstr := rs "exact_text_capture_safety_limit".

Record ProcessOutputCapturePolicy := mkPolicy { preview_bytes : N; max_capture_bytes : N }.
Definition process_default : ProcessOutputCapturePolicy :=
  mkPolicy MAX_OUTPUT_BYTES EXACT_TEXT_CAPTURE_MAX_BYTES.

(** [ProcessOutputCaptureBudget::reserve]: what is granted and what remains.  The loop
    around the compare-and-exchange ends with one exchange that succeeds. *)
Definition reserve (remaining : N) (requested : nat) : N * N :=
  let granted := N.min remaining (N.of_nat requested) in (granted, (remaining - granted)%N).

Definition u64_saturating_add (a b : N) : N := N.min (a + b) u64_max.

(** [ProcessOutputSpool]: the contents of the file, when there is one. *)
Record ProcessOutputSpool := mkSpool { spool_file : option (list N); spool_redactions : Redactions }.
Definition default_spool : ProcessOutputSpool := mkSpool None [].
Definition is_present (s : ProcessOutputSpool) : bool := bool_decide (is_Some (spool_file s)).
Definition with_redactions (replacements : list (rstr * rstr)) (s : ProcessOutputSpool) : ProcessOutputSpool :=
  mkSpool (spool_file s) (spool_redactions s ++ redaction_bytes replacements).

Record CapturedProcessOutput := mkOutput {
  out_preview : rstr;
  out_original_bytes : N;
  out_captured_bytes : N;
  out_omitted_bytes : N;
  out_preview_truncated : bool;
  out_spool : ProcessOutputSpool;
}.

Definition truncated_at_source (o : CapturedProcessOutput) : bool := (0 <? out_omitted_bytes o)%N.
Definition stop_reason (o : CapturedProcessOutput) : option rstr :=
  if truncated_at_source o then Some EXACT_TEXT_CAPTURE_STOP_REASON else None.
Definition read_captured_text (o : CapturedProcessOutput) : option rstr :=
  from_utf8_lossy <$> spool_file (out_spool o).

(** Which stream is named to the observers, and which observers there are. *)
Record Consumers := mkConsumers {
  capture_stream : option AgentCommandOutputStream;
  preview_observer : bool;
  transcript_observer : bool;
}.
Definition notifies (who : Consumers) (observer : bool) : bool :=
  bool_decide (is_Some (capture_stream who)) && observer.

(** The variables of the thread; [segments] are those the closure still has to
    consume, [live] and [transcript] the calls of the observers, and [outcome] what
    the thread returned. *)
Record Capture := mkCapture {
  source_pending : list N;
  segments : list RedactedOutputSegment;
  at_end : bool;
  spool : list N;
  preview : list N;
  pending_live_utf8 : list N;
  pending_transcript_utf8 : list N;
  live : list rstr;
  transcript : list rstr;
  original_bytes : N;
  captured_bytes : N;
  preview_source_bytes : N;
  outcome : option (result rstr CapturedProcessOutput);
}.

Definition new_capture : Capture := mkCapture [] [] false [] [] [] [] [] [] 0 0 0 None.

Definition set_outcome (r : result rstr CapturedProcessOutput) (c : Capture) : Capture :=
  mkCapture (source_pending c) (segments c) (at_end c) (spool c) (preview c) (pending_live_utf8 c)
    (pending_transcript_utf8 c) (live c) (transcript c) (original_bytes c) (captured_bytes c)
    (preview_source_bytes c) (Some r).

(** The bytes of a segment go to the transcript, whatever is kept of them. *)
Definition feed_transcript (who : Consumers) (bytes : list N) (flush : bool) (c : Capture) : Capture :=
  if notifies who (transcript_observer who) then
    let '(texts, pending) := emit_complete_utf8_chunks (pending_transcript_utf8 c ++ bytes) flush in
    mkCapture (source_pending c) (segments c) (at_end c) (spool c) (preview c) (pending_live_utf8 c)
      pending (live c) (transcript c ++ texts) (original_bytes c) (captured_bytes c)
      (preview_source_bytes c) (outcome c)
  else c.

Definition feed_live (who : Consumers) (bytes : list N) (flush : bool) (c : Capture) : Capture :=
  if notifies who (preview_observer who) then
    let '(texts, pending) := emit_complete_utf8_chunks (pending_live_utf8 c ++ bytes) flush in
    mkCapture (source_pending c) (segments c) (at_end c) (spool c) (preview c) pending
      (pending_transcript_utf8 c) (live c ++ texts) (transcript c) (original_bytes c) (captured_bytes c)
      (preview_source_bytes c) (outcome c)
  else c.

Definition keep_in_spool (bytes : list N) (retained : N) (c : Capture) : Capture :=
  mkCapture (source_pending c) (segments c) (at_end c) (spool c ++ bytes) (preview c) (pending_live_utf8 c)
    (pending_transcript_utf8 c) (live c) (transcript c) (original_bytes c)
    (u64_saturating_add (captured_bytes c) retained) (preview_source_bytes c) (outcome c).

Definition keep_in_preview (bytes : list N) (retained : N) (c : Capture) : Capture :=
  mkCapture (source_pending c) (segments c) (at_end c) (spool c) (preview c ++ bytes) (pending_live_utf8 c)
    (pending_transcript_utf8 c) (live c) (transcript c) (original_bytes c) (captured_bytes c)
    (u64_saturating_add (preview_source_bytes c) retained) (outcome c).

Definition set_segments (pending : list N) (output : list RedactedOutputSegment) (c : Capture) : Capture :=
  mkCapture pending output (at_end c) (spool c) (preview c) (pending_live_utf8 c)
    (pending_transcript_utf8 c) (live c) (transcript c) (original_bytes c) (captured_bytes c)
    (preview_source_bytes c) (outcome c).

Definition set_at_end (c : Capture) : Capture :=
  mkCapture (source_pending c) (segments c) true (spool c) (preview c) (pending_live_utf8 c)
    (pending_transcript_utf8 c) (live c) (transcript c) (original_bytes c) (captured_bytes c)
    (preview_source_bytes c) (outcome c).

Definition count_read (n : nat) (c : Capture) : Capture :=
  mkCapture (source_pending c) (segments c) (at_end c) (spool c) (preview c) (pending_live_utf8 c)
    (pending_transcript_utf8 c) (live c) (transcript c)
    (u64_saturating_add (original_bytes c) (N.of_nat n)) (captured_bytes c)
    (preview_source_bytes c) (outcome c).

Section Capture.
Variable policy : ProcessOutputCapturePolicy.
Variable redactions : Redactions.

(** What the closure does after the write to the spool. *)
Definition consume_preview (who : Consumers) (segment : RedactedOutputSegment) (retained : N) (c : Capture)
  : Capture :=
  let preview_remaining := (preview_bytes policy - preview_source_bytes c)%N in
  let preview_retained := N.min preview_remaining retained in
  if (preview_retained =? 0)%N then c
  else
    let bytes := retained_segment_bytes segment (N.to_nat preview_retained) in
    feed_live who bytes false (keep_in_preview bytes preview_retained c).

(** The closure [consume_segments] on one segment: what remains of the budget, and
    the capture; the write to the spool may fail. *)
Definition consume_segment (who : Consumers) (write_error : option rstr) (segment : RedactedOutputSegment)
    (remaining : N) (c : Capture) : N * Capture :=
  let c := feed_transcript who (seg_bytes segment) false c in
  let '(retained, remaining) := reserve remaining (source_bytes segment) in
  if (retained =? 0)%N then (remaining, c)
  else
    match write_error with
    | Some e => (remaining, set_outcome (Err e) c)
    | None =>
        let c := keep_in_spool (retained_segment_bytes segment (N.to_nat retained)) retained c in
        (remaining, consume_preview who segment retained c)
    end.

(** The end of the thread, when the spool was flushed. *)
Definition captured_output (c : Capture) : CapturedProcessOutput :=
  mkOutput (utf8_boundary_safe_lossy_preview (preview c)) (original_bytes c) (captured_bytes c)
    (original_bytes c - captured_bytes c) (preview_source_bytes c <? original_bytes c)%N
    (mkSpool (Some (spool c)) []).

Definition READ_BUFFER_BYTES : nat := 16 * 1024.

(** What happens in the thread between two points where the other thread may use the
    budget: a read of the pipe, the end of the pipe, the consumption of one segment,
    and the end; reads, writes and the flush may fail. *)
Inductive CaptureAction :=
| Read (bytes : list N)
| ReadEnd
| ReadFails (e : rstr)
| Consume (write_error : option rstr)
| Finish (flush_error : option rstr).

Definition capture_step (who : Consumers) (a : CaptureAction) (remaining : N) (c : Capture)
  : option (N * Capture) :=
  match outcome c with
  | Some _ => None
  | None =>
      match a, segments c with
      | Read bytes, [] =>
          if at_end c || bool_decide (bytes = []) || (READ_BUFFER_BYTES <? length bytes) then None
          else
            let '(output, pending) := push redactions (source_pending c) bytes false in
            Some (remaining, set_segments pending output (count_read (length bytes) c))
      | ReadEnd, [] =>
          if at_end c then None
          else
            let '(output, pending) := push redactions (source_pending c) [] true in
            Some (remaining, set_at_end (set_segments pending output c))
      | ReadFails e, [] => if at_end c then None else Some (remaining, set_outcome (Err e) c)
      | Consume write_error, segment :: rest =>
          Some (consume_segment who write_error segment remaining (set_segments (source_pending c) rest c))
      | Finish flush_error, [] =>
          if at_end c then
            let c := feed_transcript who [] true (feed_live who [] true c) in
            Some (remaining,
                  set_outcome (match flush_error with Some e => Err e | None => Ok (captured_output c) end) c)
          else None
      | _, _ => None
      end
  end.

(** ** Both streams of a process *)

Record Captures := mkCaptures { remaining : N; stdout : Capture; stderr : Capture }.

Definition spawn_captures : Captures := mkCaptures (max_capture_bytes policy) new_capture new_capture.

Definition capture_of (s : AgentCommandOutputStream) (cs : Captures) : Capture :=
  match s with Stdout => stdout cs | Stderr => stderr cs end.
Definition set_capture (s : AgentCommandOutputStream) (budget : N) (c : Capture) (cs : Captures) : Captures :=
  match s with Stdout => mkCaptures budget c (stderr cs) | Stderr => mkCaptures budget (stdout cs) c end.

Variable who : AgentCommandOutputStream → Consumers.

Definition captures_step (s : AgentCommandOutputStream) (a : CaptureAction) (cs : Captures) : option Captures :=
  '(budget, c) ← capture_step (who s) a (remaining cs) (capture_of s cs);
  Some (set_capture s budget c cs).

Fixpoint captures_run (acts : list (AgentCommandOutputStream * CaptureAction)) (cs : Captures) : option Captures :=
  match acts with
  | [] => Some cs
  | (s, a) :: acts => cs ← captures_step s a cs; captures_run acts cs
  end.
End Capture.

(** ** The receipt of both streams *)

Record ProcessOutputCaptureMetadata := mkMetadata {
  meta_original_bytes : N;
  meta_captured_bytes : N;
  meta_omitted_bytes : N;
  meta_truncated_at_source : bool;
  meta_stop_reason : option rstr;
  stdout_original_bytes : N;
  stdout_captured_bytes : N;
  stdout_omitted_bytes : N;
  stdout_preview_truncated : bool;
  stdout_stop_reason : option rstr;
  stderr_original_bytes : N;
  stderr_captured_bytes : N;
  stderr_omitted_bytes : N;
  stderr_preview_truncated : bool;
  stderr_stop_reason : option rstr;
}.

Definition from_streams (stdout stderr : CapturedProcessOutput) : ProcessOutputCaptureMetadata :=
  let omitted := u64_saturating_add (out_omitted_bytes stdout) (out_omitted_bytes stderr) in
  let truncated := (0 <? omitted)%N in
  mkMetadata (u64_saturating_add (out_original_bytes stdout) (out_original_bytes stderr))
    (u64_saturating_add (out_captured_bytes stdout) (out_captured_bytes stderr))
    omitted truncated (if truncated then Some EXACT_TEXT_CAPTURE_STOP_REASON else None)
    (out_original_bytes stdout) (out_captured_bytes stdout) (out_omitted_bytes stdout)
    (out_preview_truncated stdout) (stop_reason stdout)
    (out_original_bytes stderr) (out_captured_bytes stderr) (out_omitted_bytes stderr)
    (out_preview_truncated stderr) (stop_reason stderr).

Definition from_optional_streams (stdout stderr : option CapturedProcessOutput) (incomplete : bool)
  : ProcessOutputCaptureMetadata :=
  let count (f : CapturedProcessOutput → N) o := match o with Some x => f x | None => 0%N end in
  let both f := u64_saturating_add (count f stdout) (count f stderr) in
  let m :=
    match stdout, stderr with
    | Some out, Some err => from_streams out err
    | _, _ =>
        mkMetadata (both out_original_bytes) (both out_captured_bytes) (both out_omitted_bytes) false None
          (count out_original_bytes stdout) (count out_captured_bytes stdout) (count out_omitted_bytes stdout)
          (is_none_or stdout out_preview_truncated) (stdout ≫= stop_reason)
          (count out_original_bytes stderr) (count out_captured_bytes stderr) (count out_omitted_bytes stderr)
          (is_none_or stderr out_preview_truncated) (stderr ≫= stop_reason)
    end in
  if incomplete then
    mkMetadata (meta_original_bytes m) (meta_captured_bytes m) (meta_omitted_bytes m) true
      (Some (rs "process_output_drain_incomplete"))
      (stdout_original_bytes m) (stdout_captured_bytes m) (stdout_omitted_bytes m)
      (stdout_preview_truncated m) (stdout_stop_reason m)
      (stderr_original_bytes m) (stderr_captured_bytes m) (stderr_omitted_bytes m)
      (stderr_preview_truncated m) (stderr_stop_reason m)
  else m.

(** ** The archive of a tool result *)

(** A digit of [{:04x}]. *)
Definition hex_lower (n : N) : N := (if n <? 10 then 48 + n else 87 + n)%N.

Definition json_string_char (c : char) : list N :=
  (if c =? 34 then [92; 34]
   else if c =? 92 then [92; 92]
   else if c =? 0x08 then [92; 98]
   else if c =? 0x0c then [92; 102]
   else if c =? 10 then [92; 110]
   else if c =? 13 then [92; 114]
   else if c =? 9 then [92; 116]
   else if c <=? 0x1f then
     [92; 117; hex_lower (c / 4096); hex_lower ((c / 256) mod 16); hex_lower ((c / 16) mod 16); hex_lower (c mod 16)]
   else utf8_char c)%N.

Definition write_json_string_contents (text : rstr) : list N := text ≫= json_string_char.

(** The loop of [write_decoded_json_string_bytes]: what is written, and how many of
    the pending bytes are consumed. *)
Fixpoint decoded_loop (fuel : nat) (pending : list N) (consumed : nat) (end_of_stream : bool)
  : list N * nat :=
  match fuel with
  | O => ([], consumed)
  | S fuel =>
      match from_utf8 (drop consumed pending) with
      | Ok text => (write_json_string_contents text, length pending)
      | Err e =>
          let valid_end := consumed + valid_up_to e in
          let valid :=
            if consumed <? valid_end then
              match from_utf8 (slice_bytes consumed valid_end pending) with
              | Ok text => write_json_string_contents text
              | Err _ => []
              end
            else [] in
          match error_len e with
          | Some invalid_bytes =>
              let consumed := valid_end + invalid_bytes in
              let written := valid ++ write_json_string_contents [replacement_char] in
              if length pending <=? consumed then (written, consumed)
              else
                let '(more, consumed) := decoded_loop fuel pending consumed end_of_stream in
                (written ++ more, consumed)
          | None =>
              if end_of_stream
              then (valid ++ write_json_string_contents [replacement_char], length pending)
              else (valid, valid_end)
          end
      end
  end.

Definition write_decoded_json_string_bytes (pending : list N) (end_of_stream : bool) : list N * list N :=
  let '(written, consumed) := decoded_loop (S (length pending)) pending 0 end_of_stream in
  (written, drop consumed pending).

(** The loop of [write_redacted_json_string_bytes]: what goes to the decoder. *)
Fixpoint redacted_loop (fuel : nat) (pending : list N) (redactions : Redactions) (process_before cursor : nat)
  : list N * nat :=
  match fuel with
  | O => ([], cursor)
  | S fuel =>
      if cursor <? process_before then
        match next_redaction pending cursor process_before redactions with
        | None => (slice_bytes cursor process_before pending, process_before)
        | Some (start, source_len, replacement) =>
            let '(output, cursor') := redacted_loop fuel pending redactions process_before (start + source_len) in
            (slice_bytes cursor start pending ++ replacement ++ output, cursor')
        end
      else ([], cursor)
  end.

(** What is written, and the two pending vectors. *)
Definition write_redacted_json_string_bytes (source_pending utf8_pending : list N) (redactions : Redactions)
    (end_of_stream : bool) : list N * list N * list N :=
  match redactions with
  | [] =>
      let '(written, utf8_pending) :=
        write_decoded_json_string_bytes (utf8_pending ++ source_pending) end_of_stream in
      (written, [], utf8_pending)
  | _ =>
      let '(output, cursor) :=
        redacted_loop (S (length source_pending)) source_pending redactions
          (process_before_of redactions source_pending end_of_stream) 0 in
      let '(written, utf8_pending) := write_decoded_json_string_bytes (utf8_pending ++ output) false in
      (written, drop cursor source_pending, utf8_pending)
  end.

Inductive IoErrorKind := NotFound | InvalidInput.
Definition IoError : Type := IoErrorKind * rstr.

Section Archive.
Context `{JsonPrinter}.
(** What the reads of a file return, one after the other. *)
Variable file_reads : list N → list (list N).

Fixpoint spool_loop (reads : list (list N)) (source_pending utf8_pending : list N) (redactions : Redactions)
  : list N * list N * list N :=
  match reads with
  | [] => ([], source_pending, utf8_pending)
  | bytes :: reads =>
      let '(written, source_pending, utf8_pending) :=
        write_redacted_json_string_bytes (source_pending ++ bytes) utf8_pending redactions false in
      let '(more, source_pending, utf8_pending) := spool_loop reads source_pending utf8_pending redactions in
      (written ++ more, source_pending, utf8_pending)
  end.

Definition write_json_string_from_spool (s : ProcessOutputSpool) : result IoError (list N) :=
  match spool_file s with
  | None => Err (NotFound, rs "process output spool is absent")
  | Some file =>
      let '(written, source_pending, utf8_pending) := spool_loop (file_reads file) [] [] (spool_redactions s) in
      let '(rest, _, utf8_pending) :=
        write_redacted_json_string_bytes source_pending utf8_pending (spool_redactions s) true in
      let '(last, _) := write_decoded_json_string_bytes utf8_pending true in
      Ok (quote_byte :: written ++ rest ++ last ++ [quote_byte])
  end.

Definition missing_process_stream (field : rstr) : IoError :=
  (InvalidInput, rs "process output spool has no string target at /result/" ++ field).

(** A field of the result: a stream that has a spool is written from it. *)
Definition write_field (stdout stderr : option ProcessOutputSpool) (f : rstr * Value) : result IoError (list N) :=
  let start := to_vec (String (fst f)) ++ rs ":" in
  let spool := if is_str (fst f) "stdout" then stdout else if is_str (fst f) "stderr" then stderr else None in
  match spool with
  | Some spool => text ← write_json_string_from_spool spool; Ok (start ++ text)
  | None => Ok (start ++ to_vec (snd f))
  end.

(** The loop over the fields, from the field at [index]. *)
Fixpoint write_fields (stdout stderr : option ProcessOutputSpool) (index : nat) (fields : list (rstr * Value))
  : result IoError (list N) :=
  match fields with
  | [] => Ok []
  | f :: fields =>
      written ← write_field stdout stderr f;
      more ← write_fields stdout stderr (S index) fields;
      Ok ((if 0 <? index then rs "," else []) ++ written ++ more)
  end.

(** A stream with a spool needs a string in the result. *)
Definition require_target (spool : option ProcessOutputSpool) (field : string) (fields : list (rstr * Value))
  : result IoError () :=
  match spool with
  | None => Ok ()
  | Some _ => if is_some_and (map_get (rs field) fields) (λ v, bool_decide (is_Some (as_str v))) then Ok ()
              else Err (missing_process_stream (rs field))
  end.
Arguments require_target spool field%_string_scope fields.

Definition write_root_result_with_process_spools (value : Value) (stdout stderr : option ProcessOutputSpool)
  : result IoError (list N) :=
  match as_object value with
  | None => Err (InvalidInput, rs "process output spool substitutions require an object at /result")
  | Some fields =>
      _ ← require_target stdout "stdout" fields;
      _ ← require_target stderr "stderr" fields;
      written ← write_fields stdout stderr 0 fields;
      Ok (rs "{" ++ written ++ rs "}")
  end.

(** The spools of the two fields. *)
Fixpoint collect_spools (substitutions : list (rstr * ProcessOutputSpool)) (stdout stderr : option ProcessOutputSpool)
  : result IoError (option ProcessOutputSpool * option ProcessOutputSpool) :=
  match substitutions with
  | [] => Ok (stdout, stderr)
  | (field, spool) :: substitutions =>
      if is_str field "stdout" && negb (bool_decide (is_Some stdout))
      then collect_spools substitutions (Some spool) stderr
      else if is_str field "stderr" && negb (bool_decide (is_Some stderr))
      then collect_spools substitutions stdout (Some spool)
      else if is_str field "stdout" || is_str field "stderr"
      then Err (InvalidInput, rs "duplicate process output spool substitution for " ++ field)
      else Err (InvalidInput, rs "unsupported process output spool substitution field " ++ field)
  end.

Definition write_tool_result_with_process_spools (r : AgentToolResult)
    (substitutions : list (rstr * ProcessOutputSpool)) : result IoError (list N) :=
  '(stdout, stderr) ← collect_spools substitutions None None;
  payload ←
    match result_value r with
    | Some value =>
        written ← write_root_result_with_process_spools value stdout stderr;
        Ok (rs "," ++ quote_byte :: rs "result" ++ quote_byte :: rs ":" ++ written)
    | None =>
        if bool_decide (is_Some stdout) || bool_decide (is_Some stderr)
        then Err (InvalidInput, rs "process output spools require a Tool Result payload")
        else Ok []
    end;
  Ok (rs "{" ++ quote_byte :: rs "callId" ++ quote_byte :: rs ":" ++ to_vec (String (result_call_id r))
        ++ rs "," ++ quote_byte :: rs "tool" ++ quote_byte :: rs ":" ++ to_vec (String (result_tool r))
        ++ rs "," ++ quote_byte :: rs "ok" ++ quote_byte :: rs ":" ++ to_vec (Bool (TraceItems.ok r))
        ++ payload
        ++ match TraceItems.error r with
           | Some error => rs "," ++ quote_byte :: rs "error" ++ quote_byte :: rs ":" ++ to_vec (String error)
           | None => []
           end
        ++ rs "}").

Definition process_output_spool_substitutions (stdout stderr : ProcessOutputSpool)
  : list (rstr * ProcessOutputSpool) :=
  List.filter (λ s, is_present (snd s)) [(rs "stdout", stdout); (rs "stderr", stderr)].

Definition materialize_process_tool_result_archive (r : AgentToolResult)
    (substitutions : list (rstr * ProcessOutputSpool)) : result IoError (option (list N)) :=
  match substitutions with
  | [] => Ok None
  | _ => written ← write_tool_result_with_process_spools r substitutions; Ok (Some written)
  end.
End Archive.
