(* ===== verification/OutputCaptureFacts.v ===== *)
(** * Redaction and decoding of a stream

    Reference definitions of both - over a whole text, with no buffer - and the
    proofs that the streaming code computes them however its input is cut. *)

From S2P Require Import Prelude RustText Json JsonPrinter TraceItems CommandTranscript OutputCapture.

(** ** Heads *)

Definition is_well_formed (h : Utf8Head) : bool := match h with WellFormed _ => true | _ => false end.

(** A char is decided by its own bytes. *)
Lemma in_bytes_bounds low high b : in_bytes low high b = true → (low <= b <= high)%N.
Proof. unfold in_bytes. rewrite andb_true_iff, !N.leb_le. done. Qed.

(** Rewrites with the tests the branches have passed. *)
Ltac rewrite_tests :=
  repeat match goal with
  | H : (_ <? _)%N = _ |- _ => rewrite H
  | H : in_bytes _ _ _ = _ |- _ => rewrite H
  | H : is_continuation _ = _ |- _ => rewrite H
  | H : second_of_three _ _ = _ |- _ => rewrite H
  | H : second_of_four _ _ = _ |- _ => rewrite H
  | H : negb _ = _ |- _ => rewrite H
  end.

Lemma well_formed_head l n :
  utf8_head l = WellFormed n →
  0 < n ≤ length l
  ∧ ∀ t, utf8_head (take n l ++ t) = WellFormed n ∧ char_of (take n l ++ t) = char_of l.
Proof.
  unfold utf8_head. destruct l as [|b l]; [done|].
  repeat case_match; intros [= <-]; cbn [length take app] in *; split; try lia; intros t; split; simplify_eq;
    rewrite_tests; try done.
  all: unfold char_of; cbn [app decode_char]; rewrite_tests; try done.
  all: match goal with H : in_bytes _ _ _ = true |- _ => apply in_bytes_bounds in H end.
  all: try (rewrite (proj2 (N.ltb_lt _ _)) by lia; done).
  all: rewrite (proj2 (N.ltb_ge _ _)) by lia.
  all: try (rewrite (proj2 (N.ltb_lt _ _)) by lia; done).
  all: rewrite (proj2 (N.ltb_ge _ _)) by lia; done.
Qed.

Lemma malformed_head l n :
  utf8_head l = Malformed n → 0 < n ≤ length l ∧ ∀ t, utf8_head (l ++ t) = Malformed n.
Proof.
  unfold utf8_head. destruct l as [|b l]; [done|].
  repeat case_match; intros [= <-]; cbn [length] in *; split; try lia; intros t; simplify_eq; cbn [app];
    rewrite_tests; done.
Qed.

Lemma well_formed_head_app l n t : utf8_head l = WellFormed n → utf8_head (l ++ t) = WellFormed n ∧ char_of (l ++ t) = char_of l.
Proof.
  intros [_ H]%well_formed_head. specialize (H (drop n l ++ t)). by rewrite app_assoc, take_drop in H.
Qed.

(** ** Decoding *)

(** The chars of a stream, and the bytes of a char whose rest has not come. *)
Fixpoint decode_from (fuel : nat) (l : list N) : rstr * list N :=
  match fuel with
  | O => ([], l)
  | S fuel =>
      match utf8_head l with
      | WellFormed n => let '(text, rest) := decode_from fuel (drop n l) in (char_of l :: text, rest)
      | Malformed n => let '(text, rest) := decode_from fuel (drop n l) in (replacement_char :: text, rest)
      | Unfinished => ([], l)
      end
  end.
Definition decode (l : list N) : rstr * list N := decode_from (length l) l.

Lemma decode_from_enough f g l : length l ≤ f → length l ≤ g → decode_from f l = decode_from g l.
Proof.
  revert g l. induction f as [|f IH]; intros [|g] l Hf Hg; cbn [decode_from]; try done.
  - destruct l; [done|cbn in Hf; lia].
  - destruct l; [done|cbn in Hg; lia].
  - destruct (utf8_head l) as [n|n|] eqn:E; [| |done].
    + apply well_formed_head in E as [Hn _]. rewrite (IH g); [done|rewrite length_drop; lia..].
    + apply malformed_head in E as [Hn _]. rewrite (IH g); [done|rewrite length_drop; lia..].
Qed.

Lemma decode_unfold l :
  decode l =
    match utf8_head l with
    | WellFormed n => (char_of l :: (decode (drop n l)).1, (decode (drop n l)).2)
    | Malformed n => (replacement_char :: (decode (drop n l)).1, (decode (drop n l)).2)
    | Unfinished => ([], l)
    end.
Proof.
  unfold decode. rewrite (decode_from_enough (length l) (S (length l))) by lia. cbn [decode_from].
  destruct (utf8_head l) as [n|n|] eqn:E; [| |done];
    [apply well_formed_head in E as [Hn _]|apply malformed_head in E as [Hn _]];
    rewrite (decode_from_enough (length l) (length (drop n l))) by (rewrite ?length_drop; lia);
    by destruct (decode_from _ _).
Qed.

Lemma decode_ind (P : list N → Prop) :
  (∀ l, (∀ n, utf8_head l = WellFormed n → P (drop n l)) → (∀ n, utf8_head l = Malformed n → P (drop n l)) → P l) →
  ∀ l, P l.
Proof.
  intros H l. remember (length l) as k eqn:Hk. revert l Hk.
  induction k as [k IH] using lt_wf_ind. intros l ->.
  apply H; intros n E; (apply (IH (length (drop n l))); [|done]); rewrite length_drop;
    [apply well_formed_head in E as [Hn _]|apply malformed_head in E as [Hn _]]; lia.
Qed.

(** How a stream is cut does not matter. *)
Lemma decode_app l t :
  decode (l ++ t) = ((decode l).1 ++ (decode ((decode l).2 ++ t)).1, (decode ((decode l).2 ++ t)).2).
Proof.
  induction l as [l IHw IHm] using decode_ind. rewrite (decode_unfold l). destruct (utf8_head l) as [n|n|] eqn:E.
  - pose proof (well_formed_head _ _ E) as [Hn _]. destruct (well_formed_head_app _ _ t E) as [Ha Hc].
    rewrite (decode_unfold (l ++ t)), Ha, Hc, drop_app_le by lia. by rewrite (IHw n).
  - pose proof (malformed_head _ _ E) as [Hn Ha].
    rewrite (decode_unfold (l ++ t)), Ha, drop_app_le by lia. by rewrite (IHm n).
  - cbn [fst snd app]. by destruct (decode (l ++ t)).
Qed.

Lemma decode_nil : decode [] = ([], []).
Proof. reflexivity. Qed.

(** What is left over begins a char. *)
Lemma decode_leftover l : utf8_head (decode l).2 = Unfinished.
Proof.
  induction l as [l IHw IHm] using decode_ind. rewrite decode_unfold.
  destruct (utf8_head l) as [n|n|] eqn:E; [by apply IHw|by apply IHm|done].
Qed.

(** ** The decoder of the standard library *)

Lemma valid_prefix_spec fuel l text rest :
  length l ≤ fuel → valid_prefix fuel l = (text, rest) →
  (∃ p, l = p ++ rest ∧ decode p = (text, []) ∧ ∀ g, length p ≤ g → valid_prefix g p = (text, []))
  ∧ decode l = (text ++ (decode rest).1, (decode rest).2)
  ∧ is_well_formed (utf8_head rest) = false.
Proof.
  revert l text rest. induction fuel as [|fuel IH]; intros l text rest Hf.
  { destruct l; [|cbn in Hf; lia]. intros [= <- <-]. split_and!; [|done..]. exists []. split_and!; [done..|].
    by intros []. }
  cbn [valid_prefix]. destruct (utf8_head l) as [n|n|] eqn:E.
  - destruct (well_formed_head _ _ E) as [Hn Ht]. destruct (valid_prefix fuel (drop n l)) as [text' rest'] eqn:Ev.
    intros [= <- <-]. destruct (IH (drop n l) _ _ ltac:(rewrite length_drop; lia) Ev) as ((p & Hp & Hd & Hg) & Hl & Hw).
    split_and!; [|by rewrite (decode_unfold l), E, Hl|done].
    exists (take n l ++ p). destruct (Ht p) as [H1 H2].
    split_and!; [by rewrite <-app_assoc, <-Hp, take_drop| |].
    + rewrite decode_unfold, H1, H2, drop_app_length' by (rewrite length_take; lia). by rewrite Hd.
    + rewrite length_app, length_take. intros [|g] Hlen; [lia|]. cbn [valid_prefix].
      rewrite H1, H2, drop_app_length' by (rewrite length_take; lia). by rewrite Hg by lia.
  - intros [= <- <-]. split_and!; [exists []; split_and!; [done..|by intros []]|by destruct (decode l)|by rewrite E].
  - intros [= <- <-]. split_and!; [exists []; split_and!; [done..|by intros []]|by destruct (decode l)|by rewrite E].
Qed.

(** What a call of [from_utf8] says of the stream. *)
Lemma from_utf8_spec l :
  match from_utf8 l with
  | Ok text => decode l = (text, [])
  | Err e =>
      ∃ p rest text,
        l = p ++ rest ∧ valid_up_to e = length p ∧ rest ≠ [] ∧ decode p = (text, []) ∧ from_utf8 p = Ok text
        ∧ decode l = (text ++ (decode rest).1, (decode rest).2)
        ∧ match error_len e with Some n => utf8_head rest = Malformed n | None => utf8_head rest = Unfinished end
  end.
Proof.
  unfold from_utf8. destruct (valid_prefix (length l) l) as [text rest] eqn:Ev.
  destruct (valid_prefix_spec _ _ _ _ (Nat.le_refl _) Ev) as ((p & Hl & Hp & Hg) & Hd & Hw).
  destruct rest as [|b rest]; [rewrite Hd; cbn; by rewrite app_nil_r|].
  exists p, (b :: rest), text. cbn [valid_up_to error_len]. split_and!; try done.
  - rewrite Hl, length_app. lia.
  - unfold from_utf8. by rewrite Hg.
  - by destruct (utf8_head (b :: rest)).
Qed.

(** A text decoded without an error is read by [from_utf8_lossy] as well. *)
Lemma lossy_decode fuel l :
  length l ≤ fuel →
  lossy_from fuel l = (decode l).1 ++ (if bool_decide ((decode l).2 = []) then [] else [replacement_char]).
Proof.
  revert l. induction fuel as [|fuel IH]; intros l Hf.
  { destruct l; [done|cbn in Hf; lia]. }
  rewrite decode_unfold. destruct l as [|b l']; [done|]. set (l := b :: l') in *.
  change (lossy_from (S fuel) l) with
    (match utf8_head l with
     | WellFormed n => char_of l :: lossy_from fuel (drop n l)
     | Malformed n => replacement_char :: lossy_from fuel (drop n l)
     | Unfinished => [replacement_char]
     end).
  destruct (utf8_head l) as [n|n|] eqn:E.
  - apply well_formed_head in E as [Hn _]. by rewrite IH by (rewrite length_drop; lia).
  - apply malformed_head in E as [Hn _]. by rewrite IH by (rewrite length_drop; lia).
  - by rewrite bool_decide_false.
Qed.

Lemma from_utf8_lossy_decode l :
  from_utf8_lossy l = (decode l).1 ++ (if bool_decide ((decode l).2 = []) then [] else [replacement_char]).
Proof. by apply lossy_decode. Qed.

Lemma from_utf8_lossy_valid l text : decode l = (text, []) → from_utf8_lossy l = text.
Proof. intros H. rewrite from_utf8_lossy_decode, H. cbn. apply app_nil_r. Qed.

(** ** Observers *)

Lemma emit_loop_spec fuel l flush :
  length l < fuel →
  concat (emit_loop fuel l flush).1 = (decode l).1
  ∧ (emit_loop fuel l flush).2 = (if flush then [] else (decode l).2).
Proof.
  revert l. induction fuel as [|fuel IH]; intros l Hf; [lia|]. cbn [emit_loop].
  pose proof (from_utf8_spec l) as H. destruct (from_utf8 l) as [text|e].
  { rewrite H. cbn [fst snd]. split; [destruct text; cbn [concat]; by rewrite ?app_nil_r|by destruct flush]. }
  destruct H as (p & rest & text & -> & Hv & Hr & Hp & _ & Hd & He). rewrite Hd. clear Hd. rewrite Hv.
  rewrite length_app in Hf. destruct p as [|b p].
  - rewrite decode_nil in Hp. injection Hp as <-. cbn [length Nat.ltb Nat.leb app fst snd].
    destruct (error_len e) as [n|].
    + rewrite decode_unfold, He. pose proof (malformed_head _ _ He) as [Hn _]. rewrite Nat.min_l by lia.
      specialize (IH (drop n rest)). destruct (emit_loop fuel (drop n rest) flush) as [texts r].
      cbn [fst snd concat app] in *. rewrite length_drop in IH. cbn in Hf. destruct IH as [-> ->]; [lia|done].
    + rewrite decode_unfold, He. by destruct flush.
  - rewrite (proj2 (Nat.ltb_lt _ _)) by (cbn; lia). rewrite take_app_length, drop_app_length.
    rewrite (from_utf8_lossy_valid _ _ Hp). specialize (IH rest). destruct (emit_loop fuel rest flush) as [texts r].
    cbn [length fst snd] in *. destruct IH as [IH ->]; [lia|]. split; [|done].
    destruct text; cbn [concat]; by rewrite IH.
Qed.

Lemma emit_spec l flush :
  concat (emit_complete_utf8_chunks l flush).1 = (decode l).1
  ∧ (emit_complete_utf8_chunks l flush).2 = (if flush then [] else (decode l).2).
Proof. apply emit_loop_spec. lia. Qed.

(** The preview is what a live observer is given, with a mark at the end when the
    text has a malformed part and breaks off in the middle of a char. *)
Lemma preview_text l :
  utf8_boundary_safe_lossy_preview l = (decode l).1
  ∨ utf8_boundary_safe_lossy_preview l = (decode l).1 ++ [replacement_char]
    ∧ (decode l).2 ≠ [] ∧ replacement_char ∈ (decode l).1.
Proof.
  unfold utf8_boundary_safe_lossy_preview. pose proof (from_utf8_spec l) as H.
  destruct (from_utf8 l) as [text|e]; [left; by rewrite H|].
  destruct H as (p & rest & text & -> & Hv & Hr & Hp & _ & Hd & He).
  destruct (error_len e) as [n|].
  - rewrite from_utf8_lossy_decode. case_bool_decide as Hb; [left; by rewrite app_nil_r|right].
    split_and!; [done..|]. rewrite Hd, (decode_unfold rest), He. cbn [fst]. set_solver.
  - left. rewrite Hv, take_app_length, (from_utf8_lossy_valid _ _ Hp), Hd, (decode_unfold rest), He. cbn [fst].
    by rewrite app_nil_r.
Qed.

(** ** The writer of JSON strings *)

Lemma contents_app s t :
  write_json_string_contents (s ++ t) = write_json_string_contents s ++ write_json_string_contents t.
Proof. apply bind_app. Qed.

(** What a decoder that reached the end adds. *)
Definition tail_mark (rest : list N) : rstr := if bool_decide (rest = []) then [] else [replacement_char].

Lemma decoded_loop_spec fuel l consumed eos :
  length l < fuel + consumed → consumed ≤ length l →
  let d := decode (drop consumed l) in
  (decoded_loop fuel l consumed eos).1
    = write_json_string_contents (d.1 ++ (if eos then tail_mark d.2 else []))
  ∧ drop (decoded_loop fuel l consumed eos).2 l = (if eos then [] else d.2).
Proof.
  cbv zeta. revert consumed. induction fuel as [|fuel IH]; intros consumed Hf Hc; [lia|]. cbn [decoded_loop].
  pose proof (from_utf8_spec (drop consumed l)) as H. destruct (from_utf8 (drop consumed l)) as [text|e].
  { rewrite H. cbn [fst snd]. rewrite drop_all. split; [by destruct eos; rewrite app_nil_r|by destruct eos]. }
  destruct H as (p & rest & text & Hl & -> & Hr & Hp & Hpv & Hd & He).
  assert (drop (consumed + length p) l = rest) as Hrest
    by (by rewrite <-drop_drop, Hl, drop_app_length).
  assert (length p + length rest = length l - consumed) as Hlen by (by rewrite <-length_app, <-Hl, length_drop).
  match goal with |- context [if consumed <? _ then ?w else []] =>
    assert ((if consumed <? consumed + length p then w else []) = write_json_string_contents text) as -> end.
  { destruct (Nat.ltb_spec consumed (consumed + length p)).
    - unfold slice_bytes. replace (consumed + length p - consumed) with (length p) by lia.
      by rewrite Hl, take_app_length, Hpv.
    - destruct p; [|cbn in *; lia]. rewrite decode_nil in Hp. by injection Hp as <-. }
  rewrite Hd. destruct (error_len e) as [n|].
  - rewrite (decode_unfold rest), He. pose proof (malformed_head _ _ He) as [Hn _]. cbn [fst snd].
    assert (drop (consumed + length p + n) l = drop n rest) as Hn' by (by rewrite <-drop_drop, Hrest).
    destruct (Nat.leb_spec (length l) (consumed + length p + n)).
    + rewrite (drop_ge rest) in Hn' |- * by lia. rewrite decode_nil. cbn [fst snd].
      rewrite Hn', <-contents_app. by destruct eos; rewrite app_nil_r.
    + specialize (IH (consumed + length p + n) ltac:(lia) ltac:(lia)). rewrite Hn' in IH.
      destruct (decoded_loop fuel l _ eos) as [more c]. cbn [fst snd] in *. destruct IH as [-> ->].
      rewrite <-!contents_app. split; [f_equal; by rewrite <-!app_assoc|done].
  - rewrite (decode_unfold rest), He. cbn [fst snd]. rewrite app_nil_r. destruct eos; cbn [fst snd].
    + rewrite drop_all, <-contents_app. unfold tail_mark. by rewrite bool_decide_false.
    + by rewrite app_nil_r, Hrest.
Qed.

Lemma write_decoded_spec l eos :
  write_decoded_json_string_bytes l eos =
    (write_json_string_contents ((decode l).1 ++ (if eos then tail_mark (decode l).2 else [])),
     if eos then [] else (decode l).2).
Proof.
  unfold write_decoded_json_string_bytes.
  destruct (decoded_loop_spec (S (length l)) l 0 eos ltac:(lia) ltac:(lia)) as [H1 H2].
  destruct (decoded_loop _ l 0 eos) as [w c]. cbn [fst snd drop] in *. by rewrite H1, H2.
Qed.

(** ** The reference of redaction *)

(** The replacement of a source: the first that was given. *)
Fixpoint replacement_of (rs : Redactions) (src : list N) : option (list N) :=
  match rs with
  | [] => None
  | r :: rs => if str_eqb r.1 src then Some r.2 else replacement_of rs src
  end.

(** The longest source, of [n] bytes at most, that the text begins with. *)
Fixpoint longest_from (n : nat) (rs : Redactions) (l : list N) : option (nat * list N) :=
  match n with
  | O => None
  | S n' =>
      match replacement_of rs (take n l) with
      | Some bytes => Some (n, bytes)
      | None => longest_from n' rs l
      end
  end.
Definition longest (rs : Redactions) (l : list N) : option (nat * list N) := longest_from (length l) rs l.

(** What a text becomes, one source byte or one source after the other. *)
Inductive Piece := Literal (b : N) | Replaced (n : nat) (bytes : list N).

Fixpoint redact_from (fuel : nat) (rs : Redactions) (l : list N) : list Piece :=
  match fuel, l with
  | _, [] | O, _ => []
  | S fuel, b :: l' =>
      match longest rs l with
      | Some (n, bytes) => Replaced n bytes :: redact_from fuel rs (drop n l)
      | None => Literal b :: redact_from fuel rs l'
      end
  end.
Definition redact (rs : Redactions) (l : list N) : list Piece := redact_from (length l) rs l.

Lemma longest_from_Some n rs l k bytes :
  longest_from n rs l = Some (k, bytes) ↔
  0 < k ≤ n ∧ replacement_of rs (take k l) = Some bytes
  ∧ ∀ m, k < m ≤ n → replacement_of rs (take m l) = None.
Proof.
  induction n as [|n IH]; cbn [longest_from].
  { split; [done|]. intros [? _]. lia. }
  destruct (replacement_of rs (take (S n) l)) as [b|] eqn:E.
  - split.
    + intros [= <- <-]. split_and!; [lia..|done|]. intros m Hm. lia.
    + intros (Hk & Hr & Hm). assert (k = S n) as ->; [|congruence].
      destruct (decide (k = S n)); [done|]. rewrite Hm in E by lia. done.
  - rewrite IH. split; intros (Hk & Hr & Hm).
    + split_and!; [lia..|done|]. intros m Hm'. destruct (decide (m = S n)) as [->|]; [done|]. apply Hm. lia.
    + assert (k ≠ S n) by congruence. split_and!; [lia..|done|]. intros m Hm'. apply Hm. lia.
Qed.

Lemma longest_Some rs l k bytes :
  longest rs l = Some (k, bytes) ↔
  0 < k ≤ length l ∧ replacement_of rs (take k l) = Some bytes
  ∧ ∀ m, k < m ≤ length l → replacement_of rs (take m l) = None.
Proof. apply longest_from_Some. Qed.

Lemma longest_from_None n rs l :
  longest_from n rs l = None ↔ ∀ m, 0 < m ≤ n → replacement_of rs (take m l) = None.
Proof.
  induction n as [|n IH]; cbn [longest_from]; [split; [intros _ m; lia|done]|].
  destruct (replacement_of rs (take (S n) l)) as [b|] eqn:E.
  - split; [done|]. intros H. rewrite H in E by lia. done.
  - rewrite IH. split; intros H m Hm; [|apply H; lia].
    destruct (decide (m = S n)) as [->|]; [done|]. apply H. lia.
Qed.

Lemma longest_None rs l : longest rs l = None ↔ ∀ m, 0 < m ≤ length l → replacement_of rs (take m l) = None.
Proof. apply longest_from_None. Qed.

Lemma redact_from_enough f g rs l : length l ≤ f → length l ≤ g → redact_from f rs l = redact_from g rs l.
Proof.
  revert g l. induction f as [|f IH]; intros [|g] [|b l] Hf Hg; cbn [length] in *; try lia; try done.
  cbn [redact_from]. destruct (longest rs (b :: l)) as [[n bytes]|] eqn:E.
  - apply longest_Some in E as [Hn _]. rewrite (IH g); [done|rewrite length_drop; cbn; lia..].
  - rewrite (IH g); [done|lia..].
Qed.

Lemma redact_cons rs b l :
  redact rs (b :: l) =
    match longest rs (b :: l) with
    | Some (n, bytes) => Replaced n bytes :: redact rs (drop n (b :: l))
    | None => Literal b :: redact rs l
    end.
Proof.
  unfold redact. cbn [length redact_from]. destruct (longest rs (b :: l)) as [[n bytes]|] eqn:E; [|done].
  apply longest_Some in E as [Hn _]. by rewrite (redact_from_enough _ (length (drop n (b :: l))))
    by (rewrite ?length_drop; cbn [length] in *; lia).
Qed.

Lemma redact_ind (rs : Redactions) (P : list N → Prop) :
  P [] → (∀ b l, (∀ n bytes, longest rs (b :: l) = Some (n, bytes) → P (drop n (b :: l))) →
                 (longest rs (b :: l) = None → P l) → P (b :: l)) →
  ∀ l, P l.
Proof.
  intros H0 H l. remember (length l) as k eqn:Hk. revert l Hk.
  induction k as [k IH] using lt_wf_ind. intros [|b l] ->; [done|]. apply H.
  - intros n bytes E. apply longest_Some in E as [Hn _]. apply (IH (length (drop n (b :: l)))); [|done].
    rewrite length_drop. cbn [length] in *. lia.
  - intros _. apply (IH (length l)); [cbn; lia|done].
Qed.

(** Only which source has which replacement matters. *)
Lemma redact_ext rs rs' l : (∀ src, replacement_of rs src = replacement_of rs' src) → redact rs l = redact rs' l.
Proof.
  intros H. assert (∀ l, longest rs l = longest rs' l) as Hl.
  { intros l'. unfold longest. induction (length l') as [|n IH]; cbn [longest_from]; [done|]. by rewrite H, IH. }
  induction l as [|b l IH1 IH2] using (redact_ind rs); [done|]. rewrite !redact_cons, <-Hl.
  destruct (longest rs (b :: l)) as [[n bytes]|] eqn:E; [|by rewrite IH2]. by rewrite (IH1 n bytes).
Qed.

Lemma replacement_sorted r rs src : replacement_of (insert_longest r rs) src = replacement_of (r :: rs) src.
Proof.
  induction rs as [|s rs IH]; [done|]. cbn [insert_longest]. destruct (Nat.leb_spec (length s.1) (length r.1)); [done|].
  cbn [replacement_of] in *. rewrite IH. destruct (str_eqb r.1 src) eqn:Er, (str_eqb s.1 src) eqn:Es; try done.
  apply str_eqb_eq in Er, Es. subst. rewrite Es in *. lia.
Qed.

Lemma replacement_sort rs src : replacement_of (sort_longest rs) src = replacement_of rs src.
Proof.
  induction rs as [|r rs IH]; [done|]. cbn [sort_longest foldr]. rewrite replacement_sorted. cbn [replacement_of].
  by rewrite <-IH.
Qed.

Lemma replacement_dedup_after last rs src :
  src ≠ last → replacement_of (dedup_after last rs) src = replacement_of rs src.
Proof.
  revert last. induction rs as [|r rs IH]; intros last Hs; [done|]. cbn [dedup_after replacement_of].
  destruct (str_eqb r.1 last) eqn:El.
  - apply str_eqb_eq in El. rewrite IH by done. destruct (str_eqb r.1 src) eqn:E; [|done].
    apply str_eqb_eq in E. congruence.
  - cbn [replacement_of]. destruct (str_eqb r.1 src) eqn:E; [done|]. apply IH. intros ->.
    assert (str_eqb r.1 r.1 = true) by by apply str_eqb_eq. congruence.
Qed.

Lemma replacement_dedup rs src : replacement_of (dedup_sources rs) src = replacement_of rs src.
Proof.
  destruct rs as [|r rs]; [done|]. cbn [dedup_sources replacement_of]. destruct (str_eqb r.1 src) eqn:E; [done|].
  apply replacement_dedup_after. intros ->. assert (str_eqb r.1 r.1 = true) by by apply str_eqb_eq. congruence.
Qed.

(** Sorting the replacements and dropping the repeated sources changes nothing. *)
Lemma redact_new_set replacements l :
  redact (new_redaction_set replacements) l = redact (redaction_bytes replacements) l.
Proof. apply redact_ext. intros src. unfold new_redaction_set. by rewrite replacement_dedup, replacement_sort. Qed.

(** ** The search for the next source *)

Lemma find_bytes_spec marker l :
  match find_bytes marker l with
  | Some i => take (length marker) (drop i l) = marker ∧ i ≤ length l
              ∧ ∀ j, j < i → take (length marker) (drop j l) ≠ marker
  | None => ∀ j, j ≤ length l → take (length marker) (drop j l) ≠ marker
  end.
Proof.
  assert (∀ l, match strip_prefix_str marker l with
               | Some _ => take (length marker) l = marker
               | None => take (length marker) l ≠ marker end) as Hp.
  { induction marker as [|b marker IH]; intros [|c l']; cbn; try done.
    destruct (N.eqb_spec b c) as [->|Hne]; [|congruence]. specialize (IH l').
    destruct (strip_prefix_str marker l'); congruence. }
  induction l as [|b l IH]; cbn [find_bytes].
  { specialize (Hp []). destruct (strip_prefix_str marker []).
    - split_and!; [done..|]. intros j Hj. lia.
    - intros j Hj. by assert (j = 0) as -> by (cbn in Hj; lia). }
  pose proof (Hp (b :: l)) as H. destruct (strip_prefix_str marker (b :: l)).
  { split_and!; [done|lia|]. intros j Hj. lia. }
  destruct (find_bytes marker l) as [i|]; cbn [fmap option_fmap option_map].
  - destruct IH as (H1 & H2 & H3). split_and!; [done|cbn; lia|]. intros [|j] Hj; [done|]. apply H3. lia.
  - intros [|j] Hj; [done|]. apply IH. cbn in Hj. lia.
Qed.

Lemma replacement_snoc rs r src :
  replacement_of (rs ++ [r]) src =
    match replacement_of rs src with Some b => Some b | None => if str_eqb r.1 src then Some r.2 else None end.
Proof. induction rs as [|s rs IH]; [done|]. cbn. by destruct (str_eqb s.1 src). Qed.

Definition begins (r : list N * list N) (l : list N) : Prop := r.1 ≠ [] ∧ take (length r.1) l = r.1.

Lemma begins_source r m l : 0 < m ≤ length l → str_eqb r.1 (take m l) = true → begins r l ∧ length r.1 = m.
Proof.
  intros Hm E%str_eqb_eq. assert (length (take m l) = m) as Hl by (rewrite length_take; lia).
  unfold begins. rewrite E, Hl. split_and!; [|done..]. intros H0. rewrite H0 in Hl. cbn in Hl. lia.
Qed.

(** One more source: it counts where the text begins with it, unless an earlier one
    is as long. *)
Lemma longest_snoc_other rs r l : ¬ begins r l → longest (rs ++ [r]) l = longest rs l.
Proof.
  intros Hb. assert (∀ m, 0 < m ≤ length l → replacement_of (rs ++ [r]) (take m l) = replacement_of rs (take m l)) as H.
  { intros m Hm. rewrite replacement_snoc. destruct (replacement_of rs _); [done|].
    destruct (str_eqb r.1 _) eqn:E; [|done]. by destruct (begins_source _ _ _ Hm E). }
  destruct (longest rs l) as [[k bytes]|] eqn:E.
  - apply longest_Some in E as (Hk & Hr & Hm). apply longest_Some. split_and!; [lia..|by rewrite H|].
    intros m Hm'. rewrite H by lia. apply Hm. lia.
  - rewrite longest_None in E. apply longest_None. intros m Hm. rewrite H by done. by apply E.
Qed.

Lemma begins_length r l : begins r l → 0 < length r.1 ≤ length l.
Proof.
  intros [H1 H2]. apply (f_equal length) in H2. rewrite length_take in H2.
  destruct (r.1) as [|b p]; [done|]. cbn [length] in *. lia.
Qed.

Lemma longest_snoc rs r l :
  begins r l →
  longest (rs ++ [r]) l =
    match longest rs l with
    | Some (k, bytes) => if k <? length r.1 then Some (length r.1, r.2) else Some (k, bytes)
    | None => Some (length r.1, r.2)
    end.
Proof.
  intros Hb. pose proof (begins_length _ _ Hb) as Hl. destruct Hb as [_ Hb].
  assert (∀ m, 0 < m ≤ length l → m ≠ length r.1 →
            replacement_of (rs ++ [r]) (take m l) = replacement_of rs (take m l)) as Hother.
  { intros m Hm Hne. rewrite replacement_snoc. destruct (replacement_of rs _); [done|].
    destruct (str_eqb r.1 _) eqn:E; [|done]. by destruct (begins_source _ _ _ Hm E) as [_ <-]. }
  assert (replacement_of rs (take (length r.1) l) = None →
          replacement_of (rs ++ [r]) (take (length r.1) l) = Some r.2) as Hself.
  { intros E. rewrite replacement_snoc, E, Hb. by rewrite (proj2 (str_eqb_eq _ _)). }
  destruct (longest rs l) as [[k bytes]|] eqn:E.
  - apply longest_Some in E as (Hk & Hr & Hm). destruct (Nat.ltb_spec k (length r.1)); apply longest_Some.
    + split_and!; [lia..|apply Hself, Hm; lia|]. intros m Hm'. rewrite Hother by lia. apply Hm. lia.
    + split_and!; [lia..|by rewrite replacement_snoc, Hr|]. intros m Hm'. rewrite Hother by lia. apply Hm. lia.
  - rewrite longest_None in E. apply longest_Some.
    split_and!; [lia..|by apply Hself, E|]. intros m Hm. rewrite Hother by lia. apply E. lia.
Qed.

(** What [next_redaction] looks for. *)
Definition finds (source : list N) (cursor before : nat) (rs : Redactions) (found : option (nat * nat * list N)) : Prop :=
  match found with
  | None => ∀ i, cursor ≤ i < before → longest rs (drop i source) = None
  | Some (s, n, bytes) =>
      cursor ≤ s < before ∧ longest rs (drop s source) = Some (n, bytes)
      ∧ ∀ i, cursor ≤ i < s → longest rs (drop i source) = None
  end.

(** A source that begins nowhere in the range changes nothing. *)
Lemma finds_absent source cursor before rs r found :
  (∀ i, cursor ≤ i < before → ¬ begins r (drop i source)) →
  finds source cursor before rs found → finds source cursor before (rs ++ [r]) found.
Proof.
  intros H. unfold finds. destruct found as [[[s n] bytes]|].
  - intros (Hs & Hl & Hi). split_and!; [lia..|by rewrite longest_snoc_other by (apply H; lia)|].
    intros i Hi'. rewrite longest_snoc_other by (apply H; lia). by apply Hi.
  - intros Hi i Hi'. rewrite longest_snoc_other by (by apply H). by apply Hi.
Qed.

Lemma finds_consider source cursor before rs r found :
  before ≤ length source →
  finds source cursor before rs found →
  finds source cursor before (rs ++ [r]) (consider_redaction source cursor before found r).
Proof.
  intros Hbefore H. destruct r as [pattern bytes]. unfold consider_redaction.
  case_bool_decide as Hp; cbn [orb]. { apply finds_absent; [|done]. intros i _ [Hb _]. done. }
  destruct (Nat.ltb_spec (length source - cursor) (length pattern)) as [Hlen|Hlen].
  { apply finds_absent; [|done]. intros i Hi [_ Hb]%begins_length. rewrite length_drop in Hb. cbn [fst] in Hb. lia. }
  pose proof (find_bytes_spec pattern (drop cursor source)) as Hf.
  assert (∀ i, cursor ≤ i → drop (i - cursor) (drop cursor source) = drop i source) as Hd
    by (intros i Hi; rewrite drop_drop; f_equal; lia).
  destruct (find_bytes pattern (drop cursor source)) as [relative|].
  2: { apply finds_absent; [|done]. intros i Hi [_ Hb]. apply (Hf (i - cursor)); [rewrite length_drop; lia|].
       by rewrite Hd by lia. }
  destruct Hf as (Hat & _ & Hno). set (start := cursor + relative).
  assert (begins (pattern, bytes) (drop start source)) as Hstart
    by (split; [done|]; cbn [fst]; rewrite <-(Hd start) by lia; by replace (start - cursor) with relative by lia).
  assert (∀ i, cursor ≤ i < start → ¬ begins (pattern, bytes) (drop i source)) as Hbelow.
  { intros i Hi [_ Hb]. apply (Hno (i - cursor)); [lia|]. by rewrite Hd by lia. }
  destruct (Nat.leb_spec before start) as [Hge|Hlt]; [apply finds_absent; [|done]; intros i Hi; apply Hbelow; lia|].
  destruct found as [[[s n] old]|].
  - destruct H as (Hs & Hl & Hi). destruct (Nat.ltb_spec start s) as [Hss|Hss]; cbn [orb].
    { split_and!; [lia..|by rewrite longest_snoc, Hi by (done || lia)|].
      intros i Hi'. rewrite longest_snoc_other by (by apply Hbelow). apply Hi. lia. }
    destruct (Nat.eqb_spec start s) as [<-|Hne]; cbn [andb].
    + assert (finds source cursor before (rs ++ [(pattern, bytes)])
                (if n <? length pattern then Some (start, length pattern, bytes) else Some (start, n, old))) as Hgoal;
        [|by destruct (n <? length pattern)].
      pose proof (longest_snoc rs _ _ Hstart) as Hsn. rewrite Hl in Hsn. cbn [fst snd] in Hsn.
      destruct (n <? length pattern); (split_and!; [lia..|done|]);
        intros i Hi'; rewrite longest_snoc_other by (by apply Hbelow); by apply Hi.
    + split_and!; [lia..| |].
      * rewrite longest_snoc_other; [done|]. apply Hbelow. lia.
      * intros i Hi'. rewrite longest_snoc_other by (apply Hbelow; lia). by apply Hi.
  - split_and!; [lia..|by rewrite longest_snoc, H by (done || lia)|].
    intros i Hi'. rewrite longest_snoc_other by (by apply Hbelow). apply H. lia.
Qed.

Lemma next_redaction_finds source cursor before rs :
  before ≤ length source → finds source cursor before rs (next_redaction source cursor before rs).
Proof.
  intros Hb. unfold next_redaction. induction rs as [|r rs IH] using rev_ind.
  - intros i _. apply longest_None. done.
  - rewrite foldl_app. cbn [foldl]. by apply finds_consider.
Qed.

(** ** Redacting a stream *)

Definition pieces (s : RedactedOutputSegment) : list Piece :=
  if atomic_replacement s then [Replaced (source_bytes s) (seg_bytes s)] else Literal <$> seg_bytes s.

Definition seg_ok (s : RedactedOutputSegment) : Prop :=
  0 < source_bytes s ∧ (atomic_replacement s = false → source_bytes s = length (seg_bytes s)).

Definition piece_bytes (p : Piece) : list N := match p with Literal b => [b] | Replaced _ bytes => bytes end.

Lemma pieces_bytes s : pieces s ≫= piece_bytes = seg_bytes s.
Proof.
  unfold pieces. destruct (atomic_replacement s); [cbn; apply app_nil_r|].
  induction (seg_bytes s) as [|b l IH]; [done|]. cbn in *. by rewrite IH.
Qed.

Lemma segments_bytes (out : list RedactedOutputSegment) : (out ≫= pieces) ≫= piece_bytes = out ≫= seg_bytes.
Proof. induction out as [|s out IH]; [done|]. cbn [mbind list_bind] in *. by rewrite bind_app, pieces_bytes, IH. Qed.

Lemma literal_segment_pieces l : literal_segment l ≫= pieces = Literal <$> l.
Proof. destruct l; [done|]. cbn. by rewrite app_nil_r. Qed.

Lemma literal_segment_bytes l : literal_segment l ≫= seg_bytes = l.
Proof. destruct l; [done|]. cbn. by rewrite app_nil_r. Qed.

Lemma literal_segment_ok l : Forall seg_ok (literal_segment l).
Proof. destruct l; [constructor|]. constructor; [split; [cbn; lia|done]|constructor]. Qed.

(** Bytes at which no source begins are copied. *)
Lemma redact_skip rs k l :
  k ≤ length l → (∀ i, i < k → longest rs (drop i l) = None) →
  redact rs l = (Literal <$> take k l) ++ redact rs (drop k l).
Proof.
  revert l. induction k as [|k IH]; intros l Hk Hn; [done|]. destruct l as [|b l]; [cbn in Hk; lia|].
  rewrite redact_cons. pose proof (Hn 0 ltac:(lia)) as H0. cbn [drop] in H0. rewrite H0. cbn [take drop fmap list_fmap app].
  rewrite (IH l); [done|cbn in Hk; lia|]. intros i Hi. apply (Hn (S i)). lia.
Qed.

Lemma redact_found rs l k bytes :
  longest rs l = Some (k, bytes) → redact rs l = Replaced k bytes :: redact rs (drop k l).
Proof.
  intros E. destruct l as [|b l]; [apply longest_Some in E as [Hk _]; cbn in Hk; lia|]. by rewrite redact_cons, E.
Qed.

Lemma drain_loop_spec rs pending t before fuel cursor :
  before ≤ length pending → cursor ≤ length pending → length pending < fuel + cursor →
  (∀ i, i < before → longest rs (drop i pending ++ t) = longest rs (drop i pending)) →
  let r := drain_loop fuel pending rs before cursor in
  redact rs (drop cursor pending ++ t) = (r.1 ≫= pieces) ++ redact rs (drop r.2 pending ++ t)
  ∧ before ≤ r.2 ≤ length pending ∧ Forall seg_ok r.1.
Proof.
  intros Hb Hc Hf Hd. cbv zeta. revert cursor Hc Hf. induction fuel as [|fuel IH]; intros cursor Hc Hf; [lia|].
  cbn [drain_loop]. destruct (Nat.ltb_spec cursor before) as [Hlt|Hge]; [|cbn; split_and!; [done|lia..|constructor]].
  assert (∀ s, cursor ≤ s → s ≤ before → (∀ i, cursor ≤ i < s → longest rs (drop i pending) = None) →
    redact rs (drop cursor pending ++ t)
    = (literal_segment (slice_bytes cursor s pending) ≫= pieces) ++ redact rs (drop s pending ++ t)) as Hskip.
  { intros s Hs Hsb Hn. rewrite literal_segment_pieces. unfold slice_bytes.
    rewrite (redact_skip rs (s - cursor)).
    - rewrite take_app_le, drop_app_le, drop_drop by (rewrite length_drop; lia). by replace (cursor + (s - cursor)) with s by lia.
    - rewrite length_app, length_drop. lia.
    - intros i Hi. rewrite drop_app_le, drop_drop by (rewrite length_drop; lia). rewrite Hd by lia. apply Hn. lia. }
  pose proof (next_redaction_finds pending cursor before rs Hb) as H.
  destruct (next_redaction pending cursor before rs) as [[[s n] bytes]|].
  - destruct H as (Hs & Hl & Hn). pose proof (proj1 (longest_Some _ _ _ _) Hl) as [Hlen _]. rewrite length_drop in Hlen.
    specialize (IH (s + n) ltac:(lia) ltac:(lia)). destruct (drain_loop fuel pending rs before (s + n)) as [out c].
    cbn [fst snd] in *. destruct IH as (IH & Hrange & Hok). split_and!; [|lia..|].
    + rewrite (Hskip s) by (lia || done). rewrite bind_app, <-app_assoc. f_equal.
      rewrite (redact_found rs _ n bytes) by (by rewrite Hd by lia).
      rewrite drop_app_le, drop_drop by (rewrite length_drop; lia). by rewrite IH.
    + apply Forall_app. split; [apply literal_segment_ok|]. constructor; [|done]. split; [cbn; lia|done].
  - cbn [fst snd]. split_and!; [apply Hskip; [lia..|done]|lia..|apply literal_segment_ok].
Qed.

Lemma replacement_length rs src bytes : replacement_of rs src = Some bytes → length src ≤ foldr Nat.max 0 ((λ r : list N * list N, length r.1) <$> rs).
Proof.
  induction rs as [|r rs IH]; [done|]. cbn. destruct (str_eqb r.1 src) eqn:E.
  - apply str_eqb_eq in E as ->. lia.
  - intros H. specialize (IH H). lia.
Qed.

(** Where every source fits, what follows does not matter. *)
Lemma longest_app rs p t :
  (∀ src bytes, replacement_of rs src = Some bytes → length src ≤ length p) → longest rs (p ++ t) = longest rs p.
Proof.
  intros H. assert (∀ m, length p < m ≤ length (p ++ t) → replacement_of rs (take m (p ++ t)) = None) as Hlong.
  { intros m Hm. destruct (replacement_of rs _) eqn:E; [|done]. apply H in E. rewrite length_take in E. lia. }
  destruct (longest rs p) as [[k bytes]|] eqn:E.
  - apply longest_Some in E as (Hk & Hr & Hm). apply longest_Some. rewrite length_app.
    split_and!; [lia..|by rewrite take_app_le by lia|]. intros m Hm'.
    destruct (decide (m ≤ length p)); [rewrite take_app_le by lia; apply Hm; lia|]. apply Hlong. rewrite length_app. lia.
  - rewrite longest_None in E. apply longest_None. intros m Hm.
    destruct (decide (m ≤ length p)); [rewrite take_app_le by lia; apply E; lia|]. apply Hlong. lia.
Qed.

Lemma redact_none l : redact [] l = Literal <$> l.
Proof.
  rewrite (redact_skip [] (length l)) by (try done; intros; by apply longest_None).
  by rewrite take_ge, drop_all, app_nil_r by lia.
Qed.

Definition processed (rs : Redactions) (pending : list N) (eos : bool) : list RedactedOutputSegment * nat :=
  drain_loop (S (length pending)) pending rs (process_before_of rs pending eos) 0.

(** Draining the pending bytes anticipates the redaction of the stream that begins
    with them. *)
Lemma processed_spec rs pending t eos :
  rs ≠ [] → (eos = true → t = []) →
  redact rs (pending ++ t) = ((processed rs pending eos).1 ≫= pieces) ++ redact rs (drop (processed rs pending eos).2 pending ++ t)
  ∧ (eos = true → drop (processed rs pending eos).2 pending = []) ∧ Forall seg_ok (processed rs pending eos).1.
Proof.
  intros Hrs Ht. unfold processed.
  assert (process_before_of rs pending eos ≤ length pending) as Hle by (unfold process_before_of; destruct eos; lia).
  assert (∀ i, i < process_before_of rs pending eos → longest rs (drop i pending ++ t) = longest rs (drop i pending)) as Hd.
  { intros i Hi. destruct eos; [by rewrite Ht, app_nil_r by done|]. unfold process_before_of, overlap_of in Hi.
    apply longest_app. intros src bytes Hsrc%replacement_length. rewrite length_drop. destruct rs; [done|]. lia. }
  destruct (drain_loop_spec rs pending t _ (S (length pending)) 0 Hle ltac:(lia) ltac:(lia) Hd) as (H1 & H2 & H3).
  cbn [drop] in H1. split_and!; [done| |done]. intros ->. apply drop_ge. exact (proj1 H2).
Qed.

Lemma push_spec rs p bytes t eos :
  (eos = true → t = []) →
  let r := push rs p bytes eos in
  redact rs (p ++ bytes ++ t) = (r.1 ≫= pieces) ++ redact rs (r.2 ++ t)
  ∧ (eos = true → r.2 = []) ∧ Forall seg_ok r.1.
Proof.
  intros Ht. cbv zeta. rewrite app_assoc. unfold push, drain_redacted_output_bytes. destruct rs as [|r rs].
  - cbn [fst snd app]. rewrite !redact_none, literal_segment_pieces, fmap_app. split_and!; [done..|apply literal_segment_ok].
  - destruct (processed_spec (r :: rs) (p ++ bytes) t eos ltac:(done) Ht) as (H1 & H2 & H3). unfold processed in *.
    destruct (drain_loop _ _ _ _ _) as [out c]. done.
Qed.

Lemma redacted_loop_drain fuel pending rs before cursor :
  redacted_loop fuel pending rs before cursor =
    ((drain_loop fuel pending rs before cursor).1 ≫= seg_bytes, (drain_loop fuel pending rs before cursor).2).
Proof.
  revert cursor. induction fuel as [|fuel IH]; intros cursor; [done|]. cbn [redacted_loop drain_loop].
  destruct (cursor <? before); [|done]. destruct (next_redaction pending cursor before rs) as [[[s n] bytes]|].
  - rewrite IH. destruct (drain_loop fuel pending rs before (s + n)) as [out c]. cbn [fst snd].
    rewrite bind_app, literal_segment_bytes. done.
  - cbn [fst snd]. by rewrite literal_segment_bytes.
Qed.
