(* ===== verification/OutputCaptureClaims.v ===== *)
(** * What the capture of command output guarantees

    The invariant of the two captures of a process, the archive of a tool result,
    and the properties. *)

From S2P Require Import Prelude RustText Json JsonPrinter TraceItems CommandTranscript OutputCapture.
From S2P Require Import OutputCaptureFacts.

(** ** What is kept of the pieces *)

Definition piece_size (p : Piece) : nat := match p with Literal _ => 1 | Replaced n _ => n end.
Definition size_of (ps : list Piece) : nat := sum_list_with piece_size ps.

(** The bytes of the pieces that begin within the first [k] bytes of the source: a
    replacement is kept whole or not at all. *)
Fixpoint retain (k : nat) (ps : list Piece) : list N :=
  match k, ps with
  | O, _ | _, [] => []
  | S _, p :: ps => piece_bytes p ++ retain (k - piece_size p) ps
  end.

Lemma retain_0 ps : retain 0 ps = [].
Proof. by destruct ps. Qed.

Lemma retain_nil k : retain k [] = [].
Proof. by destruct k. Qed.

Lemma size_of_app a b : size_of (a ++ b) = size_of a + size_of b.
Proof. apply sum_list_with_app. Qed.

Lemma retain_within k ps more : k ≤ size_of ps → retain k (ps ++ more) = retain k ps.
Proof.
  revert k. induction ps as [|p ps IH]; intros k Hk; cbn in Hk.
  { assert (k = 0) as -> by lia. by rewrite !retain_0. }
  destruct k as [|k]; [done|]. cbn [app retain]. rewrite IH; [done|]. unfold size_of in *. lia.
Qed.

Definition pieces_ok (ps : list Piece) : Prop := Forall (λ p, 0 < piece_size p) ps.

Lemma retain_beyond k ps more :
  pieces_ok ps → retain (size_of ps + k) (ps ++ more) = (ps ≫= piece_bytes) ++ retain k more.
Proof.
  induction 1 as [|p ps Hp _ IH]; [done|]. cbn [size_of sum_list_with app mbind list_bind].
  destruct (piece_size p + sum_list_with piece_size ps + k) as [|n] eqn:E; [lia|]. cbn [retain].
  replace (S n - piece_size p) with (size_of ps + k) by (unfold size_of; lia). by rewrite IH, <-app_assoc.
Qed.

Lemma retain_all k ps : pieces_ok ps → size_of ps ≤ k → retain k ps = ps ≫= piece_bytes.
Proof.
  intros Hp Hk. pose proof (retain_beyond (k - size_of ps) ps [] Hp) as H. rewrite app_nil_r, retain_nil, app_nil_r in H.
  by replace (size_of ps + (k - size_of ps)) with k in H by lia.
Qed.

Lemma size_of_literals l : size_of (Literal <$> l) = length l.
Proof. unfold size_of. induction l as [|b l IH]; [done|]. cbn. by rewrite IH. Qed.

Lemma size_of_pieces s : seg_ok s → size_of (pieces s) = source_bytes s.
Proof.
  intros [_ H]. unfold pieces. destruct (atomic_replacement s); [cbn; lia|]. by rewrite size_of_literals, H.
Qed.

Lemma seg_pieces_ok s : seg_ok s → pieces_ok (pieces s).
Proof.
  intros [H _]. unfold pieces, pieces_ok. destruct (atomic_replacement s); [by constructor; [|constructor]|].
  apply Forall_fmap, Forall_true. cbn. lia.
Qed.

Lemma retain_literals k l : retain k (Literal <$> l) = take k l.
Proof.
  revert k. induction l as [|b l IH]; intros [|k]; try done. cbn. by rewrite Nat.sub_0_r, IH.
Qed.

(** [retained_segment_bytes] keeps of a segment what [retain] keeps of its pieces. *)
Lemma retained_pieces s k : seg_ok s → retained_segment_bytes s k = retain k (pieces s).
Proof.
  intros [Hs _]. unfold retained_segment_bytes, pieces. destruct (Nat.eqb_spec k 0) as [->|Hk]; [by rewrite retain_0|].
  destruct (atomic_replacement s).
  - destruct k; [done|]. cbn. case_match; by rewrite app_nil_r.
  - rewrite retain_literals. destruct (Nat.le_gt_cases k (length (seg_bytes s))).
    + by rewrite Nat.min_l.
    + by rewrite Nat.min_r, !take_ge by lia.
Qed.

(** The pieces of a text cover it. *)
Lemma redact_size rs l : size_of (redact rs l) = length l.
Proof.
  induction l as [|b l IH1 IH2] using (redact_ind rs); [done|]. rewrite redact_cons.
  destruct (longest rs (b :: l)) as [[n bytes]|] eqn:E.
  - pose proof (proj1 (longest_Some _ _ _ _) E) as [Hn _]. cbn [size_of sum_list_with piece_size].
    specialize (IH1 n bytes eq_refl). unfold size_of in IH1. rewrite IH1, length_drop. lia.
  - cbn. by rewrite <-(IH2 eq_refl).
Qed.

Lemma redact_ok rs l : pieces_ok (redact rs l).
Proof.
  induction l as [|b l IH1 IH2] using (redact_ind rs); [constructor|]. rewrite redact_cons.
  destruct (longest rs (b :: l)) as [[n bytes]|] eqn:E.
  - pose proof (proj1 (longest_Some _ _ _ _) E) as [Hn _]. constructor; [cbn; lia|by eapply IH1].
  - constructor; [cbn; lia|by apply IH2].
Qed.

(** ** The invariant of a capture *)

(** What an observer was told of [bytes], if it is there. *)
Definition observed (on : bool) (calls : list rstr) (pending bytes : list N) : Prop :=
  if on then concat calls = (decode bytes).1 ∧ pending = (decode bytes).2 else calls = [] ∧ pending = [].

Definition told (on : bool) (calls : list rstr) (bytes : list N) : Prop :=
  concat calls = if on then (decode bytes).1 else [].

Lemma observed_more on calls pending bytes more :
  observed on calls pending bytes →
  let r := emit_complete_utf8_chunks (pending ++ more) false in
  observed on (if on then calls ++ r.1 else calls) (if on then r.2 else pending) (bytes ++ more).
Proof.
  unfold observed. destruct on; [|done]. intros [Hc ->]. cbv zeta.
  destruct (emit_spec ((decode bytes).2 ++ more) false) as [-> ->] || destruct (emit_spec ((decode bytes).2 ++ more) false) as [H1 H2].
  all: rewrite decode_app; cbn [fst snd]; rewrite concat_app, Hc; split; congruence.
Qed.

Section Invariant.
Variables (policy : ProcessOutputCapturePolicy) (rs : Redactions) (who : Consumers).

(** While the thread runs: [text] was read, the pieces [done] are consumed. *)
Record running (text : list N) (budget : N) (c : Capture) (consumed : list Piece) : Prop := {
  run_stream : ∀ t, (at_end c = true → t = []) →
    redact rs (text ++ t) = consumed ++ (segments c ≫= pieces) ++ redact rs (source_pending c ++ t);
  run_end : at_end c = true → source_pending c = [];
  run_segments : Forall seg_ok (segments c);
  run_pieces : pieces_ok consumed;
  run_original : original_bytes c = N.min (N.of_nat (length text)) u64_max;
  run_captured : N.to_nat (captured_bytes c) ≤ size_of consumed;
  run_budget : N.to_nat (captured_bytes c) < size_of consumed → budget = 0%N;
  run_spool : spool c = retain (N.to_nat (captured_bytes c)) consumed;
  run_counted : preview_source_bytes c = N.min (captured_bytes c) (preview_bytes policy);
  run_preview : preview c = retain (N.to_nat (preview_source_bytes c)) consumed;
  run_transcript : observed (notifies who (transcript_observer who)) (transcript c)
    (pending_transcript_utf8 c) (consumed ≫= piece_bytes);
  run_live : observed (notifies who (preview_observer who)) (live c) (pending_live_utf8 c) (preview c);
}.

(** When it has returned an output. *)
Record finished (text : list N) (budget : N) (c : Capture) (o : CapturedProcessOutput) : Prop := {
  fin_original : out_original_bytes o = N.min (N.of_nat (length text)) u64_max;
  fin_captured : N.to_nat (out_captured_bytes o) ≤ length text;
  fin_budget : N.to_nat (out_captured_bytes o) < length text → budget = 0%N;
  fin_spool : spool_file (out_spool o) = Some (retain (N.to_nat (out_captured_bytes o)) (redact rs text));
  fin_preview : out_preview o =
    utf8_boundary_safe_lossy_preview
      (retain (N.to_nat (N.min (out_captured_bytes o) (preview_bytes policy))) (redact rs text));
  fin_omitted : out_omitted_bytes o = (out_original_bytes o - out_captured_bytes o)%N;
  fin_truncated : out_preview_truncated o
    = (N.min (out_captured_bytes o) (preview_bytes policy) <? out_original_bytes o)%N;
  fin_transcript : told (notifies who (transcript_observer who)) (transcript c) (redact rs text ≫= piece_bytes);
  fin_live : told (notifies who (preview_observer who)) (live c)
    (retain (N.to_nat (N.min (out_captured_bytes o) (preview_bytes policy))) (redact rs text));
  fin_same : captured_bytes c = out_captured_bytes o;
}.

Definition capture_ok (text : list N) (budget : N) (c : Capture) : Prop :=
  match outcome c with
  | None => ∃ consumed, running text budget c consumed
  | Some (Ok o) => finished text budget c o
  | Some (Err _) => True
  end.

Definition failed (c : Capture) : bool := match outcome c with Some (Err _) => true | _ => false end.

(** The other thread may use the budget meanwhile. *)
Lemma capture_ok_budget text budget budget' c :
  (budget' <= budget)%N → capture_ok text budget c → capture_ok text budget' c.
Proof.
  intros Hb. unfold capture_ok. destruct (outcome c) as [[o|e]|]; [|done|].
  - intros []. constructor; try done. intros H. rewrite fin_budget0 in Hb by done. lia.
  - intros [d []]. exists d. constructor; try done. intros H. rewrite run_budget0 in Hb by done. lia.
Qed.

Lemma new_capture_ok budget : capture_ok [] budget new_capture.
Proof.
  exists []. constructor; cbn; try done; try constructor.
  - lia.
  - lia.
  - by destruct (notifies who (transcript_observer who)).
  - by destruct (notifies who (preview_observer who)).
Qed.

(** *** The steps *)

Lemma set_segments_running text more budget c consumed out pending eos :
  outcome c = None → running text budget c consumed → segments c = [] → at_end c = false →
  (out, pending) = push rs (source_pending c) more eos → (eos = true → more = []) →
  running (text ++ more) budget
    (set_segments pending out
       (if eos then set_at_end c else count_read (length more) c)) consumed.
Proof.
  intros Ho [] Hs He Hp Hmore.
  assert (∀ t, (eos = true → t = []) →
            redact rs (text ++ more ++ t) = consumed ++ (out ≫= pieces) ++ redact rs (pending ++ t)) as Hstream.
  { intros t Ht. rewrite run_stream0 by (by rewrite He). rewrite Hs. cbn [mbind list_bind app].
    destruct (push_spec rs (source_pending c) more t eos Ht) as (H1 & _). rewrite <-Hp in H1. by rewrite H1. }
  destruct (push_spec rs (source_pending c) more [] eos ltac:(done)) as (_ & Hend & Hok). rewrite <-Hp in Hend, Hok.
  destruct eos.
  - specialize (Hmore eq_refl). subst more. rewrite app_nil_r.
    constructor; cbn [set_segments set_at_end at_end segments source_pending original_bytes captured_bytes spool
      preview preview_source_bytes live transcript pending_live_utf8 pending_transcript_utf8]; try done.
  - constructor; cbn [set_segments count_read at_end segments source_pending original_bytes captured_bytes spool
      preview preview_source_bytes live transcript pending_live_utf8 pending_transcript_utf8]; try done.
    + intros t Ht. rewrite <-app_assoc. by apply Hstream.
    + by rewrite He.
    + rewrite run_original0, length_app. unfold u64_saturating_add. lia.
Qed.

Lemma feed_transcript_observed bytes c data :
  observed (notifies who (transcript_observer who)) (transcript c) (pending_transcript_utf8 c) data →
  observed (notifies who (transcript_observer who)) (transcript (feed_transcript who bytes false c))
    (pending_transcript_utf8 (feed_transcript who bytes false c)) (data ++ bytes).
Proof.
  intros H%(observed_more _ _ _ _ bytes). unfold feed_transcript. destruct (notifies who (transcript_observer who)); [|done].
  by destruct (emit_complete_utf8_chunks (pending_transcript_utf8 c ++ bytes) false).
Qed.

Lemma feed_live_observed bytes c data :
  observed (notifies who (preview_observer who)) (live c) (pending_live_utf8 c) data →
  observed (notifies who (preview_observer who)) (live (feed_live who bytes false c))
    (pending_live_utf8 (feed_live who bytes false c)) (data ++ bytes).
Proof.
  intros H%(observed_more _ _ _ _ bytes). unfold feed_live. destruct (notifies who (preview_observer who)); [|done].
  by destruct (emit_complete_utf8_chunks (pending_live_utf8 c ++ bytes) false).
Qed.
(** What feeding an observer leaves alone. *)
Lemma feed_transcript_fields bytes flush c :
  let c' := feed_transcript who bytes flush c in
  (source_pending c', segments c', at_end c', spool c', preview c', outcome c')
    = (source_pending c, segments c, at_end c, spool c, preview c, outcome c)
  ∧ (live c', pending_live_utf8 c') = (live c, pending_live_utf8 c)
  ∧ (original_bytes c', captured_bytes c', preview_source_bytes c')
    = (original_bytes c, captured_bytes c, preview_source_bytes c).
Proof.
  unfold feed_transcript. destruct (notifies _ _); [|done]. by destruct (emit_complete_utf8_chunks _ _).
Qed.

Lemma feed_live_fields bytes flush c :
  let c' := feed_live who bytes flush c in
  (source_pending c', segments c', at_end c', spool c', preview c', outcome c')
    = (source_pending c, segments c, at_end c, spool c, preview c, outcome c)
  ∧ (transcript c', pending_transcript_utf8 c') = (transcript c, pending_transcript_utf8 c)
  ∧ (original_bytes c', captured_bytes c', preview_source_bytes c')
    = (original_bytes c, captured_bytes c, preview_source_bytes c).
Proof.
  unfold feed_live. destruct (notifies _ _); [|done]. by destruct (emit_complete_utf8_chunks _ _).
Qed.

(** The segment at the head is among the consumed pieces now. *)
Lemma stream_consumed text c consumed seg rest :
  segments c = seg :: rest →
  (∀ t, (at_end c = true → t = []) →
     redact rs (text ++ t) = consumed ++ (segments c ≫= pieces) ++ redact rs (source_pending c ++ t)) →
  ∀ t, (at_end c = true → t = []) →
     redact rs (text ++ t) = (consumed ++ pieces seg) ++ (rest ≫= pieces) ++ redact rs (source_pending c ++ t).
Proof. intros Hs H t Ht. rewrite H, Hs by done. cbn [mbind list_bind]. by rewrite <-!app_assoc. Qed.

Lemma consume_preview_running text budget c consumed seg retained :
  seg_ok seg → pieces_ok consumed → (0 < retained <= N.of_nat (source_bytes seg))%N →
  N.to_nat (captured_bytes c) = size_of consumed + N.to_nat retained →
  spool c = retain (N.to_nat (captured_bytes c)) (consumed ++ pieces seg) →
  (captured_bytes c <= u64_max)%N →
  preview_source_bytes c = N.min (captured_bytes c - retained) (preview_bytes policy) →
  preview c = retain (N.to_nat (preview_source_bytes c)) consumed →
  observed (notifies who (preview_observer who)) (live c) (pending_live_utf8 c) (preview c) →
  observed (notifies who (transcript_observer who)) (transcript c) (pending_transcript_utf8 c)
    ((consumed ++ pieces seg) ≫= piece_bytes) →
  (∀ t, (at_end c = true → t = []) →
     redact rs (text ++ t) = (consumed ++ pieces seg) ++ (segments c ≫= pieces) ++ redact rs (source_pending c ++ t)) →
  (at_end c = true → source_pending c = []) → Forall seg_ok (segments c) →
  original_bytes c = N.min (N.of_nat (length text)) u64_max →
  (budget = 0%N ∨ retained = N.of_nat (source_bytes seg)) →
  running text budget (consume_preview policy who seg retained c) (consumed ++ pieces seg).
Proof.
  intros Hseg Hok Hr Hcap Hspool Hmax Hps Hprev Hlive Htr Hst Hend Hsegs Horig Hbud.
  assert (pieces_ok (consumed ++ pieces seg)) as Hok' by (apply Forall_app; split; [done|by apply seg_pieces_ok]).
  assert (size_of (consumed ++ pieces seg) = size_of consumed + source_bytes seg) as Hsize
    by (by rewrite size_of_app, size_of_pieces).
  assert (N.to_nat (captured_bytes c) < size_of (consumed ++ pieces seg) → budget = 0%N) as Hb
    by (destruct Hbud as [?| ->]; [done|lia]).
  unfold consume_preview. set (more := N.min (preview_bytes policy - preview_source_bytes c) retained).
  destruct (N.eqb_spec more 0) as [H0|H0].
  - constructor; try done; [lia|lia|].
    rewrite Hprev. rewrite retain_within; [done|]. lia.
  - set (bytes := retained_segment_bytes seg (N.to_nat more)). set (c' := keep_in_preview bytes more c).
    assert (preview_source_bytes c' = preview_source_bytes c + more)%N as Hps'
      by (cbn; unfold u64_saturating_add; lia).
    assert (preview c' = retain (N.to_nat (preview_source_bytes c')) (consumed ++ pieces seg)) as Hprev'.
    { rewrite Hps', N2Nat.inj_add. assert (N.to_nat (preview_source_bytes c) = size_of consumed) as Hall by lia.
      cbn [c' keep_in_preview preview]. rewrite Hall, retain_beyond, Hprev, Hall, retain_all by done.
      unfold bytes. by rewrite retained_pieces. }
    pose proof (feed_live_fields bytes false c') as (F1 & F2 & F3).
    injection F1 as E1 E2 E3 E4 E5 _. injection F2 as E6 E7. injection F3 as E8 E9 E10.
    change (u64_saturating_add (preview_source_bytes c) more) with (preview_source_bytes c') in E10.
    change (preview c ++ bytes) with (preview c') in E5. rewrite Hps' in E10, Hprev'.
    constructor; rewrite ?E1, ?E2, ?E3, ?E4, ?E5, ?E6, ?E7, ?E8, ?E9, ?E10; try done; [lia|cbn; lia|].
    apply feed_live_observed, Hlive.
Qed.

Lemma consume_running text budget c consumed seg rest write_error budget' c' :
  outcome c = None → running text budget c consumed → segments c = seg :: rest →
  (captured_bytes c + budget <= u64_max)%N →
  consume_segment policy who write_error seg budget (set_segments (source_pending c) rest c) = (budget', c') →
  (budget' <= budget)%N
  ∧ match outcome c' with
    | None => running text budget' c' (consumed ++ pieces seg)
              ∧ (captured_bytes c' + budget' = captured_bytes c + budget)%N
    | Some (Ok _) => False
    | Some (Err _) => captured_bytes c' = captured_bytes c
    end.
Proof.
  intros Ho [] Hs Hmax. rewrite Hs in run_segments0. apply Forall_cons in run_segments0 as [Hseg Hrest].
  pose proof (stream_consumed text c consumed seg rest Hs run_stream0) as Hst.
  unfold consume_segment. set (c0 := set_segments (source_pending c) rest c).
  pose proof (feed_transcript_observed (seg_bytes seg) c0 _ run_transcript0) as Htr.
  rewrite <-(pieces_bytes seg), <-bind_app in Htr. rewrite (pieces_bytes seg) in Htr.
  pose proof (feed_transcript_fields (seg_bytes seg) false c0) as (F1 & F2 & F3).
  set (c1 := feed_transcript who (seg_bytes seg) false c0) in *. clearbody c1.
  injection F1 as E1 E2 E3 E4 E5 E5'. injection F2 as E6 E7. injection F3 as E8 E9 E10. cbn in E1, E2, E3, E4, E5, E5', E6, E7, E8, E9, E10.
  assert (pieces_ok (consumed ++ pieces seg)) as Hok by (apply Forall_app; split; [done|by apply seg_pieces_ok]).
  pose proof (size_of_pieces seg Hseg) as Hsize. pose proof (proj1 Hseg) as Hpos.
  unfold reserve. set (retained := N.min budget (N.of_nat (source_bytes seg))).
  destruct (N.eqb_spec retained 0) as [H0|H0].
  - intros [= <- <-]. split; [lia|]. rewrite E5', Ho. split; [|rewrite E9; lia].
    assert (budget = 0%N) as -> by lia.
    constructor; rewrite ?E1, ?E2, ?E3, ?E4, ?E5, ?E6, ?E7, ?E8, ?E9, ?E10; try done.
    + rewrite size_of_app. lia.
    + by rewrite retain_within.
    + rewrite retain_within; [done|lia].
  - assert (N.to_nat (captured_bytes c) = size_of consumed) as Hall.
    { destruct (decide (N.to_nat (captured_bytes c) < size_of consumed)); [|lia]. unfold retained in H0. rewrite run_budget0 in H0 by done. lia. }
    destruct write_error as [e|]; intros [= <- <-]; (split; [lia|]); [done|].
    match goal with |- context [consume_preview _ _ _ _ ?c2] => set (c2' := c2) end.
    assert (outcome (consume_preview policy who seg retained c2') = None) as Hout.
    { unfold consume_preview. destruct (_ =? 0)%N; [exact (eq_trans E5' Ho)|].
      match goal with |- context [feed_live who ?b false ?x] => pose proof (feed_live_fields b false x) as (F1 & _) end.
      apply (f_equal snd) in F1. cbn [snd] in F1. rewrite F1. exact (eq_trans E5' Ho). }
    rewrite Hout.
    assert (captured_bytes c2' = captured_bytes c + retained)%N as Hcap
      by (cbn; rewrite E9; unfold u64_saturating_add, retained; lia).
    assert (captured_bytes (consume_preview policy who seg retained c2') = captured_bytes c2') as Hsame.
    { unfold consume_preview. destruct (_ =? 0)%N; [done|].
      match goal with |- context [feed_live who ?b false ?x] => pose proof (feed_live_fields b false x) as (_ & _ & F3) end.
      apply (f_equal (snd ∘ fst)) in F3. exact F3. }
    split; [|rewrite Hsame, Hcap; unfold retained; lia].
    apply consume_preview_running; cbn [c2' keep_in_spool captured_bytes spool preview preview_source_bytes live
      pending_live_utf8 transcript pending_transcript_utf8 segments source_pending at_end original_bytes];
      rewrite ?E1, ?E2, ?E3, ?E4, ?E5, ?E6, ?E7, ?E8, ?E9, ?E10; try done.
    + unfold retained. lia.
    + change (u64_saturating_add (captured_bytes c) retained) with (N.min (captured_bytes c + retained) u64_max). lia.
    + replace (N.to_nat (u64_saturating_add (captured_bytes c) retained)) with (size_of consumed + N.to_nat retained)
        by (unfold u64_saturating_add, retained; lia).
      rewrite retain_beyond, run_spool0, Hall, retain_all, retained_pieces by done. done.
    + unfold u64_saturating_add. lia.
    + unfold u64_saturating_add, retained. lia.
    + unfold retained. lia.
Qed.

Lemma told_flush on calls pending bytes :
  observed on calls pending bytes →
  told on (if on then calls ++ (emit_complete_utf8_chunks (pending ++ []) true).1 else calls) bytes.
Proof.
  unfold observed, told. destruct on; [|by intros [-> _]]. intros [Hc ->]. rewrite concat_app, Hc, app_nil_r.
  destruct (emit_spec (decode bytes).2 true) as [-> _]. rewrite (decode_unfold (decode bytes).2), decode_leftover.
  apply app_nil_r.
Qed.

Lemma capture_finish_ok text budget c consumed e :
  running text budget c consumed → segments c = [] → at_end c = true →
  capture_ok text budget
    (set_outcome (match e with Some e => Err e | None =>
       Ok (captured_output (feed_transcript who [] true (feed_live who [] true c))) end)
       (feed_transcript who [] true (feed_live who [] true c))).
Proof.
  intros [] Hs He. unfold capture_ok. cbn [outcome set_outcome]. destruct e as [e|]; [done|].
  assert (redact rs text = consumed) as Hred.
  { specialize (run_stream0 [] ltac:(done)). rewrite Hs, run_end0 in run_stream0 by done. cbn in run_stream0.
    by rewrite !app_nil_r in run_stream0. }
  pose proof (redact_size rs text) as Hsize. rewrite Hred in Hsize.
  pose proof (feed_live_fields [] true c) as (F1 & F2 & F3).
  pose proof (told_flush _ _ _ _ run_live0) as Hlive.
  pose proof (told_flush _ _ _ _ run_transcript0) as Htr.
  assert (told (notifies who (preview_observer who)) (live (feed_live who [] true c)) (preview c)) as Hlive'.
  { unfold feed_live. destruct (notifies who (preview_observer who)); [|done]. by destruct (emit_complete_utf8_chunks _ _). }
  set (c1 := feed_live who [] true c) in *. clearbody c1.
  injection F1 as E1 E2 E3 E4 E5 E6. injection F2 as E7 E8. injection F3 as E9 E10 E11.
  pose proof (feed_transcript_fields [] true c1) as (G1 & G2 & G3).
  assert (told (notifies who (transcript_observer who)) (transcript (feed_transcript who [] true c1)) (consumed ≫= piece_bytes)) as Htr'.
  { revert Htr. unfold feed_transcript. rewrite E8. destruct (notifies who (transcript_observer who)); [|by rewrite E7].
    destruct (emit_complete_utf8_chunks (pending_transcript_utf8 c ++ []) true) as [texts p]. cbn [transcript fst].
    by rewrite E7. }
  set (c2 := feed_transcript who [] true c1) in *. clearbody c2.
  injection G1 as G1 G2' G3' G4 G5 G6. injection G2 as G7 G8. injection G3 as G9 G10 G11.
  constructor; cbn [captured_output out_original_bytes out_captured_bytes out_spool spool_file out_preview
    out_omitted_bytes out_preview_truncated transcript live set_outcome captured_bytes];
    rewrite ?G4, ?G5, ?G7, ?G9, ?G10, ?G11, ?E4, ?E5, ?E9, ?E10, ?E11, ?Hred; try done.
  - lia.
  - intros H. apply run_budget0. lia.
  - by rewrite run_spool0.
  - by rewrite run_preview0, run_counted0.
  - by rewrite run_counted0.
  - by rewrite <-run_counted0, <-run_preview0.
Qed.

Definition read_bytes (a : CaptureAction) : list N := match a with Read bytes => bytes | _ => [] end.

Lemma capture_step_ok text budget c a budget' c' :
  capture_ok text budget c → (captured_bytes c + budget <= u64_max)%N →
  capture_step policy rs who a budget c = Some (budget', c') →
  capture_ok (text ++ read_bytes a) budget' c' ∧ (budget' <= budget)%N ∧ failed c = false
  ∧ (captured_bytes c' + budget' <= captured_bytes c + budget)%N
  ∧ (failed c' = false → captured_bytes c' + budget' = captured_bytes c + budget)%N.
Proof.
  unfold capture_step. intros Hok Hmax. unfold capture_ok in Hok. destruct (outcome c) as [r|] eqn:Ho; [done|].
  destruct Hok as [consumed Hrun]. assert (failed c = false) as Hf by (unfold failed; by rewrite Ho).
  destruct a as [bytes| |e|we|fe], (segments c) as [|seg rest] eqn:Hs; try done; cbn [read_bytes]; rewrite ?app_nil_r.
  - destruct (at_end c) eqn:He; [done|]. cbn [orb]. destruct (_ || _); [done|].
    destruct (push rs (source_pending c) bytes false) as [out pending] eqn:Hp. intros [= <- <-].
    split_and!; [|lia|done|cbn; lia..]. unfold capture_ok. cbn [outcome set_segments count_read]. rewrite Ho.
    exists consumed. by eapply (set_segments_running _ _ _ _ _ _ _ false).
  - destruct (at_end c) eqn:He; [done|].
    destruct (push rs (source_pending c) [] true) as [out pending] eqn:Hp. intros [= <- <-].
    split_and!; [|lia|done|cbn; lia..]. unfold capture_ok. cbn [outcome set_segments set_at_end]. rewrite Ho.
    exists consumed. rewrite <-(app_nil_r text). by eapply (set_segments_running _ [] _ c _ _ _ true).
  - destruct (at_end c); [done|]. intros [= <- <-]. split_and!; [done|lia|done|cbn; lia..].
  - intros [= Hc]. destruct (consume_running _ _ _ _ _ _ we _ _ Ho Hrun Hs Hmax Hc) as [Hb H].
    unfold capture_ok, failed. destruct (outcome c') as [[o|e]|]; [done| |].
    + split_and!; [done|lia|done|lia|done].
    + destruct H as [H Heq]. split_and!; [by eexists|lia|done|lia|done].
  - destruct (at_end c) eqn:He; [|done]. intros [= <- <-]. split_and!; [by eapply capture_finish_ok|lia|done| |].
    all: pose proof (feed_live_fields [] true c) as (_ & _ & F3);
      pose proof (feed_transcript_fields [] true (feed_live who [] true c)) as (_ & _ & G3);
      injection F3 as _ F3 _; injection G3 as _ G3 _; cbn [captured_bytes set_outcome]; rewrite G3, F3; lia.
Qed.
End Invariant.

(** ** Both captures *)

(** What was read from a stream. *)
Definition received (s : AgentCommandOutputStream) (acts : list (AgentCommandOutputStream * CaptureAction)) : list N :=
  acts ≫= λ '(s', a), match s, s' with Stdout, Stdout | Stderr, Stderr => read_bytes a | _, _ => [] end.

Lemma received_snoc s acts x : received s (acts ++ [x]) = received s acts ++ received s [x].
Proof. apply bind_app. Qed.

Definition other (s : AgentCommandOutputStream) : AgentCommandOutputStream :=
  match s with Stdout => Stderr | Stderr => Stdout end.

Section Captures.
Variables (policy : ProcessOutputCapturePolicy) (rs : Redactions) (who : AgentCommandOutputStream → Consumers).

Record captures_ok (acts : list (AgentCommandOutputStream * CaptureAction)) (cs : Captures) : Prop := {
  both_ok s : capture_ok policy rs (who s) (received s acts) (remaining cs) (capture_of s cs);
  both_budget : (remaining cs + captured_bytes (stdout cs) + captured_bytes (stderr cs) <= max_capture_bytes policy)%N;
  both_exact : failed (stdout cs) = false → failed (stderr cs) = false →
    (remaining cs + captured_bytes (stdout cs) + captured_bytes (stderr cs) = max_capture_bytes policy)%N;
}.

Lemma captures_step_ok acts cs s a cs' :
  (max_capture_bytes policy <= u64_max)%N → captures_ok acts cs →
  captures_step policy rs who s a cs = Some cs' → captures_ok (acts ++ [(s, a)]) cs'.
Proof.
  intros Hmax [Hok Hb He] H. unfold captures_step in H.
  destruct (capture_step policy rs (who s) a (remaining cs) (capture_of s cs)) as [[budget c]|] eqn:E; [|done].
  injection H as <-.
  assert (captured_bytes (capture_of s cs) + remaining cs <= u64_max)%N as Hu by (destruct s; cbn; lia).
  destruct (capture_step_ok _ _ _ _ _ _ _ _ _ (Hok s) Hu E) as (H1 & H2 & H3 & H4 & H5).
  assert (capture_ok policy rs (who (other s)) (received (other s) (acts ++ [(s, a)])) budget (capture_of (other s) cs)) as H6.
  { rewrite received_snoc. eapply capture_ok_budget; [exact H2|]. destruct s; cbn; rewrite app_nil_r; apply Hok. }
  constructor.
  - intros s'. rewrite received_snoc in *. destruct s, s'; cbn in *; rewrite ?app_nil_r in *; try done.
  - destruct s; cbn in *; lia.
  - destruct s; cbn in *; intros F1 F2; specialize (H5 ltac:(done)); specialize (He ltac:(done) ltac:(done)); lia.
Qed.

Lemma captures_run_ok acts cs acts' cs' :
  (max_capture_bytes policy <= u64_max)%N → captures_ok acts cs →
  captures_run policy rs who acts' cs = Some cs' → captures_ok (acts ++ acts') cs'.
Proof.
  intros Hmax. revert acts cs. induction acts' as [|[s a] acts' IH]; intros acts cs Hok H; cbn [captures_run] in H.
  { injection H as <-. by rewrite app_nil_r. }
  destruct (captures_step policy rs who s a cs) as [cs1|] eqn:E; [|done].
  rewrite (cons_middle (s, a)), app_assoc. by eapply IH; [eapply captures_step_ok|].
Qed.

Lemma spawned_ok acts cs :
  (max_capture_bytes policy <= u64_max)%N →
  captures_run policy rs who acts (spawn_captures policy) = Some cs → captures_ok acts cs.
Proof.
  intros Hmax. apply (captures_run_ok []); [done|]. constructor.
  - intros s. destruct s; apply new_capture_ok.
  - cbn. lia.
  - cbn. lia.
Qed.
End Captures.

(** ** Properties of a capture *)

(** C9. What is kept of a stream of a process is a prefix of its redacted text, cut
    between bytes or behind a replacement: the spool has what becomes of the first
    [captured] bytes, the preview what becomes of the first of these, both observers
    were told the whole text of theirs, the rest is counted as omitted, and bytes are
    only omitted when the budget of both streams is spent. *)
Theorem captured_output_is_redacted_prefix policy replacements who acts cs s o :
  (max_capture_bytes policy <= u64_max)%N →
  captures_run policy (new_redaction_set replacements) who acts (spawn_captures policy) = Some cs →
  outcome (capture_of s cs) = Some (Ok o) →
  let text := received s acts in
  let redacted := redact (redaction_bytes replacements) text in
  let preview := retain (N.to_nat (N.min (out_captured_bytes o) (preview_bytes policy))) redacted in
  out_original_bytes o = N.min (N.of_nat (length text)) u64_max
  ∧ N.to_nat (out_captured_bytes o) ≤ length text
  ∧ (N.to_nat (out_captured_bytes o) < length text → remaining cs = 0%N)
  ∧ out_omitted_bytes o = (out_original_bytes o - out_captured_bytes o)%N
  ∧ spool_file (out_spool o) = Some (retain (N.to_nat (out_captured_bytes o)) redacted)
  ∧ out_preview o = utf8_boundary_safe_lossy_preview preview
  ∧ out_preview_truncated o = (N.min (out_captured_bytes o) (preview_bytes policy) <? out_original_bytes o)%N
  ∧ told (notifies (who s) (preview_observer (who s))) (live (capture_of s cs)) preview
  ∧ told (notifies (who s) (transcript_observer (who s))) (transcript (capture_of s cs)) (redacted ≫= piece_bytes).
Proof.
  intros Hmax H%spawned_ok Ho; [|done]. pose proof (both_ok _ _ _ _ _ H s) as Hs. unfold capture_ok in Hs.
  rewrite Ho in Hs. destruct Hs. rewrite redact_new_set in *. by split_and!.
Qed.

(** C12. Both streams of a process share one budget: they never keep more bytes
    together than it allows, and when both captures end without an error they keep
    all of it that there is to keep; the receipt says that something is missing
    exactly when the process wrote more. *)
Theorem streams_share_one_budget policy rs who acts cs out err :
  (max_capture_bytes policy <= u64_max)%N →
  (N.of_nat (length (received Stdout acts)) + N.of_nat (length (received Stderr acts)) <= u64_max)%N →
  captures_run policy rs who acts (spawn_captures policy) = Some cs →
  (captured_bytes (stdout cs) + captured_bytes (stderr cs) <= max_capture_bytes policy)%N
  ∧ (outcome (stdout cs) = Some (Ok out) → outcome (stderr cs) = Some (Ok err) →
     let written := (N.of_nat (length (received Stdout acts)) + N.of_nat (length (received Stderr acts)))%N in
     let m := from_streams out err in
     meta_captured_bytes m = N.min written (max_capture_bytes policy)
     ∧ meta_original_bytes m = written ∧ meta_omitted_bytes m = (written - meta_captured_bytes m)%N
     ∧ (meta_truncated_at_source m = true ↔ max_capture_bytes policy < written)%N).
Proof.
  intros Hmax Hu H%spawned_ok; [|done]. pose proof (both_budget _ _ _ _ _ H) as Hb. split; [lia|]. intros Ho He.
  pose proof (both_ok _ _ _ _ _ H Stdout) as H1. pose proof (both_ok _ _ _ _ _ H Stderr) as H2.
  pose proof (both_exact _ _ _ _ _ H) as Hx. unfold capture_ok, failed in *. cbn [capture_of] in *.
  rewrite Ho in H1, Hx. rewrite He in H2, Hx. specialize (Hx eq_refl eq_refl).
  destruct H1 as [O1 C1 B1 _ _ M1 _ _ _ S1], H2 as [O2 C2 B2 _ _ M2 _ _ _ S2]. rewrite S1, S2 in Hx.
  cbv zeta. unfold from_streams. cbn [meta_captured_bytes meta_original_bytes meta_omitted_bytes meta_truncated_at_source].
  rewrite O1, O2 in *. rewrite M1, M2. rewrite N.ltb_lt. unfold u64_saturating_add.
  set (n1 := length (received Stdout acts)) in *. set (n2 := length (received Stderr acts)) in *.
  clearbody n1 n2. clear H Ho He S1 S2 M1 M2 O1 O2.
  generalize dependent (out_captured_bytes out). generalize dependent (out_captured_bytes err).
  intros c2 C2 B2 c1 C1 B1 Hx. rewrite (N.min_l (N.of_nat n1)), (N.min_l (N.of_nat n2)) by lia.
  assert (c1 + c2 = N.min (N.of_nat n1 + N.of_nat n2) (max_capture_bytes policy))%N as Hc.
  { destruct (decide (N.to_nat c1 < n1)) as [Hn|Hn]; [specialize (B1 Hn); lia|].
    destruct (decide (N.to_nat c2 < n2)) as [Hn'|Hn']; [specialize (B2 Hn'); lia|]. lia. }
  assert (c1 <= N.of_nat n1 ∧ c2 <= N.of_nat n2)%N as [D1 D2] by lia.
  assert (c1 + c2 <= u64_max)%N as D by lia.
  assert (N.min (N.of_nat n1 - c1 + (N.of_nat n2 - c2)) u64_max = N.of_nat n1 + N.of_nat n2 - (c1 + c2))%N as -> by lia.
  rewrite (N.min_l (c1 + c2) u64_max), (N.min_l (N.of_nat n1 + N.of_nat n2) u64_max) by done.
  split_and!; [done..|]. lia.
Qed.

(** ** Runs *)

(** A command that prints a private path across two reads; the budget ends in it. *)
Definition private_set : list (rstr * rstr) := [(rs "/tmp/run", rs "."); (rs "/tmp/run/out", rs "out")].
Definition listening (s : AgentCommandOutputStream) : Consumers := mkConsumers (Some s) true true.
Definition small_policy : ProcessOutputCapturePolicy := mkPolicy 8 12.
Definition two_streams : list (AgentCommandOutputStream * CaptureAction) :=
  [(Stdout, Read (rs "see /tmp/r")); (Stderr, Read (rs "oops")); (Stdout, Read (rs "un/out."));
   (Stdout, Consume None); (Stdout, Consume None); (Stderr, ReadEnd); (Stderr, Consume None);
   (Stderr, Finish None); (Stdout, ReadEnd); (Stdout, Consume None); (Stdout, Finish None)].

Definition captures_end : option Captures :=
  Eval vm_compute in
    captures_run small_policy (new_redaction_set private_set) listening two_streams (spawn_captures small_policy).
Definition ended : Captures := Eval vm_compute in default (spawn_captures small_policy) captures_end.

Lemma ended_reached :
  captures_run small_policy (new_redaction_set private_set) listening two_streams (spawn_captures small_policy)
    = Some ended.
Proof. vm_compute. reflexivity. Qed.

Definition output_of (c : Capture) : CapturedProcessOutput :=
  match outcome c with Some (Ok o) => o | _ => captured_output c end.

Example ended_outputs :
  out_preview (output_of (stdout ended)) = rs "see out" ∧ out_captured_bytes (output_of (stdout ended)) = 12%N
  ∧ concat (transcript (stdout ended)) = rs "see out." ∧ out_captured_bytes (output_of (stderr ended)) = 0%N.
Proof. vm_compute. done. Qed.

Lemma captured_output_is_redacted_prefix_witness :
  spool_file (out_spool (output_of (stdout ended))) = Some (rs "see out").
Proof.
  destruct (captured_output_is_redacted_prefix small_policy private_set listening two_streams ended Stdout
              (output_of (stdout ended)) ltac:(vm_compute; discriminate) ended_reached eq_refl)
    as (_ & _ & _ & _ & H & _).
  rewrite H. vm_compute. reflexivity.
Defined.

Lemma streams_share_one_budget_witness :
  meta_captured_bytes (from_streams (output_of (stdout ended)) (output_of (stderr ended))) = 12%N.
Proof.
  destruct (streams_share_one_budget small_policy (new_redaction_set private_set) listening two_streams ended
              (output_of (stdout ended)) (output_of (stderr ended)) ltac:(vm_compute; discriminate)
              ltac:(vm_compute; discriminate) ended_reached) as [_ H].
  destruct (H eq_refl eq_refl) as [H' _]. rewrite H'. vm_compute. reflexivity.
Defined.

(** ** Redaction of a stream *)

(** The segments of a stream that comes in parts. *)
Fixpoint stream_from (rs : Redactions) (pending : list N) (parts : list (list N)) : list RedactedOutputSegment :=
  match parts with
  | [] => (push rs pending [] true).1
  | part :: parts => (push rs pending part false).1 ++ stream_from rs (push rs pending part false).2 parts
  end.
Definition stream (rs : Redactions) (parts : list (list N)) : list RedactedOutputSegment := stream_from rs [] parts.

Lemma stream_from_pieces rs pending parts : stream_from rs pending parts ≫= pieces = redact rs (pending ++ concat parts).
Proof.
  revert pending. induction parts as [|part parts IH]; intros pending; cbn [stream_from concat].
  - destruct (push_spec rs pending [] [] true ltac:(done)) as (H1 & H2 & _). rewrite (H2 eq_refl) in H1.
    cbn [app] in H1. by rewrite H1, app_nil_r.
  - destruct (push_spec rs pending part (concat parts) false ltac:(done)) as (H1 & _ & _).
    by rewrite bind_app, IH, H1.
Qed.

(** C11. Redaction does not depend on how the output of a process is cut into reads,
    nor on the order and the repetitions among the replacements: what the segments
    say together is the whole text in which, from the left, the longest private text
    at each place has become the first replacement given for it. *)
Theorem redaction_ignores_reads replacements parts :
  stream (new_redaction_set replacements) parts ≫= pieces
    = redact (redaction_bytes replacements) (concat parts)
  ∧ stream (new_redaction_set replacements) parts ≫= seg_bytes
    = redact (redaction_bytes replacements) (concat parts) ≫= piece_bytes.
Proof.
  assert (stream (new_redaction_set replacements) parts ≫= pieces
            = redact (redaction_bytes replacements) (concat parts)) as H
    by (unfold stream; by rewrite stream_from_pieces, <-redact_new_set).
  split; [done|]. by rewrite <-segments_bytes, H.
Qed.

Lemma redact_drop rs ps qs l : redact rs l = ps ++ qs → ∃ l', redact rs l' = qs.
Proof.
  revert l. induction ps as [|p ps IH]; intros l H; [by exists l|]. destruct l as [|b l]; [done|].
  rewrite redact_cons in H. destruct (longest rs (b :: l)) as [[n bytes]|]; injection H as _ H; by eapply IH.
Qed.

Lemma redact_literals rs w qs l :
  redact rs l = (Literal <$> w) ++ qs → ∃ t, l = w ++ t ∧ (w ≠ [] → longest rs l = None).
Proof.
  revert l. induction w as [|b w IH]; intros l H; [by exists l|]. destruct l as [|b' l]; [done|].
  rewrite redact_cons in H. destruct (longest rs (b' :: l)) as [[n bytes]|]; [done|]. injection H as -> H.
  destruct (IH _ H) as (t & -> & _). by exists t.
Qed.

Lemma redaction_known (replacements : list (rstr * rstr)) src repl :
  (src, repl) ∈ replacements → src ≠ [] → ∃ bytes, replacement_of (redaction_bytes replacements) (as_bytes src) = Some bytes.
Proof.
  intros Hin Hs. induction replacements as [|r replacements IH]; [by apply not_elem_of_nil in Hin|].
  unfold redaction_bytes. cbn [List.filter]. case_bool_decide as Hr; cbn [negb].
  - apply elem_of_cons in Hin as [<-|Hin]; [done|]. by apply IH.
  - cbn [fmap list_fmap replacement_of fst snd]. destruct (str_eqb (as_bytes r.1) (as_bytes src)) eqn:E; [by eexists|].
    apply elem_of_cons in Hin as [<-|Hin]; [|by apply IH]. cbn [fst] in E.
    assert (str_eqb (as_bytes src) (as_bytes src) = true) by by apply str_eqb_eq. congruence.
Qed.

Lemma as_bytes_nonempty s : s ≠ [] → as_bytes s ≠ [].
Proof.
  destruct s as [|c s]; [done|]. rewrite as_bytes_cons. intros _ [H _]%app_nil. by apply utf8_char_nonempty in H.
Qed.

(** C8. Private text is never copied: what is copied between two replacements does
    not contain a text that is to be replaced, however the output was cut. *)
Theorem private_text_is_replaced replacements parts src repl before copied after :
  (src, repl) ∈ replacements → src ≠ [] →
  stream (new_redaction_set replacements) parts ≫= pieces = before ++ (Literal <$> copied) ++ after →
  ¬ ∃ a b, copied = a ++ as_bytes src ++ b.
Proof.
  intros Hin Hs H (a & b & ->). destruct (redaction_ignores_reads replacements parts) as [E _]. rewrite E in H.
  destruct (redaction_known _ _ _ Hin Hs) as [bytes Hb].
  rewrite !fmap_app, <-app_assoc, app_assoc, <-fmap_app in H. apply redact_drop in H as [l H].
  apply redact_literals in H as (t & -> & Hn). pose proof (as_bytes_nonempty _ Hs) as Hne.
  assert (as_bytes src ++ b ≠ []) as Hne' by (by intros [? _]%app_nil). specialize (Hn Hne').
  rewrite longest_None in Hn. specialize (Hn (length (as_bytes src))). rewrite <-app_assoc, take_app_length, Hb in Hn.
  discriminate Hn. rewrite length_app. destruct (as_bytes src); [done|cbn; lia].
Qed.

Lemma private_text_is_replaced_witness :
  ¬ ∃ a b, rs "see " = a ++ as_bytes (rs "/tmp/run") ++ b.
Proof.
  refine (private_text_is_replaced private_set [rs "see /tmp/r"; rs "un/out."] (rs "/tmp/run") (rs ".")
            [] (rs "see ") [Replaced 12 (rs "out"); Literal 46%N] ltac:(left) ltac:(discriminate) _).
  vm_compute. reflexivity.
Defined.

(** ** The archive *)

Section Spool.
Context {printer : JsonPrinter} {laws : JsonPrinterLaws}.
Variable file_reads : list N → list (list N).

(** The text and the rest of what is still to be decoded. *)
Definition text_of (rs : Redactions) (utf8_pending source : list N) : rstr * list N :=
  decode (utf8_pending ++ (redact rs source ≫= piece_bytes)).

Lemma redact_none_bytes l : redact [] l ≫= piece_bytes = l.
Proof. rewrite redact_none. induction l as [|b l IH]; [done|]. cbn in *. by rewrite IH. Qed.

Lemma write_redacted_spec rs source utf8_pending eos t :
  (rs = [] → eos = false) → (eos = true → t = []) →
  ∃ text source' utf8_pending',
    write_redacted_json_string_bytes source utf8_pending rs eos = (write_json_string_contents text, source', utf8_pending')
    ∧ text_of rs utf8_pending (source ++ t)
      = (text ++ (text_of rs utf8_pending' (source' ++ t)).1, (text_of rs utf8_pending' (source' ++ t)).2)
    ∧ (eos = true → source' = [] ∧ decode utf8_pending' = ([], utf8_pending')).
Proof.
  intros He Ht. assert (∀ l, decode (decode l).2 = ([], (decode l).2)) as Hleft
    by (intros l; by rewrite (decode_unfold (decode l).2), decode_leftover).
  unfold write_redacted_json_string_bytes. destruct rs as [|r rs].
  - rewrite (He eq_refl), write_decoded_spec. rewrite app_nil_r. do 3 eexists. split_and!; [done| |done].
    unfold text_of. rewrite !redact_none_bytes, app_assoc. apply decode_app.
  - destruct (processed_spec (r :: rs) source t eos ltac:(done) Ht) as (H1 & H2 & _). unfold processed in *.
    rewrite redacted_loop_drain. destruct (drain_loop _ _ _ _ _) as [out c]. cbn [fst snd] in *.
    rewrite write_decoded_spec, app_nil_r. do 3 eexists. split_and!; [done| |].
    + unfold text_of. rewrite H1, bind_app, segments_bytes, app_assoc. apply decode_app.
    + intros E. by rewrite H2.
Qed.

Lemma spool_loop_spec rs reads source utf8_pending t :
  ∃ text source' utf8_pending',
    spool_loop reads source utf8_pending rs = (write_json_string_contents text, source', utf8_pending')
    ∧ text_of rs utf8_pending (source ++ concat reads ++ t)
      = (text ++ (text_of rs utf8_pending' (source' ++ t)).1, (text_of rs utf8_pending' (source' ++ t)).2).
Proof.
  revert source utf8_pending. induction reads as [|part reads IH]; intros source utf8_pending; cbn [spool_loop concat].
  { exists [], source, utf8_pending. split; [done|]. cbn [app]. by destruct (text_of _ _ _). }
  destruct (write_redacted_spec rs (source ++ part) utf8_pending false (concat reads ++ t) ltac:(done) ltac:(done))
    as (text & source' & up' & -> & H & _).
  destruct (IH source' up') as (text' & source'' & up'' & -> & H'). rewrite <-contents_app.
  do 3 eexists. split; [done|]. rewrite <-!app_assoc in *. rewrite H, H'. cbn [fst snd]. by rewrite app_assoc.
Qed.

(** However the file is read, its redacted bytes are written as one JSON string. *)
Lemma spool_string s file :
  concat (file_reads file) = file → spool_file s = Some file →
  write_json_string_from_spool file_reads s
  = Ok (quote_byte :: write_json_string_contents (from_utf8_lossy (redact (spool_redactions s) file ≫= piece_bytes))
          ++ [quote_byte]).
Proof.
  intros Hf Hs. unfold write_json_string_from_spool. rewrite Hs.
  destruct (spool_loop_spec (spool_redactions s) (file_reads file) [] [] []) as (text & source & up & -> & H).
  rewrite Hf, !app_nil_r in H. cbn [app] in H.
  assert (from_utf8_lossy (redact (spool_redactions s) file ≫= piece_bytes)
          = (text_of (spool_redactions s) [] file).1 ++ tail_mark (text_of (spool_redactions s) [] file).2) as ->
    by apply from_utf8_lossy_decode.
  rewrite H. cbn [fst snd]. destruct (spool_redactions s) as [|r rs].
  - unfold write_redacted_json_string_bytes. rewrite !write_decoded_spec. rewrite decode_nil. cbn [fst snd tail_mark app].
    unfold text_of. rewrite redact_none_bytes. 
    do 2 f_equal. by rewrite !contents_app, <-!app_assoc.
  - destruct (write_redacted_spec (r :: rs) source up true [] ltac:(done) ltac:(done)) as (text' & source' & up' & -> & H1 & H2).
    destruct (H2 eq_refl) as [-> Hup]. rewrite !app_nil_r in H1. rewrite H1. cbn [fst snd].
    rewrite write_decoded_spec. unfold text_of. change (redact (r :: rs) []) with (@nil Piece). cbn [mbind list_bind].
    rewrite app_nil_r, Hup. cbn [fst snd app]. rewrite app_nil_r. do 2 f_equal. by rewrite !contents_app, <-!app_assoc.
Qed.

(** The escapes of the code are those of the printer. *)
Lemma json_string_char_compact c : json_string_char c = compact_escape c.
Proof.
  unfold json_string_char, compact_escape. change hex_lower with hex_digit.
  destruct (N.leb_spec c 0x1f) as [Hc|Hc].
  - assert (c / 4096 = 0 ∧ (c / 256) mod 16 = 0 ∧ (c / 16) mod 16 = c / 16)%N as (-> & -> & ->).
    { pose proof (N.Div0.div_le_mono c 31 16 Hc) as H. change (31 / 16)%N with 1%N in H.
      rewrite !N.div_small, (N.mod_small (c / 16)) by lia. done. }
    rewrite (proj2 (N.ltb_lt c 32)) by lia.
    by repeat (match goal with |- context [(c =? ?n)%N] => destruct (N.eqb_spec c n) as [->|?] end; [vm_compute; reflexivity|]).
  - rewrite (proj2 (N.ltb_ge c 32)) by lia.
    repeat match goal with |- context [(c =? ?n)%N] => destruct (N.eqb_spec c n); [first [lia|reflexivity]|] end. done.
Qed.

Hypothesis escapes : ∀ c, escape_char c = compact_escape c.
Hypothesis reads_all : ∀ file, concat (file_reads file) = file.

Lemma contents_escape s : write_json_string_contents s = escape s.
Proof. unfold escape, write_json_string_contents. induction s as [|c s IH]; [done|]. cbn. by rewrite IH, json_string_char_compact, escapes. Qed.

(** What is written from a spool. *)
Definition exact_text (s : ProcessOutputSpool) : rstr :=
  from_utf8_lossy (redact (spool_redactions s) (default [] (spool_file s)) ≫= piece_bytes).

Lemma spool_to_vec s : is_present s = true → write_json_string_from_spool file_reads s = Ok (to_vec (String (exact_text s))).
Proof.
  unfold is_present. rewrite bool_decide_eq_true. intros [file Hf].
  rewrite (spool_string s file) by done. rewrite contents_escape, to_vec_String. unfold exact_text. by rewrite Hf.
Qed.

Definition present (s : ProcessOutputSpool) : option ProcessOutputSpool := if is_present s then Some s else None.

(** The field with the whole text of its stream. *)
Definition exact_field (out err : ProcessOutputSpool) (f : rstr * Value) : rstr * Value :=
  (fst f,
   if is_str (fst f) "stdout" && is_present out then String (exact_text out)
   else if is_str (fst f) "stderr" && is_present err then String (exact_text err)
   else snd f).

Lemma write_field_exact out err f :
  write_field file_reads (present out) (present err) f = Ok (field (exact_field out err f)).
Proof.
  unfold write_field, exact_field, present, field. rewrite to_vec_String. cbn [fst snd].
  assert (is_str (fst f) "stdout" = true → is_str (fst f) "stderr" = false) as Hne.
  { intros H1. destruct (is_str (fst f) "stderr") eqn:H2; [|done]. apply is_str_eq in H1, H2. rewrite H1 in H2. discriminate. }
  destruct (is_str (fst f) "stdout") eqn:E1; [rewrite (Hne eq_refl)|]; cbn [andb].
  - destruct (is_present out) eqn:Ho; cbn; [rewrite spool_to_vec by done; cbn|]; by rewrite <-app_assoc.
  - destruct (is_str (fst f) "stderr"); cbn [andb]; [|by rewrite <-app_assoc].
    destruct (is_present err) eqn:Ho; cbn; [rewrite spool_to_vec by done; cbn|]; by rewrite <-app_assoc.
Qed.

Lemma write_fields_exact out err index fields :
  write_fields file_reads (present out) (present err) index fields
  = Ok ((if (0 <? index) && negb (bool_decide (fields = [])) then rs "," else [])
          ++ commas (field <$> (exact_field out err <$> fields))).
Proof.
  revert index. induction fields as [|f fields IH]; intros index; cbn [write_fields fmap list_fmap commas].
  { by rewrite andb_false_r. }
  rewrite write_field_exact. cbn [mbind result_bind]. rewrite IH. cbn [mbind result_bind].
  change (0 <? S index) with true. rewrite (bool_decide_false (f :: fields = [])) by done.
  rewrite andb_true_r. do 2 f_equal. destruct fields as [|g fields]; [cbn; by rewrite app_nil_r|].
  by rewrite bool_decide_false.
Qed.

(** The result that the archive holds: every stream that has a spool is there in
    full, in place of a string. *)
Definition takes (spool : ProcessOutputSpool) (name : string) (fields : list (rstr * Value)) : bool :=
  negb (is_present spool) || is_some_and (map_get (rs name) fields) (λ v, bool_decide (is_Some (as_str v))).

Definition exact_result (r : AgentToolResult) (out err : ProcessOutputSpool) : option Value :=
  match result_value r with
  | Some (Object fields) =>
      if takes out "stdout" fields && takes err "stderr" fields then
        Some (Object ([(rs "callId", String (result_call_id r)); (rs "tool", String (result_tool r));
                       (rs "ok", Bool (TraceItems.ok r));
                       (rs "result", Object (exact_field out err <$> fields))]
                      ++ match TraceItems.error r with Some e => [(rs "error", String e)] | None => [] end))
      else None
  | _ => None
  end.

Lemma collect_exact out err :
  collect_spools (process_output_spool_substitutions out err) None None = Ok (present out, present err).
Proof.
  unfold process_output_spool_substitutions, present. cbn [List.filter snd].
  by destruct (is_present out), (is_present err).
Qed.

Lemma require_exact spool name fields :
  require_target (present spool) name fields = if takes spool name fields then Ok () else Err (missing_process_stream (rs name)).
Proof. unfold require_target, present, takes. by destruct (is_present spool). Qed.

Lemma quoted_ascii s : Forall printable_ascii (rs s) → quoted (rs s) = quote_byte :: rs s ++ [quote_byte].
Proof. intros H. unfold quoted. by rewrite escape_printable. Qed.

(** Members written by hand are those the printer would write. *)
Lemma member_fields fs :
  to_vec (Object fs) = rs "{" ++ commas (field <$> fs) ++ rs "}".
Proof. by rewrite to_vec_Object. Qed.
End Spool.

(** C10. The archive of a tool result is the JSON of that result with the whole text of
    each stream - redacted, and decoded once over all of it however the file is read -
    in place of the string that stood for it; without a spool there is no archive, and
    a result that has no string for a spool is refused. *)
Theorem archive_holds_whole_streams {printer : JsonPrinter} {laws : JsonPrinterLaws} file_reads r out err :
  (∀ c, escape_char c = compact_escape c) → (∀ file, concat (file_reads file) = file) →
  let archive := materialize_process_tool_result_archive file_reads r (process_output_spool_substitutions out err) in
  if is_present out || is_present err then
    match exact_result r out err with
    | Some exact => archive = Ok (Some (to_vec exact))
    | None => ∃ message, archive = Err (InvalidInput, message)
    end
  else archive = Ok None.
Proof.
  intros Hesc Hreads. cbv zeta. unfold materialize_process_tool_result_archive.
  destruct (is_present out || is_present err) eqn:Hp.
  2: { apply orb_false_iff in Hp as [H1 H2]. unfold process_output_spool_substitutions. cbn [List.filter snd].
       by rewrite H1, H2. }
  assert (∃ s subs, process_output_spool_substitutions out err = s :: subs) as (s & subs & Hsubs).
  { unfold process_output_spool_substitutions. cbn [List.filter snd].
    destruct (is_present out), (is_present err); try done; by do 2 eexists. }
  rewrite Hsubs, <-Hsubs. clear s subs Hsubs. unfold write_tool_result_with_process_spools. rewrite collect_exact.
  cbn [mbind result_bind]. unfold exact_result, write_root_result_with_process_spools.
  destruct (result_value r) as [[| | | | |fields]|]; cbn [as_object mbind result_bind]; try by eexists.
  - rewrite !require_exact. destruct (takes out "stdout" fields); cbn [andb mbind result_bind]; [|by eexists].
    destruct (takes err "stderr" fields); cbn [mbind result_bind]; [|by eexists].
    rewrite write_fields_exact by done. cbn [mbind result_bind Nat.ltb Nat.leb andb app].
    rewrite member_fields. do 2 f_equal.
    assert (∀ name v, Forall printable_ascii (rs name) →
              field (rs name, v) = quote_byte :: rs name ++ quote_byte :: rs ":" ++ to_vec v) as Hm.
    { intros name v H. unfold field. cbn [fst snd]. rewrite quoted_ascii by done. cbn. by rewrite <-app_assoc. }
    cbn [app fmap list_fmap].
    assert (Forall printable_ascii (rs "callId") ∧ Forall printable_ascii (rs "tool") ∧ Forall printable_ascii (rs "ok")
            ∧ Forall printable_ascii (rs "result") ∧ Forall printable_ascii (rs "error")) as (P1 & P2 & P3 & P4 & P5).
    { split_and!; repeat constructor; (lia || discriminate). }
    rewrite !Hm, member_fields by done.
    destruct (TraceItems.error r) as [e|]; cbn [fmap list_fmap commas]; rewrite ?Hm by done.
    all: change (rs ",") with [44%N]; repeat (rewrite <-app_assoc || cbn [app]); done.
  - destruct (present out) eqn:E1; [by eexists|]. destruct (present err) eqn:E2; [by eexists|].
    unfold present in *. by destruct (is_present out), (is_present err).
Qed.

(** A command that printed a private path: the archive of its result. *)
Definition printed_spool : ProcessOutputSpool :=
  with_redactions [(rs "/tmp/run", rs ".")] (mkSpool (Some (rs "in /tmp/run/x" ++ [0xff]%N)) []).
Definition cut_result : AgentToolResult :=
  mkResult (rs "call") (rs "run_command") true
    (Some (Object [(rs "exitCode", Number (rs "0")); (rs "stdout", String (rs "in"))])) None.
Definition three_reads (file : list N) : list (list N) := [take 5 file; take 4 (drop 5 file); drop 9 file].

Lemma three_reads_all file : concat (three_reads file) = file.
Proof.
  unfold three_reads. cbn [concat]. rewrite app_nil_r. rewrite <-(take_drop 5 file) at 4. f_equal.
  by rewrite <-(take_drop 4 (drop 5 file)) at 2; rewrite drop_drop.
Qed.

Example exact_text_of_printed_spool : exact_text printed_spool = rs "in ./x" ++ [replacement_char].
Proof. vm_compute. reflexivity. Qed.

Lemma archive_holds_whole_streams_witness :
  ∃ exact, exact_result cut_result printed_spool default_spool = Some exact
    ∧ materialize_process_tool_result_archive three_reads cut_result
        (process_output_spool_substitutions printed_spool default_spool) = Ok (Some (to_vec exact)).
Proof.
  pose proof (archive_holds_whole_streams three_reads cut_result printed_spool default_spool
                (λ c, eq_refl) three_reads_all) as H.
  eexists. split; [vm_compute; reflexivity|]. exact H.
Defined.

(** The preview and what the observer of the preview was told differ when the preview
    has a malformed byte and ends within a char. *)
Theorem preview_differs_from_live_text :
  ∃ bytes, utf8_boundary_safe_lossy_preview bytes ≠ concat (emit_complete_utf8_chunks bytes true).1.
Proof. exists [0xff; 0x61; 0xe4]%N. vm_compute. discriminate. Qed.
