(* ===== verification/CommandTranscriptFacts.v ===== *)
(** * Facts about the command output history

    After that: the properties of the command output history. *)

From stdpp Require Import sorting.
From S2P Require Import Prelude RustText CommandTranscript.

#[local] Arguments byte_len : simpl never.

(** ** Boundaries *)

Lemma split_bytes_app text i : fst (split_bytes text i) ++ snd (split_bytes text i) = text.
Proof.
  revert i. induction text as [|c text IH]; intros i; [done|]. simpl.
  destruct (len_utf8 c <=? i); [|done]. specialize (IH (i - len_utf8 c)).
  destruct (split_bytes text _). simpl in *. by rewrite IH.
Qed.

Lemma split_bytes_boundary text i :
  is_char_boundary text i = true → byte_len (fst (split_bytes text i)) = i.
Proof.
  revert i. induction text as [|c text IH]; intros [|i]; try done.
  - intros _. simpl. pose proof (len_utf8_bounds c).
    by rewrite (proj2 (Nat.leb_gt _ _)) by lia.
  - cbn [is_char_boundary split_bytes]. intros [Hc Hb]%andb_true_iff. rewrite Hc.
    specialize (IH _ Hb). destruct (split_bytes text _). simpl in *.
    rewrite byte_len_cons, IH. apply Nat.leb_le in Hc. lia.
Qed.

Lemma boundary_end text : is_char_boundary text (byte_len text) = true.
Proof.
  induction text as [|c text IH]; [done|]. rewrite byte_len_cons.
  pose proof (len_utf8_bounds c) as Hc.
  destruct (len_utf8 c + byte_len text) as [|n] eqn:E; [lia|]. cbn [is_char_boundary].
  rewrite <-E. rewrite (proj2 (Nat.leb_le _ _)) by lia.
  replace (len_utf8 c + byte_len text - len_utf8 c) with (byte_len text) by lia. done.
Qed.

Lemma back_to_boundary_spec text i :
  back_to_boundary text i ≤ i ∧ is_char_boundary text (back_to_boundary text i) = true
  ∧ ∀ j, j ≤ i → is_char_boundary text j = true → j ≤ back_to_boundary text i.
Proof.
  induction i as [|i (H1 & H2 & H3)]; [simpl; split_and!; [done|by destruct text|lia]|].
  cbn [back_to_boundary]. destruct (is_char_boundary text (S i)) eqn:E; [done|].
  split_and!; [lia|done|]. intros j Hj Hb. apply H3; [|done].
  destruct (decide (j = S i)) as [->|]; [congruence|lia].
Qed.

Lemma utf8_prefix_len_spec text limit :
  let n := utf8_prefix_len text limit in
  n ≤ limit ∧ n ≤ byte_len text ∧ is_char_boundary text n = true
  ∧ (4 ≤ limit → text ≠ [] → 0 < n).
Proof.
  cbv zeta. unfold utf8_prefix_len.
  pose proof (back_to_boundary_spec text (limit `min` byte_len text)) as (H1 & H2 & H3).
  split_and!; [lia|lia|done|]. intros Hl Hne. destruct text as [|c text]; [done|].
  pose proof (len_utf8_bounds c) as Hc. rewrite byte_len_cons in *.
  assert (is_char_boundary (c :: text) (len_utf8 c) = true) as Hb.
  { destruct (len_utf8 c) as [|n] eqn:E; [lia|]. cbn [is_char_boundary].
    rewrite E, Nat.leb_refl, Nat.sub_diag. by destruct text. }
  apply H3 in Hb; lia.
Qed.

Lemma on_to_boundary_spec text todo i :
  i + todo = byte_len text →
  i ≤ on_to_boundary text todo i ≤ byte_len text
  ∧ is_char_boundary text (on_to_boundary text todo i) = true.
Proof.
  revert i. induction todo as [|todo IH]; intros i H; simpl.
  - replace i with (byte_len text) by lia. split; [lia|apply boundary_end].
  - destruct (is_char_boundary text i) eqn:E; [split; [lia|done]|].
    destruct (IH (S i)) as [H1 H2]; [lia|]. split; [lia|done].
Qed.

(** What is kept of a text that is too long: a suffix that fits. *)
Lemma utf8_suffix_split text keep :
  let parts := split_bytes text (utf8_suffix_start text keep) in
  text = fst parts ++ snd parts ∧ byte_len (snd parts) ≤ keep
  ∧ (utf8_suffix_start text keep = 0 ↔ fst parts = [])
  ∧ (keep < byte_len text → fst parts ≠ []).
Proof.
  cbv zeta. unfold utf8_suffix_start. cbv zeta.
  destruct (on_to_boundary_spec text (byte_len text - (byte_len text - keep)) (byte_len text - keep))
    as [H1 H2]; [lia|].
  set (i := on_to_boundary _ _ _) in *. clearbody i.
  pose proof (split_bytes_app text i) as Ha. pose proof (split_bytes_boundary _ _ H2) as Hb.
  destruct (split_bytes text i) as [p q]. simpl in *. subst text.
  rewrite byte_len_app in *. split_and!; [done|lia| |].
  - rewrite <-byte_len_0. lia.
  - intros Hk E. subst p. change (byte_len []) with 0 in *. lia.
Qed.

(** ** The invariant *)

Definition texts (l : list CommandOutputChunk) : rstr := l ≫= text.
Definition bytes_of (l : list CommandOutputChunk) : nat := sum_list_with (λ c, byte_len (text c)) l.

Lemma texts_app l k : texts (l ++ k) = texts l ++ texts k.
Proof. apply bind_app. Qed.

Lemma texts_one c : texts [c] = text c.
Proof. unfold texts. csimpl. apply app_nil_r. Qed.

Lemma bytes_of_app l k : bytes_of (l ++ k) = bytes_of l + bytes_of k.
Proof. apply sum_list_with_app. Qed.

Lemma bytes_of_one c : bytes_of [c] = byte_len (text c).
Proof. unfold bytes_of. simpl. lia. Qed.

Lemma bytes_of_texts l : bytes_of l = byte_len (texts l).
Proof.
  induction l as [|c l IH]; [done|]. unfold texts, bytes_of in *. csimpl. rewrite byte_len_app, <-IH. done.
Qed.

(** Sequence numbers increase, until they stay at the largest. *)
Definition seq_lt (a b : N) : Prop := (a < b)%N ∨ a = u64_max ∧ b = u64_max.

Definition chunk_ok (c : CommandOutputChunk) : Prop :=
  text c ≠ [] ∧ byte_len (text c) ≤ MAX_TRANSCRIPT_CHUNK_BYTES.

(** Everything but the bounds on the tail; [all] is the text accepted so far. *)
Record core (st : CommandTranscript) (all : rstr) : Prop := {
  t_head_bytes : head_bytes st = bytes_of (head st);
  t_tail_bytes : tail_bytes st = bytes_of (tail st);
  t_head_limit : head_bytes st ≤ head_limit st;
  t_head_chunks : length (head st) ≤ MAX_TRANSCRIPT_HEAD_CHUNKS;
  t_chunks : Forall chunk_ok (head st ++ tail st);
  t_order : StronglySorted seq_lt (sequence <$> head st ++ tail st);
  t_latest : Forall (λ n, (n ≤ latest_sequence st)%N) (sequence <$> head st ++ tail st);
  t_saturates : (latest_sequence st ≤ u64_max)%N;
  t_sealed : head_sealed st = false → tail st = [] ∧ truncated st = false;
  t_content : ∃ dropped, all = texts (head st) ++ dropped ++ texts (tail st)
                ∧ (truncated st = true ↔ dropped ≠ []);
}.

Record bounded (st : CommandTranscript) : Prop := {
  t_tail_limit : tail_bytes st ≤ tail_limit st;
  t_tail_chunks : length (tail st) ≤ MAX_TRANSCRIPT_TAIL_CHUNKS;
}.

Definition inv (st : CommandTranscript) (all : rstr) : Prop := core st all ∧ bounded st.

(** ** Trimming *)

Lemma trim_loop_spec l b limit tr l' b' tr' :
  b = bytes_of l → trim_loop l b limit tr = (l', b', tr') →
  ∃ pre, l = pre ++ l' ∧ b' = bytes_of l' ∧ tr' = (tr || negb (bool_decide (pre = [])))
    ∧ (l' = [] ∨ (∃ c, l' = [c]) ∨ b' ≤ limit ∧ length l' ≤ MAX_TRANSCRIPT_TAIL_CHUNKS).
Proof.
  revert b tr. induction l as [|c l IH]; intros b tr -> H.
  { injection H as <- <- <-. exists []. rewrite orb_false_r. auto. }
  destruct l as [|d l].
  { injection H as <- <- <-. exists []. rewrite orb_false_r. eauto 7. }
  cbn [trim_loop] in H. destruct (_ || _) eqn:E.
  - apply IH in H as (pre & Hl & Hb & -> & Hc); [|simpl; lia].
    exists (c :: pre). split_and!; [by rewrite Hl|done| |done]. by rewrite orb_true_r.
  - injection H as <- <- <-. exists []. apply orb_false_iff in E as [E1 E2].
    apply Nat.ltb_ge in E1, E2. rewrite orb_false_r. split_and!; auto.
Qed.

Lemma sorted_suffix {A} (R : A → A → Prop) l m k :
  StronglySorted R (l ++ m ++ k) → StronglySorted R (l ++ k).
Proof.
  intros (H1 & H2 & H3)%StronglySorted_app. apply StronglySorted_app in H3 as (_ & _ & H3).
  apply StronglySorted_app. split_and!; [|done..]. intros x y Hx Hy. apply H1; [done|].
  apply elem_of_app. by right.
Qed.

Lemma forall_suffix {A} (P : A → Prop) l m k : Forall P (l ++ m ++ k) → Forall P (l ++ k).
Proof. rewrite !Forall_app. tauto. Qed.

Lemma texts_nonempty l : l ≠ [] → Forall chunk_ok l → texts l ≠ [].
Proof.
  destruct l as [|c l]; [done|]. intros _ [[Hc _] _]%Forall_cons. unfold texts. simpl.
  by destruct (text c).
Qed.

(** Dropping chunks from the front of the tail keeps everything but the flag. *)
Lemma core_drop st all pre l :
  core st all → head_sealed st = true → tail st = pre ++ l →
  core (set_tail l (bytes_of l) (truncated st || negb (bool_decide (pre = []))) st) all.
Proof.
  intros [] Hseal Ht. rewrite Ht in *. split; simpl; try done.
  - by eapply forall_suffix.
  - rewrite !fmap_app in *. by eapply sorted_suffix.
  - rewrite !fmap_app in *. by eapply forall_suffix.
  - congruence.
  - destruct t_content0 as (d & -> & Hd). exists (d ++ texts pre). rewrite texts_app.
    split; [by rewrite <-!app_assoc|]. rewrite orb_true_iff, negb_true_iff, bool_decide_eq_false, Hd.
    split.
    + intros [H|H] E; apply app_nil in E as [E1 E2]; [done|].
      apply (texts_nonempty pre H); [|done]. by apply Forall_app in t_chunks0 as [_ [? _]%Forall_app].
    + intros H. destruct d as [|x d]; [|by left]. right. intros ->. done.
Qed.

(** Keeping a suffix of the only chunk left. *)
Lemma core_shorten st all c p q :
  core st all → head_sealed st = true → tail st = [c] → text c = p ++ q → p ≠ [] →
  core (set_tail (if bool_decide (q = []) then [] else [mkChunk (sequence c) (stream c) q])
          (byte_len q) true st) all.
Proof.
  intros [] Hseal Ht Hc Hp. rewrite Ht in *.
  apply Forall_app in t_chunks0 as [Hh [[_ Hb] _]%Forall_cons].
  assert (texts [c] = p ++ q) as Htx by (by rewrite texts_one).
  destruct t_content0 as (d & -> & Hd). rewrite Htx in *. rewrite fmap_app in *.
  case_bool_decide as Hq.
  - subst q. split; simpl; rewrite ?app_nil_r in *; try done.
    + by apply StronglySorted_app in t_order0 as (_ & ? & _).
    + by apply Forall_app in t_latest0 as [? _].
    + congruence.
    + exists (d ++ p). split; [by rewrite app_nil_r|]. split; [|done].
      intros _ E. by apply app_nil in E as [_ E].
  - rewrite Hc, byte_len_app in Hb. split; simpl; rewrite ?fmap_app; try done.
    + apply Forall_app. split; [done|]. constructor; [|done]. split; [done|]. simpl. lia.
    + congruence.
    + exists (d ++ p). rewrite app_nil_r, <-!app_assoc.
      split; [done|]. split; [|done]. intros _ E. by apply app_nil in E as [_ E].
Qed.

Lemma trim_tail_inv st all :
  core st all → head_sealed st = true → inv (trim_tail st) all.
Proof.
  intros Hc Hs. unfold trim_tail.
  destruct (trim_loop (tail st) (tail_bytes st) (tail_limit st) (truncated st)) as [[l b] tr] eqn:E.
  apply trim_loop_spec in E as (pre & Hl & -> & -> & Hcase); [|apply Hc].
  pose proof (core_drop _ _ _ _ Hc Hs Hl) as Hd.
  destruct (bytes_of l <=? tail_limit st) eqn:Eb.
  { apply Nat.leb_le in Eb. split; [exact Hd|]. split; simpl; [done|].
    destruct Hcase as [->|[[c ->]|[_ ?]]]; [apply Nat.le_0_l| |done]. vm_compute. lia. }
  apply Nat.leb_gt in Eb. destruct l as [|c rest].
  { unfold bytes_of in Eb. simpl in Eb. lia. }
  assert (rest = []) as ->.
  { destruct Hcase as [?|[[d Hcd]|[? _]]]; [done|by injection Hcd|lia]. }
  pose proof (utf8_suffix_split (text c) (tail_limit st)) as (Ha & Hk & Hz & Hne).
  destruct (split_bytes (text c) _) as [p q]. simpl in Ha, Hk, Hz, Hne.
  assert (p ≠ []) as Hp.
  { apply Hne. unfold bytes_of in Eb. simpl in Eb. lia. }
  pose proof (core_shorten _ _ c p q Hd Hs eq_refl Ha Hp) as Hsh.
  assert ((0 <? utf8_suffix_start (text c) (tail_limit st)) = true) as Hstart.
  { apply Nat.ltb_lt. destruct (utf8_suffix_start _ _) as [|n]; [|lia]. by destruct Hp; apply Hz. }
  cbn [snd]. cbv zeta. rewrite Hstart, orb_true_r. cbn [app]. split; [exact Hsh|].
  split; simpl; [done|]. case_bool_decide; simpl; [apply Nat.le_0_l|]. vm_compute. lia.
Qed.

(** ** Committing *)

(** The chunks [new] carry the text [piece] and are numbered after everything
    that [st] had numbered, in order. *)
Record emits (st st' : CommandTranscript) (new : list CommandOutputChunk) (piece : rstr) : Prop := {
  e_text : texts new = piece;
  e_ok : Forall chunk_ok new;
  e_order : StronglySorted seq_lt (sequence <$> new);
  e_after : Forall (seq_lt (latest_sequence st)) (sequence <$> new);
  e_latest : Forall (λ n, (n ≤ latest_sequence st')%N) (sequence <$> new);
  e_mono : (latest_sequence st ≤ latest_sequence st')%N;
}.

Lemma emits_nil st st' : latest_sequence st' = latest_sequence st → emits st st' [] [].
Proof. intros H. split; try constructor. by rewrite H. Qed.

Lemma seq_lt_le a b c : (a ≤ b)%N → seq_lt b c → seq_lt a c.
Proof. unfold seq_lt. lia. Qed.

Lemma emits_app st1 st2 st3 n1 n2 p1 p2 :
  emits st1 st2 n1 p1 → emits st2 st3 n2 p2 → emits st1 st3 (n1 ++ n2) (p1 ++ p2).
Proof.
  intros [T1 K1 O1 A1 L1 M1] [T2 K2 O2 A2 L2 M2]. rewrite !Forall_forall in *.
  split; rewrite ?fmap_app, ?texts_app, ?Forall_forall; [by rewrite T1, T2| | | | |lia].
  - intros x [Hx|Hx]%elem_of_app; auto.
  - apply StronglySorted_app. split_and!; [|done..].
    intros x y Hx Hy. apply (seq_lt_le _ (latest_sequence st2)); auto.
  - intros x [Hx|Hx]%elem_of_app; [auto|]. apply (seq_lt_le _ (latest_sequence st2)); auto.
  - intros x [Hx|Hx]%elem_of_app; [|auto]. specialize (L1 x Hx). lia.
Qed.

Lemma u64_saturating_succ_lt n : (n ≤ u64_max)%N → seq_lt n (u64_saturating_succ n).
Proof. unfold seq_lt, u64_saturating_succ. lia. Qed.

Lemma u64_saturating_succ_le n :
  (n ≤ u64_max)%N → (n ≤ u64_saturating_succ n ≤ u64_max)%N.
Proof. unfold u64_saturating_succ. lia. Qed.

Lemma emits_one st st' stream piece :
  (latest_sequence st ≤ u64_max)%N → piece ≠ [] → byte_len piece ≤ MAX_TRANSCRIPT_CHUNK_BYTES →
  let n := u64_saturating_succ (latest_sequence st) in
  latest_sequence st' = n → emits st st' [mkChunk n stream piece] piece.
Proof.
  cbv zeta. intros Hm Hp Hb Hl. pose proof (u64_saturating_succ_le _ Hm).
  split; [apply texts_one|by apply Forall_singleton|by repeat constructor| | |lia].
  - by apply Forall_singleton, u64_saturating_succ_lt.
  - apply Forall_singleton. simpl. lia.
Qed.

Lemma core_order_snoc st all n :
  core st all → n = u64_saturating_succ (latest_sequence st) →
  StronglySorted seq_lt ((sequence <$> head st ++ tail st) ++ [n])
  ∧ Forall (λ m, (m ≤ n)%N) ((sequence <$> head st ++ tail st) ++ [n]).
Proof.
  intros [] ->. pose proof (u64_saturating_succ_le _ t_saturates0).
  pose proof (u64_saturating_succ_lt _ t_saturates0). rewrite Forall_forall in t_latest0. split.
  - apply StronglySorted_app. split_and!; [|done|repeat constructor].
    intros x y Hx Hy. apply list_elem_of_singleton in Hy as ->. by eapply seq_lt_le; [apply t_latest0|].
  - apply Forall_forall. intros x [Hx| ->%list_elem_of_singleton]%elem_of_app; [|lia].
    specialize (t_latest0 x Hx). lia.
Qed.

Definition with_latest (n : N) (st : CommandTranscript) : CommandTranscript :=
  mkTranscript (head st) (tail st) (head_bytes st) (head_sealed st) (tail_bytes st)
    (head_limit st) (tail_limit st) n (truncated st) (capture_truncated st) (closed st).

Lemma core_push_tail st all stream piece :
  core st all → head_sealed st = true → piece ≠ [] →
  byte_len piece ≤ MAX_TRANSCRIPT_CHUNK_BYTES →
  let n := u64_saturating_succ (latest_sequence st) in
  core (set_tail (tail st ++ [mkChunk n stream piece]) (tail_bytes st + byte_len piece)
          (truncated st) (with_latest n st)) (all ++ piece).
Proof.
  intros Hcore Hs Hp Hb. cbv zeta.
  destruct (core_order_snoc st all _ Hcore eq_refl) as [Ho Hl].
  destruct Hcore. split; simpl; rewrite ?app_assoc; try done.
  - rewrite bytes_of_app, bytes_of_one. simpl. lia.
  - apply Forall_app. split; [done|]. by apply Forall_singleton.
  - by rewrite fmap_app.
  - by rewrite fmap_app.
  - by apply u64_saturating_succ_le.
  - congruence.
  - destruct t_content0 as (d & -> & Hd). exists d. rewrite texts_app, texts_one.
    by rewrite <-!app_assoc.
Qed.

Lemma core_push_head st all stream piece :
  core st all → head_sealed st = false → piece ≠ [] →
  byte_len piece ≤ MAX_TRANSCRIPT_CHUNK_BYTES → byte_len piece ≤ head_limit st - head_bytes st →
  length (head st) < MAX_TRANSCRIPT_HEAD_CHUNKS →
  let n := u64_saturating_succ (latest_sequence st) in
  core (set_head (head st ++ [mkChunk n stream piece]) (head_bytes st + byte_len piece)
          (with_latest n st)) (all ++ piece).
Proof.
  intros Hcore Hs Hp Hb Hl Hn. cbv zeta.
  destruct (core_order_snoc st all _ Hcore eq_refl) as [Ho Hla].
  destruct Hcore. destruct (t_sealed0 Hs) as [Ht Htr]. rewrite Ht, app_nil_r in *.
  split; simpl; rewrite ?Ht, ?app_nil_r, ?fmap_app; try done.
  - rewrite bytes_of_app, bytes_of_one. simpl. lia.
  - lia.
  - rewrite length_app. simpl. lia.
  - apply Forall_app. split; [done|]. by apply Forall_singleton.
  - by apply u64_saturating_succ_le.
  - destruct t_content0 as (d & -> & Hd). exists []. rewrite texts_app, texts_one, Htr in *.
    assert (d = []) as -> by (destruct d; [done|]; discriminate (proj2 Hd ltac:(done))).
    unfold texts. simpl. rewrite !app_nil_r. split; [done|]. by split.
Qed.

Lemma core_seal st all : core st all → core (seal_head st) all.
Proof. intros []. by split. Qed.

Lemma trim_latest st : latest_sequence (trim_tail st) = latest_sequence st.
Proof.
  unfold trim_tail. destruct (trim_loop _ _ _ _) as [[l b] tr]. destruct (b <=? _); [done|].
  by destruct l.
Qed.

Lemma trim_sealed st : head_sealed (trim_tail st) = head_sealed st.
Proof.
  unfold trim_tail. destruct (trim_loop _ _ _ _) as [[l b] tr]. destruct (b <=? _); [done|].
  by destruct l.
Qed.

Lemma commit_to_tail_inv stream piece committed st all st' cs :
  inv st all → (piece = [] ∨ head_sealed st = true) →
  byte_len piece ≤ MAX_TRANSCRIPT_CHUNK_BYTES →
  commit_to_tail stream piece committed st = (st', cs) →
  inv st' (all ++ piece) ∧ ∃ new, cs = committed ++ new ∧ emits st st' new piece.
Proof.
  intros [Hc Hb] Hs Hl. unfold commit_to_tail. case_bool_decide as Hp.
  { subst piece. intros [= <- <-]. rewrite app_nil_r. split; [done|]. exists [].
    rewrite app_nil_r. split; [done|]. by apply emits_nil. }
  destruct Hs as [|Hs]; [done|]. intros [= <- <-].
  pose proof (core_push_tail st all stream piece Hc Hs Hp Hl) as Hpush.
  split; [by apply trim_tail_inv|]. eexists. split; [done|].
  apply emits_one; try done; [apply Hc|]. by rewrite trim_latest.
Qed.

Lemma with_bounded st st' :
  bounded st → tail st' = tail st → tail_bytes st' = tail_bytes st → tail_limit st' = tail_limit st →
  bounded st'.
Proof. intros [] H1 H2 H3. split; congruence. Qed.

Lemma seal_if_sealed (piece : rstr) st :
  piece = [] ∨ head_sealed (if bool_decide (piece = []) then st else seal_head st) = true.
Proof. case_bool_decide; auto. Qed.

Lemma seal_if_inv (b : bool) st all : inv st all → inv (if b then st else seal_head st) all.
Proof. destruct b; [done|]. intros [Hc Hb]. split; [by apply core_seal|by destruct Hb]. Qed.

Lemma commit_piece_inv stream piece committed st all st' cs :
  inv st all → byte_len piece ≤ MAX_TRANSCRIPT_CHUNK_BYTES →
  commit_piece stream piece committed st = (st', cs) →
  inv st' (all ++ piece) ∧ ∃ new, cs = committed ++ new ∧ emits st st' new piece.
Proof.
  intros Hinv Hl.
  assert (commit_to_tail stream piece committed
            (if bool_decide (piece = []) then st else seal_head st) = (st', cs) →
    inv st' (all ++ piece) ∧ ∃ new, cs = committed ++ new ∧ emits st st' new piece) as Hto.
  { intros H. apply (commit_to_tail_inv _ _ _ _ all) in H as [Hi (new & -> & [])].
    - split; [done|]. exists new. split; [done|].
      split; try done; by destruct (bool_decide (piece = [])).
    - by apply seal_if_inv.
    - apply seal_if_sealed.
    - done. }
  unfold commit_piece. destruct (negb (head_sealed st) && _ && _) eqn:E; [|exact Hto].
  cbv zeta. destruct (0 <? utf8_prefix_len piece (head_limit st - head_bytes st)) eqn:E0; [|exact Hto].
  apply andb_true_iff in E as [[E1%negb_true_iff E2]%andb_true_iff E3%Nat.ltb_lt].
  apply Nat.ltb_lt in E0.
  pose proof (utf8_prefix_len_spec piece (head_limit st - head_bytes st)) as (P1 & P2 & P3 & _).
  pose proof (split_bytes_app piece (utf8_prefix_len piece (head_limit st - head_bytes st))) as Ha.
  pose proof (split_bytes_boundary _ _ P3) as Hb.
  destruct (split_bytes piece _) as [p q]. simpl in Ha, Hb. subst piece.
  rewrite byte_len_app in Hl. intros H.
  assert (p ≠ []) as Hp by (intros ->; change (byte_len []) with 0 in Hb; lia).
  destruct Hinv as [Hc Hbd].
  pose proof (core_push_head st all stream p Hc E1 Hp ltac:(lia) ltac:(lia) E3) as Hpush.
  apply (commit_to_tail_inv _ _ _ _ (all ++ p)) in H as [Hi (new & -> & He)].
  - rewrite app_assoc. split; [done|]. eexists. rewrite <-app_assoc. split; [done|].
    eapply emits_app; [|exact He].
    apply emits_one; [apply Hc|done|lia|]. by destruct (bool_decide (q = [])).
  - apply seal_if_inv. split; [exact Hpush|]. by eapply with_bounded.
  - apply seal_if_sealed.
  - lia.
Qed.

Lemma commit_pieces_all fuel stream remaining committed st all :
  inv st all → length remaining ≤ fuel →
  ∃ st' new, commit_pieces fuel stream remaining committed st = (st', committed ++ new, [])
    ∧ inv st' (all ++ remaining) ∧ emits st st' new remaining.
Proof.
  revert remaining committed st all. induction fuel as [|fuel IH];
    intros remaining committed st all Hinv Hf; simpl.
  { destruct remaining; [|simpl in Hf; lia]. exists st, []. rewrite !app_nil_r.
    split_and!; [done|done|by apply emits_nil]. }
  case_bool_decide as Hr.
  { subst remaining. exists st, []. rewrite !app_nil_r. split_and!; [done|done|by apply emits_nil]. }
  pose proof (utf8_prefix_len_spec remaining MAX_TRANSCRIPT_CHUNK_BYTES) as (P1 & P2 & P3 & P4).
  assert (0 < utf8_prefix_len remaining MAX_TRANSCRIPT_CHUNK_BYTES) as Hpos.
  { apply P4; [vm_compute; lia|done]. }
  rewrite (proj2 (Nat.eqb_neq _ _)) by lia.
  pose proof (split_bytes_app remaining (utf8_prefix_len remaining MAX_TRANSCRIPT_CHUNK_BYTES)) as Ha.
  pose proof (split_bytes_boundary _ _ P3) as Hb.
  destruct (split_bytes remaining _) as [p q]. simpl in Ha, Hb. subst remaining.
  assert (0 < length p) as Hp.
  { destruct p; [|simpl; lia]. change (byte_len []) with 0 in Hb. lia. }
  destruct (commit_piece stream p committed st) as [st1 cs] eqn:E.
  apply (commit_piece_inv _ _ _ _ all) in E as [Hi (n1 & -> & He1)]; [|done|lia].
  rewrite length_app in Hf.
  destruct (IH q (committed ++ n1) st1 (all ++ p) Hi ltac:(lia)) as (st' & n2 & -> & Hi' & He2).
  exists st', (n1 ++ n2). rewrite <-!app_assoc in *. split_and!; [done|done|]. by eapply emits_app.
Qed.

(** What the transcript accepts. *)
Definition accepted (st : CommandTranscript) (text : rstr) : rstr := if closed st then [] else text.

Lemma commit_spec stream text st all :
  inv st all →
  inv (fst (commit stream text st)) (all ++ accepted st text)
  ∧ emits st (fst (commit stream text st)) (snd (commit stream text st)) (accepted st text).
Proof.
  intros Hinv. unfold commit, accepted. destruct (closed st); simpl.
  { rewrite app_nil_r. split; [done|by apply emits_nil]. }
  case_bool_decide as Ht; simpl.
  { subst text. rewrite app_nil_r. split; [done|by apply emits_nil]. }
  destruct (commit_pieces_all (length text) stream text [] st all Hinv ltac:(lia))
    as (st' & new & -> & Hi & He). done.
Qed.

Lemma new_inv max_bytes : inv (new max_bytes) [].
Proof.
  unfold new. split; split; simpl; try done; try lia; try constructor.
  exists []. split; [done|]. by split.
Qed.

(** ** Limits never change *)

Definition limits (st : CommandTranscript) : nat * nat := (head_limit st, tail_limit st).

Lemma trim_limits st : limits (trim_tail st) = limits st.
Proof.
  unfold trim_tail. destruct (trim_loop _ _ _ _) as [[l b] tr]. destruct (b <=? _); [done|].
  by destruct l.
Qed.

Lemma commit_to_tail_limits stream piece committed st :
  limits (fst (commit_to_tail stream piece committed st)) = limits st.
Proof. unfold commit_to_tail. case_bool_decide; [done|]. simpl. by rewrite trim_limits. Qed.

Lemma commit_piece_limits stream piece committed st :
  limits (fst (commit_piece stream piece committed st)) = limits st.
Proof.
  unfold commit_piece. cbv zeta.
  destruct (_ && _ && _); [destruct (0 <? _); [destruct (split_bytes _ _)|]|]; simpl;
    rewrite commit_to_tail_limits; by case_bool_decide.
Qed.

Lemma commit_pieces_limits fuel stream remaining committed st :
  limits (fst (fst (commit_pieces fuel stream remaining committed st))) = limits st.
Proof.
  revert remaining committed st. induction fuel as [|fuel IH]; intros remaining committed st; [done|].
  simpl. case_bool_decide; [done|]. destruct (split_bytes _ _) as [p q].
  pose proof (commit_piece_limits stream p committed st) as Hp.
  destruct (commit_piece _ _ _ _) as [st1 cs]. by rewrite IH.
Qed.

Lemma commit_limits stream text st : limits (fst (commit stream text st)) = limits st.
Proof. unfold commit. destruct (_ || _); [done|]. apply commit_pieces_limits. Qed.

(** ** Runs *)

Inductive operation :=
| Commit (stream : AgentCommandOutputStream) (text : rstr)
| MarkCaptureTruncated
| Close.

Definition apply_operation (st : CommandTranscript) (op : operation) : CommandTranscript :=
  match op with
  | Commit stream text => fst (commit stream text st)
  | MarkCaptureTruncated => mark_capture_truncated st
  | Close => close st
  end.

Definition run (ops : list operation) (st : CommandTranscript) : CommandTranscript :=
  foldl apply_operation st ops.

(** The output that arrived before the transcript was closed. *)
Fixpoint accepted_output (ops : list operation) : rstr :=
  match ops with
  | [] => []
  | Commit _ text :: ops => text ++ accepted_output ops
  | MarkCaptureTruncated :: ops => accepted_output ops
  | Close :: _ => []
  end.

Lemma closed_commit stream text st : closed st = true → commit stream text st = (st, []).
Proof. intros H. unfold commit. by rewrite H. Qed.

Lemma trim_closed st : closed (trim_tail st) = closed st.
Proof.
  unfold trim_tail. destruct (trim_loop _ _ _ _) as [[l b] tr]. destruct (b <=? _); [done|].
  by destruct l.
Qed.

Lemma commit_to_tail_closed stream piece committed st :
  closed (fst (commit_to_tail stream piece committed st)) = closed st.
Proof. unfold commit_to_tail. case_bool_decide; [done|]. simpl. by rewrite trim_closed. Qed.

Lemma commit_piece_closed stream piece committed st :
  closed (fst (commit_piece stream piece committed st)) = closed st.
Proof.
  unfold commit_piece. cbv zeta.
  destruct (_ && _ && _); [destruct (0 <? _); [destruct (split_bytes _ _)|]|]; simpl;
    rewrite commit_to_tail_closed; by case_bool_decide.
Qed.

Lemma commit_pieces_closed fuel stream remaining committed st :
  closed (fst (fst (commit_pieces fuel stream remaining committed st))) = closed st.
Proof.
  revert remaining committed st. induction fuel as [|fuel IH]; intros remaining committed st; [done|].
  simpl. case_bool_decide; [done|]. destruct (split_bytes _ _) as [p q].
  pose proof (commit_piece_closed stream p committed st) as Hp.
  destruct (commit_piece _ _ _ _) as [st1 cs]. by rewrite IH.
Qed.

Lemma commit_closed stream text st : closed (fst (commit stream text st)) = closed st.
Proof. unfold commit. destruct (_ || _); [done|]. apply commit_pieces_closed. Qed.

Lemma closed_run ops st all : closed st = true → inv st all → inv (run ops st) all.
Proof.
  revert st. induction ops as [|op ops IH]; intros st Hc Hi; [done|]. simpl.
  destruct op; simpl; apply IH; try done; rewrite ?closed_commit by done; try done;
    destruct Hi as [[] []]; by split; split.
Qed.

Lemma run_inv ops st all :
  closed st = false → inv st all → inv (run ops st) (all ++ accepted_output ops).
Proof.
  revert st all. induction ops as [|op ops IH]; intros st all Hc Hi; [by rewrite app_nil_r|].
  simpl. destruct op as [stream text| |]; simpl.
  - rewrite app_assoc. apply IH; [by rewrite commit_closed|].
    pose proof (proj1 (commit_spec stream text st all Hi)) as H. unfold accepted in H. by rewrite Hc in H.
  - apply IH; [done|]. destruct Hi as [[] []]. by split; split.
  - rewrite app_nil_r. apply closed_run; [done|]. destruct Hi as [[] []]. by split; split.
Qed.

Lemma run_limits ops st : limits (run ops st) = limits st.
Proof.
  revert st. induction ops as [|op ops IH]; intros st; [done|]. simpl. rewrite IH.
  destruct op; simpl; [apply commit_limits|done|done].
Qed.

Lemma new_capacity max_bytes :
  head_limit (new max_bytes) + tail_limit (new max_bytes) = max_bytes `max` 2.
Proof.
  unfold new. cbn [head_limit tail_limit].
  assert (max_bytes `max` 2 / 2 ≤ max_bytes `max` 2) by (apply Nat.Div0.div_le_upper_bound; lia).
  lia.
Qed.

Lemma run_capacity max_bytes ops :
  head_limit (run ops (new max_bytes)) + tail_limit (run ops (new max_bytes)) = max_bytes `max` 2.
Proof.
  rewrite <-new_capacity. pose proof (run_limits ops (new max_bytes)) as H. unfold limits in H.
  injection H as -> ->. reflexivity.
Qed.

(** ** Reading *)

Definition newer (after : N) (l : list CommandOutputChunk) : list CommandOutputChunk :=
  List.filter (λ c, (after <? sequence c)%N) l.

(** What [read_chunks] adds is a prefix of the newer chunks, cut where the next
    one would not fit; the first is always taken. *)
Lemma read_chunks_spec l after limit chunks :
  ∃ taken rest, newer after l = taken ++ rest
    ∧ read_chunks l after limit chunks (bytes_of chunks) = chunks ++ taken
    ∧ (bytes_of chunks ≤ limit ∨ length chunks ≤ 1 →
       bytes_of (chunks ++ taken) ≤ limit ∨ length (chunks ++ taken) ≤ 1)
    ∧ (rest ≠ [] → chunks ++ taken ≠ []).
Proof.
  revert chunks. induction l as [|c l IH]; intros chunks; simpl.
  { exists [], []. rewrite !app_nil_r. split_and!; try done. }
  rewrite N.leb_antisym. destruct (after <? sequence c)%N; simpl; [|apply IH].
  destruct (negb (bool_decide (chunks = [])) && _) eqn:E.
  - exists [], (c :: newer after l). rewrite app_nil_r. split_and!; [done..|auto|].
    apply andb_true_iff in E as [E%negb_true_iff%bool_decide_eq_false _]. done.
  - destruct (IH (chunks ++ [c])) as (taken & rest & Hn & Hr & Hb & Hne).
    rewrite bytes_of_app, bytes_of_one in Hr. rewrite <-app_assoc in *.
    exists (c :: taken), rest. split_and!; [by rewrite Hn|done| |done].
    intros Hc. apply Hb. rewrite bytes_of_app, bytes_of_one, length_app. simpl.
    apply andb_false_iff in E as [E%negb_false_iff%bool_decide_eq_true|E%Nat.ltb_ge].
    + right. subst. simpl. lia.
    + left. lia.
Qed.

Lemma newer_filter_app after l k : newer after (l ++ k) = newer after l ++ newer after k.
Proof. apply List.filter_app. Qed.

Lemma newer_all after l : Forall (λ n, (after < n)%N) (sequence <$> l) → newer after l = l.
Proof.
  unfold newer. induction l as [|c l IH]; simpl; [done|]. intros [Hc Hl]%Forall_cons.
  by rewrite (proj2 (N.ltb_lt _ _) Hc), IH.
Qed.

Lemma newer_none after l : Forall (λ n, (n ≤ after)%N) (sequence <$> l) → newer after l = [].
Proof.
  unfold newer. induction l as [|c l IH]; simpl; [done|]. intros [Hc Hl]%Forall_cons.
  by rewrite (proj2 (N.ltb_ge _ _) Hc), IH.
Qed.

Lemma newer_newer a b l : (a ≤ b)%N → newer b (newer a l) = newer b l.
Proof.
  intros Hab. unfold newer. induction l as [|c l IH]; simpl; [done|].
  destruct (a <? sequence c)%N eqn:Ea; simpl; [by rewrite IH|].
  apply N.ltb_ge in Ea. by rewrite IH, (proj2 (N.ltb_ge _ _)) by lia.
Qed.

Lemma newer_sorted after l :
  StronglySorted N.lt (sequence <$> l) → StronglySorted N.lt (sequence <$> newer after l).
Proof.
  unfold newer. induction l as [|c l IH]; simpl; [done|]. intros [Hf Hs]%StronglySorted_cons.
  destruct (after <? sequence c)%N; simpl; [|by apply IH]. apply StronglySorted_cons. split; [|by apply IH].
  rewrite Forall_fmap, Forall_forall in *. intros x Hx. apply Hf.
  apply list_elem_of_In, filter_In in Hx as [Hx _]. by apply list_elem_of_In.
Qed.

(** The next page starts where the last one ended. *)
Lemma newer_next after l taken c rest :
  StronglySorted N.lt (sequence <$> l) → newer after l = taken ++ c :: rest →
  newer (sequence c) l = rest ∧ (after < sequence c)%N.
Proof.
  intros Hs Hn. pose proof (newer_sorted after l Hs) as Hs'. rewrite Hn in Hs'.
  assert (after < sequence c)%N as Hc.
  { assert (c ∈ newer after l) as Hin by (rewrite Hn; apply elem_of_app; right; by left).
    unfold newer in Hin. apply list_elem_of_In, filter_In in Hin as [_ Hin]. by apply N.ltb_lt. }
  split; [|done]. rewrite <-(newer_newer after) by lia. rewrite Hn, newer_filter_app.
  rewrite fmap_app, fmap_cons in Hs'. apply StronglySorted_app in Hs' as (H1 & _ & H2).
  apply StronglySorted_cons in H2 as [H2 _].
  rewrite (newer_none (sequence c) taken).
  - unfold newer. simpl. rewrite N.ltb_irrefl. by apply newer_all.
  - apply Forall_forall. intros x Hx. apply N.lt_le_incl, H1; [done|by left].
Qed.

Lemma strictly_increasing st all :
  inv st all → (latest_sequence st < u64_max)%N →
  StronglySorted N.lt (sequence <$> head st ++ tail st).
Proof.
  intros [[] _] Hl. revert t_order0 t_latest0. generalize (sequence <$> head st ++ tail st).
  induction l as [|n l IH]; [intros; constructor|]. intros [Hf Hs]%StronglySorted_cons [Hn Hm]%Forall_cons.
  apply StronglySorted_cons. split; [|by apply IH]. rewrite Forall_forall in *.
  intros x Hx. destruct (Hf x Hx) as [?|[-> ->]]; lia.
Qed.

(** * The properties of the command output history *)

(** C25. Whatever is committed, the history stays within its bounds and is the
    head and the tail of the output: it holds at most [max_bytes] bytes (two at
    least) in at most 2048 non-empty chunks of at most 1024 bytes, numbered in
    increasing order across head and tail; the text before the close is the
    retained head, something dropped, and the retained tail; and the history
    says it is truncated exactly when something was dropped. *)
Theorem transcript_keeps_head_and_tail max_bytes ops :
  let st := run ops (new max_bytes) in
  byte_len (texts (head st)) + byte_len (texts (tail st)) ≤ max_bytes `max` 2
  ∧ length (head st ++ tail st) ≤ AGENT_COMMAND_SESSION_MAX_TRANSCRIPT_CHUNKS
  ∧ Forall chunk_ok (head st ++ tail st)
  ∧ StronglySorted seq_lt (sequence <$> head st ++ tail st)
  ∧ ∃ dropped, accepted_output ops = texts (head st) ++ dropped ++ texts (tail st)
      ∧ (truncated st = true ↔ dropped ≠ []).
Proof.
  cbv zeta. pose proof (run_inv ops (new max_bytes) [] eq_refl (new_inv max_bytes)) as [[] []].
  pose proof (run_capacity max_bytes ops) as Hcap.
  set (st := run ops (new max_bytes)) in *. clearbody st.
  split_and!; [|rewrite length_app|done..].
  - rewrite <-!bytes_of_texts, <-t_head_bytes0, <-t_tail_bytes0. lia.
  - change AGENT_COMMAND_SESSION_MAX_TRANSCRIPT_CHUNKS
      with (MAX_TRANSCRIPT_HEAD_CHUNKS + MAX_TRANSCRIPT_TAIL_CHUNKS). lia.
Qed.

(** Committing returns exactly what was accepted, cut into numbered chunks:
    their text is the text given (nothing once the history is closed), no chunk
    is empty or longer than 1024 bytes, and their numbers increase after every
    number given out before. *)
Theorem commit_returns_text max_bytes ops stream text :
  let st := run ops (new max_bytes) in
  let '(st', chunks) := commit stream text st in
  texts chunks = (if closed st then [] else text)
  ∧ Forall chunk_ok chunks
  ∧ StronglySorted seq_lt (sequence <$> chunks)
  ∧ Forall (λ n, seq_lt (latest_sequence st) n ∧ (n ≤ latest_sequence st')%N) (sequence <$> chunks)
  ∧ (closed st = true → st' = st).
Proof.
  cbv zeta. pose proof (run_inv ops (new max_bytes) [] eq_refl (new_inv max_bytes)) as Hinv.
  set (st := run ops (new max_bytes)) in *. clearbody st.
  pose proof (commit_spec stream text st _ Hinv) as [_ []].
  pose proof (closed_commit stream text st) as Hc.
  destruct (commit stream text st) as [st' cs]. simpl in *. split_and!; try done.
  - rewrite Forall_forall in *. intros n Hn. split; [by apply e_after0|by apply e_latest0].
  - intros H. by injection (Hc H).
Qed.

(** Polling: a page after [after], then the pages after its last chunk. *)
Fixpoint read_pages (fuel : nat) (after : N) (max_bytes : nat) (st : CommandTranscript)
    : list CommandOutputChunk :=
  match fuel with
  | O => []
  | S fuel =>
      let page := chunks (read_after after max_bytes st) in
      match last page with
      | None => []
      | Some chunk => page ++ read_pages fuel (sequence chunk) max_bytes st
      end
  end.

Lemma read_pages_all fuel after max_bytes st :
  StronglySorted N.lt (sequence <$> head st ++ tail st) →
  length (newer after (head st ++ tail st)) ≤ fuel →
  read_pages fuel after max_bytes st = newer after (head st ++ tail st).
Proof.
  intros Hs. revert after. induction fuel as [|fuel IH]; intros after Hf; cbn [read_pages].
  { by destruct (newer after _); simpl in *; [|lia]. }
  unfold read_after. cbn [chunks].
  destruct (read_chunks_spec (head st ++ tail st) after max_bytes []) as (taken & rest & Hn & Hr & _ & Hne).
  change (bytes_of []) with 0 in Hr. rewrite Hr. cbn [app] in *.
  destruct (last taken) as [c|] eqn:El.
  - apply last_Some in El as [pre ->]. rewrite <-app_assoc in Hn. cbn [app] in Hn.
    pose proof (newer_next _ _ _ _ _ Hs Hn) as [Hnext _].
    rewrite IH, Hnext, Hn; [by rewrite <-app_assoc|].
    rewrite Hn in Hf. rewrite Hnext. rewrite length_app in Hf. simpl in Hf. lia.
  - apply last_None in El as ->. cbn [app] in Hn. rewrite Hn. destruct rest; [done|].
    by destruct Hne.
Qed.

(** Polling loses nothing and repeats nothing: from any cursor, whatever the
    size of the page, following the pages delivers every retained chunk with a
    greater number, once, in order; a page is within the size asked for unless it
    is a single chunk. *)
Theorem polling_delivers_all max_bytes ops after limit :
  let st := run ops (new max_bytes) in
  (latest_sequence st < u64_max)%N →
  (∀ fuel, length (newer after (head st ++ tail st)) ≤ fuel →
     read_pages fuel after limit st = newer after (head st ++ tail st))
  ∧ (bytes_of (chunks (read_after after limit st)) ≤ limit
     ∨ length (chunks (read_after after limit st)) ≤ 1).
Proof.
  cbv zeta. intros Hl.
  pose proof (run_inv ops (new max_bytes) [] eq_refl (new_inv max_bytes)) as Hinv.
  pose proof (strictly_increasing _ _ Hinv Hl) as Hs. split.
  - intros fuel. by apply read_pages_all.
  - unfold read_after. cbn [chunks].
    destruct (read_chunks_spec (head (run ops (new max_bytes)) ++ tail (run ops (new max_bytes)))
      after limit []) as (taken & rest & _ & Hr & Hb & _).
    change (bytes_of []) with 0 in Hr. rewrite Hr. apply Hb. left. apply Nat.le_0_l.
Qed.

(** Four chunks, of which the last two are in the tail; pages of four bytes. *)
Lemma polling_delivers_all_witness :
  read_pages 5 1 4 (run [Commit Stdout (rs "ab"); Commit Stderr (rs "cde"); Commit Stdout (rs "fgh")] (new 8))
  = [mkChunk 2 Stderr (rs "cd"); mkChunk 3 Stderr (rs "e"); mkChunk 4 Stdout (rs "fgh")].
Proof.
  etransitivity.
  - apply (polling_delivers_all 8
      [Commit Stdout (rs "ab"); Commit Stderr (rs "cde"); Commit Stdout (rs "fgh")] 1 4).
    + vm_compute. reflexivity.
    + vm_compute. lia.
  - vm_compute. reflexivity.
Defined.
