(* ===== verification/ToolFailureGuard.v ===== *)
(** * Protection against repeated tool failures

    [ToolFailureGuard] of [runtime/tool_failure_guard.rs]; it is rebuilt from the
    [committed_prefix] of the trace.

    [Sha256] is a third-party function: [sha256_hex] is a parameter, the
    lower-case hexadecimal digest of a byte string. *)

From stdpp Require Import pretty.
From S2P Require Import Prelude RustText Json TraceItems TraceValidation.

(** ** Fingerprints *)

Definition MAX_EXECUTED_FAILURES : N := 2.
Definition MAX_LOCAL_BLOCKS_BEFORE_TERMINATION : N := 2.
Definition REPEATED_CALL_ERROR_CODE : rstr := rs "agent.repeated_tool_call_blocked".
Definition DUPLICATE_IN_BATCH_ERROR_CODE : rstr := rs "agent.duplicate_tool_call_in_batch".
Definition FINGERPRINT_PREFIX : rstr := rs "tool-call-sha256-v1:".

Definition canonical_office_operations : list (string * string) :=
  [("add_text", "addText"); ("insert_image", "insertImage"); ("addImage", "insertImage");
   ("add_image", "insertImage"); ("add_table", "addTable"); ("add_header", "addHeader");
   ("add_footer", "addFooter"); ("replace_text", "replaceText"); ("format_text", "formatText");
   ("remove_block", "removeBlock"); ("move_block", "moveBlock"); ("add_sheet", "addSheet");
   ("write_cell", "writeCell"); ("set_formula", "setFormula"); ("format_range", "formatRange");
   ("freeze_panes", "freezePanes"); ("add_conditional_format", "addConditionalFormat");
   ("add_chart", "addChart"); ("remove_sheet", "removeSheet"); ("move_sheet", "moveSheet");
   ("add_slide", "addSlide"); ("add_shape", "addShape"); ("remove_slide", "removeSlide");
   ("move_slide", "moveSlide")]%string.

Definition canonical_office_operation (operation : rstr) : rstr :=
  match List.find (λ alias, is_str operation (fst alias)) canonical_office_operations with
  | Some alias => rs (snd alias)
  | None => operation
  end.

Definition canonicalize_office_operation_alias (tool : rstr) (args : Value) : option Value :=
  if negb (one_of tool ["office_document"; "office_spreadsheet"; "office_presentation"]) then None
  else
    match args with
    | Object object =>
        operation ← map_get (rs "operation") object ≫= as_str;
        let canonical := canonical_office_operation operation in
        if str_eqb canonical operation then None
        else Some (Object (map_insert (rs "operation") (String canonical) object))
    | _ => None
    end.

(** [u64::try_from(n).unwrap_or(u64::MAX).to_be_bytes()] *)
Definition len_be_bytes (n : nat) : list N :=
  let n := N.min (N.of_nat n) u64_max in
  (λ i, (n / 2 ^ (8 * i)) mod 256)%N <$> [7; 6; 5; 4; 3; 2; 1; 0]%N.

(** The bytes fed to the hasher. *)
Definition hash_component (tag : string) (bytes : list N) : list N :=
  rs tag ++ len_be_bytes (length bytes) ++ bytes.
Arguments hash_component tag%_string_scope bytes.

Fixpoint hash_json_value (value : Value) (root : bool) : list N :=
  match value with
  | Null => rs "n"
  | Bool value => rs (if value then "b1" else "b0")%string
  | Number text => hash_component "d" (as_bytes text)
  | String value => hash_component "s" (as_bytes value)
  | Array values =>
      rs "a" ++ len_be_bytes (length values)
        ++ concat (map (λ value, hash_json_value value false) values)
  | Object fields =>
      rs "o"
        ++ len_be_bytes (length
             (List.filter (λ field, negb (root && is_str (fst field) "reason")) fields))
        ++ concat (map (λ field,
             if root && is_str (fst field) "reason" then []
             else hash_component "k" (as_bytes (fst field)) ++ hash_json_value (snd field) false)
             fields)
  end.

Definition fingerprint_input (tool : rstr) (args : Value) : list N :=
  let normalized_args := canonicalize_office_operation_alias tool args in
  hash_component "tool" (as_bytes tool) ++ rs "args"
    ++ hash_json_value (default args normalized_args) true.

Definition bypass_cross_response_failure_guard (tool : rstr) : bool := is_str tool "run_command".

Definition observation_error_code (observation : Value) : option rstr :=
  match value_get (rs "errorCode") observation ≫= as_str with
  | Some code => Some code
  | None => value_get (rs "code") observation ≫= as_str
  end.

(** ** The guard *)

Definition u32_saturating_succ (n : N) : N := N.min (n + 1) 4294967295.

Record FailureRecord := mkRecord {
  executed_failures : N;
  local_blocks : N;
}.

Definition default_record : FailureRecord := mkRecord 0 0.

Record ToolFailureGuardBlock := mkBlock {
  block_result : AgentToolResult;
  terminate_after_result : bool;
}.

(** [ToolFailureGuard { failures }]: the map from fingerprints to records. *)
Abbreviation ToolFailureGuard := (gmap rstr FailureRecord).

(** [entry(fingerprint).or_default()], updated. *)
Definition update_record (f : FailureRecord → FailureRecord) (fingerprint : rstr)
    (failures : ToolFailureGuard) : ToolFailureGuard :=
  <[fingerprint := f (default default_record (failures !! fingerprint))]> failures.

Definition count_failure (record : FailureRecord) : FailureRecord :=
  mkRecord (u32_saturating_succ (executed_failures record)) (local_blocks record).

Definition count_block (record : FailureRecord) : FailureRecord :=
  mkRecord (executed_failures record) (u32_saturating_succ (local_blocks record)).

(** [value.to_string()] of a count in [json!]. *)
Definition count_text (n : N) : rstr := rs (pretty n).

Definition code_is (code : option rstr) (expected : rstr) : bool :=
  match code with Some code => str_eqb code expected | None => false end.

Section Guard.
Variable sha256_hex : list N → rstr.

Definition semantic_tool_call_fingerprint (tool : rstr) (args : Value) : rstr :=
  FINGERPRINT_PREFIX ++ sha256_hex (fingerprint_input tool args).

Definition block_message (tool : rstr) (terminate : bool) : rstr :=
  if terminate then
    rs "Tool `" ++ tool ++ rs "` repeated the same failed semantic call after the runtime correction. The run is stopping to prevent a loop."
  else
    rs "Tool `" ++ tool ++ rs "` already failed twice with the same semantic arguments. This duplicate attempt was not executed. Change the arguments or use another capability.".

Definition before_call (call : AgentToolCall) (failures : ToolFailureGuard)
    : option ToolFailureGuardBlock * ToolFailureGuard :=
  if bypass_cross_response_failure_guard (call_tool call) then (None, failures)
  else
    let fingerprint := semantic_tool_call_fingerprint (call_tool call) (args call) in
    match failures !! fingerprint with
    | None => (None, failures)
    | Some record =>
        if (executed_failures record <? MAX_EXECUTED_FAILURES)%N then (None, failures)
        else
          let record := count_block record in
          let terminate := (MAX_LOCAL_BLOCKS_BEFORE_TERMINATION <=? local_blocks record)%N in
          let message := block_message (call_tool call) terminate in
          (Some (mkBlock
             (mkResult (id call) (call_tool call) false
                (Some (json_object
                   [(rs "type", String (rs "runtime_guard"));
                    (rs "code", String (rs "repeatedToolCallBlocked"));
                    (rs "errorCode", String REPEATED_CALL_ERROR_CODE);
                    (rs "recovery", String (rs "changeArgumentsOrUseDifferentCapability"));
                    (rs "tool", String (call_tool call));
                    (rs "semanticFingerprint", String fingerprint);
                    (rs "executedFailureCount", Number (count_text (executed_failures record)));
                    (rs "blockedAttemptCount", Number (count_text (local_blocks record)));
                    (rs "terminal", Bool terminate);
                    (rs "message", String message)]))
                (Some message))
             terminate),
           <[fingerprint := record]> failures)
    end.

Definition observe (call : AgentToolCall) (result : AgentToolResult)
    (failures : ToolFailureGuard) : ToolFailureGuard :=
  if bypass_cross_response_failure_guard (call_tool call) then failures
  else
    let fingerprint := semantic_tool_call_fingerprint (call_tool call) (args call) in
    if ok result then delete fingerprint failures
    else
      let error_code := result_value result ≫= observation_error_code in
      if code_is error_code REPEATED_CALL_ERROR_CODE
         || code_is error_code DUPLICATE_IN_BATCH_ERROR_CODE
      then failures
      else update_record count_failure fingerprint failures.

(** One item of the loop of [from_trace]: the pending call, and the map. *)
Definition trace_step (st : option (rstr * rstr * Value) * ToolFailureGuard)
    (item : ConversationTurnTraceItem) : option (rstr * rstr * Value) * ToolFailureGuard :=
  let '(pending, failures) := st in
  match item with
  | ToolCall _ call_id tool _ operation _ _ => (Some (call_id, tool, operation), failures)
  | ToolResult _ call_id tool status success observation _ _ _ _ =>
      match pending with
      | None => (None, failures)
      | Some (pending_id, pending_tool, operation) =>
          (None,
           if negb (str_eqb pending_id call_id) || negb (str_eqb pending_tool tool) then failures
           else if bypass_cross_response_failure_guard tool then failures
           else
             let fingerprint := semantic_tool_call_fingerprint tool operation in
             let error_code := observation_error_code observation in
             if success || bool_decide (status = Succeeded) then delete fingerprint failures
             else if code_is error_code REPEATED_CALL_ERROR_CODE
                  then update_record count_block fingerprint failures
             else if code_is error_code DUPLICATE_IN_BATCH_ERROR_CODE then failures
             else update_record count_failure fingerprint failures)
      end
  | _ => st
  end.

Definition from_trace (items : list ConversationTurnTraceItem) : ToolFailureGuard :=
  snd (foldl trace_step (None, ∅) (committed_prefix items)).
End Guard.
