(* ===== verification/ToolFailureGuardFacts.v ===== *)
(** * Facts about the tool failure guard

    The bytes a call is fingerprinted by determine the call; and the guard as a
    function of the history of attempts.

    After that: the properties of the tool failure guard. *)

From stdpp Require Import sorting pretty.
From Stdlib Require Import ZifyN.
From S2P Require Import Prelude RustText Json TraceItems TraceValidation TraceHistory.
From S2P Require Import ToolFailureGuard.

(** ** Lengths *)

Definition u64_length (n : nat) : Prop := (N.of_nat n ≤ u64_max)%N.

Lemma length_len_be_bytes n : length (len_be_bytes n) = 8.
Proof. reflexivity. Qed.

Section Bytes.
Local Ltac Zify.zify_post_hook ::= Z.to_euclidean_division_equations.

Lemma be_bytes_inj n m :
  (n ≤ u64_max)%N → (m ≤ u64_max)%N →
  (∀ i, i ∈ [7; 6; 5; 4; 3; 2; 1; 0]%N → (n / 2 ^ (8 * i)) mod 256 = (m / 2 ^ (8 * i)) mod 256)%N →
  n = m.
Proof.
  unfold u64_max. intros Hn Hm H. apply N.bits_inj. intros k.
  destruct (N.lt_ge_cases k 64) as [Hk|Hk].
  - assert (k / 8 ∈ [7; 6; 5; 4; 3; 2; 1; 0])%N as Hi.
    { assert (k / 8 < 8)%N by (apply N.Div0.div_lt_upper_bound; lia).
      rewrite !elem_of_cons. lia. }
    specialize (H _ Hi). apply (f_equal (λ x, N.testbit x (k mod 8))) in H.
    assert (k mod 8 < 8)%N by (apply N.mod_lt; lia).
    change 256%N with (2 ^ 8)%N in H. rewrite !N.mod_pow2_bits_low, !N.div_pow2_bits in H by done.
    replace (k mod 8 + 8 * (k / 8))%N with k in H by lia. done.
  - rewrite !N.bits_above_log2; [done|..].
    + destruct (decide (m = 0)%N) as [->|]; [simpl; lia|]. apply N.log2_lt_pow2; [lia|].
      apply (N.lt_le_trans _ (2 ^ 64)); [lia|]. apply N.pow_le_mono_r; lia.
    + destruct (decide (n = 0)%N) as [->|]; [simpl; lia|]. apply N.log2_lt_pow2; [lia|].
      apply (N.lt_le_trans _ (2 ^ 64)); [lia|]. apply N.pow_le_mono_r; lia.
Qed.
End Bytes.

Lemma len_be_bytes_inj n m :
  u64_length n → u64_length m → len_be_bytes n = len_be_bytes m → n = m.
Proof.
  unfold u64_length. intros Hn Hm H.
  apply Nat2N.inj, be_bytes_inj; [done..|]. intros i Hi. unfold len_be_bytes in H. cbv zeta in H.
  rewrite !N.min_l in H by done.

  apply list_elem_of_lookup in Hi as [j Hj].
  apply (f_equal (lookup j)) in H. rewrite !list_lookup_fmap, Hj in H. by injection H.
Qed.

(** ** The bytes of a value determine it *)

(** A text whose length in bytes fits a [u64]. *)
Definition text_fits (s : rstr) : Prop := valid_text s ∧ u64_length (length (as_bytes s)).

Fixpoint fits (v : Value) : Prop :=
  match v with
  | Null | Bool _ => True
  | Number t | String t => text_fits t
  | Array vs => u64_length (length vs) ∧ foldr (λ v P, fits v ∧ P) True vs
  | Object fs =>
      u64_length (length fs) ∧ foldr (λ f P, text_fits (fst f) ∧ fits (snd f) ∧ P) True fs
  end.

Lemma component_inj tag b c r s :
  u64_length (length b) → u64_length (length c) →
  hash_component tag b ++ r = hash_component tag c ++ s → b = c ∧ r = s.
Proof.
  unfold hash_component. rewrite <-!app_assoc. intros Hb Hc H.
  apply app_inj_1 in H as [_ H]; [|done]. apply app_inj_1 in H as [Hl H]; [|done].
  apply len_be_bytes_inj in Hl; [|done..]. by apply app_inj_1 in H.
Qed.

Lemma text_component_inj tag s t r q :
  text_fits s → text_fits t →
  hash_component tag (as_bytes s) ++ r = hash_component tag (as_bytes t) ++ q → s = t ∧ r = q.
Proof.
  intros [Hs Ls] [Ht Lt] H. apply component_inj in H as [H ->]; [|done..].
  split; [by apply as_bytes_inj|done].
Qed.

Definition hash_injective (v : Value) : Prop :=
  ∀ w r s, fits v → fits w →
    hash_json_value v false ++ r = hash_json_value w false ++ s → v = w ∧ r = s.

Lemma hash_list_inj vs ws r s :
  Forall hash_injective vs → length vs = length ws →
  foldr (λ v P, fits v ∧ P) True vs → foldr (λ v P, fits v ∧ P) True ws →
  concat (map (λ v, hash_json_value v false) vs) ++ r
  = concat (map (λ v, hash_json_value v false) ws) ++ s → vs = ws ∧ r = s.
Proof.
  intros Hvs. revert ws. induction Hvs as [|v vs Hv Hvs IH]; intros [|w ws] Hl; try done.
  cbn [foldr map concat]. intros [Fv Fvs] [Fw Fws]. rewrite <-!app_assoc. intros H.
  apply Hv in H as [-> H]; [|done..]. apply IH in H as [-> ->]; [done|by injection Hl|done..].
Qed.

Lemma hash_fields_inj (fs gs : list (rstr * Value)) r s :
  Forall (λ f, hash_injective (snd f)) fs → length fs = length gs →
  foldr (λ f P, text_fits (fst f) ∧ fits (snd f) ∧ P) True fs →
  foldr (λ f P, text_fits (fst f) ∧ fits (snd f) ∧ P) True gs →
  concat (map (λ f, hash_component "k" (as_bytes (fst f)) ++ hash_json_value (snd f) false) fs) ++ r
  = concat (map (λ f, hash_component "k" (as_bytes (fst f)) ++ hash_json_value (snd f) false) gs) ++ s →
  fs = gs ∧ r = s.
Proof.
  intros Hfs. revert gs. induction Hfs as [|[k v] fs Hv Hfs IH]; intros [|[l w] gs] Hl; try done.
  cbn [foldr map concat fst snd]. intros (Fk & Fv & Fvs) (Fl & Fw & Fws).
  cbn [snd] in Hv. rewrite <-!app_assoc. intros H.
  apply text_component_inj in H as [-> H]; [|done..]. apply Hv in H as [-> H]; [|done..]. apply IH in H as [-> ->]; [done|by injection Hl|done..].
Qed.

Lemma filter_all_fields (fs : list (rstr * Value)) :
  List.filter (λ f, negb (false && is_str (fst f) "reason")) fs = fs.
Proof. induction fs as [|f fs IH]; [done|]. simpl. by f_equal. Qed.

Lemma hash_json_value_inj v : hash_injective v.
Proof.
  induction v as [|b|t|t|vs IH|fs IH] using value_nested_ind; intros w r s Fv Fw;
    destruct w as [|b'|t'|t'|ws|gs]; cbn [hash_json_value]; rewrite ?filter_all_fields;
    try (intros H; exfalso; repeat (destruct b || destruct b'); discriminate).
  - by intros [= ->].
  - destruct b, b'; intros H; try discriminate; by injection H as ->.
  - intros H. apply text_component_inj in H as [-> ->]; done.
  - intros H. apply text_component_inj in H as [-> ->]; done.
  - destruct Fv as [Lv Fv], Fw as [Lw Fw]. rewrite <-!app_assoc. intros H.
    apply app_inj_1 in H as [_ H]; [|done]. apply app_inj_1 in H as [Hl H]; [|done].
    apply len_be_bytes_inj in Hl; [|done..]. apply hash_list_inj in H as [-> ->]; done.
  - destruct Fv as [Lv Fv], Fw as [Lw Fw]. rewrite <-!app_assoc. intros H.
    apply app_inj_1 in H as [_ H]; [|done]. apply app_inj_1 in H as [Hl H]; [|done].
    apply len_be_bytes_inj in Hl; [|done..]. apply hash_fields_inj in H as [-> ->]; done.
Qed.

(** *** The root *)

(** What identifies a call: its arguments without the presentation-only reason. *)
Definition strip_reason (v : Value) : Value :=
  match v with
  | Object fs => Object (List.filter (λ f, negb (is_str (fst f) "reason")) fs)
  | _ => v
  end.

Lemma hash_root v : hash_json_value v true = hash_json_value (strip_reason v) false.
Proof.
  destruct v as [| | | | |fs]; try done. cbn [hash_json_value strip_reason].
  rewrite filter_all_fields. do 2 f_equal. cbn [andb].
  induction fs as [|f fs IH]; [done|]. cbn [map concat List.filter].
  destruct (is_str (fst f) "reason"); cbn [negb map concat app]; [done|]. by rewrite IH.
Qed.

Lemma filter_fields_fit fs (q : rstr * Value → bool) :
  foldr (λ f P, text_fits (fst f) ∧ fits (snd f) ∧ P) True fs →
  foldr (λ f P, text_fits (fst f) ∧ fits (snd f) ∧ P) True (List.filter q fs).
Proof. induction fs as [|f fs IH]; simpl; [done|]. destruct (q f); simpl; naive_solver. Qed.

Lemma strip_reason_fits v : fits v → fits (strip_reason v).
Proof.
  destruct v as [| | | | |fs]; try done. cbn [strip_reason fits]. intros [Hl Hf].
  split; [|by apply filter_fields_fit]. unfold u64_length in *.
  pose proof (filter_length_le (λ f, negb (is_str (fst f) "reason")) fs). lia.
Qed.

(** *** Calls *)

Definition normalized_args (tool : rstr) (args : Value) : Value :=
  default args (canonicalize_office_operation_alias tool args).

Lemma fingerprint_input_iff t1 a1 t2 a2 :
  text_fits t1 → text_fits t2 → fits (normalized_args t1 a1) → fits (normalized_args t2 a2) →
  fingerprint_input t1 a1 = fingerprint_input t2 a2 ↔
  t1 = t2 ∧ strip_reason (normalized_args t1 a1) = strip_reason (normalized_args t2 a2).
Proof.
  intros H1 H2 F1 F2. unfold fingerprint_input. cbv zeta. fold (normalized_args t1 a1).
  fold (normalized_args t2 a2). rewrite !hash_root. split.
  - intros H. apply text_component_inj in H as [-> H]; [|done..].
    apply app_inj_1 in H as [_ H]; [|done]. split; [done|].
    rewrite <-(app_nil_r (hash_json_value (strip_reason (normalized_args t2 a1)) false)),
      <-(app_nil_r (hash_json_value (strip_reason (normalized_args t2 a2)) false)) in H.
    apply hash_json_value_inj in H as [H _]; [done|by apply strip_reason_fits..].
  - intros [-> ->]. reflexivity.
Qed.

(** ** Histories *)

(** What became of an attempt: executed with a result, or settled by the guard. *)
Inductive event :=
| Executed (call : AgentToolCall) (result : AgentToolResult)
| Blocked (call : AgentToolCall) (result : AgentToolResult) (terminate : bool).

Definition is_blocked (ev : event) : bool :=
  match ev with Blocked _ _ _ => true | Executed _ _ => false end.

(** A result of a real execution: the codes of local settlements are the runtime's own. *)
Definition genuine (result : AgentToolResult) : Prop :=
  ok result = false →
  code_is (result_value result ≫= observation_error_code) REPEATED_CALL_ERROR_CODE = false
  ∧ code_is (result_value result ≫= observation_error_code) DUPLICATE_IN_BATCH_ERROR_CODE = false.

Section Live.
Variable sha256_hex : list N → rstr.
Let fingerprint (call : AgentToolCall) : rstr :=
  semantic_tool_call_fingerprint sha256_hex (call_tool call) (args call).

(** One attempt: the guard is asked, then told the result, as the driver does;
    [result] is what the tool would return. *)
Definition attempt (call : AgentToolCall) (result : AgentToolResult) (g : ToolFailureGuard)
    : event * ToolFailureGuard :=
  match before_call sha256_hex call g with
  | (Some block, g) =>
      (Blocked call (block_result block) (terminate_after_result block),
       observe sha256_hex call (block_result block) g)
  | (None, g) => (Executed call result, observe sha256_hex call result g)
  end.

Fixpoint live (attempts : list (AgentToolCall * AgentToolResult)) (g : ToolFailureGuard)
    : list event * ToolFailureGuard :=
  match attempts with
  | [] => ([], g)
  | (call, result) :: attempts =>
      let '(ev, g) := attempt call result g in
      let '(evs, g) := live attempts g in (ev :: evs, g)
  end.

Definition concerns (f : rstr) (call : AgentToolCall) : bool :=
  negb (bypass_cross_response_failure_guard (call_tool call)) && str_eqb (fingerprint call) f.

(** Executed failures and blocks of one semantic call since its last success. *)
Definition tally_step (f : rstr) (counts : N * N) (ev : event) : N * N :=
  match ev with
  | Executed call result =>
      if concerns f call
      then if ok result then (0, 0)%N else (fst counts + 1, snd counts)%N
      else counts
  | Blocked call _ _ => if concerns f call then (fst counts, snd counts + 1)%N else counts
  end.

Definition tally (f : rstr) (evs : list event) : N * N := foldl (tally_step f) (0, 0)%N evs.

Definition counts_of (g : ToolFailureGuard) (f : rstr) : FailureRecord :=
  default default_record (g !! f).

(** The guard's record of a call agrees with its history. *)
Definition agrees (g : ToolFailureGuard) (f : rstr) (counts : N * N) : Prop :=
  executed_failures (counts_of g f) = fst counts
  ∧ local_blocks (counts_of g f) = N.min (snd counts) 4294967295
  ∧ (fst counts ≤ 2)%N ∧ (g !! f = None → counts = (0, 0)%N).

Lemma block_error_code call g block g' :
  before_call sha256_hex call g = (Some block, g') →
  ok (block_result block) = false
  ∧ code_is (result_value (block_result block) ≫= observation_error_code)
      REPEATED_CALL_ERROR_CODE = true
  ∧ observe sha256_hex call (block_result block) g' = g'.
Proof.
  unfold before_call. destruct (bypass_cross_response_failure_guard _) eqn:Eb; [done|]. cbv zeta.
  destruct (g !! _) as [record|]; [|done].
  destruct (executed_failures record <? MAX_EXECUTED_FAILURES)%N; [done|].
  intros H. injection H as <- <-. split_and!; [done|reflexivity|].
  unfold observe. rewrite Eb. reflexivity.
Qed.

Lemma before_call_spec call g :
  match before_call sha256_hex call g with
  | (None, g') =>
      g' = g ∧ (bypass_cross_response_failure_guard (call_tool call) = true
                ∨ (executed_failures (counts_of g (fingerprint call)) < 2)%N)
  | (Some block, g') =>
      bypass_cross_response_failure_guard (call_tool call) = false
      ∧ (2 ≤ executed_failures (counts_of g (fingerprint call)))%N
      ∧ is_Some (g !! fingerprint call)
      ∧ g' = update_record count_block (fingerprint call) g
      ∧ terminate_after_result block
        = (2 <=? u32_saturating_succ (local_blocks (counts_of g (fingerprint call))))%N
  end.
Proof.
  unfold before_call, counts_of. fold (fingerprint call).
  destruct (bypass_cross_response_failure_guard _) eqn:Eb; [auto|]. cbv zeta.
  destruct (g !! fingerprint call) as [record|] eqn:Eg; [|split; [done|right; simpl; lia]].
  cbn [default]. destruct (N.ltb_spec (executed_failures record) MAX_EXECUTED_FAILURES) as [Hl|Hl].
  - auto.
  - split_and!; [done|done|eauto| |reflexivity].
    unfold update_record. by rewrite Eg.
Qed.

Lemma counts_update f k h g :
  counts_of (update_record h k g) f = (if str_eqb k f then h (counts_of g f) else counts_of g f).
Proof.
  unfold counts_of, update_record. destruct (str_eqb k f) eqn:E.
  - apply str_eqb_eq in E as ->. by rewrite lookup_insert_eq.
  - rewrite lookup_insert_ne; [done|]. intros ->. by rewrite (proj2 (str_eqb_eq f f)) in E.
Qed.

Lemma lookup_update_None f k h g :
  update_record h k g !! f = None → str_eqb k f = false ∧ g !! f = None.
Proof.
  unfold update_record. destruct (str_eqb k f) eqn:E.
  - apply str_eqb_eq in E as ->. by rewrite lookup_insert_eq.
  - rewrite lookup_insert_ne; [done|]. intros ->. by rewrite (proj2 (str_eqb_eq f f)) in E.
Qed.

Lemma observe_spec call result g :
  genuine result →
  observe sha256_hex call result g =
  if bypass_cross_response_failure_guard (call_tool call) then g
  else if ok result then delete (fingerprint call) g
  else update_record count_failure (fingerprint call) g.
Proof.
  intros Hg. unfold observe. destruct (bypass_cross_response_failure_guard _); [done|]. cbv zeta.
  destruct (ok result) eqn:E; [done|]. destruct (Hg E) as [-> ->]. done.
Qed.

Lemma agrees_same g g' f counts :
  g' !! f = g !! f → agrees g f counts → agrees g' f counts.
Proof. unfold agrees, counts_of. by intros ->. Qed.

Lemma attempt_agrees call result g ev g' f counts :
  genuine result → attempt call result g = (ev, g') →
  agrees g f counts → agrees g' f (tally_step f counts ev).
Proof.
  intros Hg Ha Hc. unfold attempt in Ha. pose proof (before_call_spec call g) as Hb.
  destruct (before_call sha256_hex call g) as [[block|] g1] eqn:Eb.
  - pose proof (block_error_code _ _ _ _ Eb) as (_ & _ & Ho). rewrite Ho in Ha.
    injection Ha as <- <-. destruct Hb as (Hby & Hl & Hs & -> & _). cbn [tally_step].
    unfold concerns. rewrite Hby. cbn [negb andb].
    destruct Hc as (He & Hbl & Hle & Hn).
    destruct (str_eqb (fingerprint call) f) eqn:E; unfold agrees; rewrite counts_update, E.
    + simpl. unfold u32_saturating_succ. split_and!; [done|lia|done|].
      intros H. apply lookup_update_None in H as [H _]. congruence.
    + split_and!; try done. intros H. apply lookup_update_None in H as [_ H]. auto.
  - destruct Hb as [-> Hb]. injection Ha as <- <-. rewrite observe_spec by done. cbn [tally_step].
    unfold concerns. destruct (bypass_cross_response_failure_guard (call_tool call)); [done|].
    cbn [negb andb]. destruct Hb as [?|Hb]; [done|].
    destruct (str_eqb (fingerprint call) f) eqn:E.
    + apply str_eqb_eq in E as <-. destruct (ok result).
      * unfold agrees, counts_of. by rewrite lookup_delete_eq.
      * destruct Hc as (He & Hbl & Hle & Hn). unfold agrees.
        rewrite counts_update, (proj2 (str_eqb_eq _ _)) by done. simpl.
        unfold u32_saturating_succ. split_and!; [lia|done|lia|].
        intros H. apply lookup_update_None in H as [H _].
        by rewrite (proj2 (str_eqb_eq _ _)) in H.
    + assert (fingerprint call ≠ f) as Hne.
      { intros Hf. by rewrite (proj2 (str_eqb_eq _ _) Hf) in E. }
      apply (agrees_same g); [|done]. destruct (ok result); [by apply lookup_delete_ne|].
      unfold update_record. by apply lookup_insert_ne.
Qed.

Lemma live_agrees attempts g evs g' f counts :
  Forall (λ a, genuine (snd a)) attempts → live attempts g = (evs, g') →
  agrees g f counts → agrees g' f (foldl (tally_step f) counts evs).
Proof.
  intros Hg. revert g evs counts. induction Hg as [|[call result] attempts Hg _ IH];
    intros g evs counts H Hc; simpl in H; [by injection H as <- <-|].
  destruct (attempt call result g) as [ev g1] eqn:Ea.
  destruct (live attempts g1) as [evs1 g2] eqn:El. injection H as <- <-. simpl.
  eapply IH; [done|]. by eapply attempt_agrees.
Qed.

Lemma agrees_empty f : agrees ∅ f (0, 0)%N.
Proof. unfold agrees, counts_of. rewrite lookup_empty. simpl. split_and!; done || lia. Qed.

(** ** Rebuilding the guard from the trace *)

(** What the trace records of an attempt: its call and its result, with other
    items between and after them; the fields the guard does not read are free. *)
Definition quiet (items : list ConversationTurnTraceItem) : Prop :=
  Forall (λ x, is_exchange x = false) items.

Definition event_call (ev : event) : AgentToolCall :=
  match ev with Executed call _ | Blocked call _ _ => call end.
Definition event_result (ev : event) : AgentToolResult :=
  match ev with Executed _ result | Blocked _ result _ => result end.

Inductive recorded : list event → list ConversationTurnTraceItem → Prop :=
| recorded_nil items : quiet items → recorded [] items
| recorded_event ev evs before between after s1 s2 provenance a1 a2 t1 t2 error archive :
    quiet before → quiet between → recorded evs after →
    recorded (ev :: evs)
      (before
       ++ ToolCall s1 (id (event_call ev)) (call_tool (event_call ev)) provenance
            (args (event_call ev)) a1 t1
       :: between
       ++ ToolResult s2 (id (event_call ev)) (call_tool (event_call ev))
            (if ok (event_result ev) then Succeeded else Failed) (ok (event_result ev))
            (default Null (result_value (event_result ev))) a2 error t2 archive
       :: after).

(** A call that was interrupted before its result was recorded. *)
Definition interrupted (items : list ConversationTurnTraceItem) : Prop :=
  items = [] ∨ ∃ x call rest, items = x :: rest ∧ call_identity x = Some call ∧ quiet rest.

Lemma observation_default (v : option Value) :
  observation_error_code (default Null v) = v ≫= observation_error_code.
Proof. by destruct v. Qed.

Lemma str_eqb_refl s : str_eqb s s = true.
Proof. by apply str_eqb_eq. Qed.

Lemma quiet_step items st : quiet items → foldl (trace_step sha256_hex) st items = st.
Proof. intros Hq. induction Hq as [|x items Hx _ IH]; [done|]. cbn. by destruct x, st. Qed.

(** The call and the result of an attempt bring the guard where the attempt brought it. *)
Lemma attempt_trace call result g ev g' s1 s2 provenance a1 a2 t1 t2 error archive :
  genuine result → attempt call result g = (ev, g') →
  foldl (trace_step sha256_hex) (None, g)
    [ToolCall s1 (id (event_call ev)) (call_tool (event_call ev)) provenance (args (event_call ev)) a1 t1;
     ToolResult s2 (id (event_call ev)) (call_tool (event_call ev))
       (if ok (event_result ev) then Succeeded else Failed) (ok (event_result ev))
       (default Null (result_value (event_result ev))) a2 error t2 archive] = (None, g').
Proof.
  intros Hg Ha. unfold attempt in Ha. pose proof (before_call_spec call g) as Hb.
  destruct (before_call sha256_hex call g) as [[block|] g1] eqn:Eb.
  - pose proof (block_error_code _ _ _ _ Eb) as (Hok & Hcode & Ho). rewrite Ho in Ha.
    injection Ha as <- <-. destruct Hb as (Hby & _ & _ & -> & _).
    cbn [event_call event_result foldl trace_step]. rewrite Hok.
    rewrite !str_eqb_refl, Hby, observation_default, Hcode. reflexivity.
  - destruct Hb as [-> _]. injection Ha as <- <-. rewrite observe_spec by done.
    cbn [event_call event_result foldl trace_step].
    rewrite !str_eqb_refl, observation_default. cbn [negb orb]. cbv zeta.
    destruct (bypass_cross_response_failure_guard _); [done|].
    destruct (ok result) eqn:E; [done|]. cbn [orb].
    rewrite bool_decide_eq_false_2 by done. destruct (Hg E) as [-> ->]. done.
Qed.

Lemma live_trace attempts g items :
  Forall (λ a, genuine (snd a)) attempts → recorded (fst (live attempts g)) items →
  foldl (trace_step sha256_hex) (None, g) items = (None, snd (live attempts g)).
Proof.
  intros Hg. revert g items. induction Hg as [|[call result] attempts Hg _ IH]; intros g items.
  - cbn. intros Hr. inversion Hr; subst. by apply quiet_step.
  - cbn [live]. destruct (attempt call result g) as [ev g1] eqn:Ea.
    specialize (IH g1). destruct (live attempts g1) as [evs g2] eqn:El. cbn [fst snd] in *.
    intros Hr. inversion Hr as [|ev' evs' before between after s1 s2 prov a1 a2 t1 t2 err arch Hb Hm Hafter E1 E2].
    subst. pose proof (attempt_trace _ _ _ _ _ s1 s2 prov a1 a2 t1 t2 err arch Hg Ea) as Ht.
    rewrite foldl_app, (quiet_step before) by done. cbn [foldl] in Ht |- *.
    rewrite foldl_app, (quiet_step between) by done. cbn [foldl]. rewrite Ht. by apply IH.
Qed.

(** Every recorded call has its result, so only an interrupted call is cut from the trace. *)
Lemma recorded_resolved evs items : recorded evs items → resolved items.
Proof.
  induction 1 as [items Hq|ev evs before between after s1 s2 prov a1 a2 t1 t2 err arch Hb Hm _ IH];
    [by apply resolved_quiet|].
  apply resolved_app_quiet; [done|]. apply resolved_cons_intro.
  - intros id tool u [= <- <- <-]. eexists. split; [apply elem_of_app; right; by left|].
    by apply str_eqb_eq.
  - apply resolved_app_quiet; [done|]. by apply resolved_cons_intro.
Qed.

Lemma recorded_committed evs items tail :
  recorded evs items → interrupted tail → committed_prefix (items ++ tail) = items.
Proof.
  intros Hr%recorded_resolved [->|(x & call & rest & -> & Hx & Hq)]; unfold committed_prefix.
  - by rewrite app_nil_r, resolved_unresolved.
  - by rewrite (unresolved_at items x rest call Hx Hq), take_app_length.
Qed.
End Live.

(** * The properties of the tool failure guard *)

(** *** Examples for the witnesses: the length stands for the digest. *)

Definition digest (bytes : list N) : rstr := [N.of_nat (length bytes)].

Definition example_call : AgentToolCall :=
  mkCall (rs "c1") (rs "read_file") (Object [(rs "path", String (rs "a.txt")); (rs "reason", String (rs "first"))])
    ApprovalNotRequired None.
Definition example_failure : AgentToolResult :=
  mkResult (rs "c1") (rs "read_file") false (Some (json_object [(rs "code", String (rs "not_found"))])) None.
Definition two_failures : list (AgentToolCall * AgentToolResult) :=
  [(example_call, example_failure); (example_call, example_failure)].

Lemma two_failures_genuine : Forall (λ a, genuine (snd a)) two_failures.
Proof. repeat constructor. Qed.

(** C26. The guard executes a failing call at most twice: after any run, a call is
    settled locally exactly when it has failed twice since it last succeeded
    (whatever else was called in between), it never gets beyond two such
    failures, and the block asks to terminate exactly from the second block on;
    [run_command] is never blocked. *)
Theorem guard_blocks_after_two_failures sha256_hex attempts call result :
  Forall (λ a, genuine (snd a)) attempts →
  let '(evs, g) := live sha256_hex attempts ∅ in
  let f := semantic_tool_call_fingerprint sha256_hex (call_tool call) (args call) in
  let '(failures, blocks) := tally sha256_hex f evs in
  (failures ≤ 2)%N
  ∧ match attempt sha256_hex call result g with
    | (Executed _ _, _) =>
        bypass_cross_response_failure_guard (call_tool call) = true ∨ (failures < 2)%N
    | (Blocked _ _ terminate, _) =>
        bypass_cross_response_failure_guard (call_tool call) = false ∧ failures = 2%N
        ∧ (terminate = true ↔ (1 ≤ blocks)%N)
    end.
Proof.
  intros Hg. destruct (live sha256_hex attempts ∅) as [evs g] eqn:El. cbv zeta.
  set (f := semantic_tool_call_fingerprint sha256_hex (call_tool call) (args call)).
  pose proof (live_agrees sha256_hex attempts ∅ evs g f (0, 0)%N Hg El (agrees_empty f))
    as (He & Hb & Hle & _).
  fold (tally sha256_hex f evs) in He, Hb, Hle.
  destruct (tally sha256_hex f evs) as [failures blocks]. cbn [fst snd] in *. split; [done|].
  pose proof (before_call_spec sha256_hex call g) as H. cbv beta zeta in H. subst f. unfold attempt.
  destruct (before_call sha256_hex call g) as [[block|] g'].
  - destruct H as (Hby & H2 & _ & _ & ->). split_and!; [done|lia|].
    rewrite Hb, N.leb_le. unfold u32_saturating_succ. lia.
  - destruct H as [_ [H|H]]; [by left|right; lia].
Qed.

Lemma guard_blocks_after_two_failures_witness :
  tally digest (semantic_tool_call_fingerprint digest (call_tool example_call) (args example_call))
    (fst (live digest two_failures ∅)) = (2, 0)%N
  ∧ is_blocked (fst (attempt digest example_call example_failure (snd (live digest two_failures ∅))))
    = true.
Proof.
  pose proof (guard_blocks_after_two_failures digest two_failures example_call example_failure
    two_failures_genuine) as H.
  vm_compute in H |- *. destruct H as [_ (_ & _ & _)]. split; reflexivity.
Defined.

(** C38. Restoring from the trace loses nothing: when the trace records every
    attempt with its arguments and its result, whatever other items it has and
    whether or not a last call was interrupted, rebuilding the guard from it
    gives the guard of the live run, blocks included. *)
Theorem from_trace_restores_guard sha256_hex attempts items tail :
  Forall (λ a, genuine (snd a)) attempts →
  recorded (fst (live sha256_hex attempts ∅)) items →
  interrupted tail →
  from_trace sha256_hex (items ++ tail) = snd (live sha256_hex attempts ∅).
Proof.
  intros Hg Hr Ht. unfold from_trace. rewrite (recorded_committed _ _ _ Hr Ht).
  by rewrite (live_trace sha256_hex attempts ∅ items Hg Hr).
Qed.

(** A failed call, a note of the runtime, and a call that was interrupted. *)
Definition example_trace : list ConversationTurnTraceItem :=
  [RuntimeError 0 (rs "retrying") true None false;
   ToolCall 1 (id example_call) (call_tool example_call) (BuiltinTool (call_tool example_call))
     (args example_call) ApprovalNotRequired false;
   ToolResult 2 (id example_call) (call_tool example_call) Failed false
     (default Null (result_value example_failure)) ApprovalNotRequired None false default_archive].

Lemma from_trace_restores_guard_witness :
  from_trace digest
    (example_trace
     ++ [ToolCall 3 (rs "next") (rs "read_file") (BuiltinTool (rs "read_file")) Null ApprovalNotRequired false])
  = {[semantic_tool_call_fingerprint digest (call_tool example_call) (args example_call)
      := mkRecord 1 0]}.
Proof.
  etransitivity.
  - apply (from_trace_restores_guard digest [(example_call, example_failure)] example_trace).
    + apply (Forall_cons_1 _ _ _ two_failures_genuine).
    + assert (fst (live digest [(example_call, example_failure)] ∅)
        = [Executed example_call example_failure]) as -> by (vm_compute; reflexivity).
      apply (recorded_event (Executed example_call example_failure) [] [RuntimeError 0 (rs "retrying") true None false] [] []);
        repeat constructor.
    + right. eexists _, _, _. split; [reflexivity|]. split; [reflexivity|constructor].
  - vm_compute. reflexivity.
Defined.

(** Two calls are hashed from the same bytes exactly when they are the same
    semantic call: the same tool, and the same arguments once the office
    operation has its canonical name and the top-level reason is left out.  The
    encoding is unambiguous for texts and containers of any length below 2^64. *)
Theorem fingerprint_identifies_call t1 a1 t2 a2 :
  text_fits t1 → text_fits t2 → fits (normalized_args t1 a1) → fits (normalized_args t2 a2) →
  fingerprint_input t1 a1 = fingerprint_input t2 a2 ↔
  t1 = t2 ∧ strip_reason (normalized_args t1 a1) = strip_reason (normalized_args t2 a2).
Proof. apply fingerprint_input_iff. Qed.

Lemma fingerprint_identifies_call_witness :
  fingerprint_input (rs "t") (Object [(rs "a", Null); (rs "reason", String (rs "x"))])
  = fingerprint_input (rs "t") (Object [(rs "a", Null)]).
Proof.
  apply (fingerprint_identifies_call (rs "t") (Object [(rs "a", Null); (rs "reason", String (rs "x"))])
    (rs "t") (Object [(rs "a", Null)])).
  - split; [repeat constructor|vm_compute; discriminate].
  - split; [repeat constructor|vm_compute; discriminate].
  - cbn. repeat split; try (repeat constructor); vm_compute; discriminate.
  - cbn. repeat split; try (repeat constructor); vm_compute; discriminate.
  - split; vm_compute; reflexivity.
Defined.

(** *** Office operations *)

Lemma map_get_insert {A} k (v : A) fs : map_get k (map_insert k v fs) = Some v.
Proof.
  induction fs as [|[l w] fs IH]; simpl; [by rewrite str_eqb_refl|].
  destruct (str_eqb k l) eqn:E; simpl; [by rewrite str_eqb_refl|].
  destruct (str_leb k l); simpl; [by rewrite str_eqb_refl|]. by rewrite E.
Qed.

Lemma map_insert_insert {A} k (v w : A) fs : map_insert k v (map_insert k w fs) = map_insert k v fs.
Proof.
  induction fs as [|[l u] fs IH]; simpl; [by rewrite str_eqb_refl|].
  destruct (str_eqb k l) eqn:E; simpl; [by rewrite str_eqb_refl|].
  destruct (str_leb k l) eqn:E2; simpl; [by rewrite str_eqb_refl|]. by rewrite E, E2, IH.
Qed.

Lemma canonical_idempotent op :
  canonical_office_operation (canonical_office_operation op) = canonical_office_operation op.
Proof.
  unfold canonical_office_operation at 2 3.
  destruct (List.find _ canonical_office_operations) as [alias|] eqn:E.
  - apply find_some in E as [Hin _].
    assert (forallb (λ alias, str_eqb (canonical_office_operation (rs (snd alias))) (rs (snd alias)))
              canonical_office_operations = true) as H by (vm_compute; reflexivity).
    rewrite forallb_forall in H. by apply str_eqb_eq, H.
  - unfold canonical_office_operation. by rewrite E.
Qed.

(** The spelling of an office operation does not matter: for the office
    tools, the arguments with an operation and with its canonical name are
    normalised to the same arguments, those with the canonical name, and so have
    the same fingerprint; canonical names are canonical. *)
Theorem office_spelling_irrelevant sha256_hex tool op fs :
  one_of tool ["office_document"; "office_spreadsheet"; "office_presentation"] = true →
  let with_operation op := Object (map_insert (rs "operation") (String op) fs) in
  normalized_args tool (with_operation op) = with_operation (canonical_office_operation op)
  ∧ canonical_office_operation (canonical_office_operation op) = canonical_office_operation op
  ∧ semantic_tool_call_fingerprint sha256_hex tool (with_operation op)
    = semantic_tool_call_fingerprint sha256_hex tool (with_operation (canonical_office_operation op)).
Proof.
  intros Ht. cbv zeta.
  assert (∀ op, normalized_args tool (Object (map_insert (rs "operation") (String op) fs))
    = Object (map_insert (rs "operation") (String (canonical_office_operation op)) fs)) as Hn.
  { intros o. unfold normalized_args, canonicalize_office_operation_alias. rewrite Ht. cbn [negb].
    rewrite map_get_insert. cbn [mbind option_bind as_str]. cbv zeta.
    destruct (str_eqb (canonical_office_operation o) o) eqn:E; cbn [default].
    - apply str_eqb_eq in E. by rewrite E.
    - by rewrite map_insert_insert. }
  split_and!; [apply Hn|apply canonical_idempotent|].
  unfold semantic_tool_call_fingerprint, fingerprint_input. cbv zeta.
  fold (normalized_args tool (Object (map_insert (rs "operation") (String op) fs))).
  fold (normalized_args tool (Object (map_insert (rs "operation") (String (canonical_office_operation op)) fs))).
  by rewrite !Hn, canonical_idempotent.
Qed.

Lemma office_spelling_irrelevant_witness :
  semantic_tool_call_fingerprint digest (rs "office_document") (Object [(rs "operation", String (rs "add_image"))])
  = semantic_tool_call_fingerprint digest (rs "office_document") (Object [(rs "operation", String (rs "insertImage"))]).
Proof.
  apply (office_spelling_irrelevant digest (rs "office_document") (rs "add_image") []).
  vm_compute. reflexivity.
Defined.
