(* ===== verification/ProviderCooldown.v ===== *)
(** * Cooldown of model providers

    [core/src/llm/provider_cooldown.rs]: after a provider has answered that a
    rate limit is reached, the requests to the same endpoint with the same
    credential wait until the deadline; then one of them probes, and the others
    follow one at a time.

    The functions are the critical sections on the registry.  An [Instant] and a
    [Duration] are numbers of nanoseconds, an argument wherever the source reads
    the clock.  [tokio]'s [Notify] only decides when a waiting task runs its loop
    again: the functions return what they notify, and in the transition system a
    waiting task may run its loop at any time, which covers every way of waking
    it.  [reqwest::Url] and SHA-256 are parameters. *)

From S2P Require Import Prelude RustText.

Definition MAX_COOLDOWN_SCOPES : nat := 1024.
Definition NANOS_PER_MILLI : N := 1000000.
Definition DEFAULT_RATE_LIMIT_COOLDOWN_MS : N := 2000.

(** ** The scope of a cooldown *)

Inductive AgentApiStyle := OpenAiCompatible | AnthropicCompatible.

#[export] Instance api_style_eq_dec : EqDecision AgentApiStyle.
Proof. solve_decision. Defined.

(** What the program asks of a parsed [reqwest::Url]. *)
Record Url := mkUrl {
  scheme : rstr;
  host_str : option rstr;
  port_or_known_default : option N;
}.

(** [u16::to_be_bytes]. *)
Definition port_be_bytes (port : N) : list N := [port / 256; port mod 256]%N.

Definition style_bytes (api_style : AgentApiStyle) : list N :=
  match api_style with
  | OpenAiCompatible => rs "openai"
  | AnthropicCompatible => rs "anthropic"
  end.

Section Key.
Variable url_parse : rstr → option Url.
Variable sha256 : list N → list N.

(** The bytes [cooldown_key] feeds to the hasher. *)
Definition cooldown_key_input (api_url api_token : rstr) (api_style : AgentApiStyle) : list N :=
  match url_parse (trim api_url) with
  | Some url =>
      as_bytes (scheme url) ++ [0%N]
        ++ match host_str url with Some host => as_bytes host | None => [] end ++ [0%N]
        ++ match port_or_known_default url with Some port => port_be_bytes port | None => [] end
  | None => as_bytes (trim api_url)
  end
  ++ [0%N] ++ style_bytes api_style ++ [0%N] ++ as_bytes api_token.

Definition cooldown_key (api_url api_token : rstr) (api_style : AgentApiStyle) : list N :=
  sha256 (cooldown_key_input api_url api_token api_style).
End Key.

Abbreviation CooldownKey := (list N).

(** ** The registry *)

(** [queued] counts tasks that exist, so it cannot reach [usize::MAX], where the
    source would saturate. *)
Record CooldownEntry := mkEntry {
  until : N;
  generation : N;
  in_flight_generation : option N;
  queued : nat;
}.

Record CooldownRegistry := mkRegistry {
  entries : gmap CooldownKey CooldownEntry;
  next_generation : N;
}.

Definition default_registry : CooldownRegistry := mkRegistry ∅ 0.

Definition set_entry (key : CooldownKey) (entry : CooldownEntry) (registry : CooldownRegistry)
    : CooldownRegistry :=
  mkRegistry (<[key := entry]> (entries registry)) (next_generation registry).

(** What a critical section notifies on the entry's [Notify]. *)
Inductive Notification := NotifyOne | NotifyWaiters.

(** One pass of the loop of [acquire_provider_cooldown]: the generation of the
    permit it returns, or the deadline of the wait it goes into, if it has one. *)
Inductive Pass :=
| Permitted (permit_generation : option N)
| Waits (deadline : option N).

Definition acquire_once (key : CooldownKey) (registered : bool) (now : N)
    (registry : CooldownRegistry) : Pass * bool * CooldownRegistry :=
  match entries registry !! key with
  | None => (Permitted None, registered, registry)
  | Some entry =>
      let queued := if registered then queued entry else S (queued entry) in
      if (until entry <=? now)%N && bool_decide (in_flight_generation entry = None) then
        (Permitted (Some (generation entry)), false,
         set_entry key (mkEntry (until entry) (generation entry) (Some (generation entry))
                          (Nat.pred queued)) registry)
      else
        (Waits (if in_flight_generation entry is None then Some (until entry) else None), true,
         set_entry key (mkEntry (until entry) (generation entry) (in_flight_generation entry)
                          queued) registry)
  end.

(** [now.checked_add(delay)]; [instant_max] is the greatest [Instant]. *)
Definition checked_add (instant_max now delay : N) : option N :=
  if (now + delay <=? instant_max)%N then Some (now + delay)%N else None.

Definition new_until (instant_max now delay : N) : N :=
  match checked_add instant_max now (N.max delay NANOS_PER_MILLI) with
  | Some until => until
  | None => (now + 100 * (365 * 24 * 60 * 60) * 1000 * NANOS_PER_MILLI)%N
  end.

(** An entry that nobody uses and whose deadline has passed. *)
Definition evictable (now : N) (entry : CooldownEntry) : bool :=
  (queued entry =? 0) && bool_decide (in_flight_generation entry = None)
  && (until entry <=? now)%N.

(** [next_generation.wrapping_add(1).max(1)] *)
Definition bump (generation : N) : N := N.max ((generation + 1) mod (u64_max + 1)) 1.

(** [register_provider_cooldown]. [now] is read before the registry is locked;
    [expired] is the entry that the search finds in
    the order of the [HashMap], which is not specified; [later] the clock when a
    new entry is inserted. *)
Definition register_provider_cooldown (instant_max : N) (key : CooldownKey) (delay now later : N)
    (expired : option CooldownKey) (registry : CooldownRegistry)
    : CooldownRegistry * option Notification :=
  let until' := new_until instant_max now delay in
  let generation := bump (next_generation registry) in
  let insert (entries : gmap CooldownKey CooldownEntry) :=
    let entry := default (mkEntry later generation None 0) (entries !! key) in
    (mkRegistry (<[key := mkEntry (N.max (until entry) until') generation
                            (in_flight_generation entry) (queued entry)]> entries) generation,
     Some NotifyWaiters) in
  if (MAX_COOLDOWN_SCOPES <=? size (entries registry))
     && bool_decide (entries registry !! key = None) then
    match expired with
    | Some expired => insert (delete expired (entries registry))
    | None => (mkRegistry (entries registry) generation, None)
    end
  else insert (entries registry).

Definition register_default_rate_limit_cooldown (instant_max : N) (key : CooldownKey)
    (retry_after_ms : option N) : N → N → option CooldownKey → CooldownRegistry
    → CooldownRegistry * option Notification :=
  register_provider_cooldown instant_max key
    (default DEFAULT_RATE_LIMIT_COOLDOWN_MS retry_after_ms * NANOS_PER_MILLI)%N.

(** The search for an expired entry, which reads the clock between [locked] and
    [later]. *)
Definition finds_expired (locked later : N) (registry : CooldownRegistry)
    (expired : option CooldownKey) : Prop :=
  match expired with
  | Some key => ∃ entry, entries registry !! key = Some entry ∧ evictable later entry = true
  | None => ∀ key entry, entries registry !! key = Some entry → evictable locked entry = false
  end.

Definition release_cooldown_permit (key : CooldownKey) (generation : option N)
    (registry : CooldownRegistry) : CooldownRegistry * option Notification :=
  match generation, entries registry !! key with
  | Some generation', Some entry =>
      if negb (bool_decide (in_flight_generation entry = Some generation')) then (registry, None)
      else if queued entry =? 0 then
        (mkRegistry (delete key (entries registry)) (next_generation registry), None)
      else
        (set_entry key (mkEntry (until entry) (ProviderCooldown.generation entry) None
                          (queued entry)) registry, Some NotifyOne)
  | _, _ => (registry, None)
  end.

Definition cancel_cooldown_waiter (key : CooldownKey) (now : N) (registry : CooldownRegistry)
    : CooldownRegistry * option Notification :=
  match entries registry !! key with
  | None => (registry, None)
  | Some entry =>
      let queued := Nat.pred (queued entry) in
      (set_entry key (mkEntry (until entry) (generation entry) (in_flight_generation entry) queued)
         registry,
       if bool_decide (in_flight_generation entry = None) && (until entry <=? now)%N
          && (0 <? queued)
       then Some NotifyOne else None)
  end.

(** ** The registry with its tasks *)

Record ProviderCooldownPermit := mkPermit {
  permit_key : CooldownKey;
  permit_generation : option N;
}.

(** The clock at the last step, the scopes of the tasks that are registered as
    waiting, and the permits that have not been dropped. *)
Record Sys := mkSys {
  registry : CooldownRegistry;
  clock : N;
  waiters : list CooldownKey;
  permits : list ProviderCooldownPermit;
}.

Definition init : Sys := mkSys default_registry 0 [] [].

(** What a pass leaves of the task: a permit, a waiter. *)
Definition granted (key : CooldownKey) (pass : Pass) : list ProviderCooldownPermit :=
  match pass with Permitted generation => [mkPermit key generation] | Waits _ => [] end.

Definition registration (key : CooldownKey) (registered : bool) : list CooldownKey :=
  if registered then [key] else [].

Section Steps.
Variable instant_max : N.

Inductive step : Sys → Sys → Prop :=
| step_arrive sys key now pass registered r :
    (clock sys ≤ now)%N →
    acquire_once key false now (registry sys) = (pass, registered, r) →
    step sys (mkSys r now (registration key registered ++ waiters sys)
                (granted key pass ++ permits sys))
| step_poll sys ws1 key ws2 now pass registered r :
    (clock sys ≤ now)%N → waiters sys = ws1 ++ key :: ws2 →
    acquire_once key true now (registry sys) = (pass, registered, r) →
    step sys (mkSys r now (ws1 ++ registration key registered ++ ws2)
                (granted key pass ++ permits sys))
| step_cancel sys ws1 key ws2 now :
    (clock sys ≤ now)%N → waiters sys = ws1 ++ key :: ws2 →
    step sys (mkSys (fst (cancel_cooldown_waiter key now (registry sys))) now (ws1 ++ ws2)
                (permits sys))
| step_register sys key delay now locked later expired :
    (clock sys ≤ locked)%N → (now ≤ locked)%N → (locked ≤ later)%N →
    finds_expired locked later (registry sys) expired →
    step sys (mkSys (fst (register_provider_cooldown instant_max key delay now later expired
                            (registry sys))) later (waiters sys) (permits sys))
| step_release sys ps1 p ps2 now :
    (clock sys ≤ now)%N → permits sys = ps1 ++ p :: ps2 →
    step sys (mkSys (fst (release_cooldown_permit (permit_key p) (permit_generation p)
                            (registry sys))) now (waiters sys) (ps1 ++ ps2)).

Definition steps : relation Sys := rtc step.
Definition reachable (sys : Sys) : Prop := steps init sys.
End Steps.
