(* ===== verification/ProviderCooldownFacts.v ===== *)
(** * Facts about the cooldown of providers

    The invariant that ties the registry to the tasks that wait and the permits
    that are out, and what a step can do to the entry of a scope.

    After that: the properties of the cooldown of providers. *)

From S2P Require Import Prelude RustText ProviderCooldown.

(** ** Tasks of one scope *)

Definition waiting_for (key : CooldownKey) (ws : list CooldownKey) : nat :=
  length (filter (key =.) ws).

(** The generations of the probes of a scope that have not been settled. *)
Definition probe_of (key : CooldownKey) (p : ProviderCooldownPermit) : option N :=
  if decide (permit_key p = key) then permit_generation p else None.
Definition probes (key : CooldownKey) (ps : list ProviderCooldownPermit) : list N :=
  omap (probe_of key) ps.

Lemma waiting_for_app key ws ws' :
  waiting_for key (ws ++ ws') = waiting_for key ws + waiting_for key ws'.
Proof. unfold waiting_for. by rewrite filter_app, length_app. Qed.

Lemma waiting_for_cons key k ws :
  waiting_for key (k :: ws) = (if decide (key = k) then 1 else 0) + waiting_for key ws.
Proof. unfold waiting_for. rewrite filter_cons. by destruct (decide (key = k)). Qed.

Lemma waiting_for_registration key b :
  waiting_for key (registration key b) = if b then 1 else 0.
Proof. destruct b; [|done]. simpl. rewrite waiting_for_cons. by rewrite decide_True. Qed.

Lemma waiting_for_other key k b : k ≠ key → waiting_for k (registration key b) = 0.
Proof. intros Hk. destruct b; [|done]. simpl. rewrite waiting_for_cons. by rewrite decide_False. Qed.

Lemma waiting_for_nil key : waiting_for key [] = 0.
Proof. done. Qed.

Lemma probes_app key ps ps' : probes key (ps ++ ps') = probes key ps ++ probes key ps'.
Proof. unfold probes. by rewrite omap_app. Qed.

Lemma probes_cons key p ps : probes key (p :: ps) = option_list (probe_of key p) ++ probes key ps.
Proof. unfold probes. simpl. by destruct (probe_of key p). Qed.

Lemma probes_granted key pass :
  probes key (granted key pass) = match pass with Permitted (Some g) => [g] | _ => [] end.
Proof.
  destruct pass as [[g|]|]; try done; unfold granted; rewrite probes_cons; unfold probe_of;
    simpl; by rewrite decide_True.
Qed.

Lemma probes_granted_other key k pass : k ≠ key → probes k (granted key pass) = [].
Proof.
  intros Hk. destruct pass as [[g|]|]; try done; unfold granted; rewrite probes_cons;
    unfold probe_of; simpl; by rewrite decide_False by congruence.
Qed.

Create Rewrite HintDb cooldown.
#[export] Hint Rewrite waiting_for_nil waiting_for_app waiting_for_cons probes_app probes_cons : cooldown.

(** ** The invariant *)

(** What the registry says of a scope with these waiters and these probes. *)
Definition scope_ok (entry : option CooldownEntry) (waiting : nat) (probes : list N) : Prop :=
  match entry with
  | Some entry => queued entry = waiting ∧ probes = option_list (in_flight_generation entry)
  | None => waiting = 0 ∧ probes = []
  end.

Record inv (sys : Sys) : Prop := {
  inv_scope key :
    scope_ok (entries (registry sys) !! key) (waiting_for key (waiters sys))
      (probes key (permits sys));
  inv_size : size (entries (registry sys)) ≤ MAX_COOLDOWN_SCOPES;
}.

Lemma size_replace {A} (m : gmap CooldownKey A) k x y :
  m !! k = Some x → size (<[k := y]> m) = size m.
Proof. intros H. by rewrite map_size_insert, H. Qed.

(** A pass of the waiting loop changes the entry of its own scope only. *)
Lemma acquire_once_spec key registered now r pass registered' r' :
  acquire_once key registered now r = (pass, registered', r') →
  next_generation r' = next_generation r
  ∧ (∀ k, k ≠ key → entries r' !! k = entries r !! k)
  ∧ match entries r !! key with
    | None => r' = r ∧ pass = Permitted None ∧ registered' = registered
    | Some entry => ∃ entry',
        entries r' = <[key := entry']> (entries r)
        ∧ until entry' = until entry ∧ generation entry' = generation entry
        ∧ ((pass = Permitted (Some (generation entry)) ∧ registered' = false
             ∧ (until entry ≤ now)%N ∧ in_flight_generation entry = None
             ∧ in_flight_generation entry' = Some (generation entry)
             ∧ queued entry' = queued entry - if registered then 1 else 0)
           ∨ (pass = Waits (if in_flight_generation entry is None then Some (until entry) else None)
             ∧ registered' = true
             ∧ ((now < until entry)%N ∨ in_flight_generation entry ≠ None)
             ∧ in_flight_generation entry' = in_flight_generation entry
             ∧ queued entry' = queued entry + if registered then 0 else 1))
    end.
Proof.
  unfold acquire_once. destruct (entries r !! key) as [e|] eqn:He.
  2:{ intros [= <- <- <-]. done. }
  cbv zeta.
  destruct (N.leb_spec (until e) now) as [Hu|Hu], (decide (in_flight_generation e = None)) as [Hf|Hf];
    rewrite ?(bool_decide_eq_true_2 _ Hf), ?(bool_decide_eq_false_2 _ Hf); cbn [andb];
    intros [= <- <- <-]; split_and!; try done;
    try (intros k Hk; simpl; by rewrite lookup_insert_ne);
    (eexists; split; [reflexivity|]; split_and!; try done; simpl).
  - left. split_and!; try done. destruct registered; simpl; lia.
  - right. split_and!; auto. destruct registered; lia.
  - right. split_and!; auto. destruct registered; lia.
  - right. split_and!; auto. destruct registered; lia.
Qed.

(** ** Preservation *)

Lemma acquire_inv sys key registered now pass registered' r ws ws' :
  inv sys → acquire_once key registered now (registry sys) = (pass, registered', r) →
  (∀ k, waiting_for k (waiters sys) = waiting_for k ws + waiting_for k (registration key registered)) →
  (∀ k, waiting_for k ws' = waiting_for k ws + waiting_for k (registration key registered')) →
  inv (mkSys r now ws' (granted key pass ++ permits sys)).
Proof.
  intros [Hscope Hsize] (_ & Hother & Hkey)%acquire_once_spec Hws Hws'. split; simpl.
  - intros k. specialize (Hscope k). specialize (Hws k). specialize (Hws' k).
    rewrite probes_app.
    destruct (decide (k = key)) as [->|Hne].
    2:{ rewrite waiting_for_other in Hws, Hws' by done.
        rewrite Hother, probes_granted_other, Hws', <-Hws by done. done. }
    rewrite waiting_for_registration in Hws, Hws'. rewrite probes_granted.
    destruct (entries (registry sys) !! key) as [e|] eqn:He.
    + destruct Hkey as (e' & -> & _ & _ & H). rewrite lookup_insert_eq. simpl in *.
      destruct Hscope as [Hq Hp].
      destruct H as [(-> & -> & _ & Hf & -> & ->)|(-> & -> & _ & -> & ->)].
      * rewrite Hp, Hf. split; [destruct registered; lia|done].
      * rewrite Hp. split; [destruct registered; lia|done].
    + destruct Hkey as (-> & -> & ->). simpl in *. destruct Hscope as [Hq Hp].
      rewrite He. split; [destruct registered; lia|done].
  - destruct (entries (registry sys) !! key) as [e|] eqn:He.
    + destruct Hkey as (e' & -> & _). by rewrite (size_replace _ _ e).
    + by destruct Hkey as (-> & _).
Qed.

Lemma cancel_inv sys ws1 key ws2 now :
  inv sys → waiters sys = ws1 ++ key :: ws2 →
  inv (mkSys (fst (cancel_cooldown_waiter key now (registry sys))) now (ws1 ++ ws2) (permits sys)).
Proof.
  intros [Hscope Hsize] Hws. unfold cancel_cooldown_waiter. split; simpl.
  - intros k. specialize (Hscope k). rewrite Hws in Hscope. autorewrite with cooldown in *.
    destruct (entries (registry sys) !! key) as [e|] eqn:He; cbn [fst].
    + unfold set_entry. simpl. destruct (decide (k = key)) as [->|Hne].
      * rewrite lookup_insert_eq. rewrite He in Hscope. destruct Hscope as [Hq Hp].
        split; simpl; [lia|done].
      * by rewrite lookup_insert_ne.
    + destruct (decide (k = key)) as [->|Hne]; [|done].
      rewrite He in Hscope. destruct Hscope. lia.
  - destruct (entries (registry sys) !! key) as [e|] eqn:He; [|done].
    simpl. by rewrite (size_replace _ _ e).
Qed.

Lemma release_inv sys ps1 p ps2 now :
  inv sys → permits sys = ps1 ++ p :: ps2 →
  inv (mkSys (fst (release_cooldown_permit (permit_key p) (permit_generation p) (registry sys)))
         now (waiters sys) (ps1 ++ ps2)).
Proof.
  intros [Hscope Hsize] Hps. unfold release_cooldown_permit. destruct p as [key [g|]]; simpl.
  2:{ split; [|done]. intros k. specialize (Hscope k). rewrite Hps in Hscope.
      autorewrite with cooldown in *. unfold probe_of in Hscope. simpl in Hscope.
      simpl. rewrite probes_app. by destruct (decide (key = k)). }
  pose proof (Hscope key) as Hkey. rewrite Hps in Hkey. autorewrite with cooldown in Hkey.
  unfold probe_of in Hkey at 1. simpl in Hkey. rewrite decide_True in Hkey by done. simpl in Hkey.
  destruct (entries (registry sys) !! key) as [e|] eqn:He.
  2:{ destruct Hkey as [_ Hkey]. by destruct (probes key ps1). }
  destruct Hkey as [Hq Hp].
  destruct (in_flight_generation e) as [g'|] eqn:Hf; simpl in Hp; [|by destruct (probes key ps1)].
  assert (probes key (ps1 ++ ps2) = [] ∧ g' = g) as [Hnone ->].
  { rewrite probes_app. destruct (probes key ps1) as [|? [|??]]; by simplify_eq/=. }
  rewrite bool_decide_eq_true_2 by done. cbn [negb].
  assert (∀ k, k ≠ key → probes k (ps1 ++ ps2) = probes k (permits sys)) as Hother.
  { intros k Hk. rewrite Hps. autorewrite with cooldown. unfold probe_of. simpl.
    by rewrite decide_False by congruence. }
  destruct (Nat.eqb_spec (queued e) 0) as [H0|H0]; (split; simpl; [intros k|]).
  - destruct (decide (k = key)) as [->|Hne].
    + rewrite lookup_delete_eq. split; [lia|done].
    + rewrite lookup_delete_ne, Hother by done. apply Hscope.
  - rewrite map_size_delete, He. simpl. lia.
  - destruct (decide (k = key)) as [->|Hne].
    + rewrite lookup_insert_eq. by split.
    + rewrite lookup_insert_ne, Hother by done. apply Hscope.
  - by rewrite (size_replace _ _ e).
Qed.

(** *** Registration *)

Lemma evictable_idle now e :
  evictable now e = true ↔ queued e = 0 ∧ in_flight_generation e = None ∧ (until e ≤ now)%N.
Proof.
  unfold evictable. rewrite !andb_true_iff, bool_decide_eq_true, Nat.eqb_eq, N.leb_le. tauto.
Qed.

(** What a registration leaves of the entry of its own scope. *)
Definition extended (entry : option CooldownEntry) (later until' generation' : N) : CooldownEntry :=
  match entry with
  | Some e => mkEntry (N.max (until e) until') generation' (in_flight_generation e) (queued e)
  | None => mkEntry (N.max later until') generation' None 0
  end.

(** The scopes a registration may forget. *)
Definition forgotten (later : N) (before after : option CooldownEntry) : Prop :=
  after = before ∨ after = None ∧ ∃ e, before = Some e ∧ evictable later e = true.

Lemma register_spec instant_max key delay now locked later expired r r' n :
  register_provider_cooldown instant_max key delay now later expired r = (r', n) →
  finds_expired locked later r expired →
  next_generation r' = bump (next_generation r)
  ∧ (n = None ∧ entries r' = entries r ∧ entries r !! key = None
       ∧ MAX_COOLDOWN_SCOPES ≤ size (entries r)
       ∧ (∀ k e, entries r !! k = Some e → evictable locked e = false)
     ∨ n = Some NotifyWaiters
       ∧ entries r' !! key = Some (extended (entries r !! key) later
           (new_until instant_max now delay) (bump (next_generation r)))
       ∧ (∀ k, k ≠ key → forgotten later (entries r !! k) (entries r' !! k))
       ∧ (size (entries r) ≤ MAX_COOLDOWN_SCOPES → size (entries r') ≤ MAX_COOLDOWN_SCOPES)).
Proof.
  unfold register_provider_cooldown. cbv zeta.
  destruct (Nat.leb_spec MAX_COOLDOWN_SCOPES (size (entries r))) as [Hfull|Hroom]; cbn [andb].
  - destruct (entries r !! key) as [e|] eqn:He; cbn [bool_decide].
    + rewrite bool_decide_eq_false_2 by done. intros [= <- <-] _. split; [done|]. right. simpl.
      rewrite lookup_insert_eq, (size_replace _ _ e) by done. split_and!; auto.
      intros k Hk. left. by rewrite lookup_insert_ne.
    + rewrite bool_decide_eq_true_2 by done. destruct expired as [expired|].
      2:{ intros [= <- <-] H. split; [done|]. left. auto. }
      intros [= <- <-] (e & Hx & Hev). split; [done|]. right. simpl.
      assert (expired ≠ key) by congruence.
      rewrite lookup_delete_ne, He, lookup_insert_eq by done. split_and!; try done.
      * intros k Hk. rewrite lookup_insert_ne by done. destruct (decide (k = expired)) as [->|].
        -- right. rewrite lookup_delete_eq. eauto.
        -- left. by rewrite lookup_delete_ne.
      * rewrite map_size_insert_None, map_size_delete, Hx by by rewrite lookup_delete_ne.
        simpl. assert (size (entries r) ≠ 0); [|lia].
        intros H0%map_size_empty_inv. by rewrite H0, lookup_empty in Hx.
  - intros [= <- <-] _. split; [done|]. right. simpl. rewrite lookup_insert_eq.
    split_and!; [done|by destruct (entries r !! key)| |].
    + intros k Hk. left. by rewrite lookup_insert_ne.
    + intros _. rewrite map_size_insert. destruct (entries r !! key); unfold id; lia.
Qed.

Lemma register_inv instant_max sys key delay now locked later expired :
  inv sys → finds_expired locked later (registry sys) expired →
  inv (mkSys (fst (register_provider_cooldown instant_max key delay now later expired
                     (registry sys))) later (waiters sys) (permits sys)).
Proof.
  intros [Hscope Hsize] Hfind.
  destruct (register_provider_cooldown _ _ _ _ _ _ _) as [r n] eqn:E.
  destruct (register_spec _ _ _ _ _ _ _ _ _ _ E Hfind) as (_ & [(-> & He & _)|(-> & Hkey & Hother & Hs)]).
  - split; simpl; by rewrite He.
  - split; simpl; [|auto]. intros k. specialize (Hscope k).
    destruct (decide (k = key)) as [->|Hk].
    + rewrite Hkey. destruct (entries (registry sys) !! key) as [e|]; [done|].
      destruct Hscope as [-> ->]. done.
    + destruct (Hother k Hk) as [->|(-> & e & He & (Hq & Hf & _)%evictable_idle)]; [done|].
      rewrite He in Hscope. destruct Hscope as [H1 H2]. rewrite Hf in H2. by split; [lia|].
Qed.

Section Reachable.
Context (instant_max : N).

Lemma step_inv sys sys' : inv sys → step instant_max sys sys' → inv sys'.
Proof.
  intros Hi Hst. revert Hi.
  destruct Hst as [s key now pass reg r _ E|? ws1 key ws2 now pass reg r _ Hw E|? ? key ? now _ Hw
                  |? key ? ? ? ? ? _ _ _ Hf|? ? p ? ? _ Hp]; intros Hi.
  - eapply (acquire_inv _ _ _ _ _ _ _ (waiters s)); [done..| |]; intros k;
      simpl registration; autorewrite with cooldown; lia.
  - eapply (acquire_inv _ _ _ _ _ _ _ (ws1 ++ ws2)); [done..| |]; intros k; rewrite ?Hw;
      simpl registration; autorewrite with cooldown; lia.
  - by apply cancel_inv.
  - by eapply register_inv.
  - by apply release_inv.
Qed.

Lemma init_inv : inv init.
Proof. split; [|simpl; rewrite map_size_empty; lia]. intros key. done. Qed.

Lemma steps_inv sys sys' : steps instant_max sys sys' → inv sys → inv sys'.
Proof. induction 1; eauto using step_inv. Qed.

Lemma cooldown_reachable_inv sys : reachable instant_max sys → inv sys.
Proof. intros H. by apply (steps_inv init); [|apply init_inv]. Qed.

(** *** Deadlines *)

Lemma step_clock sys sys' : step instant_max sys sys' → (clock sys ≤ clock sys')%N.
Proof. destruct 1; simpl; lia. Qed.

Lemma steps_clock sys sys' : steps instant_max sys sys' → (clock sys ≤ clock sys')%N.
Proof. induction 1 as [|s s' s'' Hst%step_clock _ IH]; [done|]. lia. Qed.

(** The scope cools down until [deadline] at least, without a probe. *)
Definition cooling (key : CooldownKey) (deadline : N) (sys : Sys) : Prop :=
  ∃ e, entries (registry sys) !! key = Some e ∧ in_flight_generation e = None ∧ (deadline ≤ until e)%N.

Definition permits_for (key : CooldownKey) (sys : Sys) : list ProviderCooldownPermit :=
  filter (λ p, permit_key p = key) (permits sys).

Lemma granted_for key k pass :
  filter (λ p, permit_key p = key) (granted k pass) = if decide (k = key) then granted k pass else [].
Proof. destruct pass; simpl; [|by destruct (decide _)]. rewrite filter_cons. simpl. by case_decide. Qed.

(** A pass before the deadline leaves the scope cooling and grants nothing for it. *)
Lemma acquire_cooling key deadline k registered now r pass registered' r' e :
  acquire_once k registered now r = (pass, registered', r') →
  entries r !! key = Some e → in_flight_generation e = None → (deadline ≤ until e)%N →
  (now < deadline)%N →
  (∃ e', entries r' !! key = Some e' ∧ in_flight_generation e' = None ∧ (deadline ≤ until e')%N)
  ∧ filter (λ p, permit_key p = key) (granted k pass) = [].
Proof.
  intros (_ & Hother & Hk)%acquire_once_spec He Hf Hd Hnow. rewrite granted_for.
  destruct (decide (k = key)) as [->|Hne]; [|split; [rewrite Hother by done; eauto|done]].
  rewrite He in Hk. destruct Hk as (e' & -> & Hu & _ & [H|(-> & _ & _ & Hf' & _)]); [lia|].
  split; [|done]. exists e'. rewrite lookup_insert_eq. split_and!; [done|congruence|lia].
Qed.

Lemma step_cooling key deadline sys sys' :
  cooling key deadline sys → step instant_max sys sys' → (clock sys' < deadline)%N →
  cooling key deadline sys' ∧ permits_for key sys' `sublist_of` permits_for key sys.
Proof.
  intros (e & He & Hf & Hd) Hst. unfold cooling, permits_for. revert He.
  destruct Hst as [s k now pass reg r _ E|s ws1 k ws2 now pass reg r _ Hw E|s ws1 k ws2 now _ Hw
                  |s k delay now locked later x _ _ _ Hx|s ps1 p ps2 now _ Hp]; intros He Hc; simpl in *.
  - edestruct acquire_cooling as [H1 H2]; [done..|]. by rewrite filter_app, H2.
  - edestruct acquire_cooling as [H1 H2]; [done..|]. by rewrite filter_app, H2.
  - split; [|done]. unfold cancel_cooldown_waiter.
    destruct (entries (registry s) !! k) as [e'|] eqn:Hk; [|by eauto]. simpl.
    destruct (decide (k = key)) as [->|Hne]; [|rewrite lookup_insert_ne by done; eauto].
    rewrite lookup_insert_eq. simplify_eq. by eexists.
  - split; [|done]. destruct (register_provider_cooldown _ _ _ _ _ _ _) as [r n] eqn:E. simpl.
    destruct (register_spec _ _ _ _ _ _ _ _ _ _ E Hx) as (_ & [(_ & -> & _)|(_ & Hk & Hother & _)]);
      [by eauto|]. destruct (decide (k = key)) as [->|Hne].
    + rewrite Hk, He. eexists. split; [done|]. simpl. split; [done|lia].
    + destruct (Hother key) as [->|(_ & e' & He' & (_ & _ & Hu)%evictable_idle)]; [done|by eauto|].
      simplify_eq. lia.
  - rewrite Hp, !filter_app. split.
    + unfold release_cooldown_permit. destruct (permit_generation p) as [g|]; [|by eauto].
      destruct (entries (registry s) !! permit_key p) as [e'|] eqn:Hk; [|by eauto].
      destruct (decide (permit_key p = key)) as [Heq|Hne].
      * rewrite Heq in Hk. simplify_eq. rewrite Hf. simpl. eauto.
      * destruct (negb _); [by eauto|]. destruct (_ =? 0); simpl;
          [rewrite lookup_delete_ne by done|rewrite lookup_insert_ne by done]; eauto.
    + apply sublist_app; [done|]. rewrite filter_cons. case_decide; [by apply sublist_cons|done].
Qed.

Lemma steps_cooling key deadline sys sys' :
  steps instant_max sys sys' → cooling key deadline sys → (clock sys' < deadline)%N →
  cooling key deadline sys' ∧ permits_for key sys' `sublist_of` permits_for key sys.
Proof.
  induction 1 as [s|s s' s'' Hst Hsteps IH]; intros Hc Hd; [done|].
  pose proof (steps_clock _ _ Hsteps).
  destruct (step_cooling key deadline s s') as [H1 H2]; [done..|lia|].
  destruct (IH H1 Hd) as [H3 H4]. split; [done|]. by etransitivity.
Qed.
End Reachable.

(** *** What the invariant says of single tasks *)

Lemma probes_elem key ps p g :
  p ∈ ps → permit_key p = key → permit_generation p = Some g → g ∈ probes key ps.
Proof.
  intros Hp Hk Hg. apply list_elem_of_omap. exists p. split; [done|]. unfold probe_of.
  by rewrite decide_True.
Qed.

Lemma probes_two key ps i j p q g h :
  i < j → ps !! i = Some p → ps !! j = Some q → permit_key p = key → permit_key q = key →
  permit_generation p = Some g → permit_generation q = Some h → 2 ≤ length (probes key ps).
Proof.
  intros Hij Hi Hj Hp Hq Hg Hh. rewrite <-(take_drop_middle _ _ _ Hi), probes_app, probes_cons.
  unfold probe_of. rewrite decide_True, Hg by done. rewrite length_app. simpl.
  assert (h ∈ probes key (drop (S i) ps)) as Hin.
  { eapply probes_elem; [|done..]. apply list_elem_of_lookup. exists (j - S i).
    rewrite lookup_drop. by replace (S i + (j - S i)) with j by lia. }
  destruct (probes key (drop (S i) ps)); [by apply not_elem_of_nil in Hin|simpl; lia].
Qed.

Lemma waiting_for_elem key ws : key ∈ ws → waiting_for key ws ≠ 0.
Proof.
  intros (i & Hi)%list_elem_of_lookup. rewrite <-(take_drop_middle _ _ _ Hi).
  autorewrite with cooldown. rewrite decide_True by done. lia.
Qed.

Lemma inv_one_probe sys key : inv sys → length (probes key (permits sys)) ≤ 1.
Proof.
  intros [H _]. specialize (H key). unfold scope_ok in H.
  destruct (entries _ !! key) as [e|]; destruct H as [_ ->]; [|simpl; lia].
  destruct (in_flight_generation e); simpl; lia.
Qed.

(** ** The scope of a key *)

Lemma zero_split_inj (l1 l2 r1 r2 : list N) :
  0%N ∉ l1 → 0%N ∉ l2 → l1 ++ 0%N :: r1 = l2 ++ 0%N :: r2 → l1 = l2 ∧ r1 = r2.
Proof.
  revert l2. induction l1 as [|x l1 IH]; intros [|y l2] H1 H2 H; simplify_eq/=; try set_solver.
  destruct (IH l2) as [-> ->]; [set_solver..|done|]. done.
Qed.

Definition port_bytes (port : option N) : list N :=
  match port with Some port => port_be_bytes port | None => [] end.

Lemma port_be_bytes_inj p q :
  (p < 65536)%N → (q < 65536)%N → port_be_bytes p = port_be_bytes q → p = q.
Proof.
  unfold port_be_bytes. intros _ _ [= H1 H2].
  rewrite (N.div_mod p 256), (N.div_mod q 256) by done. by rewrite H1, H2.
Qed.

Lemma style_bytes_inj s1 s2 t1 t2 :
  style_bytes s1 ++ 0%N :: t1 = style_bytes s2 ++ 0%N :: t2 → s1 = s2 ∧ t1 = t2.
Proof. destruct s1, s2; intros [= H]; try done. Qed.

(** A port, or none, in front of the style: no port can be taken for a style. *)
Lemma port_style_inj p q s1 s2 t1 t2 :
  (∀ n, p = Some n → n < 65536)%N → (∀ n, q = Some n → n < 65536)%N →
  port_bytes p ++ 0%N :: style_bytes s1 ++ 0%N :: t1
  = port_bytes q ++ 0%N :: style_bytes s2 ++ 0%N :: t2 →
  p = q ∧ s1 = s2 ∧ t1 = t2.
Proof.
  intros Hp Hq H. destruct p as [p|], q as [q|];
    unfold port_bytes, port_be_bytes in H; cbn [app] in H.
  - injection H as H1 H2 H%style_bytes_inj. split; [|done]. f_equal.
    apply port_be_bytes_inj; auto. unfold port_be_bytes. by rewrite H1, H2.
  - exfalso. apply (f_equal (λ l, l !! 2)) in H. destruct s1, s2; vm_compute in H; discriminate.
  - exfalso. apply (f_equal (λ l, l !! 2)) in H. destruct s1, s2; vm_compute in H; discriminate.
  - injection H as H%style_bytes_inj. done.
Qed.

(** What holds of a parsed URL: scheme and host are text without the null
    character, and the port is a [u16]. *)
Definition url_ok (url : Url) : Prop :=
  valid_text (scheme url) ∧ (0%N ∉ scheme url)
  ∧ valid_text (default [] (host_str url)) ∧ (0%N ∉ default [] (host_str url))
  ∧ ∀ port, port_or_known_default url = Some port → (port < 65536)%N.

Lemma cooldown_key_parsed url_parse u token style url :
  url_parse (trim u) = Some url →
  cooldown_key_input url_parse u token style
  = as_bytes (scheme url) ++ 0%N :: as_bytes (default [] (host_str url))
      ++ 0%N :: port_bytes (port_or_known_default url) ++ 0%N :: style_bytes style
      ++ 0%N :: as_bytes token.
Proof.
  intros H. unfold cooldown_key_input. rewrite H, <-!app_assoc.
  by destruct (host_str url).
Qed.

(** * The properties of the cooldown of providers *)

(** ** Example runs *)

(** Milliseconds, and a greatest [Instant]. *)
Definition ms (n : N) : N := (n * NANOS_PER_MILLI)%N.
Definition example_max : N := (2 ^ 63 * 1000000000)%N.

Definition arriving (key : CooldownKey) (now : N) (sys : Sys) : Sys :=
  let '(pass, registered, r) := acquire_once key false now (registry sys) in
  mkSys r now (registration key registered ++ waiters sys) (granted key pass ++ permits sys).
Definition polling (now : N) (sys : Sys) : Sys :=
  match waiters sys with
  | key :: ws =>
      let '(pass, registered, r) := acquire_once key true now (registry sys) in
      mkSys r now (registration key registered ++ ws) (granted key pass ++ permits sys)
  | [] => sys
  end.
Definition registering (key : CooldownKey) (delay now : N) (sys : Sys) : Sys :=
  mkSys (fst (register_provider_cooldown example_max key delay now now None (registry sys))) now
    (waiters sys) (permits sys).

Lemma arriving_step key now sys :
  (clock sys ≤ now)%N → steps example_max sys (arriving key now sys).
Proof.
  intros H. unfold arriving. destruct (acquire_once _ _ _ _) as [[pass reg] r] eqn:E.
  apply rtc_once. by eapply step_arrive.
Qed.

Lemma polling_step now sys :
  (clock sys ≤ now)%N → steps example_max sys (polling now sys).
Proof.
  intros H. unfold polling. destruct (waiters sys) as [|key ws] eqn:Hw; [reflexivity|].
  destruct (acquire_once _ _ _ _) as [[pass reg] r] eqn:E. apply rtc_once.
  by apply (step_poll _ sys [] key ws).
Qed.

Lemma registering_step key delay now sys :
  (clock sys ≤ now)%N →
  map_Forall (λ _ e, evictable now e = false) (entries (registry sys)) →
  steps example_max sys (registering key delay now sys).
Proof. intros H Hf. apply rtc_once. by apply (step_register _ _ _ _ now now). Qed.

(** A rate limit of ten milliseconds on scope [1]; two requests wait for it. *)
Definition limited : Sys := arriving [1%N] (ms 2) (arriving [1%N] (ms 1) (registering [1%N] (ms 10) 0 init)).
(** One of them probes after the deadline. *)
Definition probing : Sys := polling (ms 10) limited.

Lemma limited_reachable : reachable example_max limited.
Proof.
  unfold reachable, limited. etransitivity; [apply (registering_step [1%N] (ms 10) 0)|].
  - done.
  - intros k e H. done.
  - etransitivity; [by apply (arriving_step [1%N] (ms 1))|]. by apply arriving_step.
Qed.

Lemma probing_reachable : reachable example_max probing.
Proof. unfold reachable. etransitivity; [apply limited_reachable|]. by apply polling_step. Qed.

(** C36. One probe per provider: in every reachable state no two probes of one
    scope are out, a probe that is out is the one its entry records, every scope
    that is waited for has an entry that counts its waiters exactly, and at most
    1024 scopes are remembered. *)
Theorem one_probe_per_provider instant_max sys :
  reachable instant_max sys →
  (∀ i j p q, i < j → permits sys !! i = Some p → permits sys !! j = Some q →
     is_Some (permit_generation p) → is_Some (permit_generation q) → permit_key p ≠ permit_key q)
  ∧ (∀ p g, p ∈ permits sys → permit_generation p = Some g →
       ∃ e, entries (registry sys) !! permit_key p = Some e ∧ in_flight_generation e = Some g)
  ∧ (∀ key, key ∈ waiters sys → is_Some (entries (registry sys) !! key))
  ∧ (∀ key e, entries (registry sys) !! key = Some e → queued e = waiting_for key (waiters sys))
  ∧ size (entries (registry sys)) ≤ MAX_COOLDOWN_SCOPES.
Proof.
  intros Hi%cooldown_reachable_inv. pose proof Hi as [H Hs]. split_and!; [..|done].
  - intros i j p q Hij Hp Hq [g Hg] [h Hh] Heq.
    pose proof (inv_one_probe _ (permit_key p) Hi).
    pose proof (probes_two (permit_key p) _ _ _ _ _ _ _ Hij Hp Hq eq_refl (eq_sym Heq) Hg Hh). lia.
  - intros p g Hp Hg. specialize (H (permit_key p)).
    pose proof (probes_elem _ _ _ _ Hp eq_refl Hg) as Hin.
    destruct (entries _ !! permit_key p) as [e|]; destruct H as [_ Hpr]; rewrite Hpr in Hin;
      [|by apply not_elem_of_nil in Hin].
    exists e. split; [done|]. destruct (in_flight_generation e) as [g'|]; simpl in Hin;
      [by apply list_elem_of_singleton in Hin as ->|by apply not_elem_of_nil in Hin].
  - intros key Hk%waiting_for_elem. specialize (H key).
    destruct (entries _ !! key); [done|by destruct H].
  - intros key e He. specialize (H key). rewrite He in H. apply H.
Qed.

Lemma one_probe_per_provider_witness :
  length (permits probing) = 1 ∧ length (waiters probing) = 1
  ∧ ∃ e, entries (registry probing) !! [1%N] = Some e ∧ in_flight_generation e = Some 1%N.
Proof.
  split_and!; [vm_compute; reflexivity..|].
  apply (proj1 (proj2 (one_probe_per_provider example_max probing probing_reachable))
           (mkPermit [1%N] (Some 1%N))); [|reflexivity].
  vm_compute. left.
Defined.

(** A cooldown is respected: from a state in which a scope cools down and no
    probe of it is out, whatever happens before the deadline, the entry stays,
    its deadline is not shortened, and nobody gets a permit for the scope. *)
Theorem deadline_respected instant_max sys sys' key e :
  entries (registry sys) !! key = Some e → in_flight_generation e = None →
  steps instant_max sys sys' → (clock sys' < until e)%N →
  (∃ e', entries (registry sys') !! key = Some e' ∧ in_flight_generation e' = None
     ∧ (until e ≤ until e')%N)
  ∧ permits_for key sys' `sublist_of` permits_for key sys.
Proof. intros He Hf Hs Hc. apply (steps_cooling instant_max); [done|by exists e|done]. Qed.

Lemma deadline_respected_witness :
  permits_for [1%N] (polling (ms 9) limited) `sublist_of` permits_for [1%N] limited.
Proof.
  apply (deadline_respected example_max limited (polling (ms 9) limited) [1%N]
           (mkEntry (ms 10) 1 None 2)).
  - vm_compute. reflexivity.
  - reflexivity.
  - apply polling_step. vm_compute. discriminate.
  - vm_compute. reflexivity.
Defined.

(** A registration forgets nobody who still needs the cooldown: the entry of
    the scope itself keeps its probe and its waiters and gets the later of the two
    deadlines, which is at least the delay away; another scope is untouched,
    unless it is unused and expired; and a new scope is only turned away when 1024
    scopes are remembered and none of them was unused and expired. *)
Theorem registration_keeps_active_scopes instant_max key delay now locked later expired r :
  (now + N.max delay NANOS_PER_MILLI ≤ instant_max)%N →
  finds_expired locked later r expired →
  let '(r', notified) := register_provider_cooldown instant_max key delay now later expired r in
  (∀ k e, k ≠ key → entries r !! k = Some e →
     entries r' !! k = Some e ∨ queued e = 0 ∧ in_flight_generation e = None ∧ (until e ≤ later)%N)
  ∧ (∀ e, entries r !! key = Some e → ∃ e', entries r' !! key = Some e'
       ∧ in_flight_generation e' = in_flight_generation e ∧ queued e' = queued e
       ∧ until e' = N.max (until e) (now + N.max delay NANOS_PER_MILLI)%N)
  ∧ (entries r !! key = None →
       (∃ e', entries r' !! key = Some e' ∧ in_flight_generation e' = None ∧ queued e' = 0
          ∧ (now + delay ≤ until e')%N)
       ∨ entries r' = entries r ∧ MAX_COOLDOWN_SCOPES ≤ size (entries r)
         ∧ ∀ k e, entries r !! k = Some e → evictable locked e = false).
Proof.
  intros Hmax Hf. destruct (register_provider_cooldown _ _ _ _ _ _ _) as [r' n] eqn:E.
  assert (new_until instant_max now delay = now + N.max delay NANOS_PER_MILLI)%N as Hu.
  { unfold new_until, checked_add. by rewrite (proj2 (N.leb_le _ _) Hmax). }
  destruct (register_spec _ _ _ _ _ _ _ _ _ _ E Hf)
    as (_ & [(_ & He & Hnone & Hsize & Hx)|(_ & Hkey & Hother & _)]); rewrite ?He; split_and!.
  - auto.
  - congruence.
  - auto.
  - intros k e Hk Hke. destruct (Hother k Hk) as [->|(_ & e' & He' & Hev%evictable_idle)]; [auto|].
    right. congruence.
  - intros e He. rewrite Hkey, He. eexists. split; [done|]. simpl. by rewrite Hu.
  - intros He. rewrite Hkey, He. left. eexists. split; [done|]. simpl. rewrite Hu. split_and!; [done..|lia].
Qed.

Lemma registration_keeps_active_scopes_witness :
  ∃ e', entries (fst (register_provider_cooldown example_max [1%N] (ms 30) (ms 10) (ms 10) None
                        (registry probing))) !! [1%N] = Some e'
    ∧ in_flight_generation e' = Some 1%N ∧ queued e' = 1
    ∧ until e' = N.max (ms 10) (ms 10 + N.max (ms 30) NANOS_PER_MILLI)%N.
Proof.
  assert (finds_expired (ms 10) (ms 10) (registry probing) None) as Hf.
  { apply (bool_decide_unpack (map_Forall (λ _ e, evictable (ms 10) e = false)
                                 (entries (registry probing)))). vm_compute. exact I. }
  assert (ms 10 + N.max (ms 30) NANOS_PER_MILLI ≤ example_max)%N as Hmax
    by (vm_compute; discriminate).
  exact (proj1 (proj2 (registration_keeps_active_scopes example_max [1%N] (ms 30) (ms 10) (ms 10)
                  (ms 10) None (registry probing) Hmax Hf)) (mkEntry (ms 10) 1 (Some 1%N) 1) eq_refl).
Defined.

(** A cooldown is shared exactly by the requests with one origin, one API
    style and one credential: for URLs that parse, the bytes that are hashed are
    the same exactly when scheme, host, port, style and token are. *)
Theorem cooldown_key_identifies_scope url_parse u1 t1 s1 u2 t2 s2 a b :
  url_parse (trim u1) = Some a → url_parse (trim u2) = Some b →
  url_ok a → url_ok b → valid_text t1 → valid_text t2 →
  cooldown_key_input url_parse u1 t1 s1 = cooldown_key_input url_parse u2 t2 s2 ↔
  scheme a = scheme b ∧ default [] (host_str a) = default [] (host_str b)
  ∧ port_or_known_default a = port_or_known_default b ∧ s1 = s2 ∧ t1 = t2.
Proof.
  intros Ha Hb Hoa Hob Ht1 Ht2. rewrite !(cooldown_key_parsed _ _ _ _ _ Ha),
    !(cooldown_key_parsed _ _ _ _ _ Hb).
  split; [|by intros (-> & -> & -> & -> & ->)].
  destruct Hoa as (Hsa & Hza & Hha & Hya & Hpa), Hob as (Hsb & Hzb & Hhb & Hyb & Hpb).
  intros [H1 H]%zero_split_inj; [|by apply as_bytes_zero..].
  apply zero_split_inj in H as [H2 H]; [|by apply as_bytes_zero..].
  apply port_style_inj in H as (Hport & Hstyle & H3); [|done..].
  by split_and!; try done; apply as_bytes_inj.
Qed.

(** Two addresses of one server. *)
Definition example_parse (url : rstr) : option Url :=
  if starts_with url "https://api.example" then Some (mkUrl (rs "https") (Some (rs "api.example")) (Some 443%N))
  else None.

Lemma cooldown_key_identifies_scope_witness :
  cooldown_key_input example_parse (rs "https://api.example/v1") (rs "k") OpenAiCompatible
  = cooldown_key_input example_parse (rs "https://api.example/v2") (rs "k") OpenAiCompatible.
Proof.
  assert (url_ok (mkUrl (rs "https") (Some (rs "api.example")) (Some 443%N))) as Hok.
  { split_and!; try (apply (bool_decide_unpack _); vm_compute; exact I).
    intros port [= <-]. reflexivity. }
  assert (valid_text (rs "k")) as Hk by (apply (bool_decide_unpack _); vm_compute; exact I).
  apply (proj2 (cooldown_key_identifies_scope example_parse (rs "https://api.example/v1") (rs "k")
           OpenAiCompatible (rs "https://api.example/v2") (rs "k") OpenAiCompatible _ _
           eq_refl eq_refl Hok Hok Hk Hk)).
  split_and!; reflexivity.
Defined.

(** A probe that is rate-limited again forgets the new cooldown: the request
    registers the deadline while it still holds its permit, and dropping the
    permit removes the entry when nobody is queued, deadline and all.  Whenever
    the next request comes, it is let through at once. *)
Theorem rate_limited_probe_forgets_cooldown instant_max key e g retry_after_ms now later expired r :
  entries r !! key = Some e → in_flight_generation e = Some g → queued e = 0 →
  let registered :=
    fst (register_default_rate_limit_cooldown instant_max key retry_after_ms now later expired r) in
  let dropped := fst (release_cooldown_permit key (Some g) registered) in
  (∃ e', entries registered !! key = Some e'
     ∧ until e' = N.max (until e) (new_until instant_max now
         (default DEFAULT_RATE_LIMIT_COOLDOWN_MS retry_after_ms * NANOS_PER_MILLI)%N))
  ∧ entries dropped !! key = None
  ∧ ∀ next, acquire_once key false next dropped = (Permitted None, false, dropped).
Proof.
  intros He Hf Hq. cbv zeta. unfold register_default_rate_limit_cooldown, register_provider_cooldown.
  rewrite He, bool_decide_eq_false_2, andb_false_r by done. cbn [fst default].
  set (e' := mkEntry _ _ _ _). split_and!.
  - exists e'. simpl. by rewrite lookup_insert_eq.
  - unfold release_cooldown_permit. cbn [entries]. rewrite lookup_insert_eq. subst e'. simpl.
    rewrite bool_decide_eq_true_2, Hq by done. simpl. by rewrite lookup_delete_eq.
  - intros next. unfold release_cooldown_permit. cbn [entries]. rewrite lookup_insert_eq. subst e'.
    simpl. rewrite bool_decide_eq_true_2, Hq by done. simpl. unfold acquire_once. simpl.
    by rewrite lookup_delete_eq.
Qed.

(** A single probe, and a [Retry-After] of a minute. *)
Definition lonely : CooldownRegistry := mkRegistry {[ [1%N] := mkEntry (ms 10) 1 (Some 1%N) 0 ]} 1.

Lemma rate_limited_probe_forgets_cooldown_witness :
  entries (fst (release_cooldown_permit [1%N] (Some 1%N)
    (fst (register_default_rate_limit_cooldown example_max [1%N] (Some 60000%N) (ms 20) (ms 20) None
            lonely)))) !! [1%N] = None.
Proof.
  apply (proj1 (proj2 (rate_limited_probe_forgets_cooldown example_max [1%N]
    (mkEntry (ms 10) 1 (Some 1%N) 0) 1 (Some 60000%N) (ms 20) (ms 20) None lonely
    eq_refl eq_refl eq_refl))).
Defined.

(** A cancelled waiter strands the next: while a probe is out, a waiter waits
    without a deadline of its own, for a notification.  When the probe ends before
    the deadline, one waiter is notified; it waits for the deadline instead, and
    if it is cancelled before it nobody is notified, although others are still
    queued and no probe is out. *)
Theorem cancelled_waiter_strands_the_next key e g n r now cancelled :
  entries r !! key = Some e → in_flight_generation e = Some g → queued e = S (S n) →
  (now ≤ cancelled)%N → (cancelled < until e)%N →
  let '(released, notified) := release_cooldown_permit key (Some g) r in
  let '(pass, _, woken) := acquire_once key true now released in
  let '(left_, notified') := cancel_cooldown_waiter key cancelled woken in
  fst (fst (acquire_once key true now r)) = Waits None
  ∧ notified = Some NotifyOne ∧ pass = Waits (Some (until e)) ∧ notified' = None
  ∧ ∃ e', entries left_ !! key = Some e' ∧ queued e' = S n ∧ in_flight_generation e' = None.
Proof.
  intros He Hf Hq Hnow Hc. unfold release_cooldown_permit, acquire_once.
  rewrite !He. cbv beta iota zeta.
  rewrite !Hf, (bool_decide_eq_true_2 (Some g = Some g)), (bool_decide_eq_false_2 (Some g = None)),
    andb_false_r by done.
  rewrite Hq. simpl. rewrite lookup_insert_eq. simpl. rewrite (proj2 (N.leb_gt (until e) now)) by lia. simpl.
  unfold cancel_cooldown_waiter. simpl. rewrite lookup_insert_eq. simpl.
  rewrite (proj2 (N.leb_gt (until e) cancelled)) by lia. simpl.
  split_and!; [done..|]. rewrite lookup_insert_eq. by eexists.
Qed.

(** A probe that was rate-limited for a minute, with two waiters behind it. *)
Definition crowded : CooldownRegistry := mkRegistry {[ [1%N] := mkEntry (ms 60000) 2 (Some 1%N) 2 ]} 2.

Lemma cancelled_waiter_strands_the_next_witness :
  snd (cancel_cooldown_waiter [1%N] (ms 30)
         (snd (acquire_once [1%N] true (ms 20)
                 (fst (release_cooldown_permit [1%N] (Some 1%N) crowded))))) = None.
Proof.
  assert (ms 20 ≤ ms 30)%N as H1 by (vm_compute; discriminate).
  assert (ms 30 < ms 60000)%N as H2 by reflexivity.
  apply (proj1 (proj2 (proj2 (proj2 (cancelled_waiter_strands_the_next [1%N]
    (mkEntry (ms 60000) 2 (Some 1%N) 2) 1 0 crowded (ms 20) (ms 30) eq_refl eq_refl eq_refl H1 H2))))).
Defined.
