(* ===== verification/Chrono.v ===== *)
(** * The calendar library

    What the schedules use of [chrono] and [chrono_tz], as an interface: the
    operations of [Chrono], and in [ChronoLaws] the documented behaviour that
    theorems rely on.

    A [DateTime<Utc>] is its number of milliseconds since 1970-01-01T00:00:00Z, a
    [NaiveDateTime] the same number for the time a local clock shows (the
    instants of the program are whole milliseconds), a [NaiveDate] the number of
    days since 1970-01-01.

    After that: a calendar. *)

From S2P Require Import Prelude RustText.

Definition DAY_MS : Z := 86400000.
Definition HOUR_MS : Z := 3600000.
Definition MINUTE_MS : Z := 60000.

(** [LocalResult<DateTime<Tz>>]. *)
Inductive LocalResult :=
| LocalNone
| LocalSingle (instant : Z)
| LocalAmbiguous (first second : Z).

Class Chrono := {
  (** [chrono_tz::Tz], [str::parse::<Tz>] and [Tz::to_string]. *)
  Tz : Type;
  parse_tz : rstr → option Tz;
  tz_to_string : Tz → rstr;
  (** The local time [instant.with_timezone(&tz)] shows, which may be outside the
      range of [NaiveDateTime] by the offset of the zone. *)
  local_clock : Tz → Z → Z;
  (** [tz.from_local_datetime(&local)]. *)
  from_local_datetime : Tz → Z → LocalResult;
  (** [NaiveDate::from_ymd_opt(year, month, day)], [date.year()], [date.month()],
      [date.day()], [date.weekday().num_days_from_monday()]. *)
  from_ymd_opt : Z → Z → Z → option Z;
  year : Z → Z;
  month : Z → Z;
  day : Z → Z;
  num_days_from_monday : Z → Z;
  (** [DateTime::<Utc>::MIN_UTC], [MAX_UTC], [NaiveDate::MIN] and [MAX]. *)
  min_utc : Z;
  max_utc : Z;
  min_date : Z;
  max_date : Z;
}.

Definition date_ok `{!Chrono} (date : Z) : Prop := (min_date ≤ date ≤ max_date)%Z.

(** The dates clocks show: a day more on either side. *)
Definition clock_date_ok `{!Chrono} (date : Z) : Prop := (min_date - 1 ≤ date ≤ max_date + 1)%Z.

(** [instant.with_timezone(&tz).naive_local()] and [date_naive()]; [None] is the
    panic documented for a local time outside the range of [NaiveDateTime]. *)
Definition naive_local `{!Chrono} (tz : Tz) (instant : Z) : option Z :=
  let local := local_clock tz instant in
  if ((min_date <=? local / DAY_MS) && (local / DAY_MS <=? max_date))%Z then Some local else None.

(** The months of a calendar in one sequence. *)
Definition month_number `{!Chrono} (date : Z) : Z := year date * 12 + (month date - 1).

(** The first instant at which the clock shows the local time. *)
Definition earliest (r : LocalResult) : option Z :=
  match r with
  | LocalNone => None
  | LocalSingle instant => Some instant
  | LocalAmbiguous first second => Some (first `min` second)%Z
  end.

(** The documented behaviour. *)
Class ChronoLaws `{!Chrono} : Prop := {
  (** A zone is found by its own name. *)
  parse_tz_to_string tz : parse_tz (tz_to_string tz) = Some tz;
  tz_name_trimmed tz : trim (tz_to_string tz) = tz_to_string tz;
  tz_name_nonempty tz : tz_to_string tz ≠ [];
  (** The instants given for a local time, a [NaiveDateTime], are instants at which
      a clock shows it. *)
  from_local_shows tz local instant :
    earliest (from_local_datetime tz local) = Some instant →
    local_clock tz instant = local ∧ date_ok (local / DAY_MS);
  (** A clock that shows [local] or more has been at every earlier local time
      that occurs: its first instant is not later. *)
  from_local_order tz local instant t :
    earliest (from_local_datetime tz local) = Some instant →
    (local ≤ local_clock tz t)%Z → (instant ≤ t)%Z;
  (** Offsets from UTC are less than a day. *)
  offset_bound tz instant : (Z.abs (local_clock tz instant - instant) < DAY_MS)%Z;
  (** Dates: [from_ymd_opt] inverts year, month and day; months follow one another
      and days count within a month. *)
  from_ymd_sound y m d date :
    from_ymd_opt y m d = Some date → date_ok date ∧ year date = y ∧ month date = m ∧ day date = d;
  from_ymd_complete date :
    date_ok date → from_ymd_opt (year date) (month date) (day date) = Some date;
  month_range date : clock_date_ok date → (1 ≤ month date ≤ 12)%Z;
  month_number_mono d1 d2 :
    clock_date_ok d1 → clock_date_ok d2 → (d1 ≤ d2)%Z → (month_number d1 ≤ month_number d2)%Z;
  day_in_month d1 d2 :
    date_ok d1 → date_ok d2 → month_number d1 = month_number d2 → (day d2 - day d1 = d2 - d1)%Z;
  (** 1970-01-01 was a Thursday. *)
  weekday_of date : date_ok date → num_days_from_monday date = ((date + 3) mod 7)%Z;
  (** The range of [chrono]: some 262000 years on either side. *)
  year_fits date : clock_date_ok date → (-2 ^ 31 ≤ year date < 2 ^ 31)%Z;
  date_range : (-2 ^ 27 ≤ min_date)%Z ∧ (max_date ≤ 2 ^ 27)%Z;
  utc_range : (min_date * DAY_MS ≤ min_utc)%Z ∧ (max_utc < (max_date + 1) * DAY_MS)%Z;
}.

(** * A calendar

    An instance of [Chrono] and a proof of its laws: the proleptic Gregorian
    calendar with the range of [chrono], and two zones, UTC and Central European
    time with the summer of 2026, which has one gap and one fold.  The theorems
    about schedules are used at it. *)

Open Scope Z_scope.

(** ** Years *)

Definition leap (y : Z) : Z :=
  if (y mod 4 =? 0) && (negb (y mod 100 =? 0) || (y mod 400 =? 0)) then 1 else 0.

(** The days from 1970-01-01 to the first of January. *)
Definition year_start (y : Z) : Z :=
  365 * (y - 1970) + (y - 1) / 4 - (y - 1) / 100 + (y - 1) / 400 - 477.

Definition greg_year (d : Z) : Z :=
  let y := 400 * d / 146097 + 1970 in
  if d <? year_start y then y - 1 else if d <? year_start (y + 1) then y else y + 1.

Lemma leap_range y : 0 ≤ leap y ≤ 1.
Proof. unfold leap. destruct (_ && _); lia. Qed.

Lemma year_start_S y : year_start (y + 1) = year_start y + 365 + leap y.
Proof.
  unfold year_start, leap.
  destruct (Z.eqb_spec (y mod 4) 0), (Z.eqb_spec (y mod 100) 0), (Z.eqb_spec (y mod 400) 0); simpl;
    Z.to_euclidean_division_equations; lia.
Qed.

Lemma year_start_mono a b : a ≤ b → year_start a ≤ year_start b.
Proof. unfold year_start. intros. Z.to_euclidean_division_equations. lia. Qed.

Lemma greg_year_estimate d :
  let y := 400 * d / 146097 + 1970 in year_start (y - 1) ≤ d < year_start (y + 2).
Proof. unfold year_start. simpl. Z.to_euclidean_division_equations. lia. Qed.

Lemma greg_year_spec d : year_start (greg_year d) ≤ d < year_start (greg_year d + 1).
Proof.
  pose proof (greg_year_estimate d) as H. simpl in H. unfold greg_year.
  set (y := 400 * d / 146097 + 1970) in *.
  destruct (Z.ltb_spec d (year_start y)); [rewrite Z.sub_add; lia|].
  destruct (Z.ltb_spec d (year_start (y + 1))); [lia|].
  replace (y + 1 + 1) with (y + 2) by lia. lia.
Qed.

Lemma greg_year_unique y d : year_start y ≤ d < year_start (y + 1) → greg_year d = y.
Proof.
  intros H. pose proof (greg_year_spec d) as Hd.
  destruct (Z.lt_trichotomy (greg_year d) y) as [Hlt|[Heq|Hlt]]; [|done|].
  - pose proof (year_start_mono (greg_year d + 1) y ltac:(lia)). lia.
  - pose proof (year_start_mono (y + 1) (greg_year d) ltac:(lia)). lia.
Qed.

(** ** Months *)

(** The days from the first of January to the first of a month; the thirteenth
    month is the next year. *)
Definition month_start (l m : Z) : Z :=
  if m <=? 2 then 31 * (m - 1) else (153 * (m - 3) + 2) / 5 + 59 + l.

Definition month_of (l doy : Z) : Z :=
  if doy <? 31 then 1 else if doy <? 59 + l then 2 else (5 * (doy - 59 - l) + 2) / 153 + 3.

Lemma month_of_spec l doy :
  0 ≤ l ≤ 1 → 0 ≤ doy < 365 + l →
  1 ≤ month_of l doy ≤ 12 ∧ month_start l (month_of l doy) ≤ doy < month_start l (month_of l doy + 1).
Proof.
  intros Hl Hd. unfold month_of, month_start.
  destruct (Z.ltb_spec doy 31); [simpl; lia|].
  destruct (Z.ltb_spec doy (59 + l)); [simpl; Z.to_euclidean_division_equations; lia|].
  assert (0 ≤ (5 * (doy - 59 - l) + 2) / 153 ≤ 9) as Hq by (Z.to_euclidean_division_equations; lia).
  assert (153 * ((5 * (doy - 59 - l) + 2) / 153) ≤ 5 * (doy - 59 - l) + 2
          < 153 * ((5 * (doy - 59 - l) + 2) / 153) + 153) as Hx
    by (clear; Z.to_euclidean_division_equations; lia).
  set (q := (5 * (doy - 59 - l) + 2) / 153) in *. clearbody q.
  assert (q = 0 ∨ q = 1 ∨ q = 2 ∨ q = 3 ∨ q = 4 ∨ q = 5 ∨ q = 6 ∨ q = 7 ∨ q = 8 ∨ q = 9) as Hc by lia.
  repeat destruct Hc as [->|Hc]; [..|rewrite Hc in *]; simpl;
    Z.to_euclidean_division_equations; lia.
Qed.

Lemma month_start_mono l a b : 0 ≤ l → a ≤ b → month_start l a ≤ month_start l b.
Proof.
  intros Hl Hab. unfold month_start.
  destruct (Z.leb_spec a 2), (Z.leb_spec b 2); Z.to_euclidean_division_equations; lia.
Qed.

Lemma month_of_unique l doy m :
  0 ≤ l ≤ 1 → 0 ≤ doy < 365 + l → month_start l m ≤ doy < month_start l (m + 1) → month_of l doy = m.
Proof.
  intros Hl Hd H. destruct (month_of_spec l doy Hl Hd) as [_ Hm].
  destruct (Z.lt_trichotomy (month_of l doy) m) as [Hlt|[Heq|Hlt]]; [|done|].
  - pose proof (month_start_mono l (month_of l doy + 1) m ltac:(lia) ltac:(lia)). lia.
  - pose proof (month_start_mono l (m + 1) (month_of l doy) ltac:(lia) ltac:(lia)). lia.
Qed.

Lemma month_start_13 l : month_start l 13 = 365 + l.
Proof. unfold month_start. simpl. Z.to_euclidean_division_equations. lia. Qed.

Definition day_of_year (d : Z) : Z := d - year_start (greg_year d).
Definition year_leap (d : Z) : Z := leap (greg_year d).
Definition greg_month (d : Z) : Z := month_of (year_leap d) (day_of_year d).
Definition greg_day (d : Z) : Z := day_of_year d - month_start (year_leap d) (greg_month d) + 1.

Lemma day_of_year_range d : 0 ≤ day_of_year d < 365 + year_leap d.
Proof.
  unfold day_of_year, year_leap. pose proof (greg_year_spec d) as H. rewrite year_start_S in H. lia.
Qed.

Lemma greg_month_spec d :
  1 ≤ greg_month d ≤ 12
  ∧ month_start (year_leap d) (greg_month d) ≤ day_of_year d
    < month_start (year_leap d) (greg_month d + 1).
Proof. apply month_of_spec; [apply leap_range|apply day_of_year_range]. Qed.

(** ** Dates *)

(** The years -262143 to 262142. *)
Definition greg_min : Z := year_start (-262143).
Definition greg_max : Z := year_start 262143 - 1.

Definition greg_from_ymd (y m d : Z) : option Z :=
  let l := leap y in
  let date := year_start y + month_start l m + d - 1 in
  if (1 <=? m) && (m <=? 12) && (1 <=? d) && (month_start l m + d <=? month_start l (m + 1))
     && (greg_min <=? date) && (date <=? greg_max)
  then Some date else None.

Lemma greg_from_ymd_Some y m d date :
  greg_from_ymd y m d = Some date ↔
  date = year_start y + month_start (leap y) m + d - 1 ∧ 1 ≤ m ≤ 12 ∧ 1 ≤ d
  ∧ month_start (leap y) m + d ≤ month_start (leap y) (m + 1) ∧ greg_min ≤ date ≤ greg_max.
Proof.
  unfold greg_from_ymd.
  set (x := year_start y + month_start (leap y) m + d - 1).
  destruct (_ && _) eqn:E; rewrite ?andb_true_iff, ?andb_false_iff, ?Z.leb_le, ?Z.leb_gt in E;
    split; try done; [intros [= <-]; lia|intros [-> ?]; done|].
  intros [-> ?]. lia.
Qed.

Lemma greg_from_ymd_sound y m d date :
  greg_from_ymd y m d = Some date →
  greg_min ≤ date ≤ greg_max ∧ greg_year date = y ∧ greg_month date = m ∧ greg_day date = d.
Proof.
  intros (-> & Hm & Hd & Hlen & Hrange)%greg_from_ymd_Some. pose proof (leap_range y) as Hl.
  pose proof (month_start_mono (leap y) 1 m ltac:(lia) ltac:(lia)) as H1.
  pose proof (month_start_mono (leap y) (m + 1) 13 ltac:(lia) ltac:(lia)) as H13.
  rewrite month_start_13 in H13. change (month_start (leap y) 1) with 0 in H1.
  set (date := year_start y + month_start (leap y) m + d - 1) in *.
  assert (greg_year date = y) as Hy.
  { apply greg_year_unique. rewrite year_start_S. unfold date. lia. }
  assert (greg_month date = m) as Hmo.
  { unfold greg_month, year_leap, day_of_year. rewrite Hy.
    apply month_of_unique; [done| |]; unfold date; lia. }
  split; [done|]. split; [done|]. split; [done|].
  unfold greg_day, year_leap, day_of_year. rewrite Hmo, Hy. unfold date. lia.
Qed.

Lemma greg_from_ymd_complete date :
  greg_min ≤ date ≤ greg_max →
  greg_from_ymd (greg_year date) (greg_month date) (greg_day date) = Some date.
Proof.
  intros Hd. apply greg_from_ymd_Some. pose proof (greg_month_spec date) as [Hm Hs].
  unfold greg_day. fold (year_leap date). unfold day_of_year in *. lia.
Qed.

Definition greg_month_number (d : Z) : Z := greg_year d * 12 + (greg_month d - 1).

(** The first day of the month of a day. *)
Lemma greg_month_start d :
  d = year_start (greg_year d) + month_start (year_leap d) (greg_month d) + greg_day d - 1.
Proof. unfold greg_day, day_of_year. lia. Qed.

Lemma greg_month_number_mono d1 d2 : d1 ≤ d2 → greg_month_number d1 ≤ greg_month_number d2.
Proof.
  intros H. unfold greg_month_number. pose proof (greg_month_spec d1) as [Hm1 Hs1].
  pose proof (greg_month_spec d2) as [Hm2 Hs2].
  pose proof (greg_year_spec d1) as Hy1. pose proof (greg_year_spec d2) as Hy2.
  destruct (Z.lt_trichotomy (greg_year d1) (greg_year d2)) as [Hlt|[Heq|Hlt]]; [lia| |].
  - assert (greg_month d1 ≤ greg_month d2); [|lia].
    unfold year_leap, day_of_year in *. rewrite Heq in *.
    destruct (Z.le_gt_cases (greg_month d1) (greg_month d2)) as [|Hgt]; [done|].
    pose proof (leap_range (greg_year d2)).
    pose proof (month_start_mono (leap (greg_year d2)) (greg_month d2 + 1) (greg_month d1)
                  ltac:(lia) ltac:(lia)). lia.
  - pose proof (year_start_mono (greg_year d2 + 1) (greg_year d1) ltac:(lia)). lia.
Qed.

Lemma greg_day_in_month d1 d2 :
  greg_month_number d1 = greg_month_number d2 → greg_day d2 - greg_day d1 = d2 - d1.
Proof.
  unfold greg_month_number. intros H. pose proof (greg_month_spec d1) as [Hm1 _].
  pose proof (greg_month_spec d2) as [Hm2 _].
  assert (greg_year d1 = greg_year d2) as Hy by lia.
  assert (greg_month d1 = greg_month d2) as Hm by lia.
  pose proof (greg_month_start d1) as H1. pose proof (greg_month_start d2) as H2.
  unfold year_leap in *. rewrite Hy, Hm in H1. lia.
Qed.

(** ** Zones *)

Inductive zone := Utc | Berlin.

(** The summer of 2026: from 29 March to 25 October, one o'clock UTC. *)
Definition summer_start : Z := 1774746000000.
Definition summer_end : Z := 1792890000000.

Definition offset (z : zone) (instant : Z) : Z :=
  match z with
  | Utc => 0
  | Berlin => if (summer_start <=? instant) && (instant <? summer_end) then 2 * HOUR_MS else HOUR_MS
  end.

Definition date_in_range (local : Z) : bool :=
  (greg_min <=? local / DAY_MS) && (local / DAY_MS <=? greg_max).

Definition greg_clock (z : zone) (instant : Z) : Z := instant + offset z instant.

(** The instants at which the clock shows a local time, of those that an offset
    of the zone leads to. *)
Definition greg_from_local (z : zone) (local : Z) : LocalResult :=
  if date_in_range local then
    match z with
    | Utc => LocalSingle local
    | Berlin =>
        let summer := local - 2 * HOUR_MS in
        let winter := local - HOUR_MS in
        match offset Berlin summer =? 2 * HOUR_MS, offset Berlin winter =? HOUR_MS with
        | true, true => LocalAmbiguous summer winter
        | true, false => LocalSingle summer
        | false, true => LocalSingle winter
        | false, false => LocalNone
        end
    end
  else LocalNone.

Definition zone_name (z : zone) : rstr := match z with Utc => rs "UTC" | Berlin => rs "Europe/Berlin" end.

Definition greg_parse_tz (name : rstr) : option zone :=
  if bool_decide (name = rs "UTC") then Some Utc
  else if bool_decide (name = rs "Europe/Berlin") then Some Berlin else None.

Definition gregorian : Chrono := {|
  Tz := zone;
  parse_tz := greg_parse_tz;
  tz_to_string := zone_name;
  local_clock := greg_clock;
  from_local_datetime := greg_from_local;
  from_ymd_opt := greg_from_ymd;
  year := greg_year;
  month := greg_month;
  day := greg_day;
  num_days_from_monday d := (d + 3) mod 7;
  min_utc := greg_min * DAY_MS;
  max_utc := (greg_max + 1) * DAY_MS - 1;
  min_date := greg_min;
  max_date := greg_max;
|}.

Lemma date_in_range_true local :
  date_in_range local = true ↔ greg_min ≤ local / DAY_MS ≤ greg_max.
Proof. unfold date_in_range. rewrite andb_true_iff, !Z.leb_le. done. Qed.

Lemma offset_cases z instant :
  z = Utc ∧ offset z instant = 0
  ∨ z = Berlin ∧ offset z instant = 2 * HOUR_MS ∧ summer_start ≤ instant < summer_end
  ∨ z = Berlin ∧ offset z instant = HOUR_MS ∧ (instant < summer_start ∨ summer_end ≤ instant).
Proof.
  destruct z; simpl; [by left|right].
  destruct (Z.leb_spec summer_start instant), (Z.ltb_spec instant summer_end); simpl; auto with lia.
Qed.

(** The first instant of a local time: it shows it, and is the summer one if both do. *)
Lemma greg_from_local_earliest z local instant :
  earliest (greg_from_local z local) = Some instant →
  greg_clock z instant = local ∧ date_in_range local = true
  ∧ (z = Berlin → instant = local - HOUR_MS → offset Berlin (local - 2 * HOUR_MS) ≠ 2 * HOUR_MS).
Proof.
  unfold greg_from_local, greg_clock. destruct (date_in_range local) eqn:Hr; [|done].
  destruct z; [intros [= <-]; simpl; split_and!; [lia|done|done]|].
  destruct (Z.eqb_spec (offset Berlin (local - 2 * HOUR_MS)) (2 * HOUR_MS)) as [E2|E2],
    (Z.eqb_spec (offset Berlin (local - HOUR_MS)) HOUR_MS) as [E1|E1]; cbn [earliest];
    intros [= <-]; (split; [|split; [done|]]).
  - rewrite Z.min_l by (unfold HOUR_MS; lia). lia.
  - unfold HOUR_MS. lia.
  - lia.
  - unfold HOUR_MS. lia.
  - lia.
  - done.
Qed.

Lemma greg_from_local_order z local instant t :
  earliest (greg_from_local z local) = Some instant → local ≤ greg_clock z t → instant ≤ t.
Proof.
  intros (Hl & _ & Hfirst)%greg_from_local_earliest Hle. unfold greg_clock in *.
  pose proof (offset_cases z instant) as Hi. pose proof (offset_cases z t) as Ht.
  pose proof (offset_cases Berlin (local - 2 * HOUR_MS)) as H2.
  unfold summer_start, summer_end, HOUR_MS in *.
  destruct Hi as [(-> & Ei)|[(-> & Ei & Hi)|(-> & Ei & Hi)]],
    Ht as [(Hz & Et)|[(Hz & Et & Ht)|(Hz & Et & Ht)]]; try done; try lia.
  destruct H2 as [(? & _)|[(_ & E2 & _)|(_ & _ & H2)]]; [done| |lia].
  destruct (Hfirst eq_refl ltac:(lia) E2).
Qed.

Lemma gregorian_laws : @ChronoLaws gregorian.
Proof.
  split; simpl.
  - by intros [].
  - by intros [].
  - by intros [].
  - intros tz local instant (H & Hd%date_in_range_true & _)%greg_from_local_earliest. done.
  - apply greg_from_local_order.
  - intros tz instant. unfold greg_clock. pose proof (offset_cases tz instant). unfold HOUR_MS, DAY_MS in *. lia.
  - apply greg_from_ymd_sound.
  - apply greg_from_ymd_complete.
  - intros date _. apply greg_month_spec.
  - intros d1 d2 _ _. apply greg_month_number_mono.
  - intros d1 d2 _ _. apply greg_day_in_month.
  - done.
  - intros date [H1 H2]. cbn [min_date max_date gregorian] in *. unfold greg_min, greg_max in *.
    pose proof (greg_year_spec date) as [Ha Hb].
    assert (-262144 ≤ greg_year date ≤ 262143); [|lia].
    pose proof (year_start_S (-262144)) as Hs. pose proof (year_start_S 262143) as Hs'.
    pose proof (leap_range (-262144)). pose proof (leap_range 262143).
    change (-262144 + 1) with (-262143) in Hs. split.
    + destruct (Z.le_gt_cases (-262144) (greg_year date)) as [|Hgt]; [done|].
      pose proof (year_start_mono (greg_year date + 1) (-262144) ltac:(lia)). lia.
    + destruct (Z.le_gt_cases (greg_year date) 262143) as [|Hgt]; [done|].
      pose proof (year_start_mono (262143 + 1) (greg_year date) ltac:(lia)). lia.
  - vm_compute. split; done.
  - vm_compute. split; done.
Qed.
