(* ===== verification/AutomationSchedule.v ===== *)
(** * Schedules of automations

    [core-server/src/application/automation/schedule.rs]: a schedule is checked
    and brought into a normal form with its recurrence rule, from which the next
    run after an instant is computed.

    Integers are Z; the widths of the fields are [dto_ok] of
    AutomationScheduleFacts, and the checked operations of the source are checked
    here.  [chrono] is the interface [Chrono]. *)

From stdpp Require Import sorting pretty.
From S2P Require Import Prelude RustText Chrono.

Definition MILLIS_PER_MINUTE : Z := 60000.
Definition MILLIS_PER_HOUR : Z := 60 * MILLIS_PER_MINUTE.
Definition MILLIS_PER_DAY : Z := 24 * MILLIS_PER_HOUR.
Definition MAX_CALENDAR_SEARCH_PERIODS : nat := Z.to_nat 4800.

(** ** Errors *)

Inductive AutomationScheduleErrorCode :=
| InvalidTimezone
| InvalidAnchor
| InvalidAfter
| InvalidInterval
| InvalidTime
| MissingField
| UnexpectedField
| EmptySelection
| InvalidMonthDay
| InvalidMonth
| NextRunOutOfRange
| NoFutureOccurrence.

Record AutomationScheduleError := mkError {
  error_code : AutomationScheduleErrorCode;
  error_field : string;
  error_message : rstr;
}.

(** How a computation ends without a value: the error it returns, or a panic. *)
Inductive fault :=
| Fail (error : AutomationScheduleError)
| Panic.

Abbreviation outcome := (result fault).

Definition fail {A} (code : AutomationScheduleErrorCode) (field : string) (message : rstr)
    : outcome A :=
  Err (Fail (mkError code field message)).
Arguments fail {A} code field%_string_scope message.

Definition invalid_interval {A} (message : string) : outcome A :=
  fail InvalidInterval "interval" (rs message).
Arguments invalid_interval {A} message%_string_scope.

Definition next_run_out_of_range {A} : outcome A :=
  fail NextRunOutOfRange "nextRunAt" (rs "next occurrence is outside the supported timestamp range").

Definition no_future_occurrence {A} : outcome A :=
  fail NoFutureOccurrence "schedule"
    (rs "schedule has no future occurrence in the supported calendar range").

(** [option.ok_or_else(next_run_out_of_range)] *)
Definition in_range {A} (o : option A) : outcome A :=
  match o with Some a => Ok a | None => next_run_out_of_range end.

(** ** Integers *)

Definition i64_ok (n : Z) : bool := ((- 2 ^ 63 <=? n) && (n <? 2 ^ 63))%Z.
Definition checked_i64 (n : Z) : option Z := if i64_ok n then Some n else None.

(** [a.div_euclid(b)]; the program divides by positive numbers. *)
Definition div_euclid (a b : Z) : outcome Z := if (b =? 0)%Z then Err Panic else Ok (a / b)%Z.

(** [Duration::hours(n)] and the like, in milliseconds: they panic when the
    duration has more than [i64::MAX] of them. *)
Definition duration (n unit_ms : Z) : outcome Z :=
  if (Z.abs (n * unit_ms) <? 2 ^ 63)%Z then Ok (n * unit_ms)%Z else Err Panic.

(** ** Data ([protocol-rs/src/automations.rs]) *)

Inductive AutomationWeekdayDto :=
| Monday | Tuesday | Wednesday | Thursday | Friday | Saturday | Sunday.

Inductive AutomationIntervalUnitDto := Minutes | Hours | Days.

Inductive AutomationCustomFrequencyDto := Hourly | Daily | Weekly | Monthly | Yearly.

#[export] Instance weekday_eq_dec : EqDecision AutomationWeekdayDto.
Proof. solve_decision. Defined.

Inductive AutomationScheduleInputDto :=
| DtoInterval (amount : Z) (unit : AutomationIntervalUnitDto) (anchor_at : Z) (timezone : rstr)
| DtoDaily (time_minutes anchor_at : Z) (timezone : rstr)
| DtoWeekdays (time_minutes anchor_at : Z) (timezone : rstr)
| DtoWeekly (weekdays : list AutomationWeekdayDto) (time_minutes anchor_at : Z) (timezone : rstr)
| DtoCustom (frequency : AutomationCustomFrequencyDto) (interval : Z)
    (minute_of_hour time_minutes : option Z) (weekdays : option (list AutomationWeekdayDto))
    (month_days months : option (list Z)) (anchor_at : Z) (timezone : rstr).

(** [chrono::Weekday] is its [num_days_from_monday]. *)
Inductive NormalizedRule :=
| FixedInterval (step_ms : Z)
| RuleHourly (interval minute_of_hour : Z)
| RuleDaily (interval time_minutes : Z)
| RuleWeekly (interval : Z) (weekdays : list Z) (time_minutes : Z)
| RuleMonthly (interval : Z) (month_days : list Z) (time_minutes : Z)
| RuleYearly (interval : Z) (months month_days : list Z) (time_minutes : Z).

Record NormalizedAutomationSchedule `{!Chrono} := mkNormalized {
  schedule : AutomationScheduleInputDto;
  rrule : rstr;
  timezone : Tz;
  anchor_at : Z;
  rule : NormalizedRule;
}.

(** ** Text *)

(** [value.to_string()] of an integer, and [{:02}]. *)
Definition decimal (n : Z) : rstr := rs (pretty n).
Definition two_digits (n : Z) : rstr := (if (n <? 10)%Z then rs "0" else []) ++ decimal n.

(** [parts.join(separator)] *)
Fixpoint join (separator : rstr) (parts : list rstr) : rstr :=
  match parts with
  | [] => []
  | [part] => part
  | part :: parts => part ++ separator ++ join separator parts
  end.

Definition join_numbers (values : list Z) : rstr := join (rs ",") (decimal <$> values).

Definition plural (value : Z) (singular plural : string) : rstr :=
  if (value =? 1)%Z then rs singular else rs plural.
Arguments plural value (singular plural)%_string_scope.

Definition display_time (time_minutes : Z) : rstr :=
  two_digits (time_minutes / 60) ++ rs ":" ++ two_digits (time_minutes mod 60).

Definition display_weekday (weekday : AutomationWeekdayDto) : rstr :=
  rs match weekday with
     | Monday => "Mon" | Tuesday => "Tue" | Wednesday => "Wed" | Thursday => "Thu"
     | Friday => "Fri" | Saturday => "Sat" | Sunday => "Sun"
     end.
Definition display_weekdays (weekdays : list AutomationWeekdayDto) : rstr :=
  join (rs ", ") (display_weekday <$> weekdays).

Definition display_numbers (values : list Z) : rstr := join (rs ", ") (decimal <$> values).

Definition rrule_weekday (value : AutomationWeekdayDto) : rstr :=
  rs match value with
     | Monday => "MO" | Tuesday => "TU" | Wednesday => "WE" | Thursday => "TH"
     | Friday => "FR" | Saturday => "SA" | Sunday => "SU"
     end.

Definition schedule_summary (schedule : AutomationScheduleInputDto) : rstr :=
  match schedule with
  | DtoInterval amount unit _ _ =>
      let unit := match unit with
                  | Minutes => plural amount "minute" "minutes"
                  | Hours => plural amount "hour" "hours"
                  | Days => plural amount "day" "days"
                  end in
      rs "Every " ++ decimal amount ++ rs " " ++ unit ++ rs " (fixed UTC interval)"
  | DtoDaily time_minutes _ timezone =>
      rs "Every day at " ++ display_time time_minutes ++ rs " (" ++ timezone ++ rs ")"
  | DtoWeekdays time_minutes _ timezone =>
      rs "Weekdays at " ++ display_time time_minutes ++ rs " (" ++ timezone ++ rs ")"
  | DtoWeekly weekdays time_minutes _ timezone =>
      rs "Every week on " ++ display_weekdays weekdays ++ rs " at " ++ display_time time_minutes
        ++ rs " (" ++ timezone ++ rs ")"
  | DtoCustom frequency interval minute_of_hour time_minutes weekdays month_days months _ timezone =>
      let every singular plural_ := rs "Every " ++ decimal interval ++ rs " "
                                      ++ plural interval singular plural_ in
      let at_ := rs " at " ++ display_time (default 0%Z time_minutes) ++ rs " (" ++ timezone ++ rs ")" in
      match frequency with
      | Hourly => every "hour"%string "hours"%string ++ rs " at minute "
                    ++ decimal (default 0%Z minute_of_hour) ++ rs " (" ++ timezone ++ rs ")"
      | Daily => every "day"%string "days"%string ++ at_
      | Weekly => every "week"%string "weeks"%string ++ rs " on "
                    ++ display_weekdays (default [] weekdays) ++ at_
      | Monthly => every "month"%string "months"%string ++ rs " on day "
                     ++ display_numbers (default [] month_days) ++ at_
      | Yearly => every "year"%string "years"%string ++ rs " in month "
                    ++ display_numbers (default [] months) ++ rs " on day "
                    ++ display_numbers (default [] month_days) ++ at_
      end
  end.

Definition by_part (name : string) (value : option rstr) : list rstr :=
  match value with Some value => [rs name ++ value] | None => [] end.
Arguments by_part name%_string_scope value.

Definition wall_time_rrule (frequency : string) (interval : Z)
    (by_day by_month by_month_day : option rstr) (hour minute : Z) : rstr :=
  join (rs ";")
    ([rs "FREQ=" ++ rs frequency; rs "INTERVAL=" ++ decimal interval]
     ++ by_part "BYDAY=" by_day ++ by_part "BYMONTH=" by_month
     ++ by_part "BYMONTHDAY=" by_month_day
     ++ [rs "BYHOUR=" ++ decimal hour; rs "BYMINUTE=" ++ decimal minute; rs "BYSECOND=0"]).
Arguments wall_time_rrule frequency%_string_scope interval by_day by_month by_month_day hour minute.

(** ** Selections *)

Definition weekday_order (value : AutomationWeekdayDto) : Z :=
  match value with
  | Monday => 0 | Tuesday => 1 | Wednesday => 2 | Thursday => 3
  | Friday => 4 | Saturday => 5 | Sunday => 6
  end.

Definition to_chrono_weekday (value : AutomationWeekdayDto) : Z :=
  match value with
  | Monday => 0 | Tuesday => 1 | Wednesday => 2 | Thursday => 3
  | Friday => 4 | Saturday => 5 | Sunday => 6
  end.

Definition weekday_le (a b : AutomationWeekdayDto) : Prop := (weekday_order a ≤ weekday_order b)%Z.
#[export] Instance weekday_le_dec : RelDecision weekday_le.
Proof. intros a b. unfold weekday_le. apply _. Defined.

(** [sort_by_key(weekday_order)] and [dedup]. *)
Definition normalize_weekdays (weekdays : list AutomationWeekdayDto)
    : outcome (list AutomationWeekdayDto) :=
  if bool_decide (weekdays = []) then
    fail EmptySelection "weekdays" (rs "at least one weekday is required")
  else Ok (sort_dedup (λ a b, bool_decide (a = b)) weekday_le weekdays).

Definition normalize_u8_selection (values : list Z) (minimum maximum : Z) (field : string)
    : outcome (list Z) :=
  if bool_decide (values = []) then
    fail EmptySelection field (rs "at least one " ++ rs field ++ rs " value is required")
  else if existsb (λ value, (value <? minimum) || (maximum <? value))%Z values then
    fail (if bool_decide (field = "months"%string) then InvalidMonth else InvalidMonthDay) field
      (rs "values must be between " ++ decimal minimum ++ rs " and " ++ decimal maximum)
  else Ok (sort_dedup Z.eqb Z.le values).
Arguments normalize_u8_selection values (minimum maximum)%_Z_scope field%_string_scope.

(** ** Checks *)

Definition validate_positive (value : Z) (field : string) : outcome () :=
  if (value =? 0)%Z then fail InvalidInterval field (rs "interval must be at least 1") else Ok ().
Arguments validate_positive value field%_string_scope.

Definition validate_time_minutes (time_minutes : Z) : outcome (Z * Z) :=
  if (24 * 60 <=? time_minutes)%Z then
    fail InvalidTime "timeMinutes" (rs "time must be between 00:00 and 23:59")
  else Ok (time_minutes / 60, time_minutes mod 60)%Z.

(** [NaiveTime::from_hms_opt(hour, minute, 0)], in milliseconds of the day; the
    date of [and_hms_opt] is added where it is used. *)
Definition from_hms_opt (hour minute : Z) : option Z :=
  if ((hour <? 24) && (minute <? 60))%Z then Some (hour * HOUR_MS + minute * MINUTE_MS)%Z else None.

Definition time_from_minutes (time_minutes : Z) : outcome Z :=
  '(hour, minute) ← validate_time_minutes time_minutes;
  match from_hms_opt hour minute with
  | Some time => Ok time
  | None => fail InvalidTime "timeMinutes" (rs "time cannot be represented")
  end.

Definition require {A} (value : option A) (field frequency : string) : outcome A :=
  match value with
  | Some value => Ok value
  | None => fail MissingField field
              (rs field ++ rs " is required for " ++ rs frequency ++ rs " schedules")
  end.
Arguments require {A} value (field frequency)%_string_scope.

Definition reject_present {A} (value : option A) (field frequency : string) : outcome () :=
  match value with
  | Some _ => fail UnexpectedField field
                (rs field ++ rs " is not valid for " ++ rs frequency ++ rs " schedules")
  | None => Ok ()
  end.
Arguments reject_present {A} value (field frequency)%_string_scope.

Inductive WeeklyInputKind := KindWeekdays | KindWeekly | KindCustom.

Section Schedule.
Context `{!Chrono}.

Definition utc_from_ms (value : Z) (field : string) (code : AutomationScheduleErrorCode)
    : outcome Z :=
  if ((min_utc <=? value) && (value <=? max_utc))%Z then Ok value
  else fail code field (rs "timestamp is outside the supported range").

Definition validate_anchor (anchor_at : Z) : outcome () :=
  _ ← utc_from_ms anchor_at "anchorAt" InvalidAnchor; Ok ().

Definition parse_timezone (timezone : rstr) : outcome Tz :=
  let timezone := trim timezone in
  if bool_decide (timezone = []) then
    fail InvalidTimezone "timezone" (rs "IANA timezone is required")
  else
    match parse_tz timezone with
    | Some tz => Ok tz
    | None => fail InvalidTimezone "timezone" (rs "timezone must be a recognized IANA name")
    end.

(** ** Normalisation *)

Definition normalize_hourly (interval minute_of_hour anchor_at : Z) (timezone : rstr)
    : outcome NormalizedAutomationSchedule :=
  if (59 <? minute_of_hour)%Z then
    fail InvalidTime "minuteOfHour" (rs "minute must be between 0 and 59")
  else
    tz ← parse_timezone timezone;
    Ok (mkNormalized _
          (DtoCustom Hourly interval (Some minute_of_hour) None None None None anchor_at
             (tz_to_string tz))
          (rs "FREQ=HOURLY;INTERVAL=" ++ decimal interval ++ rs ";BYMINUTE="
             ++ decimal minute_of_hour ++ rs ";BYSECOND=0")
          tz anchor_at (RuleHourly interval minute_of_hour)).

Definition normalize_daily (interval time_minutes anchor_at : Z) (timezone : rstr) (custom : bool)
    : outcome NormalizedAutomationSchedule :=
  _ ← validate_positive interval "interval";
  _ ← validate_anchor anchor_at;
  '(hour, minute) ← validate_time_minutes time_minutes;
  tz ← parse_timezone timezone;
  let schedule :=
    if custom then
      DtoCustom Daily interval None (Some time_minutes) None None None anchor_at (tz_to_string tz)
    else DtoDaily time_minutes anchor_at (tz_to_string tz) in
  Ok (mkNormalized _ schedule (wall_time_rrule "DAILY" interval None None None hour minute)
        tz anchor_at (RuleDaily interval time_minutes)).

Definition normalize_weekly (interval : Z) (weekdays : list AutomationWeekdayDto)
    (time_minutes anchor_at : Z) (timezone : rstr) (input_kind : WeeklyInputKind)
    : outcome NormalizedAutomationSchedule :=
  _ ← validate_positive interval "interval";
  _ ← validate_anchor anchor_at;
  '(hour, minute) ← validate_time_minutes time_minutes;
  tz ← parse_timezone timezone;
  weekdays ← normalize_weekdays weekdays;
  let by_day := join (rs ",") (rrule_weekday <$> weekdays) in
  let schedule :=
    match input_kind with
    | KindWeekdays => DtoWeekdays time_minutes anchor_at (tz_to_string tz)
    | KindWeekly => DtoWeekly weekdays time_minutes anchor_at (tz_to_string tz)
    | KindCustom => DtoCustom Weekly interval None (Some time_minutes) (Some weekdays) None None
                      anchor_at (tz_to_string tz)
    end in
  Ok (mkNormalized _ schedule
        (wall_time_rrule "WEEKLY" interval (Some by_day) None None hour minute ++ rs ";WKST=MO")
        tz anchor_at (RuleWeekly interval (to_chrono_weekday <$> weekdays) time_minutes)).

Definition normalize_monthly (interval : Z) (month_days : list Z) (time_minutes anchor_at : Z)
    (timezone : rstr) : outcome NormalizedAutomationSchedule :=
  '(hour, minute) ← validate_time_minutes time_minutes;
  month_days ← normalize_u8_selection month_days 1 31 "monthDays";
  tz ← parse_timezone timezone;
  let by_month_day := join_numbers month_days in
  Ok (mkNormalized _
        (DtoCustom Monthly interval None (Some time_minutes) None (Some month_days) None anchor_at
           (tz_to_string tz))
        (wall_time_rrule "MONTHLY" interval None None (Some by_month_day) hour minute)
        tz anchor_at (RuleMonthly interval month_days time_minutes)).

Definition normalize_yearly (interval : Z) (months month_days : list Z)
    (time_minutes anchor_at : Z) (timezone : rstr) : outcome NormalizedAutomationSchedule :=
  '(hour, minute) ← validate_time_minutes time_minutes;
  months ← normalize_u8_selection months 1 12 "months";
  month_days ← normalize_u8_selection month_days 1 31 "monthDays";
  tz ← parse_timezone timezone;
  let by_month := join_numbers months in
  let by_month_day := join_numbers month_days in
  Ok (mkNormalized _
        (DtoCustom Yearly interval None (Some time_minutes) None (Some month_days) (Some months)
           anchor_at (tz_to_string tz))
        (wall_time_rrule "YEARLY" interval None (Some by_month) (Some by_month_day) hour minute)
        tz anchor_at (RuleYearly interval months month_days time_minutes)).

Definition normalize_interval (amount : Z) (unit : AutomationIntervalUnitDto) (anchor_at : Z)
    (timezone : rstr) : outcome NormalizedAutomationSchedule :=
  _ ← validate_positive amount "amount";
  _ ← validate_anchor anchor_at;
  tz ← parse_timezone timezone;
  let unit_ms := match unit with
                 | Minutes => MILLIS_PER_MINUTE | Hours => MILLIS_PER_HOUR | Days => MILLIS_PER_DAY
                 end in
  step_ms ← match checked_i64 (amount * unit_ms) with
            | Some step_ms => Ok step_ms
            | None => invalid_interval "interval is too large"
            end;
  let frequency := match unit with
                   | Minutes => "MINUTELY" | Hours => "HOURLY" | Days => "DAILY"
                   end%string in
  Ok (mkNormalized _ (DtoInterval amount unit anchor_at (tz_to_string tz))
        (rs "FREQ=" ++ rs frequency ++ rs ";INTERVAL=" ++ decimal amount)
        tz anchor_at (FixedInterval step_ms)).

Definition normalize_custom (frequency : AutomationCustomFrequencyDto) (interval : Z)
    (minute_of_hour time_minutes : option Z) (weekdays : option (list AutomationWeekdayDto))
    (month_days months : option (list Z)) (anchor_at : Z) (timezone : rstr)
    : outcome NormalizedAutomationSchedule :=
  _ ← validate_positive interval "interval";
  _ ← validate_anchor anchor_at;
  match frequency with
  | Hourly =>
      _ ← reject_present time_minutes "timeMinutes" "hourly";
      _ ← reject_present weekdays "weekdays" "hourly";
      _ ← reject_present month_days "monthDays" "hourly";
      _ ← reject_present months "months" "hourly";
      minute ← require minute_of_hour "minuteOfHour" "hourly";
      normalize_hourly interval minute anchor_at timezone
  | Daily =>
      _ ← reject_present minute_of_hour "minuteOfHour" "daily";
      _ ← reject_present weekdays "weekdays" "daily";
      _ ← reject_present month_days "monthDays" "daily";
      _ ← reject_present months "months" "daily";
      time ← require time_minutes "timeMinutes" "daily";
      normalize_daily interval time anchor_at timezone true
  | Weekly =>
      _ ← reject_present minute_of_hour "minuteOfHour" "weekly";
      _ ← reject_present month_days "monthDays" "weekly";
      _ ← reject_present months "months" "weekly";
      time ← require time_minutes "timeMinutes" "weekly";
      weekdays ← require weekdays "weekdays" "weekly";
      normalize_weekly interval weekdays time anchor_at timezone KindCustom
  | Monthly =>
      _ ← reject_present minute_of_hour "minuteOfHour" "monthly";
      _ ← reject_present weekdays "weekdays" "monthly";
      _ ← reject_present months "months" "monthly";
      time ← require time_minutes "timeMinutes" "monthly";
      days ← require month_days "monthDays" "monthly";
      normalize_monthly interval days time anchor_at timezone
  | Yearly =>
      _ ← reject_present minute_of_hour "minuteOfHour" "yearly";
      _ ← reject_present weekdays "weekdays" "yearly";
      time ← require time_minutes "timeMinutes" "yearly";
      days ← require month_days "monthDays" "yearly";
      months ← require months "months" "yearly";
      normalize_yearly interval months days time anchor_at timezone
  end.

Definition normalize_schedule (input : AutomationScheduleInputDto)
    : outcome NormalizedAutomationSchedule :=
  match input with
  | DtoInterval amount unit anchor_at timezone => normalize_interval amount unit anchor_at timezone
  | DtoDaily time_minutes anchor_at timezone =>
      normalize_daily 1%Z time_minutes anchor_at timezone false
  | DtoWeekdays time_minutes anchor_at timezone =>
      normalize_weekly 1%Z [Monday; Tuesday; Wednesday; Thursday; Friday] time_minutes anchor_at
        timezone KindWeekdays
  | DtoWeekly weekdays time_minutes anchor_at timezone =>
      normalize_weekly 1%Z weekdays time_minutes anchor_at timezone KindWeekly
  | DtoCustom frequency interval minute_of_hour time_minutes weekdays month_days months anchor_at
      timezone =>
      normalize_custom frequency interval minute_of_hour time_minutes weekdays month_days months
        anchor_at timezone
  end.

(** [NormalizedAutomationSchedule::summary] *)
Definition summary (s : NormalizedAutomationSchedule) : rstr := schedule_summary (schedule s).

(** ** The next run *)

(** [resolve_local_once]: the earlier instant of a fold; [None] in a gap. *)
Definition resolve_local_once (timezone : Tz) (local : Z) : option Z :=
  match from_local_datetime timezone local with
  | LocalSingle value => Some value
  | LocalAmbiguous first second => Some (first `min` second)%Z
  | LocalNone => None
  end.

(** [instant.with_timezone(&timezone).naive_local()], or [date_naive()]; the date and
    the hour of it. *)
Definition to_local (timezone : Tz) (instant : Z) : outcome Z :=
  match naive_local timezone instant with Some local => Ok local | None => Err Panic end.
Definition local_date (local : Z) : Z := (local / DAY_MS)%Z.
Definition hour_of (local : Z) : Z := ((local mod DAY_MS) / HOUR_MS)%Z.

(** [date.and_hms_opt(hour, minute, 0)] *)
Definition and_hms_opt (date hour minute : Z) : option Z :=
  match from_hms_opt hour minute with Some time => Some (date * DAY_MS + time)%Z | None => None end.

(** [date.checked_add_signed(duration)] of whole days, and of a [NaiveDateTime]. *)
Definition add_to_date (date duration : Z) : option Z :=
  let date := (date + duration `quot` DAY_MS)%Z in
  if ((min_date <=? date) && (date <=? max_date))%Z then Some date else None.
Definition add_to_datetime (local duration : Z) : option Z :=
  let local := (local + duration)%Z in
  if ((min_date * DAY_MS <=? local) && (local <? (max_date + 1) * DAY_MS))%Z
  then Some local else None.

Definition monday_of_week (date : Z) : outcome Z :=
  days ← duration (num_days_from_monday date) DAY_MS;
  in_range (add_to_date date (- days)).

Definition month_index (year month : Z) : Z := (year * 12 + (month - 1))%Z.

Definition year_month_from_index (index : Z) : outcome (Z * Z) :=
  let year := (index / 12)%Z in
  if ((- 2 ^ 31 <=? year) && (year <? 2 ^ 31))%Z then Ok (year, index mod 12 + 1)%Z
  else next_run_out_of_range.

Definition next_fixed_interval (anchor_at after_ms step_ms : Z) : outcome Z :=
  if (after_ms <? anchor_at)%Z then Ok anchor_at
  else
    elapsed ← in_range (checked_i64 (after_ms - anchor_at));
    quotient ← div_euclid elapsed step_ms;
    periods ← in_range (checked_i64 (quotient + 1));
    offset ← in_range (checked_i64 (periods * step_ms));
    candidate ← in_range (checked_i64 (anchor_at + offset));
    _ ← utc_from_ms candidate "nextRunAt" NextRunOutOfRange;
    Ok candidate.

(** [for x in xs { .. return Ok(..) .. }]: the first value the body returns with. *)
Fixpoint for_first {A} (xs : list A) (body : A → outcome (option Z)) : outcome (option Z) :=
  match xs with
  | [] => Ok None
  | x :: xs =>
      found ← body x;
      match found with Some value => Ok (Some value) | None => for_first xs body end
  end.

(** [for _ in 0..MAX_CALENDAR_SEARCH_PERIODS { .. period += interval }] *)
Fixpoint search_periods (n : nat) (interval : Z) (body : Z → outcome (option Z)) (period : Z)
    : outcome Z :=
  match n with
  | O => no_future_occurrence
  | S n =>
      found ← body period;
      match found with
      | Some value => Ok value
      | None =>
          next ← in_range (checked_i64 (period + interval));
          search_periods n interval body next
      end
  end.

(** [elapsed.div_euclid(interval) * interval] *)
Definition first_period (elapsed interval : Z) : outcome Z :=
  quotient ← div_euclid elapsed interval; Ok (quotient * interval)%Z.

Section Next.
Context (self : NormalizedAutomationSchedule).

Definition is_eligible (candidate_ms after_ms : Z) : bool :=
  ((anchor_at self <=? candidate_ms) && (after_ms <? candidate_ms))%Z.

(** A local time that is resolved and eligible is the next run. *)
Definition eligible_once (after_ms local : Z) : option Z :=
  match resolve_local_once (timezone self) local with
  | Some candidate => if is_eligible candidate after_ms then Some candidate else None
  | None => None
  end.

Definition anchor_utc : outcome Z := utc_from_ms (anchor_at self) "anchorAt" InvalidAnchor.

Definition threshold_of (after anchor : Z) : Z :=
  if (after <? anchor_at self)%Z then anchor else after.

Definition next_hourly (after interval minute_of_hour : Z) : outcome Z :=
  anchor ← anchor_utc;
  anchor_local ← to_local (timezone self) anchor;
  anchor_hour ← in_range (and_hms_opt (local_date anchor_local) (hour_of anchor_local) 0);
  threshold_local ← to_local (timezone self) (threshold_of after anchor);
  threshold_hour ← in_range (and_hms_opt (local_date threshold_local) (hour_of threshold_local) 0);
  let elapsed_hours := Z.max ((threshold_hour - anchor_hour) `quot` HOUR_MS) 0 in
  period ← first_period elapsed_hours interval;
  search_periods MAX_CALENDAR_SEARCH_PERIODS interval (λ period,
    hours ← duration period HOUR_MS;
    hour ← in_range (add_to_datetime anchor_hour hours);
    candidate ← in_range (and_hms_opt (local_date hour) (hour_of hour) minute_of_hour);
    Ok (eligible_once after candidate)) period.

Definition next_daily (after interval time_minutes : Z) : outcome Z :=
  anchor ← anchor_utc;
  anchor_local ← to_local (timezone self) anchor;
  let anchor_date := local_date anchor_local in
  threshold_local ← to_local (timezone self) (threshold_of after anchor);
  let threshold_date := local_date threshold_local in
  let elapsed_days := Z.max (threshold_date - anchor_date) 0 in
  period ← first_period elapsed_days interval;
  time ← time_from_minutes time_minutes;
  search_periods MAX_CALENDAR_SEARCH_PERIODS interval (λ period,
    days ← duration period DAY_MS;
    date ← in_range (add_to_date anchor_date days);
    Ok (eligible_once after (date * DAY_MS + time)%Z)) period.

Definition next_weekly (after interval : Z) (weekdays : list Z) (time_minutes : Z) : outcome Z :=
  anchor ← anchor_utc;
  anchor_local ← to_local (timezone self) anchor;
  anchor_week ← monday_of_week (local_date anchor_local);
  threshold_local ← to_local (timezone self) (threshold_of after anchor);
  let threshold_date := local_date threshold_local in
  let elapsed_weeks := Z.max ((threshold_date - anchor_week) / 7) 0 in
  period_week ← first_period elapsed_weeks interval;
  time ← time_from_minutes time_minutes;
  search_periods MAX_CALENDAR_SEARCH_PERIODS interval (λ period_week,
    weeks ← duration period_week (7 * DAY_MS);
    week ← in_range (add_to_date anchor_week weeks);
    for_first weekdays (λ weekday,
      days ← duration weekday DAY_MS;
      date ← in_range (add_to_date week days);
      Ok (eligible_once after (date * DAY_MS + time)%Z))) period_week.

Definition next_monthly (after interval : Z) (month_days : list Z) (time_minutes : Z)
    : outcome Z :=
  anchor ← anchor_utc;
  let anchor_local := local_clock (timezone self) anchor in
  let anchor_month := month_index (year (local_date anchor_local)) (month (local_date anchor_local)) in
  let threshold_local := local_clock (timezone self) (threshold_of after anchor) in
  let threshold_month :=
    month_index (year (local_date threshold_local)) (month (local_date threshold_local)) in
  let elapsed_months := Z.max (threshold_month - anchor_month) 0 in
  period ← first_period elapsed_months interval;
  time ← time_from_minutes time_minutes;
  search_periods MAX_CALENDAR_SEARCH_PERIODS interval (λ period,
    index ← in_range (checked_i64 (anchor_month + period));
    '(year, month) ← year_month_from_index index;
    for_first month_days (λ day,
      match from_ymd_opt year month day with
      | None => Ok None
      | Some date => Ok (eligible_once after (date * DAY_MS + time)%Z)
      end)) period.

Definition next_yearly (after interval : Z) (months month_days : list Z) (time_minutes : Z)
    : outcome Z :=
  anchor ← anchor_utc;
  let anchor_local := local_clock (timezone self) anchor in
  let anchor_year := year (local_date anchor_local) in
  let threshold_local := local_clock (timezone self) (threshold_of after anchor) in
  let threshold_year := year (local_date threshold_local) in
  let elapsed_years := Z.max (threshold_year - anchor_year) 0 in
  period ← first_period elapsed_years interval;
  time ← time_from_minutes time_minutes;
  search_periods MAX_CALENDAR_SEARCH_PERIODS interval (λ period,
    year ← in_range (checked_i64 (anchor_year + period));
    if ((- 2 ^ 31 <=? year) && (year <? 2 ^ 31))%Z then
      for_first months (λ month,
        for_first month_days (λ day,
          match from_ymd_opt year month day with
          | None => Ok None
          | Some date => Ok (eligible_once after (date * DAY_MS + time)%Z)
          end))
    else next_run_out_of_range) period.

Definition next_run_at_ms (after_ms : Z) : outcome Z :=
  after ← utc_from_ms after_ms "afterMs" InvalidAfter;
  match rule self with
  | FixedInterval step_ms => next_fixed_interval (anchor_at self) after_ms step_ms
  | RuleHourly interval minute_of_hour => next_hourly after interval minute_of_hour
  | RuleDaily interval time_minutes => next_daily after interval time_minutes
  | RuleWeekly interval weekdays time_minutes => next_weekly after interval weekdays time_minutes
  | RuleMonthly interval month_days time_minutes =>
      next_monthly after interval month_days time_minutes
  | RuleYearly interval months month_days time_minutes =>
      next_yearly after interval months month_days time_minutes
  end.
End Next.
End Schedule.
