(* ===== verification/AutomationNormal.v ===== *)
(** * Facts about schedules

    How computations end, and the search over calendar periods against the
    candidates of each period.

    After that: the normal form of a schedule. *)

From stdpp Require Import sorting.
From S2P Require Import Prelude RustText Chrono AutomationSchedule.

Open Scope Z_scope.

(** ** Outcomes *)

Lemma in_range_Ok {A} (o : option A) a : in_range o = Ok a ↔ o = Some a.
Proof. destruct o; unfold in_range, next_run_out_of_range, fail; split; congruence. Qed.

Lemma i64_ok_spec n : i64_ok n = true ↔ - 2 ^ 63 ≤ n < 2 ^ 63.
Proof. unfold i64_ok. rewrite andb_true_iff, Z.leb_le, Z.ltb_lt. done. Qed.

Lemma checked_i64_Some n m : checked_i64 n = Some m ↔ m = n ∧ - 2 ^ 63 ≤ n < 2 ^ 63.
Proof. rewrite <-i64_ok_spec. unfold checked_i64. destruct (i64_ok n); naive_solver. Qed.

Lemma checked_i64_None n : checked_i64 n = None ↔ ¬ (- 2 ^ 63 ≤ n < 2 ^ 63).
Proof. rewrite <-i64_ok_spec. unfold checked_i64. destruct (i64_ok n); naive_solver. Qed.

Lemma Ok_eq {E A} (a b : A) : @Ok E A a = Ok b → a = b.
Proof. by intros [= ->]. Qed.

Definition is_panic {A} (o : outcome A) : Prop := o = Err Panic.

Lemma bind_no_panic {A B} (o : outcome A) (k : A → outcome B) :
  ¬ is_panic o → (∀ a, o = Ok a → ¬ is_panic (k a)) → ¬ is_panic (o ≫= k).
Proof. unfold is_panic. destruct o as [a|f]; simpl; [eauto|congruence]. Qed.

Lemma in_range_no_panic {A} (o : option A) : ¬ is_panic (in_range o).
Proof. by destruct o. Qed.

Definition succeeds {A} (o : outcome A) : Prop := ∃ a, o = Ok a.

Lemma succeeds_bind {A B} (o : outcome A) (k : A → outcome B) :
  succeeds (o ≫= k) ↔ ∃ a, o = Ok a ∧ succeeds (k a).
Proof. unfold succeeds. setoid_rewrite bind_Ok. naive_solver. Qed.

Lemma succeeds_Ok {A} (a : A) : succeeds (Ok a) ↔ True.
Proof. unfold succeeds. naive_solver. Qed.

Lemma duration_Ok n unit_ms d : duration n unit_ms = Ok d ↔ d = n * unit_ms ∧ Z.abs (n * unit_ms) < 2 ^ 63.
Proof.
  unfold duration. destruct (Z.ltb_spec (Z.abs (n * unit_ms)) (2 ^ 63)).
  - split; [intros [= <-]; done|intros [-> _]; done].
  - split; [done|lia].
Qed.

Lemma duration_Err n unit_ms f : duration n unit_ms = Err f → f = Panic.
Proof. unfold duration. destruct (_ <? _); congruence. Qed.

Lemma div_euclid_Ok a b q : 0 < b → div_euclid a b = Ok q ↔ q = a / b.
Proof.
  intros Hb. unfold div_euclid. rewrite (proj2 (Z.eqb_neq b 0)) by lia.
  split; [intros [= <-]; done|intros ->; done].
Qed.

(** Opens every check of a computation that succeeded. *)
Ltac open_checks H :=
  repeat lazymatch type of H with
    | mbind _ _ = Ok _ =>
        let a := fresh "r" in let E := fresh "E" in
        apply bind_Ok in H as (a & E & H);
        lazymatch type of a with (_ * _)%type => destruct a | _ => idtac end;
        cbv beta iota in H
    end.
(** ** The search *)

Section Search.
Context (interval : Z) (body : Z → outcome (option Z)).

(** The [j]-th period that is searched. *)
Definition period_at (period : Z) (j : nat) : Z := period + Z.of_nat j * interval.

Lemma period_at_S period j : period_at (period + interval) j = period_at period (S j).
Proof. unfold period_at. lia. Qed.

Lemma search_Ok n period u :
  search_periods n interval body period = Ok u →
  ∃ k, (k < n)%nat ∧ body (period_at period k) = Ok (Some u)
    ∧ ∀ j, (j < k)%nat → body (period_at period j) = Ok None.
Proof.
  revert period. induction n as [|n IH]; intros period; simpl; [done|].
  destruct (body period) as [[v|]|f] eqn:E; simpl; [| |done].
  - intros [= <-]. exists 0%nat. unfold period_at. rewrite Z.add_0_r. split_and!; [lia|done|lia].
  - destruct (checked_i64 _) as [next|] eqn:Hn; simpl; [|done].
    apply checked_i64_Some in Hn as [-> _]. intros (k & Hk & Hu & Hj)%IH.
    exists (S k). rewrite <-period_at_S. split_and!; [lia|done|].
    intros [|j] Hjk; [unfold period_at; by rewrite Z.add_0_r|]. rewrite <-period_at_S. apply Hj. lia.
Qed.

(** How a search fails: in the body, by overflow, or at the end. *)
Lemma search_Err n period f :
  search_periods n interval body period = Err f →
  (∃ k, (k < n)%nat ∧ (∀ j, (j < k)%nat → body (period_at period j) = Ok None)
     ∧ (body (period_at period k) = Err f
        ∨ body (period_at period k) = Ok None ∧ ¬ (- 2 ^ 63 ≤ period_at period (S k) < 2 ^ 63)
          ∧ Err f = @next_run_out_of_range Z))
  ∨ Err f = @no_future_occurrence Z ∧ ∀ j, (j < n)%nat → body (period_at period j) = Ok None.
Proof.
  revert period. induction n as [|n IH]; intros period; simpl.
  { intros [= <-]. right. split; [done|lia]. }
  assert (period_at period 0 = period) as H0 by (unfold period_at; lia).
  destruct (body period) as [[v|]|g] eqn:E; simpl; [done| |].
  - destruct (checked_i64 _) as [next|] eqn:Hn; simpl.
    + apply checked_i64_Some in Hn as [-> _]. intros [(k & Hk & Hj & Hu)|[Hf Hj]]%IH.
      * left. exists (S k). rewrite !period_at_S in Hu. split_and!; [lia| |done].
        intros [|j] Hjk; [by rewrite H0|]. rewrite <-period_at_S. apply Hj. lia.
      * right. split; [done|]. intros [|j] Hjk; [by rewrite H0|]. rewrite <-period_at_S. apply Hj. lia.
    + apply checked_i64_None in Hn. intros [= <-]. left. exists 0%nat. rewrite H0.
      split_and!; [lia|lia|]. right. split_and!; [done| |done]. unfold period_at. lia.
  - intros [= <-]. left. exists 0%nat. rewrite H0. split_and!; [lia|lia|by left].
Qed.

(** A step from a period that was searched does not panic, if the body does not. *)
Lemma search_no_panic n period :
  0 ≤ interval → (∀ p o, 0 ≤ p → body p = Ok o → ¬ is_panic (body (p + interval))) →
  0 ≤ period → ¬ is_panic (body period) → ¬ is_panic (search_periods n interval body period).
Proof.
  intros Hi Hnext. revert period. induction n as [|n IH]; intros period Hp Hb; simpl; [done|].
  apply bind_no_panic; [done|]. intros [v|] E; [done|].
  apply bind_no_panic; [apply in_range_no_panic|]. intros next [-> _]%in_range_Ok%checked_i64_Some.
  apply IH; [lia|]. by eapply Hnext.
Qed.
End Search.

Section Eligible.
Context (eligible : Z → option Z).

(** The first eligible one of the candidates. *)
Definition first_eligible (candidates : list Z) : option Z := head (omap eligible candidates).

Lemma first_eligible_app l1 l2 :
  first_eligible (l1 ++ l2)
  = match first_eligible l1 with Some u => Some u | None => first_eligible l2 end.
Proof. unfold first_eligible. rewrite omap_app. by destruct (omap eligible l1). Qed.

Lemma first_eligible_Some l u :
  first_eligible l = Some u →
  ∃ l1 local l2, l = l1 ++ local :: l2 ∧ eligible local = Some u ∧ ∀ x, x ∈ l1 → eligible x = None.
Proof.
  induction l as [|x l IH]; [done|]. change (x :: l) with ([x] ++ l). rewrite first_eligible_app.
  unfold first_eligible at 1. simpl. destruct (eligible x) as [v|] eqn:E; simpl.
  - intros [= ->]. exists [], x, l. split_and!; [done..|]. intros y H. by apply elem_of_nil in H.
  - intros (l1 & local & l2 & -> & Hu & Hx)%IH. exists (x :: l1), local, l2.
    split_and!; [done..|]. intros y [->|Hy]%elem_of_cons; [done|by apply Hx].
Qed.

Lemma first_eligible_None l x : first_eligible l = None → x ∈ l → eligible x = None.
Proof.
  unfold first_eligible. intros H Hx. destruct (eligible x) as [u|] eqn:E; [|done]. exfalso.
  assert (u ∈ omap eligible l) as Hu by (apply list_elem_of_omap; eauto).
  destruct (omap eligible l); [by apply elem_of_nil in Hu|done].
Qed.

(** A loop over choices with their candidates. *)
Lemma for_first_Ok {A} (xs : list A) (body : A → outcome (option Z)) (candidates : A → list Z) o :
  (∀ x o', x ∈ xs → body x = Ok o' → o' = first_eligible (candidates x)) →
  for_first xs body = Ok o → o = first_eligible (xs ≫= candidates).
Proof.
  revert o. induction xs as [|x xs IH]; intros o Hb; simpl; [by intros [= <-]|].
  destruct (body x) as [o'|f] eqn:E; simpl; [|done].
  rewrite first_eligible_app. rewrite <-(Hb x o') by (done || by left). destruct o' as [u|]; [congruence|].
  apply IH. intros y o'' Hy. apply Hb. by right.
Qed.

(** A loop that fails has looked at everything before the choice it fails on. *)
Lemma for_first_Err {A} (xs : list A) (body : A → outcome (option Z)) f :
  for_first xs body = Err f →
  ∃ xs1 x xs2, xs = xs1 ++ x :: xs2 ∧ body x = Err f ∧ ∀ y, y ∈ xs1 → body y = Ok None.
Proof.
  induction xs as [|x xs IH]; simpl; [done|].
  destruct (body x) as [[u|]|g] eqn:E; simpl; [done| |].
  - intros (xs1 & y & xs2 & -> & Hy & Hn)%IH. exists (x :: xs1), y, xs2.
    split_and!; [done..|]. intros z [->|Hz]%elem_of_cons; [done|by apply Hn].
  - intros [= ->]. exists [], x, xs. split_and!; [done..|]. intros y H. by apply elem_of_nil in H.
Qed.

Lemma for_first_no_panic {A} (xs : list A) (body : A → outcome (option Z)) :
  (∀ x, x ∈ xs → ¬ is_panic (body x)) → ¬ is_panic (for_first xs body).
Proof.
  intros Hb H. apply for_first_Err in H as (xs1 & x & xs2 & -> & H & _).
  apply (Hb x); [|done]. apply elem_of_app. right. by left.
Qed.
End Eligible.

(** * The normal form of a schedule

    Which inputs [normalize_schedule] accepts, said without the order of its
    checks; the form of what it returns; and that the form is stable. *)

Open Scope Z_scope.

(** ** Widths *)

Definition unsigned (bits n : Z) : Prop := 0 ≤ n < 2 ^ bits.

Definition option_ok {A} (P : A → Prop) (o : option A) : Prop :=
  match o with Some a => P a | None => True end.

(** The machine integers of a DTO: u32 counts, u16 minutes of the day, u8 choices. *)
Definition dto_ok (input : AutomationScheduleInputDto) : Prop :=
  match input with
  | DtoInterval amount _ _ _ => unsigned 32 amount
  | DtoDaily time_minutes _ _ | DtoWeekdays time_minutes _ _
  | DtoWeekly _ time_minutes _ _ => unsigned 16 time_minutes
  | DtoCustom _ interval minute_of_hour time_minutes _ month_days months _ _ =>
      unsigned 32 interval ∧ option_ok (unsigned 8) minute_of_hour
      ∧ option_ok (unsigned 16) time_minutes
      ∧ option_ok (Forall (unsigned 8)) month_days ∧ option_ok (Forall (unsigned 8)) months
  end.

(** ** Ordered selections *)

Definition increasing : list Z → Prop := StronglySorted Z.lt.

Lemma ordered_increasing {A} (R : relation A) (f : A → Z) l :
  (∀ a b, R a b → a ≠ b → f a < f b) → ordered_set R l → increasing (f <$> l).
Proof.
  intros HR [Hs Hn]. induction l as [|a l IH]; simpl; [constructor|].
  inversion Hs as [|? ? Hs' Hf]; subst. apply NoDup_cons in Hn as [Ha Hn].
  constructor; [by apply IH|]. apply Forall_fmap, Forall_forall. intros b Hb. simpl.
  apply HR; [by eapply Forall_forall in Hf|]. by intros ->.
Qed.

#[export] Instance weekday_le_trans : Transitive weekday_le.
Proof. intros a b c. unfold weekday_le. lia. Qed.
#[export] Instance weekday_le_total : Total weekday_le.
Proof. intros a b. unfold weekday_le. lia. Qed.
#[export] Instance weekday_le_antisymm : AntiSymm (=) weekday_le.
Proof. intros [] []; unfold weekday_le; simpl; (done || lia). Qed.

Lemma weekdays_increasing l : ordered_set weekday_le l → increasing (to_chrono_weekday <$> l).
Proof. apply ordered_increasing. intros [] []; unfold weekday_le; simpl; (done || lia). Qed.

Lemma numbers_increasing l : ordered_set Z.le l → increasing l.
Proof.
  intros H. rewrite <-(list_fmap_id l). apply (ordered_increasing Z.le); [|done].
  simpl. intros a b. lia.
Qed.

Lemma Zeqb_eq (x y : Z) : Z.eqb x y = true ↔ x = y.
Proof. apply Z.eqb_eq. Qed.
Lemma weekday_eqb_eq (a b : AutomationWeekdayDto) : bool_decide (a = b) = true ↔ a = b.
Proof. apply bool_decide_eq_true. Qed.

Lemma normalize_weekdays_Ok l l' :
  normalize_weekdays l = Ok l' ↔
  l ≠ [] ∧ l' = sort_dedup (λ a b, bool_decide (a = b)) weekday_le l.
Proof. unfold normalize_weekdays, fail. case_bool_decide; naive_solver. Qed.

Definition selection_ok (minimum maximum : Z) (l : list Z) : Prop :=
  l ≠ [] ∧ ∀ x, x ∈ l → minimum ≤ x ≤ maximum.

Lemma normalize_u8_selection_Ok l lo hi field l' :
  normalize_u8_selection l lo hi field = Ok l' ↔
  selection_ok lo hi l ∧ l' = sort_dedup Z.eqb Z.le l.
Proof.
  unfold normalize_u8_selection, selection_ok, fail. case_bool_decide as Hl; [naive_solver|].
  destruct (existsb _ l) eqn:E.
  - split; [done|]. intros [[_ H] _]. apply existsb_true in E as (x & Hx & E).
    apply H in Hx. apply orb_true_iff in E as [E%Z.ltb_lt|E%Z.ltb_lt]; lia.
  - split; [|naive_solver]. intros [= <-]. split; [|done]. split; [done|].
    intros x Hx. eapply existsb_false in E; [|done]. apply orb_false_iff in E as [E1 E2].
    apply Z.ltb_ge in E1, E2. lia.
Qed.

(** ** Checks *)

Lemma validate_positive_Ok v field u : validate_positive v field = Ok u ↔ v ≠ 0.
Proof. unfold validate_positive, fail. destruct (Z.eqb_spec v 0), u; naive_solver. Qed.

Lemma validate_time_minutes_Ok t hm :
  validate_time_minutes t = Ok hm ↔ t < 1440 ∧ hm = (t / 60, t mod 60).
Proof. unfold validate_time_minutes, fail. destruct (Z.leb_spec (24 * 60) t);
  (split; [intros [= <-]|intros [? ->]]); (done || lia || (split; [lia|done])). Qed.

Lemma require_Ok {A} (o : option A) field frequency a : require o field frequency = Ok a ↔ o = Some a.
Proof. unfold require, fail. destruct o; naive_solver. Qed.

Lemma reject_present_Ok {A} (o : option A) field frequency u :
  reject_present o field frequency = Ok u ↔ o = None.
Proof. unfold reject_present, fail. destruct o, u; naive_solver. Qed.

Lemma from_hms_opt_minutes t : 0 ≤ t < 1440 → from_hms_opt (t / 60) (t mod 60) = Some (t * MINUTE_MS).
Proof.
  intros Ht. unfold from_hms_opt, HOUR_MS, MINUTE_MS.
  destruct (Z.ltb_spec (t / 60) 24), (Z.ltb_spec (t mod 60) 60); simpl;
    [|Z.to_euclidean_division_equations; lia..].
  f_equal. Z.to_euclidean_division_equations. lia.
Qed.

Lemma time_from_minutes_eq t : 0 ≤ t < 1440 → time_from_minutes t = Ok (t * MINUTE_MS).
Proof.
  intros Ht. unfold time_from_minutes.
  assert (validate_time_minutes t = Ok (t / 60, t mod 60)) as ->
    by (apply validate_time_minutes_Ok; split; [lia|done]).
  simpl. by rewrite from_hms_opt_minutes.
Qed.

Section Normal.
Context {chrono : Chrono}.

Definition anchor_valid (anchor_at : Z) : Prop := min_utc ≤ anchor_at ≤ max_utc.
Definition zone_named (name : rstr) (tz : Tz) : Prop :=
  trim name ≠ [] ∧ parse_tz (trim name) = Some tz.

Lemma utc_from_ms_Ok v field code u : utc_from_ms v field code = Ok u ↔ anchor_valid v ∧ u = v.
Proof.
  unfold utc_from_ms, anchor_valid, fail.
  destruct (Z.leb_spec min_utc v), (Z.leb_spec v max_utc); simpl; split;
    (intros [= <-]; done) || (intros [? ->]; done || lia).
Qed.

Lemma validate_anchor_Ok a u : validate_anchor a = Ok u ↔ anchor_valid a.
Proof.
  unfold validate_anchor. rewrite bind_Ok. setoid_rewrite utc_from_ms_Ok. destruct u; naive_solver.
Qed.

Lemma parse_timezone_Ok name tz : parse_timezone name = Ok tz ↔ zone_named name tz.
Proof.
  unfold parse_timezone, zone_named, fail. case_bool_decide; [naive_solver|].
  destruct (parse_tz _); naive_solver.
Qed.

(** ** Accepted inputs *)

Lemma succeeds_time {A} t (k : Z → Z → outcome A) :
  succeeds ('(hour, minute) ← validate_time_minutes t; k hour minute)
  ↔ t < 1440 ∧ succeeds (k (t / 60) (t mod 60)).
Proof.
  rewrite succeeds_bind. setoid_rewrite validate_time_minutes_Ok. split.
  - by intros (? & [? ->] & ?).
  - intros []. by eexists.
Qed.

(** What a schedule has to be for [normalize_schedule] to accept it. *)
Definition common_valid (anchor_at : Z) (timezone : rstr) : Prop :=
  anchor_valid anchor_at ∧ ∃ tz, zone_named timezone tz.

Definition custom_valid (frequency : AutomationCustomFrequencyDto)
    (minute_of_hour time_minutes : option Z) (weekdays : option (list AutomationWeekdayDto))
    (month_days months : option (list Z)) : Prop :=
  match frequency with
  | Hourly => (∃ m, minute_of_hour = Some m ∧ m ≤ 59)
      ∧ time_minutes = None ∧ weekdays = None ∧ month_days = None ∧ months = None
  | Daily => (∃ t, time_minutes = Some t ∧ t < 1440)
      ∧ minute_of_hour = None ∧ weekdays = None ∧ month_days = None ∧ months = None
  | Weekly => (∃ t, time_minutes = Some t ∧ t < 1440) ∧ (∃ l, weekdays = Some l ∧ l ≠ [])
      ∧ minute_of_hour = None ∧ month_days = None ∧ months = None
  | Monthly => (∃ t, time_minutes = Some t ∧ t < 1440)
      ∧ (∃ l, month_days = Some l ∧ selection_ok 1 31 l)
      ∧ minute_of_hour = None ∧ weekdays = None ∧ months = None
  | Yearly => (∃ t, time_minutes = Some t ∧ t < 1440)
      ∧ (∃ l, month_days = Some l ∧ selection_ok 1 31 l)
      ∧ (∃ l, months = Some l ∧ selection_ok 1 12 l) ∧ minute_of_hour = None ∧ weekdays = None
  end.

Definition valid (input : AutomationScheduleInputDto) : Prop :=
  match input with
  | DtoInterval amount _ anchor_at timezone => amount ≠ 0 ∧ common_valid anchor_at timezone
  | DtoDaily time_minutes anchor_at timezone | DtoWeekdays time_minutes anchor_at timezone =>
      time_minutes < 1440 ∧ common_valid anchor_at timezone
  | DtoWeekly weekdays time_minutes anchor_at timezone =>
      weekdays ≠ [] ∧ time_minutes < 1440 ∧ common_valid anchor_at timezone
  | DtoCustom frequency interval minute_of_hour time_minutes weekdays month_days months anchor_at
      timezone =>
      interval ≠ 0 ∧ common_valid anchor_at timezone
      ∧ custom_valid frequency minute_of_hour time_minutes weekdays month_days months
  end.

Ltac accept :=
  repeat (setoid_rewrite succeeds_time || setoid_rewrite succeeds_bind || setoid_rewrite succeeds_Ok
          || setoid_rewrite validate_positive_Ok || setoid_rewrite validate_anchor_Ok
          || setoid_rewrite parse_timezone_Ok
          || setoid_rewrite normalize_weekdays_Ok || setoid_rewrite normalize_u8_selection_Ok
          || setoid_rewrite require_Ok || setoid_rewrite reject_present_Ok).

Lemma normalize_hourly_accepts i m a n :
  succeeds (normalize_hourly i m a n) ↔ m ≤ 59 ∧ ∃ tz, zone_named n tz.
Proof.
  unfold normalize_hourly, fail. destruct (Z.ltb_spec 59 m).
  - unfold succeeds. split; [naive_solver|lia].
  - accept. naive_solver.
Qed.

Lemma normalize_daily_accepts i t a n c :
  succeeds (normalize_daily i t a n c) ↔ i ≠ 0 ∧ t < 1440 ∧ common_valid a n.
Proof. unfold normalize_daily, common_valid. accept. naive_solver. Qed.

Lemma normalize_weekly_accepts i l t a n k :
  succeeds (normalize_weekly i l t a n k) ↔ i ≠ 0 ∧ l ≠ [] ∧ t < 1440 ∧ common_valid a n.
Proof. unfold normalize_weekly, common_valid. accept. naive_solver. Qed.

Lemma normalize_monthly_accepts i l t a n :
  succeeds (normalize_monthly i l t a n) ↔ t < 1440 ∧ selection_ok 1 31 l ∧ ∃ tz, zone_named n tz.
Proof. unfold normalize_monthly. accept. naive_solver. Qed.

Lemma normalize_yearly_accepts i ms l t a n :
  succeeds (normalize_yearly i ms l t a n)
  ↔ t < 1440 ∧ selection_ok 1 12 ms ∧ selection_ok 1 31 l ∧ ∃ tz, zone_named n tz.
Proof. unfold normalize_yearly. accept. naive_solver. Qed.

(** A u32 number of days is less than 2^63 milliseconds. *)
Lemma interval_fits amount unit :
  unsigned 32 amount →
  let step := amount * match unit with
                       | Minutes => MILLIS_PER_MINUTE | Hours => MILLIS_PER_HOUR | Days => MILLIS_PER_DAY
                       end in
  checked_i64 step = Some step ∧ 0 ≤ step.
Proof.
  unfold unsigned. intros Hu. simpl. split.
  - apply checked_i64_Some. split; [done|].
    unfold MILLIS_PER_DAY, MILLIS_PER_HOUR, MILLIS_PER_MINUTE. destruct unit; lia.
  - unfold MILLIS_PER_DAY, MILLIS_PER_HOUR, MILLIS_PER_MINUTE. destruct unit; lia.
Qed.

Lemma normalize_interval_accepts amount unit a n :
  unsigned 32 amount →
  succeeds (normalize_interval amount unit a n) ↔ amount ≠ 0 ∧ common_valid a n.
Proof.
  intros Hu. unfold normalize_interval, common_valid. accept.
  rewrite (proj1 (interval_fits amount unit Hu)). accept. naive_solver.
Qed.

Lemma normalize_custom_accepts f i mh t ws ds ms a n :
  succeeds (normalize_custom f i mh t ws ds ms a n)
  ↔ i ≠ 0 ∧ common_valid a n ∧ custom_valid f mh t ws ds ms.
Proof.
  unfold normalize_custom, common_valid, custom_valid. destruct f; accept;
    try setoid_rewrite normalize_hourly_accepts; naive_solver.
Qed.

Lemma normalize_schedule_accepts input :
  dto_ok input → succeeds (normalize_schedule input) ↔ valid input.
Proof.
  destruct input; simpl; intros Hw.
  - by apply normalize_interval_accepts.
  - rewrite normalize_daily_accepts. naive_solver.
  - rewrite normalize_weekly_accepts. naive_solver.
  - rewrite normalize_weekly_accepts. naive_solver.
  - apply normalize_custom_accepts.
Qed.

(** ** What a normalised schedule is *)

Definition time_ok (time_minutes : Z) : Prop := 0 ≤ time_minutes < 1440.
Definition period_ok (interval : Z) : Prop := 0 < interval < 2 ^ 32.
Definition choices_ok (minimum maximum : Z) (l : list Z) : Prop :=
  increasing l ∧ selection_ok minimum maximum l.

Definition rule_ok (r : NormalizedRule) : Prop :=
  match r with
  | FixedInterval step_ms => 0 < step_ms < 2 ^ 63
  | RuleHourly interval minute => period_ok interval ∧ 0 ≤ minute < 60
  | RuleDaily interval time => period_ok interval ∧ time_ok time
  | RuleWeekly interval weekdays time => period_ok interval ∧ choices_ok 0 6 weekdays ∧ time_ok time
  | RuleMonthly interval days time => period_ok interval ∧ choices_ok 1 31 days ∧ time_ok time
  | RuleYearly interval months days time =>
      period_ok interval ∧ choices_ok 1 12 months ∧ choices_ok 1 31 days ∧ time_ok time
  end.

Definition schedule_ok (s : NormalizedAutomationSchedule) : Prop :=
  anchor_valid (anchor_at s) ∧ rule_ok (rule s).

Lemma weekdays_choices l :
  l ≠ [] →
  choices_ok 0 6 (to_chrono_weekday <$> sort_dedup (λ a b, bool_decide (a = b)) weekday_le l).
Proof.
  intros Hl. split; [|split].
  - apply weekdays_increasing, sort_dedup_ordered; [apply _..|apply weekday_eqb_eq].
  - intros E%fmap_nil_inv. by apply (sort_dedup_nil _ _ weekday_eqb_eq) in E.
  - intros x (d & -> & _)%list_elem_of_fmap. destruct d; simpl; lia.
Qed.

Lemma numbers_choices lo hi l : selection_ok lo hi l → choices_ok lo hi (sort_dedup Z.eqb Z.le l).
Proof.
  intros [Hl Hx]. split; [|split].
  - apply numbers_increasing, sort_dedup_ordered; [apply _..|apply Zeqb_eq].
  - intros E. by apply (sort_dedup_nil _ _ Zeqb_eq) in E.
  - intros x Hd. apply (sort_dedup_elem _ _ Zeqb_eq) in Hd. by apply Hx.
Qed.

Ltac open_selections :=
  repeat match goal with
    | E : normalize_u8_selection _ _ _ _ = Ok _ |- _ =>
        let Hs := fresh "Hs" in apply normalize_u8_selection_Ok in E as [Hs ->]
    end.
Ltac inv_checks H := open_checks H; apply Ok_eq in H as <-.

Lemma positive_period i u field : unsigned 32 i → validate_positive i field = Ok u → period_ok i.
Proof. rewrite validate_positive_Ok. unfold unsigned, period_ok. lia. Qed.

Lemma valid_time t hm : unsigned 16 t → validate_time_minutes t = Ok hm → time_ok t.
Proof. rewrite validate_time_minutes_Ok. unfold unsigned, time_ok. lia. Qed.

Lemma normalize_daily_ok i t a n c s :
  unsigned 32 i → unsigned 16 t → normalize_daily i t a n c = Ok s → schedule_ok s.
Proof.
  intros Hi Ht H. unfold normalize_daily in H. inv_checks H. split; simpl.
  - by eapply validate_anchor_Ok.
  - eauto using positive_period, valid_time.
Qed.

Lemma normalize_weekly_ok i l t a n k s :
  unsigned 32 i → unsigned 16 t → normalize_weekly i l t a n k = Ok s → schedule_ok s.
Proof.
  intros Hi Ht H. unfold normalize_weekly in H. inv_checks H. split; simpl.
  - by eapply validate_anchor_Ok.
  - apply normalize_weekdays_Ok in E3 as [Hl ->].
    split_and!; eauto using positive_period, valid_time, weekdays_choices.
Qed.

Lemma normalize_custom_ok f i mh t ws ds ms a n s :
  dto_ok (DtoCustom f i mh t ws ds ms a n) →
  normalize_custom f i mh t ws ds ms a n = Ok s → schedule_ok s.
Proof.
  intros (Hi & Hmh & Ht & _) H. unfold normalize_custom in H.
  apply bind_Ok in H as (u & E & H). apply bind_Ok in H as (v & Ea%validate_anchor_Ok & H).
  pose proof (positive_period _ _ _ Hi E) as Hp. destruct f;
    open_checks H;
    repeat match goal with
      | E' : require ?o _ _ = Ok _ |- _ => apply require_Ok in E'; subst o
      end; simpl in Hmh, Ht.
  - unfold normalize_hourly in H. destruct (Z.ltb_spec 59 r3); [done|]. inv_checks H.
    split; [done|]. split; [done|]. unfold unsigned in Hmh. lia.
  - by eapply normalize_daily_ok.
  - by eapply normalize_weekly_ok.
  - unfold normalize_monthly in H. inv_checks H.
    open_selections. split; [done|]. split_and!; eauto using valid_time, numbers_choices.
  - unfold normalize_yearly in H. inv_checks H.
    open_selections. split; [done|]. split_and!; eauto using valid_time, numbers_choices.
Qed.

Lemma normalize_schedule_ok input s :
  dto_ok input → normalize_schedule input = Ok s → schedule_ok s.
Proof.
  assert (unsigned 32 1) as H1 by (unfold unsigned; lia).
  destruct input as [amount unit a n|t a n|t a n|l t a n|f i mh t ws ds ms a n]; simpl; intros Hw H.
  - unfold normalize_interval in H. inv_checks H. split; [by eapply validate_anchor_Ok|]. simpl.
    destruct (interval_fits amount unit Hw) as [Hc H0]. rewrite Hc in E2. injection E2 as <-.
    apply checked_i64_Some in Hc as [_ Hc]. apply validate_positive_Ok in E.
    split; [|lia]. revert H0. unfold MILLIS_PER_DAY, MILLIS_PER_HOUR, MILLIS_PER_MINUTE.
    destruct unit; lia.
  - by eapply normalize_daily_ok.
  - by eapply normalize_weekly_ok.
  - by eapply normalize_weekly_ok.
  - by eapply normalize_custom_ok.
Qed.

(** ** Errors *)

Lemma fail_no_panic {A} code field message : ¬ is_panic (@fail A code field message).
Proof. done. Qed.

Ltac no_panic :=
  repeat match goal with
    | |- ¬ is_panic (mbind _ _) => apply bind_no_panic
    | |- ∀ _, _ => intro
    | |- ¬ is_panic (Ok _) => done
    | |- ¬ is_panic (fail _ _ _) => done
    | |- ¬ is_panic (in_range _) => apply in_range_no_panic
    | |- ¬ is_panic (let '(_, _) := ?p in _) => destruct p
    | |- ¬ is_panic (if ?b then _ else _) => destruct b
    | |- ¬ is_panic (match ?o with Some _ => _ | None => _ end) => destruct o
    end.

Lemma validate_positive_no_panic v field : ¬ is_panic (validate_positive v field).
Proof. unfold validate_positive. no_panic. Qed.
Lemma utc_from_ms_no_panic v field code : ¬ is_panic (utc_from_ms v field code).
Proof. unfold utc_from_ms. no_panic. Qed.
Lemma validate_anchor_no_panic a : ¬ is_panic (validate_anchor a).
Proof. unfold validate_anchor. no_panic. apply utc_from_ms_no_panic. Qed.
Lemma validate_time_minutes_no_panic t : ¬ is_panic (validate_time_minutes t).
Proof. unfold validate_time_minutes. no_panic. Qed.
Lemma parse_timezone_no_panic n : ¬ is_panic (parse_timezone n).
Proof. unfold parse_timezone. no_panic. Qed.
Lemma normalize_weekdays_no_panic l : ¬ is_panic (normalize_weekdays l).
Proof. unfold normalize_weekdays. no_panic. Qed.
Lemma normalize_u8_selection_no_panic l lo hi field : ¬ is_panic (normalize_u8_selection l lo hi field).
Proof. unfold normalize_u8_selection. no_panic. Qed.
Lemma require_no_panic {A} (o : option A) field frequency : ¬ is_panic (require o field frequency).
Proof. unfold require. no_panic. Qed.
Lemma reject_present_no_panic {A} (o : option A) field frequency :
  ¬ is_panic (reject_present o field frequency).
Proof. unfold reject_present. no_panic. Qed.
#[local] Hint Resolve validate_positive_no_panic validate_anchor_no_panic
  validate_time_minutes_no_panic parse_timezone_no_panic normalize_weekdays_no_panic
  normalize_u8_selection_no_panic require_no_panic reject_present_no_panic : captain.

Lemma normalize_schedule_no_panic input : ¬ is_panic (normalize_schedule input).
Proof.
  destruct input as [amount unit a n|t a n|t a n|l t a n|f i mh t ws ds ms a n];
    [|..|destruct f]; unfold normalize_schedule, normalize_interval, normalize_custom,
    normalize_hourly, normalize_daily, normalize_weekly, normalize_monthly, normalize_yearly,
    invalid_interval; no_panic; auto with captain.
Qed.

(** ** Normalising again *)

Context {laws : ChronoLaws}.

Lemma parse_own_name tz : parse_timezone (tz_to_string tz) = Ok tz.
Proof.
  apply parse_timezone_Ok. unfold zone_named. rewrite tz_name_trimmed, parse_tz_to_string.
  split; [apply tz_name_nonempty|done].
Qed.

Lemma weekdays_again l l' : normalize_weekdays l = Ok l' → normalize_weekdays l' = Ok l'.
Proof.
  intros [Hl ->]%normalize_weekdays_Ok. apply normalize_weekdays_Ok. split.
  - by intros ?%(sort_dedup_nil _ _ weekday_eqb_eq).
  - symmetry. apply sort_dedup_id; [apply _..|apply weekday_eqb_eq|].
    apply sort_dedup_ordered; [apply _..|apply weekday_eqb_eq].
Qed.

Lemma selection_again l lo hi field l' :
  normalize_u8_selection l lo hi field = Ok l' → normalize_u8_selection l' lo hi field = Ok l'.
Proof.
  intros [Hl ->]%normalize_u8_selection_Ok. apply normalize_u8_selection_Ok. split.
  - by apply numbers_choices.
  - symmetry. apply sort_dedup_id; [apply _..|apply Zeqb_eq|].
    apply sort_dedup_ordered; [apply _..|apply Zeqb_eq].
Qed.

(** Redoes the checks that are known to have succeeded. *)
Ltac redo_checks :=
  repeat match goal with
    | E : normalize_weekdays ?l = Ok ?l' |- context [mbind _ (normalize_weekdays ?l')] =>
        rewrite (weekdays_again _ _ E); cbn [mbind result_bind]
    | E : normalize_u8_selection ?l ?lo ?hi ?f = Ok ?l'
      |- context [mbind _ (normalize_u8_selection ?l' ?lo ?hi ?f)] =>
        rewrite (selection_again _ _ _ _ _ E); cbn [mbind result_bind]
    | E : ?check = Ok _ |- context [mbind _ ?check] => rewrite E; cbn [mbind result_bind]
    | |- context [mbind _ (reject_present None _ _)] => cbn [reject_present mbind result_bind]
    | |- context [mbind _ (require (Some _) _ _)] => cbn [require mbind result_bind]
    | |- context [parse_timezone (tz_to_string ?tz)] =>
        rewrite (parse_own_name tz); cbn [mbind result_bind]
    end.

Lemma normalize_interval_again amount unit a n s :
  normalize_interval amount unit a n = Ok s → normalize_schedule (schedule s) = Ok s.
Proof.
  intros H. unfold normalize_interval in H. inv_checks H.
  cbn [schedule normalize_schedule]. unfold normalize_interval. by redo_checks.
Qed.

Lemma normalize_daily_again i t a n c s :
  normalize_daily i t a n c = Ok s → (c = false → i = 1) → normalize_schedule (schedule s) = Ok s.
Proof.
  intros H Hc. unfold normalize_daily in H. inv_checks H. cbn [schedule]. destruct c.
  - cbn [normalize_schedule]. unfold normalize_custom.
    redo_checks. unfold normalize_daily. by redo_checks.
  - rewrite Hc in * by done. cbn [normalize_schedule]. unfold normalize_daily. by redo_checks.
Qed.

Lemma normalize_weekly_again i l t a n k s :
  normalize_weekly i l t a n k = Ok s → (k ≠ KindCustom → i = 1) →
  (k = KindWeekdays → l = [Monday; Tuesday; Wednesday; Thursday; Friday]) →
  normalize_schedule (schedule s) = Ok s.
Proof.
  intros H Hi Hl. unfold normalize_weekly in H. inv_checks H. cbn [schedule]. destruct k.
  - rewrite Hi in * by done. rewrite Hl in * by done.
    cbn [normalize_schedule]. unfold normalize_weekly. by redo_checks.
  - rewrite Hi in * by done. cbn [normalize_schedule]. unfold normalize_weekly. by redo_checks.
  - cbn [normalize_schedule]. unfold normalize_custom.
    redo_checks. unfold normalize_weekly. by redo_checks.
Qed.

Lemma normalize_custom_again f i mh t ws ds ms a n s :
  normalize_custom f i mh t ws ds ms a n = Ok s → normalize_schedule (schedule s) = Ok s.
Proof.
  intros H. unfold normalize_custom in H. destruct f; open_checks H.
  2: by eapply normalize_daily_again. 2: by eapply normalize_weekly_again.
  - unfold normalize_hourly in H. destruct (59 <? _) eqn:Em; [done|]. inv_checks H.
    cbn [schedule normalize_schedule]. unfold normalize_custom.
    redo_checks. unfold normalize_hourly. rewrite Em. by redo_checks.
  - unfold normalize_monthly in H. inv_checks H.
    cbn [schedule normalize_schedule]. unfold normalize_custom.
    redo_checks. unfold normalize_monthly. by redo_checks.
  - unfold normalize_yearly in H. inv_checks H.
    cbn [schedule normalize_schedule]. unfold normalize_custom.
    redo_checks. unfold normalize_yearly. by redo_checks.
Qed.

Lemma normalize_schedule_again input s :
  normalize_schedule input = Ok s → normalize_schedule (schedule s) = Ok s.
Proof.
  destruct input as [amount unit a n|t a n|t a n|l t a n|f i mh t ws ds ms a n].
  - apply normalize_interval_again.
  - intros H. by eapply normalize_daily_again.
  - intros H. by eapply normalize_weekly_again.
  - intros H. by eapply normalize_weekly_again.
  - apply normalize_custom_again.
Qed.
End Normal.
