(* ===== verification/AutomationGrid.v ===== *)
(** * Occurrences of a schedule

    The occurrences of a normalised schedule, said without a search: the local
    times that its rule selects in the periods of its grid, each at the first
    instant at which the clock shows it; and that a search over periods which
    visits the selected times of each period in order finds the first of them. *)

From stdpp Require Import sorting.
From S2P Require Import Prelude RustText Chrono AutomationSchedule AutomationNormal.

Open Scope Z_scope.

Section Grid.
Context {chrono : Chrono}.

(** The period of the grid a local time is in: hour, day, week from Monday, month
    or year.  Fixed intervals do not look at the clock. *)
Definition grid (r : NormalizedRule) (local : Z) : Z :=
  match r with
  | FixedInterval _ => 0
  | RuleHourly _ _ => local / HOUR_MS
  | RuleDaily _ _ => local / DAY_MS
  | RuleWeekly _ _ _ => (local / DAY_MS + 3) / 7
  | RuleMonthly _ _ _ => month_number (local / DAY_MS)
  | RuleYearly _ _ _ _ => year (local / DAY_MS)
  end.

Definition rule_interval (r : NormalizedRule) : Z :=
  match r with
  | FixedInterval step_ms => step_ms
  | RuleHourly interval _ | RuleDaily interval _ | RuleWeekly interval _ _
  | RuleMonthly interval _ _ | RuleYearly interval _ _ _ => interval
  end.

(** The local times a rule selects in a period. *)
Definition selects (r : NormalizedRule) (local : Z) : Prop :=
  match r with
  | FixedInterval _ => False
  | RuleHourly _ minute => local mod HOUR_MS = minute * MINUTE_MS
  | RuleDaily _ time => local mod DAY_MS = time * MINUTE_MS
  | RuleWeekly _ weekdays time =>
      local mod DAY_MS = time * MINUTE_MS ∧ (local / DAY_MS + 3) mod 7 ∈ weekdays
  | RuleMonthly _ days time =>
      local mod DAY_MS = time * MINUTE_MS ∧ day (local / DAY_MS) ∈ days
  | RuleYearly _ months days time =>
      local mod DAY_MS = time * MINUTE_MS ∧ month (local / DAY_MS) ∈ months
      ∧ day (local / DAY_MS) ∈ days
  end.

(** [u] is the occurrence for the local time [local]: the clock shows it first at
    [u], not before the anchor, in every [interval]-th period from the anchor's. *)
Definition occurs (s : NormalizedAutomationSchedule) (local u : Z) : Prop :=
  earliest (from_local_datetime (timezone s) local) = Some u ∧ anchor_at s ≤ u
  ∧ selects (rule s) local
  ∧ (grid (rule s) local - grid (rule s) (local_clock (timezone s) (anchor_at s)))
      mod rule_interval (rule s) = 0.

Definition occurrence (s : NormalizedAutomationSchedule) (u : Z) : Prop :=
  match rule s with
  | FixedInterval step_ms => u ≤ max_utc ∧ ∃ k, 0 ≤ k ∧ u = anchor_at s + k * step_ms
  | _ => ∃ local, occurs s local u
  end.

Definition first_occurrence_after (s : NormalizedAutomationSchedule) (after u : Z) : Prop :=
  occurrence s u ∧ after < u ∧ ∀ u', occurrence s u' → after < u' → u ≤ u'.

Definition local_ok (local : Z) : Prop := date_ok (local / DAY_MS).
Definition clock_ok (local : Z) : Prop := clock_date_ok (local / DAY_MS).

Definition calendar (r : NormalizedRule) : Prop := ∀ step_ms, r ≠ FixedInterval step_ms.

Context {laws : ChronoLaws}.

Lemma local_ok_between a b c : local_ok a → local_ok c → a ≤ b ≤ c → local_ok b.
Proof. unfold local_ok, date_ok, DAY_MS. intros. Z.to_euclidean_division_equations. lia. Qed.

Lemma local_clock_ok local : local_ok local → clock_ok local.
Proof. unfold local_ok, clock_ok, date_ok, clock_date_ok. lia. Qed.

Lemma instant_clock_ok tz t : anchor_valid t → clock_ok (local_clock tz t).
Proof.
  unfold anchor_valid, clock_ok, clock_date_ok. intros Ht. pose proof (offset_bound tz t).
  pose proof utc_range. unfold DAY_MS in *. Z.to_euclidean_division_equations. lia.
Qed.

Lemma year_month_number date : clock_date_ok date → year date = month_number date / 12.
Proof.
  intros H. pose proof (month_range date H). unfold month_number.
  Z.to_euclidean_division_equations. lia.
Qed.

Lemma month_month_number date : clock_date_ok date → month date = month_number date mod 12 + 1.
Proof.
  intros H. pose proof (month_range date H). unfold month_number.
  Z.to_euclidean_division_equations. lia.
Qed.

Lemma grid_mono r a b : clock_ok a → clock_ok b → a ≤ b → grid r a ≤ grid r b.
Proof.
  unfold clock_ok. intros Ha Hb Hab.
  assert (a / DAY_MS ≤ b / DAY_MS) as Hd by (apply Z.div_le_mono; [done|lia]).
  destruct r; simpl; [lia|apply Z.div_le_mono; [done|lia]|done|apply Z.div_le_mono; lia| |].
  - by apply month_number_mono.
  - rewrite !year_month_number by done. apply Z.div_le_mono; [done|]. by apply month_number_mono.
Qed.

(** Later periods come later. *)
Lemma grid_lt r a b : clock_ok a → clock_ok b → grid r a < grid r b → a < b.
Proof. intros Ha Hb H. destruct (Z.lt_ge_cases a b) as [|Hge]; [done|]. pose proof (grid_mono r b a Hb Ha). lia. Qed.

Lemma local_bound local : clock_ok local → - 2 ^ 27 - 1 ≤ local / DAY_MS ≤ 2 ^ 27 + 1.
Proof. unfold clock_ok, clock_date_ok. pose proof date_range. lia. Qed.

Lemma grid_bound r local : clock_ok local → - 2 ^ 61 < grid r local < 2 ^ 61.
Proof.
  intros H. pose proof (local_bound local H) as Hd. unfold clock_ok in H.
  pose proof (year_fits (local / DAY_MS) H) as Hy.
  pose proof (month_range (local / DAY_MS) H) as Hm.
  destruct r; simpl; try lia.
  - unfold DAY_MS, HOUR_MS in *. Z.to_euclidean_division_equations. lia.
  - Z.to_euclidean_division_equations. lia.
  - unfold month_number. lia.
Qed.

Lemma shown_local_ok tz local u : earliest (from_local_datetime tz local) = Some u → local_ok local.
Proof. by intros [_ H]%from_local_shows. Qed.

(** Every clock time that occurs after an instant is later than what the clock
    shows at it; and a later clock time occurs later. *)
Lemma shown_after tz local u t :
  earliest (from_local_datetime tz local) = Some u → t ≤ u → local_clock tz t ≤ local.
Proof.
  intros Hu Hle. destruct (Z.lt_ge_cases local (local_clock tz t)) as [Hlt|]; [|done].
  pose proof (from_local_order tz local u t Hu ltac:(lia)).
  apply from_local_shows in Hu as [Hu _]. assert (t = u) as -> by lia. lia.
Qed.

Lemma shown_order tz local u local' u' :
  earliest (from_local_datetime tz local) = Some u →
  earliest (from_local_datetime tz local') = Some u' → local ≤ local' → u ≤ u'.
Proof. intros Hu [Hu' _]%from_local_shows Hle. eapply from_local_order; [done|lia]. Qed.

(** ** Walks over the grid *)

Section Walk.
Context (s : NormalizedAutomationSchedule) (after anchor_local threshold_local : Z).
Abbreviation r := (rule s).
Abbreviation eligible := (eligible_once s after).

(** What the body of a search does in the period [p] from the anchor's: the
    selected times in order, as far as there are days for them. *)
Record walk (body : Z → outcome (option Z)) : Prop := {
  walk_Ok p o :
    0 ≤ p → body p = Ok o →
    ∃ times, o = first_eligible eligible times ∧ increasing times
      ∧ ∀ local, local ∈ times ↔ local_ok local ∧ selects r local ∧ grid r local = grid r anchor_local + p;
  walk_Err p f :
    0 ≤ p → body p = Err f → f ≠ Panic →
    Err f = @next_run_out_of_range Z
    ∧ ∀ local, local_ok local → selects r local → grid r anchor_local + p ≤ grid r local →
        eligible local = None;
}.

Context (body : Z → outcome (option Z)) (Hwalk : walk body).
Context (Hcalendar : ∀ step_ms, r ≠ FixedInterval step_ms).
Context (Hinterval : 0 < rule_interval r < 2 ^ 32).
Context (Hvalid : anchor_valid (anchor_at s)) (Hinstant : anchor_valid after).
Context (Hanchor : local_clock (timezone s) (anchor_at s) = anchor_local).
Context (Hthreshold : local_clock (timezone s) (threshold_of s after (anchor_at s)) = threshold_local).

Lemma anchor_clock_ok : clock_ok anchor_local.
Proof using Hanchor Hvalid laws. rewrite <-Hanchor. by apply instant_clock_ok. Qed.

Lemma threshold_clock_ok : clock_ok threshold_local.
Proof using Hthreshold Hvalid Hinstant laws.
  rewrite <-Hthreshold. apply instant_clock_ok. unfold threshold_of. by destruct (_ <? _).
Qed.

Definition start_period : Z :=
  Z.max (grid r threshold_local - grid r anchor_local) 0 / rule_interval r * rule_interval r.
Abbreviation visited := (period_at (rule_interval r) start_period).

Lemma start_period_bounds :
  0 ≤ start_period ∧ grid r threshold_local - grid r anchor_local - rule_interval r < start_period
  ∧ start_period ≤ Z.max (grid r threshold_local - grid r anchor_local) 0.
Proof using Hinterval.
  unfold start_period. set (d := grid r threshold_local - grid r anchor_local).
  pose proof (Z.mod_bound_pos (Z.max d 0) (rule_interval r) ltac:(lia) ltac:(lia)) as Hm.
  rewrite Z.mod_eq in Hm by lia. pose proof (Z.div_pos (Z.max d 0) (rule_interval r)). nia.
Qed.

Lemma visited_nonneg j : 0 ≤ visited j.
Proof using Hinterval. pose proof start_period_bounds. unfold period_at. lia. Qed.

Lemma occurrence_calendar u : occurrence s u ↔ ∃ local, occurs s local u.
Proof using Hcalendar.
  unfold occurrence. clear -Hcalendar. destruct (rule s) as [step_ms| | | | |]; [|done..].
  by destruct (Hcalendar step_ms).
Qed.

Lemma eligible_once_Some local u :
  eligible local = Some u ↔
  earliest (from_local_datetime (timezone s) local) = Some u ∧ anchor_at s ≤ u ∧ after < u.
Proof.
  unfold eligible_once, resolve_local_once.
  change (match from_local_datetime (timezone s) local with
          | LocalNone => None | LocalSingle value => Some value
          | LocalAmbiguous first second => Some (first `min` second) end)
    with (earliest (from_local_datetime (timezone s) local)).
  destruct (earliest _) as [v|]; [|naive_solver]. unfold is_eligible.
  destruct (Z.leb_spec (anchor_at s) v), (Z.ltb_spec after v); simpl; naive_solver lia.
Qed.

(** An occurrence after the instant is in a period that is visited. *)
Lemma occurs_visited local u :
  occurs s local u → after < u →
  eligible local = Some u ∧ local_ok local
  ∧ ∃ j : nat, grid r local = grid r anchor_local + visited j.
Proof using All.
  intros (Hu & Ha & Hs & Hm) Hlater. rewrite Hanchor in Hm.
  pose proof (shown_local_ok _ _ _ Hu) as Hl.
  split; [by apply eligible_once_Some|]. split; [done|].
  assert (grid r anchor_local ≤ grid r local) as H0.
  { apply grid_mono; [apply anchor_clock_ok|by apply local_clock_ok|].
    rewrite <-Hanchor. by eapply shown_after. }
  assert (grid r threshold_local ≤ grid r local) as Ht.
  { apply grid_mono; [apply threshold_clock_ok|by apply local_clock_ok|].
    rewrite <-Hthreshold. eapply shown_after; [done|].
    unfold threshold_of. destruct (_ <? _); lia. }
  set (d := grid r local - grid r anchor_local) in *. set (i := rule_interval r) in *.
  exists (Z.to_nat ((d - start_period) / i)).
  assert (start_period ≤ d) as Hd.
  { unfold start_period. fold i.
    assert (Z.max (grid r threshold_local - grid r anchor_local) 0 / i ≤ d / i) as Hq
      by (apply Z.div_le_mono; unfold d; lia).
    pose proof (Z.mod_eq d i ltac:(lia)). nia. }
  assert ((d - start_period) / i * i = d - start_period) as He.
  { unfold start_period in *. fold i in Hd |- *.
    set (q := Z.max (grid r threshold_local - grid r anchor_local) 0 / i) in *.
    assert (d = d / i * i) as Hdi by (pose proof (Z.mod_eq d i ltac:(lia)); lia).
    rewrite Hdi, <-Z.mul_sub_distr_r, Z.div_mul by lia. done. }
  unfold period_at. rewrite Z2Nat.id, He by (apply Z.div_pos; lia). lia.
Qed.

(** A period whose body found nothing has no time that is eligible. *)
Lemma walk_nothing p local :
  0 ≤ p → body p = Ok None → local_ok local → selects r local →
  grid r local = grid r anchor_local + p → eligible local = None.
Proof using Hwalk.
  intros Hp Hb Hl Hs Hg. destruct (walk_Ok _ Hwalk p None Hp Hb) as (times & Hf & _ & Hin).
  eapply first_eligible_None; [done|]. by apply Hin.
Qed.

Lemma search_first n u :
  search_periods n (rule_interval r) body start_period = Ok u → first_occurrence_after s after u.
Proof using All.
  intros (k & _ & Hb & Hprev)%search_Ok.
  destruct (walk_Ok _ Hwalk _ _ (visited_nonneg k) Hb) as (times & Hf & Hinc & Hin).
  symmetry in Hf. apply first_eligible_Some in Hf as (before & local & rest & -> & Hu & Hbefore).
  pose proof (proj1 (eligible_once_Some local u) Hu) as (Hshown & Ha & Hlater).
  assert (local_ok local ∧ selects r local ∧ grid r local = grid r anchor_local + visited k)
    as (Hl & Hs & Hg) by (apply Hin, elem_of_app; right; by left).
  split; [|split; [done|]].
  - apply occurrence_calendar. exists local. split_and!; [done..|].
    rewrite Hanchor, Hg. unfold period_at, start_period.
    rewrite Z.add_simpl_l, <-Z.mul_add_distr_r. apply Z.mod_mul. lia.
  - intros u' Hocc Hafter'. apply occurrence_calendar in Hocc as [local' Hocc].
    pose proof Hocc as (Hshown' & _ & Hs' & _).
    destruct (occurs_visited _ _ Hocc Hafter') as (He' & Hl' & j & Hg').
    eapply shown_order; [done..|].
    destruct (lt_eq_lt_dec j k) as [[Hjk| ->]|Hkj].
    + exfalso. apply Hprev in Hjk. pose proof (walk_nothing _ _ (visited_nonneg j) Hjk Hl' Hs' Hg').
      congruence.
    + assert (local' ∈ before ++ local :: rest) as Hi by by apply Hin.
      apply elem_of_app in Hi as [Hi|Hi]; [apply Hbefore in Hi; congruence|].
      apply elem_of_cons in Hi as [->|Hi]; [done|].
      unfold increasing in Hinc. rewrite StronglySorted_app, StronglySorted_cons in Hinc.
      destruct Hinc as (_ & _ & Hrest & _). eapply Forall_forall in Hrest; [|done]. lia.
    + apply Z.lt_le_incl, (grid_lt r); [by apply local_clock_ok..|]. rewrite Hg, Hg'. unfold period_at. nia.
Qed.

(** Every occurrence that remains is in a period after those searched. *)
Lemma search_ends n f :
  search_periods n (rule_interval r) body start_period = Err f → f ≠ Panic →
  (Err f = @next_run_out_of_range Z ∧ ∀ u, occurrence s u → u ≤ after)
  ∨ (Err f = @no_future_occurrence Z
     ∧ ∀ local u, occurs s local u → after < u →
         grid r anchor_local + start_period + Z.of_nat n * rule_interval r ≤ grid r local).
Proof using All.
  intros H Hf. assert (∀ k local u, (∀ j, (j < k)%nat → body (visited j) = Ok None) →
    occurs s local u → after < u → grid r anchor_local + visited k ≤ grid r local) as Hlater.
  { intros k local u Hnone Hocc Hafter. pose proof Hocc as (_ & _ & Hs & _).
    destruct (occurs_visited _ _ Hocc Hafter) as (He & Hl & j & Hg). rewrite Hg.
    destruct (decide (k ≤ j)%nat) as [Hkj|Hkj]; [unfold period_at; nia|].
    assert (j < k)%nat as Hj%Hnone by lia.
    pose proof (walk_nothing _ _ (visited_nonneg j) Hj Hl Hs Hg). congruence. }
  apply search_Err in H as [(k & Hk & Hnone & Hend)|[-> Hnone]].
  - left. assert (Err f = @next_run_out_of_range Z) as He.
    { destruct Hend as [Hb|(_ & _ & He)]; [|done].
      by apply (walk_Err _ Hwalk) in Hb as [? _]; [|apply visited_nonneg|]. }
    split; [done|]. intros u Hocc. apply occurrence_calendar in Hocc as [local Hocc].
    destruct (Z.le_gt_cases u after) as [|Hu]; [done|exfalso].
    pose proof Hocc as (_ & _ & Hs & _).
    destruct (occurs_visited _ _ Hocc ltac:(lia)) as (Helig & Hl & _).
    destruct Hend as [Hb|(Hb & Hover & _)].
    + apply (walk_Err _ Hwalk) in Hb as [_ Hb]; [|apply visited_nonneg|done].
      rewrite (Hb local) in Helig; [done..|]. eapply Hlater; [done..|lia].
    + assert (grid r anchor_local + visited (S k) ≤ grid r local) as Hge.
      { eapply (Hlater (S k)); [|done|lia]. intros j Hj.
        destruct (decide (j = k)) as [->|]; [done|apply Hnone; lia]. }
      pose proof (grid_bound r local (local_clock_ok _ Hl)).
      pose proof (grid_bound r anchor_local anchor_clock_ok). pose proof (visited_nonneg (S k)). lia.
  - right. split; [done|]. intros local u Hocc Hafter.
    pose proof (Hlater n local u Hnone Hocc Hafter) as Hge. unfold period_at in Hge. lia.
Qed.

(** ** Panics *)

(** The body does not panic in the periods the search reaches. *)
Record safe (b : Z → outcome (option Z)) : Prop := {
  safe_first : ¬ is_panic (b start_period);
  safe_next p o : 0 ≤ p → b p = Ok o → ¬ is_panic (b (p + rule_interval r));
}.

Lemma search_safe n : safe body → ¬ is_panic (search_periods n (rule_interval r) body start_period).
Proof using Hinterval.
  intros [Hfirst Hnext]. pose proof start_period_bounds. apply search_no_panic; [lia|done|lia|done].
Qed.

Lemma safe_below b bound :
  (∀ p, 0 ≤ p ≤ bound + 2 ^ 32 → ¬ is_panic (b p)) →
  (∀ p o, 0 ≤ p → b p = Ok o → p ≤ bound) →
  grid r threshold_local - grid r anchor_local ≤ bound → 0 ≤ bound → safe b.
Proof using Hinterval.
  intros Hb Hreach Hfirst Hbound. pose proof start_period_bounds. split.
  - apply Hb. lia.
  - intros p o Hp Ho. pose proof (Hreach p o Hp Ho). apply Hb. lia.
Qed.
End Walk.
End Grid.
