(* ===== verification/AutomationWalks.v ===== *)
(** * The searches of the rules

    Each of the five searches of the source walks the grid of its rule: it starts
    in the period the specification of AutomationGrid starts in, and its body
    visits the selected times of a period in order, without a panic. *)

From stdpp Require Import sorting.
From S2P Require Import Prelude RustText Chrono AutomationSchedule AutomationNormal AutomationGrid.

Open Scope Z_scope.

(** ** Days and times *)

Lemma day_time_div d t : 0 ≤ t < 1440 → (d * DAY_MS + t * MINUTE_MS) / DAY_MS = d.
Proof. unfold DAY_MS, MINUTE_MS. intros. Z.to_euclidean_division_equations. lia. Qed.

Lemma day_time_mod d t : 0 ≤ t < 1440 → (d * DAY_MS + t * MINUTE_MS) mod DAY_MS = t * MINUTE_MS.
Proof. unfold DAY_MS, MINUTE_MS. intros. Z.to_euclidean_division_equations. lia. Qed.

Lemma day_time_eq local t : local mod DAY_MS = t → local = local / DAY_MS * DAY_MS + t.
Proof. intros <-. pose proof (Z.mod_eq local DAY_MS ltac:(done)). lia. Qed.

(** The hour of a local time, with another minute. *)
Lemma hour_with_minute local minute :
  0 ≤ minute < 60 →
  and_hms_opt (local_date local) (hour_of local) minute
  = Some (local / HOUR_MS * HOUR_MS + minute * MINUTE_MS).
Proof.
  intros Hm. unfold and_hms_opt, from_hms_opt, hour_of, local_date.
  destruct (Z.ltb_spec (local mod DAY_MS / HOUR_MS) 24) as [_|H]; cycle 1.
  { exfalso. revert H. unfold DAY_MS, HOUR_MS. Z.to_euclidean_division_equations. lia. }
  rewrite (proj2 (Z.ltb_lt minute 60)) by lia. simpl. f_equal.
  unfold DAY_MS, HOUR_MS. Z.to_euclidean_division_equations. lia.
Qed.

(** ** Lists of times *)

Lemma increasing_bind (l : list Z) (f : Z → list Z) :
  increasing l → (∀ x, x ∈ l → increasing (f x)) →
  (∀ x y a b, x < y → a ∈ f x → b ∈ f y → a < b) → increasing (l ≫= f).
Proof.
  intros Hl Hf Hlt. induction l as [|x l IH]; simpl; [constructor|].
  inversion Hl as [|? ? Hl' Hx]; subst. apply StronglySorted_app. split_and!.
  - intros a b Ha (y & Hb & Hy)%list_elem_of_bind. eapply Hlt; [|done..].
    by eapply Forall_forall in Hx.
  - apply Hf. by left.
  - apply IH; [done|]. intros y Hy. apply Hf. by right.
Qed.

(** What is before an element of an increasing list. *)
Lemma increasing_before (l1 l2 : list Z) x y :
  increasing (l1 ++ x :: l2) → y ∈ l1 ++ x :: l2 → y < x → y ∈ l1.
Proof.
  unfold increasing. rewrite StronglySorted_app, StronglySorted_cons. intros (_ & _ & Hx & _).
  rewrite elem_of_app, elem_of_cons. intros [?|[->|Hy]] Hlt; [done|lia|].
  eapply Forall_forall in Hx; [|done]. lia.
Qed.

#[local] Opaque MAX_CALENDAR_SEARCH_PERIODS.

Section Walks.
Context {chrono : Chrono} {laws : ChronoLaws}.

Lemma add_to_date_Some d ms d' :
  add_to_date d ms = Some d' ↔ d' = d + ms `quot` DAY_MS ∧ date_ok d'.
Proof.
  unfold add_to_date, date_ok.
  destruct (Z.leb_spec min_date (d + ms `quot` DAY_MS)), (Z.leb_spec (d + ms `quot` DAY_MS) max_date);
    simpl; naive_solver lia.
Qed.

Lemma add_to_date_days d n : add_to_date d (n * DAY_MS) = Some (d + n) ↔ date_ok (d + n).
Proof. rewrite add_to_date_Some, Z.quot_mul by done. naive_solver. Qed.

Lemma add_to_date_None d n : add_to_date d (n * DAY_MS) = None → ¬ date_ok (d + n).
Proof. intros H Hd%add_to_date_days. congruence. Qed.

Lemma add_to_datetime_Some l ms l' : add_to_datetime l ms = Some l' ↔ l' = l + ms ∧ local_ok l'.
Proof.
  unfold add_to_datetime, local_ok, date_ok.
  assert (min_date * DAY_MS ≤ l + ms < (max_date + 1) * DAY_MS
          ↔ min_date ≤ (l + ms) / DAY_MS ≤ max_date) as He.
  { unfold DAY_MS. split; intros; Z.to_euclidean_division_equations; lia. }
  destruct (Z.leb_spec (min_date * DAY_MS) (l + ms)), (Z.ltb_spec (l + ms) ((max_date + 1) * DAY_MS));
    simpl; split; try done; try (intros [= <-]; split; [done|]; apply He; lia);
    intros [-> Hl]; [done|apply He in Hl; lia..].
Qed.

Context (s : NormalizedAutomationSchedule) (after anchor_local threshold_local : Z).
Context (Hvalid : anchor_valid (anchor_at s)) (Hinstant : anchor_valid after).
Context (Hanchor : local_clock (timezone s) (anchor_at s) = anchor_local).
Context (Hthreshold : local_clock (timezone s) (threshold_of s after (anchor_at s)) = threshold_local).

Lemma anchor_utc_Ok : anchor_utc s = Ok (anchor_at s).
Proof using Hvalid. by apply utc_from_ms_Ok. Qed.

Lemma naive_local_Some tz t local :
  naive_local tz t = Some local ↔ local_clock tz t = local ∧ local_ok local.
Proof.
  unfold naive_local, local_ok, date_ok. set (x := local_clock tz t).
  destruct (Z.leb_spec min_date (x / DAY_MS)), (Z.leb_spec (x / DAY_MS) max_date); simpl;
    (split; [intros [= <-]; done|intros [<- ?]]); done || lia.
Qed.

Lemma to_local_Ok tz t local : local_clock tz t = local → local_ok local → to_local tz t = Ok local.
Proof. intros Ht Hl. unfold to_local. by rewrite (proj2 (naive_local_Some tz t local)). Qed.

Lemma anchor_clock : clock_ok anchor_local.
Proof using Hanchor Hvalid laws. by eapply anchor_clock_ok. Qed.

Lemma threshold_clock : clock_ok threshold_local.
Proof using Hthreshold Hvalid Hinstant laws. by eapply threshold_clock_ok. Qed.

Lemma first_period_Ok e i : 0 < i → first_period e i = Ok (e / i * i).
Proof.
  intros Hi. unfold first_period.
  assert (div_euclid e i = Ok (e / i)) as -> by by apply div_euclid_Ok. done.
Qed.

(** ** Clocks that can be read *)

Section Read.
Context (Hal : local_ok anchor_local) (Htl : local_ok threshold_local).

(** ** Hours *)

Definition hourly_body (minute_of_hour anchor_hour period : Z) : outcome (option Z) :=
  hours ← duration period HOUR_MS;
  hour ← in_range (add_to_datetime anchor_hour hours);
  candidate ← in_range (and_hms_opt (local_date hour) (hour_of hour) minute_of_hour);
  Ok (eligible_once s after candidate).

Lemma next_hourly_search i m :
  rule s = RuleHourly i m → rule_ok (rule s) →
  next_hourly s after i m
  = search_periods MAX_CALENDAR_SEARCH_PERIODS (rule_interval (rule s))
      (hourly_body m (anchor_local / HOUR_MS * HOUR_MS)) (start_period s anchor_local threshold_local).
Proof using All.
  intros Hr Hok. rewrite Hr in Hok. destruct Hok as [Hi Hm]. unfold next_hourly.
  rewrite anchor_utc_Ok. cbn [mbind result_bind].
  rewrite (to_local_Ok _ _ _ Hanchor Hal). cbn [mbind result_bind].
  rewrite hour_with_minute by lia. cbn [mbind result_bind in_range].
  rewrite (to_local_Ok _ _ _ Hthreshold Htl). cbn [mbind result_bind].
  rewrite hour_with_minute by lia. cbn [mbind result_bind in_range].
  rewrite first_period_Ok by (unfold period_ok in Hi; lia). cbn [mbind result_bind].
  unfold start_period. rewrite Hr. cbn [grid rule_interval]. rewrite !Z.mul_0_l, !Z.add_0_r.
  rewrite <-Z.mul_sub_distr_r, Z.quot_mul by done. reflexivity.
Qed.

Lemma hour_time_div h m : 0 ≤ m < 60 → (h * HOUR_MS + m * MINUTE_MS) / HOUR_MS = h.
Proof. unfold HOUR_MS, MINUTE_MS. intros. Z.to_euclidean_division_equations. lia. Qed.

Lemma hour_time_mod h m : 0 ≤ m < 60 → (h * HOUR_MS + m * MINUTE_MS) mod HOUR_MS = m * MINUTE_MS.
Proof. unfold HOUR_MS, MINUTE_MS. intros. Z.to_euclidean_division_equations. lia. Qed.

Lemma hour_time_date h m :
  0 ≤ m < 60 → (h * HOUR_MS + m * MINUTE_MS) / DAY_MS = (h * HOUR_MS) / DAY_MS.
Proof. unfold HOUR_MS, MINUTE_MS, DAY_MS. intros. Z.to_euclidean_division_equations. lia. Qed.

Lemma hour_start_ok local : local_ok local → local_ok (local / HOUR_MS * HOUR_MS).
Proof.
  unfold local_ok, HOUR_MS, DAY_MS. intros H.
  assert (local / 3600000 * 3600000 / 86400000 = local / 86400000) as ->; [|done].
  clear. Z.to_euclidean_division_equations. lia.
Qed.

(** The three ways the body ends. *)
Lemma hourly_body_eq m h p :
  0 ≤ m < 60 →
  hourly_body m (h * HOUR_MS) p
  = if Z.abs (p * HOUR_MS) <? 2 ^ 63 then
      match add_to_datetime (h * HOUR_MS) (p * HOUR_MS) with
      | Some hour => Ok (eligible_once s after ((h + p) * HOUR_MS + m * MINUTE_MS))
      | None => next_run_out_of_range
      end
    else Err Panic.
Proof.
  intros Hm. unfold hourly_body, duration. destruct (_ <? _); [|done]. cbn [mbind result_bind].
  destruct (add_to_datetime _ _) as [hour|] eqn:E; [|done]. cbn [mbind result_bind in_range].
  apply add_to_datetime_Some in E as [-> _]. rewrite hour_with_minute by done.
  cbn [mbind result_bind in_range]. by rewrite <-Z.mul_add_distr_r, Z.div_mul.
Qed.

Lemma hourly_walk i m :
  rule s = RuleHourly i m → rule_ok (rule s) →
  walk s after anchor_local (hourly_body m (anchor_local / HOUR_MS * HOUR_MS)).
Proof using All.
  intros Hr Hok. rewrite Hr in Hok. destruct Hok as [_ Hm].
  set (h := anchor_local / HOUR_MS). split; intros p ? Hp; rewrite hourly_body_eq by done.
  - destruct (_ <? _); [|done]. destruct (add_to_datetime _ _) as [hour|] eqn:E; [|done].
    intros [= <-]. apply add_to_datetime_Some in E as [-> Hl].
    rewrite <-Z.mul_add_distr_r in Hl. unfold local_ok in Hl.
    rewrite <-(hour_time_date (h + p) m Hm) in Hl.
    exists [(h + p) * HOUR_MS + m * MINUTE_MS].
    split; [unfold first_eligible; simpl; by destruct (eligible_once _ _ _)|].
    split; [repeat constructor|]. intros local. rewrite list_elem_of_singleton, Hr. cbn [selects grid].
    split.
    + intros ->. rewrite hour_time_div, hour_time_mod by done. done.
    + intros (_ & Hmod & Hg). pose proof (Z.mod_eq local HOUR_MS ltac:(done)). fold h in Hg. lia.
  - destruct (_ <? _); [|by intros [= <-]]. destruct (add_to_datetime _ _) as [hour|] eqn:E; [done|].
    intros [= <-] _. split; [done|]. rewrite Hr. cbn [selects grid]. intros local Hl Hs Hg. exfalso.
    assert (local_ok ((h + p) * HOUR_MS)) as Hh.
    { apply (local_ok_between (h * HOUR_MS) _ (local / HOUR_MS * HOUR_MS)).
      - apply hour_start_ok, Hal.
      - by apply hour_start_ok.
      - fold h in Hg. unfold HOUR_MS in *. lia. }
    rewrite Z.mul_add_distr_r in Hh.
    assert (add_to_datetime (h * HOUR_MS) (p * HOUR_MS) = Some (h * HOUR_MS + p * HOUR_MS)) as E'
      by by apply add_to_datetime_Some.
    congruence.
Qed.

Lemma hourly_safe i m :
  rule s = RuleHourly i m → rule_ok (rule s) →
  safe s anchor_local threshold_local (hourly_body m (anchor_local / HOUR_MS * HOUR_MS)).
Proof using All.
  intros Hr Hok. pose proof Hok as Hok'. rewrite Hr in Hok'. destruct Hok' as [Hi Hm].
  apply safe_below with (bound := 2 ^ 33); [by rewrite Hr| | | |done].
  - intros q Hq. rewrite hourly_body_eq by done.
    rewrite (proj2 (Z.ltb_lt _ _)) by (unfold HOUR_MS; lia). by destruct (add_to_datetime _ _).
  - intros q o Hq. rewrite hourly_body_eq by done. destruct (_ <? _); [|done].
    destruct (add_to_datetime _ _) as [hour|] eqn:E; [|done]. intros _.
    apply add_to_datetime_Some in E as [-> Hl%local_clock_ok%local_bound].
    pose proof (local_bound _ anchor_clock) as Ha. revert Ha Hl. clear.
    unfold HOUR_MS, DAY_MS. intros. Z.to_euclidean_division_equations. lia.
  - rewrite Hr. cbn [grid]. pose proof (local_bound _ anchor_clock) as Ha.
    pose proof (local_bound _ threshold_clock) as Ht. revert Ha Ht. clear.
    unfold HOUR_MS, DAY_MS. intros. Z.to_euclidean_division_equations. lia.
Qed.

(** ** Days *)

Definition daily_body (time_minutes anchor_date period : Z) : outcome (option Z) :=
  days ← duration period DAY_MS;
  date ← in_range (add_to_date anchor_date days);
  Ok (eligible_once s after (date * DAY_MS + time_minutes * MINUTE_MS)).

Lemma next_daily_search i t :
  rule s = RuleDaily i t → rule_ok (rule s) →
  next_daily s after i t
  = search_periods MAX_CALENDAR_SEARCH_PERIODS (rule_interval (rule s))
      (daily_body t (anchor_local / DAY_MS)) (start_period s anchor_local threshold_local).
Proof using All.
  intros Hr Hok. rewrite Hr in Hok. destruct Hok as [Hi Ht]. unfold next_daily.
  rewrite anchor_utc_Ok. cbn [mbind result_bind].
  rewrite (to_local_Ok _ _ _ Hanchor Hal). cbn [mbind result_bind].
  rewrite (to_local_Ok _ _ _ Hthreshold Htl). cbn [mbind result_bind].
  rewrite first_period_Ok by (unfold period_ok in Hi; lia). cbn [mbind result_bind].
  rewrite time_from_minutes_eq by done. cbn [mbind result_bind].
  unfold start_period. rewrite Hr. reflexivity.
Qed.

Lemma daily_body_eq t d p :
  daily_body t d p
  = if Z.abs (p * DAY_MS) <? 2 ^ 63 then
      if decide (date_ok (d + p)) then
        Ok (eligible_once s after ((d + p) * DAY_MS + t * MINUTE_MS))
      else next_run_out_of_range
    else Err Panic.
Proof.
  unfold daily_body, duration. destruct (_ <? _); [|done]. cbn [mbind result_bind].
  case_decide as Hd.
  - by rewrite (proj2 (add_to_date_days d p) Hd).
  - destruct (add_to_date _ _) as [x|] eqn:E; [|done].
    pose proof E as [-> Hx]%add_to_date_Some. rewrite Z.quot_mul in Hx by done. done.
Qed.

Lemma daily_walk i t :
  rule s = RuleDaily i t → rule_ok (rule s) →
  walk s after anchor_local (daily_body t (anchor_local / DAY_MS)).
Proof using All.
  intros Hr Hok. rewrite Hr in Hok. destruct Hok as [_ Ht].
  set (d := anchor_local / DAY_MS). split; intros p ? Hp; rewrite daily_body_eq.
  - destruct (_ <? _); [|done]. case_decide as Hd; [|done]. intros [= <-].
    exists [(d + p) * DAY_MS + t * MINUTE_MS].
    split; [unfold first_eligible; simpl; by destruct (eligible_once _ _ _)|].
    split; [repeat constructor|]. intros local. rewrite list_elem_of_singleton, Hr. cbn [selects grid].
    unfold local_ok. split.
    + intros ->. rewrite day_time_div, day_time_mod by done. done.
    + intros (_ & Hmod & Hg). fold d in Hg. rewrite <-Hg. by apply day_time_eq.
  - destruct (_ <? _); [|by intros [= <-]]. case_decide as Hd; [done|].
    intros [= <-] _. split; [done|]. rewrite Hr. cbn [selects grid]. intros local Hl _ Hg. exfalso.
    apply Hd. pose proof Hal as Ha. fold d in Hg. unfold local_ok, date_ok in *.
    fold d in Ha. lia.
Qed.

Lemma daily_safe i t :
  rule s = RuleDaily i t → rule_ok (rule s) →
  safe s anchor_local threshold_local (daily_body t (anchor_local / DAY_MS)).
Proof using All.
  intros Hr Hok. pose proof Hok as Hok'. rewrite Hr in Hok'. destruct Hok' as [Hi Ht].
  pose proof (local_bound _ anchor_clock) as Ha. pose proof (local_bound _ threshold_clock) as Hl.
  apply safe_below with (bound := 2 ^ 33); [by rewrite Hr| | | |done].
  - intros q Hq. rewrite daily_body_eq.
    rewrite (proj2 (Z.ltb_lt _ _)) by (unfold DAY_MS; lia). by case_decide.
  - intros q o Hq. rewrite daily_body_eq. destruct (_ <? _); [|done].
    case_decide as Hd; [|done]. intros _. unfold date_ok in Hd. pose proof date_range. lia.
  - rewrite Hr. cbn [grid]. lia.
Qed.

(** ** Weeks *)

(** The Monday on which the anchor's week starts is a date. *)
Definition monday (date : Z) : Z := date - (date + 3) mod 7.

Definition weekly_body (weekdays : list Z) (time_minutes anchor_week period : Z)
    : outcome (option Z) :=
  weeks ← duration period (7 * DAY_MS);
  week ← in_range (add_to_date anchor_week weeks);
  for_first weekdays (daily_body time_minutes week).

Lemma monday_of_week_eq date :
  date_ok date →
  monday_of_week date = if decide (date_ok (monday date)) then Ok (monday date) else next_run_out_of_range.
Proof using laws.
  intros Hd. unfold monday_of_week, duration, monday. rewrite weekday_of by done.
  pose proof (Z.mod_pos_bound (date + 3) 7 ltac:(lia)) as Hm.
  rewrite (proj2 (Z.ltb_lt _ _)) by (unfold DAY_MS; lia). cbn [mbind result_bind].
  rewrite <-Z.mul_opp_l, <-Z.add_opp_r. case_decide as H.
  - by rewrite (proj2 (add_to_date_days _ _) H).
  - destruct (add_to_date _ _) as [x|] eqn:E; [|done].
    pose proof E as [-> Hx]%add_to_date_Some. rewrite Z.quot_mul in Hx by done. done.
Qed.

Lemma next_weekly_search i ws t :
  rule s = RuleWeekly i ws t → rule_ok (rule s) → date_ok (monday (anchor_local / DAY_MS)) →
  next_weekly s after i ws t
  = search_periods MAX_CALENDAR_SEARCH_PERIODS (rule_interval (rule s))
      (weekly_body ws t (monday (anchor_local / DAY_MS)))
      (start_period s anchor_local threshold_local).
Proof using All.
  intros Hr Hok Hmon. rewrite Hr in Hok. destruct Hok as (Hi & _ & Ht). unfold next_weekly.
  rewrite anchor_utc_Ok. cbn [mbind result_bind].
  rewrite (to_local_Ok _ _ _ Hanchor Hal). cbn [mbind result_bind].
  change (local_date anchor_local) with (anchor_local / DAY_MS).
  rewrite (monday_of_week_eq _ Hal), decide_True by done.
  cbn [mbind result_bind].
  rewrite (to_local_Ok _ _ _ Hthreshold Htl). cbn [mbind result_bind].
  rewrite first_period_Ok by (unfold period_ok in Hi; lia). cbn [mbind result_bind].
  rewrite time_from_minutes_eq by done. cbn [mbind result_bind].
  unfold start_period. rewrite Hr. cbn [grid rule_interval].
  assert ((local_date threshold_local - monday (anchor_local / DAY_MS)) / 7
          = (threshold_local / DAY_MS + 3) / 7 - (anchor_local / DAY_MS + 3) / 7) as ->; [|reflexivity].
  unfold monday, local_date. clear. Z.to_euclidean_division_equations. lia.
Qed.

Lemma weekly_body_eq ws t mon p :
  weekly_body ws t mon p
  = if Z.abs (p * (7 * DAY_MS)) <? 2 ^ 63 then
      if decide (date_ok (mon + p * 7)) then for_first ws (daily_body t (mon + p * 7))
      else next_run_out_of_range
    else Err Panic.
Proof.
  unfold weekly_body, duration. destruct (_ <? _); [|done]. cbn [mbind result_bind].
  rewrite Z.mul_assoc. case_decide as Hd.
  - by rewrite (proj2 (add_to_date_days mon (p * 7)) Hd).
  - destruct (add_to_date _ _) as [x|] eqn:E; [|done].
    pose proof E as [-> Hx]%add_to_date_Some. rewrite Z.quot_mul in Hx by done. done.
Qed.

Definition week_times (t week weekday : Z) : list Z :=
  if decide (date_ok (week + weekday)) then [(week + weekday) * DAY_MS + t * MINUTE_MS] else [].

Lemma elem_of_week_times t week w local :
  local ∈ week_times t week w ↔ date_ok (week + w) ∧ local = (week + w) * DAY_MS + t * MINUTE_MS.
Proof.
  unfold week_times. case_decide.
  - rewrite list_elem_of_singleton. naive_solver.
  - split; [by intros ?%elem_of_nil|naive_solver].
Qed.

Lemma daily_body_times t week w o :
  daily_body t week w = Ok o → o = first_eligible (eligible_once s after) (week_times t week w).
Proof.
  rewrite daily_body_eq. destruct (_ <? _); [|done]. unfold week_times. case_decide; [|done].
  intros [= <-]. unfold first_eligible. simpl. by destruct (eligible_once _ _ _).
Qed.

Lemma week_times_ordered t week x y a b :
  x < y → a ∈ week_times t week x → b ∈ week_times t week y → a < b.
Proof. intros Hxy [_ ->]%elem_of_week_times [_ ->]%elem_of_week_times. unfold DAY_MS. lia. Qed.

Lemma week_times_increasing t week x : increasing (week_times t week x).
Proof. unfold week_times. case_decide; repeat constructor. Qed.

Lemma weekly_selected i ws t p local :
  rule s = RuleWeekly i ws t → rule_ok (rule s) →
  let week := monday (anchor_local / DAY_MS) + p * 7 in
  local ∈ ws ≫= week_times t week
  ↔ local_ok local ∧ selects (rule s) local
    ∧ grid (rule s) local = grid (rule s) anchor_local + p.
Proof using All.
  intros Hr Hok week. rewrite Hr in *. destruct Hok as (_ & (_ & _ & Hrange) & Ht).
  cbn [selects grid]. unfold local_ok. rewrite list_elem_of_bind.
  setoid_rewrite elem_of_week_times. split.
  - intros (w & [Hd ->] & Hw). pose proof (Hrange w Hw) as Hw'.
    rewrite day_time_div, day_time_mod by done.
    assert ((week + w + 3) mod 7 = w ∧ (week + w + 3) / 7 = (anchor_local / DAY_MS + 3) / 7 + p)
      as [-> ->]; [|done].
    revert Hw'. unfold week, monday. clear. intros. Z.to_euclidean_division_equations. lia.
  - intros (Hl & [Hmod Hw] & Hg). exists ((local / DAY_MS + 3) mod 7). split; [|done].
    assert (week + (local / DAY_MS + 3) mod 7 = local / DAY_MS) as ->.
    { revert Hg. unfold week, monday. clear. intros. Z.to_euclidean_division_equations. lia. }
    split; [done|]. by apply day_time_eq.
Qed.

Lemma weekly_walk i ws t :
  rule s = RuleWeekly i ws t → rule_ok (rule s) → date_ok (monday (anchor_local / DAY_MS)) →
  walk s after anchor_local (weekly_body ws t (monday (anchor_local / DAY_MS))).
Proof using All.
  intros Hr Hok Hmon. pose proof Hok as Hok'. rewrite Hr in Hok'.
  destruct Hok' as (_ & (Hinc & _ & Hrange) & Ht).
  set (m := monday (anchor_local / DAY_MS)) in *. split; intros p ? Hp; rewrite weekly_body_eq.
  - destruct (_ <? _); [|done]. case_decide as Hd; [|done]. intros Ho.
    exists (ws ≫= week_times t (m + p * 7)). split_and!.
    + eapply for_first_Ok; [|done]. intros w o' _. apply daily_body_times.
    + apply increasing_bind; [done|intros; apply week_times_increasing|apply week_times_ordered].
    + intros local. by eapply weekly_selected.
  - destruct (_ <? _); [|by intros [= <-]]. case_decide as Hd.
    + intros (ws1 & x & ws2 & -> & Hx & Hnone)%for_first_Err Hf. rewrite daily_body_eq in Hx.
      destruct (_ <? _); [|congruence]. case_decide as Hdx; [done|]. injection Hx as <-.
      split; [done|]. intros local Hl Hs Hg. rewrite Hr in Hs, Hg. destruct Hs as [Hmod Hw].
      cbn [grid] in Hg. pose proof Hl as Hl'. unfold local_ok in Hl'.
      assert (local / DAY_MS < m + p * 7 + x) as Hlt.
      { pose proof (Hrange x ltac:(apply elem_of_app; right; by left)) as Hx.
        unfold date_ok in Hdx, Hd, Hl'. lia. }
      assert ((local / DAY_MS + 3) mod 7 < x ∧ (local / DAY_MS + 3) / 7 = (anchor_local / DAY_MS + 3) / 7 + p)
        as [Hwx Hweek].
      { pose proof (Hrange x ltac:(apply elem_of_app; right; by left)) as Hx.
        revert Hlt Hg Hx. unfold m, monday. clear. intros. Z.to_euclidean_division_equations. lia. }
      pose proof (increasing_before _ _ _ _ Hinc Hw Hwx) as Hin. pose proof (Hnone _ Hin) as Hb.
      apply daily_body_times in Hb. symmetry in Hb. eapply first_eligible_None; [exact Hb|].
      apply elem_of_week_times.
      assert (m + p * 7 + (local / DAY_MS + 3) mod 7 = local / DAY_MS) as ->.
      { revert Hweek. unfold m, monday. clear. intros. Z.to_euclidean_division_equations. lia. }
      split; [done|]. by apply day_time_eq.
    + intros [= <-] _. split; [done|]. intros local Hl _ Hg. exfalso. apply Hd.
      rewrite Hr in Hg. cbn [grid] in Hg. unfold local_ok, date_ok in *.
      assert (m + p * 7 ≤ local / DAY_MS); [|lia].
      revert Hg. unfold m, monday. clear. intros. Z.to_euclidean_division_equations. lia.
Qed.

Lemma weekly_safe i ws t :
  rule s = RuleWeekly i ws t → rule_ok (rule s) → date_ok (monday (anchor_local / DAY_MS)) →
  safe s anchor_local threshold_local (weekly_body ws t (monday (anchor_local / DAY_MS))).
Proof using All.
  intros Hr Hok Hmon. pose proof Hok as Hok'. rewrite Hr in Hok'.
  destruct Hok' as (Hi & (_ & _ & Hrange) & Ht).
  pose proof (local_bound _ anchor_clock) as Ha. pose proof (local_bound _ threshold_clock) as Hl.
  apply safe_below with (bound := 2 ^ 32); [by rewrite Hr| | | |done].
  - intros q Hq. rewrite weekly_body_eq.
    rewrite (proj2 (Z.ltb_lt _ _)) by (unfold DAY_MS; lia). case_decide; [|done].
    apply for_first_no_panic. intros w Hw%Hrange. rewrite daily_body_eq.
    rewrite (proj2 (Z.ltb_lt _ _)) by (unfold DAY_MS; lia). by case_decide.
  - intros q o Hq. rewrite weekly_body_eq. destruct (_ <? _); [|done].
    case_decide as Hd; [|done]. intros _. unfold date_ok in Hd, Hmon. pose proof date_range. lia.
  - rewrite Hr. cbn [grid]. revert Ha Hl. clear. intros. Z.to_euclidean_division_equations. lia.
Qed.

End Read.

(** ** Months and years *)

Definition ymd_body (time_minutes year month day : Z) : outcome (option Z) :=
  match from_ymd_opt year month day with
  | None => Ok None
  | Some date => Ok (eligible_once s after (date * DAY_MS + time_minutes * MINUTE_MS))
  end.

Definition ymd_times (t year month day : Z) : list Z :=
  match from_ymd_opt year month day with
  | None => []
  | Some date => [date * DAY_MS + t * MINUTE_MS]
  end.

Lemma ymd_body_times t y m d o :
  ymd_body t y m d = Ok o → o = first_eligible (eligible_once s after) (ymd_times t y m d).
Proof.
  unfold ymd_body, ymd_times. destruct (from_ymd_opt y m d); intros [= <-]; [|done].
  unfold first_eligible. simpl. by destruct (eligible_once _ _ _).
Qed.

Lemma ymd_body_Ok t y m d : ∃ o, ymd_body t y m d = Ok o.
Proof. unfold ymd_body. destruct (from_ymd_opt y m d); eauto. Qed.

Lemma elem_of_ymd_times t y m d local :
  time_ok t →
  local ∈ ymd_times t y m d
  ↔ local_ok local ∧ local mod DAY_MS = t * MINUTE_MS ∧ year (local / DAY_MS) = y
    ∧ month (local / DAY_MS) = m ∧ day (local / DAY_MS) = d.
Proof using laws.
  intros Ht. unfold ymd_times, local_ok. split.
  - destruct (from_ymd_opt y m d) as [date|] eqn:E; [|by intros ?%elem_of_nil].
    intros ->%list_elem_of_singleton. rewrite day_time_div, day_time_mod by done.
    apply from_ymd_sound in E as (? & ? & ? & ?). done.
  - intros (Hl & Hmod & <- & <- & <-). rewrite from_ymd_complete by done.
    apply list_elem_of_singleton. by apply day_time_eq.
Qed.

Lemma ymd_times_increasing t y m d : increasing (ymd_times t y m d).
Proof. unfold ymd_times. destruct (from_ymd_opt y m d); repeat constructor. Qed.

(** Dates follow one another by month and day. *)
Lemma ymd_times_ordered t y m d y' m' d' a b :
  time_ok t → a ∈ ymd_times t y m d → b ∈ ymd_times t y' m' d' →
  y * 12 + m < y' * 12 + m' ∨ y = y' ∧ m = m' ∧ d < d' → a < b.
Proof using laws.
  intros Ht (Ha & Hma & Hya & Hmo & Hd)%elem_of_ymd_times (Hb & Hmb & Hyb & Hmo' & Hd')%elem_of_ymd_times
    Hlt; [|done..].
  apply day_time_eq in Hma, Hmb. rewrite Hma, Hmb.
  assert (a / DAY_MS < b / DAY_MS); [|unfold DAY_MS in *; lia].
  unfold local_ok in *. destruct Hlt as [Hlt|(-> & -> & Hlt)].
  - destruct (Z.lt_ge_cases (a / DAY_MS) (b / DAY_MS)) as [|Hge]; [done|].
    apply month_number_mono in Hge; [|by apply local_clock_ok..]. unfold month_number in Hge. lia.
  - assert (month_number (a / DAY_MS) = month_number (b / DAY_MS)) as He
      by (unfold month_number; lia).
    pose proof (day_in_month _ _ Ha Hb He). lia.
Qed.

Definition monthly_body (month_days : list Z) (time_minutes anchor_month period : Z)
    : outcome (option Z) :=
  index ← in_range (checked_i64 (anchor_month + period));
  '(year, month) ← year_month_from_index index;
  for_first month_days (ymd_body time_minutes year month).

Lemma next_monthly_search i ds t :
  rule s = RuleMonthly i ds t → rule_ok (rule s) →
  next_monthly s after i ds t
  = search_periods MAX_CALENDAR_SEARCH_PERIODS (rule_interval (rule s))
      (monthly_body ds t (month_number (anchor_local / DAY_MS)))
      (start_period s anchor_local threshold_local).
Proof using All.
  intros Hr Hok. rewrite Hr in Hok. destruct Hok as (Hi & _ & Ht). unfold next_monthly.
  rewrite anchor_utc_Ok. cbn [mbind result_bind].
  rewrite first_period_Ok by (unfold period_ok in Hi; lia). cbn [mbind result_bind].
  rewrite time_from_minutes_eq by done. cbn [mbind result_bind].
  unfold start_period. rewrite Hr, Hanchor, Hthreshold. reflexivity.
Qed.

Lemma monthly_body_eq ds t am p :
  monthly_body ds t am p
  = if i64_ok (am + p) && ((- 2 ^ 31 <=? (am + p) / 12) && ((am + p) / 12 <? 2 ^ 31)) then
      for_first ds (ymd_body t ((am + p) / 12) ((am + p) mod 12 + 1))
    else next_run_out_of_range.
Proof.
  unfold monthly_body, checked_i64. destruct (i64_ok _); [|done].
  cbn [in_range mbind result_bind andb]. unfold year_month_from_index. by destruct (_ && _).
Qed.

Lemma month_number_bound date : clock_date_ok date → - 2 ^ 31 * 12 ≤ month_number date < 2 ^ 31 * 12.
Proof using laws.
  intros H. pose proof (year_fits date H). pose proof (month_range date H). unfold month_number. lia.
Qed.

Lemma monthly_selected i ds t p local :
  rule s = RuleMonthly i ds t → rule_ok (rule s) →
  let index := month_number (anchor_local / DAY_MS) + p in
  local ∈ ds ≫= ymd_times t (index / 12) (index mod 12 + 1)
  ↔ local_ok local ∧ selects (rule s) local
    ∧ grid (rule s) local = grid (rule s) anchor_local + p.
Proof using All.
  intros Hr Hok index. rewrite Hr in *. destruct Hok as (_ & _ & Ht).
  cbn [selects grid]. rewrite list_elem_of_bind. setoid_rewrite elem_of_ymd_times; [|done].
  fold index. split.
  - intros (d & (Hl & Hmod & Hy & Hm & <-) & Hd). split_and!; [done..|].
    unfold month_number. rewrite Hy, Hm. clear. Z.to_euclidean_division_equations. lia.
  - intros (Hl & [Hmod Hd] & Hg). eexists. split; [|done]. split_and!; [done..| | |done].
    + rewrite year_month_number by by apply local_clock_ok. by rewrite Hg.
    + rewrite month_month_number by by apply local_clock_ok. by rewrite Hg.
Qed.

Lemma monthly_walk i ds t :
  rule s = RuleMonthly i ds t → rule_ok (rule s) →
  walk s after anchor_local (monthly_body ds t (month_number (anchor_local / DAY_MS))).
Proof using All.
  intros Hr Hok. pose proof Hok as Hok'. rewrite Hr in Hok'. destruct Hok' as (_ & (Hinc & _) & Ht).
  pose proof (month_number_bound _ anchor_clock) as Ha.
  split; intros p ? Hp; rewrite monthly_body_eq; set (index := month_number (anchor_local / DAY_MS) + p).
  - destruct (i64_ok _ && _); [|done]. intros Ho.
    exists (ds ≫= ymd_times t (index / 12) (index mod 12 + 1)). split_and!.
    + eapply for_first_Ok; [|done]. intros d o' _. apply ymd_body_times.
    + apply increasing_bind; [done|intros; apply ymd_times_increasing|].
      intros x y a b Hxy Hax Hby. eapply ymd_times_ordered; [done..|]. by right.
    + intros local. by eapply monthly_selected.
  - destruct (i64_ok _ && _) eqn:E; [intros (? & d & ? & _ & Hd & _)%for_first_Err|].
    + by destruct (ymd_body_Ok t (index / 12) (index mod 12 + 1) d) as [? E']; rewrite E' in Hd.
    + intros [= <-] _. split; [done|]. intros local Hl _ Hg. exfalso.
      rewrite Hr in Hg. cbn [grid] in Hg. pose proof (month_number_bound _ (local_clock_ok _ Hl)) as Hb.
      assert (- 2 ^ 31 ≤ index / 12 < 2 ^ 31) as Hy.
      { revert Ha Hb Hg Hp. unfold index. clear. intros. Z.to_euclidean_division_equations. lia. }
      apply andb_false_iff in E as [E|E].
      * assert (i64_ok index = true) as E' by (apply i64_ok_spec; unfold index in *; lia). congruence.
      * apply andb_false_iff in E as [E%Z.leb_gt|E%Z.ltb_ge]; lia.
Qed.

Lemma for_first_ymd_Ok t y m ds : ∃ o, for_first ds (ymd_body t y m) = Ok o.
Proof.
  destruct (for_first ds (ymd_body t y m)) as [o|f] eqn:E; [by exists o|].
  apply for_first_Err in E as (? & d & ? & _ & Hd & _).
  destruct (ymd_body_Ok t y m d) as [? E']; congruence.
Qed.

Lemma monthly_safe i ds t :
  rule s = RuleMonthly i ds t → rule_ok (rule s) →
  safe s anchor_local threshold_local (monthly_body ds t (month_number (anchor_local / DAY_MS))).
Proof using All.
  intros Hr Hok. assert (∀ q, ¬ is_panic (monthly_body ds t (month_number (anchor_local / DAY_MS)) q)) as H.
  { intros q. rewrite monthly_body_eq. destruct (_ && _); [|done].
    match goal with |- ¬ is_panic (for_first _ (ymd_body _ ?y ?m)) =>
      destruct (for_first_ymd_Ok t y m ds) as [o ->] end. done. }
  split; intros; apply H.
Qed.

Definition yearly_body (months month_days : list Z) (time_minutes anchor_year period : Z)
    : outcome (option Z) :=
  year ← in_range (checked_i64 (anchor_year + period));
  if ((- 2 ^ 31 <=? year) && (year <? 2 ^ 31))%Z then
    for_first months (λ month, for_first month_days (ymd_body time_minutes year month))
  else next_run_out_of_range.

Lemma next_yearly_search i ms ds t :
  rule s = RuleYearly i ms ds t → rule_ok (rule s) →
  next_yearly s after i ms ds t
  = search_periods MAX_CALENDAR_SEARCH_PERIODS (rule_interval (rule s))
      (yearly_body ms ds t (year (anchor_local / DAY_MS)))
      (start_period s anchor_local threshold_local).
Proof using All.
  intros Hr Hok. rewrite Hr in Hok. destruct Hok as (Hi & _ & _ & Ht). unfold next_yearly.
  rewrite anchor_utc_Ok. cbn [mbind result_bind].
  rewrite first_period_Ok by (unfold period_ok in Hi; lia). cbn [mbind result_bind].
  rewrite time_from_minutes_eq by done. cbn [mbind result_bind].
  unfold start_period. rewrite Hr, Hanchor, Hthreshold. reflexivity.
Qed.

Lemma yearly_body_eq ms ds t ay p :
  yearly_body ms ds t ay p
  = if i64_ok (ay + p) && ((- 2 ^ 31 <=? ay + p) && (ay + p <? 2 ^ 31)) then
      for_first ms (λ month, for_first ds (ymd_body t (ay + p) month))
    else next_run_out_of_range.
Proof. unfold yearly_body, checked_i64. by destruct (i64_ok _). Qed.

Lemma yearly_selected i ms ds t p local :
  rule s = RuleYearly i ms ds t → rule_ok (rule s) →
  local ∈ ms ≫= (λ m, ds ≫= ymd_times t (year (anchor_local / DAY_MS) + p) m)
  ↔ local_ok local ∧ selects (rule s) local
    ∧ grid (rule s) local = grid (rule s) anchor_local + p.
Proof using All.
  intros Hr Hok. rewrite Hr in *. destruct Hok as (_ & _ & _ & Ht).
  cbn [selects grid]. rewrite list_elem_of_bind. setoid_rewrite list_elem_of_bind.
  setoid_rewrite elem_of_ymd_times; [|done]. naive_solver.
Qed.

Lemma yearly_walk i ms ds t :
  rule s = RuleYearly i ms ds t → rule_ok (rule s) →
  walk s after anchor_local (yearly_body ms ds t (year (anchor_local / DAY_MS))).
Proof using All.
  intros Hr Hok. pose proof Hok as Hok'. rewrite Hr in Hok'.
  destruct Hok' as (_ & (Hmonths & _) & (Hdays & _) & Ht).
  pose proof (year_fits _ anchor_clock) as Ha.
  split; intros p ? Hp; rewrite yearly_body_eq; set (y := year (anchor_local / DAY_MS) + p).
  - destruct (i64_ok _ && _); [|done]. intros Ho.
    exists (ms ≫= (λ m, ds ≫= ymd_times t y m)). split_and!.
    + eapply for_first_Ok; [|done]. intros m o' _ Ho'.
      eapply for_first_Ok; [|exact Ho']. intros d o'' _. apply ymd_body_times.
    + apply increasing_bind; [done| |].
      * intros m _. apply increasing_bind; [done|intros; apply ymd_times_increasing|].
        intros x x' a b Hxy Hax Hby. eapply ymd_times_ordered; [done..|]. by right.
      * intros m m' a b Hm (d & Hd & _)%list_elem_of_bind (d' & Hd' & _)%list_elem_of_bind.
        eapply ymd_times_ordered; [done..|]. left. lia.
    + intros local. by eapply yearly_selected.
  - destruct (i64_ok _ && _) eqn:E; [intros (? & m & ? & _ & Hm & _)%for_first_Err|].
    + by destruct (for_first_ymd_Ok t y m ds) as [? E']; rewrite E' in Hm.
    + intros [= <-] _. split; [done|]. intros local Hl _ Hg. exfalso.
      rewrite Hr in Hg. cbn [grid] in Hg. pose proof (year_fits _ (local_clock_ok _ Hl)) as Hb.
      assert (- 2 ^ 31 ≤ y < 2 ^ 31) as Hy by (unfold y; lia).
      apply andb_false_iff in E as [E|E].
      * assert (i64_ok y = true) as E' by (apply i64_ok_spec; lia). congruence.
      * apply andb_false_iff in E as [E%Z.leb_gt|E%Z.ltb_ge]; lia.
Qed.

Lemma yearly_safe i ms ds t :
  rule s = RuleYearly i ms ds t → rule_ok (rule s) →
  safe s anchor_local threshold_local (yearly_body ms ds t (year (anchor_local / DAY_MS))).
Proof using All.
  intros Hr Hok. assert (∀ q, ¬ is_panic (yearly_body ms ds t (year (anchor_local / DAY_MS)) q)) as H.
  { intros q. rewrite yearly_body_eq. destruct (_ && _); [|done].
    apply for_first_no_panic. intros m _.
    match goal with |- ¬ is_panic (for_first _ (ymd_body _ ?y ?m)) =>
      destruct (for_first_ymd_Ok t y m ds) as [o ->] end. done. }
  split; intros; apply H.
Qed.

(** ** All five *)

(** The rules that read local times, and not only years and months of them. *)
Definition reads_clock (r : NormalizedRule) : bool :=
  match r with RuleHourly _ _ | RuleDaily _ _ | RuleWeekly _ _ _ => true | _ => false end.

(** The search for the next run of a calendar rule: a walk that does not panic. *)
Lemma next_run_walk after_ms :
  after_ms = after → rule_ok (rule s) →
  (∀ step_ms, rule s ≠ FixedInterval step_ms) →
  (reads_clock (rule s) = true → local_ok anchor_local ∧ local_ok threshold_local) →
  (∀ i ws t, rule s = RuleWeekly i ws t → date_ok (monday (anchor_local / DAY_MS))) →
  ∃ body,
    next_run_at_ms s after_ms
    = search_periods MAX_CALENDAR_SEARCH_PERIODS (rule_interval (rule s)) body
        (start_period s anchor_local threshold_local)
    ∧ walk s after anchor_local body ∧ safe s anchor_local threshold_local body.
Proof using All.
  intros -> Hok Hcal Hread Hmon. unfold next_run_at_ms.
  rewrite (proj2 (utc_from_ms_Ok _ _ _ _)) by done. cbn [mbind result_bind].
  destruct (rule s) as [step_ms|i m|i t|i ws t|i ds t|i ms ds t] eqn:Hr.
  - by destruct (Hcal step_ms).
  - destruct (Hread eq_refl). eexists. rewrite <-Hr in Hok |- *. split; [by apply next_hourly_search|].
    split; [by eapply hourly_walk|by eapply hourly_safe].
  - destruct (Hread eq_refl). eexists. rewrite <-Hr in Hok |- *. split; [by apply next_daily_search|].
    split; [by eapply daily_walk|by eapply daily_safe].
  - destruct (Hread eq_refl). pose proof (Hmon i ws t eq_refl). eexists. rewrite <-Hr in Hok |- *.
    split; [by apply next_weekly_search|]. split; [by eapply weekly_walk|by eapply weekly_safe].
  - eexists. rewrite <-Hr in Hok |- *. split; [by apply next_monthly_search|].
    split; [by eapply monthly_walk|by eapply monthly_safe].
  - eexists. rewrite <-Hr in Hok |- *. split; [by apply next_yearly_search|].
    split; [by eapply yearly_walk|by eapply yearly_safe].
Qed.
End Walks.
