(* ===== verification/AutomationClaims.v ===== *)
(** * Properties of schedules

    The next run of a normalised schedule against its occurrences, and what
    normalisation accepts and returns. *)

From S2P Require Import Prelude RustText Chrono AutomationSchedule AutomationNormal AutomationGrid.
From S2P Require Import AutomationWalks.

Open Scope Z_scope.

Section Schedules.
Context {chrono : Chrono} {laws : ChronoLaws}.

Lemma utc_bound t : anchor_valid t → - 2 ^ 54 ≤ t < 2 ^ 54.
Proof using laws.
  unfold anchor_valid. pose proof utc_range as [H1 H2]. pose proof date_range as [H3 H4].
  unfold DAY_MS in *. lia.
Qed.

Definition fails_with {A} (code : AutomationScheduleErrorCode) (o : outcome A) : Prop :=
  ∃ field message, o = Err (Fail (mkError code field message)).

Lemma fail_fails {A} code field message : @fails_with A code (fail code field message).
Proof. by do 2 eexists. Qed.

(** The next of the instants [anchor + k * step]. *)
Lemma next_fixed_interval_eq anchor after step :
  anchor_valid anchor → anchor_valid after → 0 < step < 2 ^ 63 → anchor ≤ after →
  let next := anchor + ((after - anchor) / step + 1) * step in
  next ≤ max_utc ∧ next_fixed_interval anchor after step = Ok next
  ∨ max_utc < next ∧ fails_with NextRunOutOfRange (next_fixed_interval anchor after step).
Proof using laws.
  intros Hanchor Hafter Hstep Hle. cbv zeta.
  pose proof (utc_bound _ Hanchor) as Ba. pose proof (utc_bound _ Hafter) as Bf.
  unfold next_fixed_interval. rewrite (proj2 (Z.ltb_ge after anchor)) by done.
  set (e := after - anchor). assert (0 ≤ e < 2 ^ 55) as He by (unfold e; lia).
  assert (0 ≤ e / step < 2 ^ 55) as Hq.
  { split; [apply Z.div_pos; lia|]. apply Z.div_lt_upper_bound; nia. }
  assert (e < (e / step + 1) * step) as Hgt by (pose proof (Z.mul_succ_div_gt e step); lia).
  rewrite (proj2 (checked_i64_Some e e)) by (split; [done|lia]). cbn [in_range mbind result_bind].
  unfold div_euclid. rewrite (proj2 (Z.eqb_neq step 0)) by lia. cbn [mbind result_bind].
  rewrite (proj2 (checked_i64_Some (e / step + 1) _)) by (split; [done|lia]).
  cbn [in_range mbind result_bind]. set (o := (e / step + 1) * step) in *.
  assert (max_utc < 2 ^ 54) as Bm by (apply utc_bound; unfold anchor_valid in *; lia).
  destruct (Z.leb_spec (anchor + o) max_utc) as [Hin|Hout]; [left|right]; (split; [done|]).
  - rewrite (proj2 (checked_i64_Some o o)) by (split; [done|lia]). cbn [in_range mbind result_bind].
    rewrite (proj2 (checked_i64_Some (anchor + o) _)) by (split; [done|lia]).
    cbn [in_range mbind result_bind].
    assert (utc_from_ms (anchor + o) "nextRunAt" NextRunOutOfRange = Ok (anchor + o)) as ->; [|done].
    apply utc_from_ms_Ok. split; [|done]. unfold anchor_valid in *. unfold e in Hgt. lia.
  - destruct (checked_i64 o) as [o'|] eqn:Eo; [|apply fail_fails]. apply checked_i64_Some in Eo as [-> _].
    cbn [in_range mbind result_bind]. destruct (checked_i64 (anchor + o)) as [c|] eqn:Ec; [|apply fail_fails].
    apply checked_i64_Some in Ec as [-> _]. cbn [in_range mbind result_bind].
    unfold utc_from_ms. rewrite (proj2 (Z.leb_gt (anchor + o) max_utc)) by done.
    rewrite andb_false_r. apply fail_fails.
Qed.

Lemma fixed_interval_next s step after :
  rule s = FixedInterval step → schedule_ok s → anchor_valid after →
  (∃ u, next_run_at_ms s after = Ok u ∧ first_occurrence_after s after u)
  ∨ fails_with NextRunOutOfRange (next_run_at_ms s after) ∧ ∀ u, occurrence s u → u ≤ after.
Proof using laws.
  intros Hr [Ha Hok] Hafter. rewrite Hr in Hok. simpl in Hok. unfold next_run_at_ms, first_occurrence_after.
  rewrite (proj2 (utc_from_ms_Ok _ _ _ _)) by done. cbn [mbind result_bind]. rewrite Hr.
  unfold occurrence. rewrite Hr. destruct (Z.lt_ge_cases after (anchor_at s)) as [Hlt|Hge].
  - left. exists (anchor_at s). unfold next_fixed_interval. rewrite (proj2 (Z.ltb_lt _ _)) by done.
    split; [done|]. split; [|split; [done|]].
    + unfold anchor_valid in Ha. split; [lia|]. exists 0. lia.
    + intros u' (_ & k & Hk & ->) _. nia.
  - set (next := anchor_at s + ((after - anchor_at s) / step + 1) * step).
    assert (0 ≤ (after - anchor_at s) / step) as Hq by (apply Z.div_pos; lia).
    pose proof (Z.mul_succ_div_gt (after - anchor_at s) step ltac:(lia)) as Hgt.
    assert (∀ k, after < anchor_at s + k * step → next ≤ anchor_at s + k * step) as Hmin.
    { intros k Hk. assert ((after - anchor_at s) / step < k); [|unfold next; nia].
      apply Z.div_lt_upper_bound; lia. }
    destruct (next_fixed_interval_eq (anchor_at s) after step) as [[Hin H]|[Hout H]]; try done; fold next in H.
    + left. exists next. split; [done|]. split; [|split; [unfold next; lia|]].
      * split; [done|]. eexists. split; [|done]. lia.
      * intros u' (_ & k & Hk & ->). apply Hmin.
    + right. split; [done|]. intros u (Hu & k & Hk & ->).
      destruct (Z.le_gt_cases (anchor_at s + k * step) after) as [|Hlater]; [done|].
      pose proof (Hmin k ltac:(lia)). fold next in Hout. lia.
Qed.

(** ** Clocks *)

(** The instants whose local times are computed, and whether they are in the range
    of local times. *)
Abbreviation clock_read s t := (naive_local (timezone s) t ≠ None).

Definition clocks_read (s : NormalizedAutomationSchedule) (after : Z) : Prop :=
  reads_clock (rule s) = true →
  clock_read s (anchor_at s) ∧ clock_read s (threshold_of s after (anchor_at s)).

(** For a weekly rule, the Monday of the anchor's week is a date. *)
Definition starts_week (s : NormalizedAutomationSchedule) : Prop :=
  ∀ i ws t, rule s = RuleWeekly i ws t →
    clock_read s (anchor_at s) →
    date_ok (monday (local_clock (timezone s) (anchor_at s) / DAY_MS)).

Lemma clock_read_ok s t : clock_read s t ↔ local_ok (local_clock (timezone s) t).
Proof.
  destruct (naive_local (timezone s) t) as [local|] eqn:E.
  - apply naive_local_Some in E as [<- ?]. done.
  - split; [done|]. intros H.
    pose proof (proj2 (naive_local_Some (timezone s) t _) (conj eq_refl H)). congruence.
Qed.

Lemma to_local_inv tz t local : to_local tz t = Ok local → naive_local tz t = Some local.
Proof. unfold to_local. destruct (naive_local tz t); naive_solver. Qed.

(** A calendar rule that has a next run has read the clocks. *)
Lemma next_run_reads_clocks s after u :
  calendar (rule s) → next_run_at_ms s after = Ok u →
  anchor_valid after ∧ starts_week s ∧ clocks_read s after.
Proof using laws.
  intros Hcal H. unfold next_run_at_ms in H. apply bind_Ok in H as (x & [Hafter ->]%utc_from_ms_Ok & H).
  split; [done|]. unfold starts_week, clocks_read.
  destruct (rule s) as [step|i m|i t|i ws t|i ds t|i ms ds t] eqn:Hr; [by destruct (Hcal step)|..|done|done].
  1: unfold next_hourly in H. 2: unfold next_daily in H. 3: unfold next_weekly in H.
  all: apply bind_Ok in H as (a & [_ ->]%utc_from_ms_Ok & H);
    apply bind_Ok in H as (al & Hal%to_local_inv & H).
  1,3: apply bind_Ok in H as (ah & Hah & H).
  all: apply bind_Ok in H as (tl & Htl%to_local_inv & H).
  all: split; [|intros _; by rewrite Hal, Htl].
  all: intros i' ws' t' [= -> -> ->] _.
  apply naive_local_Some in Hal as [-> Hl].
  change (local_date al) with (al / DAY_MS) in Hah.
  rewrite monday_of_week_eq in Hah by done. by case_decide.
Qed.

Lemma next_run_after s after :
  anchor_valid after ∨ ¬ anchor_valid after ∧ fails_with InvalidAfter (next_run_at_ms s after).
Proof.
  unfold next_run_at_ms. destruct (utc_from_ms after "afterMs" InvalidAfter) as [x|f] eqn:E.
  - left. by apply utc_from_ms_Ok in E as [? _].
  - right. split.
    + intros Hv. rewrite (proj2 (utc_from_ms_Ok _ _ _ after)) in E by done. done.
    + cbn [mbind result_bind]. unfold utc_from_ms in E. destruct (_ && _); [done|].
      unfold fail in E. injection E as <-. apply fail_fails.
Qed.

(** A rule that reads clocks panics where there is none. *)
Lemma clocks_or_panic s after :
  schedule_ok s → starts_week s → anchor_valid after →
  clocks_read s after ∨ ¬ clocks_read s after ∧ next_run_at_ms s after = Err Panic.
Proof using laws.
  intros [Ha Hok] Hmon Hafter. unfold starts_week, clocks_read in *.
  destruct (reads_clock (rule s)) eqn:Hread; [|by left].
  destruct (naive_local (timezone s) (anchor_at s)) as [al|] eqn:Hal;
    [destruct (naive_local (timezone s) (threshold_of s after (anchor_at s))) as [tl|] eqn:Htl|];
    [by left|right; split; [intros Hc; destruct (Hc eq_refl); congruence|]..].
  all: unfold next_run_at_ms; rewrite (proj2 (utc_from_ms_Ok _ _ _ _)) by done; cbn [mbind result_bind].
  all: destruct (rule s) as [step|i m|i t|i ws t|i ds t|i ms ds t] eqn:Hr; try done.
  all: unfold next_hourly, next_daily, next_weekly;
    rewrite (anchor_utc_Ok _ Ha); cbn [mbind result_bind]; unfold to_local; rewrite Hal;
    cbn [mbind result_bind]; try reflexivity.
  1: rewrite hour_with_minute by lia; cbn [mbind result_bind in_range].
  3: apply naive_local_Some in Hal as [Hal Hl]; change (local_date al) with (al / DAY_MS);
     rewrite monday_of_week_eq by done; rewrite Hal in Hmon;
     rewrite decide_True by (by eapply Hmon); cbn [mbind result_bind].
  all: by rewrite Htl.
Qed.

Lemma max_periods : Z.of_nat MAX_CALENDAR_SEARCH_PERIODS = 4800.
Proof. apply Z2Nat.id. done. Qed.

(** The search of a calendar rule whose clocks are read. *)
Lemma next_run_search s after :
  schedule_ok s → calendar (rule s) → starts_week s → anchor_valid after → clocks_read s after →
  let anchor_local := local_clock (timezone s) (anchor_at s) in
  let threshold_local := local_clock (timezone s) (threshold_of s after (anchor_at s)) in
  ∃ body,
    next_run_at_ms s after
    = search_periods MAX_CALENDAR_SEARCH_PERIODS (rule_interval (rule s)) body
        (start_period s anchor_local threshold_local)
    ∧ walk s after anchor_local body ∧ safe s anchor_local threshold_local body.
Proof using laws.
  intros [Ha Hok] Hcal Hmon Hafter Hread anchor_local threshold_local.
  assert (reads_clock (rule s) = true → local_ok anchor_local ∧ local_ok threshold_local) as Hl.
  { intros H. destruct (Hread H) as [H1 H2]. by rewrite clock_read_ok in H1, H2. }
  eapply next_run_walk; try done. intros i ws t Hr. eapply Hmon; [done|].
  apply Hread. by rewrite Hr.
Qed.

Lemma fixed_or_calendar r : (∃ step, r = FixedInterval step) ∨ calendar r.
Proof. unfold calendar. destruct r; eauto. Qed.

Lemma schedule_interval s : schedule_ok s → calendar (rule s) → 0 < rule_interval (rule s) < 2 ^ 32.
Proof.
  intros [_ Hok] Hcal. destruct (rule s) eqn:E; [by destruct (Hcal step_ms)|..];
    destruct Hok as [Hi _]; exact Hi.
Qed.

(** C27. The next run of an accepted schedule after an instant is the first of its
    occurrences after it: an instant not before the anchor at which the clock of
    the time zone shows, for the first time, a local time the rule selects; and no
    occurrence is passed over, whatever the offset of the zone does in between. *)
Theorem next_run_is_first_occurrence input s after u :
  dto_ok input → normalize_schedule input = Ok s → next_run_at_ms s after = Ok u →
  first_occurrence_after s after u.
Proof using laws.
  intros Hdto Hnorm H. pose proof (normalize_schedule_ok _ _ Hdto Hnorm) as Hok.
  destruct (fixed_or_calendar (rule s)) as [[step Hr]|Hcal].
  - assert (anchor_valid after) as Hafter
      by (unfold next_run_at_ms in H; by apply bind_Ok in H as (x & [? ->]%utc_from_ms_Ok & _)).
    destruct (fixed_interval_next s step after Hr Hok Hafter) as [(v & Hv & Hfirst)|[(? & ? & Hv) _]];
      congruence.
  - destruct (next_run_reads_clocks _ _ _ Hcal H) as (Hafter & Hmon & Hread).
    destruct (next_run_search s after Hok Hcal Hmon Hafter Hread) as (body & Hsearch & Hwalk & _).
    rewrite Hsearch in H. eapply search_first; try done; [by apply schedule_interval|apply Hok].
Qed.

(** When the computation of the next run fails, the error says what is the
    case: the instant is not a timestamp; or no occurrence is after it; or none is
    in the first 4800 periods of the grid from the one the instant is in. *)
Theorem next_run_error_is_final input s after e :
  dto_ok input → normalize_schedule input = Ok s → starts_week s →
  next_run_at_ms s after = Err (Fail e) →
  (error_code e = InvalidAfter ∧ ¬ anchor_valid after)
  ∨ (error_code e = NextRunOutOfRange ∧ ∀ u, occurrence s u → u ≤ after)
  ∨ (error_code e = NoFutureOccurrence
     ∧ ∀ local u, occurs s local u → after < u →
         grid (rule s) (local_clock (timezone s) (threshold_of s after (anchor_at s)))
         + 4799 * rule_interval (rule s) < grid (rule s) local).
Proof using laws.
  intros Hdto Hnorm Hmon H. pose proof (normalize_schedule_ok _ _ Hdto Hnorm) as Hok.
  destruct (next_run_after s after) as [Hafter|[Hafter Hinvalid]]; cycle 1.
  { left. split; [|done]. rewrite H in Hinvalid. by destruct Hinvalid as (? & ? & [= ->]). }
  right. destruct (fixed_or_calendar (rule s)) as [[step Hr]|Hcal].
  - destruct (fixed_interval_next s step after Hr Hok Hafter) as [(v & Hv & _)|[(? & ? & Hv) Hnone]];
      [congruence|]. left. split; [|done]. rewrite H in Hv. by injection Hv as ->.
  - destruct (clocks_or_panic s after Hok Hmon Hafter) as [Hread|[_ Hp]]; [|congruence].
    destruct (next_run_search s after Hok Hcal Hmon Hafter Hread) as (body & Hsearch & Hwalk & _).
    pose proof (schedule_interval s Hok Hcal) as Hi.
    rewrite Hsearch in H. eapply search_ends in H as [[[= ->] Hnone]|[[= ->] Hlater]]; try done;
      [by left| |apply Hok].
    right. split; [done|]. intros local u Hocc Hu.
    pose proof (Hlater local u Hocc Hu) as Hge. rewrite max_periods in Hge.
    pose proof (start_period_bounds s (local_clock (timezone s) (anchor_at s))
                  (local_clock (timezone s) (threshold_of s after (anchor_at s))) Hi). lia.
Qed.

(** The computation of the next run of an accepted schedule panics, by an
    overflow or otherwise, exactly when a rule by the hour, the day or the week asks
    for the local time of an anchor or an instant which has none: that is so at the
    ends of the calendar only.  Other rules never do. *)
Theorem next_run_panics_without_clock input s after :
  dto_ok input → normalize_schedule input = Ok s → starts_week s →
  next_run_at_ms s after = Err Panic ↔ anchor_valid after ∧ ¬ clocks_read s after.
Proof using laws.
  intros Hdto Hnorm Hmon. pose proof (normalize_schedule_ok _ _ Hdto Hnorm) as Hok.
  destruct (next_run_after s after) as [Hafter|[Hafter (? & ? & Hinvalid)]];
    [|split; [congruence|tauto]].
  destruct (clocks_or_panic s after Hok Hmon Hafter) as [Hread|[Hnone Hp]]; [|tauto].
  split; [|tauto]. intros H. exfalso.
  destruct (fixed_or_calendar (rule s)) as [[step Hr]|Hcal].
  - destruct (fixed_interval_next s step after Hr Hok Hafter) as [(v & Hv & _)|[(? & ? & Hv) _]]; congruence.
  - destruct (next_run_search s after Hok Hcal Hmon Hafter Hread) as (body & Hsearch & _ & Hsafe).
    rewrite Hsearch in H. eapply search_safe in H; [done|by apply schedule_interval|done].
Qed.
(** ** Normalisation *)

(** A schedule is accepted exactly when it is valid: an interval of at least
    one, an anchor in the range of timestamps, a named time zone, a time of the day,
    nonempty choices in their range, and for a custom frequency the fields of that
    frequency and no others; and checking never panics, in particular no interval of
    a u32 overflows. *)
Theorem schedule_accepted_when_valid input :
  dto_ok input →
  ((∃ s, normalize_schedule input = Ok s) ↔ valid input) ∧ normalize_schedule input ≠ Err Panic.
Proof.
  intros Hdto. split; [by apply normalize_schedule_accepts|apply normalize_schedule_no_panic].
Qed.

(** C37. What is accepted is well formed: the anchor is a timestamp, the interval is
    positive, times are of the day, and the choices are strictly increasing, in range
    and not empty; so the search over a normal form is in order and makes progress. *)
Theorem normalized_schedule_well_formed input s :
  dto_ok input → normalize_schedule input = Ok s → schedule_ok s.
Proof. apply normalize_schedule_ok. Qed.

(** Normalising is stable: the schedule that is stored with a normal form is
    accepted and has the same normal form, rule and recurrence text. *)
Theorem normal_form_is_stable input s :
  normalize_schedule input = Ok s → normalize_schedule (schedule s) = Ok s.
Proof using laws. apply normalize_schedule_again. Qed.
End Schedules.

(** ** At the Gregorian calendar *)

#[local] Existing Instance gregorian.

(** Half past two every night in Berlin, from 27 March 2026. *)
Definition nightly : AutomationScheduleInputDto :=
  DtoDaily 150 1774612800000 (rs " Europe/Berlin ").
Definition nightly_normal : NormalizedAutomationSchedule :=
  mkNormalized _ (DtoDaily 150 1774612800000 (rs "Europe/Berlin"))
    (rs "FREQ=DAILY;INTERVAL=1;BYHOUR=2;BYMINUTE=30;BYSECOND=0")
    Berlin 1774612800000 (RuleDaily 1 150).

Lemma nightly_normalized : normalize_schedule nightly = Ok nightly_normal.
Proof. reflexivity. Qed.

Lemma nightly_dto : dto_ok nightly.
Proof. split; done. Qed.

Lemma nightly_starts_week : starts_week nightly_normal.
Proof. intros i ws t H. discriminate H. Qed.

(** From 28 March, noon: there is no half past two on the 29th. *)
Lemma next_run_is_first_occurrence_witness :
  first_occurrence_after nightly_normal 1774699200000 1774830600000.
Proof.
  refine (next_run_is_first_occurrence (laws := gregorian_laws) nightly _ _ _
            nightly_dto nightly_normalized _).
  vm_compute. reflexivity.
Defined.

(** On the last day of the calendar, after half past two. *)
Lemma next_run_error_is_final_witness :
  (NextRunOutOfRange = InvalidAfter ∧ ¬ anchor_valid (max_utc - 8000000))
  ∨ (NextRunOutOfRange = NextRunOutOfRange ∧ ∀ u, occurrence nightly_normal u → u ≤ max_utc - 8000000)
  ∨ (NextRunOutOfRange = NoFutureOccurrence
     ∧ ∀ local u, occurs nightly_normal local u → max_utc - 8000000 < u →
         grid (rule nightly_normal)
           (local_clock (timezone nightly_normal)
              (threshold_of nightly_normal (max_utc - 8000000) (anchor_at nightly_normal)))
         + 4799 * rule_interval (rule nightly_normal) < grid (rule nightly_normal) local).
Proof.
  refine (next_run_error_is_final (laws := gregorian_laws) nightly nightly_normal (max_utc - 8000000)
            (mkError NextRunOutOfRange "nextRunAt"
               (rs "next occurrence is outside the supported timestamp range"))
            nightly_dto nightly_normalized nightly_starts_week _).
  vm_compute. reflexivity.
Defined.

Lemma next_run_panics_without_clock_witness :
  next_run_at_ms nightly_normal max_utc = Err Panic
  ↔ anchor_valid max_utc ∧ ¬ clocks_read nightly_normal max_utc.
Proof.
  exact (next_run_panics_without_clock (laws := gregorian_laws) nightly nightly_normal max_utc
           nightly_dto nightly_normalized nightly_starts_week).
Defined.

(** An anchor in the last hours of the timestamps is accepted in a zone east of
    Greenwich; the next run is a panic, not an error. *)
Definition last_hour : Z := (greg_max + 1) * DAY_MS - HOUR_MS.
Definition last_night : NormalizedAutomationSchedule :=
  mkNormalized _ (DtoDaily 150 last_hour (rs "Europe/Berlin"))
    (rs "FREQ=DAILY;INTERVAL=1;BYHOUR=2;BYMINUTE=30;BYSECOND=0") Berlin last_hour (RuleDaily 1 150).

Lemma accepted_anchor_panics :
  normalize_schedule (DtoDaily 150 last_hour (rs "Europe/Berlin")) = Ok last_night
  ∧ next_run_at_ms last_night 0 = Err Panic.
Proof. split; [reflexivity|vm_compute; reflexivity]. Qed.

Lemma schedule_accepted_when_valid_witness :
  ((∃ s, normalize_schedule nightly = Ok s) ↔ valid nightly) ∧ normalize_schedule nightly ≠ Err Panic.
Proof. exact (schedule_accepted_when_valid nightly nightly_dto). Defined.

Lemma normalized_schedule_well_formed_witness : schedule_ok nightly_normal.
Proof. exact (normalized_schedule_well_formed nightly _ nightly_dto nightly_normalized). Defined.

Lemma normal_form_is_stable_witness : normalize_schedule (schedule nightly_normal) = Ok nightly_normal.
Proof. exact (normal_form_is_stable (laws := gregorian_laws) nightly _ nightly_normalized). Defined.
